(* ===== verification/_CoqProject ===== *)
-Q . S2P
Prelude.v
Sql.v
Breaker.v
JobQueue.v
Outbox.v
GoStrings.v
Base64.v
Decimal.v
Ledger.v
Signing.v
Retry.v
Vault.v
Oracle.v
Rpc.v
Submission.v
AuditLog.v
Idempotency.v
Auth.v
Sessions.v
RedisKeys.v
Float64.v
Limiter.v
Quota.v
QuotaRuns.v
QuotaRedis.v
QuotaScenes.v
LimiterRuns.v
AuthGuard.v
AuthGuardRuns.v
AuthGuardScenes.v
VaultStore.v
Indexer.v
IndexerRuns.v
VaultBooks.v
VaultPool.v
MoneyPath.v
VaultService.v
VaultRules.v
VaultCalls.v
VaultStatus.v
VaultScenes.v
Transactions.v
TransactionRules.v
TransactionScenes.v
LedgerPostings.v
JobClients.v
Harvest.v
HarvestRuns.v
HarvestEstimate.v
HarvestScenes.v
Calendar.v
Leadership.v
Schedules.v
ScheduleRuns.v
ScheduleTable.v
ScheduleScenes.v
Reconcile.v
ReconcileRuns.v
ReconcileScenes.v
Gamification.v
GamificationRuns.v
GamificationScenes.v
