(* ===== verification/Prelude.v ===== *)
(** * Verification of the API's reliability and money-handling core

    ** The program

    The API (src/apps/api) serves a savings product on Stellar.  Requests reach
    HTTP handlers, services and PostgreSQL repositories; beside them run a job
    worker, an outbox relay, schedulers and an indexer; transactions of the
    operator are signed by a separate process.  This library models the parts
    that decide whether work is done once, in order and for the right amount:

    - [Breaker] (internal/breaker/breaker.go).  Every chain upstream is called
      through a circuit breaker.
    - [Retry] (internal/retry/retry.go).  Calls are retried with exponential
      backoff inside a budget.
    - [Rpc] (internal/breaker/transport.go, internal/stellar/rpcclient.go).  The
      HTTP transport that puts breakers in front of upstreams by URL, and the
      JSON-RPC client that runs the retry loop over it.
    - [JobQueue] (internal/domain/jobqueue and
      internal/repository/postgres/job_repository.go).  Background work is rows
      of the table jobs, leased by workers.
    - [Outbox] (internal/domain/outbox and
      internal/repository/postgres/outbox_repository.go).  Side effects of a
      transaction are rows of the table outbox, which the relay hands to the
      job queue per aggregate in order.
    - [Ledger] (internal/domain/ledger/model.go,
      internal/service/ledger_service.go,
      internal/repository/postgres/ledger_repository.go).  Money movements are
      balanced entries; balances are cached sums of them.
    - [Vault] (internal/domain/vault: model.go, deactivation.go, position.go).
      The vault aggregate, withdrawal of a yield source, users' positions.
    - [Signing] (internal/signing: intent.go, policy.go, killswitch.go,
      signer.go, audit.go).  The process that holds the operator's key.
    - [Submission] (internal/stellar: submission.go, submission_store.go,
      submission_store_postgres.go, reconciler.go, and the submission path of
      invoker.go).  Every signed transaction is recorded before it is sent, and
      a reconciler asks the chain about those whose answer was lost.
    - [AuditLog] (internal/audit/audit.go, internal/scheduler/audit_chain_verifier.go,
      internal/repository/postgres/audit_log_repository.go).  The hash-chained
      log of actions and its verifier.
    - [Idempotency] (internal/middleware/idempotency.go,
      internal/repository/postgres/idempotency_repository.go, and the route
      patterns of internal/middleware/ratelimit_routes.go).  A request repeated
      under its Idempotency-Key is answered from the first response.
    - [Auth] (internal/auth: jwt.go, context.go; internal/middleware: auth.go,
      authz_rules.go, wallet_binding.go, wallet_resolver.go).  Access tokens
      and the rules that decide who reaches a handler.
    - [Sessions] (internal/domain/session/model.go, internal/service:
      auth_service.go, challenge_store.go, revocation_cache.go;
      internal/repository/postgres/session_repository.go).  Wallet login,
      rotating refresh tokens, logout.
    - [VaultStore] (internal/repository/postgres/vault_repository.go).  Vaults
      and their transactions, with the ledger postings the repository makes in
      the same database transaction.
    - [MoneyPath] (internal/domain/moneypath/switches.go,
      internal/service/money_path_switch_service.go,
      internal/repository/postgres/money_path_switch_repository.go).  The
      operator's switches that pause deposits and withdrawals.
    - [VaultService] (internal/service: vault_service.go,
      operator_funded_deposits.go).  The requests that move money and statuses
      of vaults, with their calls to the chain.
    - [Transactions] (internal/domain/transaction/model.go,
      internal/service: transaction_service.go, transaction_chain_claim.go,
      transaction_poller.go; internal/repository/postgres/transaction_repository.go).
      Transactions that users register by hash and Horizon settles.
    - [Indexer] (internal/stellar: indexer.go, poller.go, balance_ownership.go,
      stroops.go).  Contract events of the chain move the same balances.
    - [Harvest] (internal/harvest: decision.go, engine.go, adapters.go,
      status.go, handler.go, gas.go).  Yield is collected by jobs, where it
      exceeds what collecting costs.
    - [Schedules] (internal/domain/savingsschedule/model.go,
      internal/repository/postgres/savings_schedule_repository.go,
      internal/service: savings_schedule_service.go,
      scheduled_deposit_adapters.go; internal/scheduler: recurring_deposit.go,
      next_run.go).  Recurring deposits of users, submitted as jobs when due.
    - [Leadership] (internal/scheduler/leadership.go).  The election, by an
      advisory lock, of the instance that runs the schedulers.
    - [Limiter] (internal/middleware: ratelimit.go, ratelimit_backend.go,
      ratelimit_routes.go, ratelimit_cost.go).  Who a request comes from, how many
      it may send, and what each costs.
    - [Quota] (internal/middleware/ratelimit_quota.go).  How much work a caller may
      cause.
    - [AuthGuard] (internal/middleware: authlockout.go, authguard.go).  The lockout
      of wallets and clients that fail to sign in.
    - [Reconcile] (internal/reconciliation; the readers of internal/stellar/reader.go
      and the wiring of cmd/api/main.go).  The comparison of recorded balances and
      statuses with the chain, its audit tables, and its age.
    - [Gamification] (internal/domain/savingsstreak/gamification.go,
      internal/repository/postgres/savings_gamification_repository.go,
      internal/service/savings_gamification_service.go).  The daily savings streak,
      its levels and achievements.
    - [Oracle] (internal/oracle/aggregator.go).  The consensus of price sources.

    ** The files

    This file holds what the components share: 64-bit integers with their
    wrap-around, times, identifiers, IEEE floats, the [result] type of a Go
    function that can fail, and the tactics.  [Sql] holds the SELECT, UPDATE
    and aggregate forms of the repositories over tables as finite maps;
    [GoStrings] what the sources use of package strings; [Base64] the URL
    alphabet of encoding/base64; [Decimal] the interface of the third-party
    decimal package; [RedisKeys] the commands of Redis that limits and lockouts
    use, as a class with laws; [Float64] the rounding of the IEEE operations, as
    rational numbers.  Then one file per component.

    A struct is a record, a string constant type an inductive type or its
    strings, an [error] a constructor of the component's error type, a
    [(T, error)] result a [result], a run-time panic the [None] of an option,
    a method that mutates its receiver a function to the new receiver.
    Definitions carry the names of the source; two methods of one name are told
    apart by a prefix ([ClientEnqueue], [WriterInsert], [QueueStats],
    [OutboxStats], [State_String]), a name Rocq reserves or this library uses
    otherwise is varied ([Check_], [For_], [RecordOutcome]), and a long function
    may be split into its loop and the rest.

    - [Breaker]: [Allow], [RecordOutcome], [TakeSnapshot] are one step each,
      since the source runs them under a mutex; callers are the interleavings
      [step] of these.
    - [JobQueue], [Outbox]: a table is a [gmap] from id to row, a statement a
      function on it, and the processes are the interleavings of statements
      ([qstep]; [op], [exec] and [execs]).  [tick] and [process] are the
      worker, over the class [DequeuePort]; [Tick] is the relay, over the
      classes [Enqueuer] and [JobStatusReader], of which the durable queue is
      an instance.
    - [Ledger]: the three tables and the transaction are a [Session], and the
      repository's methods are programs of a small error-and-state monad [M].
    - [Signing]: [Sign] is the pipeline over the class [Backend], which stands
      for the key; the service, its replay guard, counters and the audit
      events are passed along.
    - [Retry]: [Do] runs over the class [World], everything it can observe.
    - [Rpc]: breakers are shared objects in a heap; [RoundTrip] and [call] act
      on it, on the requests put on the network and on the effects counted,
      with what other goroutines do to the breakers as an argument; [runner] is
      the [World] of the client.
    - [Submission]: [send] and [Tick] act on the table of intents; what each
      database call and each RPC call answers is an argument.  The histories
      interleave the statements of any number of calls and sweeps with a chain
      that grows and forgets.
    - [AuditLog]: the table of entries under the service's operations and those of
      an attacker who writes it directly; JSON is the class the section takes.
    - [Idempotency]: [IdempotencyMiddleware] is one request, over an [Env] of
      what it meets; the histories interleave claims, handlers that run,
      completions, releases and purges.
    - [Auth]: [Authenticate] and [WalletBindingCheck] are the two middlewares,
      [authorize] both in the server's order, over an HMAC, the class
      [ClaimsJSON] and what the revocation cache and the wallet resolver answer.
    - [Sessions]: the tables sessions and refresh_tokens are a [DB]; each method
      of the repository is one transaction that commits or leaves it; the calls
      of the service pass the tables, the class [RevocationCache] and the store
      of challenges along, with what fails and what the clocks read as
      arguments.  [sys_step] is the system of interleaved calls.
    - [VaultStore]: a method of the repository is a transaction [Tx] over vaults,
      transactions and the ledger's session, whose constraints are errors of the
      statements.  [Indexer]: the same tables with processed_events and the
      cursor; a pass is a fold over the page the RPC answers.  [VaultBooks] has
      the histories [execs] that interleave the API, the confirmation worker and
      the indexer, and their accounting; [VaultPool] relates it to the ledger,
      and [IndexerRuns] holds the histories of the poller.
    - [MoneyPath]: a method is a program [prog], a tree of its accesses to the
      clock, to the cache under its lock and to a row; a [run] interleaves the
      accesses of any number of checks and changes on any number of instances,
      each with a cache of its own, over one table.
    - [VaultService]: a request is a program [Srv] over the tables of
      [VaultStore], what the operator spent and the calls sent to the chain; a
      division by zero is the outcome [Panics]; the chain, the event verifier,
      the switches and the goal router are arguments.  [VaultRules] has the rules
      of deposits and withdrawals, [VaultCalls] the histories of requests as
      histories of [VaultBooks] and the harvest, [VaultStatus] the statuses, and
      [VaultScenes] concrete services, the edges among them.
    - [Transactions]: the table transactions beside the tables of [VaultStore];
      what Horizon answers is an argument.  [TransactionRules] has the histories
      of statements, [TransactionScenes] concrete ones.
    - [LedgerPostings]: the vault repository's posting code against the ledger
      service's.
    - [JobClients]: what a component that submits jobs may rely on, the class
      [JobClient], and histories [jstep] of a queue whose jobs of one type are
      all submitted by it; the durable queue of [JobQueue] is an instance.
    - [Harvest]: the engine acts on any queue with an [Enqueuer], the handler on
      the [World] of [VaultService]; what the source of vaults, the gas oracle and
      the clocks answer are arguments.  [HarvestRuns] has the gate, the jobs and
      the handler, [HarvestEstimate] the time to the next harvest,
      [HarvestScenes] concrete runs.
    - [Calendar]: the proleptic Gregorian calendar of package time, with its
      inverse.
    - [Schedules]: statements on the table savings_schedules, the service's checks
      before them, the sweep over an [Enqueuer] and the handler over
      [VaultService].  [ScheduleRuns] has the sweep and the handler,
      [ScheduleTable] the table under every request, [ScheduleScenes] concrete
      schedules.
    - [Leadership]: [acquire], [tick] and [release] act on an instance and on the
      sessions and advisory locks of the database; [lstep] interleaves any number
      of instances with sessions that end.
    - [Limiter]: a limiter is an instance of the class [Limiter], in memory or over
      [RedisKeys]; the middlewares are functions of any.  [LimiterRuns] has the
      theorems.
    - [Quota]: buckets in doubles, in memory or in Redis, behind the class
      [QuotaLimiter]; [CostQuota] is one request.  [QuotaRuns] has the buckets in
      memory, [QuotaRedis] the script under instances with clocks of their own,
      [QuotaScenes] concrete callers.
    - [AuthGuard]: a tracker of failures is an instance of the class [AuthLockout];
      [Middleware] is one request, over two trackers, a limiter and the handler.
      [AuthGuardRuns] has what trackers promise ([LockoutLaws]), that both
      implementations keep it, and the guard over any that does; [AuthGuardScenes]
      has concrete ones.
    - [Reconcile]: the comparators are functions of what the listing of vaults and
      the chain answer; the engine acts on any [Repository], of which the audit
      tables, the metered and the dry one are instances; the runner is its age and
      leadership under ticks and scrapes.  [ReconcileRuns] has the theorems,
      [ReconcileScenes] concrete vaults.
    - [Gamification]: the engine is a function of a user's state and an event, with
      days as text; the service acts on three tables, one argument for the fate of
      each statement.  [GamificationRuns] has the theorems, [GamificationScenes]
      concrete users.
    - [Vault], [Oracle]: functions on records; what an oracle source answers is
      an argument.

    ** What the theorems show

    Breaker: at most one live probe, which is never leaked; permits from before
    a transition count for nothing; the ring of buckets implements a log of
    outcomes; snapshots agree with admission; and a window below ten
    nanoseconds, which validation accepts, panics.

    Job queue: which jobs a poll leases, and that none is overlooked; the
    invariant of the table under every interleaving, with the uniqueness of
    live idempotency keys; finality of terminal jobs; a poll never blocks and
    respects the concurrency limits; a failing job is tried at most MaxAttempts
    times and then dead-lettered; and a worker that lost its lease can still
    settle the job.

    Outbox: which events a claim leases; delivery in order within an aggregate
    under every interleaving; no event is lost before retention; idempotent
    inserts; a relay tick, whatever fails in it, is a sequence of the relay's
    statements; what becomes of a claimed event; a dead event unblocks its
    aggregate; and two ways in which ordering and uniqueness end: producers
    that commit late, and a job that finished before its id was recorded.

    Ledger: every movement implements its double-entry specification and a
    failed one leaves no trace in entries and balances, unless it was committed
    and only the answer was lost; a request that is in
    order succeeds; every history of
    movements keeps the books balanced, the cached balances equal to the sums
    of entries, and the pool of each vault equal to its positions; validation
    is characterised, accounts are created once; and deposits above 2^62 stroops wrap.

    Signing: validation is characterised; the key is applied only after all
    four checks, once per id and issue time as long as no request waits for the
    replay guard longer than the retention leaves room for, with one audit event
    per call; the kill switch stops everything; commitments identify intents
    without separator bytes; and the default retention, a request that stalls
    between its clock reading and the guard, and the hash encoding leave three
    gaps.

    Submissions: the reconciler's conclusion from an answer is true of the
    chain; an envelope is sent at most once for a reference; in every reachable
    state a settled row says what happened to its transaction; every mode of
    [send]; a sweep settles what it can; the window read off an envelope; and
    how the time of submission, which is read too late, lets a landed
    transaction be taken for dead.

    Audit log: whatever the service does verifies, for details that JSONB gives
    back as they were; two logs that agree on the
    newest entry's hash agree on everything hashed before it; and what the
    chain does not cover: redacted details, truncation, rows of the other
    writer, batches, and fields that contain newlines; and an honest log with a
    detail that JSONB changes (minus zero, say) fails its verification.

    Idempotency: every request is answered; one handler per key and claim; a
    stored response is the one that was sent, to the same request; a retry
    replays it; and the client that gave up, whose retry runs the handler again.

    Access: a token is accepted exactly when the service signed it and it has
    not expired; who reaches a handler under the server's rules; for how long
    the wallet resolver remembers; and the service key, which skips roles.
    Sessions: the refresh tokens of a session are a chain with at most one end
    that can be spent; which rotation succeeds; a token presented twice revokes
    its session for good; a marked session's access tokens are refused for as
    long as they live; the service's calls are the steps these speak of; a
    challenge is spent once; and a mark that fails, which nobody learns of.

    Vaults and indexer: in every history of deposits, withdrawals, harvests and
    rebalances of the API, confirmations and chain events the balance of a live
    vault is the sum of its recorded transactions, none of which shares a hash
    (amounts of at most eight places, no harvest events: [fair]); a spent hash moves
    nothing, whichever of the three writers presents it; a withdrawal takes no
    more than the balance; the vault's pool in the ledger is its balance, where every move is
    posted; an event is applied once and the poller's cursor passes none that is
    not; and where the two records part: harvests paid out, and moves taken from the
    chain.  A rebalance that presents a hash always fails, one without is recorded
    as a withdrawal and a deposit; one of more than eight places mints the
    rounding, and one of a deleted vault is recorded against a row that is not
    changed.

    Registered transactions: a deposit is credited only for a payment that
    Horizon shows; a completed transaction is one whose hash the books hold; the
    service's calls are the statements these speak of; and a hash that somebody
    else can spend or overwrite.  Postings: on every amount and pair of protocols the
    repository's copy of the posting code does what the ledger service does, or
    parts from it in the way the theorem says.

    Vault service: a history of requests is a history of the repository's
    transactions, at most one for a request, so the books of vaults hold of it; a
    deposit credits what the chain says; the operator pays only what the policy
    allows; a withdrawal reaches the chain only within the balance; a harvest
    splits the yield exactly; statuses move along their transitions; an
    operation is let through only if its switch was released within the lifetime of
    a cached switch and the time a check takes, whatever fails; a switch that cannot
    be read refuses.  And the edges: a
    vault once emptied panics on a deposit, a price that falls with withdrawals,
    a yield that can be harvested again, a close undone by an unpause.

    Harvest: the gate opens exactly above fee and margin; what a pass submits and
    that a submission is queued; one live job per vault and window; the preview
    agrees with the tick; the estimated time is right up to the rounding of one
    division; and what it does wrong: goals that ask for compounding are never
    compounded, a redelivered job pays again.  Leader election: two instances
    believe to lead only while the session of one of them is dead, and it steps
    down at its next heartbeat; after a clean end another instance takes over; and
    the lost answers after which no instance can.  Recurring deposits: the next
    occurrence by the calendar; a sweep submits due occurrences, one live job
    each; the table of schedules stays well formed and has one active schedule for
    a goal; a redelivered occurrence moves nothing; and, with the service that
    main.go builds, no recurring deposit ever lands.

    Request limits: an address that a client puts into its headers is never taken for
    it behind the proxies that are configured; the counter in Redis admits at most
    its limit in every window it lives for; a request costs what the most specific
    pattern says.  Quotas: in memory and in Redis a caller is admitted to no more work
    than the limit and the rate give, whatever the rounding of doubles, the sweeps,
    the expiry of keys and the skew of clocks; a caller that waits as long as it is
    told and a millisecond is admitted, and one that waits no longer may not be.
    Sign-in guard: the lockout doubles up to its cap; of requests that come one
    after the other, each failure is as far from the one before as the lockout of
    those that count demands; nobody is locked out for longer than the cap; and a
    client that asks for a challenge between its guesses is never locked out at
    all, only limited.

    Reconciliation: a sweep over a listing that stands still ends and compares every
    vault with a readable contract, and fails when none could be read; a recorded run
    is settled, with alerts for its own findings; the age is the time since the last pass that succeeded; and the unit
    that the server compares in, which reports vaults whose books are right.

    Savings streak: a day is read back from its text; the streak that the
    engine counts, which bridges every gap of one day, where the README has it bridge
    one; an achievement is announced once and an event
    counts once, whatever fails; levels lie between their thresholds; and savings that
    the engine loses: late ones, the second of a day, concurrent ones and those whose
    last write fails.

    Retry: the loop implements its specification, the five ways it can end
    included; the default schedule.  Calls to upstreams: the longest prefix
    routes; an admitted request goes out once and returns its permit, a
    rejected one reaches nothing; an open breaker fails a call at once; no call
    exceeds its policy and a submission is attempted at most once.  Vault: deactivation, conservation of
    migrations, positions independent of the order of transactions.  Oracle:
    every source is accounted for; the backoff of failing sources.

    ** Bounds

    Loops are folds, structural recursions over the
    data, or, for [Do], the structural recursion over the attempts left, which
    is the loop's own bound.  Two definitions take fuel: [wait], the polling of
    [Idempotency], whose loop is bounded by a clock, for which twenty-one rounds are
    enough when the clock advances by each sleep, and [sweep_pages] of [Reconcile], one
    unit a page, for which a unit for each five hundred vaults and one more are enough
    when the listing stands still; both are theorems.  Integers are kept to 64 bits where the code
    computes with them; a theorem that needs a sum not to wrap says so
    ([sane], [small_request], lengths below 2^62).

    ** What is assumed

    A statement is one atomic step of its table: the re-evaluation of a row
    that was locked and changed while a statement waited for it is not
    modelled, and a statement that fails is no step.  Rows locked by other transactions, the readings of clocks, fresh
    ids and which database calls fail are arguments, over which the theorems
    quantify.  A timestamp of the database keeps the nanoseconds of the Go
    value.  The third-party decimals are the class [Decimal] with the laws
    [DecimalLaws], of which the rationals are an instance; SHA-256, the
    rendering of times, strings.ToLower, the JSON decoder of [AuthGuard] and JSON validity are arguments without
    laws, except where a theorem names one: that SHA-256 does not collide on the
    texts at hand, that rendered times are injective, the laws of the JSON classes
    of [Harvest] and [Schedules] (what was encoded decodes to itself) and of [AuditLog]
    (the empty object is written as it is and read back; other details only where
    a theorem says that they are).
    A key of Redis behaves as its documentation says ([RedisKeysLaws]: what INCR, SET,
    DEL, PEXPIRE and PTTL do to a key and its deadline, of which an instance is
    given; [RedisHashesLaws] for hashes); Lua writes numbers with fourteen digits
    ([LuaLaws]); a call whose answer is lost may or may not have acted.
    Advisory locks behave as PostgreSQL documents them: reentrant in a session and
    released at its end.  Goals, users and mandates answer [Schedules] through
    arguments.  The HMAC of [Auth] has no law: a theorem that needs tokens not
    to be forged says that the tokens that verify were issued.  What txnbuild reads off an envelope is the class [TxnBuild].
    The cursor of the indexer is
    read and written by two statements, with nothing between them in a pass; an
    interleaved write is shown apart.  Of the RPC that serves events [IndexerRuns] assumes that a page holds the
    events from the start ledger in ledger order and that an empty one means there
    are none.  Of the chain [Submission] assumes what Stellar promises: a transaction is
    included at most once, within its time bounds and not before it was sent, and the RPC
    answers from its window of ledgers.  Logging, metrics, tracing and callbacks that only observe are left
    out; an error that callers only log or wrap keeps its kind and loses its
    text.

    ** What is not modelled

    HTTP handlers, the remaining middleware, configuration, telemetry and the
    web front ends; the building and simulation of contract invocations and the
    contracts; in the indexer the fetching of events and the tables of the
    emergency queue, penalties and rebalance legs, in the vault repository
    allocations and listings; the transport of the signer; in the vault
    service allocations, previews, projections and the share-price cache; the
    services of savings goals and notifications, and the other schedulers.  Of the vault
    model the capacity display and of the oracle the cached service are left
    out. *)
From stdpp Require Export prelude strings gmap.
From Stdlib Require Export ZArith Lia ZifyNat.
From Stdlib Require Import SpecFloat.

#[export] Set Default Goal Selector "!".

Open Scope Z_scope.

#[global] Arguments Nat.modulo : simpl never.
#[global] Arguments Z.pow : simpl never.

Declare Scope go_scope.
Delimit Scope go_scope with go.

(** * Go's fixed-width integers

    A Go [int] and [int64] are 64-bit two's complement on the platforms the
    API is built for; arithmetic wraps silently.  Values are kept in [Z] and
    every operation that can leave the width is followed by [i64]/[u64]. *)

Definition min_i64 : Z := - 2 ^ 63.
Definition max_i64 : Z := 2 ^ 63 - 1.

Definition i64 (x : Z) : Z := (x + 2 ^ 63) `mod` 2 ^ 64 - 2 ^ 63.
Definition u64 (x : Z) : Z := x `mod` 2 ^ 64.

(** Go's [+], [-] and [*] on int64. *)
Notation "x +w y" := (i64 (x + y)) (at level 50, left associativity) : go_scope.
Notation "x -w y" := (i64 (x - y)) (at level 50, left associativity) : go_scope.
Notation "x *w y" := (i64 (x * y)) (at level 40, left associativity) : go_scope.

Definition in_i64 (x : Z) : Prop := min_i64 ≤ x ≤ max_i64.

Lemma i64_id x : in_i64 x → i64 x = x.
Proof.
  unfold in_i64, i64, min_i64, max_i64. intros H.
  rewrite Z.mod_small; lia.
Qed.

Lemma i64_range x : in_i64 (i64 x).
Proof.
  unfold in_i64, i64, min_i64, max_i64.
  pose proof (Z.mod_pos_bound (x + 2 ^ 63) (2 ^ 64)). lia.
Qed.

Lemma u64_id x : 0 ≤ x < 2 ^ 64 → u64 x = x.
Proof. intros H. unfold u64. by rewrite Z.mod_small. Qed.

Lemma u64_range x : 0 ≤ u64 x < 2 ^ 64.
Proof. apply Z.mod_pos_bound. lia. Qed.

(** Saturation to the int64 range: what [time.Time.Sub] does. *)
Definition sat64 (x : Z) : Z := Z.max min_i64 (Z.min max_i64 x).

Lemma sat64_id x : in_i64 x → sat64 x = x.
Proof. unfold in_i64, sat64. lia. Qed.

Lemma sat64_range x : in_i64 (sat64 x).
Proof. unfold in_i64, sat64, min_i64, max_i64. lia. Qed.

Lemma sat64_mono x y : x ≤ y → sat64 x ≤ sat64 y.
Proof. unfold sat64. lia. Qed.

(** * Time

    A [time.Time] is the number of nanoseconds since the Unix epoch, a
    [time.Duration] a number of nanoseconds (int64). *)

Abbreviation Time := Z (only parsing).
Abbreviation Duration := Z (only parsing).

Definition Nanosecond : Duration := 1.
Definition Microsecond : Duration := 1000 * Nanosecond.
Definition Millisecond : Duration := 1000 * Microsecond.
Definition Second : Duration := 1000 * Millisecond.
Definition Minute : Duration := 60 * Second.
Definition Hour : Duration := 60 * Minute.

(** The zero [time.Time], January 1, year 1 UTC. *)
Definition zeroTime : Time := - 62135596800 * Second.

(** [t.Sub(u)]: the difference, saturated to the range of a Duration. *)
Definition timeSub (t u : Time) : Duration := sat64 (t - u).

(** [t.Add(d)] *)
Definition timeAdd (t : Time) (d : Duration) : Time := t + d.

(** [time.Unix(sec, 0)]: the seconds are counted from year 1 in an int64, so
    the addition of the offset wraps for the largest arguments. *)
Definition timeUnix (sec : Z) : Time := (i64 (sec + 62135596800) - 62135596800) * Second.

Lemma timeUnix_id m : 0 < m < 2 ^ 63 - 62135596800 → timeUnix m = m * Second.
Proof. intros Hm. unfold timeUnix. rewrite i64_id; [f_equal; lia|unfold in_i64, min_i64, max_i64; lia]. Qed.

Lemma timeUnix_wraps m :
  2 ^ 63 - 62135596800 ≤ m < 2 ^ 63 →
  timeUnix m = (m - 2 ^ 64) * Second ∧ timeUnix m < zeroTime.
Proof.
  intros Hm. unfold timeUnix, i64, zeroTime.
  assert ((m + 62135596800 + 2 ^ 63) `mod` 2 ^ 64 = m + 62135596800 - 2 ^ 63) as ->
    by (Z.to_euclidean_division_equations; lia).
  unfold Second, Millisecond, Microsecond, Nanosecond. lia.
Qed.

(** * Identifiers

    A [uuid.UUID] is a 16-byte array that the code only compares; it is read
    as a number, [uuid.Nil] as 0. *)
Abbreviation UUID := Z (only parsing).
Definition uuid_Nil : UUID := 0.

(** * IEEE 754 binary64

    Go's [float64], through the Standard Library's executable specification
    of IEEE arithmetic (rounding to nearest, ties to even). *)

Abbreviation float64 := spec_float (only parsing).

Definition f64_prec : Z := 53.
Definition f64_emax : Z := 1024.

(** [float64(x)] for an integer [x]. *)
Definition f64_of_Z (x : Z) : float64 := binary_normalize f64_prec f64_emax x 0 false.
Definition f64_div (x y : float64) : float64 := SFdiv f64_prec f64_emax x y.
Definition f64_mul (x y : float64) : float64 := SFmul f64_prec f64_emax x y.
Definition f64_add (x y : float64) : float64 := SFadd f64_prec f64_emax x y.
Definition f64_sub (x y : float64) : float64 := SFsub f64_prec f64_emax x y.
Definition f64_leb (x y : float64) : bool := SFleb x y.
Definition f64_ltb (x y : float64) : bool := SFltb x y.
Definition f64_geb (x y : float64) : bool := SFleb y x.
Definition f64_gtb (x y : float64) : bool := SFltb y x.
Definition f64_zero : float64 := S754_zero false.
Definition f64_one : float64 := f64_of_Z 1.
(** A decimal literal [n / d], correctly rounded. *)
Definition f64_lit (n d : Z) : float64 := f64_div (f64_of_Z n) (f64_of_Z d).

(** [math.Pow(2, n)] for an integral [n]: exact, infinite past the range. *)
Definition f64_pow2 (n : Z) : float64 := binary_normalize f64_prec f64_emax 1 n false.

(** [int64(x)]: truncation towards zero.  The result for a value outside the
    int64 range is implementation-defined in Go; amd64 gives the minimum. *)
Definition f64_trunc (x : float64) : Z :=
  match x with
  | S754_finite s m e =>
      let a := if 0 <=? e then Z.pos m * 2 ^ e else Z.pos m / 2 ^ (- e) in
      if s then - a else a
  | _ => 0
  end.
Definition f64_to_i64 (x : float64) : Z :=
  match x with
  | S754_nan | S754_infinity _ => min_i64
  | _ =>
      let z := f64_trunc x in
      if (min_i64 <=? z) && (z <=? max_i64) then z else min_i64
  end.

Lemma f64_half : f64_lit 1 2 = S754_finite false 4503599627370496 (-53).
Proof. vm_compute. reflexivity. Qed.

(** * Results

    A Go function that returns [(T, error)] is a [result]; a run-time panic
    is the [None] of an enclosing option. *)

Inductive result (E T : Type) : Type :=
| Ok (t : T)
| Err (e : E).
Arguments Ok {E T} t.
Arguments Err {E T} e.

#[export] Instance result_ret {E} : MRet (result E) := λ T t, Ok t.
#[export] Instance result_bind {E} : MBind (result E) :=
  λ T U f r, match r with Ok t => f t | Err e => Err e end.
#[export] Instance result_fmap {E} : FMap (result E) :=
  λ T U f r, match r with Ok t => Ok (f t) | Err e => Err e end.

Definition is_ok {E T} (r : result E T) : bool :=
  match r with Ok _ => true | Err _ => false end.

(** [if cond then return err]: the guards at the head of a Go function. *)
Definition guard_err {E} (failing : bool) (e : E) : result E unit :=
  if failing then Err e else Ok tt.

Lemma bind_Ok {E T U} (r : result E T) (f : T → result E U) u :
  (r ≫= f) = Ok u ↔ ∃ t, r = Ok t ∧ f t = Ok u.
Proof.
  destruct r as [t|e]; simpl; split; [eauto| |done|].
  - by intros (? & [= ->] & ?).
  - by intros (? & ? & _).
Qed.

Lemma guard_err_Ok {E} b (e : E) u : guard_err b e = Ok u ↔ b = false.
Proof. destruct b, u; simpl; naive_solver. Qed.

(** * Boolean reflection *)

(** Turns the boolean comparisons of the code into the propositions they
    decide, in the hypotheses and in the goal. *)
Ltac go_bool :=
  repeat match goal with
  | H : context [Z.eqb _ _ = true] |- _ => rewrite Z.eqb_eq in H
  | H : context [Z.eqb _ _ = false] |- _ => rewrite Z.eqb_neq in H
  | H : context [Z.ltb _ _ = true] |- _ => rewrite Z.ltb_lt in H
  | H : context [Z.ltb _ _ = false] |- _ => rewrite Z.ltb_ge in H
  | H : context [Z.leb _ _ = true] |- _ => rewrite Z.leb_le in H
  | H : context [Z.leb _ _ = false] |- _ => rewrite Z.leb_gt in H
  | H : _ && _ = true |- _ => apply andb_true_iff in H as [? ?]
  | H : _ || _ = false |- _ => apply orb_false_iff in H as [? ?]
  | H : negb _ = true |- _ => apply negb_true_iff in H
  | H : negb _ = false |- _ => apply negb_false_iff in H
  | H : bool_decide _ = true |- _ => apply bool_decide_eq_true in H
  | H : bool_decide _ = false |- _ => apply bool_decide_eq_false in H
  end.

(** Splits the first conditional of the goal or of a hypothesis and keeps
    what the split taught. *)
Ltac go_case :=
  match goal with
  | |- context [if ?b then _ else _] => destruct b eqn:?
  | H : context [if ?b then _ else _] |- _ => destruct b eqn:?
  | |- context [match ?x with _ => _ end] => destruct x eqn:?
  | H : context [match ?x with _ => _ end] |- _ => destruct x eqn:?
  end.

Ltac go_cases := repeat (go_case; simplify_eq/=); go_bool.

(** [lia] with quotients and remainders, for [Z] and [nat]. *)
Ltac go_mod := zify; Z.to_euclidean_division_equations; lia.

Create HintDb go discriminated.
#[export] Hint Resolve i64_range u64_range sat64_range : go.
