(* ===== verification/Sql.v ===== *)
(** What the repositories use of SQL, over tables as finite maps from the
    primary key to the row: [SELECT ... WHERE ... ORDER BY ... LIMIT], the
    [UPDATE ... FROM selection] that leases rows, and guarded single-row
    updates. *)

From stdpp Require Import sorting.
From S2P Require Import Prelude.
Open Scope Z_scope.

(** How a statement ends: it succeeds, or its error reaches the caller after
    the statement has or has not taken effect. *)
Inductive dbres := DBOk | DBFail (committed : bool).

Definition effect {A} (d : dbres) (t t' : A) : A :=
  match d with DBOk | DBFail true => t' | DBFail false => t end.

Definition failed (d : dbres) : bool := match d with DBOk => false | DBFail _ => true end.

Section Select.
Context {K V : Type} `{Countable K}.
Implicit Types (m : gmap K V) (f : K * V → bool).

(** [SELECT * FROM m WHERE f ORDER BY R LIMIT n]; rows that tie keep the
    order of the scan. *)
Definition select_rows (R : relation (K * V)) `{!RelDecision R} f (n : Z) m : list (K * V) :=
  take (Z.to_nat n) (merge_sort R (List.filter f (map_to_list m))).

(** [SELECT COUNT of rows WHERE f] *)
Definition count_rows f m : Z := Z.of_nat (length (List.filter f (map_to_list m))).

(** [UPDATE m SET row = g row FROM l WHERE m.id = l.id] *)
Definition update_rows (g : V → V) (l : list (K * V)) : list (K * V) :=
  (λ x, (x.1, g x.2)) <$> l.
Definition overwrite (g : V → V) (l : list (K * V)) m : gmap K V :=
  list_to_map (update_rows g l) ∪ m.

(** [UPDATE m SET row = g row WHERE id = k AND guard row] *)
Definition update_where (guard : V → bool) (g : V → V) (k : K) m : gmap K V :=
  alter (λ v, if guard v then g v else v) k m.

Lemma filtered_In f m x : x ∈ List.filter f (map_to_list m) ↔ m !! x.1 = Some x.2 ∧ f x = true.
Proof.
  rewrite list_elem_of_In, List.filter_In, <-list_elem_of_In.
  destruct x as [k v]. by rewrite elem_of_map_to_list.
Qed.

Lemma filtered_NoDup f m : NoDup (List.filter f (map_to_list m)).*1.
Proof.
  pose proof (NoDup_fst_map_to_list m) as Hnd.
  induction (map_to_list m) as [|x l IH]; [done|]. simpl in *.
  apply NoDup_cons in Hnd as [Hx Hnd]. destruct (f x); [|by apply IH].
  simpl. apply NoDup_cons. split; [|by apply IH].
  intros (y & Hy & Hin)%list_elem_of_fmap. apply Hx. rewrite Hy. apply list_elem_of_fmap_2.
  apply list_elem_of_In in Hin. apply filter_In in Hin as [Hin _]. by apply list_elem_of_In.
Qed.

Section Ordered.
Context (R : relation (K * V)) `{!RelDecision R}.

Lemma select_In f n m x :
  x ∈ select_rows R f n m → m !! x.1 = Some x.2 ∧ f x = true.
Proof.
  intros Hx. apply elem_of_take in Hx as (i & Hi & _). apply list_elem_of_lookup_2 in Hi.
  rewrite merge_sort_Permutation in Hi. by apply filtered_In.
Qed.

Lemma select_NoDup f n m : NoDup (select_rows R f n m).*1.
Proof.
  pose proof (filtered_NoDup f m) as Hnd. rewrite <-(merge_sort_Permutation R) in Hnd.
  rewrite <-(take_drop (Z.to_nat n) (merge_sort R _)), fmap_app in Hnd.
  by apply NoDup_app in Hnd as (? & _).
Qed.

Lemma select_length f n m : Z.of_nat (length (select_rows R f n m)) ≤ Z.max 0 n.
Proof. unfold select_rows. rewrite length_take. lia. Qed.

Lemma select_none f n m : n ≤ 0 → select_rows R f n m = [].
Proof. intros Hn. unfold select_rows. by replace (Z.to_nat n) with 0%nat by lia. Qed.

(** A row that satisfies the condition and is not selected comes after
    every selected row, and the limit is reached. *)
Lemma select_cut `{!Total R, !Transitive R} f n m y :
  m !! y.1 = Some y.2 → f y = true → y ∉ select_rows R f n m →
  Z.of_nat (length (select_rows R f n m)) = Z.max 0 n
  ∧ ∀ x, x ∈ select_rows R f n m → R x y.
Proof.
  intros Hy Hf Hn. set (l := merge_sort R (List.filter f (map_to_list m))).
  assert (y ∈ l) as Hin by (unfold l; rewrite merge_sort_Permutation; by apply filtered_In).
  assert (y ∈ drop (Z.to_nat n) l) as Hd.
  { rewrite <-(take_drop (Z.to_nat n) l) in Hin. by apply elem_of_app in Hin as [?|?]. }
  split.
  - unfold select_rows. fold l. rewrite length_take.
    destruct (decide (Z.to_nat n ≤ length l)%nat); [lia|].
    rewrite drop_ge in Hd by lia. set_solver.
  - intros x Hx. eapply (StronglySorted_app_1_elem_of R); [|exact Hx|exact Hd].
    change (StronglySorted R (take (Z.to_nat n) l ++ drop (Z.to_nat n) l)).
    rewrite take_drop. apply StronglySorted_merge_sort; apply _.
Qed.
End Ordered.

Lemma update_rows_fst g (l : list (K * V)) : (update_rows g l).*1 = l.*1.
Proof. unfold update_rows. by rewrite <-list_fmap_compose. Qed.

Lemma length_update_rows g (l : list (K * V)) : length (update_rows g l) = length l.
Proof. apply length_fmap. Qed.

Lemma overwrite_in g l m x : NoDup l.*1 → x ∈ l → overwrite g l m !! x.1 = Some (g x.2).
Proof.
  intros Hnd Hx. unfold overwrite. apply lookup_union_Some_l.
  apply elem_of_list_to_map_1; [by rewrite update_rows_fst|].
  by apply (list_elem_of_fmap_2 (λ x, (x.1, g x.2))) in Hx.
Qed.

Lemma overwrite_out g l m k : k ∉ l.*1 → overwrite g l m !! k = m !! k.
Proof.
  intros Hk. unfold overwrite. apply lookup_union_r.
  apply not_elem_of_list_to_map_1. by rewrite update_rows_fst.
Qed.

(** What an overwrite of rows of the table does to one row. *)
Lemma overwrite_row g l m k v :
  NoDup l.*1 → (∀ x, x ∈ l → m !! x.1 = Some x.2) → m !! k = Some v →
  overwrite g l m !! k = Some v ∨ (k, v) ∈ l ∧ overwrite g l m !! k = Some (g v).
Proof.
  intros Hnd Hl Hk. destruct (decide (k ∈ l.*1)) as [Hin|Hout].
  - right. apply list_elem_of_fmap in Hin as (x & -> & Hx).
    pose proof (Hl x Hx). simplify_eq. destruct x as [k v]. split; [done|].
    by apply (overwrite_in g l m (k, v)).
  - left. by rewrite overwrite_out.
Qed.

Lemma overwrite_new g l m k :
  (∀ x, x ∈ l → m !! x.1 = Some x.2) → m !! k = None → overwrite g l m !! k = None.
Proof.
  intros Hl Hk. rewrite overwrite_out; [done|].
  intros (x & -> & Hx)%list_elem_of_fmap. apply Hl in Hx. congruence.
Qed.

Lemma update_where_row guard g k m k' v :
  m !! k' = Some v →
  update_where guard g k m !! k' = Some v
  ∨ k' = k ∧ guard v = true ∧ update_where guard g k m !! k' = Some (g v).
Proof.
  intros Hv. unfold update_where. rewrite lookup_alter. case_decide; [|by left].
  subst. rewrite Hv. simpl. destruct (guard v); auto.
Qed.

Lemma update_where_new guard g k m k' : m !! k' = None → update_where guard g k m !! k' = None.
Proof.
  intros Hn. unfold update_where. rewrite lookup_alter. case_decide; [|done].
  subst. by rewrite Hn.
Qed.

(** ** Sums over a table *)

Definition msum (g : K → V → Z) m : Z := foldr (λ (p : K * V) s, g p.1 p.2 + s) 0 (map_to_list m).

Lemma msum_empty g : msum g ∅ = 0.
Proof. unfold msum. by rewrite map_to_list_empty. Qed.

Lemma msum_insert g m i x : m !! i = None → msum g (<[i := x]> m) = g i x + msum g m.
Proof.
  intros Hi. unfold msum.
  assert (∀ l l' : list (K * V), l ≡ₚ l' →
    foldr (λ (p : K * V) s, g p.1 p.2 + s) 0 l = foldr (λ (p : K * V) s, g p.1 p.2 + s) 0 l') as Hp
    by (induction 1; simpl; lia).
  by rewrite (Hp _ _ (map_to_list_insert m i x Hi)).
Qed.

Lemma msum_ext g g' m : (∀ i x, m !! i = Some x → g i x = g' i x) → msum g m = msum g' m.
Proof.
  induction m as [|i x m Hi IH] using map_ind; intros Hg; [by rewrite !msum_empty|].
  rewrite !msum_insert by done. rewrite Hg by apply lookup_insert_eq. f_equal. apply IH.
  intros j y Hj. apply Hg. rewrite lookup_insert_ne; [done|congruence].
Qed.

Lemma msum_add g g' m : msum (λ i x, g i x + g' i x) m = msum g m + msum g' m.
Proof.
  induction m as [|i x m Hi IH] using map_ind; [by rewrite !msum_empty|].
  rewrite !msum_insert, IH by done. lia.
Qed.

Lemma msum_zero g m : (∀ i x, m !! i = Some x → g i x = 0) → msum g m = 0.
Proof.
  induction m as [|i x m Hi IH] using map_ind; intros Hg; [by rewrite !msum_empty|].
  rewrite msum_insert, Hg by (done || apply lookup_insert_eq). rewrite IH; [done|].
  intros j y Hj. apply Hg. rewrite lookup_insert_ne; [done|congruence].
Qed.

(** Only one row counts. *)
Lemma msum_single g m i x :
  m !! i = Some x → (∀ j y, m !! j = Some y → j ≠ i → g j y = 0) → msum g m = g i x.
Proof.
  intros Hi Hg. rewrite <-(insert_delete_id m i x) by done.
  rewrite msum_insert by apply lookup_delete_eq. rewrite msum_zero; [lia|].
  intros j y [Hne Hj]%lookup_delete_Some. by apply Hg.
Qed.

(** Rows that do not count may be added. *)
Lemma msum_subseteq g m m' :
  m ⊆ m' → (∀ i x, m !! i = None → m' !! i = Some x → g i x = 0) → msum g m' = msum g m.
Proof.
  revert m. induction m' as [|i x m' Hi IH] using map_ind; intros m Hsub Hg.
  - f_equal. by apply (anti_symm (⊆)); [apply map_empty_subseteq|].
  - rewrite msum_insert by done. destruct (m !! i) as [y|] eqn:Hmi.
    + pose proof (lookup_weaken _ _ _ _ Hmi Hsub) as E. rewrite lookup_insert_eq in E.
      injection E as ->. rewrite <-(insert_delete_id m i y) by done.
      rewrite msum_insert by apply lookup_delete_eq. f_equal. apply IH.
      * rewrite <-(delete_insert_id m' i y) by done. by apply delete_mono.
      * intros j z Hj Hz. assert (i ≠ j) by congruence.
        rewrite lookup_delete_ne in Hj by done. apply Hg; [done|]. by rewrite lookup_insert_ne.
    + rewrite Hg by (done || apply lookup_insert_eq). rewrite Z.add_0_l. apply IH.
      * rewrite <-(delete_insert_id m' i x) by done. rewrite <-(delete_id m i) by done.
        by apply delete_mono.
      * intros j z Hj Hz. apply Hg; [done|]. rewrite lookup_insert_ne; [done|congruence].
Qed.
End Select.
