(* ===== verification/Breaker.v ===== *)
(** The circuit breaker of the chain upstreams (internal/breaker/breaker.go):
    the three-state machine, its rolling window of bucketed outcomes, the
    single-flight half-open probe and the generation check that discards
    outcomes of superseded permits.

    The mutex makes every exported method one atomic step, so a method is one
    function from the breaker (and the clock reading it takes) to the new
    breaker and its results, and concurrency is an interleaving of such steps
    ([step] below).  [None] is Go's run-time panic (division by a zero bucket
    duration). *)

From S2P Require Import Prelude.
Open Scope Z_scope.
Open Scope go_scope.

(** ** Data *)

Inductive State := StateClosed | StateHalfOpen | StateOpen.

#[export] Instance State_eq_dec : EqDecision State.
Proof. solve_decision. Defined.

Definition State_String (s : State) : string :=
  match s with
  | StateClosed => "closed"
  | StateHalfOpen => "half_open"
  | StateOpen => "open"
  end.

Definition windowBuckets : nat := 10.

Record Config := mkConfig {
  FailureRatio : float64;
  MinRequests : Z;
  Window : Duration;
  OpenDuration : Duration;
}.

Definition DefaultFailureRatio : float64 := f64_lit 1 2.
Definition DefaultMinRequests : Z := 10.
Definition DefaultWindow : Duration := 60 * Second.
Definition DefaultOpenDuration : Duration := 15 * Second.

Definition withDefaults (c : Config) : Config :=
  {| FailureRatio :=
       if f64_leb (FailureRatio c) f64_zero then DefaultFailureRatio else FailureRatio c;
     MinRequests := if MinRequests c <=? 0 then DefaultMinRequests else MinRequests c;
     Window := if Window c <=? 0 then DefaultWindow else Window c;
     OpenDuration := if OpenDuration c <=? 0 then DefaultOpenDuration else OpenDuration c |}.

Inductive ConfigError := BadFailureRatio | BadMinRequests | BadWindow | BadOpenDuration.

Definition Validate (c : Config) : result ConfigError unit :=
  guard_err (f64_leb (FailureRatio c) f64_zero || f64_gtb (FailureRatio c) f64_one)
    BadFailureRatio;;
  guard_err (MinRequests c <=? 0) BadMinRequests;;
  guard_err (Window c <=? 0) BadWindow;;
  guard_err (OpenDuration c <=? 0) BadOpenDuration.

Inductive Outcome := Success | Failure | Ignored.

#[export] Instance Outcome_eq_dec : EqDecision Outcome.
Proof. solve_decision. Defined.

Record Permit := mkPermit {
  p_generation : Z;
  p_probe : bool;
  p_valid : bool;
}.

#[export] Instance Permit_eq_dec : EqDecision Permit.
Proof. solve_decision. Defined.

Record bucket := mkBucket { total : Z; failures : Z }.

Definition emptyBucket : bucket := mkBucket 0 0.
Definition emptyWindow : list bucket := replicate windowBuckets emptyBucket.

Record Breaker := mkBreaker {
  name : string;
  cfg : Config;
  onTransition : bool; (* whether the callback is non-nil *)
  state : State;
  generation : Z;
  openedAt : Time;
  probeInFlight : bool;
  buckets : list bucket;
  bucketIndex : nat;
  bucketStart : Time;
  bucketDur : Duration;
  rejected : Z;
}.

Record OpenError := mkOpenError { oe_Name : string; oe_RetryIn : Duration }.

Record Snapshot := mkSnapshot {
  s_Name : string;
  s_State : State;
  s_Total : Z;
  s_Failures : Z;
  s_FailureRatio : float64;
  s_Rejected : Z;
  s_RetryIn : Duration;
}.

Record transition := mkTransition { from : State; to : State; snap : Snapshot }.

(** Field assignments. *)
Definition set_rejected (r : Z) (b : Breaker) : Breaker :=
  mkBreaker (name b) (cfg b) (onTransition b) (state b) (generation b) (openedAt b)
    (probeInFlight b) (buckets b) (bucketIndex b) (bucketStart b) (bucketDur b) r.
Definition set_probe (p : bool) (b : Breaker) : Breaker :=
  mkBreaker (name b) (cfg b) (onTransition b) (state b) (generation b) (openedAt b)
    p (buckets b) (bucketIndex b) (bucketStart b) (bucketDur b) (rejected b).
Definition set_window (bs : list bucket) (i : nat) (start : Time) (b : Breaker) : Breaker :=
  mkBreaker (name b) (cfg b) (onTransition b) (state b) (generation b) (openedAt b)
    (probeInFlight b) bs i start (bucketDur b) (rejected b).
Definition set_state (s : State) (g : Z) (p : bool) (o : Time) (b : Breaker) : Breaker :=
  mkBreaker (name b) (cfg b) (onTransition b) s g o
    p (buckets b) (bucketIndex b) (bucketStart b) (bucketDur b) (rejected b).

(** ** Operations *)

Definition NewWithClock (nm : string) (c : Config) (cb : bool) (now : Time) : Breaker :=
  let c := withDefaults c in
  {| name := nm; cfg := c; onTransition := cb; state := StateClosed;
     generation := 0; openedAt := zeroTime; probeInFlight := false;
     buckets := emptyWindow; bucketIndex := 0%nat; bucketStart := now;
     bucketDur := Window c `quot` Z.of_nat windowBuckets; rejected := 0 |}.

Definition countsLocked (b : Breaker) : Z * Z :=
  fold_left (λ acc bkt, (acc.1 +w total bkt, acc.2 +w failures bkt))
    (buckets b) (0, 0).

(** One turn of the loop that clears the buckets that aged out. *)
Fixpoint clearSteps (steps : nat) (bs : list bucket) (i : nat) : list bucket * nat :=
  match steps with
  | O => (bs, i)
  | S steps =>
      let i := ((i + 1) mod windowBuckets)%nat in
      clearSteps steps (<[i := emptyBucket]> bs) i
  end.

Definition advanceLocked (now : Time) (b : Breaker) : option Breaker :=
  let elapsed := timeSub now (bucketStart b) in
  if elapsed <? bucketDur b then Some b
  else if bucketDur b =? 0 then None (* integer divide by zero *)
  else
    let steps := elapsed `quot` bucketDur b in
    let '(bs, i) :=
      if Z.of_nat windowBuckets <=? steps then (emptyWindow, 0%nat)
      else clearSteps (Z.to_nat steps) (buckets b) (bucketIndex b) in
    Some (set_window bs i (bucketStart b + (steps *w bucketDur b)) b).

Definition trippedLocked (b : Breaker) : bool :=
  let '(tot, fails) := countsLocked b in
  if tot <? MinRequests (cfg b) then false
  else f64_geb (f64_div (f64_of_Z fails) (f64_of_Z tot)) (FailureRatio (cfg b)).

Definition snapshotLocked (now : Time) (b : Breaker) : Snapshot :=
  let '(tot, fails) := countsLocked b in
  let ratio :=
    if 0 <? tot then f64_div (f64_of_Z fails) (f64_of_Z tot) else f64_zero in
  let remaining := OpenDuration (cfg b) -w timeSub now (openedAt b) in
  let '(st, retryIn) :=
    if decide (state b = StateOpen) then
      if 0 <? remaining then (StateOpen, remaining) else (StateHalfOpen, 0)
    else (state b, 0) in
  mkSnapshot (name b) st tot fails ratio (rejected b) retryIn.

Definition setStateLocked (to : State) (now : Time) (b : Breaker)
    : Breaker * option transition :=
  let from := state b in
  if decide (from = to) then (b, None)
  else
    let b1 := set_state to (u64 (generation b + 1)) false
                (match to with StateOpen => now | _ => openedAt b end) b in
    let b2 := match to with
              | StateClosed => set_window emptyWindow 0%nat now b1
              | _ => b1
              end in
    (b2, Some (mkTransition from to (snapshotLocked now b2))).

Definition openErrorLocked (now : Time) (b : Breaker) : OpenError :=
  let retryIn := OpenDuration (cfg b) -w timeSub now (openedAt b) in
  mkOpenError (name b) (if retryIn <? 0 then 0 else retryIn).

Definition zeroPermit : Permit := mkPermit 0 false false.

Definition allowLocked (now : Time) (b : Breaker)
    : option (result OpenError Permit * option transition * Breaker) :=
  b ← advanceLocked now b;
  let '(b, event) :=
    if bool_decide (state b = StateOpen)
       && (OpenDuration (cfg b) <=? timeSub now (openedAt b))
    then setStateLocked StateHalfOpen now b
    else (b, None) in
  match state b with
  | StateOpen =>
      let b := set_rejected (u64 (rejected b + 1)) b in
      Some (Err (openErrorLocked now b), event, b)
  | StateHalfOpen =>
      if probeInFlight b then
        let b := set_rejected (u64 (rejected b + 1)) b in
        Some (Err (openErrorLocked now b), event, b)
      else
        let b := set_probe true b in
        Some (Ok (mkPermit (generation b) true true), event, b)
  | StateClosed => Some (Ok (mkPermit (generation b) false true), event, b)
  end.

(** The call of the transition callback, outside the lock. *)
Definition emit (event : option transition) (b : Breaker)
    : list (string * transition) :=
  match event with
  | Some e => if onTransition b then [(name b, e)] else []
  | None => []
  end.

Definition Allow (now : Time) (b : Breaker)
    : option (result OpenError Permit * list (string * transition) * Breaker) :=
  '(r, event, b) ← allowLocked now b;
  Some (r, emit event b, b).

(** [b.buckets[b.bucketIndex].total++] and the failure count beside it. *)
Definition countOutcome (outcome : Outcome) (b : Breaker) : Breaker :=
  set_window
    (alter (λ bk, mkBucket (total bk +w 1)
                    (if decide (outcome = Failure) then (failures bk +w 1)
                     else failures bk))
       (bucketIndex b) (buckets b))
    (bucketIndex b) (bucketStart b) b.

Definition recordLocked (permit : Permit) (outcome : Outcome) (now : Time) (b : Breaker)
    : option (Breaker * option transition) :=
  if negb (p_generation permit =? generation b) then Some (b, None)
  else
    let b := if p_probe permit then set_probe false b else b in
    match outcome with
    | Ignored => Some (b, None)
    | _ =>
        b ← advanceLocked now b;
        if decide (state b = StateHalfOpen) then
          if decide (outcome = Failure) then Some (setStateLocked StateOpen now b)
          else Some (setStateLocked StateClosed now b)
        else
          let b := countOutcome outcome b in
          if bool_decide (state b = StateClosed) && trippedLocked b
          then Some (setStateLocked StateOpen now b)
          else Some (b, None)
    end.

(** [Record] in the source, a keyword here. *)
Definition RecordOutcome (permit : Permit) (outcome : Outcome) (now : Time) (b : Breaker)
    : option (Breaker * list (string * transition)) :=
  if negb (p_valid permit) then Some (b, [])
  else
    '(b, event) ← recordLocked permit outcome now b;
    Some (b, emit event b).

Definition TakeSnapshot (now : Time) (b : Breaker) : option (Snapshot * Breaker) :=
  b ← advanceLocked now b;
  Some (snapshotLocked now b, b).

Definition EffectiveState (now : Time) (b : Breaker) : option (State * Breaker) :=
  '(s, b) ← TakeSnapshot now b;
  Some (s_State s, b).

(** ** Invariant *)

Record wf (b : Breaker) : Prop := {
  wf_len : length (buckets b) = windowBuckets;
  wf_index : (bucketIndex b < windowBuckets)%nat;
  wf_dur : 0 < bucketDur b ≤ max_i64;
  wf_gen : 0 ≤ generation b < 2 ^ 64;
  wf_probe : probeInFlight b = true → state b = StateHalfOpen;
  wf_open : 0 < OpenDuration (cfg b) ≤ max_i64;
}.

Lemma clearSteps_wf n bs i :
  length bs = windowBuckets → (i < windowBuckets)%nat →
  length (clearSteps n bs i).1 = windowBuckets
  ∧ ((clearSteps n bs i).2 < windowBuckets)%nat.
Proof.
  revert bs i. induction n as [|n IH]; intros bs i Hl Hi; [done|].
  simpl. apply IH; [by rewrite length_insert|].
  apply Nat.mod_upper_bound. done.
Qed.

(** Everything [advanceLocked] leaves alone. *)
Record same_phase (b b' : Breaker) : Prop := {
  sp_name : name b' = name b;
  sp_cfg : cfg b' = cfg b;
  sp_cb : onTransition b' = onTransition b;
  sp_state : state b' = state b;
  sp_gen : generation b' = generation b;
  sp_opened : openedAt b' = openedAt b;
  sp_probe : probeInFlight b' = probeInFlight b;
  sp_dur : bucketDur b' = bucketDur b;
  sp_rejected : rejected b' = rejected b;
}.

Lemma advanceLocked_spec now b :
  wf b → ∃ b', advanceLocked now b = Some b' ∧ wf b' ∧ same_phase b b'.
Proof.
  intros Hwf. unfold advanceLocked.
  destruct (Z.ltb_spec (timeSub now (bucketStart b)) (bucketDur b)).
  { exists b. split_and!; [done|done|by constructor]. }
  destruct (Z.eqb_spec (bucketDur b) 0); [destruct Hwf; lia|].
  set (steps := _ `quot` _).
  assert (∀ bs i start, length bs = windowBuckets → (i < windowBuckets)%nat →
    wf (set_window bs i start b) ∧ same_phase b (set_window bs i start b)) as Hset.
  { intros bs i start ??. split; [by destruct Hwf|by constructor]. }
  destruct (_ <=? steps).
  - eexists. split; [done|]. apply Hset; [done|]. unfold windowBuckets. lia.
  - destruct (clearSteps_wf (Z.to_nat steps) _ _ (wf_len _ Hwf) (wf_index _ Hwf)).
    destruct (clearSteps _ _ _) as [bs i]. simpl in *.
    eexists. split; [done|]. by apply Hset.
Qed.

Lemma setStateLocked_wf s now b :
  wf b → wf (setStateLocked s now b).1.
Proof.
  intros [????? ?]. unfold setStateLocked. case_decide; [done|].
  destruct s; constructor; simpl; auto using u64_range; try done;
    unfold windowBuckets; lia.
Qed.

Lemma countOutcome_wf o b : wf b → wf (countOutcome o b).
Proof.
  intros [????? ?]. constructor; simpl; auto. by rewrite length_alter.
Qed.

Lemma set_rejected_wf r b : wf b → wf (set_rejected r b).
Proof. by intros []. Qed.

Lemma set_probe_wf p b :
  wf b → (p = true → state b = StateHalfOpen) → wf (set_probe p b).
Proof. by intros []. Qed.

Lemma Allow_wf now b :
  wf b → ∃ r evs b', Allow now b = Some (r, evs, b') ∧ wf b'.
Proof.
  intros Hwf. unfold Allow, allowLocked.
  destruct (advanceLocked_spec now b Hwf) as (b1 & -> & Hwf1 & _). simpl.
  set (t := if _ && _ then _ else _).
  assert (wf t.1) as Hwf2 by (unfold t; go_case; [by apply setStateLocked_wf|done]).
  destruct t as [b2 ev]. simpl in Hwf2.
  destruct (state b2) eqn:Hst; [|destruct (probeInFlight b2) eqn:Hp|];
    eexists _, _, _; (split; [reflexivity|]);
    auto using set_rejected_wf, set_probe_wf.
Qed.

Lemma wf_result (x : Breaker * option transition) :
  wf x.1 → ∃ b' ev, Some x = Some (b', ev) ∧ wf b'.
Proof. destruct x; eauto. Qed.

Lemma recordLocked_wf p o now b :
  wf b → ∃ b' ev, recordLocked p o now b = Some (b', ev) ∧ wf b'.
Proof.
  intros Hwf. unfold recordLocked.
  destruct (negb _); [by eauto|].
  set (b1 := if p_probe p then _ else _).
  assert (wf b1) as Hwf1.
  { unfold b1. destruct (p_probe p); [by apply set_probe_wf|done]. }
  destruct (advanceLocked_spec now b1 Hwf1) as (b2 & Hadv & Hwf2 & _).
  destruct o; [| |by eauto]; rewrite Hadv; simpl;
    (destruct (decide _) as [Hho|Hho]; [|destruct (_ && _)]);
    apply wf_result; simpl; auto using setStateLocked_wf, countOutcome_wf.
Qed.

Lemma Record_wf p o now b :
  wf b → ∃ b' evs, RecordOutcome p o now b = Some (b', evs) ∧ wf b'.
Proof.
  intros Hwf. unfold RecordOutcome. destruct (negb _); [by eauto|].
  destruct (recordLocked_wf p o now b Hwf) as (b' & ev & -> & ?). simpl. eauto.
Qed.

(** ** The rolling window, against a log of outcomes

    The reference definition keeps every outcome with the number of the
    bucket period ("epoch", counted from the last reset) it was recorded in,
    and counts those of the last [windowBuckets] epochs.  The ring of lazily
    cleared buckets computes the same counts. *)

Record wlog := mkLog {
  l_origin : Time;             (* when the window was last reset *)
  l_epoch : Z;                 (* the epoch the window is in *)
  l_entries : list (Z * bool); (* epoch and whether it was a failure *)
}.

Definition log_reset (now : Time) : wlog := mkLog now 0 [].

Definition log_advance (dur : Duration) (now : Time) (l : wlog) : wlog :=
  mkLog (l_origin l) (Z.max (l_epoch l) ((now - l_origin l) / dur)) (l_entries l).

Definition log_record (failed : bool) (l : wlog) : wlog :=
  mkLog (l_origin l) (l_epoch l) ((l_epoch l, failed) :: l_entries l).

Definition in_epoch (k : Z) (e : Z * bool) : bool := e.1 =? k.
Definition in_window (k : Z) (e : Z * bool) : bool :=
  k - Z.of_nat windowBuckets <? e.1.

Definition count (f : Z * bool → bool) (es : list (Z * bool)) : Z :=
  Z.of_nat (length (List.filter f es)).
Definition fails (f : Z * bool → bool) (es : list (Z * bool)) : Z :=
  count (λ e, f e && e.2) es.

Definition log_counts (l : wlog) : Z * Z :=
  (count (in_window (l_epoch l)) (l_entries l), fails (in_window (l_epoch l)) (l_entries l)).

(** The bucket the ring keeps for epoch [k]. *)
Definition tally (es : list (Z * bool)) (k : Z) : bucket :=
  mkBucket (count (in_epoch k) es) (fails (in_epoch k) es).

Record window_rel (b : Breaker) (l : wlog) : Prop := {
  wr_start : bucketStart b = l_origin l + l_epoch l * bucketDur b;
  wr_epoch : 0 ≤ l_epoch l;
  wr_past : ∀ e, e ∈ l_entries l → e.1 ≤ l_epoch l;
  wr_small : Z.of_nat (length (l_entries l)) < 2 ^ 63;
  wr_ring : ∀ i, (i < windowBuckets)%nat →
    buckets b !! ((bucketIndex b + windowBuckets - i) mod windowBuckets)%nat
    = Some (tally (l_entries l) (l_epoch l - Z.of_nat i));
}.

Lemma count_none f es : (∀ e, e ∈ es → f e = false) → count f es = 0.
Proof.
  unfold count. induction es as [|e es IH]; intros H; [done|]. simpl.
  rewrite (H e) by set_solver. apply IH. set_solver.
Qed.

Lemma count_cons f e es : count f (e :: es) = (if f e then 1 else 0) + count f es.
Proof. unfold count. simpl. destruct (f e); simpl; lia. Qed.

Lemma count_bound f es : 0 ≤ count f es ≤ Z.of_nat (length es).
Proof. unfold count. pose proof (List.filter_length_le f es). lia. Qed.

Lemma tally_future es k m : (∀ e, e ∈ es → e.1 ≤ k) → k < m → tally es m = emptyBucket.
Proof.
  intros Hp Hm. unfold tally, fails. f_equal; apply count_none; intros e He;
    unfold in_epoch; apply Hp in He; destruct (Z.eqb_spec e.1 m); simpl; (done || lia).
Qed.

Lemma tally_record es k failed :
  tally ((k, failed) :: es) k
  = mkBucket (count (in_epoch k) es + 1)
      (fails (in_epoch k) es + if failed then 1 else 0).
Proof.
  unfold tally, fails. rewrite !count_cons. unfold in_epoch at 1 3. simpl.
  rewrite Z.eqb_refl. simpl. f_equal; [lia|]. destruct failed; lia.
Qed.

Lemma tally_record_ne es k failed m : k ≠ m → tally ((k, failed) :: es) m = tally es m.
Proof.
  intros Hne. unfold tally, fails. rewrite !count_cons. unfold in_epoch at 1 3. simpl.
  apply Z.eqb_neq in Hne as ->. simpl. f_equal; lia.
Qed.

Definition sumz {A} (f : A → Z) (l : list A) : Z := foldr (λ x z, f x + z) 0 l.

Lemma sumz_nonneg {A} (f : A → Z) l : (∀ x, x ∈ l → 0 ≤ f x) → 0 ≤ sumz f l.
Proof.
  unfold sumz. induction l as [|x l IH]; simpl; intros H; [lia|].
  assert (0 ≤ f x) by (apply H; set_solver).
  assert (0 ≤ foldr (λ x z, f x + z) 0 l) by (apply IH; set_solver). lia.
Qed.

(** Without overflow the loop of [countsLocked] is the two sums. *)
Lemma counts_fold bs a c :
  Forall (λ b, 0 ≤ total b ∧ 0 ≤ failures b) bs →
  0 ≤ a → a + sumz total bs ≤ max_i64 → 0 ≤ c → c + sumz failures bs ≤ max_i64 →
  fold_left (λ acc bkt, (i64 (acc.1 + total bkt), i64 (acc.2 + failures bkt))) bs (a, c)
  = (a + sumz total bs, c + sumz failures bs).
Proof.
  revert a c. induction bs as [|b bs IH]; simpl; intros a c Hpos ????; [f_equal; lia|].
  apply Forall_cons in Hpos as [[??] Hpos].
  assert (0 ≤ sumz total bs ∧ 0 ≤ sumz failures bs) as [??].
  { rewrite Forall_forall in Hpos. split; apply sumz_nonneg; intros ? []%Hpos; done. }
  rewrite !i64_id by (unfold in_i64, min_i64; lia).
  rewrite IH; [f_equal; lia|done|lia..].
Qed.

(** A ring of ten buckets, read from the current one backwards. *)
Lemma ring_perm {A} (bs : list A) (idx : nat) (t : nat → A) :
  length bs = windowBuckets → (idx < windowBuckets)%nat →
  (∀ i, (i < windowBuckets)%nat →
    bs !! ((idx + windowBuckets - i) mod windowBuckets)%nat = Some (t i)) →
  bs ≡ₚ t <$> seq 0 windowBuckets.
Proof.
  unfold windowBuckets. intros Hlen Hidx Hring.
  do 10 (destruct bs as [|? bs]; [done|]). destruct bs; [|done]. clear Hlen.
  pose proof (Hring 0%nat ltac:(lia)). pose proof (Hring 1%nat ltac:(lia)).
  pose proof (Hring 2%nat ltac:(lia)). pose proof (Hring 3%nat ltac:(lia)).
  pose proof (Hring 4%nat ltac:(lia)). pose proof (Hring 5%nat ltac:(lia)).
  pose proof (Hring 6%nat ltac:(lia)). pose proof (Hring 7%nat ltac:(lia)).
  pose proof (Hring 8%nat ltac:(lia)). pose proof (Hring 9%nat ltac:(lia)).
  clear Hring.
  do 10 (destruct idx as [|idx]; [cbv in *; simplify_eq; solve_Permutation|]). lia.
Qed.

Lemma sumz_perm {A} (f : A → Z) l l' : l ≡ₚ l' → sumz f l = sumz f l'.
Proof. unfold sumz. induction 1; simpl; lia. Qed.

Lemma sumz_fmap {A B} (f : B → Z) (g : A → B) l : sumz f (g <$> l) = sumz (f ∘ g) l.
Proof. unfold sumz. induction l; simpl; [done|]. f_equal. done. Qed.

Lemma sumz_add {A} (f g : A → Z) l : sumz (λ x, f x + g x) l = sumz f l + sumz g l.
Proof. unfold sumz. induction l; simpl; lia. Qed.

Lemma sumz_ext {A} (f g : A → Z) l : (∀ x, x ∈ l → f x = g x) → sumz f l = sumz g l.
Proof.
  unfold sumz. induction l as [|x l IH]; simpl; intros H; [done|].
  rewrite H by set_solver. rewrite IH; set_solver.
Qed.

Lemma sumz_zero {A} (l : list A) : sumz (λ _, 0) l = 0.
Proof. unfold sumz. induction l; simpl; lia. Qed.

Lemma sumz_app {A} (f : A → Z) l l' : sumz f (l ++ l') = sumz f l + sumz f l'.
Proof. unfold sumz. induction l; simpl; lia. Qed.

Lemma epoch_indicator (k x : Z) (g : bool) n :
  x ≤ k →
  sumz (λ i, if (x =? k - Z.of_nat i) && g then 1 else 0) (seq 0 n)
  = if (k - Z.of_nat n <? x) && g then 1 else 0.
Proof.
  intros Hx. induction n as [|n IH].
  { destruct (Z.ltb_spec (k - Z.of_nat 0) x); [lia|done]. }
  rewrite seq_S, sumz_app, IH. unfold sumz. simpl.
  destruct (Z.ltb_spec (k - Z.of_nat n) x), (Z.ltb_spec (k - Z.of_nat (S n)) x),
    (Z.eqb_spec x (k - Z.of_nat n)); destruct g; simpl; lia.
Qed.

(** The ten epochs of the window partition its entries. *)
Lemma epochs_window (k : Z) (g : Z * bool → bool) es :
  (∀ e, e ∈ es → e.1 ≤ k) →
  sumz (λ i, count (λ e, in_epoch (k - Z.of_nat i) e && g e) es) (seq 0 windowBuckets)
  = count (λ e, in_window k e && g e) es.
Proof.
  rewrite <-Forall_forall. induction 1 as [|e es He _ IH]; [done|].
  rewrite count_cons, <-IH.
  rewrite (sumz_ext _ (λ i, (if in_epoch (k - Z.of_nat i) e && g e then 1 else 0)
    + count (λ e, in_epoch (k - Z.of_nat i) e && g e) es)).
  2:{ intros i _. by rewrite count_cons. }
  rewrite sumz_add. f_equal. unfold in_epoch, in_window. by apply epoch_indicator.
Qed.

Lemma count_ext f g es : (∀ e, f e = g e) → count f es = count g es.
Proof. intros H. unfold count. by rewrite (List.filter_ext f g). Qed.

(** What the ring's buckets add up to. *)
Lemma ring_sums b l :
  wf b → window_rel b l →
  sumz total (buckets b) = (log_counts l).1 ∧ sumz failures (buckets b) = (log_counts l).2
  ∧ ∀ bk, bk ∈ buckets b → 0 ≤ total bk ∧ 0 ≤ failures bk.
Proof.
  intros Hwf [_ _ Hpast _ Hring].
  pose proof (ring_perm _ _ (λ i, tally (l_entries l) (l_epoch l - Z.of_nat i))
    (wf_len _ Hwf) (wf_index _ Hwf) Hring) as Hperm.
  rewrite !(sumz_perm _ _ _ Hperm), !sumz_fmap. split_and!.
  - unfold log_counts. cbn [fst snd].
    rewrite (count_ext (in_window (l_epoch l)) (λ e, in_window (l_epoch l) e && true))
      by (intros; by rewrite andb_true_r).
    rewrite <-epochs_window by done. apply sumz_ext. intros i _.
    apply count_ext. intros. by rewrite andb_true_r.
  - unfold log_counts, fails. cbn [fst snd]. by rewrite <-epochs_window by done.
  - intros bk. rewrite Hperm. intros (i & -> & _)%list_elem_of_fmap. simpl.
    split; apply count_bound.
Qed.

Lemma countsLocked_log b l :
  wf b → window_rel b l → countsLocked b = log_counts l.
Proof.
  intros Hwf Hrel. destruct (ring_sums b l Hwf Hrel) as (Ht & Hf & Hpos).
  pose proof (wr_small _ _ Hrel).
  pose proof (count_bound (in_window (l_epoch l)) (l_entries l)).
  pose proof (count_bound (λ e, in_window (l_epoch l) e && e.2) (l_entries l)).
  unfold countsLocked. rewrite counts_fold, Ht, Hf; [by destruct (log_counts l)|by apply Forall_forall| | | |];
    rewrite ?Ht, ?Hf; unfold log_counts, fails, max_i64; simpl; lia.
Qed.

(** *** Each step of the window against the log *)

Definition ring (bs : list bucket) (idx : nat) (es : list (Z * bool)) (k : Z) : Prop :=
  ∀ i, (i < windowBuckets)%nat →
    bs !! ((idx + windowBuckets - i) mod windowBuckets)%nat
    = Some (tally es (k - Z.of_nat i)).

Lemma ring_step bs idx idx' es k :
  length bs = windowBuckets → (idx < windowBuckets)%nat → (∀ e, e ∈ es → e.1 ≤ k) →
  ring bs idx es k → idx' = ((idx + 1) mod windowBuckets)%nat →
  ring (<[idx' := emptyBucket]> bs) idx' es (k + 1).
Proof.
  intros Hlen Hidx Hpast Hring Hidx' i Hi. unfold windowBuckets in *.
  destruct (decide (i = 0%nat)) as [->|Hne].
  - replace ((idx' + 10 - 0) mod 10)%nat with idx' by go_mod.
    rewrite list_lookup_insert_eq by go_mod.
    rewrite tally_future with (k := k); [done..|lia].
  - replace ((idx' + 10 - i) mod 10)%nat with ((idx + 10 - (i - 1)) mod 10)%nat
      by go_mod.
    rewrite list_lookup_insert_ne by go_mod.
    rewrite Hring by (unfold windowBuckets; lia). do 2 f_equal. lia.
Qed.

Lemma clearSteps_ring n bs idx es k :
  length bs = windowBuckets → (idx < windowBuckets)%nat → (∀ e, e ∈ es → e.1 ≤ k) →
  ring bs idx es k →
  ring (clearSteps n bs idx).1 (clearSteps n bs idx).2 es (k + Z.of_nat n).
Proof.
  revert bs idx k. induction n as [|n IH]; intros bs idx k ? ? Hp ?.
  { simpl. by rewrite Z.add_0_r. }
  replace (k + Z.of_nat (S n)) with ((k + 1) + Z.of_nat n) by lia.
  cbn [clearSteps]. apply IH; [by rewrite length_insert|by apply Nat.mod_upper_bound| |].
  - intros e He. specialize (Hp e He). lia.
  - by eapply ring_step.
Qed.

Lemma emptyWindow_ring es k m :
  (∀ e, e ∈ es → e.1 ≤ k) → k + Z.of_nat windowBuckets ≤ m → ring emptyWindow 0 es m.
Proof.
  intros Hp Hm i Hi. unfold emptyWindow.
  rewrite lookup_replicate_2 by (by apply Nat.mod_upper_bound).
  rewrite (tally_future _ k); [done..|lia].
Qed.

Lemma advance_refines now b l :
  wf b → window_rel b l → in_i64 (now - bucketStart b) →
  ∃ b', advanceLocked now b = Some b' ∧ window_rel b' (log_advance (bucketDur b) now l).
Proof.
  intros Hwf [Hstart Hep Hpast Hsmall Hring] Hin. pose proof (wf_dur _ Hwf) as [Hd ?].
  unfold advanceLocked, log_advance, timeSub. rewrite sat64_id by done.
  destruct (Z.ltb_spec (now - bucketStart b) (bucketDur b)) as [Hlt|Hge].
  { exists b. split; [done|]. rewrite Z.max_l; [by constructor|].
    enough ((now - l_origin l) / bucketDur b < l_epoch l + 1) by lia.
    apply Z.div_lt_upper_bound; lia. }
  destruct (Z.eqb_spec (bucketDur b) 0); [lia|].
  rewrite Z.quot_div_nonneg by lia. set (steps := (now - bucketStart b) / bucketDur b).
  assert (Hsteps : 1 ≤ steps) by (apply Z.div_le_lower_bound; lia).
  assert (steps * bucketDur b ≤ now - bucketStart b).
  { rewrite Z.mul_comm. by apply Z.mul_div_le. }
  rewrite i64_id by (unfold in_i64, min_i64, max_i64 in *; nia).
  assert ((now - l_origin l) / bucketDur b = l_epoch l + steps) as ->.
  { unfold steps. rewrite <-Z.div_add_l by lia. f_equal. lia. }
  rewrite Z.max_r by lia.
  assert (∀ bs i, ring bs i (l_entries l) (l_epoch l + steps) →
    window_rel (set_window bs i (bucketStart b + steps * bucketDur b) b)
      (mkLog (l_origin l) (l_epoch l + steps) (l_entries l))) as Hmk.
  { intros bs i Hr. constructor; simpl; [lia|lia| |done|done].
    intros e He. specialize (Hpast e He). lia. }
  destruct (Z.leb_spec (Z.of_nat windowBuckets) steps).
  - eexists. split; [done|]. apply Hmk. eapply emptyWindow_ring; [done|lia].
  - pose proof (clearSteps_ring (Z.to_nat steps) _ _ _ _ (wf_len _ Hwf) (wf_index _ Hwf)
      Hpast Hring) as Hr. rewrite Z2Nat.id in Hr by lia.
    destruct (clearSteps _ _ _) as [bs i]. eexists. split; [done|]. by apply Hmk.
Qed.

Lemma countOutcome_refines o b l :
  wf b → window_rel b l → Z.of_nat (S (length (l_entries l))) < 2 ^ 63 →
  window_rel (countOutcome o b) (log_record (bool_decide (o = Failure)) l).
Proof.
  intros Hwf [Hstart Hep Hpast Hsmall Hring] Hlen.
  pose proof (wf_index _ Hwf). pose proof (wf_len _ Hwf).
  constructor; simpl; [done|done| |done|].
  { intros e [->|He]%elem_of_cons; [done|]. by apply Hpast. }
  intros i Hi. specialize (Hring i Hi).
  pose proof (count_bound (in_epoch (l_epoch l)) (l_entries l)).
  pose proof (count_bound (λ e, in_epoch (l_epoch l) e && e.2) (l_entries l)).
  unfold windowBuckets in *. destruct (decide (i = 0%nat)) as [->|Hne].
  - replace ((bucketIndex b + 10 - 0) mod 10)%nat with (bucketIndex b) in * by go_mod.
    rewrite list_lookup_alter_eq, Hring. simpl. rewrite Z.sub_0_r, tally_record.
    unfold tally, fails in *. simpl.
    rewrite !i64_id by (unfold in_i64, min_i64, max_i64; simpl; lia).
    case_decide; [rewrite bool_decide_eq_true_2 by done|rewrite bool_decide_eq_false_2 by done];
      do 2 f_equal; lia.
  - rewrite list_lookup_alter_ne by go_mod. rewrite Hring.
    rewrite tally_record_ne by lia. done.
Qed.

Lemma reset_refines now b s :
  state b ≠ StateClosed → s = StateClosed →
  window_rel (setStateLocked s now b).1 (log_reset now).
Proof.
  intros Hs ->. unfold setStateLocked. case_decide; [congruence|].
  constructor; simpl; [lia|lia|set_solver|lia|].
  intros i Hi. unfold emptyWindow.
  by rewrite lookup_replicate_2 by (by apply Nat.mod_upper_bound).
Qed.

(** ** What one call does to the phase

    The phase is the part of the breaker the generation protects. *)

Definition phase (b : Breaker) : State * Z * bool :=
  (state b, generation b, probeInFlight b).

Lemma advance_phase now b b' : advanceLocked now b = Some b' → phase b' = phase b.
Proof.
  unfold advanceLocked. destruct (_ <? _); [congruence|]. destruct (_ =? _); [done|].
  destruct (if _ <=? _ then _ else _). by intros [= <-].
Qed.

Lemma setState_phase s now b :
  state b ≠ s → phase (setStateLocked s now b).1 = (s, u64 (generation b + 1), false).
Proof. intros H. unfold setStateLocked. case_decide; [done|]. by destruct s. Qed.

Lemma Allow_cases now b :
  wf b → ∃ b1, advanceLocked now b = Some b1 ∧ wf b1 ∧ same_phase b b1 ∧
  match state b with
  | StateClosed => Allow now b = Some (Ok (mkPermit (generation b) false true), [], b1)
  | StateHalfOpen =>
      if probeInFlight b
      then Allow now b = Some (Err (openErrorLocked now b1), [],
             set_rejected (u64 (rejected b1 + 1)) b1)
      else Allow now b = Some (Ok (mkPermit (generation b) true true), [], set_probe true b1)
  | StateOpen =>
      if OpenDuration (cfg b) <=? timeSub now (openedAt b)
      then ∃ evs, Allow now b = Some (Ok (mkPermit (u64 (generation b + 1)) true true), evs,
             set_probe true (setStateLocked StateHalfOpen now b1).1)
      else Allow now b = Some (Err (openErrorLocked now b1), [],
             set_rejected (u64 (rejected b1 + 1)) b1)
  end.
Proof.
  intros Hwf. destruct (advanceLocked_spec now b Hwf) as (b1 & Hadv & Hwf1 & Hsp).
  exists b1. split_and!; [done..|].
  unfold Allow, allowLocked. rewrite Hadv. simpl. destruct Hsp.
  rewrite <-sp_state0, <-sp_gen0, <-sp_probe0, <-sp_cfg0, <-sp_opened0.
  destruct (state b1) eqn:Hst.
  - rewrite bool_decide_eq_false_2 by done. simpl. by rewrite Hst.
  - rewrite bool_decide_eq_false_2 by done. simpl. rewrite Hst.
    by destruct (probeInFlight b1).
  - rewrite bool_decide_eq_true_2 by done. simpl. destruct (_ <=? _).
    + unfold setStateLocked. rewrite Hst. simpl. eauto.
    + by rewrite Hst.
Qed.

Lemma Record_phase p o now b b' evs :
  p_valid p = true → RecordOutcome p o now b = Some (b', evs) →
  (p_generation p ≠ generation b ∧ b' = b) ∨
  (p_generation p = generation b ∧
    (phase b' = (state b, generation b, if p_probe p then false else probeInFlight b)
     ∨ (state b' ≠ state b ∧ phase b' = (state b', u64 (generation b + 1), false)))).
Proof.
  intros Hv. unfold RecordOutcome, recordLocked. rewrite Hv. simpl.
  destruct (Z.eqb_spec (p_generation p) (generation b)) as [Hg|Hg]; simpl.
  2:{ intros [= <- _]. by left. }
  intros H. right. split; [done|].
  set (b1 := if p_probe p then set_probe false b else b) in *.
  assert (phase b1 = (state b, generation b, if p_probe p then false else probeInFlight b))
    as Hb1 by (unfold b1; by destruct (p_probe p)).
  assert (∀ s, state b1 ≠ s → ∀ b2, phase b2 = phase b1 →
    let b3 := (setStateLocked s now b2).1 in
    state b3 ≠ state b ∧ phase b3 = (state b3, u64 (generation b + 1), false)) as Htrans.
  { intros s Hs b2 Hb2 b3. unfold phase in Hb1, Hb2. simplify_eq.
    pose proof (setState_phase s now b2 ltac:(congruence)) as Hp.
    unfold phase in *. subst b3. simplify_eq. split; congruence. }
  destruct o; try (simplify_eq/=; by left).
  all: destruct (advanceLocked now b1) as [b2|] eqn:Hadv; simpl in H; [|done].
  all: apply advance_phase in Hadv.
  all: destruct (decide (state b2 = StateHalfOpen)) as [Hho|Hho].
  all: try first [rewrite decide_True in H by done|rewrite decide_False in H by done].
  all: try (destruct (_ && trippedLocked _) eqn:Htr;
    [|injection H as <- _; left; rewrite <-Hb1; exact Hadv]).
  all: simpl in H; destruct (setStateLocked _ _ _) as [b3 ev] eqn:Hset; simplify_eq/=; right.
  all: apply (f_equal fst) in Hset; cbn [fst] in Hset; rewrite <-Hset.
  all: apply Htrans; [|first [exact Hadv|unfold phase; simpl; congruence]].
  all: try (unfold phase in Hadv; injection Hadv as ? _ _).
  all: try (apply andb_true_iff in Htr as [Htr _]; apply bool_decide_eq_true in Htr;
            simpl in Htr).
  all: congruence.
Qed.

(** ** Concurrent callers

    Goroutines hold the permits they were given until they report the
    outcome; the methods interleave arbitrarily and read any clock value. *)

Record sys := mkSys { brk : Breaker; held : list Permit }.

Inductive step : sys → sys → Prop :=
| step_admit b b' hs now p evs :
    Allow now b = Some (Ok p, evs, b') → step (mkSys b hs) (mkSys b' (p :: hs))
| step_reject b b' hs now e evs :
    Allow now b = Some (Err e, evs, b') → step (mkSys b hs) (mkSys b' hs)
| step_record b b' hs hs' now p o evs :
    hs ≡ₚ p :: hs' → RecordOutcome p o now b = Some (b', evs) →
    step (mkSys b hs) (mkSys b' hs')
| step_snapshot b b' hs now s :
    TakeSnapshot now b = Some (s, b') → step (mkSys b hs) (mkSys b' hs).

Inductive reach (b0 : Breaker) : nat → sys → Prop :=
| reach_init : reach b0 0 (mkSys b0 [])
| reach_step n s s' : reach b0 n s → step s s' → reach b0 (S n) s'.

(** A permit of the current generation that holds the probe slot. *)
Definition current_probe (b : Breaker) (p : Permit) : Prop :=
  p_generation p = generation b ∧ p_probe p = true.

#[export] Instance current_probe_dec b p : Decision (current_probe b p).
Proof. unfold current_probe. apply _. Defined.

Definition probes (s : sys) : nat := length (filter (current_probe (brk s)) (held s)).

Record sys_inv (n : nat) (s : sys) : Prop := {
  si_wf : wf (brk s);
  si_gen : generation (brk s) ≤ Z.of_nat n;
  si_held : ∀ p, p ∈ held s → p_valid p = true ∧ p_generation p ≤ generation (brk s);
  si_probes : probes s = if probeInFlight (brk s) then 1%nat else 0%nat;
  si_calls : ∀ p, p ∈ held s → p_generation p = generation (brk s) →
    p_probe p = false → state (brk s) = StateClosed;
}.

Lemma NewWithClock_wf nm c cb now :
  10 ≤ Window (withDefaults c) ≤ max_i64 → OpenDuration c ≤ max_i64 →
  wf (NewWithClock nm c cb now).
Proof.
  intros [Hw1 Hw2] Ho. constructor; simpl; try done; try (unfold windowBuckets; lia).
  - change (Z.of_nat windowBuckets) with 10. unfold withDefaults in *. simpl in *.
    rewrite Z.quot_div_nonneg by lia. split; [apply Z.div_str_pos; lia|].
    apply Z.div_le_upper_bound; unfold max_i64 in *; lia.
  - split; destruct (Z.leb_spec (OpenDuration c) 0); try lia; by vm_compute.
Qed.

(** No permit a caller holds is of a generation above the breaker's. *)
Lemma no_probe_of b hs b' :
  (∀ p, p ∈ hs → p_valid p = true ∧ p_generation p ≤ generation b) →
  generation b < generation b' → filter (current_probe b') hs = [].
Proof.
  rewrite <-Forall_forall. intros Hh Hg. induction Hh as [|p hs [_ Hp] _ IH]; [done|].
  rewrite filter_cons_False; [done|]. intros [Heq _]. lia.
Qed.

(** [sys_inv] reads the breaker only through its phase. *)
Lemma sys_inv_phase n b b' hs :
  sys_inv n (mkSys b hs) → wf b' → phase b' = phase b → sys_inv n (mkSys b' hs).
Proof.
  intros [? Hg Hh Hp Hc] Hwf Hph. injection Hph as Hst Hgen Hpr.
  constructor; simpl in *; [done|lia| | |].
  - intros p Hin. rewrite Hgen. by apply Hh.
  - unfold probes in *. simpl in *. rewrite Hpr, <-Hp.
    f_equal. apply list_filter_iff. intros p. unfold current_probe. by rewrite Hgen.
  - intros p Hin. rewrite Hgen, Hst. by apply Hc.
Qed.

(** After a transition every permit handed out before is stale. *)
Lemma sys_inv_bumped n b b' hs :
  sys_inv n (mkSys b hs) → wf b' → Z.of_nat (S n) < 2 ^ 64 →
  generation b' = u64 (generation b + 1) → probeInFlight b' = false →
  sys_inv (S n) (mkSys b' hs) ∧ generation b < generation b'.
Proof.
  intros [Hwf0 Hg Hh Hp Hc] Hwf Hn Hgen Hpr. simpl in *.
  pose proof (wf_gen _ Hwf0). rewrite u64_id in Hgen by lia.
  split; [|lia]. constructor; simpl; [done|lia| | |].
  - intros p Hin. destruct (Hh p Hin). split; [done|lia].
  - unfold probes. simpl. rewrite (no_probe_of b) by (done || lia). by rewrite Hpr.
  - intros p Hin Heq. destruct (Hh p Hin). lia.
Qed.

Lemma filter_perm_cons b hs p hs' :
  hs ≡ₚ p :: hs' →
  length (filter (current_probe b) hs)
  = ((if decide (current_probe b p) then 1 else 0) + length (filter (current_probe b) hs'))%nat.
Proof.
  intros ->. rewrite filter_cons. by case_decide.
Qed.

(** Returning a permit leaves the remaining ones consistent. *)
Lemma sys_inv_returned n b b' hs p hs' :
  sys_inv n (mkSys b hs) → hs ≡ₚ p :: hs' → wf b' →
  (p_generation p ≠ generation b ∧ b' = b
   ∨ p_generation p = generation b
     ∧ phase b' = (state b, generation b, if p_probe p then false else probeInFlight b)) →
  sys_inv n (mkSys b' hs').
Proof.
  intros [? Hg Hh Hp Hc] Hperm Hwf Hcase.
  assert (∀ q, q ∈ hs' → q ∈ hs) as Hsub by (intros q; rewrite Hperm; set_solver).
  assert (phase b' = (state b, generation b, if decide (current_probe b p) then false
    else probeInFlight b)) as Hph.
  { destruct Hcase as [[Hne ->]|[Heq ->]].
    - by rewrite decide_False by (intros [? _]; done).
    - destruct (p_probe p) eqn:Hpp.
      + by rewrite decide_True by done.
      + rewrite decide_False; [done|]. intros [_ ?]. congruence. }
  injection Hph as Hst Hgen Hpr.
  constructor; simpl in *; [done|lia| | |].
  - intros q Hin. rewrite Hgen. by apply Hh, Hsub.
  - unfold probes in *. simpl in *. rewrite (filter_perm_cons _ _ _ _ Hperm) in Hp.
    rewrite (list_filter_iff _ (current_probe b)) by
      (intros q; unfold current_probe; by rewrite Hgen).
    rewrite Hpr. case_decide; destruct (probeInFlight b); lia.
  - intros q Hin. rewrite Hgen, Hst. by apply Hc, Hsub.
Qed.

Lemma sys_inv_weaken n m s : sys_inv n s → (n ≤ m)%nat → sys_inv m s.
Proof. intros [] ?. constructor; try done. lia. Qed.

(** Admission of a call while closed, and of the probe while half-open. *)
Lemma sys_inv_call n b hs :
  sys_inv n (mkSys b hs) → state b = StateClosed →
  sys_inv n (mkSys b (mkPermit (generation b) false true :: hs)).
Proof.
  intros [? Hg Hh Hp Hc] Hst. constructor; simpl in *; [done|done| | |].
  - intros q [->|Hq]%elem_of_cons; [done|by apply Hh].
  - unfold probes in *. simpl in *. rewrite filter_cons_False; [done|]. by intros [_ [=]].
  - done.
Qed.

Lemma sys_inv_probe n b hs :
  sys_inv n (mkSys b hs) → state b = StateHalfOpen → probeInFlight b = false →
  sys_inv n (mkSys (set_probe true b) (mkPermit (generation b) true true :: hs)).
Proof.
  intros [? Hg Hh Hp Hc] Hst Hpr.
  constructor; simpl in *; [by apply set_probe_wf|done| | |].
  - intros q [->|Hq]%elem_of_cons; [done|by apply Hh].
  - unfold probes in *. simpl in *. rewrite filter_cons_True by done.
    rewrite Hpr in Hp. simpl. by f_equal.
  - intros q [->|Hq]%elem_of_cons; [done|by apply Hc].
Qed.

Lemma Allow_inv n b hs now r evs b' :
  sys_inv n (mkSys b hs) → Allow now b = Some (r, evs, b') → Z.of_nat (S n) < 2 ^ 64 →
  sys_inv (S n) (mkSys b' (match r with Ok p => p :: hs | Err _ => hs end)).
Proof.
  intros Hinv HA Hn. pose proof (si_wf _ _ Hinv) as Hwf. simpl in Hwf.
  destruct (Allow_cases now b Hwf) as (b1 & Hadv & Hwf1 & Hsp & Hcase).
  pose proof (sys_inv_weaken _ (S n) _ (sys_inv_phase n b b1 hs Hinv Hwf1
    (advance_phase _ _ _ Hadv)) ltac:(lia)) as Hinv1.
  pose proof (sp_state _ _ Hsp) as Hst1. rewrite <-(sp_gen _ _ Hsp) in Hcase.
  destruct (state b) eqn:Hst;
    [|destruct (probeInFlight b) eqn:Hpr|destruct (_ <=? _); [destruct Hcase as [? Hcase]|]];
    rewrite HA in Hcase; injection Hcase as -> -> ->.
  - by apply sys_inv_call.
  - apply (sys_inv_phase _ b1); auto using set_rejected_wf.
  - apply sys_inv_probe; [done|done|]. by rewrite (sp_probe _ _ Hsp).
  - pose proof (setState_phase StateHalfOpen now b1 ltac:(congruence)) as Hph.
    injection Hph as Hst2 Hgen2 Hpr2. rewrite <-Hgen2.
    apply sys_inv_probe; [|done|done].
    apply (sys_inv_bumped n b); auto using setStateLocked_wf.
    by rewrite Hgen2, (sp_gen _ _ Hsp).
  - apply (sys_inv_phase _ b1); auto using set_rejected_wf.
Qed.

Lemma Record_inv n b hs hs' p o now b' evs :
  sys_inv n (mkSys b hs) → hs ≡ₚ p :: hs' → RecordOutcome p o now b = Some (b', evs) →
  Z.of_nat (S n) < 2 ^ 64 → sys_inv (S n) (mkSys b' hs').
Proof.
  intros Hinv Hperm HR Hn. pose proof (si_wf _ _ Hinv) as Hwf. simpl in Hwf.
  destruct (Record_wf p o now b Hwf) as (b'' & evs' & HR' & Hwf').
  rewrite HR in HR'. injection HR' as <- <-.
  assert (p ∈ hs) as Hin by (rewrite Hperm; set_solver).
  destruct (si_held _ _ Hinv p Hin) as [Hv Hle]. simpl in Hle.
  destruct (Record_phase _ _ _ _ _ _ Hv HR) as [Hold|[Hcur [Hsame|[Hne Hb]]]].
  - eapply sys_inv_weaken; [eapply sys_inv_returned; eauto|lia].
  - eapply sys_inv_weaken; [eapply sys_inv_returned; eauto|lia].
  - injection Hb as Hgen Hpr.
    destruct (sys_inv_bumped n b b' hs Hinv) as [Hinv' Hlt]; [done..|].
    eapply (sys_inv_returned _ b' b' hs p hs'); eauto. left. split; [lia|done].
Qed.

Lemma reach_inv b0 n s :
  wf b0 → generation b0 = 0 → probeInFlight b0 = false → Z.of_nat n < 2 ^ 64 →
  reach b0 n s → sys_inv n s.
Proof.
  intros Hwf Hg Hp Hn Hr. induction Hr as [|n s s' Hr IH Hstep].
  { constructor; simpl; [done|lia|set_solver| |set_solver]. by rewrite Hp. }
  specialize (IH ltac:(lia)). destruct Hstep.
  - by eapply (Allow_inv _ _ _ _ (Ok p)).
  - by eapply (Allow_inv _ _ _ _ (Err e)).
  - by eapply Record_inv.
  - unfold TakeSnapshot in *. pose proof (si_wf _ _ IH) as Hwfb. simpl in Hwfb.
    destruct (advanceLocked_spec now b Hwfb) as (b1 & Hadv & ? & ?).
    rewrite Hadv in *. simplify_option_eq.
    eapply sys_inv_weaken; [eapply sys_inv_phase; eauto using advance_phase|lia].
Qed.

(** ** Properties *)

Lemma step_state_change s s' n :
  sys_inv n s → step s s' → state (brk s) ≠ state (brk s') →
  generation (brk s') = u64 (generation (brk s) + 1).
Proof.
  intros Hinv Hstep Hne. pose proof (si_wf _ _ Hinv) as Hwf.
  destruct Hstep as [b b' hs now p evs HA|b b' hs now e evs HA
                    |b b' hs hs' now p o evs Hperm HR|b b' hs now sn HS]; simpl in *.
  1,2: destruct (Allow_cases now b Hwf) as (b1 & Hadv & _ & Hsp & Hcase);
    pose proof (sp_state _ _ Hsp); pose proof (sp_gen _ _ Hsp);
    destruct (state b) eqn:Hst;
    [|destruct (probeInFlight b)|destruct (_ <=? _); [destruct Hcase as [? Hcase]|]];
    rewrite HA in Hcase; injection Hcase as; subst; simpl in *; try congruence.
  - pose proof (setState_phase StateHalfOpen now b1 ltac:(congruence)) as Hph.
    unfold phase in Hph. congruence.
  - assert (p ∈ hs) as Hin by (rewrite Hperm; set_solver).
    destruct (si_held _ _ Hinv p Hin) as [Hv _].
    destruct (Record_phase _ _ _ _ _ _ Hv HR) as [[_ ->]|[_ [Hp|[_ Hp]]]];
      try unfold phase in Hp; congruence.
  - unfold TakeSnapshot in HS. destruct (advanceLocked now b) eqn:Hadv; [|done].
    injection HS as _ <-. apply advance_phase in Hadv. unfold phase in Hadv. congruence.
Qed.

(** Hypotheses on a configuration under which no operation panics or
    overflows: at least a nanosecond per bucket. *)
Definition sane (c : Config) : Prop :=
  10 ≤ Window (withDefaults c) ≤ max_i64 ∧ OpenDuration c ≤ max_i64.

(** C36: whatever the interleaving of callers, at most one permit of the
    current generation holds the half-open probe slot; the slot is marked
    taken exactly while that permit is outstanding, every other caller is
    then rejected, and once it is returned (also as Ignored) the next caller
    of a half-open breaker is given a probe: the slot never leaks. *)
Theorem breaker_single_probe nm c cb t0 n s :
  sane c → Z.of_nat n < 2 ^ 64 → reach (NewWithClock nm c cb t0) n s →
  (probes s ≤ 1)%nat
  ∧ (probes s = 1%nat → state (brk s) = StateHalfOpen ∧ ∀ now, ∃ e evs b',
       Allow now (brk s) = Some (Err e, evs, b') ∧ phase b' = phase (brk s))
  ∧ (state (brk s) = StateHalfOpen → probes s = 0%nat → ∀ now, ∃ evs b',
       Allow now (brk s) = Some (Ok (mkPermit (generation (brk s)) true true), evs, b')
       ∧ probeInFlight b' = true).
Proof.
  intros [Hw Ho] Hn Hr.
  pose proof (reach_inv _ _ _ (NewWithClock_wf nm c cb t0 Hw Ho) eq_refl eq_refl Hn Hr)
    as [Hwf _ _ Hp _].
  split_and!.
  - destruct (probeInFlight (brk s)); lia.
  - intros H1. rewrite H1 in Hp. destruct (probeInFlight (brk s)) eqn:Hpr; [|done].
    pose proof (wf_probe _ Hwf Hpr) as Hst. split; [done|]. intros now.
    destruct (Allow_cases now _ Hwf) as (b1 & Hadv & _ & _ & Hcase).
    rewrite Hst, Hpr in Hcase. eexists _, _, _. split; [exact Hcase|].
    by apply advance_phase in Hadv.
  - intros Hst H0 now. rewrite H0 in Hp. destruct (probeInFlight (brk s)) eqn:Hpr; [done|].
    destruct (Allow_cases now _ Hwf) as (b1 & Hadv & _ & _ & Hcase).
    rewrite Hst, Hpr in Hcase. eexists _, _. split; [exact Hcase|done].
Qed.

(** When any step changes the breaker's state, every permit held before
    it is superseded: recording its outcome later, whatever it is, leaves the
    breaker exactly as it is. *)
Theorem breaker_transition_supersedes nm c cb t0 n s s' q o now :
  sane c → Z.of_nat (S n) < 2 ^ 64 → reach (NewWithClock nm c cb t0) n s → step s s' →
  state (brk s) ≠ state (brk s') → q ∈ held s →
  RecordOutcome q o now (brk s') = Some (brk s', []).
Proof.
  intros [Hw Ho] Hn Hr Hstep Hne Hq.
  assert (Z.of_nat n < 2 ^ 64) as Hn' by lia.
  pose proof (reach_inv _ _ _ (NewWithClock_wf nm c cb t0 Hw Ho) eq_refl eq_refl
    Hn' Hr) as Hinv.
  pose proof (step_state_change _ _ _ Hinv Hstep Hne) as Hgen.
  destruct Hinv as [Hwf Hle Hh _ _]. destruct (Hh q Hq) as [Hv Hqg].
  pose proof (wf_gen _ Hwf). rewrite u64_id in Hgen by lia.
  unfold RecordOutcome, recordLocked. rewrite Hv. simpl.
  destruct (Z.eqb_spec (p_generation q) (generation (brk s'))); [lia|done].
Qed.

(** The reference decision: the outcomes of the last ten bucket periods. *)
Definition log_trips (c : Config) (l : wlog) : bool :=
  let '(tot, fls) := log_counts l in
  negb (tot <? MinRequests c)
  && f64_geb (f64_div (f64_of_Z fls) (f64_of_Z tot)) (FailureRatio c).

(** A counted outcome on a closed breaker: the window rolls, the bucket
    counts it, and the counts decide. *)
Lemma recordLocked_counted p o now b b1 :
  let b0 := if p_probe p then set_probe false b else b in
  state b = StateClosed → p_generation p = generation b → o ≠ Ignored →
  advanceLocked now b0 = Some b1 →
  recordLocked p o now b
  = if trippedLocked (countOutcome o b1)
    then Some (setStateLocked StateOpen now (countOutcome o b1))
    else Some (countOutcome o b1, None).
Proof.
  intros b0 Hst Hg Ho Hadv. unfold recordLocked. rewrite Hg, Z.eqb_refl. cbn [negb].
  fold b0. rewrite Hadv. apply advance_phase in Hadv as Hph.
  assert (state b1 = StateClosed) as Hst1.
  { injection Hph as -> _ _. unfold b0. by destruct (p_probe p). }
  destruct o; [| |done]; cbn [mbind option_bind];
    rewrite decide_False by congruence;
    by rewrite bool_decide_eq_true_2 by (simpl; congruence).
Qed.

(** Recording an outcome on a closed breaker is recording it in a log
    of timestamped outcomes: the ring of buckets keeps the counts of the last
    ten bucket periods of the log, and the breaker opens exactly when those
    counts reach the minimum number of requests and the failure ratio. *)
Theorem breaker_record_refines_log p o now b l :
  wf b → window_rel b l → state b = StateClosed → p_valid p = true →
  p_generation p = generation b → o ≠ Ignored → in_i64 (now - bucketStart b) →
  Z.of_nat (S (length (l_entries l))) < 2 ^ 63 →
  let l' := log_record (bool_decide (o = Failure)) (log_advance (bucketDur b) now l) in
  ∃ b' evs, RecordOutcome p o now b = Some (b', evs) ∧ window_rel b' l'
  ∧ countsLocked b' = log_counts l'
  ∧ state b' = if log_trips (cfg b) l' then StateOpen else StateClosed.
Proof.
  intros Hwf Hrel Hst Hv Hg Ho Hin Hlen l'.
  set (b0 := if p_probe p then set_probe false b else b).
  assert (Hwf0 : wf b0) by (unfold b0; destruct (p_probe p); [by apply set_probe_wf|done]).
  assert (window_rel b0 l) as Hrel0 by (unfold b0; destruct (p_probe p); by destruct Hrel).
  assert (bucketStart b0 = bucketStart b ∧ bucketDur b0 = bucketDur b ∧ state b0 = state b
    ∧ cfg b0 = cfg b) as (Hs & Hd & Hst0 & Hc) by (unfold b0; by destruct (p_probe p)).
  rewrite <-Hs in Hin. destruct (advance_refines now b0 l Hwf0 Hrel0 Hin) as (b1 & Hadv & Hr1).
  rewrite Hd in Hr1.
  destruct (advanceLocked_spec now b0 Hwf0) as (b1' & Hadv' & Hwf1 & Hsp).
  rewrite Hadv in Hadv'. injection Hadv' as <-.
  pose proof (countOutcome_wf o b1 Hwf1) as Hwf2.
  pose proof (countOutcome_refines o b1 _ Hwf1 Hr1 Hlen) as Hr2. fold l' in Hr2.
  assert (state b1 = StateClosed) as Hst1 by (rewrite (sp_state _ _ Hsp); congruence).
  assert (trippedLocked (countOutcome o b1) = log_trips (cfg b) l') as Htr.
  { unfold trippedLocked, log_trips. rewrite (countsLocked_log _ _ Hwf2 Hr2).
    cbn [cfg countOutcome set_window]. rewrite (sp_cfg _ _ Hsp), Hc.
    destruct (log_counts l') as [tot fls]. by destruct (tot <? MinRequests (cfg b)). }
  unfold RecordOutcome. rewrite Hv. cbn [negb].
  rewrite (recordLocked_counted p o now b b1 Hst Hg Ho Hadv), Htr.
  destruct (log_trips (cfg b) l').
  - unfold setStateLocked. simpl. rewrite Hst1. simpl. eexists _, _. split; [done|].
    split; [by destruct Hr2|]. split; [|done].
    by rewrite <-(countsLocked_log _ _ Hwf2 Hr2).
  - eexists _, _. split; [done|]. split; [done|]. split; [by apply countsLocked_log|done].
Qed.

(** The health snapshot tells the truth about admission: at the same
    instant, [Allow] admits a call exactly when the reported state is closed,
    or half-open with the probe slot free; a reported open state comes with
    the exact time left, the one the rejection carries. *)
Theorem breaker_snapshot_predicts_allow now b :
  wf b → openedAt b ≤ now →
  ∃ sn b1 r evs b', TakeSnapshot now b = Some (sn, b1) ∧ Allow now b = Some (r, evs, b')
  ∧ is_ok r = match s_State sn with
              | StateClosed => true
              | StateHalfOpen => negb (probeInFlight b)
              | StateOpen => false
              end
  ∧ (s_State sn = StateOpen →
       0 < s_RetryIn sn ≤ OpenDuration (cfg b) ∧ phase b' = phase b
       ∧ r = Err (mkOpenError (name b) (s_RetryIn sn))).
Proof.
  intros Hwf Hclock. destruct (Allow_cases now b Hwf) as (b1 & Hadv & Hwf1 & Hsp & Hcase).
  pose proof (wf_open _ Hwf) as Ho. pose proof (advance_phase _ _ _ Hadv) as Hph.
  assert (0 ≤ timeSub now (openedAt b) ≤ max_i64) as Hsub.
  { unfold timeSub, sat64, min_i64, max_i64. lia. }
  unfold TakeSnapshot. rewrite Hadv. cbn [mbind option_bind].
  unfold snapshotLocked, openErrorLocked in *.
  rewrite (sp_state _ _ Hsp), (sp_opened _ _ Hsp), (sp_cfg _ _ Hsp), (sp_name _ _ Hsp) in *.
  rewrite i64_id in * by (unfold in_i64, min_i64, max_i64 in *; lia).
  destruct (countsLocked b1) as [tot fls].
  destruct (state b) eqn:Hst.
  - rewrite decide_False by done. eexists _, _, _, _, _. split; [done|].
    split; [exact Hcase|]. done.
  - rewrite decide_False by done. destruct (probeInFlight b);
      eexists _, _, _, _, _; (split; [done|]); (split; [exact Hcase|]); done.
  - rewrite decide_True by done.
    destruct (Z.leb_spec (OpenDuration (cfg b)) (timeSub now (openedAt b))).
    + destruct Hcase as [evs Hcase]. destruct (Z.ltb_spec 0 (OpenDuration (cfg b)
        - timeSub now (openedAt b))); [lia|].
      eexists _, _, _, _, _. split; [done|]. split; [exact Hcase|]. simpl. split; [|done].
      destruct (probeInFlight b) eqn:Hp; [|done].
      pose proof (wf_probe _ Hwf Hp). congruence.
    + destruct (Z.ltb_spec 0 (OpenDuration (cfg b) - timeSub now (openedAt b))); [|lia].
      eexists _, _, _, _, _. split; [done|]. split; [exact Hcase|]. simpl.
      split; [done|]. intros _. split; [lia|]. split; [exact Hph|].
      destruct (Z.ltb_spec (OpenDuration (cfg b) - timeSub now (openedAt b)) 0); [lia|done].
Qed.

(** A window under ten nanoseconds passes [Validate], yet the bucket
    duration is zero and the first [Allow] (or [Snapshot]) divides by it:
    every call of the upstream panics. *)
Theorem breaker_tiny_window_panics nm c cb t0 now :
  Validate c = Ok tt → 0 < Window c < 10 → t0 ≤ now →
  Allow now (NewWithClock nm c cb t0) = None
  ∧ TakeSnapshot now (NewWithClock nm c cb t0) = None.
Proof.
  intros _ Hw Hnow.
  assert (advanceLocked now (NewWithClock nm c cb t0) = None) as Hadv.
  { unfold advanceLocked. cbn [bucketDur bucketStart NewWithClock withDefaults Window].
    destruct (Z.leb_spec (Window c) 0); [lia|].
    change (Z.of_nat windowBuckets) with 10. rewrite (Z.quot_small (Window c) 10) by lia.
    destruct (Z.ltb_spec (timeSub now t0) 0) as [Hs|]; [|done].
    unfold timeSub, sat64, max_i64 in Hs. lia. }
  unfold Allow, allowLocked, TakeSnapshot. by rewrite Hadv.
Qed.

(** ** Witnesses *)

Definition demo_cfg : Config := mkConfig (f64_lit 1 2) 2 (1000 * Second) (15 * Second).
Definition demo : Breaker := NewWithClock "soroban" demo_cfg true 0.

Lemma demo_sane : sane demo_cfg.
Proof. unfold sane. vm_compute. intuition congruence. Qed.

Definition after_allow (now : Time) (b : Breaker) : Breaker :=
  match Allow now b with Some (_, _, b') => b' | None => b end.
Definition after_record (p : Permit) (o : Outcome) (now : Time) (b : Breaker) : Breaker :=
  match RecordOutcome p o now b with Some (b', _) => b' | None => b end.

(** Two failed calls open the demo breaker; the next caller after the open
    period holds the probe. *)
Definition call_permit : Permit := mkPermit 0 false true.
Definition demo1 : Breaker := after_allow 1 demo.
Definition demo2 : Breaker := after_allow 2 demo1.
Definition demo3 : Breaker := after_record call_permit Failure 3 demo2.
Definition demo4 : Breaker := after_record call_permit Failure 4 demo3.
Definition demo5 : Breaker := after_allow (20 * Second) demo4.

Lemma demo_reach3 : reach demo 3 (mkSys demo3 [call_permit]).
Proof.
  eapply reach_step.
  - eapply reach_step.
    + eapply reach_step; [apply reach_init|].
      apply (step_admit demo demo1 [] 1 call_permit []). vm_compute. reflexivity.
    + apply (step_admit demo1 demo2 [call_permit] 2 call_permit []). vm_compute. reflexivity.
  - apply (step_record demo2 demo3 [call_permit; call_permit] [call_permit] 3 call_permit
      Failure []); [done|]. vm_compute. reflexivity.
Qed.

Lemma demo_step4 : ∃ evs, RecordOutcome call_permit Failure 4 demo3 = Some (demo4, evs).
Proof. eexists. vm_compute. reflexivity. Qed.

Lemma demo_reach5 : reach demo 5 (mkSys demo5 [mkPermit 2 true true]).
Proof.
  destruct demo_step4 as [evs Hevs].
  eapply reach_step; [eapply reach_step; [apply demo_reach3|]|].
  - eapply (step_record demo3 demo4 [call_permit] [] 4 call_permit Failure evs); done.
  - eapply (step_admit demo4 demo5 [] (20 * Second)). vm_compute. reflexivity.
Qed.

Lemma breaker_single_probe_witness :
  (probes (mkSys demo5 [mkPermit 2 true true]) ≤ 1)%nat
  ∧ state demo5 = StateHalfOpen.
Proof.
  destruct (breaker_single_probe "soroban" demo_cfg true 0 5 _ demo_sane ltac:(lia)
    demo_reach5) as (H1 & H2 & _).
  split; [exact H1|]. apply H2. vm_compute. reflexivity.
Defined.

Lemma breaker_transition_supersedes_witness :
  RecordOutcome call_permit Success 5 demo4 = Some (demo4, []).
Proof.
  destruct demo_step4 as [evs Hevs].
  apply (breaker_transition_supersedes "soroban" demo_cfg true 0 3
    (mkSys demo3 [call_permit]) (mkSys demo4 []) call_permit Success 5 demo_sane).
  - lia.
  - apply demo_reach3.
  - apply (step_record demo3 demo4 [call_permit] [] 4 call_permit Failure evs); done.
  - vm_compute. discriminate.
  - apply elem_of_cons. left. reflexivity.
Defined.

Lemma demo_wf : wf demo.
Proof. apply NewWithClock_wf; apply demo_sane. Qed.

Lemma demo_window : window_rel demo (log_reset 0).
Proof.
  constructor; simpl; [done|lia|set_solver|lia|].
  intros i Hi. unfold emptyWindow.
  by rewrite lookup_replicate_2 by (by apply Nat.mod_upper_bound).
Qed.

Lemma breaker_record_refines_log_witness :
  ∃ b' evs, RecordOutcome call_permit Failure 3 demo = Some (b', evs)
  ∧ countsLocked b' = (1, 1) ∧ state b' = StateClosed.
Proof.
  destruct (breaker_record_refines_log call_permit Failure 3 demo (log_reset 0) demo_wf
    demo_window eq_refl eq_refl eq_refl) as (b' & evs & HR & _ & Hc & Hst).
  - discriminate.
  - unfold in_i64. vm_compute. split; discriminate.
  - vm_compute. reflexivity.
  - exists b', evs. split; [exact HR|]. split; [rewrite Hc; reflexivity|].
    rewrite Hst. vm_compute. reflexivity.
Defined.

Lemma breaker_snapshot_predicts_allow_witness :
  ∃ sn b1, TakeSnapshot 5 demo = Some (sn, b1) ∧ s_State sn = StateClosed.
Proof.
  destruct (breaker_snapshot_predicts_allow 5 demo demo_wf) as (sn & b1 & r & evs & b' & H & _).
  - vm_compute. discriminate.
  - exists sn, b1. split; [exact H|]. vm_compute in H. injection H as <- _. reflexivity.
Defined.

Lemma breaker_tiny_window_panics_witness :
  Allow 5 (NewWithClock "x" (mkConfig (f64_lit 1 2) 10 5 Second) false 0) = None.
Proof.
  apply (breaker_tiny_window_panics "x" (mkConfig (f64_lit 1 2) 10 5 Second) false 0 5);
    [vm_compute; reflexivity|simpl; lia|lia].
Defined.
