(* ===== verification/JobQueue.v ===== *)
(** The durable job queue (internal/domain/jobqueue, with the SQL of
    internal/repository/postgres/job_repository.go): the [jobs] table as a
    finite map of rows, every statement as one atomic update of it, and the
    worker pool that leases, executes and settles jobs.

    Rows another transaction has locked are skipped by [Dequeue] (FOR UPDATE
    SKIP LOCKED): they are an argument.  NOW(), time.Now() and the database's
    fresh ids are arguments too. *)

From stdpp Require Import sorting.
From S2P Require Import Prelude Sql.
Open Scope Z_scope.

(** ** The table *)

Inductive Status := StatusPending | StatusRunning | StatusSucceeded | StatusDead.

#[export] Instance Status_eq_dec : EqDecision Status.
Proof. solve_decision. Defined.

Definition DefaultMaxAttempts : Z := 5.

(** A row of [jobs]; nullable columns are options. *)
Record row := mkRow {
  r_type : string;
  r_payload : string;
  r_status : Status;
  r_priority : Z;
  r_attempts : Z;
  r_max_attempts : Z;
  r_idempotency_key : option string;
  r_correlation_id : option string;
  r_next_run_at : Time;
  r_leased_until : option Time;
  r_last_error : option string;
  r_result : option string;
  r_created_at : Time;
  r_updated_at : Time;
}.

Abbreviation Store := (gmap UUID row) (only parsing).

(** The Go value a row is scanned into. *)
Record Job := mkJob {
  ID : UUID;
  Type_ : string;
  Payload : string;
  JStatus : Status;
  Priority : Z;
  Attempts : Z;
  MaxAttempts : Z;
  IdempotencyKey : string;
  CorrelationID : string;
  NextRunAt : Time;
  LeasedUntil : option Time;
  LastError : string;
  Result : string;
  CreatedAt : Time;
  UpdatedAt : Time;
}.

Record EnqueueInput := mkEnqueueInput {
  in_Type : string;
  in_Payload : string;
  in_Priority : Z;
  in_MaxAttempts : Z;
  in_IdempotencyKey : string;
  in_CorrelationID : string;
  in_RunAt : Time;
}.

Record DequeueParams := mkDequeueParams {
  dq_Type : string;
  dq_Limit : Z;
  dq_Lease : Duration;
  dq_Now : Time;
}.

Inductive JobError := ErrNotFound | ErrTypeRequired | ErrDB.

Definition nullText (s : string) : option string :=
  if decide (s = "") then None else Some s.

(** [sql.NullString.String]: empty for NULL. *)
Definition text (o : option string) : string := default "" o.

Definition scanJobFrom (id : UUID) (r : row) : Job :=
  {| ID := id; Type_ := r_type r; Payload := r_payload r; JStatus := r_status r;
     Priority := r_priority r; Attempts := r_attempts r; MaxAttempts := r_max_attempts r;
     IdempotencyKey := text (r_idempotency_key r);
     CorrelationID := text (r_correlation_id r);
     NextRunAt := r_next_run_at r; LeasedUntil := r_leased_until r;
     LastError := text (r_last_error r); Result := text (r_result r);
     CreatedAt := r_created_at r; UpdatedAt := r_updated_at r |}.

(** ** Statements *)

(** [status IN ('pending', 'running')] *)
Definition live (r : row) : bool :=
  match r_status r with StatusPending | StatusRunning => true | _ => false end.

(** The partial unique index on (type, idempotency_key). *)
Definition conflicts (ty : string) (key : option string) (r : row) : bool :=
  match key with
  | None => false
  | Some _ => bool_decide (r_type r = ty) && bool_decide (r_idempotency_key r = key) && live r
  end.

Definition EnqueueInsert (id : UUID) (now dbnow : Time) (i : EnqueueInput) (st : Store)
    : option Job * Store :=
  let payload := if decide (in_Payload i = "") then "{}"%string else in_Payload i in
  let maxAttempts := if in_MaxAttempts i <=? 0 then DefaultMaxAttempts else in_MaxAttempts i in
  let runAt := if in_RunAt i =? zeroTime then now else in_RunAt i in
  let idem := nullText (in_IdempotencyKey i) in
  let corr := nullText (in_CorrelationID i) in
  if existsb (λ p : UUID * row, conflicts (in_Type i) idem p.2) (map_to_list st) then (None, st)
  else
    let r := mkRow (in_Type i) payload StatusPending (in_Priority i) 0 maxAttempts idem corr
               runAt None None None dbnow dbnow in
    (Some (scanJobFrom id r), <[id := r]> st).

(** [ORDER BY created_at DESC LIMIT 1] *)
Definition newest (best : option (UUID * row)) (p : UUID * row) : option (UUID * row) :=
  match best with
  | Some q => if r_created_at q.2 <? r_created_at p.2 then Some p else best
  | None => Some p
  end.

Definition EnqueueSelect (i : EnqueueInput) (st : Store) : option Job :=
  let hits := List.filter
    (λ p : UUID * row, conflicts (in_Type i) (Some (in_IdempotencyKey i)) p.2) (map_to_list st) in
  match fold_left newest hits None with
  | Some (id, r) => Some (scanJobFrom id r)
  | None => None
  end.

(** [Enqueue]: the insert, then on conflict the select of the live job.
    Other sessions may change the table between the two statements. *)
Definition Enqueue (id : UUID) (now dbnow : Time) (i : EnqueueInput)
    (others : Store → Store) (st : Store) : result JobError (Job * bool) * Store :=
  match EnqueueInsert id now dbnow i st with
  | (Some job, st) => (Ok (job, true), st)
  | (None, st) =>
      let st := others st in
      match EnqueueSelect i st with
      | Some job => (Ok (job, false), st)
      | None => (Err ErrNotFound, st)
      end
  end.

(** [client.Enqueue]; the flag says whether the enqueue metric is counted. *)
Definition ClientEnqueue (id : UUID) (now dbnow : Time) (i : EnqueueInput)
    (others : Store → Store) (st : Store) : result JobError (Job * bool) * Store :=
  if decide (in_Type i = "") then (Err ErrTypeRequired, st)
  else Enqueue id now dbnow i others st.

Definition runnable (ty : string) (now : Time) (r : row) : bool :=
  bool_decide (r_type r = ty) &&
  match r_status r with
  | StatusPending => r_next_run_at r <=? now
  | StatusRunning =>
      match r_leased_until r with Some t => t <=? now | None => false end
  | _ => false
  end.

(** [ORDER BY priority DESC, next_run_at] *)
Definition precedes (p q : UUID * row) : Prop :=
  r_priority q.2 < r_priority p.2
  ∨ r_priority p.2 = r_priority q.2 ∧ r_next_run_at p.2 ≤ r_next_run_at q.2.

#[export] Instance precedes_dec : RelDecision precedes.
Proof. intros p q. unfold precedes. apply _. Defined.

Definition lease_row (until dbnow : Time) (r : row) : row :=
  mkRow (r_type r) (r_payload r) StatusRunning (r_priority r) (r_attempts r + 1)
    (r_max_attempts r) (r_idempotency_key r) (r_correlation_id r) (r_next_run_at r)
    (Some until) (r_last_error r) (r_result r) (r_created_at r) dbnow.

Definition eligible (locked : UUID → bool) (p : DequeueParams) (x : UUID * row) : bool :=
  runnable (dq_Type p) (dq_Now p) x.2 && negb (locked x.1).

Definition ready (locked : UUID → bool) (p : DequeueParams) (st : Store) : list (UUID * row) :=
  select_rows precedes (eligible locked p) (dq_Limit p) st.

Definition Dequeue (locked : UUID → bool) (p : DequeueParams) (dbnow : Time) (st : Store)
    : list Job * Store :=
  if dq_Limit p <=? 0 then ([], st)
  else
    let leasedUntil := timeAdd (dq_Now p) (dq_Lease p) in
    let rows := ready locked p st in
    ((λ x : UUID * row, scanJobFrom x.1 x.2) <$> update_rows (lease_row leasedUntil dbnow) rows,
     overwrite (lease_row leasedUntil dbnow) rows st).

(** [UPDATE jobs SET ... WHERE id = $1 AND status = 'running'] *)
Definition is_status (s : Status) (r : row) : bool := bool_decide (r_status r = s).
Definition update_running (f : row → row) (id : UUID) (st : Store) : Store :=
  update_where (is_status StatusRunning) f id st.

Definition complete_row (res : string) (dbnow : Time) (r : row) : row :=
  mkRow (r_type r) (r_payload r) StatusSucceeded (r_priority r) (r_attempts r)
    (r_max_attempts r) (r_idempotency_key r) (r_correlation_id r) (r_next_run_at r)
    None None (nullText res) (r_created_at r) dbnow.
Definition retry_row (next : Time) (lastErr : string) (dbnow : Time) (r : row) : row :=
  mkRow (r_type r) (r_payload r) StatusPending (r_priority r) (r_attempts r)
    (r_max_attempts r) (r_idempotency_key r) (r_correlation_id r) next
    None (nullText lastErr) (r_result r) (r_created_at r) dbnow.
Definition dead_row (lastErr : string) (dbnow : Time) (r : row) : row :=
  mkRow (r_type r) (r_payload r) StatusDead (r_priority r) (r_attempts r)
    (r_max_attempts r) (r_idempotency_key r) (r_correlation_id r) (r_next_run_at r)
    None (nullText lastErr) (r_result r) (r_created_at r) dbnow.
Definition heartbeat_row (until dbnow : Time) (r : row) : row :=
  mkRow (r_type r) (r_payload r) (r_status r) (r_priority r) (r_attempts r)
    (r_max_attempts r) (r_idempotency_key r) (r_correlation_id r) (r_next_run_at r)
    (Some until) (r_last_error r) (r_result r) (r_created_at r) dbnow.

Definition Complete (id : UUID) (res : string) (dbnow : Time) (st : Store) : Store :=
  update_running (complete_row res dbnow) id st.
Definition Retry (id : UUID) (next : Time) (lastErr : string) (dbnow : Time) (st : Store) : Store :=
  update_running (retry_row next lastErr dbnow) id st.
Definition DeadLetter (id : UUID) (lastErr : string) (dbnow : Time) (st : Store) : Store :=
  update_running (dead_row lastErr dbnow) id st.

Definition Heartbeat (id : UUID) (until dbnow : Time) (st : Store)
    : result JobError unit * Store :=
  let n := match st !! id with
           | Some r => if decide (r_status r = StatusRunning) then 1 else 0
           | None => 0
           end in
  (if n =? 0 then Err ErrNotFound else Ok tt, update_running (heartbeat_row until dbnow) id st).

Definition JobStatus (id : UUID) (st : Store) : result JobError Status :=
  match st !! id with Some r => Ok (r_status r) | None => Err ErrNotFound end.

Record Stats := mkStats {
  Depth : Z;
  Scheduled : Z;
  Running : Z;
  DeadLetterDepth : Z;
  DepthByType : gmap string Z;
}.

Definition QueueStats (now : Time) (st : Store) : Stats :=
  let n (f : row → bool) := count_rows (λ p : UUID * row, f p.2) st in
  {| Depth := n (λ r, is_status StatusPending r && (r_next_run_at r <=? now));
     Scheduled := n (λ r, is_status StatusPending r && (now <? r_next_run_at r));
     Running := n (is_status StatusRunning);
     DeadLetterDepth := n (is_status StatusDead);
     DepthByType :=
       fold_left (λ m (p : UUID * row),
         if live p.2 then <[r_type p.2 := default 0 (m !! r_type p.2) + 1]> m else m)
         (map_to_list st) ∅ |}.

(** ** Backoff *)

Record BackoffConfig := mkBackoff { Base : Duration; Max : Duration }.

(** [u] is what [rng.Float64()] drew, in [0, 1). *)
Definition backoffDuration (c : BackoffConfig) (attempt : Z) (u : float64) : Duration :=
  let attempt := if attempt <? 1 then 1 else attempt in
  let base := if Base c <=? 0 then Second else Base c in
  let max := if Max c <=? 0 then 5 * Minute else Max c in
  let exp := f64_mul (f64_of_Z base) (f64_pow2 (attempt - 1)) in
  let capNanos := if f64_ltb exp (f64_of_Z max) then exp else f64_of_Z max in
  let capNanos := if f64_ltb capNanos f64_zero then f64_of_Z max else capNanos in
  f64_to_i64 (f64_mul u capNanos).

(** ** The worker *)

Record Config := mkConfig {
  Enabled : bool;
  PollInterval : Duration;
  Lease : Duration;
  HeartbeatInterval : Duration;
  JobTimeout : Duration;
  DefaultConcurrency : Z;
  Backoff : BackoffConfig;
  StatsInterval : Duration;
  DrainTimeout : Duration;
}.

Definition withDefaults (c : Config) : Config :=
  let lease := if Lease c <=? 0 then 30 * Second else Lease c in
  {| Enabled := Enabled c;
     PollInterval := if PollInterval c <=? 0 then Second else PollInterval c;
     Lease := lease;
     HeartbeatInterval :=
       if HeartbeatInterval c <=? 0 then lease `quot` 3 else HeartbeatInterval c;
     JobTimeout := JobTimeout c;
     DefaultConcurrency := if DefaultConcurrency c <? 1 then 1 else DefaultConcurrency c;
     Backoff := Backoff c;
     StatsInterval := StatsInterval c;
     DrainTimeout := if DrainTimeout c <=? 0 then 30 * Second else DrainTimeout c |}.

(** What a handler call ends in; a panic is recovered into an error. *)
Inductive handled := Returned | Failed (permanent : bool) (msg : string) | Panicked (msg : string).

Definition runHandler (h : handled) : option (bool * string) :=
  match h with
  | Returned => None
  | Failed perm msg => Some (perm, msg)
  | Panicked msg => Some (false, "handler panicked: " +:+ msg)
  end.

Inductive settled := MetricSucceeded | MetricDead | MetricRetried.

(** The settling half of [process], after the handler ended with [h]:
    [dbok] is whether the terminal write reached the database. *)
Definition process (c : Config) (job : Job) (h : handled) (u : float64)
    (now dbnow : Time) (dbok : bool) (st : Store) : option settled * Store :=
  match runHandler h with
  | None =>
      if dbok then (Some MetricSucceeded, Complete (ID job) "" dbnow st) else (None, st)
  | Some (permanent, msg) =>
      let exhausted := MaxAttempts job <=? Attempts job in
      if permanent || exhausted then
        if dbok then (Some MetricDead, DeadLetter (ID job) msg dbnow st) else (None, st)
      else
        let delay := backoffDuration (Backoff c) (Attempts job) u in
        if dbok then (Some MetricRetried, Retry (ID job) (timeAdd now delay) msg dbnow st)
        else (None, st)
  end.

(** One beat of [startHeartbeat]: whether the job's context is cancelled. *)
Definition heartbeatTick (c : Config) (id : UUID) (now dbnow : Time) (st : Store) : bool * Store :=
  match Heartbeat id (timeAdd now (Lease c)) dbnow st with
  | (Err ErrNotFound, st) => (true, st)
  | (_, st) => (false, st)
  end.

(** *** Dispatch

    [tick] polls every registered type through the repository port; [S] is
    what the port operates on, and all the pool relies on is that a poll
    returns at most the number of jobs it asked for. *)

Class DequeuePort (S : Type) :=
  port_dequeue : S → DequeueParams → result JobError (list Job) * S.

Class DequeueBounded (S : Type) `{DequeuePort S} :=
  port_bounded : ∀ (s s' : S) p jobs,
    port_dequeue s p = (Ok jobs, s') → Z.of_nat (length jobs) ≤ Z.max 0 (dq_Limit p).

(** A registration: the semaphore channel's capacity and fill. *)
Record registration := mkReg { sem_cap : Z; sem_len : Z }.

(** [Register]; [None] is the panic on a duplicate type. *)
Definition Register (c : Config) (ty : string) (concurrency : Z) (regs : list (string * registration))
    : option (list (string * registration)) :=
  if existsb (λ x, bool_decide (x.1 = ty)) regs then None
  else
    let concurrency := if concurrency <=? 0 then DefaultConcurrency c else concurrency in
    Some (regs ++ [(ty, mkReg concurrency 0)]).

(** [reg.sem <- struct{}{}] for each job; [None] is a send that blocks. *)
Fixpoint acquire (jobs : list Job) (r : registration) : option registration :=
  match jobs with
  | [] => Some r
  | _ :: jobs =>
      if sem_len r <? sem_cap r then acquire jobs (mkReg (sem_cap r) (sem_len r + 1)) else None
  end.

Section Tick.
Context {S : Type} `{DequeuePort S}.

(** The loop over the registrations, in whatever order the map yields
    them; [now] is time.Now() at the poll of a type, [ctxDone] whether the
    context was cancelled when that poll failed.  Jobs that end meanwhile only
    free slots.  The jobs started and the semaphores after the tick. *)
Fixpoint tick (c : Config) (now : string → Time) (ctxDone : string → bool)
    (regs : list (string * registration)) (s : S)
    : option (list (string * Job) * list (string * registration) * S) :=
  match regs with
  | [] => Some ([], [], s)
  | (ty, reg) :: rest =>
      let skip (s : S) :=
        '(started, rest', s') ← tick c now ctxDone rest s;
        Some (started, (ty, reg) :: rest', s') in
      let free := sem_cap reg - sem_len reg in
      if free <=? 0 then skip s
      else
        match port_dequeue s (mkDequeueParams ty free (Lease c) (now ty)) with
        | (Err _, s) => if ctxDone ty then Some ([], regs, s) else skip s
        | (Ok jobs, s) =>
            reg' ← acquire jobs reg;
            '(started, rest', s') ← tick c now ctxDone rest s;
            Some (((λ j, (ty, j)) <$> jobs) ++ started, (ty, reg') :: rest', s')
        end
  end.
End Tick.

(** [process]'s deferred receive frees the slot. *)
Definition release (ty : string) (regs : list (string * registration)) : list (string * registration) :=
  (λ x, if decide (x.1 = ty) then (x.1, mkReg (sem_cap x.2) (sem_len x.2 - 1)) else x) <$> regs.

(** ** Dequeue *)

#[export] Instance precedes_total : Total precedes.
Proof. intros p q. unfold precedes. lia. Qed.
#[export] Instance precedes_trans : Transitive precedes.
Proof. intros p q r. unfold precedes. lia. Qed.

Lemma ready_NoDup locked p st : NoDup (ready locked p st).*1.
Proof. apply select_NoDup. Qed.

Lemma ready_In locked p (st : Store) x :
  x ∈ ready locked p st → st !! x.1 = Some x.2 ∧ eligible locked p x = true.
Proof. apply select_In. Qed.

Lemma ready_row locked p (st : Store) x : x ∈ ready locked p st → st !! x.1 = Some x.2.
Proof. intros H. by apply ready_In in H as [? _]. Qed.

#[local] Hint Resolve ready_NoDup ready_row : core.

(** [Dequeue] without the early return on an empty limit. *)
Lemma Dequeue_eq locked p dbnow (st : Store) :
  let f := lease_row (timeAdd (dq_Now p) (dq_Lease p)) dbnow in
  Dequeue locked p dbnow st
  = ((λ x : UUID * row, scanJobFrom x.1 x.2) <$> update_rows f (ready locked p st),
     overwrite f (ready locked p st) st).
Proof.
  unfold Dequeue, ready. destruct (Z.leb_spec (dq_Limit p) 0); [|done].
  rewrite select_none by done. unfold overwrite, update_rows. simpl.
  by rewrite (left_id_L ∅ (∪)).
Qed.

(** A job a poll may lease: of the type, not locked, and pending and due or
    running past its lease. *)
Definition leasable (locked : UUID → bool) (p : DequeueParams) (id : UUID) (r : row) : Prop :=
  r_type r = dq_Type p ∧ locked id = false
  ∧ (r_status r = StatusPending ∧ r_next_run_at r ≤ dq_Now p
     ∨ r_status r = StatusRunning ∧ ∃ t, r_leased_until r = Some t ∧ t ≤ dq_Now p).

(** The row of a leased job. *)
Definition leased (until : Time) (r r' : row) : Prop :=
  r_status r' = StatusRunning ∧ r_attempts r' = r_attempts r + 1 ∧ r_leased_until r' = Some until
  ∧ r_type r' = r_type r ∧ r_payload r' = r_payload r ∧ r_priority r' = r_priority r
  ∧ r_max_attempts r' = r_max_attempts r ∧ r_idempotency_key r' = r_idempotency_key r
  ∧ r_next_run_at r' = r_next_run_at r.

Lemma eligible_spec locked p id r : eligible locked p (id, r) = true ↔ leasable locked p id r.
Proof.
  unfold eligible, runnable, leasable. simpl.
  rewrite !andb_true_iff, negb_true_iff, bool_decide_eq_true.
  destruct (r_status r), (r_leased_until r); rewrite ?Z.leb_le; naive_solver.
Qed.

(** [Dequeue] leases at most [Limit] distinct jobs; each was pending and
    due, or running with an expired lease, and becomes running with one more
    attempt and a lease to Now + Lease; all other rows are untouched; and a
    runnable unlocked job is left behind only when the limit is reached, and
    never in favour of a job of lower priority or a later run time. *)
Theorem jq_dequeue_correct locked p dbnow (st : Store) jobs st' :
  Dequeue locked p dbnow st = (jobs, st') →
  Z.of_nat (length jobs) ≤ Z.max 0 (dq_Limit p) ∧ NoDup (ID <$> jobs)
  ∧ (∀ j, j ∈ jobs → ∃ r r', st !! ID j = Some r ∧ leasable locked p (ID j) r
       ∧ st' !! ID j = Some r' ∧ leased (timeAdd (dq_Now p) (dq_Lease p)) r r'
       ∧ j = scanJobFrom (ID j) r')
  ∧ (∀ id, id ∉ ID <$> jobs → st' !! id = st !! id)
  ∧ (∀ id r, st !! id = Some r → leasable locked p id r → id ∉ ID <$> jobs →
       Z.of_nat (length jobs) = Z.max 0 (dq_Limit p)
       ∧ ∀ j r', j ∈ jobs → st !! ID j = Some r' →
           r_priority r < r_priority r'
           ∨ r_priority r' = r_priority r ∧ r_next_run_at r' ≤ r_next_run_at r).
Proof.
  rewrite Dequeue_eq. intros [= <- <-]. set (until := timeAdd _ _).
  assert (ID <$> ((λ x : UUID * row, scanJobFrom x.1 x.2)
    <$> update_rows (lease_row until dbnow) (ready locked p st)) = (ready locked p st).*1) as Hids.
  { rewrite <-list_fmap_compose, <-(update_rows_fst (lease_row until dbnow)).
    by apply list_fmap_ext. }
  rewrite Hids, !length_fmap, !length_update_rows.
  split_and!; [apply select_length|done| | |].
  - intros j (x & -> & (y & -> & Hy)%list_elem_of_fmap)%list_elem_of_fmap. simpl.
    destruct (ready_In _ _ _ _ Hy) as [Hl He]. exists y.2, (lease_row until dbnow y.2).
    split_and!; [done|apply eligible_spec; by destruct y|by apply overwrite_in| |done].
    by unfold leased.
  - intros id Hid. by apply overwrite_out.
  - intros id r Hr He%eligible_spec Hid.
    destruct (select_cut precedes (eligible locked p) (dq_Limit p) st (id, r) Hr He)
      as [Hlen Hpre].
    { intros Hin. apply Hid. by apply (list_elem_of_fmap_2 fst) in Hin. }
    split; [done|]. intros j r' (x & -> & (y & -> & Hy)%list_elem_of_fmap)%list_elem_of_fmap Hr'.
    simpl in *. apply ready_row in Hy as Hl. simplify_eq. destruct y. by apply Hpre.
Qed.

#[export] Instance pg_dequeue_port : DequeuePort Store :=
  λ st p, let '(jobs, st') := Dequeue (λ _, false) p (dq_Now p) st in (Ok jobs, st').

#[export] Instance pg_dequeue_bounded : DequeueBounded Store.
Proof.
  intros st st' p jobs. unfold port_dequeue, pg_dequeue_port.
  rewrite Dequeue_eq. intros [= <- <-]. unfold update_rows. rewrite !length_fmap.
  apply select_length.
Qed.

(** ** Reachable tables *)

(** One statement of some session. *)
Inductive qstep : Store → Store → Prop :=
| q_enqueue st id now dbnow i :
    st !! id = None →
    qstep st (EnqueueInsert id now dbnow i st).2
| q_dequeue st locked p dbnow : qstep st (Dequeue locked p dbnow st).2
| q_complete st id res dbnow : qstep st (Complete id res dbnow st)
| q_retry st id next msg dbnow : qstep st (Retry id next msg dbnow st)
| q_dead st id msg dbnow : qstep st (DeadLetter id msg dbnow st)
| q_heartbeat st id until dbnow : qstep st (Heartbeat id until dbnow st).2.

(** What one statement can do to the row of one job. *)
Definition row_next (r r' : row) : Prop :=
  r' = r
  ∨ live r = true ∧ (∃ until dbnow, r' = lease_row until dbnow r)
  ∨ r_status r = StatusRunning ∧
      ((∃ res dbnow, r' = complete_row res dbnow r)
       ∨ (∃ next msg dbnow, r' = retry_row next msg dbnow r)
       ∨ (∃ msg dbnow, r' = dead_row msg dbnow r)
       ∨ (∃ until dbnow, r' = heartbeat_row until dbnow r)).

Lemma update_running_lookup f id (st : Store) id' r :
  st !! id' = Some r →
  update_running f id st !! id' = Some r
  ∨ r_status r = StatusRunning ∧ update_running f id st !! id' = Some (f r).
Proof.
  intros Hr. destruct (update_where_row (is_status StatusRunning) f id st id' r Hr)
    as [?|(_ & Hg & ?)]; [by left|right].
  by apply bool_decide_eq_true in Hg.
Qed.

Lemma eligible_live locked p x : eligible locked p x = true → live x.2 = true.
Proof.
  unfold eligible, runnable, live. destruct (r_status x.2); try done;
    rewrite andb_false_r; done.
Qed.

Lemma Dequeue_row locked p dbnow (st : Store) id r :
  st !! id = Some r →
  (Dequeue locked p dbnow st).2 !! id = Some r
  ∨ live r = true ∧ (Dequeue locked p dbnow st).2 !! id
      = Some (lease_row (timeAdd (dq_Now p) (dq_Lease p)) dbnow r).
Proof.
  intros Hr. rewrite Dequeue_eq. simpl.
  destruct (overwrite_row (lease_row (timeAdd (dq_Now p) (dq_Lease p)) dbnow)
    (ready locked p st) st id r (ready_NoDup locked p st) (ready_row locked p st) Hr)
    as [?|[Hin ?]]; [by left|right].
  split; [|done]. apply ready_In in Hin as [_ He]. by apply eligible_live in He.
Qed.

Lemma update_running_next f id (st : Store) id' r :
  (∀ x, r_status x = StatusRunning → row_next x (f x)) → st !! id' = Some r →
  ∃ r', update_running f id st !! id' = Some r' ∧ row_next r r'.
Proof.
  intros Hf Hr. destruct (update_running_lookup f id st id' r Hr) as [H|[Hrun H]].
  - exists r. split; [done|by left].
  - exists (f r). split; [done|by apply Hf].
Qed.

Lemma qstep_row st st' id r :
  qstep st st' → st !! id = Some r → ∃ r', st' !! id = Some r' ∧ row_next r r'.
Proof.
  intros Hs Hr.
  destruct Hs as [st id0 now dbnow i Hnew|st locked p dbnow|st id0 res dbnow
                 |st id0 next msg dbnow|st id0 msg dbnow|st id0 until dbnow].
  - exists r. split; [|by left]. unfold EnqueueInsert.
    destruct (existsb _ _); simpl; [done|]. by rewrite lookup_insert_ne by congruence.
  - destruct (Dequeue_row locked p dbnow st id r Hr) as [?|[??]].
    + exists r. split; [done|by left].
    + eexists. split; [done|]. right. left. eauto.
  - apply update_running_next; [|done]. intros x Hx. right. right. eauto 10.
  - apply update_running_next; [|done]. intros x Hx. right. right. eauto 10.
  - apply update_running_next; [|done]. intros x Hx. right. right. eauto 10.
  - apply update_running_next; [|done]. intros x Hx. right. right. eauto 10.
Qed.

(** A row that appears was enqueued: pending, never attempted, and no live
    job of its type had its key. *)
Lemma qstep_new st st' id r :
  qstep st st' → st !! id = None → st' !! id = Some r →
  r_status r = StatusPending ∧ r_leased_until r = None
  ∧ r_attempts r = 0 ∧ 1 ≤ r_max_attempts r
  ∧ ∀ id' r', st !! id' = Some r' → conflicts (r_type r) (r_idempotency_key r) r' = false.
Proof.
  intros Hs Hn Hr.
  destruct Hs as [st id0 now dbnow i Hnew|st locked p dbnow|st id0 res dbnow
                 |st id0 next msg dbnow|st id0 msg dbnow|st id0 until dbnow].
  2:{ rewrite Dequeue_eq in Hr. simpl in Hr. rewrite overwrite_new in Hr; eauto. done. }
  2,3,4,5: simpl in Hr; unfold Complete, Retry, DeadLetter, update_running in Hr;
    by rewrite update_where_new in Hr.
  unfold EnqueueInsert in Hr. destruct (existsb _ _) eqn:Hex; simpl in Hr; [congruence|].
  destruct (decide (id0 = id)) as [->|Hne]; [|rewrite lookup_insert_ne in Hr; congruence].
  rewrite lookup_insert_eq in Hr. injection Hr as <-. simpl. split_and!; [done|done|done| |].
  - destruct (Z.leb_spec (in_MaxAttempts i) 0); unfold DefaultMaxAttempts; lia.
  - intros id' r' Hr'. apply not_true_iff_false. intros Hc.
    apply not_true_iff_false in Hex. apply Hex, existsb_exists. exists (id', r').
    split; [|done]. by apply list_elem_of_In, elem_of_map_to_list.
Qed.

Record table_inv (st : Store) : Prop := {
  ti_attempts : ∀ id r, st !! id = Some r → 0 ≤ r_attempts r ∧ 1 ≤ r_max_attempts r;
  ti_lease : ∀ id r, st !! id = Some r →
    (r_status r = StatusRunning ↔ is_Some (r_leased_until r));
  ti_unique : ∀ id id' r r' k, st !! id = Some r → st !! id' = Some r' →
    live r = true → live r' = true → r_type r = r_type r' →
    r_idempotency_key r = Some k → r_idempotency_key r' = Some k → id = id';
}.

Lemma row_next_key r r' :
  row_next r r' → r_type r' = r_type r ∧ r_idempotency_key r' = r_idempotency_key r
  ∧ r_max_attempts r' = r_max_attempts r ∧ r_attempts r ≤ r_attempts r'
  ∧ (live r' = true → live r = true).
Proof.
  unfold row_next, live.
  intros [->|[[Hl (?&?&->)]|[Hr [(?&?&->)|[(?&?&?&->)|[(?&?&->)|(?&?&->)]]]]]]; simpl;
    rewrite ?Hr; split_and!; try done; lia.
Qed.

Lemma row_next_lease r r' :
  row_next r r' → (r_status r = StatusRunning ↔ is_Some (r_leased_until r)) →
  (r_status r' = StatusRunning ↔ is_Some (r_leased_until r')).
Proof.
  unfold row_next.
  intros [->|[[Hl (?&?&->)]|[Hr [(?&?&->)|[(?&?&?&->)|[(?&?&->)|(?&?&->)]]]]]]; simpl; try done;
    intros _; split; try done; try (by intros [? ?]); eauto.
Qed.

Lemma conflicts_false ty k r :
  conflicts ty (Some k) r = false → r_type r = ty → r_idempotency_key r = Some k →
  live r = false.
Proof.
  unfold conflicts. intros H <- Hk. by rewrite Hk, !bool_decide_eq_true_2 in H.
Qed.

(** Where a row after a statement comes from. *)
Lemma qstep_origin st st' id r' :
  qstep st st' → st' !! id = Some r' →
  (∃ r, st !! id = Some r ∧ row_next r r')
  ∨ st !! id = None ∧ r_status r' = StatusPending ∧ r_leased_until r' = None
    ∧ r_attempts r' = 0 ∧ 1 ≤ r_max_attempts r'
    ∧ ∀ id' r'', st !! id' = Some r'' →
        conflicts (r_type r') (r_idempotency_key r') r'' = false.
Proof.
  intros Hs Hr'. destruct (st !! id) as [r|] eqn:Hr.
  - left. destruct (qstep_row _ _ _ _ Hs Hr) as (r'' & ? & ?). naive_solver.
  - right. split; [done|]. by eapply qstep_new.
Qed.

(** A statement inserts at most one row. *)
Lemma qstep_one_new st st' id id' :
  qstep st st' → st !! id = None → st !! id' = None →
  is_Some (st' !! id) → is_Some (st' !! id') → id = id'.
Proof.
  intros Hs Hn Hn' [r Hr] [r' Hr'].
  assert (∀ f i, update_running f i st !! id = None) as Hup
    by (intros; by apply update_where_new).
  destruct Hs as [st id0 now dbnow i Hnew|st locked p dbnow|st id0 res dbnow
                 |st id0 next msg dbnow|st id0 msg dbnow|st id0 until dbnow].
  3,4,5,6: simpl in Hr; unfold Complete, Retry, DeadLetter in Hr; rewrite Hup in Hr; done.
  - unfold EnqueueInsert in *. destruct (existsb _ _); simpl in *; [congruence|].
    rewrite lookup_insert in Hr, Hr'. repeat case_decide; congruence.
  - rewrite Dequeue_eq in Hr. simpl in Hr. rewrite overwrite_new in Hr; eauto. done.
Qed.

Lemma table_unique_step st st' id id' r r' k :
  table_inv st → qstep st st' → st' !! id = Some r → st' !! id' = Some r' →
  live r = true → live r' = true → r_type r = r_type r' →
  r_idempotency_key r = Some k → r_idempotency_key r' = Some k → id = id'.
Proof.
  intros Hinv Hs Hr Hr' Hl Hl' Hty Hk Hk'.
  assert (∀ i i' x x', st' !! i = Some x → st' !! i' = Some x' → live x = true →
    r_type x = r_type x' → r_idempotency_key x = Some k → r_idempotency_key x' = Some k →
    (∃ y, st !! i = Some y ∧ row_next y x) → st !! i' = None → False) as Hmixed.
  { intros i i' x x' Hx Hx' Hlx Hxty Hkx Hkx' (y & Hy & Hyx) Hn'.
    destruct (qstep_new _ _ _ _ Hs Hn' Hx') as (_ & _ & _ & _ & Hc).
    apply row_next_key in Hyx as (Ht & Hky & _ & _ & Hly).
    specialize (Hc i y Hy). rewrite Hkx' in Hc.
    apply conflicts_false in Hc; [|congruence..]. rewrite Hly in Hc by done. done. }
  destruct (qstep_origin _ _ _ _ Hs Hr) as [(y & Hy & Hyr)|[Hn _]],
    (qstep_origin _ _ _ _ Hs Hr') as [(y' & Hy' & Hyr')|[Hn' _]].
  - pose proof (row_next_key _ _ Hyr) as (? & ? & _ & _ & ?).
    pose proof (row_next_key _ _ Hyr') as (? & ? & _ & _ & ?).
    eapply (ti_unique _ Hinv id id' y y' k); try done; try congruence; auto.
  - exfalso. by apply (Hmixed id id' r r'); eauto.
  - exfalso. by apply (Hmixed id' id r' r); eauto.
  - by eapply qstep_one_new; eauto.
Qed.

Lemma table_inv_qstep st st' : table_inv st → qstep st st' → table_inv st'.
Proof.
  intros Hinv Hs. split.
  - intros id r' Hr'.
    destruct (qstep_origin _ _ _ _ Hs Hr') as [(r & Hr & Hn)|(_ & _ & _ & ? & ? & _)]; [|lia].
    apply row_next_key in Hn as (_ & _ & Hm & Ha & _).
    destruct (ti_attempts _ Hinv id r Hr). lia.
  - intros id r' Hr'.
    destruct (qstep_origin _ _ _ _ Hs Hr') as [(r & Hr & Hn)|(_ & Hst & Hl & _)].
    + eapply row_next_lease; [done|]. by eapply ti_lease.
    + rewrite Hst, Hl. split; [done|by intros []].
  - intros id id' r r' k ???????. by eapply table_unique_step.
Qed.

(** C38: every statement of every session keeps the table well formed: a job
    is leased exactly while it runs, attempt counts are non-negative, and no
    two live jobs of one type share an idempotency key, however enqueues
    interleave with the other statements. *)
Theorem jq_step_invariant st st' : table_inv st → qstep st st' → table_inv st'.
Proof. apply table_inv_qstep. Qed.

(** Succeeded and dead are final: no sequence of statements changes such
    a row again, so a completed job is never executed or retried later. *)
Theorem jq_terminal_final st st' id r :
  rtc qstep st st' → st !! id = Some r → live r = false → st' !! id = Some r.
Proof.
  induction 1 as [|st st1 st' Hs _ IH]; [done|]. intros Hr Hl. apply IH; [|done].
  destruct (qstep_row _ _ _ _ Hs Hr) as (r' & Hr' & Hn).
  destruct Hn as [->|[[Hlive _]|[Hrun _]]]; [done|congruence|].
  unfold live in Hl. by rewrite Hrun in Hl.
Qed.

(** ** The worker pool *)

Lemma acquire_spec jobs r :
  sem_len r + Z.of_nat (length jobs) ≤ sem_cap r →
  acquire jobs r = Some (mkReg (sem_cap r) (sem_len r + Z.of_nat (length jobs))).
Proof.
  revert r. induction jobs as [|j jobs IH]; intros r Hr; simpl in *.
  { destruct r. simpl. do 2 f_equal. lia. }
  destruct (Z.ltb_spec (sem_len r) (sem_cap r)); [|lia].
  rewrite IH by (simpl; lia). simpl. do 2 f_equal. lia.
Qed.

Definition reg_ok (x : string * registration) : Prop := 0 ≤ sem_len x.2 ≤ sem_cap x.2.

Definition in_flight (regs : list (string * registration)) : Z :=
  foldr (λ x n, sem_len x.2 + n) 0 regs.

(** Whatever the repository behind the port, as long as a poll returns
    at most the jobs it asked for, a tick never blocks on a semaphore, keeps
    every type within its concurrency limit, and every job it starts holds
    exactly one slot. *)
Theorem jq_tick_never_blocks {S} `{DequeueBounded S} c now ctxDone regs (s : S) :
  Forall reg_ok regs →
  ∃ started regs' s', tick c now ctxDone regs s = Some (started, regs', s')
  ∧ Forall reg_ok regs'
  ∧ Forall2 (λ x y, x.1 = y.1 ∧ sem_cap x.2 = sem_cap y.2) regs regs'
  ∧ in_flight regs' = in_flight regs + Z.of_nat (length started).
Proof.
  intros Hok. revert s. induction Hok as [|[ty reg] rest Hreg Hrest IH]; intros s.
  { by exists [], [], s. }
  assert (∀ s, ∃ started regs' s',
    ('(started, rest', s') ← tick c now ctxDone rest s;
     Some (started, (ty, reg) :: rest', s')) = Some (started, regs', s')
    ∧ Forall reg_ok regs'
    ∧ Forall2 (λ x y, x.1 = y.1 ∧ sem_cap x.2 = sem_cap y.2) ((ty, reg) :: rest) regs'
    ∧ in_flight regs' = in_flight ((ty, reg) :: rest) + Z.of_nat (length started)) as Hskip.
  { intros s1. destruct (IH s1) as (started & regs' & s' & -> & ? & ? & Hin).
    eexists _, _, _. split; [done|]. split_and!; [by constructor|by constructor|].
    simpl. lia. }
  simpl. destruct (Z.leb_spec (sem_cap reg - sem_len reg) 0); [apply Hskip|].
  destruct (port_dequeue s _) as [[jobs|e] s1] eqn:HD.
  - apply port_bounded in HD. simpl in HD. unfold reg_ok in Hreg. simpl in Hreg.
    rewrite acquire_spec by lia. simpl.
    destruct (IH s1) as (started & regs' & s' & -> & ? & ? & Hin). simpl.
    eexists _, _, _. split; [done|]. split_and!.
    + constructor; [|done]. unfold reg_ok. simpl. lia.
    + by constructor.
    + rewrite length_app, length_fmap. simpl. lia.
  - destruct ctxDone; [|apply Hskip]. eexists _, _, _. split; [done|].
    split_and!; [by constructor| |simpl; lia].
    apply Forall_Forall2_diag. by apply Forall_true.
Qed.

(** Rounds of the queue on one job whose handler fails each time: leased,
    executed, settled by a worker whose write reaches the database. *)
Inductive fail_rounds (c : Config) (id : UUID) : nat → Store → Store → Prop :=
| fr_start st : fail_rounds c id 0 st st
| fr_round n st st1 st2 locked p dbnow jobs job h u now m :
    fail_rounds c id n st st1 →
    Dequeue locked p dbnow st1 = (jobs, st2) → job ∈ jobs → ID job = id →
    h ≠ Returned → (∀ msg, h ≠ Failed true msg) →
    fail_rounds c id (S n) st (process c job h u now m true st2).2.

Lemma process_failed c job h u now dbnow st :
  h ≠ Returned → (∀ msg, h ≠ Failed true msg) →
  ∃ msg, (process c job h u now dbnow true st).2
    = if MaxAttempts job <=? Attempts job then DeadLetter (ID job) msg dbnow st
      else Retry (ID job) (timeAdd now (backoffDuration (Backoff c) (Attempts job) u)) msg dbnow st.
Proof.
  intros Hr Hp. unfold process.
  destruct h as [|[] msg|msg]; simpl; [done|by destruct (Hp msg)|..];
    eexists; by destruct (_ <=? _).
Qed.

Lemma process_failed_row c job h u now dbnow (st : Store) r :
  st !! ID job = Some r → r_status r = StatusRunning →
  h ≠ Returned → (∀ msg, h ≠ Failed true msg) →
  ∃ r', (process c job h u now dbnow true st).2 !! ID job = Some r'
  ∧ r_status r' = (if MaxAttempts job <=? Attempts job then StatusDead else StatusPending)
  ∧ r_attempts r' = r_attempts r ∧ r_max_attempts r' = r_max_attempts r.
Proof.
  intros Hr Hst Hn Hp. destruct (process_failed c job h u now dbnow st Hn Hp) as [msg ->].
  destruct (_ <=? _); unfold DeadLetter, Retry, update_running, update_where, is_status;
    rewrite lookup_alter_eq, Hr; simpl; rewrite bool_decide_eq_true_2 by done; eauto.
Qed.

(** A job whose handler keeps failing is executed at most MaxAttempts
    times: after n < MaxAttempts failed executions it is pending with n
    attempts, and the execution number MaxAttempts dead-letters it. *)
Theorem jq_failing_job_dead_lettered c id n (st st' : Store) r :
  fail_rounds c id n st st' → st !! id = Some r → r_status r = StatusPending →
  r_attempts r = 0 → 1 ≤ r_max_attempts r →
  Z.of_nat n ≤ r_max_attempts r
  ∧ ∃ r', st' !! id = Some r' ∧ r_attempts r' = Z.of_nat n
    ∧ r_max_attempts r' = r_max_attempts r
    ∧ r_status r' = if decide (Z.of_nat n = r_max_attempts r) then StatusDead else StatusPending.
Proof.
  intros Hf Hr Hst Ha Hm.
  induction Hf as [st|n st st1 st2 locked p dbnow jobs job h u now m Hf IH HD Hin Hid Hh Hp].
  { split; [lia|]. exists r. rewrite decide_False by lia. done. }
  destruct (IH Hr) as (Hn & r1 & Hr1 & Ha1 & Hm1 & Hst1). clear IH.
  rewrite Dequeue_eq in HD. injection HD as <- <-.
  apply list_elem_of_fmap in Hin as (x & -> & (y & -> & Hy)%list_elem_of_fmap).
  simpl in *. subst.
  destruct (ready_In _ _ _ _ Hy) as [Hl He]. simplify_eq.
  apply eligible_live in He.
  assert (Z.of_nat n ≠ r_max_attempts r) as Hne.
  { intros Heq. rewrite decide_True in Hst1 by done. unfold live in He. by rewrite Hst1 in He. }
  pose proof (overwrite_in (lease_row (timeAdd (dq_Now p) (dq_Lease p)) dbnow) _ st1 y
    (ready_NoDup locked p st1) Hy) as Hr2.
  destruct (process_failed_row c (scanJobFrom y.1 (lease_row (timeAdd (dq_Now p) (dq_Lease p))
    dbnow y.2)) h u now m _ _ Hr2 eq_refl Hh Hp) as (r' & Hr' & Hs' & Ha' & Hm'). simpl in *.
  split; [lia|]. exists r'. split_and!; [done|lia|lia|].
  rewrite Hs'. destruct (Z.leb_spec (r_max_attempts y.2) (r_attempts y.2 + 1));
    [rewrite decide_True by lia|rewrite decide_False by lia]; done.
Qed.

(** A worker that lost its lease still settles the job.  When a job is
    leased to a second worker after the first one's lease expired, the first
    worker's heartbeat keeps succeeding (it extends the second one's lease)
    and its [Complete] marks the job succeeded, because the updates check
    only that the job is running, not whose lease it is. *)
Theorem jq_lost_lease_still_settles c locked1 p1 t1 locked2 p2 t2 (st st1 st2 : Store)
    jobs1 jobs2 j1 j2 u now dbnow :
  Dequeue locked1 p1 t1 st = (jobs1, st1) → j1 ∈ jobs1 →
  Dequeue locked2 p2 t2 st1 = (jobs2, st2) → j2 ∈ jobs2 → ID j1 = ID j2 →
  (heartbeatTick c (ID j1) now dbnow st2).1 = false
  ∧ ∃ r, (process c j1 Returned u now dbnow true st2).2 !! ID j2 = Some r
      ∧ r_status r = StatusSucceeded.
Proof.
  intros HD1 Hj1 HD2 Hj2 Hid.
  rewrite Dequeue_eq in HD2. injection HD2 as <- <-.
  apply list_elem_of_fmap in Hj2 as (x & -> & (y & -> & Hy)%list_elem_of_fmap). simpl in *.
  pose proof (overwrite_in (lease_row (timeAdd (dq_Now p2) (dq_Lease p2)) t2) _ st1 y
    (ready_NoDup locked2 p2 st1) Hy) as Hr2.
  split.
  - unfold heartbeatTick, Heartbeat. rewrite Hid, Hr2. simpl. done.
  - unfold process, Complete, update_running, update_where. simpl. rewrite Hid, lookup_alter_eq, Hr2. simpl. eauto.
Qed.

(** ** Witnesses *)

Definition demo_in (key : string) (prio : Z) : EnqueueInput :=
  mkEnqueueInput "email" "" prio 2 key "" zeroTime.
Definition demo_st : Store :=
  (EnqueueInsert 2 0 0 (demo_in "b" 5) (EnqueueInsert 1 0 0 (demo_in "a" 0) ∅).2).2.
Definition demo_dq (now : Time) : DequeueParams := mkDequeueParams "email" 1 30 now.
Definition demo_cfg : Config :=
  withDefaults (mkConfig true 0 0 0 0 0 (mkBackoff 0 0) 0 0).

(** The table after the polls at the given times. *)
Definition demo_polled (now : Time) (st : Store) : list Job * Store :=
  Dequeue (λ _, false) (demo_dq now) now st.

Definition demo_job (now : Time) (st : Store) : Job :=
  match (demo_polled now st).1 with
  | j :: _ => j
  | [] => scanJobFrom 0 (mkRow "" "" StatusDead 0 0 1 None None 0 None None None 0 0)
  end.

Lemma jq_dequeue_correct_witness :
  (demo_polled 7 demo_st).2 !! 1 = demo_st !! 1
  ∧ Z.of_nat (length (demo_polled 7 demo_st).1) = 1.
Proof.
  destruct (jq_dequeue_correct (λ _, false) (demo_dq 7) 7 demo_st _ _
    (surjective_pairing (demo_polled 7 demo_st))) as (_ & _ & _ & Hrest & _).
  split; [|vm_compute; reflexivity].
  apply Hrest. vm_compute. intros H. apply list_elem_of_singleton in H. discriminate.
Defined.

Lemma table_inv_empty : table_inv ∅.
Proof. split; intros *; rewrite lookup_empty; discriminate. Qed.

Lemma jq_step_invariant_witness : table_inv demo_st.
Proof.
  apply (jq_step_invariant (EnqueueInsert 1 0 0 (demo_in "a" 0) ∅).2).
  - apply (jq_step_invariant ∅); [apply table_inv_empty|].
    apply q_enqueue. reflexivity.
  - apply q_enqueue. vm_compute. reflexivity.
Defined.

Definition demo_done : Store := Complete 2 "" 9 (demo_polled 7 demo_st).2.

Lemma jq_terminal_final_witness :
  ∃ r, (DeadLetter 2 "late" 10 demo_done) !! 2 = Some r ∧ r_status r = StatusSucceeded.
Proof.
  destruct (demo_done !! 2) as [r|] eqn:Hr; [|vm_compute in Hr; discriminate].
  exists r. split.
  - apply (jq_terminal_final demo_done); [|exact Hr|].
    + apply rtc_once, q_dead.
    + vm_compute in Hr. injection Hr as <-. reflexivity.
  - vm_compute in Hr. injection Hr as <-. reflexivity.
Defined.

Lemma jq_tick_never_blocks_witness :
  ∃ started regs' s', tick demo_cfg (λ _, 7) (λ _, false) [("email", mkReg 2 1)] demo_st
    = Some (started, regs', s') ∧ in_flight regs' = 1 + Z.of_nat (length started).
Proof.
  destruct (jq_tick_never_blocks demo_cfg (λ _, 7) (λ _, false) [("email"%string, mkReg 2 1)] demo_st)
    as (started & regs' & s' & Ht & _ & _ & Hin).
  - constructor; [|constructor]. unfold reg_ok. simpl. lia.
  - exists started, regs', s'. split; [exact Ht|exact Hin].
Defined.

Definition demo_failed : Store :=
  (process demo_cfg (demo_job 7 demo_st) (Failed false "smtp") f64_zero 8 8 true
     (demo_polled 7 demo_st).2).2.

Lemma jq_failing_job_dead_lettered_witness :
  ∃ r', demo_failed !! 2 = Some r' ∧ r_attempts r' = 1 ∧ r_status r' = StatusPending.
Proof.
  destruct (demo_st !! 2) as [r|] eqn:Hr; [|vm_compute in Hr; discriminate].
  destruct (jq_failing_job_dead_lettered demo_cfg 2 1 demo_st demo_failed r)
    as [_ (r' & Hr' & Ha & _ & Hs)].
  - eapply (fr_round _ _ 0 demo_st demo_st _ (λ _, false) (demo_dq 7) 7 _ (demo_job 7 demo_st)).
    + apply fr_start.
    + apply surjective_pairing.
    + vm_compute. left.
    + vm_compute. reflexivity.
    + discriminate.
    + discriminate.
  - exact Hr.
  - vm_compute in Hr. injection Hr as <-. reflexivity.
  - vm_compute in Hr. injection Hr as <-. reflexivity.
  - vm_compute in Hr. injection Hr as <-. simpl. lia.
  - exists r'. split; [exact Hr'|]. split; [exact Ha|]. rewrite Hs.
    vm_compute in Hr. injection Hr as <-. reflexivity.
Defined.

Lemma jq_lost_lease_still_settles_witness :
  ∃ r, (process demo_cfg (demo_job 7 demo_st) Returned f64_zero 50 50 true
         (demo_polled 40 (demo_polled 7 demo_st).2).2).2 !! 2 = Some r
  ∧ r_status r = StatusSucceeded.
Proof.
  assert (ID (demo_job 40 (demo_polled 7 demo_st).2) = 2) as Hid by (vm_compute; reflexivity).
  rewrite <-Hid.
  apply (jq_lost_lease_still_settles demo_cfg (λ _, false) (demo_dq 7) 7 (λ _, false)
    (demo_dq 40) 40 demo_st (demo_polled 7 demo_st).2
    (demo_polled 40 (demo_polled 7 demo_st).2).2 (demo_polled 7 demo_st).1
    (demo_polled 40 (demo_polled 7 demo_st).2).1).
  - apply surjective_pairing.
  - vm_compute. left.
  - apply surjective_pairing.
  - vm_compute. left.
  - vm_compute. reflexivity.
Defined.
