(* ===== verification/Outbox.v ===== *)
(** The transactional outbox (internal/domain/outbox, with the SQL of
    internal/repository/postgres/outbox_repository.go): the [outbox] table,
    its statements, the relay that reconciles in-flight events with their
    queue jobs and hands due aggregate heads to the queue, and the retention
    sweep.

    The relay sees the job queue only through the two ports of the source
    ([Enqueuer], [JobStatusReader]); the durable queue of [JobQueue] is their
    instance.  As there, NOW(), clocks, fresh ids and the rows other
    transactions hold locked are arguments; [up] says which statements of a
    tick reach the database. *)

From stdpp Require Import sorting pretty.
From S2P Require Import Prelude Sql.
From S2P Require JobQueue.
Open Scope Z_scope.

(** ** The table *)

Inductive Status := StatusPending | StatusDispatching | StatusDispatched | StatusDead.

#[export] Instance Status_eq_dec : EqDecision Status.
Proof. solve_decision. Defined.

Definition DefaultMaxAttempts : Z := 5.

(** An event, keyed by its id in the table.  An empty [LastError] is the NULL
    of the column. *)
Record Event := mkEvent {
  AggregateType : string;
  AggregateID : string;
  EventType : string;
  Payload : string;
  DedupeKey : string;
  EStatus : Status;
  Attempts : Z;
  MaxAttempts : Z;
  NextAttemptAt : Time;
  LeasedUntil : option Time;
  JobID : option UUID;
  LastError : string;
  CreatedAt : Time;
  UpdatedAt : Time;
  DispatchedAt : option Time;
}.

Abbreviation Table := (gmap UUID Event) (only parsing).

Inductive OutboxError :=
| ErrAggregateType | ErrAggregateID | ErrEventType | ErrDedupeKey | ErrPayload
| ErrMarshal | ErrNoRepository | ErrNoTransaction | ErrUniqueID.

(** ** Producers *)

Section Producer.
(** [json.Valid] of the standard library. *)
Variable jsonValid : string → bool.

Definition Validate (e : Event) : result OutboxError unit :=
  guard_err (bool_decide (AggregateType e = "")) ErrAggregateType;;
  guard_err (bool_decide (AggregateID e = "")) ErrAggregateID;;
  guard_err (bool_decide (EventType e = "")) ErrEventType;;
  guard_err (bool_decide (DedupeKey e = "")) ErrDedupeKey;;
  guard_err (negb (bool_decide (Payload e = "")) && negb (jsonValid (Payload e))) ErrPayload.

(** [raw] is what [json.Marshal] gave. *)
Definition NewEvent (aty aid ety key : string) (raw : option string) : result OutboxError Event :=
  match raw with
  | None => Err ErrMarshal
  | Some raw =>
      let e := mkEvent aty aid ety raw key StatusPending 0 DefaultMaxAttempts
                 zeroTime None None "" zeroTime zeroTime None in
      Validate e;; Ok e
  end.

(** [OutboxRepository.Insert]: [ON CONFLICT (dedupe_key) DO NOTHING]; a
    repeated primary key is the database's error.  [dbnow] is the column
    default of [created_at], the start of the producer's transaction. *)
Definition Insert (hasTx : bool) (id : UUID) (e : Event) (now dbnow : Time) (t : Table)
    : result OutboxError unit * Table :=
  if negb hasTx then (Err ErrNoTransaction, t)
  else
    let payload := if decide (Payload e = "") then "{}"%string else Payload e in
    let maxAttempts := if MaxAttempts e <=? 0 then DefaultMaxAttempts else MaxAttempts e in
    let nextAttempt := if NextAttemptAt e =? zeroTime then now else NextAttemptAt e in
    let e' := mkEvent (AggregateType e) (AggregateID e) (EventType e) payload (DedupeKey e)
                StatusPending 0 maxAttempts nextAttempt None None "" dbnow dbnow None in
    if existsb (λ p : UUID * Event, bool_decide (DedupeKey p.2 = DedupeKey e)) (map_to_list t)
    then (Ok tt, t)
    else if bool_decide (is_Some (t !! id)) then (Err ErrUniqueID, t)
    else (Ok tt, <[id := e']> t).

(** [Writer.Insert]: [repo] is whether a repository is configured, [fresh]
    the id drawn for an event without one. *)
Definition WriterInsert (repo hasTx : bool) (id fresh : UUID) (e : Event) (now dbnow : Time)
    (t : Table) : result OutboxError unit * Table :=
  if negb repo then (Err ErrNoRepository, t)
  else
    match Validate e with
    | Err err => (Err err, t)
    | Ok _ => Insert hasTx (if id =? uuid_Nil then fresh else id) e now dbnow t
    end.

Definition Publish (repo hasTx : bool) (fresh : UUID) (aty aid ety key : string)
    (raw : option string) (now dbnow : Time) (t : Table) : result OutboxError unit * Table :=
  match NewEvent aty aid ety key raw with
  | Err err => (Err err, t)
  | Ok e => WriterInsert repo hasTx fresh fresh e now dbnow t
  end.
End Producer.

(** ** Statements of the relay *)

Definition nonterminal (e : Event) : bool :=
  match EStatus e with StatusPending | StatusDispatching => true | _ => false end.

Definition same_aggregate (e f : Event) : bool :=
  bool_decide (AggregateType e = AggregateType f) && bool_decide (AggregateID e = AggregateID f).

(** [ORDER BY created_at, id] *)
Definition before (p q : UUID * Event) : Prop :=
  CreatedAt p.2 < CreatedAt q.2 ∨ CreatedAt p.2 = CreatedAt q.2 ∧ p.1 ≤ q.1.

#[export] Instance before_dec : RelDecision before.
Proof. intros p q. unfold before. apply _. Defined.

(** The [heads] CTE: [DISTINCT ON (aggregate_type, aggregate_id)] over the
    non-terminal rows keeps each aggregate's first row in that order. *)
Definition is_head (t : Table) (p : UUID * Event) : bool :=
  nonterminal p.2 &&
  forallb (λ q : UUID * Event,
    negb (nonterminal q.2 && same_aggregate p.2 q.2) || bool_decide (before p q)) (map_to_list t).

Definition due (now : Time) (e : Event) : bool :=
  match EStatus e with
  | StatusPending => NextAttemptAt e <=? now
  | StatusDispatching =>
      match JobID e, LeasedUntil e with
      | None, Some t => t <=? now
      | _, _ => false
      end
  | _ => false
  end.

Record ClaimParams := mkClaimParams { cp_Limit : Z; cp_Lease : Duration; cp_Now : Time }.

Definition claim_row (until dbnow : Time) (e : Event) : Event :=
  mkEvent (AggregateType e) (AggregateID e) (EventType e) (Payload e) (DedupeKey e)
    StatusDispatching (Attempts e + 1) (MaxAttempts e) (NextAttemptAt e) (Some until) None
    (LastError e) (CreatedAt e) dbnow (DispatchedAt e).

Definition claimable (locked : UUID → bool) (now : Time) (t : Table) (p : UUID * Event) : bool :=
  is_head t p && due now p.2 && negb (locked p.1).

Definition ready (locked : UUID → bool) (limit : Z) (now : Time) (t : Table) : list (UUID * Event) :=
  select_rows before (claimable locked now t) limit t.

(** [wall] is time.Now(), read when the caller passes no reference time. *)
Definition ClaimDue (locked : UUID → bool) (p : ClaimParams) (wall dbnow : Time) (t : Table)
    : list (UUID * Event) * Table :=
  if cp_Limit p <=? 0 then ([], t)
  else
    let now := if cp_Now p =? zeroTime then wall else cp_Now p in
    let leasedUntil := timeAdd now (cp_Lease p) in
    let rows := ready locked (cp_Limit p) now t in
    (update_rows (claim_row leasedUntil dbnow) rows, overwrite (claim_row leasedUntil dbnow) rows t).

Definition dispatching_row (job : UUID) (dbnow : Time) (e : Event) : Event :=
  mkEvent (AggregateType e) (AggregateID e) (EventType e) (Payload e) (DedupeKey e) (EStatus e)
    (Attempts e) (MaxAttempts e) (NextAttemptAt e) (LeasedUntil e) (Some job) (LastError e)
    (CreatedAt e) dbnow (DispatchedAt e).
Definition dispatched_row (at_ dbnow : Time) (e : Event) : Event :=
  mkEvent (AggregateType e) (AggregateID e) (EventType e) (Payload e) (DedupeKey e)
    StatusDispatched (Attempts e) (MaxAttempts e) (NextAttemptAt e) None (JobID e) ""
    (CreatedAt e) dbnow (Some at_).
Definition dead_row (lastErr : string) (dbnow : Time) (e : Event) : Event :=
  mkEvent (AggregateType e) (AggregateID e) (EventType e) (Payload e) (DedupeKey e)
    StatusDead (Attempts e) (MaxAttempts e) (NextAttemptAt e) None (JobID e) lastErr
    (CreatedAt e) dbnow (DispatchedAt e).
Definition released_row (next : Time) (lastErr : string) (dbnow : Time) (e : Event) : Event :=
  mkEvent (AggregateType e) (AggregateID e) (EventType e) (Payload e) (DedupeKey e)
    StatusPending (Attempts e) (MaxAttempts e) next None None lastErr
    (CreatedAt e) dbnow (DispatchedAt e).

Definition in_status (s : Status) (e : Event) : bool := bool_decide (EStatus e = s).

Definition MarkDispatching (id job : UUID) (dbnow : Time) (t : Table) : Table :=
  update_where (in_status StatusDispatching) (dispatching_row job dbnow) id t.
Definition MarkDispatched (id : UUID) (at_ wall dbnow : Time) (t : Table) : Table :=
  let at_ := if at_ =? zeroTime then wall else at_ in
  update_where (λ e, negb (in_status StatusDispatched e)) (dispatched_row at_ dbnow) id t.
Definition MarkDead (id : UUID) (lastErr : string) (dbnow : Time) (t : Table) : Table :=
  update_where (λ e, negb (in_status StatusDead e)) (dead_row lastErr dbnow) id t.
Definition Release (id : UUID) (next : Time) (lastErr : string) (dbnow : Time) (t : Table) : Table :=
  update_where (in_status StatusDispatching) (released_row next lastErr dbnow) id t.

Definition InFlight (limit : Z) (t : Table) : list (UUID * Event) :=
  if limit <=? 0 then []
  else select_rows before (λ p : UUID * Event,
         in_status StatusDispatching p.2 && bool_decide (is_Some (JobID p.2))) limit t.

Definition expired (s : Status) (cutoff : Time) (e : Event) : bool :=
  in_status s e && (UpdatedAt e <? cutoff).
Definition delete_expired (s : Status) (cutoff : Time) (t : Table) : Table :=
  filter (λ p, expired s cutoff p.2 = false) t.

(** [ok1] and [ok2] are whether the two statements reach the database; the
    first stays done when the second fails. *)
Definition PruneTerminal (ok1 ok2 : bool) (dispatchedBefore deadBefore : Time) (t : Table)
    : option (Z * Z) * Table :=
  if negb ok1 then (None, t)
  else
    let dispatched := count_rows (λ p : UUID * Event, expired StatusDispatched dispatchedBefore p.2) t in
    let t := delete_expired StatusDispatched dispatchedBefore t in
    if negb ok2 then (None, t)
    else
      let dead := count_rows (λ p : UUID * Event, expired StatusDead deadBefore p.2) t in
      (Some (dispatched, dead), delete_expired StatusDead deadBefore t).

Record Stats := mkStats {
  Pending : Z; Dispatching : Z; Dead : Z; OldestPendingAge : Duration;
}.

(** [wall] as in [ClaimDue]. *)
Definition OutboxStats (now wall : Time) (t : Table) : Stats :=
  let now := if now =? zeroTime then wall else now in
  let n (f : Event → bool) := count_rows (λ p : UUID * Event, f p.2) t in
  let oldest := fold_left (λ (o : option Time) (p : UUID * Event),
    if nonterminal p.2 then
      match o with Some x => Some (Z.min x (CreatedAt p.2)) | None => Some (CreatedAt p.2) end
    else o) (map_to_list t) None in
  {| Pending := n (λ e, in_status StatusPending e && (NextAttemptAt e <=? now));
     Dispatching := n (in_status StatusDispatching);
     Dead := n (in_status StatusDead);
     OldestPendingAge :=
       match oldest with
       | Some x => let age := timeSub now x in if 0 <? age then age else 0
       | None => 0
       end |}.

(** ** The relay *)

(** The ports of the relay. *)
Class Enqueuer (Q : Type) :=
  enqueue : JobQueue.EnqueueInput → Q → result JobQueue.JobError JobQueue.Job * Q.
Class JobStatusReader (Q : Type) :=
  job_status : UUID → Q → result JobQueue.JobError JobQueue.Status.

Record RelayConfig := mkRelayConfig {
  Enabled : bool;
  PollInterval : Duration;
  BatchSize : Z;
  Lease : Duration;
  Backoff : Duration;
  StatsInterval : Duration;
}.

Definition withDefaults (c : RelayConfig) : RelayConfig :=
  {| Enabled := Enabled c;
     PollInterval := if PollInterval c <=? 0 then Second else PollInterval c;
     BatchSize := if BatchSize c <=? 0 then 100 else BatchSize c;
     Lease := if Lease c <=? 0 then 30 * Second else Lease c;
     Backoff := if Backoff c <=? 0 then 5 * Second else Backoff c;
     StatsInterval := StatsInterval c |}.

(** The repository calls of a tick that can fail on their own. *)
Inductive dbcall := CMarkDispatching | CMarkDispatched | CMarkDead | CRelease | CInFlight | CClaim.

Section Relay.
Context {Q : Type} `{Enqueuer Q} `{JobStatusReader Q}.
(** How ids, queue errors and %q print, in the recorded reasons. *)
Variable showID : UUID → string.
Variable quote : string → string.
Variable showErr : JobQueue.JobError → string.
Variable routes : gmap string string.
Variable cfg : RelayConfig.
(** Which calls reach the database, what [r.clock()] reads around an event
    and the database's NOW(). *)
Variable up : dbcall → UUID → bool.
Variable clock : UUID → Time.
Variable wall dbnow : Time.

Definition deadLetter (id : UUID) (reason : string) (t : Table) : Table :=
  if up CMarkDead id then MarkDead id reason dbnow t else t.

Definition release (id : UUID) (reason : string) (t : Table) : Table :=
  let next := timeAdd (clock id) (Backoff cfg) in
  if up CRelease id then Release id next reason dbnow t else t.

(** One turn of reconcile's loop: whether the event was resolved. *)
Definition reconcileOne (p : UUID * Event) (t : Table) (q : Q) : Z * Table :=
  let '(id, e) := p in
  match JobID e with
  | None => (0, t)
  | Some job =>
      match job_status job q with
      | Err JobQueue.ErrNotFound =>
          (1, release id ("job " +:+ showID job +:+ " no longer exists") t)
      | Err _ => (0, t)
      | Ok JobQueue.StatusSucceeded =>
          if up CMarkDispatched id then (1, MarkDispatched id (clock id) wall dbnow t) else (0, t)
      | Ok JobQueue.StatusDead =>
          (1, deadLetter id ("delivery job " +:+ showID job +:+ " dead-lettered") t)
      | Ok _ => (0, t)
      end
  end.

Fixpoint reconcileAll (ps : list (UUID * Event)) (t : Table) (q : Q) : Z * Table :=
  match ps with
  | [] => (0, t)
  | p :: ps =>
      let '(n, t) := reconcileOne p t q in
      let '(m, t) := reconcileAll ps t q in (n + m, t)
  end.

Definition reconcile (hasJobs : bool) (t : Table) (q : Q) : Z * Table :=
  if negb hasJobs then (0, t)
  else if up CInFlight uuid_Nil then reconcileAll (InFlight (BatchSize cfg) t) t q
  else (0, t).

(** One turn of dispatch's loop, on the event as it was claimed. *)
Definition dispatchOne (p : UUID * Event) (t : Table) (q : Q) : Z * Table * Q :=
  let '(id, e) := p in
  if MaxAttempts e <? Attempts e then
    (0, deadLetter id ("exhausted " +:+ pretty (MaxAttempts e) +:+ " hand-off attempts") t, q)
  else
    match routes !! EventType e with
    | None =>
        (0, deadLetter id ("no route registered for event type " +:+ quote (EventType e)) t, q)
    | Some jobType =>
        match enqueue (JobQueue.mkEnqueueInput jobType (Payload e) 0 0 (DedupeKey e)
                         (DedupeKey e) zeroTime) q with
        | (Err err, q) =>
            if MaxAttempts e <=? Attempts e then
              (0, deadLetter id ("enqueue failed after " +:+ pretty (Attempts e)
                     +:+ " attempts: " +:+ showErr err) t, q)
            else (0, release id (showErr err) t, q)
        | (Ok job, q) =>
            if up CMarkDispatching id
            then (1, MarkDispatching id (JobQueue.ID job) dbnow t, q)
            else (0, t, q)
        end
    end.

Fixpoint dispatchAll (ps : list (UUID * Event)) (t : Table) (q : Q) : Z * Table * Q :=
  match ps with
  | [] => (0, t, q)
  | p :: ps =>
      let '(n, t, q) := dispatchOne p t q in
      let '(m, t, q) := dispatchAll ps t q in (n + m, t, q)
  end.

Definition dispatch (locked : UUID → bool) (t : Table) (q : Q) : Z * Table * Q :=
  if up CClaim uuid_Nil then
    let '(claimed, t) :=
      ClaimDue locked (mkClaimParams (BatchSize cfg) (Lease cfg) (clock uuid_Nil)) wall dbnow t in
    dispatchAll claimed t q
  else (0, t, q).

Definition Tick (hasJobs : bool) (locked : UUID → bool) (t : Table) (q : Q) : Z * Table * Q :=
  let '(n, t) := reconcile hasJobs t q in
  let '(m, t, q) := dispatch locked t q in
  (n + m, t, q).
End Relay.

(** ** Retention *)

Record RetentionConfig := mkRetention {
  DispatchedRetention : Duration;
  DeadRetention : Duration;
}.

Definition DefaultDispatchedRetention : Duration := 7 * 24 * Hour.
Definition DefaultDeadRetention : Duration := 30 * 24 * Hour.

Definition retentionDefaults (c : RetentionConfig) : RetentionConfig :=
  {| DispatchedRetention :=
       if DispatchedRetention c <=? 0 then DefaultDispatchedRetention else DispatchedRetention c;
     DeadRetention := if DeadRetention c <=? 0 then DefaultDeadRetention else DeadRetention c |}.

Definition RetentionTick (c : RetentionConfig) (hasRepo isLeader ok1 ok2 : bool) (now : Time)
    (t : Table) : Z * Table :=
  if negb hasRepo || negb isLeader then (0, t)
  else
    match PruneTerminal ok1 ok2 (timeAdd now (- DispatchedRetention c))
            (timeAdd now (- DeadRetention c)) t with
    | (Some (dispatched, dead), t) => (dispatched + dead, t)
    | (None, t) => (0, t)
    end.

(** ** The durable queue behind the ports

    A queue session: the [jobs] table with the id and the clocks the next
    call reads. *)

Record QueueSession := mkSession {
  qs_next : UUID;
  qs_now : Time;
  qs_dbnow : Time;
  qs_store : gmap UUID JobQueue.row;
}.

#[export] Instance queue_enqueuer : Enqueuer QueueSession := λ i q,
  let '(r, st) :=
    JobQueue.ClientEnqueue (qs_next q) (qs_now q) (qs_dbnow q) i (λ st, st) (qs_store q) in
  (fst <$> r, mkSession (qs_next q + 1) (qs_now q) (qs_dbnow q) st).

#[export] Instance queue_status_reader : JobStatusReader QueueSession := λ id q,
  JobQueue.JobStatus id (qs_store q).

(** ** Order of an aggregate *)

#[export] Instance before_total : Total before.
Proof. intros p q. unfold before. lia. Qed.
#[export] Instance before_trans : Transitive before.
Proof. intros p q r. unfold before. lia. Qed.

Lemma before_antisym p q : before p q → before q p → p.1 = q.1.
Proof. unfold before. lia. Qed.

Lemma same_aggregate_spec e f :
  same_aggregate e f = true ↔ AggregateType e = AggregateType f ∧ AggregateID e = AggregateID f.
Proof. unfold same_aggregate. by rewrite andb_true_iff, !bool_decide_eq_true. Qed.

Lemma same_aggregate_sym e f : same_aggregate e f = same_aggregate f e.
Proof.
  apply eq_true_iff_eq. rewrite !same_aggregate_spec. naive_solver.
Qed.

(** The head of an aggregate is its oldest event that is not terminal. *)
Lemma is_head_spec (t : Table) id e :
  is_head t (id, e) = true ↔
  nonterminal e = true
  ∧ ∀ id' e', t !! id' = Some e' → nonterminal e' = true → same_aggregate e e' = true →
      before (id, e) (id', e').
Proof.
  unfold is_head. simpl. rewrite andb_true_iff, forallb_forall. apply and_iff_compat_l.
  split.
  - intros H id' e' Hl Hn Hs. specialize (H (id', e')). simpl in H.
    rewrite <-list_elem_of_In, elem_of_map_to_list, Hn, Hs in H. simpl in H.
    apply H in Hl. by apply bool_decide_eq_true in Hl.
  - intros H [id' e']. rewrite <-list_elem_of_In, elem_of_map_to_list. simpl. intros Hl.
    destruct (nonterminal e') eqn:Hn; [|done].
    destruct (same_aggregate e e') eqn:Hs; [|done]. simpl. apply bool_decide_eq_true. eauto.
Qed.

Lemma head_unique (t : Table) id e id' e' :
  t !! id = Some e → t !! id' = Some e' → same_aggregate e e' = true →
  is_head t (id, e) = true → is_head t (id', e') = true → id = id'.
Proof.
  rewrite !is_head_spec. intros H1 H2 Hs [Hn Hb] [Hn' Hb'].
  apply (before_antisym (id, e) (id', e')); [by apply Hb|].
  apply Hb'; [done..|]. by rewrite same_aggregate_sym.
Qed.

(** ** Claims *)

Lemma ready_spec locked limit now (t : Table) x :
  x ∈ ready locked limit now t →
  t !! x.1 = Some x.2 ∧ is_head t x = true ∧ due now x.2 = true ∧ locked x.1 = false.
Proof.
  intros [Hl Hc]%select_In. split; [done|]. unfold claimable in Hc. go_bool. done.
Qed.

Lemma ready_lookup locked limit now (t : Table) x :
  x ∈ ready locked limit now t → t !! x.1 = Some x.2.
Proof. intros H. by apply ready_spec in H as [? _]. Qed.

Lemma claim_NoDup locked limit now (t : Table) : NoDup (ready locked limit now t).*1.
Proof. apply select_NoDup. Qed.

#[local] Hint Resolve ready_lookup claim_NoDup : core.

(** The reference time of a claim. *)
Definition claim_now (p : ClaimParams) (wall : Time) : Time :=
  if cp_Now p =? zeroTime then wall else cp_Now p.

Lemma ClaimDue_eq locked p wall dbnow (t : Table) :
  let now := claim_now p wall in
  let f := claim_row (timeAdd now (cp_Lease p)) dbnow in
  ClaimDue locked p wall dbnow t
  = (update_rows f (ready locked (cp_Limit p) now t),
     overwrite f (ready locked (cp_Limit p) now t) t).
Proof.
  unfold ClaimDue, ready, claim_now. destruct (Z.leb_spec (cp_Limit p) 0); [|done].
  rewrite select_none by done. unfold overwrite, update_rows. simpl.
  by rewrite (left_id_L ∅ (∪)).
Qed.

(** An event a claim may take: not locked, due or abandoned past its lease,
    and the oldest of its aggregate that is not terminal. *)
Definition takeable (locked : UUID → bool) (now : Time) (t : Table) (id : UUID) (e : Event) : Prop :=
  locked id = false
  ∧ (EStatus e = StatusPending ∧ NextAttemptAt e ≤ now
     ∨ EStatus e = StatusDispatching ∧ JobID e = None ∧ ∃ u, LeasedUntil e = Some u ∧ u ≤ now)
  ∧ ∀ id' e', t !! id' = Some e' → AggregateType e' = AggregateType e →
      AggregateID e' = AggregateID e → EStatus e' = StatusPending ∨ EStatus e' = StatusDispatching →
      CreatedAt e < CreatedAt e' ∨ CreatedAt e = CreatedAt e' ∧ id ≤ id'.

(** The row of a claimed event. *)
Definition claimed_row (until : Time) (e e' : Event) : Prop :=
  EStatus e' = StatusDispatching ∧ Attempts e' = Attempts e + 1 ∧ LeasedUntil e' = Some until
  ∧ JobID e' = None ∧ AggregateType e' = AggregateType e ∧ AggregateID e' = AggregateID e
  ∧ EventType e' = EventType e ∧ Payload e' = Payload e ∧ DedupeKey e' = DedupeKey e
  ∧ MaxAttempts e' = MaxAttempts e ∧ CreatedAt e' = CreatedAt e.

Lemma nonterminal_spec e :
  nonterminal e = true ↔ EStatus e = StatusPending ∨ EStatus e = StatusDispatching.
Proof. unfold nonterminal. destruct (EStatus e); naive_solver. Qed.

Lemma due_spec now e :
  due now e = true ↔
  EStatus e = StatusPending ∧ NextAttemptAt e ≤ now
  ∨ EStatus e = StatusDispatching ∧ JobID e = None ∧ ∃ u, LeasedUntil e = Some u ∧ u ≤ now.
Proof.
  unfold due. destruct (EStatus e), (JobID e), (LeasedUntil e); rewrite ?Z.leb_le; naive_solver.
Qed.

Lemma claimable_spec locked now (t : Table) id e :
  claimable locked now t (id, e) = true ↔ takeable locked now t id e.
Proof.
  unfold claimable, takeable. simpl. rewrite !andb_true_iff, negb_true_iff, due_spec, is_head_spec.
  setoid_rewrite same_aggregate_spec. setoid_rewrite nonterminal_spec. unfold before. simpl.
  split; [naive_solver|]. intros (Hl & Hd & Hall). split_and!; try done; naive_solver.
Qed.

(** [ClaimDue] leases at most [Limit] events, no two of one aggregate;
    each is its aggregate's oldest non-terminal event, due and not locked,
    and becomes dispatching with one more attempt, a lease and no job; every
    other row is untouched; and a claimable event is left behind only for
    older ones, when the limit is reached. *)
Theorem out_claim_correct locked p wall dbnow (t : Table) claimed t' :
  ClaimDue locked p wall dbnow t = (claimed, t') →
  let now := claim_now p wall in
  Z.of_nat (length claimed) ≤ Z.max 0 (cp_Limit p)
  ∧ (∀ x y, x ∈ claimed → y ∈ claimed →
       AggregateType x.2 = AggregateType y.2 → AggregateID x.2 = AggregateID y.2 → x.1 = y.1)
  ∧ (∀ x, x ∈ claimed → t' !! x.1 = Some x.2 ∧ ∃ e, t !! x.1 = Some e
       ∧ takeable locked now t x.1 e ∧ claimed_row (timeAdd now (cp_Lease p)) e x.2)
  ∧ (∀ id, id ∉ claimed.*1 → t' !! id = t !! id)
  ∧ (∀ id e, t !! id = Some e → takeable locked now t id e → id ∉ claimed.*1 →
       Z.of_nat (length claimed) = Z.max 0 (cp_Limit p)
       ∧ ∀ x, x ∈ claimed →
           CreatedAt x.2 < CreatedAt e ∨ CreatedAt x.2 = CreatedAt e ∧ x.1 ≤ id).
Proof.
  rewrite ClaimDue_eq. intros [= <- <-] now. fold now.
  rewrite update_rows_fst, length_update_rows.
  split_and!; [apply select_length| | | |].
  - intros x y (x' & -> & Hx)%list_elem_of_fmap (y' & -> & Hy)%list_elem_of_fmap. simpl.
    intros H1 H2. apply ready_spec in Hx as (Hx & Hhx & _). apply ready_spec in Hy as (Hy & Hhy & _).
    destruct x', y'. eapply head_unique; [done..| |done|done]. by apply same_aggregate_spec.
  - intros x (x' & -> & Hx)%list_elem_of_fmap. simpl. split; [by apply overwrite_in|].
    pose proof (ready_lookup _ _ _ _ _ Hx) as Hl. apply select_In in Hx as [_ Hc].
    exists x'.2. split_and!; [done|apply claimable_spec; by destruct x'|]. by unfold claimed_row.
  - intros id Hid. by apply overwrite_out.
  - intros id e He Hc%claimable_spec Hid.
    destruct (select_cut before (claimable locked now t) (cp_Limit p) t (id, e) He Hc)
      as [Hlen Hpre].
    { intros Hin. apply Hid. by apply (list_elem_of_fmap_2 fst) in Hin. }
    split; [done|]. intros x (x' & -> & Hx)%list_elem_of_fmap. apply Hpre in Hx. done.
Qed.

(** ** Statement sequences

    Producers, any number of relays and the retention sweep interleave
    statement by statement. *)

Inductive op :=
| OInsert (hasTx : bool) (id : UUID) (e : Event) (now dbnow : Time)
| OClaim (locked : UUID → bool) (p : ClaimParams) (wall dbnow : Time)
| OMarkDispatching (id job : UUID) (dbnow : Time)
| OMarkDispatched (id : UUID) (at_ wall dbnow : Time)
| OMarkDead (id : UUID) (lastErr : string) (dbnow : Time)
| ORelease (id : UUID) (next : Time) (lastErr : string) (dbnow : Time)
| ODelete (s : Status) (cutoff : Time).

Definition exec (o : op) (t : Table) : Table :=
  match o with
  | OInsert hasTx id e now dbnow => (Insert hasTx id e now dbnow t).2
  | OClaim locked p wall dbnow => (ClaimDue locked p wall dbnow t).2
  | OMarkDispatching id job dbnow => MarkDispatching id job dbnow t
  | OMarkDispatched id at_ wall dbnow => MarkDispatched id at_ wall dbnow t
  | OMarkDead id lastErr dbnow => MarkDead id lastErr dbnow t
  | ORelease id next lastErr dbnow => Release id next lastErr dbnow t
  | ODelete s cutoff =>
      match s with
      | StatusDispatched | StatusDead => delete_expired s cutoff t
      | _ => t
      end
  end.

Fixpoint execs (os : list op) (t : Table) : Table :=
  match os with [] => t | o :: os => execs os (exec o t) end.

Lemma execs_app os1 os2 (t : Table) : execs (os1 ++ os2) t = execs os2 (execs os1 t).
Proof. revert t. induction os1 as [|o os1 IH]; simpl; auto. Qed.

(** What no statement changes about an event. *)
Definition same_event (e e' : Event) : Prop :=
  AggregateType e' = AggregateType e ∧ AggregateID e' = AggregateID e
  ∧ EventType e' = EventType e ∧ Payload e' = Payload e
  ∧ DedupeKey e' = DedupeKey e ∧ CreatedAt e' = CreatedAt e ∧ MaxAttempts e' = MaxAttempts e.

(** What one statement can do to a row. *)
Definition ev_next (t : Table) (id : UUID) (e e' : Event) : Prop :=
  same_event e e'
  ∧ (nonterminal e' = true → nonterminal e = true)
  ∧ (EStatus e' = StatusDispatching →
     EStatus e = StatusDispatching ∨ is_head t (id, e) = true).

Lemma ev_next_refl t id e : ev_next t id e e.
Proof. unfold ev_next, same_event. naive_solver. Qed.

#[local] Hint Resolve ev_next_refl : core.

Lemma update_where_next guard g id0 (t : Table) id e :
  (∀ x, guard x = true → ev_next t id x (g x)) → t !! id = Some e →
  ∃ e', update_where guard g id0 t !! id = Some e' ∧ ev_next t id e e'.
Proof.
  intros Hg He. destruct (update_where_row guard g id0 t id e He) as [?|(_ & Hgd & ?)]; eauto.
Qed.

Lemma Insert_cases hasTx id e now dbnow (t : Table) :
  (Insert hasTx id e now dbnow t).2 = t
  ∨ t !! id = None
    ∧ (∀ id' e', t !! id' = Some e' → DedupeKey e' ≠ DedupeKey e)
    ∧ ∃ e', (Insert hasTx id e now dbnow t).2 = <[id := e']> t
      ∧ EStatus e' = StatusPending ∧ CreatedAt e' = dbnow ∧ DedupeKey e' = DedupeKey e
      ∧ AggregateType e' = AggregateType e ∧ AggregateID e' = AggregateID e.
Proof.
  unfold Insert. destruct hasTx; simpl; [|by left].
  destruct (existsb _ _) eqn:Hex; [by left|]. case_bool_decide as Hid; [by left|]. right.
  split; [by apply eq_None_not_Some|]. split; [|eexists; split; [reflexivity|done]].
  intros id' e' He' Hk. apply not_true_iff_false in Hex. apply Hex. apply existsb_exists.
  exists (id', e'). rewrite <-list_elem_of_In, elem_of_map_to_list. split; [done|].
  by apply bool_decide_eq_true.
Qed.

(** A statement keeps every row, moving it as [ev_next] allows, except for
    the terminal rows a sweep deletes. *)
Lemma exec_row o (t : Table) id e :
  t !! id = Some e →
  (∃ e', exec o t !! id = Some e' ∧ ev_next t id e e')
  ∨ exec o t !! id = None
    ∧ ∃ s cutoff, o = ODelete s cutoff ∧ expired s cutoff e = true ∧ nonterminal e = false.
Proof.
  intros He. destruct o as [hasTx id0 e0 now dbnow|locked p wall dbnow|id0 job dbnow
    |id0 at_ wall dbnow|id0 msg dbnow|id0 next msg dbnow|s cutoff]; cbn [exec].
  - left. exists e. split; [|done].
    destruct (Insert_cases hasTx id0 e0 now dbnow t) as [->|(Hn & _ & e' & -> & _)]; [done|].
    rewrite lookup_insert_ne; [done|congruence].
  - left. rewrite ClaimDue_eq. simpl.
    edestruct (overwrite_row (claim_row (timeAdd (claim_now p wall) (cp_Lease p)) dbnow)
      (ready locked (cp_Limit p) (claim_now p wall) t) t id e) as [?|[Hin ->]]; eauto.
    eexists. split; [done|]. apply ready_spec in Hin as (_ & Hh & _).
    split; [done|]. split; [|by right]. intros _. by apply is_head_spec in Hh as [? _].
  - left. apply update_where_next; [|done]. intros x Hx. unfold in_status in Hx. go_bool.
    split; [done|]. unfold nonterminal. simpl. auto.
  - left. apply update_where_next; [|done]. intros x _. by split.
  - left. apply update_where_next; [|done]. intros x _. by split.
  - left. apply update_where_next; [|done]. intros x Hx. unfold in_status in Hx. go_bool.
    split; [done|]. unfold nonterminal. rewrite Hx. done.
  - destruct (expired s cutoff e) eqn:Hx.
    + destruct s; [left; eauto..|right|right].
      all: split; [unfold delete_expired; apply map_lookup_filter_None; right; intros x Hl ?; simplify_eq/=; congruence|].
      all: eexists _, _; split_and!; [done..|].
      all: unfold expired, in_status, nonterminal in *; go_bool; by rewrite H.
    + left. exists e. split; [|done]. destruct s; [done..| |].
      all: unfold delete_expired; apply map_lookup_filter_Some; done.
Qed.

(** A row that appears was inserted pending, with a key no other row has. *)
Lemma exec_new o (t : Table) id e' :
  t !! id = None → exec o t !! id = Some e' →
  ∃ hasTx e now, o = OInsert hasTx id e now (CreatedAt e')
    ∧ EStatus e' = StatusPending ∧ DedupeKey e' = DedupeKey e
    ∧ AggregateType e' = AggregateType e ∧ AggregateID e' = AggregateID e
    ∧ (∀ id' e'', t !! id' = Some e'' → DedupeKey e'' ≠ DedupeKey e).
Proof.
  intros Hn He. destruct o as [hasTx id0 e0 now dbnow|locked p wall dbnow|id0 job dbnow
    |id0 at_ wall dbnow|id0 msg dbnow|id0 next msg dbnow|s cutoff]; cbn [exec] in He.
  - destruct (Insert_cases hasTx id0 e0 now dbnow t) as [Heq|(_ & Hk & e1 & Heq & Hs & Hc & Hd)];
      rewrite Heq in He; [congruence|].
    apply lookup_insert_Some in He as [[-> ->]|[_ He]]; [|congruence].
    exists hasTx, e0, now. rewrite Hc. naive_solver.
  - rewrite ClaimDue_eq in He. simpl in He. rewrite overwrite_new in He; eauto. done.
  - unfold MarkDispatching in He. by rewrite update_where_new in He.
  - unfold MarkDispatched in He. by rewrite update_where_new in He.
  - unfold MarkDead in He. by rewrite update_where_new in He.
  - unfold Release in He. by rewrite update_where_new in He.
  - unfold delete_expired in He.
    destruct s; try congruence; apply map_lookup_filter_Some in He as [? _]; congruence.
Qed.

(** Rows after a statement come from rows before it, or are new. *)
Lemma exec_back o (t : Table) id e' :
  exec o t !! id = Some e' →
  (∃ e, t !! id = Some e ∧ ev_next t id e e') ∨ t !! id = None.
Proof.
  intros He. destruct (t !! id) as [e|] eqn:Hl; [left|by right].
  destruct (exec_row o t id e Hl) as [(e1 & He1 & Hn)|[He1 _]]; [|congruence].
  exists e. split; [done|congruence].
Qed.

(** ** In-order delivery *)

(** Every event in flight is its aggregate's oldest non-terminal event. *)
Definition order_inv (t : Table) : Prop :=
  ∀ id e, t !! id = Some e → EStatus e = StatusDispatching → is_head t (id, e) = true.

(** The producer's event sorts after the pending and in-flight events of its
    aggregate that are already in the table. *)
Definition insert_ordered (o : op) (t : Table) : Prop :=
  match o with
  | OInsert _ id e _ dbnow =>
      ∀ id' e', t !! id' = Some e' → nonterminal e' = true → same_aggregate e e' = true →
        CreatedAt e' < dbnow ∨ CreatedAt e' = dbnow ∧ id' ≤ id
  | _ => True
  end.

Fixpoint inserts_ordered (os : list op) (t : Table) : Prop :=
  match os with
  | [] => True
  | o :: os => insert_ordered o t ∧ inserts_ordered os (exec o t)
  end.

Lemma same_event_refl e : same_event e e.
Proof. by unfold same_event. Qed.

Lemma same_event_trans e1 e2 e3 : same_event e1 e2 → same_event e2 e3 → same_event e1 e3.
Proof.
  intros (?&?&?&?&?&?&?) (?&?&?&?&?&?&?). unfold same_event. split_and!; congruence.
Qed.

Lemma same_event_key e e' : same_event e e' → DedupeKey e' = DedupeKey e.
Proof. by intros (?&?&?&?&?&?&?). Qed.

#[local] Hint Resolve same_event_refl same_event_trans : core.

Lemma same_event_aggregate e1 e1' e2 e2' :
  same_event e1 e1' → same_event e2 e2' → same_aggregate e1' e2' = same_aggregate e1 e2.
Proof.
  intros (Ht & Hi & _) (Ht' & Hi' & _). unfold same_aggregate. by rewrite Ht, Hi, Ht', Hi'.
Qed.

Lemma same_event_before id1 e1 e1' id2 e2 e2' :
  same_event e1 e1' → same_event e2 e2' → before (id1, e1) (id2, e2) →
  before (id1, e1') (id2, e2').
Proof.
  intros (_ & _ & _ & _ & _ & Hc & _) (_ & _ & _ & _ & _ & Hc' & _).
  unfold before. simpl. by rewrite Hc, Hc'.
Qed.

Lemma exec_order_inv o (t : Table) : order_inv t → insert_ordered o t → order_inv (exec o t).
Proof.
  intros Hinv Hord id e' He' Hd.
  destruct (exec_back o t id e' He') as [(e & He & Hev & Hnt & Hhd)|Hn].
  2:{ destruct (exec_new o t id e' Hn He') as (? & ? & ? & _ & Hs & _). congruence. }
  assert (is_head t (id, e) = true) as Hh by (destruct (Hhd Hd); [by apply Hinv|done]).
  apply is_head_spec in Hh as [Hne Hb]. apply is_head_spec.
  split; [unfold nonterminal; by rewrite Hd|].
  intros id2 e2' He2' Hn2 Hs2.
  destruct (exec_back o t id2 e2' He2') as [(e2 & He2 & Hev2 & Hnt2 & _)|Hn2'].
  - eapply same_event_before; [done..|]. apply Hb; [done|auto|].
    by rewrite (same_event_aggregate e e' e2 e2') in Hs2.
  - destruct (exec_new o t id2 e2' Hn2' He2') as (tx & e0 & now & -> & _ & _ & Hat & Hai & _).
    simpl in Hord. specialize (Hord id e He Hne).
    destruct Hev as (Ht & Hi & _ & _ & _ & Hc & _). unfold before. simpl. rewrite Hc.
    apply Hord. apply same_aggregate_spec in Hs2 as [? ?]. apply same_aggregate_spec.
    split; congruence.
Qed.

Lemma execs_order_inv os (t : Table) :
  order_inv t → inserts_ordered os t → order_inv (execs os t).
Proof.
  revert t. induction os as [|o os IH]; simpl; [done|].
  intros t Hinv [Ho Hos]. apply IH; [by apply exec_order_inv|done].
Qed.

(** C24: while producers insert in (created_at, id) order, whatever relays,
    failures, lease expiries and sweeps interleave: an event is in flight
    only while every older event of its aggregate is delivered or dead, and
    an aggregate never has two events in flight. *)
Theorem out_in_order_delivery os (t : Table) :
  order_inv t → inserts_ordered os t →
  let t' := execs os t in
  ∀ id e, t' !! id = Some e → EStatus e = StatusDispatching →
    (∀ id2 e2, t' !! id2 = Some e2 → same_aggregate e e2 = true →
       before (id2, e2) (id, e) → id2 ≠ id → EStatus e2 = StatusDispatched ∨ EStatus e2 = StatusDead)
    ∧ (∀ id2 e2, t' !! id2 = Some e2 → same_aggregate e e2 = true →
       EStatus e2 = StatusDispatching → id2 = id).
Proof.
  intros Hinv Hos t' id e He Hd. pose proof (execs_order_inv os t Hinv Hos) as Hinv'.
  pose proof (Hinv' id e He Hd) as Hh. split.
  - intros id2 e2 He2 Hs Hb Hne. apply is_head_spec in Hh as [_ Hall].
    destruct (EStatus e2) eqn:Hs2; auto; exfalso; apply Hne.
    all: apply (before_antisym (id2, e2) (id, e)); [done|].
    all: apply Hall; [done| |done]; unfold nonterminal; by rewrite Hs2.
  - intros id2 e2 He2 Hs Hd2. symmetry. eapply head_unique; [exact He|exact He2|done|done|].
    by apply Hinv'.
Qed.

(** ** No event is lost *)

(** An event leaves the table only through the retention sweep, and only
    once it is delivered or dead and older than the cutoff: up to that point
    its row is there with the same aggregate, type, payload and key. *)
Theorem out_never_lost os (t : Table) id e :
  t !! id = Some e →
  (∃ e', execs os t !! id = Some e' ∧ same_event e e')
  ∨ ∃ os1 s cutoff os2 e1, os = os1 ++ ODelete s cutoff :: os2
      ∧ execs os1 t !! id = Some e1 ∧ same_event e e1
      ∧ (s = StatusDispatched ∨ s = StatusDead) ∧ EStatus e1 = s ∧ UpdatedAt e1 < cutoff.
Proof.
  revert t e. induction os as [|o os IH]; intros t e He; simpl.
  - left. eauto.
  - destruct (exec_row o t id e He) as [(e1 & He1 & Hev & _)|(_ & s & c & -> & Hx & Hn)].
    + assert (∀ x, same_event e1 x → same_event e x) as Htr by eauto.
      destruct (IH _ _ He1) as [(e2 & ? & ?)|(os1 & s & c & os2 & e2 & -> & ? & ? & ? & ?)].
      * left. eauto.
      * right. exists (o :: os1), s, c, os2, e2. simpl. eauto 10.
    + right. exists [], s, c, os, e. unfold expired, in_status, nonterminal in *. go_bool. subst.
      split_and!; try done. destruct (EStatus e); auto; done.
Qed.

(** The retention sweep is the two deletions, however far it gets. *)
Lemma RetentionTick_ops c hasRepo isLeader ok1 ok2 now (t : Table) :
  let d := timeAdd now (- DispatchedRetention c) in
  let d' := timeAdd now (- DeadRetention c) in
  ∃ os, (RetentionTick c hasRepo isLeader ok1 ok2 now t).2 = execs os t
  ∧ os `prefix_of` [ODelete StatusDispatched d; ODelete StatusDead d'].
Proof.
  intros d d'. unfold RetentionTick, PruneTerminal. fold d d'.
  destruct hasRepo, isLeader; simpl; try (exists []; split; [done|apply prefix_nil]).
  destruct ok1; simpl; [|exists []; split; [done|apply prefix_nil]].
  destruct ok2; simpl.
  - eexists. split; [|reflexivity]. done.
  - exists [ODelete StatusDispatched d]. split; [done|]. by eexists.
Qed.

(** ** Producer idempotency *)

Definition keys_unique (t : Table) : Prop :=
  ∀ id1 e1 id2 e2, t !! id1 = Some e1 → t !! id2 = Some e2 → DedupeKey e1 = DedupeKey e2 →
    id1 = id2.

Lemma exec_keys_unique o (t : Table) : keys_unique t → keys_unique (exec o t).
Proof.
  intros Hu id1 e1 id2 e2 H1 H2 Hk.
  destruct (exec_back o t id1 e1 H1) as [(f1 & Hf1 & Hev1 & _)|Hn1],
           (exec_back o t id2 e2 H2) as [(f2 & Hf2 & Hev2 & _)|Hn2].
  - apply (Hu id1 f1 id2 f2 Hf1 Hf2). apply same_event_key in Hev1, Hev2. congruence.
  - destruct (exec_new o t id2 e2 Hn2 H2) as (? & ? & ? & _ & _ & Hd & _ & _ & Hall).
    destruct (Hall id1 f1 Hf1). apply same_event_key in Hev1. congruence.
  - destruct (exec_new o t id1 e1 Hn1 H1) as (? & ? & ? & _ & _ & Hd & _ & _ & Hall).
    destruct (Hall id2 f2 Hf2). apply same_event_key in Hev2. congruence.
  - destruct (exec_new o t id1 e1 Hn1 H1) as (? & ? & ? & -> & _).
    destruct (exec_new _ t id2 e2 Hn2 H2) as (? & ? & ? & Heq & _). by injection Heq.
Qed.

(** Dedupe keys stay unique, and a producer that repeats an insert with
    a key that is in the table succeeds and changes nothing. *)
Theorem out_insert_idempotent os (t : Table) hasTx id e now dbnow id0 e0 :
  keys_unique t → execs os t !! id0 = Some e0 → DedupeKey e0 = DedupeKey e → hasTx = true →
  keys_unique (execs os t)
  ∧ Insert hasTx id e now dbnow (execs os t) = (Ok tt, execs os t).
Proof.
  intros Hu He0 Hk ->. split.
  - clear He0 Hk. revert t Hu. induction os as [|o os IH]; simpl; [done|].
    intros t Hu. by apply IH, exec_keys_unique.
  - unfold Insert. simpl. rewrite (proj2 (existsb_exists _ _)); [done|].
    exists (id0, e0). rewrite <-list_elem_of_In, elem_of_map_to_list. split; [done|].
    by apply bool_decide_eq_true.
Qed.

(** ** A tick is a sequence of statements *)

Definition relay_op (o : op) : bool :=
  match o with OInsert _ _ _ _ _ | ODelete _ _ => false | _ => true end.

Section TickRefines.
Context {Q : Type} `{Enqueuer Q} `{JobStatusReader Q}.
Context (showID : UUID → string) (quote : string → string) (showErr : JobQueue.JobError → string).
Context (routes : gmap string string) (cfg : RelayConfig).
Context (up : dbcall → UUID → bool) (clock : UUID → Time) (wall dbnow : Time).

(** [t'] is [t] after some statements of a relay. *)
Definition relayed (t t' : Table) : Prop := ∃ os, Forall relay_op os ∧ t' = execs os t.

Lemma relayed_refl t : relayed t t.
Proof. by exists []. Qed.
Lemma relayed_trans t1 t2 t3 : relayed t1 t2 → relayed t2 t3 → relayed t1 t3.
Proof.
  intros (os1 & H1 & ->) (os2 & H2 & ->). exists (os1 ++ os2).
  split; [by apply Forall_app|]. by rewrite execs_app.
Qed.
Lemma relayed_op o t : relay_op o = true → relayed t (exec o t).
Proof. intros Ho. exists [o]. split; [|done]. repeat constructor. by rewrite Ho. Qed.

Lemma relayed_dead id reason t : relayed t (deadLetter up dbnow id reason t).
Proof.
  unfold deadLetter. destruct (up _ _); [|apply relayed_refl].
  by apply (relayed_op (OMarkDead id reason dbnow)).
Qed.
Lemma relayed_release id reason t : relayed t (release cfg up clock dbnow id reason t).
Proof.
  unfold release. destruct (up _ _); [|apply relayed_refl].
  by apply (relayed_op (ORelease id _ reason dbnow)).
Qed.
#[local] Hint Resolve relayed_refl relayed_dead relayed_release : core.

Lemma relayed_reconcileOne p t (q : Q) :
  relayed t (reconcileOne showID cfg up clock wall dbnow p t q).2.
Proof.
  destruct p as [id e]. unfold reconcileOne. destruct (JobID e) as [job|]; [|simpl; auto].
  destruct (job_status job q) as [s|err]; [destruct s|destruct err]; simpl; auto.
  destruct (up _ _); simpl; [|auto]. by apply (relayed_op (OMarkDispatched id _ wall dbnow)).
Qed.

Lemma relayed_reconcileAll ps t (q : Q) :
  relayed t (reconcileAll showID cfg up clock wall dbnow ps t q).2.
Proof.
  revert t. induction ps as [|p ps IH]; intros t; simpl; [auto|].
  pose proof (relayed_reconcileOne p t q) as H1.
  destruct (reconcileOne _ _ _ _ _ _ p t q) as [n t1]. specialize (IH t1).
  destruct (reconcileAll _ _ _ _ _ _ ps t1 q). simpl in *. by eapply relayed_trans.
Qed.

Lemma relayed_dispatchOne p t (q : Q) :
  relayed t (dispatchOne quote showErr routes cfg up clock dbnow p t q).1.2.
Proof.
  destruct p as [id e]. unfold dispatchOne. destruct (_ <? _); [simpl; auto|].
  destruct (routes !! _); [|simpl; auto].
  destruct (enqueue _ q) as [[job|err] q']; [|destruct (_ <=? _); simpl; auto].
  destruct (up _ _); simpl; [|auto]. by apply (relayed_op (OMarkDispatching id _ dbnow)).
Qed.

Lemma relayed_dispatchAll ps t (q : Q) :
  relayed t (dispatchAll quote showErr routes cfg up clock dbnow ps t q).1.2.
Proof.
  revert t q. induction ps as [|p ps IH]; intros t q; simpl; [auto|].
  pose proof (relayed_dispatchOne p t q) as H1.
  destruct (dispatchOne _ _ _ _ _ _ _ p t q) as [[n t1] q1]. specialize (IH t1 q1).
  destruct (dispatchAll _ _ _ _ _ _ _ ps t1 q1) as [[m t2] q2]. simpl in *.
  by eapply relayed_trans.
Qed.

(** Whatever the queue answers and whichever database calls fail, a
    relay tick is a sequence of the relay's statements: it never inserts or
    deletes an event, so it keeps the delivery order and loses nothing. *)
Theorem out_tick_refines hasJobs locked t (q : Q) n t' q' :
  Tick showID quote showErr routes cfg up clock wall dbnow hasJobs locked t q = (n, t', q') →
  (∃ os, Forall relay_op os ∧ t' = execs os t)
  ∧ (order_inv t → order_inv t')
  ∧ ∀ id e, t !! id = Some e → ∃ e', t' !! id = Some e' ∧ same_event e e'.
Proof.
  intros Ht. assert (relayed t t') as (os & Hos & ->).
  { unfold Tick, reconcile, dispatch in Ht.
    assert (relayed t (reconcile showID cfg up clock wall dbnow hasJobs t q).2) as H1.
    { unfold reconcile. destruct hasJobs; simpl; [|auto].
      destruct (up _ _); [apply relayed_reconcileAll|simpl; auto]. }
    unfold reconcile in H1. destruct (if negb hasJobs then _ else _) as [m t1]. simpl in H1.
    destruct (up CClaim _); [|by simplify_eq].
    set (prm := mkClaimParams _ _ _) in Ht.
    pose proof (relayed_op (OClaim locked prm wall dbnow) t1 eq_refl) as H2. simpl in H2.
    destruct (ClaimDue locked prm wall dbnow t1) as [claimed t2]. simpl in H2.
    pose proof (relayed_dispatchAll claimed t2 q) as H3.
    destruct (dispatchAll _ _ _ _ _ _ _ claimed t2 q) as [[k t3] q3]. simplify_eq/=.
    by do 2 (eapply relayed_trans; [done|]). }
  split; [eauto|]. clear Ht. split.
  - intros Hinv. apply execs_order_inv; [done|]. clear Hinv. revert t.
    induction Hos as [|o os Ho Hos IH]; intros t; simpl; [done|]. split; [by destruct o|apply IH].
  - revert t. induction Hos as [|o os Ho Hos IH]; intros t id e He; simpl.
    { eauto. }
    destruct (exec_row o t id e He) as [(e1 & He1 & Hev & _)|(_ & ? & ? & -> & _)]; [|done].
    destruct (IH _ _ _ He1) as (e2 & He2 & Hev2). eauto.
Qed.
End TickRefines.

(** ** What a hand-off ends in *)

Lemma update_where_hit guard g id (t : Table) e :
  t !! id = Some e → guard e = true → update_where guard g id t !! id = Some (g e).
Proof.
  intros He Hg. unfold update_where. rewrite lookup_alter_eq, He. simpl. by rewrite Hg.
Qed.

Section Handoff.
Context {Q : Type} `{Enqueuer Q}.
Context (quote : string → string) (showErr : JobQueue.JobError → string).
Context (routes : gmap string string) (cfg : RelayConfig) (clock : UUID → Time) (dbnow : Time).

(** The job a relay asks for. *)
Definition handoff (jobType : string) (e : Event) : JobQueue.EnqueueInput :=
  JobQueue.mkEnqueueInput jobType (Payload e) 0 0 (DedupeKey e) (DedupeKey e) zeroTime.

(** The outcome of handing over a claimed event.  Past its budget or
    without a route it dies and the queue is not called; an enqueue error
    kills it on its last attempt and otherwise returns it to pending after
    the backoff, with no job; an enqueued event stays in flight under the job
    the queue named. *)
Theorem out_handoff_outcome id e (t : Table) (q : Q) n t' q' :
  t !! id = Some e → EStatus e = StatusDispatching →
  dispatchOne quote showErr routes cfg (λ _ _, true) clock dbnow (id, e) t q = (n, t', q') →
  ∃ e', t' !! id = Some e' ∧ same_event e e' ∧ (∀ id', id' ≠ id → t' !! id' = t !! id')
  ∧ match bool_decide (MaxAttempts e < Attempts e), routes !! EventType e with
    | true, _ | _, None => EStatus e' = StatusDead ∧ q' = q ∧ n = 0
    | _, Some jobType =>
        match enqueue (handoff jobType e) q with
        | (Ok job, q1) => EStatus e' = StatusDispatching ∧ JobID e' = Some (JobQueue.ID job)
            ∧ q' = q1 ∧ n = 1
        | (Err err, q1) => q' = q1 ∧ n = 0
            ∧ if decide (Attempts e < MaxAttempts e)
              then EStatus e' = StatusPending ∧ JobID e' = None ∧ LeasedUntil e' = None
                   ∧ NextAttemptAt e' = clock id + Backoff cfg ∧ LastError e' = showErr err
              else EStatus e' = StatusDead
        end
    end.
Proof.
  intros He Hd. unfold dispatchOne, deadLetter, release.
  assert (∀ g s id', id' ≠ id → update_where g s id t !! id' = t !! id') as Hout
    by (intros; unfold update_where; by rewrite lookup_alter_ne).
  assert (in_status StatusDispatching e = true) as Hg by (by apply bool_decide_eq_true).
  assert (negb (in_status StatusDead e) = true) as Hg'
    by (unfold in_status; by rewrite Hd).
  destruct (Z.ltb_spec (MaxAttempts e) (Attempts e)).
  { intros [= <- <- <-]. rewrite bool_decide_true by done. eexists.
    split_and!; [by apply (update_where_hit _ _ _ _ e)|done|by apply Hout|done..]. }
  rewrite bool_decide_false by lia. destruct (routes !! EventType e) as [jobType|].
  2:{ intros [= <- <- <-]. eexists.
      split_and!; [by apply (update_where_hit _ _ _ _ e)|done|by apply Hout|done..]. }
  fold (handoff jobType e). destruct (enqueue (handoff jobType e) q) as [[job|err] q1].
  - intros [= <- <- <-]. eexists.
    split_and!; [by apply (update_where_hit _ _ _ _ e)|done|by apply Hout|done..].
  - destruct (Z.leb_spec (MaxAttempts e) (Attempts e)); intros [= <- <- <-]; case_decide; try lia.
    all: eexists; split_and!; [by apply (update_where_hit _ _ _ _ e)|done|by apply Hout|done..].
Qed.
End Handoff.

(** A poison event releases its aggregate.  Once the head is dead (or
    delivered) the oldest remaining event of the aggregate is the head, so a
    relay can claim it as soon as it is due. *)
Theorem out_terminal_unblocks (t : Table) id e lastErr dbnow id2 e2 :
  t !! id = Some e → t !! id2 = Some e2 → id2 ≠ id → is_head t (id, e) = true →
  nonterminal e2 = true → same_aggregate e e2 = true →
  (∀ id3 e3, t !! id3 = Some e3 → id3 ≠ id → nonterminal e3 = true →
     same_aggregate e2 e3 = true → before (id2, e2) (id3, e3)) →
  is_head t (id2, e2) = false
  ∧ let t' := MarkDead id lastErr dbnow t in
    t' !! id2 = Some e2 ∧ is_head t' (id2, e2) = true
    ∧ ∀ now, claimable (λ _, false) now t' (id2, e2) = due now e2.
Proof.
  intros He He2 Hne Hh Hn2 Hs Hmin. split.
  { apply not_true_iff_false. intros Hh2. apply Hne. symmetry. by eapply head_unique. }
  intros t'. assert (is_head t' (id2, e2) = true) as Hh'.
  { apply is_head_spec. split; [done|]. intros id3 e3 He3 Hn3 Hs3.
    destruct (decide (id3 = id)) as [->|Hne3].
    - unfold t', MarkDead, update_where in He3. rewrite lookup_alter_eq, He in He3.
      simpl in He3. injection He3 as <-. unfold in_status in Hn3.
      case_bool_decide as Hdead; simpl in Hn3; [|done].
      unfold nonterminal in Hn3. by rewrite Hdead in Hn3.
    - unfold t', MarkDead, update_where in He3. rewrite lookup_alter_ne in He3 by done. eauto. }
  split_and!; [|done|].
  - unfold t', MarkDead, update_where. by rewrite lookup_alter_ne.
  - intros now. unfold claimable. rewrite Hh'. simpl. by rewrite andb_true_r.
Qed.

(** ** Where the guarantees end *)

Definition demo_event (created : Time) (key : string) : Event :=
  mkEvent "order" "7" "order.paid" "{}" key StatusPending 0 5 zeroTime None None "" created created
    None.

Definition demo_claim (now : Time) : op :=
  OClaim (λ _, false) (mkClaimParams 10 30 now) now now.

(** A producer whose transaction began at 10 and committed after the event of
    a transaction begun at 20 was claimed. *)
Definition late_commit : list op :=
  [ OInsert true 2 (demo_event 20 "b") 20 20; demo_claim 25;
    OInsert true 1 (demo_event 10 "a") 10 10; demo_claim 26 ].

(** Created_at is the start of the producer's transaction, so commit
    order can differ from it; then two events of one aggregate are in flight
    at once, and the newer one was handed over first. *)
Theorem out_late_commit_overtakes :
  ∃ e1 e2, execs late_commit ∅ !! 1 = Some e1 ∧ execs late_commit ∅ !! 2 = Some e2
  ∧ same_aggregate e1 e2 = true ∧ before (1, e1) (2, e2)
  ∧ EStatus e1 = StatusDispatching ∧ EStatus e2 = StatusDispatching.
Proof.
  eexists _, _. split_and!; [vm_compute; reflexivity|vm_compute; reflexivity|..].
  all: try (vm_compute; reflexivity). left. vm_compute. reflexivity.
Qed.

(** The queue's idempotency key covers only live jobs.  A relay that
    failed to record its job and reclaims the event after that job finished
    creates a second job for the same event. *)
Theorem out_rehandoff_duplicates quote showErr routes cfg up clock dbnow id e (t : Table)
    (q : QueueSession) jobType :
  routes !! EventType e = Some jobType → jobType ≠ "" → DedupeKey e ≠ "" →
  Attempts e ≤ MaxAttempts e → qs_store q !! qs_next q = None →
  (∀ j r, qs_store q !! j = Some r → JobQueue.r_type r = jobType →
     JobQueue.r_idempotency_key r = Some (DedupeKey e) → JobQueue.live r = false) →
  let q' := (dispatchOne quote showErr routes cfg up clock dbnow (id, e) t q).2 in
  (∃ r, qs_store q' !! qs_next q = Some r ∧ JobQueue.r_status r = JobQueue.StatusPending
     ∧ JobQueue.r_idempotency_key r = Some (DedupeKey e) ∧ JobQueue.r_type r = jobType)
  ∧ ∀ j r, qs_store q !! j = Some r → qs_store q' !! j = Some r.
Proof.
  intros Hr Hty Hk Ha Hfresh Hdone q'. subst q'. unfold dispatchOne.
  destruct (Z.ltb_spec (MaxAttempts e) (Attempts e)); [lia|]. rewrite Hr.
  unfold enqueue, queue_enqueuer, JobQueue.ClientEnqueue, JobQueue.Enqueue, JobQueue.EnqueueInsert.
  simpl. rewrite decide_False by done. unfold JobQueue.nullText. rewrite decide_False by done.
  assert (existsb (λ p : UUID * JobQueue.row,
    JobQueue.conflicts jobType (Some (DedupeKey e)) p.2) (map_to_list (qs_store q)) = false) as ->.
  { apply not_true_iff_false. intros ([j r] & Hin & Hc)%existsb_exists. simpl in Hc.
    rewrite <-list_elem_of_In, elem_of_map_to_list in Hin. go_bool.
    rewrite (Hdone j r) in * by done. done. }
  simpl. destruct (up CMarkDispatching id); simpl; split.
  all: try (eexists; rewrite lookup_insert_eq; split_and!; done).
  all: intros j r Hj; rewrite lookup_insert_ne by congruence; done.
Qed.

(** ** Witnesses *)

Definition demo_ops : list op :=
  [ OInsert true 1 (demo_event 10 "a") 10 10; OInsert true 2 (demo_event 20 "b") 20 20;
    demo_claim 25 ].
Definition demo_t : Table := execs demo_ops ∅.

Lemma order_inv_empty : order_inv ∅.
Proof. intros id e. by rewrite lookup_empty. Qed.

Lemma demo_ops_ordered : inserts_ordered demo_ops ∅.
Proof.
  split; [by intros|]. split; [|done].
  intros id e He _ _. simpl in He.
  assert (exec (OInsert true 1 (demo_event 10 "a") 10 10) ∅ =
    {[ 1 := mkEvent "order" "7" "order.paid" "{}" "a" StatusPending 0 5 10 None None "" 10 10 None ]})
    as Heq by (vm_compute; reflexivity).
  simpl in Heq. rewrite Heq in He. apply lookup_singleton_Some in He as [<- <-]. simpl. lia.
Qed.

Lemma out_claim_correct_witness :
  (ClaimDue (λ _, false) (mkClaimParams 10 30 25) 25 25 (execs (take 2 demo_ops) ∅)).2 !! 2
  = execs (take 2 demo_ops) ∅ !! 2.
Proof.
  destruct (out_claim_correct (λ _, false) (mkClaimParams 10 30 25) 25 25
    (execs (take 2 demo_ops) ∅) _ _ (surjective_pairing _)) as (_ & _ & _ & Hout & _).
  apply Hout. vm_compute. intros Hin. apply list_elem_of_singleton in Hin. discriminate.
Defined.

Lemma out_in_order_delivery_witness :
  ∃ e, demo_t !! 1 = Some e ∧ EStatus e = StatusDispatching
  ∧ ∀ id2 e2, demo_t !! id2 = Some e2 → same_aggregate e e2 = true →
      EStatus e2 = StatusDispatching → id2 = 1.
Proof.
  destruct (demo_t !! 1) as [e|] eqn:He; [|vm_compute in He; discriminate].
  assert (EStatus e = StatusDispatching) as Hd
    by (vm_compute in He; injection He as <-; reflexivity).
  exists e. split_and!; [reflexivity|exact Hd|].
  apply (out_in_order_delivery demo_ops ∅ order_inv_empty demo_ops_ordered 1 e He Hd).
Defined.

Lemma out_never_lost_witness :
  ∃ e e', demo_t !! 1 = Some e ∧ execs [OMarkDead 1 "x" 30; demo_claim 31] demo_t !! 1 = Some e'
  ∧ same_event e e'.
Proof.
  destruct (demo_t !! 1) as [e|] eqn:He; [|vm_compute in He; discriminate].
  destruct (out_never_lost [OMarkDead 1 "x" 30; demo_claim 31] demo_t 1 e He)
    as [(e' & He' & Hs)|(os1 & s & c & os2 & e1 & Heq & _)].
  - exists e, e'. split; [reflexivity|]. split; [exact He'|exact Hs].
  - exfalso. destruct os1 as [|? [|? [|? ?]]]; discriminate Heq.
Defined.

Lemma out_insert_idempotent_witness :
  Insert true 9 (demo_event 50 "a") 50 50 demo_t = (Ok tt, demo_t).
Proof.
  destruct (demo_t !! 1) as [e|] eqn:He; [|vm_compute in He; discriminate].
  apply (out_insert_idempotent demo_ops ∅ true 9 (demo_event 50 "a") 50 50 1 e).
  - intros ? ? ? ?. rewrite lookup_empty. discriminate.
  - exact He.
  - vm_compute in He. injection He as <-. reflexivity.
  - reflexivity.
Defined.

Definition demo_q : QueueSession := mkSession 1 30 30 ∅.
Definition demo_routes : gmap string string := {[ "order.paid" := "deliver" ]}%string.
Definition demo_relay : RelayConfig := withDefaults (mkRelayConfig true 0 0 0 0 0).
Definition demo_tick (now : Time) (t : Table) (q : QueueSession) : Z * Table * QueueSession :=
  Tick (λ _, "id"%string) (λ s, s) (λ _, "err"%string) demo_routes demo_relay (λ _ _, true)
    (λ _, now) now now true (λ _, false) t q.

Lemma out_tick_refines_witness : order_inv (demo_tick 31 demo_t demo_q).1.2.
Proof.
  apply (out_tick_refines (λ _, "id"%string) (λ s, s) (λ _, "err"%string) demo_routes demo_relay
    (λ _ _, true) (λ _, 31) 31 31 true (λ _, false) demo_t demo_q (demo_tick 31 demo_t demo_q).1.1
    (demo_tick 31 demo_t demo_q).1.2 (demo_tick 31 demo_t demo_q).2).
  - change (demo_tick 31 demo_t demo_q = ((demo_tick 31 demo_t demo_q).1.1,
      (demo_tick 31 demo_t demo_q).1.2, (demo_tick 31 demo_t demo_q).2)).
    destruct (demo_tick 31 demo_t demo_q) as [[? ?] ?]. reflexivity.
  - apply execs_order_inv; [apply order_inv_empty|apply demo_ops_ordered].
Defined.

Definition demo_dispatch (e : Event) : Z * Table * QueueSession :=
  dispatchOne (λ s, s) (λ _, "err"%string) demo_routes demo_relay (λ _ _, true) (λ _, 31) 31
    (1, e) demo_t demo_q.

Lemma out_handoff_outcome_witness :
  ∃ e e', demo_t !! 1 = Some e ∧ (demo_dispatch e).1.2 !! 1 = Some e' ∧ JobID e' = Some 1.
Proof.
  destruct (demo_t !! 1) as [e|] eqn:He; [|vm_compute in He; discriminate].
  destruct (out_handoff_outcome (λ s, s) (λ _, "err"%string) demo_routes demo_relay (λ _, 31) 31
    1 e demo_t demo_q (demo_dispatch e).1.1 (demo_dispatch e).1.2 (demo_dispatch e).2 He)
    as (e' & He' & _ & _ & Hrest).
  - vm_compute in He. injection He as <-. reflexivity.
  - change (demo_dispatch e = ((demo_dispatch e).1.1, (demo_dispatch e).1.2, (demo_dispatch e).2)).
    destruct (demo_dispatch e) as [[? ?] ?]. reflexivity.
  - exists e, e'. split; [reflexivity|]. split; [exact He'|].
    clear He'. vm_compute in He. injection He as <-. vm_compute in Hrest. apply Hrest.
Defined.

Lemma out_terminal_unblocks_witness :
  ∃ e2, (MarkDead 1 "poison" 30 demo_t) !! 2 = Some e2
  ∧ is_head (MarkDead 1 "poison" 30 demo_t) (2, e2) = true.
Proof.
  destruct (demo_t !! 1) as [e|] eqn:He; [|vm_compute in He; discriminate].
  destruct (demo_t !! 2) as [e2|] eqn:He2; [|vm_compute in He2; discriminate].
  exists e2. pose proof He as Hc. pose proof He2 as Hc2.
  vm_compute in Hc, Hc2. injection Hc as Hc. injection Hc2 as Hc2.
  destruct (out_terminal_unblocks demo_t 1 e "poison" 30 2 e2 He He2) as (_ & Hl & Hh & _).
  - discriminate.
  - rewrite <-Hc. vm_compute. reflexivity.
  - rewrite <-Hc2. reflexivity.
  - rewrite <-Hc, <-Hc2. reflexivity.
  - intros id3 e3 He3 Hne _ _. apply elem_of_map_to_list in He3. vm_compute in He3.
    apply elem_of_cons in He3 as [He3|He3]; [|apply list_elem_of_singleton in He3].
    all: injection He3 as -> ->; try done.
    all: rewrite <-Hc2; right; simpl; lia.
  - split; [exact Hl|exact Hh].
Defined.

(** The job of event "a" succeeded before the relay recorded it. *)
Definition demo_done_q : QueueSession :=
  let '(_, q) := enqueue (handoff "deliver" (demo_event 10 "a")) demo_q in
  mkSession (qs_next q) 60 60 (JobQueue.Complete 1 ""
    55 (JobQueue.Dequeue (λ _, false) (JobQueue.mkDequeueParams "deliver" 1 30 50) 50 (qs_store q)).2).

Lemma out_rehandoff_duplicates_witness :
  JobQueue.JobStatus 1 (qs_store demo_done_q) = Ok JobQueue.StatusSucceeded
  ∧ ∃ r, qs_store (dispatchOne (λ s, s) (λ _, "err"%string) demo_routes demo_relay (λ _ _, true)
             (λ _, 60) 60 (1, demo_event 10 "a") demo_t demo_done_q).2 !! 2 = Some r
         ∧ JobQueue.r_status r = JobQueue.StatusPending.
Proof.
  split; [vm_compute; reflexivity|].
  destruct (out_rehandoff_duplicates (λ s, s) (λ _, "err"%string) demo_routes demo_relay
    (λ _ _, true) (λ _, 60) 60 1 (demo_event 10 "a") demo_t demo_done_q "deliver")
    as [(r & Hr & Hs & _) _].
  - vm_compute. reflexivity.
  - discriminate.
  - discriminate.
  - simpl. lia.
  - vm_compute. reflexivity.
  - intros j r Hj _ _. apply elem_of_map_to_list in Hj. vm_compute in Hj.
    apply list_elem_of_singleton in Hj as [= -> ->]. reflexivity.
  - exists r. split; [exact Hr|exact Hs].
Defined.
