(* ===== verification/GoStrings.v ===== *)
(** Strings as Go has them, sequences of bytes: what the sources use of the
    package strings. *)

From stdpp Require Import pretty.
From S2P Require Import Prelude.
From Stdlib Require Import Ascii.
Open Scope Z_scope.

Definition bytes (s : string) : list N := N_of_ascii <$> String.list_ascii_of_string s.
Definition of_bytes (l : list N) : string := String.string_of_list_ascii (ascii_of_N <$> l).

(** ** TrimSpace

    Unicode white space, in UTF-8: tab to carriage return and space; U+0085
    and U+00A0; U+1680; U+2000 to U+200A, U+2028, U+2029, U+202F; U+205F;
    U+3000. *)

Definition space1 (b : N) : bool := ((9 <=? b) && (b <=? 13) || (b =? 32))%N.
Definition space2 (b c : N) : bool := ((b =? 194) && ((c =? 133) || (c =? 160)))%N.
Definition space3 (b c d : N) : bool :=
  ((b =? 225) && (c =? 154) && (d =? 128)
   || (b =? 226) && (c =? 128) && ((d <=? 138) && (128 <=? d) || (d =? 168) || (d =? 169) || (d =? 175))
   || (b =? 226) && (c =? 129) && (d =? 159)
   || (b =? 227) && (c =? 128) && (d =? 128))%N.

(** The bytes after a leading space, and before a trailing one when the bytes
    are reversed. *)
Definition strip (back : bool) (l : list N) : option (list N) :=
  match l with
  | b :: r =>
      if space1 b then Some r
      else match r with
      | c :: r =>
          if (if back then space2 c b else space2 b c) then Some r
          else match r with
          | d :: r => if (if back then space3 d c b else space3 b c d) then Some r else None
          | [] => None
          end
      | [] => None
      end
  | [] => None
  end.

Fixpoint strips (fuel : nat) (back : bool) (l : list N) : list N :=
  match fuel with
  | O => l
  | S fuel => match strip back l with Some r => strips fuel back r | None => l end
  end.

Definition TrimSpace (s : string) : string :=
  let l := bytes s in
  let l := strips (length l) false l in
  of_bytes (reverse (strips (length l) true (reverse l))).

Definition HasPrefix (s p : string) : bool := String.prefix p s.
Definition len (s : string) : Z := Z.of_nat (String.length s).

Definition TrimSuffix (s suffix : string) : string :=
  let n := (String.length s - String.length suffix)%nat in
  if decide ((String.length suffix ≤ String.length s)%nat
             ∧ String.substring n (String.length suffix) s = suffix)
  then String.substring 0 n s else s.

(** Prefixes of one string of one length are equal. *)
Lemma prefix_length_eq p q s :
  String.prefix p s = true → String.prefix q s = true → String.length p = String.length q → p = q.
Proof.
  revert p q. induction s as [|c s IH]; intros [|a p] [|b q]; simpl; try done.
  repeat case_match; try done; subst. intros Hp Hq [= Hl]. f_equal. by apply IH.
Qed.

(** [strings.ReplaceAll] of one byte by another. *)
Fixpoint replaceByte (a b : ascii) (s : string) : string :=
  match s with
  | EmptyString => ""
  | String c s => String (if decide (c = a) then b else c) (replaceByte a b s)
  end.

(** [s[:n]] *)
Definition slice (n : Z) (s : string) : string := String.substring 0 (Z.to_nat n) s.

(** [strconv.FormatInt(v, 10)] *)
Definition itoa (v : Z) : string := pretty v.

(** [strconv.ParseInt(s, 10, 64)]; an error is [None]. *)
Definition digit (c : ascii) : option Z :=
  let n := Z.of_N (N_of_ascii c) in
  if (48 <=? n) && (n <=? 57) then Some (n - 48) else None.

Fixpoint digits (acc : Z) (s : string) : option Z :=
  match s with
  | EmptyString => Some acc
  | String c s => match digit c with Some d => digits (10 * acc + d) s | None => None end
  end.

Definition unsigned (s : string) : option Z :=
  match s with EmptyString => None | _ => digits 0 s end.

Definition ParseInt (s : string) : option Z :=
  let v :=
    match s with
    | String "-" r => Z.opp <$> unsigned r
    | String "+" r => unsigned r
    | _ => unsigned s
    end in
  match v with
  | Some v => if (min_i64 <=? v) && (v <=? max_i64) then Some v else None
  | None => None
  end.

(** [strings.Trim] with a cutset of one byte, and [strings.Split] at one. *)
Fixpoint trimLeft (c : ascii) (s : string) : string :=
  match s with
  | EmptyString => ""
  | String a r => if decide (a = c) then trimLeft c r else s
  end.

Fixpoint trimRight (c : ascii) (s : string) : string :=
  match s with
  | EmptyString => ""
  | String a r =>
      match trimRight c r with
      | EmptyString => if decide (a = c) then "" else String a ""
      | r => String a r
      end
  end.

Definition trimByte (c : ascii) (s : string) : string := trimRight c (trimLeft c s).

Fixpoint splitByte (c : ascii) (s : string) : list string :=
  match s with
  | EmptyString => [""%string]
  | String a r =>
      if decide (a = c) then ""%string :: splitByte c r
      else match splitByte c r with
           | w :: ws => String a w :: ws
           | [] => [String a ""]
           end
  end.

Definition HasSuffix (s suffix : string) : bool :=
  let n := (String.length s - String.length suffix)%nat in
  bool_decide ((String.length suffix ≤ String.length s)%nat
               ∧ String.substring n (String.length suffix) s = suffix).

Definition TrimPrefix (s p : string) : string :=
  if HasPrefix s p then String.substring (String.length p) (String.length s - String.length p)%nat s
  else s.

(** [strings.Contains] *)
Definition Contains (s sub : string) : bool :=
  match String.index 0 sub s with Some _ => true | None => false end.

(** The two sides of the first byte [c], as [strings.SplitN(s, c, 2)] and
    [strings.IndexByte] see them. *)
Fixpoint cutByte (c : ascii) (s : string) : option (string * string) :=
  match s with
  | EmptyString => None
  | String a r =>
      if decide (a = c) then Some (""%string, r)
      else match cutByte c r with Some (u, v) => Some (String a u, v) | None => None end
  end.

(** [strings.ToLower] and [strings.EqualFold]: on ASCII a map of the bytes,
    beyond it the tables of the package unicode, which are arguments. *)
Definition isASCII (c : ascii) : bool := (N_of_ascii c <? 128)%N.

Definition lowerByte (c : ascii) : ascii :=
  let n := N_of_ascii c in
  if ((65 <=? n) && (n <=? 90))%N then ascii_of_N (n + 32) else c.

Fixpoint mapBytes (f : ascii → ascii) (s : string) : string :=
  match s with EmptyString => "" | String c r => String (f c) (mapBytes f r) end.

(** ** Bytes of a string *)

Fixpoint str_all (f : ascii → bool) (s : string) : bool :=
  match s with EmptyString => true | String c s => f c && str_all f s end.

Lemma str_all_app f s t : str_all f (s +:+ t) = str_all f s && str_all f t.
Proof. induction s as [|c s IH]; simpl; [done|]. by rewrite IH, andb_assoc. Qed.

Definition ToLower (unicode_lower : string → string) (s : string) : string :=
  if str_all isASCII s then mapBytes lowerByte s else unicode_lower s.

Definition EqualFold (unicode_fold : string → string → bool) (s t : string) : bool :=
  if str_all isASCII s && str_all isASCII t
  then bool_decide (mapBytes lowerByte s = mapBytes lowerByte t)
  else unicode_fold s t.

Lemma replaceByte_all (f : ascii → bool) a b s :
  (∀ c, c ≠ a → f c = true) → f b = true → str_all f (replaceByte a b s) = true.
Proof.
  intros Hf Hb. induction s as [|c s IH]; simpl; [done|]. rewrite IH, andb_true_r.
  case_decide; auto.
Qed.

Lemma replaceByte_keeps (f : ascii → bool) a b s :
  f b = true → str_all f s = true → str_all f (replaceByte a b s) = true.
Proof.
  intros Hb. induction s as [|c s IH]; simpl; [done|]. rewrite !andb_true_iff. intros [Hc Hs].
  split; [by case_decide|auto].
Qed.

Lemma substring_all f n s : str_all f s = true → str_all f (String.substring 0 n s) = true.
Proof.
  revert n. induction s as [|c s IH]; intros [|n]; simpl; try done.
  rewrite !andb_true_iff. intros [Hc Hs]. split; auto.
Qed.

Lemma substring_length n s : (String.length (String.substring 0 n s) ≤ n)%nat.
Proof. revert n. induction s as [|c s IH]; intros [|n]; simpl; try lia. specialize (IH n). lia. Qed.

(** Decimal digits and the sign. *)
Definition numeral (c : ascii) : bool :=
  bool_decide (c ∈ ["0"; "1"; "2"; "3"; "4"; "5"; "6"; "7"; "8"; "9"; "-"]%char).

Lemma pretty_N_char_numeral x : numeral (pretty_N_char x) = true.
Proof.
  unfold pretty_N_char. repeat case_match; done.
Qed.

Lemma pretty_N_go_numeral x s : str_all numeral s = true → str_all numeral (pretty_N_go x s) = true.
Proof.
  revert s. induction (N.lt_wf_0 x) as [x _ IH]; intros s Hs.
  destruct (decide (0 < x)%N) as [Hx|Hx].
  - rewrite pretty_N_go_step by done. apply IH; [by apply N.div_lt|]. simpl.
    by rewrite pretty_N_char_numeral.
  - assert (x = 0%N) as -> by lia. by rewrite pretty_N_go_0.
Qed.

Lemma itoa_numeral z : str_all numeral (itoa z) = true.
Proof.
  unfold itoa, pretty, pretty_Z. destruct z as [|p|p]; [done| |].
  - unfold pretty, pretty_positive, pretty, pretty_N. case_decide; [done|]. by apply pretty_N_go_numeral.
  - rewrite str_all_app. simpl. unfold pretty, pretty_positive, pretty, pretty_N.
    case_decide; [done|]. by apply pretty_N_go_numeral.
Qed.

(** A string ends at its first separator. *)
Lemma split_at_sep (sep : ascii) s1 s2 r1 r2 :
  str_all (λ c, bool_decide (c ≠ sep)) s1 = true → str_all (λ c, bool_decide (c ≠ sep)) s2 = true →
  s1 +:+ String sep r1 = s2 +:+ String sep r2 → s1 = s2 ∧ r1 = r2.
Proof.
  revert s2. induction s1 as [|c s1 IH]; intros [|d s2]; simpl; intros H1 H2 E.
  - by injection E.
  - injection E as -> _. apply andb_true_iff in H2 as [H2%bool_decide_eq_true _]. done.
  - injection E as -> _. apply andb_true_iff in H1 as [H1%bool_decide_eq_true _]. done.
  - injection E as -> E. apply andb_true_iff in H1 as [_ H1], H2 as [_ H2].
    by destruct (IH s2 H1 H2 E) as [-> ->].
Qed.

Example TrimSuffix_slash :
  TrimSuffix "/rpc/" "/" = "/rpc"%string ∧ TrimSuffix "/rpc" "/" = "/rpc"%string ∧ TrimSuffix "" "/" = ""%string.
Proof. repeat split; reflexivity. Qed.

Example TrimSpace_ascii : TrimSpace "  a b	 " = "a b"%string.
Proof. reflexivity. Qed.

Example ParseInt_values :
  ParseInt "1735689600" = Some 1735689600 ∧ ParseInt "-12" = Some (-12) ∧ ParseInt "+7" = Some 7
  ∧ ParseInt "" = None ∧ ParseInt "-" = None ∧ ParseInt "1_0" = None
  ∧ ParseInt "9223372036854775807" = Some max_i64 ∧ ParseInt "9223372036854775808" = None.
Proof. repeat split; reflexivity. Qed.

Example splitByte_path :
  splitByte "/" (trimByte "/" "/api//v1/") = ["api"; ""; "v1"]%string ∧ splitByte "/" "a" = ["a"%string].
Proof. split; reflexivity. Qed.

Lemma string_app_assoc s1 s2 s3 : s1 +:+ (s2 +:+ s3) = (s1 +:+ s2) +:+ s3.
Proof.
  induction s1 as [|c s1 IH]; [done|].
  change (String c (s1 +:+ (s2 +:+ s3)) = String c ((s1 +:+ s2) +:+ s3)). by rewrite IH.
Qed.

(** A string splits at its last separator. *)
Lemma split_at_last (sep : ascii) p1 p2 k1 k2 :
  str_all (λ c, bool_decide (c ≠ sep)) k1 = true → str_all (λ c, bool_decide (c ≠ sep)) k2 = true →
  p1 +:+ String sep k1 = p2 +:+ String sep k2 → p1 = p2 ∧ k1 = k2.
Proof.
  assert (Hno : ∀ p k k', str_all (λ c, bool_decide (c ≠ sep)) k = true → k ≠ p +:+ String sep k').
  { intros p k k' Hk ->. induction p as [|c p IH]; simpl in Hk; apply andb_true_iff in Hk as [Hc Hk].
    - by apply bool_decide_eq_true in Hc.
    - by apply IH. }
  revert p2. induction p1 as [|c p1 IH]; intros [|d p2] H1 H2; simpl; intros E.
  - by injection E.
  - injection E as -> E. by apply Hno in E.
  - injection E as -> E. symmetry in E. by apply Hno in E.
  - injection E as -> E. by destruct (IH p2 H1 H2 E) as [-> ->].
Qed.

(** [strings.Split] undoes a join at a byte the parts do not hold. *)
Lemma splitByte_clean c s :
  str_all (λ a, bool_decide (a ≠ c)) s = true → splitByte c s = [s].
Proof.
  induction s as [|a s IH]; [done|]. simpl. rewrite andb_true_iff, bool_decide_eq_true.
  intros [Ha Hs]. rewrite decide_False by done. by rewrite IH.
Qed.

Lemma splitByte_app c s r :
  str_all (λ a, bool_decide (a ≠ c)) s = true →
  splitByte c (s +:+ String c r) = s :: splitByte c r.
Proof.
  induction s as [|a s IH]; simpl; [by rewrite decide_True|].
  rewrite andb_true_iff, bool_decide_eq_true. intros [Ha Hs].
  rewrite decide_False by done. by rewrite IH.
Qed.

Lemma splitByte_nonempty c s : splitByte c s ≠ [].
Proof. induction s as [|a s IH]; simpl; [done|]. repeat case_match; done. Qed.

(** The parts, joined at the byte, are the string. *)
Lemma splitByte_join c s w ws :
  splitByte c s = w :: ws → s = w +:+ foldr (λ v acc, String c (v +:+ acc)) ""%string ws.
Proof.
  revert w ws. induction s as [|a s IH]; intros w ws; simpl; [by intros [= <- <-]|].
  case_decide as Ha; destruct (splitByte c s) as [|v vs] eqn:Es;
    try (by destruct (splitByte_nonempty c s)); intros [= <- <-]; subst.
  - change (String c s = String c (v +:+ foldr (λ v acc, String c (v +:+ acc)) ""%string vs)).
    f_equal. by apply IH.
  - change (String a s = String a (v +:+ foldr (λ v acc, String c (v +:+ acc)) ""%string vs)).
    f_equal. by apply IH.
Qed.

Lemma splitByte_parts c s : Forall (λ w, str_all (λ a, bool_decide (a ≠ c)) w = true) (splitByte c s).
Proof.
  induction s as [|a s IH]; simpl; [by repeat constructor|]. case_decide as Ha; [by constructor|].
  pose proof (splitByte_nonempty c s). destruct (splitByte c s) as [|v vs]; [done|].
  apply Forall_cons in IH as [Hv Hvs]. constructor; [|done]. simpl. by rewrite Hv, bool_decide_eq_true_2.
Qed.

Lemma prefix_app p s : HasPrefix (p +:+ s) p = true.
Proof. unfold HasPrefix. induction p as [|c p IH]; simpl; [by destruct s|]. by destruct (ascii_dec c c). Qed.

Lemma string_app_nil_r s : s +:+ "" = s.
Proof. induction s as [|c s IH]; [done|]. change (String c (s +:+ "") = String c s). by rewrite IH. Qed.

Lemma prefix_split p s : HasPrefix s p = true → ∃ r, s = p +:+ r.
Proof.
  unfold HasPrefix. revert s. induction p as [|c p IH]; intros s; [by exists s|].
  destruct s as [|a s]; simpl; [done|]. destruct (ascii_dec c a) as [->|]; [|done].
  intros (r & ->)%IH. by exists r.
Qed.
