(* ===== verification/Base64.v ===== *)
(** The package encoding/base64 as the sources use it: RawURLEncoding, which
    has no padding, and its decoder, which skips line breaks and ignores the
    bits left over at the end. *)

From S2P Require Import Prelude GoStrings.
From Stdlib Require Import Ascii.
Open Scope N_scope.

Definition alphabet : string :=
  "ABCDEFGHIJKLMNOPQRSTUVWXYZabcdefghijklmnopqrstuvwxyz0123456789-_".

Definition sextet_char (n : N) : ascii :=
  match String.get (N.to_nat n) alphabet with Some c => c | None => "A"%char end.

Fixpoint index_of (c : ascii) (s : string) (i : N) : option N :=
  match s with
  | EmptyString => None
  | String a r => if decide (a = c) then Some i else index_of c r (i + 1)
  end.

Definition char_sextet (c : ascii) : option N := index_of c alphabet 0.

(** Three bytes are four sextets; one or two at the end are two or three. *)
Fixpoint to_sextets (l : list N) : list N :=
  match l with
  | a :: b :: c :: r =>
      a / 4 :: a mod 4 * 16 + b / 16 :: b mod 16 * 4 + c / 64 :: c mod 64 :: to_sextets r
  | [a; b] => [a / 4; a mod 4 * 16 + b / 16; b mod 16 * 4]
  | [a] => [a / 4; a mod 4 * 16]
  | [] => []
  end.

Fixpoint of_sextets (l : list N) : option (list N) :=
  match l with
  | a :: b :: c :: d :: r =>
      match of_sextets r with
      | Some r => Some (a * 4 + b / 16 :: b mod 16 * 16 + c / 4 :: c mod 4 * 64 + d :: r)
      | None => None
      end
  | [a; b; c] => Some [a * 4 + b / 16; b mod 16 * 16 + c / 4]
  | [a; b] => Some [a * 4 + b / 16]
  | [_] => None
  | [] => Some []
  end.

Fixpoint encode_chars (l : list N) : string :=
  match l with [] => "" | n :: r => String (sextet_char n) (encode_chars r) end.

Fixpoint decode_chars (s : string) : option (list N) :=
  match s with
  | EmptyString => Some []
  | String c r =>
      if decide (c = "010" ∨ c = "013")%char then decode_chars r
      else match char_sextet c, decode_chars r with
           | Some n, Some l => Some (n :: l)
           | _, _ => None
           end
  end.

Definition EncodeToString (s : string) : string := encode_chars (to_sextets (bytes s)).

Definition DecodeString (s : string) : option string :=
  match decode_chars s with
  | None => None
  | Some l => match of_sextets l with Some b => Some (of_bytes b) | None => None end
  end.

(** ** The round trip *)

Definition sextets : list N := N.of_nat <$> seq 0 64.

Lemma sextets_In n : n < 64 → n ∈ sextets.
Proof.
  intros Hn. apply list_elem_of_fmap. exists (N.to_nat n). split; [lia|]. apply elem_of_seq. lia.
Qed.

Lemma char_sextet_char n : n < 64 → char_sextet (sextet_char n) = Some n.
Proof.
  intros Hn. apply sextets_In in Hn. revert n Hn. apply Forall_forall.
  apply (bool_decide_unpack (Forall (λ n, char_sextet (sextet_char n) = Some n) sextets)).
  vm_compute. reflexivity.
Qed.

(** The letters of an encoding: no separator of the formats built on it. *)
Definition url_safe (c : ascii) : bool := bool_decide (c ≠ "."%char ∧ c ≠ "010"%char ∧ c ≠ "013"%char).

Lemma sextet_char_safe n : n < 64 → url_safe (sextet_char n) = true.
Proof.
  intros Hn. apply sextets_In in Hn. revert n Hn. apply Forall_forall.
  apply (bool_decide_unpack (Forall (λ n, url_safe (sextet_char n) = true) sextets)).
  vm_compute. reflexivity.
Qed.

Lemma decode_encode_chars l : Forall (λ n, n < 64) l → decode_chars (encode_chars l) = Some l.
Proof.
  induction 1 as [|n l Hn _ IH]; [done|]. simpl.
  pose proof (sextet_char_safe n Hn) as (_ & H1 & H2)%bool_decide_eq_true.
  rewrite decide_False by (intros [?|?]; done). by rewrite char_sextet_char, IH.
Qed.

(** Induction by groups of three. *)
Lemma triples_ind (P : list N → Prop) :
  P [] → (∀ a, P [a]) → (∀ a b, P [a; b]) → (∀ a b c r, P r → P (a :: b :: c :: r)) → ∀ l, P l.
Proof.
  intros H0 H1 H2 H3 l. enough (P l ∧ (∀ a, P (a :: l)) ∧ ∀ a b, P (a :: b :: l)) by tauto.
  induction l as [|x l (IH & IH1 & IH2)]; [auto|]. repeat split; auto.
Qed.

Ltac byte_lia := Z.to_euclidean_division_equations; lia.

Lemma to_sextets_small l : Forall (λ n, n < 256) l → Forall (λ n, n < 64) (to_sextets l).
Proof.
  induction l using triples_ind; rewrite ?Forall_cons, ?Forall_nil in *; [done| | |];
    intros; destruct_and?; simpl; rewrite ?Forall_cons, ?Forall_nil; repeat split; try byte_lia; auto.
Qed.

Lemma of_to_sextets l : Forall (λ n, n < 256) l → of_sextets (to_sextets l) = Some l.
Proof.
  induction l as [|a|a b|a b c r IH] using triples_ind; rewrite ?Forall_cons; intros H; destruct_and?;
    simpl; [done|..|rewrite IH by done]; repeat f_equal; byte_lia.
Qed.

Lemma bytes_small s : Forall (λ n, n < 256) (bytes s).
Proof. apply Forall_fmap, Forall_forall. intros c _. apply N_ascii_bounded. Qed.

Lemma of_bytes_bytes s : of_bytes (bytes s) = s.
Proof.
  unfold of_bytes, bytes. rewrite <-list_fmap_compose.
  rewrite (list_fmap_ext _ id) by (intros; apply ascii_N_embedding).
  rewrite list_fmap_id. apply String.string_of_list_ascii_of_string.
Qed.

Lemma base64_roundtrip s : DecodeString (EncodeToString s) = Some s.
Proof.
  unfold DecodeString, EncodeToString.
  rewrite decode_encode_chars by apply to_sextets_small, bytes_small.
  rewrite of_to_sextets by apply bytes_small. by rewrite of_bytes_bytes.
Qed.

Lemma base64_no_dot s : str_all (λ c, bool_decide (c ≠ "."%char)) (EncodeToString s) = true.
Proof.
  unfold EncodeToString. pose proof (to_sextets_small _ (bytes_small s)) as H.
  induction H as [|n l Hn _ IH]; [done|]. simpl. rewrite IH, andb_true_r.
  apply bool_decide_eq_true. by pose proof (sextet_char_safe n Hn) as (? & _)%bool_decide_eq_true.
Qed.

Lemma base64_injective s t : EncodeToString s = EncodeToString t → s = t.
Proof.
  intros E. pose proof (base64_roundtrip s) as Hs. rewrite E, base64_roundtrip in Hs. by injection Hs.
Qed.

Example base64_examples :
  EncodeToString "f" = "Zg"%string ∧ EncodeToString "fo" = "Zm8"%string ∧ EncodeToString "foobar" = "Zm9vYmFy"%string
  ∧ DecodeString "Zm8" = Some "fo"%string ∧ DecodeString "Zm9=" = None ∧ DecodeString "Z" = None.
Proof. repeat split; reflexivity. Qed.
