(* ===== verification/Decimal.v ===== *)
(** Decimal amounts.  The API computes money with the third-party package
    shopspring/decimal: its operations are a parameter, the class [Decimal],
    and what the code relies on is [DecimalLaws], the package's documented
    behaviour read in the rationals: sums and products are exact, [Div] rounds
    to 16 places and [Round] to the places asked for, both half away from
    zero, [IntPart] truncates.  [Q] itself is an instance. *)

From Stdlib Require Export QArith Qround Qabs.
From stdpp Require Import pretty.
From S2P Require Import Prelude.
Open Scope Z_scope.

(** ** Rounding in the rationals *)

(** Truncation towards zero. *)
Definition Qtrunc (q : Q) : Z := Qnum q `quot` Zpos (Qden q).

(** The nearest integer, half away from zero. *)
Definition Qround_haz (q : Q) : Z :=
  let d := Zpos (Qden q) in
  Z.sgn (Qnum q) * ((2 * Z.abs (Qnum q) + d) / (2 * d)).

(** 10^n for a number of places n ≥ 0. *)
Definition pow10 (n : Z) : positive := Z.to_pos (10 ^ n).

Definition Qround_at (n : Z) (q : Q) : Q :=
  Qmake (Qround_haz (q * inject_Z (Zpos (pow10 n)))%Q) (pow10 n).

Lemma Qround_haz_int z : Qround_haz (inject_Z z) = z.
Proof.
  unfold Qround_haz, inject_Z. simpl Qnum. simpl Qden.
  replace ((2 * Z.abs z + 1) / (2 * 1)) with (Z.abs z) by go_mod.
  pose proof (Z.abs_sgn z). lia.
Qed.

(** A fraction scaled by its denominator is compared by cross products. *)
Lemma Qround_haz_proper q q' : (q == q')%Q → Qround_haz q = Qround_haz q'.
Proof.
  unfold Qeq, Qround_haz. destruct q as [n d], q' as [n' d']. cbn [Qnum Qden]. intros H.
  assert (Z.sgn n = Z.sgn n') as Hs.
  { assert (Z.sgn (n * Zpos d') = Z.sgn (n' * Zpos d)) as E by (by rewrite H).
    rewrite !Z.sgn_mul in E. simpl in E. lia. }
  rewrite Hs. f_equal.
  assert (Z.abs n * Zpos d' = Z.abs n' * Zpos d) as Ha.
  { assert (Z.abs (n * Zpos d') = Z.abs (n' * Zpos d)) as E by (by rewrite H).
    rewrite !Z.abs_mul in E. simpl in E. lia. }
  rewrite <-(Z.div_mul_cancel_r (2 * Z.abs n + Zpos d) (2 * Zpos d) (Zpos d')) by lia.
  rewrite <-(Z.div_mul_cancel_r (2 * Z.abs n' + Zpos d') (2 * Zpos d') (Zpos d)) by lia.
  f_equal; [|lia].
  replace ((2 * Z.abs n + Zpos d) * Zpos d') with (2 * (Z.abs n * Zpos d') + Zpos d * Zpos d') by ring.
  rewrite Ha. ring.
Qed.

#[export] Instance Qround_haz_Proper : Proper (Qeq ==> eq) Qround_haz.
Proof. intros q q'. apply Qround_haz_proper. Qed.

#[export] Instance Qround_at_Proper n : Proper (Qeq ==> Qeq) (Qround_at n).
Proof. intros q q' H. unfold Qround_at. by rewrite H. Qed.

Lemma Qround_at_exact n q z :
  (q * inject_Z (Zpos (pow10 n)) == inject_Z z)%Q → (Qround_at n q == Qmake z (pow10 n))%Q.
Proof. intros H. unfold Qround_at. rewrite H, Qround_haz_int. reflexivity. Qed.

Lemma Qtrunc_int z : Qtrunc (inject_Z z) = z.
Proof. unfold Qtrunc. simpl. apply Z.quot_1_r. Qed.

#[export] Instance Qtrunc_Proper : Proper (Qeq ==> eq) Qtrunc.
Proof.
  unfold Qeq, Qtrunc. intros [n d] [n' d']. cbn [Qnum Qden]. intros H.
  rewrite <-(Z.quot_mul_cancel_r n (Zpos d) (Zpos d')) by lia.
  rewrite <-(Z.quot_mul_cancel_r n' (Zpos d') (Zpos d)) by lia.
  rewrite H. f_equal. lia.
Qed.

(** How far rounding is off. *)
Lemma Qround_haz_error q : (0 <= q)%Q →
  (inject_Z (Qround_haz q) <= q + (1 # 2))%Q ∧ (q + (1 # 2) < inject_Z (Qround_haz q) + 1)%Q.
Proof.
  destruct q as [n d]. unfold Qle, Qlt, Qplus, Qround_haz, inject_Z. cbn [Qnum Qden]. intros Hn.
  assert (0 ≤ n) by lia. 
  assert (Z.sgn n * ((2 * Z.abs n + Zpos d) `div` (2 * Zpos d)) = (2 * n + Zpos d) `div` (2 * Zpos d)) as ->.
  { destruct (decide (n = 0)) as [->|]; [change (Z.sgn 0) with 0; rewrite Z.mul_0_l, Z.div_small by lia; done|]. rewrite Z.sgn_pos, Z.abs_eq by lia. by rewrite Z.mul_1_l. }
  pose proof (Z.div_mod (2 * n + Zpos d) (2 * Zpos d) ltac:(lia)).
  pose proof (Z.mod_pos_bound (2 * n + Zpos d) (2 * Zpos d) ltac:(lia)). rewrite !Pos2Z.inj_mul. nia.
Qed.

Lemma Qround_at_error k q : 0 ≤ k → (0 <= q)%Q →
  (Qround_at k q <= q + (1 # (2 * pow10 k)))%Q ∧ (q <= Qround_at k q + (1 # (2 * pow10 k)))%Q.
Proof.
  intros Hk Hq. unfold Qround_at. set (p := pow10 k).
  assert (Hpq : (0 <= q * inject_Z (Zpos p))%Q) by (apply Qmult_le_0_compat; [done|]; unfold Qle; simpl; lia).
  destruct (Qround_haz_error _ Hpq) as [H1 H2]. set (z := Qround_haz _) in *. clearbody z.
  revert H1 H2. destruct q as [n d]. unfold Qle, Qlt, Qplus, Qmult, inject_Z. cbn [Qnum Qden].
  rewrite !Pos2Z.inj_mul. clearbody p. intros. split; nia.
Qed.

Lemma Qtrunc_floor q : (0 <= q)%Q → (inject_Z (Qtrunc q) <= q)%Q ∧ (q < inject_Z (Qtrunc q) + 1)%Q ∧ 0 ≤ Qtrunc q.
Proof.
  destruct q as [n d]. unfold Qle, Qlt, Qplus, Qtrunc, inject_Z. cbn [Qnum Qden]. intros Hn.
  assert (0 ≤ n) by lia. rewrite Z.quot_div_nonneg by lia.
  pose proof (Z.div_mod n (Zpos d) ltac:(lia)). pose proof (Z.mod_pos_bound n (Zpos d) ltac:(lia)).
  pose proof (Z.div_pos n (Zpos d) ltac:(lia) ltac:(lia)). rewrite ?Pos2Z.inj_mul. split_and!; nia.
Qed.

(** Rounding does not leave a range between integers. *)
Lemma Qround_haz_range q k : (0 <= q)%Q → (q <= inject_Z k)%Q → 0 ≤ Qround_haz q ≤ k.
Proof.
  intros H0 Hk. destruct (Qround_haz_error q H0) as [H1 H2]. set (z := Qround_haz q) in *. clearbody z.
  destruct q as [n e]. unfold Qle, Qlt, Qplus, inject_Z in *. cbn [Qnum Qden] in *. rewrite ?Pos2Z.inj_mul in *. split; nia.
Qed.

Lemma Qround_at_range n q k : (0 <= q)%Q → (q <= inject_Z k)%Q → (0 <= Qround_at n q)%Q ∧ (Qround_at n q <= inject_Z k)%Q.
Proof.
  intros H0 Hk. unfold Qround_at. set (p := pow10 n). destruct (Qround_haz_range (q * inject_Z (Zpos p)) (k * Zpos p)) as [H1 H2].
  - apply Qmult_le_0_compat; [done|]. unfold Qle. simpl. lia.
  - rewrite inject_Z_mult. apply Qmult_le_compat_r; [done|]. unfold Qle. simpl. lia.
  - set (z := Qround_haz _) in *. clearbody z. unfold Qle, inject_Z. cbn [Qnum Qden]. split; nia.
Qed.

(** ** The package *)

Class Decimal (D : Type) := {
  dval : D → Q;
  d_of_Z : Z → D;
  d_add : D → D → D;
  d_sub : D → D → D;
  d_mul : D → D → D;
  (** Division by zero panics: the callers' guards are theirs to show. *)
  d_div : D → D → option D;
  d_round : Z → D → D;
  d_intpart : D → Z;
  d_cmp : D → D → comparison;
  d_abs : D → D;
  (** [StringFixed(n)] *)
  d_fixed : Z → D → string;
}.

Class DecimalLaws (D : Type) `{!Decimal D} := {
  dval_of_Z z : (dval (d_of_Z z) == inject_Z z)%Q;
  dval_add a b : (dval (d_add a b) == dval a + dval b)%Q;
  dval_sub a b : (dval (d_sub a b) == dval a - dval b)%Q;
  dval_mul a b : (dval (d_mul a b) == dval a * dval b)%Q;
  dval_div a b : ¬ (dval b == 0)%Q →
    ∃ c, d_div a b = Some c ∧ (dval c == Qround_at 16 (dval a / dval b))%Q;
  d_div_zero a b : (dval b == 0)%Q → d_div a b = None;
  dval_round n a : 0 ≤ n → (dval (d_round n a) == Qround_at n (dval a))%Q;
  d_intpart_range a : in_i64 (d_intpart a);
  d_intpart_val a : in_i64 (Qtrunc (dval a)) → d_intpart a = Qtrunc (dval a);
  d_cmp_val a b : d_cmp a b = (dval a ?= dval b)%Q;
  dval_abs a : (dval (d_abs a) == Qabs (dval a))%Q;
  d_fixed_val n a b : (dval a == dval b)%Q → d_fixed n a = d_fixed n b;
}.

Section Compare.
Context {D : Type} `{!Decimal D}.
Definition d_zero : D := d_of_Z 0.
Definition d_lt (a b : D) : bool := match d_cmp a b with Lt => true | _ => false end.
Definition d_le (a b : D) : bool := match d_cmp a b with Gt => false | _ => true end.
Definition d_eq (a b : D) : bool := match d_cmp a b with Eq => true | _ => false end.

Context `{!DecimalLaws D}.
Lemma d_lt_spec a b : d_lt a b = true ↔ (dval a < dval b)%Q.
Proof.
  unfold d_lt. rewrite d_cmp_val. destruct (Qcompare_spec (dval a) (dval b)) as [H|H|H].
  - split; [done|]. intros Hlt. rewrite H in Hlt. by apply Qlt_irrefl in Hlt.
  - done.
  - split; [done|]. intros Hlt. by apply Qlt_le_weak, Qle_not_lt in Hlt.
Qed.
Lemma d_le_spec a b : d_le a b = true ↔ (dval a <= dval b)%Q.
Proof.
  unfold d_le. rewrite d_cmp_val. destruct (Qcompare_spec (dval a) (dval b)) as [H|H|H].
  - split; [|done]. intros _. rewrite H. apply Qle_refl.
  - split; [|done]. intros _. by apply Qlt_le_weak.
  - split; [done|]. intros Hle. by apply Qle_not_lt in Hle.
Qed.
Lemma d_eq_spec a b : d_eq a b = true ↔ (dval a == dval b)%Q.
Proof.
  unfold d_eq. rewrite d_cmp_val. destruct (Qcompare_spec (dval a) (dval b)) as [H|H|H].
  - done.
  - split; [done|]. intros E. rewrite E in H. by apply Qlt_irrefl in H.
  - split; [done|]. intros E. rewrite E in H. by apply Qlt_irrefl in H.
Qed.
End Compare.

(** ** Equal values

    Decimals of equal value are interchangeable in every operation. *)

Section Values.
Context {D : Type} `{!Decimal D}.

#[export] Instance decimal_equiv : Equiv D := λ a b, (dval a == dval b)%Q.

#[export] Instance decimal_equivalence : Equivalence (≡@{D}).
Proof.
  split; unfold equiv, decimal_equiv.
  - intros a. reflexivity.
  - intros a b H. by symmetry.
  - intros a b c H1 H2. by transitivity (dval b).
Qed.

Context `{!DecimalLaws D}.

#[export] Instance d_add_Proper : Proper ((≡) ==> (≡) ==> (≡@{D})) d_add.
Proof. intros a a' Ha b b' Hb. unfold equiv, decimal_equiv in *. by rewrite !dval_add, Ha, Hb. Qed.
#[export] Instance d_sub_Proper : Proper ((≡) ==> (≡) ==> (≡@{D})) d_sub.
Proof. intros a a' Ha b b' Hb. unfold equiv, decimal_equiv in *. by rewrite !dval_sub, Ha, Hb. Qed.
#[export] Instance d_mul_Proper : Proper ((≡) ==> (≡) ==> (≡@{D})) d_mul.
Proof. intros a a' Ha b b' Hb. unfold equiv, decimal_equiv in *. by rewrite !dval_mul, Ha, Hb. Qed.
#[export] Instance d_abs_Proper : Proper ((≡) ==> (≡@{D})) d_abs.
Proof. intros a a' Ha. unfold equiv, decimal_equiv in *. by rewrite !dval_abs, Ha. Qed.
#[export] Instance d_lt_Proper : Proper ((≡@{D}) ==> (≡) ==> eq) d_lt.
Proof. intros a a' Ha b b' Hb. unfold equiv, decimal_equiv in *. unfold d_lt. by rewrite !d_cmp_val, Ha, Hb. Qed.
#[export] Instance d_le_Proper : Proper ((≡@{D}) ==> (≡) ==> eq) d_le.
Proof. intros a a' Ha b b' Hb. unfold equiv, decimal_equiv in *. unfold d_le. by rewrite !d_cmp_val, Ha, Hb. Qed.

Lemma d_round_equiv n (a a' : D) : 0 ≤ n → a ≡ a' → d_round n a ≡ d_round n a'.
Proof. intros Hn Ha. unfold equiv, decimal_equiv in *. by rewrite !dval_round, Ha. Qed.

Lemma d_div_equiv (a a' b b' : D) :
  a ≡ a' → b ≡ b' →
  d_div a b = None ∧ d_div a' b' = None
  ∨ ∃ c c', d_div a b = Some c ∧ d_div a' b' = Some c' ∧ c ≡ c'.
Proof.
  unfold equiv, decimal_equiv. intros Ha Hb. destruct (Qeq_dec (dval b) 0) as [H0|H0].
  - left. split; apply d_div_zero; [done|]. by rewrite <-Hb.
  - right. destruct (dval_div a b H0) as (c & Hc & Ec).
    destruct (dval_div a' b') as (c' & Hc' & Ec'); [by rewrite <-Hb|].
    exists c, c'. split_and!; try done. rewrite Ec, Ec', Ha, Hb. reflexivity.
Qed.
End Values.

(** ** The rationals as decimals *)

#[export] Instance Q_decimal : Decimal Q := {|
  dval q := q;
  d_of_Z := inject_Z;
  d_add := Qplus;
  d_sub := Qminus;
  d_mul := Qmult;
  d_div a b := if Qeq_bool b 0 then None else Some (Qround_at 16 (a / b)%Q);
  d_round := Qround_at;
  d_intpart q := i64 (Qtrunc q);
  d_cmp := Qcompare;
  d_abs := Qabs;
  d_fixed n q :=
    let z := Qround_haz (q * inject_Z (Zpos (pow10 n)))%Q in
    let w := Zpos (pow10 n) in
    (if z <? 0 then "-" else "") +:+ pretty (Z.abs z / w) +:+ "."
      +:+ String.substring 1 (Z.to_nat n) (pretty (w + Z.abs z `mod` w));
|}.

#[export] Instance Q_decimal_laws : DecimalLaws Q.
Proof.
  split; simpl; intros; try reflexivity.
  - destruct (Qeq_bool b 0) eqn:E; [by apply Qeq_bool_iff in E|]. eexists. split; reflexivity.
  - by rewrite (proj2 (Qeq_bool_iff b 0)).
  - apply i64_range.
  - by apply i64_id.
  - by rewrite (Qround_haz_proper _ _ (Qmult_comp _ _ H _ _ (Qeq_refl _))).
Qed.
