(* ===== verification/Ledger.v ===== *)
(** The double-entry ledger (internal/domain/ledger/model.go,
    internal/service/ledger_service.go and
    internal/repository/postgres/ledger_repository.go): the chart of accounts,
    the append-only entries, the materialised balances, and the four money
    movements the service posts.

    The tables are the state; every statement is a step of it, with the
    constraints of the schema as its errors.  A transaction the code opens
    itself leaves the tables alone when it fails; in a transaction of the
    caller the partial effects are visible until the caller rolls back.
    uuid.New(), the clocks and the tables foreign keys point to are
    parameters. *)

From S2P Require Import Prelude Sql Decimal.
Open Scope Z_scope.
Open Scope go_scope.

(** ** The chart of accounts *)

Definition AccountTypeUserVaultPosition : string := "user_vault_position".
Definition AccountTypeVaultAssetPool : string := "vault_asset_pool".
Definition AccountTypeFee : string := "fee_account".
Definition AccountTypePenaltyEscrow : string := "penalty_escrow".
Definition AccountTypeTreasury : string := "treasury".
Definition AccountTypeYieldSource : string := "yield_source".
Definition AccountTypeSystemSuspense : string := "system_suspense".
Definition AccountTypeExternal : string := "external".

Definition ValidAccountTypes : list string :=
  [AccountTypeUserVaultPosition; AccountTypeVaultAssetPool; AccountTypeFee;
   AccountTypePenaltyEscrow; AccountTypeTreasury; AccountTypeYieldSource;
   AccountTypeSystemSuspense; AccountTypeExternal].

Inductive LedgerError :=
| ErrInvalidAccountType | ErrUnbalanced | ErrTooFewEntries | ErrEmptyTransactionID
| ErrZeroAmount | ErrMixedTransactions | ErrAccountRequired
| ErrKeyRequired | ErrNoRows | ErrConstraint | ErrOutOfRange | ErrTxRequired | ErrDB
| ErrAmountNotPositive | ErrSameAdapter | ErrBooks (sum : Z).

(** An account, keyed by its id. *)
Record Account := mkAccount {
  AccountType : string;
  VaultID : option UUID;
  UserID : option UUID;
  AdapterName : option string;
  AssetCode : string;
  AssetUnit : string;
  Description : string;
  CreatedAt : Time;
  UpdatedAt : Time;
}.

Record Entry := mkEntry {
  EntryID : UUID;
  TransactionID : UUID;
  AccountID : UUID;
  Amount : Z;
  Direction : string;
  PostedAt : Time;
  DomainEventType : string;
  DomainEventID : string;
  EntryAsset : string;
  EntryUnit : string;
}.

(** A row of ledger_balances, keyed by the account. *)
Record Balance := mkBalance {
  bal : Z;
  bal_asset : string;
  bal_unit : string;
  bal_updated : Time;
  Version : Z;
}.

Record ReconciliationRecord := mkRecon {
  RecID : UUID;
  RecVault : UUID;
  LedgerVaultPoolBalance : Z;
  OnChainBalance : Z;
  Difference : Z;
  Tolerance : Z;
  RecStatus : string;
  Details : string;
  RecAt : Time;
}.

Record BalanceMismatch := mkMismatch {
  mm_account : UUID; mm_cached : Z; mm_computed : Z; mm_difference : Z;
}.

Record DB := mkDB {
  accounts : gmap UUID Account;
  entries : list Entry;
  balances : gmap UUID Balance;
  recons : list ReconciliationRecord;
}.

Definition ValidateAccountType (t : string) : result LedgerError unit :=
  guard_err (negb (bool_decide (t ∈ ValidAccountTypes))) ErrInvalidAccountType.

(** The loop of [ValidateBalanced]; the running sum is an int64. *)
Fixpoint balanced_loop (txID : UUID) (sum : Z) (es : list Entry) : result LedgerError unit :=
  match es with
  | [] => guard_err (negb (sum =? 0)) ErrUnbalanced
  | e :: es =>
      if negb (TransactionID e =? txID) then Err ErrMixedTransactions
      else if Amount e =? 0 then Err ErrZeroAmount
      else if AccountID e =? uuid_Nil then Err ErrAccountRequired
      else balanced_loop txID (sum +w Amount e) es
  end.

Definition ValidateBalanced (es : list Entry) : result LedgerError unit :=
  match es with
  | [] | [_] => Err ErrTooFewEntries
  | e :: _ =>
      if TransactionID e =? uuid_Nil then Err ErrEmptyTransactionID
      else balanced_loop (TransactionID e) 0 es
  end.

Definition DirectionFromAmount (amount : Z) : string :=
  if 0 <=? amount then "debit" else "credit".

Definition StroopsPerUSDC : Z := 10000000.

(** ** Sessions *)

(** The tables, and how many ids were drawn. *)
Record Session := mkSession { db : DB; drawn : nat }.

Definition M (A : Type) : Type := Session → result LedgerError A * Session.

#[export] Instance M_ret : MRet M := λ A a s, (Ok a, s).
#[export] Instance M_bind : MBind M := λ A B f m s,
  match m s with
  | (Ok a, s') => f a s'
  | (Err e, s') => (Err e, s')
  end.

Definition fail {A} (e : LedgerError) : M A := λ s, (Err e, s).
Definition lift {A} (r : result LedgerError A) : M A := λ s, (r, s).
Definition modify (f : DB → DB) : M unit := λ s, (Ok tt, mkSession (f (db s)) (drawn s)).
Definition gets {A} (f : DB → result LedgerError A) : M A := λ s, (f (db s), s).

(** [BeginTx], the body, then [Commit] with the deferred [Rollback]; a commit may
    take effect although its answer is lost. *)
Definition own_tx {A} (beginOk : bool) (d : dbres) (m : M A) : M A := λ s,
  if negb beginOk then (Err ErrDB, s)
  else
    match m s with
    | (Ok a, s') => (if failed d then Err ErrDB else Ok a, mkSession (Sql.effect d (db s) (db s')) (drawn s'))
    | (Err e, s') => (Err e, mkSession (db s) (drawn s'))
    end.

(** ** The repository *)

(** [column = $n]: false on NULL. *)
Definition sql_eq {A} `{EqDecision A} (x y : option A) : bool :=
  match x, y with Some a, Some b => bool_decide (a = b) | _, _ => false end.

(** The WHERE of the account look-ups, which is also the key of the partial
    unique index of the type. *)
Definition account_match (ty : string) (vault user : option UUID) (adapter : option string)
    (asset : string) (a : Account) : bool :=
  bool_decide (AccountType a = ty) && bool_decide (AssetCode a = asset) &&
  (if decide (ty = AccountTypeUserVaultPosition)
   then sql_eq (VaultID a) vault && sql_eq (UserID a) user
   else if decide (ty = AccountTypeVaultAssetPool ∨ ty = AccountTypePenaltyEscrow)
   then sql_eq (VaultID a) vault
   else if decide (ty = AccountTypeYieldSource)
   then sql_eq (AdapterName a) adapter
   else true).

(** The guards of the first switch. *)
Definition required_key (ty : string) (vault user : option UUID) (adapter : option string)
    : result LedgerError unit :=
  if decide (ty = AccountTypeUserVaultPosition)
  then guard_err (negb (bool_decide (is_Some vault)) || negb (bool_decide (is_Some user))) ErrKeyRequired
  else if decide (ty = AccountTypeVaultAssetPool ∨ ty = AccountTypePenaltyEscrow)
  then guard_err (negb (bool_decide (is_Some vault))) ErrKeyRequired
  else if decide (ty = AccountTypeYieldSource)
  then guard_err (bool_decide (adapter = None ∨ adapter = Some ""%string)) ErrKeyRequired
  else if decide (ty ∈ [AccountTypeFee; AccountTypeTreasury; AccountTypeSystemSuspense; AccountTypeExternal])
  then Ok tt
  else Err ErrInvalidAccountType.

Definition select_account (ty : string) (vault user : option UUID) (adapter : option string)
    (asset : string) (d : DB) : option (UUID * Account) :=
  List.find (λ p : UUID * Account, account_match ty vault user adapter asset p.2)
    (map_to_list (accounts d)).

Definition with_accounts (f : gmap UUID Account → gmap UUID Account) (d : DB) : DB :=
  mkDB (f (accounts d)) (entries d) (balances d) (recons d).

(** [SUM] of a BIGINT column is a numeric; scanning it into an int64 fails
    outside the range. *)
Definition scan_i64 (z : Z) : result LedgerError Z :=
  if (min_i64 <=? z) && (z <=? max_i64) then Ok z else Err ErrOutOfRange.

Definition sum_amounts (es : list Entry) : Z := foldr (λ e s, Amount e + s) 0 es.

Definition amounts_on (id : UUID) (es : list Entry) : Z :=
  foldr (λ e s, (if AccountID e =? id then Amount e else 0) + s) 0 es.

(** The cached balance, 0 for an account without a row. *)
Definition balance_of (d : DB) (id : UUID) : Z := default 0 (bal <$> balances d !! id).

Section Repository.
Context (uuidNew : nat → UUID) (now dbnow : Time) (vaultExists userExists : UUID → bool).

Definition newUUID : M UUID := λ s, (Ok (uuidNew (drawn s)), mkSession (db s) (S (drawn s))).

Definition references (check : UUID → bool) (o : option UUID) : bool :=
  match o with Some id => check id | None => true end.

(** [INSERT INTO ledger_accounts ... ON CONFLICT DO NOTHING]: whether a row
    was written. *)
Definition insert_account (id : UUID) (a : Account) : M bool := λ s,
  if bool_decide (is_Some (accounts (db s) !! id))
     || existsb (λ p : UUID * Account,
          account_match (AccountType a) (VaultID a) (UserID a) (AdapterName a) (AssetCode a) p.2)
          (map_to_list (accounts (db s)))
  then (Ok false, s)
  else if negb (references vaultExists (VaultID a)) || negb (references userExists (UserID a))
  then (Err ErrConstraint, s)
  else (Ok true, mkSession (with_accounts <[id := a]> (db s)) (drawn s)).

Definition getOrCreateAccountTx (ty : string) (vault user : option UUID) (adapter : option string)
    (asset : string) : M (UUID * Account) :=
  lift (required_key ty vault user adapter);;
  found ← gets (λ d, Ok (select_account ty vault user adapter asset d));
  match found with
  | Some acc => mret acc
  | None =>
      newID ← newUUID;
      insert_account newID (mkAccount ty vault user adapter asset "stroops" "" now now);;
      again ← gets (λ d, Ok (select_account ty vault user adapter asset d));
      match again with Some acc => mret acc | None => fail ErrNoRows end
  end.

Definition default_asset (asset : string) : string := if decide (asset = "") then "USDC" else asset.
Definition default_unit (unit : string) : string := if decide (unit = "") then "stroops" else unit.

(** [beginOk] is whether the database opens, [d] how the commit ends. *)
Definition GetOrCreateAccount (beginOk : bool) (d : dbres) (ty : string) (vault user : option UUID)
    (adapter : option string) (asset : string) : M (UUID * Account) :=
  own_tx beginOk d (getOrCreateAccountTx ty vault user adapter (default_asset asset)).

Definition GetOrCreateAccountTx (ty : string) (vault user : option UUID)
    (adapter : option string) (asset : string) : M (UUID * Account) :=
  getOrCreateAccountTx ty vault user adapter (default_asset asset).

Definition CreateAccount (beginOk : bool) (d : dbres) (id : UUID) (a : Account) : M (UUID * Account) :=
  lift (ValidateAccountType (AccountType a));;
  id ← (if id =? uuid_Nil then newUUID else mret id);
  let a := mkAccount (AccountType a) (VaultID a) (UserID a) (AdapterName a)
             (default_asset (AssetCode a)) (default_unit (AssetUnit a)) (Description a) now now in
  written ← insert_account id a;
  if (written : bool) then mret (id, a)
  else GetOrCreateAccount beginOk d (AccountType a) (VaultID a) (UserID a) (AdapterName a)
         (AssetCode a).

Definition GetAccount (id : UUID) : M Account :=
  gets (λ d, match accounts d !! id with Some a => Ok a | None => Err ErrNoRows end).

(** [INSERT INTO ledger_entries], with the constraints of the table. *)
Definition insert_entry (e : Entry) : M unit := λ s,
  let d := db s in
  if bool_decide (EntryID e ∈ (EntryID <$> entries d)) || (Amount e =? 0)
     || negb (bool_decide (Direction e = "debit" ∨ Direction e = "credit"))
     || negb (bool_decide (is_Some (accounts d !! AccountID e)))
  then (Err ErrConstraint, s)
  else (Ok tt, mkSession (mkDB (accounts d) (entries d ++ [e]) (balances d) (recons d)) (drawn s)).

(** The upsert of the cached balance; BIGINT addition is checked. *)
Definition upsert_balance (e : Entry) : M unit := λ s,
  let d := db s in
  match balances d !! AccountID e with
  | None =>
      let b := mkBalance (Amount e) (EntryAsset e) (EntryUnit e) dbnow 1 in
      (Ok tt, mkSession (mkDB (accounts d) (entries d) (<[AccountID e := b]> (balances d)) (recons d))
                (drawn s))
  | Some b =>
      match scan_i64 (bal b + Amount e) with
      | Err err => (Err err, s)
      | Ok z =>
          let b := mkBalance z (bal_asset b) (bal_unit b) dbnow (Version b + 1) in
          (Ok tt, mkSession (mkDB (accounts d) (entries d) (<[AccountID e := b]> (balances d))
                    (recons d)) (drawn s))
      end
  end.

Definition post_entry (e : Entry) : M unit :=
  id ← (if EntryID e =? uuid_Nil then newUUID else mret (EntryID e));
  let dir := if decide (Direction e = "") then DirectionFromAmount (Amount e) else Direction e in
  let e := mkEntry id (TransactionID e) (AccountID e) (Amount e) dir dbnow (DomainEventType e)
             (DomainEventID e) (default_asset (EntryAsset e)) (default_unit (EntryUnit e)) in
  insert_entry e;; upsert_balance e.

Fixpoint postEntriesTx (es : list Entry) : M unit :=
  match es with
  | [] => mret tt
  | e :: es => post_entry e;; postEntriesTx es
  end.

Definition PostEntries (beginOk : bool) (d : dbres) (es : list Entry) : M unit :=
  lift (ValidateBalanced es);; own_tx beginOk d (postEntriesTx es).

Definition PostEntriesTx (hasTx : bool) (es : list Entry) : M unit :=
  lift (ValidateBalanced es);;
  if negb hasTx then fail ErrTxRequired else postEntriesTx es.

Definition GetBalance (id : UUID) : M Balance :=
  gets (λ d, match balances d !! id with Some b => Ok b | None => Err ErrNoRows end).

(** ledger_accounts JOIN ledger_balances *)
Definition join (d : DB) : list (UUID * (Account * Balance)) :=
  omap (λ p : UUID * Account, (λ b, (p.1, (p.2, b))) <$> balances d !! p.1)
    (map_to_list (accounts d)).

Definition GetBalancesByVault (vault : UUID) (d : DB) : gmap UUID Z :=
  fold_left (λ m (p : UUID * (Account * Balance)),
    if sql_eq (VaultID p.2.1) (Some vault) then <[p.1 := bal p.2.2]> m else m) (join d) ∅.

(** [QueryRow] over accounts joined with their balances, no row being 0. *)
Definition first_balance (f : Account → bool) (d : DB) : Z :=
  match List.find (λ p : UUID * (Account * Balance), f p.2.1) (join d) with
  | Some p => bal p.2.2
  | None => 0
  end.

Definition GetUserVaultBalance (user vault : UUID) : M Z :=
  gets (λ d, Ok (first_balance
    (account_match AccountTypeUserVaultPosition (Some vault) (Some user) None "USDC") d)).

Definition GetVaultPoolBalance (vault : UUID) : M Z :=
  gets (λ d, Ok (first_balance
    (account_match AccountTypeVaultAssetPool (Some vault) None None "USDC") d)).

(** [SUM(lb.balance)] over the accounts [f] joined with their balances. *)
Definition sum_balances (f : Account → bool) (d : DB) : Z :=
  foldr (λ (p : UUID * (Account * Balance)) s, (if f p.2.1 then bal p.2.2 else 0) + s) 0 (join d).

Definition SumUserPositionBalances (vault : UUID) : M Z :=
  gets (λ d, scan_i64 (sum_balances
    (λ a, bool_decide (AccountType a = AccountTypeUserVaultPosition)
          && sql_eq (VaultID a) (Some vault)) d)).

Definition SumAllEntries : M Z := gets (λ d, scan_i64 (sum_amounts (entries d))).

(** The rows of the recompute query are scanned one by one. *)
Fixpoint recompute (d : DB) (ids : list UUID) : result LedgerError (list BalanceMismatch) :=
  match ids with
  | [] => Ok []
  | id :: ids =>
      let cached := balance_of d id in
      computed ← scan_i64 (amounts_on id (entries d));
      rest ← recompute d ids;
      Ok (if cached =? computed then rest
          else mkMismatch id cached computed (computed -w cached) :: rest)
  end.

Definition RecomputeBalances : M (list BalanceMismatch) :=
  gets (λ d, recompute d (map_to_list (accounts d)).*1).

Definition CreateReconciliationRecord (r : ReconciliationRecord) : M unit :=
  id ← (if RecID r =? uuid_Nil then newUUID else mret (RecID r));
  modify (λ d, mkDB (accounts d) (entries d) (balances d)
    (recons d ++ [mkRecon id (RecVault r) (LedgerVaultPoolBalance r) (OnChainBalance r)
       (Difference r) (Tolerance r) (RecStatus r) (Details r) dbnow])).

Definition ListAllBalances : M (list (UUID * Balance)) := gets (λ d, Ok (map_to_list (balances d))).

(** ** The service *)

Context {D : Type} `{!Decimal D}.

Definition decimalToStroops (d : D) : result LedgerError Z :=
  let mult := d_mul d (d_of_Z 10000000) in
  let rounded := d_round 0 mult in
  Ok (d_intpart rounded).

(** [None] is the panic of a division by zero, which does not occur. *)
Definition stroopsToDecimal (s : Z) : option D := d_div (d_of_Z s) (d_of_Z 10000000).

(** How a posting reaches the database: in the caller's transaction, in one
    the service opens, or through the repository alone when the service has no
    handle, with one transaction per account and one for the post. *)
Inductive txMode := CallerTx | OwnTx (beginOk : bool) (d : dbres) | Direct (io : nat → bool * dbres).

(** The two shapes of each movement differ in the calls they make for the
    accounts and for the post. *)
Record port := mkPort {
  account : nat → string → option UUID → option UUID → option string → M UUID;
  post : list Entry → M unit;
}.

Definition port_tx : port := mkPort
  (λ _ ty vault user adapter,
     acc ← GetOrCreateAccountTx ty vault user adapter "USDC"; mret acc.1)
  (PostEntriesTx true).

Definition port_direct (io : nat → bool * dbres) : port := mkPort
  (λ i ty vault user adapter,
     acc ← GetOrCreateAccount (io (S i)).1 (io (S i)).2 ty vault user adapter "USDC";
     mret acc.1)
  (PostEntries (io 0%nat).1 (io 0%nat).2).

(** The [if tx == nil] of every movement. *)
Definition in_mode (m : txMode) (body : port → M unit) : M unit :=
  match m with
  | CallerTx => body port_tx
  | OwnTx beginOk d => own_tx beginOk d (body port_tx)
  | Direct io => body (port_direct io)
  end.

Definition leg (txID acc : UUID) (amount : Z) (event eventID : string) : Entry :=
  mkEntry uuid_Nil txID acc amount (DirectionFromAmount amount) zeroTime event eventID "USDC" "stroops".

Definition postDeposit (vault user : UUID) (stroops : Z) (eventID : string) (p : port) : M unit :=
  userAcc ← account p 0 AccountTypeUserVaultPosition (Some vault) (Some user) None;
  vaultAcc ← account p 1 AccountTypeVaultAssetPool (Some vault) None None;
  suspenseAcc ← account p 2 AccountTypeSystemSuspense None None None;
  txID ← newUUID;
  post p [leg txID userAcc stroops "deposit" eventID;
          leg txID vaultAcc stroops "deposit" eventID;
          leg txID suspenseAcc (i64 (-2 * stroops)) "deposit" eventID].

Definition PostDeposit (m : txMode) (vault user : UUID) (amount : D) (eventID : string) : M unit :=
  stroops ← lift (decimalToStroops amount);
  if stroops <=? 0 then fail ErrAmountNotPositive
  else in_mode m (postDeposit vault user stroops eventID).

Definition postWithdrawal (vault user : UUID) (stroops : Z) (eventID : string) (p : port) : M unit :=
  userAcc ← account p 0 AccountTypeUserVaultPosition (Some vault) (Some user) None;
  vaultAcc ← account p 1 AccountTypeVaultAssetPool (Some vault) None None;
  suspenseAcc ← account p 2 AccountTypeSystemSuspense None None None;
  txID ← newUUID;
  post p [leg txID userAcc (i64 (- stroops)) "withdraw" eventID;
          leg txID vaultAcc (i64 (- stroops)) "withdraw" eventID;
          leg txID suspenseAcc (2 *w stroops) "withdraw" eventID].

Definition PostWithdrawal (m : txMode) (vault user : UUID) (amount : D) (eventID : string) : M unit :=
  stroops ← lift (decimalToStroops amount);
  if stroops <=? 0 then fail ErrAmountNotPositive
  else in_mode m (postWithdrawal vault user stroops eventID).

Definition postHarvest (vault user : UUID) (net fee gross : Z) (adapter eventID : string) (p : port)
    : M unit :=
  vaultAcc ← account p 0 AccountTypeVaultAssetPool (Some vault) None None;
  userAcc ← account p 1 AccountTypeUserVaultPosition (Some vault) (Some user) None;
  feeAcc ← account p 2 AccountTypeFee None None None;
  yieldAcc ← account p 3 AccountTypeYieldSource None None (Some adapter);
  suspenseAcc ← account p 4 AccountTypeSystemSuspense None None None;
  txID ← newUUID;
  let es := [leg txID vaultAcc net "harvest" eventID;
             leg txID userAcc net "harvest" eventID;
             leg txID feeAcc fee "harvest" eventID;
             leg txID yieldAcc (i64 (- gross)) "harvest" eventID;
             leg txID suspenseAcc (i64 (- net)) "harvest" eventID] in
  let filtered := List.filter (λ e, negb (Amount e =? 0)) es in
  if Z.of_nat (length filtered) <? 2 then mret tt else post p filtered.

(** The check that gross = net + fee has an empty body. *)
Definition PostHarvest (m : txMode) (vault user : UUID) (netYield feeYield grossYield : D)
    (adapter eventID : string) : M unit :=
  net ← lift (decimalToStroops netYield);
  fee ← lift (decimalToStroops feeYield);
  gross ← lift (decimalToStroops grossYield);
  in_mode m (postHarvest vault user net fee gross adapter eventID).

Definition postRebalance (vault : UUID) (fromAdapter toAdapter : string) (stroops : Z)
    (eventID : string) (p : port) : M unit :=
  fromAcc ← account p 0 AccountTypeYieldSource None None (Some fromAdapter);
  toAcc ← account p 1 AccountTypeYieldSource None None (Some toAdapter);
  txID ← newUUID;
  post p [leg txID fromAcc (i64 (- stroops)) "rebalance" eventID;
          leg txID toAcc stroops "rebalance" eventID].

Definition PostRebalance (m : txMode) (vault : UUID) (fromAdapter toAdapter : string) (amount : D)
    (eventID : string) : M unit :=
  stroops ← lift (decimalToStroops amount);
  if stroops <=? 0 then fail ErrAmountNotPositive
  else if decide (fromAdapter = toAdapter) then fail ErrSameAdapter
  else in_mode m (postRebalance vault fromAdapter toAdapter stroops eventID).

(** [ValidateBooks] and [VerifyBalances]. *)
Definition ValidateBooks : M unit :=
  sum ← SumAllEntries;
  if sum =? 0 then mret tt else fail (ErrBooks sum).

Definition VerifyBalances : M (list BalanceMismatch) := RecomputeBalances.
End Repository.

(** ** Sums of entries *)

Lemma sum_amounts_app es es' : sum_amounts (es ++ es') = sum_amounts es + sum_amounts es'.
Proof. induction es as [|e es IH]; simpl; [done|]. rewrite IH. lia. Qed.

Lemma amounts_on_app id es es' : amounts_on id (es ++ es') = amounts_on id es + amounts_on id es'.
Proof. induction es as [|e es IH]; simpl; [done|]. rewrite IH. lia. Qed.

Lemma scan_i64_Ok z z' : scan_i64 z = Ok z' ↔ z' = z ∧ in_i64 z.
Proof.
  unfold scan_i64, in_i64. destruct (Z.leb_spec min_i64 z), (Z.leb_spec z max_i64); simpl;
    (split; [intros [= <-]; done|intros [-> ?]; try done; lia]).
Qed.

Lemma scan_i64_in z : in_i64 z → scan_i64 z = Ok z.
Proof. intros H. by apply scan_i64_Ok. Qed.

Lemma i64_add_l x y : i64 (i64 x + y) = i64 (x + y).
Proof.
  unfold i64.
  replace ((x + 2 ^ 63) `mod` 2 ^ 64 - 2 ^ 63 + y + 2 ^ 63) with ((x + 2 ^ 63) `mod` 2 ^ 64 + y) by ring.
  rewrite Zplus_mod_idemp_l. f_equal. f_equal. ring.
Qed.

Lemma i64_zero x : i64 x = 0 ↔ x `mod` 2 ^ 64 = 0.
Proof. unfold i64. go_mod. Qed.

(** ** Validation *)

Lemma balanced_loop_Ok txID sum es u :
  i64 sum = sum →
  balanced_loop txID sum es = Ok u ↔
  Forall (λ e, TransactionID e = txID ∧ Amount e ≠ 0 ∧ AccountID e ≠ uuid_Nil) es
  ∧ (sum + sum_amounts es) `mod` 2 ^ 64 = 0.
Proof.
  revert sum. induction es as [|e es IH]; intros sum Hs; simpl.
  - rewrite guard_err_Ok. rewrite <-i64_zero, Z.add_0_r, Hs.
    destruct (Z.eqb_spec sum 0); simpl; naive_solver.
  - rewrite Forall_cons.
    destruct (Z.eqb_spec (TransactionID e) txID); simpl; [|naive_solver].
    destruct (Z.eqb_spec (Amount e) 0); simpl; [naive_solver|].
    destruct (Z.eqb_spec (AccountID e) uuid_Nil); simpl; [naive_solver|].
    rewrite IH by (apply i64_id, i64_range).
    rewrite <-!i64_zero, i64_add_l, Z.add_assoc. naive_solver.
Qed.

Lemma ValidateBalanced_Ok es u :
  ValidateBalanced es = Ok u ↔
  2 ≤ Z.of_nat (length es)
  ∧ (∃ txID, txID ≠ uuid_Nil
       ∧ Forall (λ e, TransactionID e = txID ∧ Amount e ≠ 0 ∧ AccountID e ≠ uuid_Nil) es)
  ∧ sum_amounts es `mod` 2 ^ 64 = 0.
Proof.
  destruct es as [|e0 [|e1 es]]; [simpl; split; [done|lia]..|].
  unfold ValidateBalanced. destruct (Z.eqb_spec (TransactionID e0) uuid_Nil) as [Hnil|Hnil].
  - split; [done|]. intros (_ & (t & Ht & Hall) & _). exfalso. apply Forall_cons in Hall as [[? _] _].
    congruence.
  - rewrite balanced_loop_Ok by done. rewrite Z.add_0_l. split.
    + intros [Hall Hs]. split_and!; [simpl; lia|eauto|done].
    + intros (_ & (t & _ & Hall) & Hs). split; [|done].
      pose proof Hall as Hall'. apply Forall_cons in Hall' as [[-> _] _]. done.
Qed.

(** [ValidateBalanced] accepts exactly the lists of at least two entries
    that share one transaction id, are non-zero and name an account, and whose
    amounts sum to zero in int64 arithmetic; where the exact sum is within 64
    bits of sign and magnitude, that is an exact zero. *)
Theorem ledger_validate_balanced es u :
  (ValidateBalanced es = Ok u ↔
   2 ≤ Z.of_nat (length es)
   ∧ (∃ txID, txID ≠ uuid_Nil
        ∧ Forall (λ e, TransactionID e = txID ∧ Amount e ≠ 0 ∧ AccountID e ≠ uuid_Nil) es)
   ∧ sum_amounts es `mod` 2 ^ 64 = 0)
  ∧ (Z.abs (sum_amounts es) < 2 ^ 64 → sum_amounts es `mod` 2 ^ 64 = 0 → sum_amounts es = 0).
Proof. split; [apply ValidateBalanced_Ok|]. intros. go_mod. Qed.

(** ** The state of the books *)

Definition key_match (a b : Account) : bool :=
  account_match (AccountType a) (VaultID a) (UserID a) (AdapterName a) (AssetCode a) b.

Record books (d : DB) : Prop := {
  bk_ids : NoDup (EntryID <$> entries d);
  bk_ref e : e ∈ entries d → is_Some (accounts d !! AccountID e);
  bk_cache id : balance_of d id = amounts_on id (entries d);
  bk_range id : in_i64 (balance_of d id);
  bk_owner id : is_Some (balances d !! id) → is_Some (accounts d !! id);
  bk_unique id1 a1 id2 a2 :
    accounts d !! id1 = Some a1 → accounts d !! id2 = Some a2 → key_match a1 a2 = true → id1 = id2;
}.

(** [d'] is [d] with more accounts. *)
Definition opened (d d' : DB) : Prop :=
  accounts d ⊆ accounts d' ∧ entries d' = entries d ∧ balances d' = balances d ∧ recons d' = recons d.

#[export] Instance opened_preorder : PreOrder opened.
Proof.
  split; [done|]. intros d1 d2 d3 (?&?&?&?) (?&?&?&?). split_and!; [by etrans|congruence..].
Qed.

Lemma sql_eq_true {A} `{EqDecision A} (x y : option A) :
  sql_eq x y = true ↔ ∃ a, x = Some a ∧ y = Some a.
Proof.
  split.
  - destruct x, y; simpl; try done. intros Hb. apply bool_decide_eq_true in Hb. subst. eauto.
  - intros (a & -> & ->). simpl. by apply bool_decide_eq_true.
Qed.

(** Closes an equality of keys from equalities of keys. *)
Ltac sql_solve :=
  repeat match goal with H : sql_eq _ _ = true |- _ => apply sql_eq_true in H as (?&?&?) end;
  rewrite ?andb_true_iff, ?sql_eq_true; repeat split;
  try (eexists; split; [eassumption|congruence]).

(** Two accounts that answer one look-up have the same key. *)
Lemma account_match_key ty v u ad asset a b :
  account_match ty v u ad asset a = true → account_match ty v u ad asset b = true →
  key_match a b = true.
Proof.
  unfold key_match, account_match. intros H1 H2. go_bool. subst.
  rewrite !bool_decide_true by congruence. simpl.
  replace (AccountType b) with (AccountType a) in * by congruence.
  repeat case_decide; go_bool; sql_solve.
Qed.

(** ** Accounts *)

Section RepositoryFacts.
Context (uuidNew : nat → UUID) (now dbnow : Time) (vaultExists userExists : UUID → bool).

Abbreviation goc := (getOrCreateAccountTx uuidNew now vaultExists userExists).

Lemma select_account_Some ty v u ad asset d x :
  select_account ty v u ad asset d = Some x →
  accounts d !! x.1 = Some x.2 ∧ account_match ty v u ad asset x.2 = true.
Proof.
  unfold select_account. intros [Hin Hm]%List.find_some. destruct x as [id a]. split; [|done].
  by apply elem_of_map_to_list, list_elem_of_In.
Qed.

Lemma select_account_None ty v u ad asset d :
  select_account ty v u ad asset d = None →
  ∀ id a, accounts d !! id = Some a → account_match ty v u ad asset a = false.
Proof.
  intros Hn id a Ha. eapply (List.find_none _ _ Hn (id, a)).
  by apply list_elem_of_In, elem_of_map_to_list.
Qed.

(** A look-up has one answer. *)
Lemma select_account_unique ty v u ad asset d id a :
  books d → accounts d !! id = Some a → account_match ty v u ad asset a = true →
  select_account ty v u ad asset d = Some (id, a).
Proof.
  intros Hb Ha Hm. destruct (select_account ty v u ad asset d) as [[id' a']|] eqn:Hs.
  - apply select_account_Some in Hs as [Ha' Hm']. simpl in *.
    assert (id' = id) as ->; [|congruence].
    eapply bk_unique; [done..|]. exact (account_match_key _ _ _ _ _ _ _ Hm' Hm).
  - by rewrite (select_account_None _ _ _ _ _ _ Hs id a Ha) in Hm.
Qed.

Lemma insert_account_spec id a s :
  books (db s) →
  books (db (insert_account vaultExists userExists id a s).2)
  ∧ opened (db s) (db (insert_account vaultExists userExists id a s).2).
Proof.
  intros Hb. unfold insert_account. destruct (_ || existsb _ _) eqn:Hc; [done|].
  destruct (negb _ || _); [done|].
  apply orb_false_iff in Hc as [Hid%bool_decide_eq_false Hex].
  assert (accounts (db s) !! id = None) as Hn by (by apply eq_None_not_Some).
  assert (∀ id' b, accounts (db s) !! id' = Some b → key_match a b = false) as Hfree.
  { intros id' b Hl. apply not_true_iff_false. intros Hm.
    apply not_true_iff_false in Hex. apply Hex. apply existsb_exists.
    exists (id', b). rewrite <-list_elem_of_In, elem_of_map_to_list. done. }
  simpl. split; [|split_and!; try done; by apply insert_subseteq].
  destruct Hb as [H1 H2 H3 H4 H5 H6]. split; simpl; try done.
  - intros e He. apply lookup_insert_is_Some'. right. auto.
  - intros i Hi. apply lookup_insert_is_Some'. right. auto.
  - intros id1 a1 id2 a2 [[<- <-]|[Hne1 Ha1]]%lookup_insert_Some
      [[<- <-]|[Hne2 Ha2]]%lookup_insert_Some Hk; try done; [| |by eapply H6].
    + by rewrite (Hfree id2 a2) in Hk.
    + assert (key_match a a1 = true) as Hk'; [|by rewrite (Hfree id1 a1) in Hk'].
      clear -Hk. unfold key_match, account_match in *. go_bool.
      rewrite !bool_decide_true by congruence. simpl.
      replace (AccountType a) with (AccountType a1) in * by congruence.
      repeat case_decide; go_bool; sql_solve.
Qed.

(** [getOrCreateAccountTx] only ever opens an account, and returns one that
    answers the request. *)
Lemma goc_spec ty v u ad asset s :
  books (db s) →
  books (db (goc ty v u ad asset s).2) ∧ opened (db s) (db (goc ty v u ad asset s).2)
  ∧ match (goc ty v u ad asset s).1 with
    | Ok x => accounts (db (goc ty v u ad asset s).2) !! x.1 = Some x.2
              ∧ account_match ty v u ad asset x.2 = true
    | Err _ => True
    end.
Proof.
  intros Hb. unfold getOrCreateAccountTx, mbind, M_bind, lift, gets, newUUID, fail.
  destruct (required_key _ _ _ _); [|done].
  destruct (select_account _ _ _ _ _ _) as [x|] eqn:Hs.
  { simpl. split_and!; try done; by apply select_account_Some in Hs as [? ?]. }
  simpl.
  match goal with |- context [insert_account _ _ ?i ?a ?s1] =>
    pose proof (insert_account_spec i a s1 Hb) as [Hb1 Ho1];
    destruct (insert_account _ _ i a s1) as [[?|?] s2] end; simpl in *; [|done].
  destruct (select_account ty v u ad asset (db s2)) as [x|] eqn:Hs2; simpl; [|done].
  split_and!; try done; by apply select_account_Some in Hs2 as [? ?].
Qed.

(** [getOrCreateAccountTx] is idempotent: asked again for the account it
    returned, it returns the same account and changes nothing; no two
    accounts ever answer one request. *)
Theorem ledger_account_idempotent ty v u ad asset s x s' :
  books (db s) → goc ty v u ad asset s = (Ok x, s') →
  goc ty v u ad asset s' = (Ok x, s')
  ∧ (∀ id a, accounts (db s') !! id = Some a → account_match ty v u ad asset a = true → id = x.1)
  ∧ entries (db s') = entries (db s) ∧ balances (db s') = balances (db s).
Proof.
  intros Hb Hg. pose proof (goc_spec ty v u ad asset s Hb) as (Hb' & (_ & He & Hbal & _) & Hx).
  assert (∃ t, required_key ty v u ad = Ok t) as [t Hreq].
  { unfold getOrCreateAccountTx, mbind, M_bind, lift in Hg.
    destruct (required_key ty v u ad); [eauto|done]. }
  rewrite Hg in *. simpl in *. destruct Hx as [Hl Hm].
  split_and!; [|intros id a Ha Hma|done..].
  - unfold getOrCreateAccountTx, mbind, M_bind, lift, gets. rewrite Hreq.
    rewrite (select_account_unique _ _ _ _ _ _ x.1 x.2 Hb' Hl Hm). by destruct x.
  - symmetry. eapply bk_unique; [exact Hb'|exact Hl|exact Ha|].
    exact (account_match_key _ _ _ _ _ _ _ Hm Hma).
Qed.
End RepositoryFacts.

(** ** Posting *)

(** What a posted row keeps of the entry asked for. *)
Definition posted_as (e e' : Entry) : Prop :=
  TransactionID e' = TransactionID e ∧ AccountID e' = AccountID e ∧ Amount e' = Amount e.

(** [d'] is [d] with the entries [es] posted. *)
Definition posted (es : list Entry) (d d' : DB) : Prop :=
  accounts d' = accounts d ∧ recons d' = recons d
  ∧ ∃ new, entries d' = entries d ++ new ∧ Forall2 posted_as es new.

Lemma balance_of_insert d id b ac en rc id' :
  balance_of (mkDB ac en (<[id := b]> (balances d)) rc) id'
  = if decide (id = id') then bal b else balance_of d id'.
Proof.
  unfold balance_of. simpl. case_decide; subst; [by rewrite lookup_insert_eq|].
  by rewrite lookup_insert_ne.
Qed.

Lemma books_post_row d e b :
  books d → EntryID e ∉ EntryID <$> entries d → is_Some (accounts d !! AccountID e) →
  bal b = balance_of d (AccountID e) + Amount e → in_i64 (bal b) →
  books (mkDB (accounts d) (entries d ++ [e]) (<[AccountID e := b]> (balances d)) (recons d)).
Proof.
  intros [H1 H2 H3 H4 H5 H6] Hid Hacc Hbal Hr. split; simpl; try done.
  - rewrite fmap_app. apply NoDup_app. split_and!; [done| |apply NoDup_singleton].
    intros x Hx Hx'. apply list_elem_of_singleton in Hx'. by subst.
  - intros e' [He'|He']%elem_of_app; [by apply H2|]. apply list_elem_of_singleton in He'. by subst.
  - intros id. rewrite balance_of_insert, amounts_on_app, <-H3. simpl. case_decide as Hd.
    + subst. rewrite Z.eqb_refl. lia.
    + rewrite (proj2 (Z.eqb_neq _ _) Hd). lia.
  - intros id. rewrite balance_of_insert. by case_decide.
  - intros id [Hi|Hi]%lookup_insert_is_Some'; [by rewrite <-Hi|auto].
Qed.

Section Posting.
Context (uuidNew : nat → UUID) (now dbnow : Time) (vaultExists userExists : UUID → bool).

Lemma post_entry_spec e s s' u :
  books (db s) → in_i64 (Amount e) → post_entry uuidNew dbnow e s = (Ok u, s') →
  books (db s') ∧ posted [e] (db s) (db s').
Proof.
  intros Hb Hr. unfold post_entry, mbind, M_bind.
  assert (∃ id n, (if EntryID e =? uuid_Nil then newUUID uuidNew else mret (EntryID e)) s
    = (Ok id, mkSession (db s) n)) as (id & n & ->).
  { destruct (_ =? _); simpl; [by eexists _, _|]. exists (EntryID e), (drawn s). by destruct s. }
  unfold insert_entry. cbn [db drawn].
  destruct (_ || _ || _ || _) eqn:Hc; [done|]. cbn [EntryID AccountID Amount] in *.
  apply orb_false_iff in Hc as [[[Hid%bool_decide_eq_false _]%orb_false_iff _]%orb_false_iff Hacc].
  apply negb_false_iff, bool_decide_eq_true in Hacc.
  set (e' := mkEntry id _ _ _ _ _ _ _ _ _).
  assert (∀ b, bal b = balance_of (db s) (AccountID e) + Amount e → in_i64 (bal b) →
    books (mkDB (accounts (db s)) (entries (db s) ++ [e']) (<[AccountID e := b]> (balances (db s)))
      (recons (db s)))
    ∧ posted [e] (db s) (mkDB (accounts (db s)) (entries (db s) ++ [e'])
        (<[AccountID e := b]> (balances (db s))) (recons (db s)))) as Hok.
  { intros b Hbal Hrb. split; [by apply (books_post_row (db s) e' b)|].
    split_and!; [done..|]. exists [e']. split; [done|]. by repeat constructor. }
  unfold upsert_balance. cbn [db drawn balances accounts entries recons].
  change (AccountID e') with (AccountID e). change (Amount e') with (Amount e).
  destruct (balances (db s) !! AccountID e) as [b|] eqn:Hl.
  - destruct (scan_i64 (bal b + Amount e)) as [z|err] eqn:Hz; [|done]. intros [= _ <-].
    apply scan_i64_Ok in Hz as [-> Hz]. cbn [db]. apply Hok; [|done]. unfold balance_of. by rewrite Hl.
  - intros [= _ <-]. cbn [db]. apply Hok; [|done]. unfold balance_of. by rewrite Hl.
Qed.

Lemma posted_trans es1 es2 d1 d2 d3 :
  posted es1 d1 d2 → posted es2 d2 d3 → posted (es1 ++ es2) d1 d3.
Proof.
  intros (?&?& n1 & E1 & F1) (?&?& n2 & E2 & F2). split_and!; [congruence..|].
  exists (n1 ++ n2). split; [by rewrite E2, E1, app_assoc|]. by apply Forall2_app.
Qed.

Lemma postEntriesTx_spec es s s' u :
  books (db s) → Forall (in_i64 ∘ Amount) es → postEntriesTx uuidNew dbnow es s = (Ok u, s') →
  books (db s') ∧ posted es (db s) (db s').
Proof.
  revert s. induction es as [|e es IH]; intros s Hb Hr; simpl.
  - intros [= _ <-]. split; [done|]. split_and!; [done..|]. exists []. by rewrite app_nil_r.
  - apply Forall_cons in Hr as [Hre Hr]. unfold mbind, M_bind.
    destruct (post_entry uuidNew dbnow e s) as [[?|?] s1] eqn:He; [|done].
    apply post_entry_spec in He as [Hb1 Hp1]; [|done..]. intros Hes.
    apply IH in Hes as [Hb2 Hp2]; [|done..]. split; [done|].
    by apply (posted_trans [e] es _ (db s1)).
Qed.

Lemma posted_amounts es d d' :
  posted es d d' →
  sum_amounts (entries d') = sum_amounts (entries d) + sum_amounts es
  ∧ ∀ id, amounts_on id (entries d') = amounts_on id (entries d) + amounts_on id es.
Proof.
  intros (_ & _ & new & -> & HF).
  assert (sum_amounts new = sum_amounts es ∧ ∀ id, amounts_on id new = amounts_on id es) as [Hs Ha].
  { induction HF as [|e e' es new (_ & Hacc & Ham) HF [IHs IHa]]; [done|]. simpl.
    rewrite IHs, Ham. split; [done|]. intros id. by rewrite IHa, Hacc. }
  rewrite sum_amounts_app, Hs. split; [done|]. intros id. by rewrite amounts_on_app, Ha.
Qed.

(** ** Movements *)

(** The ports a movement runs on: when the post fails, [E] holds of the tables, or
    it took effect and its answer was lost. *)
Definition port_spec (p : port) (E : DB → DB → Prop) (lost : Prop) : Prop :=
  (∀ i ty v u ad s, books (db s) →
     books (db (account p i ty v u ad s).2) ∧ opened (db s) (db (account p i ty v u ad s).2)
     ∧ match (account p i ty v u ad s).1 with
       | Ok id => ∃ a, accounts (db (account p i ty v u ad s).2) !! id = Some a
                  ∧ account_match ty v u ad "USDC" a = true
       | Err _ => True
       end)
  ∧ (∀ es s, books (db s) → Forall (in_i64 ∘ Amount) es →
     match post p es s with
     | (Ok _, s') => books (db s') ∧ posted es (db s) (db s') ∧ sum_amounts es `mod` 2 ^ 64 = 0
     | (Err _, s') =>
         E (db s) (db s') ∨ lost ∧ books (db s') ∧ posted es (db s) (db s') ∧ sum_amounts es `mod` 2 ^ 64 = 0
     end).

Lemma port_tx_spec :
  port_spec (port_tx uuidNew now dbnow vaultExists userExists) (λ _ _, True) False.
Proof.
  split.
  - intros i ty v u ad s Hb. simpl. unfold mbind, M_bind, GetOrCreateAccountTx.
    pose proof (goc_spec uuidNew now vaultExists userExists ty v u ad "USDC" s Hb) as (? & ? & Hx).
    change (default_asset "USDC") with "USDC"%string.
    destruct (getOrCreateAccountTx _ _ _ _ _ _ _ _ _ s) as [[x|?] s']; simpl in *; [|done].
    split_and!; [done..|]. destruct Hx. eauto.
  - intros es s Hb Hr. simpl. unfold PostEntriesTx, mbind, M_bind, lift.
    destruct (ValidateBalanced es) as [t|] eqn:Hv; [|by left]. simpl.
    apply ValidateBalanced_Ok in Hv as (_ & _ & Hs).
    destruct (postEntriesTx uuidNew dbnow es s) as [[?|?] s'] eqn:Hp; [|by left].
    by apply postEntriesTx_spec in Hp as [? ?].
Qed.

Lemma port_direct_spec io :
  port_spec (port_direct uuidNew now dbnow vaultExists userExists io) eq ((io 0%nat).2 = DBFail true).
Proof.
  split.
  - intros i ty v u ad s Hb. simpl. unfold mbind, M_bind, GetOrCreateAccount, own_tx.
    pose proof (goc_spec uuidNew now vaultExists userExists ty v u ad "USDC" s Hb) as (? & ? & Hx).
    change (default_asset "USDC") with "USDC"%string.
    destruct (negb _); [done|].
    destruct (getOrCreateAccountTx _ _ _ _ _ _ _ _ _ s) as [[x|?] s']; simpl in *; [|done].
    destruct (io (S i)).2 as [|[]]; simpl; [|done..]. split_and!; [done..|]. destruct Hx. eauto.
  - intros es s Hb Hr. simpl. unfold PostEntries, mbind, M_bind, lift, own_tx.
    destruct (ValidateBalanced es) as [t|] eqn:Hv; [|by left]. simpl.
    apply ValidateBalanced_Ok in Hv as (_ & _ & Hs). destruct (negb _); [by left|].
    destruct (postEntriesTx uuidNew dbnow es s) as [[?|?] s'] eqn:Hp; [|by left].
    apply postEntriesTx_spec in Hp as [? ?]; [|done..]. destruct (io 0%nat).2 as [|[]]; simpl; [done|by right|by left].
Qed.

(** A role in the chart of accounts: type, vault, user, adapter. *)
Definition role : Type := string * option UUID * option UUID * option string.
Definition plays (r : role) (a : Account) : bool :=
  let '(ty, v, u, ad) := r in account_match ty v u ad "USDC" a.

(** The abstract effect of a movement on an account: the sum of the legs for
    the roles it plays. *)
Definition effect (legs : list (role * Z)) (a : Account) : Z :=
  foldr (λ l s, (if plays l.1 a then l.2 else 0) + s) 0 legs.

Definition legs_sum (legs : list (role * Z)) : Z := foldr (λ l s, l.2 + s) 0 legs.

(** All movements have this shape: resolve the accounts in order, draw a
    transaction id, post one entry per leg. *)
Fixpoint resolve (p : port) (i : nat) (rs : list role) : M (list UUID) :=
  match rs with
  | [] => mret []
  | (ty, v, u, ad) :: rs =>
      id ← account p i ty v u ad; ids ← resolve p (S i) rs; mret (id :: ids)
  end.

Definition nonzero (l : list (role * Z)) : list (role * Z) := List.filter (λ x, negb (x.2 =? 0)) l.

Definition move (legs : list (role * Z)) (drop0 : bool) (event eventID : string) (p : port) : M unit :=
  ids ← resolve p 0 legs.*1;
  txID ← newUUID uuidNew;
  let es := zip_with (λ id amount, leg txID id amount event eventID) ids legs.*2 in
  if drop0 then
    let filtered := List.filter (λ e, negb (Amount e =? 0)) es in
    if Z.of_nat (length filtered) <? 2 then mret tt else post p filtered
  else post p es.

Definition resolved (d : DB) (r : role) (id : UUID) : Prop :=
  ∃ a, accounts d !! id = Some a ∧ plays r a = true.

Lemma resolved_mono d d' r id : accounts d ⊆ accounts d' → resolved d r id → resolved d' r id.
Proof. intros Hs (a & Ha & Hp). exists a. split; [by eapply lookup_weaken|done]. Qed.

Lemma resolve_spec p E lost i rs s :
  port_spec p E lost → books (db s) →
  books (db (resolve p i rs s).2) ∧ opened (db s) (db (resolve p i rs s).2)
  ∧ match (resolve p i rs s).1 with
    | Ok ids => Forall2 (resolved (db (resolve p i rs s).2)) rs ids
    | Err _ => True
    end.
Proof.
  intros [Hacc _]. revert i s. induction rs as [|[[[ty v] u] ad] rs IH]; intros i s Hb.
  { simpl. split_and!; [done|done|constructor]. }
  simpl. unfold mbind, M_bind. destruct (Hacc i ty v u ad s Hb) as (Hb1 & Ho1 & Hx).
  destruct (account p i ty v u ad s) as [[id|?] s1]; simpl in *; [|done].
  destruct (IH (S i) s1 Hb1) as (Hb2 & Ho2 & Hx2).
  destruct (resolve p (S i) rs s1) as [[ids|?] s2]; simpl in *.
  - split_and!; [done|by etrans|]. constructor; [|done].
    eapply resolved_mono; [apply Ho2|exact Hx].
  - split_and!; [done|by etrans|done].
Qed.

(** The entries of resolved legs move each account by its effect. *)
Lemma legs_effect d txID event eventID legs ids id a :
  books d → Forall2 (resolved d) legs.*1 ids → accounts d !! id = Some a →
  amounts_on id (zip_with (λ id amount, leg txID id amount event eventID) ids legs.*2)
  = effect legs a.
Proof.
  intros Hb HF Ha. revert ids HF. induction legs as [|[r z] legs IH]; intros ids HF;
    apply Forall2_cons_inv_l in HF || apply Forall2_nil_inv_l in HF; [by subst|].
  destruct HF as (i & ids' & (b & Hl & Hp) & HF & ->). simpl in *. rewrite IH by done. f_equal.
  destruct (Z.eqb_spec i id) as [->|Hne].
  - rewrite Ha in Hl. injection Hl as <-. by rewrite Hp.
  - destruct (plays r a) eqn:Hpa; [|done]. destruct Hne. destruct r as [[[ty v] u] ad]. simpl in *.
    eapply bk_unique; [done..|]. exact (account_match_key _ _ _ _ _ _ _ Hp Hpa).
Qed.

Lemma legs_total txID event eventID (legs : list (role * Z)) ids :
  length ids = length legs →
  sum_amounts (zip_with (λ id amount, leg txID id amount event eventID) ids legs.*2) = legs_sum legs.
Proof.
  revert ids. induction legs as [|[r z] legs IH]; intros [|i ids] Hl; simpl in *; try lia.
  rewrite IH; lia.
Qed.

Lemma filter_legs txID event eventID (legs : list (role * Z)) ids d :
  Forall2 (resolved d) legs.*1 ids →
  ∃ ids', Forall2 (resolved d) (nonzero legs).*1 ids'
  ∧ List.filter (λ e, negb (Amount e =? 0))
      (zip_with (λ id amount, leg txID id amount event eventID) ids legs.*2)
    = zip_with (λ id amount, leg txID id amount event eventID) ids' (nonzero legs).*2.
Proof.
  revert ids. induction legs as [|[r z] legs IH]; intros ids HF; simpl in HF.
  - apply Forall2_nil_inv_l in HF as ->. by exists [].
  - apply Forall2_cons_inv_l in HF as (i & ids' & Hr & HF & ->).
    destruct (IH ids' HF) as (js & HJ & Heq). simpl. destruct (z =? 0); simpl; [by exists js|].
    exists (i :: js). split; [by constructor|]. simpl. f_equal. exact Heq.
Qed.

(** What a movement posts: all its legs, or the non-zero ones if there are
    two of them. *)
Definition posted_legs (legs : list (role * Z)) (drop0 : bool) : list (role * Z) :=
  if drop0 then
    if Z.of_nat (length (nonzero legs)) <? 2 then [] else nonzero legs
  else legs.
End Posting.

(** ** Totals *)

(** The balance of the accounts [f] selects. *)
Definition total (f : Account → bool) (d : DB) : Z :=
  msum (λ id a, if f a then balance_of d id else 0) (accounts d).

Lemma sum_balances_total f d : sum_balances f d = total f d.
Proof.
  unfold sum_balances, total, msum, join. induction (map_to_list (accounts d)) as [|[id a] l IH];
    simpl; [done|]. unfold balance_of at 1. destruct (balances d !! id) as [b|]; simpl.
  - f_equal. exact IH.
  - etrans; [exact IH|]. destruct (f a); done.
Qed.

Lemma first_balance_total r d : books d → first_balance (plays r) d = total (plays r) d.
Proof.
  intros Hb.
  assert (∀ id1 a1 id2 a2, accounts d !! id1 = Some a1 → accounts d !! id2 = Some a2 →
    plays r a1 = true → plays r a2 = true → id1 = id2) as Hu.
  { intros id1 a1 id2 a2 H1 H2 Hp1 Hp2. destruct r as [[[ty v] u] ad].
    eapply bk_unique; [exact Hb|exact H1|exact H2|]. exact (account_match_key _ _ _ _ _ _ _ Hp1 Hp2). }
  unfold first_balance.
  destruct (List.find _ _) as [[id [a b]]|] eqn:Hf; simpl.
  - apply List.find_some in Hf as [Hin Hp]. simpl in Hp.
    apply list_elem_of_In, list_elem_of_omap in Hin as ([id' a'] & Hin & Hb').
    apply elem_of_map_to_list in Hin. simpl in Hb'.
    destruct (balances d !! id') as [b'|] eqn:Hl; [|done]. simpl in Hb'. simplify_eq.
    unfold total. rewrite (msum_single _ _ id a Hin).
    + rewrite Hp. unfold balance_of. by rewrite Hl.
    + intros j y Hj Hne. destruct (plays r y) eqn:Hpy; [|done]. destruct Hne. by eapply Hu.
  - symmetry. apply msum_zero. intros id a Ha. destruct (plays r a) eqn:Hp; [|done].
    unfold balance_of. destruct (balances d !! id) as [b|] eqn:Hl; [|done]. exfalso.
    assert ((id, (a, b)) ∈ join d) as Hin.
    { apply list_elem_of_omap. exists (id, a). rewrite elem_of_map_to_list. simpl. by rewrite Hl. }
    apply list_elem_of_In in Hin. by apply (List.find_none _ _ Hf) in Hin; simpl in Hin; congruence.
Qed.

(** Legs move a total by the legs whose role it contains. *)
Definition legs_in (g : role → bool) (legs : list (role * Z)) : Z :=
  foldr (λ l s, (if g l.1 then l.2 else 0) + s) 0 legs.

Lemma total_effect f g legs d d' :
  books d → books d' → accounts d ⊆ accounts d' →
  (∀ id a, accounts d' !! id = Some a → balance_of d' id = balance_of d id + effect legs a) →
  Forall (λ l, ∃ id, resolved d' l.1 id) legs →
  (∀ r a, r ∈ legs.*1 → plays r a = true → f a = g r) →
  total f d' = total f d + legs_in g legs.
Proof.
  intros Hb Hb' Hsub Hbal Hres Hfg. unfold total.
  assert (msum (λ id a, if f a then balance_of d id else 0) (accounts d')
    = msum (λ id a, if f a then balance_of d id else 0) (accounts d)) as <-.
  { apply msum_subseteq; [done|]. intros id a Hn _. destruct (f a); [|done].
    unfold balance_of. destruct (balances d !! id) as [b|] eqn:Hl; [|done].
    destruct (bk_owner d Hb id) as [? ?]; [by rewrite Hl|congruence]. }
  assert (msum (λ (_ : UUID) a, if f a then effect legs a else 0) (accounts d') = legs_in g legs) as <-.
  { clear Hbal. induction legs as [|[r z] legs IH]; simpl.
    { apply msum_zero. intros. by destruct (f x). }
    apply Forall_cons in Hres as [(id & a & Ha & Hp) Hres]. simpl in Hp.
    rewrite <-IH; [|done|intros; apply Hfg; [simpl; by right|done]].
    assert (msum (λ (_ : UUID) b, if f b then if plays r b then z else 0 else 0) (accounts d')
      = if g r then z else 0) as <-.
    { rewrite (msum_single _ _ id a Ha); [rewrite Hp, (Hfg r a); [done|simpl; left|done]|].
      intros j y Hj Hne. destruct (plays r y) eqn:Hpy; [|by destruct (f y)]. destruct Hne.
      destruct r as [[[ty v] u] ad]. eapply bk_unique; [exact Hb'|exact Hj|exact Ha|].
      exact (account_match_key _ _ _ _ _ _ _ Hpy Hp). }
    rewrite <-msum_add. apply msum_ext. intros i x _. by destruct (f x). }
  rewrite <-msum_add. apply msum_ext. intros id a Ha. destruct (f a); [|done]. by apply Hbal.
Qed.

(** ** Movements on the books *)

Section Moves.
Context (uuidNew : nat → UUID) (now dbnow : Time) (vaultExists userExists : UUID → bool).

(** What a movement that returns nil did. *)
Definition moved (legs : list (role * Z)) (d d' : DB) : Prop :=
  books d' ∧ accounts d ⊆ accounts d' ∧ recons d' = recons d
  ∧ (∀ id a, accounts d' !! id = Some a → balance_of d' id = balance_of d id + effect legs a)
  ∧ sum_amounts (entries d') = sum_amounts (entries d) + legs_sum legs
  ∧ legs_sum legs `mod` 2 ^ 64 = 0
  ∧ Forall (λ l, ∃ id, resolved d' l.1 id) legs.

Lemma moved_nil d d' : books d' → opened d d' → moved [] d d'.
Proof.
  intros Hb (?&He&Hbal&?). split_and!; try done.
  - intros id a _. unfold balance_of. rewrite Hbal. simpl. lia.
  - rewrite He. simpl. lia.
Qed.

Lemma moved_post p E lost legs ids d txID event eventID s :
  port_spec p E lost → books d → books (db s) → opened d (db s) →
  Forall2 (resolved (db s)) legs.*1 ids → Forall in_i64 legs.*2 →
  match post p (zip_with (λ id amount, leg txID id amount event eventID) ids legs.*2) s with
  | (Ok _, s') => moved legs d (db s')
  | (Err _, s') => E (db s) (db s') ∨ lost ∧ moved legs d (db s')
  end.
Proof.
  intros [_ Hpost] Hbd Hb (Hsub & Hen & Hbl & Hrc) HF Hr.
  set (es := zip_with _ _ _).
  assert (Forall (in_i64 ∘ Amount) es) as Hres.
  { unfold es. clear es Hsub. revert ids HF. induction legs as [|[r z] legs IH]; intros [|i ids] HF; simpl;
      try done. apply Forall_cons in Hr as [? Hr].
    apply Forall2_cons in HF as [_ HF]. constructor; [done|]. apply IH; [done|exact HF]. }
  specialize (Hpost es s Hb Hres). destruct (post p es s) as [o s'].
  enough (books (db s') ∧ posted es (db s) (db s') ∧ sum_amounts es `mod` 2 ^ 64 = 0 → moved legs d (db s')) as Hmv.
  { destruct o; [by apply Hmv|]. destruct Hpost as [?|[? ?]]; [by left|right; auto]. }
  clear Hpost. intros (Hb' & Hp & Hm). pose proof (posted_amounts es _ _ Hp) as [Hs Ha].
  destruct Hp as (Hacc & Hrec & _).
  assert (length ids = length legs) as Hlen by (apply Forall2_length in HF; by rewrite length_fmap in HF).
  assert (sum_amounts es = legs_sum legs) as Hes by (by apply legs_total).
  split_and!; [done|by rewrite Hacc|congruence| |by rewrite Hs, Hen, Hes|by rewrite <-Hes|].
  - intros id a Hl. rewrite (bk_cache _ Hb'), Ha. unfold es.
    rewrite (legs_effect (db s) txID event eventID legs ids id a) by (done || by rewrite <-Hacc).
    rewrite <-(bk_cache _ Hb). unfold balance_of. by rewrite Hbl.
  - clear -HF Hacc. revert ids HF. induction legs as [|[r z] legs IH]; intros [|i ids] HF;
      [by constructor|by inversion HF|by inversion HF|].
    apply Forall2_cons in HF as [Hi HF]. constructor; [|by eapply IH].
    exists i. unfold resolved in *. by rewrite Hacc.
Qed.

Lemma nonzero_range legs : Forall in_i64 legs.*2 → Forall in_i64 (nonzero legs).*2.
Proof.
  induction legs as [|[r z] legs IH]; [done|]. intros [? ?]%Forall_cons. unfold nonzero. simpl.
  destruct (z =? 0); simpl; [|constructor; [done|]]; by apply IH.
Qed.

Lemma move_spec p E lost legs drop0 event eventID s :
  port_spec p E lost → books (db s) → Forall in_i64 legs.*2 →
  match move uuidNew legs drop0 event eventID p s with
  | (Ok _, s') => moved (posted_legs legs drop0) (db s) (db s')
  | (Err _, s') => books (db s') ∧ opened (db s) (db s')
                   ∨ (∃ d, books d ∧ opened (db s) d ∧ E d (db s'))
                   ∨ lost ∧ moved (posted_legs legs drop0) (db s) (db s')
  end.
Proof.
  intros Hp Hb Hr. unfold move, mbind, M_bind.
  destruct (resolve_spec p E lost 0 legs.*1 s Hp Hb) as (Hb1 & Ho1 & HF).
  destruct (resolve p 0 legs.*1 s) as [[ids|?] s1]; simpl in *; [|by left].
  remember (mkSession (db s1) (S (drawn s1))) as s2 eqn:Hs2.
  assert (db s1 = db s2) as Heq by (by subst s2). rewrite Heq in *. clear Hs2.
  set (txID := uuidNew _). destruct drop0; unfold posted_legs.
  - destruct (filter_legs txID event eventID legs ids (db s2) HF) as (ids' & HF' & ->).
    rewrite length_zip_with_l_eq, <-(length_fmap snd (nonzero legs)).
    2:{ apply Forall2_length in HF'. by rewrite !length_fmap in *. }
    assert (length ids' = length (nonzero legs)) as Hlen
      by (apply Forall2_length in HF'; by rewrite length_fmap in HF').
    rewrite length_fmap, Hlen. destruct (_ <? _); [by apply moved_nil|].
    pose proof (moved_post p E lost (nonzero legs) ids' (db s) txID event eventID s2 Hp Hb Hb1 Ho1 HF'
      (nonzero_range legs Hr)) as Hm.
    destruct (post p _ s2) as [[?|?] s3]; [done|]. right. destruct Hm; eauto.
  - pose proof (moved_post p E lost legs ids (db s) txID event eventID s2 Hp Hb Hb1 Ho1 HF Hr) as Hm.
    destruct (post p _ s2) as [[?|?] s3]; [done|]. right. destruct Hm; eauto.
Qed.

(** The answer to the commit of the movement was lost. *)
Definition lost_answer (m : txMode) : Prop :=
  match m with
  | CallerTx => False
  | OwnTx _ d => d = DBFail true
  | Direct io => (io 0%nat).2 = DBFail true
  end.

(** A movement in each of its modes: an error leaves the books as they were but for
    accounts opened, except in the caller's transaction and where an answer was
    lost. *)
Lemma in_mode_spec m legs drop0 event eventID (body : port → M unit) s :
  (∀ p s, body p s = move uuidNew legs drop0 event eventID p s) →
  books (db s) → Forall in_i64 legs.*2 →
  match in_mode uuidNew now dbnow vaultExists userExists m body s with
  | (Ok _, s') => moved (posted_legs legs drop0) (db s) (db s')
  | (Err _, s') =>
      m ≠ CallerTx → books (db s') ∧ opened (db s) (db s')
                     ∨ lost_answer m ∧ moved (posted_legs legs drop0) (db s) (db s')
  end.
Proof.
  intros Hbody Hb Hr. destruct m as [|beginOk d|io]; simpl.
  - rewrite Hbody. pose proof (move_spec _ _ _ legs drop0 event eventID s
      (port_tx_spec uuidNew now dbnow vaultExists userExists) Hb Hr) as Hm.
    destruct (move _ _ _ _ _ _ s) as [[?|?] s']; [done|]. by intros [].
  - unfold own_tx. destruct (negb beginOk); [by left|]. rewrite Hbody.
    pose proof (move_spec _ _ _ legs drop0 event eventID s
      (port_tx_spec uuidNew now dbnow vaultExists userExists) Hb Hr) as Hm.
    destruct (move _ _ _ _ _ _ s) as [[?|?] s']; [|by left]. destruct d as [|[]]; [done|by right|by left].
  - rewrite Hbody. pose proof (move_spec _ _ _ legs drop0 event eventID s
      (port_direct_spec uuidNew now dbnow vaultExists userExists io) Hb Hr) as Hm.
    destruct (move _ _ _ _ _ _ s) as [[?|?] s']; [done|]. intros _.
    destruct Hm as [Hm|[(d & Hd & Ho & <-)|Hm]]; [by left|by left|by right].
Qed.
End Moves.

(** ** The four movements *)

Definition r_user (vault user : UUID) : role :=
  (AccountTypeUserVaultPosition, Some vault, Some user, None).
Definition r_pool (vault : UUID) : role := (AccountTypeVaultAssetPool, Some vault, None, None).
Definition r_suspense : role := (AccountTypeSystemSuspense, None, None, None).
Definition r_fee : role := (AccountTypeFee, None, None, None).
Definition r_yield (adapter : string) : role := (AccountTypeYieldSource, None, None, Some adapter).

Section Service.
Context (uuidNew : nat → UUID) (now dbnow : Time) (vaultExists userExists : UUID → bool).
Context {D : Type} `{!Decimal D}.

(** What a client asks of the service. *)
Inductive request :=
| RDeposit (vault user : UUID) (amount : D) (eventID : string)
| RWithdrawal (vault user : UUID) (amount : D) (eventID : string)
| RHarvest (vault user : UUID) (net fee gross : D) (adapter eventID : string)
| RRebalance (vault : UUID) (fromAdapter toAdapter : string) (amount : D) (eventID : string).

Definition serve (m : txMode) (r : request) : M unit :=
  match r with
  | RDeposit v u a ev => PostDeposit uuidNew now dbnow vaultExists userExists m v u a ev
  | RWithdrawal v u a ev => PostWithdrawal uuidNew now dbnow vaultExists userExists m v u a ev
  | RHarvest v u n f g ad ev => PostHarvest uuidNew now dbnow vaultExists userExists m v u n f g ad ev
  | RRebalance v from to a ev =>
      PostRebalance uuidNew now dbnow vaultExists userExists m v from to a ev
  end.

Definition stroops (a : D) : Z := d_intpart (d_round 0 (d_mul a (d_of_Z 10000000))).

(** The legs of a request in exact arithmetic. *)
Definition legs_of (r : request) : list (role * Z) :=
  match r with
  | RDeposit v u a _ =>
      [(r_user v u, stroops a); (r_pool v, stroops a); (r_suspense, -2 * stroops a)]
  | RWithdrawal v u a _ =>
      [(r_user v u, - stroops a); (r_pool v, - stroops a); (r_suspense, 2 * stroops a)]
  | RHarvest v u n f g ad _ =>
      [(r_pool v, stroops n); (r_user v u, stroops n); (r_fee, stroops f);
       (r_yield ad, - stroops g); (r_suspense, - stroops n)]
  | RRebalance _ from to a _ => [(r_yield from, - stroops a); (r_yield to, stroops a)]
  end.

(** A harvest drops its zero legs. *)
Definition drops_zero (r : request) : bool :=
  match r with RHarvest _ _ _ _ _ _ _ => true | _ => false end.

Definition booked_legs (r : request) : list (role * Z) := posted_legs (legs_of r) (drops_zero r).

(** Amounts below 2^61 stroops, 230 billion USDC. *)
Definition small (a : D) : Prop := Z.abs (stroops a) < 2 ^ 61.
Definition small_request (r : request) : Prop :=
  match r with
  | RDeposit _ _ a _ | RWithdrawal _ _ a _ | RRebalance _ _ _ a _ => small a
  | RHarvest _ _ n f g _ _ => small n ∧ small f ∧ small g
  end.

Ltac open_move :=
  intros; unfold move; simpl; unfold mbind, M_bind;
  repeat match goal with
  | |- context [account ?p ?i ?ty ?v ?u ?ad ?s] => destruct (account p i ty v u ad s) as [[?|?] ?]
  end; simpl; try reflexivity.

Lemma postDeposit_move v u z ev p s :
  postDeposit uuidNew v u z ev p s
  = move uuidNew [(r_user v u, z); (r_pool v, z); (r_suspense, i64 (-2 * z))] false "deposit" ev p s.
Proof. unfold postDeposit. open_move. Qed.

Lemma postWithdrawal_move v u z ev p s :
  postWithdrawal uuidNew v u z ev p s
  = move uuidNew [(r_user v u, i64 (- z)); (r_pool v, i64 (- z)); (r_suspense, i64 (2 * z))] false
      "withdraw" ev p s.
Proof. unfold postWithdrawal. open_move. Qed.

Lemma postHarvest_move v u n f g ad ev p s :
  postHarvest uuidNew v u n f g ad ev p s
  = move uuidNew [(r_pool v, n); (r_user v u, n); (r_fee, f); (r_yield ad, i64 (- g));
      (r_suspense, i64 (- n))] true "harvest" ev p s.
Proof. unfold postHarvest. open_move. Qed.

Lemma postRebalance_move v from to z ev p s :
  postRebalance uuidNew v from to z ev p s
  = move uuidNew [(r_yield from, i64 (- z)); (r_yield to, z)] false "rebalance" ev p s.
Proof. unfold postRebalance. open_move. Qed.

Context `{!DecimalLaws D}.

Lemma small_i64 a k : small a → Z.abs k ≤ 2 → i64 (k * stroops a) = k * stroops a.
Proof. unfold small. intros Ha Hk. apply i64_id. unfold in_i64, min_i64, max_i64. nia. Qed.

Lemma small_neg a : small a → i64 (- stroops a) = - stroops a.
Proof. intros Ha. replace (- stroops a) with (-1 * stroops a) by lia. by apply small_i64. Qed.

Lemma small_range a k : small a → Z.abs k ≤ 2 → in_i64 (k * stroops a).
Proof. intros Ha Hk. rewrite <-small_i64 by done. apply i64_range. Qed.

Lemma stroops_range a : in_i64 (stroops a).
Proof. apply d_intpart_range. Qed.

Lemma legs_range r : small_request r → Forall in_i64 (legs_of r).*2.
Proof.
  intros Hs. destruct r; simpl in *; try destruct Hs as (?&?&?);
    repeat (apply Forall_cons_2 || apply Forall_nil_2).
  all: try apply stroops_range; try (by apply small_range).
  all: rewrite <-small_neg by done; apply i64_range.
Qed.

(** A request moves the books by its legs, in every mode. *)
Lemma serve_spec m r s :
  books (db s) → small_request r →
  match serve m r s with
  | (Ok _, s') => moved (booked_legs r) (db s) (db s')
  | (Err _, s') =>
      m ≠ CallerTx → books (db s') ∧ opened (db s) (db s') ∨ lost_answer m ∧ moved (booked_legs r) (db s) (db s')
  end.
Proof.
  intros Hb Hs. pose proof (legs_range r Hs) as Hr. unfold booked_legs.
  destruct r as [v u a ev|v u a ev|v u n f g ad ev|v from to a ev]; simpl in Hs.
  - unfold serve, PostDeposit, decimalToStroops, mbind, M_bind, lift. fold (stroops a).
    destruct (_ <=? 0); [by left|]. apply in_mode_spec with "deposit"%string ev; [|done..].
    intros p s1. rewrite postDeposit_move, small_i64; done.
  - unfold serve, PostWithdrawal, decimalToStroops, mbind, M_bind, lift. fold (stroops a).
    destruct (_ <=? 0); [by left|]. apply in_mode_spec with "withdraw"%string ev; [|done..].
    intros p s1. rewrite postWithdrawal_move, small_i64, small_neg; done.
  - unfold serve, PostHarvest, decimalToStroops, mbind, M_bind, lift.
    fold (stroops n) (stroops f) (stroops g). destruct Hs as (?&?&?).
    apply in_mode_spec with "harvest"%string ev; [|done..].
    intros p s1. rewrite postHarvest_move, !small_neg; done.
  - unfold serve, PostRebalance, decimalToStroops, mbind, M_bind, lift. fold (stroops a).
    destruct (_ <=? 0); [by left|]. case_decide; [by left|].
    apply in_mode_spec with "rebalance"%string ev; [|done..].
    intros p s1. rewrite postRebalance_move, small_neg; done.
Qed.

Lemma nonzero_sum l : legs_sum (nonzero l) = legs_sum l.
Proof.
  unfold nonzero. induction l as [|[r z] l IH]; [done|]. simpl.
  destruct (Z.eqb_spec z 0); simpl in *; lia.
Qed.

(** Small legs that sum to zero modulo 2^64 sum to zero. *)
Lemma booked_sum r :
  small_request r → legs_sum (booked_legs r) `mod` 2 ^ 64 = 0 → legs_sum (booked_legs r) = 0.
Proof.
  intros Hs. unfold booked_legs, posted_legs.
  assert (Z.abs (legs_sum (legs_of r)) < 2 ^ 64) as Hb.
  { destruct r; simpl in *; unfold small in *; lia. }
  destruct (drops_zero r); [destruct (_ <? _); [done|rewrite nonzero_sum]|]; intros; go_mod.
Qed.

(** C1: every movement implements its double-entry specification.  On success
    the legs sum to exactly zero and each account in the books has moved by
    the legs of the roles it plays, all other accounts by nothing; the books
    stay well formed (unique entries and accounts, cached balances equal to
    the sums of entries).  On an error, whether the service opened the
    transaction or went through the repository, entries and balances are
    untouched, unless the commit took effect and only its answer was lost: then
    the whole movement is booked as on success. *)
Theorem ledger_refines_movements m r s res s' :
  books (db s) → small_request r → serve m r s = (res, s') →
  let untouched := entries (db s') = entries (db s) ∧ balances (db s') = balances (db s) in
  let booked :=
    legs_sum (booked_legs r) = 0
    ∧ ∀ id a, accounts (db s') !! id = Some a →
        balance_of (db s') id = balance_of (db s) id + effect (booked_legs r) a in
  match res with
  | Ok _ => books (db s') ∧ booked
  | Err _ => m ≠ CallerTx → books (db s') ∧ (untouched ∨ lost_answer m ∧ booked)
  end.
Proof.
  intros Hb Hs Hr untouched booked. pose proof (serve_spec m r s Hb Hs) as Hspec. rewrite Hr in Hspec.
  assert (moved (booked_legs r) (db s) (db s') → books (db s') ∧ booked) as Hmv.
  { intros (? & _ & _ & ? & _ & Hmod & _). split; [done|]. split; [by apply booked_sum|done]. }
  destruct res as [u|e]; [by apply Hmv|]. intros Hm.
  destruct (Hspec Hm) as [[? (_ & ? & ? & _)]|[? [? ?]%Hmv]]; (split; [done|]); [by left|by right].
Qed.

(** ** Histories of the books *)

(** One call; a caller that opened the transaction rolls it back on error. *)
Definition call (s : Session) (c : txMode * request) : Session :=
  match serve c.1 c.2 s with
  | (Ok _, s') => s'
  | (Err _, s') => match c.1 with CallerTx => mkSession (db s) (drawn s') | _ => s' end
  end.

Definition is_position (vault : UUID) (a : Account) : bool :=
  bool_decide (AccountType a = AccountTypeUserVaultPosition) && sql_eq (VaultID a) (Some vault).

Record consistent (d : DB) : Prop := {
  con_books : books d;
  con_zero : sum_amounts (entries d) = 0;
  con_pool vault : total (is_position vault) d = total (plays (r_pool vault)) d;
}.

Lemma total_opened f d d' : books d → opened d d' → total f d' = total f d.
Proof.
  intros Hb (Hsub & _ & Hbal & _). unfold total, balance_of. rewrite Hbal.
  apply msum_subseteq; [done|]. intros id a Hn _. destruct (f a); [|done].
  destruct (balances d !! id) as [b|] eqn:Hl; [|done].
  destruct (bk_owner d Hb id) as [? ?]; [by rewrite Hl|congruence].
Qed.

(** Which roles are positions of a vault, and which its pool. *)
Definition role_position (vault : UUID) (r : role) : bool :=
  let '(ty, v, _, _) := r in bool_decide (ty = AccountTypeUserVaultPosition) && sql_eq v (Some vault).
Definition role_pool (vault : UUID) (r : role) : bool :=
  let '(ty, v, _, _) := r in bool_decide (ty = AccountTypeVaultAssetPool) && sql_eq v (Some vault).

Lemma plays_position vault r a :
  plays r a = true → role_position vault r = is_position vault a.
Proof.
  destruct r as [[[ty v] u] ad]. unfold plays, account_match, role_position, is_position.
  intros H. go_bool. subst ty. case_bool_decide as Ht; [|done]. simpl.
  rewrite decide_True in H0 by done. apply andb_true_iff in H0 as [H0 _].
  by apply sql_eq_true in H0 as (x & -> & ->).
Qed.

Lemma plays_pool vault r a :
  plays r a = true → role_pool vault r = plays (r_pool vault) a.
Proof.
  destruct r as [[[ty v] u] ad]. unfold plays, r_pool, account_match, role_pool.
  intros H. go_bool. subst ty. rewrite H1. simpl.
  case_bool_decide as Ht; simpl; [|done]. rewrite Ht in H0.
  rewrite decide_False, decide_True in H0 by (done || by left).
  by apply sql_eq_true in H0 as (x & -> & ->).
Qed.

(** Every request credits the pool of a vault and its positions alike. *)
Lemma legs_in_nonzero g l : legs_in g (nonzero l) = legs_in g l.
Proof.
  unfold nonzero. induction l as [|[r z] l IH]; [done|]. simpl.
  destruct (Z.eqb_spec z 0); simpl in *; destruct (g r); lia.
Qed.

Lemma booked_pool vault r :
  legs_in (role_position vault) (booked_legs r) = legs_in (role_pool vault) (booked_legs r).
Proof.
  unfold booked_legs, posted_legs.
  assert (legs_in (role_position vault) (legs_of r) = legs_in (role_pool vault) (legs_of r)) as H.
  { destruct r; unfold legs_in; simpl; repeat case_bool_decide; simpl; try done; lia. }
  destruct (drops_zero r); [destruct (_ <? _); [done|by rewrite !legs_in_nonzero]|done].
Qed.

Lemma moved_consistent r d d' : small_request r → consistent d → moved (booked_legs r) d d' → consistent d'.
Proof.
  intros Hs [Hb Hz Hp] (Hb' & Hsub & _ & Hbal & Hsum & Hmod & Hres). split; [done| |].
  - rewrite Hsum, Hz, booked_sum; done.
  - intros vault.
    assert (total (is_position vault) d'
      = total (is_position vault) d + legs_in (role_position vault) (booked_legs r)) as ->.
    { apply total_effect; try assumption. intros r' a _ Hpl. symmetry. by apply plays_position. }
    assert (total (plays (r_pool vault)) d'
      = total (plays (r_pool vault)) d + legs_in (role_pool vault) (booked_legs r)) as ->.
    { apply total_effect; try assumption. intros r' a _ Hpl. symmetry. by apply plays_pool. }
    by rewrite Hp, booked_pool.
Qed.

Lemma call_consistent s c :
  small_request c.2 → consistent (db s) → consistent (db (call s c)).
Proof.
  destruct c as [m r]. simpl. intros Hs Hc. unfold call. simpl.
  pose proof (serve_spec m r s (con_books _ Hc) Hs) as Hspec. destruct (serve m r s) as [[u|e] s'].
  - by apply (moved_consistent r (db s)).
  - assert (m ≠ CallerTx → consistent (db s')) as Hc'.
    { intros Hm. destruct (Hspec Hm) as [[Hb' Ho]|[_ Hmv]]; [|by apply (moved_consistent r (db s))].
      pose proof Ho as (_ & He & _). destruct Hc as [Hb Hz Hp]. split; [done| |].
      - by rewrite He.
      - intros vault. by rewrite !(total_opened _ _ _ Hb Ho). }
    destruct m; [done|by apply Hc'..].
Qed.

Lemma recompute_clean d ids : books d → recompute d ids = Ok [].
Proof.
  intros Hb. induction ids as [|id ids IH]; simpl; [done|].
  rewrite <-(bk_cache d Hb), scan_i64_in by apply (bk_range d Hb).
  rewrite IH. simpl. by rewrite Z.eqb_refl.
Qed.

(** C2: after any history of deposits, withdrawals, harvests and rebalances,
    failed ones included, the books balance, the recomputation of every
    balance from the entries finds no mismatch, and the pool balance of every
    vault equals the sum of its users' positions. *)
Theorem ledger_books_consistent calls s :
  consistent (db s) → Forall (λ c, small_request c.2) calls →
  let s' := foldl call s calls in
  (ValidateBooks s').1 = Ok tt
  ∧ (VerifyBalances s').1 = Ok []
  ∧ ∀ vault, (SumUserPositionBalances vault s').1 = (GetVaultPoolBalance vault s').1.
Proof.
  intros Hc Hs s'. assert (consistent (db s')) as [Hb Hz Hp].
  { subst s'. revert s Hc. induction Hs as [|c calls Hc' Hs IH]; intros s Hc; simpl; [done|].
    by apply IH, call_consistent. }
  split_and!.
  - unfold ValidateBooks, SumAllEntries, gets, mbind, M_bind. by rewrite Hz.
  - unfold VerifyBalances, RecomputeBalances, gets. simpl. by apply recompute_clean.
  - intros vault. unfold SumUserPositionBalances, GetVaultPoolBalance, gets. simpl.
    pose proof (first_balance_total (r_pool vault) (db s') Hb) as Hf. simpl in Hf.
    fold (is_position vault). rewrite sum_balances_total, Hp.
    change (first_balance (account_match AccountTypeVaultAssetPool (Some vault) None None "USDC")
      (db s')) with (first_balance (plays (r_pool vault)) (db s')) in *. rewrite <-Hf.
    apply scan_i64_in. unfold first_balance.
    destruct (List.find _ _) as [[id [a b]]|] eqn:Hfind; [|done]. simpl.
    apply List.find_some in Hfind as [Hin _].
    apply list_elem_of_In, list_elem_of_omap in Hin as ([id' a'] & _ & Hl). simpl in Hl.
    destruct (balances (db s') !! id') as [b'|] eqn:Hb'; [|done]. simplify_eq/=.
    pose proof (bk_range _ Hb id) as Hrange. unfold balance_of in Hrange. by rewrite Hb' in Hrange.
Qed.

(** The sums of a posting are int64 sums.  A deposit of more than 2^62
    stroops wraps its suspense leg to a positive amount; the three legs pass
    validation, and committing them moves the books off balance by 2^64. *)
Theorem ledger_deposit_overflow m v u a ev s s' :
  books (db s) → 2 ^ 62 < stroops a →
  PostDeposit uuidNew now dbnow vaultExists userExists m v u a ev s = (Ok tt, s') →
  sum_amounts (entries (db s')) = sum_amounts (entries (db s)) + 2 ^ 64
  ∧ ∀ id acc, accounts (db s') !! id = Some acc → plays r_suspense acc = true →
      balance_of (db s) id < balance_of (db s') id.
Proof.
  intros Hb Ha. unfold PostDeposit, decimalToStroops, mbind, M_bind, lift. fold (stroops a).
  destruct (Z.leb_spec (stroops a) 0); [done|]. intros Hp.
  pose proof (stroops_range a) as Hr. unfold in_i64, min_i64, max_i64 in Hr.
  assert (i64 (-2 * stroops a) = 2 ^ 64 - 2 * stroops a) as Hi by (unfold i64; go_mod).
  pose proof (in_mode_spec uuidNew now dbnow vaultExists userExists m
    [(r_user v u, stroops a); (r_pool v, stroops a); (r_suspense, 2 ^ 64 - 2 * stroops a)] false
    "deposit" ev (postDeposit uuidNew v u (stroops a) ev) s) as Hspec.
  rewrite Hp in Hspec. destruct Hspec as (_ & _ & _ & Hbal & Hsum & _).
  - intros p s1. by rewrite postDeposit_move, Hi.
  - done.
  - repeat (apply Forall_cons_2 || apply Forall_nil_2); try apply stroops_range.
    simpl. rewrite <-Hi. apply i64_range.
  - split; [rewrite Hsum; simpl; lia|]. intros id acc Hacc Hpl. rewrite (Hbal id acc Hacc).
    assert (plays (r_user v u) acc = false ∧ plays (r_pool v) acc = false) as [Hu Hq].
    { unfold plays, r_suspense, account_match in Hpl. go_bool. unfold plays, account_match. simpl.
      by rewrite H0. }
    unfold posted_legs. cbn [effect foldr fst snd]. rewrite Hu, Hq, Hpl. lia.
Qed.
End Service.

(** ** Requests that succeed *)

Section Progress.
Context (uuidNew : nat → UUID) (now dbnow : Time) (vaultExists userExists : UUID → bool).

(** The ids still to be drawn are new, and no account has the nil id. *)
Record ready (s : Session) : Prop := {
  rd_new n : (drawn s ≤ n)%nat →
    uuidNew n ≠ uuid_Nil ∧ accounts (db s) !! uuidNew n = None
    ∧ uuidNew n ∉ EntryID <$> entries (db s);
  rd_inj n k : (drawn s ≤ n < k)%nat → uuidNew n ≠ uuidNew k;
  rd_nil : accounts (db s) !! uuid_Nil = None;
}.

Lemma ready_draw s : ready s → ready (mkSession (db s) (S (drawn s))).
Proof.
  intros [H1 H2 H3]. split; simpl; [|intros n k ?; apply H2; lia|done]. intros n ?. apply H1. lia.
Qed.

(** A row that the last id drawn keys leaves the session ready. *)
Lemma ready_insert s d :
  ready s → accounts d ⊆ <[uuidNew (drawn s) := default (mkAccount "" None None None "" "" "" 0 0)
    (accounts d !! uuidNew (drawn s))]> (accounts (db s)) →
  (∀ i, i ∈ EntryID <$> entries d → i ∈ EntryID <$> entries (db s) ∨ i = uuidNew (drawn s)) →
  ready (mkSession d (S (drawn s))).
Proof.
  intros Hrd Ha He. assert (∀ i, i ≠ uuidNew (drawn s) → accounts (db s) !! i = None →
    accounts d !! i = None) as Hnone.
  { intros i Hi Hn. apply eq_None_not_Some. intros [a Hl]. apply (lookup_weaken _ _ _ _ Hl) in Ha.
    by rewrite lookup_insert_ne, Hn in Ha by done. }
  destruct Hrd as [H1 H2 H3]. split; simpl.
  - intros n Hn. destruct (H1 n) as (? & ? & ?); [lia|].
    pose proof (H2 (drawn s) n ltac:(lia)). split_and!; [done|apply Hnone; by auto|].
    intros [?|?]%He; [done|auto].
  - intros n k ?. apply H2. lia.
  - apply Hnone; [|done]. destruct (H1 (drawn s)) as [? _]; [lia|auto].
Qed.

(** A role whose account can be opened. *)
Definition role_ok (r : role) : Prop :=
  let '(ty, v, u, ad) := r in
  required_key ty v u ad = Ok tt ∧ references vaultExists v = true ∧ references userExists u = true.

Lemma required_self ty v u ad asset unit desc t1 t2 :
  required_key ty v u ad = Ok tt →
  account_match ty v u ad asset (mkAccount ty v u ad asset unit desc t1 t2) = true.
Proof.
  unfold required_key, account_match. simpl.
  rewrite (bool_decide_true (ty = ty)), (bool_decide_true (asset = asset)) by done. simpl.
  assert (∀ A `{EqDecision A} (x : option A), is_Some x → sql_eq x x = true) as Hs
    by (intros A ? x [y ->]; simpl; by rewrite bool_decide_true).
  repeat case_decide; rewrite ?guard_err_Ok; intros Hr; go_bool;
    [by rewrite !Hs|by rewrite Hs| | |done..].
  all: apply Hs; destruct ad; [eauto|]; destruct Hr; by left.
Qed.

Lemma goc_ok ty v u ad asset s :
  ready s → required_key ty v u ad = Ok tt →
  references vaultExists v = true → references userExists u = true →
  ∃ x s', getOrCreateAccountTx uuidNew now vaultExists userExists ty v u ad asset s = (Ok x, s')
    ∧ ready s'.
Proof.
  intros Hrd Hreq Hv Hu. unfold getOrCreateAccountTx, mbind, M_bind, lift, gets, newUUID. rewrite Hreq.
  destruct (select_account ty v u ad asset (db s)) as [x|] eqn:Hs; [by exists x, s|].
  set (a := mkAccount _ _ _ _ _ _ _ _ _). set (id := uuidNew (drawn s)).
  unfold insert_account. cbn [db drawn].
  destruct (rd_new s Hrd (drawn s)) as (_ & Hnone & _); [lia|].
  fold id in Hnone. rewrite bool_decide_false by (rewrite Hnone; by intros []). simpl orb.
  destruct (existsb _ _) eqn:Hex.
  { apply existsb_exists in Hex as ([i b] & Hin & Hm). exfalso.
    apply list_elem_of_In, elem_of_map_to_list in Hin. simpl in Hm.
    by rewrite (select_account_None _ _ _ _ _ _ Hs i b Hin) in Hm. }
  simpl VaultID. simpl UserID. rewrite Hv, Hu. simpl.
  destruct (select_account ty v u ad asset (with_accounts <[id := a]> (db s))) as [x|] eqn:Hs2.
  - exists x. eexists. split; [reflexivity|]. apply ready_insert; [done| |by left].
    simpl. fold id. by rewrite lookup_insert_eq.
  - pose proof (select_account_None _ _ _ _ _ _ Hs2 id a) as Hno.
    unfold a in Hno. rewrite (required_self ty v u ad asset) in Hno by done.
    discriminate Hno. simpl. apply lookup_insert_eq.
Qed.

(** Total size of the entries, for the room in the balances. *)
Definition volume (zs : list Z) : Z := foldr (λ z s, Z.abs z + s) 0 zs.

Lemma volume_nonneg zs : 0 ≤ volume zs.
Proof. induction zs; simpl; lia. Qed.

Lemma post_entry_ok e s :
  ready s → EntryID e = uuid_Nil → Direction e = DirectionFromAmount (Amount e) → Amount e ≠ 0 →
  is_Some (accounts (db s) !! AccountID e) →
  in_i64 (balance_of (db s) (AccountID e) + Amount e) →
  ∃ s', post_entry uuidNew dbnow e s = (Ok tt, s') ∧ ready s' ∧ accounts (db s') = accounts (db s)
    ∧ ∀ id, Z.abs (balance_of (db s') id) ≤ Z.abs (balance_of (db s) id) + Z.abs (Amount e).
Proof.
  intros Hrd Hid Hdir Hz Hacc Hroom. unfold post_entry, mbind, M_bind, newUUID. rewrite Hid. simpl.
  destruct (rd_new s Hrd (drawn s)) as (Hnil & _ & Hnew); [lia|].
  assert (Direction e = "debit"%string ∨ Direction e = "credit"%string) as Hd
    by (rewrite Hdir; unfold DirectionFromAmount; destruct (0 <=? _); auto).
  rewrite decide_False by (destruct Hd as [-> | ->]; done).
  set (e' := mkEntry _ _ _ _ _ _ _ _ _ _). unfold insert_entry. cbn [db drawn].
  rewrite bool_decide_false by exact Hnew. rewrite (proj2 (Z.eqb_neq (Amount e') 0)) by exact Hz.
  rewrite (bool_decide_true (_ ∨ _)) by exact Hd. rewrite bool_decide_true by exact Hacc.
  simpl negb. simpl orb. cbv iota. unfold upsert_balance. cbn [db drawn balances accounts entries].
  change (AccountID e') with (AccountID e). change (Amount e') with (Amount e).
  assert (∀ b, bal b = balance_of (db s) (AccountID e) + Amount e →
    let d := mkDB (accounts (db s)) (entries (db s) ++ [e']) (<[AccountID e := b]> (balances (db s)))
               (recons (db s)) in
    ready (mkSession d (S (drawn s)))
    ∧ ∀ id, Z.abs (balance_of d id) ≤ Z.abs (balance_of (db s) id) + Z.abs (Amount e)) as Hok.
  { intros b Hb d. split.
    - apply ready_insert; [done|apply insert_subseteq; apply (rd_new s Hrd); lia|].
      intros i. unfold d. cbn [entries]. rewrite fmap_app. intros [?|Hi]%elem_of_app; [by left|].
      apply list_elem_of_singleton in Hi. by right.
    - intros id. unfold d. rewrite balance_of_insert. case_decide; subst; lia. }
  unfold balance_of in Hok, Hroom. destruct (balances (db s) !! AccountID e) as [b|]; simpl in Hroom, Hok.
  - unfold scan_i64. destruct Hroom as [Hlo Hhi].
    rewrite (proj2 (Z.leb_le _ _) Hlo), (proj2 (Z.leb_le _ _) Hhi). simpl.
    eexists. split; [reflexivity|]. specialize (Hok (mkBalance (bal b + Amount e) (bal_asset b)
      (bal_unit b) dbnow (Version b + 1)) eq_refl) as [? ?]. done.
  - eexists. split; [reflexivity|].
    specialize (Hok (mkBalance (Amount e) (EntryAsset e') (EntryUnit e') dbnow 1) eq_refl) as [? ?]. done.
Qed.

(** An entry as the movements make them. *)
Definition leg_ok (d : DB) (e : Entry) : Prop :=
  EntryID e = uuid_Nil ∧ Direction e = DirectionFromAmount (Amount e)
  ∧ is_Some (accounts d !! AccountID e).

Lemma postEntriesTx_ok es s :
  ready s → Forall (λ e, leg_ok (db s) e ∧ Amount e ≠ 0) es →
  (∀ id, Z.abs (balance_of (db s) id) + volume (Amount <$> es) ≤ max_i64) →
  ∃ s', postEntriesTx uuidNew dbnow es s = (Ok tt, s') ∧ ready s'.
Proof.
  revert s. induction es as [|e es IH]; intros s Hrd HF Hroom; [by exists s|].
  apply Forall_cons in HF as [[(Hid & Hdir & Hacc) Hz] HF].
  pose proof (volume_nonneg (Amount <$> es)) as Hv.
  change (∀ id, Z.abs (balance_of (db s) id) + (Z.abs (Amount e) + volume (Amount <$> es)) ≤ max_i64)
    in Hroom.
  destruct (post_entry_ok e s) as (s1 & He & Hrd1 & Hac & Hbal); try done.
  { specialize (Hroom (AccountID e)). unfold in_i64, min_i64, max_i64 in *. lia. }
  destruct (IH s1 Hrd1) as (s2 & Hes & ?).
  - eapply Forall_impl; [exact HF|]. intros e0 [(?&?&?) ?]. unfold leg_ok. by rewrite Hac.
  - intros id. specialize (Hroom id). specialize (Hbal id). lia.
  - exists s2. split; [|done]. simpl. unfold mbind, M_bind. by rewrite He.
Qed.

(** A port whose database answers. *)
Definition port_ok (p : port) : Prop :=
  (∀ i ty v u ad s, ready s → role_ok (ty, v, u, ad) →
     ∃ id s', account p i ty v u ad s = (Ok id, s') ∧ ready s')
  ∧ (∀ es s, ready s → ValidateBalanced es = Ok tt → Forall (leg_ok (db s)) es →
     (∀ id, Z.abs (balance_of (db s) id) + volume (Amount <$> es) ≤ max_i64) →
     ∃ s', post p es s = (Ok tt, s') ∧ ready s').

Lemma posts_ok es s :
  ready s → ValidateBalanced es = Ok tt → Forall (leg_ok (db s)) es →
  (∀ id, Z.abs (balance_of (db s) id) + volume (Amount <$> es) ≤ max_i64) →
  ∃ s', postEntriesTx uuidNew dbnow es s = (Ok tt, s') ∧ ready s'.
Proof.
  intros Hrd (_ & (t & _ & Hall) & _)%ValidateBalanced_Ok HF Hroom. apply postEntriesTx_ok; [done| |done].
  apply Forall_and. split; [done|]. eapply Forall_impl; [exact Hall|]. naive_solver.
Qed.

Lemma port_tx_ok : port_ok (port_tx uuidNew now dbnow vaultExists userExists).
Proof.
  split.
  - intros i ty v u ad s Hrd (? & ? & ?). simpl. unfold GetOrCreateAccountTx, mbind, M_bind.
    destruct (goc_ok ty v u ad (default_asset "USDC") s) as (x & s' & -> & ?); [done..|].
    by exists x.1, s'.
  - intros es s Hrd Hv HF Hroom. simpl. unfold PostEntriesTx, mbind, M_bind, lift. rewrite Hv. simpl.
    by apply posts_ok.
Qed.

Lemma port_direct_ok io :
  (∀ i, io i = (true, DBOk)) → port_ok (port_direct uuidNew now dbnow vaultExists userExists io).
Proof.
  intros Hup. split.
  - intros i ty v u ad s Hrd (? & ? & ?). simpl. unfold GetOrCreateAccount, own_tx, mbind, M_bind.
    rewrite !Hup. simpl.
    destruct (goc_ok ty v u ad (default_asset "USDC") s) as (x & [d n] & -> & ?); [done..|].
    by exists x.1, (mkSession d n).
  - intros es s Hrd Hv HF Hroom. simpl. unfold PostEntries, own_tx, mbind, M_bind, lift.
    rewrite Hv, !Hup. simpl. destruct (posts_ok es s) as ([d n] & -> & ?); [done..|]. by eexists.
Qed.
Lemma resolve_ok p i rs s :
  port_ok p → ready s → Forall role_ok rs →
  ∃ ids s', resolve p i rs s = (Ok ids, s') ∧ ready s'.
Proof.
  intros [Hacc _]. revert i s. induction rs as [|[[[ty v] u] ad] rs IH]; intros i s Hrd HF.
  { by exists [], s. }
  apply Forall_cons in HF as [Hr HF]. destruct (Hacc i ty v u ad s Hrd Hr) as (id & s1 & E1 & Hrd1).
  destruct (IH (S i) s1 Hrd1 HF) as (ids & s2 & E2 & Hrd2). exists (id :: ids), s2.
  simpl. unfold mbind, M_bind. by rewrite E1, E2.
Qed.

(** The entries of resolved legs are accepted. *)
Lemma legs_accepted d txID event eventID (legs : list (role * Z)) ids :
  accounts d !! uuid_Nil = None → txID ≠ uuid_Nil → Forall2 (resolved d) legs.*1 ids →
  (2 ≤ length legs)%nat → Forall (λ z, z ≠ 0) legs.*2 → legs_sum legs = 0 →
  let es := zip_with (λ id amount, leg txID id amount event eventID) ids legs.*2 in
  ValidateBalanced es = Ok tt ∧ Forall (leg_ok d) es ∧ Amount <$> es = legs.*2.
Proof.
  intros Hnil Htx HF Hlen Hz Hsum es.
  assert (length ids = length legs) as Hl by (apply Forall2_length in HF; by rewrite length_fmap in HF).
  assert (Forall (λ e, leg_ok d e ∧ TransactionID e = txID ∧ Amount e ≠ 0 ∧ AccountID e ≠ uuid_Nil) es
    ∧ Amount <$> es = legs.*2) as [Hes Ham].
  { unfold es. clear -Hnil HF Hz. revert ids HF.
    induction legs as [|[r z] legs IH]; intros [|id ids] HF; try by inversion HF.
    apply Forall2_cons in HF as [(a & Ha & _) HF]. apply Forall_cons in Hz as [Hz1 Hz].
    destruct (IH Hz ids HF) as [IHF IHA]. simpl. split; [|f_equal; exact IHA].
    constructor; [|exact IHF]. unfold leg_ok. simpl. split_and!; try done; try by eexists.
    intros ->. by rewrite Hnil in Ha. }
  split_and!; [|eapply Forall_impl; [exact Hes|]; naive_solver|done].
  apply ValidateBalanced_Ok. split_and!.
  - assert (length es = length legs) as ->; [|lia].
    by rewrite <-(length_fmap Amount), Ham, length_fmap.
  - exists txID. split; [done|]. eapply Forall_impl; [exact Hes|]. naive_solver.
  - unfold es. by rewrite legs_total, Hsum by done.
Qed.

Lemma nonzero_all l : Forall (λ z, z ≠ 0) (nonzero l).*2.
Proof.
  unfold nonzero. induction l as [|[r z] l IH]; [done|]. simpl.
  destruct (Z.eqb_spec z 0); simpl; [done|by constructor].
Qed.

Lemma move_ok p E lost legs drop0 event eventID s :
  port_spec p E lost → port_ok p → books (db s) → ready s → Forall role_ok legs.*1 →
  legs_sum legs = 0 → (drop0 = false → (2 ≤ length legs)%nat ∧ Forall (λ z, z ≠ 0) legs.*2) →
  (∀ id, Z.abs (balance_of (db s) id) + volume (posted_legs legs drop0).*2 ≤ max_i64) →
  ∃ s', move uuidNew legs drop0 event eventID p s = (Ok tt, s') ∧ ready s'.
Proof.
  intros Hps Hp Hb Hrd Hro Hsum Hnz Hroom.
  destruct (resolve_ok p 0 legs.*1 s Hp Hrd Hro) as (ids & s1 & E1 & Hrd1).
  pose proof (resolve_spec p E lost 0 legs.*1 s Hps Hb) as (Hb1 & (_ & _ & Hbal & _) & HF).
  rewrite E1 in Hb1, Hbal, HF. simpl in Hb1, Hbal, HF.
  unfold move, mbind, M_bind, newUUID. rewrite E1. set (txID := uuidNew (drawn s1)).
  set (s2 := mkSession (db s1) (S (drawn s1))). pose proof (ready_draw s1 Hrd1 : ready s2) as Hrd2.
  assert (txID ≠ uuid_Nil) as Htx by (apply (rd_new s1 Hrd1); lia).
  assert (∀ l js, Forall2 (resolved (db s2)) l.*1 js → (2 ≤ length l)%nat → Forall (λ z, z ≠ 0) l.*2 →
    legs_sum l = 0 → l = posted_legs legs drop0 →
    ∃ s', post p (zip_with (λ id amount, leg txID id amount event eventID) js l.*2) s2 = (Ok tt, s')
      ∧ ready s') as Hpost.
  { intros l js Hjs Hlen Hz Hl0 Hl. destruct (legs_accepted (db s2) txID event eventID l js)
      as (Hv & Hok & Ham); try done; [apply (rd_nil _ Hrd2)|].
    apply Hp; try done. intros id. rewrite Ham, Hl. specialize (Hroom id).
    unfold balance_of in *. by rewrite <-Hbal in Hroom. }
  destruct drop0; unfold posted_legs in Hpost.
  - destruct (filter_legs txID event eventID legs ids (db s2) HF) as (ids' & HF' & ->).
    assert (length (zip_with (λ id amount, leg txID id amount event eventID) ids' (nonzero legs).*2)
      = length (nonzero legs)) as ->.
    { apply Forall2_length in HF'. rewrite length_fmap in HF'.
      rewrite length_zip_with_l_eq; [done|]. by rewrite length_fmap. }
    destruct (Z.ltb_spec (Z.of_nat (length (nonzero legs))) 2) as [Hlt|Hge]; [by eexists|].
    apply Hpost; [done|lia|apply nonzero_all|by rewrite nonzero_sum|done].
  - destruct (Hnz eq_refl). by apply Hpost.
Qed.

(** A mode in which the database opens and commits. *)
Definition reachable (m : txMode) : Prop :=
  match m with
  | CallerTx => True
  | OwnTx beginOk d => beginOk = true ∧ d = DBOk
  | Direct io => ∀ i, io i = (true, DBOk)
  end.

Lemma in_mode_ok m legs drop0 event eventID (body : port → M unit) s :
  (∀ p s, body p s = move uuidNew legs drop0 event eventID p s) →
  reachable m → books (db s) → ready s → Forall role_ok legs.*1 → legs_sum legs = 0 →
  (drop0 = false → (2 ≤ length legs)%nat ∧ Forall (λ z, z ≠ 0) legs.*2) →
  (∀ id, Z.abs (balance_of (db s) id) + volume (posted_legs legs drop0).*2 ≤ max_i64) →
  ∃ s', in_mode uuidNew now dbnow vaultExists userExists m body s = (Ok tt, s') ∧ ready s'.
Proof.
  intros Hbody Hm Hb Hrd Hro Hs Hnz Hroom. destruct m as [|b c|f]; simpl in *.
  - rewrite Hbody. by eapply move_ok; [apply port_tx_spec|apply port_tx_ok|..].
  - destruct Hm as [-> ->]. unfold own_tx. simpl. rewrite Hbody.
    edestruct (move_ok (port_tx uuidNew now dbnow vaultExists userExists)) as ([d' n'] & -> & ?);
      [apply port_tx_spec|apply port_tx_ok|done..|by eexists].
  - rewrite Hbody. by eapply move_ok; [apply port_direct_spec|by apply port_direct_ok|..].
Qed.

Context {D : Type} `{!Decimal D, !DecimalLaws D}.

(** What the service may be asked for. *)
Definition valid_request (r : request (D := D)) : Prop :=
  match r with
  | RDeposit v u a _ | RWithdrawal v u a _ =>
      0 < stroops a ∧ vaultExists v = true ∧ userExists u = true
  | RHarvest v u n f g ad _ =>
      stroops g = stroops n + stroops f ∧ ad ≠ ""%string ∧ vaultExists v = true ∧ userExists u = true
  | RRebalance _ from to a _ => 0 < stroops a ∧ from ≠ to ∧ from ≠ ""%string ∧ to ≠ ""%string
  end.

Lemma yield_ok ad : ad ≠ ""%string → role_ok (r_yield ad).
Proof.
  intros Had. split; [|done]. unfold required_key. rewrite !decide_False, decide_True by (done || by intros [|]).
  apply guard_err_Ok, bool_decide_eq_false. intros [?|[= ->]]; done.
Qed.

Lemma valid_roles r : valid_request r → Forall role_ok (legs_of r).*1.
Proof.
  assert (∀ v u, vaultExists v = true → userExists u = true → role_ok (r_user v u)) by done.
  assert (∀ v, vaultExists v = true → role_ok (r_pool v)) by done.
  assert (role_ok r_suspense ∧ role_ok r_fee) as [? ?] by done.
  destruct r; simpl; intros Hv; destruct_and?;
    repeat (apply Forall_cons_2 || apply Forall_nil_2); auto using yield_ok.
Qed.

Lemma valid_sum r : valid_request r → legs_sum (legs_of r) = 0.
Proof. destruct r; simpl; lia. Qed.

(** C3: a request that is in order succeeds: with existing vault and user,
    positive amounts (for a harvest, gross = net + fee), named and distinct
    adapters, fresh ids, a database that answers and room in the balances, the
    movement is posted, in each of the transaction modes, and the next one can
    follow. *)
Theorem ledger_valid_request_posts m (r : request (D := D)) s :
  books (db s) → ready s → reachable m → small_request r → valid_request r →
  (∀ id, Z.abs (balance_of (db s) id) + volume (booked_legs r).*2 ≤ max_i64) →
  ∃ s', serve uuidNew now dbnow vaultExists userExists m r s = (Ok tt, s') ∧ ready s'.
Proof.
  intros Hb Hrd Hm Hs Hv Hroom. pose proof (valid_roles r Hv) as Hro. pose proof (valid_sum r Hv) as Hsum.
  unfold booked_legs in Hroom.
  destruct r as [v u a ev|v u a ev|v u n f g ad ev|v from to a ev]; simpl in Hs, Hv; cbn [serve].
  - unfold PostDeposit, decimalToStroops, mbind, M_bind, lift. fold (stroops a).
    destruct (Z.leb_spec (stroops a) 0); [lia|].
    eapply (in_mode_ok m _ false "deposit" ev); [|done..| |exact Hroom].
    + intros p s1. rewrite postDeposit_move, small_i64; done.
    + intros _. split; [simpl; lia|]. repeat constructor; simpl; lia.
  - unfold PostWithdrawal, decimalToStroops, mbind, M_bind, lift. fold (stroops a).
    destruct (Z.leb_spec (stroops a) 0); [lia|].
    eapply (in_mode_ok m _ false "withdraw" ev); [|done..| |exact Hroom].
    + intros p s1. rewrite postWithdrawal_move, small_i64, small_neg; done.
    + intros _. split; [simpl; lia|]. repeat constructor; simpl; lia.
  - unfold PostHarvest, decimalToStroops, mbind, M_bind, lift.
    fold (stroops n) (stroops f) (stroops g). destruct Hs as (?&?&?).
    eapply (in_mode_ok m _ true "harvest" ev); [|done..|exact Hroom].
    intros p s1. rewrite postHarvest_move, !small_neg; done.
  - unfold PostRebalance, decimalToStroops, mbind, M_bind, lift. fold (stroops a).
    destruct (Z.leb_spec (stroops a) 0); [lia|]. destruct Hv as (? & Hne & _).
    rewrite decide_False by done.
    eapply (in_mode_ok m _ false "rebalance" ev); [|done..| |exact Hroom].
    + intros p s1. rewrite postRebalance_move, small_neg; done.
    + intros _. split; [simpl; lia|]. repeat constructor; simpl; lia.
Qed.
End Progress.

(** ** Amounts at the edge *)

Section Edge.
Context {D : Type} `{!Decimal D, !DecimalLaws D}.

(** Stroops survive the trip through decimals. *)
Theorem ledger_stroops_roundtrip z d :
  in_i64 z → stroopsToDecimal (D := D) z = Some d → decimalToStroops d = Ok z.
Proof.
  intros Hz Hd. unfold stroopsToDecimal in Hd. unfold decimalToStroops. f_equal.
  destruct (dval_div (d_of_Z z) (d_of_Z 10000000)) as (c & Hc & Hv).
  { rewrite dval_of_Z. done. }
  rewrite Hd in Hc. injection Hc as <-.
  assert ((dval d == z # 10000000)%Q) as Hval.
  { rewrite Hv, !dval_of_Z, (Qround_at_exact 16 _ (z * 1000000000)); unfold Qeq; cbn;
      change (Zpos (pow10 16)) with 10000000000000000; lia. }
  assert ((dval (d_round 0 (d_mul d (d_of_Z 10000000))) == inject_Z z)%Q) as Hr.
  { rewrite dval_round by lia. rewrite dval_mul, dval_of_Z, Hval.
    rewrite (Qround_at_exact 0 _ z); unfold Qeq; cbn; change (Zpos (pow10 0)) with 1; lia. }
  rewrite d_intpart_val; rewrite Hr, Qtrunc_int; done.
Qed.
End Edge.

(** ** Witnesses *)

Definition demo_empty : Session := mkSession (mkDB ∅ [] ∅ []) 0.
Definition demo_uuid (n : nat) : UUID := Z.of_nat n + 1.
Definition demo_serve : txMode → request → M unit :=
  serve demo_uuid 1 1 (λ _, true) (λ _, true) (D := Q).
Definition demo_deposit : request (D := Q) := RDeposit 100 200 (3 # 2) "d1".
Definition demo_calls : list (txMode * request (D := Q)) :=
  [(OwnTx true DBOk, demo_deposit);
   (CallerTx, RHarvest 100 200 (1 # 2) (1 # 10) (6 # 10) "blend" "h1");
   (OwnTx true DBOk, RHarvest 100 200 (1 # 2) (1 # 10) (7 # 10) "blend" "h2");
   (Direct (λ _, (true, DBOk)), RWithdrawal 100 200 (1 # 4) "w1")].

Lemma consistent_empty : consistent (db demo_empty).
Proof.
  split; [split|done|done]; simpl.
  - constructor.
  - intros e He. by apply elem_of_nil in He.
  - done.
  - intros id. unfold balance_of. simpl. rewrite lookup_empty. simpl.
    unfold in_i64, min_i64, max_i64. lia.
  - intros id [? Hs]. by rewrite lookup_empty in Hs.
  - intros ? ? ? ? Hs. by rewrite lookup_empty in Hs.
Qed.

Lemma ledger_validate_balanced_witness :
  ValidateBalanced [leg 1 2 5 "deposit" ""; leg 1 3 (-5) "deposit" ""] = Ok tt.
Proof.
  apply (ledger_validate_balanced [leg 1 2 5 "deposit" ""; leg 1 3 (-5) "deposit" ""] tt).
  split; [simpl; lia|]. split; [|reflexivity].
  exists 1. split; [discriminate|]. repeat constructor; discriminate.
Defined.

Lemma ledger_account_idempotent_witness :
  ∃ x s', getOrCreateAccountTx demo_uuid 1 (λ _, true) (λ _, true) AccountTypeFee None None None "USDC"
    demo_empty = (Ok x, s') ∧ entries (db s') = [] ∧ x.1 = 1.
Proof.
  eexists _, _. split; [vm_compute; reflexivity|]. split; [|reflexivity].
  eapply (ledger_account_idempotent demo_uuid 1 (λ _, true) (λ _, true) AccountTypeFee None None None
    "USDC" demo_empty); [apply consistent_empty|vm_compute; reflexivity].
Defined.

Lemma demo_small : Forall (λ c, small_request c.2) demo_calls.
Proof. repeat constructor; vm_compute; reflexivity. Qed.

Lemma ledger_refines_movements_witness :
  ∃ s', demo_serve (OwnTx true DBOk) demo_deposit demo_empty = (Ok tt, s')
  ∧ ∀ id a, accounts (db s') !! id = Some a →
      balance_of (db s') id = balance_of (db demo_empty) id + effect (booked_legs demo_deposit) a.
Proof.
  exists (demo_serve (OwnTx true DBOk) demo_deposit demo_empty).2. split; [vm_compute; reflexivity|].
  apply (ledger_refines_movements demo_uuid 1 1 (λ _, true) (λ _, true) (OwnTx true DBOk) demo_deposit
    demo_empty (Ok tt)); [apply consistent_empty|vm_compute; reflexivity|vm_compute; reflexivity].
Defined.

Lemma ledger_books_consistent_witness :
  (GetVaultPoolBalance 100 (foldl (call demo_uuid 1 1 (λ _, true) (λ _, true)) demo_empty demo_calls)).1
    = Ok 17500000
  ∧ (SumUserPositionBalances 100
      (foldl (call demo_uuid 1 1 (λ _, true) (λ _, true)) demo_empty demo_calls)).1 = Ok 17500000.
Proof.
  split; [vm_compute; reflexivity|].
  destruct (ledger_books_consistent demo_uuid 1 1 (λ _, true) (λ _, true) demo_calls demo_empty
    consistent_empty demo_small) as (_ & _ & Hp).
  rewrite Hp. vm_compute. reflexivity.
Defined.

Lemma demo_ready : ready demo_uuid demo_empty.
Proof.
  split; simpl; unfold demo_uuid, uuid_Nil.
  - intros n _. split_and!; [lia|by rewrite lookup_empty|by apply not_elem_of_nil].
  - intros n k ?. lia.
  - by rewrite lookup_empty.
Qed.

Lemma ledger_valid_request_posts_witness :
  ∃ s', demo_serve (OwnTx true DBOk) demo_deposit demo_empty = (Ok tt, s') ∧ ready demo_uuid s'.
Proof.
  apply (ledger_valid_request_posts demo_uuid 1 1 (λ _, true) (λ _, true)).
  - apply consistent_empty.
  - apply demo_ready.
  - split; reflexivity.
  - vm_compute. reflexivity.
  - vm_compute. repeat split; reflexivity.
  - intros id. unfold balance_of. simpl. rewrite lookup_empty. vm_compute. discriminate.
Defined.

Definition demo_huge : Q := Qmake (2 ^ 62 + 1) 10000000.

Lemma ledger_deposit_overflow_witness :
  sum_amounts (entries (db (PostDeposit demo_uuid 1 1 (λ _, true) (λ _, true) (OwnTx true DBOk)
    100 200 demo_huge "d" demo_empty).2)) = 2 ^ 64.
Proof.
  apply (ledger_deposit_overflow demo_uuid 1 1 (λ _, true) (λ _, true) (OwnTx true DBOk)
    100 200 demo_huge "d" demo_empty).
  - apply consistent_empty.
  - vm_compute. reflexivity.
  - vm_compute. reflexivity.
Defined.
