(* ===== verification/Signing.v ===== *)
(** The signing boundary (internal/signing): typed intents and their
    structural validation (intent.go), deployment policy and replay guard
    (policy.go), the kill switch (killswitch.go), the enforcement pipeline
    (signer.go) with its audit events, counters and intent commitment
    (audit.go).

    The signer that holds the key is the [Backend] class; SHA-256 and the
    RFC 3339 rendering of times are parameters.  A policy error is its
    category, without the message.  The clock, the file system and the
    context are arguments. *)

From stdpp Require Import pretty.
From Stdlib Require Import Ascii.
From S2P Require Import Prelude GoStrings.
Open Scope Z_scope.
Open Scope go_scope.

(** ** Intents *)

Abbreviation Operation := string (only parsing).
Abbreviation Shape := string (only parsing).

Definition OpPause : Operation := "pause".
Definition OpUnpause : Operation := "unpause".
Definition OpRebalance : Operation := "rebalance".
Definition OpSetWeights : Operation := "set_weights".
Definition OpDeposit : Operation := "deposit".
Definition OpWithdraw : Operation := "withdraw".
Definition OpHarvest : Operation := "harvest".
Definition OpEmergencyWithdrawAll : Operation := "emergency_withdraw_all".

Definition ShapeVoid : Shape := "void".
Definition ShapeI128Pair : Shape := "i128_pair".
Definition ShapeAddressBool : Shape := "address_bool".
Definition ShapeWeights : Shape := "weights".

Definition operationShapes : gmap string string :=
  list_to_map [(OpPause, ShapeVoid); (OpUnpause, ShapeVoid); (OpRebalance, ShapeVoid);
    (OpEmergencyWithdrawAll, ShapeVoid); (OpSetWeights, ShapeWeights); (OpDeposit, ShapeI128Pair);
    (OpWithdraw, ShapeI128Pair); (OpHarvest, ShapeAddressBool)].

Definition ShapeFor (op : Operation) : option Shape := operationShapes !! op.

Record WeightEntry := mkWeight { Protocol : string; WeightBps : Z }.

Record Intent := mkIntent {
  ID : string;
  IOperation : Operation;
  IShape : Shape;
  ContractAddress : string;
  NetworkPassphrase : string;
  Arg0 : Z;
  Arg1 : Z;
  Address : string;
  Flag : bool;
  Weights : list WeightEntry;
  IssuedAt : Time;
  RequestID : string;
}.

Inductive Rejection :=
| RejectUnknownOperation | RejectShapeMismatch | RejectContractNotAllowed | RejectNetworkMismatch
| RejectInvalidAddress | RejectAmountOutOfPolicy | RejectWeightsInvalid | RejectIntentExpired
| RejectIntentReplayed | RejectMalformed | RejectKillSwitchActive | RejectUnauthorized.

#[export] Instance Rejection_eq_dec : EqDecision Rejection.
Proof. solve_decision. Defined.

Abbreviation checked := (result Rejection unit) (only parsing).

Definition maxWeightEntries : Z := 32.
Definition totalWeightBps : Z := 10000.
Definition strkeyLen : Z := 56.

(** The loop over the weights: the names seen so far and the running total. *)
Fixpoint weights_loop (seen : list string) (total : Z) (ws : list WeightEntry) : result Rejection unit :=
  match ws with
  | [] => guard_err (negb (total =? totalWeightBps)) RejectWeightsInvalid
  | w :: ws =>
      let name := TrimSpace (Protocol w) in
      if decide (name = "") then Err RejectWeightsInvalid
      else if 64 <? len name then Err RejectWeightsInvalid
      else if decide (name ∈ seen) then Err RejectWeightsInvalid
      else if (WeightBps w <? 0) || (totalWeightBps <? WeightBps w) then Err RejectWeightsInvalid
      else weights_loop (name :: seen) (total +w WeightBps w) ws
  end.

Definition validateWeights (ws : list WeightEntry) : result Rejection unit :=
  match ws with
  | [] => Err RejectWeightsInvalid
  | _ => if maxWeightEntries <? Z.of_nat (length ws) then Err RejectWeightsInvalid
         else weights_loop [] 0 ws
  end.

Definition validateContractAddress (addr : string) : result Rejection unit :=
  let addr := TrimSpace addr in
  guard_err (bool_decide (addr = "")) RejectMalformed;;
  guard_err (negb (HasPrefix addr "C")) RejectInvalidAddress;;
  guard_err (negb (len addr =? strkeyLen)) RejectInvalidAddress.

Definition validateAccountAddress (addr : string) : result Rejection unit :=
  let addr := TrimSpace addr in
  guard_err (bool_decide (addr = "")) RejectMalformed;;
  guard_err (negb (HasPrefix addr "G")) RejectInvalidAddress;;
  guard_err (negb (len addr =? strkeyLen)) RejectInvalidAddress.

Definition has_weights (i : Intent) : bool := 0 <? Z.of_nat (length (Weights i)).

(** The switch over the shape. *)
Definition validateArgs (shape : Shape) (i : Intent) : result Rejection unit :=
  if decide (shape = ShapeVoid) then
    guard_err (negb (Arg0 i =? 0) || negb (Arg1 i =? 0) || negb (bool_decide (Address i = ""))
               || has_weights i) RejectShapeMismatch
  else if decide (shape = ShapeI128Pair) then
    guard_err (negb (bool_decide (Address i = "")) || has_weights i) RejectShapeMismatch;;
    guard_err (Arg0 i <=? 0) RejectAmountOutOfPolicy;;
    guard_err (Arg1 i <? 0) RejectAmountOutOfPolicy
  else if decide (shape = ShapeAddressBool) then
    guard_err (negb (Arg0 i =? 0) || negb (Arg1 i =? 0) || has_weights i) RejectShapeMismatch;;
    validateAccountAddress (Address i)
  else if decide (shape = ShapeWeights) then
    guard_err (negb (Arg0 i =? 0) || negb (Arg1 i =? 0) || negb (bool_decide (Address i = "")))
      RejectShapeMismatch;;
    validateWeights (Weights i)
  else Ok tt.

Definition Validate (i : Intent) : result Rejection unit :=
  guard_err (bool_decide (TrimSpace (ID i) = "")) RejectMalformed;;
  match ShapeFor (IOperation i) with
  | None => Err RejectUnknownOperation
  | Some shape =>
      guard_err (negb (bool_decide (IShape i = shape))) RejectShapeMismatch;;
      validateContractAddress (ContractAddress i);;
      guard_err (bool_decide (TrimSpace (NetworkPassphrase i) = "")) RejectMalformed;;
      guard_err (IssuedAt i =? zeroTime) RejectMalformed;;
      validateArgs shape i
  end.

(** ** Policy *)

Record Policy := mkPolicy {
  PNetworkPassphrase : string;
  AllowedContracts : gset string;
  AllowedOperations : gset string;
  MaxAmountStroops : Z;
  MaxIntentAge : Duration;
  ClockSkew : Duration;
}.

Definition DefaultMaxIntentAge : Duration := 2 * Minute.
Definition DefaultClockSkew : Duration := 30 * Second.

Definition NewPolicy (network : string) (contracts operations : list string)
    (maxAmount : Z) (maxAge skew : Duration) : Policy :=
  let trimmed := List.filter (λ c, negb (bool_decide (c = ""))) (TrimSpace <$> contracts) in
  let known := List.filter (λ op, bool_decide (is_Some (ShapeFor op))) operations in
  {| PNetworkPassphrase := TrimSpace network;
     AllowedContracts := list_to_set trimmed;
     AllowedOperations := list_to_set known;
     MaxAmountStroops := maxAmount;
     MaxIntentAge := if maxAge <=? 0 then DefaultMaxIntentAge else maxAge;
     ClockSkew := if skew <=? 0 then DefaultClockSkew else skew |}.

Definition Evaluate (p : Policy) (i : Intent) (now : Time) : result Rejection unit :=
  guard_err (bool_decide (PNetworkPassphrase p = "")) RejectNetworkMismatch;;
  guard_err (negb (bool_decide (NetworkPassphrase i = PNetworkPassphrase p))) RejectNetworkMismatch;;
  guard_err (bool_decide (AllowedOperations p = ∅)) RejectUnknownOperation;;
  guard_err (negb (bool_decide (IOperation i ∈ AllowedOperations p))) RejectUnknownOperation;;
  guard_err (bool_decide (AllowedContracts p = ∅)) RejectContractNotAllowed;;
  guard_err (negb (bool_decide (TrimSpace (ContractAddress i) ∈ AllowedContracts p)))
    RejectContractNotAllowed;;
  guard_err (bool_decide (IShape i = ShapeI128Pair) && (0 <? MaxAmountStroops p)
             && (MaxAmountStroops p <? Arg0 i)) RejectAmountOutOfPolicy;;
  let age := timeSub now (IssuedAt i) in
  guard_err (MaxIntentAge p <? age) RejectIntentExpired;;
  guard_err (age <? i64 (- ClockSkew p)) RejectIntentExpired.

(** ** The replay guard *)

Record ReplayGuard := mkGuard {
  seen : gmap string Time;
  retention : Duration;
  lastSweep : Time;
}.

Definition NewReplayGuard (r : Duration) : ReplayGuard :=
  mkGuard ∅ (if r <=? 0 then DefaultMaxIntentAge + DefaultClockSkew else r) zeroTime.

Definition sweepInterval : Duration := 30 * Second.

Definition sweepLocked (g : ReplayGuard) (now : Time) : ReplayGuard :=
  if timeSub now (lastSweep g) <? sweepInterval then g
  else
    let cutoff := timeAdd now (- retention g) in
    mkGuard (filter (λ p : string * Time, ¬ p.2 < cutoff) (seen g)) (retention g) now.

Definition Observe (g : ReplayGuard) (id : string) (now : Time) : result Rejection unit * ReplayGuard :=
  let g := sweepLocked g now in
  if decide (is_Some (seen g !! id)) then (Err RejectIntentReplayed, g)
  else (Ok tt, mkGuard (<[id := now]> (seen g)) (retention g) (lastSweep g)).

Definition Size (g : ReplayGuard) : Z := Z.of_nat (size (seen g)).

(** ** The kill switch *)

Inductive State := StateEnabled | StateDisabled | StateUnknown.

(** What [os.Stat] of the sentinel gives. *)
Inductive stat := StatOk | StatNotExist | StatErr (msg : string).

Record KillSwitch := mkSwitch {
  lastState : option State;
  lastReason : string;
  checkedAt : Time;
}.

Definition evaluate (st : stat) : State * string :=
  match st with
  | StatOk => (StateDisabled, "sentinel file present"%string)
  | StatNotExist => (StateEnabled, "sentinel file absent"%string)
  | StatErr msg => (StateUnknown, "sentinel file could not be read: " +:+ msg)
  end.

(** The new cache, the state and whether signing is permitted. *)
Definition Check_ (st : stat) (now : Time) (k : KillSwitch) : KillSwitch * State * bool :=
  let '(state, reason) := evaluate st in
  (mkSwitch (Some state) reason now, state,
   match state with StateEnabled => true | _ => false end).

(** The sentinel file and the file system it is on: [io] is what a call on a
    broken mount reports. *)
Record sentinel := mkSentinel { body : option string; io : option string }.

Definition Stat (f : sentinel) : stat :=
  match io f with
  | Some msg => StatErr msg
  | None => match body f with Some _ => StatOk | None => StatNotExist end
  end.

Definition LF : ascii := "010"%char.
Definition CR : ascii := "013"%char.

Definition sanitizeReason (reason : string) : string :=
  let reason := TrimSpace reason in
  if decide (reason = "") then "unspecified"%string
  else
    let reason := replaceByte LF " "%char reason in
    let reason := replaceByte CR " "%char reason in
    if 256 <? len reason then slice 256 reason else reason.

(** [ctxErr] is whether the context is done, [stamp] the formatted time. *)
Definition Engage (ctxErr : bool) (stamp reason : string) (f : sentinel) : bool * sentinel :=
  if ctxErr then (false, f)
  else
    match io f with
    | Some _ => (false, f)
    | None =>
        let text := "disabled_at=" +:+ stamp +:+ String LF ("reason=" +:+ sanitizeReason reason
                      +:+ String LF "") in
        (true, mkSentinel (Some text) None)
    end.

Definition Release (ctxErr : bool) (f : sentinel) : bool * sentinel :=
  if ctxErr then (false, f)
  else
    match io f with
    | Some _ => (false, f)
    | None => (true, mkSentinel None None)
    end.

(** ** Audit *)

Inductive Outcome := OutcomeSigned | OutcomeRejected | OutcomeUnauthorized | OutcomeDisabled | OutcomeError.

Record Event := mkEvent {
  EvIntentID : string;
  EvRequestID : string;
  EvCaller : string;
  EvOperation : Operation;
  EvContract : string;
  EvKeyID : string;
  EvIntentHash : string;
  EvOutcome : Outcome;
  EvRejection : option Rejection;
  EvLatencyMS : Z;
  EvOccurredAt : Time;
}.

Definition NetworkLabel (passphrase : string) : string :=
  let p := TrimSpace passphrase in
  if decide (p = "Public Global Stellar Network ; September 2015") then "pubnet"
  else if decide (p = "Test SDF Network ; September 2015") then "testnet"
  else if decide (p = "Test SDF Future Network ; October 2022") then "futurenet"
  else if decide (p = "") then "unset"
  else "custom".

Definition US : ascii := "031"%char.
Definition RS : ascii := "030"%char.

Definition writeField (tag field : string) : string := tag +:+ String US (field +:+ String RS "").

Definition intent_fields (fmtTime : Time → string) (i : Intent) : list (string * string) :=
  [("id", ID i); ("op", IOperation i); ("shape", IShape i); ("contract", ContractAddress i);
   ("network", NetworkLabel (NetworkPassphrase i)); ("arg0", itoa (Arg0 i)); ("arg1", itoa (Arg1 i));
   ("address", Address i); ("flag", if Flag i then "true" else "false")]%string
  ++ ((λ w, ("w:" +:+ Protocol w, itoa (WeightBps w))) <$> Weights i)
  ++ [("issued_at"%string, fmtTime (IssuedAt i))].

(** What is written to the hash. *)
Definition preimage (fmtTime : Time → string) (i : Intent) : string :=
  foldr (λ f s, writeField f.1 f.2 +:+ s) ""%string (intent_fields fmtTime i).

Definition HashIntent (sha256hex : string → string) (fmtTime : Time → string) (i : Intent) : string :=
  sha256hex (preimage fmtTime i).

(** Counters over rejections and operations as functions of the label. *)
Record Counters := mkCounters {
  requests : gmap string Z;
  signed : gmap string Z;
  rejected : Rejection → Z;
  unauthorized : Z;
  disabled : Z;
  errors : Z;
  latencyTotal : Duration;
  latencyCount : Z;
  latencyMax : Duration;
}.

Definition NewCounters : Counters := mkCounters ∅ ∅ (λ _, 0) 0 0 0 0 0 0.

Definition bump (m : gmap string Z) (k : string) : gmap string Z :=
  <[k := (default 0 (m !! k) +w 1)]> m.

Definition observeLatencyLocked (d : Duration) (c : Counters) : Counters :=
  mkCounters (requests c) (signed c) (rejected c) (unauthorized c) (disabled c) (errors c)
    (latencyTotal c +w d) (latencyCount c +w 1)
    (if latencyMax c <? d then d else latencyMax c).

Definition ObserveRequest (op : Operation) (c : Counters) : Counters :=
  mkCounters (bump (requests c) op) (signed c) (rejected c) (unauthorized c) (disabled c) (errors c)
    (latencyTotal c) (latencyCount c) (latencyMax c).
Definition ObserveSigned (op : Operation) (d : Duration) (c : Counters) : Counters :=
  observeLatencyLocked d (mkCounters (requests c) (bump (signed c) op) (rejected c) (unauthorized c)
    (disabled c) (errors c) (latencyTotal c) (latencyCount c) (latencyMax c)).
Definition ObserveRejected (cat : Rejection) (d : Duration) (c : Counters) : Counters :=
  observeLatencyLocked d (mkCounters (requests c) (signed c)
    (λ r, if decide (r = cat) then (rejected c r +w 1) else rejected c r) (unauthorized c)
    (disabled c) (errors c) (latencyTotal c) (latencyCount c) (latencyMax c)).
Definition ObserveUnauthorized (c : Counters) : Counters :=
  mkCounters (requests c) (signed c) (rejected c) (unauthorized c +w 1) (disabled c) (errors c)
    (latencyTotal c) (latencyCount c) (latencyMax c).
Definition ObserveDisabled (c : Counters) : Counters :=
  mkCounters (requests c) (signed c) (rejected c) (unauthorized c) (disabled c +w 1) (errors c)
    (latencyTotal c) (latencyCount c) (latencyMax c).
Definition ObserveError (c : Counters) : Counters :=
  mkCounters (requests c) (signed c) (rejected c) (unauthorized c) (disabled c) (errors c +w 1)
    (latencyTotal c) (latencyCount c) (latencyMax c).

Definition MeanLatency (c : Counters) : Duration :=
  if 0 <? latencyCount c then latencyTotal c `quot` latencyCount c else 0.

(** ** The pipeline *)

(** The process that holds the key. *)
Class Backend := {
  KeyID : string;
  BuildAndSign : Intent → result string string;
}.

Record Result := mkResult { SignedXDR : string; RKeyID : string; IntentHash : string }.

Inductive SignError := ErrSigningDisabled (s : State) | ErrPolicy (r : Rejection) | ErrSign (msg : string).

(** The service: policy, guard, switch and counters; [audit] is what went to
    the sink and [built] the calls of the backend. *)
Record Service := mkService {
  policy : Policy;
  killSwitch : KillSwitch;
  replayGuard : ReplayGuard;
  counters : Counters;
  audit : list Event;
  built : list Intent;
}.

(** [NewService] when no guard is given. *)
Definition NewService (p : Policy) : Service :=
  mkService p (mkSwitch None "" zeroTime) (NewReplayGuard (i64 (MaxIntentAge p + ClockSkew p)))
    NewCounters [] [].

Definition Milliseconds (d : Duration) : Z := d `quot` Millisecond.

Section Pipeline.
Context `{B : Backend} (sha256hex : string → string) (fmtTime : Time → string).

(** [clock k] is the k-th reading of [s.now()] in the call. *)
Definition event (caller : string) (i : Intent) (o : Outcome) (r : option Rejection) (ms : Z)
    (at_ : Time) : Event :=
  mkEvent (ID i) (RequestID i) caller (IOperation i) (ContractAddress i) KeyID
    (HashIntent sha256hex fmtTime i) o r ms at_.

Definition emit (e : Event) (s : Service) : Service :=
  mkService (policy s) (killSwitch s) (replayGuard s) (counters s) (audit s ++ [e]) (built s).

Definition count (f : Counters → Counters) (s : Service) : Service :=
  mkService (policy s) (killSwitch s) (replayGuard s) (f (counters s)) (audit s) (built s).

(** [k] is the next reading of the clock. *)
Definition rejectWith (caller : string) (i : Intent) (clock : nat → Time) (k : nat) (cat : Rejection)
    (s : Service) : result SignError Result * Service :=
  let latency := timeSub (clock k) (clock 0%nat) in
  let s := count (ObserveRejected cat latency) s in
  (Err (ErrPolicy cat),
   emit (event caller i OutcomeRejected (Some cat) (Milliseconds latency) (clock (S k))) s).

Definition Sign (st : stat) (checked : Time) (clock : nat → Time) (caller : string) (i : Intent)
    (s : Service) : result SignError Result * Service :=
  let start := clock 0%nat in
  let s := count (ObserveRequest (IOperation i)) s in
  let '(k, state, ok) := Check_ st checked (killSwitch s) in
  let s := mkService (policy s) k (replayGuard s) (counters s) (audit s) (built s) in
  if negb ok then
    let s := count ObserveDisabled s in
    (Err (ErrSigningDisabled state),
     emit (event caller i OutcomeDisabled (Some RejectKillSwitchActive)
             (Milliseconds (timeSub (clock 1%nat) start)) (clock 2%nat)) s)
  else
    match Validate i with
    | Err cat => rejectWith caller i clock 1 cat s
    | Ok _ =>
        match Evaluate (policy s) i (clock 1%nat) with
        | Err cat => rejectWith caller i clock 2 cat s
        | Ok _ =>
            let '(seen, g) := Observe (replayGuard s) (ID i) (clock 2%nat) in
            let s := mkService (policy s) (killSwitch s) g (counters s) (audit s) (built s) in
            match seen with
            | Err cat => rejectWith caller i clock 3 cat s
            | Ok _ =>
                let s := mkService (policy s) (killSwitch s) (replayGuard s) (counters s) (audit s)
                           (built s ++ [i]) in
                match BuildAndSign i with
                | Err msg =>
                    let s := count ObserveError s in
                    (Err (ErrSign ("sign intent: " +:+ msg)),
                     emit (event caller i OutcomeError None
                             (Milliseconds (timeSub (clock 3%nat) start)) (clock 4%nat)) s)
                | Ok xdr =>
                    let latency := timeSub (clock 3%nat) start in
                    let s := count (ObserveSigned (IOperation i) latency) s in
                    (Ok (mkResult xdr KeyID (HashIntent sha256hex fmtTime i)),
                     emit (event caller i OutcomeSigned None (Milliseconds latency) (clock 4%nat)) s)
                end
            end
        end
    end.
End Pipeline.

(** ** Structural validation *)

Definition strkey (prefix addr : string) : Prop :=
  HasPrefix (TrimSpace addr) prefix = true ∧ len (TrimSpace addr) = strkeyLen.

Definition weights_sum (ws : list WeightEntry) : Z := foldr (λ w s, WeightBps w + s) 0 ws.

Definition weights_ok (ws : list WeightEntry) : Prop :=
  ws ≠ [] ∧ Z.of_nat (length ws) ≤ maxWeightEntries
  ∧ NoDup (TrimSpace ∘ Protocol <$> ws)
  ∧ Forall (λ w, TrimSpace (Protocol w) ≠ "" ∧ len (TrimSpace (Protocol w)) ≤ 64
                 ∧ 0 ≤ WeightBps w ≤ totalWeightBps) ws
  ∧ weights_sum ws = totalWeightBps.

(** The arguments of each shape. *)
Definition args_ok (shape : Shape) (i : Intent) : Prop :=
  (shape = ShapeVoid → Arg0 i = 0 ∧ Arg1 i = 0 ∧ Address i = "" ∧ Weights i = [])
  ∧ (shape = ShapeI128Pair → 0 < Arg0 i ∧ 0 ≤ Arg1 i ∧ Address i = "" ∧ Weights i = [])
  ∧ (shape = ShapeAddressBool → Arg0 i = 0 ∧ Arg1 i = 0 ∧ strkey "G" (Address i) ∧ Weights i = [])
  ∧ (shape = ShapeWeights → Arg0 i = 0 ∧ Arg1 i = 0 ∧ Address i = "" ∧ weights_ok (Weights i)).

Lemma then_Ok {E T} (r : result E unit) (k : result E T) t :
  (r;; k) = Ok t ↔ r = Ok tt ∧ k = Ok t.
Proof.
  destruct r as [[]|e]; simpl; split; [auto|by intros [_ ?]|done|by intros [? _]].
Qed.

Lemma strkey_check pre addr :
  (guard_err (bool_decide (TrimSpace addr = "")) RejectMalformed;;
   guard_err (negb (HasPrefix (TrimSpace addr) pre)) RejectInvalidAddress;;
   guard_err (negb (len (TrimSpace addr) =? strkeyLen)) RejectInvalidAddress) = Ok tt
  ↔ strkey pre addr.
Proof.
  rewrite !then_Ok, !guard_err_Ok, !negb_false_iff, Z.eqb_eq, bool_decide_eq_false. unfold strkey.
  split; [by intros (_ & ? & ?)|]. intros [? Hl]. split_and!; try done. intros E. by rewrite E in Hl.
Qed.

Lemma weights_loop_spec seen total ws :
  0 ≤ total ≤ 10000 * (1000 - Z.of_nat (length ws)) → NoDup seen →
  weights_loop seen total ws = Ok tt ↔
  Forall (λ w, TrimSpace (Protocol w) ≠ "" ∧ len (TrimSpace (Protocol w)) ≤ 64
               ∧ 0 ≤ WeightBps w ≤ totalWeightBps) ws
  ∧ NoDup (TrimSpace ∘ Protocol <$> ws)
  ∧ (∀ w, w ∈ ws → TrimSpace (Protocol w) ∉ seen)
  ∧ total + weights_sum ws = totalWeightBps.
Proof.
  revert seen total. induction ws as [|w ws IH]; intros seen total Ht Hnd; simpl.
  - rewrite guard_err_Ok, negb_false_iff, Z.eqb_eq. rewrite Z.add_0_r. split.
    + intros ->. split_and!; [done|constructor|intros w Hw; by apply elem_of_nil in Hw|done].
    + by intros (_ & _ & _ & ?).
  - rewrite Forall_cons, NoDup_cons.
    case_decide as Hn; [split; [done|]; by intros (((? & _) & _) & _)|].
    destruct (Z.ltb_spec 64 (len (TrimSpace (Protocol w)))) as [Hl|Hl];
      [split; [done|]; intros (((_ & ? & _) & _) & _); lia|].
    case_decide as Hs.
    { split; [done|]. intros (_ & _ & Hall & _). exfalso. apply (Hall w); [left|done]. }
    destruct (_ || _) eqn:Hb.
    { split; [done|]. intros (((_ & _ & ?) & _) & _). apply orb_true_iff in Hb. unfold totalWeightBps in *.
      rewrite !Z.ltb_lt in Hb. lia. }
    apply orb_false_iff in Hb as [Hb0 Hb1]. rewrite Z.ltb_ge in Hb0, Hb1.
    simpl length in Ht. unfold totalWeightBps in Hb1.
    rewrite i64_id by (unfold in_i64, min_i64, max_i64; lia).
    rewrite IH by (lia || by constructor). split.
    + intros (HF & Hnd' & Hall & Hsum). split_and!; try done; unfold totalWeightBps in *; try lia.
      * rewrite list_elem_of_fmap. intros (x & Hx & Hin). apply (Hall x Hin).
        unfold compose in Hx. rewrite <-Hx. left.
      * intros x [->|Hx]%elem_of_cons; [done|]. intros Hin. apply (Hall x Hx). by right.
    + intros ((_ & HF) & (Hout & Hnd') & Hall & Hsum). split_and!; try done; [|lia].
      intros x Hx [Heq|Hin]%elem_of_cons; [|by apply (Hall x); [right|]].
      apply Hout. apply list_elem_of_fmap. exists x. done.
Qed.

Lemma validateWeights_spec ws : validateWeights ws = Ok tt ↔ weights_ok ws.
Proof.
  unfold validateWeights, weights_ok. destruct ws as [|w ws]; [split; [done|by intros []]|].
  destruct (Z.ltb_spec maxWeightEntries (Z.of_nat (length (w :: ws)))) as [Hl|Hl];
    [split; [done|]; intros (_ & ? & _); lia|].
  unfold maxWeightEntries in Hl. rewrite weights_loop_spec by (lia || constructor).
  split; [intros (? & ? & _ & ?)|intros (_ & _ & ? & ? & ?)]; split_and!; try done.
  intros x _ Hx. by apply elem_of_nil in Hx.
Qed.

Lemma has_weights_false i : has_weights i = false ↔ Weights i = [].
Proof.
  unfold has_weights. destruct (Weights i) as [|w ws]; simpl; [done|]. split; [|done].
  rewrite Z.ltb_ge. lia.
Qed.

Lemma validateArgs_spec shape i : validateArgs shape i = Ok tt ↔ args_ok shape i.
Proof.
  unfold validateArgs, args_ok. case_decide as H1; [|case_decide as H2; [|case_decide as H3;
    [|case_decide as H4]]]; subst.
  - rewrite guard_err_Ok, !orb_false_iff, !negb_false_iff, !Z.eqb_eq, bool_decide_eq_true,
      has_weights_false. split; [intros (((? & ?) & ?) & ?)|by intros ([? (?&?&?)] & _)].
    split_and!; by intros.
  - rewrite !then_Ok, !guard_err_Ok, !orb_false_iff, !negb_false_iff, bool_decide_eq_true,
      has_weights_false, Z.leb_gt, Z.ltb_ge.
    split; [intros ((? & ?) & ? & ?)|by intros (_ & [? (?&?&?)] & _)]. split_and!; by intros.
  - rewrite !then_Ok, !guard_err_Ok, !orb_false_iff, !negb_false_iff, !Z.eqb_eq, has_weights_false.
    rewrite (strkey_check "G" (Address i) : validateAccountAddress (Address i) = Ok tt ↔ _).
    split; [intros (((? & ?) & ?) & ?)|by intros (_ & _ & [? (?&?&?)] & _)]. split_and!; by intros.
  - rewrite !then_Ok, !guard_err_Ok, !orb_false_iff, !negb_false_iff, !Z.eqb_eq, bool_decide_eq_true,
      validateWeights_spec.
    split; [intros (((? & ?) & ?) & ?)|by intros (_ & _ & _ & [? (?&?&?)])]. split_and!; by intros.
  - split; [|done]. by intros _.
Qed.

(** [Validate] accepts exactly the intents with an id, a network, an issue
    time and a contract address of the right form, whose operation is known,
    whose shape is the operation's, and whose arguments are those of the
    shape: no argument, a positive amount with a guard, a G-address, or at
    most 32 weights of distinct protocols summing to 10000 bps.  The flag of
    an intent is never looked at. *)
Theorem sign_validate_spec i :
  Validate i = Ok tt ↔
  TrimSpace (ID i) ≠ "" ∧ strkey "C" (ContractAddress i) ∧ TrimSpace (NetworkPassphrase i) ≠ ""
  ∧ IssuedAt i ≠ zeroTime
  ∧ ShapeFor (IOperation i) = Some (IShape i) ∧ args_ok (IShape i) i.
Proof.
  unfold Validate. rewrite then_Ok, guard_err_Ok, bool_decide_eq_false.
  destruct (ShapeFor (IOperation i)) as [shape|].
  2:{ split; [by intros [_ ?]|by intros (_ & _ & _ & _ & ? & _)]. }
  rewrite !then_Ok, !guard_err_Ok, negb_false_iff, bool_decide_eq_true, bool_decide_eq_false,
    Z.eqb_neq, validateArgs_spec.
  rewrite (strkey_check "C" (ContractAddress i)
    : validateContractAddress (ContractAddress i) = Ok tt ↔ _).
  split.
  - by intros (? & <- & ? & ? & ? & ?).
  - by intros (? & ? & ? & ? & [= ->] & ?).
Qed.

(** ** The order of the checks *)

(** Whether a request reaches the key. *)
Definition admitted (st : stat) (clock : nat → Time) (i : Intent) (s : Service) : bool :=
  match st with StatNotExist => true | _ => false end
  && is_ok (Validate i) && is_ok (Evaluate (policy s) i (clock 1%nat))
  && is_ok (Observe (replayGuard s) (ID i) (clock 2%nat)).1.

Definition outcome_of {T} (r : result SignError T) : Outcome * option Rejection :=
  match r with
  | Ok _ => (OutcomeSigned, None)
  | Err (ErrSigningDisabled _) => (OutcomeDisabled, Some RejectKillSwitchActive)
  | Err (ErrPolicy cat) => (OutcomeRejected, Some cat)
  | Err (ErrSign _) => (OutcomeError, None)
  end.

Section Calls.
Context `{B : Backend} (sha256hex : string → string) (fmtTime : Time → string).

Abbreviation sign := (Sign sha256hex fmtTime).

(** The key is applied only to an intent that the kill switch, the
    validation, the policy and the replay guard all let through, and to that
    intent; every call, refused or not, leaves exactly one audit event that
    names the intent, its commitment and the outcome the caller gets. *)
Theorem sign_pipeline st at_ clock caller i s :
  let r := (sign st at_ clock caller i s).1 in
  let s' := (sign st at_ clock caller i s).2 in
  built s' = built s ++ (if admitted st clock i s then [i] else [])
  ∧ (∀ res, r = Ok res → admitted st clock i s = true ∧ BuildAndSign i = Ok (SignedXDR res))
  ∧ (st ≠ StatNotExist → ∃ state, r = Err (ErrSigningDisabled state))
  ∧ policy s' = policy s
  ∧ ∃ ev, audit s' = audit s ++ [ev] ∧ EvIntentID ev = ID i ∧ EvCaller ev = caller
      ∧ EvIntentHash ev = HashIntent sha256hex fmtTime i
      ∧ (EvOutcome ev, EvRejection ev) = outcome_of r.
Proof.
  unfold Sign, admitted. destruct st as [| |msg]; simpl.
  1,3: rewrite app_nil_r; split_and!; try done; [eauto|]; eexists; split; [reflexivity|done].
  destruct (Validate i) as [[]|cat]; simpl.
  2:{ rewrite app_nil_r. split_and!; try done. eexists; split; [reflexivity|done]. }
  destruct (Evaluate (policy s) i (clock 1%nat)) as [[]|cat]; simpl.
  2:{ rewrite app_nil_r. split_and!; try done. eexists; split; [reflexivity|done]. }
  destruct (Observe (replayGuard s) (ID i) (clock 2%nat)) as [[[]|cat] g]; simpl.
  2:{ rewrite app_nil_r. split_and!; try done. eexists; split; [reflexivity|done]. }
  destruct (BuildAndSign i) as [xdr|msg]; simpl; split_and!; try done.
  - intros res [= <-]. done.
  - eexists; split; [reflexivity|done].
  - eexists; split; [reflexivity|done].
Qed.

(** ** Replay *)

(** One request as the signer meets it; [rq_locked] is when it takes the
    guard's lock, if it comes that far. *)
Record request := mkRequest {
  rq_stat : stat;
  rq_checked : Time;
  rq_clock : nat → Time;
  rq_locked : Time;
  rq_caller : string;
  rq_intent : Intent;
}.

Definition serve (s : Service) (r : request) : Service :=
  (sign (rq_stat r) (rq_checked r) (rq_clock r) (rq_caller r) (rq_intent r) s).2.

(** The readings a request's decision rests on: the policy's and the guard's,
    which is taken before the guard's lock. *)
Definition policy_at (r : request) : Time := rq_clock r 1%nat.
Definition observed_at (r : request) : Time := rq_clock r 2%nat.

(** The request comes to the guard. *)
Definition reaches (p : Policy) (r : request) : bool :=
  match rq_stat r with StatNotExist => true | _ => false end
  && is_ok (Validate (rq_intent r)) && is_ok (Evaluate p (rq_intent r) (policy_at r)).

(** The requests in the order in which they take the guard's lock.  The clock
    does not run back, but a request may be held up between its reading and the
    lock, so the readings themselves need not be in order; from the policy's
    reading to the lock it takes at most [gap]. *)
Fixpoint timely (p : Policy) (gap : Duration) (last : Time) (rs : list request) : Prop :=
  match rs with
  | [] => True
  | r :: rs =>
      if reaches p r
      then last ≤ rq_locked r ∧ policy_at r ≤ observed_at r ≤ rq_locked r
           ∧ rq_locked r ≤ policy_at r + gap ∧ timely p gap (rq_locked r) rs
      else timely p gap last rs
  end.

(** The identity of an intent for replay: its id and its issue time. *)
Definition issue (i : Intent) : string * Time := (ID i, IssuedAt i).

(** What the guard still knows of an intent signed on the reading [o]: its
    entry, or that a reading up to [last] has swept it. *)
Record remembered (p : Policy) (g : ReplayGuard) (last : Time) (i : Intent) (o : Time) : Prop := {
  rem_issued : IssuedAt i ≤ o + ClockSkew p;
  rem_seen : seen g !! ID i = Some o ∨ o + retention g < last;
}.

Record guard_inv (s : Service) (last : Time) : Prop := {
  gi_built i : i ∈ built s → ∃ o, remembered (policy s) (replayGuard s) last i o;
  gi_once : NoDup (issue <$> built s);
}.

Lemma sweep_remembered p g last now last' i o :
  last ≤ last' → now ≤ last' → remembered p g last i o → remembered p (sweepLocked g now) last' i o.
Proof.
  intros Hle Hnow [H1 H2]. unfold sweepLocked. destruct (_ <? _).
  - split; [done|]. destruct H2; [by left|right; lia].
  - split; [done|]. simpl. destruct H2 as [Ht|H2]; [|right; lia].
    destruct (decide (o < timeAdd now (- retention g))) as [Hlt|Hge].
    + right. unfold timeAdd in Hlt. lia.
    + left. by apply map_lookup_filter_Some.
Qed.

Lemma sweep_retention g now : retention (sweepLocked g now) = retention g.
Proof. unfold sweepLocked. by destruct (_ <? _). Qed.

(** An intent within the policy at [at_] was issued between these bounds. *)
Lemma Evaluate_age p i at_ :
  0 ≤ MaxIntentAge p < max_i64 → 0 ≤ ClockSkew p ≤ max_i64 → Evaluate p i at_ = Ok tt →
  at_ - MaxIntentAge p ≤ IssuedAt i ≤ at_ + ClockSkew p.
Proof.
  intros Hm Hs. unfold Evaluate. rewrite !then_Ok. intros (_ & _ & _ & _ & _ & _ & _ & H1 & H2).
  rewrite guard_err_Ok in H1, H2. rewrite Z.ltb_ge in H1, H2.
  rewrite i64_id in H2 by (unfold in_i64, min_i64, max_i64 in *; lia).
  unfold timeSub, sat64, min_i64, max_i64 in *. lia.
Qed.

(** A request that does not come to the guard leaves it. *)
Lemma serve_quiet s r :
  reaches (policy s) r = false →
  built (serve s r) = built s ∧ replayGuard (serve s r) = replayGuard s ∧ policy (serve s r) = policy s.
Proof.
  unfold reaches, serve, Sign, policy_at. destruct (rq_stat r) as [| |msg]; simpl; try done.
  destruct (Validate (rq_intent r)) as [[]|cat]; simpl; [|done].
  by destruct (Evaluate (policy s) (rq_intent r) (rq_clock r 1)) as [[]|cat].
Qed.

(** One that does signs its intent exactly if the guard has no entry. *)
Lemma serve_reaches s r :
  reaches (policy s) r = true →
  Evaluate (policy s) (rq_intent r) (policy_at r) = Ok tt
  ∧ policy (serve s r) = policy s
  ∧ let g := sweepLocked (replayGuard s) (observed_at r) in
    let i := rq_intent r in
    is_Some (seen g !! ID i) ∧ built (serve s r) = built s ∧ replayGuard (serve s r) = g
    ∨ seen g !! ID i = None ∧ built (serve s r) = built s ++ [i]
      ∧ replayGuard (serve s r) = mkGuard (<[ID i := observed_at r]> (seen g)) (retention g) (lastSweep g).
Proof.
  unfold reaches, serve, Sign, policy_at. destruct (rq_stat r) as [| |msg]; simpl; try done.
  destruct (Validate (rq_intent r)) as [[]|cat]; simpl; [|done].
  destruct (Evaluate (policy s) (rq_intent r) (rq_clock r 1)) as [[]|cat] eqn:He; simpl; [|done].
  intros _. split; [done|]. unfold Observe. fold (observed_at r).
  case_decide as Hdup; simpl; [split; [done|by left]|].
  destruct (BuildAndSign (rq_intent r)); simpl; (split; [done|]; right; split; [by apply eq_None_not_Some|done]).
Qed.

Lemma serve_guard_inv gap s last r :
  guard_inv s last → reaches (policy s) r = true →
  0 ≤ MaxIntentAge (policy s) < max_i64 → 0 ≤ ClockSkew (policy s) ≤ max_i64 →
  MaxIntentAge (policy s) + ClockSkew (policy s) + gap ≤ retention (replayGuard s) →
  last ≤ rq_locked r → policy_at r ≤ observed_at r ≤ rq_locked r → rq_locked r ≤ policy_at r + gap →
  guard_inv (serve s r) (rq_locked r)
  ∧ policy (serve s r) = policy s ∧ retention (replayGuard (serve s r)) = retention (replayGuard s).
Proof.
  intros [Hbuilt Honce] Hreach Hm Hsk Hret Hlast Hobs Hgap.
  destruct (serve_reaches s r Hreach) as (He & Hp & Hs). cbn zeta in Hs.
  pose proof (Evaluate_age _ _ _ Hm Hsk He) as Hage. set (i := rq_intent r) in *.
  set (g' := sweepLocked (replayGuard s) (observed_at r)) in *.
  assert (Hr' : retention g' = retention (replayGuard s)) by apply sweep_retention.
  assert (Hrem : ∀ j, j ∈ built s → ∃ o, remembered (policy s) g' (rq_locked r) j o).
  { intros j Hj. destruct (Hbuilt j Hj) as (o & Ho). exists o. apply (sweep_remembered _ _ last); [lia..|done]. }
  destruct Hs as [(_ & Hb & Hg)|(Hfree & Hb & Hg)]; (split; [|split; [done|by rewrite Hg]]).
  { split; rewrite Hb; [|done]. intros j Hj. rewrite Hp, Hg. by apply Hrem. }
  split; rewrite Hb.
  - intros j [Hj|Hj]%elem_of_app; rewrite Hp, Hg.
    + destruct (Hrem j Hj) as (o & [H1 H2]). exists o. split; [done|]. simpl. destruct H2 as [Ht|H2]; [|by right].
      left. rewrite lookup_insert_ne; [done|]. intros E. rewrite E in Hfree. congruence.
    + apply list_elem_of_singleton in Hj as ->. exists (observed_at r). split; simpl; [lia|].
      left. by rewrite lookup_insert_eq.
  - rewrite fmap_app. apply NoDup_app. split_and!; [done| |apply NoDup_singleton].
    intros x (j & -> & Hj)%list_elem_of_fmap Hx. apply list_elem_of_singleton in Hx.
    injection Hx as Hid Hiss. destruct (Hrem j Hj) as (o & [H1 [Ht|H2]]); [congruence|].
    rewrite Hiss in H1. rewrite Hr' in H2. lia.
Qed.

Lemma serve_all_inv gap rs s last :
  guard_inv s last →
  0 ≤ MaxIntentAge (policy s) < max_i64 → 0 ≤ ClockSkew (policy s) ≤ max_i64 →
  MaxIntentAge (policy s) + ClockSkew (policy s) + gap ≤ retention (replayGuard s) →
  timely (policy s) gap last rs → NoDup (issue <$> built (foldl serve s rs)).
Proof.
  revert s last. induction rs as [|r rs IH]; intros s last Hg Hm Hs Hret Ho; simpl.
  - by destruct Hg.
  - simpl in Ho. destruct (reaches (policy s) r) eqn:Er.
    + destruct Ho as (H1 & H2 & H3 & Ho).
      destruct (serve_guard_inv gap s last r Hg Er Hm Hs Hret H1 H2 H3) as (Hg' & Hp & Hr).
      eapply IH; [exact Hg'|by rewrite Hp..|by rewrite Hp, Hr|by rewrite Hp].
    + destruct (serve_quiet s r Er) as (Eb & Eg & Ep).
      apply (IH _ last); rewrite ?Ep, ?Eg; try done. destruct Hg as [G1 G2]. split; rewrite Eb; [|done].
      rewrite Ep, Eg. done.
Qed.

(** C19: No captured intent is signed twice.  Whatever requests arrive, in
    whatever order their readings of the clock and their turns at the guard
    fall, as long as the guard remembers ids for the validity window, the skew
    tolerance and [gap], the longest that a request takes from the policy's
    reading of the clock to the guard's lock, the key is applied at most once to
    an id and issue time.  The clock is one that does not run back, and the
    signer starts having signed nothing. *)
Theorem sign_never_twice gap s last rs :
  built s = [] →
  0 ≤ MaxIntentAge (policy s) < max_i64 → 0 ≤ ClockSkew (policy s) ≤ max_i64 →
  MaxIntentAge (policy s) + ClockSkew (policy s) + gap ≤ retention (replayGuard s) →
  timely (policy s) gap last rs →
  NoDup (issue <$> built (foldl serve s rs)).
Proof.
  intros Hb. apply serve_all_inv. split; [|rewrite Hb; constructor].
  intros i. rewrite Hb. by intros ?%elem_of_nil.
Qed.
End Calls.

(** ** The commitment *)

(** No separator bytes. *)
Definition clean (s : string) : bool := str_all (λ c, bool_decide (c ≠ US ∧ c ≠ RS)) s.

Lemma clean_sep sep s :
  sep = US ∨ sep = RS → clean s = true → str_all (λ c, bool_decide (c ≠ sep)) s = true.
Proof.
  intros Hsep. unfold clean. induction s as [|c s IH]; simpl; [done|].
  rewrite !andb_true_iff, !bool_decide_eq_true. intros [[H1 H2] Hs]. split; [|auto].
  by destruct Hsep; subst.
Qed.

Lemma clean_app s t : clean (s +:+ t) = clean s && clean t.
Proof. apply str_all_app. Qed.

Lemma clean_itoa z : clean (itoa z) = true.
Proof.
  pose proof (itoa_numeral z) as H. unfold clean. induction (itoa z) as [|c s IH]; simpl in *; [done|].
  apply andb_true_iff in H as [Hc Hs]. rewrite IH by done. rewrite andb_true_r.
  apply bool_decide_eq_true in Hc. apply bool_decide_eq_true.
  set_unfold in Hc. destruct_or!; subst; done.
Qed.

Definition encode (l : list (string * string)) : string :=
  foldr (λ f s, writeField f.1 f.2 +:+ s) ""%string l.

Definition clean_field (f : string * string) : Prop := clean f.1 = true ∧ clean f.2 = true.

Lemma string_app_cons c (s t : string) : String c s +:+ t = String c (s +:+ t).
Proof. reflexivity. Qed.

Lemma encode_cons t f l :
  encode ((t, f) :: l) = t +:+ String US (f +:+ String RS (encode l)).
Proof.
  unfold encode. simpl. unfold writeField.
  by rewrite <-string_app_assoc, string_app_cons, <-string_app_assoc, string_app_cons.
Qed.

Lemma encode_nonempty t f l : encode ((t, f) :: l) ≠ ""%string.
Proof. rewrite encode_cons. by destruct t. Qed.

(** Fields without separators can be read back. *)
Lemma encode_inj l l' :
  Forall clean_field l → Forall clean_field l' → encode l = encode l' → l = l'.
Proof.
  intros Hl. revert l'. induction Hl as [|[t f] l [Ht Hf] Hl IH]; intros [|[t' f'] l'] Hl' E.
  - done.
  - symmetry in E. by apply encode_nonempty in E.
  - by apply encode_nonempty in E.
  - apply Forall_cons in Hl' as [[Ht' Hf'] Hl'].
    simpl in Ht, Hf, Ht', Hf'. rewrite !encode_cons in E.
    apply split_at_sep in E as [-> E]; [|by apply clean_sep; auto..].
    apply split_at_sep in E as [-> E]; [|by apply clean_sep; auto..].
    by rewrite (IH l').
Qed.

Definition clean_intent (i : Intent) : Prop :=
  clean (ID i) = true ∧ clean (IOperation i) = true ∧ clean (IShape i) = true
  ∧ clean (ContractAddress i) = true ∧ clean (Address i) = true
  ∧ Forall (λ w, clean (Protocol w) = true) (Weights i).

Lemma clean_label p : clean (NetworkLabel p) = true.
Proof. unfold NetworkLabel. by repeat case_decide. Qed.

Lemma clean_fields fmtTime i :
  (∀ t, clean (fmtTime t) = true) → clean_intent i → Forall clean_field (intent_fields fmtTime i).
Proof.
  intros Ht (H1 & H2 & H3 & H4 & H5 & H6). unfold intent_fields.
  apply Forall_app. split; [|apply Forall_app; split; [|apply Forall_singleton; split; [done|apply Ht]]].
  - repeat (apply Forall_cons_2 || apply Forall_nil_2); split; simpl;
      try done; try apply clean_itoa; try apply clean_label. by destruct (Flag i).
  - apply Forall_fmap. eapply Forall_impl; [exact H6|]. intros w Hw.
    split; simpl; [|apply clean_itoa]. by rewrite clean_app, Hw.
Qed.

(** The commitment of intents that carry no separator byte identifies what
    would be signed: two with the same hash input agree on the id, operation,
    shape, contract, network label, arguments, address, flag, weights and
    issue time. *)
Theorem sign_commitment_binding (fmtTime : Time → string) i j :
  (∀ t, clean (fmtTime t) = true) → (∀ t u, fmtTime t = fmtTime u → t = u) →
  clean_intent i → clean_intent j → preimage fmtTime i = preimage fmtTime j →
  j = mkIntent (ID i) (IOperation i) (IShape i) (ContractAddress i) (NetworkPassphrase j) (Arg0 i)
        (Arg1 i) (Address i) (Flag i) (Weights i) (IssuedAt i) (RequestID j)
  ∧ NetworkLabel (NetworkPassphrase j) = NetworkLabel (NetworkPassphrase i).
Proof.
  intros Hc Hinj Hi Hj E. apply encode_inj in E; [|by apply clean_fields..].
  unfold intent_fields in E. simpl in E. injection E as E1 E2 E3 E4 E5 E6 E7 E8 E9 E10.
  apply (inj pretty) in E6, E7.
  assert (Flag i = Flag j) as Hflag by (by destruct (Flag i), (Flag j)).
  assert (length (Weights i) = length (Weights j)) as Hlen.
  { apply (f_equal length) in E10. rewrite !length_app, !length_fmap in E10. simpl in E10. lia. }
  apply app_inj_1 in E10 as [Hw Ht]; [|by rewrite !length_fmap].
  injection Ht as Ht%Hinj.
  assert (Weights i = Weights j) as HW.
  { clear -Hw. revert Hw. generalize (Weights i) (Weights j). intros l. induction l as [|[p b] l IH];
      intros [|[p' b'] l'] Hw; [done|discriminate Hw|discriminate Hw|].
    injection Hw as Hp Hb Hl. change (p = p') in Hp. apply (inj pretty) in Hb. subst.
    f_equal. by apply IH. }
  destruct j. simpl in *. split; congruence.
Qed.

(** ** The kill switch *)

Definition single_line (s : string) : bool := str_all (λ c, bool_decide (c ≠ LF ∧ c ≠ CR)) s.

Lemma sanitizeReason_spec reason :
  single_line (sanitizeReason reason) = true ∧ len (sanitizeReason reason) ≤ 256.
Proof.
  unfold sanitizeReason. case_decide; [done|].
  set (r := replaceByte CR _ _).
  assert (single_line r = true) as Hr.
  { unfold single_line, r.
    assert (∀ s, str_all (λ c, bool_decide (c ≠ LF ∧ c ≠ CR)) s
      = str_all (λ c, bool_decide (c ≠ LF)) s && str_all (λ c, bool_decide (c ≠ CR)) s) as ->.
    { intros s. induction s as [|c s IH]; simpl; [done|]. rewrite IH.
      destruct (decide (c = LF)), (decide (c = CR)); subst; simpl;
        rewrite ?bool_decide_true, ?bool_decide_false by naive_solver; simpl; try done;
        by rewrite ?andb_false_r. }
    apply andb_true_iff. split.
    - apply replaceByte_keeps; [done|]. apply replaceByte_all; [|done].
      intros c Hc. by apply bool_decide_eq_true.
    - apply replaceByte_all; [|done]. intros c Hc. by apply bool_decide_eq_true. }
  destruct (Z.ltb_spec 256 (len r)); [|done]. split.
  - by apply substring_all.
  - unfold len, slice. pose proof (substring_length (Z.to_nat 256) r). lia.
Qed.

(** An engaged switch halts signing, whatever reason was recorded: until
    it is released every request is refused without touching the key, and so
    is every request while the switch cannot be read.  The recorded reason is
    one line of at most 256 bytes, so it adds no line to the sentinel. *)
Theorem sign_kill_switch `{B : Backend} sha256hex fmtTime stamp reason f f' at_ clock caller i s :
  Engage false stamp reason f = (true, f') →
  (∃ line, body f' = Some ("disabled_at=" +:+ stamp +:+ String LF ("reason=" +:+ line +:+ String LF ""))
           ∧ single_line line = true ∧ len line ≤ 256)
  ∧ (∀ st, st = Stat f' ∨ (∃ msg, st = StatErr msg) →
       (∃ state, (Sign sha256hex fmtTime st at_ clock caller i s).1 = Err (ErrSigningDisabled state))
       ∧ built (Sign sha256hex fmtTime st at_ clock caller i s).2 = built s)
  ∧ Release false f' = (true, mkSentinel None None).
Proof.
  unfold Engage. destruct (io f); [done|]. intros [= <-]. split_and!.
  - exists (sanitizeReason reason). split; [done|]. apply sanitizeReason_spec.
  - intros st [->|[msg ->]]; simpl; split; eauto.
  - done.
Qed.

(** ** Where the guarantees end *)

Definition demo_contract : string := "CAAAAAAAAAAAAAAAAAAAAAAAAAAAAAAAAAAAAAAAAAAAAAAAAAAAAAAA".
Definition demo_network : string := "Test SDF Network ; September 2015".
Definition demo_policy : Policy :=
  NewPolicy demo_network [demo_contract] [OpPause; OpSetWeights] 0 0 0.
Definition demo_backend : Backend := {| KeyID := "k1"; BuildAndSign _ := Ok "xdr"%string |}.
Definition demo_T : Time := 1700000000 * Second.

(** Issued by a clock that runs the tolerated 30 seconds fast. *)
Definition demo_pause : Intent :=
  mkIntent "i-1" OpPause ShapeVoid demo_contract demo_network 0 0 "" false [] (demo_T + 30 * Second) "".

Definition demo_request (i : Intent) (policyAt guardAt locked : Time) : request :=
  mkRequest StatNotExist policyAt
    (λ k, if decide (k ≤ 1)%nat then policyAt else guardAt) locked "api" i.

(** The second copy passes the policy at the last nanosecond of its validity;
    the guard reads the clock one nanosecond later. *)
Definition demo_replay : list request :=
  [demo_request demo_pause demo_T demo_T demo_T;
   demo_request demo_pause (demo_T + 150 * Second) (demo_T + 150 * Second + 1) (demo_T + 150 * Second + 1)].

Definition demo_serve : Service → request → Service :=
  serve (B := demo_backend) (λ s, s) itoa.

(** The default retention, validity plus skew, leaves no room for the time
    between the policy's reading of the clock and the guard's lock: an intent
    issued at the edge of the skew tolerance and replayed at the edge of its
    validity is signed a second time. *)
Theorem sign_replay_window :
  built (foldl demo_serve (NewService demo_policy) demo_replay) = [demo_pause; demo_pause]
  ∧ timely demo_policy 1 demo_T demo_replay
  ∧ retention (replayGuard (NewService demo_policy))
    = MaxIntentAge demo_policy + ClockSkew demo_policy.
Proof. split; [vm_compute; reflexivity|]. split; [vm_compute; intuition discriminate|reflexivity]. Qed.

Definition demo_other : Intent :=
  mkIntent "i-9" OpPause ShapeVoid demo_contract demo_network 0 0 "" false [] (demo_T + 150 * Second) "".

Definition demo_guarded : Service :=
  mkService demo_policy (mkSwitch None "" zeroTime) (NewReplayGuard (151 * Second)) NewCounters [] [].

(** A replay that has read the clock waits two seconds for the guard. *)
Definition demo_stalled : list request :=
  [demo_request demo_pause demo_T demo_T demo_T;
   demo_request demo_other (demo_T + 152 * Second) (demo_T + 152 * Second) (demo_T + 152 * Second);
   demo_request demo_pause (demo_T + 150 * Second) (demo_T + 150 * Second) (demo_T + 152 * Second)].

(** The reading is taken before the lock: a request that waits for the lock
    longer than the retention exceeds validity and skew may find its id swept
    by one that read the clock later, and is signed a second time. *)
Theorem sign_stalled_replay :
  built (foldl demo_serve demo_guarded demo_stalled) = [demo_pause; demo_other; demo_pause]
  ∧ timely demo_policy (2 * Second) demo_T demo_stalled
  ∧ retention (replayGuard demo_guarded) = MaxIntentAge demo_policy + ClockSkew demo_policy + Second.
Proof. split; [vm_compute; reflexivity|]. split; [vm_compute; intuition discriminate|reflexivity]. Qed.

(** The same requests, with a guard that remembers for the wait too. *)
Definition demo_patient : Service :=
  mkService demo_policy (mkSwitch None "" zeroTime) (NewReplayGuard (152 * Second)) NewCounters [] [].

Definition demo_weights (ws : list WeightEntry) : Intent :=
  mkIntent "i-2" OpSetWeights ShapeWeights demo_contract demo_network 0 0 "" false ws demo_T "".

Definition demo_two : Intent := demo_weights [mkWeight "aave" 0; mkWeight "blend" 10000].
Definition demo_one : Intent :=
  demo_weights [mkWeight ("aave" +:+ String US ("0" +:+ String RS "w:blend")) 10000].

(** The hash input separates fields but does not escape or prefix them:
    two intents that pass validation and policy and set different weights have
    the same commitment. *)
Theorem sign_commitment_collision :
  Validate demo_one = Ok tt ∧ Validate demo_two = Ok tt
  ∧ Evaluate demo_policy demo_one demo_T = Ok tt ∧ Evaluate demo_policy demo_two demo_T = Ok tt
  ∧ Weights demo_one ≠ Weights demo_two
  ∧ ∀ sha256hex fmtTime, HashIntent sha256hex fmtTime demo_one = HashIntent sha256hex fmtTime demo_two.
Proof.
  do 4 (split; [vm_compute; reflexivity|]). split; [discriminate|].
  intros sha fmt. reflexivity.
Qed.

(** ** Witnesses *)

Lemma sign_never_twice_witness :
  built (foldl demo_serve demo_patient demo_stalled) = [demo_pause; demo_other]
  ∧ NoDup (issue <$> built (foldl demo_serve demo_patient demo_stalled)).
Proof.
  split; [vm_compute; reflexivity|].
  apply (sign_never_twice (B := demo_backend) (λ s, s) itoa (2 * Second) demo_patient demo_T demo_stalled).
  - reflexivity.
  - vm_compute. intuition discriminate.
  - vm_compute. intuition discriminate.
  - vm_compute. discriminate.
  - vm_compute. intuition discriminate.
Defined.

Lemma sign_commitment_binding_witness :
  Weights demo_two = [mkWeight "aave" 0; mkWeight "blend" 10000].
Proof.
  destruct (sign_commitment_binding itoa demo_two demo_two) as [E _].
  - apply clean_itoa.
  - intros t u. apply (inj pretty).
  - repeat split; repeat constructor.
  - repeat split; repeat constructor.
  - reflexivity.
  - rewrite E. reflexivity.
Defined.

Lemma sign_kill_switch_witness :
  built (Sign (B := demo_backend) (λ s, s) itoa StatOk demo_T (λ _, demo_T) "api" demo_pause
    (NewService demo_policy)).2 = [].
Proof.
  destruct (sign_kill_switch (B := demo_backend) (λ s, s) itoa "now" "drill" (mkSentinel None None)
    (Engage false "now" "drill" (mkSentinel None None)).2 demo_T (λ _, demo_T) "api" demo_pause
    (NewService demo_policy)) as (_ & Hoff & _).
  - reflexivity.
  - apply Hoff. left. reflexivity.
Defined.
