(* ===== verification/Retry.v ===== *)
(** Bounded retries (internal/retry/retry.go): policies, the exponential
    backoff cap with full jitter, and the attempt loop of [Runner.Do].

    What the loop runs against, the clock, the caller's function, sleeping,
    the jitter draw and the context under the budget's deadline, is the
    [World] class over a state of the caller's choosing. *)

From S2P Require Import Prelude.
Open Scope Z_scope.

(** ** Policies *)

Definition DefaultMaxAttempts : Z := 3.
Definition DefaultBaseDelay : Duration := 100 * Millisecond.
Definition DefaultMaxDelay : Duration := 2 * Second.
Definition DefaultBudget : Duration := 12 * Second.

Record Policy := mkPolicy {
  MaxAttempts : Z;
  BaseDelay : Duration;
  MaxDelay : Duration;
  Budget : Duration;
}.

Definition withDefaults (p : Policy) : Policy :=
  {| MaxAttempts := if MaxAttempts p <=? 0 then DefaultMaxAttempts else MaxAttempts p;
     BaseDelay := if BaseDelay p <=? 0 then DefaultBaseDelay else BaseDelay p;
     MaxDelay := if MaxDelay p <=? 0 then DefaultMaxDelay else MaxDelay p;
     Budget := if Budget p <=? 0 then DefaultBudget else Budget p |}.

Inductive PolicyError := BadMaxAttempts | BadBaseDelay | BadMaxDelay | BadBudget.

Definition Validate (p : Policy) : result PolicyError unit :=
  guard_err (MaxAttempts p <? 1) BadMaxAttempts;;
  guard_err (BaseDelay p <=? 0) BadBaseDelay;;
  guard_err (MaxDelay p <? BaseDelay p) BadMaxDelay;;
  guard_err (Budget p <=? 0) BadBudget.

Definition maxShift : Z := 62.

Definition backoffCap (p : Policy) (attempt : Z) : Duration :=
  let attempt := if attempt <? 1 then 1 else attempt in
  let shift := attempt - 1 in
  if maxShift <? shift then MaxDelay p
  else
    let scaled := f64_mul (f64_of_Z (BaseDelay p)) (f64_pow2 shift) in
    if f64_geb scaled (f64_of_Z (MaxDelay p)) then MaxDelay p else f64_to_i64 scaled.

(** [draw n] is rand.Int64N(n), in [0, n). *)
Definition fullJitter (draw : Z → Z) (cap : Duration) : Duration :=
  if cap <=? 0 then 0 else draw cap.

(** ** The loop *)

(** What the loop acts on: [w_ctx] is ctx.Err() of the context under the
    budget's deadline. *)
Class World (W E : Type) := {
  w_now : W → Time;
  w_ctx : W → option E;
  w_fn : W → option E * W;
  w_sleep : Duration → W → option E * W;
  w_jitter : Duration → W → Duration * W;
}.

Record Result := mkResult { Attempts : Z; Elapsed : Duration }.

(** The typed failure, or an error the caller declined to retry. *)
Inductive Failure (E : Type) :=
| Exhausted (attempts : Z) (elapsed : Duration) (err : E)
| Declined (err : E).
Arguments Exhausted {E}.
Arguments Declined {E}.

Section Loop.
Context {W E : Type} `{!World W E} (retryable : option (E → bool)).

Definition since (startedAt : Time) (s : W) : Duration :=
  let elapsed := timeSub (w_now s) startedAt in
  if elapsed <? 0 then 0 else elapsed.

Definition exhausted (attempts : Z) (startedAt : Time) (err : E) (s : W)
    : Result * option (Failure E) :=
  let r := mkResult attempts (since startedAt s) in
  (r, Some (Exhausted attempts (Elapsed r) err)).

Definition declines (e : E) : bool :=
  match retryable with None => true | Some f => negb (f e) end.

(** The body of the loop from [attempt] on, [more] attempts before the last;
    [last] is [lastErr]. *)
Fixpoint loop (more : nat) (p : Policy) (startedAt : Time) (attempt : Z) (last : option E) (s : W)
    : Result * option (Failure E) * W :=
  match w_ctx s with
  | Some err => (exhausted (attempt - 1) startedAt (default err last) s, s)
  | None =>
      match w_fn s with
      | (None, s) => (mkResult attempt (since startedAt s), None, s)
      | (Some err, s) =>
          if declines err then
            (mkResult attempt (since startedAt s), Some (Declined err), s)
          else
            match more with
            | O => (exhausted (MaxAttempts p) startedAt err s, s)
            | S more =>
                let '(delay, s) := w_jitter (backoffCap p attempt) s in
                match w_sleep delay s with
                | (Some sleepErr, s) => (exhausted attempt startedAt err s, s)
                | (None, s) => loop more p startedAt (attempt + 1) (Some err) s
                end
            end
      end
  end.

Definition Do (p : Policy) (s : W) : Result * option (Failure E) * W :=
  let p := withDefaults p in
  loop (Z.to_nat (MaxAttempts p - 1)) p (w_now s) 1 None s.

(** ** Specification *)

(** [retried p k last s s']: from [s], [k] attempts failed with errors worth
    retrying, the last one [last], each followed by a full backoff. *)
Inductive retried (p : Policy) : Z → option E → W → W → Prop :=
| retried_none s : retried p 0 None s s
| retried_more k last s s1 s2 s3 s4 delay err :
    retried p k last s s1 → w_ctx s1 = None → w_fn s1 = (Some err, s2) → declines err = false →
    w_jitter (backoffCap p (k + 1)) s2 = (delay, s3) → w_sleep delay s3 = (None, s4) →
    retried p (k + 1) (Some err) s s4.

(** How a call of [Do] can end, after [k] retried attempts. *)
Inductive ends (p : Policy) (t0 : Time) (k : Z) (last : option E) (s : W)
    : Result * option (Failure E) * W → Prop :=
| ends_ok s' :
    w_ctx s = None → w_fn s = (None, s') →
    ends p t0 k last s (mkResult (k + 1) (since t0 s'), None, s')
| ends_declined err s' :
    w_ctx s = None → w_fn s = (Some err, s') → declines err = true →
    ends p t0 k last s (mkResult (k + 1) (since t0 s'), Some (Declined err), s')
| ends_attempts err s' :
    w_ctx s = None → w_fn s = (Some err, s') → declines err = false → k + 1 = MaxAttempts p →
    ends p t0 k last s (exhausted (k + 1) t0 err s', s')
| ends_budget err :
    w_ctx s = Some err →
    ends p t0 k last s (exhausted k t0 (default err last) s, s)
| ends_asleep err delay s1 s2 s' cut :
    w_ctx s = None → w_fn s = (Some err, s1) → declines err = false → k + 1 < MaxAttempts p →
    w_jitter (backoffCap p (k + 1)) s1 = (delay, s2) → w_sleep delay s2 = (Some cut, s') →
    ends p t0 k last s (exhausted (k + 1) t0 err s', s').

Lemma loop_spec more p t0 k last s0 s :
  retried p k last s0 s → k + 1 + Z.of_nat more = MaxAttempts p →
  ∃ k' last' s', retried p k' last' s0 s' ∧ k' < MaxAttempts p
    ∧ ends p t0 k' last' s' (loop more p t0 (k + 1) last s).
Proof.
  revert k last s. induction more as [|more IH]; intros k last s Hr Hk; simpl.
  - exists k, last, s. split; [done|]. split; [lia|].
    destruct (w_ctx s) as [err|] eqn:Hc.
    { replace (k + 1 - 1) with k by lia. by apply ends_budget. }
    destruct (w_fn s) as [[err|] s1] eqn:Hf; [|by apply ends_ok].
    destruct (declines err) eqn:Hd; [by apply ends_declined|].
    replace (MaxAttempts p) with (k + 1) by lia. by apply ends_attempts; [..|lia].
  - destruct (w_ctx s) as [err|] eqn:Hc.
    { exists k, last, s. split_and!; [done|lia|]. replace (k + 1 - 1) with k by lia.
      by apply ends_budget. }
    destruct (w_fn s) as [[err|] s1] eqn:Hf.
    2:{ exists k, last, s. split_and!; [done|lia|]. by apply ends_ok. }
    destruct (declines err) eqn:Hd.
    { exists k, last, s. split_and!; [done|lia|]. by apply ends_declined. }
    destruct (w_jitter (backoffCap p (k + 1)) s1) as [delay s2] eqn:Hj.
    destruct (w_sleep delay s2) as [[cut|] s3] eqn:Hs.
    { exists k, last, s. split_and!; [done|lia|]. eapply ends_asleep; try done. lia. }
    apply IH; [|lia]. by eapply retried_more.
Qed.

Lemma withDefaults_attempts p : 1 ≤ MaxAttempts (withDefaults p).
Proof.
  unfold withDefaults, DefaultMaxAttempts. simpl. destruct (Z.leb_spec (MaxAttempts p) 0); lia.
Qed.

Lemma Do_spec p s :
  ∃ k last s', retried (withDefaults p) k last s s' ∧ 0 ≤ k < MaxAttempts (withDefaults p)
    ∧ ends (withDefaults p) (w_now s) k last s' (Do p s).
Proof.
  unfold Do. pose proof (withDefaults_attempts p).
  destruct (loop_spec (Z.to_nat (MaxAttempts (withDefaults p) - 1)) (withDefaults p) (w_now s) 0 None
    s s) as (k & last & s' & Hr & Hk & He); [constructor|lia|].
  exists k, last, s'. split_and!; try done. clear -Hr. induction Hr; lia.
Qed.

(** C40: [Do] is its specification: it makes fewer than MaxAttempts retried
    calls, each after an error worth retrying and a full backoff, and then
    ends in one of five ways, with the number of calls it made in the result.
    The error is marked exhausted only when attempts, budget or context ran
    out, carrying the last error of the function when there is one; an error
    the caller declined is returned unchanged. *)
Theorem retry_do_refines p s :
  ∃ k last s', retried (withDefaults p) k last s s' ∧ 0 ≤ k < MaxAttempts (withDefaults p)
    ∧ ends (withDefaults p) (w_now s) k last s' (Do p s).
Proof. apply Do_spec. Qed.
End Loop.

(** ** The schedule *)

Definition default_policy : Policy := withDefaults (mkPolicy 0 0 0 0).

(** Under the defaults the cap before the retry of attempt n is
    100 ms * 2^(n-1), clamped to 2 s, for every attempt, the ones past the
    largest shift included; a jittered delay is below the cap. *)
Theorem retry_default_schedule attempt draw :
  1 ≤ attempt → (∀ n, 0 < n → 0 ≤ draw n < n) →
  backoffCap default_policy attempt = Z.min (100 * Millisecond * 2 ^ (attempt - 1)) (2 * Second)
  ∧ 0 ≤ fullJitter draw (backoffCap default_policy attempt) < backoffCap default_policy attempt.
Proof.
  intros Ha Hd.
  assert (backoffCap default_policy attempt
    = Z.min (100 * Millisecond * 2 ^ (attempt - 1)) (2 * Second)) as Hc.
  { destruct (Z.lt_ge_cases 63 attempt) as [Hl|Hl].
    - unfold backoffCap. destruct (Z.ltb_spec attempt 1); [lia|].
      destruct (Z.ltb_spec maxShift (attempt - 1)); [|unfold maxShift in *; lia].
      change (MaxDelay default_policy) with (2 * Second). rewrite Z.min_r; [done|].
      assert (2 ^ 63 ≤ 2 ^ (attempt - 1)) by (apply Z.pow_le_mono_r; lia).
      unfold Second, Millisecond, Microsecond, Nanosecond. lia.
    - assert (forallb (λ n, backoffCap default_policy (Z.of_nat n)
        =? Z.min (100 * Millisecond * 2 ^ (Z.of_nat n - 1)) (2 * Second)) (seq 1 63) = true) as Hall
        by (vm_compute; reflexivity).
      rewrite forallb_forall in Hall. specialize (Hall (Z.to_nat attempt)).
      rewrite Z2Nat.id in Hall by lia. apply Z.eqb_eq, Hall, in_seq. lia. }
  split; [done|]. rewrite Hc. set (cap := Z.min _ _).
  assert (0 < cap) as Hpos.
  { unfold cap. pose proof (Z.pow_pos_nonneg 2 (attempt - 1)).
    unfold Second, Millisecond, Microsecond, Nanosecond. lia. }
  unfold fullJitter. destruct (Z.leb_spec cap 0); [lia|]. by apply Hd.
Qed.

Lemma retry_default_schedule_witness :
  backoffCap default_policy 5 = 1600 * Millisecond ∧ backoffCap default_policy 100 = 2 * Second.
Proof.
  split.
  - refine (proj1 (retry_default_schedule 5 (λ _, 0) _ _)); intros; lia.
  - rewrite (proj1 (retry_default_schedule 100 (λ _, 0) ltac:(lia) ltac:(intros; lia))).
    vm_compute. reflexivity.
Defined.
