(* ===== verification/Vault.v ===== *)
(** Vaults (internal/domain/vault): the status machine and capacity gate
    (model.go), deactivation of yield sources and migration of their positions
    (deactivation.go), and a user's position rebuilt from the vault's
    transactions (position.go).

    Amounts are decimals ([Decimal]); [toLower] is strings.ToLower, and an
    allocation list is the slice the methods update in place. *)

From S2P Require Import Prelude GoStrings Decimal.
Open Scope Z_scope.

Inductive VaultStatus := StatusActive | StatusPaused | StatusClosed.

#[export] Instance VaultStatus_eq_dec : EqDecision VaultStatus.
Proof. solve_decision. Defined.

Definition CanTransitionTo (s next : VaultStatus) : bool :=
  match s with
  | StatusActive => bool_decide (next = StatusPaused) || bool_decide (next = StatusClosed)
  | StatusPaused => bool_decide (next = StatusActive) || bool_decide (next = StatusClosed)
  | StatusClosed => false
  end.

Definition AllocationStatusActive : string := "active".
Definition AllocationStatusDeactivated : string := "deactivated".

Inductive VaultError :=
| ErrInvalidVault | ErrInvalidHarvestFrequency | ErrCapacityExceeded
| ErrYieldSourceNotFound | ErrYieldSourceDeactivated | ErrMigrationTargetRequired
| ErrMigrationTargetInactive | ErrMigrationSourceActive | ErrMigrationSourceEqualsTarget
| ErrMigrationAmountInvalid | ErrMigrationAmountExceeded.

Section Vault.
Context {D : Type} `{!Decimal D} (toLower : string → string).

Definition normalizeProtocol (protocol : string) : string := toLower (TrimSpace protocol).

Definition ParseHarvestFrequency (value : string) : result VaultError string :=
  let v := toLower (TrimSpace value) in
  if decide (v = "daily") then Ok "daily"%string
  else if decide (v = "weekly") then Ok "weekly"%string
  else Err ErrInvalidHarvestFrequency.

Definition ParseStatus (value : string) : result VaultError VaultStatus :=
  let v := toLower (TrimSpace value) in
  if decide (v = "active") then Ok StatusActive
  else if decide (v = "paused") then Ok StatusPaused
  else if decide (v = "closed") then Ok StatusClosed
  else Err ErrInvalidVault.

Record Allocation := mkAllocation {
  AllocID : UUID;
  AllocVault : UUID;
  Protocol : string;
  Amount : D;
  APY : D;
  AllocStatus : string;
  AllocatedAt : Time;
  AllocUpdatedAt : option Time;
}.

(** The fields of a vault the operations read. *)
Record Vault := mkVault {
  VID : UUID;
  TotalDeposited : D;
  CurrentBalance : D;
  VStatus : VaultStatus;
  SoftCapacity : option D;
  CapacityWarningPct : option float64;
  Allocations : list Allocation;
}.

(** ** Capacity *)

Definition CanAcceptDeposit (v : Vault) (amount : D) : result VaultError unit :=
  match SoftCapacity v with
  | None => Ok tt
  | Some cap => guard_err (d_lt cap (d_add (CurrentBalance v) amount)) ErrCapacityExceeded
  end.

(** ** Deactivation *)

Definition with_status (st : string) (a : Allocation) : Allocation :=
  mkAllocation (AllocID a) (AllocVault a) (Protocol a) (Amount a) (APY a) st (AllocatedAt a)
    (AllocUpdatedAt a).
Definition with_amount (x : D) (a : Allocation) : Allocation :=
  mkAllocation (AllocID a) (AllocVault a) (Protocol a) x (APY a) (AllocStatus a) (AllocatedAt a)
    (AllocUpdatedAt a).
Definition with_allocations (l : list Allocation) (v : Vault) : Vault :=
  mkVault (VID v) (TotalDeposited v) (CurrentBalance v) (VStatus v) (SoftCapacity v)
    (CapacityWarningPct v) l.

Definition names (p : string) (a : Allocation) : bool :=
  bool_decide (normalizeProtocol (Protocol a) = p).

(** The loop that marks the first allocation of the protocol. *)
Fixpoint mark_first (p : string) (l : list Allocation) : option (list Allocation) :=
  match l with
  | [] => None
  | a :: l =>
      if names p a then Some (with_status AllocationStatusDeactivated a :: l)
      else l' ← mark_first p l; Some (a :: l')
  end.

Definition DeactivateYieldSource (v : Vault) (protocol : string) : result VaultError Vault :=
  let p := normalizeProtocol protocol in
  if decide (p = "") then Err ErrYieldSourceNotFound
  else
    match mark_first p (Allocations v) with
    | Some l => Ok (with_allocations l v)
    | None => Err ErrYieldSourceNotFound
    end.

Definition deactivated (a : Allocation) : bool :=
  bool_decide (AllocStatus a = AllocationStatusDeactivated).

Definition CanAcceptDepositTo (v : Vault) (protocol : string) (amount : D) : result VaultError unit :=
  let p := normalizeProtocol protocol in
  if decide (p = "") then Err ErrYieldSourceNotFound
  else
    match List.find (names p) (Allocations v) with
    | None => Err ErrYieldSourceNotFound
    | Some a => if deactivated a then Err ErrYieldSourceDeactivated else CanAcceptDeposit v amount
    end.

Record MigrationTarget := mkTarget { TProtocol : string; TAmount : D; TAPY : D }.
Record MigrationGuide := mkGuide {
  SourceProtocol : string; SourceAmount : D; Targets : list MigrationTarget;
}.

Definition MigrationGuideFor (v : Vault) (source : string) : result VaultError MigrationGuide :=
  let p := normalizeProtocol source in
  if decide (p = "") then Err ErrYieldSourceNotFound
  else
    match List.find (names p) (Allocations v) with
    | None => Err ErrYieldSourceNotFound
    | Some a =>
        if negb (deactivated a) then Err ErrMigrationSourceActive
        else
          Ok (mkGuide (Protocol a) (Amount a)
            ((λ b, mkTarget (Protocol b) (Amount b) (APY b))
               <$> List.filter (λ b, negb (names p b || deactivated b)) (Allocations v)))
    end.

(** The index the migration loop ends with: the last match. *)
Fixpoint last_index (p : string) (i : nat) (l : list Allocation) (acc : option nat) : option nat :=
  match l with
  | [] => acc
  | a :: l => last_index p (S i) l (if names p a then Some i else acc)
  end.

Definition MigrateYieldSourcePosition (v : Vault) (source target : string) (amount : D)
    : result VaultError Vault :=
  let s := normalizeProtocol source in
  let t := normalizeProtocol target in
  guard_err (bool_decide (s = "")) ErrYieldSourceNotFound;;
  guard_err (bool_decide (t = "")) ErrMigrationTargetRequired;;
  guard_err (bool_decide (s = t)) ErrMigrationSourceEqualsTarget;;
  guard_err (negb (d_lt d_zero amount)) ErrMigrationAmountInvalid;;
  match last_index s 0 (Allocations v) None with
  | None => Err ErrYieldSourceNotFound
  | Some i =>
      match last_index t 0 (Allocations v) None with
      | None => Err ErrMigrationTargetRequired
      | Some j =>
          match Allocations v !! i, Allocations v !! j with
          | Some a, Some b =>
              guard_err (negb (deactivated a)) ErrMigrationSourceActive;;
              guard_err (deactivated b) ErrMigrationTargetInactive;;
              guard_err (d_lt (Amount a) amount) ErrMigrationAmountExceeded;;
              let l := <[i := with_amount (d_sub (Amount a) amount) a]> (Allocations v) in
              Ok (with_allocations (<[j := with_amount (d_add (Amount b) amount) b]> l) v)
          | _, _ => Err ErrYieldSourceNotFound
          end
      end
  end.

(** ** Positions *)

(** [None] is the panic of a division by zero. *)
Definition ComputeSharePrice (v : Vault) : option D :=
  if d_le (TotalDeposited v) d_zero then Some (d_of_Z 1)
  else d_div (CurrentBalance v) (TotalDeposited v).

Record VaultTransaction := mkTxn {
  TxType : string;
  TxAmount : D;
  SharesMintedOrBurned : option D;
  FeeCharged : option D;
  TxCreatedAt : Time;
}.

Record totals := mkTotals {
  totalDeposited : D;
  totalWithdrawn : D;
  sharesHeld : D;
  feesPaid : D;
  firstDepositAt : option Time;
  lastActivityAt : option Time;
}.

(** One turn of the aggregation loop. *)
Definition add_txn (acc : totals) (txn : VaultTransaction) : totals :=
  let last := match lastActivityAt acc with
              | Some t => if t <? TxCreatedAt txn then Some (TxCreatedAt txn) else Some t
              | None => Some (TxCreatedAt txn)
              end in
  let shares := default d_zero (SharesMintedOrBurned txn) in
  let fees := d_add (feesPaid acc) (default d_zero (FeeCharged txn)) in
  if decide (TxType txn = "deposit") then
    let first := match firstDepositAt acc with
                 | Some t => if TxCreatedAt txn <? t then Some (TxCreatedAt txn) else Some t
                 | None => Some (TxCreatedAt txn)
                 end in
    mkTotals (d_add (totalDeposited acc) (TxAmount txn)) (totalWithdrawn acc)
      (d_add (sharesHeld acc) shares) fees first last
  else if decide (TxType txn = "withdrawal") then
    mkTotals (totalDeposited acc) (d_add (totalWithdrawn acc) (TxAmount txn))
      (d_sub (sharesHeld acc) shares) fees (firstDepositAt acc) last
  else
    mkTotals (totalDeposited acc) (totalWithdrawn acc) (sharesHeld acc) fees (firstDepositAt acc) last.

Definition no_totals : totals := mkTotals d_zero d_zero d_zero d_zero None None.

Record UserVaultPosition := mkPosition {
  PVaultID : UUID;
  PUserID : UUID;
  TotalDepositedUSDC : string;
  SharesHeld : string;
  CurrentValueUSDC : string;
  UnrealizedPnLUSDC : string;
  UnrealizedPnLPct : string;
  FeesPaidUSDC : string;
  FirstDepositAt : option Time;
  LastActivityAt : option Time;
}.

Definition EmptyUserVaultPosition (vault user : UUID) : UserVaultPosition :=
  mkPosition vault user "0.000000" "0.000000" "0.000000" "+0.000000" "+0.00" "0.000000" None None.

Definition positionDecimalPlaces : Z := 6.

Definition formatUSDC (x : D) : string :=
  d_fixed positionDecimalPlaces (d_round positionDecimalPlaces x).
Definition sign_of (x : D) : string := if d_lt x d_zero then "-" else "+".
Definition formatSignedUSDC (x : D) : string :=
  sign_of x +:+ d_fixed positionDecimalPlaces (d_round positionDecimalPlaces (d_abs x)).
Definition formatSignedPct (x : D) : string := sign_of x +:+ d_fixed 2 (d_round 2 (d_abs x)).

(** What the totals are turned into; [None] is a panic. *)
Definition position_of (v : Vault) (user : UUID) (t : totals) : option UserVaultPosition :=
  let shares := if d_lt (sharesHeld t) d_zero then d_zero else sharesHeld t in
  sharePrice ← ComputeSharePrice v;
  let currentValue := d_round positionDecimalPlaces (d_mul shares sharePrice) in
  let netInvested := d_sub (totalDeposited t) (totalWithdrawn t) in
  let pnl := d_sub currentValue netInvested in
  pct ← (if d_lt d_zero netInvested then
           q ← d_div pnl netInvested; Some (d_round 2 (d_mul q (d_of_Z 100)))
         else Some d_zero);
  Some (mkPosition (VID v) user (formatUSDC (totalDeposited t)) (formatUSDC shares)
    (formatUSDC currentValue) (formatSignedUSDC pnl) (formatSignedPct pct) (formatUSDC (feesPaid t))
    (firstDepositAt t) (lastActivityAt t)).

Definition BuildUserVaultPosition (v : Vault) (user : UUID) (txns : list VaultTransaction)
    : option UserVaultPosition :=
  match txns with
  | [] => Some (EmptyUserVaultPosition (VID v) user)
  | _ => position_of v user (fold_left add_txn txns no_totals)
  end.
End Vault.

(** ** Deactivated sources *)

Section VaultFacts.
Context {D : Type} `{!Decimal D, !DecimalLaws D} (toLower : string → string).

Abbreviation vault := (Vault (D := D)).
Implicit Types (v : vault) (l : list (Allocation (D := D))).

Lemma mark_first_spec p l l' :
  mark_first toLower p l = Some l' →
  ∃ l1 a l2, l = l1 ++ a :: l2 ∧ l' = l1 ++ with_status AllocationStatusDeactivated a :: l2
    ∧ names toLower p a = true ∧ Forall (λ b, names toLower p b = false) l1.
Proof.
  revert l'. induction l as [|a l IH]; intros l' Hm; simpl in Hm; [done|].
  destruct (names toLower p a) eqn:Hn.
  - injection Hm as <-. by exists [], a, l.
  - destruct (mark_first toLower p l) as [l0|]; [|done]. injection Hm as <-.
    destruct (IH l0 eq_refl) as (l1 & b & l2 & -> & -> & Hb & HF).
    exists (a :: l1), b, l2. split_and!; try done. by constructor.
Qed.

Lemma find_app_first p l1 a l2 :
  Forall (λ b, names toLower p b = false) l1 → names toLower p a = true →
  List.find (names toLower p) (l1 ++ a :: l2) = Some a.
Proof.
  intros HF Ha. induction HF as [|b l1 Hb HF IH]; simpl; [by rewrite Ha|]. by rewrite Hb.
Qed.

(** Deactivating a yield source closes it under every spelling of its
    name: deposits to it are refused, a migration guide for it exists and
    offers only allocations of other protocols that are not deactivated,
    deactivating it again changes nothing, and no amount moves. *)
Theorem vault_deactivation_closes v v' protocol spelling amount :
  DeactivateYieldSource toLower v protocol = Ok v' →
  normalizeProtocol toLower spelling = normalizeProtocol toLower protocol →
  CanAcceptDepositTo toLower v' spelling amount = Err ErrYieldSourceDeactivated
  ∧ (∃ g, MigrationGuideFor toLower v' spelling = Ok g
       ∧ ∀ t, t ∈ Targets g → ∃ a, a ∈ Allocations v' ∧ TProtocol t = Protocol a
           ∧ deactivated a = false
           ∧ normalizeProtocol toLower (Protocol a) ≠ normalizeProtocol toLower protocol)
  ∧ DeactivateYieldSource toLower v' spelling = Ok v'
  ∧ Amount <$> Allocations v' = Amount <$> Allocations v.
Proof.
  unfold DeactivateYieldSource, CanAcceptDepositTo, MigrationGuideFor. intros Hd ->.
  set (p := normalizeProtocol toLower protocol) in *. case_decide as Hp; [done|].
  destruct (mark_first toLower p (Allocations v)) as [l|] eqn:Hm; [|done]. injection Hd as <-.
  destruct (mark_first_spec p _ _ Hm) as (l1 & a & l2 & Hl & -> & Ha & HF).
  set (a' := with_status AllocationStatusDeactivated a).
  assert (names toLower p a' = true) as Ha' by done.
  cbn [Allocations with_allocations]. rewrite (find_app_first p l1 a' l2 HF Ha').
  change (deactivated a') with true. simpl.
  split_and!; [done| | |].
  - eexists. split; [done|]. simpl. intros t (b & -> & Hb)%list_elem_of_fmap.
    apply list_elem_of_In, List.filter_In in Hb as [Hb Hf%negb_true_iff].
    apply orb_false_iff in Hf as [Hn%bool_decide_eq_false Hdb]. exists b.
    split_and!; try done. by apply list_elem_of_In.
  - assert (mark_first toLower p (l1 ++ a' :: l2) = Some (l1 ++ a' :: l2)) as ->; [|done].
    clear Hm Hl. induction HF as [|b l1 Hb HF IH]; simpl; [by rewrite Ha'|]. by rewrite Hb, IH.
  - by rewrite Hl, !fmap_app.
Qed.

(** ** Migration *)

Lemma last_index_spec p i l acc j :
  last_index toLower p i l acc = Some j →
  acc = Some j ∨ ∃ a, l !! (j - i)%nat = Some a ∧ names toLower p a = true ∧ (i ≤ j)%nat.
Proof.
  revert i acc. induction l as [|a l IH]; intros i acc Hj; simpl in Hj; [by left|].
  destruct (IH _ _ Hj) as [Hacc|(b & Hb & Hn & Hle)].
  - destruct (names toLower p a) eqn:Ha; [|by left]. injection Hacc as <-. right.
    exists a. by rewrite Nat.sub_diag.
  - right. exists b. replace (j - i)%nat with (S (j - S i)) by lia. split_and!; [done..|lia].
Qed.

Definition amounts_sum l : Q := foldr (λ a s, (dval (Amount a) + s)%Q) 0%Q l.

Lemma amounts_sum_insert l i a a' :
  l !! i = Some a →
  (amounts_sum (<[i := a']> l) == amounts_sum l - dval (Amount a) + dval (Amount a'))%Q.
Proof.
  revert i. induction l as [|b l IH]; intros [|i] Hi; simpl in *; simplify_eq; [ring|].
  rewrite (IH i Hi). ring.
Qed.

(** A migration moves exactly [amount] from a deactivated source that
    holds at least that much to a target that is not deactivated: the total
    of the allocations is unchanged, the source stays non-negative, and
    nothing else of the vault changes. *)
Theorem vault_migration_conserves v v' source target amount :
  MigrateYieldSourcePosition toLower v source target amount = Ok v' →
  (amounts_sum (Allocations v') == amounts_sum (Allocations v))%Q
  ∧ ∃ i j a b, i ≠ j ∧ Allocations v !! i = Some a ∧ Allocations v !! j = Some b
      ∧ deactivated a = true ∧ deactivated b = false
      ∧ normalizeProtocol toLower (Protocol a) = normalizeProtocol toLower source
      ∧ normalizeProtocol toLower (Protocol b) = normalizeProtocol toLower target
      ∧ (0 < dval amount <= dval (Amount a))%Q
      ∧ v' = with_allocations (<[j := with_amount (d_add (Amount b) amount) b]>
               (<[i := with_amount (d_sub (Amount a) amount) a]> (Allocations v))) v.
Proof.
  unfold MigrateYieldSourcePosition. intros Hm.
  apply bind_Ok in Hm as (? & _ & Hm). apply bind_Ok in Hm as (? & _ & Hm).
  apply bind_Ok in Hm as (? & Hne%guard_err_Ok%bool_decide_eq_false & Hm).
  apply bind_Ok in Hm as (? & Hpos%guard_err_Ok%negb_false_iff & Hm).
  destruct (last_index toLower _ 0 _ None) as [i|] eqn:Hi; [|done].
  destruct (last_index toLower (normalizeProtocol toLower target) 0 _ None) as [j|] eqn:Hj; [|done].
  apply last_index_spec in Hi as [?|(a & Ha & Hna%bool_decide_eq_true & _)]; [done|].
  apply last_index_spec in Hj as [?|(b & Hb & Hnb%bool_decide_eq_true & _)]; [done|].
  rewrite Nat.sub_0_r in Ha, Hb. rewrite Ha, Hb in Hm.
  apply bind_Ok in Hm as (? & Hda%guard_err_Ok%negb_false_iff & Hm).
  apply bind_Ok in Hm as (? & Hdb%guard_err_Ok & Hm).
  apply bind_Ok in Hm as (? & Hle%guard_err_Ok & Hm). injection Hm as <-.
  assert (i ≠ j) as Hij by (intros ->; congruence).
  apply d_lt_spec in Hpos. unfold d_zero in Hpos. rewrite dval_of_Z in Hpos.
  split.
  - cbn [Allocations with_allocations].
    rewrite (amounts_sum_insert _ j b) by (by rewrite list_lookup_insert_ne).
    rewrite (amounts_sum_insert _ i a) by done. simpl. rewrite dval_add, dval_sub. ring.
  - exists i, j, a, b. split_and!; try done.
    apply Qnot_lt_le. intros Hlt. apply d_lt_spec in Hlt. congruence.
Qed.

(** ** Positions *)

Definition teq (t u : totals (D := D)) : Prop :=
  totalDeposited t ≡ totalDeposited u ∧ totalWithdrawn t ≡ totalWithdrawn u
  ∧ sharesHeld t ≡ sharesHeld u ∧ feesPaid t ≡ feesPaid u
  ∧ firstDepositAt t = firstDepositAt u ∧ lastActivityAt t = lastActivityAt u.

#[local] Instance teq_equivalence : Equivalence teq.
Proof.
  split; unfold teq.
  - by intros t.
  - intros t u (?&?&?&?&?&?). by split_and!.
  - intros t u w (?&?&?&?&?&?) (?&?&?&?&?&?). split_and!; by etrans.
Qed.

Lemma add_txn_proper t u x : teq t u → teq (add_txn t x) (add_txn u x).
Proof.
  intros (H1 & H2 & H3 & H4 & H5 & H6). unfold add_txn. rewrite H5, H6.
  repeat case_decide; unfold teq; simpl; split_and!; try done; by rewrite ?H1, ?H2, ?H3, ?H4.
Qed.

(** The order of two transactions does not matter. *)
Lemma add_txn_comm t x y : teq (add_txn (add_txn t x) y) (add_txn (add_txn t y) x).
Proof.
  assert (∀ a b c : D, d_add (d_add a b) c ≡ d_add (d_add a c) b) as Hadd
    by (intros; unfold base.equiv, decimal_equiv; rewrite !dval_add; ring).
  assert (∀ a b c : D, d_sub (d_add a b) c ≡ d_add (d_sub a c) b) as Has
    by (intros; unfold base.equiv, decimal_equiv; rewrite ?dval_add, ?dval_sub, ?dval_add; ring).
  assert (∀ a b c : D, d_sub (d_sub a b) c ≡ d_sub (d_sub a c) b) as Hsub
    by (intros; unfold base.equiv, decimal_equiv; rewrite !dval_sub; ring).
  unfold add_txn. repeat case_decide; unfold teq; simpl; split_and!; try done; try apply Hadd;
    try apply Hsub; try apply Has; try (symmetry; apply Has); try congruence.
  all: repeat first [case_match | progress simplify_eq/= | progress go_bool]; try done; f_equal; lia.
Qed.

Lemma fold_txns_proper (l : list (VaultTransaction (D := D))) t u : teq t u → teq (fold_left add_txn l t) (fold_left add_txn l u).
Proof.
  revert t u. induction l as [|x l IH]; intros t u H; simpl; [done|]. by apply IH, add_txn_proper.
Qed.

Lemma fold_txns_perm (l l' : list (VaultTransaction (D := D))) t :
  l ≡ₚ l' → teq (fold_left add_txn l t) (fold_left add_txn l' t).
Proof.
  intros Hp. revert t. induction Hp as [|x l l' _ IH|x y l|l l1 l2 _ IH1 _ IH2]; intros t; simpl.
  - done.
  - apply IH.
  - apply fold_txns_proper, add_txn_comm.
  - etrans; [apply IH1|apply IH2].
Qed.

Lemma fixed_round n (x y : D) : 0 ≤ n → x ≡ y → d_fixed n (d_round n x) = d_fixed n (d_round n y).
Proof. intros Hn H. by apply d_fixed_val, d_round_equiv. Qed.

Lemma format_proper (x y : D) :
  x ≡ y → formatUSDC x = formatUSDC y ∧ formatSignedUSDC x = formatSignedUSDC y
          ∧ formatSignedPct x = formatSignedPct y.
Proof.
  intros H. assert (sign_of x = sign_of y) as Hs by (unfold sign_of; by rewrite H).
  assert (d_abs x ≡ d_abs y) as Ha by (by rewrite H).
  unfold formatUSDC, formatSignedUSDC, formatSignedPct.
  rewrite Hs. split_and!; [|f_equal..]; by apply fixed_round.
Qed.

Lemma position_proper v user t u : teq t u → position_of v user t = position_of v user u.
Proof.
  intros (H1 & H2 & H3 & H4 & H5 & H6). unfold position_of.
  assert (d_lt (sharesHeld t) d_zero = d_lt (sharesHeld u) d_zero) as E3 by (by rewrite H3).
  rewrite H5, H6, E3.
  destruct (ComputeSharePrice v) as [price|]; [|done]. cbn [mbind option_bind].
  set (sh := if d_lt (sharesHeld u) d_zero then d_zero else sharesHeld t).
  set (sh' := if d_lt (sharesHeld u) d_zero then d_zero else sharesHeld u).
  assert (sh ≡ sh') as Hsh by (unfold sh, sh'; destruct (d_lt (sharesHeld u) d_zero); [reflexivity|exact H3]).
  set (val := d_round _ (d_mul sh price)). set (val' := d_round _ (d_mul sh' price)).
  assert (val ≡ val') as Hval by (apply d_round_equiv; [done|by rewrite Hsh]).
  set (net := d_sub (totalDeposited t) _). set (net' := d_sub (totalDeposited u) _).
  assert (net ≡ net') as Hnet by (unfold net, net'; by rewrite H1, H2).
  assert (d_sub val net ≡ d_sub val' net') as Hpnl by (by rewrite Hval, Hnet).
  rewrite (d_lt_Proper d_zero d_zero (reflexivity _) net net' Hnet).
  assert (∀ pct pct', pct ≡ pct' →
    mkPosition (VID v) user (formatUSDC (totalDeposited t)) (formatUSDC sh) (formatUSDC val)
      (formatSignedUSDC (d_sub val net)) (formatSignedPct pct) (formatUSDC (feesPaid t))
      (firstDepositAt u) (lastActivityAt u)
    = mkPosition (VID v) user (formatUSDC (totalDeposited u)) (formatUSDC sh') (formatUSDC val')
      (formatSignedUSDC (d_sub val' net')) (formatSignedPct pct') (formatUSDC (feesPaid u))
      (firstDepositAt u) (lastActivityAt u)) as Hend.
  { intros pct pct' Hp. f_equal; by apply format_proper. }
  destruct (d_lt d_zero net'); [|simpl; by rewrite (Hend d_zero d_zero)].
  destruct (d_div_equiv _ _ _ _ Hpnl Hnet) as [[-> ->]|(c & c' & -> & -> & Hc)]; [done|].
  cbn [mbind option_bind]. f_equal. apply Hend. apply d_round_equiv; [done|]. by rewrite Hc.
Qed.

(** A position does not depend on the order in which the transactions are
    listed, whatever mix of deposits, withdrawals and harvests, with missing
    shares and fees, it is rebuilt from. *)
Theorem vault_position_order v user txns txns' :
  txns ≡ₚ txns' →
  BuildUserVaultPosition v user txns = BuildUserVaultPosition v user txns'.
Proof.
  intros Hp. unfold BuildUserVaultPosition. destruct txns as [|x l].
  - apply Permutation_nil_l in Hp. by subst.
  - destruct txns' as [|y l']; [by apply Permutation_nil_r in Hp|].
    apply position_proper, fold_txns_perm, Hp.
Qed.
End VaultFacts.

(** ** Witnesses *)

Definition demo_alloc (p : string) (x : Z) : Allocation (D := Q) :=
  mkAllocation 1 1 p (inject_Z x) 0%Q "active" 0 None.
Definition demo_vault : Vault (D := Q) :=
  mkVault 1 (inject_Z 100) (inject_Z 110) StatusActive None None [demo_alloc "Aave" 70; demo_alloc "Blend" 40].
Definition demo_closed : Vault (D := Q) :=
  with_allocations [with_status AllocationStatusDeactivated (demo_alloc "Aave" 70); demo_alloc "Blend" 40]
    demo_vault.

Lemma vault_deactivation_closes_witness :
  CanAcceptDepositTo (λ s, s) demo_closed " Aave" (inject_Z 1) = Err ErrYieldSourceDeactivated.
Proof.
  apply (vault_deactivation_closes (λ s, s) demo_vault demo_closed "Aave" " Aave" (inject_Z 1)).
  - vm_compute. reflexivity.
  - vm_compute. reflexivity.
Defined.

Definition demo_migrate : result VaultError (Vault (D := Q)) :=
  MigrateYieldSourcePosition (λ s, s) demo_closed "Aave" "Blend" (inject_Z 30).
Definition demo_moved : Vault (D := Q) := match demo_migrate with Ok v => v | Err _ => demo_closed end.

Lemma vault_migration_conserves_witness : (amounts_sum (Allocations demo_moved) == 110)%Q.
Proof.
  destruct (vault_migration_conserves (λ s, s) demo_closed demo_moved "Aave" "Blend" (inject_Z 30))
    as [Hsum _].
  - vm_compute. reflexivity.
  - rewrite Hsum. vm_compute. reflexivity.
Defined.

Definition demo_txn (ty : string) (x : Z) (at_ : Time) : VaultTransaction (D := Q) :=
  mkTxn ty (inject_Z x) (Some (inject_Z x)) None at_.

Lemma vault_position_order_witness :
  BuildUserVaultPosition demo_vault 9 [demo_txn "deposit" 50 1; demo_txn "withdrawal" 20 2]
  = BuildUserVaultPosition demo_vault 9 [demo_txn "withdrawal" 20 2; demo_txn "deposit" 50 1].
Proof. apply vault_position_order. apply perm_swap. Defined.
