(* ===== verification/Oracle.v ===== *)
(** The price oracle's consensus (internal/oracle/aggregator.go): the health
    tracker that backs off failing sources, and the aggregation of the sources
    that answer by median with outlier rejection.

    What each source answers is an argument (an error stands for a failure or
    a timeout alike), as are the readings of the tracker's clock. *)

From stdpp Require Import sorting.
From Stdlib Require Import SpecFloat.
From S2P Require Import Prelude.
Open Scope Z_scope.
Open Scope go_scope.

(** ** Health *)

Definition healthBackoffBase : Duration := 5 * Second.
Definition healthBackoffMax : Duration := 5 * Minute.

Record SourceHealth := mkHealth {
  HealthName : string;
  ConsecutiveFailures : Z;
  LastError : string;
  LastSuccessAt : Time;
  LastFailureAt : Time;
  BackoffUntil : Time;
}.

Abbreviation HealthTracker := (gmap string SourceHealth) (only parsing).

Definition NewHealthTracker : HealthTracker := ∅.

(** [entry] without the insertion, which the callers' writes make. *)
Definition entry (h : HealthTracker) (name : string) : SourceHealth :=
  default (mkHealth name 0 "" zeroTime zeroTime zeroTime) (h !! name).

Definition IsHealthy (h : HealthTracker) (name : string) (now : Time) : bool :=
  match h !! name with
  | None => true
  | Some s => negb (now <? BackoffUntil s)
  end.

Definition RecordSuccess (name : string) (now : Time) (h : HealthTracker) : HealthTracker :=
  let s := entry h name in
  <[name := mkHealth (HealthName s) 0 "" now (LastFailureAt s) zeroTime]> h.

(** [err] is err.Error() of an error, if there is one; the clock is read twice. *)
Definition RecordFailure (name : string) (err : option string) (now now2 : Time) (h : HealthTracker)
    : HealthTracker :=
  let s := entry h name in
  let failures := ConsecutiveFailures s +w 1 in
  let shift := Z.min (failures -w 1) 10 in
  let backoff := (healthBackoffBase *w i64 (Z.shiftl 1 (u64 shift))) in
  let backoff := if healthBackoffMax <? backoff then healthBackoffMax else backoff in
  <[name := mkHealth (HealthName s) failures (default (LastError s) err) (LastSuccessAt s) now (timeAdd now2 backoff)]> h.

(** ** Aggregation *)

Record AggregationOptions := mkOptions {
  MaxDeviationBPS : Z;
  MinAgreeingSources : Z;
  PerSourceTimeout : Duration;
}.

Record AggregatedValue := mkAggregated {
  Value : float64;
  Confidence : float64;
  SourcesUsed : list string;
  SourcesRejected : list string;
  SourcesSkipped : list string;
  SourcesFailed : list string;
  Unavailable : bool;
}.

Definition f64_inf : float64 := S754_infinity false.
Definition f64_abs (x : float64) : float64 := SFabs x.
Definition f64_eqb (x y : float64) : bool := SFeqb x y.
Definition is_nan (x : float64) : bool := match x with S754_nan => true | _ => false end.

Definition deviationFrom (ref value : float64) : float64 :=
  if f64_eqb ref f64_zero then
    if f64_eqb value f64_zero then f64_zero else f64_inf
  else f64_div (f64_abs (f64_sub value ref)) (f64_abs ref).

(** The order of sort.Float64s: NaNs first, then by <. *)
Definition float_less (x y : float64) : bool := f64_ltb x y || is_nan x && negb (is_nan y).
Definition float_le (x y : float64) : Prop := float_less y x = false.
#[export] Instance float_le_dec : RelDecision float_le.
Proof. intros x y. unfold float_le. apply _. Defined.

Definition median (vals : list float64) : float64 :=
  match vals with
  | [] => f64_zero
  | _ =>
      let sorted := merge_sort float_le vals in
      let n := Z.of_nat (length sorted) in
      let at_ (k : Z) := default f64_zero (sorted !! Z.to_nat k) in
      if n `mod` 2 =? 1 then at_ (n / 2)
      else f64_div (f64_add (at_ (n / 2 - 1)) (at_ (n / 2))) (f64_of_Z 2)
  end.

Definition confidenceFor (agreeing totalRegistered minAgreeing : Z) : float64 :=
  if totalRegistered =? 0 then f64_zero
  else
    let base := f64_div (f64_of_Z agreeing) (f64_of_Z totalRegistered) in
    let base := if (0 <? minAgreeing) && (agreeing <? minAgreeing)
                then f64_mul base (f64_lit 1 2) else base in
    if f64_ltb base f64_one then base else f64_one.

Definition DecayConfidenceForStaleness (confidence : float64) (age maxAge : Duration) : float64 :=
  if (maxAge <=? 0) || (age <=? 0) then confidence
  else
    let ratio := f64_div (f64_of_Z age) (f64_of_Z maxAge) in
    let ratio := if f64_gtb ratio f64_one then f64_one else ratio in
    f64_mul confidence (f64_sub f64_one (f64_mul (f64_lit 1 2) ratio)).

Section Aggregate.
(** The providers, each with its name, what its Fetch answers and the readings
    of the tracker's clock around it. *)
Context {Provider : Type} (Name : Provider → string).
Context (Fetch : Provider → result string float64).
Context (checkedAt recordedAt recordedAt2 : Provider → Time).

(** [health != nil && !health.IsHealthy(p.Name())] *)
Definition skips (health : option HealthTracker) (p : Provider) : bool :=
  match health with None => false | Some h => negb (IsHealthy h (Name p) (checkedAt p)) end.

(** The loop over the results: the failures, the answers and the tracker. *)
Fixpoint collect (ps : list Provider) (h : option HealthTracker)
    : list string * list (string * float64) * option HealthTracker :=
  match ps with
  | [] => ([], [], h)
  | p :: ps =>
      match Fetch p with
      | Err e =>
          let '(failed, ok, h) :=
            collect ps (RecordFailure (Name p) (Some e) (recordedAt p) (recordedAt2 p) <$> h) in
          (Name p :: failed, ok, h)
      | Ok v =>
          let '(failed, ok, h) := collect ps (RecordSuccess (Name p) (recordedAt p) <$> h) in
          (failed, (Name p, v) :: ok, h)
      end
  end.

Definition outlier (o : AggregationOptions) (ref : float64) (r : string * float64) : bool :=
  (0 <? MaxDeviationBPS o)
  && f64_gtb (deviationFrom ref r.2) (f64_div (f64_of_Z (MaxDeviationBPS o)) (f64_of_Z 10000)).

(** The value, whether an error is returned, and the tracker. *)
Definition Aggregate (sources : list Provider) (health : option HealthTracker) (o : AggregationOptions)
    : AggregatedValue * bool * option HealthTracker :=
  let toQuery := List.filter (λ n, negb (skips health n)) sources in
  let skipped := Name <$> List.filter (skips health) sources in
  let '(failed, succeeded, health) := collect toQuery health in
  match succeeded with
  | [] => (mkAggregated f64_zero f64_zero [] [] skipped failed true, true, health)
  | _ =>
      let refMedian := median succeeded.*2 in
      let rejected := List.filter (outlier o refMedian) succeeded in
      let survivors := List.filter (λ r, negb (outlier o refMedian r)) succeeded in
      let '(survivors, rejected) :=
        match survivors with [] => (succeeded, []) | _ => (survivors, rejected) end in
      (mkAggregated (median survivors.*2)
         (confidenceFor (Z.of_nat (length survivors)) (Z.of_nat (length sources))
            (MinAgreeingSources o))
         survivors.*1 rejected.*1 skipped failed false,
       false, health)
  end.

(** ** Every source is accounted for *)

Lemma filter_partition {A} (f : A → bool) l :
  List.filter f l ++ List.filter (λ x, negb (f x)) l ≡ₚ l.
Proof.
  induction l as [|x l IH]; simpl; [done|]. destruct (f x); simpl; [by rewrite IH|].
  by rewrite <-Permutation_middle, IH.
Qed.

Lemma perm_4 {A} (a b c d : list A) : a ++ b ++ c ++ d ≡ₚ c ++ d ++ b ++ a.
Proof.
  rewrite !(app_assoc c d), (app_assoc a b), (Permutation_app_comm (a ++ b)).
  by rewrite (Permutation_app_comm a).
Qed.

Lemma collect_spec ps h failed ok h' :
  collect ps h = (failed, ok, h') →
  failed ++ ok.*1 ≡ₚ Name <$> ps
  ∧ Forall (λ n, ∃ p e, p ∈ ps ∧ Name p = n ∧ Fetch p = Err e) failed
  ∧ Forall (λ r, ∃ p, p ∈ ps ∧ Name p = r.1 ∧ Fetch p = Ok r.2) ok.
Proof.
  assert (∀ q qs (Q : Provider → Prop), (∃ p, p ∈ qs ∧ Q p) → ∃ p, p ∈ q :: qs ∧ Q p) as Hw
    by (intros q qs Q (p & ? & ?); exists p; split; [by right|done]).
  revert h failed ok h'. induction ps as [|p ps IH]; intros h failed ok h' Hc; simpl in Hc.
  - by simplify_eq.
  - destruct (Fetch p) as [v|e] eqn:Hf; destruct (collect ps _) as [[f0 o0] h0] eqn:Hc0; simplify_eq;
      destruct (IH _ _ _ _ Hc0) as (Hp & HF & HO); split_and!; simpl.
    + by rewrite <-Permutation_middle, Hp.
    + eapply Forall_impl; [exact HF|]. intros n (q & e & ? & ?). exists q, e. by split; [right|].
    + constructor; [exists p; by split; [left|]|]. eapply Forall_impl; [exact HO|]. naive_solver.
    + by rewrite Hp.
    + constructor; [exists p, e; by split; [left|]|].
      eapply Forall_impl; [exact HF|]. intros n (q & e' & ? & ?). exists q, e'. by split; [right|].
    + eapply Forall_impl; [exact HO|]. naive_solver.
Qed.

(** The relation between a name in the result and the value its source gave. *)
Definition answered (sources : list Provider) (n : string) (x : float64) : Prop :=
  ∃ p, p ∈ sources ∧ Name p = n ∧ Fetch p = Ok x.

(** An aggregation accounts for every registered source exactly once, as
    used, rejected, skipped or failed.  It is unavailable exactly when no
    source that was queried answered; otherwise some source is used, every
    used and rejected source answered, every failed one was asked and did not,
    every skipped one is backing off, and the value is the median of what the
    used sources answered. *)
Theorem oracle_accounts_for_sources sources health o v err h' :
  Aggregate sources health o = (v, err, h') →
  SourcesUsed v ++ SourcesRejected v ++ SourcesSkipped v ++ SourcesFailed v ≡ₚ Name <$> sources
  ∧ err = Unavailable v
  ∧ (Unavailable v = true ↔ SourcesUsed v = [])
  ∧ (∀ n, n ∈ SourcesSkipped v → ∃ p, p ∈ sources ∧ Name p = n ∧ skips health p = true)
  ∧ (∀ n, n ∈ SourcesFailed v →
       ∃ p e, p ∈ sources ∧ Name p = n ∧ skips health p = false ∧ Fetch p = Err e)
  ∧ (∀ n, n ∈ SourcesRejected v → ∃ x, answered sources n x)
  ∧ ∃ vals, Forall2 (answered sources) (SourcesUsed v) vals
      ∧ (Unavailable v = false → Value v = median vals).
Proof.
  unfold Aggregate. destruct (collect _ health) as [[failed ok] h1] eqn:Hc.
  destruct (collect_spec _ _ _ _ _ Hc) as (Hp & HF & HO). rewrite Forall_forall in HF. rewrite Forall_forall in HO.
  pose proof (fmap_Permutation Name _ _ (filter_partition (skips health) sources)) as Hq.
  rewrite fmap_app, <-Hp in Hq. set (skipped := Name <$> List.filter (skips health) sources) in *.
  assert (∀ f p, p ∈ List.filter f sources → p ∈ sources ∧ f p = true) as Hin.
  { intros f p Hin%list_elem_of_In. apply List.filter_In in Hin as [??]. by rewrite list_elem_of_In. }
  assert (∀ n, n ∈ skipped → ∃ p, p ∈ sources ∧ Name p = n ∧ skips health p = true) as Hskip.
  { intros n (p & -> & [??]%Hin)%list_elem_of_fmap. eauto. }
  assert (∀ n, n ∈ failed →
    ∃ p e, p ∈ sources ∧ Name p = n ∧ skips health p = false ∧ Fetch p = Err e) as Hfail.
  { intros n (p & e & [? ?%negb_true_iff]%Hin & ? & ?)%HF. eauto 10. }
  assert (∀ r, r ∈ ok → answered sources r.1 r.2) as Hans.
  { intros r (p & [? _]%Hin & ? & ?)%HO. by exists p. }
  destruct ok as [|r0 ok].
  { intros [= <- <- <-]. simpl. rewrite app_nil_r in Hq. split_and!; try done.
    - intros n Hn. by apply elem_of_nil in Hn.
    - exists []. by split; [constructor|]. }
  set (ok' := r0 :: ok) in *. set (ref := median ok'.*2).
  pose proof (filter_partition (outlier o ref) ok') as Hr.
  assert (∀ l, (∀ r, r ∈ l → r ∈ ok') → Forall2 (answered sources) l.*1 l.*2) as Hvals.
  { intros l Hl. apply Forall2_fmap, Forall_Forall2_diag, Forall_forall. intros r Hr'. by apply Hans, Hl. }
  assert (∀ f r, r ∈ List.filter f ok' → r ∈ ok') as Hsub.
  { intros f r Hf%list_elem_of_In. apply List.filter_In in Hf as [? _]. by apply list_elem_of_In. }
  destruct (List.filter (λ r, negb (outlier o ref r)) ok') as [|s0 surv] eqn:Hs;
    intros [[<- <-]%pair_equal_spec <-]%pair_equal_spec;
    cbn [SourcesUsed SourcesRejected SourcesSkipped SourcesFailed Unavailable Value].
  - split_and!; try done.
    + rewrite <-Hq, app_nil_l. by rewrite (Permutation_app_comm ok'.*1), app_assoc.
    + intros n Hn. by apply elem_of_nil in Hn.
    + exists ok'.*2. split; [by apply Hvals|done].
  - set (surv' := s0 :: surv) in *. split_and!; try done.
    + apply (fmap_Permutation fst) in Hr. rewrite fmap_app in Hr. rewrite <-Hq, <-Hr. apply perm_4.
    + intros n (r & -> & Hn%Hsub)%list_elem_of_fmap. eauto.
    + exists surv'.*2. split; [|done]. apply Hvals. intros r Hi.
      apply (Hsub (λ r, negb (outlier o ref r))). by rewrite Hs.
Qed.
End Aggregate.

(** ** Backoff *)

(** [n] failures in a row, the first at the end of the list. *)
Fixpoint fails (name : string) (times : list (option string * Time * Time)) (h : HealthTracker) : HealthTracker :=
  match times with
  | [] => h
  | (err, t, t2) :: times => RecordFailure name err t t2 (fails name times h)
  end.

Definition backoff_after (n : Z) : Duration := Z.min (5 * Second * 2 ^ (n - 1)) (5 * Minute).

Lemma RecordFailure_entry name err t t2 (h : HealthTracker) n :
  ConsecutiveFailures (entry h name) = n → 0 ≤ n < 2 ^ 62 →
  RecordFailure name err t t2 h !! name
  = Some (mkHealth (HealthName (entry h name)) (n + 1) (default (LastError (entry h name)) err)
            (LastSuccessAt (entry h name)) t (t2 + backoff_after (n + 1))).
Proof.
  intros Hn Hr. unfold RecordFailure. rewrite lookup_insert_eq, Hn. f_equal.
  rewrite (i64_id (n + 1)) by (unfold in_i64, min_i64, max_i64; lia).
  replace (n + 1 - 1) with n by lia.
  rewrite (i64_id n) by (unfold in_i64, min_i64, max_i64; lia).
  f_equal. unfold timeAdd. f_equal.
  assert (∀ k, (k < 11)%nat →
    (let b := i64 (healthBackoffBase * i64 (Z.shiftl 1 (u64 (Z.of_nat k)))) in
     if healthBackoffMax <? b then healthBackoffMax else b) = backoff_after (Z.of_nat k + 1)) as Hk.
  { intros k Hk. do 11 (destruct k as [|k]; [vm_compute; reflexivity|]). lia. }
  destruct (Z.lt_ge_cases n 10) as [Hlt|Hge].
  - specialize (Hk (Z.to_nat n)). rewrite Z2Nat.id in Hk by lia. rewrite Z.min_l by lia.
    apply Hk. lia.
  - rewrite Z.min_r by lia. etrans; [exact (Hk 10%nat ltac:(lia))|]. unfold backoff_after.
    assert (2 ^ 10 ≤ 2 ^ (n + 1 - 1)) as Hp by (apply Z.pow_le_mono_r; lia).
    rewrite !Z.min_r; [done| |done].
    change (5 * Minute) with 300000000000. change (5 * Second) with 5000000000.
    change (2 ^ 10) with 1024 in Hp. lia.
Qed.

(** After n failures in a row a source is left alone for
    5 s * 2^(n-1), at most 5 minutes, from the last failure, whatever the
    times of the earlier ones, and asked again after that; one success forgets
    the failures. *)
Theorem oracle_backoff name (h : HealthTracker) err t t2 times now s_at :
  ConsecutiveFailures (entry h name) = 0 → Z.of_nat (length times) < 2 ^ 62 →
  let n := Z.of_nat (length times) + 1 in
  let h' := fails name ((err, t, t2) :: times) h in
  ConsecutiveFailures (entry h' name) = n
  ∧ IsHealthy h' name now = negb (now <? t2 + backoff_after n)
  ∧ (zeroTime ≤ now → IsHealthy (RecordSuccess name s_at h') name now = true)
  ∧ ConsecutiveFailures (entry (RecordSuccess name s_at h') name) = 0.
Proof.
  intros H0 Hl n h'.
  assert (∀ ts, Z.of_nat (length ts) < 2 ^ 62 →
    ConsecutiveFailures (entry (fails name ts h) name) = Z.of_nat (length ts)) as Hcount.
  { clear -H0. induction ts as [|[[e a] b] ts IH]; intros Hts; [done|].
    simpl length in *. cbn [fails]. unfold entry at 1.
    rewrite (RecordFailure_entry _ _ _ _ _ (Z.of_nat (length ts))); [simpl; lia|apply IH; lia|lia]. }
  assert (h' !! name = Some (mkHealth (HealthName (entry (fails name times h) name)) n
    (default (LastError (entry (fails name times h) name)) err)
    (LastSuccessAt (entry (fails name times h) name)) t
    (t2 + backoff_after n))) as Hh'.
  { unfold h'. cbn [fails]. apply RecordFailure_entry; [by apply Hcount|lia]. }
  split_and!.
  - unfold entry. by rewrite Hh'.
  - unfold IsHealthy. by rewrite Hh'.
  - intros Hz. unfold IsHealthy, RecordSuccess. rewrite lookup_insert_eq. simpl.
    destruct (Z.ltb_spec now zeroTime); [lia|done].
  - unfold entry, RecordSuccess. by rewrite lookup_insert_eq.
Qed.

(** ** Witnesses *)

Definition demo_fetch (n : string) : result string float64 :=
  if decide (n = "a") then Ok (f64_of_Z 100)
  else if decide (n = "b") then Ok (f64_of_Z 101)
  else if decide (n = "c") then Ok (f64_of_Z 900)
  else Err "down"%string.

Definition demo_agg : AggregatedValue * bool * option HealthTracker :=
  Aggregate id demo_fetch (λ _, 0) (λ _, 0) (λ _, 0) ["a"; "b"; "c"; "d"] (Some NewHealthTracker)
    (mkOptions 500 2 Second).

Lemma oracle_accounts_for_sources_witness :
  SourcesRejected demo_agg.1.1 = ["c"]
  ∧ SourcesUsed demo_agg.1.1 ++ SourcesRejected demo_agg.1.1 ++ SourcesSkipped demo_agg.1.1
      ++ SourcesFailed demo_agg.1.1 ≡ₚ ["a"; "b"; "c"; "d"].
Proof.
  split; [vm_compute; reflexivity|].
  apply (oracle_accounts_for_sources id demo_fetch (λ _, 0) (λ _, 0) (λ _, 0) ["a"; "b"; "c"; "d"]
    (Some NewHealthTracker) (mkOptions 500 2 Second) demo_agg.1.1 demo_agg.1.2 demo_agg.2).
  vm_compute. reflexivity.
Defined.

Lemma oracle_backoff_witness :
  IsHealthy (fails "a" [(Some "x", 100, 100); (Some "x", 7, 7); (None, 1, 1)] ∅) "a" (100 + 19 * Second) = false.
Proof.
  destruct (oracle_backoff "a" ∅ (Some "x"%string) 100 100 [(Some "x"%string, 7, 7); (None, 1, 1)]
    (100 + 19 * Second) 0) as (_ & Hh & _).
  - reflexivity.
  - vm_compute. reflexivity.
  - rewrite Hh. vm_compute. reflexivity.
Defined.
