(* ===== verification/Rpc.v ===== *)
(** Calls to the chain upstreams: the router and HTTP transport that put a
    breaker in front of each upstream (internal/breaker/transport.go), and the
    Soroban JSON-RPC client that retries over them
    (internal/stellar/rpcclient.go).

    Breakers are shared objects: routes and calls hold their addresses in a
    heap, and other goroutines may use them while a request is under way.  What
    the network answers, the clock, the context, package net/url's parser, the
    redirects of http.Client and the decoding of bodies are arguments. *)

From S2P Require Import Prelude GoStrings Breaker Retry.
Open Scope Z_scope.

(** ** Errors

    A Go error as the tree that errors.Is and errors.As walk. *)

Inductive error :=
| OpenErr (e : OpenError)
| Canceled | DeadlineExceeded | EOF | UnexpectedEOF
| SyntaxError
| rpcStatusError (method : string) (code : Z) (body : string)
| Opaque (msg : string)
| Wrap (msg : string) (e : error)
| RetryError (attempts : Z) (elapsed : Duration) (e : error).

Inductive sentinel := SOpen | SCanceled | SDeadline | SEOF | SUnexpectedEOF | SExhausted.

#[export] Instance sentinel_eq_dec : EqDecision sentinel.
Proof. solve_decision. Defined.

(** [errors.Is] *)
Fixpoint Is (e : error) (s : sentinel) : bool :=
  match e with
  | OpenErr _ => bool_decide (s = SOpen)
  | Canceled => bool_decide (s = SCanceled)
  | DeadlineExceeded => bool_decide (s = SDeadline)
  | EOF => bool_decide (s = SEOF)
  | UnexpectedEOF => bool_decide (s = SUnexpectedEOF)
  | Wrap _ e => Is e s
  | RetryError _ _ e => bool_decide (s = SExhausted) || Is e s
  | _ => false
  end.

(** [errors.As] to a *rpcStatusError, its code, and to a *json.SyntaxError. *)
Fixpoint AsStatus (e : error) : option Z :=
  match e with
  | rpcStatusError _ code _ => Some code
  | Wrap _ e | RetryError _ _ e => AsStatus e
  | _ => None
  end.
Fixpoint AsSyntax (e : error) : bool :=
  match e with
  | SyntaxError => true
  | Wrap _ e | RetryError _ _ e => AsSyntax e
  | _ => false
  end.

(** ** Routing *)

Record URL := mkURL { Host : string; Path : string }.

Record routeEntry := mkRoute { host : string; prefix : string; breaker : nat }.

Abbreviation Router := (list routeEntry) (only parsing).

Definition NewRouter : Router := [].

Inductive RouteError := ErrNoBreaker | ErrParse | ErrNoHost | ErrCollides (b : nat).

Section Routing.
(** [url.Parse] and [strings.ToLower]. *)
Context (parse : string → option URL) (toLower : string → string).

Definition Register (rawURL : string) (b : option nat) (r : Router) : result RouteError Router :=
  match b with
  | None => Err ErrNoBreaker
  | Some b =>
      match parse (TrimSpace rawURL) with
      | None => Err ErrParse
      | Some parsed =>
          if decide (Host parsed = "") then Err ErrNoHost
          else
            let entry := mkRoute (toLower (Host parsed)) (TrimSuffix (Path parsed) "/") b in
            match List.find (λ e, bool_decide (host e = host entry)
                                  && bool_decide (prefix e = prefix entry)) r with
            | Some e => Err (ErrCollides (breaker e))
            | None => Ok (r ++ [entry])
            end
      end
  end.

Definition Breakers (r : Router) : list nat := breaker <$> r.

Definition routes_to (u : URL) (e : routeEntry) : bool :=
  bool_decide (host e = toLower (Host u))
  && (bool_decide (prefix e = "") || HasPrefix (Path u) (prefix e)).

(** One turn of the loop of [For]. *)
Definition better (u : URL) (best : option routeEntry) (e : routeEntry) : option routeEntry :=
  if negb (routes_to u e) then best
  else
    match best with
    | None => Some e
    | Some b => if len (prefix b) <? len (prefix e) then Some e else best
    end.

Definition For_ (r : Router) (u : option URL) : option nat :=
  match u with
  | None => None
  | Some u => breaker <$> fold_left (better u) r None
  end.
End Routing.

(** ** The transport *)

Record Request := mkRequest { ReqURL : URL; ReqBody : string }.
Record Response := mkResponse { StatusCode : Z; Body : string }.

Definition StatusTooManyRequests : Z := 429.

(** [ctxErr] is ctx.Err(). *)
Definition Classify (ctxErr : option error) (resp : option Response) (err : option error) : Outcome :=
  match err with
  | Some e =>
      if Is e SCanceled || match ctxErr with Some c => Is c SCanceled | None => false end
      then Ignored else Breaker.Failure
  | None =>
      match resp with
      | None => Ignored
      | Some r =>
          if 500 <=? StatusCode r then Breaker.Failure
          else if StatusCode r =? StatusTooManyRequests then Breaker.Failure
          else Success
      end
  end.

(** The breakers, the requests put on the network, how many effects there
    were, and whether the goroutine panicked. *)
Record net := mkNet {
  heap : gmap nat Breaker;
  sent : list Request;
  ticks : nat;
  panicked : bool;
}.

Section Client.
Context (parse : string → option URL) (toLower : string → string) (router : Router).
(** The clock and the context at an effect, and what the network answers. *)
Context (clock : nat → Time) (ctxErr : nat → option error).
Context (next : nat → Request → option Response * option error).
(** What other goroutines do to the breakers meanwhile. *)
Context (env : nat → gmap nat Breaker → gmap nat Breaker).

Definition put (a : nat) (b : Breaker) (s : net) : net :=
  mkNet (<[a := b]> (heap s)) (sent s) (S (ticks s)) (panicked s).
Definition panic (s : net) : option Response * option error * net :=
  (None, Some (Opaque "panic"), mkNet (heap s) (sent s) (S (ticks s)) true).

(** [t.next.RoundTrip] *)
Definition send (req : Request) (s : net) : option Response * option error * net :=
  (next (ticks s) req, mkNet (env (ticks s) (heap s)) (sent s ++ [req]) (S (ticks s)) (panicked s)).

Definition RoundTrip (req : Request) (s : net) : option Response * option error * net :=
  match For_ toLower router (Some (ReqURL req)) with
  | None => send req s
  | Some a =>
      match heap s !! a with
      | None => panic s
      | Some b =>
          match Allow (clock (ticks s)) b with
          | None => panic s
          | Some (Err oe, _, b) => (None, Some (OpenErr oe), put a b s)
          | Some (Ok permit, _, b) =>
              let '(resp, rtErr, s) := send req (put a b s) in
              match heap s !! a with
              | None => panic s
              | Some b =>
                  match RecordOutcome permit (Classify (ctxErr (ticks s)) resp rtErr)
                          (clock (ticks s)) b with
                  | None => panic s
                  | Some (b, _) => (resp, rtErr, put a b s)
                  end
              end
          end
      end
  end.

(** ** The client *)

(** Package http's rule for following a redirect, and the decoding of a
    body. *)
Context (follow : Request → Response → option Request) (decode : Response → option error).

(** [http.Client.Do]: errors are wrapped in a *url.Error; [hops] redirects
    are followed. *)
Fixpoint clientDo (hops : nat) (req : Request) (s : net) : result error Response * net :=
  match RoundTrip req s with
  | (_, Some e, s) => (Err (Wrap "Post" e), s)
  | (None, None, s) => (Err (Wrap "Post" (Opaque "nil response")), s)
  | (Some resp, None, s) =>
      match follow req resp with
      | None => (Ok resp, s)
      | Some req =>
          match hops with
          | O => (Err (Wrap "Post" (Opaque "stopped after 10 redirects")), s)
          | S hops => clientDo hops req s
          end
      end
  end.

Definition attempt (url method body : string) (s : net) : option error * net :=
  match parse url with
  | None => (Some (Opaque "parse"), s)
  | Some u =>
      match clientDo 9 (mkRequest u body) s with
      | (Err e, s) => (Some e, s)
      | (Ok resp, s) =>
          if (StatusCode resp <? 200) || (299 <? StatusCode resp)
          then (Some (rpcStatusError method (StatusCode resp) (slice 1024 (Body resp))), s)
          else (decode resp, s)
      end
  end.

Definition idempotentRPCMethods : list (string * bool) :=
  [("getEvents", true); ("getHealth", true); ("getLatestLedger", true); ("getLedgerEntries", true);
   ("getNetwork", true); ("getTransaction", true); ("simulateTransaction", true);
   ("sendTransaction", false)]%string.

Definition isIdempotentRPCMethod (method : string) : bool :=
  match List.find (λ m, bool_decide (m.1 = method)) idempotentRPCMethods with
  | Some m => m.2
  | None => false
  end.

Definition retryableRPCError (err : error) : bool :=
  if Is err SOpen then false
  else if Is err SCanceled then false
  else
    match AsStatus err with
    | Some code => (500 <=? code) || (code =? StatusTooManyRequests)
    | None =>
        if Is err SUnexpectedEOF || Is err SEOF then true
        else if Is err SDeadline then true
        else negb (AsSyntax err)
    end.

(** What ends a backoff early, and the jitter drawn. *)
Context (sleepErr : nat → Duration → option error) (draw : nat → Z → Z).

Definition tick (s : net) : net :=
  mkNet (env (ticks s) (heap s)) (sent s) (S (ticks s)) (panicked s).

(** The runner of the client, over the attempts it makes.  A panic ends the
    loop. *)
Definition runner (url method body : string) : World net error := {|
  w_now s := clock (ticks s);
  w_ctx s := if panicked s then Some (Opaque "panic") else ctxErr (ticks s);
  w_fn s := attempt url method body s;
  w_sleep d s := (if panicked s then Some (Opaque "panic") else sleepErr (ticks s) d, tick s);
  w_jitter cap s := (fullJitter (draw (ticks s)) cap, s);
|}.

(** The error of a retry loop. *)
Definition failure_error (f : Failure error) : error :=
  match f with Exhausted n d e => RetryError n d e | Declined e => e end.

(** The error, and what the observer records: attempts, time taken, whether
    the policy was exhausted.  [body] is json.Marshal of the request. *)
Definition call (policy : Policy) (url method : string) (body : option string) (s : net)
    : option error * option (Z * Duration * bool) * net :=
  match body with
  | None => (Some (Opaque "marshal"), None, s)
  | Some body =>
      let retryable := if isIdempotentRPCMethod method then Some retryableRPCError else None in
      let '(res, f, s) := Do (World0 := runner url method body) retryable policy s in
      let err := failure_error <$> f in
      (Wrap ("rpc " +:+ method) <$> err,
       Some (Attempts res, Elapsed res,
             match err with Some e => Is e SExhausted | None => false end),
       s)
  end.
End Client.

(** ** Routes *)

Section RoutingFacts.
Context (parse : string → option URL) (toLower : string → string).

(** No two routes for one host and prefix. *)
Definition distinct_routes (r : Router) : Prop := NoDup ((λ e, (host e, prefix e)) <$> r).

(** [e] covers [u]. *)
Definition covers (u : URL) (e : routeEntry) : Prop :=
  host e = toLower (Host u) ∧ String.prefix (prefix e) (Path u) = true.

Lemma routes_to_spec u e : routes_to toLower u e = true ↔ covers u e.
Proof.
  unfold routes_to, covers, HasPrefix. rewrite andb_true_iff, orb_true_iff, !bool_decide_eq_true.
  split; [|naive_solver]. intros [Hh [Hp|Hp]]; split; try done. rewrite Hp. by destruct (Path u).
Qed.

Lemma better_spec u (r : Router) best :
  match fold_left (better toLower u) r best with
  | None => best = None ∧ ∀ e, e ∈ r → ¬ covers u e
  | Some e => (best = Some e ∨ e ∈ r ∧ covers u e)
              ∧ (∀ e', e' ∈ r → covers u e' → len (prefix e') ≤ len (prefix e))
              ∧ (∀ e', best = Some e' → len (prefix e') ≤ len (prefix e))
  end.
Proof.
  revert best. induction r as [|x r IH]; intros best; simpl.
  { destruct best as [e|]; [|split; [done|intros e Hin; by apply elem_of_nil in Hin]].
    split_and!; [by left|intros e' Hin; by apply elem_of_nil in Hin|]. by intros ? [= ->]. }
  specialize (IH (better toLower u best x)). unfold better in IH at 2 3.
  destruct (fold_left _ r _) as [e|] eqn:Hf; unfold better in IH;
    pose proof (routes_to_spec u x) as Hx; destruct (routes_to toLower u x) eqn:Hrt; simpl in IH.
  - assert (covers u x) as Hc by (by apply Hx). destruct IH as (H1 & H2 & H3).
    setoid_rewrite elem_of_cons.
    destruct best as [b|]; [destruct (Z.ltb_spec (len (prefix b)) (len (prefix x)))|];
      (split_and!; [naive_solver|intros e' [->|?] ?; [|by apply H2]|intros e' ?; simplify_eq]).
    all: try (specialize (H3 _ eq_refl); lia). all: naive_solver.
  - assert (¬ covers u x) as Hc by naive_solver. destruct IH as (H1 & H2 & H3).
    setoid_rewrite elem_of_cons. split_and!; [naive_solver| |done].
    intros e' [->|?] ?; [done|by apply H2].
  - destruct IH as [IH _]. by destruct best; [destruct (_ <? _)|].
  - assert (¬ covers u x) as Hc by naive_solver. destruct IH as [-> IH]. split; [done|].
    intros e [->|?]%elem_of_cons; [done|by apply IH].
Qed.

(** Of two routes that cover a URL the longer prefix is another one. *)
Lemma covers_unique u (r : Router) e e' :
  distinct_routes r → e ∈ r → e' ∈ r → covers u e → covers u e' →
  len (prefix e) = len (prefix e') → e = e'.
Proof.
  intros Hnd (i & Hi)%list_elem_of_lookup (j & Hj)%list_elem_of_lookup [Hh Hp] [Hh' Hp'] Hl.
  assert (prefix e = prefix e') as Hpe by (apply (prefix_length_eq _ _ (Path u)); try done; unfold len in Hl; lia).
  assert (i = j) as ->; [|congruence].
  eapply NoDup_lookup; [exact Hnd|rewrite list_lookup_fmap, Hi; done|].
  rewrite list_lookup_fmap, Hj. simpl. congruence.
Qed.

Lemma For_Some (r : Router) u b :
  distinct_routes r →
  For_ toLower r (Some u) = Some b ↔
  ∃ e, e ∈ r ∧ breaker e = b ∧ covers u e
    ∧ ∀ e', e' ∈ r → covers u e' → e' ≠ e → len (prefix e') < len (prefix e).
Proof.
  intros Hnd. simpl. pose proof (better_spec u r None) as Hs.
  destruct (fold_left _ r None) as [e|]; simpl.
  - destruct Hs as ([?|[Hin Hc]] & Hmax & _); [done|]. split.
    + intros [= <-]. exists e. split_and!; try done. intros e' Hin' Hc' Hne.
      specialize (Hmax e' Hin' Hc'). destruct (decide (len (prefix e') = len (prefix e))); [|lia].
      destruct Hne. by eapply covers_unique.
    + intros (e' & Hin' & <- & Hc' & Hlt). f_equal. f_equal. eapply covers_unique; try done.
      destruct (decide (len (prefix e) = len (prefix e'))); [done|].
      specialize (Hmax e' Hin' Hc').
      assert (e ≠ e') as Hne by congruence. specialize (Hlt e Hin Hc Hne). lia.
  - destruct Hs as [_ Hs]. split; [done|]. intros (e & Hin & _ & Hc & _). by destruct (Hs e Hin).
Qed.

(** A request is guarded by the breaker of the longest registered prefix
    that covers its URL, on its host, and by none exactly when no route covers
    it; since registration refuses a second route for a host and prefix, the
    choice does not depend on the order of registration. *)
Theorem router_longest_prefix (r : Router) u :
  distinct_routes r →
  (∀ b, For_ toLower r (Some u) = Some b ↔
     ∃ e, e ∈ r ∧ breaker e = b ∧ covers u e
       ∧ ∀ e', e' ∈ r → covers u e' → e' ≠ e → len (prefix e') < len (prefix e))
  ∧ (For_ toLower r (Some u) = None ↔ ∀ e, e ∈ r → ¬ covers u e)
  ∧ (∀ r', r' ≡ₚ r → For_ toLower r' (Some u) = For_ toLower r (Some u))
  ∧ (∀ raw b r', Register parse toLower raw b r = Ok r' → distinct_routes r').
Proof.
  intros Hnd. split_and!; [by intros; apply For_Some| | |].
  - simpl. pose proof (better_spec u r None) as Hs. destruct (fold_left _ r None) as [e|]; simpl.
    + destruct Hs as ([?|[Hin Hc]] & _); [done|]. split; [done|]. intros Hn. by destruct (Hn e Hin).
    + by split; [intros _; apply Hs|].
  - intros r' Hp. apply option_eq. intros b.
    rewrite !For_Some by (done || unfold distinct_routes; by rewrite Hp). by setoid_rewrite Hp.
  - intros raw b r'. unfold Register. destruct b as [b|]; [|done].
    destruct (parse _) as [p|]; [|done]. case_decide; [done|].
    destruct (List.find _ r) eqn:Hf; [done|]. intros [= <-]. unfold distinct_routes.
    rewrite fmap_app. apply NoDup_app. split_and!; [done| |apply NoDup_singleton].
    intros x (e & -> & Hin)%list_elem_of_fmap Hx%list_elem_of_singleton. simplify_eq/=.
    apply list_elem_of_In, (List.find_none _ _ Hf), not_true_iff_false in Hin. destruct Hin.
    by rewrite !bool_decide_true.
Qed.
End RoutingFacts.

(** ** Requests *)

Section ClientFacts.
Context (parse : string → option URL) (toLower : string → string) (router : Router).
Context (clock : nat → Time) (ctxErr : nat → option error).
Context (next : nat → Request → option Response * option error).
Context (env : nat → gmap nat Breaker → gmap nat Breaker).
Context (follow : Request → Response → option Request) (decode : Response → option error).
Context (sleepErr : nat → Duration → option error) (draw : nat → Z → Z).

Abbreviation round_trip := (RoundTrip toLower router clock ctxErr next env).
Abbreviation try := (attempt parse toLower router clock ctxErr next env follow decode).
Abbreviation rpc := (call parse toLower router clock ctxErr next env follow decode sleepErr draw).

(** What a permit says of the breaker that gave it. *)
Lemma Allow_permit now b permit evs b' :
  wf b → Allow now b = Some (Ok permit, evs, b') →
  p_valid permit = true ∧ p_generation permit = generation b'
  ∧ (probeInFlight b = false → p_probe permit = false → probeInFlight b' = false).
Proof.
  intros Hwf HA. destruct (Allow_cases now b Hwf) as (b1 & _ & _ & [] & Hc).
  destruct (state b); [|destruct (probeInFlight b)|destruct (_ <=? _)];
    try match type of Hc with ex _ => destruct Hc as [? Hc] end; rewrite HA in Hc; simplify_eq/=.
  - split_and!; [done|congruence|]. intros Hp _. congruence.
  - split_and!; [done|congruence|done].
  - split_and!; [done| |done]. unfold setStateLocked. rewrite decide_False by congruence. simpl. congruence.
Qed.

(** A recorded permit holds no probe slot. *)
Lemma Record_frees permit o now b b' evs :
  p_valid permit = true → RecordOutcome permit o now b = Some (b', evs) →
  (p_probe permit = true → probeInFlight b' = false ∨ generation b' ≠ p_generation permit)
  ∧ (p_generation permit = generation b → p_probe permit = true ∨ probeInFlight b = false →
     probeInFlight b' = false).
Proof.
  intros Hv HR. destruct (Record_phase _ _ _ _ _ _ Hv HR) as [[Hg ->]|[Hg [Hp|[_ Hp]]]];
    [split; [intros; right; congruence|done]|apply (f_equal snd) in Hp as Hpr; simpl in Hpr..].
  - rewrite Hpr. split; [intros ->; by left|]. intros _ [->| ->]; [done|by destruct (p_probe permit)].
  - rewrite Hpr. split; [by left|done].
Qed.

(** Other goroutines keep the breakers well formed and in place. *)
Definition env_ok : Prop :=
  ∀ n h a b, h !! a = Some b → wf b → ∃ b', env n h !! a = Some b' ∧ wf b'.

(** A request to a guarded upstream asks its breaker and no other.  A
    rejected one is answered with the breaker's error and reaches nothing.
    An admitted one goes out exactly once and its outcome is recorded,
    whatever it is and whatever others do meanwhile: its permit holds no probe
    slot afterwards, and without interference a free slot is free again. *)
Theorem transport_round_trip a b req s resp err s' :
  env_ok → For_ toLower router (Some (ReqURL req)) = Some a → heap s !! a = Some b → wf b →
  round_trip req s = (resp, err, s') →
  panicked s' = panicked s ∧
  match Allow (clock (ticks s)) b with
  | Some (Err oe, _, b') =>
      resp = None ∧ err = Some (OpenErr oe) ∧ sent s' = sent s ∧ heap s' = <[a := b']> (heap s)
  | Some (Ok permit, _, b') =>
      (resp, err) = next (S (ticks s)) req ∧ sent s' = sent s ++ [req]
      ∧ (∀ a', a' ≠ a → heap s' !! a' = env (S (ticks s)) (<[a := b']> (heap s)) !! a')
      ∧ ∃ b2, heap s' !! a = Some b2 ∧ wf b2
          ∧ (p_probe permit = true → probeInFlight b2 = false ∨ generation b2 ≠ p_generation permit)
          ∧ (env (S (ticks s)) = id → probeInFlight b = false → probeInFlight b2 = false)
  | None => False
  end.
Proof.
  intros Henv Hfor Hb Hwf HR. unfold RoundTrip in HR. rewrite Hfor, Hb in HR.
  destruct (Allow_wf (clock (ticks s)) b Hwf) as (r & evs & b' & HA & Hwf'). rewrite HA in HR |- *.
  destruct r as [permit|oe]; [|by simplify_eq].
  destruct (Allow_permit _ _ _ _ _ Hwf HA) as (Hv & Hgen & Hfree).
  unfold send in HR. cbn [ticks put heap sent panicked] in HR.
  destruct (next (S (ticks s)) req) as [resp0 err0] eqn:Hn.
  destruct (Henv (S (ticks s)) (<[a := b']> (heap s)) a b') as (b1 & Hb1 & Hwf1);
    [apply lookup_insert_eq|done|].
  cbn [heap ticks] in HR. rewrite Hb1 in HR.
  match type of HR with context [RecordOutcome permit ?o ?t b1] =>
    destruct (Record_wf permit o t b1 Hwf1) as (b2 & evs2 & HRec & Hwf2) end.
  rewrite HRec in HR. injection HR as <- <- <-. cbn [panicked put sent heap].
  destruct (Record_frees _ _ _ _ _ _ Hv HRec) as [Hf1 Hf2].
  split_and!; try done.
  - intros a' Hne. by rewrite lookup_insert_ne.
  - exists b2. rewrite lookup_insert_eq. split_and!; try done.
    intros Hid Hp. rewrite Hid in Hb1. cbn in Hb1. rewrite lookup_insert_eq in Hb1. injection Hb1 as <-.
    apply Hf2; [done|]. destruct (p_probe permit) eqn:Hpp; [by left|right]. by apply Hfree.
Qed.

(** While the breaker of its endpoint rejects, a call fails at once: for
    every method and policy it makes one attempt, puts nothing on the network
    and changes nothing but that breaker, and its error is the breaker's, not
    an exhausted retry. *)
Theorem rpc_open_fails_fast policy url u method body s a b oe evs b' :
  parse url = Some u → For_ toLower router (Some u) = Some a → heap s !! a = Some b →
  Allow (clock (ticks s)) b = Some (Err oe, evs, b') → panicked s = false → ctxErr (ticks s) = None →
  ∃ err elapsed,
    rpc policy url method (Some body) s = (Some err, Some (1, elapsed, false), put a b' s)
    ∧ Is err SOpen = true ∧ Is err SExhausted = false.
Proof.
  intros Hu Hfor Hb HA Hp Hc.
  assert (round_trip (mkRequest u body) s = (None, Some (OpenErr oe), put a b' s)) as HR
    by (unfold RoundTrip; simpl ReqURL; by rewrite Hfor, Hb, HA).
  assert (try url method body s = (Some (Wrap "Post" (OpenErr oe)), put a b' s)) as Ht
    by (unfold attempt; rewrite Hu; simpl clientDo; by rewrite HR).
  unfold call, Do. set (k := Z.to_nat _). set (p := withDefaults policy).
  assert (∀ retryable, retryable = None ∨ retryable = Some retryableRPCError →
    declines retryable (Wrap "Post" (OpenErr oe)) = true) as Hd by (by intros ? [-> | ->]).
  set (retryable := if isIdempotentRPCMethod method then _ else _).
  specialize (Hd retryable). destruct k as [|k]; simpl.
  all: rewrite Hp, Hc; simpl; rewrite Ht, Hd by (unfold retryable; destruct (isIdempotentRPCMethod _); auto).
  all: eexists _, _; split; [reflexivity|done].
Qed.

(** ** Attempts *)

Lemma RoundTrip_sent req s :
  (length (sent (round_trip req s).2) ≤ length (sent s) + 1)%nat.
Proof.
  unfold RoundTrip, send, panic. destruct (For_ _ _ _); [|simpl; rewrite length_app; simpl; lia].
  destruct (heap s !! _); [|simpl; lia].
  destruct (Allow _ _) as [[[[permit|oe] evs] b']|]; [|simpl; lia..].
  cbn [ticks put heap sent panicked]. destruct (next _ _) as [resp err]. cbn [heap ticks].
  destruct (env _ _ !! _); [destruct (RecordOutcome _ _ _ _) as [[? ?]|]|];
    simpl; rewrite length_app; simpl; lia.
Qed.

Lemma clientDo_sent hops req s :
  (length (sent (clientDo toLower router clock ctxErr next env follow hops req s).2)
   ≤ length (sent s) + 1 + hops)%nat.
Proof.
  revert req s. induction hops as [|hops IH]; intros req s; simpl;
    pose proof (RoundTrip_sent req s) as Hs;
    destruct (RoundTrip _ _ _ _ _ _ req s) as [[[resp|] [e|]] s1]; simpl in *; try lia;
    destruct (follow req resp) as [req'|]; simpl; try lia.
  specialize (IH req' s1). lia.
Qed.

Lemma clientDo_direct hops req s :
  (∀ q r, follow q r = None) →
  (length (sent (clientDo toLower router clock ctxErr next env follow hops req s).2)
   ≤ length (sent s) + 1)%nat.
Proof.
  intros Hf. pose proof (RoundTrip_sent req s) as Hs.
  destruct hops; simpl; destruct (RoundTrip _ _ _ _ _ _ req s) as [[[resp|] [e|]] s1]; simpl in *;
    rewrite ?Hf; done.
Qed.

Lemma attempt_sent url method body s (n : nat) :
  (∀ req, (length (sent (clientDo toLower router clock ctxErr next env follow 9 req s).2)
     ≤ length (sent s) + n)%nat) →
  (length (sent (try url method body s).2) ≤ length (sent s) + n)%nat.
Proof.
  intros Hn. unfold attempt. destruct (parse url) as [u|]; [|simpl; lia].
  specialize (Hn (mkRequest u body)). destruct (clientDo _ _ _ _ _ _ _ 9 _ s) as [[resp|e] s1]; [|done].
  by destruct (_ || _).
Qed.

Section Bound.
Context (url method body : string) (retryable : option (error → bool)) (n : nat).
Hypothesis (Hn : ∀ s, (length (sent (try url method body s).2) ≤ length (sent s) + n)%nat).

Abbreviation world :=
  (runner parse toLower router clock ctxErr next env follow decode sleepErr draw url method body).

Lemma retried_sent p k last s s' :
  retried (World0 := world) retryable p k last s s' →
  0 ≤ k ∧ Z.of_nat (length (sent s')) ≤ Z.of_nat (length (sent s)) + Z.of_nat n * k.
Proof.
  induction 1 as [s|k last s s1 s2 s3 s4 delay err _ [IHk IH] _ Hf _ Hj Hs]; [lia|].
  simpl in Hf, Hj, Hs. injection Hj as _ <-. injection Hs as _ <-. simpl.
  pose proof (Hn s1) as Hb. rewrite Hf in Hb. simpl in Hb. nia.
Qed.

Lemma ends_sent p t0 k last s r :
  ends (World0 := world) retryable p t0 k last s r → 0 ≤ k < MaxAttempts p →
  k ≤ Attempts r.1.1 ≤ MaxAttempts p
  ∧ Z.of_nat (length (sent r.2)) ≤ Z.of_nat (length (sent s)) + Z.of_nat n * (Attempts r.1.1 - k).
Proof.
  pose proof (Hn s) as Hb.
  intros [s1 _ Hf|err s1 _ Hf _|err s1 _ Hf _ Hk|err _|err delay s1 s2 s3 cut _ Hf _ Hk Hj Hs] Hlt;
    simpl in *; try rewrite Hf in Hb; simpl in Hb; try nia.
  injection Hj as _ <-. injection Hs as _ <-. simpl. nia.
Qed.

Lemma Do_sent policy (s : net) r :
  Do (World0 := world) retryable policy s = r →
  0 ≤ Attempts r.1.1 ≤ MaxAttempts (withDefaults policy)
  ∧ Z.of_nat (length (sent r.2)) ≤ Z.of_nat (length (sent s)) + Z.of_nat n * Attempts r.1.1.
Proof.
  intros <-. destruct (Do_spec (World0 := world) retryable policy s)
    as (k & last & s' & Hr & Hk & He).
  apply retried_sent in Hr as [_ Hr]. apply ends_sent in He as [? He]; [|done]. nia.
Qed.
End Bound.

(** A call never exceeds its policy: it makes at most MaxAttempts
    attempts, each putting one request on the network (up to ten when the
    endpoint redirects).  A method that is not known to be idempotent, the
    submission of a transaction first of all, is attempted at most once, and
    what the call returns is the outcome of that attempt. *)
Theorem rpc_attempts_bounded policy url method body s err n elapsed ex s' :
  rpc policy url method (Some body) s = (err, Some (n, elapsed, ex), s') →
  0 ≤ n ≤ MaxAttempts (withDefaults policy)
  ∧ Z.of_nat (length (sent s')) ≤ Z.of_nat (length (sent s)) + 10 * n
  ∧ ((∀ q r, follow q r = None) →
     Z.of_nat (length (sent s')) ≤ Z.of_nat (length (sent s)) + n)
  ∧ (isIdempotentRPCMethod method = false →
     n = 0 ∧ s' = s
     ∨ n = 1 ∧ s' = (try url method body s).2
       ∧ err = Wrap ("rpc " +:+ method) <$> (try url method body s).1).
Proof.
  unfold call. set (retryable := if isIdempotentRPCMethod method then _ else _).
  destruct (Do retryable policy s) as [[res f] s1] eqn:HD. intros [= <- <- _ _ <-].
  assert (∀ k, (∀ s, (length (sent (try url method body s).2) ≤ length (sent s) + k)%nat) →
    0 ≤ Attempts res ≤ MaxAttempts (withDefaults policy)
    ∧ Z.of_nat (length (sent s1)) ≤ Z.of_nat (length (sent s)) + Z.of_nat k * Attempts res) as Hb
    by (intros k Hk; exact (Do_sent url method body retryable k Hk policy s _ HD)).
  destruct (Hb 10%nat) as [Hr H10]; [intros s2; apply attempt_sent; intros req|].
  { pose proof (clientDo_sent 9 req s2). lia. }
  split_and!; [lia..| |].
  - intros Hf. destruct (Hb 1%nat) as [_ H1]; [|lia].
    intros s2. apply attempt_sent. intros req. by apply clientDo_direct.
  - intros Hm. unfold retryable, Do in HD. rewrite Hm in HD. clear -HD.
    destruct (Z.to_nat _) as [|k]; simpl in HD;
      (destruct (if panicked s then _ else _) as [c|]; [injection HD as <- <- <-; by left|]);
      right; destruct (attempt _ _ _ _ _ _ _ _ _ url method body s) as [[e|] s2];
      simpl in HD; injection HD as <- <- <-; done.
Qed.

(** The client retries a response exactly when the breaker counts it as a
    failure of the upstream. *)
Lemma status_agrees method resp ctx :
  Classify ctx (Some resp) None = Breaker.Failure ↔
  retryableRPCError (rpcStatusError method (StatusCode resp) (slice 1024 (Body resp))) = true.
Proof.
  unfold Classify, retryableRPCError. simpl.
  destruct (500 <=? StatusCode resp); simpl; [done|].
  by destruct (StatusCode resp =? StatusTooManyRequests).
Qed.
End ClientFacts.

(** ** Witnesses *)

Definition demo_parse (s : string) : option URL := Some (mkURL "rpc.example" "/soroban").
Definition demo_router : Router := [mkRoute "rpc.example" "" 1; mkRoute "rpc.example" "/soroban" 0].
Definition demo_breaker : Breaker := NewWithClock "soroban" (mkConfig f64_zero 0 0 0) false 0.
Definition demo_open : Breaker := set_state StateOpen 1 false 3 demo_breaker.
Definition demo_net (b : Breaker) : net := mkNet {[ 0%nat := b ]} [] 0 false.
(** A network that answers every request with 503. *)
Definition demo_next (n : nat) (req : Request) : option Response * option error :=
  (Some (mkResponse 503 ""), None).
Definition demo_call (method : string) (b : Breaker) : option error * option (Z * Duration * bool) * net :=
  call demo_parse (λ s, s) demo_router (λ n, Z.of_nat n + 5) (λ _, None) demo_next (λ _ h, h)
    (λ _ _, None) (λ _, None) (λ _ _, None) (λ _ _, 0) (mkPolicy 0 0 0 0) "u" method (Some "{}"%string)
    (demo_net b).

Lemma demo_breaker_wf : wf demo_breaker.
Proof. apply NewWithClock_wf; vm_compute; [split|]; discriminate. Qed.

Lemma demo_routes_distinct : distinct_routes demo_router.
Proof.
  unfold distinct_routes, demo_router. simpl.
  apply NoDup_cons. split; [|apply NoDup_singleton].
  intros [= ]%list_elem_of_singleton.
Qed.

Lemma router_longest_prefix_witness :
  For_ (λ s, s) demo_router (Some (mkURL "rpc.example" "/soroban/v1")) = Some 0%nat
  ∧ For_ (λ s, s) (reverse demo_router) (Some (mkURL "rpc.example" "/soroban/v1")) = Some 0%nat.
Proof.
  destruct (router_longest_prefix demo_parse (λ s, s) demo_router (mkURL "rpc.example" "/soroban/v1")
    demo_routes_distinct) as (_ & _ & Hp & _).
  split; [reflexivity|]. rewrite Hp; [reflexivity|]. apply reverse_Permutation.
Defined.

Lemma transport_round_trip_witness :
  ∃ resp err s', RoundTrip (λ s, s) demo_router (λ n, Z.of_nat n + 5) (λ _, None) demo_next (λ _ h, h)
    (mkRequest (mkURL "rpc.example" "/soroban") "{}") (demo_net demo_breaker) = (resp, err, s')
  ∧ sent s' = [mkRequest (mkURL "rpc.example" "/soroban") "{}"] ∧ panicked s' = false.
Proof.
  destruct (RoundTrip (λ s, s) demo_router (λ n, Z.of_nat n + 5) (λ _, None) demo_next (λ _ h, h)
    (mkRequest (mkURL "rpc.example" "/soroban") "{}") (demo_net demo_breaker)) as [[resp err] s'] eqn:HR.
  exists resp, err, s'. split; [reflexivity|].
  pose proof (transport_round_trip (λ s, s) demo_router (λ n, Z.of_nat n + 5) (λ _, None) demo_next
    (λ _ h, h) 0 demo_breaker (mkRequest (mkURL "rpc.example" "/soroban") "{}") (demo_net demo_breaker)
    resp err s') as Ht.
  destruct Ht as [Hp Hs].
  - intros n h a b Hb Hwf. exists b. split; [exact Hb|exact Hwf].
  - reflexivity.
  - reflexivity.
  - apply demo_breaker_wf.
  - exact HR.
  - split; [|exact Hp]. vm_compute in Hs. apply Hs.
Defined.

Lemma rpc_open_fails_fast_witness :
  ∃ err elapsed, demo_call "getEvents" demo_open
    = (Some err, Some (1, elapsed, false), put 0 (set_rejected 1 demo_open) (demo_net demo_open))
  ∧ Is err SOpen = true.
Proof.
  destruct (rpc_open_fails_fast demo_parse (λ s, s) demo_router (λ n, Z.of_nat n + 5) (λ _, None)
    demo_next (λ _ h, h) (λ _ _, None) (λ _, None) (λ _ _, None) (λ _ _, 0) (mkPolicy 0 0 0 0) "u"
    (mkURL "rpc.example" "/soroban") "getEvents" "{}" (demo_net demo_open) 0 demo_open
    (mkOpenError "soroban" (15 * Second - 2)) [] (set_rejected 1 demo_open))
    as (err & elapsed & Hc & Ho & _); try reflexivity.
  exists err, elapsed. split; [exact Hc|exact Ho].
Defined.

Lemma rpc_attempts_bounded_witness :
  length (sent (demo_call "getEvents" demo_breaker).2) = 3%nat
  ∧ length (sent (demo_call "sendTransaction" demo_breaker).2) = 1%nat
  ∧ (demo_call "sendTransaction" demo_breaker).2
    = (attempt demo_parse (λ s, s) demo_router (λ n, Z.of_nat n + 5) (λ _, None) demo_next (λ _ h, h)
        (λ _ _, None) (λ _, None) "u" "sendTransaction" "{}" (demo_net demo_breaker)).2.
Proof.
  split; [vm_compute; reflexivity|]. split; [vm_compute; reflexivity|].
  destruct (demo_call "sendTransaction" demo_breaker) as [[err [[[n el] ex]|]] s'] eqn:HC;
    [|vm_compute in HC; discriminate].
  destruct (rpc_attempts_bounded demo_parse (λ s, s) demo_router (λ n, Z.of_nat n + 5) (λ _, None)
    demo_next (λ _ h, h) (λ _ _, None) (λ _, None) (λ _ _, None) (λ _ _, 0) (mkPolicy 0 0 0 0) "u"
    "sendTransaction" "{}" (demo_net demo_breaker) err n el ex s' HC) as (_ & _ & _ & Hw).
  destruct (Hw eq_refl) as [[-> _]|(_ & -> & _)]; [|reflexivity].
  vm_compute in HC. discriminate.
Defined.
