(* ===== verification/Submission.v ===== *)
(** Durable chain submissions (internal/stellar: submission.go,
    submission_store.go, submission_store_postgres.go, reconciler.go and the
    submission path of invoker.go): what the chain's answers mean, the table
    [submission_intents], the chokepoint [send] every signed envelope goes
    through, and the reconciler that settles what [send] leaves pending.

    The package txnbuild is the [TxnBuild] class, an answer of the RPC is an
    argument, and a statement of the store takes a [dbres] that says whether it
    succeeds; a statement that fails may have committed.  The last sections
    put any number of calls of [send], sweeps and a growing chain together and
    prove what the table says about the chain. *)

From stdpp Require Import sorting.
From Stdlib Require Import Ascii.
From S2P Require Import Prelude Sql GoStrings.
Open Scope Z_scope.

(** ** States and outcomes (submission.go) *)

Inductive SubmissionState :=
| SubmissionPending | SubmissionLanded | SubmissionRejected | SubmissionExpired
| SubmissionUnresolvable.

#[export] Instance SubmissionState_eq_dec : EqDecision SubmissionState.
Proof. solve_decision. Defined.

Definition Terminal (s : SubmissionState) : bool :=
  match s with
  | SubmissionLanded | SubmissionRejected | SubmissionExpired | SubmissionUnresolvable => true
  | _ => false
  end.

Inductive ChainOutcome :=
| OutcomeUnknown | OutcomeLanded | OutcomeRejected | OutcomeProvenNotLanded
| OutcomeUndeterminable.

#[export] Instance ChainOutcome_eq_dec : EqDecision ChainOutcome.
Proof. solve_decision. Defined.

Definition outcome_String (o : ChainOutcome) : string :=
  match o with
  | OutcomeLanded => "landed"
  | OutcomeRejected => "rejected"
  | OutcomeProvenNotLanded => "proven_not_landed"
  | OutcomeUndeterminable => "undeterminable"
  | _ => "unknown"
  end.

Definition PermitsNewAttempt (o : ChainOutcome) : bool :=
  bool_decide (o = OutcomeRejected) || bool_decide (o = OutcomeProvenNotLanded).

Definition State (o : ChainOutcome) : SubmissionState :=
  match o with
  | OutcomeLanded => SubmissionLanded
  | OutcomeRejected => SubmissionRejected
  | OutcomeProvenNotLanded => SubmissionExpired
  | OutcomeUndeterminable => SubmissionUnresolvable
  | _ => SubmissionPending
  end.

(** The status field of getTransaction, any string. *)
Definition TxStatusSuccess : string := "SUCCESS".
Definition TxStatusFailed : string := "FAILED".
Definition TxStatusNotFound : string := "NOT_FOUND".

Record ChainView := mkView {
  LatestLedgerCloseTime : Time;
  OldestLedgerCloseTime : Time;
}.

Definition IsZero (t : Time) : bool := t =? zeroTime.

Definition Valid (v : ChainView) : bool :=
  negb (IsZero (LatestLedgerCloseTime v)) && negb (IsZero (OldestLedgerCloseTime v)).

Record SubmissionIntent := mkIntent {
  ID : UUID;
  IdempotencyReference : string;
  TransactionHash : string;
  ValidUntil : Time;
  SourceAccount : string;
  DomainAction : string;
  IState : SubmissionState;
  Attempt : Z;
  CreatedAt : Time;
  SubmittedAt : option Time;
  ResolvedAt : option Time;
  OutcomeDetail : string;
}.

Definition EarliestInclusion (i : SubmissionIntent) : Time :=
  match SubmittedAt i with Some t => t | None => CreatedAt i end.

Definition DetermineOutcome (status : string) (view : ChainView) (intent : SubmissionIntent)
    : ChainOutcome :=
  if decide (status = TxStatusSuccess) then OutcomeLanded
  else if decide (status = TxStatusFailed) then OutcomeRejected
  else if negb (bool_decide (status = TxStatusNotFound)) then OutcomeUnknown
  else if negb (Valid view) then OutcomeUnknown
  else if IsZero (ValidUntil intent) then OutcomeUnknown
  else if negb (ValidUntil intent <? LatestLedgerCloseTime view) then OutcomeUnknown
  else if EarliestInclusion intent <? OldestLedgerCloseTime view then OutcomeUndeterminable
  else OutcomeProvenNotLanded.

(** ** Errors *)

Inductive SubmissionError :=
| ErrIntentNotFound
| ErrReferenceReused
| ErrReferenceRequired
| ErrTerminalRequired
| ErrDB
| ErrParseEnvelope
| ErrFeeBump
| ErrHash
| ErrNoTimeBound
| ErrSubmitFailed (detail : string)
| ErrSubmissionUnresolved
| ErrTxFailed
| ErrRPC (detail : string)
| ErrContext (detail : string).

(** ** The chain's identity of an envelope *)

(** Package txnbuild: [None] is a parse error, [Some None] a fee-bump
    envelope; the time bound is the uint64 maxTime of the transaction. *)
Class TxnBuild (Tx : Type) := {
  TransactionFromXDR : string → option (option Tx);
  HashHex : Tx → string → option string;
  MaxTime : Tx → option Z;
}.

Record TransactionIdentity := mkIdentity { Hash : string; IValidUntil : Time }.

Definition IdentifyTransaction {Tx} `{TxnBuild Tx} (signedEnvelopeB64 networkPassphrase : string)
    : result SubmissionError TransactionIdentity :=
  match TransactionFromXDR signedEnvelopeB64 with
  | None => Err ErrParseEnvelope
  | Some None => Err ErrFeeBump
  | Some (Some inner) =>
      match HashHex inner networkPassphrase with
      | None => Err ErrHash
      | Some hash =>
          Ok (mkIdentity hash
            (match MaxTime inner with
             | Some maxTime =>
                 if (0 <? maxTime) && (maxTime <=? max_i64) then timeUnix maxTime else zeroTime
             | None => zeroTime
             end))
      end
  end.

(** ** The store (submission_store_postgres.go) *)

Definition DefaultReconcileBackoff : Duration := 20 * Second.
Definition DefaultReconcileBatch : Z := 50.

(** A row of [submission_intents]: the columns of the intent, and the
    reconciler's own. *)
Record Row := mkRow {
  r_intent : SubmissionIntent;
  r_reconcile_attempts : Z;
  r_last_reconciled_at : option Time;
  r_next_reconcile_at : Time;
}.

Abbreviation Table := (gmap UUID Row).

(** The rows of a reference: the UNIQUE index. *)
Definition has_reference (reference : string) (p : UUID * Row) : bool :=
  bool_decide (IdempotencyReference (r_intent p.2) = reference).

Definition by_reference (reference : string) (t : Table) : list (UUID * Row) :=
  List.filter (has_reference reference) (map_to_list t).

Definition new_row (id : UUID) (i : SubmissionIntent) : Row :=
  mkRow (mkIntent id (IdempotencyReference i) (TransactionHash i) (ValidUntil i) (SourceAccount i)
           (DomainAction i) SubmissionPending 0 (CreatedAt i) None None "")
    0 None (CreatedAt i).

Definition with_created (wall : Time) (i : SubmissionIntent) : SubmissionIntent :=
  if IsZero (CreatedAt i) then
    mkIntent (ID i) (IdempotencyReference i) (TransactionHash i) (ValidUntil i) (SourceAccount i)
      (DomainAction i) (IState i) (Attempt i) wall (SubmittedAt i) (ResolvedAt i) (OutcomeDetail i)
  else i.

(** [fresh] is the column default gen_random_uuid(), [wall] time.Now(). *)
Definition insertIntent (d : dbres) (fresh : UUID) (wall : Time) (intent : SubmissionIntent)
    (t : Table) : result SubmissionError (option SubmissionIntent) * Table :=
  let intent := with_created wall intent in
  match by_reference (IdempotencyReference intent) t with
  | _ :: _ => (if failed d then Err ErrDB else Ok None, t)
  | [] =>
      match t !! fresh with
      | Some _ => (Err ErrDB, t)
      | None =>
          let row := new_row fresh intent in
          (if failed d then Err ErrDB else Ok (Some (r_intent row)), effect d t (<[fresh := row]> t))
      end
  end.

Definition getByReference (d : dbres) (reference : string) (t : Table)
    : result SubmissionError SubmissionIntent :=
  if failed d then Err ErrDB
  else match by_reference reference t with
       | (_, row) :: _ => Ok (r_intent row)
       | [] => Err ErrIntentNotFound
       end.

(** The second half of Claim, for a reference that exists. *)
Definition claim_existing (d2 : dbres) (intent : SubmissionIntent) (t : Table)
    : result SubmissionError (SubmissionIntent * bool) :=
  match getByReference d2 (IdempotencyReference intent) t with
  | Err e => Err e
  | Ok existing =>
      if negb (bool_decide (TransactionHash existing = TransactionHash intent))
      then Err ErrReferenceReused
      else Ok (existing, false)
  end.

(** [d1] and [d2] are the ends of the insert and of the select. *)
Definition Claim (d1 d2 : dbres) (fresh : UUID) (wall : Time) (intent : SubmissionIntent) (t : Table)
    : result SubmissionError (SubmissionIntent * bool) * Table :=
  if decide (IdempotencyReference intent = "") then (Err ErrReferenceRequired, t)
  else
    let '(r, t') := insertIntent d1 fresh wall intent t in
    match r with
    | Err e => (Err e, t')
    | Ok (Some created) => (Ok (created, true), t')
    | Ok None => (claim_existing d2 intent t', t')
    end.

Definition set_intent (i : SubmissionIntent) (r : Row) : Row :=
  mkRow i (r_reconcile_attempts r) (r_last_reconciled_at r) (r_next_reconcile_at r).

Definition submitted_row (at_ : Time) (r : Row) : Row :=
  let i := r_intent r in
  set_intent
    (mkIntent (ID i) (IdempotencyReference i) (TransactionHash i) (ValidUntil i) (SourceAccount i)
       (DomainAction i) (IState i) (Attempt i + 1) (CreatedAt i)
       (match SubmittedAt i with Some t => Some t | None => Some at_ end) (ResolvedAt i)
       (OutcomeDetail i)) r.

Definition resolved_row (s : SubmissionState) (detail : string) (at_ : Time) (r : Row) : Row :=
  let i := r_intent r in
  mkRow
    (mkIntent (ID i) (IdempotencyReference i) (TransactionHash i) (ValidUntil i) (SourceAccount i)
       (DomainAction i) s (Attempt i) (CreatedAt i) (SubmittedAt i) (Some at_) detail)
    (r_reconcile_attempts r + 1) (Some at_) (r_next_reconcile_at r).

Definition pending (r : Row) : bool := bool_decide (IState (r_intent r) = SubmissionPending).

(** The guarded update of one row, and ErrIntentNotFound when it matches none. *)
Definition exec_update (d : dbres) (guard : Row → bool) (g : Row → Row) (id : UUID) (t : Table)
    : result SubmissionError unit * Table :=
  let matched := match t !! id with Some r => guard r | None => false end in
  (if failed d then Err ErrDB else if matched then Ok tt else Err ErrIntentNotFound,
   effect d t (update_where guard g id t)).

Definition MarkSubmitted (d : dbres) (id : UUID) (at_ : Time) (t : Table)
    : result SubmissionError unit * Table :=
  exec_update d (λ _, true) (submitted_row at_) id t.

Definition Resolve (d : dbres) (id : UUID) (state : SubmissionState) (detail : string) (at_ : Time)
    (t : Table) : result SubmissionError unit * Table :=
  if decide (state = SubmissionPending) then (Err ErrTerminalRequired, t)
  else exec_update d pending (resolved_row state detail at_) id t.

Definition Get (d : dbres) (id : UUID) (t : Table) : result SubmissionError SubmissionIntent :=
  if failed d then Err ErrDB
  else match t !! id with Some r => Ok (r_intent r) | None => Err ErrIntentNotFound end.

Definition due_before (p q : UUID * Row) : Prop := r_next_reconcile_at p.2 ≤ r_next_reconcile_at q.2.

#[export] Instance due_before_dec : RelDecision due_before.
Proof. intros p q. unfold due_before. apply _. Defined.

Definition reconcilable (locked : UUID → bool) (now : Time) (p : UUID * Row) : bool :=
  pending p.2 && (r_next_reconcile_at p.2 <=? now) && negb (locked p.1).

Definition pushed_row (next : Time) (r : Row) : Row :=
  mkRow (r_intent r) (r_reconcile_attempts r) (r_last_reconciled_at r) next.

(** [locked] are the rows other sweeps hold, which SKIP LOCKED passes over. *)
Definition ClaimPendingForReconcile (reconcileBackoff : Duration) (d : dbres) (locked : UUID → bool)
    (limit : Z) (now : Time) (t : Table) : result SubmissionError (list SubmissionIntent) * Table :=
  let limit := if limit <=? 0 then DefaultReconcileBatch else limit in
  let rows := select_rows due_before (reconcilable locked now) limit t in
  let g := pushed_row (timeAdd now reconcileBackoff) in
  (if failed d then Err ErrDB else Ok ((λ p, r_intent p.2) <$> update_rows g rows),
   effect d t (overwrite g rows t)).

(** ** The invoker's calls (invoker.go) *)

Record getTxResult := mkGetTx {
  Status : string;
  latestLedgerCloseTime : string;
  oldestLedgerCloseTime : string;
}.

Record sendResult := mkSend { s_Hash : string; s_Status : string; ErrorResultXDR : string }.

(** A JSON-RPC response, with the message of its error member. *)
Record rpcResponse (T : Type) := mkResponse { Result : T; Error : option string }.
Arguments mkResponse {T}. Arguments Result {T}. Arguments Error {T}.

Definition parseLedgerCloseTime (raw : string) : Time :=
  match ParseInt (TrimSpace raw) with
  | None => zeroTime
  | Some seconds => if seconds <=? 0 then zeroTime else timeUnix seconds
  end.

Definition chainView (r : getTxResult) : ChainView :=
  mkView (parseLedgerCloseTime (latestLedgerCloseTime r))
    (parseLedgerCloseTime (oldestLedgerCloseTime r)).

(** [built] is the error of encoding or building the request, [http] what the
    HTTP client returns: an error, or a status and the decoded body. *)
Definition rpcCall {T} (built : option string) (http : result string (Z * result string T))
    : result SubmissionError T :=
  match built with
  | Some e => Err (ErrRPC e)
  | None =>
      match http with
      | Err e => Err (ErrRPC e)
      | Ok (status, body) =>
          if (status <? 200) || (299 <? status) then Err (ErrRPC "unexpected status")
          else match body with Ok result => Ok result | Err e => Err (ErrRPC e) end
      end
  end.

Definition LookupTransaction (rpc : result SubmissionError (rpcResponse getTxResult))
    : result SubmissionError (string * ChainView) :=
  match rpc with
  | Err e => Err e
  | Ok resp =>
      match Error resp with
      | Some message => Err (ErrRPC message)
      | None => Ok (Status (Result resp), chainView (Result resp))
      end
  end.

(** A Go pair of a hash and an error. *)
Abbreviation outcome := (string * option SubmissionError)%type.

Definition submitEnvelope (rpc : result SubmissionError (rpcResponse sendResult)) : outcome :=
  match rpc with
  | Err e => (""%string, Some e)
  | Ok resp =>
      match Error resp with
      | Some message => (""%string, Some (ErrSubmitFailed message))
      | None =>
          if decide (s_Status (Result resp) = "ERROR")
          then (""%string, Some (ErrSubmitFailed (ErrorResultXDR (Result resp))))
          else (s_Hash (Result resp), None)
      end
  end.

Definition existingSubmissionResult (stored : SubmissionIntent) : option SubmissionError :=
  match IState stored with
  | SubmissionLanded => None
  | SubmissionRejected | SubmissionExpired => Some (ErrSubmitFailed "ended")
  | SubmissionUnresolvable => Some ErrSubmissionUnresolved
  | _ => Some ErrSubmissionUnresolved
  end.

(** The value under [referenceKey] in a context. *)
Definition WithIdempotencyReference (ctx : option string) (reference : string) : option string :=
  if decide (reference = "") then ctx else Some reference.

Definition idempotencyReferenceFrom (ctx : option string) : string :=
  match ctx with Some reference => reference | None => "" end.

(** [send] up to its call of Claim: the intent that is recorded. *)
Definition send_intent {Tx} `{TxnBuild Tx} (networkPassphrase operatorAddress : string)
    (ctx : option string) (now : Time) (txB64 : string) : result SubmissionError SubmissionIntent :=
  match IdentifyTransaction txB64 networkPassphrase with
  | Err e => Err e
  | Ok identity =>
      if IsZero (IValidUntil identity) then Err ErrNoTimeBound
      else
        let reference :=
          if decide (idempotencyReferenceFrom ctx = "") then "tx:" +:+ Hash identity
          else idempotencyReferenceFrom ctx in
        Ok (mkIntent 0 reference (Hash identity) (IValidUntil identity) operatorAddress ""
              SubmissionPending 0 now None None "")
  end.

(** What the caller is told once the envelope has been handed over. *)
Definition send_result (stored : SubmissionIntent) (submitted : outcome) : outcome :=
  match submitted with
  | (_, Some submitErr) => (TransactionHash stored, Some ErrSubmissionUnresolved)
  | (hash, None) => (hash, None)
  end.

(** What one call of [send] meets: how its three statements end, the id the
    database draws, the clock before and after the submission, and the RPC's
    answer, should the call ask. *)
Record SendEnv := mkSendEnv {
  e_insert : dbres; e_select : dbres; e_mark : dbres;
  e_fresh : UUID;
  e_now : Time; e_marked : Time;
  e_rpc : result SubmissionError (rpcResponse sendResult);
}.

(** The result, whether sendTransaction was called, and the table. *)
Definition send {Tx} `{TxnBuild Tx} (hasStore : bool) (networkPassphrase operatorAddress : string)
    (ctx : option string) (env : SendEnv) (txB64 : string) (t : Table) : outcome * bool * Table :=
  if negb hasStore then (submitEnvelope (e_rpc env), true, t)
  else
    match send_intent networkPassphrase operatorAddress ctx (e_now env) txB64 with
    | Err e => ((""%string, Some e), false, t)
    | Ok intent =>
        let '(claim, t1) :=
          Claim (e_insert env) (e_select env) (e_fresh env) (e_now env) intent t in
        match claim with
        | Err e => ((""%string, Some e), false, t1)
        | Ok (stored, false) =>
            ((TransactionHash stored, existingSubmissionResult stored), false, t1)
        | Ok (stored, true) =>
            let submitted := submitEnvelope (e_rpc env) in
            let '(_, t2) := MarkSubmitted (e_mark env) (ID stored) (e_marked env) t1 in
            (send_result stored submitted, true, t2)
        end
    end.

(** The polling of [waitForTx]: what each turn of its select receives, the
    end of the context or a tick with getTransaction's answer.  [None] is a
    wait that goes on. *)
Inductive wait_event :=
| WDone (e : string)
| WTick (rpc : result SubmissionError (rpcResponse getTxResult)).

Fixpoint waitForTx (events : list wait_event) : option (option SubmissionError) :=
  match events with
  | [] => None
  | WDone e :: _ => Some (Some (ErrContext e))
  | WTick (Err e) :: _ => Some (Some e)
  | WTick (Ok resp) :: events =>
      match Error resp with
      | Some message => Some (Some (ErrRPC message))
      | None =>
          if decide (Status (Result resp) = TxStatusSuccess) then Some None
          else if decide (Status (Result resp) = TxStatusFailed) then Some (Some ErrTxFailed)
          else waitForTx events
      end
  end.

(** ** The reconciler (reconciler.go) *)

Definition DefaultReconcileInterval : Duration := 15 * Second.

(** The state and the detail to persist, when the lookup decides one. *)
Definition verdict (intent : SubmissionIntent) (lookup : result SubmissionError (string * ChainView))
    : option (SubmissionState * string) :=
  match lookup with
  | Err _ => None
  | Ok (status, view) =>
      let outcome := DetermineOutcome status view intent in
      if decide (outcome = OutcomeUnknown) then None
      else Some (State outcome,
             "chain reported " +:+ status +:+ "; outcome " +:+ outcome_String outcome)
  end.

Definition reconcile (d : dbres) (now : Time) (intent : SubmissionIntent)
    (lookup : result SubmissionError (string * ChainView)) (t : Table) : Table :=
  match verdict intent lookup with
  | None => t
  | Some (state, detail) => (Resolve d (ID intent) state detail now t).2
  end.

(** What one sweep meets: the leader checker (nil is a leader), the clock and
    the end of the claim and, for the intent at each index, whether the
    context is done, the chain's answer about a hash, the clock and the end of
    Resolve. *)
Record TickEnv := mkTickEnv {
  k_leader : option bool;
  k_now : Time; k_claim : dbres; k_locked : UUID → bool;
  k_done : nat → bool;
  k_lookup : nat → string → result SubmissionError (string * ChainView);
  k_at : nat → Time; k_resolve : nat → dbres;
}.

Definition isLeader (l : option bool) : bool := match l with None => true | Some b => b end.

Fixpoint reconcile_all (env : TickEnv) (n : nat) (intents : list SubmissionIntent) (t : Table) : Table :=
  match intents with
  | [] => t
  | intent :: intents =>
      if k_done env n then t
      else reconcile_all env (S n) intents
             (reconcile (k_resolve env n) (k_at env n) intent
                (k_lookup env n (TransactionHash intent)) t)
  end.

Definition Tick (reconcileBackoff : Duration) (batch : Z) (env : TickEnv) (t : Table) : Table :=
  if negb (isLeader (k_leader env)) then t
  else
    match ClaimPendingForReconcile reconcileBackoff (k_claim env) (k_locked env) batch (k_now env) t with
    | (Err _, t) => t
    | (Ok intents, t) => reconcile_all env 0 intents t
    end.

(** ** The chain

    What the network promises, as the store and the reconciler rely on it:
    ledgers close at increasing times, a transaction is in at most one ledger,
    and none is in a ledger that closes after the maxTime it was signed with
    ([bound], in Unix seconds, by hash). *)

Record Ledger := mkLedger { l_close : Time; l_txs : list (string * bool) }.
Abbreviation Chain := (list Ledger).

Definition included (h : string) (ok : bool) (c : Chain) : Prop :=
  ∃ l, l ∈ c ∧ (h, ok) ∈ l_txs l.

Definition chain_ok (bound : string → option Z) (c : Chain) : Prop :=
  StronglySorted Z.lt (l_close <$> c)
  ∧ (∀ l, l ∈ c → 0 < l_close l)
  ∧ (∀ l h ok m, l ∈ c → (h, ok) ∈ l_txs l → bound h = Some m → l_close l ≤ m * Second)
  ∧ (∀ l l' h ok ok', l ∈ c → l' ∈ c → (h, ok) ∈ l_txs l → (h, ok') ∈ l_txs l' → l = l' ∧ ok = ok').

(** No continuation of the chain makes the transaction succeed. *)
Definition never (bound : string → option Z) (h : string) (c : Chain) : Prop :=
  ∀ more, chain_ok bound (c ++ more) → ¬ included h true (c ++ more).

(** An answer of the RPC, which remembers the ledgers [kept]; a status outside
    the three of the protocol may come with anything. *)
Definition answers (c : Chain) (h status : string) (view : ChainView) : Prop :=
  ∃ forgotten kept first newest,
    c = forgotten ++ kept ∧ head kept = Some first ∧ last kept = Some newest
    ∧ view = mkView (l_close newest) (l_close first)
    ∧ (status = TxStatusSuccess → included h true kept)
    ∧ (status = TxStatusFailed → included h false kept)
    ∧ (status = TxStatusNotFound → ∀ ok, ¬ included h ok kept).

Lemma included_app h ok c c' : included h ok (c ++ c') ↔ included h ok c ∨ included h ok c'.
Proof. unfold included. setoid_rewrite elem_of_app. naive_solver. Qed.

Lemma sorted_app_lt (c c' : Chain) l l' :
  StronglySorted Z.lt (l_close <$> c ++ c') → l ∈ c → l' ∈ c' → l_close l < l_close l'.
Proof.
  rewrite fmap_app. intros Hs Hl Hl'.
  by eapply (StronglySorted_app_1_elem_of Z.lt); [exact Hs| |]; apply list_elem_of_fmap_2.
Qed.

Lemma sorted_head (c : Chain) first l :
  StronglySorted Z.lt (l_close <$> c) → head c = Some first → l ∈ c → l_close first ≤ l_close l.
Proof.
  destruct c as [|a c]; [done|]. intros Hs [= ->] [->|Hl]%elem_of_cons; [lia|].
  pose proof (sorted_app_lt [first] c first l Hs (list_elem_of_here _ _) Hl). lia.
Qed.

Lemma sorted_last (c : Chain) newest l :
  StronglySorted Z.lt (l_close <$> c) → last c = Some newest → l ∈ c → l_close l ≤ l_close newest.
Proof.
  intros Hs (c0 & ->)%last_Some. intros [Hl|Hl]%elem_of_app.
  - pose proof (sorted_app_lt c0 [newest] l newest Hs Hl (list_elem_of_here _ _)). lia.
  - apply list_elem_of_singleton in Hl as ->. lia.
Qed.

Lemma chain_ok_app bound c c' : chain_ok bound (c ++ c') → chain_ok bound c.
Proof.
  intros (H1 & H2 & H3 & H4). split_and!.
  - rewrite fmap_app in H1. by apply StronglySorted_app_1_l in H1.
  - intros l Hl. apply H2. set_solver.
  - intros l h ok m Hl. apply H3. set_solver.
  - intros l l' h ok ok' Hl Hl'. apply H4; set_solver.
Qed.

Lemma never_app bound h c c' : never bound h c → never bound h (c ++ c').
Proof. intros H more. rewrite <-app_assoc. apply H. Qed.

(** A transaction that failed on the chain never succeeds. *)
Lemma failed_never bound h c : included h false c → never bound h c.
Proof.
  intros (l & Hl & Hh) more (_ & _ & _ & Hu) (l' & Hl' & Hh').
  destruct (Hu l l' h false true) as [_ [=]]; set_solver.
Qed.

(** When the chain's clock is past the bound and the chain holds no trace of
    the transaction, it is in no continuation of it. *)
Lemma expired_absent bound h c m newest more ok :
  chain_ok bound (c ++ more) → bound h = Some m → last c = Some newest →
  m * Second < l_close newest → included h ok (c ++ more) → included h ok c.
Proof.
  intros Hc Hm Hn Hlt (l & [Hl|Hl]%elem_of_app & Hh); [by exists l|].
  destruct Hc as (Hs & _ & Hb & _).
  assert (Hl' : l ∈ c ++ more) by (apply elem_of_app; auto).
  pose proof (Hb l h ok m Hl' Hh Hm). apply last_Some_elem_of in Hn.
  pose proof (sorted_app_lt _ _ newest l Hs Hn Hl). lia.
Qed.

Lemma valid_pos (a b : Time) : 0 < a → 0 < b → Valid (mkView a b) = true.
Proof.
  intros Ha Hb. unfold Valid, IsZero, zeroTime, Second. simpl.
  apply andb_true_iff. split; apply negb_true_iff, Z.eqb_neq;
    unfold Millisecond, Microsecond, Nanosecond; lia.
Qed.

(** The cases of [DetermineOutcome] against the chain. *)
Lemma determine_sound bound c intent status view m :
  let h := TransactionHash intent in
  chain_ok bound c → answers c h status view →
  bound h = Some m → 0 < m → ValidUntil intent = m * Second →
  (∀ l ok, l ∈ c → (h, ok) ∈ l_txs l → EarliestInclusion intent ≤ l_close l) →
  match DetermineOutcome status view intent with
  | OutcomeLanded => included h true c
  | OutcomeRejected | OutcomeProvenNotLanded => never bound h c
  | OutcomeUndeterminable =>
      ∀ more ok, chain_ok bound (c ++ more) → included h ok (c ++ more) →
        ∃ l, l ∈ c ∧ (h, ok) ∈ l_txs l ∧ l_close l < OldestLedgerCloseTime view
  | OutcomeUnknown =>
      status ∈ [TxStatusSuccess; TxStatusFailed; TxStatusNotFound] →
        status = TxStatusNotFound ∧ LatestLedgerCloseTime view ≤ ValidUntil intent
  end.
Proof.
  intros h Hc (old & kept & first & newest & Hsplit & Hfirst & Hnew & -> & HS & HF & HN) Hm Hpos Hvu Ht.
  unfold DetermineOutcome. cbn [LatestLedgerCloseTime OldestLedgerCloseTime].
  assert (Hlast : last c = Some newest) by (rewrite Hsplit, last_app, Hnew; done).
  assert (Hkept : ∀ ok, included h ok kept → included h ok c)
    by (intros ok; rewrite Hsplit, included_app; auto).
  assert (Hfirst' : first ∈ kept) by (destruct kept; set_solver).
  assert (0 < l_close newest ∧ 0 < l_close first) as [Hp1 Hp2].
  { apply last_Some_elem_of in Hlast. destruct Hc as (_ & Hpos' & _). split; apply Hpos'; set_solver. }
  destruct (decide (status = TxStatusSuccess)) as [->|N1]; [by apply Hkept, HS|].
  destruct (decide (status = TxStatusFailed)) as [->|N2]; [by apply failed_never, Hkept, HF|].
  destruct (bool_decide (status = TxStatusNotFound)) eqn:N3; cbn [negb].
  2:{ apply bool_decide_eq_false in N3. set_solver. }
  apply bool_decide_eq_true in N3. rewrite valid_pos by done. cbn [negb].
  unfold IsZero. destruct (Z.eqb_spec (ValidUntil intent) zeroTime) as [E|_].
  { exfalso. rewrite Hvu in E. unfold zeroTime, Second, Millisecond, Microsecond, Nanosecond in E. lia. }
  destruct (Z.ltb_spec (ValidUntil intent) (l_close newest)); cbn [negb]; [|done].
  assert (Hold : ∀ more ok, chain_ok bound (c ++ more) → included h ok (c ++ more) → included h ok old).
  { intros more ok Hc' Hin. eapply expired_absent in Hin; [|done..|lia].
    rewrite Hsplit, included_app in Hin. destruct Hin as [?|Hin]; [done|by apply HN in Hin]. }
  assert (Hbefore : ∀ l, l ∈ old → l_close l < l_close first).
  { intros l Hl. destruct Hc as (Hs & _). rewrite Hsplit in Hs. by eapply sorted_app_lt. }
  destruct (Z.ltb_spec (EarliestInclusion intent) (l_close first)) as [E|E].
  - intros more ok Hc' (l & Hl & Hh)%Hold; [|done]. exists l. rewrite Hsplit. set_solver.
  - intros more Hc' (l & Hl & Hh)%Hold; [|done]. specialize (Hbefore l Hl).
    assert (Hl' : l ∈ c) by (rewrite Hsplit; apply elem_of_app; auto).
    specialize (Ht l true Hl' Hh). lia.
Qed.

(** What the reconciler concludes from an answer is what the chain says,
    whatever the chain does afterwards.  If the intent carries the bound its
    transaction was signed with and nothing happened to the transaction before
    EarliestInclusion: "landed" means a ledger holds it and it succeeded;
    "rejected" and "proven not landed", the two outcomes that permit a new
    attempt, mean that no continuation of the chain ever makes it succeed;
    "undeterminable" means that it can no longer be included, and was
    forgotten if it was; and with a status of the protocol the outcome is
    unknown exactly while the transaction is absent and its window open. *)
Theorem sub_outcome_sound bound c intent status view m :
  let h := TransactionHash intent in
  chain_ok bound c → answers c h status view →
  bound h = Some m → 0 < m → ValidUntil intent = m * Second →
  (∀ l ok, l ∈ c → (h, ok) ∈ l_txs l → EarliestInclusion intent ≤ l_close l) →
  match DetermineOutcome status view intent with
  | OutcomeLanded => included h true c
  | OutcomeRejected | OutcomeProvenNotLanded => never bound h c
  | OutcomeUndeterminable =>
      ∀ more ok, chain_ok bound (c ++ more) → included h ok (c ++ more) →
        ∃ l, l ∈ c ∧ (h, ok) ∈ l_txs l ∧ l_close l < OldestLedgerCloseTime view
  | OutcomeUnknown =>
      status ∈ [TxStatusSuccess; TxStatusFailed; TxStatusNotFound] →
        status = TxStatusNotFound ∧ LatestLedgerCloseTime view ≤ ValidUntil intent
  end.
Proof. apply determine_sound. Qed.

(** ** Rows *)

(** What no statement changes in a row, and what changes once. *)
Definition evolves (r r' : Row) : Prop :=
  let i := r_intent r in let i' := r_intent r' in
  ID i' = ID i ∧ IdempotencyReference i' = IdempotencyReference i
  ∧ TransactionHash i' = TransactionHash i ∧ ValidUntil i' = ValidUntil i
  ∧ CreatedAt i' = CreatedAt i
  ∧ (IState i ≠ SubmissionPending → IState i' = IState i)
  ∧ (∀ t, SubmittedAt i = Some t → SubmittedAt i' = Some t).

Lemma evolves_refl r : evolves r r.
Proof. unfold evolves. naive_solver. Qed.

Lemma evolves_trans r1 r2 r3 : evolves r1 r2 → evolves r2 r3 → evolves r1 r3.
Proof.
  unfold evolves. intros (?&?&?&?&?&P1&Q1) (?&?&?&?&?&P2&Q2). split_and!; try congruence.
  - intros Hn. rewrite P2, P1; [done..|]. by rewrite P1.
  - auto.
Qed.

Definition grows (t t' : Table) : Prop := ∀ id r, t !! id = Some r → ∃ r', t' !! id = Some r' ∧ evolves r r'.

Lemma grows_refl t : grows t t.
Proof. intros id r Hr. exists r. split; [done|apply evolves_refl]. Qed.

Lemma grows_trans t1 t2 t3 : grows t1 t2 → grows t2 t3 → grows t1 t3.
Proof.
  intros H1 H2 id r (r' & Hr' & E)%H1. apply H2 in Hr' as (r'' & Hr'' & E').
  exists r''. eauto using evolves_trans.
Qed.

Lemma exec_update_spec d guard g id t :
  (exec_update d guard g id t).2 = t
  ∨ (exec_update d guard g id t).2 = update_where guard g id t.
Proof. destruct d as [|[]]; simpl; auto. Qed.

Lemma update_grows guard g id t :
  (∀ r, t !! id = Some r → guard r = true → evolves r (g r)) → grows t (update_where guard g id t).
Proof.
  intros Hg id' r Hr. destruct (update_where_row guard g id t id' r Hr) as [H|(-> & Hgr & H)].
  - exists r. split; [done|apply evolves_refl].
  - exists (g r). auto.
Qed.

Lemma submitted_evolves at_ r : evolves r (submitted_row at_ r).
Proof. unfold evolves, submitted_row, set_intent. simpl. split_and!; try done. by intros t ->. Qed.

Lemma resolved_evolves s detail at_ r : pending r = true → evolves r (resolved_row s detail at_ r).
Proof. intros Hp%bool_decide_eq_true. unfold evolves, resolved_row. simpl. by split_and!. Qed.

Lemma pushed_evolves next r : evolves r (pushed_row next r).
Proof. exact (evolves_refl r). Qed.

(** The rows of [t'] come from [t]. *)
Definition no_new (t t' : Table) : Prop := ∀ id r', t' !! id = Some r' → is_Some (t !! id).

Lemma update_no_new guard g id t : no_new t (update_where guard g id t).
Proof.
  intros id' r' Hr'. destruct (t !! id') eqn:E; [eauto|].
  rewrite update_where_new in Hr' by done. done.
Qed.

Lemma no_new_refl t : no_new t t.
Proof. intros id r Hr. eauto. Qed.

Lemma MarkSubmitted_grows d id at_ t :
  grows t (MarkSubmitted d id at_ t).2 ∧ no_new t (MarkSubmitted d id at_ t).2.
Proof.
  unfold MarkSubmitted. destruct (exec_update_spec d (λ _, true) (submitted_row at_) id t) as [->| ->].
  - split; [apply grows_refl|apply no_new_refl].
  - split; [|apply update_no_new]. apply update_grows. intros. apply submitted_evolves.
Qed.

Lemma Resolve_grows d id s detail at_ t :
  grows t (Resolve d id s detail at_ t).2 ∧ no_new t (Resolve d id s detail at_ t).2.
Proof.
  unfold Resolve. case_decide; [split; [apply grows_refl|apply no_new_refl]|].
  destruct (exec_update_spec d pending (resolved_row s detail at_) id t) as [->| ->].
  - split; [apply grows_refl|apply no_new_refl].
  - split; [|apply update_no_new]. apply update_grows. intros. by apply resolved_evolves.
Qed.

Lemma ClaimPending_spec backoff d locked limit now t rs t' :
  ClaimPendingForReconcile backoff d locked limit now t = (rs, t') →
  grows t t' ∧ no_new t t'
  ∧ (∀ id r', t' !! id = Some r' → ∃ r, t !! id = Some r ∧ r_intent r' = r_intent r)
  ∧ ∀ l i, rs = Ok l → i ∈ l →
      ∃ id r, t !! id = Some r ∧ r_intent r = i ∧ pending r = true ∧ r_next_reconcile_at r ≤ now.
Proof.
  unfold ClaimPendingForReconcile. set (n := if limit <=? 0 then _ else _).
  set (rows := select_rows _ _ _ _). set (g := pushed_row _). intros [= <- <-].
  assert (Hrows : ∀ x, x ∈ rows → t !! x.1 = Some x.2) by (by intros x [? _]%select_In).
  assert (Hnd : NoDup rows.*1) by apply select_NoDup.
  assert (Hback : ∀ id r', overwrite g rows t !! id = Some r' →
            ∃ r, t !! id = Some r ∧ r_intent r' = r_intent r).
  { intros id r' Hr'. destruct (t !! id) as [r|] eqn:E.
    - exists r. split; [done|].
      destruct (overwrite_row g rows t id r Hnd Hrows E) as [H|[_ H]];
        rewrite H in Hr'; by injection Hr' as <-.
    - by rewrite overwrite_new in Hr'. }
  split_and!.
  - destruct d as [|[]]; simpl; [| |apply grows_refl]; intros id r Hr;
      destruct (overwrite_row g rows t id r Hnd Hrows Hr) as [H|[_ H]];
      eauto using evolves_refl, pushed_evolves.
  - destruct d as [|[]]; simpl; intros id r' Hr'; [| |eauto]; apply Hback in Hr' as (r & Hr & _); eauto.
  - destruct d as [|[]]; simpl; [done|done|eauto].
  - intros l i Hl Hi. destruct (failed d); [done|]. injection Hl as <-.
    apply list_elem_of_fmap in Hi as (x & -> & Hx). unfold update_rows in Hx.
    apply list_elem_of_fmap in Hx as (y & -> & Hy). exists y.1, y.2.
    apply select_In in Hy as (Hy & Hf). unfold reconcilable in Hf. go_bool. done.
Qed.

(** ** Claim *)

Lemma by_reference_In reference t id r :
  (id, r) ∈ by_reference reference t
  ↔ t !! id = Some r ∧ IdempotencyReference (r_intent r) = reference.
Proof.
  unfold by_reference. rewrite (filtered_In _ t (id, r)).
  unfold has_reference. simpl. by rewrite bool_decide_eq_true.
Qed.

Lemma by_reference_nil reference t id r :
  by_reference reference t = [] → t !! id = Some r → IdempotencyReference (r_intent r) ≠ reference.
Proof.
  intros E Hr Href. assert (H : (id, r) ∈ by_reference reference t) by by apply by_reference_In.
  rewrite E in H. set_solver.
Qed.

(** References are unique and a row holds its id. *)
Definition keyed (t : Table) : Prop :=
  (∀ id r, t !! id = Some r → ID (r_intent r) = id)
  ∧ ∀ id1 r1 id2 r2, t !! id1 = Some r1 → t !! id2 = Some r2 →
      IdempotencyReference (r_intent r1) = IdempotencyReference (r_intent r2) → id1 = id2.

Lemma keyed_evolves t t' : keyed t → grows t t' → no_new t t' → keyed t'.
Proof.
  intros [H1 H2] Hg Hn. split.
  - intros id r' Hr'. destruct (Hn _ _ Hr') as [r Hr]. destruct (Hg _ _ Hr) as (r0 & E & Hev).
    simplify_eq. rewrite (proj1 Hev). by apply H1.
  - intros id1 r1' id2 r2' Hr1' Hr2' Href.
    destruct (Hn _ _ Hr1') as [r1 Hr1]. destruct (Hg _ _ Hr1) as (? & E1 & Hev1).
    destruct (Hn _ _ Hr2') as [r2 Hr2]. destruct (Hg _ _ Hr2) as (? & E2 & Hev2).
    simplify_eq. eapply H2; [done..|]. destruct Hev1 as (_ & <- & _), Hev2 as (_ & <- & _). done.
Qed.

(** What Claim leaves and answers. *)
Lemma Claim_spec d1 d2 fresh wall intent t rs t' :
  keyed t → Claim d1 d2 fresh wall intent t = (rs, t') →
  let row := new_row fresh (with_created wall intent) in
  (t' = t ∨ t !! fresh = None ∧ t' = <[fresh := row]> t
            ∧ ∀ id r, t !! id = Some r →
                IdempotencyReference (r_intent r) ≠ IdempotencyReference intent)
  ∧ match rs with
    | Ok (stored, true) => t' = <[fresh := row]> t ∧ stored = r_intent row ∧ t !! fresh = None
    | Ok (stored, false) =>
        t' = t ∧ ∃ r, t !! ID stored = Some r ∧ r_intent r = stored
          ∧ IdempotencyReference stored = IdempotencyReference intent
          ∧ TransactionHash stored = TransactionHash intent
    | Err _ => t' = t ∨ failed d1 = true
    end.
Proof.
  intros [Hid _]. unfold Claim. case_decide; [by intros [= <- <-]; auto|].
  destruct (insertIntent d1 fresh wall intent t) as [r t1] eqn:Hins. unfold insertIntent in Hins.
  assert (Href : IdempotencyReference (with_created wall intent) = IdempotencyReference intent)
    by (unfold with_created; by destruct (IsZero _)).
  rewrite Href in Hins.
  destruct (by_reference (IdempotencyReference intent) t) as [|p l] eqn:Hby.
  - destruct (t !! fresh) eqn:Hf; [injection Hins as <- <-; by intros [= <- <-]; auto|].
    set (row := new_row fresh (with_created wall intent)) in *.
    assert (Hno : ∀ id r, t !! id = Some r →
              IdempotencyReference (r_intent r) ≠ IdempotencyReference intent)
      by (intros ?? Hr; by eapply by_reference_nil).
    injection Hins as <- <-. destruct d1 as [|[]]; simpl; intros [= <- <-]; simpl; split; auto.
  - destruct (failed d1); injection Hins as <- <-; intros [= <- <-]; (split; [by left|]); [by left|].
    unfold claim_existing, getByReference. destruct (failed d2); [by left|]. rewrite Hby.
    destruct p as [id r]. cbn iota beta.
    assert (Hin : (id, r) ∈ by_reference (IdempotencyReference intent) t) by (rewrite Hby; set_solver).
    apply by_reference_In in Hin as [Hr Hr'].
    destruct (negb _) eqn:Hh; [by left|]. apply negb_false_iff, bool_decide_eq_true in Hh.
    split; [done|]. exists r. rewrite (Hid id r Hr). auto.
Qed.

(** ** Calls, sweeps and the chain together *)

(** A call of [send] between its statements: it holds a claim, or it has
    called sendTransaction. *)
Inductive Phase := PClaimed (stored : SubmissionIntent) | PSent (stored : SubmissionIntent).

Definition phase_intent (p : Phase) : SubmissionIntent :=
  match p with PClaimed i | PSent i => i end.

(** [sent] is the log of sendTransaction calls, the record's id and the hash;
    [claimed] are the intents sweeps have read, [decided] the verdicts they
    have reached, which any later Resolve may carry out. *)
Record Sys := mkSys {
  tbl : Table;
  chain : Chain;
  sent : list (UUID * string);
  calls : gmap nat Phase;
  claimed : list SubmissionIntent;
  decided : list (UUID * SubmissionState * string);
}.

Section System.
Context {Tx : Type} `{TxnBuild Tx} (networkPassphrase operatorAddress : string) (backoff : Duration).
(** The signed maxTime, by hash. *)
Context (bound : string → option Z).

Inductive step (s : Sys) : Sys → Prop :=
| step_claim n txB64 ctx env intent r t' :
    calls s !! n = None →
    send_intent networkPassphrase operatorAddress ctx (e_now env) txB64 = Ok intent →
    (∀ tx m, TransactionFromXDR txB64 = Some (Some tx) → MaxTime tx = Some m →
       bound (TransactionHash intent) = Some m ∧ m < 2 ^ 63 - 62135596800) →
    Claim (e_insert env) (e_select env) (e_fresh env) (e_now env) intent (tbl s) = (r, t') →
    step s (mkSys t' (chain s) (sent s)
              (match r with Ok (stored, true) => <[n := PClaimed stored]> (calls s) | _ => calls s end)
              (claimed s) (decided s))
| step_submit n i :
    calls s !! n = Some (PClaimed i) →
    step s (mkSys (tbl s) (chain s) ((ID i, TransactionHash i) :: sent s)
              (<[n := PSent i]> (calls s)) (claimed s) (decided s))
| step_mark n i d at_ :
    calls s !! n = Some (PSent i) →
    step s (mkSys (MarkSubmitted d (ID i) at_ (tbl s)).2 (chain s) (sent s)
              (delete n (calls s)) (claimed s) (decided s))
| step_crash n :
    step s (mkSys (tbl s) (chain s) (sent s) (delete n (calls s)) (claimed s) (decided s))
| step_sweep d locked limit now l t' :
    ClaimPendingForReconcile backoff d locked limit now (tbl s) = (Ok l, t') →
    step s (mkSys t' (chain s) (sent s) (calls s) (l ++ claimed s) (decided s))
| step_lookup i status view state detail :
    i ∈ claimed s →
    answers (chain s) (TransactionHash i) status view →
    verdict i (Ok (status, view)) = Some (state, detail) →
    step s (mkSys (tbl s) (chain s) (sent s) (calls s) (claimed s) ((ID i, state, detail) :: decided s))
| step_resolve id state detail d at_ :
    (id, state, detail) ∈ decided s →
    step s (mkSys (Resolve d id state detail at_ (tbl s)).2 (chain s) (sent s) (calls s)
              (claimed s) (decided s))
| step_chain l :
    chain_ok bound (chain s ++ [l]) →
    (∀ h ok, (h, ok) ∈ l_txs l → h ∈ (sent s).*2) →
    step s (mkSys (tbl s) (chain s ++ [l]) (sent s) (calls s) (claimed s) (decided s)).

Definition init : Sys := mkSys ∅ [] [] ∅ [] [].

(** *** Records and submissions *)

(** Every submission is on record, under one id; an id is submitted at most
    once, and not before the call that claimed it does. *)
Definition recorded (s : Sys) : Prop :=
  keyed (tbl s)
  ∧ (∀ id h, (id, h) ∈ sent s → ∃ r, tbl s !! id = Some r ∧ TransactionHash (r_intent r) = h)
  ∧ NoDup (sent s).*1
  ∧ (∀ n p, calls s !! n = Some p →
       ∃ r, tbl s !! ID (phase_intent p) = Some r
         ∧ TransactionHash (r_intent r) = TransactionHash (phase_intent p))
  ∧ (∀ n i, calls s !! n = Some (PClaimed i) → ID i ∉ (sent s).*1)
  ∧ (∀ n1 n2 i1 i2, calls s !! n1 = Some (PClaimed i1) → calls s !! n2 = Some (PClaimed i2) →
       ID i1 = ID i2 → n1 = n2)
  ∧ (∀ h ok, included h ok (chain s) → h ∈ (sent s).*2).

Lemma recorded_table s t' :
  recorded s → grows (tbl s) t' → no_new (tbl s) t' →
  recorded (mkSys t' (chain s) (sent s) (calls s) (claimed s) (decided s)).
Proof.
  intros (H1 & H2 & H3 & H4 & H5 & H6 & H7) Hg Hn.
  split_and!; simpl; try done; [by eapply keyed_evolves|..].
  - intros id h (r & Hr & <-)%H2. apply Hg in Hr as (r' & Hr' & (_ & _ & E & _)). eauto.
  - intros n p (r & Hr & <-)%H4. apply Hg in Hr as (r' & Hr' & (_ & _ & E & _)). eauto.
Qed.

Lemma recorded_calls s cs :
  recorded s → cs ⊆ calls s →
  recorded (mkSys (tbl s) (chain s) (sent s) cs (claimed s) (decided s)).
Proof.
  intros (H1 & H2 & H3 & H4 & H5 & H6 & H7) Hsub.
  split_and!; simpl; eauto using lookup_weaken.
Qed.

(** The table Claim leaves extends the table it found. *)
Lemma claim_grows d1 d2 fresh wall intent t rs t' :
  keyed t → Claim d1 d2 fresh wall intent t = (rs, t') → grows t t' ∧ keyed t'.
Proof.
  intros Hk HC. pose proof (Claim_spec _ _ _ _ _ _ _ _ Hk HC) as [[->|(Hf & -> & Hno)] _].
  { split; [apply grows_refl|done]. }
  set (row := new_row _ _). assert (Hrow : ID (r_intent row) = fresh) by done.
  assert (Href : IdempotencyReference (r_intent row) = IdempotencyReference intent)
    by (unfold row, new_row, with_created; by destruct (IsZero _)).
  destruct Hk as [K1 K2]. split_and!; [|split].
  - intros id r Hr. exists r. split; [|apply evolves_refl]. rewrite lookup_insert_ne; congruence.
  - intros id r [[<- <-]|[_ Hr]]%lookup_insert_Some; [done|by apply K1].
  - intros id1 r1 id2 r2 [[<- <-]|[N1 Hr1]]%lookup_insert_Some [[<- <-]|[N2 Hr2]]%lookup_insert_Some E.
    + done.
    + exfalso. eapply Hno; [exact Hr2|congruence].
    + exfalso. eapply Hno; [exact Hr1|congruence].
    + by eapply K2.
Qed.

Lemma recorded_claim s n d1 d2 fresh wall intent r t' :
  recorded s → calls s !! n = None →
  Claim d1 d2 fresh wall intent (tbl s) = (r, t') →
  recorded (mkSys t' (chain s) (sent s)
    (match r with Ok (stored, true) => <[n := PClaimed stored]> (calls s) | _ => calls s end)
    (claimed s) (decided s)).
Proof.
  intros Hrec Hn HC. pose proof Hrec as (H1 & H2 & H3 & H4 & H5 & H6 & H7).
  destruct (claim_grows _ _ _ _ _ _ _ _ H1 HC) as [Hg Hk].
  pose proof (Claim_spec _ _ _ _ _ _ _ _ H1 HC) as [_ Hr].
  assert (Hbase : recorded (mkSys t' (chain s) (sent s) (calls s) (claimed s) (decided s))).
  { split_and!; simpl; try done.
    - intros id h (r0 & Hr0 & <-)%H2. apply Hg in Hr0 as (r' & Hr' & (_ & _ & E & _)). eauto.
    - intros n' p (r0 & Hr0 & <-)%H4. apply Hg in Hr0 as (r' & Hr' & (_ & _ & E & _)). eauto. }
  destruct r as [[stored []]|e]; [|done..]. destruct Hr as (-> & -> & Hf).
  destruct Hbase as (B1 & B2 & B3 & B4 & B5 & B6 & B7).
  assert (Hnew : ∀ id h, (id, h) ∈ sent s → id ≠ fresh).
  { intros id h (r0 & Hr0 & _)%H2 ->. congruence. }
  assert (Hcall : ∀ n' p, calls s !! n' = Some p → ID (phase_intent p) ≠ fresh).
  { intros n' p (r0 & Hr0 & _)%H4 E. congruence. }
  split_and!; simpl in *; try done.
  - intros n' p [[<- <-]|[_ Hp]]%lookup_insert_Some; [|eauto].
    simpl. rewrite lookup_insert_eq. eauto.
  - intros n' i [[<- [= <-]]|[_ Hp]]%lookup_insert_Some; [|eauto].
    simpl. intros ([id h] & E & Hin)%list_elem_of_fmap. simpl in E. subst. by eapply Hnew.
  - intros n1 n2 i1 i2 [[<- [= <-]]|[N1 Hp1]]%lookup_insert_Some
      [[<- [= <-]]|[N2 Hp2]]%lookup_insert_Some E; simpl in *; [done| | |eauto].
    + by apply Hcall in Hp2.
    + by apply Hcall in Hp1.
Qed.

Lemma recorded_submit s n i :
  recorded s → calls s !! n = Some (PClaimed i) →
  recorded (mkSys (tbl s) (chain s) ((ID i, TransactionHash i) :: sent s)
              (<[n := PSent i]> (calls s)) (claimed s) (decided s)).
Proof.
  intros (H1 & H2 & H3 & H4 & H5 & H6 & H7) Hn. split_and!; simpl; try done.
  - intros id h [[= -> ->]|Hin]%elem_of_cons; [by apply (H4 n (PClaimed i))|auto].
  - apply NoDup_cons. split; [by eapply H5|done].
  - intros n' p [[<- <-]|[_ Hp]]%lookup_insert_Some; [by apply (H4 n (PClaimed i))|eauto].
  - intros n' i' [[<- [=]]|[Hne Hp]]%lookup_insert_Some.
    intros [E|Hin]%elem_of_cons; [|by eapply H5]. by apply Hne, (H6 n n' i i').
  - intros n1 n2 i1 i2 [[<- [=]]|[N1 Hp1]]%lookup_insert_Some
      [[<- [=]]|[N2 Hp2]]%lookup_insert_Some; eauto.
  - intros h ok Hin%H7. set_solver.
Qed.

Lemma step_recorded s s' : recorded s → step s s' → recorded s'.
Proof.
  intros Hs Hstep. destruct Hstep.
  - by eapply recorded_claim.
  - by apply recorded_submit.
  - apply (recorded_calls (mkSys _ _ _ (calls s) _ _)); [|simpl; apply delete_subseteq].
    apply recorded_table; [done|apply MarkSubmitted_grows..].
  - apply recorded_calls; [done|apply delete_subseteq].
  - apply (recorded_table (mkSys (tbl s) (chain s) (sent s) (calls s) (l ++ claimed s) (decided s)));
      simpl; [done|by eapply ClaimPending_spec..].
  - done.
  - apply recorded_table; [done|apply Resolve_grows..].
  - destruct Hs as (A1 & A2 & A3 & A4 & A5 & A6 & A7). split_and!; simpl; try done.
    intros h ok [Hin|(l' & Hl' & Hin)]%included_app; [by eapply A7|].
    apply list_elem_of_singleton in Hl' as ->. eauto.
Qed.

Lemma init_recorded : recorded init.
Proof.
  unfold recorded, keyed, init, included. simpl.
  split_and!; try (intros; set_solver); apply NoDup_nil_2.
Qed.

Lemma reachable_recorded s : rtc step init s → recorded s.
Proof.
  intros Hr. eapply (rtc_ind_l (λ x, recorded x → recorded s)); [done| |exact Hr|exact init_recorded].
  intros x y Hxy _ IH Hx. by eapply IH, step_recorded.
Qed.

(** C18: Any number of concurrent calls of send, crashes and sweeps: every
    sendTransaction call and every transaction on the chain has its row, which
    was there before; a row is submitted at most once; and two submissions
    that carry the same idempotency reference are one. *)
Theorem sub_submits_once s :
  rtc step init s →
  NoDup (sent s).*1
  ∧ (∀ id h, (id, h) ∈ sent s → ∃ r, tbl s !! id = Some r ∧ TransactionHash (r_intent r) = h)
  ∧ (∀ h ok, included h ok (chain s) → ∃ id r, tbl s !! id = Some r ∧ TransactionHash (r_intent r) = h)
  ∧ ∀ j1 j2 id1 h1 id2 h2 r1 r2,
      sent s !! j1 = Some (id1, h1) → sent s !! j2 = Some (id2, h2) →
      tbl s !! id1 = Some r1 → tbl s !! id2 = Some r2 →
      IdempotencyReference (r_intent r1) = IdempotencyReference (r_intent r2) → j1 = j2.
Proof.
  intros (H1 & H2 & H3 & H4 & H5 & H6 & H7)%reachable_recorded. split_and!; [done..| |].
  - intros h ok ([id h'] & E & Hin)%H7%list_elem_of_fmap. simpl in E. subst h'.
    apply H2 in Hin as (r & ? & ?). eauto.
  - intros j1 j2 id1 h1 id2 h2 r1 r2 Hj1 Hj2 Hr1 Hr2 E.
    assert (id1 = id2) as <- by by eapply H1.
    eapply NoDup_lookup; [exact H3|..]; rewrite list_lookup_fmap; [by rewrite Hj1|by rewrite Hj2].
Qed.

(** *** What the states mean *)

(** The moments the table gives for a transaction are not after the ledger
    that holds it. *)
Definition timely (s : Sys) : Prop :=
  ∀ id r l ok, tbl s !! id = Some r → l ∈ chain s → (TransactionHash (r_intent r), ok) ∈ l_txs l →
    CreatedAt (r_intent r) ≤ l_close l ∧ ∀ t, SubmittedAt (r_intent r) = Some t → t ≤ l_close l.

(** What a state says of a transaction. *)
Definition settled (st : SubmissionState) (h : string) (c : Chain) : Prop :=
  match st with
  | SubmissionPending => True
  | SubmissionLanded => included h true c
  | SubmissionRejected | SubmissionExpired => never bound h c
  | SubmissionUnresolvable =>
      ∀ more ok, chain_ok bound (c ++ more) → included h ok (c ++ more) → included h ok c
  end.

Definition bounded (i : SubmissionIntent) : Prop :=
  ∃ m, bound (TransactionHash i) = Some m ∧ 0 < m ∧ ValidUntil i = m * Second.

Definition sound (s : Sys) : Prop :=
  chain_ok bound (chain s)
  ∧ (∀ id r, tbl s !! id = Some r →
       bounded (r_intent r) ∧ settled (IState (r_intent r)) (TransactionHash (r_intent r)) (chain s))
  ∧ (∀ i, i ∈ claimed s → ∃ r0 r, r_intent r0 = i ∧ tbl s !! ID i = Some r ∧ evolves r0 r)
  ∧ (∀ id st detail, (id, st, detail) ∈ decided s →
       ∃ r, tbl s !! id = Some r ∧ settled st (TransactionHash (r_intent r)) (chain s)).

Lemma settled_app st h c c' : settled st h c → settled st h (c ++ c').
Proof.
  destruct st; simpl; [done| |apply never_app..|].
  - rewrite included_app. auto.
  - intros Hs more ok. rewrite <-app_assoc. intros Hc Hin. rewrite included_app. left. by eapply Hs.
Qed.

(** An intent [send] records carries the bound its transaction was signed with. *)
Lemma send_intent_spec ctx now txB64 intent :
  send_intent networkPassphrase operatorAddress ctx now txB64 = Ok intent →
  ∃ tx m, TransactionFromXDR txB64 = Some (Some tx) ∧ MaxTime tx = Some m ∧ 0 < m ≤ max_i64
    ∧ HashHex tx networkPassphrase = Some (TransactionHash intent)
    ∧ ValidUntil intent = timeUnix m ∧ CreatedAt intent = now.
Proof.
  unfold send_intent, IdentifyTransaction.
  destruct (TransactionFromXDR txB64) as [[tx|]|]; [|done..].
  destruct (HashHex tx networkPassphrase) as [hash|] eqn:Hh; [|done]. simpl.
  destruct (MaxTime tx) as [m|] eqn:Hm; [|by unfold IsZero; rewrite Z.eqb_refl].
  destruct ((0 <? m) && (m <=? max_i64)) eqn:Hr; [|by unfold IsZero; rewrite Z.eqb_refl].
  destruct (IsZero (timeUnix m)); [done|]. intros [= <-]. simpl.
  exists tx, m. rewrite andb_true_iff, Z.ltb_lt, Z.leb_le in Hr. destruct Hr. split_and!; try done.
Qed.

Lemma sound_table s t' :
  sound s → grows (tbl s) t' → no_new (tbl s) t' →
  (∀ id r', t' !! id = Some r' → settled (IState (r_intent r')) (TransactionHash (r_intent r')) (chain s)) →
  sound (mkSys t' (chain s) (sent s) (calls s) (claimed s) (decided s)).
Proof.
  intros (S1 & S2 & S3 & S4) Hg Hn Hst. refine (conj S1 (conj _ (conj _ _))); simpl.
  - intros id r' Hr'. split; [|by eapply Hst]. destruct (Hn _ _ Hr') as [r Hr].
    destruct (Hg _ _ Hr) as (r0 & E & (_ & _ & Eh & Ev & _)). simplify_eq.
    unfold bounded. rewrite Eh, Ev. by apply (S2 id r).
  - intros i (r0 & r & ? & Hr & Hev)%S3. apply Hg in Hr as (r' & ? & ?).
    exists r0, r'. eauto using evolves_trans.
  - intros id st detail (r & Hr & Hs)%S4. apply Hg in Hr as (r' & Hr' & (_ & _ & E & _)).
    exists r'. by rewrite E.
Qed.

(** A table whose rows kept their state is as sound. *)
Lemma same_state_settled s t' :
  sound s → grows (tbl s) t' → no_new (tbl s) t' →
  (∀ id r r', tbl s !! id = Some r → t' !! id = Some r' → IState (r_intent r') = IState (r_intent r)) →
  sound (mkSys t' (chain s) (sent s) (calls s) (claimed s) (decided s)).
Proof.
  intros Hs Hg Hn Hst. apply sound_table; [done..|]. intros id r' Hr'.
  destruct (Hn _ _ Hr') as [r Hr]. destruct (Hg _ _ Hr) as (r0 & E & (_ & _ & Eh & _)). simplify_eq.
  rewrite (Hst id r r') by done. rewrite Eh. by apply (proj1 (proj2 Hs) id r).
Qed.

Lemma sound_mark s d id at_ :
  sound s →
  sound (mkSys (MarkSubmitted d id at_ (tbl s)).2 (chain s) (sent s) (calls s) (claimed s) (decided s)).
Proof.
  intros Hs. apply same_state_settled; [done|apply MarkSubmitted_grows..|].
  intros id' r r' Hr. unfold MarkSubmitted.
  destruct (exec_update_spec d (λ _, true) (submitted_row at_) id (tbl s)) as [->| ->]; [congruence|].
  destruct (update_where_row (λ _, true) (submitted_row at_) id (tbl s) id' r Hr) as [->|(_ & _ & ->)];
    by intros [= <-].
Qed.

Lemma sound_resolve s d id st detail at_ :
  sound s → (id, st, detail) ∈ decided s →
  sound (mkSys (Resolve d id st detail at_ (tbl s)).2 (chain s) (sent s) (calls s) (claimed s) (decided s)).
Proof.
  intros Hs Hd. apply sound_table; [done|apply Resolve_grows..|].
  destruct Hs as (S1 & S2 & S3 & S4). intros id' r'. unfold Resolve.
  case_decide; [intros Hr'; by apply (S2 id' r')|].
  destruct (exec_update_spec d pending (resolved_row st detail at_) id (tbl s)) as [->| ->];
    [intros Hr'; by apply (S2 id' r')|].
  destruct (tbl s !! id') as [r|] eqn:Hr; [|by rewrite update_where_new].
  destruct (update_where_row pending (resolved_row st detail at_) id (tbl s) id' r Hr)
    as [->|(-> & _ & ->)]; intros [= <-]; [by apply (S2 id' r)|].
  simpl. apply S4 in Hd as (r1 & Hr1 & Hst). congruence.
Qed.

Lemma sound_claim s n ctx env txB64 intent r t' cs :
  recorded s → sound s →
  send_intent networkPassphrase operatorAddress ctx (e_now env) txB64 = Ok intent →
  (∀ tx m, TransactionFromXDR txB64 = Some (Some tx) → MaxTime tx = Some m →
     bound (TransactionHash intent) = Some m ∧ m < 2 ^ 63 - 62135596800) →
  Claim (e_insert env) (e_select env) (e_fresh env) (e_now env) intent (tbl s) = (r, t') →
  calls s !! n = None →
  sound (mkSys t' (chain s) (sent s) cs (claimed s) (decided s)).
Proof.
  intros Hrec (S1 & S2 & S3 & S4) Hi Hb HC Hn.
  destruct (send_intent_spec _ _ _ _ Hi) as (tx & m & Htx & Hm & Hr1 & _ & Hvu & _).
  destruct (Hb tx m Htx Hm) as [Hbm Hlt]. rewrite timeUnix_id in Hvu by lia.
  destruct (claim_grows _ _ _ _ _ _ _ _ (proj1 Hrec) HC) as [Hg _].
  pose proof (Claim_spec _ _ _ _ _ _ _ _ (proj1 Hrec) HC) as [Ht _].
  refine (conj S1 (conj _ (conj _ _))); simpl.
  - intros id r0 Hr0. destruct Ht as [->|(_ & -> & _)]; [by apply (S2 id r0)|].
    apply lookup_insert_Some in Hr0 as [[<- <-]|[_ Hr0]]; [|by apply (S2 id r0)].
    simpl. split; [|done]. exists m. unfold with_created. destruct (IsZero _); simpl; auto with lia.
  - intros i (r0 & r1 & ? & Hr0 & Hev)%S3. apply Hg in Hr0 as (r' & ? & ?).
    exists r0, r'. eauto using evolves_trans.
  - intros id st detail (r0 & Hr0 & Hs)%S4. apply Hg in Hr0 as (r' & Hr' & (_ & _ & E & _)).
    exists r'. by rewrite E.
Qed.

(** The verdict of a sweep on what it read, however long ago. *)
Lemma sound_lookup s i status view st detail :
  sound s → timely s → i ∈ claimed s →
  answers (chain s) (TransactionHash i) status view → verdict i (Ok (status, view)) = Some (st, detail) →
  ∃ r, tbl s !! ID i = Some r ∧ settled st (TransactionHash (r_intent r)) (chain s).
Proof.
  intros (S1 & S2 & S3 & S4) Ht (r0 & r & <- & Hr & (_ & _ & Eh & Ev & Ec & _ & Es))%S3 Ha Hv.
  exists r. split; [done|]. destruct (S2 _ _ Hr) as [(m & Hm & Hpos & Hvu) _].
  rewrite Eh in *. rewrite Ev in Hvu.
  pose proof (determine_sound bound (chain s) (r_intent r0) status view m) as HO.
  cbn zeta in HO. specialize (HO S1 Ha Hm Hpos Hvu).
  unfold verdict in Hv. case_decide; [done|]. injection Hv as <- <-.
  assert (Hearly : ∀ l ok, l ∈ chain s → (TransactionHash (r_intent r0), ok) ∈ l_txs l →
            EarliestInclusion (r_intent r0) ≤ l_close l).
  { intros l ok Hl Hin. rewrite <-Eh in Hin. destruct (Ht _ _ _ _ Hr Hl Hin) as [Hc Hsub].
    unfold EarliestInclusion. destruct (SubmittedAt (r_intent r0)) as [t|] eqn:E; [|congruence].
    by apply Hsub, Es. }
  specialize (HO Hearly). destruct (DetermineOutcome status view (r_intent r0)); try done.
  simpl. intros more ok Hc Hin. destruct (HO more ok Hc Hin) as (l & Hl & Hh & _). by exists l.
Qed.

Lemma step_sound s s' : recorded s → sound s → timely s → step s s' → sound s'.
Proof.
  intros Hrec Hs Ht Hstep. destruct Hstep.
  - by eapply sound_claim.
  - done.
  - by apply (sound_mark (mkSys (tbl s) (chain s) (sent s) (delete n (calls s)) _ _)).
  - done.
  - match goal with HC : ClaimPendingForReconcile _ _ _ _ _ _ = _ |- _ =>
      pose proof (ClaimPending_spec _ _ _ _ _ _ _ _ HC) as (Hg & Hn & Hback & Hl) end.
    assert (Hs' : sound (mkSys t' (chain s) (sent s) (calls s) (claimed s) (decided s))).
    { apply same_state_settled; [done..|]. intros id r r' Hr Hr'.
      apply Hback in Hr' as (r1 & Hr1 & ->). congruence. }
    destruct Hs' as (S1 & S2 & S3 & S4). refine (conj S1 (conj S2 (conj _ S4))); simpl.
    intros i [Hi|Hi]%elem_of_app; [|by apply S3].
    destruct (Hl l i eq_refl Hi) as (id & r & Hr & <- & _).
    rewrite (proj1 (proj1 Hrec) id r Hr). destruct (Hg _ _ Hr) as (r' & Hr' & Hev). eauto.
  - pose proof (sound_lookup s i status view state detail) as HL.
    destruct Hs as (S1 & S2 & S3 & S4). refine (conj S1 (conj S2 (conj S3 _))); simpl.
    intros id st d [[= -> -> ->]|Hin]%elem_of_cons; [by apply HL|by eapply S4].
  - by apply sound_resolve.
  - destruct Hs as (S1 & S2 & S3 & S4). unfold sound; simpl. split; [done|split; [|split; [done|]]].
    + intros id r Hr. destruct (S2 id r Hr). split; [done|]. by apply settled_app.
    + intros id st detail (r & Hr & Hst)%S4. exists r. split; [done|]. by apply settled_app.
Qed.

(** C17: In every state that any number of concurrent calls, crashes, sweeps
    on stale reads and lost statements can reach, as long as the moments on
    record are not after the ledger that holds a transaction, the table tells
    the truth for good: a "landed" row's transaction is on the chain and
    succeeded; a "rejected" or "expired" one, for which a new attempt is
    permitted, never succeeds in any continuation of the chain; and an
    "unresolvable" one can no longer be included. *)
Theorem sub_states_sound s :
  rtc (λ s s', timely s ∧ step s s') init s →
  ∀ id r, tbl s !! id = Some r →
    let h := TransactionHash (r_intent r) in
    match IState (r_intent r) with
    | SubmissionPending => True
    | SubmissionLanded => included h true (chain s)
    | SubmissionRejected | SubmissionExpired =>
        ∀ more, chain_ok bound (chain s ++ more) → ¬ included h true (chain s ++ more)
    | SubmissionUnresolvable =>
        ∀ more ok, chain_ok bound (chain s ++ more) →
          included h ok (chain s ++ more) → included h ok (chain s)
    end.
Proof.
  intros Hr. assert (sound s) as (_ & HS & _).
  { cut (recorded s ∧ sound s); [tauto|].
    eapply (rtc_ind_l (λ x, recorded x ∧ sound x → recorded s ∧ sound s)); [done| |exact Hr|].
    - intros x y [Ht Hxy] _ IH [Hx1 Hx2]. apply IH. split; [by eapply step_recorded|by eapply step_sound].
    - split; [apply init_recorded|]. unfold sound, init, chain_ok. simpl.
      split_and!; try (intros; set_solver); constructor. }
  intros id r Hid. by destruct (HS id r Hid) as [_ ?].
Qed.
End System.

(** ** The bound of an envelope *)

(** The validity window IdentifyTransaction reads off an envelope, for
    every uint64 maxTime: none when there is no bound, it is zero or it is
    above MaxInt64; the bound itself below 2^63 - 62135596800; and in
    between, where the code means to read the bound too, time.Unix wraps and
    the window closed before the year 1. *)
Theorem sub_identify_bound {Tx} `{TxnBuild Tx} env pass tx hash m :
  TransactionFromXDR env = Some (Some tx) → HashHex tx pass = Some hash → MaxTime tx = m →
  (∀ v, m = Some v → 0 ≤ v < 2 ^ 64) →
  ∃ until, IdentifyTransaction env pass = Ok (mkIdentity hash until)
    ∧ match m with
      | None => until = zeroTime
      | Some v =>
          (v = 0 ∨ 2 ^ 63 ≤ v → until = zeroTime)
          ∧ (0 < v < 2 ^ 63 - 62135596800 → until = v * Second)
          ∧ (2 ^ 63 - 62135596800 ≤ v < 2 ^ 63 → until = (v - 2 ^ 64) * Second ∧ until < zeroTime)
      end.
Proof.
  intros Htx Hh Hm Hr. unfold IdentifyTransaction. rewrite Htx, Hh, Hm.
  eexists. split; [done|]. destruct m as [v|]; [|done]. specialize (Hr v eq_refl).
  destruct (Z.ltb_spec 0 v), (Z.leb_spec v max_i64); simpl; unfold max_i64 in *;
    split_and!; intros; try lia; try done.
  - by apply timeUnix_id.
  - by apply timeUnix_wraps.
Qed.

(** ** One call of send *)

(** A call of send in every mode.  If sendTransaction was called, this
    call created the row, and it is there, pending and with the transaction's
    hash, when the call returns, whatever the RPC answered; the caller is told
    success only for an accepted envelope, and "unresolved" otherwise.  If it
    was not called, no row was touched but one a failing insert may have
    committed, and the caller is told success only about a transaction that
    the table says has landed. *)
Theorem sub_send_spec {Tx} `{TxnBuild Tx} pass operator ctx env txB64 t hash err called t' :
  keyed t → send true pass operator ctx env txB64 t = ((hash, err), called, t') →
  if called then
    t !! e_fresh env = None
    ∧ (∃ r, t' !! e_fresh env = Some r ∧ IState (r_intent r) = SubmissionPending
         ∧ ∃ tx, TransactionFromXDR txB64 = Some (Some tx)
             ∧ HashHex tx pass = Some (TransactionHash (r_intent r)))
    ∧ (∀ id, id ≠ e_fresh env → t' !! id = t !! id)
    ∧ match err with
      | None => ∃ resp, e_rpc env = Ok resp ∧ Error resp = None ∧ s_Status (Result resp) ≠ "ERROR"%string
      | Some e => e = ErrSubmissionUnresolved
      end
  else
    (t' = t ∨ t !! e_fresh env = None ∧ failed (e_insert env) = true
              ∧ ∃ r, IState (r_intent r) = SubmissionPending ∧ t' = <[e_fresh env := r]> t)
    ∧ (err = None → ∃ id r, t !! id = Some r ∧ TransactionHash (r_intent r) = hash
                      ∧ IState (r_intent r) = SubmissionLanded).
Proof.
  intros Hk. unfold send. cbn [negb].
  destruct (send_intent pass operator ctx (e_now env) txB64) as [intent|e] eqn:Hi.
  2:{ intros [= <- <- <- <-]. split; [by left|done]. }
  destruct (send_intent_spec pass operator ctx (e_now env) txB64 intent Hi)
    as (tx & m & Htx & Hm & Hr & Hh & _).
  destruct (Claim _ _ _ _ intent t) as [rs t1] eqn:HC.
  pose proof (Claim_spec _ _ _ _ _ _ _ _ Hk HC) as [Ht Hrs].
  destruct rs as [[stored []]|e].
  - destruct Hrs as (-> & -> & Hf). set (row := new_row _ _) in *.
    destruct (MarkSubmitted _ _ _ _) as [rm t2] eqn:HM. intros [= E1 <- <-].
    assert (Hrow : TransactionHash (r_intent row) = TransactionHash intent ∧ IState (r_intent row) = SubmissionPending)
      by (unfold row, new_row, with_created; by destruct (IsZero _)).
    unfold MarkSubmitted in HM. apply (f_equal snd) in HM. simpl in HM.
    assert (Ht2 : ∀ id, id ≠ e_fresh env → t2 !! id = t !! id).
    { intros id Hne. rewrite <-HM. destruct (e_mark env) as [|[]]; simpl;
        unfold update_where; rewrite ?lookup_alter_ne, lookup_insert_ne by done; done. }
    split_and!; [done| |done|].
    + rewrite <-HM. destruct Hrow as [Hrh Hrp].
      destruct (e_mark env) as [|[]]; simpl; unfold update_where; simpl;
        rewrite ?lookup_alter_eq, lookup_insert_eq; simpl; eexists; (split; [done|]);
        (split; [done|]); exists tx; by rewrite <-Hrh in Hh.
    + revert E1. unfold submitEnvelope. destruct (e_rpc env) as [resp|e]; [|by intros [= <- <-]].
      destruct (Error resp) eqn:E; [by intros [= <- <-]|].
      case_decide; [by intros [= <- <-]|]. intros [= <- <-]. eauto.
  - destruct Hrs as (-> & r & Hr' & Hst & _ & _). intros [= <- <- <- <-]. split; [by left|].
    intros He. exists (ID stored), r. rewrite Hst. split_and!; [done..|].
    unfold existingSubmissionResult in He. by destruct (IState stored).
  - intros [= <- <- <- <-]. split; [|done].
    destruct Hrs as [->|Hfail]; [by left|].
    destruct Ht as [->|(Hf & -> & _)]; [by left|]. right. split_and!; [done..|]. by eexists; split; [|reflexivity].
Qed.

(** ** One sweep *)

(** What a sweep makes of a row it has claimed. *)
Definition swept_row (next at_ : Time) (lookup : result SubmissionError (string * ChainView))
    (r : Row) : Row :=
  match verdict (r_intent r) lookup with
  | None => pushed_row next r
  | Some (st, detail) => resolved_row st detail at_ (pushed_row next r)
  end.

Lemma verdict_terminal i lookup st detail : verdict i lookup = Some (st, detail) → st ≠ SubmissionPending.
Proof.
  unfold verdict. destruct lookup as [[status view]|]; [|done]. case_decide as Ho; [done|].
  intros [= <- _]. by destruct (DetermineOutcome status view i).
Qed.

Lemma reconcile_row at_ i lookup t id r :
  t !! id = Some r → pending r = true →
  reconcile DBOk at_ i lookup t !! id =
    Some (if decide (ID i = id) then
            match verdict i lookup with
            | None => r
            | Some (st, detail) => resolved_row st detail at_ r
            end
          else r).
Proof.
  intros Hr Hp. unfold reconcile. destruct (verdict i lookup) as [[st detail]|] eqn:Hv.
  - unfold Resolve. rewrite decide_False by by eapply verdict_terminal. simpl.
    unfold update_where. rewrite lookup_alter, Hr. simpl. case_decide as E.
    + rewrite E, Hr. simpl. by rewrite Hp.
    + done.
  - by case_decide.
Qed.

(** A row no intent of the list names is left alone. *)
Lemma reconcile_other d at_ i lookup t id :
  ID i ≠ id → reconcile d at_ i lookup t !! id = t !! id.
Proof.
  intros Hne. unfold reconcile. destruct (verdict i lookup) as [[st detail]|]; [|done].
  unfold Resolve. case_decide; [done|].
  destruct (exec_update_spec d pending (resolved_row st detail at_) (ID i) t) as [->| ->]; [done|].
  unfold update_where. by rewrite lookup_alter_ne.
Qed.

Lemma reconcile_all_other env n intents t id :
  id ∉ ID <$> intents → reconcile_all env n intents t !! id = t !! id.
Proof.
  revert n t. induction intents as [|i l IH]; intros n t Hn; simpl; [done|].
  rewrite fmap_cons in Hn. apply not_elem_of_cons in Hn as [Hi Hn].
  destruct (k_done env n); [done|]. rewrite IH by done. by apply reconcile_other.
Qed.

Lemma reconcile_all_row env intents n t k i r :
  (∀ n, k_done env n = false) → (∀ n, k_resolve env n = DBOk) →
  NoDup (ID <$> intents) → intents !! k = Some i → t !! ID i = Some r → pending r = true →
  reconcile_all env n intents t !! ID i =
    Some (match verdict i (k_lookup env (n + k)%nat (TransactionHash i)) with
          | None => r
          | Some (st, detail) => resolved_row st detail (k_at env (n + k)%nat) r
          end).
Proof.
  intros Hd Hres. revert n t k. induction intents as [|j l IH]; intros n t k Hnd Hk Hr Hp; [done|].
  rewrite fmap_cons in Hnd. apply NoDup_cons in Hnd as [Hj Hnd]. simpl. rewrite Hd, Hres.
  destruct k as [|k]; simpl in Hk.
  - injection Hk as ->. rewrite reconcile_all_other by done.
    rewrite (reconcile_row _ i _ t (ID i) r), decide_True by done. by rewrite Nat.add_0_r.
  - assert (ID j ≠ ID i).
    { intros E. apply Hj. rewrite E. apply list_elem_of_fmap_2. by apply list_elem_of_lookup_2 in Hk. }
    rewrite (IH (S n) _ k) by (rewrite ?reconcile_other; done).
    by rewrite Nat.add_succ_r.
Qed.

(** The intents a claim returns, and the rows behind them. *)
Lemma claim_rows backoff locked limit now t :
  keyed t →
  let lim := if limit <=? 0 then DefaultReconcileBatch else limit in
  let rows := select_rows due_before (reconcilable locked now) lim t in
  let g := pushed_row (timeAdd now backoff) in
  ClaimPendingForReconcile backoff DBOk locked limit now t
    = (Ok ((λ p, r_intent p.2) <$> rows), overwrite g rows t)
  ∧ (ID <$> ((λ p, r_intent p.2) <$> rows)) = rows.*1.
Proof.
  intros [Hid _] lim rows g. split.
  - unfold ClaimPendingForReconcile. fold lim. fold rows. fold g. simpl. f_equal. f_equal.
    unfold update_rows. rewrite <-list_fmap_compose. by apply list_fmap_ext.
  - rewrite <-list_fmap_compose. apply list_fmap_ext. intros k x Hx. simpl.
    apply list_elem_of_lookup_2, select_In in Hx as [Hx _]. by rewrite (Hid _ _ Hx).
Qed.

(** A sweep of the leader whose statements succeed, with room in the batch
    for every row that is due: each pending row that is due and not held by
    another sweep gets exactly the state the chain's answer about its hash
    determines, and stays pending, with its next check one backoff away, when
    the lookup fails or decides nothing; every other row is left as it is. *)
Theorem sub_tick_settles backoff batch env t id r :
  keyed t → t !! id = Some r → isLeader (k_leader env) = true → k_claim env = DBOk →
  (∀ n, k_done env n = false) → (∀ n, k_resolve env n = DBOk) →
  0 < batch → count_rows (reconcilable (k_locked env) (k_now env)) t ≤ batch →
  if decide (IState (r_intent r) = SubmissionPending ∧ r_next_reconcile_at r ≤ k_now env
             ∧ k_locked env id = false)
  then ∃ n, Tick backoff batch env t !! id =
         Some (swept_row (k_now env + backoff) (k_at env n)
                 (k_lookup env n (TransactionHash (r_intent r))) r)
  else Tick backoff batch env t !! id = Some r.
Proof.
  intros Hk Hr Hl Hc Hd Hres Hb Hn. unfold Tick. rewrite Hl, Hc. cbn [negb].
  destruct (claim_rows backoff (k_locked env) batch (k_now env) t Hk) as [HC Hids].
  rewrite HC. clear HC. destruct (Z.leb_spec batch 0); [lia|].
  set (rows := select_rows _ _ _ _) in *. set (g := pushed_row _).
  assert (Hnd : NoDup rows.*1) by apply select_NoDup.
  assert (Hrows : ∀ x, x ∈ rows → t !! x.1 = Some x.2) by (by intros x [? _]%select_In).
  assert (Hf : reconcilable (k_locked env) (k_now env) (id, r) = true ↔
      IState (r_intent r) = SubmissionPending ∧ r_next_reconcile_at r ≤ k_now env ∧ k_locked env id = false).
  { unfold reconcilable, pending. simpl.
    rewrite !andb_true_iff, bool_decide_eq_true, Z.leb_le, negb_true_iff. tauto. }
  assert (Hin : (id, r) ∈ rows ↔ reconcilable (k_locked env) (k_now env) (id, r) = true).
  { split; [by intros [_ ?]%select_In|]. intros Hf'. unfold rows, select_rows.
    rewrite take_ge; [|rewrite (Permutation_length (merge_sort_Permutation _ _)); unfold count_rows in Hn; lia].
    rewrite merge_sort_Permutation. by apply filtered_In. }
  case_decide as Hdec.
  - apply Hf, Hin in Hdec as Hx. apply list_elem_of_lookup in Hx as [k Hk'].
    exists k. pose proof (list_elem_of_lookup_2 _ _ _ Hk') as Hx.
    assert (Hg : overwrite g rows t !! id = Some (g r)) by by apply (overwrite_in g rows t (id, r)).
    assert (Ei : ID (r_intent r) = id) by by apply Hk.
    rewrite <-Ei in Hg |- *.
    rewrite (reconcile_all_row env _ 0 _ k (r_intent r) (g r)); [|done|done| | |done|].
    + unfold swept_row, g, timeAdd. cbn [Nat.add]. by destruct (verdict _ _) as [[st detail]|].
    + by rewrite Hids.
    + by rewrite list_lookup_fmap, Hk'.
    + unfold reconcilable in Hdec. by go_bool.
  - rewrite reconcile_all_other.
    + destruct (overwrite_row g rows t id r Hnd Hrows Hr) as [->|[Hx _]]; [done|].
      by apply Hin, Hf in Hx.
    + rewrite Hids. intros (x & -> & Hx)%list_elem_of_fmap. apply Hrows in Hx as Hx'.
      destruct x as [id' r']. simpl in *. simplify_eq. by apply Hin, Hf in Hx.
Qed.

(** ** A concrete deployment

    Envelopes that are their own hash and were all signed with maxTime 300. *)

Definition demo_bound (h : string) : option Z := Some 300.

#[local] Instance demo_TxnBuild : TxnBuild string := {
  TransactionFromXDR s := Some (Some s);
  HashHex tx _ := Some tx;
  MaxTime _ := Some 300;
}.

Definition demo_step := step "net" "op" DefaultReconcileBackoff demo_bound.

Definition demo_env : SendEnv :=
  mkSendEnv DBOk DBOk DBOk 1 (10 * Second) (20 * Second) (Err (ErrRPC "timeout")).

Definition demo_intent : SubmissionIntent :=
  mkIntent 0 "tx:aa" "aa" (300 * Second) "op" "" SubmissionPending 0 (10 * Second) None None "".

Definition demo_row : Row := new_row 1 demo_intent.
Definition demo_marked (a : Time) : Row := submitted_row a demo_row.
Definition demo_pushed (a : Time) : Row := pushed_row (420 * Second) (demo_marked a).

(** A chain that holds the transaction in a ledger that closes at [c]. *)
Definition demo_chain (c : Time) : Chain :=
  [mkLedger c [("aa"%string, true)]; mkLedger (18 * Second) []; mkLedger (400 * Second) []].

Lemma demo_chain_ok c n : 0 < c < 18 * Second → chain_ok demo_bound (take n (demo_chain c)).
Proof.
  intros Hc. apply (chain_ok_app _ _ (drop n (demo_chain c))). rewrite take_drop.
  assert (Hin : ∀ l, l ∈ demo_chain c → l = mkLedger c [("aa"%string, true)]
            ∨ l = mkLedger (18 * Second) [] ∨ l = mkLedger (400 * Second) []) by set_solver.
  assert (18 * Second < 400 * Second ∧ c < 300 * Second) as [? ?]
    by (unfold Second, Millisecond, Microsecond, Nanosecond in *; lia).
  split_and!.
  - simpl. repeat constructor; lia.
  - intros l [->|[->| ->]]%Hin; simpl; lia.
  - intros l h ok m [->|[->| ->]]%Hin Hh; simpl in Hh; [|set_solver..].
    intros [= <-]. simpl. lia.
  - intros l l' h ok ok' [->|[->| ->]]%Hin [->|[->| ->]]%Hin; set_solver.
Qed.

(** The run of [demo_env]'s call: claimed, handed over, included in the ledger
    that closes at [c], marked as submitted at [a], when the RPC call has
    failed, and swept when the chain's clock is at 400. *)
Definition demo_sys (n : nat) (c a : Time) : Sys :=
  let t1 := {[ 1 := demo_row ]} in
  let t2 := {[ 1 := demo_marked a ]} in
  let t3 := {[ 1 := demo_pushed a ]} in
  let stored := r_intent demo_row in
  let log := [(1, "aa"%string)] in
  let sent_calls := {[ 0%nat := PSent stored ]} in
  match n with
  | 0 => init
  | 1 => mkSys t1 [] [] {[ 0%nat := PClaimed stored ]} [] []
  | 2 => mkSys t1 [] log sent_calls [] []
  | 3 => mkSys t1 (take 1 (demo_chain c)) log sent_calls [] []
  | 4 => mkSys t2 (take 1 (demo_chain c)) log ∅ [] []
  | 5 => mkSys t2 (take 2 (demo_chain c)) log ∅ [] []
  | 6 => mkSys t2 (demo_chain c) log ∅ [] []
  | _ => mkSys t3 (demo_chain c) log ∅ [r_intent (demo_marked a)] []
  end%nat.

Lemma demo_run c a n :
  0 < c < 18 * Second → (n < 7)%nat → demo_step (demo_sys n c a) (demo_sys (S n) c a).
Proof.
  intros Hc Hn. destruct n as [|[|[|[|[|[|[|n]]]]]]]; [..|lia]; clear Hn.
  - eapply (step_claim "net" "op" DefaultReconcileBackoff demo_bound init 0 "aa" None demo_env
              demo_intent (Ok (r_intent demo_row, true))); [done|done| |done].
    by intros tx m _ [= <-].
  - apply (step_submit _ _ _ _ (demo_sys 1 c a) 0 (r_intent demo_row)). done.
  - apply (step_chain _ _ _ _ (demo_sys 2 c a) (mkLedger c [("aa"%string, true)])).
    + by apply (demo_chain_ok c 1).
    + simpl. set_solver.
  - apply (step_mark _ _ _ _ (demo_sys 3 c a) 0 (r_intent demo_row) DBOk a). done.
  - apply (step_chain _ _ _ _ (demo_sys 4 c a) (mkLedger (18 * Second) [])).
    + by apply (demo_chain_ok c 2).
    + simpl. set_solver.
  - apply (step_chain _ _ _ _ (demo_sys 5 c a) (mkLedger (400 * Second) [])).
    + by apply (demo_chain_ok c 3).
    + simpl. set_solver.
  - apply (step_sweep _ _ _ _ (demo_sys 6 c a) DBOk (λ _, false) 50 (400 * Second)
             [r_intent (demo_marked a)] {[ 1 := demo_pushed a ]}). done.
Qed.

(** The sweep's verdict, and its Resolve at 401. *)
Definition demo_decided (c a : Time) (st : SubmissionState) (detail : string) : Sys :=
  let s := demo_sys 7 c a in
  mkSys (tbl s) (chain s) (sent s) (calls s) (claimed s) ((1, st, detail) :: decided s).

Definition demo_final (c a : Time) (st : SubmissionState) (detail : string) : Sys :=
  let s := demo_decided c a st detail in
  mkSys (Resolve DBOk 1 st detail (401 * Second) (tbl s)).2 (chain s) (sent s) (calls s)
    (claimed s) (decided s).

Definition demo_view (first : Time) : ChainView := mkView (400 * Second) first.

Lemma demo_lookup c a k first status st detail :
  head (drop k (demo_chain c)) = Some first → (k < 3)%nat →
  status = (if decide (k = 0%nat) then TxStatusSuccess else TxStatusNotFound) →
  verdict (r_intent (demo_marked a)) (Ok (status, demo_view (l_close first))) = Some (st, detail) →
  demo_step (demo_sys 7 c a) (demo_decided c a st detail).
Proof.
  intros Hf Hk -> Hv.
  eapply (step_lookup _ _ _ _ (demo_sys 7 c a) (r_intent (demo_marked a)));
    [simpl; set_solver| |exact Hv].
  exists (take k (demo_chain c)), (drop k (demo_chain c)), first, (mkLedger (400 * Second) []).
  destruct k as [|[|[|k]]]; [..|lia]; (split_and!; [done|done|done|done|..]);
    try (intros [=]); try (intros _).
  1: by eexists; split; apply list_elem_of_here.
  all: intros ok (l & Hl & Hh); simpl in Hl;
    repeat (apply elem_of_cons in Hl as [->|Hl]); by apply elem_of_nil in Hh || apply elem_of_nil in Hl.
Qed.

Lemma demo_resolve c a st detail : demo_step (demo_decided c a st detail) (demo_final c a st detail).
Proof. apply (step_resolve _ _ _ _ (demo_decided c a st detail) 1 st detail). simpl. set_solver. Qed.

(** EarliestInclusion reads [SubmittedAt], which is set when the RPC call
    has returned, and the network may include the transaction before: here it
    is in the ledger of 15, the call fails at 20, and the RPC's memory starts
    at 18 when the reconciler asks.  The row ends "expired", which permits a
    new attempt, and the transaction is on the chain, successful. *)
Theorem sub_late_mark_forges_proof :
  ∃ s r, rtc demo_step init s ∧ tbl s !! 1 = Some r
    ∧ IState (r_intent r) = SubmissionExpired
    ∧ PermitsNewAttempt OutcomeProvenNotLanded = true ∧ State OutcomeProvenNotLanded = SubmissionExpired
    ∧ included (TransactionHash (r_intent r)) true (chain s).
Proof.
  set (c := 15 * Second). set (a := 20 * Second).
  set (detail := ("chain reported NOT_FOUND; outcome proven_not_landed")%string).
  exists (demo_final c a SubmissionExpired detail). eexists. split_and!; [|done..|].
  - assert (Hrun : ∀ n, (n < 7)%nat → demo_step (demo_sys n c a) (demo_sys (S n) c a)).
    { intros n. apply demo_run. unfold c, Second, Millisecond, Microsecond, Nanosecond. lia. }
    change init with (demo_sys 0 c a).
    eapply rtc_l; [apply Hrun; lia|]. do 6 (eapply rtc_l; [apply Hrun; lia|]).
    eapply rtc_l; [|apply rtc_once, demo_resolve].
    by apply (demo_lookup c a 1 (mkLedger (18 * Second) []) TxStatusNotFound); [|lia|..].
  - by exists (mkLedger c [("aa"%string, true)]); split; apply list_elem_of_here.
Qed.

Definition demo_detail : string := "chain reported SUCCESS; outcome landed".

(** The good run: marked at 12, in the ledger of 15, and found. *)
Definition demo_good (n : nat) : Sys :=
  let c := 15 * Second in let a := 12 * Second in
  match n with
  | 8%nat => demo_decided c a SubmissionLanded demo_detail
  | 9%nat => demo_final c a SubmissionLanded demo_detail
  | _ => demo_sys n c a
  end.

Lemma demo_timely n : (n < 9)%nat → timely (demo_good n).
Proof.
  intros Hn id r l ok Hr Hl Hh.
  assert (Hc : l_close l = 15 * Second).
  { destruct n as [|[|[|[|[|[|[|[|[|n]]]]]]]]]; [..|lia]; simpl in Hl;
      repeat (apply elem_of_cons in Hl as [->|Hl]); first [done|by apply elem_of_nil in Hh|by apply elem_of_nil in Hl]. }
  assert (Ht : CreatedAt (r_intent r) = 10 * Second
            ∧ ∀ t, SubmittedAt (r_intent r) = Some t → t = 12 * Second).
  { destruct n as [|[|[|[|[|[|[|[|[|n]]]]]]]]]; [..|lia]; simpl in Hr; first [done|
      apply lookup_singleton_Some in Hr as [<- <-]; split; [done|by intros t [= <-]]]. }
  destruct Ht as [-> Ht]. rewrite Hc. split; [|intros t ->%Ht];
    unfold Second, Millisecond, Microsecond, Nanosecond; lia.
Qed.

Lemma demo_good_step n : (n < 9)%nat → demo_step (demo_good n) (demo_good (S n)).
Proof.
  assert (0 < 15 * Second < 18 * Second) as Hc
    by (unfold Second, Millisecond, Microsecond, Nanosecond; lia).
  intros Hn. destruct (decide (n < 7)%nat) as [Hlt|Hge].
  - pose proof (demo_run _ (12 * Second) n Hc Hlt) as Hrun.
    do 7 (destruct n as [|n]; [exact Hrun|]). lia.
  - destruct n as [|[|[|[|[|[|[|[|[|n]]]]]]]]]; try lia; [|apply demo_resolve].
    by apply (demo_lookup _ _ 0 (mkLedger (15 * Second) [("aa"%string, true)]) TxStatusSuccess);
      [|lia|..].
Qed.

Lemma demo_good_run n : (n ≤ 9)%nat → rtc (λ s s', timely s ∧ demo_step s s') init (demo_good n).
Proof.
  induction n as [|n IH]; intros Hn; [done|]. eapply rtc_r; [apply IH; lia|].
  split; [apply demo_timely; lia|apply demo_good_step; lia].
Qed.

Lemma sub_states_sound_witness :
  rtc (λ s s', timely s ∧ demo_step s s') init (demo_good 9)
  ∧ ∃ r, tbl (demo_good 9) !! 1 = Some r ∧ IState (r_intent r) = SubmissionLanded
    ∧ included "aa" true (chain (demo_good 9)).
Proof.
  split; [apply demo_good_run; lia|]. eexists. split; [reflexivity|]. split; [reflexivity|].
  exact (sub_states_sound "net" "op" DefaultReconcileBackoff demo_bound (demo_good 9)
           (demo_good_run 9 (Nat.le_refl 9)) 1 _ eq_refl).
Defined.

Lemma sub_submits_once_witness :
  rtc demo_step init (demo_good 9) ∧ NoDup (sent (demo_good 9)).*1 ∧ sent (demo_good 9) = [(1, "aa"%string)].
Proof.
  assert (Hr : rtc demo_step init (demo_good 9)).
  { eapply rtc_subrel; [|apply (demo_good_run 9); lia]. intros x y Hxy. exact (proj2 Hxy). }
  split; [exact Hr|]. split; [|reflexivity].
  exact (proj1 (sub_submits_once "net" "op" DefaultReconcileBackoff demo_bound (demo_good 9) Hr)).
Defined.

(** The chain of the expired case: the transaction is in no ledger, and its
    window has closed. *)
Lemma sub_outcome_sound_witness :
  let c := [mkLedger (5 * Second) []; mkLedger (400 * Second) []] in
  let view := mkView (400 * Second) (5 * Second) in
  chain_ok demo_bound c ∧ answers c "aa" TxStatusNotFound view
  ∧ DetermineOutcome TxStatusNotFound view demo_intent = OutcomeProvenNotLanded
  ∧ never demo_bound "aa" c.
Proof.
  intros c view.
  assert (Hin : ∀ l, l ∈ c → l = mkLedger (5 * Second) [] ∨ l = mkLedger (400 * Second) []) by set_solver.
  assert (Hc : chain_ok demo_bound c).
  { split_and!.
    - simpl. repeat constructor; unfold Second, Millisecond, Microsecond, Nanosecond; lia.
    - intros l [->| ->]%Hin; reflexivity.
    - intros l h ok m [->| ->]%Hin Hh; by apply elem_of_nil in Hh.
    - intros l l' h ok ok' [->| ->]%Hin _ Hh; by apply elem_of_nil in Hh. }
  assert (Ha : answers c "aa" TxStatusNotFound view).
  { exists [], c, (mkLedger (5 * Second) []), (mkLedger (400 * Second) []).
    split_and!; try done. intros _ ok (l & [->| ->]%Hin & Hh); by apply elem_of_nil in Hh. }
  split; [exact Hc|]. split; [exact Ha|]. split; [reflexivity|].
  refine (sub_outcome_sound demo_bound c demo_intent TxStatusNotFound view 300 Hc Ha _ _ _ _);
    [reflexivity..|]. intros l ok [->| ->]%Hin Hh; by apply elem_of_nil in Hh.
Defined.

#[local] Instance wrap_TxnBuild : TxnBuild Z := {
  TransactionFromXDR s := Some (Some (2 ^ 63 - 1));
  HashHex tx _ := Some "aa"%string;
  MaxTime tx := Some tx;
}.

Lemma sub_identify_bound_witness :
  ∃ until, IdentifyTransaction (Tx := Z) "env" "net" = Ok (mkIdentity "aa" until)
    ∧ until = - (2 ^ 63 + 1) * Second ∧ until < zeroTime.
Proof.
  destruct (sub_identify_bound (Tx := Z) "env" "net" (2 ^ 63 - 1) "aa" (Some (2 ^ 63 - 1)))
    as (until & HI & _ & _ & Hu); [reflexivity..| |].
  - intros v [= <-]. lia.
  - exists until. split; [exact HI|]. destruct Hu as [-> Hz]; [lia|]. split; [reflexivity|exact Hz].
Defined.

Lemma sub_send_spec_witness :
  keyed (∅ : Table)
  ∧ ∃ t', send true "net" "op" None demo_env "aa" ∅ = (("aa"%string, Some ErrSubmissionUnresolved), true, t')
    ∧ ∃ r, t' !! 1 = Some r ∧ IState (r_intent r) = SubmissionPending.
Proof.
  assert (Hk : keyed (∅ : Table)) by (split; intros; by rewrite lookup_empty in *).
  split; [exact Hk|]. exists (send true "net" "op" None demo_env "aa" ∅).2.
  assert (E : send true "net" "op" None demo_env "aa" ∅
              = (("aa"%string, Some ErrSubmissionUnresolved), true,
                 (send true "net" "op" None demo_env "aa" ∅).2)) by reflexivity.
  split; [exact E|].
  destruct (sub_send_spec "net" "op" None demo_env "aa" ∅ _ _ _ _ Hk E) as (_ & (r & Hr & Hp & _) & _).
  exists r. split; [exact Hr|exact Hp].
Defined.

Definition demo_tick : TickEnv :=
  mkTickEnv None (400 * Second) DBOk (λ _, false) (λ _, false)
    (λ _ _, Ok (TxStatusFailed, mkView (400 * Second) (5 * Second))) (λ _, 401 * Second) (λ _, DBOk).

Lemma sub_tick_settles_witness :
  let t : Table := {[ 1 := demo_row ]} in
  keyed t
  ∧ ∃ r, Tick DefaultReconcileBackoff DefaultReconcileBatch demo_tick t !! 1 = Some r
         ∧ IState (r_intent r) = SubmissionRejected.
Proof.
  intros t. assert (Hk : keyed t).
  { split.
    - intros id r Hr. apply lookup_singleton_Some in Hr as [<- <-]. reflexivity.
    - intros id1 r1 id2 r2 Hr1 Hr2 _.
      apply lookup_singleton_Some in Hr1 as [<- <-]. by apply lookup_singleton_Some in Hr2 as [<- <-]. }
  split; [exact Hk|].
  pose proof (sub_tick_settles DefaultReconcileBackoff DefaultReconcileBatch demo_tick t 1 demo_row
                Hk eq_refl eq_refl eq_refl (λ _, eq_refl) (λ _, eq_refl)) as HT.
  destruct HT as [n Hn]; [reflexivity|vm_compute; discriminate|].
  exists (swept_row (400 * Second + DefaultReconcileBackoff) (401 * Second)
            (Ok (TxStatusFailed, mkView (400 * Second) (5 * Second))) demo_row).
  split; [exact Hn|reflexivity].
Defined.
