(* ===== verification/AuditLog.v ===== *)
(** The tamper-evident audit log (internal/audit/audit.go, the chain verifier
    of internal/scheduler/audit_chain_verifier.go, and the unchained logger of
    internal/repository/postgres/audit_log_repository.go): the hash chain over
    the table [audit_logs], its verification, redaction and anchoring.

    A table maps ids to rows whose chain columns may be NULL, as the migration
    that added them leaves them.  SHA-256 in hex is the argument [HashData],
    the rendering of a time in RFC 3339 the argument [fmtTime]; encoding/json
    is the class [JSON], an instance of which is at the end.  The mutex and the
    serializable transaction make each method one step. *)

From stdpp Require Import sorting pretty.
From Stdlib Require Import Ascii.
From S2P Require Import Prelude Sql GoStrings.
Open Scope Z_scope.
Open Scope go_scope.

(** ** JSON *)

(** Values ([any] in Go), json.Unmarshal into one, json.Marshal of one, the
    view of a value as a map[string]any, and what a JSONB column gives back
    for a text it stores. *)
Class JSON (J : Type) := {
  unmarshal : string → option J;
  marshal : J → string;
  of_map : gmap string J → J;
  to_map : J → option (gmap string J);
  of_string : string → J;
  jsonb : string → string;
}.

(** What is marshalled and stored reads back as it was.  It does of values
    without negative zeros, which the column keeps as zero, and without invalid
    UTF-8, which is marshalled as the escape of the replacement character and
    kept as the character itself. *)
Definition reads_back {J} `{JSON J} (v : J) : Prop := unmarshal (jsonb (marshal v)) = Some v.

(** The empty object is written in two bytes and reads back. *)
Class JSONLaws (J : Type) `{JSON J} : Prop := {
  marshal_empty : marshal (of_map ∅) = "{}"%string;
  reads_back_empty : reads_back (of_map ∅);
}.

(** ** Rows *)

Record Row := mkRow {
  UserID : option UUID;
  Action : string;
  EntityType : string;
  EntityID : UUID;
  OldValue : option string;
  NewValue : option string;
  IPAddress : option string;
  CreatedAt : Time;
  Sequence : option Z;
  Actor : option string;
  Target : option string;
  Detail : option string;
  DetailHash : option string;
  PrevHash : option string;
  EntryHash : option string;
  Anchored : bool;
  AnchorTxHash : option string;
  Redacted : bool;
}.

#[export] Instance Row_eq_dec : EqDecision Row.
Proof. solve_decision. Defined.

Abbreviation Table := (gmap UUID Row).

Inductive AuditError :=
| ErrDB
| ErrScan
| ErrSequenceGap (expected got : Z)
| ErrPrevHash (seq : Z)
| ErrFirstPrevHash
| ErrDetailHash (seq : Z)
| ErrEntryHash (seq : Z)
| ErrEntryNotFound
| ErrUnmarshal
| ErrNothingToAnchor
| ErrAnchorFile.

(** ORDER BY sequence DESC: NULLs come first. *)
Definition seq_desc (p q : UUID * Row) : Prop :=
  match Sequence p.2, Sequence q.2 with
  | None, _ => True
  | Some _, None => False
  | Some a, Some b => b ≤ a
  end.

#[export] Instance seq_desc_dec : RelDecision seq_desc.
Proof. intros p q. unfold seq_desc. repeat case_match; apply _. Defined.

Definition last_rows (t : Table) : list (UUID * Row) := select_rows seq_desc (λ _, true) 1 t.

(** ORDER BY sequence ASC, over rows whose sequence is not NULL. *)
Definition seq_asc (p q : UUID * Row) : Prop :=
  match Sequence p.2, Sequence q.2 with
  | Some a, Some b => a ≤ b
  | _, None => True
  | None, Some _ => False
  end.

#[export] Instance seq_asc_dec : RelDecision seq_asc.
Proof. intros p q. unfold seq_asc. repeat case_match; apply _. Defined.

Definition in_range (fromSeq toSeq : Z) (p : UUID * Row) : bool :=
  match Sequence p.2 with
  | Some s => (fromSeq <=? s) && (s <=? toSeq)
  | None => false
  end.

(** No LIMIT: the bound is the number of rows. *)
Definition range_rows (fromSeq toSeq : Z) (t : Table) : list (UUID * Row) :=
  select_rows seq_asc (in_range fromSeq toSeq) (Z.of_nat (size t)) t.

(** The unique index on sequence; NULLs are distinct. *)
Definition sequence_taken (s : Z) (t : Table) : bool :=
  0 <? count_rows (λ p, bool_decide (Sequence p.2 = Some s)) t.

(** ** Serialization and hashes *)

Definition nl : ascii := "010".

Section Audit.
Context {J : Type} `{JSON J}.
Context (HashData : string → string) (fmtTime : Time → string).

Definition CanonicalSerialize (seq : Z) (ts : Time) (actor action target detailHash prevHash : string)
    : string :=
  "SEQ:" +:+ itoa seq +:+ String nl ("TS:" +:+ fmtTime ts +:+ String nl ("ACTOR:" +:+ actor
    +:+ String nl ("ACTION:" +:+ action +:+ String nl ("TARGET:" +:+ target
    +:+ String nl ("DETAIL_HASH:" +:+ detailHash +:+ String nl ("PREV_HASH:" +:+ prevHash)))))).

(** The detail a caller passes: nil, a string, raw JSON, or another value with
    the text json.Marshal makes of it, if it can. *)
Inductive detail :=
| DNil
| DString (s : string)
| DRaw (s : string)
| DValue (encoded : option string).

Definition emptyObject : string := "{}".

Definition parsed (raw : string) : J :=
  match unmarshal raw with
  | Some v => v
  | None => of_map {[ "raw"%string := of_string raw ]}
  end.

Definition normalize (raw : string) : string := marshal (parsed raw).

Definition CanonicalizeDetail (d : detail) : result AuditError (string * string) :=
  let done raw := let n := normalize raw in Ok (n, HashData n) in
  match d with
  | DNil => Ok (emptyObject, HashData emptyObject)
  | DString s => if decide (s = "") then Ok (emptyObject, HashData emptyObject) else done s
  | DRaw s => done s
  | DValue None => Err ErrUnmarshal
  | DValue (Some s) => done s
  end.

(** ** LogAction *)

(** The row LogAction inserts, as the table gives it back: the detail column
    is JSONB, and [now] is whole microseconds. *)
Definition chain_row (id : UUID) (userID : option UUID) (actor action target : string)
    (oldValue newValue ipAddress : option string) (now : Time) (seq : Z)
    (detailJSON detailHash prevHash entryHash : string) : Row :=
  {| UserID := userID; Action := action; EntityType := "audit"; EntityID := id;
     OldValue := oldValue; NewValue := newValue; IPAddress := ipAddress; CreatedAt := now;
     Sequence := Some seq; Actor := Some actor; Target := Some target;
     Detail := Some (jsonb detailJSON); DetailHash := Some detailHash; PrevHash := Some prevHash;
     EntryHash := Some entryHash; Anchored := false; AnchorTxHash := None; Redacted := false |}.

(** [t.Truncate(time.Microsecond)] *)
Definition truncateMicro (t : Time) : Time := t - t `mod` Microsecond.

(** The next sequence and the hash it links to: [None] is the error of
    scanning a NULL. *)
Definition next_link (t : Table) : option (Z * string) :=
  match last_rows t with
  | [] => Some (1, ""%string)
  | (_, r) :: _ =>
      match Sequence r, EntryHash r with
      | Some lastSeq, Some lastHash => Some (lastSeq +w 1, lastHash)
      | _, _ => None
      end
  end.

(** [d] is how the transaction ends, [wall] time.Now(), [id] uuid.New(). *)
Definition LogAction (d : dbres) (wall : Time) (id : UUID) (userID : option UUID)
    (actor action target : string) (det : detail) (oldValue newValue ipAddress : option string)
    (t : Table) : result AuditError Row * Table :=
  match next_link t with
  | None => (Err ErrScan, t)
  | Some (nextSeq, prevHash) =>
      match CanonicalizeDetail det with
      | Err e => (Err e, t)
      | Ok (detailJSON, detailHash) =>
          let now := truncateMicro wall in
          let entryHash :=
            HashData (CanonicalSerialize nextSeq now actor action target detailHash prevHash) in
          let row := chain_row id userID actor action target oldValue newValue ipAddress now nextSeq
                       detailJSON detailHash prevHash entryHash in
          if sequence_taken nextSeq t || bool_decide (is_Some (t !! id)) then (Err ErrDB, t)
          else (if failed d then Err ErrDB else Ok row, effect d t (<[id := row]> t))
      end
  end.

(** ** VerifyChain *)

(** What the loop carries. *)
Record Expect := mkExpect { x_prev : string; x_seq : Z; x_first : bool }.

Definition broken (seq : Z) (e : AuditError) : bool * Z * option AuditError := (false, seq, Some e).

(** The checks of one row, or what VerifyChain returns at it. *)
Definition check_row (x : Expect) (r : Row) : Expect + (bool * Z * option AuditError) :=
  match Sequence r, Actor r, Target r, DetailHash r, PrevHash r, EntryHash r with
  | Some seq, Some actor, Some target, Some dHash, Some prev, Some hash =>
      if negb (seq =? x_seq x) then inr (broken seq (ErrSequenceGap (x_seq x) seq))
      else if negb (x_first x) && negb (bool_decide (prev = x_prev x))
      then inr (broken seq (ErrPrevHash seq))
      else if x_first x && (seq =? 1) && negb (bool_decide (prev = ""%string))
      then inr (broken seq ErrFirstPrevHash)
      else
        let recomputed :=
          if Redacted r then Ok dHash
          else match CanonicalizeDetail (DRaw (default ""%string (Detail r))) with
               | Ok (_, h) => Ok h
               | Err e => Err e
               end in
        match recomputed with
        | Err e => inr (broken seq e)
        | Ok h =>
            if negb (bool_decide (h = dHash)) then inr (broken seq (ErrDetailHash seq))
            else if negb (bool_decide
                 (HashData (CanonicalSerialize seq (CreatedAt r) actor (Action r) target dHash prev) = hash))
            then inr (broken seq (ErrEntryHash seq))
            else inl (mkExpect hash (x_seq x +w 1) false)
        end
  | _, _, _, _, _, _ => inr (broken 0 ErrScan)
  end.

Fixpoint verify_rows (x : Expect) (rows : list Row) : bool * Z * option AuditError :=
  match rows with
  | [] => (true, 0, None)
  | r :: rows =>
      match check_row x r with
      | inl x => verify_rows x rows
      | inr res => res
      end
  end.

Definition VerifyChain (up : bool) (fromSeq toSeq : Z) (t : Table) : bool * Z * option AuditError :=
  let fromSeq := if fromSeq <=? 0 then 1 else fromSeq in
  if negb up then (false, 0, Some ErrDB)
  else verify_rows (mkExpect "" fromSeq true) (range_rows fromSeq toSeq t).*2.

(** The scheduled verifier: the range of one run. *)
Definition RunOnce (batchSize : Z) (up : bool) (t : Table) : bool * Z * option AuditError :=
  let from := 1 in
  let to := if 0 <? batchSize then from +w batchSize -w 1 else max_i64 in
  VerifyChain up from to t.

(** ** Redaction *)

Definition redact_keys (keys : list string) (m : gmap string J) : bool * gmap string J :=
  foldl (λ '(any, m) key,
    match m !! key with
    | Some _ => (true, <[key := of_string "[REDACTED]"]> m)
    | None => (any, m)
    end) (false, m) keys.

Definition redacted_row (text : string) (r : Row) : Row :=
  {| UserID := UserID r; Action := Action r; EntityType := EntityType r; EntityID := EntityID r;
     OldValue := OldValue r; NewValue := NewValue r; IPAddress := IPAddress r;
     CreatedAt := CreatedAt r; Sequence := Sequence r; Actor := Actor r; Target := Target r;
     Detail := Some (jsonb text); DetailHash := DetailHash r; PrevHash := PrevHash r;
     EntryHash := EntryHash r; Anchored := Anchored r; AnchorTxHash := AnchorTxHash r;
     Redacted := true |}.

(** SELECT ... WHERE sequence = seq *)
Definition with_sequence (seq : Z) (t : Table) : list (UUID * Row) :=
  List.filter (λ p, bool_decide (Sequence p.2 = Some seq)) (map_to_list t).

(** json.Unmarshal of the column into a map. *)
Definition parse_map (detailJSON : option string) : option (gmap string J) :=
  match detailJSON with
  | None => None
  | Some s => match unmarshal s with Some v => to_map v | None => None end
  end.

Definition redactDetail (d : dbres) (seq : Z) (redactKeys : list string) (t : Table)
    : result AuditError bool * Table :=
  match with_sequence seq t with
  | [] => (Err ErrEntryNotFound, t)
  | (id, r) :: _ =>
      match DetailHash r with
      | None => (Err ErrScan, t)
      | Some _ =>
          match parse_map (Detail r) with
          | None => (Err ErrUnmarshal, t)
          | Some m =>
              let '(any, m) := redact_keys redactKeys m in
              if negb any then (Ok false, t)
              else (if failed d then Err ErrDB else Ok true,
                    effect d t (alter (redacted_row (marshal (of_map m))) id t))
          end
      end
  end.

(** [encode] renders the detail of the follow-up entry. *)
Definition RedactEntry (encode : Z → list string → option string) (d dlog : dbres) (wall : Time)
    (id : UUID) (seq : Z) (redactKeys : list string) (t : Table) : result AuditError unit * Table :=
  let '(r, t) := redactDetail d seq redactKeys t in
  match r with
  | Err e => (Err e, t)
  | Ok false => (Ok tt, t)
  | Ok true =>
      (Ok tt, (LogAction dlog wall id None "system" "redaction"
                 ("audit_logs:sequence:" +:+ itoa seq) (DValue (encode seq redactKeys))
                 None None None t).2)
  end.

(** ** Anchoring *)

Definition anchored_row (file : string) (r : Row) : Row :=
  {| UserID := UserID r; Action := Action r; EntityType := EntityType r; EntityID := EntityID r;
     OldValue := OldValue r; NewValue := NewValue r; IPAddress := IPAddress r;
     CreatedAt := CreatedAt r; Sequence := Sequence r; Actor := Actor r; Target := Target r;
     Detail := Detail r; DetailHash := DetailHash r; PrevHash := PrevHash r;
     EntryHash := EntryHash r; Anchored := true; AnchorTxHash := Some ("file:" +:+ file);
     Redacted := Redacted r |}.

Definition mark_anchored (file : string) (seq : Z) (t : Table) : Table :=
  (λ r, if bool_decide (Sequence r = Some seq) then anchored_row file r else r) <$> t.

(** [up] is whether the SELECT succeeds, [written] whether the record reaches
    the file, [stamp] the time in the record. *)
Definition AnchorLatestEntry (file stamp : string) (up written : bool) (d : dbres)
    (t : Table) (anchors : list string) : result AuditError string * Table * list string :=
  if negb up then (Err ErrDB, t, anchors)
  else
    match last_rows t with
    | [] => (Err ErrNothingToAnchor, t, anchors)
    | (_, r) :: _ =>
        match Sequence r, EntryHash r with
        | Some seq, Some entryHash =>
            if negb written then (Err ErrAnchorFile, t, anchors)
            else
              let record := "[" +:+ stamp +:+ "] SEQ:" +:+ itoa seq +:+ " HASH:" +:+ entryHash
                            +:+ String nl "" in
              (if failed d then Err ErrDB else Ok ("file:" +:+ file),
               effect d t (mark_anchored file seq t), anchors ++ [record])
        | _, _ => (Err ErrScan, t, anchors)
        end
    end.

(** ** The unchained logger *)

(** PostgresAuditLogger.Log: the columns of the chain stay NULL. *)
Definition Log (d : dbres) (id : UUID) (dbnow : Time) (userID : option UUID)
    (action entityType : string) (entityID : UUID) (oldJSON newJSON : option string)
    (ipAddress : option string) (t : Table) : result AuditError unit * Table :=
  match oldJSON, newJSON with
  | Some o, Some n =>
      let row := {| UserID := userID; Action := action; EntityType := entityType;
         EntityID := entityID; OldValue := Some o; NewValue := Some n; IPAddress := ipAddress;
         CreatedAt := dbnow; Sequence := None; Actor := None; Target := None; Detail := None;
         DetailHash := None; PrevHash := None; EntryHash := None; Anchored := false;
         AnchorTxHash := None; Redacted := false |} in
      match t !! id with
      | Some _ => (Err ErrDB, t)
      | None => (if failed d then Err ErrDB else Ok tt, effect d t (<[id := row]> t))
      end
  | _, _ => (Err ErrUnmarshal, t)
  end.
End Audit.

(** ** Reading the table in order *)

#[export] Instance seq_asc_total : Total seq_asc.
Proof. intros p q. unfold seq_asc. repeat case_match; auto; lia. Qed.

#[export] Instance seq_asc_trans : Transitive seq_asc.
Proof. intros p q r. unfold seq_asc. repeat case_match; try done; lia. Qed.

#[export] Instance seq_desc_total : Total seq_desc.
Proof. intros p q. unfold seq_desc. repeat case_match; auto; lia. Qed.

#[export] Instance seq_desc_trans : Transitive seq_desc.
Proof. intros p q r. unfold seq_desc. repeat case_match; try done; lia. Qed.

Definition seq_of (p : UUID * Row) : Z := default 0 (Sequence p.2).

(** Two sorted permutations of a list without repeated keys are one. *)
Lemma sorted_key_unique {A} (f : A → Z) (l1 l2 : list A) :
  StronglySorted (λ x y, f x ≤ f y) l1 → StronglySorted (λ x y, f x ≤ f y) l2 →
  NoDup (f <$> l1) → l1 ≡ₚ l2 → l1 = l2.
Proof.
  revert l2. induction l1 as [|x l1 IH]; intros l2 H1 H2 Hnd Hp; [by apply Permutation_nil in Hp|].
  destruct l2 as [|y l2]; [by apply Permutation_sym, Permutation_nil in Hp|].
  apply StronglySorted_inv in H1 as [H1 Hx], H2 as [H2 Hy].
  rewrite fmap_cons in Hnd. apply NoDup_cons in Hnd as [Hn Hnd].
  assert (Exy : x = y).
  { assert (Hy1 : y ∈ x :: l1) by (rewrite Hp; set_solver).
    assert (Hx2 : x ∈ y :: l2) by (rewrite <-Hp; set_solver).
    apply elem_of_cons in Hy1 as [->|Hy1]; [done|]. apply elem_of_cons in Hx2 as [->|Hx2]; [done|].
    rewrite Forall_forall in Hx, Hy. specialize (Hx y Hy1). specialize (Hy x Hx2).
    exfalso. apply Hn. replace (f x) with (f y) by lia. by apply list_elem_of_fmap_2. }
  subst y. f_equal. apply IH; [done..|]. by apply Permutation_cons_inv in Hp.
Qed.

Lemma sorted_lt_NoDup (l : list Z) : StronglySorted Z.lt l → NoDup l.
Proof.
  induction 1 as [|x l Hs IH Hx]; constructor; [|done].
  rewrite Forall_forall in Hx. intros Hin%Hx. lia.
Qed.

Lemma sorted_lt_key {A} (f : A → Z) (l : list A) :
  StronglySorted Z.lt (f <$> l) → StronglySorted (λ x y, f x ≤ f y) l.
Proof.
  induction l as [|x l IH]; simpl; intros Hs; constructor; apply StronglySorted_inv in Hs as [Hs Hx].
  - auto.
  - rewrite Forall_fmap in Hx. eapply Forall_impl; [exact Hx|]. simpl. lia.
Qed.

(** The rows of a range are the strictly sorted list that has them. *)
Lemma range_rows_unique a b (t : Table) L :
  StronglySorted Z.lt (seq_of <$> L) →
  (∀ x, x ∈ L ↔ t !! x.1 = Some x.2 ∧ in_range a b x = true) →
  range_rows a b t = L.
Proof.
  intros Hs HL. unfold range_rows, select_rows.
  set (F := List.filter (in_range a b) (map_to_list t)).
  assert (Hnd : NoDup F) by (eapply NoDup_fmap_1, filtered_NoDup).
  assert (HndL : NoDup L) by (eapply NoDup_fmap_1, sorted_lt_NoDup, Hs).
  assert (Hperm : F ≡ₚ L).
  { apply NoDup_Permutation; [done..|]. intros x. unfold F. by rewrite filtered_In, HL. }
  assert (Hlen : (length F ≤ size t)%nat).
  { unfold F. rewrite <-length_map_to_list. apply filter_length_le. }
  rewrite take_ge by (rewrite (Permutation_length (merge_sort_Permutation _ _)); lia).
  symmetry. apply (sorted_key_unique seq_of).
  - by apply sorted_lt_key.
  - assert (Hso : StronglySorted seq_asc (merge_sort seq_asc F)) by (apply StronglySorted_merge_sort; apply _).
    assert (Hin : ∀ x, x ∈ merge_sort seq_asc F → in_range a b x = true).
    { intros x Hx. rewrite merge_sort_Permutation in Hx. by apply filtered_In in Hx as [_ ?]. }
    induction Hso as [|x l Hso IH Hx]; constructor.
    + apply IH. intros y Hy. apply Hin. by apply list_elem_of_further.
    + rewrite Forall_forall in Hx |- *. intros y Hy. specialize (Hx y Hy).
      pose proof (Hin x (list_elem_of_here _ _)) as Ix.
      pose proof (Hin y (list_elem_of_further _ _ _ Hy)) as Iy.
      unfold seq_of, in_range, seq_asc in *. by destruct (Sequence x.2), (Sequence y.2).
  - by apply sorted_lt_NoDup.
  - by rewrite merge_sort_Permutation.
Qed.

Lemma range_rows_In a b (t : Table) x : x ∈ range_rows a b t → t !! x.1 = Some x.2 ∧ in_range a b x = true.
Proof. apply select_In. Qed.

(** Every row of the range is read. *)
Lemma range_rows_complete a b (t : Table) x :
  t !! x.1 = Some x.2 → in_range a b x = true → x ∈ range_rows a b t.
Proof.
  intros Hx Hr. unfold range_rows, select_rows. rewrite take_ge.
  - rewrite merge_sort_Permutation. by apply filtered_In.
  - rewrite (Permutation_length (merge_sort_Permutation _ _)), Nat2Z.id, <-length_map_to_list.
    apply filter_length_le.
Qed.

(** A table with a row outside the chain: the last entry is read off such a row. *)
Lemma null_last (t : Table) id r :
  t !! id = Some r → Sequence r = None → ∃ id' r', last_rows t = [(id', r')] ∧ Sequence r' = None.
Proof.
  intros Hr Hn. unfold last_rows. set (l := select_rows _ _ _ _).
  destruct (decide ((id, r) ∈ l)) as [Hin|Hout].
  - assert (Hlen : Z.of_nat (length l) ≤ Z.max 0 1) by apply select_length.
    destruct l as [|x [|y l]]; simpl in Hlen; [set_solver| |lia].
    apply list_elem_of_singleton in Hin as <-. eauto.
  - destruct (select_cut seq_desc (λ _, true) 1 t (id, r) Hr eq_refl Hout) as [Hlen Hle]. fold l in Hlen, Hle.
    destruct l as [|x [|y l]]; simpl in Hlen; try lia.
    destruct x as [id' r']. exists id', r'. split; [done|].
    specialize (Hle (id', r') (list_elem_of_here _ _)). unfold seq_desc in Hle. simpl in Hle.
    rewrite Hn in Hle. by destruct (Sequence r').
Qed.

(** The last entry of a table whose sequences are unique and not NULL. *)
Lemma last_max (t : Table) id r s :
  t !! id = Some r → Sequence r = Some s →
  (∀ id' r', t !! id' = Some r' → id' ≠ id → ∃ s', Sequence r' = Some s' ∧ s' < s) →
  last_rows t = [(id, r)].
Proof.
  intros Hr Hs Hmax. unfold last_rows. set (l := select_rows _ _ _ _).
  assert (Hlen1 : Z.of_nat (length l) ≤ Z.max 0 1) by apply select_length.
  destruct (decide ((id, r) ∈ l)) as [Hin|Hout].
  - destruct l as [|x [|y l]]; simpl in Hlen1; [set_solver| |lia].
    by apply list_elem_of_singleton in Hin as <-.
  - exfalso. destruct (select_cut seq_desc (λ _, true) 1 t (id, r) Hr eq_refl Hout) as [Hlen Hle].
    fold l in Hlen, Hle. destruct l as [|x [|y l0]] eqn:E; simpl in Hlen; try lia.
    specialize (Hle x (list_elem_of_here _ _)).
    assert (Hx : x ∈ l) by (rewrite E; set_solver). unfold l in Hx. apply select_In in Hx as [Hx _].
    destruct (decide (x.1 = id)) as [Ei|Ne].
    + apply Hout. destruct x as [id' r']. simpl in *. subst. simplify_eq. set_solver.
    + destruct (Hmax _ _ Hx Ne) as (s' & Hs' & Hlt). unfold seq_desc in Hle. simpl in Hle.
      rewrite Hs', Hs in Hle. lia.
Qed.

(** ** The chain *)

Section Chain.
Context {J : Type} `{JSON J} {Laws : JSONLaws J}.
Context (HashData : string → string) (fmtTime : Time → string).

#[local] Abbreviation check_row := (check_row HashData fmtTime).
#[local] Abbreviation verify_rows := (verify_rows HashData fmtTime).
#[local] Abbreviation VerifyChain := (VerifyChain HashData fmtTime).
#[local] Abbreviation LogAction := (LogAction HashData fmtTime).

(** One entry: its place, what it hashes to, and its detail. *)
Definition entry_ok (seq : Z) (prev hash : string) (r : Row) : Prop :=
  ∃ actor target dHash,
    Sequence r = Some seq ∧ Actor r = Some actor ∧ Target r = Some target
    ∧ DetailHash r = Some dHash ∧ PrevHash r = Some prev ∧ EntryHash r = Some hash
    ∧ hash = HashData (CanonicalSerialize fmtTime seq (CreatedAt r) actor (Action r) target dHash prev)
    ∧ (Redacted r = false → HashData (normalize (default ""%string (Detail r))) = dHash).

(** Entries that follow one another from [seq], the first after [prev]. *)
Fixpoint linked (seq : Z) (prev : string) (rows : list Row) : Prop :=
  match rows with
  | [] => True
  | r :: rows => ∃ hash, entry_ok seq prev hash r ∧ linked (seq + 1) hash rows
  end.

Lemma check_row_ok x r y :
  check_row x r = inl y ↔
  ∃ prev hash, entry_ok (x_seq x) prev hash r ∧ y = mkExpect hash (x_seq x +w 1) false
    ∧ (x_first x = false → prev = x_prev x)
    ∧ (x_first x = true → x_seq x = 1 → prev = ""%string).
Proof.
  unfold AuditLog.check_row, entry_ok.
  destruct (Sequence r) as [seq|]; [|split; [done|by intros (? & ? & (? & ? & ? & ? & _) & _)]].
  destruct (Actor r) as [actor|]; [|split; [done|by intros (? & ? & (? & ? & ? & ? & ? & _) & _)]].
  destruct (Target r) as [target|]; [|split; [done|by intros (? & ? & (? & ? & ? & ? & ? & ? & _) & _)]].
  destruct (DetailHash r) as [dHash|]; [|split; [done|by intros (? & ? & (? & ? & ? & ? & ? & ? & ? & _) & _)]].
  destruct (PrevHash r) as [prev|]; [|split; [done|by intros (? & ? & (? & ? & ? & ? & ? & ? & ? & ? & _) & _)]].
  destruct (EntryHash r) as [hash|]; [|split; [done|by intros (? & ? & (? & ? & ? & ? & ? & ? & ? & ? & ? & _) & _)]].
  set (ser := HashData (CanonicalSerialize _ _ _ _ _ _ _ _)).
  set (dh := HashData (normalize (default ""%string (Detail r)))).
  transitivity ((seq = x_seq x ∧ (x_first x = false → prev = x_prev x)
      ∧ (x_first x = true → seq = 1 → prev = ""%string)
      ∧ (Redacted r = false → dh = dHash) ∧ ser = hash) ∧ mkExpect hash (x_seq x +w 1) false = y).
  - destruct (Z.eqb_spec seq (x_seq x)); cbn [negb]; [|split; [done|tauto]].
    destruct (x_first x); cbn [negb andb].
    + destruct (Z.eqb_spec seq 1); cbn [andb negb];
        destruct (bool_decide_reflect (prev = ""%string)); cbn [negb];
        try (split; [done|naive_solver]);
        destruct (Redacted r); cbn; fold dh ser;
        repeat (case_bool_decide; cbn [negb]); naive_solver.
    + destruct (bool_decide_reflect (prev = x_prev x)); cbn [negb]; [|split; [done|naive_solver]].
      destruct (Redacted r); cbn; fold dh ser;
        repeat (case_bool_decide; cbn [negb]); naive_solver.
  - split.
    + intros [(-> & Hp & Hf & Hd & Hs) <-]. exists prev, hash.
      split_and!; [|done..|naive_solver]. exists actor, target, dHash. by split_and!.
    + intros (p & h & (a & tg & dH & [= ->] & [= <-] & [= <-] & [= <-] & [= <-] & [= <-] & Hs & Hd) & -> & Hp & Hf).
      naive_solver.
Qed.

Lemma check_row_broken x r res : check_row x r = inr res → res.1.1 = false.
Proof. unfold AuditLog.check_row. intros Hc. repeat case_match; simplify_eq; done. Qed.

Definition passed : bool * Z * option AuditError := (true, 0, None).

Lemma verify_rows_linked x rows :
  1 ≤ x_seq x → x_seq x + Z.of_nat (length rows) ≤ max_i64 →
  verify_rows x rows = passed ↔
  ∃ prev, linked (x_seq x) prev rows ∧ (x_first x = false → rows ≠ [] → prev = x_prev x)
    ∧ (x_first x = true → x_seq x = 1 → rows ≠ [] → prev = ""%string).
Proof.
  revert x. induction rows as [|r rows IH]; intros x H1 Hlen; simpl.
  { split; [|done]. intros _. exists ""%string. by split_and!. }
  simpl in Hlen. destruct (check_row x r) as [y|res] eqn:Hc.
  - apply check_row_ok in Hc as (prev & hash & He & -> & Hp & Hf).
    assert (Hw : x_seq x +w 1 = x_seq x + 1) by (apply i64_id; unfold in_i64, min_i64, max_i64 in *; lia).
    rewrite IH by (simpl; rewrite Hw; lia). simpl. rewrite Hw. split.
    + intros (prev' & Hl & Hp' & _). exists prev. split_and!; [|naive_solver..].
      exists hash. split; [done|]. destruct rows; [done|]. by rewrite <-Hp'.
    + intros (prev' & (hash' & He' & Hl) & _ & _). exists hash'. split_and!; [done| |done].
      intros _ _. destruct He as (? & ? & ? & ? & ? & ? & ? & ? & E & _).
      destruct He' as (? & ? & ? & ? & ? & ? & ? & ? & E' & _). congruence.
  - split.
    + intros ->. by apply check_row_broken in Hc.
    + intros (prev & (hash & He & _) & Hp & Hf).
      assert (Hy : check_row x r = inl (mkExpect hash (x_seq x +w 1) false)).
      { apply check_row_ok. exists prev, hash. split_and!; auto. }
      congruence.
Qed.

(** Verification passes exactly on the rows that are linked. *)
Lemma VerifyChain_linked from to (t : Table) :
  1 ≤ from → from + Z.of_nat (length (range_rows from to t)) ≤ max_i64 →
  VerifyChain true from to t = passed ↔
  ∃ prev, linked from prev (range_rows from to t).*2
    ∧ (from = 1 → range_rows from to t ≠ [] → prev = ""%string).
Proof.
  intros Hf Hn. unfold AuditLog.VerifyChain. destruct (Z.leb_spec from 0); [lia|]. cbn [negb].
  rewrite verify_rows_linked; simpl.
  - split; intros (prev & Hl & Hp); exists prev.
    + destruct Hp as [_ Hp]. split; [done|]. intros E Hne. apply Hp; [done..|].
      intros Hnil. by apply fmap_nil_inv in Hnil.
    + split_and!; [done..|]. intros _ E Hne. apply Hp; [done|]. intros Hnil. by rewrite Hnil in Hne.
  - done.
  - by rewrite length_fmap.
Qed.

Definition rseq (r : Row) : Z := default 0 (Sequence r).

Lemma linked_sorted n prev rows :
  linked n prev rows →
  StronglySorted Z.lt (rseq <$> rows) ∧ ∀ r, r ∈ rows → Sequence r = Some (rseq r) ∧ n ≤ rseq r < n + Z.of_nat (length rows).
Proof.
  revert n prev. induction rows as [|r rows IH]; intros n prev; simpl; [intros _; split; [constructor|set_solver]|].
  intros (hash & (? & ? & ? & Hs & _) & Hl). apply IH in Hl as [Hso Hin].
  assert (Hr : rseq r = n) by (unfold rseq; by rewrite Hs). split.
  - constructor; [done|]. rewrite Forall_fmap, Forall_forall. intros r' Hr'%Hin. simpl. lia.
  - intros r' [->|Hr']%elem_of_cons; [rewrite Hs; unfold rseq; rewrite Hs; simpl; split; [done|lia]|].
    apply Hin in Hr' as [? ?]. split; [done|lia].
Qed.

Lemma linked_nth n prev rows i r : linked n prev rows → rows !! i = Some r → rseq r = n + Z.of_nat i.
Proof.
  revert n prev i. induction rows as [|r0 rows IH]; intros n prev [|i]; simpl; try done.
  - intros (hash & (? & ? & ? & Hs & _) & _) [= ->]. unfold rseq. rewrite Hs. simpl. lia.
  - intros (hash & _ & Hl) Hi. rewrite (IH _ _ _ Hl Hi). lia.
Qed.

Definition in_rows (a b : Z) (r : Row) : bool := (a <=? rseq r) && (rseq r <=? b).

Lemma filter_past b n prev rows a :
  linked n prev rows → b < n → List.filter (in_rows a b) rows = [].
Proof.
  intros Hl Hb. apply linked_sorted in Hl as [_ Hin].
  assert (Hlow : ∀ r, r ∈ rows → b < rseq r) by (intros r [_ ?]%Hin; lia). clear Hin.
  induction rows as [|r rows IH]; [done|]. simpl.
  assert (in_rows a b r = false) as ->.
  { specialize (Hlow r (list_elem_of_here _ _)). unfold in_rows. apply andb_false_iff. right. lia. }
  apply IH. intros r' Hr'. apply Hlow. by apply list_elem_of_further.
Qed.

(** The part of a chain in a range is a chain. *)
Lemma linked_filter a b n prev rows :
  linked n prev rows → n ≤ a →
  ∃ prev', linked a prev' (List.filter (in_rows a b) rows) ∧ (n = a → prev' = prev).
Proof.
  revert n a prev. induction rows as [|r rows IH]; intros n a prev; [by exists prev|].
  intros Hl Hn. pose proof Hl as (hash & He & Hl').
  assert (Hr : rseq r = n) by (destruct He as (? & ? & ? & Hs & _); unfold rseq; by rewrite Hs).
  destruct (Z.leb_spec n b) as [Hb|Hb]; [|exists prev; rewrite (filter_past b n prev) by done; by destruct (Z.eq_dec n a)].
  simpl. destruct (decide (n = a)) as [->|Hne].
  - exists prev. split; [|done]. unfold in_rows at 1. rewrite Hr, Z.leb_refl.
    destruct (Z.leb_spec a b); [|lia]. cbn [andb]. exists hash. split; [done|].
    (* the rest starts at its own place *)
    assert (Hrest : ∃ prev', linked (a + 1) prev' (List.filter (in_rows (a + 1) b) rows) ∧ (a + 1 = a + 1 → prev' = hash))
      by by apply (IH (a + 1) (a + 1) hash).
    destruct Hrest as (prev' & Hl2 & Hp). rewrite <-(Hp eq_refl).
    replace (List.filter (in_rows a b) rows) with (List.filter (in_rows (a + 1) b) rows); [done|].
    apply filter_ext_in. intros r' Hr'. apply list_elem_of_In in Hr'.
    apply linked_sorted in Hl' as [_ Hin]. destruct (Hin r' Hr') as [_ ?].
    unfold in_rows. f_equal. lia.
  - destruct (IH (n + 1) a hash Hl') as (prev' & Hl2 & _); [lia|].
    exists prev'. unfold in_rows at 1. destruct (Z.leb_spec a (rseq r)); [lia|]. by split.
Qed.

(** ** Tables that are chains *)

(** The list of the entries of a table, which are all in one chain. *)
Definition chain_log (t : Table) (L : list (UUID * Row)) : Prop :=
  linked 1 "" L.*2 ∧ NoDup L.*1 ∧ ∀ id r, t !! id = Some r ↔ (id, r) ∈ L.

Lemma seq_of_rseq (L : list (UUID * Row)) : seq_of <$> L = rseq <$> L.*2.
Proof. rewrite <-list_fmap_compose. by apply list_fmap_ext. Qed.

Lemma filter_snd (f : Row → bool) (L : list (UUID * Row)) :
  (List.filter (λ x, f x.2) L).*2 = List.filter f L.*2.
Proof.
  induction L as [|x L IH]; simpl; [done|].
  destruct (f x.2); simpl; [f_equal|]; exact IH.
Qed.

Lemma chain_row_seq t L id r :
  chain_log t L → t !! id = Some r → Sequence r = Some (rseq r) ∧ 1 ≤ rseq r ≤ Z.of_nat (length L).
Proof.
  intros (Hl & _ & Ht) Hr%Ht. apply linked_sorted in Hl as [_ Hin].
  apply (list_elem_of_fmap_2 snd) in Hr. destruct (Hin _ Hr) as [? Hb]. rewrite length_fmap in Hb. simpl in *.
  split; [done|lia].
Qed.

Lemma chain_range a b t L :
  1 ≤ a → chain_log t L → range_rows a b t = List.filter (λ x, in_rows a b x.2) L.
Proof.
  intros Ha Hc. pose proof Hc as (Hl & _ & Ht).
  apply range_rows_unique.
  - rewrite seq_of_rseq, (filter_snd (in_rows a b)).
    destruct (linked_filter a b 1 "" L.*2 Hl) as (prev & Hf & _); [lia|].
    by apply linked_sorted in Hf as [? _].
  - intros x. rewrite list_elem_of_In, List.filter_In, <-list_elem_of_In.
    destruct x as [id r]. simpl. rewrite <-Ht. split; intros [Hr Hin]; (split; [done|]);
      destruct (chain_row_seq t L id r Hc Hr) as [Hs _]; revert Hin;
      unfold in_range, in_rows; simpl; by rewrite Hs.
Qed.

(** A table that is a chain passes in every range. *)
Lemma chain_verifies from to t L :
  chain_log t L → Z.of_nat (length L) < max_i64 → from ≤ max_i64 →
  VerifyChain true from to t = passed.
Proof.
  intros Hc Hlen Hm. set (a := if from <=? 0 then 1 else from).
  assert (Ha : 1 ≤ a ≤ max_i64) by (unfold a, max_i64 in *; destruct (Z.leb_spec from 0); lia).
  assert (E : VerifyChain true from to t = VerifyChain true a to t).
  { unfold AuditLog.VerifyChain. fold a. by destruct (Z.leb_spec a 0); [lia|]. }
  rewrite E. clear E. pose proof (proj1 Hc) as Hl.
  pose proof (chain_range a to t L (proj1 Ha) Hc) as Hr.
  destruct (linked_filter a to 1 "" L.*2 Hl) as (prev & Hf & Hp); [lia|].
  rewrite <-(filter_snd (in_rows a to)), <-Hr in Hf. apply VerifyChain_linked; [lia| |].
  - destruct (last (range_rows a to t)) as [[id r]|] eqn:Hlast.
    + rewrite last_lookup in Hlast. pose proof (list_elem_of_lookup_2 _ _ _ Hlast) as Hx.
      apply range_rows_In in Hx as [Hx _]. destruct (chain_row_seq t L id r Hc Hx) as [_ Hb].
      rewrite (linked_nth a prev (range_rows a to t).*2 (pred (length (range_rows a to t))) r Hf) in Hb;
        [simpl in Hb; lia|].
      by rewrite list_lookup_fmap, Hlast.
    + apply last_None in Hlast. rewrite Hlast. simpl. lia.
  - exists prev. split; [done|]. intros E _. by apply Hp.
Qed.

(** What may change in a row without a trace in the chain: everything outside
    the hashed columns, and the detail once the row is flagged as redacted. *)
Definition same_entry (r r' : Row) : Prop :=
  Sequence r' = Sequence r ∧ CreatedAt r' = CreatedAt r ∧ Actor r' = Actor r ∧ Action r' = Action r
  ∧ Target r' = Target r ∧ DetailHash r' = DetailHash r ∧ PrevHash r' = PrevHash r
  ∧ EntryHash r' = EntryHash r
  ∧ (Redacted r' = false → Redacted r = false ∧ Detail r' = Detail r).

Lemma same_entry_refl r : same_entry r r.
Proof. unfold same_entry. naive_solver. Qed.

Lemma entry_ok_same n prev hash r r' : same_entry r r' → entry_ok n prev hash r → entry_ok n prev hash r'.
Proof.
  intros (E1 & E2 & E3 & E4 & E5 & E6 & E7 & E8 & E9) (actor & target & dHash & H1 & H2 & H3 & H4 & H5 & H6 & H7 & H8).
  exists actor, target, dHash. rewrite E1, E2, E3, E4, E5, E6, E7, E8. split_and!; try done.
  intros [Er ->]%E9. auto.
Qed.

Lemma linked_same n prev rows rows' :
  Forall2 same_entry rows rows' → linked n prev rows → linked n prev rows'.
Proof.
  intros HF. revert n prev. induction HF as [|r r' rows rows' Hr HF IH]; intros n prev; simpl; [done|].
  intros (hash & He & Hl). exists hash. split; [by eapply entry_ok_same|by apply IH].
Qed.

(** Two tables with the same rows up to such changes. *)
Definition same_entries (t t' : Table) : Prop :=
  (∀ id r, t !! id = Some r → ∃ r', t' !! id = Some r' ∧ same_entry r r')
  ∧ ∀ id r', t' !! id = Some r' → is_Some (t !! id).

(** A list of rows of [t], as [t'] has them. *)
Definition as_in (t' : Table) (L : list (UUID * Row)) : list (UUID * Row) :=
  (λ x, (x.1, default x.2 (t' !! x.1))) <$> L.

Lemma as_in_same t t' L :
  same_entries t t' → (∀ id r, (id, r) ∈ L → t !! id = Some r) →
  Forall2 same_entry L.*2 (as_in t' L).*2.
Proof.
  intros [Hs _] HL. unfold as_in. induction L as [|[id r] L IH]; simpl; constructor.
  - destruct (Hs id r) as (r' & -> & ?); [apply HL; set_solver|done].
  - apply IH. intros id' r' Hin. apply HL. set_solver.
Qed.

Lemma as_in_fst t' L : (as_in t' L).*1 = L.*1.
Proof. unfold as_in. by rewrite <-list_fmap_compose. Qed.

Lemma as_in_In t t' L id r :
  same_entries t t' → (∀ id r, (id, r) ∈ L → t !! id = Some r) →
  (id, r) ∈ as_in t' L ↔ t' !! id = Some r ∧ ∃ r0, (id, r0) ∈ L.
Proof.
  intros [Hs _] HL. unfold as_in. rewrite list_elem_of_fmap. split.
  - intros ([id0 r0] & [= -> ->] & Hin). simpl in *.
    destruct (Hs id0 r0 (HL _ _ Hin)) as (r' & E & _). rewrite E. simpl. eauto.
  - intros (Hr & r0 & Hin). exists (id, r0). simpl. by rewrite Hr.
Qed.

Lemma chain_log_same t t' L : chain_log t L → same_entries t t' → chain_log t' (as_in t' L).
Proof.
  intros (Hl & Hnd & Ht) Hs.
  assert (HL : ∀ id r, (id, r) ∈ L → t !! id = Some r) by (intros id r; apply Ht). split_and!.
  - eapply linked_same; [by eapply as_in_same|done].
  - by rewrite as_in_fst.
  - intros id r. rewrite (as_in_In t) by done. split; [|tauto]. intros Hr. split; [done|].
    destruct (proj2 Hs id r Hr) as [r0 Hr0]. exists r0. by apply Ht.
Qed.

Lemma alter_same (f : Row → Row) id (t : Table) :
  (∀ r, t !! id = Some r → same_entry r (f r)) → same_entries t (alter f id t).
Proof.
  intros Hf. split.
  - intros id' r Hr. destruct (decide (id = id')) as [<-|Hne].
    + exists (f r). rewrite lookup_alter_eq, Hr. auto.
    + exists r. rewrite lookup_alter_ne by done. auto using same_entry_refl.
  - intros id' r'. rewrite lookup_alter. case_decide; [subst|eauto]. destruct (t !! id'); [eauto|done].
Qed.

Lemma anchor_same file seq (t : Table) : same_entries t (mark_anchored file seq t).
Proof.
  unfold mark_anchored. split.
  - intros id r Hr. rewrite lookup_fmap, Hr. simpl. eexists. split; [done|].
    destruct (bool_decide _); [|apply same_entry_refl]. unfold same_entry, anchored_row. naive_solver.
  - intros id r'. rewrite lookup_fmap. destruct (t !! id); [eauto|done].
Qed.

Lemma same_entries_refl t : same_entries t t.
Proof. split; eauto using same_entry_refl. Qed.

Lemma effect_same (d : dbres) t t' : same_entries t t' → same_entries t (effect d t t').
Proof. destruct d as [|[]]; simpl; auto using same_entries_refl. Qed.

Lemma redactDetail_same d seq keys t : same_entries t (redactDetail d seq keys t).2.
Proof.
  unfold redactDetail. destruct (with_sequence seq t) as [|[id r] l]; [apply same_entries_refl|].
  destruct (DetailHash r); [|apply same_entries_refl].
  destruct (parse_map (Detail r)) as [m|]; [|apply same_entries_refl].
  destruct (redact_keys keys m) as [any m']. destruct any; [|apply same_entries_refl].
  simpl. apply effect_same, alter_same. intros r0 _. unfold same_entry, redacted_row. simpl. by split_and!.
Qed.

Lemma chain_next t L :
  chain_log t L → Z.of_nat (length L) < max_i64 →
  ∃ prev, next_link t = Some (Z.of_nat (length L) + 1, prev)
    ∧ ∀ r, entry_ok (Z.of_nat (length L) + 1) prev (default ""%string (EntryHash r)) r →
        linked 1 "" (L.*2 ++ [r]).
Proof.
  intros Hc Hlen. pose proof Hc as (Hl & Hnd & Ht). unfold next_link.
  destruct (last L) as [[id r]|] eqn:Hlast.
  - apply last_Some in Hlast as [L0 ->].
    assert (Hr : t !! id = Some r) by (apply Ht; set_solver).
    assert (Hi : (L0 ++ [(id, r)]).*2 !! length L0 = Some r).
    { rewrite fmap_app, lookup_app_r by (rewrite length_fmap; lia). by rewrite length_fmap, Nat.sub_diag. }
    assert (Hs : rseq r = Z.of_nat (length (L0 ++ [(id, r)]))).
    { rewrite (linked_nth _ _ _ _ _ Hl Hi), length_app. simpl. lia. }
    assert (Hlr : last_rows t = [(id, r)]).
    { apply (last_max t id r (rseq r)); [done|by apply (chain_row_seq t _ id r Hc)|].
      intros id' r' Hr' Hne. destruct (chain_row_seq t _ id' r' Hc Hr') as [Hsr Hb].
      exists (rseq r'). split; [done|]. rewrite <-Hs in Hb.
      destruct (decide (rseq r' = rseq r)) as [E|?]; [|lia]. exfalso.
      apply Ht in Hr'. apply list_elem_of_lookup in Hr' as [k Hk].
      assert (Hk' : (L0 ++ [(id, r)]).*2 !! k = Some r') by (by rewrite list_lookup_fmap, Hk).
      rewrite (linked_nth _ _ _ _ _ Hl Hk'), (linked_nth _ _ _ _ _ Hl Hi) in E.
      assert (k = length L0) as -> by lia. rewrite list_lookup_middle in Hk by done. congruence. }
    rewrite Hlr. destruct (chain_row_seq t _ id r Hc Hr) as [Hsr Hb]. rewrite Hsr, Hs.
    assert (Hend : ∀ n p rows, linked n p (rows ++ [r]) → ∃ h, EntryHash r = Some h
              ∧ ∀ r', entry_ok (n + Z.of_nat (length rows) + 1) h (default ""%string (EntryHash r')) r' →
                  linked n p ((rows ++ [r]) ++ [r'])).
    { intros n p rows. revert n p. induction rows as [|r0 rows IH]; intros n p; simpl.
      - intros (h & He & _). pose proof He as (? & ? & ? & _ & _ & _ & _ & _ & Eh & _).
        exists h. split; [done|]. intros r' He'. exists h. split; [done|].
        exists (default ""%string (EntryHash r')). rewrite Z.add_0_r in He'. by split.
      - intros (h0 & He & Hl0). destruct (IH _ _ Hl0) as (h & Eh & Hnext). exists h. split; [done|].
        intros r' He'. exists h0. split; [done|]. apply Hnext.
        by replace (n + 1 + Z.of_nat (length rows) + 1) with (n + Z.of_nat (S (length rows)) + 1) by lia. }
    rewrite fmap_app in Hl. destruct (Hend _ _ _ Hl) as (h & Eh & Hnext). rewrite Eh.
    exists h. rewrite length_app in *. simpl in *. split.
    + f_equal. f_equal. apply i64_id. unfold in_i64, min_i64, max_i64 in *. lia.
    + intros r' He'. rewrite fmap_app. apply Hnext. rewrite length_fmap.
      by replace (1 + Z.of_nat (length L0) + 1) with (Z.of_nat (length L0 + 1) + 1) by lia.
  - apply last_None in Hlast as ->. exists ""%string.
    assert (t = ∅) as ->.
    { apply map_empty. intros id. destruct (t !! id) as [r|] eqn:E; [|done].
      apply Ht in E. by apply elem_of_nil in E. }
    split; [done|]. intros r He. exists (default ""%string (EntryHash r)). by split.
Qed.

(** The value of a detail reads back. *)
Definition plain_detail (d : detail) : Prop :=
  match d with
  | DNil | DValue None => True
  | DString s => s = ""%string ∨ reads_back (parsed s)
  | DRaw s | DValue (Some s) => reads_back (parsed s)
  end.

(** The text and the hash of a detail agree, and survive the column. *)
Lemma CanonicalizeDetail_spec d text h :
  plain_detail d → CanonicalizeDetail HashData d = Ok (text, h) →
  h = HashData text ∧ normalize (jsonb text) = text.
Proof.
  assert (Hn : ∀ v, reads_back v → normalize (jsonb (marshal v)) = marshal v).
  { intros v Hv. unfold normalize, parsed. by rewrite Hv. }
  assert (He : normalize (jsonb emptyObject) = emptyObject).
  { unfold emptyObject. rewrite <-marshal_empty. apply Hn, reads_back_empty. }
  destruct d as [|s|s|[s|]]; simpl; intros Hp; try case_decide; intros [= <- <-]; (split; [done|]); try done;
    apply Hn; [|done..]. by destruct Hp.
Qed.

Lemma LogAction_chain d wall id userID actor action target det o n ip t L r t' :
  plain_detail det → chain_log t L → Z.of_nat (length L) < max_i64 →
  LogAction d wall id userID actor action target det o n ip t = (r, t') →
  (t' = t ∧ (∀ row, r ≠ Ok row))
  ∨ ∃ row, t !! id = None ∧ t' = <[id := row]> t ∧ chain_log t' (L ++ [(id, row)])
      ∧ (∀ row', r = Ok row' → row' = row)
      ∧ Sequence row = Some (Z.of_nat (length L) + 1) ∧ Actor row = Some actor ∧ Action row = action
      ∧ Target row = Some target ∧ UserID row = userID ∧ CreatedAt row = truncateMicro wall.
Proof.
  intros Hplain Hc Hlen. pose proof Hc as (Hl & Hnd & Ht).
  destruct (chain_next t L Hc Hlen) as (prev & Hnext & Hend). unfold AuditLog.LogAction. rewrite Hnext.
  destruct (CanonicalizeDetail HashData det) as [[text h]|e] eqn:Hd; [|by intros [= <- <-]; left].
  apply CanonicalizeDetail_spec in Hd as [-> Hjson]; [|done].
  set (row := chain_row _ _ _ _ _ _ _ _ _ _ _ _ _ _).
  destruct (sequence_taken _ t || bool_decide (is_Some (t !! id))) eqn:E; [by intros [= <- <-]; left|].
  apply orb_false_iff in E as [_ E%bool_decide_eq_false].
  assert (Hid : t !! id = None) by (by apply eq_None_not_Some).
  assert (Hrow : chain_log (<[id := row]> t) (L ++ [(id, row)])).
  { split_and!.
    - rewrite fmap_app. apply Hend. exists actor, target, (HashData text).
      unfold row. simpl. split_and!; try done. by rewrite Hjson.
    - rewrite fmap_app. apply NoDup_app. split_and!; [done| |apply NoDup_singleton].
      simpl. intros id' Hin ->%list_elem_of_singleton.
      apply list_elem_of_fmap in Hin as ([id0 r0] & -> & Hin). simpl in *. apply Ht in Hin. congruence.
    - intros id' r'. rewrite elem_of_app, list_elem_of_singleton, lookup_insert_Some, <-Ht.
      destruct (decide (id = id')) as [<-|Hne]; naive_solver. }
  destruct d as [|[]]; simpl; intros [= <- <-]; [right|right|left; done];
    exists row; (split_and!; [done|done|exact Hrow| |done..]); [by intros row' [= ->]|done].
Qed.

(** *** Every history of the service *)

Inductive op :=
| OLog (d : dbres) (wall : Time) (id : UUID) (userID : option UUID) (actor action target : string)
    (det : detail) (oldValue newValue ipAddress : option string)
| ORedact (encode : Z → list string → option string) (d dlog : dbres) (wall : Time) (id : UUID)
    (seq : Z) (redactKeys : list string)
| OAnchor (file stamp : string) (up written : bool) (d : dbres).

Definition exec (o : op) (t : Table) : Table :=
  match o with
  | OLog d wall id userID actor action target det ov nv ip =>
      (LogAction d wall id userID actor action target det ov nv ip t).2
  | ORedact encode d dlog wall id seq keys =>
      (RedactEntry HashData fmtTime encode d dlog wall id seq keys t).2
  | OAnchor file stamp up written d => (AnchorLatestEntry file stamp up written d t []).1.2
  end.

Definition execs (os : list op) (t : Table) : Table := foldl (λ t o, exec o t) t os.

Lemma as_in_length t' L : length (as_in t' L) = length L.
Proof. apply length_fmap. Qed.

(** The details that a call logs read back. *)
Definition plain_op (o : op) : Prop :=
  match o with
  | OLog _ _ _ _ _ _ _ det _ _ _ => plain_detail det
  | ORedact encode _ _ _ _ seq keys => plain_detail (DValue (encode seq keys))
  | OAnchor _ _ _ _ _ => True
  end.

(** A step keeps the chain, and every entry of it up to redaction and
    anchoring; it adds at most one. *)
Lemma exec_chain o t L :
  plain_op o → chain_log t L → Z.of_nat (length L) < max_i64 →
  ∃ L', chain_log (exec o t) L' ∧ (length L' ≤ S (length L))%nat
    ∧ ∀ i x, L !! i = Some x → ∃ r', L' !! i = Some (x.1, r') ∧ same_entry x.2 r'.
Proof.
  intros Hplain Hc Hlen.
  assert (Hsame : ∀ t', same_entries t t' → chain_log t' (as_in t' L)
    ∧ (length (as_in t' L) ≤ S (length L))%nat
    ∧ ∀ i x, L !! i = Some x → ∃ r', as_in t' L !! i = Some (x.1, r') ∧ same_entry x.2 r').
  { intros t' Hs. split_and!; [by eapply chain_log_same|rewrite as_in_length; lia|].
    intros i [id r] Hi. unfold as_in. rewrite list_lookup_fmap, Hi. simpl. eexists. split; [done|].
    destruct Hc as (_ & _ & Ht). apply list_elem_of_lookup_2, Ht in Hi.
    by destruct (proj1 Hs id r Hi) as (r' & -> & ?). }
  assert (Hlog : ∀ d wall id u a ac tg det ov nv ip t1 L1, plain_detail det → chain_log t1 L1 → (length L1 = length L)%nat →
    ∃ L', chain_log (LogAction d wall id u a ac tg det ov nv ip t1).2 L' ∧ (length L' ≤ S (length L1))%nat
      ∧ ∀ i x, L1 !! i = Some x → L' !! i = Some x).
  { intros d wall id u a ac tg det ov nv ip t1 L1 Hdet Hc1 HL1.
    destruct (LogAction d wall id u a ac tg det ov nv ip t1) as [r t'] eqn:E.
    apply (LogAction_chain _ _ _ _ _ _ _ _ _ _ _ _ L1) in E; [|done|done|lia].
    destruct E as [[-> _]|(row & _ & _ & Hc' & _)]; simpl.
    - exists L1. split_and!; [done|lia|done].
    - exists (L1 ++ [(id, row)]). split_and!; [done|rewrite length_app; simpl; lia|].
      intros i x Hi. by apply lookup_app_l_Some. }
  destruct o as [d wall id u a ac tg det ov nv ip|encode d dlog wall id seq keys|file stamp up written d]; simpl.
  - destruct (Hlog d wall id u a ac tg det ov nv ip t L Hplain Hc eq_refl) as (L' & ? & ? & Hpre).
    exists L'. split_and!; [done..|]. intros i x Hi. exists x.2. destruct x. split; [by apply Hpre|apply same_entry_refl].
  - unfold RedactEntry. pose proof (redactDetail_same d seq keys t) as Hs.
    destruct (redactDetail d seq keys t) as [r t1]. simpl in Hs. destruct (Hsame t1 Hs) as (Hc1 & Hlen1 & Hpre1).
    destruct r as [[]|e]; simpl; [|by eexists..].
    destruct (Hlog dlog wall id None "system"%string "redaction"%string ("audit_logs:sequence:" +:+ itoa seq)
      (DValue (encode seq keys)) None None None t1 _ Hplain Hc1 (as_in_length t1 L)) as (L' & ? & Hle & Hpre).
    exists L'. rewrite as_in_length in Hle. split_and!; [done..|]. intros i x (r' & Hr' & ?)%Hpre1. eauto.
  - unfold AnchorLatestEntry. destruct up; [|by eexists; apply Hsame, same_entries_refl].
    destruct (last_rows t) as [|[id r] l]; [by eexists; apply Hsame, same_entries_refl|].
    destruct (Sequence r) as [s|]; [|by eexists; apply Hsame, same_entries_refl].
    destruct (EntryHash r); [|by eexists; apply Hsame, same_entries_refl].
    destruct written; [|by eexists; apply Hsame, same_entries_refl].
    simpl. eexists. apply Hsame, effect_same, anchor_same.
Qed.

Lemma execs_chain os t L :
  Forall plain_op os → chain_log t L → Z.of_nat (length L) + Z.of_nat (length os) < max_i64 →
  ∃ L', chain_log (execs os t) L' ∧ Z.of_nat (length L') ≤ Z.of_nat (length L) + Z.of_nat (length os).
Proof.
  intros HF. revert t L. induction HF as [|o os Ho HF IH]; intros t L Hc Hlen; simpl in *.
  - exists L. split; [done|lia].
  - destruct (exec_chain o t L Ho Hc) as (L1 & Hc1 & Hl1 & _); [lia|].
    destruct (IH _ L1 Hc1) as (L' & Hc' & Hl'); [lia|]. exists L'. split; [done|lia].
Qed.

Lemma empty_chain : chain_log ∅ [].
Proof. split_and!; [done|constructor|]. intros id r. by rewrite lookup_empty, elem_of_nil. Qed.

(** C20: Whatever the service does from an empty table, any calls of LogAction,
    RedactEntry and AnchorLatestEntry whose statements succeed, fail or lose
    their answer, at any clock, the table passes VerifyChain over every range;
    that the detail column reads back as JSONB and created_at as microseconds
    included.  The details are ones whose parsed value reads back from the
    column as it was marshalled, so no negative zero and no invalid UTF-8:
    with those an honest log fails. *)
Theorem audit_log_verifies os from to :
  Forall plain_op os → Z.of_nat (length os) < max_i64 → from ≤ max_i64 →
  VerifyChain true from to (execs os ∅) = (true, 0, None).
Proof.
  intros HF Hlen Hf. destruct (execs_chain os ∅ [] HF empty_chain) as (L & Hc & Hl); [simpl; lia|].
  simpl in Hl. apply (chain_verifies from to _ L); [done|lia|done].
Qed.

(** A table of one entry. *)
Lemma range_single a b id row s :
  Sequence row = Some s → a ≤ s ≤ b → range_rows a b {[id := row]} = [(id, row)].
Proof.
  intros Hs Hb. apply range_rows_unique; [repeat constructor|]. intros [i x]. rewrite list_elem_of_singleton. simpl.
  rewrite lookup_singleton_Some. unfold in_range. simpl. split.
  - intros [= -> ->]. rewrite Hs. split; [done|]. apply andb_true_iff. lia.
  - by intros [[-> ->] _].
Qed.

(** An entry whose detail hashes otherwise once it is read back is logged with
    success, and is reported as tampered with by every verification of it. *)
Theorem audit_changed_detail_fails wall id userID actor action target det ov nv ip to text h :
  CanonicalizeDetail HashData det = Ok (text, h) → HashData (normalize (jsonb text)) ≠ h → 1 ≤ to →
  ∃ row, LogAction DBOk wall id userID actor action target det ov nv ip ∅ = (Ok row, {[id := row]})
    ∧ VerifyChain true 1 to {[id := row]} = (false, 1, Some (ErrDetailHash 1)).
Proof.
  intros Hd Hne Hto. unfold AuditLog.LogAction, next_link, last_rows, select_rows. rewrite map_to_list_empty. simpl.
  rewrite Hd. rewrite lookup_empty. unfold sequence_taken, count_rows. rewrite map_to_list_empty. simpl.
  eexists. split; [done|]. unfold AuditLog.VerifyChain. simpl negb. cbv iota.
  change (1 <=? 0) with false. cbv iota.
  rewrite (range_single 1 to id _ 1) by (first [reflexivity|lia]). simpl.
  unfold AuditLog.check_row. simpl. by rewrite bool_decide_eq_false_2.
Qed.

(** *** What the hashes commit to *)

Definition clean (s : string) : bool := str_all (λ c, bool_decide (c ≠ nl)) s.

Lemma itoa_one_line z : clean (itoa z) = true.
Proof.
  unfold clean. assert (Hi : ∀ s, str_all numeral s = true → str_all (λ c, bool_decide (c ≠ nl)) s = true).
  { induction s as [|c s IH]; [done|]. simpl. rewrite !andb_true_iff. intros [Hc Hs]. split; [|auto].
    apply bool_decide_eq_true. intros ->. done. }
  apply Hi, itoa_numeral.
Qed.

(** A field ends at its newline. *)
Lemma field_split (tag : string) s1 s2 r1 r2 :
  clean s1 = true → clean s2 = true →
  tag +:+ s1 +:+ String nl r1 = tag +:+ s2 +:+ String nl r2 → s1 = s2 ∧ r1 = r2.
Proof. intros H1 H2 E%(inj (String.append tag)). by apply (split_at_sep nl). Qed.

Lemma last_field (tag : string) s1 s2 : tag +:+ s1 = tag +:+ s2 → s1 = s2.
Proof. apply (inj (String.append tag)). Qed.

(** What [CanonicalSerialize] is given for a row. *)
Definition preimage (r : Row) : string :=
  CanonicalSerialize fmtTime (rseq r) (CreatedAt r) (default ""%string (Actor r)) (Action r)
    (default ""%string (Target r)) (default ""%string (DetailHash r)) (default ""%string (PrevHash r)).

Definition clean_row (r : Row) : Prop :=
  clean (default ""%string (Actor r)) = true ∧ clean (Action r) = true
  ∧ clean (default ""%string (Target r)) = true ∧ clean (default ""%string (DetailHash r)) = true.

(** The rows say the same, as far as they are hashed. *)
Definition same_hashed (r1 r2 : Row) : Prop :=
  Sequence r1 = Sequence r2 ∧ CreatedAt r1 = CreatedAt r2 ∧ Actor r1 = Actor r2
  ∧ Action r1 = Action r2 ∧ Target r1 = Target r2 ∧ DetailHash r1 = DetailHash r2
  ∧ PrevHash r1 = PrevHash r2 ∧ EntryHash r1 = EntryHash r2.

Section Commitment.
Context (fmt_inj : ∀ a b, fmtTime a = fmtTime b → a = b) (fmt_clean : ∀ a, clean (fmtTime a) = true).

(** The hashed text of an entry determines its fields, when actor, action,
    target and detail hash hold no newline. *)
Lemma serialize_injective s1 s2 t1 t2 a1 a2 c1 c2 g1 g2 d1 d2 p1 p2 :
  clean a1 = true → clean a2 = true → clean c1 = true → clean c2 = true →
  clean g1 = true → clean g2 = true → clean d1 = true → clean d2 = true →
  CanonicalSerialize fmtTime s1 t1 a1 c1 g1 d1 p1 = CanonicalSerialize fmtTime s2 t2 a2 c2 g2 d2 p2 →
  s1 = s2 ∧ t1 = t2 ∧ a1 = a2 ∧ c1 = c2 ∧ g1 = g2 ∧ d1 = d2 ∧ p1 = p2.
Proof.
  intros. match goal with E : CanonicalSerialize _ _ _ _ _ _ _ _ = _ |- _ => rename E into E0 end.
  unfold CanonicalSerialize in E0.
  apply field_split in E0 as [Es E0]; [|apply itoa_one_line..].
  apply field_split in E0 as [Et E0]; [|apply fmt_clean..].
  apply field_split in E0 as [-> E0]; [|done..]. apply field_split in E0 as [-> E0]; [|done..].
  apply field_split in E0 as [-> E0]; [|done..]. apply field_split in E0 as [-> E0]; [|done..].
  apply last_field in E0 as ->. apply (inj pretty) in Es as ->. apply fmt_inj in Et as ->. done.
Qed.

Lemma preimage_same r1 r2 h1 h2 n p1 p2 :
  clean_row r1 → clean_row r2 → entry_ok n p1 h1 r1 → entry_ok n p2 h2 r2 → h1 = h2 →
  preimage r1 = preimage r2 → same_hashed r1 r2 ∧ p1 = p2.
Proof.
  intros (A1 & A2 & A3 & A4) (B1 & B2 & B3 & B4)
    (a1 & g1 & d1 & S1 & Ha1 & Hg1 & Hd1 & Hp1 & He1 & _) (a2 & g2 & d2 & S2 & Ha2 & Hg2 & Hd2 & Hp2 & He2 & _) -> E.
  apply serialize_injective in E; [|done..].
  rewrite Ha1, Ha2, Hg1, Hg2, Hd1, Hd2, Hp1, Hp2 in E. simpl in E.
  destruct E as (_ & Et & -> & Ec & -> & -> & ->). split; [|done].
  unfold same_hashed. rewrite S1, S2, Ha1, Ha2, Hg1, Hg2, Hd1, Hd2, Hp1, Hp2, He1, He2. by split_and!.
Qed.

Lemma entry_ok_hash n p h r : entry_ok n p h r → h = HashData (preimage r) ∧ EntryHash r = Some h.
Proof.
  intros (a & g & d & S & Ha & Hg & Hd & Hp & He & -> & _). split; [|done]. unfold preimage, rseq.
  by rewrite S, Ha, Hg, Hd, Hp.
Qed.

Lemma linked_snoc n p rows r :
  linked n p (rows ++ [r]) → ∃ p' h, linked n p rows ∧ entry_ok (n + Z.of_nat (length rows)) p' h r
    ∧ (∀ r0, last rows = Some r0 → EntryHash r0 = Some p') ∧ (rows = [] → p' = p).
Proof.
  revert n p. induction rows as [|r0 rows IH]; intros n p; simpl.
  - intros (h & He & _). exists p, h. rewrite Z.add_0_r. by split_and!.
  - intros (h0 & He0 & (p' & h & Hl & He & Hlast & Hnil)%IH).
    exists p', h. split_and!; [eauto| | |done].
    + by replace (n + Z.of_nat (S (length rows))) with (n + 1 + Z.of_nat (length rows)) by lia.
    + intros r1. destruct rows as [|r2 rows]; [|by apply Hlast]. simpl. intros [= <-].
      rewrite Hnil by done. by apply entry_ok_hash in He0 as [_ ?].
Qed.

(** Two chains of one length whose last hashes agree are one, when no two of
    their texts collide. *)
Lemma chains_agree n p1 p2 (R1 R2 : list Row) :
  (∀ r1 r2, r1 ∈ R1 → r2 ∈ R2 → HashData (preimage r1) = HashData (preimage r2) → preimage r1 = preimage r2) →
  Forall clean_row R1 → Forall clean_row R2 →
  linked n p1 R1 → linked n p2 R2 → length R1 = length R2 →
  (EntryHash <$> last R1) = (EntryHash <$> last R2) →
  Forall2 same_hashed R1 R2.
Proof.
  revert R2. induction R1 as [|r1 R1 IH] using rev_ind; intros R2 Hcol Hc1 Hc2 Hl1 Hl2 Hlen Hh.
  { by destruct R2. }
  destruct R2 as [|r2 R2 _] using rev_ind; [rewrite length_app in Hlen; simpl in Hlen; lia|].
  rewrite !length_app in Hlen. simpl in Hlen. assert (length R1 = length R2) as Hlen' by lia.
  apply linked_snoc in Hl1 as (q1 & h1 & Hl1 & He1 & Hlast1 & Hnil1).
  apply linked_snoc in Hl2 as (q2 & h2 & Hl2 & He2 & Hlast2 & Hnil2).
  rewrite !last_snoc in Hh. injection Hh as Hh. rewrite <-Hlen' in He2.
  apply Forall_app in Hc1 as [Hc1 [Hr1 _]%Forall_cons], Hc2 as [Hc2 [Hr2 _]%Forall_cons].
  pose proof (entry_ok_hash _ _ _ _ He1) as [E1 Eh1]. pose proof (entry_ok_hash _ _ _ _ He2) as [E2 Eh2].
  assert (h1 = h2) as Eh by congruence.
  destruct (preimage_same r1 r2 h1 h2 _ q1 q2 Hr1 Hr2 He1 He2 Eh) as [Hs Hq].
  { apply Hcol; [set_solver..|congruence]. }
  apply Forall2_app; [|by constructor]. apply IH; try done.
  - intros x y Hx Hy. apply Hcol; set_solver.
  - destruct (last R1) as [x|] eqn:L1, (last R2) as [y|] eqn:L2; [|..|done].
    + simpl. f_equal. rewrite (Hlast1 x), (Hlast2 y) by done. congruence.
    + apply last_None in L2 as ->. apply last_Some in L1 as [? ->]. rewrite length_app in Hlen'. simpl in Hlen'. lia.
    + apply last_None in L1 as ->. apply last_Some in L2 as [? ->]. rewrite length_app in Hlen'. simpl in Hlen'. lia.
Qed.

(** A verified range from 1 that holds entry [n], and nothing after it. *)
Lemma verified_prefix n t id r :
  1 ≤ n → n < max_i64 → VerifyChain true 1 n t = passed → t !! id = Some r → Sequence r = Some n →
  Z.of_nat (length (range_rows 1 n t)) < max_i64 →
  let R := (range_rows 1 n t).*2 in
  linked 1 "" R ∧ Z.of_nat (length R) = n ∧ last R = Some r
  ∧ ∀ k, 1 ≤ k ≤ n → ∃ id' r', t !! id' = Some r' ∧ R !! Z.to_nat (k - 1) = Some r'
       ∧ Sequence r' = Some k.
Proof.
  intros H1 Hmax HV Hr Hs Hsize R.
  apply VerifyChain_linked in HV as (prev & Hl & Hp); [|lia|lia]. fold R in Hl.
  assert (Hin : (id, r) ∈ range_rows 1 n t).
  { apply range_rows_complete; [done|]. unfold in_range. simpl. rewrite Hs.
    apply andb_true_iff. lia. }
  assert (Hne : range_rows 1 n t ≠ []) by (intros E; rewrite E in Hin; set_solver).
  rewrite (Hp eq_refl Hne) in Hl. clear Hp. split; [done|].
  apply list_elem_of_lookup in Hin as [i Hi].
  assert (HRi : R !! i = Some r) by (unfold R; by rewrite list_lookup_fmap, Hi).
  assert (Hn : n = 1 + Z.of_nat i).
  { rewrite <-(linked_nth _ _ _ _ _ Hl HRi). unfold rseq. by rewrite Hs. }
  assert (Hall : ∀ j r', R !! j = Some r' → 1 + Z.of_nat j ≤ n).
  { intros j r' Hj. rewrite <-(linked_nth _ _ _ _ _ Hl Hj).
    unfold R in Hj. rewrite list_lookup_fmap in Hj. destruct (range_rows 1 n t !! j) as [[id' r0]|] eqn:E; [|done].
    injection Hj as <-. apply list_elem_of_lookup_2, range_rows_In in E as [_ E].
    unfold in_range in E. unfold rseq. simpl in *. destruct (Sequence r0); [|done]. simpl. go_bool. lia. }
  assert (Hlen : length R = S i).
  { assert (Hi' : (i < length R)%nat) by (by eapply lookup_lt_Some).
    destruct (decide (length R = S i)); [done|]. exfalso.
    destruct (lookup_lt_is_Some_2 R (S i)) as [r' Hr']; [lia|]. apply Hall in Hr'. lia. }
  split_and!; [lia| |].
  - rewrite last_lookup, Hlen. exact HRi.
  - intros k Hk. destruct (lookup_lt_is_Some_2 R (Z.to_nat (k - 1))) as [r' Hr']; [lia|].
    pose proof Hr' as Hr2. unfold R in Hr2. rewrite list_lookup_fmap in Hr2.
    destruct (range_rows 1 n t !! Z.to_nat (k - 1)) as [[id' r0]|] eqn:E; [|done]. injection Hr2 as <-.
    apply list_elem_of_lookup_2, range_rows_In in E as [E1 E2]. exists id', r0. split_and!; [done..|].
    pose proof (linked_nth _ _ _ _ _ Hl Hr') as Hseq. apply linked_sorted in Hl as [_ Hsome].
    apply list_elem_of_lookup_2, Hsome in Hr' as [-> _]. f_equal. lia.
Qed.

(** The detail of a verified row that is not redacted. *)
Lemma linked_detail n p rows r :
  linked n p rows → r ∈ rows → Redacted r = false →
  DetailHash r = Some (HashData (normalize (default ""%string (Detail r)))).
Proof.
  revert n p. induction rows as [|r0 rows IH]; intros n p; simpl; [set_solver|].
  intros (h & He & Hl) [->|Hin]%elem_of_cons; [|by eapply IH].
  destruct He as (? & ? & dHash & ? & ? & ? & Hd & _ & _ & _ & Hdet). intros Hr. by rewrite Hd, Hdet.
Qed.

(** C21: Tamper evidence.  Two tables that both pass VerifyChain up to entry [n]
    and agree on the hash of entry [n], which is what an anchor records, hold
    the same [n] entries: sequence, time, actor, action, target and hashes,
    and the details of entries neither table flags as redacted, as long as the
    texts that were hashed do not collide and hold no newline within a field. *)
Theorem audit_tamper_evident n t1 t2 id1 r1 id2 r2 :
  1 ≤ n → n < max_i64 →
  Z.of_nat (length (range_rows 1 n t1)) < max_i64 → Z.of_nat (length (range_rows 1 n t2)) < max_i64 →
  VerifyChain true 1 n t1 = (true, 0, None) → VerifyChain true 1 n t2 = (true, 0, None) →
  t1 !! id1 = Some r1 → Sequence r1 = Some n → t2 !! id2 = Some r2 → Sequence r2 = Some n →
  EntryHash r1 = EntryHash r2 →
  (∀ x y, x ∈ range_rows 1 n t1 → y ∈ range_rows 1 n t2 →
     (HashData (preimage x.2) = HashData (preimage y.2) → preimage x.2 = preimage y.2)
     ∧ (HashData (normalize (default ""%string (Detail x.2)))
          = HashData (normalize (default ""%string (Detail y.2))) →
        normalize (default ""%string (Detail x.2)) = normalize (default ""%string (Detail y.2)))) →
  (∀ x, x ∈ range_rows 1 n t1 ++ range_rows 1 n t2 → clean_row x.2) →
  ∀ k, 1 ≤ k ≤ n →
    ∃ i1 i2 x1 x2, t1 !! i1 = Some x1 ∧ t2 !! i2 = Some x2 ∧ Sequence x1 = Some k
      ∧ same_hashed x1 x2
      ∧ (Redacted x1 = false → Redacted x2 = false →
         normalize (default ""%string (Detail x1)) = normalize (default ""%string (Detail x2))).
Proof.
  intros H1 Hmax Hz1 Hz2 HV1 HV2 Hr1 Hs1 Hr2 Hs2 Hh Hcol Hclean k Hk.
  destruct (verified_prefix n t1 id1 r1) as (Hl1 & Hn1 & Hlast1 & Hall1); [done..|].
  destruct (verified_prefix n t2 id2 r2) as (Hl2 & Hn2 & Hlast2 & Hall2); [done..|].
  destruct (Hall1 k Hk) as (i1 & x1 & Hx1 & Hk1 & Hsk). destruct (Hall2 k Hk) as (i2 & x2 & Hx2 & Hk2 & _).
  assert (Hsrc : ∀ t r, r ∈ (range_rows 1 n t).*2 → ∃ x, x ∈ range_rows 1 n t ∧ x.2 = r).
  { intros t r (x & -> & Hx)%list_elem_of_fmap. eauto. }
  assert (HF : Forall2 same_hashed (range_rows 1 n t1).*2 (range_rows 1 n t2).*2).
  { eapply (chains_agree 1 "" ""); [| | |done|done|lia|].
    - intros a b (x & Hx & <-)%Hsrc (y & Hy & <-)%Hsrc. by apply Hcol.
    - apply Forall_forall. intros a (x & Hx & <-)%Hsrc. apply Hclean, elem_of_app. by left.
    - apply Forall_forall. intros a (x & Hx & <-)%Hsrc. apply Hclean, elem_of_app. by right.
    - rewrite Hlast1, Hlast2. simpl. by rewrite Hh. }
  exists i1, i2, x1, x2. split_and!; [done..| |].
  - by eapply Forall2_lookup_lr.
  - intros R1 R2. apply list_elem_of_lookup_2 in Hk1 as Hin1, Hk2 as Hin2.
    pose proof (linked_detail _ _ _ _ Hl1 Hin1 R1) as D1.
    pose proof (linked_detail _ _ _ _ Hl2 Hin2 R2) as D2.
    assert (HS : same_hashed x1 x2) by (by eapply Forall2_lookup_lr).
    destruct HS as (_ & _ & _ & _ & _ & HD & _).
    apply Hsrc in Hin1 as (y1 & Hy1 & <-), Hin2 as (y2 & Hy2 & <-).
    apply (Hcol y1 y2 Hy1 Hy2). congruence.
Qed.
End Commitment.

(** *** What verification does not see *)

(** Any table: the rows of a verified range, up to [same_entry]. *)
Lemma range_same a b t t' :
  same_entries t t' → StronglySorted Z.lt (seq_of <$> range_rows a b t) →
  range_rows a b t' = as_in t' (range_rows a b t).
Proof.
  intros Hs Hso.
  assert (HL : ∀ id r, (id, r) ∈ range_rows a b t → t !! id = Some r)
    by (by intros id r [? _]%range_rows_In).
  assert (Hsq : ∀ r r', same_entry r r' → rseq r' = rseq r ∧ ∀ id, in_range a b (id, r') = in_range a b (id, r)).
  { intros r r' (E & _). unfold rseq, in_range. simpl. by rewrite E. }
  apply range_rows_unique.
  - rewrite seq_of_rseq in Hso |- *. pose proof (as_in_same t t' _ Hs HL) as HF.
    replace (rseq <$> (as_in t' (range_rows a b t)).*2) with (rseq <$> (range_rows a b t).*2); [done|].
    clear -HF Hsq. induction HF as [|r r' l l' Hr _ IH]; [done|].
    rewrite !fmap_cons. by rewrite IH, (proj1 (Hsq r r' Hr)).
  - intros [id r']. rewrite (as_in_In t) by done. simpl. split; intros [Hr' Hin]; (split; [done|]).
    + destruct Hin as (r & Hin). apply range_rows_In in Hin as [Hr Hi]. destruct (proj1 Hs id _ Hr) as (r2 & E & Hse).
      simplify_eq. by rewrite (proj2 (Hsq _ _ Hse) id).
    + destruct (proj2 Hs id r' Hr') as [r Hr]. destruct (proj1 Hs id r Hr) as (r2 & E & Hse). simplify_eq.
      exists r. apply range_rows_complete; [done|]. simpl. by rewrite <-(proj2 (Hsq _ _ Hse) id).
Qed.

(** Redaction keeps a chain verifiable, and for the same reason VerifyChain
    sees no change of the columns outside the hashes, nor of a detail whose
    row is flagged as redacted, whoever set the flag: a table that passes in a
    range passes after any such changes of any of its rows. *)
Theorem audit_redaction_uncovered from to t t' :
  1 ≤ from → from + Z.of_nat (length (range_rows from to t)) ≤ max_i64 →
  same_entries t t' →
  VerifyChain true from to t = (true, 0, None) → VerifyChain true from to t' = (true, 0, None).
Proof.
  intros Hf Hlen Hs HV. apply VerifyChain_linked in HV as (prev & Hl & Hp); [|done..].
  assert (HL : ∀ id r, (id, r) ∈ range_rows from to t → t !! id = Some r)
    by (by intros id r [? _]%range_rows_In).
  pose proof (linked_sorted _ _ _ Hl) as [Hso _]. rewrite <-seq_of_rseq in Hso.
  pose proof (range_same from to t t' Hs Hso) as Hr.
  apply VerifyChain_linked; [done|by rewrite Hr, as_in_length|].
  rewrite Hr. exists prev. split.
  - eapply linked_same; [by eapply as_in_same|done].
  - intros E Hne. apply Hp; [done|]. intros E'. by rewrite E' in Hne.
Qed.

Lemma linked_app n p l1 l2 : linked n p (l1 ++ l2) → linked n p l1.
Proof.
  revert n p. induction l1 as [|r l1 IH]; intros n p; simpl; [done|]. intros (h & ? & ?). eauto.
Qed.

(** The rows up to a sequence number are the first rows of a chain. *)
Lemma filter_prefix n p m rows :
  linked n p rows →
  ∃ rest, rows = List.filter (λ r, rseq r <=? m) rows ++ rest.
Proof.
  revert n p. induction rows as [|r rows IH]; intros n p; [by exists []|].
  intros Hl. pose proof Hl as (h & He & Hl'). simpl.
  destruct (Z.leb_spec (rseq r) m) as [Hle|Hgt].
  - destruct (IH _ _ Hl') as [rest Hrest]. exists rest. simpl. by f_equal.
  - exists (r :: rows). replace (List.filter _ rows) with (@nil Row); [done|]. symmetry.
    apply linked_sorted in Hl as [Hso _]. apply StronglySorted_inv in Hso as [_ Hlt].
    assert (Hlow : ∀ x, x ∈ rows → rseq r < rseq x).
    { intros x Hx. rewrite Forall_forall in Hlt. apply Hlt. by apply list_elem_of_fmap_2. }
    clear -Hlow Hgt. induction rows as [|r0 rows IH]; [done|]. simpl.
    pose proof (Hlow r0 (list_elem_of_here _ _)) as H0.
    destruct (Z.leb_spec (rseq r0) m); [lia|]. apply IH. intros x Hx. apply Hlow. by apply list_elem_of_further.
Qed.

(** DELETE FROM audit_logs WHERE sequence > m *)
Definition delete_after (m : Z) (t : Table) : Table :=
  filter (λ x, default m (Sequence x.2) ≤ m) t.

Lemma delete_after_lookup m t id r :
  delete_after m t !! id = Some r ↔
  t !! id = Some r ∧ default m (Sequence r) ≤ m.
Proof. unfold delete_after. by rewrite map_lookup_filter_Some. Qed.

(** Deleting the newest entries goes unnoticed: a table that passes from
    some entry on passes after the entries above any number are deleted, down
    to the empty table. *)
Theorem audit_truncation_undetected from to m t :
  1 ≤ from → from + Z.of_nat (length (range_rows from to t)) ≤ max_i64 →
  VerifyChain true from to t = (true, 0, None) →
  VerifyChain true from to (delete_after m t) = (true, 0, None).
Proof.
  intros Hf Hlen HV. apply VerifyChain_linked in HV as (prev & Hl & Hp); [|done..].
  set (L := range_rows from to t) in *.
  assert (HE : range_rows from to (delete_after m t) = List.filter (λ x, rseq x.2 <=? m) L).
  { apply range_rows_unique.
    - pose proof (linked_sorted _ _ _ Hl) as [Hso _].
      rewrite seq_of_rseq, (filter_snd (λ r, rseq r <=? m)).
      destruct (filter_prefix _ _ m _ Hl) as [rest E]. rewrite E, fmap_app in Hso.
      by apply StronglySorted_app_1_l in Hso.
    - intros [id r]. rewrite list_elem_of_In, List.filter_In, <-list_elem_of_In. simpl.
      rewrite delete_after_lookup. unfold L. split.
      + intros [[Hr Hin]%range_rows_In Hle]. simpl in *. split_and!; [done| |done].
        unfold in_range in Hin. unfold rseq in Hle. simpl in *. destruct (Sequence r); [|done]. simpl in *. go_bool. lia.
      + intros [[Hr Hle] Hin]. split; [by apply range_rows_complete|].
        unfold in_range in Hin. unfold rseq. simpl in *. destruct (Sequence r); [|done]. simpl in *. lia. }
  destruct (filter_prefix _ _ m _ Hl) as [rest E].
  apply VerifyChain_linked; [done|rewrite HE..].
  - pose proof (filter_length_le (λ x : UUID * Row, rseq x.2 <=? m) L). lia.
  - exists prev. rewrite (filter_snd (λ r, rseq r <=? m)). split; [by rewrite E in Hl; apply linked_app in Hl|].
    intros E1 Hne. apply Hp; [done|]. intros E'. by rewrite E' in Hne.
Qed.

(** A row that another writer left without a sequence number stops the
    log: ORDER BY sequence DESC reads it first, its NULL does not scan, and
    every call of LogAction fails, whatever else the table holds, until no
    such row is left.  PostgresAuditLogger.Log writes such rows. *)
Theorem audit_null_sequence_blocks t id r d wall newid userID actor action target det ov nv ip :
  t !! id = Some r → Sequence r = None →
  LogAction d wall newid userID actor action target det ov nv ip t = (Err ErrScan, t)
  ∧ (∀ file stamp written d' anchors,
       AnchorLatestEntry file stamp true written d' t anchors = (Err ErrScan, t, anchors))
  ∧ ∀ id' dbnow u a e eid o n ip',
      t !! id' = None →
      ∃ r', (Log DBOk id' dbnow u a e eid (Some o) (Some n) ip' t).2 = <[id' := r']> t ∧ Sequence r' = None.
Proof.
  intros Hr Hn. destruct (null_last t id r Hr Hn) as (id0 & r0 & Hlast & Hs0). split_and!.
  - unfold AuditLog.LogAction, next_link. by rewrite Hlast, Hs0.
  - intros. unfold AnchorLatestEntry. cbn [negb]. by rewrite Hlast, Hs0.
  - intros id' dbnow u a e eid o n ip' Hid. unfold Log. rewrite Hid. simpl. eexists. by split.
Qed.

(** With a batch size the scheduled verifier reads the same first entries
    on every run: what it reports does not depend on any entry beyond them. *)
Theorem audit_batch_never_advances batch up t t' :
  1 ≤ batch → batch < max_i64 →
  (∀ id r s, Sequence r = Some s → s ≤ batch → t !! id = Some r ↔ t' !! id = Some r) →
  StronglySorted Z.lt (seq_of <$> range_rows 1 batch t) →
  RunOnce HashData fmtTime batch up t = RunOnce HashData fmtTime batch up t'.
Proof.
  intros Hb Hm Ht Hso. unfold RunOnce. destruct (Z.ltb_spec 0 batch); [|lia].
  assert (1 +w batch -w 1 = batch) as ->.
  { rewrite (i64_id (1 + batch)) by (unfold in_i64, min_i64, max_i64 in *; lia).
    rewrite i64_id by (unfold in_i64, min_i64, max_i64 in *; lia). lia. }
  unfold AuditLog.VerifyChain. destruct up; [|done]. simpl. f_equal. f_equal. symmetry.
  apply range_rows_unique; [done|]. intros [id r]. split.
  - intros [Hr Hin]%range_rows_In. split; [|done]. simpl in *. unfold in_range in Hin. simpl in Hin.
    destruct (Sequence r) as [s|] eqn:Hs; [|done]. go_bool. by apply (Ht id r s).
  - intros [Hr Hin]. apply range_rows_complete; [|done]. simpl in *. unfold in_range in Hin. simpl in Hin.
    destruct (Sequence r) as [s|] eqn:Hs; [|done]. go_bool. by apply (Ht id r s).
Qed.
End Chain.

(** A newline in a field moves the border between fields: two entries with
    different actors and actions have one text, so one can be rewritten into
    the other. *)
Theorem audit_serialize_collision fmtTime seq ts target dHash prev :
  let x := String nl "ACTION:" in
  CanonicalSerialize fmtTime seq ts ("root" +:+ x +:+ "grant") "none" target dHash prev
  = CanonicalSerialize fmtTime seq ts "root" ("grant" +:+ x +:+ "none") target dHash prev.
Proof. reflexivity. Qed.

(** ** A concrete chain *)

Fixpoint to_bits (p : positive) : string :=
  match p with
  | xH => ""
  | xO p => String "0" (to_bits p)
  | xI p => String "1" (to_bits p)
  end.

Fixpoint of_bits (s : string) : option positive :=
  match s with
  | EmptyString => Some xH
  | String "0" s => xO <$> of_bits s
  | String "1" s => xI <$> of_bits s
  | _ => None
  end.

Lemma of_to_bits p : of_bits (to_bits p) = Some p.
Proof. induction p as [p IH|p IH|]; simpl; by rewrite ?IH. Qed.

(** Strings, and objects of strings; values are written in binary.  The column
    gives a text back with a space in front, and keeps "-0" as "0". *)
Abbreviation demo_json := (string + list (string * string))%type.

#[local] Instance demo_JSON : JSON demo_json := {
  unmarshal s := if decide (TrimSpace s = "{}") then Some (inr []) else of_bits (TrimSpace s) ≫= decode;
  marshal v := if decide (v = inr []) then "{}" else to_bits (encode v);
  of_map m := inr ((λ x, (x.1, match x.2 with inl s => s | inr _ => "" end)) <$> map_to_list m);
  to_map v := match v with inr l => Some (inl <$> list_to_map l) | inl _ => None end;
  of_string s := inl s;
  jsonb s := if decide (s = to_bits (encode (inl "-0" : demo_json))) then to_bits (encode (inl "0" : demo_json))
             else " " +:+ s;
}.

#[local] Instance demo_JSONLaws : JSONLaws demo_json.
Proof. split; [done|by vm_compute]. Qed.

Definition demo_detail : string := marshal (J := demo_json) (inr [("token"%string, "s3cret"%string)]).

Definition demo_log (n : Z) (actor : string) : op :=
  OLog DBOk (n * Second + 7) n (Some n) actor "login" "session" (DRaw demo_detail) None None None.

Definition demo_hash (s : string) : string := s.

(** Two entries; the same with the first redacted, which logs a third. *)
Definition demo_table : Table := execs demo_hash itoa [demo_log 1 "alice"; demo_log 2 "bob"] ∅.
Definition demo_redact : op :=
  ORedact (λ _ _, Some "note"%string) DBOk DBOk (9 * Second) 3 1 ["token"%string].
Definition demo_redacted : Table := exec demo_hash itoa demo_redact demo_table.

Example demo_redacted_rows :
  (λ x, (Sequence x.2, Redacted x.2)) <$> range_rows 1 9 demo_redacted
  = [(Some 1, true); (Some 2, false); (Some 3, false)].
Proof. vm_compute. reflexivity. Qed.

Lemma audit_log_verifies_witness :
  (jsonb (J := demo_json) demo_detail = demo_detail → False)
  ∧ VerifyChain demo_hash itoa true 1 max_i64 demo_redacted = (true, 0, None).
Proof.
  split; [vm_compute; discriminate|].
  apply (audit_log_verifies demo_hash itoa [demo_log 1 "alice"; demo_log 2 "bob"; demo_redact] 1 max_i64).
  - repeat apply Forall_cons_2; try apply Forall_nil_2; vm_compute; reflexivity.
  - vm_compute. reflexivity.
  - vm_compute. discriminate.
Defined.

Lemma audit_changed_detail_fails_witness :
  let det := DRaw (marshal (inl "-0"%string : demo_json)) in
  ∃ row, LogAction demo_hash itoa DBOk Second 1 None "eve" "login" "session" det None None None ∅
      = (Ok row, {[1 := row]})
    ∧ VerifyChain demo_hash itoa true 1 9 {[1 := row]} = (false, 1, Some (ErrDetailHash 1)).
Proof.
  intros det. eapply (audit_changed_detail_fails demo_hash itoa); [reflexivity|vm_compute; discriminate|lia].
Defined.

(** The tables before and after the redaction agree on entry 2. *)
Lemma audit_tamper_evident_witness :
  ∃ r1 r2, demo_table !! 2 = Some r1 ∧ demo_redacted !! 2 = Some r2 ∧ EntryHash r1 = EntryHash r2
    ∧ ∃ i1 i2 x1 x2, demo_table !! i1 = Some x1 ∧ demo_redacted !! i2 = Some x2 ∧ Sequence x1 = Some 1
        ∧ same_hashed x1 x2 ∧ Redacted x2 = true.
Proof.
  assert (Hclean : Forall (λ x : UUID * Row, clean_row x.2)
            (range_rows 1 2 demo_table ++ range_rows 1 2 demo_redacted))
    by (vm_compute; repeat constructor).
  assert (E1 : ∃ r1, demo_table !! 2 = Some r1) by (vm_compute; eexists; reflexivity).
  assert (E2 : ∃ r2, demo_redacted !! 2 = Some r2) by (vm_compute; eexists; reflexivity).
  destruct E1 as [r1 E1], E2 as [r2 E2].
  assert (Hh : (EntryHash <$> demo_table !! 2) = (EntryHash <$> demo_redacted !! 2)) by (vm_compute; reflexivity).
  assert (Hs1 : (Sequence <$> demo_table !! 2) = Some (Some 2)) by (vm_compute; reflexivity).
  assert (Hs2 : (Sequence <$> demo_redacted !! 2) = Some (Some 2)) by (vm_compute; reflexivity).
  rewrite E1, E2 in Hh. rewrite E1 in Hs1. rewrite E2 in Hs2. injection Hh as Hh. injection Hs1 as Hs1.
  injection Hs2 as Hs2. exists r1, r2. split; [exact E1|]. split; [exact E2|]. split; [exact Hh|].
  destruct (audit_tamper_evident demo_hash itoa (inj pretty) (λ a, itoa_one_line a) 2 demo_table demo_redacted 2 r1 2 r2)
    with (k := 1) as (i1 & i2 & x1 & x2 & H1 & H2 & Hk & Hx & _).
  all: try (vm_compute; reflexivity) || lia || assumption || (vm_compute; discriminate).
  - intros x y _ _. split; intros E; exact E.
  - intros x Hx. rewrite Forall_forall in Hclean. by apply Hclean.
  - exists i1, i2, x1, x2. split; [exact H1|]. split; [exact H2|]. split; [exact Hk|]. split; [exact Hx|].
    destruct Hx as (Hsx & _). rewrite Hk in Hsx. symmetry in Hsx.
    assert (Hall : Forall (λ x : UUID * Row, Sequence x.2 = Some 1 → Redacted x.2 = true)
              (map_to_list demo_redacted)) by (vm_compute; repeat constructor; discriminate).
    rewrite Forall_forall in Hall. apply (Hall (i2, x2)); [by apply elem_of_map_to_list|exact Hsx].
Defined.

Lemma audit_truncation_undetected_witness :
  VerifyChain demo_hash itoa true 1 max_i64 (delete_after 1 demo_redacted) = (true, 0, None)
  ∧ size (delete_after 1 demo_redacted) = 1%nat.
Proof.
  split; [|vm_compute; reflexivity].
  apply (audit_truncation_undetected demo_hash itoa 1 max_i64 1 demo_redacted);
    vm_compute; [discriminate|discriminate|reflexivity].
Defined.

(** Anybody's detail in a row that is flagged. *)
Definition forged (r : Row) : Row := redacted_row "forged" r.

Lemma audit_redaction_uncovered_witness :
  same_entries demo_table (alter forged 1 demo_table)
  ∧ VerifyChain demo_hash itoa true 1 2 (alter forged 1 demo_table) = (true, 0, None).
Proof.
  assert (Hs : same_entries demo_table (alter forged 1 demo_table)).
  { apply alter_same. intros r _. unfold same_entry. by split_and!. }
  split; [exact Hs|].
  apply (audit_redaction_uncovered demo_hash itoa 1 2 demo_table); [| |exact Hs|];
    vm_compute; [discriminate|discriminate|reflexivity].
Defined.

(** A log after one record of the other writer. *)
Definition demo_mixed : Table :=
  (Log DBOk 7 0 None "logout" "session" 7 (Some "null"%string) (Some "null"%string) None demo_table).2.

Lemma audit_null_sequence_blocks_witness :
  LogAction demo_hash itoa DBOk (5 * Second) 8 None "eve" "login" "session" DNil None None None demo_mixed
  = (Err ErrScan, demo_mixed).
Proof.
  assert (E : ∃ r, demo_mixed !! 7 = Some r ∧ Sequence r = None)
    by (vm_compute; eexists; split; reflexivity).
  destruct E as (r & Hr & Hs).
  exact (proj1 (audit_null_sequence_blocks demo_hash itoa demo_mixed 7 r DBOk (5 * Second) 8 None
    "eve" "login" "session" DNil None None None Hr Hs)).
Defined.

Lemma audit_batch_never_advances_witness :
  let t' := delete_after 1 demo_redacted in
  RunOnce demo_hash itoa 1 true demo_redacted = RunOnce demo_hash itoa 1 true t'.
Proof.
  intros t'. apply (audit_batch_never_advances demo_hash itoa 1 true demo_redacted t').
  - lia.
  - vm_compute. reflexivity.
  - intros id r s Hs Hle. unfold t'. rewrite delete_after_lookup, Hs. simpl. tauto.
  - vm_compute. repeat constructor.
Defined.
