(* ===== verification/Idempotency.v ===== *)
(** Idempotency keys (internal/middleware/idempotency.go, with the SQL of
    internal/repository/postgres/idempotency_repository.go and the route
    matching of internal/middleware/ratelimit_routes.go): the table
    [idempotency_keys], one request through the middleware, and any number of
    them together.

    The handler behind the middleware is its list of writes, or a panic; a
    statement ends in a [dbres]; the clock, whether the request's context is
    done, and the table as other requests leave it while this one waits are
    arguments. *)

From Stdlib Require Import Ascii.
From S2P Require Import Prelude Sql GoStrings.
Open Scope Z_scope.

(** ** Routes (ratelimit_routes.go) *)

Record RouteMatch := mkRoute { Method : string; Path : string }.

Definition splitPath (p : string) : list string :=
  let p := trimByte "/" p in
  if decide (p = "") then [] else splitByte "/" p.

Definition isPathWildcard (seg : string) : bool :=
  (2 <=? len seg) && bool_decide (String.get 0 seg = Some "{"%char)
  && bool_decide (String.get (pred (String.length seg)) seg = Some "}"%char).

Fixpoint matchSegs (pSegs pathSegs : list string) : bool :=
  match pSegs, pathSegs with
  | [], [] => true
  | seg :: pSegs, p :: pathSegs =>
      if isPathWildcard seg then if decide (p = "") then false else matchSegs pSegs pathSegs
      else if decide (seg = p) then matchSegs pSegs pathSegs else false
  | _, _ => false
  end.

Definition matchPathPattern (pattern path : string) : bool :=
  if decide (pattern = path) then true else matchSegs (splitPath pattern) (splitPath path).

Definition matchesRoute (routes : list RouteMatch) (method path : string) : bool :=
  existsb (λ rt, bool_decide (method = Method rt) && matchPathPattern (Path rt) path) routes.

Definition VaultMoneyPathIdempotencyRoutes : list RouteMatch :=
  [mkRoute "POST" "/api/v1/vaults/{id}/deposit";
   mkRoute "POST" "/api/v1/vaults/{id}/withdraw";
   mkRoute "POST" "/api/v1/vaults/{id}/harvest";
   mkRoute "POST" "/api/v1/vaults/{id}/rebalance";
   mkRoute "POST" "/api/v1/vault/rebalance"].

(** ** The store (idempotency_repository.go) *)

Inductive KeyStatus := InProgress | Completed.

#[export] Instance KeyStatus_eq_dec : EqDecision KeyStatus.
Proof. solve_decision. Defined.

(** A response: status, body and content type. *)
Record Response := mkResponse { Status : Z; Body : string; ContentType : string }.

(** A row, keyed by user and key. *)
Record Row := mkRow {
  request_fingerprint : string;
  r_status : KeyStatus;
  r_response : option Response;
  r_completed_at : option Time;
  r_expires_at : Time;
}.

Abbreviation Key := (UUID * string)%type.
Abbreviation Table := (gmap Key Row).

Record IdempotencyRecord := mkRecord {
  Fingerprint : string;
  RStatus : KeyStatus;
  ResponseStatus : Z;
  ResponseBody : string;
  ResponseContentType : string;
}.

Inductive StoreError := ErrIdempotencyKeyNotFound | ErrDB.

(** The columns as [Get] scans them: NULL reads as a zero value. *)
Definition scan (r : Row) : IdempotencyRecord :=
  match r_response r with
  | Some p => mkRecord (request_fingerprint r) (r_status r) (Status p) (Body p) (ContentType p)
  | None => mkRecord (request_fingerprint r) (r_status r) 0 "" ""
  end.

Definition Get (d : dbres) (k : Key) (t : Table) : result StoreError IdempotencyRecord :=
  if failed d then Err ErrDB
  else match t !! k with Some r => Ok (scan r) | None => Err ErrIdempotencyKeyNotFound end.

(** What Claim returns: [None] when the key was claimed. *)
Definition Claim (d1 d2 : dbres) (now : Time) (ttl : Duration) (k : Key) (fingerprint : string)
    (t : Table) : result StoreError (option IdempotencyRecord) * Table :=
  let expiresAt := timeAdd now ttl in
  match t !! k with
  | None =>
      (if failed d1 then Err ErrDB else Ok None,
       effect d1 t (<[k := mkRow fingerprint InProgress None None expiresAt]> t))
  | Some _ =>
      (if failed d1 then Err ErrDB
       else match Get d2 k t with Ok existing => Ok (Some existing) | Err e => Err e end, t)
  end.

Definition completed_row (p : Response) (dbnow : Time) (r : Row) : Row :=
  mkRow (request_fingerprint r) Completed (Some p) (Some dbnow) (r_expires_at r).

(** A statement under a context that is done does not run. *)
Definition Complete (done : bool) (d : dbres) (dbnow : Time) (k : Key) (p : Response) (t : Table)
    : bool * Table :=
  if done then (false, t) else (negb (failed d), effect d t (alter (completed_row p dbnow) k t)).

Definition in_progress (k : Key) (t : Table) : bool :=
  match t !! k with Some r => bool_decide (r_status r = InProgress) | None => false end.

Definition Release (d : dbres) (k : Key) (t : Table) : bool * Table :=
  (negb (failed d), effect d t (if in_progress k t then delete k t else t)).

Definition PurgeExpired (d : dbres) (dbnow : Time) (t : Table) : option Z * Table :=
  let t' := filter (λ x, ¬ r_expires_at x.2 < dbnow) t in
  (if failed d then None else Some (Z.of_nat (size t) - Z.of_nat (size t')), effect d t t').

(** ** The middleware (middleware/idempotency.go) *)

Definition maxIdempotencyBodyBytes : Z := 2 ^ 20.
Definition defaultIdempotencyTTL : Duration := 24 * Hour.
Definition concurrentWaitTotal : Duration := 2 * Second.
Definition concurrentWaitPoll : Duration := 100 * Millisecond.
Definition completeMaxRetries : nat := 3.

(** [done] and [d] are the state of the context and the end of the statement
    at each attempt. *)
Fixpoint complete_attempts (n : nat) (done : nat → bool) (d : nat → dbres) (dbnow : Time) (k : Key)
    (p : Response) (attempt : nat) (t : Table) : bool * Table :=
  match n with
  | O => (false, t)
  | S n =>
      if (0 <? Z.of_nat attempt) && done attempt then (false, t)
      else
        let '(ok, t) := Complete (done attempt) (d attempt) dbnow k p t in
        if ok then (true, t) else complete_attempts n done d dbnow k p (S attempt) t
  end.

Definition completeWithRetry (done : nat → bool) (d : nat → dbres) (dbnow : Time) (k : Key)
    (p : Response) (t : Table) : bool * Table :=
  complete_attempts completeMaxRetries done d dbnow k p 0 t.

Definition sep : ascii := "031".
Definition zero_byte : ascii := "000".

Definition scopedIdempotencyKey (method path clientKey : string) : string :=
  method +:+ " " +:+ path +:+ String sep clientKey.

(** [hash] is SHA-256 in hex. *)
Definition fingerprintRequest (hash : string → string) (method path body : string) : string :=
  hash (method +:+ String zero_byte (path +:+ String zero_byte body)).

(** What a handler does to its ResponseWriter. *)
Inductive write := WHeader (status : Z) | WBody (p : string) | WContentType (s : string).

(** The recorder: the status it keeps, whether the header is written, the body
    and the content type of the header map; and what the client has been
    sent, the content type being that of the map when the header goes out. *)
Record Recorder := mkRecorder {
  rec_status : Z; rec_wrote : bool; rec_body : string; rec_type : string; sent_type : option string;
}.

Definition newRecorder : Recorder := mkRecorder 200 false "" "" None.

Definition WriteHeader (status : Z) (w : Recorder) : Recorder :=
  if rec_wrote w then w
  else mkRecorder status true (rec_body w) (rec_type w) (Some (rec_type w)).

Definition do_write (w : Recorder) (x : write) : Recorder :=
  match x with
  | WHeader status => WriteHeader status w
  | WBody p =>
      let w := if rec_wrote w then w else WriteHeader 200 w in
      mkRecorder (rec_status w) (rec_wrote w) (rec_body w +:+ p) (rec_type w) (sent_type w)
  | WContentType s => mkRecorder (rec_status w) (rec_wrote w) (rec_body w) s (sent_type w)
  end.

Definition record_writes (ws : list write) : Recorder := foldl do_write newRecorder ws.

(** What is stored, and what the client got. *)
Definition recorded (ws : list write) : Response :=
  let w := record_writes ws in mkResponse (rec_status w) (rec_body w) (rec_type w).

Definition delivered (ws : list write) : Response :=
  let w := record_writes ws in
  mkResponse (rec_status w) (rec_body w) (default (rec_type w) (sent_type w)).

(** What a request comes to. *)
Inductive reply :=
| RPassed
| RError (status : Z)
| RReplayed (p : Response)
| RHandled (ws : list write)
| RPanicked.

Definition writeStoredResponse (rec : IdempotencyRecord) : reply :=
  let status := if ResponseStatus rec =? 0 then 200 else ResponseStatus rec in
  RReplayed (mkResponse status (ResponseBody rec) (ResponseContentType rec)).

(** The wait for a claim in progress: [clock] is read before each turn, and
    [polls] is what Get returns in it.  [None] is fuel that ran out. *)
Fixpoint wait (fuel : nat) (deadline : Time) (clock : nat → Time)
    (polls : nat → result StoreError IdempotencyRecord) (i : nat) : option reply :=
  match fuel with
  | O => None
  | S fuel =>
      if negb (clock i <? deadline) then Some (RError 425)
      else
        match polls i with
        | Err ErrIdempotencyKeyNotFound => Some (RError 425)
        | Err _ => wait fuel deadline clock polls (S i)
        | Ok rec =>
            match RStatus rec with
            | Completed => Some (writeStoredResponse rec)
            | InProgress => wait fuel deadline clock polls (S i)
            end
        end
  end.

Definition serveExisting (fuel : nat) (start : Time) (clock : nat → Time)
    (polls : nat → result StoreError IdempotencyRecord) (fingerprint : string)
    (existing : IdempotencyRecord) : option reply :=
  if negb (bool_decide (Fingerprint existing = fingerprint)) then Some (RError 409)
  else if decide (RStatus existing = Completed) then Some (writeStoredResponse existing)
  else wait fuel (timeAdd start concurrentWaitTotal) clock polls 0.

(** A request: [user] is [None] without an authenticated user, [Some None]
    for one whose id is no UUID; [body] is what reading at most one byte more
    than the limit returns. *)
Record Request := mkRequest {
  q_method : string; q_path : string;
  q_user : option (option UUID);
  q_key : string;
  q_body : option string;
}.

Inductive handler_end := HReturns (ws : list write) | HPanics.

(** What one request meets. *)
Record Env := mkEnv {
  e_insert : dbres; e_select : dbres; e_now : Time; e_start : Time; e_clock : nat → Time;
  e_polls : nat → result StoreError IdempotencyRecord;
  e_handler : handler_end;
  e_done : nat → bool; e_complete : nat → dbres; e_dbnow : Time; e_release : dbres;
}.

(** A poll sleeps [concurrentWaitPoll], so the wait has at most twenty turns. *)
Definition wait_fuel : nat := 21.

(** The reply, whether the handler ran, and the table. *)
Definition IdempotencyMiddleware (hash : string → string) (routes : list RouteMatch) (env : Env)
    (q : Request) (t : Table) : option reply * bool * Table :=
  if negb (matchesRoute routes (q_method q) (q_path q)) then (Some RPassed, true, t)
  else
    match q_user q with
    | None | Some None => (Some (RError 500), false, t)
    | Some (Some userID) =>
        if decide (q_key q = "") then (Some (RError 400), false, t)
        else
          let k := (userID, scopedIdempotencyKey (q_method q) (q_path q) (q_key q)) in
          match q_body q with
          | None => (Some (RError 400), false, t)
          | Some body =>
              if maxIdempotencyBodyBytes <? len body then (Some (RError 413), false, t)
              else
                let fingerprint := fingerprintRequest hash (q_method q) (q_path q) body in
                let '(r, t) := Claim (e_insert env) (e_select env) (e_now env) defaultIdempotencyTTL
                                 k fingerprint t in
                match r with
                | Err _ => (Some (RError 500), false, t)
                | Ok (Some existing) =>
                    (serveExisting wait_fuel (e_start env) (e_clock env) (e_polls env) fingerprint existing,
                     false, t)
                | Ok None =>
                    match e_handler env with
                    | HPanics => (Some RPanicked, true, (Release (e_release env) k t).2)
                    | HReturns ws =>
                        let '(ok, t) := completeWithRetry (e_done env) (e_complete env) (e_dbnow env) k
                                          (recorded ws) t in
                        (Some (RHandled ws), true, if ok then t else (Release (e_release env) k t).2)
                    end
                end
          end
    end.

(** ** One request *)

Section Wait.
Context (clock : nat → Time) (polls : nat → result StoreError IdempotencyRecord).
(** Each turn sleeps before it polls. *)
Context (sleeps : ∀ i, clock i + concurrentWaitPoll ≤ clock (S i)).

Lemma clock_after i j : clock i + concurrentWaitPoll * Z.of_nat j ≤ clock (i + j)%nat.
Proof.
  induction j as [|j IH]; [rewrite Nat.add_0_r; lia|].
  rewrite Nat.add_succ_r. specialize (sleeps (i + j)%nat). lia.
Qed.

(** A wait with fuel for the turns left ends. *)
Lemma wait_ends deadline fuel i :
  deadline ≤ clock i + concurrentWaitPoll * (Z.of_nat fuel - 1) → (0 < fuel)%nat →
  ∃ rep, wait fuel deadline clock polls i = Some rep.
Proof.
  revert i. induction fuel as [|fuel IH]; intros i Hd Hf; [lia|]. simpl.
  destruct (Z.ltb_spec (clock i) deadline) as [Hlt|]; cbn [negb]; [|eauto].
  assert (Hnext : ∃ rep, wait fuel deadline clock polls (S i) = Some rep).
  { apply IH; [specialize (sleeps i)|]; [lia|]. destruct fuel; [|lia].
    unfold concurrentWaitPoll, Millisecond, Microsecond, Nanosecond in *. lia. }
  destruct (polls i) as [rec|[]]; [destruct (RStatus rec)|..]; eauto.
Qed.

(** What a wait ends in: it replays the first record it finds completed, or
    gives up, having found none before. *)
Lemma wait_outcome deadline fuel i rep :
  wait fuel deadline clock polls i = Some rep →
  (rep = RError 425 ∨ ∃ j rec, polls j = Ok rec ∧ RStatus rec = Completed ∧ rep = writeStoredResponse rec).
Proof.
  revert i. induction fuel as [|fuel IH]; intros i; simpl; [done|].
  destruct (negb (clock i <? deadline)); [intros [= <-]; by left|].
  destruct (polls i) as [rec|[]] eqn:Hp; [destruct (RStatus rec) eqn:Hr| |];
    [apply IH| |intros [= <-]; by left|apply IH].
  intros [= <-]. right. eauto.
Qed.
End Wait.

(** Every request is answered: the wait for a concurrent request ends
    within its twenty polls, on any clock that advances at least the length of
    each sleep, whatever the polls return; and what a duplicate is answered
    with is a conflict for another request's fingerprint, a stored response of
    a completed record, or 425. *)
Theorem idem_wait_terminates hash routes env q t :
  (∀ i, e_clock env i + concurrentWaitPoll ≤ e_clock env (S i)) → e_start env ≤ e_clock env 0 →
  ∃ rep ran t', IdempotencyMiddleware hash routes env q t = (Some rep, ran, t')
    ∧ ∀ p, rep = RReplayed p →
        ran = false ∧ t' = t ∧ ∃ rec, RStatus rec = Completed ∧ writeStoredResponse rec = rep
          ∧ ((∃ k r, t !! k = Some r ∧ rec = scan r) ∨ ∃ j, e_polls env j = Ok rec).
Proof.
  intros Hs H0. unfold IdempotencyMiddleware.
  destruct (negb (matchesRoute routes (q_method q) (q_path q))); [by do 3 eexists|].
  destruct (q_user q) as [[userID|]|]; [|by do 3 eexists..]. case_decide; [by do 3 eexists|].
  destruct (q_body q) as [body|]; [|by do 3 eexists].
  destruct (maxIdempotencyBodyBytes <? len body); [by do 3 eexists|].
  set (k := (userID, _)). set (fp := fingerprintRequest _ _ _ _).
  destruct (Claim _ _ _ _ _ _ t) as [r t1] eqn:HC. destruct r as [[existing|]|e]; [|clear HC|by do 3 eexists].
  - assert (Ht : t1 = t ∧ ∃ r, t !! k = Some r ∧ existing = scan r).
    { unfold Claim in HC. destruct (t !! k) as [r|] eqn:Hk; [|by destruct (failed _)].
      injection HC as HC <-. split; [done|]. exists r. split; [done|].
      destruct (failed _); [done|]. unfold Get in HC. rewrite Hk in HC. destruct (failed _); [done|congruence]. }
    destruct Ht as [-> (r & Hk & ->)]. unfold serveExisting.
    destruct (negb _); [by do 3 eexists|]. case_decide as Hst.
    + do 3 eexists. split; [done|]. intros p Hp. split_and!; [done..|]. exists (scan r). eauto 10.
    + destruct (wait_ends (e_clock env) (e_polls env) Hs
        (timeAdd (e_start env) concurrentWaitTotal) wait_fuel 0) as [rep Hrep].
      * unfold timeAdd, concurrentWaitTotal, concurrentWaitPoll, wait_fuel, Second, Millisecond, Microsecond, Nanosecond. lia.
      * unfold wait_fuel. lia.
      * exists rep, false, t. split; [by rewrite Hrep|]. intros p ->. split_and!; [done..|].
        apply wait_outcome in Hrep as [[=]|(j & rec & Hj & Hr & Hp)]. eauto 10.
  - destruct (e_handler env) as [ws|]; [|by do 3 eexists].
    destruct (completeWithRetry _ _ _ _ _ _) as [ok t2]. by do 3 eexists.
Qed.

(** ** What is stored *)

(** No content type is set once the header is out. *)
Fixpoint types_first (wrote : bool) (ws : list write) : bool :=
  match ws with
  | [] => true
  | WContentType _ :: ws => negb wrote && types_first wrote ws
  | (WHeader _ | WBody _) :: ws => types_first true ws
  end.

Lemma recorder_types w ws :
  types_first (rec_wrote w) ws = true →
  (if rec_wrote w then sent_type w = Some (rec_type w) else sent_type w = None) →
  let w' := foldl do_write w ws in
  if rec_wrote w' then sent_type w' = Some (rec_type w') else sent_type w' = None.
Proof.
  revert w. induction ws as [|x ws IH]; intros w Hw Hs; [done|]. simpl in *. apply IH.
  - destruct x as [st|p|ct]; simpl in *; unfold WriteHeader.
    + by destruct (rec_wrote w) eqn:E; simpl; rewrite ?E.
    + by destruct (rec_wrote w) eqn:E; simpl; rewrite ?E.
    + by apply andb_true_iff in Hw as [_ Hw].
  - destruct x as [st|p|ct]; simpl in *; unfold WriteHeader.
    + destruct (rec_wrote w) eqn:E; simpl; rewrite ?E; done.
    + destruct (rec_wrote w) eqn:E; simpl; rewrite ?E; done.
    + apply andb_true_iff in Hw as [Hw _]. apply negb_true_iff in Hw. by rewrite Hw in *.
Qed.

(** What a retry is sent is what the first caller was sent: the response a
    handler's writes are recorded as is the response the client received, if
    the handler sets the content type before it writes; storing it under the
    key and reading it back replays exactly it. *)
Theorem idem_replay_roundtrip ws k fp t dbnow r :
  types_first false ws = true → Status (recorded ws) ≠ 0 →
  t !! k = Some r → request_fingerprint r = fp →
  recorded ws = delivered ws
  ∧ ∃ t' rec, Complete false DBOk dbnow k (recorded ws) t = (true, t')
      ∧ Get DBOk k t' = Ok rec ∧ Fingerprint rec = fp ∧ RStatus rec = Completed
      ∧ writeStoredResponse rec = RReplayed (delivered ws).
Proof.
  intros Hty Hst Hk Hfp.
  assert (Heq : recorded ws = delivered ws).
  { unfold recorded, delivered, record_writes. pose proof (recorder_types newRecorder ws Hty eq_refl) as Hs.
    cbn zeta in Hs |- *. f_equal. destruct (rec_wrote (foldl _ _ _)); by rewrite Hs. }
  split; [done|]. rewrite <-Heq. destruct (recorded ws) as [st body ct]. simpl in Hst.
  unfold Complete. simpl. do 2 eexists. split; [done|].
  unfold Get. simpl. rewrite lookup_alter_eq, Hk. simpl. split; [done|]. unfold scan. simpl.
  split_and!; [done|done|]. unfold writeStoredResponse. simpl. by destruct (Z.eqb_spec st 0).
Qed.

(** ** What a key and a fingerprint identify *)

Lemma method_split m1 m2 p1 p2 :
  str_all (λ c, bool_decide (c ≠ " "%char)) m1 = true → str_all (λ c, bool_decide (c ≠ " "%char)) m2 = true →
  m1 +:+ " " +:+ p1 = m2 +:+ " " +:+ p2 → m1 = m2 ∧ p1 = p2.
Proof. apply split_at_sep. Qed.

(** A stored key and a fingerprint identify the request: two requests of a
    user whose scoped keys and fingerprints agree have the same method, path,
    client key and body.  A method is a token without spaces and a header
    value has no control bytes; paths and bodies are arbitrary bytes; SHA-256
    does not collide on the two. *)
Theorem idem_same_request hash m1 m2 p1 p2 k1 k2 b1 b2 :
  str_all (λ c, bool_decide (c ≠ " "%char)) m1 = true → str_all (λ c, bool_decide (c ≠ " "%char)) m2 = true →
  str_all (λ c, bool_decide (c ≠ sep)) k1 = true → str_all (λ c, bool_decide (c ≠ sep)) k2 = true →
  (let x1 := m1 +:+ String zero_byte (p1 +:+ String zero_byte b1) in
   let x2 := m2 +:+ String zero_byte (p2 +:+ String zero_byte b2) in hash x1 = hash x2 → x1 = x2) →
  scopedIdempotencyKey m1 p1 k1 = scopedIdempotencyKey m2 p2 k2 →
  fingerprintRequest hash m1 p1 b1 = fingerprintRequest hash m2 p2 b2 →
  m1 = m2 ∧ p1 = p2 ∧ k1 = k2 ∧ b1 = b2.
Proof.
  intros Hm1 Hm2 Hk1 Hk2 Hcol Hkey Hfp. unfold scopedIdempotencyKey in Hkey.
  assert (E : (m1 +:+ " " +:+ p1) +:+ String sep k1 = (m2 +:+ " " +:+ p2) +:+ String sep k2)
    by (by rewrite <-!string_app_assoc).
  apply split_at_last in E as [E ->]; [|done..]. apply method_split in E as [-> ->]; [|done..].
  apply Hcol in Hfp. split_and!; [done..|].
  apply (inj (String.append m2)) in Hfp. injection Hfp as Hfp.
  apply (inj (String.append p2)) in Hfp. by injection Hfp.
Qed.

(** ** Many requests

    A call that owns a claim is running its handler, or has its response and
    is completing.  The events are what happened to a key: its handler was
    started with a fingerprint, returned a response, its row was removed, a
    stored response was sent to a request with a fingerprint. *)

Inductive Phase := PRunning (k : Key) (fp : string) | PDone (k : Key) (fp : string) (p : Response).

Definition phase_key (ph : Phase) : Key := match ph with PRunning k _ | PDone k _ _ => k end.
Definition phase_fp (ph : Phase) : string := match ph with PRunning _ fp | PDone _ fp _ => fp end.

Inductive event :=
| EExec (k : Key) (fp : string)
| EEnd (k : Key) (fp : string) (p : Response)
| EDrop (k : Key)
| EReplay (k : Key) (fp : string) (p : Response).

Record Sys := mkSys { tbl : Table; live : gmap nat Phase; log : list event }.

Definition drops (t t' : Table) : list event := EDrop <$> (map_to_list (t ∖ t')).*1.

Inductive step (s : Sys) : Sys → Prop :=
| step_claim n d1 d2 now k fp r t' :
    live s !! n = None →
    Claim d1 d2 now defaultIdempotencyTTL k fp (tbl s) = (r, t') →
    step s (mkSys t'
              (match r with Ok None => <[n := PRunning k fp]> (live s) | _ => live s end)
              (match r with Ok None => EExec k fp :: log s | _ => log s end))
| step_replay k fp d rec p :
    Get d k (tbl s) = Ok rec → Fingerprint rec = fp → RStatus rec = Completed →
    writeStoredResponse rec = RReplayed p →
    step s (mkSys (tbl s) (live s) (EReplay k fp p :: log s))
| step_return n k fp p :
    live s !! n = Some (PRunning k fp) → Status p ≠ 0 →
    step s (mkSys (tbl s) (<[n := PDone k fp p]> (live s)) (EEnd k fp p :: log s))
| step_complete n k fp p done d dbnow ok t' :
    live s !! n = Some (PDone k fp p) →
    Complete done d dbnow k p (tbl s) = (ok, t') →
    step s (mkSys t' (if ok then delete n (live s) else live s) (log s))
| step_release n ph d :
    live s !! n = Some ph →
    step s (mkSys (Release d (phase_key ph) (tbl s)).2 (delete n (live s))
              (drops (tbl s) (Release d (phase_key ph) (tbl s)).2 ++ log s))
| step_crash n :
    step s (mkSys (tbl s) (delete n (live s)) (log s))
| step_purge d dbnow :
    step s (mkSys (PurgeExpired d dbnow (tbl s)).2 (live s)
              (drops (tbl s) (PurgeExpired d dbnow (tbl s)).2 ++ log s)).

Definition init : Sys := mkSys ∅ ∅ [].

Definition is_exec (k : Key) (e : event) : bool :=
  match e with EExec k' _ => bool_decide (k' = k) | _ => false end.
Definition is_drop (k : Key) (e : event) : bool :=
  match e with EDrop k' => bool_decide (k' = k) | _ => false end.
Definition count (f : event → bool) (l : list event) : Z := Z.of_nat (length (List.filter f l)).

Lemma count_events_cons f e l : count f (e :: l) = (if f e then 1 else 0) + count f l.
Proof. unfold count. simpl. destruct (f e); simpl; lia. Qed.

Lemma count_app f l1 l2 : count f (l1 ++ l2) = count f l1 + count f l2.
Proof. unfold count. rewrite List.filter_app, length_app. lia. Qed.

Lemma count_nonneg f l : 0 ≤ count f l.
Proof. unfold count. lia. Qed.

Definition row_count (k : Key) (t : Table) : Z := if decide (is_Some (t !! k)) then 1 else 0.

Lemma drops_exec t t' k : count (is_exec k) (drops t t') = 0.
Proof.
  unfold drops, count. induction (map_to_list (t ∖ t')).*1 as [|x l IH]; [done|]. exact IH.
Qed.

(** The rows a removal drops are counted once each. *)
Lemma drops_drop t t' k : t' ⊆ t → count (is_drop k) (drops t t') = row_count k t - row_count k t'.
Proof.
  intros Hsub. unfold drops.
  assert (Hcount : ∀ l : list Key, NoDup l →
    count (is_drop k) (EDrop <$> l) = if decide (k ∈ l) then 1 else 0).
  { induction l as [|x l IH]; intros Hnd; [by rewrite decide_False by set_solver|].
    apply NoDup_cons in Hnd as [Hx Hnd]. rewrite fmap_cons, count_events_cons, IH by done. simpl.
    destruct (bool_decide_reflect (x = k)) as [->|Hne].
    - rewrite decide_False by done. by rewrite decide_True by set_solver.
    - destruct (decide (k ∈ l)); [by rewrite decide_True by set_solver|by rewrite decide_False by set_solver]. }
  rewrite Hcount by apply NoDup_fst_map_to_list. unfold row_count.
  assert (Hin : k ∈ (map_to_list (t ∖ t')).*1 ↔ is_Some (t !! k) ∧ t' !! k = None).
  { rewrite list_elem_of_fmap. split.
    - intros ([k' r] & -> & Hr). apply elem_of_map_to_list, lookup_difference_Some in Hr as [? ?]. simpl. eauto.
    - intros [[r Hr] Hn]. exists (k, r). split; [done|]. apply elem_of_map_to_list, lookup_difference_Some. done. }
  destruct (t' !! k) as [r'|] eqn:E.
  - rewrite (decide_True (P := is_Some (Some r'))) by done.
    rewrite decide_False by (rewrite Hin; naive_solver).
    rewrite decide_True; [lia|]. exists r'. by eapply lookup_weaken.
  - rewrite (decide_False (P := is_Some None)) by (by intros [? ?]).
    destruct (decide (is_Some (t !! k))); [rewrite decide_True by by apply Hin|
      rewrite decide_False by (rewrite Hin; naive_solver)]; lia.
Qed.

Lemma effect_cases {A} (d : dbres) (t t' : A) : effect d t t' = t ∨ effect d t t' = t'.
Proof. destruct d as [|[]]; simpl; auto. Qed.

Lemma Release_subseteq d k t : (Release d k t).2 ⊆ t.
Proof.
  unfold Release. simpl. destruct (effect_cases d t (if in_progress k t then delete k t else t)) as [->| ->]; [done|].
  destruct (in_progress k t); [apply delete_subseteq|done].
Qed.

Lemma PurgeExpired_subseteq d dbnow t : (PurgeExpired d dbnow t).2 ⊆ t.
Proof.
  unfold PurgeExpired. simpl. set (t' := filter _ t). destruct (effect_cases d t t') as [->| ->]; [done|].
  apply map_filter_subseteq.
Qed.

Lemma Claim_row d1 d2 now ttl k fp t r t' :
  Claim d1 d2 now ttl k fp t = (r, t') →
  (t' = t ∧ r ≠ Ok None)
  ∨ t !! k = None ∧ t' = <[k := mkRow fp InProgress None None (timeAdd now ttl)]> t.
Proof.
  unfold Claim. destruct (t !! k) eqn:Hk.
  - intros [= <- <-]. left. split; [done|]. destruct (failed d1); [done|]. by destruct (Get d2 k t).
  - destruct d1 as [|[]]; simpl; intros [= <- <-]; [by right|by right|by left].
Qed.

(** C23: Concurrent and repeated requests, crashes, lost statements and purges:
    the handler of a key is started at most once for each time its row has
    been removed, and once more.  As every prefix of a history is a history,
    between two runs of the handler under one key its row was removed: by the
    purge, or by the release of a call whose handler panicked or whose
    response could not be stored. *)
Theorem idem_executes_once s k :
  rtc step init s → count (is_exec k) (log s) ≤ count (is_drop k) (log s) + 1.
Proof.
  intros Hr.
  assert (Hinv : ∀ s, rtc step init s →
    count (is_exec k) (log s) ≤ count (is_drop k) (log s) + row_count k (tbl s)).
  { clear s Hr. apply rtc_ind_r.
    - unfold row_count, count. simpl. by rewrite decide_False by (by intros [? ?]).
    - intros s s' _ Hst IH. destruct Hst; simpl.
      + apply Claim_row in H0 as [[-> Hne]|[Hk ->]].
        { by destruct r as [[?|]|]. }
        unfold row_count in *. destruct (decide (k0 = k)) as [->|Hne].
        * rewrite (decide_False (P := is_Some (tbl s !! k))) in IH by (rewrite Hk; by intros [? ?]).
          rewrite decide_True by (rewrite lookup_insert_eq; eauto).
          destruct r as [[?|]|]; rewrite ?count_events_cons; simpl; rewrite ?bool_decide_eq_true_2 by done; lia.
        * rewrite lookup_insert_ne by done.
          destruct r as [[?|]|]; rewrite ?count_events_cons; simpl; rewrite ?bool_decide_eq_false_2 by done; lia.
      + by rewrite !count_events_cons.
      + by rewrite !count_events_cons.
      + unfold Complete in H0. destruct done; [by simplify_eq|]. injection H0 as _ <-.
        destruct (effect_cases d (tbl s) (alter (completed_row p dbnow) k0 (tbl s))) as [->| ->]; [done|].
        unfold row_count in *. destruct (decide (k0 = k)) as [->|Hne].
        * rewrite lookup_alter_eq. destruct (tbl s !! k); [|done].
          repeat case_decide; first [done|exfalso; by eauto].
        * by rewrite lookup_alter_ne.
      + rewrite !count_app, drops_exec, drops_drop by apply Release_subseteq. lia.
      + done.
      + rewrite !count_app, drops_exec, drops_drop by apply PurgeExpired_subseteq. lia. }
  pose proof (Hinv s Hr) as Hc. unfold row_count in Hc. destruct (decide _); lia.
Qed.

(** *** Stored responses *)

(** Handlers finish before their row expires: no live call has lost its row. *)
Definition in_time (s : Sys) : Prop :=
  ∀ n ph, live s !! n = Some ph → is_Some (tbl s !! phase_key ph).

Definition produced (l : list event) (k : Key) (fp : string) (p : Response) : Prop :=
  EEnd k fp p ∈ l ∧ EExec k fp ∈ l ∧ Status p ≠ 0.

Definition stored (s : Sys) : Prop :=
  (∀ n ph, live s !! n = Some ph →
     EExec (phase_key ph) (phase_fp ph) ∈ log s
     ∧ ∃ r, tbl s !! phase_key ph = Some r ∧ request_fingerprint r = phase_fp ph)
  ∧ (∀ n1 n2 ph1 ph2, live s !! n1 = Some ph1 → live s !! n2 = Some ph2 →
       phase_key ph1 = phase_key ph2 → n1 = n2)
  ∧ (∀ n k fp p, live s !! n = Some (PDone k fp p) → produced (log s) k fp p)
  ∧ (∀ k r, tbl s !! k = Some r → r_status r = Completed →
       ∃ p, r_response r = Some p ∧ produced (log s) k (request_fingerprint r) p)
  ∧ (∀ k fp p, EReplay k fp p ∈ log s → produced (log s) k fp p).

Lemma produced_mono l l' k fp p : produced l k fp p → produced (l' ++ l) k fp p.
Proof. unfold produced. rewrite !elem_of_app. tauto. Qed.

Lemma writeStored_completed r p q :
  r_response r = Some p → Status p ≠ 0 → writeStoredResponse (scan r) = RReplayed q → q = p.
Proof.
  intros Hp Hst. unfold writeStoredResponse, scan. rewrite Hp. simpl.
  destruct (Z.eqb_spec (Status p) 0); [done|]. intros [= <-]. by destruct p.
Qed.

(** Removing rows of no live call. *)
Lemma stored_subset s t' l' lv :
  stored s → t' ⊆ tbl s → lv ⊆ live s → (∀ e k fp p, e ∈ l' → e ≠ EReplay k fp p) →
  (∀ n ph, lv !! n = Some ph → is_Some (t' !! phase_key ph)) →
  stored (mkSys t' lv (l' ++ log s)).
Proof.
  intros (S1 & S2 & S3 & S4 & S5) Hsub Hlv Hl' Hin. split_and!; simpl.
  - intros n ph Hn. destruct (S1 n ph) as (He & r & Hr & Hfp); [by eapply lookup_weaken|].
    split; [apply elem_of_app; by right|]. destruct (Hin n ph Hn) as [r' Hr'].
    exists r'. split; [done|]. pose proof (lookup_weaken _ _ _ _ Hr' Hsub). congruence.
  - intros n1 n2 ph1 ph2 H1 H2. apply S2; by eapply lookup_weaken.
  - intros n k fp p Hn. apply produced_mono, (S3 n). by eapply lookup_weaken.
  - intros k r Hr Hc. destruct (S4 k r) as (p & ? & ?); [by eapply lookup_weaken|done|].
    exists p. split; [done|]. by apply produced_mono.
  - intros k fp p [Hl|Hl]%elem_of_app; [by apply (Hl' _ k fp p) in Hl|]. by apply produced_mono, S5.
Qed.

Lemma drops_not_replay t t' e k fp p : e ∈ drops t t' → e ≠ EReplay k fp p.
Proof. unfold drops. by intros (x & -> & _)%list_elem_of_fmap. Qed.

Lemma stored_claim s n d1 d2 now k fp r t' :
  stored s → live s !! n = None →
  Claim d1 d2 now defaultIdempotencyTTL k fp (tbl s) = (r, t') →
  stored (mkSys t'
    (match r with Ok None => <[n := PRunning k fp]> (live s) | _ => live s end)
    (match r with Ok None => EExec k fp :: log s | _ => log s end)).
Proof.
  intros Hs Hn HC. apply Claim_row in HC as [[-> Hne]|[Hk ->]].
  { destruct Hs as (S1 & S2 & S3 & S4 & S5). destruct r as [[?|]|]; by split_and!. }
  set (row := mkRow fp InProgress None None _).
  assert (Hother : ∀ n' ph, live s !! n' = Some ph → phase_key ph ≠ k).
  { intros n' ph Hn' E. destruct Hs as (S1 & _). destruct (S1 n' ph Hn') as (_ & r' & Hr' & _). congruence. }
  assert (Hbase : stored (mkSys (<[k := row]> (tbl s)) (live s) (log s))).
  { destruct Hs as (S1 & S2 & S3 & S4 & S5). split_and!; simpl; try done.
    - intros n' ph Hn'. destruct (S1 n' ph Hn') as (He & r' & Hr' & Hfp). split; [done|].
      exists r'. rewrite lookup_insert_ne; [done|]. intros E. by apply (Hother n' ph).
    - intros k' r' [[<- <-]|[_ Hr']]%lookup_insert_Some; [done|by apply S4]. }
  destruct r as [[?|]|]; [done| |done]. destruct Hbase as (B1 & B2 & B3 & B4 & B5). simpl in *.
  assert (Hmono : ∀ k' fp' p, produced (log s) k' fp' p → produced (EExec k fp :: log s) k' fp' p)
    by (intros k' fp' p; apply (produced_mono _ [_])).
  split_and!; simpl.
  - intros n' ph [[<- <-]|[_ Hn']]%lookup_insert_Some; simpl.
    + split; [apply list_elem_of_here|]. exists row. by rewrite lookup_insert_eq.
    + destruct (B1 n' ph Hn') as (He & ?). split; [by apply list_elem_of_further|done].
  - intros n1 n2 ph1 ph2 [[<- <-]|[N1 H1]]%lookup_insert_Some [[<- <-]|[N2 H2]]%lookup_insert_Some E; simpl in E.
    + done.
    + exfalso. by apply (Hother n2 ph2).
    + exfalso. by apply (Hother n1 ph1).
    + by eapply B2.
  - intros n' k' fp' p [[<- [=]]|[_ Hn']]%lookup_insert_Some. by apply Hmono, (B3 n').
  - intros k' r' Hr' Hc. destruct (B4 k' r' Hr' Hc) as (p & ? & ?). exists p. auto.
  - intros k' fp' p [[=]|Hin]%elem_of_cons. by apply Hmono, B5.
Qed.

Lemma stored_return s n k fp p :
  stored s → live s !! n = Some (PRunning k fp) → Status p ≠ 0 →
  stored (mkSys (tbl s) (<[n := PDone k fp p]> (live s)) (EEnd k fp p :: log s)).
Proof.
  intros (S1 & S2 & S3 & S4 & S5) Hn Hst.
  assert (Hmono : ∀ k' fp' p', produced (log s) k' fp' p' → produced (EEnd k fp p :: log s) k' fp' p')
    by (intros k' fp' p'; apply (produced_mono _ [_])).
  assert (Hback : ∀ n' ph, <[n := PDone k fp p]> (live s) !! n' = Some ph →
    ∃ ph0, live s !! n' = Some ph0 ∧ phase_key ph0 = phase_key ph ∧ phase_fp ph0 = phase_fp ph).
  { intros n' ph [[<- <-]|[_ Hn']]%lookup_insert_Some; [by exists (PRunning k fp)|by exists ph]. }
  split_and!; simpl.
  - intros n' ph (ph0 & Hn' & <- & <-)%Hback. destruct (S1 n' ph0 Hn') as (He & ?).
    split; [by apply list_elem_of_further|done].
  - intros n1 n2 ph1 ph2 (q1 & H1 & <- & _)%Hback (q2 & H2 & <- & _)%Hback. by apply S2.
  - intros n' k' fp' p' [[<- [= <- <- <-]]|[_ Hn']]%lookup_insert_Some; [|by apply Hmono, (S3 n')].
    destruct (S1 n _ Hn) as (He & _). split_and!; [apply list_elem_of_here|by apply list_elem_of_further|done].
  - intros k' r' Hr' Hc. destruct (S4 k' r' Hr' Hc) as (p' & ? & ?). exists p'. auto.
  - intros k' fp' p' [[=]|Hin]%elem_of_cons. by apply Hmono, S5.
Qed.

Lemma stored_complete s n k fp p done d dbnow ok t' :
  stored s → live s !! n = Some (PDone k fp p) → Complete done d dbnow k p (tbl s) = (ok, t') →
  stored (mkSys t' (if ok then delete n (live s) else live s) (log s)).
Proof.
  intros Hs Hn HC.
  assert (Ht : t' = tbl s ∨ t' = alter (completed_row p dbnow) k (tbl s)).
  { unfold Complete in HC. destruct done; [injection HC as _ <-; by left|]. injection HC as _ <-. apply effect_cases. }
  assert (Hbase : stored (mkSys t' (live s) (log s))).
  { destruct Ht as [->| ->]; [by destruct s|]. destruct Hs as (S1 & S2 & S3 & S4 & S5).
    split_and!; simpl; try done.
    - intros n' ph Hn'. destruct (S1 n' ph Hn') as (He & r & Hr & Hfp). split; [done|].
      destruct (decide (k = phase_key ph)) as [->|Hne].
      + exists (completed_row p dbnow r). by rewrite lookup_alter_eq, Hr.
      + exists r. by rewrite lookup_alter_ne.
    - intros k' r'. destruct (decide (k = k')) as [<-|Hne]; [|rewrite lookup_alter_ne by done; apply S4].
      rewrite lookup_alter_eq. destruct (S1 n _ Hn) as (_ & r & Hr & Hfp). simpl in Hr, Hfp.
      rewrite Hr. intros [= <-] _. exists p. split; [done|]. simpl. rewrite Hfp. by apply (S3 n). }
  destruct ok; [|done]. apply (stored_subset (mkSys t' (live s) (log s)) t' [] (delete n (live s))); simpl.
  - done.
  - done.
  - apply delete_subseteq.
  - set_solver.
  - intros n' ph [_ Hn']%lookup_delete_Some. destruct Hbase as (B1 & _).
    destruct (B1 n' ph Hn') as (_ & r & Hr & _). eauto.
Qed.

Lemma step_stored s s' : stored s → step s s' → in_time s' → stored s'.
Proof.
  intros Hs Hst Ht. destruct Hst.
  - by eapply stored_claim.
  - destruct Hs as (S1 & S2 & S3 & S4 & S5).
    assert (Hp : produced (log s) k fp p).
    { unfold Get in H. destruct (failed d); [done|]. destruct (tbl s !! k) as [r|] eqn:Hr; [|done].
      injection H as <-. assert (Hc : r_status r = Completed) by (unfold scan in H1; by destruct (r_response r)).
      destruct (S4 k r Hr Hc) as (p' & Hp' & Hprod). pose proof Hprod as (_ & _ & Hst).
      rewrite (writeStored_completed r p' p) by done.
      assert (request_fingerprint r = fp) as <- by (unfold scan in H0; by destruct (r_response r)). done. }
    split_and!; simpl; try done.
    + intros n ph Hn. destruct (S1 n ph Hn). split; [by apply list_elem_of_further|done].
    + intros n k' fp' p' Hn. by apply (produced_mono _ [_]), (S3 n).
    + intros k' r Hr Hc. destruct (S4 k' r Hr Hc) as (p' & ? & ?). exists p'. split; [done|].
      by apply (produced_mono _ [_]).
    + intros k' fp' p' Hin. apply (produced_mono _ [_]).
      apply elem_of_cons in Hin as [[= -> -> ->]|Hin]; [done|by apply S5].
  - by apply stored_return.
  - by eapply stored_complete.
  - apply stored_subset; [done|apply Release_subseteq|apply delete_subseteq|by intros ????; apply drops_not_replay|done].
  - apply (stored_subset s (tbl s) []); [done|done|apply delete_subseteq|set_solver|exact Ht].
  - apply stored_subset; [done|apply PurgeExpired_subseteq|done|by intros ????; apply drops_not_replay|done].
Qed.

(** As long as handlers finish before their row expires, a stored response
    is only ever sent for the request that produced it: whatever requests,
    lost statements, crashes and removals came before, a response replayed
    under a key to a request with some fingerprint was returned by a run of
    the handler that was started under that key for that fingerprint. *)
Theorem idem_replay_sound s k fp p :
  rtc (λ s s', step s s' ∧ in_time s') init s →
  EReplay k fp p ∈ log s → EEnd k fp p ∈ log s ∧ EExec k fp ∈ log s.
Proof.
  intros Hr. assert (stored s) as (_ & _ & _ & _ & S5).
  { revert s Hr. apply rtc_ind_r.
    - split_and!; simpl; intros; set_solver.
    - intros s s' _ [Hst Ht] IH. by eapply step_stored. }
  intros Hin. by destruct (S5 k fp p Hin) as (? & ? & _).
Qed.

(** ** A request and its retry *)

(** A request the middleware lets through to the store. *)
Definition eligible (routes : list RouteMatch) (q : Request) (userID : UUID) (body : string) : Prop :=
  matchesRoute routes (q_method q) (q_path q) = true ∧ q_user q = Some (Some userID)
  ∧ q_key q ≠ ""%string ∧ q_body q = Some body ∧ len body ≤ maxIdempotencyBodyBytes.

Definition stored_key (q : Request) (userID : UUID) : Key :=
  (userID, scopedIdempotencyKey (q_method q) (q_path q) (q_key q)).

Lemma middleware_eligible hash routes env q userID body t :
  eligible routes q userID body →
  IdempotencyMiddleware hash routes env q t =
    let k := stored_key q userID in
    let fingerprint := fingerprintRequest hash (q_method q) (q_path q) body in
    let '(r, t) := Claim (e_insert env) (e_select env) (e_now env) defaultIdempotencyTTL k fingerprint t in
    match r with
    | Err _ => (Some (RError 500), false, t)
    | Ok (Some existing) =>
        (serveExisting wait_fuel (e_start env) (e_clock env) (e_polls env) fingerprint existing, false, t)
    | Ok None =>
        match e_handler env with
        | HPanics => (Some RPanicked, true, (Release (e_release env) k t).2)
        | HReturns ws =>
            let '(ok, t) := completeWithRetry (e_done env) (e_complete env) (e_dbnow env) k (recorded ws) t in
            (Some (RHandled ws), true, if ok then t else (Release (e_release env) k t).2)
        end
    end.
Proof.
  intros (Hm & Hu & Hk & Hb & Hl). unfold IdempotencyMiddleware. rewrite Hm, Hu, Hb. cbn [negb].
  rewrite decide_False by done. by destruct (Z.ltb_spec maxIdempotencyBodyBytes (len body)); [lia|].
Qed.

(** An eligible request whose key is new, with a handler that returns. *)
Lemma first_request hash routes env q userID body t ws :
  eligible routes q userID body → t !! stored_key q userID = None → e_insert env = DBOk →
  e_handler env = HReturns ws →
  let k := stored_key q userID in
  let t1 := <[k := mkRow (fingerprintRequest hash (q_method q) (q_path q) body) InProgress None None
               (timeAdd (e_now env) defaultIdempotencyTTL)]> t in
  let '(ok, t2) := completeWithRetry (e_done env) (e_complete env) (e_dbnow env) k (recorded ws) t1 in
  IdempotencyMiddleware hash routes env q t
    = (Some (RHandled ws), true, if ok then t2 else (Release (e_release env) k t2).2).
Proof.
  intros Hq Hk Hi Hh k t1. rewrite (middleware_eligible _ _ _ _ _ _ _ Hq). cbn zeta.
  fold k. unfold Claim. fold k in Hk. rewrite Hk, Hi, Hh. simpl. fold t1.
  by destruct (completeWithRetry _ _ _ _ _ _).
Qed.

(** The promise of the key: after a request whose handler returned and
    whose response was stored at one of the three attempts, any later request
    of the user under the same method, path and key leaves the table alone and
    does not run the handler; it is sent the stored response if its body has
    the same fingerprint, and 409 otherwise. *)
Theorem idem_retry_replays hash routes env1 env2 q userID body q2 body2 t ws :
  eligible routes q userID body → eligible routes q2 userID body2 →
  stored_key q2 userID = stored_key q userID →
  t !! stored_key q userID = None → e_insert env1 = DBOk → e_handler env1 = HReturns ws →
  (∀ i, e_done env1 i = false) → (∃ i, (i < 3)%nat ∧ e_complete env1 i = DBOk) →
  Status (recorded ws) ≠ 0 → e_insert env2 = DBOk → e_select env2 = DBOk →
  ∃ t', IdempotencyMiddleware hash routes env1 q t = (Some (RHandled ws), true, t')
    ∧ IdempotencyMiddleware hash routes env2 q2 t' =
        (Some (if decide (fingerprintRequest hash (q_method q) (q_path q) body
                          = fingerprintRequest hash (q_method q2) (q_path q2) body2)
               then RReplayed (recorded ws) else RError 409), false, t').
Proof.
  intros Hq Hq2 Hkk Hk Hi Hh Hd (i & Hi3 & Hok) Hst Hi2 Hs2.
  pose proof (first_request hash routes env1 q userID body t ws Hq Hk Hi Hh) as Hfirst. cbn zeta in Hfirst.
  set (k := stored_key q userID) in *. set (fp := fingerprintRequest hash (q_method q) (q_path q) body) in *.
  set (t1 := <[k := _]> t) in *.
  assert (HC : ∃ t2, completeWithRetry (e_done env1) (e_complete env1) (e_dbnow env1) k (recorded ws) t1 = (true, t2)
    ∧ ∃ r, t2 !! k = Some r ∧ request_fingerprint r = fp ∧ r_status r = Completed ∧ r_response r = Some (recorded ws)).
  { unfold completeWithRetry, completeMaxRetries.
    assert (Hgen : ∀ n a u, (∃ r, u !! k = Some r ∧ request_fingerprint r = fp) → (a ≤ i < a + n)%nat →
      ∃ t2, complete_attempts n (e_done env1) (e_complete env1) (e_dbnow env1) k (recorded ws) a u = (true, t2)
        ∧ ∃ r, t2 !! k = Some r ∧ request_fingerprint r = fp ∧ r_status r = Completed ∧ r_response r = Some (recorded ws)).
    { induction n as [|n IH]; intros a u (r & Hr & Hf) Ha; [lia|]. simpl. rewrite Hd, andb_false_r.
      unfold Complete. destruct (decide (a = i)) as [->|Hne].
      - rewrite Hok. simpl. eexists. split; [done|]. exists (completed_row (recorded ws) (e_dbnow env1) r).
        by rewrite lookup_alter_eq, Hr.
      - destruct (negb (failed (e_complete env1 a))) eqn:E.
        + assert (e_complete env1 a = DBOk) as -> by (by destruct (e_complete env1 a)). simpl.
          eexists. split; [done|]. exists (completed_row (recorded ws) (e_dbnow env1) r).
          by rewrite lookup_alter_eq, Hr.
        + apply IH; [|lia]. destruct (effect_cases (e_complete env1 a) u
            (alter (completed_row (recorded ws) (e_dbnow env1)) k u)) as [->| ->]; [eauto|].
          exists (completed_row (recorded ws) (e_dbnow env1) r). by rewrite lookup_alter_eq, Hr. }
    apply Hgen; [|lia]. eexists. unfold t1. by rewrite lookup_insert_eq. }
  destruct HC as (t2 & HC & r & Hr & Hf & Hrs & Hrr). rewrite HC in Hfirst.
  exists t2. split; [done|]. rewrite (middleware_eligible _ _ _ _ _ _ _ Hq2). cbn zeta. rewrite Hkk.
  fold k. unfold Claim. rewrite Hr, Hi2, Hs2. simpl. unfold Get. simpl. rewrite Hr. unfold serveExisting.
  assert (Hsc : Fingerprint (scan r) = fp ∧ RStatus (scan r) = Completed)
    by (unfold scan; rewrite Hrr; done).
  destruct Hsc as [-> ->]. destruct (decide (fp = _)) as [E|Hne].
  - rewrite bool_decide_eq_true_2 by done. cbn [negb]. rewrite decide_True by done.
    assert (Hw : ∀ x, Status x ≠ 0 → r_response r = Some x → writeStoredResponse (scan r) = RReplayed x).
    { intros [st b ct] Hx Hx'. unfold writeStoredResponse, scan. rewrite Hx'. simpl in *.
      by destruct (Z.eqb_spec st 0). }
    by rewrite (Hw (recorded ws)).
  - by rewrite bool_decide_eq_false_2.
Qed.

(** The promise is broken for the client it is for, the one that gave up
    waiting.  When the connection is gone by the time the handler returns, the
    request's context is done; the response is then not stored, because
    Complete runs under that context, and the claim is released under a fresh
    one.  The table is as before the request, and the retry under the same key
    runs the handler again. *)
Theorem idem_lost_client_reexecutes hash routes env1 env2 q userID body t ws ws2 :
  eligible routes q userID body → t !! stored_key q userID = None →
  e_insert env1 = DBOk → e_handler env1 = HReturns ws → e_release env1 = DBOk →
  (∀ i, e_done env1 i = true) → e_insert env2 = DBOk → e_handler env2 = HReturns ws2 →
  IdempotencyMiddleware hash routes env1 q t = (Some (RHandled ws), true, t)
  ∧ ∃ t', IdempotencyMiddleware hash routes env2 q t = (Some (RHandled ws2), true, t').
Proof.
  intros Hq Hk Hi Hh Hr Hd Hi2 Hh2.
  pose proof (first_request hash routes env1 q userID body t ws Hq Hk Hi Hh) as H1.
  pose proof (first_request hash routes env2 q userID body t ws2 Hq Hk Hi2 Hh2) as H2.
  cbn zeta in H1, H2. set (k := stored_key q userID) in *. split.
  - unfold completeWithRetry, completeMaxRetries in H1. simpl in H1. rewrite Hd in H1. simpl in H1.
    rewrite Hd in H1. simpl in H1. rewrite H1. f_equal. unfold Release. simpl. rewrite Hr. simpl.
    unfold in_progress. rewrite lookup_insert_eq. simpl.
    by rewrite delete_insert_id.
  - destruct (completeWithRetry (e_done env2) _ _ _ _ _) as [ok t2]. eauto.
Qed.

(** ** A concrete deposit *)

Definition demo_request (body : string) : Request :=
  mkRequest "POST" "/api/v1/vaults/7/deposit" (Some (Some 5)) "key-1" (Some body).

Definition demo_hash (s : string) : string := s.

Definition demo_writes : list write :=
  [WContentType "application/json"; WHeader 201; WBody "[1,"; WBody "2]"].

(** A request whose statements succeed; [done] is its context. *)
Definition demo_env (done : bool) : Env :=
  mkEnv DBOk DBOk 0 0 (λ i, concurrentWaitPoll * Z.of_nat i) (λ _, Err ErrDB) (HReturns demo_writes)
    (λ _, done) (λ _, DBOk) 1 DBOk.

Lemma demo_eligible body :
  len body ≤ 20 → eligible VaultMoneyPathIdempotencyRoutes (demo_request body) 5 body.
Proof.
  intros Hb. unfold eligible. split_and!; try reflexivity; [done|].
  unfold maxIdempotencyBodyBytes. lia.
Qed.

Lemma idem_retry_replays_witness :
  ∃ t', IdempotencyMiddleware demo_hash VaultMoneyPathIdempotencyRoutes (demo_env false) (demo_request "10") ∅
          = (Some (RHandled demo_writes), true, t')
    ∧ IdempotencyMiddleware demo_hash VaultMoneyPathIdempotencyRoutes (demo_env true) (demo_request "10") t'
          = (Some (RReplayed (recorded demo_writes)), false, t')
    ∧ Status (recorded demo_writes) = 201.
Proof.
  destruct (idem_retry_replays demo_hash VaultMoneyPathIdempotencyRoutes (demo_env false) (demo_env true)
    (demo_request "10") 5 "10" (demo_request "10") "10" ∅ demo_writes) as (t' & H1 & H2).
  1-2: apply demo_eligible; vm_compute; discriminate.
  1-4: reflexivity.
  - intros i. reflexivity.
  - exists 0%nat. split; [lia|reflexivity].
  - vm_compute. discriminate.
  - reflexivity.
  - reflexivity.
  - exists t'. split; [exact H1|]. split; [|vm_compute; reflexivity].
    rewrite decide_True in H2 by reflexivity. exact H2.
Defined.

Lemma idem_lost_client_reexecutes_witness :
  IdempotencyMiddleware demo_hash VaultMoneyPathIdempotencyRoutes (demo_env true) (demo_request "10") ∅
    = (Some (RHandled demo_writes), true, ∅)
  ∧ ∃ t', IdempotencyMiddleware demo_hash VaultMoneyPathIdempotencyRoutes (demo_env false) (demo_request "10") ∅
    = (Some (RHandled demo_writes), true, t').
Proof.
  apply (idem_lost_client_reexecutes demo_hash VaultMoneyPathIdempotencyRoutes (demo_env true) (demo_env false)
    (demo_request "10") 5 "10" ∅ demo_writes demo_writes); try reflexivity.
  apply demo_eligible. vm_compute. discriminate.
Defined.

Lemma idem_wait_terminates_witness :
  let t : Table := {[ stored_key (demo_request "10") 5 :=
      mkRow (fingerprintRequest demo_hash "POST" "/api/v1/vaults/7/deposit" "10") InProgress None None 9 ]} in
  ∃ ran t', IdempotencyMiddleware demo_hash VaultMoneyPathIdempotencyRoutes (demo_env false) (demo_request "10") t
    = (Some (RError 425), ran, t').
Proof.
  intros t. destruct (idem_wait_terminates demo_hash VaultMoneyPathIdempotencyRoutes (demo_env false)
    (demo_request "10") t) as (rep & ran & t' & H & _).
  - intros i. simpl. rewrite Nat2Z.inj_succ. lia.
  - vm_compute. discriminate.
  - exists ran, t'. rewrite H. f_equal. f_equal.
    assert (E : (IdempotencyMiddleware demo_hash VaultMoneyPathIdempotencyRoutes (demo_env false)
        (demo_request "10") t).1.1 = Some (RError 425)) by (vm_compute; reflexivity).
    rewrite H in E. exact E.
Defined.

Lemma idem_replay_roundtrip_witness :
  let r := mkRow "fp" InProgress None None 9 in
  let t : Table := {[ (5, "k"%string) := r ]} in
  recorded demo_writes = delivered demo_writes
  ∧ ∃ t' rec, Complete false DBOk 1 (5, "k"%string) (recorded demo_writes) t = (true, t')
      ∧ Get DBOk (5, "k"%string) t' = Ok rec ∧ Fingerprint rec = "fp"%string ∧ RStatus rec = Completed
      ∧ writeStoredResponse rec = RReplayed (delivered demo_writes).
Proof.
  intros r t. apply (idem_replay_roundtrip demo_writes (5, "k"%string) "fp" t 1 r);
    [reflexivity|vm_compute; discriminate|reflexivity|reflexivity].
Defined.

Lemma idem_same_request_witness :
  let key := scopedIdempotencyKey "POST" "/api/v1/vaults/7/deposit" "key-1" in
  str_all (λ c, bool_decide (c ≠ sep)) "key-1" = true
  ∧ ("POST"%string = "POST"%string ∧ "/api/v1/vaults/7/deposit"%string = "/api/v1/vaults/7/deposit"%string
     ∧ "key-1"%string = "key-1"%string ∧ "10"%string = "10"%string).
Proof.
  intros key. split; [reflexivity|].
  apply (idem_same_request demo_hash "POST" "POST" "/api/v1/vaults/7/deposit" "/api/v1/vaults/7/deposit"
    "key-1" "key-1" "10" "10"); try reflexivity.
Defined.

(** Claimed, returned, completed, replayed. *)
Definition demo_key : Key := (5, "k"%string).
Definition demo_response : Response := mkResponse 201 "{}" "application/json".

Definition demo_run (n : nat) : Sys :=
  let row := mkRow "fp" InProgress None None (timeAdd 0 defaultIdempotencyTTL) in
  let t0 : Table := {[ demo_key := row ]} in
  let t1 : Table := {[ demo_key := completed_row demo_response 1 row ]} in
  let l1 := [EExec demo_key "fp"] in
  let l2 := EEnd demo_key "fp" demo_response :: l1 in
  match n with
  | 0 => init
  | 1 => mkSys t0 {[ 0%nat := PRunning demo_key "fp" ]} l1
  | 2 => mkSys t0 {[ 0%nat := PDone demo_key "fp" demo_response ]} l2
  | 3 => mkSys t1 ∅ l2
  | _ => mkSys t1 ∅ (EReplay demo_key "fp" demo_response :: l2)
  end%nat.

Lemma demo_run_step n : (n < 4)%nat → step (demo_run n) (demo_run (S n)) ∧ in_time (demo_run (S n)).
Proof.
  intros Hn. destruct n as [|[|[|[|n]]]]; [..|lia]; split.
  - apply (step_claim init 0 DBOk DBOk 0 demo_key "fp" (Ok None)); reflexivity.
  - intros n ph Hph. simpl in Hph. apply lookup_singleton_Some in Hph as [<- <-].
    simpl. rewrite lookup_singleton_eq. eauto.
  - apply (step_return (demo_run 1) 0 demo_key "fp" demo_response); [reflexivity|done].
  - intros n ph Hph. simpl in Hph. apply lookup_singleton_Some in Hph as [<- <-].
    simpl. rewrite lookup_singleton_eq. eauto.
  - apply (step_complete (demo_run 2) 0 demo_key "fp" demo_response false DBOk 1 true); reflexivity.
  - intros n ph Hph. simpl in Hph. by rewrite lookup_empty in Hph.
  - by apply (step_replay (demo_run 3) demo_key "fp" DBOk
      (mkRecord "fp" Completed 201 "{}" "application/json") demo_response).
  - intros n ph Hph. simpl in Hph. by rewrite lookup_empty in Hph.
Qed.

Lemma demo_run_reachable n : (n ≤ 4)%nat → rtc (λ s s', step s s' ∧ in_time s') init (demo_run n).
Proof.
  induction n as [|n IH]; intros Hn; [done|]. eapply rtc_r; [apply IH; lia|]. apply demo_run_step. lia.
Qed.

Lemma idem_replay_sound_witness :
  EReplay demo_key "fp" demo_response ∈ log (demo_run 4)
  ∧ EEnd demo_key "fp" demo_response ∈ log (demo_run 4) ∧ EExec demo_key "fp" ∈ log (demo_run 4).
Proof.
  assert (Hin : EReplay demo_key "fp" demo_response ∈ log (demo_run 4)) by apply list_elem_of_here.
  split; [exact Hin|].
  exact (idem_replay_sound (demo_run 4) demo_key "fp" demo_response (demo_run_reachable 4 (Nat.le_refl 4)) Hin).
Defined.

Lemma idem_executes_once_witness :
  rtc step init (demo_run 4) ∧ count (is_exec demo_key) (log (demo_run 4)) = 1
  ∧ count (is_exec demo_key) (log (demo_run 4)) ≤ count (is_drop demo_key) (log (demo_run 4)) + 1.
Proof.
  assert (Hr : rtc step init (demo_run 4)).
  { eapply rtc_subrel; [|apply (demo_run_reachable 4); lia]. intros x y Hxy. exact (proj1 Hxy). }
  split; [exact Hr|]. split; [reflexivity|]. exact (idem_executes_once (demo_run 4) demo_key Hr).
Defined.
