(* ===== verification/Auth.v ===== *)
(** Access tokens and who may call what (internal/auth: jwt.go, context.go;
    internal/middleware: auth.go, authz_rules.go, wallet_binding.go): signed
    tokens, the route rules, the service credential, the revocation check and
    the binding of a token to a wallet.

    HMAC-SHA256 is an argument, the JSON of claims the class [ClaimsJSON], the
    revocation cache and the wallet resolver what they answer. *)

From S2P Require Import Prelude GoStrings Base64.
From Stdlib Require Import Ascii.
Open Scope Z_scope.

(** ** Tokens (auth/jwt.go) *)

Record Claims := mkClaims {
  Subject : string;
  c_WalletAddress : string;
  c_Scopes : list string;
  c_Roles : list string;
  SessionID : string;
  TokenID : string;
  ExpiresAt : Z;
  IssuedAt : Z;
}.

(** encoding/json on [Claims]. *)
Class ClaimsJSON := {
  marshal : Claims → option string;
  unmarshal : string → option Claims;
}.

Inductive JWTError := ErrTokenMalformed | ErrTokenExpired | ErrTokenInvalid.

Definition jwt_message (e : JWTError) : string :=
  match e with
  | ErrTokenMalformed => "auth: token is malformed"
  | ErrTokenExpired => "auth: token has expired"
  | ErrTokenInvalid => "auth: token signature is invalid"
  end.

(** [t.Unix()] *)
Definition Unix (t : Time) : Z := t / Second.

Definition jwtHeader : string :=
  EncodeToString (replaceByte "'" "034" "{'alg':'HS256','typ':'JWT'}").

(** ** Callers (auth/context.go) *)

Record User := mkUser {
  u_ID : string;
  u_WalletAddress : string;
  u_Scopes : list string;
  u_Roles : list string;
  u_SessionID : string;
  ServiceName : string;
}.

Definition HasScope (u : User) (scope : string) : bool := bool_decide (scope ∈ u_Scopes u).
Definition HasRole (u : User) (role : string) : bool := bool_decide (role ∈ u_Roles u).

(** ** Rules (middleware/auth.go, authz_rules.go) *)

Record RouteRule := mkRule {
  r_Method : string;
  PathPrefix : string;
  Public : bool;
  r_Scope : string;
  r_Role : string;
}.

Definition ProductionAuthRules : list RouteRule :=
  [ mkRule "" "/health" true "" "";
    mkRule "" "/healthz" true "" "";
    mkRule "" "/readyz" true "" "";
    mkRule "" "/ws" true "" "";
    mkRule "POST" "/api/v1/auth/challenge" true "" "";
    mkRule "POST" "/api/v1/auth/verify" true "" "";
    mkRule "POST" "/api/v1/auth/refresh" true "" "";
    mkRule "GET" "/api/v1/yields" true "" "";
    mkRule "GET" "/api/v1/yield-opportunities" true "" "";
    mkRule "" "/api/v1/savings-goals/shared/" true "" "";
    mkRule "GET" "/api/v1/money-path/status" true "" "";
    mkRule "" "/api/v1/admin/" false "" "admin";
    mkRule "" "/api/v1/internal/" false "" "service";
    mkRule "" "/api/v1/" false "" "" ]%string.

(** What the middleware reads of a request; a missing header is the empty
    string. *)
Record AuthRequest := mkRequest {
  Method : string;
  Path : string;
  h_Authorization : string;
  h_XUserId : string;
  h_XServiceName : string;
}.

(** The handler runs with the user of its context, or the request ends. *)
Inductive verdict := Next (user : option User) | Reject (status : Z) (msg : string).

Definition moneyPathSuffixes : list string :=
  ["/deposit"; "/withdraw"; "/emergency-withdraw"; "/harvest"; "/rebalance";
   "/rebalance/execute"; "/transfer"; "/payout"]%string.

Definition walletScopedPrefixes : list string := ["/api/v1/users/wallet/"%string].

(** "" when the path names no wallet. *)
Fixpoint walletFrom (prefixes : list string) (path : string) : string :=
  match prefixes with
  | [] => ""
  | prefix :: ps =>
      if negb (HasPrefix path prefix) then walletFrom ps path
      else
        let rest := TrimPrefix path prefix in
        let rest := match cutByte "/" rest with Some (u, _) => u | None => rest end in
        if decide (rest = ""%string) then walletFrom ps path else rest
  end.

Definition extractWalletFromPath (path : string) : string := walletFrom walletScopedPrefixes path.

Section Auth.
Context `{ClaimsJSON} (hmac : string → string → string).
Context (unicode_lower : string → string) (unicode_fold : string → string → bool).

#[local] Abbreviation ToLower := (ToLower unicode_lower).
#[local] Abbreviation EqualFold := (EqualFold unicode_fold).

Definition signHS256 (data secret : string) : string := hmac secret data.

(** [now] is time.Now(). *)
Definition ParseJWT (now : Time) (tokenStr secret : string) : result JWTError Claims :=
  match splitByte "." tokenStr with
  | [p0; p1; p2] =>
      let expected := EncodeToString (signHS256 (p0 +:+ "." +:+ p1) secret) in
      if negb (bool_decide (p2 = expected)) then Err ErrTokenInvalid
      else match DecodeString p1 with
      | None => Err ErrTokenMalformed
      | Some payload =>
          match unmarshal payload with
          | None => Err ErrTokenMalformed
          | Some claims =>
              if (0 <? ExpiresAt claims) && (ExpiresAt claims <? Unix now) then Err ErrTokenExpired
              else Ok claims
          end
      end
  | _ => Err ErrTokenMalformed
  end.

Definition MakeJWT (claims : Claims) (secret : string) : option string :=
  match marshal claims with
  | None => None
  | Some payload =>
      let p := EncodeToString payload in
      let sig := EncodeToString (signHS256 (jwtHeader +:+ "." +:+ p) secret) in
      Some (jwtHeader +:+ "." +:+ p +:+ "." +:+ sig)
  end.

Definition isMoneyPathRoute (r : AuthRequest) : bool :=
  let path := ToLower (trimRight "/" (Path r)) in
  if decide (path = ""%string) then false
  else existsb (HasSuffix path) moneyPathSuffixes.

Definition bearerToken (r : AuthRequest) : option string :=
  let v := h_Authorization r in
  if decide (v = ""%string) then None
  else match cutByte " " v with
  | None => None
  | Some (scheme, rest) =>
      if negb (EqualFold scheme "bearer") then None
      else let token := TrimSpace rest in
           if decide (token = ""%string) then None else Some token
  end.

Definition rule_matches (rule : RouteRule) (r : AuthRequest) : bool :=
  negb (negb (bool_decide (r_Method rule = ""%string)) && negb (EqualFold (r_Method rule) (Method r)))
  && HasPrefix (Path r) (PathPrefix rule).

Definition matchRule (rules : list RouteRule) (r : AuthRequest) : option RouteRule :=
  List.find (λ rule, rule_matches rule r) rules.

Definition isPublic (rule : option RouteRule) : bool :=
  match rule with Some rule => Public rule | None => false end.

Definition requires (field : RouteRule → string) (rule : option RouteRule) : option string :=
  match rule with
  | Some rule => if decide (field rule = ""%string) then None else Some (field rule)
  | None => None
  end.

Definition lacks (has : string → bool) (need : option string) : bool :=
  match need with Some s => negb (has s) | None => false end.

(** [now] is time.Now() in ParseJWT, [revoked] what the checker answers about
    a session, [None] an error. *)
Definition Authenticate (secret serviceAPIKey : string) (rules : list RouteRule)
    (now : Time) (revoked : string → option bool) (r : AuthRequest) : verdict :=
  let rule := matchRule rules r in
  if isPublic rule then Next None
  else match bearerToken r with
  | None => Reject 401 "missing or malformed authorization header"
  | Some token =>
      if negb (bool_decide (serviceAPIKey = ""%string)) && bool_decide (token = serviceAPIKey) then
        let userID := TrimSpace (h_XUserId r) in
        if decide (userID = ""%string) then Reject 401 "X-User-Id header required for service auth"
        else if isMoneyPathRoute r then
          Reject 403 "service credentials cannot act on behalf of a user on money-path routes"
        else
          let serviceName := TrimSpace (h_XServiceName r) in
          let serviceName := if decide (serviceName = ""%string) then "unknown"%string else serviceName in
          Next (Some (mkUser userID "" [] ["service"%string] "" serviceName))
      else match ParseJWT now token secret with
      | Err e => Reject 401 (jwt_message e)
      | Ok claims =>
          let checked :=
            if decide (SessionID claims = ""%string) then None
            else match revoked (SessionID claims) with
                 | None => Some (Reject 503 "session verification unavailable")
                 | Some true => Some (Reject 401 "session has been revoked, please sign in again")
                 | Some false => None
                 end in
          match checked with
          | Some v => v
          | None =>
              let user := mkUser (Subject claims) (c_WalletAddress claims) (c_Scopes claims)
                            (c_Roles claims) (SessionID claims) "" in
              if lacks (HasScope user) (requires r_Scope rule) then Reject 403 "insufficient scope"
              else if lacks (HasRole user) (requires r_Role rule) then Reject 403 "insufficient role"
              else Next (Some user)
          end
      end
  end.

(** ** The wallet of a token (middleware/wallet_binding.go)

    [resolver] is what it answers about a user, [Some None] an error, and
    [None] a resolver that is nil. *)
Definition WalletBindingCheck (resolver : option (string → option string)) (path : string)
    (user : option User) : verdict :=
  match user with
  | None => Next None
  | Some u =>
      if decide (u_WalletAddress u = ""%string) then Next user
      else
        let pathWallet := extractWalletFromPath path in
        if negb (bool_decide (pathWallet = ""%string)) && negb (EqualFold (u_WalletAddress u) pathWallet)
        then Reject 403 "token wallet does not match the requested wallet"
        else match resolver with
        | None => Next user
        | Some walletForUser =>
            if decide (u_ID u = ""%string) then Next user
            else match walletForUser (u_ID u) with
            | None => Reject 401 "could not verify wallet binding for this session"
            | Some current =>
                if negb (bool_decide (current = ""%string)) && negb (EqualFold current (u_WalletAddress u))
                then Reject 401 "session was issued for a wallet no longer linked to this account"
                else Next user
            end
        end
  end.

(** The two middlewares in the order of the server. *)
Definition authorize (secret serviceAPIKey : string) (rules : list RouteRule) (now : Time)
    (revoked : string → option bool) (resolver : option (string → option string))
    (r : AuthRequest) : verdict :=
  match Authenticate secret serviceAPIKey rules now revoked r with
  | Next user => WalletBindingCheck resolver (Path r) user
  | v => v
  end.
End Auth.

(** ** The wallet resolver (middleware/wallet_resolver.go) *)

Record walletCacheEntry := mkEntry { e_wallet : string; e_expiresAt : Time }.

Record CachedWalletResolver := mkResolver { ttl : Duration; entries : gmap string walletCacheEntry }.

Definition cacheLookup (now : Time) (userID : string) (c : CachedWalletResolver) : option string :=
  if ttl c <=? 0 then None
  else match entries c !! userID with
  | Some e => if e_expiresAt e <? now then None else Some (e_wallet e)
  | None => None
  end.

Definition cacheStore (now : Time) (userID wallet : string) (c : CachedWalletResolver) : CachedWalletResolver :=
  if ttl c <=? 0 then c
  else mkResolver (ttl c) (<[userID := mkEntry wallet (timeAdd now (ttl c))]> (entries c)).

Definition Invalidate (userID : string) (c : CachedWalletResolver) : CachedWalletResolver :=
  mkResolver (ttl c) (delete userID (entries c)).

(** [parses] is whether uuid.Parse accepts the id, [t1] and [t2] the clock at
    the lookup and the store, [row] what GetByID answers: an error, no user,
    or the wallet of one.  [None] is an error. *)
Definition WalletForUser (parses : bool) (t1 t2 : Time) (row : option (option string)) (userID : string)
    (c : CachedWalletResolver) : option string * CachedWalletResolver :=
  if negb parses then (Some ""%string, c)
  else match cacheLookup t1 userID c with
  | Some wallet => (Some wallet, c)
  | None =>
      match row with
      | None => (None, c)
      | Some u =>
          let wallet := default ""%string u in
          (Some wallet, cacheStore t2 userID wallet c)
      end
  end.

(** ** What a token proves *)

Definition no_dot (s : string) : Prop := str_all (λ c, bool_decide (c ≠ "."%char)) s = true.

(** A token of header [h] and payload [p] under a signature. *)
Definition token (h p sig : string) : string := h +:+ "." +:+ p +:+ "." +:+ sig.

Lemma split_token h p sig :
  no_dot h → no_dot p → no_dot sig → splitByte "." (token h p sig) = [h; p; sig].
Proof.
  intros Hh Hp Hs. unfold token.
  change (splitByte "." (h +:+ String "." (p +:+ String "." sig)) = [h; p; sig]).
  by rewrite !splitByte_app, splitByte_clean.
Qed.

Lemma split_three tok h p sig :
  splitByte "." tok = [h; p; sig] → tok = token h p sig ∧ no_dot h ∧ no_dot p ∧ no_dot sig.
Proof.
  intros E. pose proof (splitByte_parts "." tok) as Hf. rewrite E in Hf.
  rewrite !Forall_cons in Hf. destruct Hf as (?&?&?&_). split; [|done].
  rewrite (splitByte_join _ _ _ _ E). unfold token. cbn [foldr]. by rewrite string_app_nil_r.
Qed.

Lemma jwtHeader_no_dot : no_dot jwtHeader.
Proof. apply base64_no_dot. Qed.

Section Proofs.
Context `{ClaimsJSON} (hmac : string → string → string).
Context (unicode_lower : string → string) (unicode_fold : string → string → bool).

#[local] Abbreviation ParseJWT := (ParseJWT hmac).
#[local] Abbreviation MakeJWT := (MakeJWT hmac).

Definition unexpired (now : Time) (c : Claims) : Prop := 0 < ExpiresAt c → Unix now ≤ ExpiresAt c.

Lemma expired_test now c :
  (0 <? ExpiresAt c) && (ExpiresAt c <? Unix now) = false ↔ unexpired now c.
Proof. unfold unexpired. rewrite andb_false_iff, Z.ltb_ge, Z.ltb_ge. lia. Qed.

Lemma parse_unexpired now tok secret c : ParseJWT now tok secret = Ok c → unexpired now c.
Proof.
  unfold Auth.ParseJWT. destruct (splitByte "." tok) as [|h [|p [|sig [|]]]]; try done.
  destruct (negb _); [done|]. destruct (DecodeString p); [|done]. destruct (unmarshal _) as [c'|]; [|done].
  destruct (_ && _) eqn:Ee; [done|]. intros [= ->]. by apply expired_test.
Qed.

(** What ParseJWT accepts is exactly a header and a payload under the
    HMAC of the two with the service's secret, whose payload decodes to the
    claims returned, until the second ExpiresAt is over. *)
Theorem auth_jwt_sound now tok secret c :
  ParseJWT now tok secret = Ok c ↔
  ∃ h p payload,
    no_dot h ∧ no_dot p
    ∧ tok = token h p (EncodeToString (hmac secret (h +:+ "." +:+ p)))
    ∧ DecodeString p = Some payload ∧ unmarshal payload = Some c ∧ unexpired now c.
Proof.
  unfold Auth.ParseJWT, signHS256. split.
  - destruct (splitByte "." tok) as [|h [|p [|sig [|]]]] eqn:Es; try done.
    case_bool_decide as Hsig; [|done]. simpl.
    destruct (DecodeString p) as [payload|] eqn:Ed; [|done].
    destruct (unmarshal payload) as [c'|] eqn:Eu; [|done].
    destruct (_ && _) eqn:Ee; [done|]. intros [= ->].
    apply split_three in Es as (-> & Hh & Hp & _). exists h, p, payload. subst sig.
    apply expired_test in Ee. by repeat split.
  - intros (h & p & payload & Hh & Hp & -> & Ed & Eu & He).
    rewrite split_token by (done || apply base64_no_dot).
    rewrite bool_decide_eq_true_2 by done. simpl. rewrite Ed, Eu.
    by apply expired_test in He as ->.
Qed.

(** C39: a token made with the service's secret is accepted until it expires and
    gives back its claims. *)
Theorem auth_jwt_roundtrip now secret c payload tok :
  marshal c = Some payload → unmarshal payload = Some c →
  MakeJWT c secret = Some tok → unexpired now c →
  ParseJWT now tok secret = Ok c.
Proof.
  intros Em Eu Ht He. unfold Auth.MakeJWT in Ht. rewrite Em in Ht. injection Ht as <-.
  unfold Auth.ParseJWT, signHS256.
  change (splitByte "." _) with (splitByte "." (token jwtHeader (EncodeToString payload)
    (EncodeToString (hmac secret (jwtHeader +:+ "." +:+ EncodeToString payload))))).
  rewrite split_token by (apply jwtHeader_no_dot || apply base64_no_dot).
  rewrite bool_decide_eq_true_2 by done. simpl. rewrite base64_roundtrip, Eu.
  by apply expired_test in He as ->.
Qed.

(** ** Who reaches a handler *)

#[local] Abbreviation Authenticate := (Authenticate hmac unicode_lower unicode_fold).
#[local] Abbreviation bearerToken := (bearerToken unicode_fold).
#[local] Abbreviation isMoneyPathRoute := (isMoneyPathRoute unicode_lower).
#[local] Abbreviation matchRule := (matchRule unicode_fold).
#[local] Abbreviation EqualFold := (EqualFold unicode_fold).

(** The caller a service asserts, and the one a token proves. *)
Definition service_caller (r : AuthRequest) : User :=
  let name := TrimSpace (h_XServiceName r) in
  mkUser (TrimSpace (h_XUserId r)) "" [] ["service"%string] ""
    (if decide (name = ""%string) then "unknown"%string else name).

Definition token_caller (c : Claims) : User :=
  mkUser (Subject c) (c_WalletAddress c) (c_Scopes c) (c_Roles c) (SessionID c) "".

Definition by_service (key : string) (r : AuthRequest) (u : User) : Prop :=
  key ≠ ""%string ∧ bearerToken r = Some key ∧ isMoneyPathRoute r = false ∧ u = service_caller r.

Definition by_token (secret : string) (now : Time) (revoked : string → option bool) (r : AuthRequest)
    (u : User) : Prop :=
  ∃ tok c, bearerToken r = Some tok ∧ ParseJWT now tok secret = Ok c ∧ u = token_caller c
    ∧ (SessionID c = ""%string ∨ revoked (SessionID c) = Some false).

Definition grants (rule : option RouteRule) (u : User) : Prop :=
  lacks (HasScope u) (requires r_Scope rule) = false ∧ lacks (HasRole u) (requires r_Role rule) = false.

Lemma authenticate_next secret key rules now revoked r user :
  Authenticate secret key rules now revoked r = Next user →
  match user with
  | None => isPublic (matchRule rules r) = true
  | Some u =>
      isPublic (matchRule rules r) = false
      ∧ (by_service key r u ∨ by_token secret now revoked r u ∧ grants (matchRule rules r) u)
  end.
Proof.
  unfold Auth.Authenticate. set (rule := matchRule rules r).
  destruct (isPublic rule) eqn:Ep; [by intros [= <-]|].
  destruct (bearerToken r) as [tok|] eqn:Et; [|done].
  destruct (negb _ && _) eqn:Ek.
  - apply andb_true_iff in Ek as [Hk Htok]. apply bool_decide_eq_true in Htok as ->.
    apply negb_true_iff, bool_decide_eq_false in Hk.
    case_decide; [done|]. destruct (isMoneyPathRoute r) eqn:Em; [done|].
    intros [= <-]. split; [done|]. by left.
  - destruct (ParseJWT now tok secret) as [c|e] eqn:Ec; [|done].
    destruct (decide (SessionID c = ""%string)) as [Hs|Hs];
      [|destruct (revoked (SessionID c)) as [[|]|] eqn:Er; try done];
      (destruct (lacks (HasScope _) _) eqn:El; [done|]; destruct (lacks (HasRole _) _) eqn:Er'; [done|];
       intros [= <-]; split; [done|]; right; split; [exists tok, c; auto|done]).
Qed.

(** The endpoints the production policy leaves open. *)
Definition public_endpoint (r : AuthRequest) : Prop :=
  (∃ p, p ∈ ["/health"; "/readyz"; "/ws"; "/api/v1/savings-goals/shared/"]%string ∧ HasPrefix (Path r) p = true)
  ∨ (EqualFold "POST" (Method r) = true ∧ ∃ p,
       p ∈ ["/api/v1/auth/challenge"; "/api/v1/auth/verify"; "/api/v1/auth/refresh"]%string
       ∧ HasPrefix (Path r) p = true)
  ∨ (EqualFold "GET" (Method r) = true ∧ ∃ p,
       p ∈ ["/api/v1/yields"; "/api/v1/yield-opportunities"; "/api/v1/money-path/status"]%string
       ∧ HasPrefix (Path r) p = true).

Lemma production_public r :
  isPublic (matchRule ProductionAuthRules r) = true → public_endpoint r.
Proof.
  unfold Auth.matchRule. destruct (List.find _ _) as [rule|] eqn:Ef; [|done]. simpl. intros Hp.
  apply List.find_some in Ef as [Hin [Hm Hpre]%andb_true_iff].
  unfold ProductionAuthRules in Hin. simpl in Hin.
  destruct_or? Hin; subst rule; try done; simpl in *; rewrite ?negb_involutive in Hm; unfold public_endpoint;
    ((left; eexists; split; [|exact Hpre]; set_solver) ||
     (right; left; split; [exact Hm|]; eexists; split; [|exact Hpre]; set_solver) ||
     (right; right; split; [exact Hm|]; eexists; split; [|exact Hpre]; set_solver) || idtac).
  left. exists "/health"%string. split; [set_solver|].
  apply prefix_split in Hpre as (x & ->). apply (prefix_app "/health").
Qed.

Lemma production_admin r :
  HasPrefix (Path r) "/api/v1/admin/" = true →
  matchRule ProductionAuthRules r = Some (mkRule "" "/api/v1/admin/" false "" "admin").
Proof.
  intros (x & Hx)%prefix_split. unfold Auth.matchRule, rule_matches. rewrite Hx.
  simpl. rewrite !andb_false_r. by rewrite (prefix_app "" x).
Qed.

(** The wallet of [u] is the one the path names, and the one on record. *)
Definition wallet_bound (resolver : option (string → option string)) (path : string) (u : User) : Prop :=
  u_WalletAddress u = ""%string
  ∨ (extractWalletFromPath path = ""%string
     ∨ EqualFold (u_WalletAddress u) (extractWalletFromPath path) = true)
    ∧ (∀ f, resolver = Some f → u_ID u ≠ ""%string →
       ∃ w, f (u_ID u) = Some w ∧ (w = ""%string ∨ EqualFold w (u_WalletAddress u) = true)).

Lemma binding_next resolver path user user' :
  WalletBindingCheck unicode_fold resolver path user = Next user' →
  user' = user ∧ match user with Some u => wallet_bound resolver path u | None => True end.
Proof.
  unfold WalletBindingCheck. destruct user as [u|]; [|by intros [= <-]].
  destruct (decide _) as [Hw|Hw]; [intros [= <-]; split; [done|by left]|].
  destruct (negb _ && _) eqn:Ep; [done|].
  assert (Hpath : extractWalletFromPath path = ""%string
                  ∨ EqualFold (u_WalletAddress u) (extractWalletFromPath path) = true).
  { apply andb_false_iff in Ep as [E|E]; apply negb_false_iff in E; [|by right].
    left. by apply bool_decide_eq_true in E. }
  destruct resolver as [f|]; [|intros [= <-]; split; [done|right; by split]].
  destruct (decide _) as [Hi|Hi]; [intros [= <-]; split; [done|right; split; [done|by intros ? _]]|].
  destruct (f (u_ID u)) as [w|] eqn:Ew; [|done].
  destruct (negb (bool_decide (w = _)) && _) eqn:Ec; [done|]. intros [= <-]. split; [done|]. right. split; [done|].
  intros ? [= <-] _. exists w. split; [done|].
  apply andb_false_iff in Ec as [E|E]; apply negb_false_iff in E; [|by right].
  left. by apply bool_decide_eq_true in E.
Qed.

(** C22: the policy the server runs, both middlewares together.  A request
    reaches a handler without a caller only on the public endpoints; with a
    caller only as a service that holds the key, off the money path, or under
    an unexpired token signed with the secret, whose session is not known to
    be revoked, whose wallet is the one the path names and the one on record,
    and, below /api/v1/admin/, whose roles include admin. *)
Theorem auth_policy_enforced secret key now revoked resolver r user :
  authorize hmac unicode_lower unicode_fold secret key ProductionAuthRules now revoked resolver r = Next user →
  match user with
  | None => public_endpoint r
  | Some u =>
      by_service key r u
      ∨ by_token secret now revoked r u ∧ wallet_bound resolver (Path r) u
        ∧ (HasPrefix (Path r) "/api/v1/admin/" = true → "admin"%string ∈ u_Roles u)
  end.
Proof.
  unfold authorize. destruct (Authenticate _ _ _ _ _ r) as [user'|] eqn:Ea; [|done].
  intros [-> Hw]%binding_next. apply authenticate_next in Ea. destruct user' as [u|].
  - destruct Ea as [_ [Hs|[Ht Hg]]]; [by left|]. right. split; [done|]. split; [done|].
    intros Hadm. apply production_admin in Hadm. rewrite Hadm in Hg. destruct Hg as [_ Hg].
    by apply negb_false_iff, bool_decide_eq_true in Hg.
  - by apply production_public.
Qed.
End Proofs.

(** ** The memory of the resolver *)

(** A call: whether the id parses, the clock at the lookup and at the store,
    the row, the user. *)
Record call := mkCall { k_parses : bool; k_t1 : Time; k_t2 : Time; k_row : option (option string); k_user : string }.

Inductive event := Call (k : call) | Drop (user : string).

Definition resolve (e : event) (c : CachedWalletResolver) : CachedWalletResolver :=
  match e with
  | Call k => (WalletForUser (k_parses k) (k_t1 k) (k_t2 k) (k_row k) (k_user k) c).2
  | Drop user => Invalidate user c
  end.

(** [wallet] was on record for [user] when a call stored it at [t]. *)
Definition was_read (es : list event) (user wallet : string) (t : Time) : Prop :=
  ∃ k u, Call k ∈ es ∧ k_user k = user ∧ k_t2 k = t ∧ k_row k = Some u ∧ wallet = default ""%string u.

Definition remembers (d : Duration) (es : list event) (c : CachedWalletResolver) : Prop :=
  ttl c = d ∧ ∀ user e, entries c !! user = Some e →
    ∃ t, was_read es user (e_wallet e) t ∧ e_expiresAt e = t + d.

Lemma remembers_mono d es es' c : es ⊆ es' → remembers d es c → remembers d es' c.
Proof.
  intros Hsub [Ht Hc]. split; [done|]. intros user e He. destruct (Hc user e He) as (t & (k & u & Hk & ?) & ?).
  exists t. split; [|done]. exists k, u. split; [by apply Hsub|done].
Qed.

Lemma resolve_remembers d es e c : remembers d es c → remembers d (es ++ [e]) (resolve e c).
Proof.
  intros Hr. pose proof (remembers_mono d es (es ++ [e]) c ltac:(set_solver) Hr) as Hr'.
  destruct e as [k|user]; simpl.
  - unfold WalletForUser. destruct (k_parses k); [|done]. simpl.
    destruct (cacheLookup _ _ c); [done|]. destruct (k_row k) as [u|] eqn:Erow; [|done]. simpl.
    unfold cacheStore. destruct (ttl c <=? 0); [done|]. destruct Hr' as [Ht Hc]. split; [done|].
    simpl. intros user e. rewrite lookup_insert_Some. intros [[<- <-]|[_ He]]; [|by apply Hc].
    exists (k_t2 k). simpl. rewrite <-Ht. split; [|done]. exists k, u. split; [set_solver|done].
  - destruct Hr' as [Ht Hc]. split; [done|]. simpl. intros u e [_ He]%lookup_delete_Some. by apply Hc.
Qed.

Lemma resolves_remember d es : remembers d es (fold_left (λ c e, resolve e c) es (mkResolver d ∅)).
Proof.
  induction es as [|e es IH] using rev_ind; [by split|].
  rewrite fold_left_app. by apply resolve_remembers.
Qed.

(** After any calls and invalidations, the wallet the resolver answers for
    a user is what the database says now, or what it said at a store no more
    than the ttl ago. *)
Theorem wallet_resolver_staleness d es t1 t2 row user w :
  (WalletForUser true t1 t2 row user (fold_left (λ c e, resolve e c) es (mkResolver d ∅))).1 = Some w →
  (∃ u, row = Some u ∧ w = default ""%string u)
  ∨ ∃ t, was_read es user w t ∧ t1 ≤ t + d.
Proof.
  destruct (resolves_remember d es) as [Ht Hc].
  set (c := fold_left _ es _) in *. unfold WalletForUser. simpl.
  destruct (cacheLookup t1 user c) as [v|] eqn:El.
  - intros [= ->]. right. unfold cacheLookup in El. destruct (ttl c <=? 0); [done|].
    destruct (entries c !! user) as [e|] eqn:Ee; [|done].
    destruct (Z.ltb_spec (e_expiresAt e) t1); [done|]. injection El as <-.
    destruct (Hc user e Ee) as (t & Hr & Hx). exists t. split; [done|lia].
  - destruct row as [u|]; [|done]. intros [= <-]. left. by exists u.
Qed.

(** ** Witnesses *)

Section Demo.
#[local] Instance demo_json : ClaimsJSON := {
  marshal c := Some (Subject c);
  unmarshal s := Some (mkClaims s "GW" [] ["admin"%string] "s1" "t" 100 0);
}.

Definition demo_hmac (secret data : string) : string := secret +:+ data.
Definition demo_claims : Claims := mkClaims "u1" "GW" [] ["admin"%string] "s1" "t" 100 0.
Definition demo_token : string := default ""%string (MakeJWT demo_hmac demo_claims "k").

Definition demo_request (path auth : string) : AuthRequest := mkRequest "PUT" path auth "u1" "".

#[local] Abbreviation run key r :=
  (authorize demo_hmac id (λ _ _, false) "k" key ProductionAuthRules (50 * Second)
     (λ _, Some false) (Some (λ _, Some "gw"%string)) r).

Example demo_admitted :
  run "key" (demo_request "/api/v1/admin/health" ("bearer " +:+ demo_token)) = Next (Some (token_caller demo_claims)).
Proof. vm_compute. reflexivity. Qed.

Lemma auth_jwt_roundtrip_witness : ParseJWT demo_hmac (50 * Second) demo_token "k" = Ok demo_claims.
Proof.
  apply (auth_jwt_roundtrip demo_hmac (50 * Second) "k" demo_claims "u1"); [done|done|done|].
  intros _. by vm_compute.
Defined.

Lemma auth_policy_enforced_witness :
  by_service id (λ _ _, false) "key" (demo_request "/api/v1/admin/health" ("bearer " +:+ demo_token)) (token_caller demo_claims)
  ∨ by_token demo_hmac (λ _ _, false) "k" (50 * Second) (λ _, Some false)
      (demo_request "/api/v1/admin/health" ("bearer " +:+ demo_token)) (token_caller demo_claims)
    ∧ wallet_bound (λ _ _, false) (Some (λ _, Some "gw"%string)) "/api/v1/admin/health" (token_caller demo_claims)
    ∧ (HasPrefix "/api/v1/admin/health" "/api/v1/admin/" = true → "admin"%string ∈ ["admin"%string]).
Proof.
  apply (auth_policy_enforced demo_hmac id (λ _ _, false) "k" "key" (50 * Second) (λ _, Some false)
    (Some (λ _, Some "gw"%string)) (demo_request "/api/v1/admin/health" ("bearer " +:+ demo_token))
    (Some (token_caller demo_claims))).
  exact demo_admitted.
Defined.

Lemma wallet_resolver_staleness_witness :
  (∃ u, (None : option (option string)) = Some u ∧ "GW"%string = default ""%string u)
  ∨ ∃ t, was_read [Call (mkCall true 0 1 (Some (Some "GW"%string)) "u1")] "u1" "GW" t ∧ 10 ≤ t + 60.
Proof.
  apply (wallet_resolver_staleness 60 _ 10 11 None "u1" "GW"). by vm_compute.
Defined.

(** The service credential is admitted before scope and role are looked
    at, so its holder reaches the administration endpoints, the switches of the
    money path among them, without the role admin. *)
Theorem auth_service_key_skips_roles :
  ∃ u, run "key" (demo_request "/api/v1/admin/money-path/switches/withdrawal" "Bearer key") = Next (Some u)
       ∧ "admin"%string ∉ u_Roles u ∧ u_ID u = "u1"%string
       ∧ matchRule (λ _ _, false) ProductionAuthRules
           (demo_request "/api/v1/admin/money-path/switches/withdrawal" "Bearer key")
         = Some (mkRule "" "/api/v1/admin/" false "" "admin").
Proof.
  eexists. split; [vm_compute; reflexivity|]. split; [set_solver|]. split; [done|]. by vm_compute.
Qed.
End Demo.
