(* ===== verification/Sessions.v ===== *)
(** Login sessions and their refresh tokens (internal/domain/session/model.go,
    internal/repository/postgres/session_repository.go,
    internal/service: auth_service.go, revocation_cache.go,
    challenge_store.go): the tables [sessions] and [refresh_tokens] with
    rotation and reuse detection, the revocation cache, and the service that
    issues access tokens over them.

    A transaction of the repository is atomic: [q] says that one of its
    statements fails, which rolls it back, and [d] how its commit ends. *)

From stdpp Require Import sorting pretty.
From S2P Require Import Prelude Sql GoStrings Auth.
From Stdlib Require Import Ascii.
Open Scope Z_scope.

(** ** Data (domain/session/model.go) *)

Inductive SessionError :=
| ErrSessionNotFound | ErrSessionRevoked | ErrSessionExpired | ErrRefreshTokenInvalid
| ErrRefreshTokenExpired | ErrRefreshTokenReused | ErrDeviceMismatch | ErrDB.

Definition ReasonLogout : string := "logout".
Definition ReasonLogoutAll : string := "logout_all".
Definition ReasonReuseDetected : string := "reuse_detected".
Definition ReasonDeviceMismatch : string := "device_mismatch".
Definition ReasonAbsoluteExpiry : string := "absolute_expiry".
Definition ReasonRefreshExpired : string := "refresh_expired".

Record Session := mkSession {
  ID : UUID;
  UserID : UUID;
  WalletAddress : string;
  DeviceFingerprint : string;
  UserAgent : option string;
  IPAddress : option string;
  CreatedAt : Time;
  LastActiveAt : Time;
  AbsoluteExpiresAt : Time;
  RevokedAt : option Time;
  RevokedReason : option string;
}.

Record RefreshToken := mkToken {
  rt_ID : UUID;
  rt_SessionID : UUID;
  rt_TokenHash : string;
  ParentID : option UUID;
  rt_IssuedAt : Time;
  rt_ExpiresAt : Time;
  UsedAt : option Time;
  rt_RevokedAt : option Time;
  rt_RevokedReason : option string;
}.

Definition IsActive (now : Time) (s : Session) : bool :=
  bool_decide (RevokedAt s = None) && (now <? AbsoluteExpiresAt s).

(** ** The tables (migrations/088) *)

Record DB := mkDB { sessions : gmap UUID Session; tokens : gmap UUID RefreshToken }.

Definition emptyDB : DB := mkDB ∅ ∅.

Definition is_some {A} (o : option A) : bool := match o with Some _ => true | None => false end.

(** SELECT ... FROM refresh_tokens WHERE token_hash = $1, which is unique. *)
Definition token_by_hash (hash : string) (db : DB) : option RefreshToken :=
  match List.filter (λ p, bool_decide (rt_TokenHash p.2 = hash)) (map_to_list (tokens db)) with
  | p :: _ => Some p.2
  | [] => None
  end.

(** INSERT INTO refresh_tokens; [None] when the id or the hash is taken. *)
Definition insert_token (t : RefreshToken) (db : DB) : option DB :=
  if is_some (tokens db !! rt_ID t) || is_some (token_by_hash (rt_TokenHash t) db) then None
  else Some (mkDB (sessions db) (<[rt_ID t := t]> (tokens db))).

Definition revoked_token (reason : string) (now : Time) (t : RefreshToken) : RefreshToken :=
  mkToken (rt_ID t) (rt_SessionID t) (rt_TokenHash t) (ParentID t) (rt_IssuedAt t) (rt_ExpiresAt t)
    (UsedAt t) (Some now) (Some reason).

Definition used_token (now : Time) (t : RefreshToken) : RefreshToken :=
  mkToken (rt_ID t) (rt_SessionID t) (rt_TokenHash t) (ParentID t) (rt_IssuedAt t) (rt_ExpiresAt t)
    (Some now) (rt_RevokedAt t) (rt_RevokedReason t).

Definition revoked_session (reason : string) (now : Time) (s : Session) : Session :=
  mkSession (ID s) (UserID s) (WalletAddress s) (DeviceFingerprint s) (UserAgent s) (IPAddress s)
    (CreatedAt s) (LastActiveAt s) (AbsoluteExpiresAt s) (Some now) (Some reason).

Definition active_session (now : Time) (s : Session) : Session :=
  mkSession (ID s) (UserID s) (WalletAddress s) (DeviceFingerprint s) (UserAgent s) (IPAddress s)
    (CreatedAt s) now (AbsoluteExpiresAt s) (RevokedAt s) (RevokedReason s).

(** UPDATE refresh_tokens SET revoked_at ... WHERE session_id in [among] AND
    revoked_at IS NULL *)
Definition revoke_tokens (among : UUID → bool) (reason : string) (now : Time) (m : gmap UUID RefreshToken) :
    gmap UUID RefreshToken :=
  (λ t, if among (rt_SessionID t) && negb (is_some (rt_RevokedAt t)) then revoked_token reason now t else t) <$> m.

Definition revokeSessionTx (id : UUID) (reason : string) (now : Time) (db : DB) : DB :=
  mkDB (alter (revoked_session reason now) id (sessions db))
       (revoke_tokens (λ i, bool_decide (i = id)) reason now (tokens db)).

(** ** The repository *)

(** A transaction that reaches its commit. *)
Definition commit {A} (d : dbres) (db db' : DB) (a : A) : option A * DB :=
  (if failed d then None else Some a, effect d db db').

(** [sid], [tid] are the ids the database draws, [dbnow] its clock; [s] holds
    the fields the service sets. *)
Definition CreateSession (q : bool) (d : dbres) (sid tid : UUID) (dbnow : Time) (s : Session)
    (refreshTokenHash : string) (refreshExpiresAt : Time) (db : DB)
    : result SessionError (Session * RefreshToken) * DB :=
  if q || is_some (sessions db !! sid) then (Err ErrDB, db)
  else
    let s := mkSession sid (UserID s) (WalletAddress s) (DeviceFingerprint s) (UserAgent s) (IPAddress s)
               dbnow dbnow (AbsoluteExpiresAt s) None None in
    let rt := mkToken tid sid refreshTokenHash None dbnow refreshExpiresAt None None None in
    match insert_token rt (mkDB (<[sid := s]> (sessions db)) (tokens db)) with
    | None => (Err ErrDB, db)
    | Some db' =>
        match commit d db db' (s, rt) with
        | (Some a, db') => (Ok a, db')
        | (None, db') => (Err ErrDB, db')
        end
    end.

(** The session is returned with some errors. *)
Inductive rotation :=
| Rotated (s : Session) (rt : RefreshToken)
| Refused (s : option Session) (e : SessionError).

(** [now] is time.Now() inside the transaction. *)
Definition RotateRefreshToken (q : bool) (d : dbres) (now dbnow : Time) (newID : UUID)
    (rawTokenHash presentedFingerprint newTokenHash : string) (newExpiresAt : Time) (db : DB)
    : rotation * DB :=
  let revoke reason db' e sess :=
    match commit d db (revokeSessionTx (ID sess) reason now db') e with
    | (Some e, db') => (Refused (Some sess) e, db')
    | (None, db') => (Refused None ErrDB, db')
    end in
  if q then (Refused None ErrDB, db)
  else match token_by_hash rawTokenHash db with
  | None => (Refused None ErrRefreshTokenInvalid, db)
  | Some tok =>
      match sessions db !! rt_SessionID tok with
      | None => (Refused None ErrDB, db)
      | Some sess =>
          if is_some (RevokedAt sess) then (Refused (Some sess) ErrSessionRevoked, db)
          else if AbsoluteExpiresAt sess <? now then revoke ReasonAbsoluteExpiry db ErrSessionExpired sess
          else if negb (bool_decide (presentedFingerprint = DeviceFingerprint sess))
          then revoke ReasonDeviceMismatch db ErrDeviceMismatch sess
          else if is_some (UsedAt tok) || is_some (rt_RevokedAt tok)
          then revoke ReasonReuseDetected db ErrRefreshTokenReused sess
          else if rt_ExpiresAt tok <? now then
            revoke ReasonRefreshExpired
              (mkDB (sessions db) (alter (revoked_token ReasonRefreshExpired now) (rt_ID tok) (tokens db)))
              ErrRefreshTokenExpired sess
          else
            let newRT := mkToken newID (ID sess) newTokenHash (Some (rt_ID tok)) dbnow newExpiresAt
                           None None None in
            match insert_token newRT (mkDB (sessions db) (alter (used_token now) (rt_ID tok) (tokens db))) with
            | None => (Refused None ErrDB, db)
            | Some db' =>
                let db' := mkDB (alter (active_session now) (ID sess) (sessions db')) (tokens db') in
                match commit d db db' (active_session now sess, newRT) with
                | (Some (s, rt), db') => (Rotated s rt, db')
                | (None, db') => (Refused None ErrDB, db')
                end
            end
      end
  end.

#[global] Arguments RotateRefreshToken : simpl never.

Definition GetSessionByID (q : bool) (id : UUID) (db : DB) : result SessionError Session :=
  if q then Err ErrDB
  else match sessions db !! id with Some s => Ok s | None => Err ErrSessionNotFound end.

(** ORDER BY last_active_at DESC *)
Definition more_recent (p r : UUID * Session) : Prop := LastActiveAt r.2 ≤ LastActiveAt p.2.

#[export] Instance more_recent_dec : RelDecision more_recent.
Proof. intros p r. unfold more_recent. apply _. Defined.

Definition ListActiveByUser (q : bool) (userID : UUID) (dbnow : Time) (db : DB)
    : result SessionError (list Session) :=
  if q then Err ErrDB
  else Ok ((merge_sort more_recent
              (List.filter (λ p, bool_decide (UserID p.2 = userID) && negb (is_some (RevokedAt p.2))
                                 && (dbnow <? AbsoluteExpiresAt p.2))
                 (map_to_list (sessions db)))).*2).

Definition RevokeSession (q : bool) (d : dbres) (dbnow : Time) (id : UUID) (reason : string) (db : DB)
    : result SessionError unit * DB :=
  if q then (Err ErrDB, db)
  else match sessions db !! id with
  | Some s =>
      if is_some (RevokedAt s) then (Err ErrSessionNotFound, db)
      else match commit d db (revokeSessionTx id reason dbnow db) tt with
           | (Some _, db') => (Ok tt, db')
           | (None, db') => (Err ErrDB, db')
           end
  | None => (Err ErrSessionNotFound, db)
  end.

Definition RevokeAllByUser (q : bool) (d : dbres) (dbnow : Time) (userID : UUID) (reason : string) (db : DB)
    : result SessionError (list Session) * DB :=
  if q then (Err ErrDB, db)
  else
    let hit s := bool_decide (UserID s = userID) && negb (is_some (RevokedAt s)) in
    let revoked := (λ p, revoked_session reason dbnow p.2) <$>
                     List.filter (λ p, hit p.2) (map_to_list (sessions db)) in
    let among i := match sessions db !! i with Some s => hit s | None => false end in
    let db' := mkDB ((λ s, if hit s then revoked_session reason dbnow s else s) <$> sessions db)
                 (revoke_tokens among reason dbnow (tokens db)) in
    match commit d db db' revoked with
    | (Some l, db') => (Ok l, db')
    | (None, db') => (Err ErrDB, db')
    end.

(** ** The revocation cache (service/revocation_cache.go)

    [until] says until when a session is listed as revoked. *)

Class RevocationCache (C : Type) := {
  MarkRevoked : Time → string → Duration → C → bool * C;
  IsRevoked : Time → string → C → option bool * C;
  until : C → string → option Time;
}.

Class RevocationLaws (C : Type) `{RevocationCache C} : Prop := {
  mark_ok now sid ttl c c' :
    MarkRevoked now sid ttl c = (true, c') → until c' sid = Some (timeAdd now ttl);
  mark_other now sid ttl c ok c' :
    MarkRevoked now sid ttl c = (ok, c') → ∀ s, s ≠ sid → until c' s = until c s;
  mark_failed now sid ttl c c' :
    MarkRevoked now sid ttl c = (false, c') → until c' sid = until c sid ∨ until c' sid = Some (timeAdd now ttl);
  listed_revoked now sid c b c' e :
    IsRevoked now sid c = (Some b, c') → until c sid = Some e → now ≤ e → b = true;
  asking_keeps now sid c r c' s e :
    IsRevoked now sid c = (r, c') → until c s = Some e → now ≤ e → until c' s = Some e;
}.

#[export] Instance InMemoryRevocationCache : RevocationCache (gmap string Time) := {
  MarkRevoked now sid ttl m := (true, <[sid := timeAdd now ttl]> m);
  IsRevoked now sid m :=
    match m !! sid with
    | None => (Some false, m)
    | Some expiresAt => if expiresAt <? now then (Some false, delete sid m) else (Some true, m)
    end;
  until m sid := m !! sid;
}.

#[export] Instance InMemoryRevocationLaws : RevocationLaws (gmap string Time).
Proof.
  split; simpl.
  - intros now sid ttl c c' [= <-]. apply lookup_insert_eq.
  - intros now sid ttl c ok c' [= _ <-] s Hs. by apply lookup_insert_ne.
  - done.
  - intros now sid c b c' e. destruct (c !! sid) as [x|]; [|done].
    destruct (Z.ltb_spec x now); intros [= <- _] [= ->] ?; [lia|done].
  - intros now sid c r c' s e. destruct (c !! sid) as [x|] eqn:Ex; [|by intros [= _ <-]].
    destruct (Z.ltb_spec x now); intros [= _ <-] He ?; [|done].
    rewrite lookup_delete_ne; [done|]. intros ->. rewrite He in Ex. injection Ex as ->. lia.
Qed.

Definition revocationKey (sessionID : string) : string := "auth:revoked:" +:+ sessionID.

(** The commands of Redis the cache uses: SET with an expiry and EXISTS, which
    fail or answer; [deadline] is when a key expires. *)
Class Redis (R : Type) := {
  redis_Set : Time → string → Duration → R → bool * R;
  redis_Exists : Time → string → R → option Z * R;
  deadline : R → string → option Time;
}.

Class RedisLaws (R : Type) `{Redis R} : Prop := {
  redis_set_ok now k ttl r r' : redis_Set now k ttl r = (true, r') → deadline r' k = Some (timeAdd now ttl);
  redis_set_other now k ttl r ok r' : redis_Set now k ttl r = (ok, r') → ∀ k', k' ≠ k → deadline r' k' = deadline r k';
  redis_set_failed now k ttl r r' :
    redis_Set now k ttl r = (false, r') → deadline r' k = deadline r k ∨ deadline r' k = Some (timeAdd now ttl);
  redis_exists_live now k r n r' e : redis_Exists now k r = (Some n, r') → deadline r k = Some e → now ≤ e → 0 < n;
  redis_exists_keeps now k r o r' k' e :
    redis_Exists now k r = (o, r') → deadline r k' = Some e → now ≤ e → deadline r' k' = Some e;
}.

Record RedisRevocationCache (R : Type) := mkRedisCache { client : R }.
Arguments mkRedisCache {R}. Arguments client {R}.

#[export] Instance RedisRevocation {R} `{Redis R} : RevocationCache (RedisRevocationCache R) := {
  MarkRevoked now sid ttl c :=
    let '(ok, r) := redis_Set now (revocationKey sid) ttl (client c) in (ok, mkRedisCache r);
  IsRevoked now sid c :=
    let '(n, r) := redis_Exists now (revocationKey sid) (client c) in
    ((λ n, bool_decide (0 < n)) <$> n, mkRedisCache r);
  until c sid := deadline (client c) (revocationKey sid);
}.

Lemma revocationKey_inj s t : revocationKey s = revocationKey t → s = t.
Proof. apply (inj (String.append "auth:revoked:")). Qed.

#[export] Instance RedisRevocationLaws {R} `{RedisLaws R} : RevocationLaws (RedisRevocationCache R).
Proof.
  split; simpl.
  - intros now sid ttl c c'. destruct (redis_Set _ _ _ _) as [ok r] eqn:E. intros [= -> <-].
    by apply (redis_set_ok _ _ _ _ _ E).
  - intros now sid ttl c ok c'. destruct (redis_Set _ _ _ _) as [ok' r] eqn:E. intros [= -> <-] s Hs.
    apply (redis_set_other _ _ _ _ _ _ E). by intros ?%revocationKey_inj.
  - intros now sid ttl c c'. destruct (redis_Set _ _ _ _) as [ok r] eqn:E. intros [= -> <-].
    by apply (redis_set_failed _ _ _ _ _ E).
  - intros now sid c b c' e. destruct (redis_Exists _ _ _) as [[n|] r] eqn:E; [|done].
    intros [= <- <-] He Hn. apply bool_decide_eq_true. by apply (redis_exists_live _ _ _ _ _ _ E He Hn).
  - intros now sid c r c' s e. destruct (redis_Exists _ _ _) as [n r'] eqn:E. intros [= _ <-].
    by apply (redis_exists_keeps _ _ _ _ _ _ _ E).
Qed.

(** ** Challenges (service/challenge_store.go, in memory) *)

Record inMemoryEntry := mkChallenge { value : string; expiresAt : Time }.

Abbreviation ChallengeStore := (gmap string inMemoryEntry) (only parsing).

Definition defaultChallengeCleanupInterval : Duration := 30 * Second.

Definition challengeCleanupInterval (ttl : Duration) : Duration :=
  if (ttl <=? 0) || (defaultChallengeCleanupInterval <? ttl) then defaultChallengeCleanupInterval else ttl.

Definition SetChallenge (ttl : Duration) (now : Time) (wallet challenge : string) (m : ChallengeStore) :
    ChallengeStore := <[wallet := mkChallenge challenge (timeAdd now ttl)]> m.

Definition GetAndDelete (now : Time) (wallet : string) (m : ChallengeStore) : option string * ChallengeStore :=
  match m !! wallet with
  | Some entry => (if expiresAt entry <? now then None else Some (value entry), delete wallet m)
  | None => (None, delete wallet m)
  end.

Definition evictExpired (now : Time) (m : ChallengeStore) : ChallengeStore :=
  filter (λ x, ¬ expiresAt x.2 < now) m.

(** ** The service (service/auth_service.go) *)

Inductive AuthError :=
| ErrChallengeExpired | ErrSignatureInvalid | ErrWalletInvalid | ErrDeviceFingerprintRequired
| ErrRefreshFailed | ErrSession (e : SessionError) | ErrOther.

Record SessionMetadata := mkMeta { m_DeviceFingerprint : string; m_UserAgent : string; m_IPAddress : string }.

Record Tokens := mkTokens {
  AccessToken : string;
  NewRefreshToken : string;
  ExpiresIn : Z;
  RefreshExpiresIn : Z;
  tk_SessionID : UUID;
  tk_UserID : UUID;
}.

Record AuthConfig := mkAuthConfig {
  Secret : string;
  AccessTokenExpiry : Duration;
  RefreshTokenExpiry : Duration;
  AbsoluteSessionLifetime : Duration;
}.

(** [int64(d.Seconds())] *)
Definition seconds (d : Duration) : Z :=
  f64_to_i64 (f64_add (f64_of_Z (Z.quot d Second)) (f64_div (f64_of_Z (Z.rem d Second)) (f64_of_Z Second))).

Definition nonEmptyPtr (s : string) : option string := if decide (s = ""%string) then None else Some s.

(** What the service does besides the tables and the caches. *)
Inductive action :=
| OnLoginSuccess (sid : UUID)
| OnRefreshReuseDetected (sid : UUID) (reason : string)
| CloseConnectionsForSession (sid : UUID)
| CloseConnectionsForUser (uid : UUID)
| AuditLogged (action : string) (entity : UUID).

Section Service.
Context `{ClaimsJSON} {C : Type} `{RevocationCache C}.
Context (hmac : string → string → string) (sha256 : string → string) (uuid_String : UUID → string).
Context (cfg : AuthConfig).

(** Hexadecimal digest of SHA-256. *)
Definition hashOpaqueToken (raw : string) : string := sha256 raw.

Definition access_claims (now : Time) (userID : UUID) (wallet : string) (roles : list string) (sid : UUID)
    (tokenID : string) : Claims :=
  mkClaims (uuid_String userID) wallet [] roles (uuid_String sid) tokenID
    (Unix (timeAdd now (AccessTokenExpiry cfg))) (Unix now).

(** [now] is the clock when the entry is written. *)
Definition finalizeRevocation (now : Time) (sess : option Session) (reason : string) (isCompromise : bool)
    (c : C) : list action * C :=
  match sess with
  | None => ([], c)
  | Some s =>
      let '(_, c') := MarkRevoked now (uuid_String (ID s)) (AccessTokenExpiry cfg + Minute) c in
      (CloseConnectionsForSession (ID s) :: AuditLogged ("session." +:+ reason) (ID s)
         :: (if isCompromise then [OnRefreshReuseDetected (ID s) reason] else []), c')
  end.

(** What a call of Refresh meets: the clock of the service, the random token,
    the transaction's ends, clocks and id, the clock when a revocation is
    marked, the user's roles, the id of the access token. *)
Record RefreshEnv := mkRefreshEnv {
  e_now : Time; e_raw : option string; e_q : bool; e_d : dbres; e_txnow : Time; e_dbnow : Time;
  e_newID : UUID; e_marknow : Time; e_roles : option (list string); e_tokenID : string;
}.

Definition finalized (e : SessionError) : option (string * bool) :=
  match e with
  | ErrRefreshTokenReused => Some (ReasonReuseDetected, true)
  | ErrDeviceMismatch => Some (ReasonDeviceMismatch, true)
  | ErrSessionExpired => Some (ReasonAbsoluteExpiry, false)
  | ErrRefreshTokenExpired => Some (ReasonRefreshExpired, false)
  | _ => None
  end.

Definition Refresh (env : RefreshEnv) (rawRefreshToken : string) (meta : SessionMetadata) (db : DB) (c : C)
    : result AuthError Tokens * list action * DB * C :=
  if decide (rawRefreshToken = ""%string) then (Err ErrRefreshFailed, [], db, c)
  else if decide (m_DeviceFingerprint meta = ""%string) then (Err ErrDeviceFingerprintRequired, [], db, c)
  else match e_raw env with
  | None => (Err ErrOther, [], db, c)
  | Some newRaw =>
      let '(r, db') :=
        RotateRefreshToken (e_q env) (e_d env) (e_txnow env) (e_dbnow env) (e_newID env)
          (hashOpaqueToken rawRefreshToken) (m_DeviceFingerprint meta) (hashOpaqueToken newRaw)
          (timeAdd (e_now env) (RefreshTokenExpiry cfg)) db in
      match r with
      | Refused sess e =>
          match finalized e with
          | Some (reason, compromise) =>
              let '(fx, c') := finalizeRevocation (e_marknow env) sess reason compromise c in
              (Err ErrRefreshFailed, fx, db', c')
          | None => (Err ErrRefreshFailed, [], db', c)
          end
      | Rotated s _ =>
          match e_roles env with
          | None => (Err ErrOther, [], db', c)
          | Some roles =>
              match MakeJWT hmac (access_claims (e_now env) (UserID s) (WalletAddress s) roles (ID s) (e_tokenID env))
                      (Secret cfg) with
              | None => (Err ErrOther, [], db', c)
              | Some accessToken =>
                  (Ok (mkTokens accessToken newRaw (seconds (AccessTokenExpiry cfg))
                         (seconds (RefreshTokenExpiry cfg)) (ID s) (UserID s)), [], db', c)
              end
          end
      end
  end.

(** [q1] is a failing read, [q2] and [d] the ends of the transaction. *)
Definition revokeOwnedSession (q1 q2 : bool) (d : dbres) (dbnow now : Time) (userID sessionID : UUID)
    (reason : string) (db : DB) (c : C) : result AuthError unit * list action * DB * C :=
  match GetSessionByID q1 sessionID db with
  | Err e => (Err (ErrSession e), [], db, c)
  | Ok sess =>
      if negb (UserID sess =? userID) then (Err (ErrSession ErrSessionNotFound), [], db, c)
      else match RevokeSession q2 d dbnow sessionID reason db with
      | (Err e, db') => (Err (ErrSession e), [], db', c)
      | (Ok _, db') =>
          let '(_, c') := MarkRevoked now (uuid_String sessionID) (AccessTokenExpiry cfg + Minute) c in
          (Ok tt, [CloseConnectionsForSession sessionID; AuditLogged ("session." +:+ reason) sessionID], db', c')
      end
  end.

Definition Logout q1 q2 d dbnow now (userID sessionID : UUID) :=
  revokeOwnedSession q1 q2 d dbnow now userID sessionID ReasonLogout.

(** [now] is the clock at each mark. *)
Fixpoint markAll (now : nat → Time) (i : nat) (l : list Session) (c : C) : C :=
  match l with
  | [] => c
  | s :: r => markAll now (S i) r (MarkRevoked (now i) (uuid_String (ID s)) (AccessTokenExpiry cfg + Minute) c).2
  end.

Definition LogoutAll (q : bool) (d : dbres) (dbnow : Time) (now : nat → Time) (userID : UUID) (db : DB) (c : C)
    : result AuthError Z * list action * DB * C :=
  match RevokeAllByUser q d dbnow userID ReasonLogoutAll db with
  | (Err e, db') => (Err (ErrSession e), [], db', c)
  | (Ok revoked, db') =>
      (Ok (Z.of_nat (length revoked)),
       [CloseConnectionsForUser userID; AuditLogged "session.logout_all" userID],
       db', markAll now 0 revoked c)
  end.

(** What a login meets: whether the store fails, the clock at the challenge
    and after it, the user found or registered, the roles, the random token,
    the transaction's ends, ids and clock, the id of the access token. *)
Record LoginEnv := mkLoginEnv {
  l_store : bool; l_t0 : Time; l_now : Time; l_user : option UUID; l_registered : option UUID;
  l_roles : option (list string); l_raw : option string; l_q : bool; l_d : dbres;
  l_sid : UUID; l_tid : UUID; l_dbnow : Time; l_tokenID : string;
}.

Context (ParseAddress : string → bool) (DecodeSignature : string → option string)
        (Verify : string → string → string → bool).

(** [rand] is the hexadecimal of 32 random bytes, [None] without randomness. *)
Definition GenerateChallenge (ttl : Duration) (now : Time) (rand : option string) (walletAddress : string)
    (m : ChallengeStore) : result AuthError string * ChallengeStore :=
  if negb (ParseAddress walletAddress) then (Err ErrWalletInvalid, m)
  else match rand with
  | None => (Err ErrOther, m)
  | Some challenge => (Ok challenge, SetChallenge ttl now walletAddress challenge m)
  end.

Definition newline : string := String "010"%char "".
Definition sep53MessageHash (message : string) : string :=
  sha256 ("Stellar Signed Message:" +:+ newline +:+ message).

Definition VerifyAndIssue (env : LoginEnv) (walletAddress signature challenge : string) (meta : SessionMetadata)
    (m : ChallengeStore) (db : DB) : result AuthError Tokens * list action * ChallengeStore * DB :=
  if decide (m_DeviceFingerprint meta = ""%string) then (Err ErrDeviceFingerprintRequired, [], m, db)
  else if l_store env then (Err ErrOther, [], m, db)
  else
    let '(stored, m') := GetAndDelete (l_t0 env) walletAddress m in
    match stored with
    | None => (Err ErrChallengeExpired, [], m', db)
    | Some stored =>
        if negb (bool_decide (stored = challenge)) then (Err ErrChallengeExpired, [], m', db)
        else if negb (ParseAddress walletAddress) then (Err ErrWalletInvalid, [], m', db)
        else match DecodeSignature signature with
        | None => (Err ErrSignatureInvalid, [], m', db)
        | Some sigBytes =>
            if negb (Verify walletAddress (sep53MessageHash challenge) sigBytes)
            then (Err ErrSignatureInvalid, [], m', db)
            else match (match l_user env with Some u => Some u | None => l_registered env end), l_roles env, l_raw env with
            | Some userID, Some roles, Some rawRefresh =>
                let s := mkSession 0 userID walletAddress (m_DeviceFingerprint meta) (nonEmptyPtr (m_UserAgent meta))
                           (nonEmptyPtr (m_IPAddress meta)) 0 0
                           (timeAdd (l_now env) (AbsoluteSessionLifetime cfg)) None None in
                match CreateSession (l_q env) (l_d env) (l_sid env) (l_tid env) (l_dbnow env) s
                        (hashOpaqueToken rawRefresh) (timeAdd (l_now env) (RefreshTokenExpiry cfg)) db with
                | (Err e, db') => (Err (ErrSession e), [], m', db')
                | (Ok (s, _), db') =>
                    match MakeJWT hmac (access_claims (l_now env) userID walletAddress roles (ID s) (l_tokenID env))
                            (Secret cfg) with
                    | None => (Err ErrOther, [], m', db')
                    | Some accessToken =>
                        (Ok (mkTokens accessToken rawRefresh (seconds (AccessTokenExpiry cfg))
                               (seconds (RefreshTokenExpiry cfg)) (ID s) userID),
                         [OnLoginSuccess (ID s); AuditLogged "session.created" (ID s)], m', db')
                    end
                end
            | _, _, _ => (Err ErrOther, [], m', db)
            end
        end
    end.
End Service.

(** ** The moves of the tables

    Whatever a call of the repository does to the tables is nothing, a new
    session, a rotation, or the revocation of sessions that were not revoked. *)

Lemma is_some_true {A} (o : option A) : is_some o = true ↔ o ≠ None.
Proof. by destruct o. Qed.

Lemma is_some_false {A} (o : option A) : is_some o = false ↔ o = None.
Proof. by destruct o. Qed.

Lemma token_by_hash_Some h db t :
  token_by_hash h db = Some t → ∃ i, tokens db !! i = Some t ∧ rt_TokenHash t = h.
Proof.
  unfold token_by_hash. destruct (List.filter _ _) as [|p l] eqn:E; [done|]. intros [= <-].
  assert (Hp : p ∈ List.filter (λ p, bool_decide (rt_TokenHash p.2 = h)) (map_to_list (tokens db)))
    by (rewrite E; left).
  apply filtered_In in Hp as [Hp Hh%bool_decide_eq_true]. by exists p.1.
Qed.

Lemma token_by_hash_None h db i t :
  token_by_hash h db = None → tokens db !! i = Some t → rt_TokenHash t ≠ h.
Proof.
  unfold token_by_hash. destruct (List.filter _ _) as [|p l] eqn:E; [|done]. intros _ Hi Hh.
  assert (Hp : (i, t) ∈ List.filter (λ p, bool_decide (rt_TokenHash p.2 = h)) (map_to_list (tokens db)))
    by (apply filtered_In; split; [done|by apply bool_decide_eq_true]).
  rewrite E in Hp. by apply not_elem_of_nil in Hp.
Qed.

Lemma insert_token_Some t db db' :
  insert_token t db = Some db' →
  sessions db' = sessions db ∧ tokens db' = <[rt_ID t := t]> (tokens db)
  ∧ tokens db !! rt_ID t = None ∧ ∀ i u, tokens db !! i = Some u → rt_TokenHash u ≠ rt_TokenHash t.
Proof.
  unfold insert_token. destruct (_ || _) eqn:E; [done|]. intros [= <-].
  apply orb_false_iff in E as [E1%is_some_false E2%is_some_false]. repeat split; [done|].
  intros i u. by apply token_by_hash_None.
Qed.

(** The sessions [among] are revoked, with their tokens. *)
Record revokes (among : UUID → bool) (reason : string) (now : Time) (db db' : DB) : Prop := {
  rv_open i : among i = true → ∃ s, sessions db !! i = Some s ∧ RevokedAt s = None;
  rv_sessions i :
    sessions db' !! i = (λ s, if among i then revoked_session reason now s else s) <$> sessions db !! i;
  rv_tokens i :
    tokens db' !! i =
      (λ t, if among (rt_SessionID t) && negb (is_some (rt_RevokedAt t)) then revoked_token reason now t else t)
        <$> tokens db !! i;
}.

(** A new session with its first token. *)
Record creates (s : Session) (rt : RefreshToken) (db db' : DB) : Prop := {
  cr_sessions : sessions db' = <[ID s := s]> (sessions db);
  cr_tokens : tokens db' = <[rt_ID rt := rt]> (tokens db);
  cr_fresh : sessions db !! ID s = None ∧ tokens db !! rt_ID rt = None;
  cr_hash i u : tokens db !! i = Some u → rt_TokenHash u ≠ rt_TokenHash rt;
  cr_open : RevokedAt s = None;
  cr_token : rt_SessionID rt = ID s ∧ ParentID rt = None ∧ UsedAt rt = None ∧ rt_RevokedAt rt = None;
}.

(** The token [tok] of [sess] is exchanged for [rt]. *)
Record rotates (now : Time) (sess : Session) (tok rt : RefreshToken) (db db' : DB) : Prop := {
  ro_session : sessions db !! rt_SessionID tok = Some sess;
  ro_open : RevokedAt sess = None;
  ro_token i : tokens db !! i = Some tok → i = rt_ID tok;
  ro_stored : ∃ i, tokens db !! i = Some tok;
  ro_spendable : UsedAt tok = None ∧ rt_RevokedAt tok = None;
  ro_sessions : sessions db' = alter (active_session now) (ID sess) (sessions db);
  ro_tokens : tokens db' = <[rt_ID rt := rt]> (alter (used_token now) (rt_ID tok) (tokens db));
  ro_fresh : tokens db !! rt_ID rt = None;
  ro_hash i u : tokens db !! i = Some u → rt_TokenHash u ≠ rt_TokenHash rt;
  ro_new : rt_SessionID rt = ID sess ∧ ParentID rt = Some (rt_ID tok) ∧ UsedAt rt = None ∧ rt_RevokedAt rt = None;
}.

Inductive move (db : DB) : DB → Prop :=
| mv_none : move db db
| mv_create s rt db' : creates s rt db db' → move db db'
| mv_rotate now sess tok rt db' : rotates now sess tok rt db db' → move db db'
| mv_revoke among reason now db' : revokes among reason now db db' → move db db'.

Lemma effect_move d db db' : move db db' → move db (effect d db db').
Proof. intros Hm. destruct d as [|[|]]; simpl; [done|done|constructor]. Qed.

(** ** The invariant of the tables *)

Definition spendable (sid : UUID) (t : RefreshToken) : Prop :=
  rt_SessionID t = sid ∧ UsedAt t = None ∧ rt_RevokedAt t = None.

Record chain_inv (db : DB) : Prop := {
  inv_sid i s : sessions db !! i = Some s → ID s = i;
  inv_tid i t : tokens db !! i = Some t → rt_ID t = i;
  inv_fk i t : tokens db !! i = Some t → is_Some (sessions db !! rt_SessionID t);
  inv_hash i j t u : tokens db !! i = Some t → tokens db !! j = Some u → rt_TokenHash t = rt_TokenHash u → i = j;
  (** an open session has one token that can be spent *)
  inv_live i s : sessions db !! i = Some s → RevokedAt s = None →
    ∃ k t, tokens db !! k = Some t ∧ spendable i t ∧ ∀ k' t', tokens db !! k' = Some t' → spendable i t' → k' = k;
  (** the tokens of a session are revoked with it *)
  inv_dead i t s : tokens db !! i = Some t → sessions db !! rt_SessionID t = Some s →
    (RevokedAt s = None ↔ rt_RevokedAt t = None);
  (** the tokens of a session are a chain: one root, one child each, and a
      token with a child is spent *)
  inv_parent i t p : tokens db !! i = Some t → ParentID t = Some p →
    ∃ u, tokens db !! p = Some u ∧ rt_SessionID u = rt_SessionID t ∧ UsedAt u ≠ None;
  inv_child i j t u p : tokens db !! i = Some t → tokens db !! j = Some u →
    ParentID t = Some p → ParentID u = Some p → i = j;
  inv_root i j t u : tokens db !! i = Some t → tokens db !! j = Some u →
    rt_SessionID t = rt_SessionID u → ParentID t = None → ParentID u = None → i = j;
}.

Lemma empty_inv : chain_inv emptyDB.
Proof. split; simpl; intros *; rewrite ?lookup_empty; done. Qed.

Lemma revokes_token among reason now db db' i t :
  revokes among reason now db db' → tokens db' !! i = Some t →
  ∃ u, tokens db !! i = Some u ∧ rt_ID t = rt_ID u ∧ rt_SessionID t = rt_SessionID u
    ∧ rt_TokenHash t = rt_TokenHash u ∧ ParentID t = ParentID u ∧ UsedAt t = UsedAt u
    ∧ (rt_RevokedAt t = None ↔ rt_RevokedAt u = None ∧ among (rt_SessionID u) = false).
Proof.
  intros Hr. rewrite (rv_tokens _ _ _ _ _ Hr). intros (u & -> & Hu)%fmap_Some. exists u.
  split; [done|]. destruct (among (rt_SessionID u)) eqn:Ea; simpl in Hu.
  - destruct (rt_RevokedAt u) eqn:Er; simpl in Hu; subst t; simpl; repeat split; naive_solver.
  - subst t. repeat split; naive_solver.
Qed.

Lemma revokes_session among reason now db db' i s :
  revokes among reason now db db' → sessions db' !! i = Some s →
  ∃ u, sessions db !! i = Some u ∧ ID s = ID u ∧ (RevokedAt s = None ↔ RevokedAt u = None ∧ among i = false).
Proof.
  intros Hr. rewrite (rv_sessions _ _ _ _ _ Hr). intros (u & Hu & ->)%fmap_Some. exists u.
  split; [done|]. destruct (among i) eqn:Ea; simpl; repeat split; naive_solver.
Qed.

Lemma revokes_inv among reason now db db' : revokes among reason now db db' → chain_inv db → chain_inv db'.
Proof.
  intros Hr Hi. pose proof (λ i t, revokes_token _ _ _ _ _ i t Hr) as Ht.
  pose proof (λ i s, revokes_session _ _ _ _ _ i s Hr) as Hs. split.
  - intros i s (u & Hu & -> & _)%Hs. by apply (inv_sid _ Hi).
  - intros i t (u & Hu & -> & _)%Ht. by apply (inv_tid _ Hi).
  - intros i t (u & Hu & _ & -> & _)%Ht. rewrite (rv_sessions _ _ _ _ _ Hr).
    apply fmap_is_Some. by apply (inv_fk _ Hi i).
  - intros i j t u (t' & Ht' & _ & _ & -> & _)%Ht (u' & Hu' & _ & _ & -> & _)%Ht. by apply (inv_hash _ Hi i j t' u').
  - intros i s (u & Hu & _ & Hopen)%Hs Hs0. apply Hopen in Hs0 as [Hu0 Ha].
    destruct (inv_live _ Hi i u Hu Hu0) as (k & t & Hk & (E & Hused & Hrev) & Hone).
    exists k, t. split; [|split; [done|]].
    + rewrite (rv_tokens _ _ _ _ _ Hr), Hk. simpl. by rewrite E, Ha.
    + intros k' t' (v & Hv & _ & E1 & _ & _ & E2 & E3)%Ht (F1 & F2 & F3). apply (Hone k' v Hv).
      split; [congruence|]. split; [congruence|]. by apply E3 in F3 as [? _].
  - intros i t s (u & Hu & _ & E & _ & _ & _ & Hrev)%Ht (v & Hv & _ & Hopen)%Hs. rewrite E in *.
    rewrite Hopen, Hrev. pose proof (inv_dead _ Hi i u v Hu Hv). tauto.
  - intros i t p (u & Hu & _ & E & _ & E' & _)%Ht Hp. rewrite E' in Hp.
    destruct (inv_parent _ Hi i u p Hu Hp) as (w & Hw & F & F').
    exists (if among (rt_SessionID w) && negb (is_some (rt_RevokedAt w)) then revoked_token reason now w else w).
    split; [by rewrite (rv_tokens _ _ _ _ _ Hr), Hw|]. rewrite E. by destruct (_ && _).
  - intros i j t u p (t' & Ht' & _ & _ & _ & -> & _)%Ht (u' & Hu' & _ & _ & _ & -> & _)%Ht.
    by apply (inv_child _ Hi i j t' u' p).
  - intros i j t u (t' & Ht' & _ & -> & _ & -> & _)%Ht (u' & Hu' & _ & -> & _ & -> & _)%Ht.
    by apply (inv_root _ Hi i j t' u').
Qed.

Lemma creates_inv s rt db db' : creates s rt db db' → chain_inv db → chain_inv db'.
Proof.
  intros [Es Et [Hfs Hft] Hh Ho (Hrs & Hrp & Hru & Hrr)] Hi.
  assert (Hfk : ∀ i t, tokens db !! i = Some t → rt_SessionID t ≠ ID s).
  { intros i t Hit E. destruct (inv_fk _ Hi i t Hit) as [x Hx]. congruence. }
  split; rewrite ?Es, ?Et; intros *; rewrite ?lookup_insert_Some.
  - intros [[<- <-]|[_ ?]]; [done|by apply (inv_sid _ Hi)].
  - intros [[<- <-]|[_ ?]]; [done|by apply (inv_tid _ Hi)].
  - intros [[<- <-]|[_ Hit]]; [rewrite Hrs, lookup_insert_eq; by eexists|].
    rewrite lookup_insert_ne by (symmetry; by apply (Hfk i)). by apply (inv_fk _ Hi i).
  - intros [[<- <-]|[Hni Hit]] [[<- <-]|[Hnj Hju]]; [done| | |by apply (inv_hash _ Hi)].
    + intros E. by destruct (Hh _ _ Hju).
    + intros E. by destruct (Hh _ _ Hit).
  - intros [[<- <-]|[Hni His]] Hs0.
    + exists (rt_ID rt), rt. rewrite lookup_insert_eq. split; [done|]. split; [done|].
      intros k' t' [[<- _]|[_ Hk]]%lookup_insert_Some (E & _); [done|]. by destruct (Hfk k' t' Hk).
    + destruct (inv_live _ Hi i _ His Hs0) as (k & t & Hk & Hsp & Hone).
      exists k, t. rewrite lookup_insert_ne by congruence. split; [done|]. split; [done|].
      intros k' t' [[<- <-]|[_ Hk']]%lookup_insert_Some Hsp'; [|by apply (Hone k' t')].
      destruct Hsp' as (E & _). congruence.
  - intros [[<- <-]|[Hni Hit]] [[E E']|[Hns Hs]].
    + by subst.
    + congruence.
    + symmetry in E. by destruct (Hfk _ _ Hit).
    + by apply (inv_dead _ Hi i).
  - intros [[<- <-]|[Hni Hit]] Hp; [congruence|].
    destruct (inv_parent _ Hi i t p Hit Hp) as (u & Hu & ? & ?). exists u.
    rewrite lookup_insert_ne by congruence. done.
  - intros [[<- <-]|[Hni Hit]] [[<- <-]|[Hnj Hju]] Hp Hq; try congruence. by apply (inv_child _ Hi i j t u p).
  - intros [[<- <-]|[Hni Hit]] [[<- <-]|[Hnj Hju]] E Hp Hq; try done.
    + rewrite Hrs in E. symmetry in E. by destruct (Hfk _ _ Hju).
    + rewrite Hrs in E. by destruct (Hfk _ _ Hit).
    + by apply (inv_root _ Hi i j t u).
Qed.

Section Rotation.
Context (now : Time) (sess : Session) (tok rt : RefreshToken) (db db' : DB).
Context (Hro : rotates now sess tok rt db db') (Hi : chain_inv db).

Lemma rotated_stored : tokens db !! rt_ID tok = Some tok.
Proof. destruct (ro_stored _ _ _ _ _ _ Hro) as [i H]. by rewrite <-(ro_token _ _ _ _ _ _ Hro i H). Qed.

Lemma rotated_sid : rt_SessionID tok = ID sess.
Proof. symmetry. apply (inv_sid _ Hi), (ro_session _ _ _ _ _ _ Hro). Qed.

Lemma rotated_new : tokens db' !! rt_ID rt = Some rt.
Proof. rewrite (ro_tokens _ _ _ _ _ _ Hro). apply lookup_insert_eq. Qed.

Lemma rotated_fresh i t : tokens db !! i = Some t → i ≠ rt_ID rt.
Proof. intros H ->. pose proof (ro_fresh _ _ _ _ _ _ Hro). congruence. Qed.

Lemma rotated_spent : tokens db' !! rt_ID tok = Some (used_token now tok).
Proof.
  pose proof rotated_stored as H. rewrite (ro_tokens _ _ _ _ _ _ Hro).
  rewrite lookup_insert_ne by (symmetry; by apply (rotated_fresh _ tok)).
  by rewrite lookup_alter, decide_True, H.
Qed.

Lemma rotated_other i t : tokens db !! i = Some t → i ≠ rt_ID tok → tokens db' !! i = Some t.
Proof.
  intros Hit Hne. rewrite (ro_tokens _ _ _ _ _ _ Hro).
  rewrite lookup_insert_ne by (symmetry; by apply (rotated_fresh _ t)). by rewrite lookup_alter, decide_False.
Qed.

(** Every token of the new table but the new one comes from the old table. *)
Lemma rotated_from i t : tokens db' !! i = Some t → i ≠ rt_ID rt → ∃ u, tokens db !! i = Some u
  ∧ rt_ID t = rt_ID u ∧ rt_SessionID t = rt_SessionID u ∧ rt_TokenHash t = rt_TokenHash u
  ∧ ParentID t = ParentID u ∧ rt_RevokedAt t = rt_RevokedAt u
  ∧ (UsedAt t = None ↔ UsedAt u = None ∧ i ≠ rt_ID tok).
Proof.
  rewrite (ro_tokens _ _ _ _ _ _ Hro). intros Ht Hne. rewrite lookup_insert_ne, lookup_alter in Ht by done.
  case_decide; [|exists t; repeat split; naive_solver].
  subst i. rewrite rotated_stored in Ht. injection Ht as <-. exists tok. simpl.
  split; [apply rotated_stored|]. repeat split; naive_solver.
Qed.

Lemma rotated_sessions i s : sessions db' !! i = Some s →
  ∃ u, sessions db !! i = Some u ∧ ID s = ID u ∧ RevokedAt s = RevokedAt u.
Proof.
  rewrite (ro_sessions _ _ _ _ _ _ Hro), lookup_alter. case_decide; [|by exists s].
  intros (u & Hui & ->)%fmap_Some. subst. by exists u.
Qed.

Lemma rotated_fk i t : tokens db' !! i = Some t → is_Some (sessions db' !! rt_SessionID t).
Proof.
  intros Hit. rewrite (ro_sessions _ _ _ _ _ _ Hro). apply lookup_alter_is_Some.
  destruct (decide (i = rt_ID rt)) as [->|Hne].
  - rewrite rotated_new in Hit. injection Hit as <-.
    destruct (ro_new _ _ _ _ _ _ Hro) as [-> _]. rewrite <-rotated_sid.
    rewrite (ro_session _ _ _ _ _ _ Hro). by eexists.
  - destruct (rotated_from i t Hit Hne) as (u & Hu & _ & -> & _). by apply (inv_fk _ Hi i).
Qed.

Lemma rotated_hash i j t u :
  tokens db' !! i = Some t → tokens db' !! j = Some u → rt_TokenHash t = rt_TokenHash u → i = j.
Proof.
  pose proof (ro_hash _ _ _ _ _ _ Hro) as Hh. intros Hit Hju E.
  destruct (decide (i = rt_ID rt)) as [->|Hni], (decide (j = rt_ID rt)) as [->|Hnj]; [done|..].
  - destruct (rotated_from j u Hju Hnj) as (u' & Hu' & _ & _ & E' & _). rewrite rotated_new in Hit. simplify_eq.
    destruct (Hh j u' Hu'). congruence.
  - destruct (rotated_from i t Hit Hni) as (u' & Hu' & _ & _ & E' & _). rewrite rotated_new in Hju. simplify_eq.
    destruct (Hh i u' Hu'). congruence.
  - destruct (rotated_from i t Hit Hni) as (t' & Ht' & _ & _ & E1 & _), (rotated_from j u Hju Hnj) as (u' & Hu' & _ & _ & E2 & _).
    apply (inv_hash _ Hi i j t' u'); congruence.
Qed.

(** The new token is the one its session can spend; elsewhere nothing changes. *)
Lemma rotated_live i s : sessions db' !! i = Some s → RevokedAt s = None →
  ∃ k t, tokens db' !! k = Some t ∧ spendable i t ∧ ∀ k' t', tokens db' !! k' = Some t' → spendable i t' → k' = k.
Proof.
  pose proof (ro_spendable _ _ _ _ _ _ Hro) as [Hu Hr].
  pose proof (ro_new _ _ _ _ _ _ Hro) as (Hns & Hnp & Hnu & Hnr). pose proof rotated_sid as Esid.
  intros (v & Hv & _ & Er)%rotated_sessions Hopen. rewrite Er in Hopen.
  destruct (inv_live _ Hi _ _ Hv Hopen) as (k0 & t0 & Hk0 & Hsp & Hone).
  assert (Hold : ∀ k t, tokens db' !! k = Some t → spendable i t → k ≠ rt_ID rt → k = k0 ∧ k ≠ rt_ID tok).
  { intros k t Hk (E1 & E2 & E3) Hnk.
    destruct (rotated_from k t Hk Hnk) as (u & Hu' & _ & F1 & _ & _ & F2 & F3). apply F3 in E2 as [E2 Hkt].
    split; [|done]. apply (Hone k u Hu'). unfold spendable. repeat split; congruence. }
  destruct (decide (i = ID sess)) as [->|Hne].
  - exists (rt_ID rt), rt. split; [apply rotated_new|]. split; [done|]. intros k t Hk Hst.
    destruct (decide (k = rt_ID rt)) as [|Hnk]; [done|]. destruct (Hold k t Hk Hst Hnk) as [-> Hkt].
    destruct Hkt. symmetry. by apply (Hone (rt_ID tok) tok rotated_stored).
  - assert (Hk0t : k0 ≠ rt_ID tok).
    { intros ->. rewrite rotated_stored in Hk0. injection Hk0 as <-. destruct Hsp as (E & _). congruence. }
    exists k0, t0. split; [by apply rotated_other|]. split; [done|]. intros k t Hk Hst.
    destruct (decide (k = rt_ID rt)) as [->|Hnk]; [|by apply (Hold k t)].
    rewrite rotated_new in Hk. injection Hk as <-. destruct Hst as (E & _). congruence.
Qed.

Lemma rotated_dead i t s : tokens db' !! i = Some t → sessions db' !! rt_SessionID t = Some s →
  (RevokedAt s = None ↔ rt_RevokedAt t = None).
Proof.
  intros Hit (v & Hv & _ & Er)%rotated_sessions. rewrite Er.
  destruct (decide (i = rt_ID rt)) as [->|Hni].
  - rewrite rotated_new in Hit. injection Hit as <-.
    pose proof (ro_new _ _ _ _ _ _ Hro) as (Hns & _ & _ & ->).
    rewrite Hns, <-rotated_sid, (ro_session _ _ _ _ _ _ Hro) in Hv. injection Hv as <-.
    by rewrite (ro_open _ _ _ _ _ _ Hro).
  - destruct (rotated_from i t Hit Hni) as (u & Hu' & _ & F1 & _ & _ & F2 & _). rewrite F2.
    apply (inv_dead _ Hi i u v Hu'). congruence.
Qed.

Lemma rotated_parent i t p : tokens db' !! i = Some t → ParentID t = Some p →
  ∃ u, tokens db' !! p = Some u ∧ rt_SessionID u = rt_SessionID t ∧ UsedAt u ≠ None.
Proof.
  pose proof (ro_new _ _ _ _ _ _ Hro) as (Hns & Hnp & _ & _). intros Hit Hp.
  assert (Hpast : ∀ u, tokens db !! p = Some u → rt_SessionID u = rt_SessionID t →
    (p ≠ rt_ID tok → UsedAt u ≠ None) →
    ∃ u, tokens db' !! p = Some u ∧ rt_SessionID u = rt_SessionID t ∧ UsedAt u ≠ None).
  { intros u Hu' E Hused. destruct (decide (p = rt_ID tok)) as [->|Hne].
    - exists (used_token now tok). rewrite rotated_stored in Hu'. injection Hu' as <-.
      split; [apply rotated_spent|done].
    - exists u. split; [by apply rotated_other|]. split; [done|by apply Hused]. }
  destruct (decide (i = rt_ID rt)) as [->|Hni].
  - rewrite rotated_new in Hit. injection Hit as <-. rewrite Hnp in Hp. injection Hp as <-.
    apply (Hpast tok rotated_stored); [by rewrite Hns, rotated_sid|done].
  - destruct (rotated_from i t Hit Hni) as (v & Hv & _ & F1 & _ & F3 & _). rewrite F3 in Hp.
    destruct (inv_parent _ Hi i v p Hv Hp) as (u & Hu' & ? & ?). apply (Hpast u Hu'); [congruence|done].
Qed.

Lemma rotated_child i j t u p : tokens db' !! i = Some t → tokens db' !! j = Some u →
  ParentID t = Some p → ParentID u = Some p → i = j.
Proof.
  pose proof (ro_new _ _ _ _ _ _ Hro) as (_ & Hnp & _ & _). intros Hit Hju Hp Hq.
  assert (Hlone : ∀ k v, tokens db' !! k = Some v → k ≠ rt_ID rt → ParentID v ≠ Some (rt_ID tok)).
  { intros k v Hk Hnk Hpar. destruct (rotated_from k v Hk Hnk) as (w & Hw & _ & _ & _ & F3 & _). rewrite F3 in Hpar.
    destruct (inv_parent _ Hi k w _ Hw Hpar) as (x & Hx & _ & Hxu). rewrite rotated_stored in Hx.
    injection Hx as <-. by destruct (ro_spendable _ _ _ _ _ _ Hro). }
  destruct (decide (i = rt_ID rt)) as [->|Hni], (decide (j = rt_ID rt)) as [->|Hnj]; [done|..].
  - rewrite rotated_new in Hit. simplify_eq. destruct (Hlone j u Hju Hnj). congruence.
  - rewrite rotated_new in Hju. simplify_eq. destruct (Hlone i t Hit Hni). congruence.
  - destruct (rotated_from i t Hit Hni) as (t' & Ht' & _ & _ & _ & E1 & _), (rotated_from j u Hju Hnj) as (u' & Hu' & _ & _ & _ & E2 & _).
    apply (inv_child _ Hi i j t' u' p); congruence.
Qed.

Lemma rotated_root i j t u : tokens db' !! i = Some t → tokens db' !! j = Some u →
  rt_SessionID t = rt_SessionID u → ParentID t = None → ParentID u = None → i = j.
Proof.
  pose proof (ro_new _ _ _ _ _ _ Hro) as (_ & Hnp & _ & _). intros Hit Hju E Hp Hq.
  destruct (decide (i = rt_ID rt)) as [->|Hni]; [rewrite rotated_new in Hit; congruence|].
  destruct (decide (j = rt_ID rt)) as [->|Hnj]; [rewrite rotated_new in Hju; congruence|].
  destruct (rotated_from i t Hit Hni) as (t' & Ht' & _ & S1 & _ & E1 & _), (rotated_from j u Hju Hnj) as (u' & Hu' & _ & S2 & _ & E2 & _).
  apply (inv_root _ Hi i j t' u'); congruence.
Qed.

Lemma rotates_inv : chain_inv db'.
Proof.
  split.
  - intros i s (u & Hu' & -> & _)%rotated_sessions. by apply (inv_sid _ Hi).
  - intros i t Hit. destruct (decide (i = rt_ID rt)) as [->|Hni]; [rewrite rotated_new in Hit; congruence|].
    destruct (rotated_from i t Hit Hni) as (u & Hu & -> & _). by apply (inv_tid _ Hi).
  - apply rotated_fk.
  - apply rotated_hash.
  - apply rotated_live.
  - apply rotated_dead.
  - apply rotated_parent.
  - apply rotated_child.
  - apply rotated_root.
Qed.
End Rotation.

Lemma move_inv db db' : move db db' → chain_inv db → chain_inv db'.
Proof.
  intros [|s rt db2 Hc|now sess tok rt db2 Hr|among reason now db2 Hr] Hi; [done| | |].
  - by apply (creates_inv s rt db).
  - by apply (rotates_inv now sess tok rt db).
  - by apply (revokes_inv among reason now db).
Qed.

(** ** The calls are moves *)

Lemma revokeSessionTx_revokes id reason now db s :
  sessions db !! id = Some s → RevokedAt s = None →
  revokes (λ i, bool_decide (i = id)) reason now db (revokeSessionTx id reason now db).
Proof.
  intros Hs Ho. split; simpl.
  - intros i ->%bool_decide_eq_true. by exists s.
  - intros i. rewrite lookup_alter. case_decide as E.
    + subst. rewrite Hs. simpl. by rewrite bool_decide_eq_true_2.
    + rewrite bool_decide_eq_false_2 by congruence. by destruct (sessions db !! i).
  - intros i. unfold revoke_tokens. by rewrite lookup_fmap.
Qed.

(** Revoking an expired token first changes nothing. *)
Lemma expired_revokes now db sess tok :
  chain_inv db → tokens db !! rt_ID tok = Some tok → sessions db !! rt_SessionID tok = Some sess →
  RevokedAt sess = None → rt_RevokedAt tok = None →
  revokes (λ i, bool_decide (i = ID sess)) ReasonRefreshExpired now db
    (revokeSessionTx (ID sess) ReasonRefreshExpired now
       (mkDB (sessions db) (alter (revoked_token ReasonRefreshExpired now) (rt_ID tok) (tokens db)))).
Proof.
  intros Hi Ht Hs Ho Hr. pose proof (inv_sid _ Hi _ _ Hs) as Eid. rewrite <-Eid in Hs.
  destruct (revokeSessionTx_revokes (ID sess) ReasonRefreshExpired now db sess Hs Ho) as [H1 H2 H3].
  split; [done|done|]. intros i. rewrite <-H3. simpl. unfold revoke_tokens.
  rewrite !lookup_fmap, lookup_alter. case_decide as E; [|done]. subst i. rewrite Ht. simpl.
  rewrite Eid, bool_decide_eq_true_2, Hr by done. done.
Qed.

Lemma CreateSession_spec q d sid tid dbnow s hash exp db r db' :
  CreateSession q d sid tid dbnow s hash exp db = (r, db') →
  move db db'
  ∧ match r with
    | Ok (s', rt) => creates s' rt db db' ∧ ID s' = sid ∧ AbsoluteExpiresAt s' = AbsoluteExpiresAt s
    | Err _ => True
    end.
Proof.
  unfold CreateSession. destruct (q || _) eqn:Eq; [intros [= <- <-]; split; [constructor|done]|].
  apply orb_false_iff in Eq as [_ Hf%is_some_false].
  destruct (insert_token _ _) as [db1|] eqn:Ei; [|intros [= <- <-]; split; [constructor|done]].
  apply insert_token_Some in Ei as (Es & Et & Hft & Hh). simpl in *.
  assert (Hc : creates (mkSession sid (UserID s) (WalletAddress s) (DeviceFingerprint s) (UserAgent s)
                          (IPAddress s) dbnow dbnow (AbsoluteExpiresAt s) None None)
                 (mkToken tid sid hash None dbnow exp None None None) db db1) by (by split).
  unfold commit. destruct (failed d) eqn:Ed; intros [= <- <-].
  - split; [|done]. apply effect_move. by eapply mv_create.
  - destruct d; [|done]. simpl. split; [by eapply mv_create|done].
Qed.

(** A token that was spent or revoked, presented again. *)
Definition dead_token (t : RefreshToken) : Prop := UsedAt t ≠ None ∨ rt_RevokedAt t ≠ None.

(** The three things a rotation can do: nothing, revoke the session of the
    token, exchange the token. *)
Inductive rotate_outcome (q : bool) (d : dbres) (now : Time) (raw fp nh : string) (ne : Time)
    (db : DB) : rotation → DB → Prop :=
| ro_nothing o e :
    (q = false → ∀ i tok, tokens db !! i = Some tok → rt_TokenHash tok = raw → dead_token tok →
     ∃ s, sessions db !! rt_SessionID tok = Some s ∧ RevokedAt s ≠ None ∧ o = Some s ∧ e = ErrSessionRevoked) →
    (e = ErrSessionRevoked → ∃ s, o = Some s ∧ RevokedAt s ≠ None) → finalized e = None →
    rotate_outcome q d now raw fp nh ne db (Refused o e) db
| ro_revoke sess tok reason e db2 :
    tokens db !! rt_ID tok = Some tok → rt_TokenHash tok = raw → rt_SessionID tok = ID sess →
    sessions db !! ID sess = Some sess →
    revokes (λ i, bool_decide (i = ID sess)) reason now db db2 → finalized e ≠ None →
    rotate_outcome q d now raw fp nh ne db
      (if failed d then Refused None ErrDB else Refused (Some sess) e) (effect d db db2)
| ro_exchange sess tok rt db2 :
    rotates now sess tok rt db db2 → rt_TokenHash tok = raw → rt_TokenHash rt = nh → rt_ExpiresAt rt = ne →
    fp = DeviceFingerprint sess → now ≤ AbsoluteExpiresAt sess → now ≤ rt_ExpiresAt tok →
    rotate_outcome q d now raw fp nh ne db
      (if failed d then Refused None ErrDB else Rotated (active_session now sess) rt) (effect d db db2).

(** The statements of an exchange. *)
Lemma exchange_rotates now dbnow nid nh ne db sess tok db1 :
  chain_inv db → tokens db !! rt_ID tok = Some tok → sessions db !! rt_SessionID tok = Some sess →
  RevokedAt sess = None → UsedAt tok = None → rt_RevokedAt tok = None →
  let rt := mkToken nid (ID sess) nh (Some (rt_ID tok)) dbnow ne None None None in
  insert_token rt (mkDB (sessions db) (alter (used_token now) (rt_ID tok) (tokens db))) = Some db1 →
  rotates now sess tok rt db (mkDB (alter (active_session now) (ID sess) (sessions db1)) (tokens db1)).
Proof.
  intros Hi Hit Es Er Eu Ev rt (Es1 & Et1 & Hf & Hh)%insert_token_Some.
  split; simpl in *; try done.
  - intros i Hi'. symmetry. by apply (inv_tid _ Hi).
  - by exists (rt_ID tok).
  - by rewrite Es1.
  - rewrite lookup_alter in Hf. case_decide; [by rewrite Hit in Hf|done].
  - intros i u Hu. destruct (decide (i = rt_ID tok)) as [->|Hne].
    + rewrite Hit in Hu. injection Hu as <-. apply (Hh (rt_ID tok) (used_token now tok)).
      by rewrite lookup_alter, decide_True, Hit.
    + apply (Hh i). by rewrite lookup_alter, decide_False.
Qed.

Lemma rotate_cases q d now dbnow nid raw fp nh ne db :
  chain_inv db →
  let x := RotateRefreshToken q d now dbnow nid raw fp nh ne db in
  rotate_outcome q d now raw fp nh ne db x.1 x.2.
Proof.
  intros Hi. unfold RotateRefreshToken, commit.
  destruct q; [by apply ro_nothing|].
  destruct (token_by_hash raw db) as [tok|] eqn:Et.
  2:{ apply ro_nothing; [|done|done]. intros _ i tok Hit Hh. by destruct (token_by_hash_None raw db i tok Et Hit). }
  apply token_by_hash_Some in Et as (i & Hit & Eh). pose proof (inv_tid _ Hi _ _ Hit) as <-.
  destruct (inv_fk _ Hi _ _ Hit) as [sess Es]. rewrite Es.
  assert (Hsame : ∀ j u, tokens db !! j = Some u → rt_TokenHash u = raw → u = tok).
  { intros j u Hj Hu. assert (j = rt_ID tok) as -> by (apply (inv_hash _ Hi j (rt_ID tok) u tok Hj Hit); congruence).
    congruence. }
  destruct (is_some (RevokedAt sess)) eqn:Er.
  { apply is_some_true in Er. apply ro_nothing; [|intros _; by exists sess|done].
    intros _ j u Hj Hu _. apply (Hsame j) in Hu as ->; [|done]. by exists sess. }
  apply is_some_false in Er. pose proof (inv_sid _ Hi _ _ Es) as Eid. pose proof Es as Es'. rewrite <-Eid in Es'.
  assert (Hrev : ∀ reason e db2, revokes (λ i, bool_decide (i = ID sess)) reason now db db2 → finalized e ≠ None →
    let x := match (if failed d then None else Some e, effect d db db2) with
             | (Some e, db') => (Refused (Some sess) e, db')
             | (None, db') => (Refused None ErrDB, db')
             end in
    rotate_outcome false d now raw fp nh ne db x.1 x.2).
  { intros reason e db2 Hr Hf.
    pose proof (ro_revoke false d now raw fp nh ne db sess tok reason e db2 Hit Eh (eq_sym Eid) Es' Hr Hf) as H.
    by destruct (failed d). }
  pose proof (λ reason, revokeSessionTx_revokes (ID sess) reason now db sess Es' Er) as Hrt.
  destruct (Z.ltb_spec (AbsoluteExpiresAt sess) now); [by apply (Hrev _ _ _ (Hrt _))|].
  case_bool_decide as Hfp; cbn [negb]; [|by apply (Hrev _ _ _ (Hrt _))].
  destruct (is_some (UsedAt tok) || _) eqn:Eu; [by apply (Hrev _ _ _ (Hrt _))|].
  apply orb_false_iff in Eu as [Eu%is_some_false Ev%is_some_false].
  destruct (Z.ltb_spec (rt_ExpiresAt tok) now).
  { by apply (Hrev _ _ _ (expired_revokes now db sess tok Hi Hit Es Er Ev)). }
  destruct (insert_token _ _) as [db1|] eqn:Ei.
  - pose proof (exchange_rotates now dbnow nid nh ne db sess tok db1 Hi Hit Es Er Eu Ev Ei) as Hro.
    pose proof (ro_exchange false d now raw fp nh ne db sess tok _ _ Hro Eh eq_refl eq_refl Hfp) as H'.
    destruct (failed d); apply H'; lia.
  - apply ro_nothing; [|done|done]. intros _ j u Hj Hu Hd. apply (Hsame j) in Hu as ->; [|done].
    by destruct Hd.
Qed.

Lemma rotate_move q d now dbnow nid raw fp nh ne db :
  chain_inv db → move db (RotateRefreshToken q d now dbnow nid raw fp nh ne db).2.
Proof.
  intros Hi. destruct (rotate_cases q d now dbnow nid raw fp nh ne db Hi); [constructor| |];
    apply effect_move; [by eapply mv_revoke|by eapply mv_rotate].
Qed.

(** What a revocation of one session does when it succeeds. *)
Lemma RevokeSession_spec q d dbnow id reason db r db' :
  RevokeSession q d dbnow id reason db = (r, db') →
  db' = db ∧ r ≠ Ok tt
  ∨ ∃ db2, revokes (λ i, bool_decide (i = id)) reason dbnow db db2 ∧ db' = effect d db db2
      ∧ r = (if failed d then Err ErrDB else Ok tt).
Proof.
  unfold RevokeSession, commit. destruct q; [intros [= <- <-]; by left|].
  destruct (sessions db !! id) as [s|] eqn:Es; [|intros [= <- <-]; by left].
  destruct (is_some (RevokedAt s)) eqn:Er; [intros [= <- <-]; by left|]. apply is_some_false in Er.
  intros H. right. exists (revokeSessionTx id reason dbnow db).
  split; [by eapply revokeSessionTx_revokes|]. destruct (failed d); by injection H as <- <-.
Qed.

Definition owned (userID : UUID) (db : DB) (i : UUID) : bool :=
  match sessions db !! i with
  | Some s => bool_decide (UserID s = userID) && negb (is_some (RevokedAt s))
  | None => false
  end.

Lemma RevokeAllByUser_spec q d dbnow userID reason db r db' :
  RevokeAllByUser q d dbnow userID reason db = (r, db') →
  db' = db ∧ r = Err ErrDB
  ∨ ∃ db2 l, revokes (owned userID db) reason dbnow db db2 ∧ db' = effect d db db2
      ∧ r = (if failed d then Err ErrDB else Ok l)
      ∧ ∀ s, s ∈ l ↔ ∃ i s0, sessions db !! i = Some s0 ∧ owned userID db i = true
                       ∧ s = revoked_session reason dbnow s0.
Proof.
  unfold RevokeAllByUser, commit. destruct q; [intros [= <- <-]; by left|]. intros H. right.
  set (l := _ <$> List.filter _ _) in H. set (db2 := mkDB _ _) in H. exists db2, l.
  split; [|split; [|split]].
  - split; simpl.
    + intros i. unfold owned. destruct (sessions db !! i) as [s|]; [|done].
      intros [_ Ho%negb_true_iff%is_some_false]%andb_true_iff. by exists s.
    + intros i. rewrite lookup_fmap. unfold owned. by destruct (sessions db !! i).
    + intros i. unfold revoke_tokens. by rewrite lookup_fmap.
  - by destruct (failed d); injection H as <- <-.
  - by destruct (failed d); injection H as <- <-.
  - intros s. unfold l. rewrite list_elem_of_fmap. split.
    + intros (p & -> & [Hp Hh]%filtered_In). exists p.1, p.2. unfold owned. by rewrite Hp.
    + intros (i & s0 & Hi & Ho & ->). exists (i, s0). split; [done|]. apply filtered_In.
      unfold owned in Ho. by rewrite Hi in Ho.
Qed.

(** ** Histories of the tables *)

Inductive op :=
| OCreate (q : bool) (d : dbres) (sid tid : UUID) (dbnow : Time) (s : Session) (hash : string) (exp : Time)
| ORotate (q : bool) (d : dbres) (now dbnow : Time) (nid : UUID) (raw fp nh : string) (ne : Time)
| ORevoke (q : bool) (d : dbres) (dbnow : Time) (id : UUID) (reason : string)
| ORevokeAll (q : bool) (d : dbres) (dbnow : Time) (userID : UUID) (reason : string).

Definition exec (db : DB) (o : op) : DB :=
  match o with
  | OCreate q d sid tid dbnow s hash exp => (CreateSession q d sid tid dbnow s hash exp db).2
  | ORotate q d now dbnow nid raw fp nh ne => (RotateRefreshToken q d now dbnow nid raw fp nh ne db).2
  | ORevoke q d dbnow id reason => (RevokeSession q d dbnow id reason db).2
  | ORevokeAll q d dbnow userID reason => (RevokeAllByUser q d dbnow userID reason db).2
  end.

Definition execs (os : list op) (db : DB) : DB := fold_left exec os db.

Lemma exec_move db o : chain_inv db → move db (exec db o).
Proof.
  intros Hi. destruct o; simpl.
  - destruct (CreateSession _ _ _ _ _ _ _ _ _) as [r db'] eqn:E. by apply CreateSession_spec in E as [? _].
  - by apply rotate_move.
  - destruct (RevokeSession _ _ _ _ _ _) as [r db'] eqn:E. simpl.
    apply RevokeSession_spec in E as [[-> _]|(db2 & Hr & -> & _)]; [constructor|].
    by eapply effect_move, mv_revoke.
  - destruct (RevokeAllByUser _ _ _ _ _ _) as [r db'] eqn:E. simpl.
    apply RevokeAllByUser_spec in E as [[-> _]|(db2 & l & Hr & -> & _)]; [constructor|].
    by eapply effect_move, mv_revoke.
Qed.

Lemma execs_inv os db : chain_inv db → chain_inv (execs os db).
Proof.
  revert db. induction os as [|o os IH]; intros db Hi; [done|]. simpl. apply IH.
  by eapply move_inv; [apply exec_move|].
Qed.

(** C16: in every state that logins, refreshes and revocations in any order
    reach, whatever fails in them: an open session has exactly one refresh
    token that can be spent, a revoked one has none; the tokens of a session
    are a chain from one root, in which a token that has a successor is spent
    and no token has two; and no two tokens share a hash. *)
Theorem sess_chain_invariant os : chain_inv (execs os emptyDB).
Proof. apply execs_inv, empty_inv. Qed.

(** What a row keeps in every move. *)
Definition token_keeps (t t' : RefreshToken) : Prop :=
  rt_SessionID t' = rt_SessionID t ∧ rt_TokenHash t' = rt_TokenHash t
  ∧ (dead_token t → dead_token t').

Definition session_keeps (s s' : Session) : Prop :=
  ID s' = ID s ∧ UserID s' = UserID s ∧ DeviceFingerprint s' = DeviceFingerprint s
  ∧ AbsoluteExpiresAt s' = AbsoluteExpiresAt s
  ∧ (RevokedAt s ≠ None → RevokedAt s' = RevokedAt s ∧ RevokedReason s' = RevokedReason s).

Definition keeps (db db' : DB) : Prop :=
  (∀ i t, tokens db !! i = Some t → ∃ t', tokens db' !! i = Some t' ∧ token_keeps t t')
  ∧ (∀ i s, sessions db !! i = Some s → ∃ s', sessions db' !! i = Some s' ∧ session_keeps s s').

Lemma keeps_refl db : keeps db db.
Proof. split; intros i x Hx; exists x; unfold token_keeps, session_keeps; naive_solver. Qed.

Lemma keeps_trans db1 db2 db3 : keeps db1 db2 → keeps db2 db3 → keeps db1 db3.
Proof.
  intros [Ht Hs] [Ht' Hs']. split.
  - intros i t (t2 & H2 & K2)%Ht. destruct (Ht' i t2 H2) as (t3 & H3 & K3). exists t3. split; [done|].
    unfold token_keeps in *. naive_solver congruence.
  - intros i s (s2 & H2 & K2)%Hs. destruct (Hs' i s2 H2) as (s3 & H3 & K3). exists s3. split; [done|].
    unfold session_keeps in *. destruct_and!. split_and!; try congruence.
    intros Hr. assert (RevokedAt s2 ≠ None) by naive_solver congruence. naive_solver congruence.
Qed.

Lemma move_keeps db db' : move db db' → keeps db db'.
Proof.
  intros [|s rt db2 Hc|now sess tok rt db2 Hr|among reason now db2 Hr]; [apply keeps_refl|split..].
  - intros i t Ht. exists t. rewrite (cr_tokens _ _ _ _ Hc), lookup_insert_ne by (destruct (cr_fresh _ _ _ _ Hc); congruence).
    unfold token_keeps. naive_solver.
  - intros i u Hu. exists u. rewrite (cr_sessions _ _ _ _ Hc), lookup_insert_ne by (destruct (cr_fresh _ _ _ _ Hc); congruence).
    unfold session_keeps. naive_solver.
  - intros i t Ht. rewrite (ro_tokens _ _ _ _ _ _ Hr).
    rewrite lookup_insert_ne by (pose proof (ro_fresh _ _ _ _ _ _ Hr); congruence).
    rewrite lookup_alter. case_decide; [|exists t; unfold token_keeps; naive_solver].
    subst i. rewrite Ht. exists (used_token now t). unfold token_keeps, dead_token. simpl. naive_solver.
  - intros i u Hu. rewrite (ro_sessions _ _ _ _ _ _ Hr), lookup_alter.
    case_decide; [|exists u; unfold session_keeps; naive_solver].
    subst i. rewrite Hu. exists (active_session now u). unfold session_keeps. simpl. naive_solver.
  - intros i t Ht. rewrite (rv_tokens _ _ _ _ _ Hr), Ht. eexists. split; [done|].
    destruct (_ && _); unfold token_keeps, dead_token; simpl; naive_solver.
  - intros i u Hu. rewrite (rv_sessions _ _ _ _ _ Hr), Hu. eexists. split; [done|].
    destruct (among i) eqn:Ea; [|unfold session_keeps; naive_solver].
    destruct (rv_open _ _ _ _ _ Hr i Ea) as (v & Hv & Ho). unfold session_keeps. simpl. naive_solver congruence.
Qed.

Lemma execs_keeps os db : chain_inv db → keeps db (execs os db).
Proof.
  revert db. induction os as [|o os IH]; intros db Hi; [apply keeps_refl|]. simpl.
  pose proof (exec_move db o Hi) as Hm. eapply keeps_trans; [by apply move_keeps|]. apply IH. by eapply move_inv.
Qed.

Definition revoked_in (db : DB) (sid : UUID) : Prop := ∃ s, sessions db !! sid = Some s ∧ RevokedAt s ≠ None.

Lemma revoked_keeps db db' sid : keeps db db' → revoked_in db sid → revoked_in db' sid.
Proof.
  intros [_ Hk] (s & Hs & Hr). destruct (Hk sid s Hs) as (s' & Hs' & _ & _ & _ & _ & K).
  exists s'. split; [done|]. destruct (K Hr) as [-> _]. done.
Qed.

Lemma revokes_revoked among reason now db db' sid :
  revokes among reason now db db' → among sid = true → revoked_in db' sid.
Proof.
  intros Hr Ha. destruct (rv_open _ _ _ _ _ Hr sid Ha) as (s & Hs & _).
  exists (revoked_session reason now s). by rewrite (rv_sessions _ _ _ _ _ Hr), Hs, Ha.
Qed.

(** A token that is no longer good, presented to a database that works. *)
Lemma present_dead now dbnow nid raw fp nh ne db i t o db' :
  chain_inv db → tokens db !! i = Some t → rt_TokenHash t = raw → dead_token t →
  RotateRefreshToken false DBOk now dbnow nid raw fp nh ne db = (o, db') →
  (∃ s e, o = Refused (Some s) e) ∧ revoked_in db' (rt_SessionID t).
Proof.
  intros Hi Ht Hh Hd E. pose proof (rotate_cases false DBOk now dbnow nid raw fp nh ne db Hi) as Hc.
  rewrite E in Hc. simpl in Hc.
  assert (Hone : ∀ k u, tokens db !! k = Some u → rt_TokenHash u = raw → u = t).
  { intros k u Hk Hu. assert (k = i) as -> by (apply (inv_hash _ Hi k i u t); congruence). congruence. }
  inversion Hc as [o' e Hno|sess tok reason e db2 Htok Eh Esid Hs Hr Hf|sess tok rt db2 Hro Eh]; subst.
  - destruct (Hno eq_refl i t Ht eq_refl Hd) as (s & Hs & Hrev & -> & _). split; [by eexists _, _|by exists s].
  - simpl. split; [by eexists _, _|]. apply (Hone _ _ Htok) in Eh as ->. rewrite Esid.
    apply (revokes_revoked _ _ _ _ _ _ Hr). by apply bool_decide_eq_true.
  - destruct (ro_stored _ _ _ _ _ _ Hro) as [k Hk]. apply (Hone _ _ Hk) in Eh as ->.
    destruct (ro_spendable _ _ _ _ _ _ Hro), Hd; done.
Qed.

(** No token of a revoked session is exchanged, and trying changes nothing. *)
Lemma revoked_refuses q d now dbnow nid fp nh ne db i t :
  chain_inv db → tokens db !! i = Some t → revoked_in db (rt_SessionID t) →
  ∃ o e, RotateRefreshToken q d now dbnow nid (rt_TokenHash t) fp nh ne db = (Refused o e, db).
Proof.
  intros Hi Ht (s & Hs & Hr). pose proof (rotate_cases q d now dbnow nid (rt_TokenHash t) fp nh ne db Hi) as Hc.
  destruct (RotateRefreshToken _ _ _ _ _ _ _ _ _ _) as [o db']. simpl in Hc.
  assert (Hone : ∀ k u, tokens db !! k = Some u → rt_TokenHash u = rt_TokenHash t → u = t).
  { intros k u Hk Hu. assert (k = i) as -> by (apply (inv_hash _ Hi k i u t); congruence). congruence. }
  inversion Hc as [o' e Hno|sess tok reason e db2 Htok Eh Esid Hs' Hrv Hf|sess tok rt db2 Hro Eh]; subst.
  - by eexists _, _.
  - apply (Hone _ _ Htok) in Eh as ->. destruct (rv_open _ _ _ _ _ Hrv (ID sess)) as (x & Hx & Hox);
      [by apply bool_decide_eq_true|]. congruence.
  - destruct (ro_stored _ _ _ _ _ _ Hro) as [k Hk]. apply (Hone _ _ Hk) in Eh as ->.
    pose proof (ro_session _ _ _ _ _ _ Hro). pose proof (ro_open _ _ _ _ _ _ Hro). congruence.
Qed.

(** C34: Reuse detection.  When a refresh token that was exchanged is presented
    again, at any later time and by whatever device, with the database taking the
    request, it is refused and the whole session is revoked: from then on no token
    of the session is exchanged, whatever else happens before, between and after. *)
Theorem sess_reuse_kills_session os1 os2 os3 q d now dbnow nid raw fp nh ne s rt db1
    now' dbnow' nid' fp' nh' ne' o db3 :
  RotateRefreshToken q d now dbnow nid raw fp nh ne (execs os1 emptyDB) = (Rotated s rt, db1) →
  RotateRefreshToken false DBOk now' dbnow' nid' raw fp' nh' ne' (execs os2 db1) = (o, db3) →
  (∃ s' e, o = Refused (Some s') e) ∧ revoked_in (execs os3 db3) (ID s)
  ∧ ∀ i t, tokens (execs os3 db3) !! i = Some t → rt_SessionID t = ID s →
      ∀ q d now dbnow nid fp nh ne, ∃ o e,
        RotateRefreshToken q d now dbnow nid (rt_TokenHash t) fp nh ne (execs os3 db3)
        = (Refused o e, execs os3 db3).
Proof.
  set (db0 := execs os1 emptyDB). assert (Hi0 : chain_inv db0) by apply execs_inv, empty_inv.
  intros E1 E2. pose proof (rotate_cases q d now dbnow nid raw fp nh ne db0 Hi0) as Hc.
  pose proof (rotate_move q d now dbnow nid raw fp nh ne db0 Hi0) as Hm. rewrite E1 in Hc, Hm. simpl in *.
  pose proof (move_inv _ _ Hm Hi0) as Hi1.
  inversion Hc as [| |sess tok rt' db2 Hro Eh _ _ _ _ _ Er Ed]; [by destruct (failed d)|].
  destruct d; [|done]. simpl in *. injection Er as <- <-. subst db2.
  pose proof (rotated_sid now sess tok rt' db0 db1 Hro Hi0) as Esid.
  pose proof (execs_keeps os2 db1 Hi1) as [Hkt _].
  destruct (Hkt _ _ (rotated_spent now sess tok rt' db0 db1 Hro)) as (t & Ht & Es & Ehash & Hdead).
  simpl in Es, Ehash. rewrite Eh in Ehash.
  assert (Hd : dead_token t) by (apply Hdead; by left).
  pose proof (execs_inv os2 db1 Hi1) as Hi2.
  pose proof (rotate_move false DBOk now' dbnow' nid' raw fp' nh' ne' _ Hi2) as Hm2. rewrite E2 in Hm2.
  pose proof (move_inv _ _ Hm2 Hi2) as Hi3. simpl in Hi3.
  destruct (present_dead _ _ _ _ _ _ _ _ _ _ _ _ Hi2 Ht Ehash Hd E2) as [Ho Hrev].
  rewrite Es, Esid in Hrev. split; [done|].
  pose proof (revoked_keeps _ _ _ (execs_keeps os3 db3 Hi3) Hrev) as Hrev'. split; [done|].
  intros i u Hu Eu *. apply (revoked_refuses _ _ _ _ _ _ _ _ _ i); [by apply execs_inv|done|by rewrite Eu].
Qed.

(** Which refresh is honoured.  On a database that works and with an unused
    id and hash for the new token, a rotation succeeds for the one token of an
    open session that can be spent, from the device the session is bound to,
    until the token or the session expires, and for nothing else. *)
Theorem sess_rotation_succeeds now dbnow nid raw fp nh ne db :
  chain_inv db → tokens db !! nid = None → (∀ i u, tokens db !! i = Some u → rt_TokenHash u ≠ nh) →
  (∃ s rt db', RotateRefreshToken false DBOk now dbnow nid raw fp nh ne db = (Rotated s rt, db')) ↔
  ∃ tok sess, tokens db !! rt_ID tok = Some tok ∧ rt_TokenHash tok = raw ∧ spendable (rt_SessionID tok) tok
    ∧ sessions db !! rt_SessionID tok = Some sess ∧ RevokedAt sess = None ∧ fp = DeviceFingerprint sess
    ∧ now ≤ AbsoluteExpiresAt sess ∧ now ≤ rt_ExpiresAt tok.
Proof.
  intros Hi Hid Hnew. split.
  - intros (s & rt & db' & E). pose proof (rotate_cases false DBOk now dbnow nid raw fp nh ne db Hi) as Hc.
    rewrite E in Hc. simpl in Hc. inversion Hc as [| |sess tok rt' db2 Hro Eh]; subst.
    exists tok, sess. destruct (ro_spendable _ _ _ _ _ _ Hro).
    split; [by apply (rotated_stored _ _ _ _ _ _ Hro)|]. split; [done|]. split; [done|].
    split; [apply (ro_session _ _ _ _ _ _ Hro)|]. split; [apply (ro_open _ _ _ _ _ _ Hro)|done].
  - intros (tok & sess & Ht & Eh & (_ & Eu & Ev) & Hs & Ho & Efp & Ha & He).
    unfold RotateRefreshToken.
    destruct (token_by_hash raw db) as [t|] eqn:Et; [|by destruct (token_by_hash_None raw db _ _ Et Ht)].
    apply token_by_hash_Some in Et as (i & Hit & Eh').
    assert (i = rt_ID tok) as -> by (apply (inv_hash _ Hi i (rt_ID tok) t tok); congruence).
    rewrite Ht in Hit. injection Hit as <-. rewrite Hs, Ho, Eu, Ev. simpl.
    destruct (Z.ltb_spec (AbsoluteExpiresAt sess) now); [lia|]. rewrite bool_decide_eq_true_2 by done. simpl.
    destruct (Z.ltb_spec (rt_ExpiresAt tok) now); [lia|].
    assert (Hins : is_Some (insert_token (mkToken nid (ID sess) nh (Some (rt_ID tok)) dbnow ne None None None)
      (mkDB (sessions db) (alter (used_token now) (rt_ID tok) (tokens db))))).
    { unfold insert_token. simpl. rewrite lookup_alter. rewrite decide_False by congruence. rewrite Hid. simpl.
      destruct (token_by_hash nh _) as [u|] eqn:Eu'; [|by eexists]. exfalso.
      apply token_by_hash_Some in Eu' as (j & Hj & E). simpl in Hj. rewrite lookup_alter in Hj.
      case_decide; [|by apply (Hnew j u)]. subst j. rewrite Ht in Hj. injection Hj as <-.
      by apply (Hnew (rt_ID tok) tok). }
    destruct Hins as [db' ->]. by eexists _, _, _.
Qed.

(** ** Sessions, their access tokens and the revocation cache

    Any number of servers share the tables and the cache.  [y_now] is the true
    time; the clocks they read differ from it by at most [skew].  The steps are
    the transactions, marks and questions of the calls in progress, in any
    order; an access token counts as issued from the transaction on.  No clock is
    before 1970, where a token would not expire. *)

Section System.
Context `{ClaimsJSON} {C : Type} `{RevocationCache C}.
Context (hmac : string → string → string) (uuid_String : UUID → string) (cfg : AuthConfig) (skew : Duration).

Record Sys := mkSys {
  y_db : DB; y_cache : C; y_issued : list Claims; y_marked : list UUID; y_now : Time;
}.

Definition reads (y : Sys) (t : Time) : Prop := y_now y - skew ≤ t ≤ y_now y + skew.

#[local] Abbreviation claims_of := (access_claims uuid_String cfg).

Inductive sys_step (y : Sys) : Sys → Prop :=
| ss_time t : y_now y ≤ t → sys_step y (mkSys (y_db y) (y_cache y) (y_issued y) (y_marked y) t)
| ss_login q d sid tid dbnow s hash exp s' rt db' now roles tokenID :
    now ≤ y_now y + skew → Second ≤ timeAdd now (AccessTokenExpiry cfg) →
    CreateSession q d sid tid dbnow s hash exp (y_db y) = (Ok (s', rt), db') →
    sys_step y (mkSys db' (y_cache y)
      (claims_of now (UserID s') (WalletAddress s') roles (ID s') tokenID :: y_issued y) (y_marked y) (y_now y))
| ss_refresh q d txnow dbnow nid raw fp nh ne s rt db' now roles tokenID :
    now ≤ y_now y + skew → Second ≤ timeAdd now (AccessTokenExpiry cfg) →
    RotateRefreshToken q d txnow dbnow nid raw fp nh ne (y_db y) = (Rotated s rt, db') →
    sys_step y (mkSys db' (y_cache y)
      (claims_of now (UserID s) (WalletAddress s) roles (ID s) tokenID :: y_issued y) (y_marked y) (y_now y))
| ss_tables o : sys_step y (mkSys (exec (y_db y) o) (y_cache y) (y_issued y) (y_marked y) (y_now y))
| ss_mark sid now ok c :
    reads y now → revoked_in (y_db y) sid →
    MarkRevoked now (uuid_String sid) (AccessTokenExpiry cfg + Minute) (y_cache y) = (ok, c) →
    sys_step y (mkSys (y_db y) c (y_issued y) (if ok then sid :: y_marked y else y_marked y) (y_now y))
| ss_ask sid now r c :
    reads y now → IsRevoked now sid (y_cache y) = (r, c) →
    sys_step y (mkSys (y_db y) c (y_issued y) (y_marked y) (y_now y)).

Inductive reachable (y0 : Sys) : Sys → Prop :=
| reach_refl : reachable y0 y0
| reach_step y y' : reachable y0 y → sys_step y y' → reachable y0 y'.

Record sys_inv (y : Sys) : Prop := {
  si_db : chain_inv (y_db y);
  si_expiry c : c ∈ y_issued y →
    0 < Auth.ExpiresAt c ∧ Auth.ExpiresAt c * Second ≤ y_now y + skew + AccessTokenExpiry cfg;
  si_marked sid : sid ∈ y_marked y →
    revoked_in (y_db y) sid
    ∧ ∃ e, (∀ c, c ∈ y_issued y → SessionID c = uuid_String sid → (Auth.ExpiresAt c + 1) * Second ≤ e - 2 * skew)
         ∧ ((∃ e', until (y_cache y) (uuid_String sid) = Some e' ∧ e ≤ e') ∨ e < y_now y + skew);
}.

Context {Laws : RevocationLaws C} {Hinj : Inj (=) (=) uuid_String}.
Context (skew_small : 0 ≤ skew ∧ 4 * skew ≤ 59 * Second).

Lemma unix_bounds t : Unix t * Second ≤ t < (Unix t + 1) * Second ∧ (Second ≤ t → 0 < Unix t).
Proof. unfold Unix, Second, Millisecond, Microsecond, Nanosecond. Z.to_euclidean_division_equations. lia. Qed.

(** New claims for a session that is not among the marked ones. *)
Lemma issue_inv y db' c :
  sys_inv y → chain_inv db' → keeps (y_db y) db' →
  0 < Auth.ExpiresAt c ∧ Auth.ExpiresAt c * Second ≤ y_now y + skew + AccessTokenExpiry cfg →
  (∀ sid, revoked_in (y_db y) sid → SessionID c ≠ uuid_String sid) →
  sys_inv (mkSys db' (y_cache y) (c :: y_issued y) (y_marked y) (y_now y)).
Proof.
  intros [Hd He Hm] Hd' Hk Hc Hno. split; simpl; [done| |].
  - intros c' [->|Hc']%elem_of_cons; [done|by apply He].
  - intros sid Hs. destruct (Hm sid Hs) as (Hr & e & Hcl & Hu). split; [by eapply revoked_keeps|].
    exists e. split; [|done]. intros c' [->|Hc']%elem_of_cons Esid; [by destruct (Hno sid Hr)|by apply Hcl].
Qed.

Lemma mark_inv y sid now ok c :
  sys_inv y → reads y now → revoked_in (y_db y) sid →
  MarkRevoked now (uuid_String sid) (AccessTokenExpiry cfg + Minute) (y_cache y) = (ok, c) →
  sys_inv (mkSys (y_db y) c (y_issued y) (if ok then sid :: y_marked y else y_marked y) (y_now y)).
Proof.
  intros [Hd He Hm] [Hlo Hhi] Hr Hmark. split; simpl; [done|done|].
  assert (Hnew : until c (uuid_String sid) = Some (timeAdd now (AccessTokenExpiry cfg + Minute)) →
    ∃ e, (∀ c, c ∈ y_issued y → SessionID c = uuid_String sid → (Auth.ExpiresAt c + 1) * Second ≤ e - 2 * skew)
         ∧ ((∃ e', until c (uuid_String sid) = Some e' ∧ e ≤ e') ∨ e < y_now y + skew)).
  { intros E. exists (timeAdd now (AccessTokenExpiry cfg + Minute)). split.
    - intros c' Hc' _. destruct (He c' Hc'). unfold timeAdd, Minute in *. lia.
    - left. by eexists. }
  intros sid' Hs'.
  assert (Hcase : sid' = sid ∧ ok = true ∨ sid' ∈ y_marked y).
  { destruct ok; [|by right]. apply elem_of_cons in Hs' as [->|?]; auto. }
  destruct Hcase as [[-> ->]|Hin].
  - split; [done|]. apply Hnew. by apply (mark_ok _ _ _ _ _ Hmark).
  - destruct (Hm sid' Hin) as (Hr' & e & Hcl & Hu). split; [done|].
    destruct (decide (sid' = sid)) as [->|Hne].
    + destruct ok; [by apply Hnew, (mark_ok _ _ _ _ _ Hmark)|].
      destruct (mark_failed _ _ _ _ _ Hmark) as [E|E]; [|by apply Hnew].
      exists e. split; [done|]. by rewrite E.
    + exists e. split; [done|]. rewrite (mark_other _ _ _ _ _ _ Hmark); [done|].
      by intros E%(inj uuid_String).
Qed.

Lemma ask_inv y sid now r c :
  sys_inv y → reads y now → IsRevoked now sid (y_cache y) = (r, c) →
  sys_inv (mkSys (y_db y) c (y_issued y) (y_marked y) (y_now y)).
Proof.
  intros [Hd He Hm] [Hlo Hhi] Hask. split; simpl; [done|done|]. intros sid' Hs'.
  destruct (Hm sid' Hs') as (Hr & e & Hcl & Hu). split; [done|]. exists e. split; [done|].
  destruct Hu as [(e' & Eu & Hle)|?]; [|by right]. destruct (decide (now ≤ e')).
  - left. exists e'. split; [|done]. by apply (asking_keeps _ _ _ _ _ _ _ Hask).
  - right. lia.
Qed.

Lemma step_inv y y' : sys_inv y → sys_step y y' → sys_inv y'.
Proof.
  intros Hi Hst. pose proof (si_db _ Hi) as Hd. destruct Hst as [t Ht|q d sid tid dbnow s hash exp s' rt db' now roles tk Hnow Hera E
    |q d txnow dbnow nid raw fp nh ne s rt db' now roles tk Hnow Hera E|o|sid now ok c Hr Hv E|sid now r c Hr E].
  - destruct Hi as [_ He Hm]. split; simpl; [done|intros c Hc; specialize (He c Hc); lia|].
    intros sid Hs. destruct (Hm sid Hs) as (? & e & ? & Hu). split; [done|]. exists e. split; [done|].
    destruct Hu; [by left|right; lia].
  - apply CreateSession_spec in E as (Hmv & Hc & _ & _). apply issue_inv; [done|by eapply move_inv|by apply move_keeps| |].
    + simpl. destruct (unix_bounds (timeAdd now (AccessTokenExpiry cfg))) as [? Hpos]. unfold timeAdd in *. lia.
    + intros sid' (x & Hx & _) Esid%(inj uuid_String). simpl in Esid. destruct (cr_fresh _ _ _ _ Hc). congruence.
  - pose proof (rotate_cases q d txnow dbnow nid raw fp nh ne (y_db y) Hd) as Hc.
    pose proof (rotate_move q d txnow dbnow nid raw fp nh ne (y_db y) Hd) as Hmv. rewrite E in Hc, Hmv. simpl in *.
    apply issue_inv; [done|by eapply move_inv|by apply move_keeps| |].
    + simpl. destruct (unix_bounds (timeAdd now (AccessTokenExpiry cfg))) as [? Hpos]. unfold timeAdd in *. lia.
    + intros sid' (x & Hx & Hrx) Esid%(inj uuid_String). simpl in Esid.
      inversion Hc as [| |sess tok rt' db2 Hro ? ? ? ? ? ? Eo Edb]; [by destruct (failed d)|].
      destruct (failed d); [done|]. injection Eo as Eo _. rewrite <-Eo in Esid. simpl in Esid.
      pose proof (ro_session _ _ _ _ _ _ Hro). pose proof (ro_open _ _ _ _ _ _ Hro).
      rewrite (rotated_sid _ _ _ _ _ _ Hro Hd) in *. congruence.
  - pose proof (exec_move (y_db y) o Hd) as Hmv. destruct Hi as [_ He Hm].
    split; simpl; [by eapply move_inv|done|]. intros sid Hs. destruct (Hm sid Hs) as (Hr & ?).
    split; [|done]. by eapply revoked_keeps; [apply move_keeps|].
  - by apply (mark_inv y sid now).
  - by apply (ask_inv y sid now r).
Qed.

Lemma reachable_inv y0 y : sys_inv y0 → reachable y0 y → sys_inv y.
Proof. induction 2; [done|by eapply step_inv]. Qed.

(** Logout reaches the access tokens.  Once a revoked session is marked in
    the cache, no server admits a request as that session, for as long as
    tokens live: the marks outlive every token issued before them, also when
    the clocks differ by up to fourteen seconds.  The tokens are assumed to be
    those the service issued. *)
Theorem sess_revoked_token_refused c0 t0 y sid unicode_lower unicode_fold secret key rules u w r usr :
  reachable (mkSys emptyDB c0 [] [] t0) y → sid ∈ y_marked y → uuid_String sid ≠ ""%string →
  reads y u → reads y w →
  (∀ tok c, ParseJWT hmac u tok secret = Ok c → c ∈ y_issued y) →
  Authenticate hmac unicode_lower unicode_fold secret key rules u
    (λ s, (IsRevoked w s (y_cache y)).1) r = Next (Some usr) →
  u_SessionID usr ≠ uuid_String sid.
Proof.
  intros Hreach Hsid Hne [Hu1 Hu2] [Hw1 Hw2] Hforge Ha.
  assert (Hi : sys_inv y).
  { apply (reachable_inv (mkSys emptyDB c0 [] [] t0)); [|done]. split; simpl; [apply empty_inv|..]; set_solver. }
  destruct (si_marked _ Hi sid Hsid) as (_ & e & Hcl & Hun).
  apply authenticate_next in Ha as [_ [(_ & _ & _ & ->)|[(tok & c & _ & Hp & -> & Hs) _]]]; [simpl; congruence|].
  simpl. intros Es. rewrite Es in Hs. destruct Hs as [|Hs]; [done|].
  pose proof (Hforge tok c Hp) as Hc. destruct (si_expiry _ Hi c Hc) as [Hpos _].
  pose proof (parse_unexpired _ _ _ _ _ Hp Hpos) as Hunix. specialize (Hcl c Hc Es).
  destruct (unix_bounds u) as [[_ Hlt] _].
  assert (He : e < y_now y + skew).
  { destruct Hun as [(e' & Hun & Hle)|?]; [|done]. destruct (Z.le_gt_cases w e'); [|lia].
    destruct (IsRevoked w (uuid_String sid) (y_cache y)) as [b c'] eqn:Eask. simpl in Hs. subst b.
    by pose proof (listed_revoked _ _ _ _ _ _ Eask Hun ltac:(lia)). }
  assert (Unix u + 1 ≤ Auth.ExpiresAt c + 1) by lia. unfold Second, Millisecond, Microsecond, Nanosecond in *. lia.
Qed.

(** ** The calls of the service are such steps *)

Context (sha256 : string → string) (ParseAddress : string → bool) (DecodeSignature : string → option string)
        (Verify : string → string → string → bool).

Inductive call :=
| KLogin (env : LoginEnv) (wallet signature challenge : string) (meta : SessionMetadata) (m : ChallengeStore)
| KRefresh (env : RefreshEnv) (raw : string) (meta : SessionMetadata)
| KLogout (q1 q2 : bool) (d : dbres) (dbnow now : Time) (userID sessionID : UUID)
| KLogoutAll (q : bool) (d : dbres) (dbnow : Time) (now : nat → Time) (userID : UUID).

Definition token_of (r : result AuthError Tokens) : option Tokens :=
  match r with Ok tk => Some tk | Err _ => None end.

Definition serve (k : call) (db : DB) (c : C) : option Tokens * DB * C :=
  match k with
  | KLogin env wallet signature challenge meta m =>
      let '(r, _, _, db') := VerifyAndIssue hmac sha256 uuid_String cfg ParseAddress DecodeSignature Verify
                               env wallet signature challenge meta m db in
      (token_of r, db', c)
  | KRefresh env raw meta =>
      let '(r, _, db', c') := Refresh hmac sha256 uuid_String cfg env raw meta db c in (token_of r, db', c')
  | KLogout q1 q2 d dbnow now userID sessionID =>
      let '(_, _, db', c') := Logout uuid_String cfg q1 q2 d dbnow now userID sessionID db c in (None, db', c')
  | KLogoutAll q d dbnow now userID =>
      let '(_, _, db', c') := LogoutAll uuid_String cfg q d dbnow now userID db c in (None, db', c')
  end.

(** The clocks a call reads. *)
Definition on_time (y : Sys) (k : call) : Prop :=
  match k with
  | KLogin env _ _ _ _ _ => l_now env ≤ y_now y + skew ∧ Second ≤ timeAdd (l_now env) (AccessTokenExpiry cfg)
  | KRefresh env _ _ =>
      e_now env ≤ y_now y + skew ∧ Second ≤ timeAdd (e_now env) (AccessTokenExpiry cfg) ∧ reads y (e_marknow env)
  | KLogout _ _ _ _ now _ _ => reads y now
  | KLogoutAll _ _ _ now _ => ∀ i, reads y (now i)
  end.

(** The state [y'] is reached without time passing, with these tables, this
    cache and the token, if any, issued. *)
Definition arrives (y : Sys) (tk : option Tokens) (db : DB) (c : C) : Prop :=
  ∃ y', reachable y y' ∧ y_db y' = db ∧ y_cache y' = c ∧ y_now y' = y_now y
    ∧ ∀ t, tk = Some t → ∃ cl, cl ∈ y_issued y' ∧ MakeJWT hmac cl (Secret cfg) = Some (AccessToken t).

Lemma arrives_now y : arrives y None (y_db y) (y_cache y).
Proof. exists y. by repeat split; [constructor|..]. Qed.

Lemma arrives_tables y o : arrives y None (exec (y_db y) o) (y_cache y).
Proof. eexists. by split; [eapply reach_step; [constructor|apply (ss_tables y o)]|]. Qed.

Lemma reachable_trans y1 y2 y3 : reachable y1 y2 → reachable y2 y3 → reachable y1 y3.
Proof. intros H12. induction 1; [done|by eapply reach_step]. Qed.

(** A step without a token, then the rest. *)
Lemma arrives_step y y1 db c : sys_step y y1 → y_now y1 = y_now y → arrives y1 None db c → arrives y None db c.
Proof.
  intros Hs En (y' & Hr & Hd & Hc & Hn & _). exists y'. split; [|split; [done|split; [done|split; [congruence|done]]]].
  eapply reachable_trans; [|done]. by eapply reach_step; [constructor|].
Qed.

(** The transaction, then a mark of a session that is revoked. *)
Lemma arrives_mark y o sid now ok c' :
  reads y now → revoked_in (exec (y_db y) o) sid →
  MarkRevoked now (uuid_String sid) (AccessTokenExpiry cfg + Minute) (y_cache y) = (ok, c') →
  arrives y None (exec (y_db y) o) c'.
Proof.
  intros Hr Hv Hm. eexists. split; [eapply reach_step; [eapply reach_step; [constructor|apply (ss_tables y o)]|]|].
  - by eapply (ss_mark (mkSys (exec (y_db y) o) (y_cache y) (y_issued y) (y_marked y) (y_now y)) sid now ok c').
  - by repeat split.
Qed.

Lemma refresh_arrives y env raw meta :
  chain_inv (y_db y) → on_time y (KRefresh env raw meta) →
  let '(r, _, db', c') := Refresh hmac sha256 uuid_String cfg env raw meta (y_db y) (y_cache y) in
  arrives y (token_of r) db' c'.
Proof.
  intros Hi (Hn & Hera & Hmk). unfold Refresh. case_decide; [apply arrives_now|].
  case_decide; [apply arrives_now|]. destruct (e_raw env) as [newRaw|]; [|apply arrives_now].
  set (hr := hashOpaqueToken sha256 raw). set (hn := hashOpaqueToken sha256 newRaw). set (ne := timeAdd _ _).
  pose proof (rotate_cases (e_q env) (e_d env) (e_txnow env) (e_dbnow env) (e_newID env) hr
    (m_DeviceFingerprint meta) hn ne (y_db y) Hi) as Hc.
  set (o := ORotate (e_q env) (e_d env) (e_txnow env) (e_dbnow env) (e_newID env) hr (m_DeviceFingerprint meta) hn ne).
  pose proof (arrives_tables y o) as Htab. pose proof (arrives_mark y o) as Hmark. simpl in Htab, Hmark.
  destruct (RotateRefreshToken _ _ _ _ _ _ _ _ _ _) as [[s rt|so e] db'] eqn:Er; simpl in *.
  - destruct (e_roles env) as [roles|]; [|done].
    destruct (MakeJWT _ _ _) as [tok|] eqn:Et; [|done].
    eexists. split; [eapply reach_step; [constructor|by eapply (ss_refresh y _ _ _ _ _ _ _ _ _ _ _ _ _ roles (e_tokenID env) Hn Hera Er)]|].
    split; [done|]. split; [done|]. split; [done|]. intros t [= <-]. eexists. split; [left|done].
  - destruct (finalized e) as [[reason comp]|] eqn:Ef; [|done].
    destruct so as [sess|]; [|done]. unfold finalizeRevocation.
    destruct (MarkRevoked _ _ _ _) as [ok c'] eqn:Em. simpl.
    apply (Hmark (ID sess) (e_marknow env) ok); [done| |done].
    inversion Hc as [o' e' ? ? Hf|sess' tok reason' e' db2 ? ? ? ? Hrv ? Eo Edb|? ? ? ? ? ? ? ? ? ? ? Eo]; subst.
    + congruence.
    + destruct (e_d env); simpl in *; [|done]. injection Eo as -> _.
      apply (revokes_revoked _ _ _ _ _ _ Hrv). by apply bool_decide_eq_true.
    + by destruct (failed (e_d env)).
Qed.

Lemma logout_arrives y q1 q2 d dbnow now userID sid :
  reads y now →
  let '(_, _, db', c') := Logout uuid_String cfg q1 q2 d dbnow now userID sid (y_db y) (y_cache y) in
  arrives y None db' c'.
Proof.
  intros Hr. unfold Logout, revokeOwnedSession. destruct (GetSessionByID _ _ _) as [sess|e]; [|apply arrives_now].
  destruct (negb _); [apply arrives_now|].
  pose proof (arrives_tables y (ORevoke q2 d dbnow sid ReasonLogout)) as Htab.
  pose proof (arrives_mark y (ORevoke q2 d dbnow sid ReasonLogout) sid now) as Hmark. simpl in Htab, Hmark.
  destruct (RevokeSession _ _ _ _ _ _) as [[[]|e] db'] eqn:Er; [|done].
  destruct (MarkRevoked _ _ _ _) as [ok c'] eqn:Em. apply (Hmark ok c'); [done| |done].
  apply RevokeSession_spec in Er as [[_ Hne]|(db2 & Hrv & -> & Eo)]; [done|].
  destruct d; [|done]. simpl. apply (revokes_revoked _ _ _ _ _ _ Hrv). by apply bool_decide_eq_true.
Qed.

Lemma marks_arrive now l i y :
  (∀ j, reads y (now j)) → (∀ s, s ∈ l → revoked_in (y_db y) (ID s)) →
  arrives y None (y_db y) (markAll uuid_String cfg now i l (y_cache y)).
Proof.
  revert i y. induction l as [|s l IH]; intros i y Hr Hl; [apply arrives_now|]. simpl.
  destruct (MarkRevoked _ _ _ _) as [ok c'] eqn:Em. simpl.
  set (y1 := mkSys (y_db y) c' (y_issued y) (if ok then ID s :: y_marked y else y_marked y) (y_now y)).
  assert (Hst : sys_step y y1) by (eapply ss_mark; [apply (Hr i)|apply Hl; left|done]).
  eapply (arrives_step y y1 _ _ Hst); [done|]. apply (IH (S i) y1); [done|]. intros x Hx. apply Hl. by right.
Qed.

Lemma logout_all_arrives y q d dbnow now userID :
  chain_inv (y_db y) → (∀ i, reads y (now i)) →
  let '(_, _, db', c') := LogoutAll uuid_String cfg q d dbnow now userID (y_db y) (y_cache y) in
  arrives y None db' c'.
Proof.
  intros Hi Hr. unfold LogoutAll. set (o := ORevokeAll q d dbnow userID ReasonLogoutAll).
  pose proof (ss_tables y o) as Hst. pose proof (arrives_tables y o) as Htab. simpl in Hst, Htab.
  destruct (RevokeAllByUser _ _ _ _ _ _) as [[l|e] db'] eqn:Er; [|done]. simpl in *.
  apply RevokeAllByUser_spec in Er as [[_ ?]|(db2 & l' & Hrv & -> & Eo & Hl)]; [done|].
  destruct d; [|done]. injection Eo as ->. simpl in *.
  eapply (arrives_step _ _ _ _ Hst); [done|].
  apply (marks_arrive now l' 0 (mkSys db2 (y_cache y) (y_issued y) (y_marked y) (y_now y))); [done|].
  intros s (i & s0 & Hs0 & Ho & ->)%Hl. simpl. rewrite (inv_sid _ Hi _ _ Hs0).
  by apply (revokes_revoked _ _ _ _ _ _ Hrv).
Qed.

Lemma login_arrives y env wallet signature challenge meta m :
  l_now env ≤ y_now y + skew → Second ≤ timeAdd (l_now env) (AccessTokenExpiry cfg) →
  let '(r, _, _, db') := VerifyAndIssue hmac sha256 uuid_String cfg ParseAddress DecodeSignature Verify
                           env wallet signature challenge meta m (y_db y) in
  arrives y (token_of r) db' (y_cache y).
Proof.
  intros Hn Hera. unfold VerifyAndIssue. case_decide; [apply arrives_now|].
  destruct (l_store env); [apply arrives_now|]. destruct (GetAndDelete _ _ _) as [[stored|] m']; [|apply arrives_now].
  destruct (negb _); [apply arrives_now|]. destruct (negb _); [apply arrives_now|].
  destruct (DecodeSignature signature) as [sig|]; [|apply arrives_now].
  destruct (negb _); [apply arrives_now|]. destruct (match l_user env with Some _ => _ | None => _ end) as [u|];
    [|apply arrives_now].
  destruct (l_roles env) as [roles|]; [|apply arrives_now]. destruct (l_raw env) as [raw|]; [|apply arrives_now].
  set (s0 := mkSession _ _ _ _ _ _ _ _ _ _ _). set (h := hashOpaqueToken _ _). set (x := timeAdd (l_now env) (RefreshTokenExpiry _)).
  pose proof (arrives_tables y (OCreate (l_q env) (l_d env) (l_sid env) (l_tid env) (l_dbnow env) s0 h x)) as Htab.
  simpl in Htab.
  destruct (CreateSession _ _ _ _ _ _ _ _ _) as [[[s rt]|e] db'] eqn:Ec; [|done].
  assert (Hs : UserID s = u ∧ WalletAddress s = wallet).
  { clear -Ec. unfold CreateSession, commit in Ec. destruct (l_q env || _); [done|].
    destruct (insert_token _ _); [|done]. destruct (failed _); [done|]. by injection Ec as <- _ _. }
  destruct Hs as [<- <-]. destruct (MakeJWT _ _ _) as [tok|] eqn:Et; [|done].
  eexists. split; [eapply reach_step; [constructor|by eapply (ss_login y _ _ _ _ _ _ _ _ _ _ _ _ roles (l_tokenID env) Hn Hera Ec)]|].
  split; [done|]. split; [done|]. split; [done|]. intros t [= <-]. eexists. split; [left|done].
Qed.

(** The calls of the service are the steps the guarantees are about.  Each
    call of VerifyAndIssue, Refresh, Logout and LogoutAll, whatever fails in
    it, leaves the tables and the cache where a sequence of the steps leads,
    and the access token it returns is one the steps have issued. *)
Theorem sess_calls_are_steps y k :
  chain_inv (y_db y) → on_time y k →
  arrives y (serve k (y_db y) (y_cache y)).1.1 (serve k (y_db y) (y_cache y)).1.2 (serve k (y_db y) (y_cache y)).2.
Proof.
  intros Hi Ht. destruct k as [env wallet sig ch meta m|env raw meta|q1 q2 d dbnow now u sid|q d dbnow now u]; simpl in *.
  - pose proof (login_arrives y env wallet sig ch meta m) as Hcall.
    destruct (VerifyAndIssue _ _ _ _ _ _ _ _ _ _ _ _ _ _) as [[[r fx] m'] db']. destruct Ht. by apply Hcall.
  - pose proof (refresh_arrives y env raw meta Hi Ht) as Hcall.
    by destruct (Refresh _ _ _ _ _ _ _ _ _) as [[[r fx] db'] c'].
  - pose proof (logout_arrives y q1 q2 d dbnow now u sid Ht) as Hcall.
    by destruct (Logout _ _ _ _ _ _ _ _ _ _ _) as [[[r fx] db'] c'].
  - pose proof (logout_all_arrives y q d dbnow now u Hi Ht) as Hcall.
    by destruct (LogoutAll _ _ _ _ _ _ _ _ _) as [[[r fx] db'] c'].
Qed.
End System.

(** ** Challenges are spent *)

(** A login needs a challenge that was stored for the wallet, has not
    expired and is signed by the wallet, and it spends it: the store forgets
    the wallet, so that the same signature does not log in again. *)
Theorem sess_challenge_spent `{ClaimsJSON} hmac sha256 uuid_String cfg ParseAddress DecodeSignature Verify
    env env' wallet signature challenge meta meta' m db db2 tk fx m' db' :
  VerifyAndIssue hmac sha256 uuid_String cfg ParseAddress DecodeSignature Verify
    env wallet signature challenge meta m db = (Ok tk, fx, m', db') →
  (∃ entry sig, m !! wallet = Some entry ∧ value entry = challenge ∧ l_t0 env ≤ expiresAt entry
     ∧ DecodeSignature signature = Some sig ∧ Verify wallet (sep53MessageHash sha256 challenge) sig = true)
  ∧ m' = delete wallet m
  ∧ ∃ e, VerifyAndIssue hmac sha256 uuid_String cfg ParseAddress DecodeSignature Verify
           env' wallet signature challenge meta' m' db2 = (Err e, [], m', db2).
Proof.
  unfold VerifyAndIssue. case_decide; [done|]. destruct (l_store env); [done|]. unfold GetAndDelete at 1.
  destruct (m !! wallet) as [entry|] eqn:Ew; [|done].
  destruct (Z.ltb_spec (expiresAt entry) (l_t0 env)); [done|].
  case_bool_decide as Ec; [|done]. simpl. destruct (ParseAddress wallet); [|done]. simpl.
  destruct (DecodeSignature signature) as [sig|]; [|done].
  destruct (Verify _ _ _) eqn:Ev; [|done]. simpl. intros Hrest.
  assert (m' = delete wallet m) as -> by (repeat case_match; by simplify_eq).
  split; [by exists entry, sig|]. split; [done|].
  case_decide; [by eexists|]. destruct (l_store env'); [by eexists|]. unfold GetAndDelete.
  rewrite lookup_delete_eq, delete_delete_eq. by eexists.
Qed.

(** ** Witnesses *)

Section Demo.
Definition demo_cfg : AuthConfig := mkAuthConfig "k" (15 * Minute) (720 * Hour) (2160 * Hour).
Definition demo_session : Session :=
  mkSession 0 7 "GWALLET" "phone" None None 0 0 (2160 * Hour) None None.
Definition demo_login : op := OCreate false DBOk 1 10 0 demo_session "h0" (720 * Hour).
Definition demo_rotate (raw fp nh : string) (nid : UUID) (db : DB) : rotation * DB :=
  RotateRefreshToken false DBOk Hour Hour nid raw fp nh (721 * Hour) db.

(** The token is exchanged, stolen and presented by the thief. *)
Lemma sess_reuse_kills_session_witness :
  (∃ s' e, (demo_rotate "h0" "phone" "h9" 12 (demo_rotate "h0" "phone" "h1" 11 (execs [demo_login] emptyDB)).2).1
           = Refused (Some s') e)
  ∧ revoked_in (execs [] (demo_rotate "h0" "phone" "h9" 12 (demo_rotate "h0" "phone" "h1" 11 (execs [demo_login] emptyDB)).2).2) 1.
Proof.
  destruct (sess_reuse_kills_session [demo_login] [] [] false DBOk Hour Hour 11 "h0" "phone" "h1" (721 * Hour)
    (active_session Hour (mkSession 1 7 "GWALLET" "phone" None None 0 0 (2160 * Hour) None None))
    (mkToken 11 1 "h1" (Some 10) Hour (721 * Hour) None None None)
    (demo_rotate "h0" "phone" "h1" 11 (execs [demo_login] emptyDB)).2
    Hour Hour 12 "phone" "h9" (721 * Hour)
    (demo_rotate "h0" "phone" "h9" 12 (demo_rotate "h0" "phone" "h1" 11 (execs [demo_login] emptyDB)).2).1
    (demo_rotate "h0" "phone" "h9" 12 (demo_rotate "h0" "phone" "h1" 11 (execs [demo_login] emptyDB)).2).2)
    as (Ho & Hr & _).
  - vm_compute. reflexivity.
  - vm_compute. reflexivity.
  - by split.
Defined.

Lemma sess_rotation_succeeds_witness :
  ∃ s rt db', demo_rotate "h0" "phone" "h1" 11 (execs [demo_login] emptyDB) = (Rotated s rt, db').
Proof.
  apply (sess_rotation_succeeds Hour Hour 11 "h0" "phone" "h1" (721 * Hour) (execs [demo_login] emptyDB)).
  - apply execs_inv, empty_inv.
  - reflexivity.
  - intros i u Hu. assert (Hm : map_Forall (λ _ u, rt_TokenHash u ≠ "h1"%string) (tokens (execs [demo_login] emptyDB)))
      by (apply (bool_decide_unpack _); vm_compute; reflexivity). by apply (Hm i).
  - exists (mkToken 10 1 "h0" None 0 (720 * Hour) None None None),
      (mkSession 1 7 "GWALLET" "phone" None None 0 0 (2160 * Hour) None None).
    repeat split; by vm_compute.
Defined.

(** The only claims there are: those of the login at time zero. *)
Definition demo_sid (u : UUID) : string := pretty u.
Definition demo_claims : Claims := access_claims demo_sid demo_cfg Hour 7 "GWALLET" [] 1 "jti".

#[local] Instance demo_json : ClaimsJSON := {
  marshal c := Some (TokenID c);
  unmarshal s := if decide (s = "jti"%string) then Some demo_claims else None;
}.

Definition demo_hmac (secret data : string) : string := secret +:+ data.

Definition demo_start : Sys (C := gmap string Time) := mkSys emptyDB ∅ [] [] Hour.
Definition demo_end : Sys (C := gmap string Time) :=
  mkSys (execs [demo_login; ORevoke false DBOk Hour 1 ReasonLogout] emptyDB)
    (<["1"%string := Hour + (15 * Minute + Minute)]> ∅) [demo_claims] [1] Hour.

Definition demo_open (db : list op) : Sys (C := gmap string Time) :=
  mkSys (execs db emptyDB) ∅ [demo_claims] [] Hour.

Lemma demo_reachable : reachable demo_sid demo_cfg 0 demo_start demo_end.
Proof.
  apply (reach_step _ _ _ _ (demo_open [demo_login; ORevoke false DBOk Hour 1 ReasonLogout]));
    [apply (reach_step _ _ _ _ (demo_open [demo_login])); [apply (reach_step _ _ _ _ demo_start); [apply reach_refl|]|]|].
  - refine (ss_login demo_sid demo_cfg 0 demo_start false DBOk 1 10 0 demo_session "h0" (720 * Hour)
      (mkSession 1 7 "GWALLET" "phone" None None 0 0 (2160 * Hour) None None)
      (mkToken 10 1 "h0" None 0 (720 * Hour) None None None) (execs [demo_login] emptyDB) Hour [] "jti" _ _ _);
      by vm_compute.
  - apply (ss_tables demo_sid demo_cfg 0 (demo_open [demo_login]) (ORevoke false DBOk Hour 1 ReasonLogout)).
  - refine (ss_mark demo_sid demo_cfg 0 (demo_open [demo_login; ORevoke false DBOk Hour 1 ReasonLogout])
      1 Hour true _ _ _ _).
    + unfold reads. simpl. lia.
    + eexists. split; [vm_compute; reflexivity|done].
    + reflexivity.
Qed.

Definition demo_request : AuthRequest := mkRequest "GET" "/api/v1/vaults"
  ("Bearer " +:+ default ""%string (MakeJWT demo_hmac demo_claims "k")) "" "".

(** The request was admitted before the logout, and is not after it. *)
Example demo_before :
  Authenticate demo_hmac id (λ _ _, false) "k" "" ProductionAuthRules (Hour + Second) (λ _, Some false) demo_request
  = Next (Some (token_caller demo_claims)).
Proof. vm_compute. reflexivity. Qed.

Lemma sess_revoked_token_refused_witness :
  Authenticate demo_hmac id (λ _ _, false) "k" "" ProductionAuthRules Hour
    (λ s, (IsRevoked Hour s (y_cache demo_end)).1) demo_request
  ≠ Next (Some (token_caller demo_claims)).
Proof.
  intros E.
  assert (Hinj : Inj (=) (=) demo_sid) by (unfold demo_sid; apply _).
  apply (sess_revoked_token_refused demo_hmac demo_sid demo_cfg 0 ltac:(by vm_compute) ∅ Hour demo_end 1 id (λ _ _, false) "k" ""
    ProductionAuthRules Hour Hour demo_request (token_caller demo_claims)).
  - exact demo_reachable.
  - left.
  - done.
  - unfold reads. simpl. lia.
  - unfold reads. simpl. lia.
  - clear E. intros tok c. unfold ParseJWT. destruct (splitByte "." tok) as [|h [|p [|sg [|]]]]; try done.
    destruct (negb _); [done|]. destruct (Base64.DecodeString p) as [payload|]; [|done]. simpl.
    destruct (decide (payload = "jti"%string)); [|done]. destruct (_ && _); [done|]. intros [= <-]. left.
  - exact E.
  - done.
Defined.

Lemma sess_calls_are_steps_witness :
  arrives demo_hmac demo_sid demo_cfg 0 demo_end None
    (serve demo_hmac demo_sid demo_cfg id (λ _, true) Some (λ _ _ _, true)
       (KLogout false false DBOk Hour Hour 7 1) (y_db demo_end) (y_cache demo_end)).1.2
    (serve demo_hmac demo_sid demo_cfg id (λ _, true) Some (λ _ _ _, true)
       (KLogout false false DBOk Hour Hour 7 1) (y_db demo_end) (y_cache demo_end)).2.
Proof.
  apply (sess_calls_are_steps demo_hmac demo_sid demo_cfg 0 id (λ _, true) Some (λ _ _ _, true) demo_end
    (KLogout false false DBOk Hour Hour 7 1)).
  - apply (execs_inv [demo_login; ORevoke false DBOk Hour 1 ReasonLogout]), empty_inv.
  - unfold on_time, reads. simpl. lia.
Defined.

Definition demo_login_env : LoginEnv :=
  mkLoginEnv false 0 0 (Some 7) None (Some []) (Some "raw"%string) false DBOk 1 10 0 "jti".

Lemma sess_challenge_spent_witness :
  ∃ e, VerifyAndIssue demo_hmac id demo_sid demo_cfg (λ _, true) Some (λ _ _ _, true)
         demo_login_env "GWALLET" "sig" "c0" (mkMeta "phone" "" "") (delete "GWALLET"%string {["GWALLET"%string := mkChallenge "c0" 5]}) emptyDB
       = (Err e, [], delete "GWALLET"%string {["GWALLET"%string := mkChallenge "c0" 5]}, emptyDB).
Proof.
  eapply (sess_challenge_spent demo_hmac id demo_sid demo_cfg (λ _, true) Some (λ _ _ _, true)
    demo_login_env demo_login_env "GWALLET" "sig" "c0" (mkMeta "phone" "" "") (mkMeta "phone" "" "")
    {["GWALLET"%string := mkChallenge "c0" 5]} emptyDB emptyDB).
  vm_compute. reflexivity.
Defined.

(** A cache that does not answer writes. *)
#[local] Instance DownCache : RevocationCache (gmap string Time) := {
  MarkRevoked _ _ _ m := (false, m);
  IsRevoked _ _ m := (Some false, m);
  until m sid := m !! sid;
}.

(** The error of the cache is dropped: a logout whose mark fails reports
    success, and the session's access token goes on being admitted until it
    expires. *)
Theorem sess_failed_mark_leaves_token :
  ∃ fx db' c',
    Logout demo_sid demo_cfg false false DBOk Hour Hour 7 1 (execs [demo_login] emptyDB) (∅ : gmap string Time)
      = (Ok tt, fx, db', c')
    ∧ revoked_in db' 1
    ∧ Authenticate demo_hmac id (λ _ _, false) "k" "" ProductionAuthRules (Hour + 14 * Minute)
        (λ s, (IsRevoked (Hour + 14 * Minute) s c').1) demo_request
      = Next (Some (token_caller demo_claims)).
Proof.
  eexists _, _, _. split; [vm_compute; reflexivity|]. split.
  - eexists. split; [vm_compute; reflexivity|done].
  - vm_compute. reflexivity.
Qed.
End Demo.
