(* ===== verification/RedisKeys.v ===== *)
(** Counters, locks and their expiry in Redis, as the limiters of
    internal/middleware (ratelimit_backend.go, authlockout.go) use them: the
    commands are the class [RedisKeys] with the laws [RedisKeysLaws], which say what
    Redis documents, and a finite map is an instance. *)

From S2P Require Import Prelude.
Open Scope Z_scope.

(** How a call to Redis ends: answered, or with an error, before or after its
    effect (a time-out tells neither). *)
Inductive reached := Reached | Lost (executed : bool).

Definition attempt {A R} (o : reached) (f : R → A * R) (r : R) : option A * R :=
  match o with
  | Reached => let '(a, r) := f r in (Some a, r)
  | Lost true => (None, (f r).2)
  | Lost false => (None, r)
  end.

(** The expiry go-redis sends with SET: whole milliseconds, at least one. *)
Definition px (ttl : Duration) : Duration := Z.max Millisecond (ttl / Millisecond * Millisecond).

(** A key that has a deadline exists until it has passed. *)
Definition unexpired {V} (now : Time) (o : option (V * option Time)) : option (V * option Time) :=
  match o with
  | Some (v, Some d) => if now <=? d then o else None
  | _ => o
  end.

(** [view r now k] is what a client finds under [k] at [now]; INCR answers
    nothing when the value is no integer or would overflow. *)
Class RedisKeys (R : Type) := {
  view : R → Time → string → option (Z * option Time);
  INCR : Time → string → R → option Z * R;
  PEXPIRE : Time → string → Z → R → R;
  PTTL : Time → string → R → Z;
  SET : Time → bool → string → Duration → R → bool * R;
  DEL : Time → list string → R → R;
}.

Class RedisKeysLaws (R : Type) `{RedisKeys R} : Prop := {
  view_later r now t k : now ≤ t → view r t k = unexpired t (view r now k);
  incr_some now k r n r' :
    INCR now k r = (Some n, r') →
    n = default 0 (fst <$> view r now k) + 1
    ∧ ∀ k', view r' now k' = if decide (k' = k) then Some (n, view r now k ≫= snd) else view r now k';
  incr_none now k r r' :
    INCR now k r = (None, r') →
    max_i64 ≤ default 0 (fst <$> view r now k) ∧ ∀ k', view r' now k' = view r now k';
  pexpire_view now k ms r k' :
    view (PEXPIRE now k ms r) now k' =
    if decide (k' = k) then
      if ms <=? 0 then None else (λ p, (p.1, Some (now + ms * Millisecond))) <$> view r now k
    else view r now k';
  pttl_view now k r :
    PTTL now k r =
    match view r now k with
    | None => -2
    | Some (_, None) => -1
    | Some (_, Some d) => (d - now) / Millisecond
    end;
  set_view now nx k ttl r ok r' :
    SET now nx k ttl r = (ok, r') →
    ok = negb nx || bool_decide (view r now k = None)
    ∧ ∀ k', view r' now k' = if ok && bool_decide (k' = k) then Some (1, Some (now + px ttl)) else view r now k';
  del_view now ks r k' : view (DEL now ks r) now k' = if decide (k' ∈ ks) then None else view r now k';
}.

(** ** A finite map *)

Abbreviation Keys := (gmap string (Z * option Time)) (only parsing).

#[export] Instance map_keys : RedisKeys Keys := {
  view r now k := unexpired now (r !! k);
  INCR now k r :=
    let n := default 0 (fst <$> unexpired now (r !! k)) + 1 in
    if n <=? max_i64 then (Some n, <[k := (n, unexpired now (r !! k) ≫= snd)]> r) else (None, r);
  PEXPIRE now k ms r :=
    match unexpired now (r !! k) with
    | None => r
    | Some (v, _) => if ms <=? 0 then delete k r else <[k := (v, Some (now + ms * Millisecond))]> r
    end;
  PTTL now k r :=
    match unexpired now (r !! k) with
    | None => -2
    | Some (_, None) => -1
    | Some (_, Some d) => (d - now) / Millisecond
    end;
  SET now nx k ttl r :=
    if negb nx || bool_decide (unexpired now (r !! k) = None)
    then (true, <[k := (1, Some (now + px ttl))]> r) else (false, r);
  DEL now ks r := foldr delete r ks;
}.

Lemma px_bounds ttl : Millisecond ≤ px ttl ∧ (Millisecond ≤ ttl → ttl - Millisecond < px ttl ≤ ttl).
Proof. unfold px, Millisecond, Microsecond, Nanosecond. split; [lia|]. intros. go_mod. Qed.

Lemma unexpired_deadline {V} now (v : V) d : now ≤ d → unexpired now (Some (v, Some d)) = Some (v, Some d).
Proof. intros Hd. simpl. by rewrite (proj2 (Z.leb_le now d)). Qed.

Lemma px_later now d : now ≤ now + px d.
Proof. pose proof (px_bounds d). unfold Millisecond, Microsecond, Nanosecond in *. lia. Qed.

Lemma unexpired_twice {V} now t (o : option (V * option Time)) :
  now ≤ t → unexpired t (unexpired now o) = unexpired t o.
Proof.
  intros Ht. destruct o as [[v [d|]]|]; simpl; [|done..].
  destruct (Z.leb_spec now d); simpl; [done|]. destruct (Z.leb_spec t d); [lia|done].
Qed.

Lemma unexpired_own {V} now (o : option (V * option Time)) (v : V) :
  unexpired now (Some (v, unexpired now o ≫= snd)) = Some (v, unexpired now o ≫= snd).
Proof.
  destruct o as [[w [d|]]|]; simpl; [|done..]. destruct (Z.leb_spec now d); simpl; [|done].
  destruct (Z.leb_spec now d); [done|lia].
Qed.

Lemma delete_all_lookup (ks : list string) (r : Keys) k :
  foldr delete r ks !! k = if decide (k ∈ ks) then None else r !! k.
Proof.
  induction ks as [|x ks IH]; cbn [foldr].
  { case_decide as H; [by apply not_elem_of_nil in H|done]. }
  destruct (decide (k = x)) as [->|Hk].
  - rewrite lookup_delete_eq. clear IH. case_decide; set_solver.
  - rewrite lookup_delete_ne, IH by done. clear IH. repeat case_decide; set_solver.
Qed.

#[export] Instance map_keys_laws : RedisKeysLaws Keys.
Proof.
  split; unfold view, INCR, PEXPIRE, PTTL, SET, DEL, map_keys.
  - intros r now t k Ht. by rewrite unexpired_twice.
  - intros now k r n r'. case_match; [|done]. intros [= <- <-]. split; [done|].
    intros k'. case_decide; subst; [rewrite lookup_insert_eq; apply unexpired_own|by rewrite lookup_insert_ne].
  - intros now k r r'. case_match eqn:E; [done|]. go_bool. intros [= <-]. split; [lia|done].
  - intros now k ms r k'. destruct (unexpired now (r !! k)) as [[v d]|] eqn:E; simpl.
    + destruct (Z.leb_spec ms 0); case_decide; subst.
      * by rewrite lookup_delete_eq.
      * by rewrite lookup_delete_ne.
      * rewrite lookup_insert_eq, unexpired_deadline; [done|]. unfold Millisecond, Microsecond, Nanosecond. lia.
      * by rewrite lookup_insert_ne.
    + case_decide; subst; [|done]. rewrite E. by case_match.
  - done.
  - intros now nx k ttl r ok r'. set (b := negb nx || _). destruct b; intros [= <- <-]; (split; [done|]); intros k'.
    + simpl. case_bool_decide; subst; [|by rewrite lookup_insert_ne].
      rewrite lookup_insert_eq. by apply unexpired_deadline, px_later.
    + done.
  - intros now ks r k'. rewrite delete_all_lookup. by case_decide.
Qed.
