(* ===== verification/Float64.v ===== *)
(** The rounding of IEEE doubles: what the operations of [Prelude] on [float64] do,
    as rational numbers.  Each of them yields the exact result up to half a unit in
    the last place, which for a value [v] is at most [ulp_err v]. *)

From Stdlib Require Import SpecFloat QArith Qpower Qabs Lqa.
From S2P Require Import Prelude.
Open Scope Z_scope.

(** ** Powers of two *)

Definition p2 (e : Z) : Q := Qpower 2 e.

Lemma p2_pos e : (0 < p2 e)%Q.
Proof. apply Qpower_0_lt. reflexivity. Qed.

Lemma p2_add a b : (p2 (a + b) == p2 a * p2 b)%Q.
Proof. apply Qpower_plus. discriminate. Qed.

Lemma p2_Z n : 0 ≤ n → (p2 n == inject_Z (2 ^ n))%Q.
Proof. intros Hn. symmetry. by apply Zpower_Qpower. Qed.

Lemma p2_le a b : a ≤ b → (p2 a <= p2 b)%Q.
Proof. intros. apply Qpower_le_compat_l; [done|]. discriminate. Qed.

Lemma p2_succ a : (p2 (a + 1) == 2 * p2 a)%Q.
Proof. rewrite p2_add, Qmult_comm. apply Qmult_comp; [reflexivity|]. reflexivity. Qed.

(** ** Digits *)

Lemma digits_bounds p : 2 ^ (Z.pos (digits2_pos p) - 1) ≤ Z.pos p < 2 ^ Z.pos (digits2_pos p).
Proof.
  induction p as [p IH|p IH|]; simpl digits2_pos; rewrite ?Pos2Z.inj_succ; [..|by vm_compute];
    rewrite ?Z.sub_1_r, ?Z.pred_succ, (Z.pow_succ_r 2 (Z.pos (digits2_pos p))) by lia;
    rewrite <-(Z.succ_pred (Z.pos (digits2_pos p))) in IH at 1; rewrite Z.sub_1_r, Z.pred_succ in IH;
    rewrite <-(Z.succ_pred (Z.pos (digits2_pos p))) at 1; rewrite Z.pow_succ_r by lia; lia.
Qed.

Lemma digits_unique p d : 2 ^ (d - 1) ≤ Z.pos p < 2 ^ d → Z.pos (digits2_pos p) = d.
Proof.
  intros H. pose proof (digits_bounds p) as Hb. set (n := Z.pos (digits2_pos p)) in *.
  destruct (Z.lt_trichotomy n d) as [Hlt|[->|Hgt]]; [|done|].
  - pose proof (Z.pow_le_mono_r 2 n (d - 1)). lia.
  - pose proof (Z.pow_le_mono_r 2 d (n - 1)). lia.
Qed.

Lemma digits_le p d : 0 ≤ d → Z.pos p < 2 ^ d → Z.pos (digits2_pos p) ≤ d.
Proof.
  intros Hd H. pose proof (digits_bounds p) as Hb. destruct (Z.le_gt_cases (Z.pos (digits2_pos p)) d); [done|].
  pose proof (Z.pow_le_mono_r 2 d (Z.pos (digits2_pos p) - 1)). lia.
Qed.

(** ** Shifting to the right *)

(** [x] lies at or above the integer [m] as the location says. *)
Definition within (l : location) (m : Z) (x : Q) : Prop :=
  match l with
  | loc_Exact => x == inject_Z m
  | loc_Inexact c => (inject_Z m < x < inject_Z m + 1)%Q ∧ (x ?= inject_Z m + (1 # 2))%Q = c
  end.

Lemma Qcompare_half x y c : (x ?= y)%Q = c ↔ match c with Eq => x == y | Lt => x < y | Gt => y < x end%Q.
Proof. destruct c; symmetry; [apply Qeq_alt|apply Qlt_alt|apply Qgt_alt]. Qed.

Lemma shr_1_eq m r s : 0 ≤ m → shr_1 (Build_shr_record m r s) = Build_shr_record (m / 2) (Z.odd m) (r || s).
Proof.
  intros Hm. rewrite <-Z.div2_div. unfold shr_1. by destruct m as [|[p|p|]|]; [..|lia].
Qed.

Lemma inject_half m : (inject_Z m == 2 * inject_Z (m / 2) + (if Z.odd m then 1 else 0))%Q.
Proof.
  rewrite (Z.div_mod m 2) at 1 by lia. rewrite inject_Z_plus, inject_Z_mult, Zmod_odd.
  destruct (Z.odd m); reflexivity.
Qed.

Lemma shr_1_within mrs x :
  0 ≤ shr_m mrs → within (loc_of_shr_record mrs) (shr_m mrs) x →
  within (loc_of_shr_record (shr_1 mrs)) (shr_m (shr_1 mrs)) (x * (1 # 2)) ∧ shr_m (shr_1 mrs) = shr_m mrs / 2.
Proof.
  destruct mrs as [m r s]. cbn [shr_m]. intros Hm. rewrite shr_1_eq by done. cbn [shr_m].
  pose proof (inject_half m) as Hh. unfold within, loc_of_shr_record.
  set (a := inject_Z m) in *. set (b := inject_Z (m / 2)) in *. clearbody a b. clear Hm.
  destruct r, s, (Z.odd m); cbn [orb]; rewrite ?Qcompare_half; intros H; (split; [|reflexivity]);
    repeat match goal with H : _ ∧ _ |- _ => destruct H end; repeat split; lra.
Qed.

Lemma iter_pos_nat {A} (f : A → A) p x : SpecFloat.iter_pos f p x = Nat.iter (Pos.to_nat p) f x.
Proof.
  revert x. induction p as [p IH|p IH|]; intros x; cbn [SpecFloat.iter_pos]; [..|done].
  - rewrite !IH, Pos2Nat.inj_xI, <-Nat.iter_add, <-Nat.iter_succ_r. f_equal. lia.
  - rewrite !IH, Pos2Nat.inj_xO, <-Nat.iter_add. f_equal. lia.
Qed.

Lemma shr_within n l m x :
  0 ≤ m → within l m x →
  let mrs := Nat.iter n shr_1 (shr_record_of_loc m l) in
  within (loc_of_shr_record mrs) (shr_m mrs) (x * p2 (- Z.of_nat n)) ∧ shr_m mrs = m / 2 ^ Z.of_nat n.
Proof.
  intros Hm Hw. induction n as [|n [IH1 IH2]].
  - change (p2 (- Z.of_nat 0)) with (1%Q). cbn [Nat.iter]. rewrite Z.div_1_r.
    destruct l as [|[]]; simpl in *; (split; [|done]); rewrite ?Qcompare_half in *; by rewrite Qmult_1_r.
  - cbv zeta in *. rewrite Nat.iter_succ. set (mrs := Nat.iter n _ _) in *.
    assert (Hn : 0 ≤ shr_m mrs) by (rewrite IH2; apply Z.div_pos; lia).
    destruct (shr_1_within mrs _ Hn IH1) as [H1 H2]. split.
    + assert (Hx : (x * p2 (- Z.of_nat n) * (1 # 2) == x * p2 (- Z.of_nat (S n)))%Q).
      { rewrite <-Qmult_assoc. apply Qmult_comp; [reflexivity|].
        replace (- Z.of_nat n) with (- Z.of_nat (S n) + 1) by lia. rewrite p2_succ. ring. }
      set (y := (x * p2 (- Z.of_nat n) * (1 # 2))%Q) in *. set (z := (x * p2 (- Z.of_nat (S n)))%Q) in *. clearbody y z.
      revert H1. unfold within. destruct (loc_of_shr_record (shr_1 mrs)) as [|[]]; rewrite ?Qcompare_half; intros H1;
        repeat match goal with H : _ ∧ _ |- _ => destruct H end; repeat split; lra.
    + rewrite H2, IH2, Z.div_div by lia. f_equal. rewrite Nat2Z.inj_succ, Z.pow_succ_r by lia. lia.
Qed.

(** ** Rounding *)

Abbreviation fexp64 := (fexp f64_prec f64_emax).

Lemma fexp64_eq e : fexp64 e = Z.max (e - 53) (-1074).
Proof. unfold fexp, emin, f64_prec, f64_emax. lia. Qed.

(** The error of rounding a value. *)
Definition ulp_err (v : Q) : Q := v * p2 (-53) + p2 (-1075).

Lemma shr_fexp_within m e l x :
  0 ≤ m → within l m x → e ≤ fexp64 (Zdigits2 m + e) →
  let k := fexp64 (Zdigits2 m + e) in
  let '(mrs, e') := shr_fexp f64_prec f64_emax m e l in
  e' = k ∧ within (loc_of_shr_record mrs) (shr_m mrs) (x * p2 (e - k)) ∧ shr_m mrs = m / 2 ^ (k - e).
Proof.
  intros Hm Hw He. cbv zeta. unfold shr_fexp. set (k := fexp64 (Zdigits2 m + e)) in *. clearbody k. unfold shr.
  destruct (k - e) as [|p|p] eqn:E; [..|lia].
  - split; [lia|]. destruct (shr_within 0 l m x Hm Hw) as [H1 H2]. simpl in H1, H2. replace (e - k) with 0 by lia. done.
  - rewrite iter_pos_nat. split; [lia|]. destruct (shr_within (Pos.to_nat p) l m x Hm Hw) as [H1 H2].
    rewrite positive_nat_Z in H1, H2. replace (e - k) with (- Z.pos p) by lia. done.
Qed.

Lemma round_nearest_even_within m l x :
  within l m x →
  let z := round_nearest_even m l in m ≤ z ≤ m + 1 ∧ (x - (1 # 2) <= inject_Z z)%Q ∧ (inject_Z z <= x + (1 # 2))%Q.
Proof.
  unfold within, round_nearest_even. destruct l as [|[]]; rewrite ?Qcompare_half; intros H; cbv zeta.
  all: try (destruct (Z.even m)). all: rewrite ?inject_Z_plus; change (inject_Z 1) with 1%Q.
  all: repeat match goal with H : _ ∧ _ |- _ => destruct H end; repeat split; lia || lra.
Qed.

(** A finite double in its canonical form, and its value. *)
Definition canonical (m : positive) (e : Z) : Prop := fexp64 (Z.pos (digits2_pos m) + e) = e.
Definition wf (x : float64) : Prop :=
  match x with
  | S754_zero _ => True
  | S754_finite _ m e => canonical m e ∧ e ≤ 971
  | _ => False
  end.
Definition mag (x : float64) : Q := match x with S754_finite _ m e => inject_Z (Z.pos m) * p2 e | _ => 0 end.
Definition neg (x : float64) : bool := match x with S754_finite s _ _ | S754_zero s | S754_infinity s => s | S754_nan => false end.
Definition val (x : float64) : Q := if neg x then - mag x else mag x.

Lemma digits2_zero z : 0 ≤ z → Zdigits2 z = 0 → z = 0.
Proof. destruct z; simpl; lia. Qed.

(** The mantissa after the first shift. *)
Lemma shifted_bounds m e :
  0 ≤ m → e ≤ fexp64 (Zdigits2 m + e) → let k := fexp64 (Zdigits2 m + e) in
  0 ≤ m / 2 ^ (k - e) < 2 ^ 53 ∧ (k = -1074 ∨ 2 ^ 52 ≤ m / 2 ^ (k - e) ∧ 0 < m ∧ k = Zdigits2 m + e - 53).
Proof.
  cbv zeta. rewrite fexp64_eq. intros Hm He. set (k := Z.max _ _) in *.
  assert (Hp : 0 < 2 ^ (k - e)) by (apply Z.pow_pos_nonneg; lia).
  destruct m as [|p|p]; [|..|lia].
  - rewrite Z.div_0_l by lia. simpl in k. split; [lia|]. left. lia.
  - pose proof (digits_bounds p) as [Hlo Hhi]. cbn [Zdigits2] in *. set (d := Z.pos (digits2_pos p)) in *.
    assert (Hd : 1 ≤ d) by (unfold d; lia). split; [split; [by apply Z.div_pos|]|].
    + apply Z.div_lt_upper_bound; [done|]. rewrite <-Z.pow_add_r by lia.
      pose proof (Z.pow_le_mono_r 2 d (k - e + 53)). lia.
    + destruct (decide (k = -1074)) as [|Hk]; [by left|right]. assert (k = d + e - 53) by lia. split; [|lia].
      apply Z.div_le_lower_bound; [done|]. rewrite <-Z.pow_add_r by lia. by replace (k - e + 52) with (d - 1) by lia.
Qed.

(** The shift after rounding only undoes a carry. *)
Lemma renormalized z k :
  0 < z ≤ 2 ^ 53 → -1074 ≤ k → k = -1074 ∨ 2 ^ 52 ≤ z →
  let '(mrs, e) := shr_fexp f64_prec f64_emax z k loc_Exact in
  ∃ m, shr_m mrs = Z.pos m ∧ canonical m e ∧ (inject_Z (Z.pos m) * p2 e == inject_Z z * p2 k)%Q ∧ k ≤ e.
Proof.
  intros Hz Hk Hn. destruct z as [|p|p]; [lia| |lia]. unfold shr_fexp. cbn [Zdigits2]. rewrite fexp64_eq.
  destruct (decide (Z.pos p = 2 ^ 53)) as [E|E].
  - assert (Hd : Z.pos (digits2_pos p) = 54) by (apply digits_unique; lia). rewrite Hd.
    replace (Z.max (54 + k - 53) (-1074) - k) with 1 by lia. cbn [shr SpecFloat.iter_pos shr_record_of_loc].
    rewrite shr_1_eq, E by lia. cbn [shr_m]. exists (Pos.pow 2 52). split; [reflexivity|].
    split; [unfold canonical; rewrite fexp64_eq; change (Z.pos (digits2_pos (2 ^ 52))) with 53; lia|].
    split; [|lia]. rewrite p2_succ. change (inject_Z (2 ^ 53)) with (2 * inject_Z (Z.pos (2 ^ 52)))%Q. ring.
  - assert (Hd : Z.pos (digits2_pos p) ≤ 53) by (apply digits_le; lia).
    assert (Hk' : k = Z.max (Z.pos (digits2_pos p) + k - 53) (-1074)).
    { destruct Hn as [->|Hn]; [lia|]. assert (Z.pos (digits2_pos p) = 53) by (apply digits_unique; lia). lia. }
    rewrite <-Hk'. rewrite Z.sub_diag. exists p. split; [done|]. split; [|split; [reflexivity|lia]].
    unfold canonical. by rewrite fexp64_eq.
Qed.

Lemma mag_big m e : canonical m e → 972 ≤ e → (p2 1024 <= inject_Z (Z.pos m) * p2 e)%Q.
Proof.
  unfold canonical. rewrite fexp64_eq. intros Hc He. pose proof (digits_bounds m) as [Hlo _].
  replace (Z.pos (digits2_pos m) - 1) with 52 in Hlo by lia.
  apply Qle_trans with (inject_Z (2 ^ 52) * p2 e)%Q.
  - rewrite <-p2_Z, <-p2_add by lia. apply p2_le. lia.
  - apply Qmult_le_compat_r; [by rewrite <-Zle_Qle|]. apply Qlt_le_weak, p2_pos.
Qed.

Lemma within_le l m x : within l m x → (inject_Z m <= x)%Q.
Proof. unfold within. destruct l; [intros ->; apply Qle_refl|]. intros [[H _] _]. by apply Qlt_le_weak. Qed.

(** Half a unit of the exponent a value is rounded to. *)
Lemma half_unit m e x :
  0 ≤ m → (inject_Z m <= x)%Q → e ≤ fexp64 (Zdigits2 m + e) →
  (p2 (fexp64 (Zdigits2 m + e)) * (1 # 2) <= ulp_err (x * p2 e))%Q.
Proof.
  intros Hm Hmx He. destruct (shifted_bounds m e Hm He) as [_ Hk]. cbv zeta in Hk. set (k := fexp64 _) in *. clearbody k.
  assert (Hh : (p2 k * (1 # 2) == p2 (k - 1))%Q).
  { replace k with (k - 1 + 1) at 1 by lia. rewrite p2_succ. field. }
  rewrite Hh. unfold ulp_err. pose proof (p2_pos (-53)) as H53. pose proof (p2_pos (-1075)). pose proof (p2_pos e) as Hpe.
  assert (H0 : (0 <= inject_Z m)%Q) by (by rewrite (Zle_Qle 0 m) in Hm).
  destruct Hk as [-> | (_ & Hm0 & ->)].
  - change (-1074 - 1) with (-1075). assert (Hnn : (0 <= x * p2 e)%Q) by (apply Qmult_le_0_compat; lra). nra.
  - destruct m as [|p|p]; [lia| |lia]. cbn [Zdigits2]. destruct (digits_bounds p) as [Hd _].
    set (d := Z.pos (digits2_pos p)) in *. assert (1 ≤ d) by (unfold d; lia). clearbody d.
    assert (Hp : (p2 (d + e - 53 - 1) == inject_Z (2 ^ (d - 1)) * p2 e * p2 (-53))%Q).
    { rewrite <-p2_Z, <-!p2_add by lia. replace (d - 1 + e + -53) with (d + e - 53 - 1) by lia. reflexivity. }
    rewrite Hp. rewrite (Zle_Qle _ (Z.pos p)) in Hd.
    assert (Hxe : (inject_Z (2 ^ (d - 1)) * p2 e <= x * p2 e)%Q) by (apply Qmult_le_compat_r; lra).
    assert (H4 : (inject_Z (2 ^ (d - 1)) * p2 e * p2 (-53) <= x * p2 e * p2 (-53))%Q) by (apply Qmult_le_compat_r; lra). lra.
Qed.

Lemma ulp_err_small v : (v <= p2 1000)%Q → (v + ulp_err v < p2 1024)%Q.
Proof.
  intros Hv. unfold ulp_err. assert (H1 : (p2 (-53) <= 1)%Q) by (apply (p2_le (-53) 0); lia). pose proof (p2_pos (-53)).
  assert (H2 : (p2 (-1075) <= p2 1000)%Q) by (apply p2_le; lia).
  assert (H3 : (p2 1024 == inject_Z (2 ^ 24) * p2 1000)%Q) by (change 1024 with (24 + 1000); by rewrite p2_add, (p2_Z 24)).
  pose proof (p2_pos 1000). change (inject_Z (2 ^ 24)) with (16777216 # 1)%Q in H3. nra.
Qed.

(** Rounding a value [x * 2^e] that is not negative. *)
Lemma binary_round_aux_spec s m e l x :
  0 ≤ m → within l m x → e ≤ fexp64 (Zdigits2 m + e) → (x * p2 e <= p2 1000)%Q →
  let y := binary_round_aux f64_prec f64_emax s m e l in
  wf y ∧ neg y = s ∧ (x * p2 e - ulp_err (x * p2 e) <= mag y)%Q ∧ (mag y <= x * p2 e + ulp_err (x * p2 e))%Q.
Proof.
  intros Hm Hw He Hx. unfold binary_round_aux. pose proof (half_unit m e x Hm (within_le _ _ _ Hw) He) as Herr.
  pose proof (shr_fexp_within m e l x Hm Hw He) as H1. destruct (shifted_bounds m e Hm He) as [Hb Hk]. cbv zeta in *.
  assert (Hk0 : -1074 ≤ fexp64 (Zdigits2 m + e)) by (rewrite fexp64_eq; lia).
  set (k := fexp64 (Zdigits2 m + e)) in *. clearbody k. destruct (shr_fexp _ _ m e l) as [mrs e1]. destruct H1 as (-> & Hw1 & Hm1).
  destruct (round_nearest_even_within _ _ _ Hw1) as (Hz & Hlo & Hhi). rewrite Hm1 in *.
  set (z := round_nearest_even _ (loc_of_shr_record mrs)) in *. clearbody z.
  assert (Hv : (x * p2 e == x * p2 (e - k) * p2 k)%Q).
  { rewrite <-Qmult_assoc, <-p2_add. apply Qmult_comp; [reflexivity|]. by replace (e - k + k) with e by lia. }
  pose proof (p2_pos k) as Hpk. assert (HL : ((x * p2 (e - k) - (1 # 2)) * p2 k <= inject_Z z * p2 k)%Q) by (apply Qmult_le_compat_r; lra).
  assert (HU : (inject_Z z * p2 k <= (x * p2 (e - k) + (1 # 2)) * p2 k)%Q) by (apply Qmult_le_compat_r; lra).
  assert (E1 : ((x * p2 (e - k) - (1 # 2)) * p2 k == x * p2 e - p2 k * (1 # 2))%Q) by (rewrite Hv; ring).
  assert (E2 : ((x * p2 (e - k) + (1 # 2)) * p2 k == x * p2 e + p2 k * (1 # 2))%Q) by (rewrite Hv; ring).
  rewrite E1 in HL. rewrite E2 in HU. clear E1 E2 Hv Hlo Hhi Hw1.
  destruct (decide (z = 0)) as [->|Hz0].
  - unfold shr_fexp, shr. change (shr_record_of_loc 0 loc_Exact) with (Build_shr_record 0 false false).
    assert (Hzero : ∀ n, Nat.iter n shr_1 (Build_shr_record 0 false false) = Build_shr_record 0 false false)
      by (intros n; induction n as [|n IH]; [done|by rewrite Nat.iter_succ, IH]).
    rewrite Qmult_0_l in HL, HU. destruct (fexp64 _ - k) as [|p|p]; rewrite ?iter_pos_nat, ?Hzero; simpl; split_and!; done || lra.
  - pose proof (renormalized z k ltac:(lia) Hk0 ltac:(destruct Hk as [|[? _]]; [by left|right; lia])) as Hr.
    destruct (shr_fexp _ _ z k loc_Exact) as [mrs2 e2]. destruct Hr as (m2 & -> & Hc & Heq & _).
    assert (He2 : e2 ≤ 971).
    { destruct (Z.le_gt_cases e2 971) as [|Hbig]; [done|]. pose proof (mag_big m2 e2 Hc ltac:(lia)) as Hm2.
      pose proof (ulp_err_small _ Hx). rewrite Heq in Hm2. lra. }
    change (Z.sub f64_emax f64_prec) with 971. rewrite (proj2 (Z.leb_le _ _)) by done. simpl. rewrite Heq. split_and!; done || lra.
Qed.

(** ** The operations *)

(** [y] is the double nearest to [v], but for the error of rounding. *)
Record rounds (v : Q) (y : float64) : Prop := {
  rd_wf : wf y;
  rd_low : (v - ulp_err (Qabs v) <= val y)%Q;
  rd_high : (val y <= v + ulp_err (Qabs v))%Q;
  rd_pos : (0 <= v)%Q → (0 <= val y)%Q;
}.

Lemma mag_nonneg x : (0 <= mag x)%Q.
Proof.
  destruct x as [| | |s m e]; simpl; try apply Qle_refl. apply Qmult_le_0_compat; [|apply Qlt_le_weak, p2_pos].
  by rewrite <-(Zle_Qle 0).
Qed.

Lemma rounds_ext v w y : (v == w)%Q → rounds v y → rounds w y.
Proof.
  intros E [H1 H2 H3 H4]. assert (Ea : (ulp_err (Qabs v) == ulp_err (Qabs w))%Q) by (unfold ulp_err; by rewrite E).
  split; [done|lra|lra|]. intros H0. apply H4. lra.
Qed.

Lemma rounds_signed (s : bool) v y :
  (0 <= v)%Q → wf y → neg y = s → (v - ulp_err v <= mag y)%Q → (mag y <= v + ulp_err v)%Q →
  (s = true → (0 < v)%Q) → rounds (if s then - v else v) y.
Proof.
  intros Hv Hy Hs Hlo Hhi Hneg. pose proof (mag_nonneg y) as Hm. assert (Ha : (Qabs (if s then - v else v) == v)%Q).
  { destruct s; [rewrite Qabs_opp|]; by apply Qabs_pos. }
  split; [done|unfold ulp_err in *; rewrite Ha..|]; unfold val; rewrite Hs; destruct s; try lra.
Qed.

Lemma shl_align_spec m e e' :
  let '(m', e'') := shl_align m e e' in e'' = Z.min e e' ∧ Z.pos m' = Z.pos m * 2 ^ (e - e'').
Proof.
  unfold shl_align. destruct (e' - e) as [|p|p] eqn:E.
  - rewrite Z.sub_diag. split; lia.
  - rewrite Z.sub_diag. split; lia.
  - split; [lia|]. replace (e - e') with (Z.pos p) by lia.
    rewrite Pos2Nat.inj_iter. clear. rewrite <-(positive_nat_Z p). induction (Pos.to_nat p) as [|n IH]; simpl Nat.iter.
    + simpl. lia.
    + simpl nat_rect. rewrite Nat2Z.inj_succ, Z.pow_succ_r, Pos2Z.inj_xO, IH by lia. lia.
Qed.

Lemma digits_shift m n : 0 ≤ n → ∀ m', Z.pos m' = Z.pos m * 2 ^ n → Z.pos (digits2_pos m') = Z.pos (digits2_pos m) + n.
Proof.
  intros Hn m' E. apply digits_unique. rewrite E. pose proof (digits_bounds m) as [H1 H2].
  replace (Z.pos (digits2_pos m) + n - 1) with (Z.pos (digits2_pos m) - 1 + n) by lia. rewrite !Z.pow_add_r by lia.
  pose proof (Z.pow_pos_nonneg 2 n ltac:(lia) Hn). nia.
Qed.

Lemma scaled m m' e e' : e' ≤ e → m' = m * 2 ^ (e - e') → (inject_Z m' * p2 e' == inject_Z m * p2 e)%Q.
Proof.
  intros He ->. rewrite inject_Z_mult, <-p2_Z, <-Qmult_assoc, <-p2_add by lia. by replace (e - e' + e') with e by lia.
Qed.

Lemma binary_round_spec (s : bool) m e :
  (inject_Z (Z.pos m) * p2 e <= p2 1000)%Q →
  rounds (if s then - (inject_Z (Z.pos m) * p2 e) else inject_Z (Z.pos m) * p2 e)%Q (binary_round f64_prec f64_emax s m e).
Proof.
  intros Hv. unfold binary_round. pose proof (shl_align_spec m e (fexp64 (Z.pos (digits2_pos m) + e))) as Hs.
  destruct (shl_align m e _) as [m' e']. destruct Hs as [He Hm].
  pose proof (scaled (Z.pos m) (Z.pos m') e e' ltac:(lia) Hm) as Heq.
  assert (Hc : e' ≤ fexp64 (Zdigits2 (Z.pos m') + e')).
  { cbn [Zdigits2]. rewrite (digits_shift m (e - e') ltac:(lia) m' Hm). replace (Z.pos (digits2_pos m) + (e - e') + e') with (Z.pos (digits2_pos m) + e) by lia. lia. }
  destruct (binary_round_aux_spec s (Z.pos m') e' loc_Exact (inject_Z (Z.pos m')) ltac:(lia) (Qeq_refl _) Hc ltac:(by rewrite Heq)) as (H1 & H2 & H3 & H4).
  unfold ulp_err in H3, H4. rewrite Heq in H3, H4. apply rounds_signed; try done.
  - rewrite <-Heq. apply Qmult_le_0_compat; [by rewrite <-(Zle_Qle 0)|apply Qlt_le_weak, p2_pos].
  - intros _. apply Qmult_lt_0_compat; [by rewrite <-(Zlt_Qlt 0)|apply p2_pos].
Qed.

Lemma binary_normalize_spec m e :
  (Qabs (inject_Z m * p2 e) <= p2 1000)%Q → rounds (inject_Z m * p2 e) (binary_normalize f64_prec f64_emax m e false).
Proof.
  intros Hv. destruct m as [|m|m]; cbn [binary_normalize].
  - apply (rounds_ext 0); [symmetry; apply Qmult_0_l|].
    split; unfold val, ulp_err; simpl; try done; change (Qabs 0) with 0%Q; pose proof (p2_pos (-1075)); lra.
  - apply (binary_round_spec false). by eapply Qle_trans; [apply Qle_Qabs|].
  - assert (E : (inject_Z (Z.neg m) * p2 e == - (inject_Z (Z.pos m) * p2 e))%Q).
    { change (Z.neg m) with (- Z.pos m). rewrite inject_Z_opp. ring. }
    apply (rounds_ext (- (inject_Z (Z.pos m) * p2 e))); [by symmetry|]. apply (binary_round_spec true).
    rewrite E, Qabs_opp in Hv. by eapply Qle_trans; [apply Qle_Qabs|].
Qed.

(** ** The operations *)

Lemma ulp_err_nonneg v : (0 <= v)%Q → (0 <= ulp_err v)%Q.
Proof.
  intros Hv. unfold ulp_err. pose proof (p2_pos (-53)). pose proof (p2_pos (-1075)).
  pose proof (Qmult_le_0_compat v (p2 (-53)) Hv ltac:(lra)). lra.
Qed.

Lemma rounds_exact v y : wf y → (v == val y)%Q → rounds v y.
Proof.
  intros Hy E. pose proof (ulp_err_nonneg (Qabs v) (Qabs_nonneg v)) as H0. split; [done|lra|lra|]. lra.
Qed.

Lemma val_aligned s m e e' :
  e' ≤ e → (inject_Z (cond_Zopp s (Z.pos (shl_align m e e').1)) * p2 e' == val (S754_finite s m e))%Q.
Proof.
  intros He. pose proof (shl_align_spec m e e') as H. destruct (shl_align m e e') as [m' e2]. destruct H as [E Hm].
  rewrite Z.min_r in E by done. subst e2. cbn [fst]. pose proof (scaled (Z.pos m) _ e e' He Hm) as Hs.
  unfold val. cbn [neg mag]. destruct s; cbn [cond_Zopp]; [|exact Hs]. rewrite inject_Z_opp, <-Hs. ring.
Qed.

Lemma inject_sum a b e : (inject_Z (a + b) * p2 e == inject_Z a * p2 e + inject_Z b * p2 e)%Q.
Proof. rewrite inject_Z_plus. ring. Qed.

Theorem f64_add_rounds x y :
  wf x → wf y → (Qabs (val x + val y) <= p2 1000)%Q → rounds (val x + val y) (f64_add x y).
Proof.
  intros Hx Hy Hb. destruct x as [s|s| |s m e], y as [t|t| |t m' e']; try done.
  - apply rounds_exact; destruct s, t; done || reflexivity.
  - apply rounds_exact; [done|]. unfold val at 1. destruct s; cbn [neg mag]; change (f64_add _ ?z) with z; ring.
  - apply rounds_exact; [done|]. unfold val at 2. destruct t; cbn [neg mag]; change (f64_add ?z _) with z; ring.
  - unfold f64_add. cbn [SFadd]. set (ez := Z.min e e').
    assert (E : (inject_Z (cond_Zopp s (Z.pos (shl_align m e ez).1) + cond_Zopp t (Z.pos (shl_align m' e' ez).1)) * p2 ez
                 == val (S754_finite s m e) + val (S754_finite t m' e'))%Q).
    { rewrite inject_sum, !val_aligned by (unfold ez; lia). reflexivity. }
    apply (rounds_ext _ _ _ E), binary_normalize_spec. by rewrite E.
Qed.

Theorem f64_sub_rounds x y :
  wf x → wf y → (Qabs (val x - val y) <= p2 1000)%Q → rounds (val x - val y) (f64_sub x y).
Proof.
  intros Hx Hy Hb. destruct x as [s|s| |s m e], y as [t|t| |t m' e']; try done.
  - apply rounds_exact; destruct s, t; done || reflexivity.
  - apply rounds_exact; [done|]. unfold val. destruct s, t; simpl; ring.
  - apply rounds_exact; [done|]. unfold val at 2. destruct t; cbn [neg mag]; change (f64_sub ?z _) with z; ring.
  - unfold f64_sub. cbn [SFsub]. set (ez := Z.min e e').
    assert (E : (inject_Z (cond_Zopp s (Z.pos (shl_align m e ez).1) - cond_Zopp t (Z.pos (shl_align m' e' ez).1)) * p2 ez
                 == val (S754_finite s m e) - val (S754_finite t m' e'))%Q).
    { unfold Z.sub. rewrite inject_sum, inject_Z_opp. rewrite <-!val_aligned with (e' := ez) by (unfold ez; lia). ring. }
    apply (rounds_ext _ _ _ E), binary_normalize_spec. by rewrite E.
Qed.

(** Canonical mantissas are full unless the exponent is the least. *)
Lemma canonical_digits m e :
  canonical m e → Z.pos (digits2_pos m) ≤ 53 ∧ -1074 ≤ e ∧ (Z.pos (digits2_pos m) = 53 ∨ e = -1074).
Proof. unfold canonical. rewrite fexp64_eq. lia. Qed.

Lemma digits_mul m n : Z.pos (digits2_pos m) + Z.pos (digits2_pos n) - 1 ≤ Z.pos (digits2_pos (m * n)).
Proof.
  pose proof (digits_bounds m) as [Hm _]. pose proof (digits_bounds n) as [Hn _]. pose proof (digits_bounds (m * n)) as [_ Hmn].
  set (a := Z.pos (digits2_pos m)) in *. set (b := Z.pos (digits2_pos n)) in *. set (d := Z.pos (digits2_pos (m * n))) in *.
  destruct (Z.le_gt_cases (a + b - 1) d) as [|Hd]; [done|].
  pose proof (Z.pow_le_mono_r 2 d (a - 1 + (b - 1)) ltac:(lia) ltac:(lia)) as Hp.
  rewrite Z.pow_add_r in Hp by (unfold a, b; lia). rewrite Pos2Z.inj_mul in Hmn.
  pose proof (Z.pow_pos_nonneg 2 (a - 1) ltac:(lia) ltac:(unfold a; lia)). nia.
Qed.

Lemma val_mag s y : neg y = s → (val y == if s then - mag y else mag y)%Q.
Proof. intros <-. reflexivity. Qed.

(** The error bounds of a rounded magnitude, with its sign. *)
Lemma rounds_aux (s : bool) m e l x :
  0 ≤ m → within l m x → e ≤ fexp64 (Zdigits2 m + e) → (0 < x)%Q → (x * p2 e <= p2 1000)%Q →
  rounds (if s then - (x * p2 e) else x * p2 e)%Q (binary_round_aux f64_prec f64_emax s m e l).
Proof.
  intros Hm Hw He Hx Hb. destruct (binary_round_aux_spec s m e l x Hm Hw He Hb) as (H1 & H2 & H3 & H4).
  assert (Hp : (0 < x * p2 e)%Q) by (apply Qmult_lt_0_compat; [done|apply p2_pos]). apply rounds_signed; try done; lra.
Qed.

Theorem f64_mul_rounds x y :
  wf x → wf y → (Qabs (val x * val y) <= p2 1000)%Q → rounds (val x * val y) (f64_mul x y).
Proof.
  intros Hx Hy Hb. destruct x as [s|s| |s m e], y as [t|t| |t m' e']; try done.
  1-3: apply rounds_exact; [done|]; unfold val; destruct s, t; simpl; ring.
  destruct Hx as [Hx _], Hy as [Hy _]. apply canonical_digits in Hx as (Hd & He & Hc), Hy as (Hd' & He' & Hc').
  unfold f64_mul. cbn [SFmul]. pose proof (digits_mul m m') as Hdm.
  assert (E : ((if xorb s t then - (inject_Z (Z.pos (m * m')) * p2 (e + e')) else inject_Z (Z.pos (m * m')) * p2 (e + e'))
               == val (S754_finite s m e) * val (S754_finite t m' e'))%Q).
  { unfold val. cbn [neg mag]. rewrite Pos2Z.inj_mul. destruct s, t; simpl xorb; rewrite inject_Z_mult, p2_add; ring. }
  apply (rounds_ext _ _ _ E), rounds_aux; [lia|reflexivity| |by rewrite <-(Zlt_Qlt 0)|].
  - cbn [Zdigits2]. rewrite fexp64_eq. lia.
  - rewrite <-E in Hb. destruct (xorb s t); rewrite ?Qabs_opp in Hb; by eapply Qle_trans; [apply Qle_Qabs|].
Qed.

(** ** Quotients *)

Lemma frac_le a b c d : 0 < b → 0 < d → (a * d ≤ c * b) → (inject_Z a / inject_Z b <= inject_Z c / inject_Z d)%Q.
Proof.
  intros Hb Hd H. apply Qle_shift_div_l; [by rewrite <-(Zlt_Qlt 0)|].
  assert (Hd' : (0 < inject_Z d)%Q) by (by rewrite <-(Zlt_Qlt 0)).
  assert (E : (inject_Z a / inject_Z b * inject_Z d == inject_Z (a * d) / inject_Z b)%Q).
  { rewrite inject_Z_mult. field. intros E. apply (Qlt_irrefl 0). rewrite <-E at 2. by rewrite <-(Zlt_Qlt 0). }
  assert (Hb' : (0 < inject_Z b)%Q) by (by rewrite <-(Zlt_Qlt 0)).
  rewrite E. apply Qle_shift_div_r; [done|]. rewrite <-inject_Z_mult. by rewrite <-Zle_Qle.
Qed.

(** Where a fraction lies above its integral part. *)
Lemma new_location_within q r d :
  0 ≤ r < d → within (new_location d r) q (inject_Z q + inject_Z r / inject_Z d).
Proof.
  intros Hr. assert (Hd : (0 < inject_Z d)%Q) by (rewrite <-(Zlt_Qlt 0); lia).
  assert (Hfr : r ≠ 0 → (0 < inject_Z r / inject_Z d < 1)%Q).
  { intros Hn. split; [apply Qlt_shift_div_l|apply Qlt_shift_div_r]; rewrite ?Qmult_0_l, ?Qmult_1_l; try done;
      [rewrite <-(Zlt_Qlt 0)|rewrite <-Zlt_Qlt]; lia. }
  assert (Hcmp : (inject_Z q + inject_Z r / inject_Z d ?= inject_Z q + (1 # 2))%Q = (2 * r ?= d)).
  { apply Qcompare_half. assert (Hm : (inject_Z r / inject_Z d * inject_Z d == inject_Z r)%Q) by (field; lra).
    assert (H2 : (inject_Z (2 * r) == 2 * inject_Z r)%Q) by (rewrite inject_Z_mult; reflexivity).
    set (f := (inject_Z r / inject_Z d)%Q) in *. clearbody f. destruct (Z.compare_spec (2 * r) d) as [E|E|E].
    - assert (f == 1 # 2)%Q; [|lra]. apply (Qmult_inj_r _ _ (inject_Z d)); [lra|]. rewrite Hm. rewrite <-E, H2. ring.
    - rewrite Zlt_Qlt in E. nra.
    - rewrite Zlt_Qlt in E. nra. }
  unfold new_location. destruct (Z.even d) eqn:Ev; unfold new_location_even, new_location_odd; destruct (Z.eqb_spec r 0) as [->|Hn].
  1,3: simpl; unfold Qdiv; rewrite Qmult_0_l, Qplus_0_r; reflexivity.
  - split; [specialize (Hfr Hn); lra|done].
  - assert (Ho : d ≠ 2 * r) by (intros ->; by rewrite Z.even_mul in Ev). assert (Hd2 : d `mod` 2 = 1) by (rewrite Zmod_odd, <-Z.negb_even, Ev; done).
    split; [specialize (Hfr Hn); lra|]. rewrite Hcmp. destruct (Z.compare_spec (2 * r + 1) d), (Z.compare_spec (2 * r) d); done || lia.
Qed.

Lemma quotient_digits a b s :
  let d := Z.pos (digits2_pos a) + s - Z.pos (digits2_pos b) in
  0 ≤ s → 0 ≤ Z.pos a * 2 ^ s / Z.pos b ∧ d ≤ Zdigits2 (Z.pos a * 2 ^ s / Z.pos b).
Proof.
  cbv zeta. intros Hs. pose proof (digits_bounds a) as [Ha _]. pose proof (digits_bounds b) as [_ Hb].
  set (da := Z.pos (digits2_pos a)) in *. set (db := Z.pos (digits2_pos b)) in *.
  set (q := Z.pos a * 2 ^ s / Z.pos b). assert (Hq : 0 ≤ q) by (apply Z.div_pos; lia). split; [done|].
  destruct (Z.le_gt_cases (da + s - db) 0) as [Hle|Hgt].
  { destruct q; simpl; lia. }
  assert (Hlo : 2 ^ (da + s - db - 1) ≤ q).
  { apply Z.div_le_lower_bound; [lia|]. apply Z.le_trans with (2 ^ db * 2 ^ (da + s - db - 1)).
    - apply Z.mul_le_mono_nonneg_r; lia.
    - rewrite <-Z.pow_add_r by lia. replace (db + (da + s - db - 1)) with (da - 1 + s) by lia. rewrite Z.pow_add_r by lia. nia. }
  destruct q as [|p|p]; [pose proof (Z.pow_pos_nonneg 2 (da + s - db - 1)); lia| |lia]. cbn [Zdigits2].
  pose proof (digits_bounds p) as [_ Hp]. destruct (Z.le_gt_cases (da + s - db) (Z.pos (digits2_pos p))) as [|Hlt]; [done|].
  pose proof (Z.pow_le_mono_r 2 (Z.pos (digits2_pos p)) (da + s - db - 1)). lia.
Qed.

Lemma fexp64_mono a b : a ≤ b → fexp64 a ≤ fexp64 b.
Proof. rewrite !fexp64_eq. lia. Qed.

(** The integral quotient, its exponent and where the exact quotient lies. *)
Lemma div_core a e b e' :
  let '(q, ez, l) := SFdiv_core_binary f64_prec f64_emax (Z.pos a) e (Z.pos b) e' in
  ∃ x, 0 ≤ q ∧ within l q x ∧ ez ≤ fexp64 (Zdigits2 q + ez) ∧ (0 < x)%Q
    ∧ (x * p2 ez == inject_Z (Z.pos a) * p2 e / (inject_Z (Z.pos b) * p2 e'))%Q.
Proof.
  unfold SFdiv_core_binary. cbn [Zdigits2]. set (da := Z.pos (digits2_pos a)). set (db := Z.pos (digits2_pos b)).
  set (ez := Z.min _ (e - e')). assert (Hez : ez ≤ e - e' ∧ ez ≤ fexp64 (da + e - (db + e'))) by (unfold ez; lia). clearbody ez.
  set (s := e - e' - ez). assert (Hs : 0 ≤ s) by (unfold s; lia).
  assert (Hm' : match s with Z.pos _ => Z.shiftl (Z.pos a) s | 0 => Z.pos a | Z.neg _ => 0 end = Z.pos a * 2 ^ s).
  { destruct s; [lia|by rewrite Z.shiftl_mul_pow2|lia]. }
  rewrite Hm'. pose proof (Z_div_mod (Z.pos a * 2 ^ s) (Z.pos b) ltac:(lia)) as Hdiv.
  pose proof (quotient_digits a b s Hs) as [Hq Hdq]. unfold Z.div in Hq, Hdq.
  destruct (Z.div_eucl _ _) as [q r] eqn:Ed. destruct Hdiv as [Hdiv Hr]. fold da db in Hdq.
  assert (Hb : (0 < inject_Z (Z.pos b))%Q) by (by rewrite <-(Zlt_Qlt 0)).
  assert (Hx : (inject_Z q + inject_Z r / inject_Z (Z.pos b) == inject_Z (Z.pos a) * p2 s / inject_Z (Z.pos b))%Q).
  { rewrite p2_Z, <-inject_Z_mult, Hdiv, inject_Z_plus, inject_Z_mult by done. field. lra. }
  exists (inject_Z q + inject_Z r / inject_Z (Z.pos b))%Q. split_and!; [done|by apply new_location_within| | |].
  - etransitivity; [apply (proj2 Hez)|]. apply fexp64_mono. unfold s in *. lia.
  - rewrite Hx. apply Qlt_shift_div_l; [done|]. rewrite Qmult_0_l. apply Qmult_lt_0_compat; [by rewrite <-(Zlt_Qlt 0)|apply p2_pos].
  - rewrite Hx. pose proof (p2_pos e') as He'. assert (Hp : (p2 e == p2 s * p2 ez * p2 e')%Q).
    { rewrite <-!p2_add. unfold s. by replace (e - e' - ez + ez + e') with e by lia. }
    rewrite Hp. field. split; lra.
Qed.

Theorem f64_div_rounds x y :
  wf x → wf y → (0 < mag y)%Q → (Qabs (val x / val y) <= p2 1000)%Q → rounds (val x / val y) (f64_div x y).
Proof.
  intros Hx Hy Hpos Hb. destruct y as [t|t| |t m' e']; try done. destruct x as [s|s| |s m e]; try done.
  - apply rounds_exact; [done|]. unfold val, Qdiv. destruct s, t; simpl; ring.
  - unfold f64_div. cbn [SFdiv]. pose proof (div_core m e m' e') as Hc.
    destruct (SFdiv_core_binary _ _ _ _ _ _) as [[q ez] l]. destruct Hc as (x & Hq & Hw & He & Hx0 & Ex).
    assert (E : ((if xorb s t then - (x * p2 ez) else x * p2 ez) == val (S754_finite s m e) / val (S754_finite t m' e'))%Q).
    { unfold val. cbn [neg mag] in *. assert (Hnz : ¬ (inject_Z (Z.pos m') * p2 e' == 0)%Q) by lra.
      set (b := (inject_Z (Z.pos m') * p2 e')%Q) in *. set (a := (inject_Z (Z.pos m) * p2 e)%Q) in *.
      set (v := (x * p2 ez)%Q) in *. clearbody a b v. destruct s, t; cbn [xorb]; rewrite Ex; field; done. }
    apply (rounds_ext _ _ _ E), rounds_aux; try done. rewrite <-E in Hb.
    destruct (xorb s t); rewrite ?Qabs_opp in Hb; by eapply Qle_trans; [apply Qle_Qabs|].
Qed.

(** ** Integers and comparison *)

Lemma round_exact (s : bool) m e :
  fexp64 (Zdigits2 (Z.pos m) + e) = e → e ≤ 971 →
  binary_round_aux f64_prec f64_emax s (Z.pos m) e loc_Exact = S754_finite s m e.
Proof.
  intros Hc He. unfold binary_round_aux, shr_fexp. rewrite Hc, Z.sub_diag. cbn -[Z.leb fexp Zdigits2]. rewrite Hc, Z.sub_diag.
  cbn -[Z.leb]. change (Z.sub f64_emax f64_prec) with 971. by rewrite (proj2 (Z.leb_le _ _)).
Qed.

Lemma of_pos_exact (s : bool) m :
  Z.pos m < 2 ^ 53 →
  let y := binary_round f64_prec f64_emax s m 0 in
  wf y ∧ (val y == inject_Z (cond_Zopp s (Z.pos m)))%Q.
Proof.
  intros Hm. cbv zeta. unfold binary_round. pose proof (digits_le m 53 ltac:(lia) Hm) as Hd.
  pose proof (shl_align_spec m 0 (fexp64 (Z.pos (digits2_pos m) + 0))) as Hs.
  assert (Hk : fexp64 (Z.pos (digits2_pos m) + 0) = Z.pos (digits2_pos m) - 53) by (rewrite fexp64_eq; lia).
  rewrite Hk in *. destruct (shl_align m 0 _) as [m' e']. destruct Hs as [-> Hm'].
  rewrite Z.min_r, Z.sub_0_l in * by lia. set (k := Z.pos (digits2_pos m) - 53) in *.
  assert (Hd' : Z.pos (digits2_pos m') = 53) by (rewrite (digits_shift m (- k) ltac:(lia) m' Hm'); unfold k; lia).
  rewrite round_exact by (cbn [Zdigits2]; rewrite ?Hd', ?fexp64_eq; lia). split.
  - split; [|lia]. unfold canonical. rewrite Hd', fexp64_eq. lia.
  - pose proof (scaled (Z.pos m) (Z.pos m') 0 k ltac:(lia)) as Hsc. rewrite Z.sub_0_l in Hsc. specialize (Hsc Hm').
    assert (H1 : (inject_Z (Z.pos m) * p2 0 == inject_Z (Z.pos m))%Q) by (apply Qmult_1_r).
    unfold val. cbn [neg mag]. destruct s; cbn [cond_Zopp]; rewrite ?inject_Z_opp, Hsc, H1; reflexivity.
Qed.

Theorem f64_of_Z_exact z : Z.abs z < 2 ^ 53 → wf (f64_of_Z z) ∧ (val (f64_of_Z z) == inject_Z z)%Q.
Proof.
  intros Hz. destruct z as [|m|m]; [done|by apply (of_pos_exact false)|by apply (of_pos_exact true)].
Qed.

Lemma p2_lt a b : a < b → (2 * p2 a <= p2 b)%Q.
Proof. intros H. rewrite <-p2_succ. apply p2_le. lia. Qed.

(** Magnitudes order by exponent, then by mantissa. *)
Lemma mag_lt m e m' e' : canonical m e → canonical m' e' → e < e' → (inject_Z (Z.pos m) * p2 e < inject_Z (Z.pos m') * p2 e')%Q.
Proof.
  intros Hc Hc' He. destruct (canonical_digits _ _ Hc) as (Hd & He0 & _). destruct (canonical_digits _ _ Hc') as (Hd' & He0' & Hf).
  pose proof (digits_bounds m) as [_ Hm]. pose proof (digits_bounds m') as [Hm' _]. destruct Hf as [Hf|]; [|lia]. rewrite Hf in Hm'.
  pose proof (Z.pow_le_mono_r 2 (Z.pos (digits2_pos m)) 53 ltac:(lia) Hd) as Hp.
  assert (Ha : (inject_Z (Z.pos m) < inject_Z (2 ^ 53))%Q) by (rewrite <-Zlt_Qlt; lia).
  assert (Hb : (inject_Z (2 ^ 52) <= inject_Z (Z.pos m'))%Q) by (by rewrite <-Zle_Qle).
  pose proof (p2_lt e e' He) as H2. pose proof (p2_pos e) as H0.
  change (inject_Z (2 ^ 53)) with (9007199254740992 # 1)%Q in Ha. change (inject_Z (2 ^ 52)) with (4503599627370496 # 1)%Q in Hb.
  set (a := inject_Z (Z.pos m)) in *. set (b := inject_Z (Z.pos m')) in *. clearbody a b.
  apply Qlt_le_trans with ((9007199254740992 # 1) * p2 e)%Q; [by apply Qmult_lt_compat_r|].
  apply Qle_trans with ((4503599627370496 # 1) * p2 e')%Q; [lra|]. apply Qmult_le_compat_r; [done|lra].
Qed.

Lemma mag_compare m e m' e' :
  canonical m e → canonical m' e' →
  match match Z.compare e e' with Lt => Lt | Gt => Gt | Eq => Pos.compare_cont Eq m m' end with
  | Lt => (inject_Z (Z.pos m) * p2 e < inject_Z (Z.pos m') * p2 e')%Q
  | Eq => (inject_Z (Z.pos m) * p2 e == inject_Z (Z.pos m') * p2 e')%Q
  | Gt => (inject_Z (Z.pos m') * p2 e' < inject_Z (Z.pos m) * p2 e)%Q
  end.
Proof.
  intros Hc Hc'. destruct (Z.compare_spec e e') as [->|He|He]; [|by apply mag_lt..].
  change (Pos.compare_cont Eq m m') with (m ?= m')%positive. pose proof (p2_pos e') as Hp.
  destruct (Pos.compare_spec m m') as [->|Hm|Hm]; [reflexivity| |]; (apply Qmult_lt_compat_r; [done|]; rewrite <-Zlt_Qlt; lia).
Qed.

Lemma mag_pos m e s : (0 < mag (S754_finite s m e))%Q.
Proof. simpl. apply Qmult_lt_0_compat; [by rewrite <-(Zlt_Qlt 0)|apply p2_pos]. Qed.

Theorem f64_leb_val x y : wf x → wf y → f64_leb x y = true ↔ (val x <= val y)%Q.
Proof.
  intros Hx Hy. unfold f64_leb, SFleb, val.
  destruct x as [s|s| |s m e], y as [t|t| |t m' e']; try done.
  - destruct s, t; simpl; split; done || (intros _; apply Qle_refl).
  - pose proof (mag_pos m' e' t) as Hp. destruct s, t; cbn [SFcompare neg mag] in *; (split; [done || lra|done || lra]).
  - pose proof (mag_pos m e s) as Hp. destruct s, t; cbn [SFcompare neg mag] in *; (split; [done || lra|done || lra]).
  - destruct Hx as [Hx _], Hy as [Hy _]. pose proof (mag_compare _ _ _ _ Hx Hy) as Hcmp.
    pose proof (mag_pos m e s) as Hp. pose proof (mag_pos m' e' t) as Hp'. cbn [SFcompare neg mag] in *.
    set (a := (inject_Z (Z.pos m) * p2 e)%Q) in *. set (b := (inject_Z (Z.pos m') * p2 e')%Q) in *. clearbody a b.
    change (Pos.compare_cont Eq m m') with (m ?= m')%positive in *.
    destruct s, t; destruct (e ?= e'); try destruct (m ?= m')%positive; cbn [CompOpp]; (split; [done || lra|done || lra]).
Qed.
