(* ===== verification/Limiter.v ===== *)
(** Request limits (internal/middleware: ratelimit.go, ratelimit_backend.go,
    ratelimit_routes.go, ratelimit_cost.go): whom a request is counted against, the
    limiter in memory and the one in Redis, the middlewares that put a limiter in
    front of a handler, and what a request costs.

    The limiter in memory computes in IEEE doubles, as the source does; the one in
    Redis is its script over the class [RedisKeys].  The readings of clocks and how
    a call to Redis ends are arguments. *)

From Stdlib Require Import Ascii SpecFloat.
From S2P Require Import Prelude GoStrings RedisKeys.
From S2P Require Idempotency.
Open Scope Z_scope.
Open Scope go_scope.

(** ** What package net and package time do here *)

Fixpoint indexByte (c : ascii) (s : string) : option nat :=
  match s with
  | EmptyString => None
  | String a r => if decide (a = c) then Some O else S <$> indexByte c r
  end.

Fixpoint lastIndexByte (c : ascii) (s : string) : option nat :=
  match s with
  | EmptyString => None
  | String a r =>
      match lastIndexByte c r with
      | Some i => Some (S i)
      | None => if decide (a = c) then Some O else None
      end
  end.

Definition drop (n : nat) (s : string) : string := String.substring n (String.length s - n) s.

(** [net.SplitHostPort]: the host, where the text is host:port or [host]:port. *)
Definition SplitHostPort (hostport : string) : option string :=
  i ← lastIndexByte ":" hostport;
  '(host, j, k) ←
    match hostport with
    | String "[" _ =>
        close ← indexByte "]" hostport;
        if decide (S close = i) then Some (String.substring 1 (close - 1) hostport, 1%nat, S close) else None
    | _ =>
        let host := String.substring 0 i hostport in
        if indexByte ":" host then None else Some (host, O, O)
    end;
  if indexByte "[" (drop j hostport) then None
  else if indexByte "]" (drop k hostport) then None
  else Some host.

(** [d.Seconds()] *)
Definition Seconds (d : Duration) : float64 :=
  f64_add (f64_of_Z (d `quot` Second)) (f64_div (f64_of_Z (d `rem` Second)) (f64_of_Z Second)).

(** The builtin [min] of two floats. *)
Definition f64_min (x y : float64) : float64 :=
  match x, y with
  | S754_nan, _ | _, S754_nan => S754_nan
  | S754_zero s, S754_zero t => S754_zero (s || t)
  | _, _ => if f64_ltb y x then y else x
  end.

(** ** The client of a request (ratelimit.go) *)

Definition ConfigureClientIP (count : Z) : Z := if count <? 0 then 0 else count.

(** The hops that an X-Forwarded-For header names. *)
Definition hops (xff : string) : list string :=
  List.filter (λ p, negb (bool_decide (p = ""))) (TrimSpace <$> splitByte "," xff).

Definition clientIP (trustedProxyCount : Z) (remoteAddr xff : string) : string :=
  let host := default remoteAddr (SplitHostPort remoteAddr) in
  if trustedProxyCount <=? 0 then host
  else
    let chain := (if decide (xff = "") then [] else hops xff) ++ [host] in
    default "" (chain !! Z.to_nat (Z.max (Z.of_nat (length chain) - 1 - trustedProxyCount) 0)).

(** ** The token bucket in memory (ratelimit.go) *)

Record bucket := mkBucket { tokens : float64; lastRefill : Time }.

Record limiter := mkLimiter { buckets : gmap string bucket; limit : Z; window : Duration }.

Definition newLimiter (limit : Z) (window : Duration) : limiter := mkLimiter ∅ limit window.

Definition allow (now : Time) (key : string) (l : limiter) : (bool * Duration) * limiter :=
  match buckets l !! key with
  | None =>
      ((true, 0), mkLimiter (<[key := mkBucket (f64_of_Z (limit l -w 1)) now]> (buckets l)) (limit l) (window l))
  | Some b =>
      let elapsed := timeSub now (lastRefill b) in
      let refill := f64_mul (f64_div (Seconds elapsed) (Seconds (window l))) (f64_of_Z (limit l)) in
      let t := f64_min (f64_of_Z (limit l)) (f64_add (tokens b) refill) in
      if f64_geb t f64_one then
        ((true, 0), mkLimiter (<[key := mkBucket (f64_sub t f64_one) now]> (buckets l)) (limit l) (window l))
      else
        let wait := f64_to_i64 (f64_mul (f64_div (f64_sub f64_one t) (f64_of_Z (limit l))) (f64_of_Z (window l)))
                    +w Second in
        ((false, wait), mkLimiter (<[key := mkBucket t now]> (buckets l)) (limit l) (window l))
  end.

(** ** The interface (ratelimit_backend.go) *)

Class Limiter (E L : Type) := Allow : E → string → L → (bool * Duration) * L.

#[export] Instance memory_limiter : Limiter Time limiter := allow.

(** The counter in Redis. *)
Record redisLimiter := mkRedisLimiter { rl_prefix : string; rl_limit : Z; rl_window : Duration }.

Section RedisLimiter.
Context {R : Type} `{RedisKeys R}.

Definition rateLimitScript (now : Time) (key : string) (ms : Z) (r : R) : option (Z * Z) * R :=
  match INCR now key r with
  | (None, r) => (None, r)
  | (Some current, r) =>
      let r := if current =? 1 then PEXPIRE now key ms r else r in
      (Some (current, PTTL now key r), r)
  end.

Definition rateKey (l : redisLimiter) (key : string) : string := "rl:" +:+ rl_prefix l +:+ ":" +:+ key.

Definition redisAllow (l : redisLimiter) (now : Time) (o : reached) (key : string) (r : R) : (bool * Duration) * R :=
  match attempt o (rateLimitScript now (rateKey l key) (rl_window l `quot` Millisecond)) r with
  | (Some (Some (count, ttlMS)), r) =>
      if rl_limit l <? count then ((false, Z.max (ttlMS *w Millisecond) Second), r) else ((true, 0), r)
  | (_, r) => ((true, 0), r)
  end.

#[export] Instance redis_limiter (l : redisLimiter) : Limiter (Time * reached) R := λ e, redisAllow l e.1 e.2.
End RedisLimiter.

(** ** In front of a handler (ratelimit.go, ratelimit_routes.go) *)

Inductive outcome := Passed | RateLimited (wait : Duration) (message : string).

(** The Retry-After header of a rejection, in seconds. *)
Definition retryAfter (wait : Duration) : Z := Z.max (f64_to_i64 (Seconds wait)) 1.

Section Middlewares.
Context {E L : Type} `{Limiter E L}.

Definition limited (e : E) (key message : string) (l : L) : outcome * L :=
  let '((allowed, wait), l) := Allow e key l in
  (if allowed then Passed else RateLimited wait message, l).

Definition GlobalRateLimiter (excludePrefixes : list string) (e : E) (path ip : string) (l : L) : outcome * L :=
  if existsb (HasPrefix path) excludePrefixes then (Passed, l) else limited e ip "rate limit exceeded" l.

Definition sensitiveRouteLimiter (routes : list Idempotency.RouteMatch) (message : string) (e : E)
    (method path key : string) (l : L) : outcome * L :=
  if negb (Idempotency.matchesRoute routes method path) then (Passed, l)
  else if decide (key = "") then (Passed, l) else limited e key message l.

Definition rateLimitMiddleware (e : E) (key : string) (l : L) : outcome * L :=
  if decide (key = "") then (Passed, l) else limited e key "rate limit exceeded" l.

Definition WriteMethodRateLimiter (e : E) (method ip : string) (l : L) : outcome * L :=
  if bool_decide (method ∈ ["POST"; "PUT"; "PATCH"; "DELETE"]) then limited e ip "write rate limit exceeded" l
  else (Passed, l).
End Middlewares.

(** [userIDFromContext] yields the id of the authenticated user or the empty text. *)
Definition userOrIP (userID ip : string) : string := if decide (userID = "") then ip else userID.

(** ** What a request costs (ratelimit_cost.go) *)

Definition DefaultRouteCost : Z := 1.
Definition CostChainWrite : Z := 10.
Definition CostAggregation : Z := 6.
Definition CostChainRead : Z := 4.
Definition CostSimulation : Z := 3.

Record RouteCost := mkRouteCost { rc_Method : string; rc_Pattern : string; rc_Cost : Z }.

Definition routeCosts : list RouteCost := [
  mkRouteCost "POST" "/api/v1/vaults/{id}/deposit" CostChainWrite;
  mkRouteCost "POST" "/api/v1/vaults/{id}/withdraw" CostChainWrite;
  mkRouteCost "POST" "/api/v1/vaults/{id}/emergency-withdraw" CostChainWrite;
  mkRouteCost "POST" "/api/v1/vaults/{id}/harvest" CostChainWrite;
  mkRouteCost "POST" "/api/v1/vaults/{id}/rebalance" CostChainWrite;
  mkRouteCost "POST" "/api/v1/vault/rebalance" CostChainWrite;
  mkRouteCost "POST" "/api/v1/admin/vaults/{id}/rebalance" CostChainWrite;
  mkRouteCost "GET" "/api/v1/vaults/{id}/preview-deposit" CostChainRead;
  mkRouteCost "GET" "/api/v1/vaults/{id}/preview-withdraw" CostChainRead;
  mkRouteCost "GET" "/api/v1/vaults/{id}/convert" CostChainRead;
  mkRouteCost "GET" "/api/v1/vaults/{id}/share-price" CostChainRead;
  mkRouteCost "GET" "/api/v1/vaults/{id}/my-position" CostChainRead;
  mkRouteCost "GET" "/api/v1/vaults/{id}/harvest/preview" CostChainRead;
  mkRouteCost "GET" "/api/v1/yield-opportunities/compare" CostAggregation;
  mkRouteCost "GET" "/api/v1/yield-opportunities" CostAggregation;
  mkRouteCost "GET" "/api/v1/yields" CostAggregation;
  mkRouteCost "GET" "/api/v1/yields/{protocol_slug}/apy-history" CostAggregation;
  mkRouteCost "GET" "/api/v1/vaults/tvl" CostAggregation;
  mkRouteCost "GET" "/api/v1/vaults/{id}/tvl" CostAggregation;
  mkRouteCost "GET" "/api/v1/vaults/{id}/performance/apy" CostAggregation;
  mkRouteCost "GET" "/api/v1/portfolio/valuation" CostAggregation;
  mkRouteCost "POST" "/api/v1/tools/simulation" CostSimulation;
  mkRouteCost "POST" "/api/v1/tools/projection" CostSimulation;
  mkRouteCost "GET" "/api/v1/vaults/{id}/projection" CostSimulation
].

Definition MaxRouteCost : Z := foldl (λ m rc, if m <? rc_Cost rc then rc_Cost rc else m) DefaultRouteCost routeCosts.

(** The loop of [matchPattern], from the segments left and the specificity so
    far. *)
Fixpoint matchFrom (pSegs uSegs : list string) (specificity : Z) : Z * bool :=
  match pSegs with
  | [] => match uSegs with [] => (specificity, true) | _ => (0, false) end
  | seg :: pSegs =>
      if HasPrefix seg "{" && HasSuffix seg "...}" then (specificity, true)
      else
        match uSegs with
        | [] => (0, false)
        | u :: uSegs =>
            if HasPrefix seg "{" && HasSuffix seg "}" then matchFrom pSegs uSegs specificity
            else if decide (seg = u) then matchFrom pSegs uSegs (specificity + 1)
            else (0, false)
        end
  end.

Definition matchPattern (pattern path : string) : Z * bool :=
  matchFrom (Idempotency.splitPath pattern) (Idempotency.splitPath path) 0.

(** One round of the loop: the best score, the cost and the label. *)
Definition better (method path : string) (x : Z * (Z * string)) (rc : RouteCost) : Z * (Z * string) :=
  if negb (bool_decide (rc_Method rc = method)) then x
  else
    let '(score, ok) := matchPattern (rc_Pattern rc) path in
    if negb ok || (score <=? x.1) then x
    else (score, (rc_Cost rc, rc_Method rc +:+ " " +:+ rc_Pattern rc)).

Definition costAndLabel (method path : string) : Z * string :=
  (foldl (better method path) (-1, (DefaultRouteCost, method +:+ " *")) routeCosts).2.

Definition CostForRequest (method path : string) : Z := (costAndLabel method path).1.
