(* ===== verification/Quota.v ===== *)
(** Quotas of work (internal/middleware/ratelimit_quota.go): a bucket of cost units
    for each caller, refilled continuously, in memory or in Redis, and the middleware
    that charges each request what it costs.

    The buckets compute in IEEE doubles, as the source does.  Redis is the class
    [RedisHashes]; how its Lua writes a number as text and reads it back is the class
    [LuaNumbers]; clocks and how a call to Redis ends are arguments. *)

From Stdlib Require Import SpecFloat.
From S2P Require Import Prelude GoStrings RedisKeys Limiter.
Open Scope Z_scope.
Open Scope go_scope.

(** ** Package math, on doubles *)

Definition mathMin (x y : float64) : float64 :=
  match x, y with
  | S754_infinity true, _ | _, S754_infinity true => S754_infinity true
  | S754_nan, _ | _, S754_nan => S754_nan
  | S754_zero s, S754_zero _ => if s then x else y
  | _, _ => if f64_ltb x y then x else y
  end.

(** The integral part of a magnitude, rounded up or down. *)
Definition magUp (m : positive) (e : Z) : Z := - ((- Z.pos m) / 2 ^ (- e)).
Definition magDown (m : positive) (e : Z) : Z := Z.pos m / 2 ^ (- e).

(** An integer as a double that keeps the sign of [x]. *)
Definition integral (s : bool) (z : Z) : float64 := if z =? 0 then S754_zero s else f64_of_Z (if s then - z else z).

Definition mathCeil (x : float64) : float64 :=
  match x with
  | S754_finite s m e => if 0 <=? e then x else integral s (if s then magDown m e else magUp m e)
  | _ => x
  end.

Definition mathFloor (x : float64) : float64 :=
  match x with
  | S754_finite s m e => if 0 <=? e then x else integral s (if s then magUp m e else magDown m e)
  | _ => x
  end.

Definition IsNaN (x : float64) : bool := match x with S754_nan => true | _ => false end.
Definition IsInf (x : float64) : bool := match x with S754_infinity _ => true | _ => false end.
Definition SmallestNonzeroFloat64 : float64 := S754_finite false 1 (-1074).

Definition Milliseconds (d : Duration) : Z := d `quot` Millisecond.

(** ** Decisions *)

Record QuotaDecision := mkDecision {
  Allowed : bool;
  Limit : Z;
  Remaining : Z;
  RetryAfter : Duration;
  Reset : Duration;
  Degraded : bool;
}.

Class QuotaLimiter (E L : Type) := AllowN : E → string → Z → L → QuotaDecision * L.

Definition refillRate (limit : Z) (window : Duration) : float64 :=
  let ms := f64_of_Z (Milliseconds window) in
  if f64_leb ms f64_zero || (limit <=? 0) then SmallestNonzeroFloat64 else f64_div (f64_of_Z limit) ms.

Definition maxQuotaWait : Duration := 24 * Hour.

Definition msUntil (deficit refillPerMs : float64) : Duration :=
  if f64_leb deficit f64_zero then 0
  else
    let ms := mathCeil (f64_div deficit refillPerMs) in
    if IsInf ms || IsNaN ms || f64_gtb ms (f64_of_Z (Milliseconds maxQuotaWait)) then maxQuotaWait
    else f64_to_i64 ms *w Millisecond.

(** ** Buckets in memory *)

Record memoryQuotaBucket := mkQBucket { q_tokens : float64; q_last : Time }.

Record memoryQuotaLimiter := mkQLimiter {
  q_buckets : gmap string memoryQuotaBucket;
  q_limit : Z;
  q_window : Duration;
  lastSweep : Time;
}.

Definition newMemoryQuotaLimiter (limit : Z) (window : Duration) : memoryQuotaLimiter :=
  mkQLimiter ∅ limit window zeroTime.

(** A bucket that is full again by [now]. *)
Definition refilled (now : Time) (refillPerMs : float64) (limit : Z) (b : memoryQuotaBucket) : bool :=
  let elapsed := f64_of_Z (Milliseconds (timeSub now (q_last b))) in
  if f64_ltb elapsed f64_zero then false
  else f64_geb (f64_add (q_tokens b) (f64_mul elapsed refillPerMs)) (f64_of_Z limit).

Definition sweepLocked (now : Time) (refillPerMs : float64) (l : memoryQuotaLimiter) : memoryQuotaLimiter :=
  if timeSub now (lastSweep l) <? q_window l then l
  else mkQLimiter (filter (λ p : string * memoryQuotaBucket, refilled now refillPerMs (q_limit l) p.2 = false) (q_buckets l))
         (q_limit l) (q_window l) now.

(** The bucket after its refill. *)
Definition refill (now : Time) (refillPerMs : float64) (limit : Z) (b : memoryQuotaBucket) : memoryQuotaBucket :=
  let elapsed := Milliseconds (timeSub now (q_last b)) in
  if 0 <? elapsed then
    mkQBucket (mathMin (f64_of_Z limit) (f64_add (q_tokens b) (f64_mul (f64_of_Z elapsed) refillPerMs))) now
  else b.

Definition memAllowN (now : Time) (key : string) (cost : Z) (l : memoryQuotaLimiter) : QuotaDecision * memoryQuotaLimiter :=
  let rate := refillRate (q_limit l) (q_window l) in
  let l := if lastSweep l =? zeroTime then mkQLimiter (q_buckets l) (q_limit l) (q_window l) now else l in
  let l := sweepLocked now rate l in
  let b := default (mkQBucket (f64_of_Z (q_limit l)) now) (q_buckets l !! key) in
  let b := refill now rate (q_limit l) b in
  let allowed := f64_geb (q_tokens b) (f64_of_Z cost) in
  let tokens := if allowed then f64_sub (q_tokens b) (f64_of_Z cost) else q_tokens b in
  (mkDecision allowed (q_limit l) (f64_to_i64 tokens)
     (if allowed then 0 else msUntil (f64_sub (f64_of_Z cost) tokens) rate)
     (msUntil (f64_sub (f64_of_Z (q_limit l)) tokens) rate) false,
   mkQLimiter (<[key := mkQBucket tokens (q_last b)]> (q_buckets l)) (q_limit l) (q_window l) (lastSweep l)).

#[export] Instance memory_quota : QuotaLimiter Time memoryQuotaLimiter := memAllowN.

(** ** Buckets in Redis *)

(** The fields t and ts of a hash and its expiry; [hview] is what a client finds. *)
Class RedisHashes (R : Type) := {
  hview : R → Time → string → option ((string * string) * option Time);
  HMGET : Time → string → R → option string * option string;
  HSET : Time → string → string → string → R → R;
  HPEXPIRE : Time → string → Z → R → R;
}.

Class RedisHashesLaws (R : Type) `{RedisHashes R} : Prop := {
  hview_later r now t k : now ≤ t → hview r t k = unexpired t (hview r now k);
  hmget_view now k r : HMGET now k r = match hview r now k with Some ((t, ts), _) => (Some t, Some ts) | None => (None, None) end;
  hset_view now k t ts r k' :
    hview (HSET now k t ts r) now k' = if decide (k' = k) then Some ((t, ts), hview r now k ≫= snd) else hview r now k';
  hpexpire_view now k ms r k' :
    hview (HPEXPIRE now k ms r) now k' =
    if decide (k' = k) then
      if ms <=? 0 then None else (λ p, (p.1, Some (now + ms * Millisecond))) <$> hview r now k
    else hview r now k';
}.

(** Numbers of Lua 5.1 as text. *)
Class LuaNumbers := { tostring : float64 → string; tonumber : string → option float64 }.

(** [math.min] of Lua. *)
Definition luaMin (x y : float64) : float64 := if f64_ltb y x then y else x.

Definition quotaKeyTTLFactor : Z := 2.

(** The arguments of the script; go-redis sends the rate with as many digits as it
    takes to read it back. *)
Record QuotaArgs := mkQuotaArgs { a_capacity : Z; a_refillPerMs : float64; a_now : Z; a_cost : Z; a_ttl : Z }.

Section RedisQuota.
Context {R : Type} `{RedisHashes R} `{LuaNumbers}.

(** The balance and the time of its last refill, which a key without them has in
    full, now. *)
Definition scriptState (a : QuotaArgs) (fields : option string * option string) : float64 * float64 :=
  match fields.1 ≫= tonumber, fields.2 ≫= tonumber with
  | Some tokens, Some ts => (tokens, ts)
  | _, _ => (f64_of_Z (a_capacity a), f64_of_Z (a_now a))
  end.

(** What the script answers and keeps: allowed, remaining, retry and reset, the new
    balance and its time. *)
Definition scriptCharge (a : QuotaArgs) (tokens ts : float64) : (Z * Z * Z * Z) * (float64 * float64) :=
  let capacity := f64_of_Z (a_capacity a) in
  let now := f64_of_Z (a_now a) in
  let cost := f64_of_Z (a_cost a) in
  let elapsed := let e := f64_sub now ts in if f64_ltb e f64_zero then f64_zero else e in
  let tokens := luaMin capacity (f64_add tokens (f64_mul elapsed (a_refillPerMs a))) in
  let allowed := f64_geb tokens cost in
  let tokens := if allowed then f64_sub tokens cost else tokens in
  let base := if f64_gtb ts now then ts else now in
  let maxMs := f64_of_Z 86400000 in
  let retry := if allowed then f64_zero else luaMin maxMs (mathCeil (f64_div (f64_sub cost tokens) (a_refillPerMs a))) in
  let reset := luaMin maxMs (mathCeil (f64_div (f64_sub capacity tokens) (a_refillPerMs a))) in
  ((if allowed then 1 else 0, f64_to_i64 (mathFloor tokens), f64_to_i64 retry, f64_to_i64 reset), (tokens, base)).

(** The script, at the time [at_] of Redis. *)
Definition quotaScript (at_ : Time) (key : string) (a : QuotaArgs) (r : R) : (Z * Z * Z * Z) * R :=
  let '(tokens, ts) := scriptState a (HMGET at_ key r) in
  let '(reply, (tokens, base)) := scriptCharge a tokens ts in
  (reply, HPEXPIRE at_ key (a_ttl a) (HSET at_ key (tostring tokens) (tostring base) r)).

Record redisQuotaLimiter := mkRedisQuota { rq_prefix : string; rq_limit : Z; rq_window : Duration }.

Definition redisQuotaKey (l : redisQuotaLimiter) (key : string) : string := "rlq:" +:+ rq_prefix l +:+ ":" +:+ key.

(** [now] is the clock of the instance, [at_] that of Redis. *)
Record QuotaCall := mkQuotaCall { qc_now : Time; qc_at : Time; qc_ends : reached }.

Definition quotaArgs (l : redisQuotaLimiter) (now : Time) (cost : Z) : QuotaArgs :=
  mkQuotaArgs (rq_limit l) (refillRate (rq_limit l) (rq_window l)) (now / Millisecond) cost
    (Milliseconds (rq_window l *w quotaKeyTTLFactor)).

Definition redisAllowN (l : redisQuotaLimiter) (e : QuotaCall) (key : string) (cost : Z) (r : R) : QuotaDecision * R :=
  match attempt (qc_ends e) (quotaScript (qc_at e) (redisQuotaKey l key) (quotaArgs l (qc_now e) cost)) r with
  | (None, r) => (mkDecision true (rq_limit l) 0 0 0 true, r)
  | (Some (allowed, remaining, retryMS, resetMS), r) =>
      (mkDecision (allowed =? 1) (rq_limit l) remaining (retryMS *w Millisecond) (resetMS *w Millisecond) false, r)
  end.

#[export] Instance redis_quota (l : redisQuotaLimiter) : QuotaLimiter QuotaCall R := redisAllowN l.
End RedisQuota.

(** ** In front of a handler *)

Definition quotaBypassHeader : string := "X-RateLimit-Bypass".

Record QuotaConfig := mkQuotaConfig { Enabled : bool; BypassToken : string; ExcludePrefixes : list string }.

(** What of a request counts: who sends it, and the header [quotaBypassHeader]. *)
Record QuotaRequest := mkQuotaRequest { qr_Method : string; qr_Path : string; qr_user : string; qr_ip : string; qr_bypass : string }.

Record QuotaEvent := mkQuotaEvent { ev_Key : string; ev_Route : string; ev_Cost : Z; ev_Allowed : bool; ev_Degraded : bool }.

Definition excluded (path : string) (prefixes : list string) : bool := existsb (HasPrefix path) prefixes.

Definition quotaBypassed (supplied token : string) : bool :=
  if bool_decide (token = "") then false
  else if bool_decide (supplied = "") then false else bool_decide (supplied = token).

Definition quotaKey (userID ip : string) : string :=
  if negb (bool_decide (userID = "")) then "u:" +:+ userID
  else if negb (bool_decide (ip = "")) then "ip:" +:+ ip else "".

Definition secondsCeil (d : Duration) : Z := if d <=? 0 then 0 else f64_to_i64 (mathCeil (Seconds d)).

(** The headers RateLimit-Limit, -Remaining and -Reset. *)
Definition setQuotaHeaders (d : QuotaDecision) : Z * Z * Z := (Limit d, Z.max (Remaining d) 0, secondsCeil (Reset d)).

Record quotaExhaustedBody := mkExhausted {
  qb_Cost : Z;
  qb_Limit : Z;
  qb_Remaining : Z;
  qb_RetryAfterSeconds : Z;
  qb_ResetSeconds : Z;
}.

Definition writeQuotaExhausted (d : QuotaDecision) (cost : Z) : quotaExhaustedBody :=
  mkExhausted cost (Limit d) (Z.max (Remaining d) 0) (Z.max (secondsCeil (RetryAfter d)) 1) (secondsCeil (Reset d)).

(** The request goes on, with headers where it was counted, or is answered 429 with
    a Retry-After header of [qb_RetryAfterSeconds]. *)
Inductive QuotaOutcome :=
| Served (headers : option (Z * Z * Z))
| Exhausted (headers : Z * Z * Z) (body : quotaExhaustedBody).

Section CostQuota.
Context {E L : Type} `{QuotaLimiter E L} (cfg : QuotaConfig).

Definition CostQuota (e : E) (r : QuotaRequest) (l : L) : QuotaOutcome * list QuotaEvent * L :=
  if negb (Enabled cfg) || excluded (qr_Path r) (ExcludePrefixes cfg) || quotaBypassed (qr_bypass r) (BypassToken cfg) then
    (Served None, [], l)
  else
    let '(cost, route) := costAndLabel (qr_Method r) (qr_Path r) in
    let key := quotaKey (qr_user r) (qr_ip r) in
    if bool_decide (key = "") then (Served None, [], l)
    else
      let '(d, l) := AllowN e key cost l in
      let events := [mkQuotaEvent key route cost (Allowed d) (Degraded d)] in
      if Degraded d then (Served None, events, l)
      else if negb (Allowed d) then (Exhausted (setQuotaHeaders d) (writeQuotaExhausted d cost), events, l)
      else (Served (Some (setQuotaHeaders d)), events, l).
End CostQuota.
