(* ===== verification/QuotaRuns.v ===== *)
(** What the quotas of [Quota] guarantee, as rational numbers: how much work a caller
    is admitted to, and that a caller who waits is admitted.  The errors of rounding
    are those of [Float64]. *)

From Stdlib Require Import SpecFloat QArith Qabs Qminmax Lqa.
From S2P Require Import Prelude GoStrings RedisKeys Float64 Limiter Quota.
Open Scope Z_scope.
Open Scope go_scope.

(** ** The least of two doubles *)

Lemma f64_ltb_val x y : wf x → wf y → f64_ltb x y = true ↔ (val x < val y)%Q.
Proof.
  intros Hx Hy. pose proof (f64_leb_val y x Hy Hx) as H1.
  assert (H2 : f64_ltb x y = negb (f64_leb y x)).
  { clear H1. unfold f64_ltb, f64_leb, SFltb, SFleb. destruct x as [s|s| |s m e], y as [t|t| |t m' e']; try done; cbn [SFcompare].
    - by destruct t.
    - by destruct s.
    - change (Pos.compare_cont Eq m m') with (m ?= m')%positive. change (Pos.compare_cont Eq m' m) with (m' ?= m)%positive.
      rewrite (Z.compare_antisym e e'), (Pos.compare_antisym m m').
      destruct s, t; try done; destruct (e ?= e'); try done; by destruct (m ?= m')%positive. }
  rewrite H2, negb_true_iff, <-not_true_iff_false, H1. split; [apply Qnot_le_lt|apply Qlt_not_le].
Qed.

Lemma mathMin_val x y : wf x → wf y → wf (mathMin x y) ∧ (val (mathMin x y) == Qmin (val x) (val y))%Q.
Proof.
  intros Hx Hy. assert (E : mathMin x y = (if f64_ltb x y then x else y) ∨ (val x == 0)%Q ∧ (val y == 0)%Q ∧ (mathMin x y = x ∨ mathMin x y = y)).
  { destruct x as [s|s| |s m e], y as [t|t| |t m' e']; try done; try (by left). right.
    split_and!; [by destruct s|by destruct t|]. destruct s; [by left|by right]. }
  pose proof (f64_ltb_val x y Hx Hy) as Hl. destruct E as [->|(E1 & E2 & [-> | ->])].
  - destruct (f64_ltb x y).
    + split; [done|]. symmetry. apply Q.min_l. apply Qlt_le_weak. by apply Hl.
    + split; [done|]. symmetry. apply Q.min_r. apply Qnot_lt_le. intros H. by apply Hl in H.
  - split; [done|]. rewrite E1, E2. reflexivity.
  - split; [done|]. rewrite E1, E2. reflexivity.
Qed.

Lemma Zlt_Q a b : a < b → (inject_Z a < inject_Z b)%Q.
Proof. by rewrite <-Zlt_Qlt. Qed.

Lemma Zle_Q a b : a ≤ b → (inject_Z a <= inject_Z b)%Q.
Proof. by rewrite <-Zle_Qle. Qed.

Lemma Zpos_Q a : 0 < a → (0 < inject_Z a)%Q.
Proof. apply (Zlt_Q 0). Qed.

Lemma Znonneg_Q a : 0 ≤ a → (0 <= inject_Z a)%Q.
Proof. apply (Zle_Q 0). Qed.

(** ** Rounding up *)

Lemma inject_inj a b : (inject_Z a == inject_Z b)%Q → a = b.
Proof. apply inject_Z_injective. Qed.

Lemma inject_pow m e : 0 ≤ e → (inject_Z m * p2 e == inject_Z (m * 2 ^ e))%Q.
Proof. intros He. by rewrite p2_Z, <-inject_Z_mult. Qed.

Lemma pow_neg m e : e < 0 → (inject_Z m * p2 e * inject_Z (2 ^ (- e)) == inject_Z m)%Q.
Proof. intros He. rewrite <-p2_Z, <-Qmult_assoc, <-p2_add by lia. replace (e + - e) with 0 by lia. apply Qmult_1_r. Qed.

(** An integral double truncates to itself. *)
Lemma trunc_integral x z : wf x → (val x == inject_Z z)%Q → f64_trunc x = z.
Proof.
  intros Hw Hv. destruct x as [s| | |s m e]; try done.
  - assert (H0 : (inject_Z 0 == inject_Z z)%Q) by (rewrite <-Hv; by destruct s). apply inject_inj in H0. by subst z.
  - assert (Hv' : (inject_Z (Z.pos m) * p2 e == inject_Z (if s then - z else z))%Q).
    { unfold val in Hv. cbn [neg mag] in Hv. destruct s; [|done]. rewrite inject_Z_opp, <-Hv. ring. }
    clear Hv. unfold f64_trunc. set (w := if s then - z else z) in *. assert (Hz : z = if s then - w else w) by (unfold w; destruct s; lia).
    clearbody w. subst z. destruct (Z.leb_spec 0 e) as [He|He].
    + rewrite inject_pow in Hv' by done. apply inject_inj in Hv'. by rewrite Hv'.
    + assert (H1 : (inject_Z (Z.pos m) == inject_Z w * inject_Z (2 ^ (- e)))%Q) by (by rewrite <-Hv', pow_neg).
      rewrite <-inject_Z_mult in H1. apply inject_inj in H1. rewrite H1, Z.div_mul by (apply Z.pow_nonzero; lia). done.
Qed.

Lemma mag_up m e : e < 0 → (inject_Z (Z.pos m) * p2 e <= inject_Z (magUp m e))%Q ∧ 0 < magUp m e ≤ Z.pos m.
Proof.
  intros He. unfold magUp. assert (Hp : 0 < 2 ^ (- e)) by (apply Z.pow_pos_nonneg; lia).
  pose proof (Z.div_mod (- Z.pos m) (2 ^ (- e)) ltac:(lia)) as Hd. pose proof (Z.mod_pos_bound (- Z.pos m) _ Hp) as Hm.
  set (q := - Z.pos m / 2 ^ (- e)) in *. assert (Hle : Z.pos m ≤ - q * 2 ^ (- e)) by lia. split.
  - apply (Qmult_le_r _ _ (inject_Z (2 ^ (- e)))); [by apply Zpos_Q|]. rewrite pow_neg, <-inject_Z_mult by done. by apply Zle_Q.
  - split; nia.
Qed.

Lemma ceil_up x :
  wf x → (0 <= val x)%Q →
  ∃ z, wf (mathCeil x) ∧ (val (mathCeil x) == inject_Z z)%Q ∧ (val x <= inject_Z z)%Q ∧ 0 ≤ z
       ∧ (z ≤ 86400000 → f64_to_i64 (mathCeil x) = z).
Proof.
  intros Hw Hv. assert (Hi : ∀ y z, wf y → (val y == inject_Z z)%Q → 0 ≤ z ≤ 86400000 → f64_to_i64 y = z).
  { intros y z Hy Hz Hr. unfold f64_to_i64. rewrite (trunc_integral y z) by done.
    rewrite (proj2 (Z.leb_le _ _)), (proj2 (Z.leb_le _ _)) by (unfold min_i64, max_i64; lia). destruct y; done. }
  assert (Hfin : ∀ y z, wf y → (val y == inject_Z z)%Q → (val x <= inject_Z z)%Q →
    ∃ z, wf y ∧ (val y == inject_Z z)%Q ∧ (val x <= inject_Z z)%Q ∧ 0 ≤ z ∧ (z ≤ 86400000 → f64_to_i64 y = z)).
  { intros y z Hy Hz Hle. assert (H0 : 0 ≤ z) by (rewrite Zle_Qle; change (inject_Z 0) with 0%Q; lra). exists z. split_and!; try done. by intros; apply Hi. }
  destruct x as [s| | |s m e]; try done.
  - apply (Hfin _ 0); [done|by destruct s|]. change (inject_Z 0) with 0%Q. by destruct s.
  - pose proof (mag_pos m e s) as Hp. destruct s; [unfold val in Hv; cbn [neg] in Hv; lra|]. unfold mathCeil.
    destruct (Z.leb_spec 0 e) as [He|He].
    + apply (Hfin _ (Z.pos m * 2 ^ e)); [done|..]; unfold val; cbn [neg mag]; rewrite inject_pow by done; [reflexivity|apply Qle_refl].
    + destruct (mag_up m e He) as [Hup Hpos]. destruct Hw as [Hc _]. destruct (canonical_digits _ _ Hc) as [Hd _].
      pose proof (digits_bounds m) as [_ Hm]. pose proof (Z.pow_le_mono_r 2 (Z.pos (digits2_pos m)) 53 ltac:(lia) Hd).
      unfold integral. rewrite (proj2 (Z.eqb_neq _ _)) by lia. destruct (f64_of_Z_exact (magUp m e) ltac:(lia)) as [Hw' Hv'].
      apply (Hfin _ (magUp m e)); done.
Qed.

(** ** Rates *)

(** A limit and a window that can be served: the units of a full bucket are exact. *)
Record servable (limit : Z) (window : Duration) : Prop := {
  sv_limit : 0 < limit < 2 ^ 50;
  sv_window : Millisecond ≤ window ≤ max_i64;
}.

(** The units restored in a millisecond. *)
Definition perMs (limit : Z) (window : Duration) : Q := inject_Z limit / inject_Z (Milliseconds window).

Lemma window_ms limit window : servable limit window → 1 ≤ Milliseconds window < 2 ^ 44.
Proof.
  intros [_ Hw]. unfold Milliseconds, Millisecond, Microsecond, Nanosecond, max_i64 in *.
  rewrite Z.quot_div_nonneg by lia. split; [apply Z.div_le_lower_bound; lia|apply Z.div_lt_upper_bound; lia].
Qed.

Lemma perMs_bounds limit window : servable limit window → (p2 (-44) <= perMs limit window <= inject_Z limit)%Q.
Proof.
  intros Hs. pose proof (window_ms _ _ Hs) as Hw. destruct Hs as [Hl _]. unfold perMs.
  assert (Hw0 := Zpos_Q (Milliseconds window) ltac:(lia)). split.
  - apply Qle_shift_div_l; [done|]. apply Qle_trans with (p2 (-44) * p2 44)%Q.
    + apply Qmult_le_l; [apply p2_pos|]. rewrite p2_Z by done. apply Zle_Q. lia.
    + rewrite <-p2_add. apply Zle_Q. lia.
  - apply Qle_shift_div_r; [done|]. rewrite <-inject_Z_mult. apply Zle_Q. nia.
Qed.

(** The error of rounding a value, with constants that [lra] computes with. *)
Lemma ulp_err_le v : (ulp_err v <= v * (1 # 9007199254740992) + (1 # 1329227995784915872903807060280344576))%Q.
Proof.
  unfold ulp_err. apply Qplus_le_compat; [apply Qle_refl|]. apply (p2_le (-1075) (-120)). lia.
Qed.

Lemma rounds_near v y :
  rounds v y → (0 <= v)%Q →
  (0 <= val y ∧ v - (v * (1 # 9007199254740992) + (1 # 1329227995784915872903807060280344576)) <= val y
   ∧ val y <= v + (v * (1 # 9007199254740992) + (1 # 1329227995784915872903807060280344576)))%Q.
Proof.
  intros [H1 H2 H3 H4] Hv. pose proof (ulp_err_le (Qabs v)) as Hu. assert (Ha := Qabs_pos v Hv).
  specialize (H4 Hv). repeat split; lra.
Qed.

Lemma below_range v : (0 <= v)%Q → (v <= inject_Z (2 ^ 100))%Q → (Qabs v <= p2 1000)%Q.
Proof.
  intros H0 H1. rewrite Qabs_pos by done. apply Qle_trans with (inject_Z (2 ^ 100)); [done|].
  rewrite <-p2_Z by done. apply p2_le. lia.
Qed.

Section Bucket.
Context (limit : Z) (window : Duration) (Hs : servable limit window).

Definition rate : float64 := refillRate limit window.
Definition L : Q := inject_Z limit.
Definition r : Q := val rate.

Lemma limit_bounds : (1 <= L)%Q ∧ (L <= 1125899906842624 # 1)%Q.
Proof. destruct Hs as [Hl _]. unfold L. split; [apply (Zle_Q 1)|apply (Zle_Q _ 1125899906842624)]; lia. Qed.

Lemma limit_exact : wf (f64_of_Z limit) ∧ (val (f64_of_Z limit) == L)%Q.
Proof. apply f64_of_Z_exact. destruct Hs. lia. Qed.

(** The rate is the quotient of limit and window, nearly. *)
Lemma rate_spec :
  wf rate ∧ (0 < r)%Q ∧ (r <= 2251799813685248 # 1)%Q
  ∧ (perMs limit window * (1 - (1 # 4503599627370496)) <= r)%Q
  ∧ (r <= perMs limit window * (1 + (1 # 4503599627370496)))%Q.
Proof.
  pose proof (window_ms _ _ Hs) as Hw. destruct (perMs_bounds _ _ Hs) as [Hlo Hhi]. pose proof limit_bounds as [HL1 HL2].
  destruct limit_exact as [Hwl Hvl]. destruct (f64_of_Z_exact (Milliseconds window) ltac:(lia)) as [Hwm Hvm].
  assert (Hm0 := Zpos_Q (Milliseconds window) ltac:(lia)).
  assert (Hrate : rate = f64_div (f64_of_Z limit) (f64_of_Z (Milliseconds window))).
  { unfold rate, refillRate. assert (f64_leb (f64_of_Z (Milliseconds window)) f64_zero = false) as ->.
    { apply not_true_iff_false. rewrite f64_leb_val by done. rewrite Hvm. change (val f64_zero) with 0%Q. lra. }
    destruct Hs as [[Hl _] _]. by rewrite (proj2 (Z.leb_gt _ _)). }
  assert (Hmag : (0 < mag (f64_of_Z (Milliseconds window)))%Q).
  { pose proof (mag_nonneg (f64_of_Z (Milliseconds window))). revert Hvm. unfold val. destruct (neg _); lra. }
  assert (Hv : (val (f64_of_Z limit) / val (f64_of_Z (Milliseconds window)) == perMs limit window)%Q) by (unfold perMs, L in *; by rewrite Hvl, Hvm).
  set (v := perMs limit window) in *. clearbody v. change (p2 (-44)) with (1 # 17592186044416)%Q in Hlo. fold L in Hhi.
  assert (Hr : rounds v rate).
  { rewrite Hrate. apply (rounds_ext _ _ _ Hv), f64_div_rounds; try done. rewrite Hv. apply below_range; [lra|].
    apply Qle_trans with L; [done|]. apply Qle_trans with (1125899906842624 # 1)%Q; [done|]. by apply (Zle_Q 1125899906842624). }
  pose proof (rounds_near _ _ Hr ltac:(lra)) as (_ & H1 & H2). fold r in H1, H2. split; [apply (rd_wf _ _ Hr)|]. repeat split; lra.
Qed.

(** A balance that a bucket can hold. *)
Definition balance (t : float64) : Prop := wf t ∧ (0 <= val t <= L)%Q.

(** What [tokens] grow to in [e] milliseconds, before and after rounding. *)
Definition grown (t : float64) (e : Z) : Q := val t + inject_Z e * r.

(** A time in milliseconds, as a double. *)
Definition near (e : Z) (el : float64) : Prop :=
  wf el ∧ (0 <= val el)%Q
  ∧ (inject_Z e - (inject_Z e * (1 # 9007199254740992) + (1 # 1329227995784915872903807060280344576)) <= val el)%Q
  ∧ (val el <= inject_Z e + (inject_Z e * (1 # 9007199254740992) + (1 # 1329227995784915872903807060280344576)))%Q.

Lemma near_exact e : 0 ≤ e < 2 ^ 44 → near e (f64_of_Z e).
Proof.
  intros He. destruct (f64_of_Z_exact e ltac:(lia)) as [Hw Hv]. assert (He0 := Znonneg_Q e ltac:(lia)).
  split_and!; [done|..]; rewrite Hv; lra.
Qed.

Lemma grown_rounds t e el :
  balance t → 0 ≤ e < 2 ^ 44 → near e el →
  let y := f64_add t (f64_mul el rate) in
  wf y ∧ (0 <= val y)%Q ∧ (grown t e - (grown t e + 1) * (1 # 2251799813685248) <= val y)%Q
  ∧ (val y <= grown t e + (grown t e + 1) * (1 # 2251799813685248))%Q.
Proof.
  intros [Ht Hb] He (Hew & Hel0 & Hel1 & Hel2). cbv zeta. destruct rate_spec as (Hrw & Hr0 & Hr1 & _). pose proof limit_bounds as [HL1 HL2].
  assert (He0 := Znonneg_Q e ltac:(lia)). assert (He1 := Zle_Q e (2 ^ 44) ltac:(lia)).
  change (inject_Z (2 ^ 44)) with (17592186044416 # 1)%Q in He1. unfold grown.
  set (p := (inject_Z e * r)%Q). set (p' := (val el * r)%Q).
  assert (Hp : (0 <= p' ∧ p' <= inject_Z (2 ^ 96) ∧ 0 <= p
    ∧ p - (p * (1 # 9007199254740992) + (1 # 590295810358705651712)) <= p'
    ∧ p' <= p + (p * (1 # 9007199254740992) + (1 # 590295810358705651712)))%Q).
  { change (inject_Z (2 ^ 96)) with (79228162514264337593543950336 # 1)%Q.
    assert (H1 : ((inject_Z e - (inject_Z e * (1 # 9007199254740992) + (1 # 1329227995784915872903807060280344576))) * r <= p')%Q) by (apply Qmult_le_compat_r; lra).
    assert (H2 : (p' <= (inject_Z e + (inject_Z e * (1 # 9007199254740992) + (1 # 1329227995784915872903807060280344576))) * r)%Q) by (apply Qmult_le_compat_r; lra).
    assert (H3 : (inject_Z e * r <= (17592186044416 # 1) * (2251799813685248 # 1))%Q) by (apply Qmult_le_compat_nonneg; lra).
    assert (H4 : (0 <= inject_Z e * r)%Q) by (apply Qmult_le_0_compat; lra). assert (H5 : (0 <= p')%Q) by (apply Qmult_le_0_compat; lra).
    unfold p. repeat split; lra. }
  clearbody p. destruct Hp as (Hp0 & Hp1 & Hpp & Hpl & Hph). assert (Hm : rounds p' (f64_mul el rate)) by (apply f64_mul_rounds; try done;
    apply below_range; [done|]; apply Qle_trans with (inject_Z (2 ^ 96)); [done|]; by apply Zle_Q).
  destruct (rounds_near _ _ Hm Hp0) as (Hq0 & Hq1 & Hq2). pose proof (rd_wf _ _ Hm) as Hmw. clearbody p'.
  set (q := val (f64_mul el rate)) in *. change (inject_Z (2 ^ 96)) with (79228162514264337593543950336 # 1)%Q in Hp1.
  assert (Ha : rounds (val t + q) (f64_add t (f64_mul el rate))).
  { apply f64_add_rounds; try done. fold q. apply below_range; [lra|].
    change (inject_Z (2 ^ 100)) with (1267650600228229401496703205376 # 1)%Q. lra. }
  destruct (rounds_near _ _ Ha ltac:(lra)) as (Hy0 & Hy1 & Hy2). pose proof (rd_wf _ _ Ha). split_and!; try done; lra.
Qed.

(** The error of one operation on a balance. *)
Definition err : Q := (L + 1) * (1 # 2251799813685248).

Lemma err_nonneg : (0 <= err)%Q.
Proof. unfold err. pose proof limit_bounds as [HL _]. lra. Qed.

Lemma capped_rounds t e el y t1 :
  balance t → 0 ≤ e < 2 ^ 44 → near e el → y = f64_add t (f64_mul el rate) →
  (wf y → wf t1 ∧ (val t1 == Qmin (val (f64_of_Z limit)) (val y))%Q) →
  balance t1 ∧ (val t1 <= grown t e + err)%Q ∧ (Qmin L (grown t e) - err <= val t1)%Q.
Proof.
  intros Ht He Hel -> Ht1. destruct (grown_rounds t e el Ht He Hel) as (Hyw & Hy0 & Hy1 & Hy2). destruct limit_exact as [Hlw Hlv].
  pose proof limit_bounds as [HL _]. destruct (Ht1 Hyw) as [Hw Hv]. rewrite Hlv in Hv. unfold balance, err.
  set (y := val (f64_add _ _)) in *. set (g := grown t e) in *. clearbody y g.
  destruct (Q.min_spec L y) as [[H1 H2]|[H1 H2]], (Q.min_spec L g) as [[H3 H4]|[H3 H4]]; rewrite ?H4;
    (split; [split; [done|]; rewrite Hv, H2; split; lra|split; rewrite Hv, H2; lra]).
Qed.

Lemma charge_rounds t cost :
  balance t → 1 ≤ cost < 2 ^ 50 →
  (f64_geb t (f64_of_Z cost) = true ↔ (inject_Z cost <= val t)%Q)
  ∧ ((inject_Z cost <= val t)%Q →
     let t' := f64_sub t (f64_of_Z cost) in
     balance t' ∧ (val t' <= val t - inject_Z cost + err)%Q ∧ (val t - inject_Z cost - err <= val t')%Q).
Proof.
  intros [Ht Hb] Hc. destruct (f64_of_Z_exact cost ltac:(lia)) as [Hcw Hcv]. pose proof limit_bounds as [HL1 HL2].
  assert (Hc1 := Zle_Q 1 cost ltac:(lia)). change (inject_Z 1) with 1%Q in Hc1. split.
  - change (f64_geb t (f64_of_Z cost)) with (f64_leb (f64_of_Z cost) t). rewrite f64_leb_val by done. by rewrite Hcv.
  - intros Hle. cbv zeta. assert (Hr : rounds (val t - inject_Z cost) (f64_sub t (f64_of_Z cost))).
    { apply (rounds_ext (val t - val (f64_of_Z cost))); [by rewrite Hcv|]. apply f64_sub_rounds; try done.
      rewrite Hcv. apply below_range; [lra|]. apply Qle_trans with (1125899906842624 # 1)%Q; [lra|]. by apply (Zle_Q 1125899906842624). }
    destruct (rounds_near _ _ Hr ltac:(lra)) as (H0 & H1 & H2). pose proof (rd_wf _ _ Hr). unfold balance, err.
    split_and!; try done; lra.
Qed.

(** ** The potential of a key *)

(** Milliseconds between two times, with their fraction. *)
Definition since (t last : Time) : Q := inject_Z (t - last) * (1 # 1000000).

Lemma since_ms now last :
  last ≤ now → let e := Milliseconds (timeSub now last) in 0 ≤ e < 2 ^ 44 ∧ (inject_Z e <= since now last)%Q
  ∧ (now - last ≤ max_i64 → (since now last < inject_Z e + 1)%Q).
Proof.
  intros Hl. cbv zeta. unfold Milliseconds, timeSub, sat64, min_i64, max_i64, since, Millisecond, Microsecond, Nanosecond.
  set (d := now - last) in *. assert (Hd : 0 ≤ d) by (unfold d; lia). clearbody d. rewrite Z.quot_div_nonneg by lia.
  set (x := Z.max _ _). assert (Hx : 0 ≤ x ≤ d ∧ x < 2 ^ 63 ∧ (d ≤ 2 ^ 63 - 1 → x = d)) by (unfold x; lia). clearbody x.
  change (1000 * (1000 * 1)) with 1000000. pose proof (Z.div_mod x 1000000 ltac:(lia)) as Hdm. pose proof (Z.mod_pos_bound x 1000000 ltac:(lia)) as Hm.
  set (q := x / 1000000) in *. clearbody q. split_and!; try lia.
  - assert (H := Zle_Q (q * 1000000) d ltac:(lia)). rewrite inject_Z_mult in H. change (inject_Z 1000000) with (1000000 # 1)%Q in H. lra.
  - intros Hlt. assert (H := Zlt_Q d (q * 1000000 + 1000000) ltac:(lia)). rewrite inject_Z_plus, inject_Z_mult in H.
    change (inject_Z 1000000) with (1000000 # 1)%Q in H. lra.
Qed.

Lemma since_nonneg t last : last ≤ t → (0 <= since t last)%Q.
Proof. intros H. unfold since. apply Qmult_le_0_compat; [apply Znonneg_Q; lia|done]. Qed.

Lemma since_add t t' last : (since t' last == since t last + since t' t)%Q.
Proof. unfold since. replace (t' - last) with (t - last + (t' - t)) by lia. rewrite inject_Z_plus. ring. Qed.

(** What a key could spend at [t]: a bucket not there counts as full, one that is
    there as grown, up to a millisecond past the limit. *)
Definition potential (o : option memoryQuotaBucket) (t : Time) : Q :=
  match o with None => L | Some b => Qmin (L + r) (val (q_tokens b) + since t (q_last b) * r) end.

Lemma potential_later o t t' :
  t ≤ t' → (potential o t' <= potential o t + since t' t * r)%Q.
Proof.
  intros Ht. destruct rate_spec as (_ & Hr & _). pose proof (since_nonneg t' t Ht) as H0.
  assert (Hx : (0 <= since t' t * r)%Q) by (apply Qmult_le_0_compat; lra).
  destruct o as [b|]; simpl; [|lra]. assert (E : (since t' (q_last b) * r == since t (q_last b) * r + since t' t * r)%Q) by (rewrite (since_add t t'); ring).
  rewrite E. set (x := (since t (q_last b) * r)%Q) in *. set (y := (since t' t * r)%Q) in *. clearbody x y.
  destruct (Q.min_spec (L + r) (val (q_tokens b) + (x + y))) as [[H1 H2]|[H1 H2]],
    (Q.min_spec (L + r) (val (q_tokens b) + x)) as [[H3 H4]|[H3 H4]]; rewrite H2, H4; lra.
Qed.

Lemma potential_cap o t : (potential o t <= L + r)%Q.
Proof. destruct rate_spec as (_ & Hr & _). destruct o as [b|]; simpl; [apply Q.le_min_l|lra]. Qed.

Lemma Qmult_le_l_nonneg a b c : (0 <= c)%Q → (a <= b)%Q → (c * a <= c * b)%Q.
Proof. intros. rewrite !(Qmult_comm c). by apply Qmult_le_compat_r. Qed.

(** A bucket as it can be at [t]. *)
Definition bucket_ok (b : memoryQuotaBucket) (t : Time) : Prop := balance (q_tokens b) ∧ q_last b ≤ t.

Lemma potential_nonneg o t : (∀ b, o = Some b → bucket_ok b t ∧ 0 ≤ q_last b) → (0 <= potential o t)%Q.
Proof.
  intros Ho. destruct rate_spec as (_ & Hr & _). pose proof limit_bounds as [HL _]. destruct o as [b|]; simpl; [|lra].
  destruct (Ho b eq_refl) as [[[_ Hb] Hl] _]. pose proof (since_nonneg t (q_last b) Hl) as H0.
  assert (H1 : (0 <= since t (q_last b) * r)%Q) by (apply Qmult_le_0_compat; lra). apply Q.min_glb; lra.
Qed.

Lemma ms_le_r now last : last ≤ now → (inject_Z (Milliseconds (timeSub now last)) * r <= since now last * r)%Q.
Proof.
  intros Hl. destruct rate_spec as (_ & Hr & _). destruct (since_ms now last Hl) as (_ & H & _). apply Qmult_le_compat_r; lra.
Qed.

Lemma refilled_potential now b :
  bucket_ok b now → refilled now rate limit b = true → (L <= potential (Some b) now + err)%Q.
Proof.
  intros [Hb Hl] Hf. destruct (since_ms now (q_last b) Hl) as (He & _). pose proof (ms_le_r now _ Hl) as Hg.
  unfold refilled in Hf. set (e := Milliseconds _) in *. destruct (f64_ltb _ _); [done|].
  destruct (grown_rounds _ e _ Hb He (near_exact e He)) as (Hyw & Hy0 & Hy1 & Hy2). destruct limit_exact as [Hlw Hlv]. destruct rate_spec as (_ & Hr & _).
  apply f64_leb_val in Hf; [|done..]. rewrite Hlv in Hf. pose proof limit_bounds as [HL _]. unfold grown in *. simpl. unfold err.
  destruct (Q.min_spec (L + r) (val (q_tokens b) + since now (q_last b) * r)) as [[H1 H2]|[H1 H2]]; rewrite H2; lra.
Qed.

Lemma refill_potential now b :
  bucket_ok b now →
  let b' := refill now rate limit b in
  bucket_ok b' now ∧ (potential (Some b') now <= potential (Some b) now + err)%Q
  ∧ (now - q_last b ≤ max_i64 → val (q_tokens b') + since now (q_last b') * r <= L + r)%Q.
Proof.
  intros [Hb Hl]. cbv zeta. destruct (since_ms now (q_last b) Hl) as (He & _ & Hfr). pose proof (ms_le_r now _ Hl) as Hg.
  unfold refill. set (e := Milliseconds _) in *. pose proof limit_bounds as [HL _]. destruct rate_spec as (_ & Hr & _).
  destruct (Z.ltb_spec 0 e) as [Hpos|Hz].
  - destruct (capped_rounds _ e _ _ _ Hb He (near_exact e He) eq_refl (mathMin_val _ _ (proj1 limit_exact))) as (Hb1 & Hhi & _). unfold bucket_ok, potential. cbn [q_tokens q_last].
    assert (E0 : (since now now * r == 0)%Q) by (unfold since; rewrite Z.sub_diag; apply Qmult_0_l). rewrite E0.
    pose proof (proj2 Hb1) as Hc1. unfold grown in Hhi. set (t1 := mathMin _ _) in *. clearbody t1.
    split; [split; [done|lia]|]. split; [|intros _; lra].
    destruct (Q.min_spec (L + r) (val t1 + 0)) as [[H1 H2]|[H1 H2]]; rewrite H2; [lra|].
    destruct (Q.min_spec (L + r) (val (q_tokens b) + since now (q_last b) * r)) as [[H3 H4]|[H3 H4]]; rewrite H4; unfold err in *; lra.
  - split; [by split|]. split; [unfold err; lra|]. intros Hd. assert (e = 0) as E by lia. rewrite E in Hfr. specialize (Hfr Hd).
    change (inject_Z 0) with 0%Q in Hfr. pose proof (proj2 Hb) as Hbb.
    assert (since now (q_last b) * r <= 1 * r)%Q by (apply Qmult_le_compat_r; lra). lra.
Qed.

(** ** Waiting *)

Lemma rate_share : (L * (1 # 35184372088832) <= r)%Q.
Proof.
  pose proof (window_ms _ _ Hs) as Hw. destruct rate_spec as (_ & _ & _ & Hr & _). pose proof limit_bounds as [HL _].
  assert (Hm0 := Zpos_Q (Milliseconds window) ltac:(lia)). assert (Hm1 := Zle_Q (Milliseconds window) (2 ^ 44) ltac:(lia)).
  change (inject_Z (2 ^ 44)) with (17592186044416 # 1)%Q in Hm1.
  assert (Hv : (L * (1 # 17592186044416) <= perMs limit window)%Q).
  { unfold perMs. apply Qle_shift_div_l; [done|]. fold L. assert (H : (L * inject_Z (Milliseconds window) <= L * (17592186044416 # 1))%Q) by (apply Qmult_le_l_nonneg; lra). lra. }
  lra.
Qed.

(** The wait reported for a deficit restores it, but for rounding. *)
Lemma wait_covers t cost :
  balance t → 1 ≤ cost < 2 ^ 50 → (val t < inject_Z cost)%Q →
  msUntil (f64_sub (f64_of_Z cost) t) rate < maxQuotaWait →
  ∃ z, 0 ≤ z ∧ msUntil (f64_sub (f64_of_Z cost) t) rate = z * Millisecond
       ∧ ((inject_Z cost - val t) * (1 - (1 # 4503599627370496)) - (1 # 1152921504606846976) <= inject_Z z * r)%Q.
Proof.
  intros [Ht Hb] Hc Hlt. destruct (f64_of_Z_exact cost ltac:(lia)) as [Hcw Hcv]. destruct rate_spec as (Hrw & Hr & Hr1 & _). pose proof limit_bounds as [HL1 HL2].
  assert (Hc2 := Zle_Q cost (2 ^ 50) ltac:(lia)). change (inject_Z (2 ^ 50)) with (1125899906842624 # 1)%Q in Hc2.
  assert (HD : rounds (inject_Z cost - val t) (f64_sub (f64_of_Z cost) t)).
  { apply (rounds_ext (val (f64_of_Z cost) - val t)); [by rewrite Hcv|]. apply f64_sub_rounds; try done.
    rewrite Hcv. apply below_range; [lra|]. apply Qle_trans with (1125899906842624 # 1)%Q; [lra|]. by apply (Zle_Q 1125899906842624). }
  destruct (rounds_near _ _ HD ltac:(lra)) as (HD0 & HD1 & HD2). pose proof (rd_wf _ _ HD) as HDw.
  set (D := f64_sub (f64_of_Z cost) t) in *. clearbody D. unfold msUntil.
  destruct (f64_leb D f64_zero) eqn:Ez.
  { intros _. exists 0. apply f64_leb_val in Ez; [|done..]. change (val f64_zero) with 0%Q in Ez. split_and!; [done|done|]. change (inject_Z 0) with 0%Q. lra. }
  apply not_true_iff_false in Ez. rewrite f64_leb_val in Ez by done. change (val f64_zero) with 0%Q in Ez.
  assert (Hmag : (0 < mag rate)%Q) by (pose proof (mag_nonneg rate); revert Hr; unfold r, val; destruct (neg rate); lra).
  assert (Hq0 : (0 <= val D / r)%Q) by (apply Qle_shift_div_l; lra). assert (Hqr : (val D / r * r == val D)%Q) by (field; lra).
  assert (Hq : rounds (val D / r) (f64_div D rate)).
  { apply f64_div_rounds; try done. apply below_range; [done|]. apply Qle_shift_div_r; [done|]. pose proof rate_share as Hsh.
    change (inject_Z (2 ^ 100)) with (1267650600228229401496703205376 # 1)%Q. fold r. lra. }
  destruct (rounds_near _ _ Hq Hq0) as (H0 & H1 & H2). pose proof (rd_wf _ _ Hq) as Hqw. set (q := f64_div D rate) in *. clearbody q.
  destruct (IsInf _ || IsNaN _ || _) eqn:Ecap; [by intros ?%Z.lt_irrefl|]. intros _.
  apply orb_false_iff in Ecap as [_ Egt]. change (Milliseconds maxQuotaWait) with 86400000 in Egt.
  destruct (ceil_up q Hqw H0) as (z & Hcw' & Hcv' & Hle & Hz0 & Hto).
  destruct (f64_of_Z_exact 86400000 ltac:(lia)) as [Hmw Hmv].
  assert (Hz1 : z ≤ 86400000).
  { rewrite Zle_Qle. apply Qnot_lt_le. intros Hgt. rewrite <-Hmv, <-Hcv' in Hgt. apply f64_ltb_val in Hgt; [|done..].
    change (f64_gtb ?a ?b) with (f64_ltb b a) in Egt. congruence. }
  rewrite (Hto Hz1). exists z. split_and!; [done| |].
  - apply i64_id. unfold in_i64, min_i64, max_i64, Millisecond, Microsecond, Nanosecond. lia.
  - assert (Hx : (val q * r <= inject_Z z * r)%Q) by (apply Qmult_le_compat_r; lra).
    assert (Hy : ((val D / r - (val D / r * (1 # 9007199254740992) + (1 # 1329227995784915872903807060280344576))) * r <= val q * r)%Q)
      by (apply Qmult_le_compat_r; lra). lra.
Qed.

(** ** The limiter in memory *)

(** The clock reads times after 1970 that fit 64 bits, until 2262. *)
Definition in_range (t : Time) : Prop := 0 ≤ t ≤ max_i64.

Record sound (l : memoryQuotaLimiter) (t : Time) : Prop := {
  so_limit : q_limit l = limit;
  so_window : q_window l = window;
  so_bucket k b : q_buckets l !! k = Some b → bucket_ok b t ∧ 0 ≤ q_last b;
}.

Lemma sound_later l t t' : t ≤ t' → sound l t → sound l t'.
Proof. intros Ht [H1 H2 H3]. split; try done. intros k b Hk. destruct (H3 k b Hk) as [[Hb Hl] H0]. split; [split; [done|lia]|done]. Qed.

(** What the start of a call does to the other buckets. *)
Definition swept (now : Time) (l : memoryQuotaLimiter) : memoryQuotaLimiter :=
  sweepLocked now rate (if lastSweep l =? zeroTime then mkQLimiter (q_buckets l) (q_limit l) (q_window l) now else l).

Lemma swept_spec now l :
  sound l now →
  sound (swept now l) now
  ∧ ∀ k, q_buckets (swept now l) !! k = q_buckets l !! k
         ∨ q_buckets (swept now l) !! k = None ∧ ∃ b, q_buckets l !! k = Some b ∧ refilled now rate limit b = true.
Proof.
  intros [H1 H2 H3]. unfold swept, sweepLocked. set (l0 := if lastSweep l =? zeroTime then _ else l).
  assert (Hl : q_buckets l0 = q_buckets l ∧ q_limit l0 = limit ∧ q_window l0 = window) by (unfold l0; destruct (_ =? _); by rewrite ?H1, ?H2).
  clearbody l0. destruct Hl as (Hb & Hlim & Hwin). destruct (_ <? _); cbn [q_buckets].
  - split; [split; try done; by rewrite Hb|]. intros k. left. by rewrite Hb.
  - split; [split; try done; cbn [q_buckets]|].
    + intros k b [Hk _]%map_lookup_filter_Some. rewrite Hb in Hk. by apply H3 in Hk.
    + intros k. rewrite Hb, Hlim. destruct (q_buckets l !! k) as [b|] eqn:Ek.
      * destruct (refilled now rate limit b) eqn:Er; [right|left]; [split; [|by exists b]|].
        -- apply map_lookup_filter_None. right. intros b' Hb' Hf. simpl in Hf. congruence.
        -- by apply map_lookup_filter_Some.
      * left. apply map_lookup_filter_None. by left.
Qed.

Lemma swept_potential now l k :
  sound l now → (potential (q_buckets (swept now l) !! k) now <= potential (q_buckets l !! k) now + err)%Q.
Proof.
  intros Hl. destruct (swept_spec now l Hl) as [_ Hk]. pose proof err_nonneg.
  destruct (Hk k) as [-> | (-> & b & Eb & Hr)]; [lra|]. rewrite Eb. apply refilled_potential; [|done]. by apply (so_bucket _ _ Hl k).
Qed.

(** The bucket a call finds, refilled. *)
Definition found_bucket (now : Time) (key : string) (l : memoryQuotaLimiter) : memoryQuotaBucket :=
  refill now rate limit (default (mkQBucket (f64_of_Z limit) now) (q_buckets (swept now l) !! key)).

Lemma full_bucket now : balance (f64_of_Z limit) ∧ (potential (Some (mkQBucket (f64_of_Z limit) now)) now == L)%Q.
Proof.
  destruct limit_exact as [Hw Hv]. pose proof limit_bounds as [HL _]. destruct rate_spec as (_ & Hr & _).
  split; [split; [done|]; rewrite Hv; lra|]. simpl. rewrite Hv. assert (E : (since now now == 0)%Q) by (unfold since; by rewrite Z.sub_diag).
  rewrite E. assert (E2 : (L + 0 * r == L)%Q) by ring. rewrite E2. apply Q.min_r. lra.
Qed.

Lemma found_spec now key l :
  sound l now → in_range now →
  let b := found_bucket now key l in
  bucket_ok b now ∧ 0 ≤ q_last b ∧ (potential (Some b) now <= potential (q_buckets l !! key) now + 2 * err)%Q
  ∧ (val (q_tokens b) + since now (q_last b) * r <= L + r)%Q.
Proof.
  intros Hl [Hn0 Hn]. cbv zeta. unfold found_bucket. pose proof (swept_potential now l key Hl) as Hp.
  destruct (swept_spec now l Hl) as [Hsw _]. set (b0 := default _ _).
  assert (Hb0 : bucket_ok b0 now ∧ 0 ≤ q_last b0 ∧ (potential (Some b0) now <= potential (q_buckets l !! key) now + err)%Q).
  { unfold b0. destruct (q_buckets (swept now l) !! key) as [b|] eqn:Eb; simpl default.
    - destruct (so_bucket _ _ Hsw _ _ Eb). by split_and!.
    - destruct (full_bucket now) as [Hf Hv]. split_and!; [by split|done|]. rewrite Hv. apply Hp. }
  clearbody b0. destruct Hb0 as (Hb & H0 & Hpot). destruct (refill_potential now b0 Hb) as (H1 & H2 & H3).
  split_and!; [done| | |apply H3; lia].
  - unfold refill. by destruct (_ <? _).
  - lra.
Qed.

Lemma allow_eq now key cost l d l' :
  sound l now → memAllowN now key cost l = (d, l') →
  let b := found_bucket now key l in
  ∃ t, l' = mkQLimiter (<[key := mkQBucket t (q_last b)]> (q_buckets (swept now l))) limit window (lastSweep (swept now l))
       ∧ Allowed d = f64_geb (q_tokens b) (f64_of_Z cost)
       ∧ t = (if Allowed d then f64_sub (q_tokens b) (f64_of_Z cost) else q_tokens b)
       ∧ RetryAfter d = (if Allowed d then 0 else msUntil (f64_sub (f64_of_Z cost) t) rate).
Proof.
  intros Hl E. destruct (swept_spec now l Hl) as [Hsw _]. unfold memAllowN in E. rewrite (so_limit _ _ Hl), (so_window _ _ Hl) in E.
  replace (if lastSweep l =? zeroTime then mkQLimiter (q_buckets l) limit window now else l)
    with (if lastSweep l =? zeroTime then mkQLimiter (q_buckets l) (q_limit l) (q_window l) now else l) in E
    by (by rewrite (so_limit _ _ Hl), (so_window _ _ Hl)).
  change (sweepLocked now (refillRate limit window) _) with (swept now l) in E.
  rewrite (so_limit _ _ Hsw), (so_window _ _ Hsw) in E. change (refillRate limit window) with rate in E.
  change (refill now rate limit _) with (found_bucket now key l) in E. injection E as <- <-. by eexists.
Qed.

Lemma allow_spec now key cost l d l' :
  sound l now → in_range now → 1 ≤ cost < 2 ^ 50 → memAllowN now key cost l = (d, l') →
  sound l' now
  ∧ ∀ k, (potential (q_buckets l' !! k) now + (if bool_decide (k = key) && Allowed d then inject_Z cost else 0)
          <= potential (q_buckets l !! k) now + 3 * err)%Q.
Proof.
  intros Hl Hn Hc E. destruct (found_spec now key l Hl Hn) as (Hb & H0 & Hp & Hcap).
  destruct (swept_spec now l Hl) as [Hsw _]. pose proof (swept_potential now l) as Hsp. pose proof err_nonneg as Herr.
  destruct (allow_eq now key cost l d l' Hl E) as (t & -> & Ha & Et & _).
  clear E. set (b := found_bucket now key l) in *. clearbody b.
  destruct Hb as [Hbal Hlast]. destruct (charge_rounds _ cost Hbal Hc) as [Hge Hch]. rewrite <-Ha in Hge.
  assert (Ht : balance t ∧ (val t + (if Allowed d then inject_Z cost else 0) <= val (q_tokens b) + err)%Q).
  { destruct (Allowed d); subst t; [|split; [done|lra]]. destruct (Hch (proj1 Hge eq_refl)) as (H1 & H2 & _). split; [done|lra]. }
  clear Et Hch Hge. split.
  - split; try done. cbn [q_buckets]. intros k b' [[<- <-]|[Hne Hk]]%lookup_insert_Some; [split; [split; [by apply Ht|done]|done]|]. by apply (so_bucket _ _ Hsw k).
  - intros k. cbn [q_buckets]. destruct (bool_decide_reflect (k = key)) as [->|Hne]; cbn [andb].
    + rewrite lookup_insert_eq. destruct Ht as [_ Ht]. simpl in *. set (x := (since now (q_last b) * r)%Q) in *.
      destruct (Q.min_spec (L + r) (val t + x)) as [[H1 H2]|[H1 H2]]; rewrite H2;
      destruct (Q.min_spec (L + r) (val (q_tokens b) + x)) as [[H3 H4]|[H3 H4]]; rewrite H4 in Hp; destruct (Allowed d); lra.
    + rewrite lookup_insert_ne by done. specialize (Hsp k Hl). lra.
Qed.

(** ** Histories *)

(** Calls one after the other, as the mutex has them: when, for which key, at which
    cost, and whether admitted. *)
Inductive quota_calls : Time → memoryQuotaLimiter → list (Time * string * Z * bool) → Time → memoryQuotaLimiter → Prop :=
| quota_done t l : quota_calls t l [] t l
| quota_call t l now key cost d l1 cs t' l' :
    t ≤ now → in_range now → 1 ≤ cost < 2 ^ 50 → memAllowN now key cost l = (d, l1) →
    quota_calls now l1 cs t' l' → quota_calls t l ((now, key, cost, Allowed d) :: cs) t' l'.

(** The work admitted for a key. *)
Fixpoint spent (k : string) (cs : list (Time * string * Z * bool)) : Z :=
  match cs with
  | [] => 0
  | (_, key, cost, allowed) :: cs => (if bool_decide (k = key) && allowed then cost else 0) + spent k cs
  end.

Lemma calls_potential t l cs t' l' k :
  quota_calls t l cs t' l' → sound l t →
  sound l' t' ∧ t ≤ t'
  ∧ (potential (q_buckets l' !! k) t' + inject_Z (spent k cs)
     <= potential (q_buckets l !! k) t + since t' t * r + inject_Z (Z.of_nat (length cs)) * (3 * err))%Q.
Proof.
  induction 1 as [t l|t l now key cost d l1 cs t' l' Ht Hn Hc E Hcs IH]; intros Hl.
  - split_and!; [done..|]. cbn [spent length]. unfold since. rewrite Z.sub_diag. change (inject_Z (Z.of_nat 0)) with 0%Q. change (inject_Z 0) with 0%Q.
    rewrite !Qmult_0_l. lra.
  - destruct (allow_spec now key cost l d l1 (sound_later l t now Ht Hl) Hn Hc E) as [Hl1 Hp]. destruct (IH Hl1) as (Hl' & Ht' & Hpot).
    specialize (Hp k). pose proof (potential_later (q_buckets l !! k) t now Ht) as Hlat. split_and!; [done|lia|].
    cbn [spent length]. rewrite Nat2Z.inj_succ, inject_Z_plus. unfold Z.succ. rewrite inject_Z_plus. change (inject_Z 1) with 1%Q.
    assert (Es : (since t' t * r == since now t * r + since t' now * r)%Q) by (rewrite (since_add now t' t); ring). rewrite Es.
    destruct (bool_decide (k = key) && Allowed d); change (inject_Z 0) with 0%Q in *; lra.
Qed.

(** A bucket left alone is as it was, or forgotten. *)
Lemma calls_elsewhere t l cs t' l' k :
  quota_calls t l cs t' l' → sound l t → Forall (λ c, c.1.1.2 ≠ k) cs →
  sound l' t' ∧ t ≤ t' ∧ (q_buckets l' !! k = q_buckets l !! k ∨ q_buckets l' !! k = None).
Proof.
  induction 1 as [t l|t l now key cost d l1 cs t' l' Ht Hn Hc E Hcs IH]; intros Hl Hk; [split_and!; [done..|by left]|].
  apply Forall_cons in Hk as [Hk Hks]. simpl in Hk. pose proof (sound_later l t now Ht Hl) as Hl0.
  destruct (allow_spec now key cost l d l1 Hl0 Hn Hc E) as [Hl1 _]. destruct (IH Hl1 Hks) as (Hl' & Ht' & Hb).
  destruct (allow_eq now key cost l d l1 Hl0 E) as (t1 & -> & _). cbn [q_buckets] in Hb. rewrite lookup_insert_ne in Hb by done.
  split_and!; [done|lia|]. destruct (swept_spec now l Hl0) as [_ Hs1]. destruct (Hs1 k) as [<-|[Hnone _]]; [done|].
  right. destruct Hb as [-> | ->]; done.
Qed.

(** After the wait and a millisecond the balance covers the cost. *)
Lemma waited_enough t cost z e :
  balance t → 1 ≤ cost ≤ limit → (val t < inject_Z cost)%Q → 0 ≤ z → z + 1 ≤ e < 2 ^ 44 →
  ((inject_Z cost - val t) * (1 - (1 # 4503599627370496)) - (1 # 1152921504606846976) <= inject_Z z * r)%Q →
  f64_geb (mathMin (f64_of_Z limit) (f64_add t (f64_mul (f64_of_Z e) rate))) (f64_of_Z cost) = true.
Proof.
  intros Ht Hc Hlt Hz He Hzr. pose proof limit_bounds as [HL1 HL2]. destruct rate_spec as (_ & Hr & _). pose proof rate_share as Hsh.
  destruct (capped_rounds t e _ _ _ Ht ltac:(lia) (near_exact e ltac:(lia)) eq_refl (mathMin_val _ _ (proj1 limit_exact))) as (Hb1 & _). destruct (grown_rounds t e _ Ht ltac:(lia) (near_exact e ltac:(lia))) as (Hyw & _ & Hlo & _).
  destruct limit_exact as [Hlw Hlv]. destruct (mathMin_val _ _ Hlw Hyw) as [_ Hv]. rewrite Hlv in Hv.
  assert (Hc50 : 1 ≤ cost < 2 ^ 50) by (destruct Hs as [Hl _]; lia). destruct (charge_rounds _ cost Hb1 Hc50) as [Hge _]. apply Hge.
  rewrite Hv. assert (Hcl := Zle_Q cost limit ltac:(lia)). fold L in Hcl. apply Q.min_glb; [done|].
  assert (He' := Zle_Q (z + 1) e ltac:(lia)). rewrite inject_Z_plus in He'. change (inject_Z 1) with 1%Q in He'.
  assert (Her : ((inject_Z z + 1) * r <= inject_Z e * r)%Q) by (apply Qmult_le_compat_r; lra). unfold grown in Hlo.
  pose proof (proj2 Ht) as Htb. lra.
Qed.

Lemma refused_then_admitted now cost l d l1 cs t' l' now' d' l2 key :
  sound l now → in_range now → 1 ≤ cost ≤ limit →
  memAllowN now key cost l = (d, l1) → Allowed d = false → RetryAfter d < maxQuotaWait →
  quota_calls now l1 cs t' l' → Forall (λ c, c.1.1.2 ≠ key) cs →
  t' ≤ now' → in_range now' → now + RetryAfter d + Millisecond ≤ now' → memAllowN now' key cost l' = (d', l2) → Allowed d' = true.
Proof.
  intros Hl Hn Hc E Ha Hw Hcs Hk Ht' Hn' Hlate E'. assert (Hc50 : 1 ≤ cost < 2 ^ 50) by (destruct Hs as [Hlim _]; lia).
  destruct (allow_spec now key cost l d l1 Hl Hn Hc50 E) as [Hl1 _]. destruct (found_spec now key l Hl Hn) as ([Hbal Hlast] & H0 & _).
  destruct (allow_eq now key cost l d l1 Hl E) as (t & El1 & Had & Et & Er). rewrite Ha in Et, Er, Had. subst t.
  set (b := found_bucket now key l) in *. clearbody b. destruct (charge_rounds _ cost Hbal Hc50) as [Hge _].
  assert (Hlt : (val (q_tokens b) < inject_Z cost)%Q) by (apply Qnot_le_lt; intros Hle; apply Hge in Hle; congruence).
  rewrite Er in Hw, Hlate. destruct (wait_covers _ cost Hbal Hc50 Hlt Hw) as (z & Hz & Ew & Hzr). rewrite Ew in Hlate. clear E Er Hw Hge.
  destruct (calls_elsewhere _ _ _ _ _ key Hcs Hl1 Hk) as (Hl' & Htt & Hb). rewrite El1 in Hb. cbn [q_buckets] in Hb. rewrite lookup_insert_eq in Hb.
  pose proof (sound_later l' t' now' Ht' Hl') as Hl2. destruct (allow_eq now' key cost l' d' l2 Hl2 E') as (t2 & _ & -> & _). clear E'.
  assert (Hfull : f64_geb (q_tokens (refill now' rate limit (mkQBucket (f64_of_Z limit) now'))) (f64_of_Z cost) = true).
  { unfold refill. cbn [q_last]. unfold timeSub. rewrite Z.sub_diag. change (0 <? Milliseconds (sat64 0)) with false. cbn [q_tokens].
    apply f64_leb_val; [by apply f64_of_Z_exact; lia|by apply limit_exact|]. destruct (f64_of_Z_exact cost ltac:(lia)) as [_ ->].
    destruct limit_exact as [_ ->]. apply Zle_Q. lia. }
  unfold found_bucket. destruct (swept_spec now' l' Hl2) as [_ Hsw]. destruct (Hsw key) as [-> | [-> _]]; [|exact Hfull].
  destruct Hb as [-> | ->]; [|exact Hfull]. simpl default. unfold refill. cbn [q_last q_tokens].
  assert (He : z + 1 ≤ Milliseconds (timeSub now' (q_last b)) < 2 ^ 44).
  { split; [|by apply since_ms; lia]. unfold timeSub, Milliseconds. destruct Hn' as [_ Hn']. rewrite sat64_id by (unfold in_i64, min_i64, max_i64 in *; lia).
    unfold Millisecond, Microsecond, Nanosecond in *. rewrite Z.quot_div_nonneg by lia. apply Z.div_le_lower_bound; lia. }
  rewrite (proj2 (Z.ltb_lt _ _)) by lia. by apply (waited_enough _ _ z).
Qed.

Lemma fresh_sound t : sound (newMemoryQuotaLimiter limit window) t.
Proof. split; try done. Qed.
End Bucket.

(** C28: However a caller spreads its requests, the work admitted for it in any part
    of a history of the limiter in memory is at most the limit and what the rate
    restores in that time and a millisecond more, up to the rounding of doubles. *)
Theorem quota_bounds_work limit window t0 cs0 t l cs t' l' k :
  servable limit window → quota_calls t0 (newMemoryQuotaLimiter limit window) cs0 t l → quota_calls t l cs t' l' →
  (inject_Z (spent k cs) <= inject_Z limit + perMs limit window * (1 + p2 (-52)) * (since t' t + 1)
                            + inject_Z (Z.of_nat (length cs)) * ((inject_Z limit + 1) * p2 (-49)))%Q.
Proof.
  intros Hs H0 Hcs. destruct (calls_potential limit window Hs _ _ _ _ _ k H0 (fresh_sound _ _ _)) as (Hl & _ & _).
  destruct (calls_potential limit window Hs _ _ _ _ _ k Hcs Hl) as (Hl' & Ht & Hp).
  pose proof (potential_cap limit window Hs (q_buckets l !! k) t) as Hcap. destruct (rate_spec limit window Hs) as (_ & Hr & _ & _ & Hr2).
  pose proof (potential_nonneg limit window Hs (q_buckets l' !! k) t') as Hnn. pose proof (limit_bounds limit window Hs) as [HL _].
  pose proof (since_nonneg t' t Ht) as Hsn. change (p2 (-52)) with (1 # 4503599627370496)%Q. change (p2 (-49)) with (1 # 562949953421312)%Q.
  specialize (Hnn (λ b Hb, so_bucket limit window _ _ Hl' k b Hb)). unfold err in Hp. fold (L limit).
  set (x := since t' t) in *. set (ρ := r limit window) in *. set (v := perMs limit window) in *. set (n := inject_Z (Z.of_nat (length cs))) in *.
  assert (Hn : (0 <= n)%Q) by (apply Znonneg_Q; lia). clearbody x ρ v n.
  assert (H1 : (ρ * (x + 1) <= v * (1 + (1 # 4503599627370496)) * (x + 1))%Q) by (apply Qmult_le_compat_r; lra).
  assert (H2 : (n * (3 * ((L limit + 1) * (1 # 2251799813685248))) <= n * ((L limit + 1) * (1 # 562949953421312)))%Q) by (apply Qmult_le_l_nonneg; lra).
  lra.
Qed.

(** C29: A caller that was refused and waits for the time it was told and a
    millisecond is admitted, whatever others do meanwhile, as long as the cost fits
    the limit and the time told is below the clamp of a day. *)
Theorem quota_wait_is_enough limit window t0 cs0 t l now key cost d l1 cs t' l' now' d' l2 :
  servable limit window → quota_calls t0 (newMemoryQuotaLimiter limit window) cs0 t l →
  t ≤ now → in_range now → 1 ≤ cost ≤ limit → memAllowN now key cost l = (d, l1) →
  Allowed d = false → RetryAfter d < maxQuotaWait →
  quota_calls now l1 cs t' l' → Forall (λ c, c.1.1.2 ≠ key) cs →
  t' ≤ now' → in_range now' → now + RetryAfter d + Millisecond ≤ now' → memAllowN now' key cost l' = (d', l2) →
  Allowed d' = true.
Proof.
  intros Hs H0 Ht. destruct (calls_potential limit window Hs _ _ _ _ _ key H0 (fresh_sound _ _ _)) as (Hl & _ & _).
  apply (refused_then_admitted limit window Hs). by apply (sound_later limit window l t).
Qed.
