(* ===== verification/QuotaRedis.v ===== *)
(** The quota in Redis ([Quota.quotaScript]) under any number of instances whose
    clocks disagree: what a caller is admitted to altogether. *)

From Stdlib Require Import SpecFloat QArith Qabs Qminmax Lqa.
From S2P Require Import Prelude GoStrings RedisKeys Float64 Limiter Quota QuotaRuns.
Open Scope Z_scope.
Open Scope go_scope.

(** Lua 5.1 writes a number with fourteen significant digits: integers below 10^14
    come back as they were, any other balance up to that precision, and never
    across such an integer. *)
Class LuaLaws `{LuaNumbers} : Prop := {
  lua_integer n : 0 ≤ n < 10 ^ 14 → tonumber (tostring (f64_of_Z n)) = Some (f64_of_Z n);
  lua_balance x : wf x → (0 <= val x)%Q → ∃ y, tonumber (tostring x) = Some y ∧ wf y ∧ (0 <= val y)%Q
    ∧ (val y <= val x * (1 + (1 # 10000000000000)))%Q
    ∧ ∀ n, 0 ≤ n < 10 ^ 14 → (val x <= inject_Z n → val y <= inject_Z n)%Q;
}.

Lemma luaMin_val x y : wf x → wf y → wf (luaMin x y) ∧ (val (luaMin x y) == Qmin (val x) (val y))%Q.
Proof.
  intros Hx Hy. unfold luaMin. pose proof (f64_ltb_val y x Hy Hx) as Hl. destruct (f64_ltb y x).
  - split; [done|]. symmetry. apply Q.min_r. apply Qlt_le_weak. by apply Hl.
  - split; [done|]. symmetry. apply Q.min_l. apply Qnot_lt_le. intros H. by apply Hl in H.
Qed.

(** The difference of two times in milliseconds, as the script computes it. *)
Definition luaElapsed (now ts : float64) : float64 := let e := f64_sub now ts in if f64_ltb e f64_zero then f64_zero else e.

Lemma rounds_neg v y : rounds v y → (v < 0)%Q → (- v <= inject_Z (2 ^ 50))%Q → (v <= - (1))%Q → f64_ltb y f64_zero = true.
Proof.
  intros [H1 H2 H3 H4] Hv Hb Hv1. apply f64_ltb_val; [done..|]. change (val f64_zero) with 0%Q.
  pose proof (ulp_err_le (Qabs v)) as Hu. assert (Ha : (Qabs v == - v)%Q) by (apply Qabs_neg; lra). 
  change (inject_Z (2 ^ 50)) with (1125899906842624 # 1)%Q in Hb. lra.
Qed.

Lemma elapsed_near now ts :
  0 ≤ now < 2 ^ 44 → 0 ≤ ts < 2 ^ 44 → near (Z.max 0 (now - ts)) (luaElapsed (f64_of_Z now) (f64_of_Z ts)).
Proof.
  intros Hn Ht. destruct (f64_of_Z_exact now ltac:(lia)) as [Hnw Hnv]. destruct (f64_of_Z_exact ts ltac:(lia)) as [Htw Htv].
  assert (Hd1 := Zle_Q (now - ts) (2 ^ 44) ltac:(lia)). assert (Hd2 := Zle_Q (- (2 ^ 44)) (now - ts) ltac:(lia)).
  change (inject_Z (2 ^ 44)) with (17592186044416 # 1)%Q in *. change (inject_Z (- 2 ^ 44)) with (- (17592186044416 # 1))%Q in *.
  assert (Hr : rounds (inject_Z (now - ts)) (f64_sub (f64_of_Z now) (f64_of_Z ts))).
  { assert (E : (val (f64_of_Z now) - val (f64_of_Z ts) == inject_Z (now - ts))%Q) by (rewrite Hnv, Htv; unfold Z.sub; rewrite inject_Z_plus, inject_Z_opp; reflexivity).
    apply (rounds_ext _ _ _ E), f64_sub_rounds; try done. rewrite E. apply Qabs_case; intros; (apply Qle_trans with (17592186044416 # 1)%Q; [lra|]);
      (apply Qle_trans with (inject_Z (2 ^ 44)); [done|rewrite <-p2_Z by done; apply p2_le; lia]). }
  unfold luaElapsed. destruct (Z.le_gt_cases 0 (now - ts)) as [H0|H0].
  - rewrite Z.max_r by done. assert (H0' := Znonneg_Q _ H0). destruct (rounds_near _ _ Hr H0') as (H1 & H2 & H3). pose proof (rd_wf _ _ Hr).
    assert (f64_ltb (f64_sub (f64_of_Z now) (f64_of_Z ts)) f64_zero = false) as ->.
    { apply not_true_iff_false. rewrite f64_ltb_val by done. change (val f64_zero) with 0%Q. lra. }
    by split_and!.
  - rewrite Z.max_l by lia. assert (H1 := Zle_Q (now - ts) (-1) ltac:(lia)). change (inject_Z (-1)) with (- (1))%Q in H1.
    rewrite (rounds_neg _ _ Hr) by (try done; change (inject_Z (2 ^ 50)) with (1125899906842624 # 1)%Q; lra).
    split_and!; try done; change (val f64_zero) with 0%Q; change (inject_Z 0) with 0%Q; lra.
Qed.

Section Redis.
Context {R : Type} `{RH : RedisHashes R} `{RHL : !RedisHashesLaws R} `{LN : LuaNumbers} `{LNL : !LuaLaws} (l : redisQuotaLimiter) (key : string) (skew : Duration).

(** Clocks of instances are off the clock of Redis by at most [skew], which is less
    than a quarter of a window; the limit has at most fourteen digits. *)
Record deployed : Prop := {
  dp_servable : servable (rq_limit l) (rq_window l);
  dp_digits : rq_limit l < 10 ^ 14;
  dp_ttl : rq_window l < 2 ^ 62;
  dp_skew : 0 ≤ skew;
  dp_window : 4 * skew + 3 * Millisecond ≤ Milliseconds (rq_window l) * Millisecond;
}.
Context (Hd : deployed).

Abbreviation lim := (rq_limit l).
Abbreviation win := (rq_window l).
Abbreviation rr := (r lim win).
Abbreviation LL := (L lim).
Let Hs : servable lim win := dp_servable Hd.

Definition toMs (t : Time) : Z := t / Millisecond.
Definition ttl : Z := Milliseconds (win *w quotaKeyTTLFactor).
Definition slackMs : Z := 2 * skew / Millisecond + 1.

Lemma ttl_two : 2 * Milliseconds win ≤ ttl ∧ 0 < ttl.
Proof.
  destruct Hs as [_ Hw]. pose proof (dp_ttl Hd). unfold ttl, quotaKeyTTLFactor, Milliseconds. unfold Millisecond, Microsecond, Nanosecond, max_i64 in *.
  rewrite i64_id by (unfold in_i64, min_i64, max_i64; lia). rewrite !Z.quot_div_nonneg by lia.
  pose proof (Z.div_mod win (1000 * (1000 * 1)) ltac:(lia)). pose proof (Z.mod_pos_bound win (1000 * (1000 * 1)) ltac:(lia)).
  assert (win / (1000 * (1000 * 1)) * 2 ≤ win * 2 / (1000 * (1000 * 1))) by (apply Z.div_le_lower_bound; lia).
  assert (1 ≤ win / (1000 * (1000 * 1))) by (apply Z.div_le_lower_bound; lia). lia.
Qed.

Lemma toMs_bounds t : toMs t * Millisecond ≤ t < (toMs t + 1) * Millisecond.
Proof.
  unfold toMs, Millisecond, Microsecond, Nanosecond. pose proof (Z.div_mod t (1000 * (1000 * 1)) ltac:(lia)).
  pose proof (Z.mod_pos_bound t (1000 * (1000 * 1)) ltac:(lia)). lia.
Qed.

Lemma toMs_range t : in_range t → 0 ≤ toMs t < 2 ^ 44.
Proof.
  intros [Ht0 Ht1]. pose proof (toMs_bounds t) as Hb. unfold max_i64, Millisecond, Microsecond, Nanosecond in *. lia.
Qed.

(** What the hash of the key holds, the latest reading of a clock being [T]. *)
Inductive kept (T : Z) : option ((string * string) * option Time) → Prop :=
| kept_none : kept T None
| kept_some t ts y b d :
    tonumber t = Some y → tonumber ts = Some (f64_of_Z b) → balance lim y → 0 ≤ b ≤ T → b < 2 ^ 44 →
    (b + ttl) * Millisecond ≤ d + skew → kept T (Some ((t, ts), Some d)).

(** What the key could spend. *)
Definition pot (T : Z) (v : option ((string * string) * option Time)) : Q :=
  match v with
  | None => LL + inject_Z slackMs * rr
  | Some ((t, ts), _) =>
      match tonumber t, tonumber ts with
      | Some y, Some z => Qmin (LL + inject_Z slackMs * rr) (val y + inject_Z (T - f64_trunc z) * rr)
      | _, _ => LL
      end
  end.

Lemma trunc_int b : 0 ≤ b < 2 ^ 44 → f64_trunc (f64_of_Z b) = b.
Proof. intros Hb. destruct (f64_of_Z_exact b ltac:(lia)). by apply trunc_integral. Qed.

Lemma pot_some T t ts y b d :
  tonumber t = Some y → tonumber ts = Some (f64_of_Z b) → 0 ≤ b < 2 ^ 44 →
  pot T (Some ((t, ts), d)) = Qmin (LL + inject_Z slackMs * rr) (val y + inject_Z (T - b) * rr).
Proof. intros Hy Hb Hr. simpl. by rewrite Hy, Hb, trunc_int. Qed.

Lemma slack_nonneg : (0 <= inject_Z slackMs * rr)%Q.
Proof.
  destruct (rate_spec lim win Hs) as (_ & Hr & _). apply Qmult_le_0_compat; [|lra]. apply Znonneg_Q. unfold slackMs.
  pose proof (dp_skew Hd). assert (0 ≤ 2 * skew / Millisecond) by (apply Z.div_pos; unfold Millisecond, Microsecond, Nanosecond; lia). lia.
Qed.

Lemma pot_bounds T v : kept T v → (0 <= pot T v)%Q ∧ (pot T v <= LL + inject_Z slackMs * rr)%Q.
Proof.
  pose proof slack_nonneg. destruct (limit_bounds lim win Hs) as [HL _]. destruct (rate_spec lim win Hs) as (_ & Hr & _).
  intros [|t ts y b d Hy Hb [_ Hbal] HbT Hb44 _]; [simpl; split; lra|]. rewrite (pot_some T t ts y b (Some d) Hy Hb) by lia.
  split; [|apply Q.le_min_l]. assert (0 <= inject_Z (T - b) * rr)%Q by (apply Qmult_le_0_compat; [apply Znonneg_Q; lia|lra]).
  apply Q.min_glb; lra.
Qed.

(** A later reading. *)
Lemma pot_later T T' v : kept T v → T ≤ T' → kept T' v ∧ (pot T' v <= pot T v + inject_Z (T' - T) * rr)%Q.
Proof.
  intros Hk HT. destruct (rate_spec lim win Hs) as (_ & Hr & _).
  assert (Hx : (0 <= inject_Z (T' - T) * rr)%Q) by (apply Qmult_le_0_compat; [apply Znonneg_Q; lia|lra]).
  destruct Hk as [|t ts y b d Hy Hb Hbal HbT Hb44 Hexp]; [split; [constructor|simpl; lra]|].
  split; [econstructor; [done..|lia|lia|done]|]. rewrite !(pot_some _ t ts y b (Some d) Hy Hb) by lia.
  assert (E : (inject_Z (T' - b) * rr == inject_Z (T - b) * rr + inject_Z (T' - T) * rr)%Q).
  { replace (T' - b) with ((T - b) + (T' - T)) by lia. rewrite inject_Z_plus. ring. }
  rewrite E. destruct (Q.min_spec (LL + inject_Z slackMs * rr) (val y + (inject_Z (T - b) * rr + inject_Z (T' - T) * rr))) as [[H1 H2]|[H1 H2]],
    (Q.min_spec (LL + inject_Z slackMs * rr) (val y + inject_Z (T - b) * rr)) as [[H3 H4]|[H3 H4]]; rewrite H2, H4; lra.
Qed.

(** A hash expires only once it is full again. *)
Lemma pot_expired T v at_ now :
  kept T v → toMs now ≤ T → at_ ≤ now + skew →
  kept T (unexpired at_ v) ∧ (pot T (unexpired at_ v) <= pot T v + err lim)%Q.
Proof.
  intros Hk HT Hat. pose proof (err_nonneg lim win Hs) as Herr. destruct Hk as [|t ts y b d Hy Hb Hbal HbT Hb44 Hexp]; [split; [constructor|simpl; lra]|].
  cbn [unexpired]. destruct (Z.leb_spec at_ d) as [Hle|Hgt]; [split; [by econstructor|lra]|].
  split; [constructor|]. rewrite (pot_some T t ts y b (Some d) Hy Hb) by lia. destruct ttl_two as [Httl _]. pose proof (dp_window Hd) as Hwin.
  pose proof (toMs_bounds now) as Hnow. assert (HW : Milliseconds win + slackMs ≤ T - b).
  { unfold slackMs. pose proof (Z.div_mod (2 * skew) Millisecond ltac:(done)). pose proof (Z.mod_pos_bound (2 * skew) Millisecond ltac:(done)).
    unfold Millisecond, Microsecond, Nanosecond in *. lia. }
  destruct (rate_spec lim win Hs) as (_ & Hr & _ & Hr1 & _). destruct (limit_bounds lim win Hs) as [HL _]. pose proof (window_ms _ _ Hs) as Hw.
  assert (HWr : ((inject_Z (Milliseconds win) + inject_Z slackMs) * rr <= inject_Z (T - b) * rr)%Q).
  { apply Qmult_le_compat_r; [|lra]. rewrite <-inject_Z_plus. by apply Zle_Q. }
  assert (Hw0 := Zpos_Q (Milliseconds win) ltac:(lia)).
  assert (HW1 : (inject_Z (Milliseconds win) * (perMs lim win * (1 - (1 # 4503599627370496))) <= inject_Z (Milliseconds win) * rr)%Q) by (apply Qmult_le_l_nonneg; [lra|done]).
  assert (E : (inject_Z (Milliseconds win) * (perMs lim win * (1 - (1 # 4503599627370496))) == LL * (1 - (1 # 4503599627370496)))%Q) by (unfold perMs, L; field; lra).
  rewrite E in HW1. pose proof (proj2 Hbal) as Hy0. pose proof slack_nonneg. simpl. unfold err in *.
  assert (LL + inject_Z slackMs * rr - (LL + 1) * (1 # 2251799813685248) <= Qmin (LL + inject_Z slackMs * rr) (val y + inject_Z (T - b) * rr))%Q; [apply Q.min_glb; lra|lra].
Qed.

(** The time since the kept one, seen from the latest reading. *)
Lemma base_spec now b : 0 ≤ now < 2 ^ 44 → 0 ≤ b < 2 ^ 44 →
  (if f64_gtb (f64_of_Z b) (f64_of_Z now) then f64_of_Z b else f64_of_Z now) = f64_of_Z (Z.max b now).
Proof.
  intros Hn Hb. destruct (f64_of_Z_exact now ltac:(lia)) as [Hnw Hnv]. destruct (f64_of_Z_exact b ltac:(lia)) as [Hbw Hbv].
  change (f64_gtb (f64_of_Z b) (f64_of_Z now)) with (f64_ltb (f64_of_Z now) (f64_of_Z b)).
  destruct (f64_ltb _ _) eqn:E.
  - apply f64_ltb_val in E; [|done..]. rewrite Hnv, Hbv, <-Zlt_Qlt in E. f_equal. lia.
  - apply not_true_iff_false in E. rewrite f64_ltb_val, Hnv, Hbv, <-Zlt_Qlt in E by done. f_equal. lia.
Qed.

(** One charge, as potentials: [y] and [b] are what the script starts from. *)
Lemma charge_potential T now cost y b :
  balance lim y → 0 ≤ b ≤ T → T < 2 ^ 44 → 0 ≤ toMs now ≤ T → T - toMs now ≤ slackMs → 1 ≤ cost < 2 ^ 50 →
  let '((allowed, _, _, _), (y', base)) := scriptCharge (quotaArgs l now cost) y (f64_of_Z b) in
  base = f64_of_Z (Z.max b (toMs now)) ∧ balance lim y'
  ∧ (val y' + inject_Z (T - Z.max b (toMs now)) * rr + (if allowed =? 1 then inject_Z cost else 0)
     <= Qmin (LL + inject_Z slackMs * rr) (val y + inject_Z (T - b) * rr) + 2 * err lim)%Q.
Proof.
  intros Hy Hb HT Hn Hslack Hc. unfold scriptCharge. cbn [a_capacity a_refillPerMs a_now a_cost quotaArgs]. change (now / Millisecond) with (toMs now).
  change (refillRate lim win) with (rate lim win). rewrite base_spec by lia. change (let e := f64_sub _ _ in if f64_ltb e f64_zero then f64_zero else e)
    with (luaElapsed (f64_of_Z (toMs now)) (f64_of_Z b)).
  pose proof (elapsed_near (toMs now) b ltac:(lia) ltac:(lia)) as Hel. set (e := Z.max 0 (toMs now - b)) in *.
  destruct (limit_exact lim win Hs) as [Hlw _].
  destruct (capped_rounds lim win Hs y e _ _ (luaMin (f64_of_Z lim) (f64_add y (f64_mul (luaElapsed (f64_of_Z (toMs now)) (f64_of_Z b)) (rate lim win)))) Hy ltac:(lia) Hel eq_refl) as (Hb1 & Hhi & _).
  { intros Hyw. by apply luaMin_val. }
  set (t1 := luaMin _ _) in *. clearbody t1. destruct (charge_rounds lim win Hs t1 cost Hb1 Hc) as [_ Hch].
  destruct (charge_rounds lim win Hs t1 cost Hb1 Hc) as [Hge _]. destruct (rate_spec lim win Hs) as (_ & Hr & _).
  set (t2 := if f64_geb t1 (f64_of_Z cost) then _ else t1).
  assert (H2 : balance lim t2 ∧ (val t2 + (if (if f64_geb t1 (f64_of_Z cost) then 1 else 0) =? 1 then inject_Z cost else 0) <= val t1 + err lim)%Q).
  { pose proof (err_nonneg lim win Hs). unfold t2. destruct (f64_geb t1 (f64_of_Z cost)); simpl; [|split; [done|lra]].
    destruct (Hch (proj1 Hge eq_refl)) as (Hb2 & Hle & _). split; [done|lra]. }
  clearbody t2. destruct H2 as [Hb2 Ht2]. set (spend := (if (if f64_geb _ _ then 1 else 0) =? 1 then inject_Z cost else 0%Q)) in *. clearbody spend.
  split; [done|split; [done|]]. unfold grown in Hhi. assert (Eb : Z.max b (toMs now) = b + e) by lia. rewrite Eb.
  assert (E1 : (inject_Z (T - b) * rr == inject_Z e * rr + inject_Z (T - (b + e)) * rr)%Q).
  { replace (T - b) with (e + (T - (b + e))) by lia. rewrite inject_Z_plus. ring. }
  assert (E2 : (inject_Z (T - (b + e)) * rr <= inject_Z slackMs * rr)%Q) by (apply Qmult_le_compat_r; [apply Zle_Q; lia|lra]).
  rewrite E1. pose proof (proj2 Hb1) as Ht1. set (x := (inject_Z (T - (b + e)) * rr)%Q) in *. set (z := (inject_Z e * rr)%Q) in *. clearbody x z.
  assert (Hm : (val t1 + x - err lim <= Qmin (LL + inject_Z slackMs * rr) (val y + (z + x)))%Q); [|lra].
  pose proof (err_nonneg lim win Hs). apply Q.min_glb; lra.
Qed.

(** What the script adds to the error: two roundings and what the text loses. *)
Definition redisErr : Q := (LL + 1) * (1 # 1000000000000).

Abbreviation K := (redisQuotaKey l key).

Record steady (T : Z) (at_ : Time) (rs : R) : Prop := {
  st_clock : 0 ≤ T < 2 ^ 44;
  st_skew : T * Millisecond ≤ at_ + skew;
  st_kept : kept T (hview rs at_ K);
}.

(** The hash after the script wrote to it. *)
Lemma written_view at_ tokens base rs :
  hview (HPEXPIRE at_ K ttl (HSET at_ K tokens base rs)) at_ K = Some ((tokens, base), Some (at_ + ttl * Millisecond)).
Proof.
  rewrite hpexpire_view, decide_True by done. destruct ttl_two as [_ Hp]. rewrite (proj2 (Z.leb_gt _ _)) by done.
  by rewrite hset_view, decide_True.
Qed.

Lemma script_step T at_ now cost rs v reply rs' :
  hview rs at_ K = v → kept T v → 0 ≤ T < 2 ^ 44 → T * Millisecond ≤ at_ + skew → in_range now → toMs now ≤ T → Z.abs (now - at_) ≤ skew →
  1 ≤ cost < 2 ^ 50 → quotaScript at_ K (quotaArgs l now cost) rs = (reply, rs') →
  let v' := hview rs' at_ K in
  kept T v' ∧ (pot T v' + (if reply.1.1.1 =? 1 then inject_Z cost else 0) <= pot T v + redisErr)%Q.
Proof.
  intros Hv Hk HT HTat Hn HTn Hsk Hc E. cbv zeta. unfold quotaScript in E. rewrite hmget_view, Hv in E.
  pose proof (toMs_range now Hn) as Hnr. pose proof (toMs_bounds now) as Hnb. destruct (limit_bounds lim win Hs) as [HL1 HL2].
  assert (Hslack : T - toMs now ≤ slackMs).
  { unfold slackMs. pose proof (dp_skew Hd). pose proof (Z.div_mod (2 * skew) Millisecond ltac:(done)).
    pose proof (Z.mod_pos_bound (2 * skew) Millisecond ltac:(done)). unfold Millisecond, Microsecond, Nanosecond in *. lia. }
  assert (Hst : ∃ y b, scriptState (quotaArgs l now cost) match v with Some ((t, ts), _) => (Some t, Some ts) | None => (None, None) end = (y, f64_of_Z b)
    ∧ balance lim y ∧ 0 ≤ b ≤ T ∧ (Qmin (LL + inject_Z slackMs * rr) (val y + inject_Z (T - b) * rr) <= pot T v)%Q).
  { destruct Hk as [|t ts y b d Hy Hb Hbal HbT Hb44 _].
    - exists (f64_of_Z lim), (toMs now). destruct (limit_exact lim win Hs) as [Hw Hvl].
      assert (Hbl : balance lim (f64_of_Z lim)) by (split; [done|]; rewrite Hvl; split; lra).
      split; [done|split; [done|split; [lia|apply Q.le_min_l]]].
    - exists y, b. unfold scriptState. simpl fst. simpl snd. cbn [mbind option_bind]. rewrite Hy, Hb. split_and!; try done; try lia.
      rewrite (pot_some T t ts y b (Some d) Hy Hb) by lia. apply Qle_refl. }
  destruct Hst as (y & b & Es & Hy & Hb & Hpot). rewrite Es in E.
  pose proof (charge_potential T now cost y b Hy Hb (proj2 HT) ltac:(lia) Hslack Hc) as Hch.
  destruct (scriptCharge _ _ _) as [[[[a rem] rt] rst] [y' base]]. destruct Hch as (-> & Hy' & Hch). injection E as <- <-. cbn [fst].
  change (a_ttl (quotaArgs l now cost)) with ttl. rewrite written_view.
  destruct (lua_balance y' (proj1 Hy') (proj1 (proj2 Hy'))) as (y2 & Ey2 & Hw2 & H02 & Hhi2 & Hint2).
  assert (Eb : tonumber (tostring (f64_of_Z (Z.max b (toMs now)))) = Some (f64_of_Z (Z.max b (toMs now)))) by (apply lua_integer; lia).
  assert (Hb2 : balance lim y2).
  { split; [done|]. split; [done|]. unfold L. apply Hint2; [pose proof (dp_digits Hd); destruct Hs; lia|]. by apply Hy'. }
  split.
  - econstructor; [done..|lia|lia|]. pose proof ttl_two. unfold Millisecond, Microsecond, Nanosecond in *. lia.
  - rewrite (pot_some T _ _ y2 _ _ Ey2 Eb) by lia. pose proof (proj2 Hy') as Hyb. unfold redisErr, err in *.
    pose proof (Q.le_min_r (LL + inject_Z slackMs * rr) (val y2 + inject_Z (T - Z.max b (toMs now)) * rr)) as Hmin.
    destruct (a =? 1); lra.
Qed.

(** ** Histories *)

(** Calls of any instances for any keys, in the order Redis answers them: for which
    key, at which cost, and whether admitted and counted.  [T] is the latest reading
    of an instance's clock in milliseconds. *)
Inductive redis_calls : Z → Time → R → list (string * Z * bool) → Z → Time → R → Prop :=
| redis_done T at_ rs : redis_calls T at_ rs [] T at_ rs
| redis_call T at_ rs now at1 o key' cost d rs1 cs T' at' rs' :
    at_ ≤ at1 → Z.abs (now - at1) ≤ skew → in_range now → 1 ≤ cost < 2 ^ 50 →
    redisAllowN l (mkQuotaCall now at1 o) key' cost rs = (d, rs1) →
    redis_calls (Z.max T (toMs now)) at1 rs1 cs T' at' rs' →
    redis_calls T at_ rs ((key', cost, Allowed d && negb (Degraded d)) :: cs) T' at' rs'.

Fixpoint redisSpent (cs : list (string * Z * bool)) : Z :=
  match cs with
  | [] => 0
  | (key', cost, counted) :: cs => (if bool_decide (key' = key) && counted then cost else 0) + redisSpent cs
  end.

Lemma redisQuotaKey_inj key' : redisQuotaKey l key' = K → key' = key.
Proof. unfold redisQuotaKey. intros E. by do 3 apply (inj (String.append _)) in E. Qed.

(** The script for another key leaves this one alone. *)
Lemma other_script at_ key' a rs :
  key' ≠ key → hview (quotaScript at_ (redisQuotaKey l key') a rs).2 at_ K = hview rs at_ K.
Proof.
  intros Hne. assert (HK : ¬ K = redisQuotaKey l key') by (intros E; symmetry in E; by apply redisQuotaKey_inj in E).
  unfold quotaScript. destruct (scriptState _ _) as [y ts]. destruct (scriptCharge _ _ _) as [reply [y' base]]. simpl.
  by rewrite hpexpire_view, decide_False, hset_view, decide_False by done.
Qed.

Lemma call_step T at_ rs now at1 o key' cost d rs1 :
  steady T at_ rs → at_ ≤ at1 → Z.abs (now - at1) ≤ skew → in_range now → 1 ≤ cost < 2 ^ 50 →
  redisAllowN l (mkQuotaCall now at1 o) key' cost rs = (d, rs1) →
  let T1 := Z.max T (toMs now) in
  steady T1 at1 rs1
  ∧ (pot T1 (hview rs1 at1 K) + (if bool_decide (key' = key) && (Allowed d && negb (Degraded d)) then inject_Z cost else 0)
     <= pot T (hview rs at_ K) + inject_Z (T1 - T) * rr + (redisErr + err lim))%Q.
Proof.
  intros [HT HTat Hk] Hat Hsk Hn Hc E. cbv zeta. set (T1 := Z.max T (toMs now)). pose proof (toMs_range now Hn) as Hnr. pose proof (toMs_bounds now) as Hnb.
  destruct (pot_later T T1 _ Hk ltac:(lia)) as [Hk1 Hp1].
  destruct (pot_expired T1 (hview rs at_ K) at1 now Hk1 ltac:(lia) ltac:(lia)) as [Hk2 Hp2]. rewrite <-hview_later in Hk2, Hp2 by done.
  assert (HT1 : (0 ≤ T1 < 2 ^ 44 ∧ T1 * Millisecond ≤ at1 + skew) ∧ toMs now ≤ T1) by (unfold T1, Millisecond, Microsecond, Nanosecond in *; lia). clearbody T1.
  assert (Herr : (0 <= redisErr)%Q) by (unfold redisErr; destruct (limit_bounds lim win Hs); lra).
  assert (Hstep : ∃ counted, (Allowed d && negb (Degraded d) = true → counted = true)
    ∧ kept T1 (hview rs1 at1 K)
    ∧ (pot T1 (hview rs1 at1 K) + (if bool_decide (key' = key) && counted then inject_Z cost else 0) <= pot T1 (hview rs at1 K) + redisErr)%Q).
  { unfold redisAllowN, attempt in E. cbn [qc_ends qc_at qc_now] in E. destruct (quotaScript at1 (redisQuotaKey l key') (quotaArgs l now cost) rs) as [reply rs2] eqn:Eq.
    assert (Hq : kept T1 (hview rs2 at1 K) ∧ (pot T1 (hview rs2 at1 K) + (if bool_decide (key' = key) && (reply.1.1.1 =? 1) then inject_Z cost else 0)
                 <= pot T1 (hview rs at1 K) + redisErr)%Q).
    { destruct (bool_decide_reflect (key' = key)) as [->|Hne]; cbn [andb].
      - by apply (script_step T1 at1 now cost rs _ reply rs2 eq_refl Hk2); try done; apply HT1.
      - pose proof (other_script at1 key' (quotaArgs l now cost) rs Hne) as Ho. rewrite Eq in Ho. cbn [snd] in Ho. rewrite Ho. split; [done|lra]. }
    destruct reply as [[[a rem] rt] rst]. cbn [fst] in Hq. destruct o as [|[]].
    - injection E as <- <-. exists (a =? 1). simpl. split; [by destruct (a =? 1)|done].
    - injection E as <- <-. exists false. simpl. split; [done|]. rewrite andb_false_r. cbn iota. destruct Hq as [Hq1 Hq2]. split; [done|].
      assert (Hc0 := Znonneg_Q cost ltac:(lia)). destruct (bool_decide (key' = key) && (a =? 1)); lra.
    - injection E as <- <-. exists false. simpl. split; [done|]. rewrite andb_false_r. cbn iota. split; [done|lra]. }
  destruct Hstep as (counted & Himp & Hk3 & Hp3). split; [split; [apply HT1|apply HT1|done]|].
  assert (Hc0 := Znonneg_Q cost ltac:(lia)). destruct (bool_decide (key' = key)); cbn [andb] in *; [|lra].
  destruct (Allowed d && negb (Degraded d)); [rewrite Himp in Hp3 by done; lra|destruct counted; lra].
Qed.

Lemma calls_pot T at_ rs cs T' at' rs' :
  redis_calls T at_ rs cs T' at' rs' → steady T at_ rs →
  steady T' at' rs' ∧ T ≤ T'
  ∧ (pot T' (hview rs' at' K) + inject_Z (redisSpent cs)
     <= pot T (hview rs at_ K) + inject_Z (T' - T) * rr + inject_Z (Z.of_nat (length cs)) * (redisErr + err lim))%Q.
Proof.
  induction 1 as [T at_ rs|T at_ rs now at1 o key' cost d rs1 cs T' at' rs' Hat Hsk Hn Hc E Hcs IH]; intros Hst.
  - split_and!; [done..|]. cbn [redisSpent length]. rewrite Z.sub_diag. change (inject_Z (Z.of_nat 0)) with 0%Q. change (inject_Z 0) with 0%Q. lra.
  - destruct (call_step T at_ rs now at1 o key' cost d rs1 Hst Hat Hsk Hn Hc E) as [Hst1 Hp]. destruct (IH Hst1) as (Hst' & HT' & Hpot).
    set (T1 := Z.max T (toMs now)) in *. assert (T ≤ T1) by lia. clearbody T1. split_and!; [done|lia|].
    cbn [redisSpent length]. rewrite Nat2Z.inj_succ, inject_Z_plus. unfold Z.succ. rewrite inject_Z_plus. change (inject_Z 1) with 1%Q.
    assert (Es : (inject_Z (T' - T) * rr == inject_Z (T1 - T) * rr + inject_Z (T' - T1) * rr)%Q).
    { replace (T' - T) with ((T1 - T) + (T' - T1)) by lia. rewrite inject_Z_plus. ring. }
    rewrite Es. destruct (bool_decide (key' = key) && _); change (inject_Z 0) with 0%Q in *; lra.
Qed.
End Redis.

(** Whatever instances charge a caller, and though their clocks are off by up to
    [skew], the work admitted and counted for it in any part of a history is at most
    the limit and what the rate restores between the first and the last reading of a
    clock and in twice the skew, up to rounding: a skewed clock buys no more than its
    skew and a bucket that expires buys nothing.  (Calls that Redis does not answer are
    let through and not counted.) *)
Theorem redis_quota_bounds_work `{RH : RedisHashes R} `{RHL : !RedisHashesLaws R} `{LN : LuaNumbers} `{LNL : !LuaLaws} l key skew T0 at0 (r0 : R) cs0 T at_ r1 cs T' at' r2 :
  deployed l skew → 0 ≤ T0 < 2 ^ 44 → T0 * Millisecond ≤ at0 + skew → hview r0 at0 (redisQuotaKey l key) = None →
  redis_calls l skew T0 at0 r0 cs0 T at_ r1 → redis_calls l skew T at_ r1 cs T' at' r2 →
  (inject_Z (redisSpent key cs)
   <= inject_Z (rq_limit l) + perMs (rq_limit l) (rq_window l) * (1 + p2 (-52)) * inject_Z (T' - T + slackMs skew)
      + inject_Z (Z.of_nat (length cs)) * ((inject_Z (rq_limit l) + 1) * (1 # 100000000000)))%Q.
Proof.
  intros Hd HT0 Hat0 Hv0 H0 Hcs. assert (Hst0 : steady l key skew T0 at0 r0) by (split; [done..|rewrite Hv0; constructor]).
  destruct (calls_pot l key skew Hd _ _ _ _ _ _ _ H0 Hst0) as (Hst & _ & _). destruct (calls_pot l key skew Hd _ _ _ _ _ _ _ Hcs Hst) as (Hst' & HT & Hp).
  pose proof (proj2 (pot_bounds l skew Hd T _ (st_kept _ _ _ _ _ _ Hst))) as Hcap. pose proof (proj1 (pot_bounds l skew Hd T' _ (st_kept _ _ _ _ _ _ Hst'))) as Hnn.
  pose proof (dp_servable _ _ Hd) as Hs. destruct (rate_spec _ _ Hs) as (_ & Hr & _ & _ & Hr2). pose proof (limit_bounds _ _ Hs) as [HL _].
  change (p2 (-52)) with (1 # 4503599627370496)%Q. rewrite inject_Z_plus. fold (L (rq_limit l)). unfold redisErr, err in Hp.
  pose proof (dp_skew _ _ Hd) as Hsk. assert (Hsl : (0 <= inject_Z (slackMs skew))%Q).
  { apply Znonneg_Q. unfold slackMs. pose proof (Z.div_pos (2 * skew) Millisecond ltac:(lia) ltac:(done)). lia. }
  assert (Hx : (0 <= inject_Z (T' - T))%Q) by (apply Znonneg_Q; lia).
  set (x := inject_Z (T' - T)) in *. set (y := inject_Z (slackMs skew)) in *. set (ρ := r _ _) in *. set (v := perMs _ _) in *.
  set (n := inject_Z (Z.of_nat (length cs))) in *. assert (Hn : (0 <= n)%Q) by (apply Znonneg_Q; lia). set (lim := L (rq_limit l)) in *. clearbody x y ρ v n lim.
  assert (H1 : (ρ * (x + y) <= v * (1 + (1 # 4503599627370496)) * (x + y))%Q) by (apply Qmult_le_compat_r; lra).
  assert (H2 : (n * ((lim + 1) * (1 # 1000000000000) + (lim + 1) * (1 # 2251799813685248)) <= n * ((lim + 1) * (1 # 100000000000)))%Q)
    by (apply Qmult_le_l_nonneg; lra). lra.
Qed.
