(* ===== verification/QuotaScenes.v ===== *)
(** Concrete quotas: instances of the theorems of [QuotaRuns] and [QuotaRedis], and
    callers of the middleware. *)

From Stdlib Require Import SpecFloat QArith Lqa Ascii.
From S2P Require Import Prelude GoStrings RedisKeys Float64 Limiter Quota QuotaRuns QuotaRedis.
Open Scope Z_scope.

(** ** In memory: twenty units a minute *)

Definition sec (n : Z) : Time := 1700000000 * Second + n * Second.

Definition scene0 : memoryQuotaLimiter := newMemoryQuotaLimiter 20 Minute.
Definition ask (t : Time) (k : string) (cost : Z) (l : memoryQuotaLimiter) := memAllowN t k cost l.

(** Two chain writes use the allowance up. *)
Definition scene1 : memoryQuotaLimiter := (ask (sec 0) "u:1" 10 scene0).2.
Definition scene2 : memoryQuotaLimiter := (ask (sec 0) "u:1" 10 scene1).2.

Lemma quota_step t l now key cost cs t' l' :
  t ≤ now → in_range now → 1 ≤ cost < 2 ^ 50 →
  quota_calls now (memAllowN now key cost l).2 cs t' l' →
  quota_calls t l ((now, key, cost, Allowed (memAllowN now key cost l).1) :: cs) t' l'.
Proof. intros. econstructor; try done. Qed.

Definition early : list (Time * string * Z * bool) :=
  [(sec 0, "u:1", 10, Allowed (memAllowN (sec 0) "u:1" 10 scene0).1); (sec 0, "u:1", 10, Allowed (memAllowN (sec 0) "u:1" 10 scene1).1)].

Lemma early_calls : quota_calls 0 scene0 early (sec 0) scene2.
Proof. repeat (apply quota_step; [by vm_compute..|]). constructor. Qed.

Lemma served_rate : servable 20 Minute.
Proof. by repeat split. Qed.

Lemma quota_bounds_work_witness :
  spent "u:1" early = 20
  ∧ (inject_Z (spent "u:1" early) <= inject_Z 20 + perMs 20 Minute * (1 + p2 (-52)) * (since (sec 0) 0 + 1)
                            + inject_Z (Z.of_nat (length early)) * ((inject_Z 20 + 1) * p2 (-49)))%Q.
Proof.
  split; [vm_compute; reflexivity|].
  apply (quota_bounds_work 20 Minute 0 [] 0 scene0 early (sec 0) scene2 "u:1" served_rate); [constructor|exact early_calls].
Defined.

(** A read that costs six units is refused a second later and told to wait 17 s. *)
Definition refusal : QuotaDecision := (memAllowN (sec 1) "u:1" 6 scene2).1.
Definition scene3 : memoryQuotaLimiter := (memAllowN (sec 1) "u:1" 6 scene2).2.

Lemma quota_wait_is_enough_witness :
  Allowed refusal = false ∧ RetryAfter refusal = 17 * Second ∧ Allowed (memAllowN (sec 18 + Millisecond) "u:1" 6 scene3).1 = true.
Proof.
  split; [vm_compute; reflexivity|split; [vm_compute; reflexivity|]].
  apply (quota_wait_is_enough 20 Minute 0 early (sec 0) scene2 (sec 1) "u:1" 6 refusal scene3 [] (sec 1) scene3 (sec 18 + Millisecond)
           (memAllowN (sec 18 + Millisecond) "u:1" 6 scene3).1 (memAllowN (sec 18 + Millisecond) "u:1" 6 scene3).2 served_rate early_calls);
    [by vm_compute..|constructor|constructor|by vm_compute|by vm_compute|by vm_compute|].
  by destruct (memAllowN (sec 18 + Millisecond) "u:1" 6 scene3).
Defined.

(** The same caller at the server: a client that waits for exactly the 17 s of the
    header Retry-After is refused again, since its balance is rounded to a little less
    than six units. *)
Definition request (method path : string) : QuotaRequest := mkQuotaRequest method path "1" "203.0.113.7" "".
Definition counting : QuotaConfig := mkQuotaConfig true "" ["/health"].

Definition at_server (t : Time) (method path : string) (l : memoryQuotaLimiter) : QuotaOutcome * memoryQuotaLimiter :=
  let '(o, _, l) := CostQuota counting t (request method path) l in (o, l).

Example exact_wait_is_refused :
  let '(o1, l) := at_server (sec 0) "POST" "/api/v1/vaults/7/deposit" scene0 in
  let '(o2, l) := at_server (sec 0) "POST" "/api/v1/vaults/7/withdraw" l in
  let '(o3, l) := at_server (sec 1) "GET" "/api/v1/yields" l in
  let '(o4, l) := at_server (sec 18) "GET" "/api/v1/yields" l in
  let '(o5, l) := at_server (sec 19) "GET" "/api/v1/yields" l in
  o1 = Served (Some (20, 10, 30)) ∧ o2 = Served (Some (20, 0, 60))
  ∧ o3 = Exhausted (20, 0, 60) (mkExhausted 6 20 0 17 60)
  ∧ o4 = Exhausted (20, 5, 42) (mkExhausted 6 20 5 1 42)
  ∧ o5 = Served (Some (20, 0, 60)).
Proof. vm_compute. by repeat split. Qed.

(** ** In Redis *)

(** Hashes as a finite map. *)
Abbreviation Hashes := (gmap string ((string * string) * option Time)) (only parsing).

#[export] Instance map_hashes : RedisHashes Hashes := {
  hview r now k := unexpired now (r !! k);
  HMGET now k r := match unexpired now (r !! k) with Some ((t, ts), _) => (Some t, Some ts) | None => (None, None) end;
  HSET now k t ts r := <[k := ((t, ts), unexpired now (r !! k) ≫= snd)]> r;
  HPEXPIRE now k ms r :=
    match unexpired now (r !! k) with
    | None => r
    | Some (v, _) => if ms <=? 0 then delete k r else <[k := (v, Some (now + ms * Millisecond))]> r
    end;
}.

#[export] Instance map_hashes_laws : RedisHashesLaws Hashes.
Proof.
  split; simpl.
  - intros r now t k Ht. by rewrite unexpired_twice.
  - done.
  - intros now k t ts r k'. case_decide as E; [subst; rewrite lookup_insert_eq|by rewrite lookup_insert_ne].
    destruct (r !! k) as [[v [d|]]|]; simpl; try done. destruct (now <=? d) eqn:Ed; simpl; by rewrite ?Ed.
  - intros now k ms r k'. case_decide as E.
    + subst. destruct (unexpired now (r !! k)) as [[v o]|] eqn:Ev; simpl.
      * destruct (Z.leb_spec ms 0); [by rewrite lookup_delete_eq|]. rewrite lookup_insert_eq. simpl.
        rewrite (proj2 (Z.leb_le _ _)); [done|]. unfold Millisecond, Microsecond, Nanosecond. lia.
      * rewrite Ev. by destruct (ms <=? 0).
    + destruct (unexpired now (r !! k)) as [[v o]|]; [|done]. destruct (ms <=? 0); [by rewrite lookup_delete_ne|by rewrite lookup_insert_ne].
Qed.

(** A rendering of numbers that loses nothing: the bits of an encoding. *)
Fixpoint bits (p : positive) : string :=
  match p with xH => "" | xO p => String "0" (bits p) | xI p => String "1" (bits p) end.
Fixpoint unbits (s : string) : option positive :=
  match s with
  | EmptyString => Some xH
  | String c s => (if decide (c = "0"%char) then xO else xI) <$> unbits s
  end.

Lemma unbits_bits p : unbits (bits p) = Some p.
Proof. induction p as [p IH|p IH|]; simpl; by rewrite ?IH. Qed.

Definition shape (x : float64) : Z * bool * positive * Z :=
  match x with
  | S754_zero s => (0, s, 1%positive, 0)
  | S754_infinity s => (1, s, 1%positive, 0)
  | S754_nan => (2, false, 1%positive, 0)
  | S754_finite s m e => (3, s, m, e)
  end.
Definition unshape (p : Z * bool * positive * Z) : float64 :=
  let '(k, s, m, e) := p in
  if k =? 0 then S754_zero s else if k =? 1 then S754_infinity s else if k =? 2 then S754_nan else S754_finite s m e.

#[export] Instance bit_numbers : LuaNumbers := {
  tostring x := bits (encode (shape x));
  tonumber s := p ← unbits s; unshape <$> decode p;
}.

Lemma tonumber_tostring x : tonumber (tostring x) = Some x.
Proof. simpl. rewrite unbits_bits. simpl. rewrite decode_encode. by destruct x. Qed.

#[export] Instance bit_laws : LuaLaws.
Proof.
  split; [intros n _; apply tonumber_tostring|]. intros x Hx H0. exists x. split_and!; try done; [apply tonumber_tostring|lra].
Qed.

(** Two instances whose clocks are a second apart. *)
Definition scene_quota : redisQuotaLimiter := mkRedisQuota "request-cost" 20 Minute.
Definition first_call : QuotaCall := mkQuotaCall (sec 1) (sec 0) Reached.
Definition second_call : QuotaCall := mkQuotaCall (sec 0) (sec 0) Reached.
Definition rscene0 : Hashes := ∅.
Definition rscene1 : Hashes := (redisAllowN scene_quota first_call "u:1" 10 rscene0).2.
Definition rscene2 : Hashes := (redisAllowN scene_quota second_call "u:1" 10 rscene1).2.
Definition counted (d : QuotaDecision) : bool := Allowed d && negb (Degraded d).
Definition rcalls : list (string * Z * bool) :=
  [("u:1", 10, counted (redisAllowN scene_quota first_call "u:1" 10 rscene0).1);
   ("u:1", 10, counted (redisAllowN scene_quota second_call "u:1" 10 rscene1).1)].

Lemma scene_deployed : deployed scene_quota Second.
Proof. split; [exact served_rate|by vm_compute..]. Qed.

Lemma redis_step skew T at_ now at1 o key' cost (rs : Hashes) cs T' at' rs' l :
  at_ ≤ at1 → Z.abs (now - at1) ≤ skew → in_range now → 1 ≤ cost < 2 ^ 50 →
  redis_calls l skew (Z.max T (toMs now)) at1 (redisAllowN l (mkQuotaCall now at1 o) key' cost rs).2 cs T' at' rs' →
  redis_calls l skew T at_ rs ((key', cost, counted (redisAllowN l (mkQuotaCall now at1 o) key' cost rs).1) :: cs) T' at' rs'.
Proof.
  intros. by apply (redis_call l skew T at_ rs now at1 o key' cost (redisAllowN l (mkQuotaCall now at1 o) key' cost rs).1
    (redisAllowN l (mkQuotaCall now at1 o) key' cost rs).2); [..|apply surjective_pairing|].
Qed.

Lemma rscene_calls : redis_calls scene_quota Second 0 0 rscene0 rcalls (toMs (sec 1)) (sec 0) rscene2.
Proof.
  unfold rcalls. apply redis_step; [by vm_compute..|]. apply redis_step; [by vm_compute..|].
  change (redis_calls scene_quota Second (Z.max (Z.max 0 (toMs (sec 1))) (toMs (sec 0))) (sec 0) rscene2 [] (toMs (sec 1)) (sec 0) rscene2).
  replace (Z.max (Z.max 0 (toMs (sec 1))) (toMs (sec 0))) with (toMs (sec 1)) by (vm_compute; reflexivity). constructor.
Qed.

Lemma redis_quota_bounds_work_witness :
  redisSpent "u:1" rcalls = 20
  ∧ (inject_Z (redisSpent "u:1" rcalls)
     <= inject_Z 20 + perMs 20 Minute * (1 + p2 (-52)) * inject_Z (toMs (sec 1) - 0 + slackMs Second)
        + inject_Z (Z.of_nat (length rcalls)) * ((inject_Z 20 + 1) * (1 # 100000000000)))%Q.
Proof.
  split; [vm_compute; reflexivity|].
  apply (redis_quota_bounds_work scene_quota "u:1" Second 0 0 rscene0 [] 0 0 rscene0 rcalls (toMs (sec 1)) (sec 0) rscene2 scene_deployed);
    [done|done|reflexivity|constructor|exact rscene_calls].
Defined.

(** The script on these buckets: the third request within the second is refused, and
    the clock that is behind restores nothing. *)
Example redis_refuses :
  let '(d, _) := redisAllowN scene_quota second_call "u:1" 1 rscene2 in
  Allowed d = false ∧ Remaining d = 0 ∧ RetryAfter d = 3 * Second ∧ Degraded d = false.
Proof. vm_compute. by repeat split. Qed.
