(* ===== verification/LimiterRuns.v ===== *)
(** What the limits of [Limiter] guarantee: the address a request is counted
    against cannot be chosen by its sender; the counter in Redis admits at most
    twice its limit within a window; the cost of a request is the one of the most
    specific entry of the table. *)

From Stdlib Require Import Ascii.
From S2P Require Import Prelude GoStrings RedisKeys.
From S2P Require Idempotency.
From S2P Require Import Limiter.
Open Scope Z_scope.

(** ** The client of a request *)

(** What a proxy sends on: the header it got, with the peer it got it from. *)
Definition forwarded (xff peer : string) : string := if decide (xff = "") then peer else xff +:+ ", " +:+ peer.

(** An address as proxies write it. *)
Definition address (a : string) : Prop :=
  a ≠ "" ∧ TrimSpace a = a ∧ str_all (λ c, bool_decide (c ≠ ","%char)) a = true.

Lemma TrimSpace_space a : TrimSpace (String " " a) = TrimSpace a.
Proof. reflexivity. Qed.

Lemma splitByte_snoc c s a :
  str_all (λ x, bool_decide (x ≠ c)) a = true → splitByte c (s +:+ String c a) = splitByte c s ++ [a].
Proof.
  intros Ha. induction s as [|b s IH]; simpl.
  - rewrite decide_True by done. by rewrite splitByte_clean.
  - change (splitByte c (String b (s +:+ String c a)) = splitByte c (String b s) ++ [a]). simpl.
    rewrite IH. pose proof (splitByte_nonempty c s). case_decide; [done|]. by destruct (splitByte c s).
Qed.

Lemma hops_forwarded xff a : address a → hops (forwarded xff a) = (if decide (xff = "") then [] else hops xff) ++ [a].
Proof.
  intros (Hne & Ht & Hc). unfold forwarded, hops. case_decide; simpl.
  - rewrite splitByte_clean by done. simpl. rewrite Ht. by rewrite bool_decide_eq_false_2.
  - change (xff +:+ ", " +:+ a) with (xff +:+ String "," (String " " a)).
    rewrite splitByte_snoc by done. rewrite fmap_app, List.filter_app. simpl.
    rewrite TrimSpace_space, Ht. by rewrite bool_decide_eq_false_2.
Qed.

Lemma forwarded_nonempty xff a : address a → forwarded xff a ≠ "".
Proof. intros (Hne & _). unfold forwarded. case_decide; [done|]. by destruct xff. Qed.

Lemma forwarded_all_nonempty (l : list string) xff : Forall address l → l ≠ [] → foldl forwarded xff l ≠ "".
Proof.
  intros Hl Hne. destruct (exists_last Hne) as (l' & a & ->). rewrite foldl_snoc.
  apply forwarded_nonempty. rewrite Forall_app, Forall_singleton in Hl. tauto.
Qed.

Lemma hops_chain (l : list string) xff :
  Forall address l → l ≠ [] → hops (foldl forwarded xff l) = (if decide (xff = "") then [] else hops xff) ++ l.
Proof.
  induction l as [|a l IH] using rev_ind; [done|]. rewrite Forall_app, Forall_singleton, foldl_snoc.
  intros [Hl Ha] _. rewrite hops_forwarded by done. rewrite app_assoc. f_equal.
  destruct l as [|b l]; [simpl; by rewrite app_nil_r|].
  rewrite decide_False by by apply forwarded_all_nonempty. by apply IH.
Qed.

(** C27: Behind as many proxies as are configured, a request is counted against the
    address its sender connected from, whatever X-Forwarded-For header the sender
    made up; with none configured, against the peer of the connection. *)
Theorem client_ip_unspoofable n xff client proxies remoteAddr :
  Forall address (client :: proxies) → n = Z.of_nat (length (client :: proxies)) →
  clientIP n remoteAddr (foldl forwarded xff (client :: proxies)) = client
  ∧ ∀ k, k ≤ 0 → clientIP k remoteAddr xff = default remoteAddr (SplitHostPort remoteAddr).
Proof.
  intros Ha ->. split; [|intros k Hk; unfold clientIP; by rewrite (proj2 (Z.leb_le k 0))].
  unfold clientIP. set (host := default _ _). clearbody host.
  rewrite (proj2 (Z.leb_gt _ _)) by (simpl; lia). rewrite decide_False, hops_chain by (done || by apply forwarded_all_nonempty).
  set (pre := if decide (xff = "") then [] else hops xff). clearbody pre.
  assert (Z.to_nat (Z.max (Z.of_nat (length ((pre ++ client :: proxies) ++ [host])) - 1
    - Z.of_nat (length (client :: proxies))) 0) = length pre) as ->.
  { rewrite !length_app. simpl. lia. }
  by rewrite <-app_assoc, lookup_app_r, Nat.sub_diag.
Qed.

(** ** The counter in Redis *)

Section FixedWindow.
Context {R : Type} `{RedisKeysLaws R}.
Context (c : redisLimiter) (key : string).

(** The window, in the whole milliseconds the script is given. *)
Definition span : Duration := rl_window c `quot` Millisecond * Millisecond.

(** A history of the limiter on [key], from one state of Redis to a later one, with
    the decisions by count; calls that fail open, since their answer was lost or
    Redis could not count, and the rest of what happens in Redis are interleaved
    with them. *)
Definition fails_open (now : Time) (o : reached) (r : R) : Prop :=
  o = Reached → (rateLimitScript now (rateKey c key) (rl_window c `quot` Millisecond) r).1 = None.

Inductive serves : Time → R → list (Time * bool) → Time → R → Prop :=
| s_done t r : serves t r [] t r
| s_allow t r now d w r1 ds t' r' :
    t ≤ now → ¬ fails_open now Reached r → redisAllow c now Reached key r = ((d, w), r1) → serves now r1 ds t' r' →
    serves t r ((now, d) :: ds) t' r'
| s_open t r now o a r1 ds t' r' :
    t ≤ now → fails_open now o r → redisAllow c now o key r = (a, r1) → serves now r1 ds t' r' → serves t r ds t' r'
| s_other t r now r1 ds t' r' :
    t ≤ now → view r1 now (rateKey c key) = view r now (rateKey c key) → serves now r1 ds t' r' → serves t r ds t' r'.

Definition admitted (ds : list (Time * bool)) : Z := Z.of_nat (length (List.filter snd ds)).

(** A counter as the script leaves it. *)
Definition counter (t : Time) (v : option (Z * option Time)) : Prop :=
  match v with
  | None => True
  | Some (n, Some d) => 1 ≤ n ∧ d ≤ t + span
  | Some (_, None) => False
  end.

(** One run of the script: the counter after it. *)
Definition counted (now : Time) (v : option (Z * option Time)) : Z * option Time :=
  match v with
  | None => (1, Some (now + span))
  | Some (n, d) => (n + 1, d)
  end.

Lemma counter_later t now v : t ≤ now → counter t v → counter now (unexpired now v).
Proof. intros Ht. destruct v as [[n [d|]]|]; simpl; [|done..]. destruct (now <=? d); simpl; [lia|done]. Qed.

Lemma counter_counted now v : 0 < span → counter now v → counter now (Some (counted now v)).
Proof. intros Hs. destruct v as [[n [d|]]|]; simpl; [|done|]; lia. Qed.

Lemma script_view now r o r1 :
  0 < span → counter now (view r now (rateKey c key)) →
  rateLimitScript now (rateKey c key) (rl_window c `quot` Millisecond) r = (o, r1) →
  match o with
  | None => view r1 now (rateKey c key) = view r now (rateKey c key)
  | Some (n, _) =>
      n = (counted now (view r now (rateKey c key))).1
      ∧ view r1 now (rateKey c key) = Some (counted now (view r now (rateKey c key)))
  end.
Proof.
  unfold rateLimitScript, span. set (k := rateKey c key). set (ms := _ `quot` _). intros Hs Hc.
  destruct (INCR now k r) as [[n|] r2] eqn:E.
  - destruct (incr_some _ _ _ _ _ E) as [-> Hv]. intros [= <- <-].
    destruct (view r now k) as [[m [d|]]|] eqn:Ev; simpl in *; [|done|].
    + rewrite (proj2 (Z.eqb_neq _ _)) by lia. split; [done|]. rewrite Hv. by rewrite decide_True.
    + split; [done|]. rewrite pexpire_view, decide_True by done.
      rewrite (proj2 (Z.leb_gt ms 0)) by (unfold Millisecond, Microsecond, Nanosecond in *; nia).
      rewrite Hv. by rewrite decide_True.
  - intros [= <- <-]. by apply (proj2 (incr_none _ _ _ _ E)).
Qed.

(** What the counter may still admit up to [a + span], for calls from [a] on. *)
Definition room (L a t : Z) (v : option (Z * option Time)) : Z :=
  match v with
  | None => if a <=? t then L else 2 * L
  | Some (n, Some d) => if a + span <=? d then Z.max 0 (L - n) else if a <=? d then Z.max 0 (L - n) + L else 2 * L
  | Some (_, None) => 0
  end.

Lemma room_nonneg L a t v : 0 ≤ L → 0 ≤ room L a t v.
Proof. unfold room. destruct v as [[n [d|]]|]; repeat destruct (_ <=? _); lia. Qed.

Lemma room_later L a t now v :
  0 ≤ L → t ≤ now ≤ a + span → counter t v → room L a now (unexpired now v) ≤ room L a t v.
Proof.
  intros HL Ht Hc. unfold room. destruct v as [[n [d|]]|]; simpl in *; [|done|].
  - destruct (Z.leb_spec now d); [done|]. destruct (Z.leb_spec a now), (Z.leb_spec (a + span) d), (Z.leb_spec a d); lia.
  - destruct (Z.leb_spec a now), (Z.leb_spec a t); lia.
Qed.

Lemma room_counted L a now v :
  0 ≤ L → 0 < span → counter now v → (∀ n d, v = Some (n, Some d) → now ≤ d) →
  room L a now (Some (counted now v)) ≤ room L a now v
  ∧ (a ≤ now → (if L <? (counted now v).1 then 0 else 1) + room L a now (Some (counted now v)) ≤ room L a now v).
Proof.
  intros HL Hs Hc Hd. unfold room. destruct v as [[n [d|]]|]; simpl in *; [|done|].
  - specialize (Hd n d eq_refl). destruct (Z.ltb_spec L (n + 1)), (Z.leb_spec (a + span) d), (Z.leb_spec a d); lia.
  - destruct (Z.ltb_spec L 1), (Z.leb_spec a now), (Z.leb_spec (a + span) (now + span)), (Z.leb_spec a (now + span)); lia.
Qed.

Lemma unexpired_live now (v : option (Z * option Time)) n d : unexpired now v = Some (n, Some d) → now ≤ d.
Proof.
  destruct v as [[m [e|]]|]; simpl; [|done..]. destruct (Z.leb_spec now e); [|done]. by intros [= -> ->].
Qed.

Lemma serves_times t r ds t' r' : serves t r ds t' r' → Forall (λ p, t ≤ p.1) ds.
Proof.
  induction 1; [done|constructor; [done|]|..]; (eapply Forall_impl; [eassumption|]); simpl; lia.
Qed.

Lemma admitted_cons p ds : admitted (p :: ds) = (if p.2 then 1 else 0) + admitted ds.
Proof. unfold admitted. simpl. destruct p.2; simpl; lia. Qed.

Let L : Z := Z.max 0 (rl_limit c).

Lemma view_now t now r : t ≤ now → counter t (view r t (rateKey c key)) →
  view r now (rateKey c key) = unexpired now (view r t (rateKey c key))
  ∧ counter now (view r now (rateKey c key))
  ∧ ∀ n d, view r now (rateKey c key) = Some (n, Some d) → now ≤ d.
Proof.
  intros Ht Hc. rewrite (view_later r t now) by done. split; [done|]. split; [by apply (counter_later t)|].
  intros n d. apply unexpired_live.
Qed.

Lemma counted_admits now v : 1 ≤ (counted now v).1 → (if rl_limit c <? (counted now v).1 then 0 else 1) = (if L <? (counted now v).1 then 0 else 1).
Proof. intros. unfold L. destruct (Z.ltb_spec (rl_limit c) (counted now v).1), (Z.ltb_spec (Z.max 0 (rl_limit c)) (counted now v).1); lia. Qed.

Lemma counted_positive now v : counter now v → 1 ≤ (counted now v).1.
Proof. destruct v as [[n [d|]]|]; simpl; [|done|]; lia. Qed.

(** A call that counts decides by the count; one that fails open lets the request
    pass, and has counted it or not. *)
Lemma counting_call now r d w r1 :
  0 < span → counter now (view r now (rateKey c key)) → ¬ fails_open now Reached r →
  redisAllow c now Reached key r = ((d, w), r1) →
  d = negb (rl_limit c <? (counted now (view r now (rateKey c key))).1)
  ∧ view r1 now (rateKey c key) = Some (counted now (view r now (rateKey c key))).
Proof.
  intros Hs Hc. unfold redisAllow, fails_open, attempt. destruct (rateLimitScript _ _ _ _) as [[[n ttl]|] r2] eqn:E;
    [|intros []; done]. intros _. destruct (script_view _ _ _ _ Hs Hc E) as [-> Hv].
  intros Ha. destruct (rl_limit c <? _); injection Ha as <- <- <-; done.
Qed.

Lemma open_call now o r a r1 :
  0 < span → counter now (view r now (rateKey c key)) → fails_open now o r → redisAllow c now o key r = (a, r1) →
  a = (true, 0) ∧ (view r1 now (rateKey c key) = view r now (rateKey c key)
                   ∨ view r1 now (rateKey c key) = Some (counted now (view r now (rateKey c key)))).
Proof.
  intros Hs Hc. unfold redisAllow, fails_open. destruct (rateLimitScript _ _ _ _) as [x r2] eqn:E.
  pose proof (script_view _ _ _ _ Hs Hc E) as Hv. destruct o as [|[]]; simpl; rewrite ?E; simpl.
  - intros Hx. rewrite (Hx eq_refl) in Hv |- *. intros [= <- <-]. auto.
  - intros _ [= <- <-]. destruct x as [[n ttl]|]; naive_solver.
  - intros _ [= <- <-]. auto.
Qed.

Lemma serves_room a t r ds t' r' :
  0 < span → serves t r ds t' r' → counter t (view r t (rateKey c key)) → Forall (λ p, a ≤ p.1 ≤ a + span) ds →
  admitted ds ≤ room L a t (view r t (rateKey c key)).
Proof.
  intros Hs. assert (HL : 0 ≤ L) by (unfold L; lia).
  induction 1 as [t r|t r now d w r1 ds t' r' Ht Hf Ha Hr IH|t r now o x r1 ds t' r' Ht Hf Ha Hr IH|t r now r1 ds t' r' Ht Hv Hr IH];
    intros Hc Hd.
  1: by apply room_nonneg.
  all: destruct (view_now t now r Ht Hc) as (Ev & Hc' & Hlive).
  - apply Forall_cons in Hd as [Hn Hd]. simpl in Hn. rewrite admitted_cons. simpl.
    destruct (counting_call _ _ _ _ _ Hs Hc' Hf Ha) as [-> Hv]. rewrite Hv in IH.
    specialize (IH (counter_counted _ _ Hs Hc') Hd).
    pose proof (room_later L a t now _ HL ltac:(lia) Hc) as H1. rewrite <-Ev in H1.
    destruct (room_counted L a now _ HL Hs Hc' Hlive) as [_ H2]. specialize (H2 ltac:(lia)).
    rewrite <-counted_admits in H2 by (eapply counted_positive; done). destruct (rl_limit c <? _); simpl; lia.
  - destruct ds as [|p ds]; [by apply room_nonneg|].
    pose proof (serves_times _ _ _ _ _ Hr) as Htm. apply Forall_cons in Htm as [Hp _].
    pose proof (proj1 (proj1 (Forall_cons _ _ _) Hd)) as Hn. simpl in Hn.
    pose proof (room_later L a t now _ HL ltac:(lia) Hc) as H1. rewrite <-Ev in H1.
    destruct (open_call _ _ _ _ _ Hs Hc' Hf Ha) as [_ [Hv|Hv]]; rewrite Hv in IH.
    + specialize (IH Hc' Hd). lia.
    + specialize (IH (counter_counted _ _ Hs Hc') Hd). destruct (room_counted L a now _ HL Hs Hc' Hlive). lia.
  - destruct ds as [|p ds]; [by apply room_nonneg|].
    pose proof (serves_times _ _ _ _ _ Hr) as Htm. apply Forall_cons in Htm as [Hp _].
    pose proof (proj1 (proj1 (Forall_cons _ _ _) Hd)) as Hn. simpl in Hn.
    pose proof (room_later L a t now _ HL ltac:(lia) Hc) as H1. rewrite <-Ev in H1. rewrite Hv in IH.
    specialize (IH Hc' Hd). lia.
Qed.

(** The counter stays a counter. *)
Lemma serves_counter t r ds t' r' :
  0 < span → serves t r ds t' r' → counter t (view r t (rateKey c key)) → counter t' (view r' t' (rateKey c key)).
Proof.
  intros Hs. induction 1 as [t r|t r now d w r1 ds t' r' Ht Hf Ha Hr IH|t r now o x r1 ds t' r' Ht Hf Ha Hr IH|t r now r1 ds t' r' Ht Hv Hr IH];
    intros Hc; [done|..]; apply IH; destruct (view_now t now r Ht Hc) as (Ev & Hc' & _).
  - destruct (counting_call _ _ _ _ _ Hs Hc' Hf Ha) as [_ ->]. by apply counter_counted.
  - destruct (open_call _ _ _ _ _ Hs Hc' Hf Ha) as [_ [->| ->]]; [done|by apply counter_counted].
  - by rewrite Hv.
Qed.

(** In every history of the counter in Redis, calls that fail open and other
    traffic between, the calls counted within a window, wherever it begins, are
    admitted at most twice the limit; and within the lifetime of one counter at most
    the limit. *)
Theorem fixed_window_bound a t0 r0 ds0 t1 r1 ds t2 r2 :
  0 < span → view r0 t0 (rateKey c key) = None → serves t0 r0 ds0 t1 r1 → serves t1 r1 ds t2 r2 →
  Forall (λ p, a ≤ p.1 ≤ a + span) ds →
  admitted ds ≤ 2 * Z.max 0 (rl_limit c)
  ∧ ((view r1 t1 (rateKey c key) = None ∧ a ≤ t1
      ∨ ∃ n d, view r1 t1 (rateKey c key) = Some (n, Some d) ∧ a + span ≤ d) → admitted ds ≤ Z.max 0 (rl_limit c)).
Proof.
  intros Hs Hv0 Hr0 Hr Hd. assert (Hc : counter t1 (view r1 t1 (rateKey c key))).
  { apply (serves_counter _ _ _ _ _ Hs Hr0). by rewrite Hv0. }
  pose proof (serves_room a _ _ _ _ _ Hs Hr Hc Hd) as Hroom. unfold room, L in Hroom. split.
  - destruct (view r1 t1 _) as [[n [d|]]|]; simpl in Hc; repeat destruct (_ <=? _); lia.
  - intros [[Hn Ha]|(n & d & Hn & Hda)]; rewrite Hn in Hroom, Hc; simpl in Hc.
    + by rewrite (proj2 (Z.leb_le a t1)) in Hroom.
    + rewrite (proj2 (Z.leb_le _ _)) in Hroom by done. lia.
Qed.
End FixedWindow.

(** ** What a request costs *)

Definition wild (seg : string) : bool := HasPrefix seg "{" && HasSuffix seg "}".
Definition rest (seg : string) : bool := HasPrefix seg "{" && HasSuffix seg "...}".

(** The literal segments of a pattern, and the paths it stands for. *)
Definition literals (segs : list string) : Z := Z.of_nat (length (List.filter (λ s, negb (wild s)) segs)).
Definition stands_for (segs path : list string) : Prop := Forall2 (λ s u, wild s = true ∨ s = u) segs path.
Definition fits (method path : string) (rc : RouteCost) : Prop :=
  rc_Method rc = method ∧ stands_for (Idempotency.splitPath (rc_Pattern rc)) (Idempotency.splitPath path).
Definition rank (rc : RouteCost) : Z := literals (Idempotency.splitPath (rc_Pattern rc)).

Lemma matchFrom_spec segs path n :
  Forall (λ s, rest s = false) segs →
  matchFrom segs path n = (n + literals segs, true) ∧ stands_for segs path
  ∨ matchFrom segs path n = (0, false) ∧ ¬ stands_for segs path.
Proof.
  unfold rest, stands_for, literals, wild. intros Hs. revert path n. induction Hs as [|s segs Hr Hs IH]; intros path n.
  - destruct path as [|u path]; simpl; [left; split; [f_equal; lia|constructor]|right; split; [done|]].
    intros Hf. by inversion Hf.
  - cbn [matchFrom]. rewrite Hr. destruct path as [|u path].
    { right. split; [done|]. intros Hf. inversion Hf. }
    cbn [List.filter]. destruct (HasPrefix s "{" && HasSuffix s "}") eqn:Ew; simpl.
    + destruct (IH path n) as [[-> Hf]|[-> Hf]]; [left|right]; (split; [done|]).
      * constructor; [by left|done].
      * intros Hx. inversion Hx; subst. done.
    + case_decide as Eu; [|right; split; [done|]; intros Hx; inversion Hx; subst; naive_solver congruence].
      destruct (IH path (n + 1)) as [[-> Hf]|[-> Hf]]; [left|right]; (split; [|]).
      * f_equal. lia.
      * constructor; [by right|done].
      * done.
      * intros Hx. inversion Hx; subst. done.
Qed.

Definition plain (rc : RouteCost) : bool := forallb (λ s, negb (rest s)) (Idempotency.splitPath (rc_Pattern rc)).

Lemma better_step method path x rc :
  plain rc = true →
  better method path x rc = x ∧ (fits method path rc → rank rc ≤ x.1)
  ∨ fits method path rc ∧ x.1 < rank rc
    ∧ better method path x rc = (rank rc, (rc_Cost rc, rc_Method rc +:+ " " +:+ rc_Pattern rc)).
Proof.
  intros Hp. assert (Hr : Forall (λ s, rest s = false) (Idempotency.splitPath (rc_Pattern rc))).
  { unfold plain in Hp. rewrite forallb_forall in Hp. apply Forall_forall. intros s Hs%list_elem_of_In.
    by apply Hp, negb_true_iff in Hs. }
  unfold better, fits, rank, matchPattern. case_bool_decide as Em; simpl; [|left; split; [done|]; by intros [? _]].
  destruct (matchFrom_spec _ (Idempotency.splitPath path) 0 Hr) as [[-> Hf]|[-> Hf]]; cbn [negb orb].
  - rewrite Z.add_0_l. destruct (literals _ <=? x.1) eqn:El; go_bool; [left; split; [done|by intros]|by right].
  - left. split; [done|]. by intros [_ ?].
Qed.

(** What the loop has found after the entries [l]. *)
Definition found (method path : string) (l : list RouteCost) (x : Z * (Z * string)) : Prop :=
  (x = (-1, (DefaultRouteCost, method +:+ " *")) ∧ ∀ rc, rc ∈ l → ¬ fits method path rc)
  ∨ ∃ rc, rc ∈ l ∧ fits method path rc ∧ x = (rank rc, (rc_Cost rc, rc_Method rc +:+ " " +:+ rc_Pattern rc))
          ∧ ∀ rc', rc' ∈ l → fits method path rc' → rank rc' ≤ rank rc.

Lemma rank_nonneg rc : 0 ≤ rank rc.
Proof. unfold rank, literals. lia. Qed.

Lemma found_all method path l :
  forallb plain l = true → found method path l (foldl (better method path) (-1, (DefaultRouteCost, method +:+ " *")) l).
Proof.
  induction l as [|rc l IH] using rev_ind; [left; split; [done|]; by intros rc ?%not_elem_of_nil|]. rewrite forallb_app, foldl_snoc. simpl. rewrite andb_true_r.
  intros [Hl Hp]%andb_true_iff. specialize (IH Hl). set (x := foldl _ _ l) in *. clearbody x.
  destruct (better_step method path x rc Hp) as [[-> Hx]|(Hf & Hlt & ->)].
  - destruct IH as [[-> Hn]|(r & Hr & Hfr & -> & Hmax)]; simpl in Hx.
    + left. split; [done|]. intros rc' [Hin| ->%list_elem_of_singleton]%elem_of_app; [by apply Hn|].
      intros Hf. apply Hx in Hf. pose proof (rank_nonneg rc). lia.
    + right. exists r. split_and!; [by apply elem_of_app; left|done|done|].
      intros rc' [Hin| ->%list_elem_of_singleton]%elem_of_app; [by apply Hmax|done].
  - right. exists rc. split_and!; [apply elem_of_app; right; by apply list_elem_of_singleton|done|done|].
    intros rc' [Hin| ->%list_elem_of_singleton]%elem_of_app Hf'; [|lia].
    destruct IH as [[-> Hn]|(r & Hr & Hfr & -> & Hmax)]; [by apply Hn in Hf'|]. simpl in Hlt.
    pose proof (Hmax _ Hin Hf'). lia.
Qed.

(** A request is charged the cost of the entry of the table that stands for its
    method and path with the most literal segments, the default cost exactly when
    no entry does, and never more than the cost below which the server refuses to
    start. *)
Theorem cost_is_most_specific method path :
  let '(cost, label) := costAndLabel method path in
  1 ≤ cost ≤ MaxRouteCost
  ∧ ((∃ rc, rc ∈ routeCosts ∧ fits method path rc ∧ cost = rc_Cost rc
            ∧ label = rc_Method rc +:+ " " +:+ rc_Pattern rc
            ∧ ∀ rc', rc' ∈ routeCosts → fits method path rc' → rank rc' ≤ rank rc)
     ∨ (∀ rc, rc ∈ routeCosts → ¬ fits method path rc) ∧ cost = DefaultRouteCost ∧ label = method +:+ " *").
Proof.
  unfold costAndLabel. pose proof (found_all method path routeCosts eq_refl) as Hf.
  set (x := foldl _ _ routeCosts) in *. clearbody x.
  destruct Hf as [[-> Hn]|(rc & Hin & Hfit & -> & Hmax)]; simpl.
  - split; [by vm_compute|]. by right.
  - split; [|left; by exists rc].
    assert (Hall : forallb (λ rc, (1 <=? rc_Cost rc) && (rc_Cost rc <=? MaxRouteCost)) routeCosts = true) by (vm_compute; reflexivity).
    rewrite forallb_forall in Hall. apply list_elem_of_In in Hin. apply Hall in Hin. go_bool. lia.
Qed.

(** Each entry of the table is charged for the paths it was written for. *)
Lemma declared_costs :
  forallb (λ rc, CostForRequest (rc_Method rc) (rc_Pattern rc) =? rc_Cost rc) routeCosts = true.
Proof. vm_compute. reflexivity. Qed.

(** ** Scenes *)

Lemma client_ip_unspoofable_witness :
  clientIP 2 "10.0.0.2:4711" (foldl forwarded "6.6.6.6, 7.7.7.7" ["203.0.113.7"; "10.0.0.1"]) = "203.0.113.7".
Proof.
  apply (client_ip_unspoofable 2 "6.6.6.6, 7.7.7.7" "203.0.113.7" ["10.0.0.1"] "10.0.0.2:4711").
  - repeat (apply Forall_cons; split; [unfold address; split_and!; [discriminate|vm_compute; reflexivity..]|]). constructor.
  - vm_compute. reflexivity.
Defined.

(** One proxy fewer than configured, and the sender chooses the address. *)
Example missing_proxy_is_spoofed :
  clientIP 2 "10.0.0.2:4711" (foldl forwarded "6.6.6.6" ["203.0.113.7"]) = "6.6.6.6".
Proof. vm_compute. reflexivity. Qed.

(** Two requests a second: two at the end of one counter's life and two after it
    are four within a tenth of a second. *)
Definition scene_limiter : redisLimiter := mkRedisLimiter "auth" 2 Second.
Definition limiter_call (t : Time) (r : gmap string (Z * option Time)) :=
  redisAllow scene_limiter t Reached "203.0.113.7" r.
Definition scene_1 := (limiter_call 0 ∅).2.
Definition scene_2 := (limiter_call (950 * Millisecond) scene_1).2.
Definition scene_3 := (limiter_call (1001 * Millisecond) scene_2).2.
Definition scene_4 := (limiter_call (1002 * Millisecond) scene_3).2.

Ltac limiter_step r :=
  apply (s_allow _ _ _ _ _ _ 0 r);
  [vm_compute; discriminate|intros Hf; specialize (Hf eq_refl); vm_compute in Hf; discriminate Hf|vm_compute; reflexivity|].

Lemma scene_serves :
  serves scene_limiter "203.0.113.7" 0 scene_1
    [(950 * Millisecond, true); (1001 * Millisecond, true); (1002 * Millisecond, true)] (1002 * Millisecond) scene_4.
Proof.
  limiter_step scene_2.
  limiter_step scene_3.
  limiter_step scene_4. constructor.
Qed.

Lemma fixed_window_bound_witness :
  admitted [(950 * Millisecond, true); (1001 * Millisecond, true); (1002 * Millisecond, true)] ≤ 4.
Proof.
  destruct (fixed_window_bound scene_limiter "203.0.113.7" (950 * Millisecond) 0
    (∅ : gmap string (Z * option Time)) [(0, true)] 0 scene_1
    [(950 * Millisecond, true); (1001 * Millisecond, true); (1002 * Millisecond, true)]
    (1002 * Millisecond) scene_4) as [H _].
  - vm_compute. reflexivity.
  - vm_compute. reflexivity.
  - limiter_step scene_1. constructor.
  - exact scene_serves.
  - repeat constructor; vm_compute; discriminate.
  - exact H.
Defined.

(** A fourth request is refused until the counter expires. *)
Example fourth_is_refused : limiter_call (1003 * Millisecond) scene_4 = ((false, Second), (limiter_call (1003 * Millisecond) scene_4).2).
Proof. vm_compute. reflexivity. Qed.
