(* ===== verification/AuthGuard.v ===== *)
(** The guard of the wallet sign-in (internal/middleware: authlockout.go,
    authguard.go): failures are counted per wallet and per client, a key with too
    many of them is locked out for a time that doubles, and the middleware in front
    of the two routes of the handshake asks and informs both trackers.

    The trackers are the class [AuthLockout], with the one in memory and the one in
    Redis as instances; what they promise is [LockoutLaws].  The readings of clocks,
    how calls to Redis end, the handler and the JSON decoder are arguments. *)

From S2P Require Import Prelude GoStrings RedisKeys.
From S2P Require Idempotency.
From S2P Require Import Limiter.
Open Scope Z_scope.
Open Scope go_scope.

(** ** The backoff (authlockout.go) *)

Record AuthLockoutConfig := mkLockout {
  Threshold : Z;
  Window : Duration;
  Base : Duration;
  Max : Duration;
}.

(** The loop of [lockoutFor], with [n] doublings to go. *)
Fixpoint doubled (c : AuthLockoutConfig) (n : nat) (lockout : Duration) : Duration :=
  match n with
  | O => if Max c <? lockout then Max c else lockout
  | S n => if Max c <=? lockout then Max c else doubled c n (lockout *w 2)
  end.

Definition lockoutFor (c : AuthLockoutConfig) (failures : Z) : Duration :=
  if failures <=? Threshold c then 0 else doubled c (Z.to_nat (failures -w Threshold c -w 1)) (Base c).

(** ** Trackers of failures *)

Class AuthLockout (E L : Type) := {
  Locked : E → string → L → bool * Duration;
  RecordFailure : E → string → L → (Duration * bool) * L;
  Reset : E → string → L → L;
}.

(** *** In memory *)

Record memoryAuthEntry := mkAuthEntry { failures : Z; failuresEnd : Time; lockedUntil : Time }.

Abbreviation Entries := (gmap string memoryAuthEntry) (only parsing).

(** What the clock reads, and what it reads in time.Until right after. *)
Record Clock := mkClock { now : Time; then_ : Time }.

Definition memLocked (e : Clock) (key : string) (m : Entries) : bool * Duration :=
  match m !! key with
  | None => (false, 0)
  | Some entry => if now e <? lockedUntil entry then (true, timeSub (lockedUntil entry) (then_ e)) else (false, 0)
  end.

Definition expired (now : Time) (entry : memoryAuthEntry) : bool :=
  (failuresEnd entry <? now) && (lockedUntil entry <? now).

Definition evictExpiredLocked (now : Time) (m : Entries) : Entries :=
  filter (λ p : string * memoryAuthEntry, expired now p.2 = false) m.

Definition freshEntry : memoryAuthEntry := mkAuthEntry 0 zeroTime zeroTime.

Definition memRecordFailure (c : AuthLockoutConfig) (e : Clock) (key : string) (m : Entries)
    : (Duration * bool) * Entries :=
  let m := evictExpiredLocked (now e) m in
  let entry := match m !! key with
               | Some entry => if failuresEnd entry <? now e then freshEntry else entry
               | None => freshEntry
               end in
  let n := failures entry +w 1 in
  let until := timeAdd (now e) (Window c) in
  let lockout := lockoutFor c n in
  if lockout <=? 0 then ((0, false), <[key := mkAuthEntry n until (lockedUntil entry)]> m)
  else
    ((lockout, negb (now e <? lockedUntil entry)),
     <[key := mkAuthEntry n until (timeAdd (now e) lockout)]> m).

Definition memoryAuthLockout (c : AuthLockoutConfig) : AuthLockout Clock Entries := {|
  Locked := memLocked;
  RecordFailure := memRecordFailure c;
  Reset e key m := delete key m;
|}.

(** *** In Redis *)

(** When the commands of one call reach Redis and how they end, in their order. *)
Record RedisCall := mkCall { at_ : nat → Time; ends : nat → reached }.

Section RedisLockout.
Context {R : Type} `{RedisKeys R} (c : AuthLockoutConfig) (prefix : string).

Definition failKey (key : string) : string := "authfail:" +:+ prefix +:+ ":" +:+ key.
Definition lockKey (key : string) : string := "authlock:" +:+ prefix +:+ ":" +:+ key.

(** go-redis passes the answers -1 and -2 of PTTL on as they are. *)
Definition redisLocked (e : RedisCall) (key : string) (r : R) : bool * Duration :=
  match attempt (ends e 0) (λ r, (PTTL (at_ e 0) (lockKey key) r, r)) r with
  | (None, _) => (false, 0)
  | (Some n, _) =>
      let ttl := if n <? 0 then n else n * Millisecond in
      if ttl <=? 0 then (false, 0) else (true, ttl)
  end.

Definition authFailureScript (now : Time) (key : string) (ms : Z) (r : R) : option Z * R :=
  match INCR now key r with
  | (None, r) => (None, r)
  | (Some failures, r) => (Some failures, PEXPIRE now key ms r)
  end.

Definition redisRecordFailure (e : RedisCall) (key : string) (r : R) : (Duration * bool) * R :=
  match attempt (ends e 0) (authFailureScript (at_ e 0) (failKey key) (Window c `quot` Millisecond)) r with
  | (Some (Some failures), r) =>
      let lockout := lockoutFor c failures in
      if lockout <=? 0 then ((0, false), r)
      else
        match attempt (ends e 1) (SET (at_ e 1) true (lockKey key) lockout) r with
        | (None, r) => ((lockout, false), r)
        | (Some true, r) => ((lockout, true), r)
        | (Some false, r) =>
            ((lockout, false), (attempt (ends e 2) (SET (at_ e 2) false (lockKey key) lockout) r).2)
        end
  | (_, r) => ((0, false), r)
  end.

Definition redisReset (e : RedisCall) (key : string) (r : R) : R :=
  (attempt (ends e 0) (λ r, (tt, DEL (at_ e 0) [failKey key; lockKey key] r)) r).2.

Definition redisAuthLockout : AuthLockout RedisCall R := {|
  Locked := redisLocked;
  RecordFailure := redisRecordFailure;
  Reset := redisReset;
|}.
End RedisLockout.

(** ** The middleware (authguard.go) *)

Definition maxAuthBodyPeek : Z := 8192.

Definition AuthStageChallenge : string := "challenge".
Definition AuthStageVerify : string := "verify".
Definition AuthScopeWallet : string := "wallet".
Definition AuthScopeIP : string := "ip".

Record AuthGuardStage := mkStage { Stage : string; Route : Idempotency.RouteMatch }.

(** A request body: absent, or bytes that end or break off with an error. *)
Inductive Body := NoBody | Bytes (content : string) (fails : bool).

Record Request := mkRequest { Method : string; Path : string; IP : string; Body_ : Body }.

(** [walletField] is what encoding/json reads as the field wallet_address of a
    text, if it is valid JSON of that shape. *)
Definition peekWalletAddress (walletField : string → option string) (r : Request) : result unit (string * Request) :=
  match Body_ r with
  | NoBody => Ok ("", r)
  | Bytes content fails =>
      let body := slice (maxAuthBodyPeek + 1) content in
      if fails && (len content <=? maxAuthBodyPeek) then Err tt
      else
        let r := mkRequest (Method r) (Path r) (IP r) (Bytes body false) in
        if maxAuthBodyPeek <? len body then Ok ("", r)
        else match walletField body with
             | None => Ok ("", r)
             | Some wallet => Ok (TrimSpace wallet, r)
             end
  end.

(** A request whose body could not be read: nothing of it is left. *)
Definition drained (r : Request) : Request := mkRequest (Method r) (Path r) (IP r) (Bytes "" true).

Definition stageFor (stages : list AuthGuardStage) (r : Request) : option AuthGuardStage :=
  List.find (λ s, bool_decide (Method r = Idempotency.Method (Route s))
                  && Idempotency.matchPathPattern (Idempotency.Path (Route s)) (Path r)) stages.

(** What the recorder is told: scope and stage. *)
Inductive Observation := Failure (scope stage : string) | Lockout (scope stage : string) | LockedRequest (scope stage : string).

(** The environments of the calls one request makes. *)
Record GuardEnv (E EL : Type) := mkGuardEnv {
  e_wallet : E;
  e_ip : E;
  e_limiter : EL;
  e_wallet_after : E;
  e_ip_after : E;
}.
Arguments mkGuardEnv {E EL}. Arguments e_wallet {E EL}. Arguments e_ip {E EL}. Arguments e_limiter {E EL}.
Arguments e_wallet_after {E EL}. Arguments e_ip_after {E EL}.

Inductive Reply := Served (status : Z) | Refused (wait : Duration) (message : string).

Section Guard.
(** The two trackers and the limiter act on one store, as they do in Redis. *)
Context {E EL L : Type}.

Record AuthGuard := mkAuthGuard {
  walletLimiter : option (Limiter EL L);
  walletLockout : AuthLockout E L;
  ipLockout : AuthLockout E L;
  stages : list AuthGuardStage;
}.

(** What the guard acts on: the store and what the recorder was told. *)
Record GuardState := mkState { store : L; recorded : list Observation }.

Context (walletField : string → option string) (g : AuthGuard).

Definition recordFailure (T : AuthLockout E L) (e : E) (scope stage key : string) (x : GuardState) : GuardState :=
  let '((_, justLocked), l) := RecordFailure e key (store x) in
  mkState l (recorded x ++ Failure scope stage :: (if justLocked then [Lockout scope stage] else [])).

Definition observe (e : GuardEnv E EL) (stage wallet ip : string) (status : Z) (x : GuardState) : GuardState :=
  if status <? 400 then
    let l := if decide (wallet = "") then store x else @Reset _ _ (walletLockout g) (e_wallet_after e) wallet (store x) in
    mkState (@Reset _ _ (ipLockout g) (e_ip_after e) ip l) (recorded x)
  else if (500 <=? status) || (status =? 429) then x
  else
    let x := if decide (wallet = "") then x
             else recordFailure (walletLockout g) (e_wallet_after e) AuthScopeWallet stage wallet x in
    recordFailure (ipLockout g) (e_ip_after e) AuthScopeIP stage ip x.

Definition lockedRequest (scope stage : string) (x : GuardState) : GuardState :=
  mkState (store x) (recorded x ++ [LockedRequest scope stage]).

(** The limit per wallet, where there is a limiter and a wallet. *)
Definition limitWallet (e : EL) (wallet : string) (x : GuardState) : bool * Duration * GuardState :=
  match walletLimiter g with
  | Some allow =>
      if decide (wallet = "") then (true, 0, x)
      else let '((allowed, wait), l) := allow e wallet (store x) in (allowed, wait, mkState l (recorded x))
  | None => (true, 0, x)
  end.

(** [next] is the handler, on a world of its own. *)
Definition Middleware {W} (next : Request → W → Z * W) (e : GuardEnv E EL) (r : Request) (x : GuardState) (w : W)
    : Reply * GuardState * W :=
  match stageFor (stages g) r with
  | None => let '(status, w) := next r w in (Served status, x, w)
  | Some stage =>
      match peekWalletAddress walletField r with
      | Err _ => let '(status, w) := next (drained r) w in (Served status, x, w)
      | Ok (wallet, r) =>
          let '(walletLocked, wait) := if decide (wallet = "") then (false, 0)
                                       else @Locked _ _ (walletLockout g) (e_wallet e) wallet (store x) in
          if walletLocked then
            (Refused wait "too many failed authentication attempts for this wallet",
             lockedRequest AuthScopeWallet (Stage stage) x, w)
          else
            let '(ipLocked, wait) := @Locked _ _ (ipLockout g) (e_ip e) (IP r) (store x) in
            if ipLocked then
              (Refused wait "too many failed authentication attempts from this client",
               lockedRequest AuthScopeIP (Stage stage) x, w)
            else
              let '(allowed, wait, x) := limitWallet (e_limiter e) wallet x in
              if negb allowed then (Refused wait "authentication rate limit exceeded for this wallet", x, w)
              else
                let '(status, w) := next r w in
                (Served status, observe e (Stage stage) wallet (IP r) status x, w)
      end
  end.
End Guard.
Arguments AuthGuard : clear implicits. Arguments GuardState : clear implicits.

(** The two routes of the handshake, as the server guards them (cmd/api/main.go). *)
Definition authStages : list AuthGuardStage := [
  mkStage AuthStageChallenge (Idempotency.mkRoute "POST" "/api/v1/auth/challenge");
  mkStage AuthStageVerify (Idempotency.mkRoute "POST" "/api/v1/auth/verify")
].
