(* ===== verification/AuthGuardRuns.v ===== *)
(** What the trackers of [AuthGuard] promise, that both of them keep it, and what
    follows for an attacker: repeated failures are spaced by the backoff, nobody is
    locked out for longer than its cap, and a sign-in flow that asks for a fresh
    challenge before every guess is never locked out at all. *)

From S2P Require Import Prelude GoStrings RedisKeys.
From S2P Require Idempotency.
From S2P Require Import Limiter AuthGuard.
Open Scope Z_scope.
Open Scope go_scope.

(** ** The backoff *)

Record sane (c : AuthLockoutConfig) : Prop := {
  sane_base : 0 < Base c ≤ max_i64;
  sane_max : 0 < Max c ≤ 2 ^ 62;
  sane_threshold : 0 ≤ Threshold c ≤ max_i64;
  sane_window : Millisecond ≤ Window c;
}.

Lemma doubled_spec c n lockout :
  0 ≤ Max c ≤ 2 ^ 62 → 0 ≤ lockout ≤ max_i64 → doubled c n lockout = Z.min (Max c) (lockout * 2 ^ Z.of_nat n).
Proof.
  intros Hm. revert lockout. induction n as [|n IH]; intros lockout Hl; cbn [doubled].
  - rewrite Z.mul_1_r. destruct (Z.ltb_spec (Max c) lockout); lia.
  - assert (Hp : 0 < 2 ^ Z.of_nat n) by (apply Z.pow_pos_nonneg; lia).
    assert (He : 2 ^ Z.of_nat (S n) = 2 * 2 ^ Z.of_nat n) by (rewrite Nat2Z.inj_succ, Z.pow_succ_r by lia; lia).
    destruct (Z.leb_spec (Max c) lockout); [rewrite He; nia|].
    unfold max_i64 in *. rewrite i64_id by (unfold in_i64, min_i64, max_i64; lia). rewrite IH by lia. rewrite He. f_equal. ring.
Qed.

(** Up to the threshold a failure costs nothing; beyond it the lockout starts at
    the base and doubles with every failure up to the cap, without overflow, so
    that it is positive, never exceeds the cap and never falls. *)
Theorem backoff_doubles c f :
  sane c → 0 ≤ f ≤ max_i64 →
  lockoutFor c f = (if f <=? Threshold c then 0 else Z.min (Max c) (Base c * 2 ^ (f - Threshold c - 1)))
  ∧ 0 ≤ lockoutFor c f ≤ Max c
  ∧ (Threshold c < f → 0 < lockoutFor c f)
  ∧ ∀ g, 0 ≤ g ≤ f → lockoutFor c g ≤ lockoutFor c f.
Proof.
  intros [Hb Hm Ht _] Hf. assert (H : ∀ f, 0 ≤ f ≤ max_i64 → lockoutFor c f =
    (if f <=? Threshold c then 0 else Z.min (Max c) (Base c * 2 ^ (f - Threshold c - 1)))).
  { clear f Hf. intros f Hf. unfold lockoutFor. destruct (Z.leb_spec f (Threshold c)); [done|].
    unfold max_i64 in *. rewrite (i64_id (f - _)) by (unfold in_i64, min_i64, max_i64; lia).
    rewrite i64_id by (unfold in_i64, min_i64, max_i64; lia).
    rewrite doubled_spec by (unfold max_i64; lia). by rewrite Z2Nat.id by lia. }
  assert (Hp : ∀ x, 0 ≤ x → 0 < 2 ^ x) by (intros; apply Z.pow_pos_nonneg; lia).
  split; [by apply H|]. rewrite (H f Hf). split; [|split].
  - destruct (Z.leb_spec f (Threshold c)); [lia|]. specialize (Hp (f - Threshold c - 1)). nia.
  - intros Hlt. rewrite (proj2 (Z.leb_gt _ _)) by done. specialize (Hp (f - Threshold c - 1)). nia.
  - intros g Hg. rewrite H by lia.
    destruct (Z.leb_spec g (Threshold c)), (Z.leb_spec f (Threshold c)); [lia| |lia|].
    + specialize (Hp (f - Threshold c - 1)). nia.
    + pose proof (Z.pow_le_mono_r 2 (g - Threshold c - 1) (f - Threshold c - 1)). nia.
Qed.

(** ** What a tracker promises *)

(** When a call takes effect, whether it went well, and what a tracker holds about a
    key at a time: its failures that still count, and whether it is locked. *)
Record View (E L : Type) := mkView {
  starts : E → Time;
  finishes : E → Time;
  proper : E → Prop;
  count : L → Time → string → Z;
  locked : L → Time → string → bool;
  period : Duration;
  slack : Duration;
}.
Arguments mkView {E L}. Arguments starts {E L}. Arguments finishes {E L}. Arguments proper {E L}.
Arguments count {E L}. Arguments locked {E L}. Arguments period {E L}. Arguments slack {E L}.

Class LockoutLaws {E L : Type} (c : AuthLockoutConfig) (T : AuthLockout E L) (V : View E L) : Prop := {
  ll_order e : proper V e → starts V e ≤ finishes V e;
  ll_slack : 0 ≤ slack V;
  ll_period : 0 < period V;
  ll_asks e k l : proper V e → (@Locked _ _ T e k l).1 = locked V l (starts V e) k;
  ll_ends l t t' k : t ≤ t' → locked V l t' k = true → locked V l t k = true;
  ll_forgets l t t' k : t ≤ t' → count V l t' k = count V l t k ∨ count V l t' k = 0;
  ll_record e k l d j l' :
    proper V e → 0 ≤ count V l (starts V e) k < max_i64 → @RecordFailure _ _ T e k l = ((d, j), l') →
    d = lockoutFor c (count V l (starts V e) k + 1)
    ∧ (∀ t, finishes V e ≤ t →
         count V l' t k = if t <=? starts V e + period V then count V l (starts V e) k + 1 else 0)
    ∧ (∀ t, finishes V e ≤ t → t < starts V e + d - slack V → locked V l' t k = true)
    ∧ (∀ t, finishes V e ≤ t → locked V l' t k = true →
         locked V l t k = true ∨ 0 < d ∧ t < finishes V e + d + slack V);
  ll_reset e k l t :
    proper V e → finishes V e ≤ t → count V (@Reset _ _ T e k l) t k = 0 ∧ locked V (@Reset _ _ T e k l) t k = false;
  ll_record_other e k k' l t :
    proper V e → k' ≠ k → finishes V e ≤ t →
    count V (@RecordFailure _ _ T e k l).2 t k' = count V l t k'
    ∧ locked V (@RecordFailure _ _ T e k l).2 t k' = locked V l t k';
  ll_reset_other e k k' l t :
    proper V e → k' ≠ k → finishes V e ≤ t →
    count V (@Reset _ _ T e k l) t k' = count V l t k' ∧ locked V (@Reset _ _ T e k l) t k' = locked V l t k';
}.

(** *** In memory *)

Definition memoryView (c : AuthLockoutConfig) : View Clock (gmap string memoryAuthEntry) := {|
  starts := now;
  finishes := now;
  proper e := zeroTime ≤ now e;
  count m t k := match m !! k with Some en => if failuresEnd en <? t then 0 else failures en | None => 0 end;
  locked m t k := match m !! k with Some en => t <? lockedUntil en | None => false end;
  period := Window c;
  slack := 0;
|}.

Lemma evicted m t0 t k c :
  t0 ≤ t →
  count (memoryView c) (evictExpiredLocked t0 m) t k = count (memoryView c) m t k
  ∧ locked (memoryView c) (evictExpiredLocked t0 m) t k = locked (memoryView c) m t k.
Proof.
  intros Ht. simpl. unfold evictExpiredLocked. rewrite map_lookup_filter.
  destruct (m !! k) as [en|]; simpl; [|done]. unfold expired. case_guard as Hg; simpl; [done|].
  apply not_false_iff_true, andb_true_iff in Hg as [H1 H2]. go_bool.
  by rewrite (proj2 (Z.ltb_lt _ _)), (proj2 (Z.ltb_ge _ _)) by lia.
Qed.

#[export] Instance memory_laws c : sane c → LockoutLaws c (memoryAuthLockout c) (memoryView c).
Proof.
  intros Hsane. split; unfold RecordFailure, Locked, Reset, memoryAuthLockout.
  - done.
  - done.
  - simpl. destruct Hsane as [_ _ _ Hw]. unfold Millisecond, Microsecond, Nanosecond in Hw. lia.
  - intros e k l _. simpl. unfold memLocked. destruct (l !! k); [|done]. by destruct (_ <? _).
  - intros l t t' k Ht. simpl. destruct (l !! k); [|done]. rewrite !Z.ltb_lt. lia.
  - intros l t t' k Ht. simpl. destruct (l !! k) as [en|]; [|by left].
    destruct (Z.ltb_spec (failuresEnd en) t), (Z.ltb_spec (failuresEnd en) t'); auto; lia.
  - intros e k l d j l' Hz Hc. cbn [starts finishes period slack proper memoryView] in *. destruct (evicted l (now e) (now e) k c ltac:(lia)) as [Hcount _].
    rewrite <-Hcount in Hc |- *.
    assert (Hlock : ∀ t, now e ≤ t → locked (memoryView c) (evictExpiredLocked (now e) l) t k = true →
      locked (memoryView c) l t k = true) by (intros t Ht; by rewrite (proj2 (evicted l (now e) t k c Ht))).
    unfold memRecordFailure. set (m := evictExpiredLocked _ l) in *. clearbody m. clear Hcount.
    set (en := match m !! k with Some _ => _ | None => _ end).
    assert (Hn : failures en = count (memoryView c) m (now e) k).
    { unfold en. simpl. destruct (m !! k) as [x|]; [|done]. by destruct (failuresEnd x <? now e). }
    assert (Hu : ∀ t, now e ≤ t → t < lockedUntil en → locked (memoryView c) l t k = true).
    { intros t Ht Hlt. apply Hlock; [done|]. simpl in *. unfold en in Hlt. destruct (m !! k) as [x|]; simpl in *; [|lia].
      destruct (failuresEnd x <? now e); simpl in *; [lia|]. by apply Z.ltb_lt. }
    rewrite Hn. set (n := count _ m (now e) k) in *. clearbody n. simpl in Hc.
    rewrite i64_id by (unfold in_i64, min_i64, max_i64 in *; lia).
    destruct (backoff_doubles c (n + 1) Hsane ltac:(lia)) as (_ & [Hd _] & _).
    destruct (Z.leb_spec (lockoutFor c (n + 1)) 0); intros [= <- <- <-]; simpl; rewrite !lookup_insert_eq; simpl;
      (split; [lia|split; [|split]]); unfold timeAdd.
    + intros t Ht. destruct (Z.ltb_spec (now e + Window c) t), (Z.leb_spec t (now e + Window c)); done || lia.
    + intros t Ht. lia.
    + intros t Ht Hl%Z.ltb_lt. left. by apply Hu.
    + intros t Ht. destruct (Z.ltb_spec (now e + Window c) t), (Z.leb_spec t (now e + Window c)); done || lia.
    + intros t Ht Hlt. apply Z.ltb_lt. lia.
    + intros t Ht Hl%Z.ltb_lt. right. lia.
  - intros e k l t _ _. simpl. by rewrite lookup_delete_eq.
  - intros e k k' l t _ Hk Ht. destruct (evicted l (now e) t k' c Ht) as [<- <-].
    unfold memRecordFailure. set (m := evictExpiredLocked _ l). simpl. destruct (_ <=? 0); simpl; by rewrite !lookup_insert_ne.
  - intros e k k' l t _ Hk _. simpl. by rewrite !lookup_delete_ne.
Qed.

(** *** In Redis *)

Section Redis.
Context {R : Type} `{RedisKeysLaws R} (c : AuthLockoutConfig) (prefix : string).

(** The calls of one operation reach Redis in their order and are answered. *)
Definition answered (e : RedisCall) : Prop := at_ e 0 ≤ at_ e 1 ≤ at_ e 2 ∧ ∀ i, ends e i = Reached.

Definition redisView : View RedisCall R := {|
  starts e := at_ e 0;
  finishes e := at_ e 2;
  proper := answered;
  count r t k := default 0 (fst <$> view r t (failKey prefix k));
  locked r t k := match view r t (lockKey prefix k) with Some (_, Some d) => Millisecond <=? d - t | _ => false end;
  period := Window c `quot` Millisecond * Millisecond;
  slack := 2 * Millisecond;
|}.

Lemma failKey_inj k k' : failKey prefix k = failKey prefix k' → k = k'.
Proof. unfold failKey. by intros ?%(inj (String.append _))%(inj (String.append _))%(inj (String.append _)). Qed.
Lemma lockKey_inj k k' : lockKey prefix k = lockKey prefix k' → k = k'.
Proof. unfold lockKey. by intros ?%(inj (String.append _))%(inj (String.append _))%(inj (String.append _)). Qed.
Lemma failKey_lockKey k k' : failKey prefix k ≠ lockKey prefix k'.
Proof. done. Qed.

Lemma view_keeps r r1 now t k : now ≤ t → view r1 now k = view r now k → view r1 t k = view r t k.
Proof. intros Ht Hv. by rewrite (view_later r1 now t k Ht), (view_later r now t k Ht), Hv. Qed.

Lemma locked_now r t k :
  (let ttl := PTTL t (lockKey prefix k) r in
   if (if ttl <? 0 then ttl else ttl * Millisecond) <=? 0 then false else true) = locked redisView r t k.
Proof.
  simpl. rewrite pttl_view. destruct (view r t _) as [[v [d|]]|]; [|done..]. unfold Millisecond, Microsecond, Nanosecond.
  destruct (Z.ltb_spec ((d - t) / (1000 * (1000 * 1))) 0), (Z.leb_spec (1000 * (1000 * 1)) (d - t));
    match goal with |- context [?x <=? 0] => destruct (Z.leb_spec x 0) end; done || go_mod.
Qed.

Lemma redis_period : sane c → 0 < period redisView.
Proof. intros [_ _ _ Hw]. simpl. unfold Millisecond, Microsecond, Nanosecond in *. go_mod. Qed.

Lemma script_count now k r o r1 :
  let n := default 0 (fst <$> view r now (failKey prefix k)) in
  0 < period redisView → 0 ≤ n < max_i64 →
  authFailureScript now (failKey prefix k) (Window c `quot` Millisecond) r = (o, r1) →
  o = Some (n + 1)
  ∧ ∀ x, view r1 now x = if decide (x = failKey prefix k) then Some (n + 1, Some (now + period redisView)) else view r now x.
Proof.
  intros n Hp Hn. unfold authFailureScript. simpl in Hp. destruct (INCR now (failKey prefix k) r) as [[m|] r2] eqn:E.
  - destruct (incr_some _ _ _ _ _ E) as [-> Hv]. intros [= <- <-]. split; [done|]. intros x.
    rewrite pexpire_view. case_decide; subst; [|rewrite Hv; by rewrite decide_False].
    rewrite (proj2 (Z.leb_gt _ _)) by (unfold Millisecond, Microsecond, Nanosecond in *; nia).
    rewrite Hv. by rewrite decide_True.
  - destruct (incr_none _ _ _ _ E) as [Hx _]. fold n in Hx. lia.
Qed.

Lemma count_after r0 t0 r t k n :
  t0 ≤ t → view r0 t0 (failKey prefix k) = Some (n, Some (t0 + period redisView)) → view r t (failKey prefix k) = view r0 t (failKey prefix k) →
  count redisView r t k = if t <=? t0 + period redisView then n else 0.
Proof.
  intros Ht Hv E. simpl. rewrite E, (view_later r0 t0 t) by done. rewrite Hv. simpl.
  by destruct (t <=? _).
Qed.

(** The commands after the script leave the counter alone, and a lock that was set
    holds for the lockout, but for two milliseconds of rounding. *)
Lemma set_lock now nx k ttl r ok r1 t :
  SET now nx (lockKey prefix k) ttl r = (ok, r1) → now ≤ t → 0 < ttl →
  (∀ k', view r1 t (failKey prefix k') = view r t (failKey prefix k'))
  ∧ (∀ k', k' ≠ k → view r1 t (lockKey prefix k') = view r t (lockKey prefix k'))
  ∧ (ok = false → nx = true ∧ locked redisView r1 t k = locked redisView r t k)
  ∧ (ok = true → locked redisView r1 t k = (Millisecond <=? now + px ttl - t)).
Proof.
  intros Hset Ht Httl. destruct (set_view _ _ _ _ _ _ _ Hset) as [Hok Hv]. split_and!.
  - intros k'. apply (view_keeps r r1 now); [done|]. rewrite Hv.
    rewrite bool_decide_eq_false_2 by apply failKey_lockKey. by rewrite andb_false_r.
  - intros k' Hk. apply (view_keeps r r1 now); [done|]. rewrite Hv.
    rewrite bool_decide_eq_false_2 by (by intros ?%lockKey_inj). by rewrite andb_false_r.
  - intros ->. split; [by destruct nx|]. simpl. by rewrite (view_keeps r r1 now t) by (done || by rewrite Hv).
  - intros ->. simpl. rewrite (view_later r1 now t) by done. rewrite Hv. rewrite bool_decide_eq_true_2 by done. simpl.
    destruct (Z.leb_spec t (now + px ttl)); [done|]. symmetry. apply Z.leb_gt. unfold Millisecond, Microsecond, Nanosecond. lia.
Qed.

Lemma px_near d : 0 < d → d - Millisecond < px d ≤ d + Millisecond.
Proof.
  intros Hd. destruct (px_bounds d) as [H1 H2]. destruct (Z.le_gt_cases Millisecond d) as [Hm|Hm].
  - specialize (H2 Hm). unfold Millisecond, Microsecond, Nanosecond in *. lia.
  - unfold px, Millisecond, Microsecond, Nanosecond in *. go_mod.
Qed.

Lemma record_lock e k r n d j r' :
  answered e → sane c → 0 ≤ n < max_i64 →
  (let r1 := (authFailureScript (at_ e 0) (failKey prefix k) (Window c `quot` Millisecond) r).2 in
   let lockout := lockoutFor c (n + 1) in
   if lockout <=? 0 then ((0, false), r1)
   else match attempt (ends e 1) (SET (at_ e 1) true (lockKey prefix k) lockout) r1 with
        | (None, r) => ((lockout, false), r)
        | (Some true, r) => ((lockout, true), r)
        | (Some false, r) => ((lockout, false), (attempt (ends e 2) (SET (at_ e 2) false (lockKey prefix k) lockout) r).2)
        end) = ((d, j), r') →
  let r1 := (authFailureScript (at_ e 0) (failKey prefix k) (Window c `quot` Millisecond) r).2 in
  d = lockoutFor c (n + 1)
  ∧ (∀ t k', at_ e 2 ≤ t → view r' t (failKey prefix k') = view r1 t (failKey prefix k'))
  ∧ (∀ t k', at_ e 2 ≤ t → k' ≠ k → view r' t (lockKey prefix k') = view r1 t (lockKey prefix k'))
  ∧ (d = 0 ∧ r' = r1
     ∨ 0 < d ∧ ∃ now, at_ e 0 ≤ now ≤ at_ e 2
         ∧ ∀ t, at_ e 2 ≤ t → locked redisView r' t k = (Millisecond <=? now + px d - t)).
Proof.
  intros [Ht He] Hsane Hn. cbv zeta. set (r1 := (authFailureScript _ _ _ r).2). clearbody r1.
  destruct (backoff_doubles c (n + 1) Hsane ltac:(lia)) as (_ & [Hd _] & _).
  set (lo := lockoutFor c (n + 1)) in *. clearbody lo. destruct (Z.leb_spec lo 0) as [Hlo|Hlo].
  { intros [= <- <- <-]. split_and!; [lia|done|done|left]. done. }
  rewrite !He. unfold attempt. destruct (SET (at_ e 1) true _ lo r1) as [ok r2] eqn:E1. destruct ok.
  - intros [= <- <- <-]. split; [done|].
    assert (Hs := λ t (Hx : at_ e 2 ≤ t), set_lock _ _ _ _ _ _ _ t E1 ltac:(lia) Hlo).
    split; [intros t k' Hx; apply (Hs t Hx)|]. split; [intros t k' Hx; by apply (Hs t Hx)|].
    right. split; [done|]. exists (at_ e 1). split; [lia|]. intros t Hx. by apply (Hs t Hx).
  - destruct (SET (at_ e 2) false _ lo r2) as [ok r3] eqn:E2. destruct (set_view _ _ _ _ _ _ _ E2) as [-> _].
    simpl. intros [= <- <- <-]. split; [done|].
    assert (Hs := λ t (Hx : at_ e 2 ≤ t), set_lock _ _ _ _ _ _ _ t E1 ltac:(lia) Hlo).
    assert (Hs' := λ t (Hx : at_ e 2 ≤ t), set_lock _ _ _ _ _ _ _ t E2 Hx Hlo).
    split; [intros t k' Hx; etrans; [apply (Hs' t Hx)|apply (Hs t Hx)]|].
    split; [intros t k' Hx Hk; etrans; [by apply (Hs' t Hx)|by apply (Hs t Hx)]|].
    right. split; [done|]. exists (at_ e 2). split; [lia|]. intros t Hx. by apply (Hs' t Hx).
Qed.

Lemma record_unfold e k r n :
  answered e → sane c → n = count redisView r (at_ e 0) k → 0 ≤ n < max_i64 →
  redisRecordFailure c prefix e k r =
  (let r1 := (authFailureScript (at_ e 0) (failKey prefix k) (Window c `quot` Millisecond) r).2 in
   let lockout := lockoutFor c (n + 1) in
   if lockout <=? 0 then ((0, false), r1)
   else match attempt (ends e 1) (SET (at_ e 1) true (lockKey prefix k) lockout) r1 with
        | (None, r) => ((lockout, false), r)
        | (Some true, r) => ((lockout, true), r)
        | (Some false, r) => ((lockout, false), (attempt (ends e 2) (SET (at_ e 2) false (lockKey prefix k) lockout) r).2)
        end).
Proof.
  intros [_ He] Hsane -> Hn. unfold redisRecordFailure. rewrite (He 0%nat). unfold attempt at 1.
  destruct (authFailureScript _ _ _ r) as [o r1] eqn:E. destruct (script_count _ _ _ _ _ ltac:(by apply redis_period) Hn E) as [-> _].
  done.
Qed.

(** A failure of one key is nothing to another, however its calls end. *)
Lemma script_other now k r o r1 x :
  authFailureScript now (failKey prefix k) (Window c `quot` Millisecond) r = (o, r1) → x ≠ failKey prefix k →
  view r1 now x = view r now x.
Proof.
  unfold authFailureScript. destruct (INCR now (failKey prefix k) r) as [[m|] r2] eqn:E; intros [= <- <-] Hx.
  - destruct (incr_some _ _ _ _ _ E) as [_ Hv]. rewrite pexpire_view, decide_False, Hv by done. by rewrite decide_False.
  - by apply (proj2 (incr_none _ _ _ _ E)).
Qed.

Lemma set_other now nx k ttl r ok r1 t x :
  SET now nx (lockKey prefix k) ttl r = (ok, r1) → now ≤ t → x ≠ lockKey prefix k → view r1 t x = view r t x.
Proof.
  intros Hset Ht Hx. apply (view_keeps r r1 now); [done|]. rewrite (proj2 (set_view _ _ _ _ _ _ _ Hset)).
  by rewrite bool_decide_eq_false_2, andb_false_r.
Qed.

Lemma record_other e k r t x :
  answered e → at_ e 2 ≤ t → x ≠ failKey prefix k → x ≠ lockKey prefix k →
  view (redisRecordFailure c prefix e k r).2 t x = view r t x.
Proof.
  intros [Ht He] Hx Hf Hl. unfold redisRecordFailure. rewrite !He. unfold attempt.
  destruct (authFailureScript _ _ _ r) as [o r1] eqn:E.
  assert (H1 : view r1 t x = view r t x) by (apply (view_keeps r r1 (at_ e 0)); [lia|]; by eapply script_other).
  destruct o as [n|]; [|done]. destruct (_ <=? 0); [done|].
  destruct (SET (at_ e 1) true _ _ r1) as [[] r2] eqn:E1; simpl.
  - etrans; [|exact H1]. apply (set_other _ _ _ _ _ _ _ _ _ E1); [lia|done].
  - destruct (SET (at_ e 2) false _ _ r2) as [ok r3] eqn:E2. simpl.
    etrans; [apply (set_other _ _ _ _ _ _ _ _ _ E2); [lia|done]|].
    etrans; [|exact H1]. apply (set_other _ _ _ _ _ _ _ _ _ E1); [lia|done].
Qed.

#[export] Instance redis_laws : sane c → LockoutLaws c (redisAuthLockout c prefix) redisView.
Proof.
  intros Hsane. assert (Hp := redis_period Hsane). split; unfold RecordFailure, Locked, Reset, redisAuthLockout.
  - intros e [He _]. simpl. lia.
  - done.
  - done.
  - intros e k r [_ He]. rewrite <-locked_now. unfold redisLocked. rewrite He. simpl. by destruct (_ <=? 0).
  - intros r t t' k Ht. simpl. rewrite (view_later r t t') by done. destruct (view r t _) as [[v [d|]]|]; simpl; [|done..].
    destruct (t' <=? d); [|done]. rewrite !Z.leb_le. lia.
  - intros r t t' k Ht. simpl. rewrite (view_later r t t') by done. destruct (view r t _) as [[v [d|]]|]; simpl; auto.
    destruct (t' <=? d); auto.
  - intros e k r d j r' He Hc Hr. cbn [starts finishes slack redisView] in *.
    rewrite (record_unfold e k r _ He Hsane eq_refl Hc) in Hr.
    destruct (record_lock e k r _ d j r' He Hsane Hc Hr) as (Hd & Hf & _ & Hl).
    destruct (authFailureScript _ _ _ r) as [o r1] eqn:E. destruct (script_count _ _ _ _ _ Hp Hc E) as [_ Hv]. cbn [snd] in Hf, Hl.
    destruct He as [Ht He]. split; [done|]. split.
    { intros t Hx. apply (count_after r1); [lia| |by apply Hf]. rewrite Hv. by rewrite decide_True. }
    destruct Hl as [[Hd0 ->]|(Hd0 & now & Hnow & Hl)].
    + split; [intros t Hx; unfold Millisecond, Microsecond, Nanosecond; lia|]. intros t Hx. left.
      simpl. rewrite <-(view_keeps r r1 (at_ e 0) t); [done|lia|]. rewrite Hv. by rewrite decide_False.
    + pose proof (px_near d Hd0). unfold Millisecond, Microsecond, Nanosecond in *.
      split; intros t Hx; rewrite Hl by done; rewrite Z.leb_le; lia.
  - intros e k r t [Ht He] Hx. cbn [finishes redisView] in Hx. simpl. unfold redisReset. rewrite He. unfold attempt. cbn [snd].
    rewrite !(view_later _ (at_ e 0) t), !del_view by lia. rewrite !decide_True by set_solver. done.
  - intros e k k' r t He Hk Hx. simpl. by rewrite !record_other by (done || by intros ?%failKey_inj || by intros ?%lockKey_inj).
  - intros e k k' r t [Ht He] Hk Hx. cbn [finishes redisView] in Hx. simpl. unfold redisReset. rewrite He. unfold attempt. cbn [snd].
    rewrite !(view_later _ (at_ e 0) t), !del_view by lia.
    rewrite !decide_False by (rewrite !not_elem_of_cons; split_and!; [by intros ?%failKey_inj || done|by intros ?%lockKey_inj || done|apply not_elem_of_nil]). by rewrite <-!(view_later r (at_ e 0) t) by lia.
Qed.
End Redis.

(** ** Repeated failures *)

(** From [from] on, nothing about the key [k] has changed. *)
Definition alike {E L} (V : View E L) (k : string) (from : Time) (l l' : L) : Prop :=
  ∀ t, from ≤ t → count V l' t k = count V l t k ∧ locked V l' t k = locked V l t k.

(** The failures that count together with the newest of [fs], newest first: one
    that comes later than the period [p] after the one before starts again. *)
Fixpoint streak (p : Duration) (fs : list Time) : Z :=
  match fs with
  | [] => 0
  | f :: rest => 1 + match rest with [] => 0 | g :: _ => if f <=? g + p then streak p rest else 0 end
  end.

Lemma streak_bounds p fs : 0 ≤ streak p fs ≤ Z.of_nat (length fs).
Proof.
  induction fs as [|f fs IH]; [done|]. cbn [streak length]. destruct fs as [|g fs]; [simpl; lia|].
  destruct (f <=? g + p); lia.
Qed.

Section Attack.
Context {E L : Type} (c : AuthLockoutConfig) (T : AuthLockout E L) (V : View E L) `{!LockoutLaws c T V} (Hsane : sane c).

(** Each of the failures, newest first, came no sooner after the one before than
    the lockout that one had earned, less the rounding of the store. *)
Definition backed_off (fs : list Time) : Prop :=
  ∀ i a b, fs !! i = Some b → fs !! S i = Some a →
    a + lockoutFor c (streak (period V) (list.drop (S i) fs)) - slack V ≤ b.

(** What the store holds of the key [k] after its failures [fs]. *)
Record spaced (k : string) (fs : list Time) (l : L) (t : Time) : Prop := {
  sp_none : fs = [] → ∀ t', t ≤ t' → count V l t' k = 0;
  sp_count f : head fs = Some f → ∀ t', t ≤ t' →
    count V l t' k = if t' <=? f + period V then streak (period V) fs else 0;
  sp_lock f : head fs = Some f → ∀ t', t ≤ t' → t' < f + lockoutFor c (streak (period V) fs) - slack V →
    locked V l t' k = true;
  sp_gaps : backed_off fs;
  sp_last f : head fs = Some f → f ≤ t;
}.

Lemma spaced_alike k fs l l' t t' : spaced k fs l t → t ≤ t' → alike V k t' l l' → spaced k fs l' t'.
Proof.
  intros [H1 H2 H3 H4 H5] Ht Hl. split; try done.
  - intros E0 u Hu. rewrite (proj1 (Hl u Hu)). apply H1; [done|lia].
  - intros f E0 u Hu. rewrite (proj1 (Hl u Hu)). apply H2; [done|lia].
  - intros f E0 u Hu. rewrite (proj2 (Hl u Hu)). apply H3; [done|lia].
  - intros f E0. specialize (H5 f E0). lia.
Qed.

Lemma spaced_later k fs l t t' : spaced k fs l t → t ≤ t' → spaced k fs l t'.
Proof. intros Hs Ht. by apply (spaced_alike k fs l l t). Qed.

(** A key that is found unlocked has waited. *)
Lemma spaced_unlocked k fs l t asked f :
  spaced k fs l t → proper V asked → t ≤ starts V asked → (@Locked _ _ T asked k l).1 = false → head fs = Some f →
  f + lockoutFor c (streak (period V) fs) - slack V ≤ starts V asked.
Proof.
  intros Hs Ha Ht Hl Hf. rewrite (ll_asks (c:=c) _ _ _ Ha) in Hl.
  destruct (Z.lt_ge_cases (starts V asked) (f + lockoutFor c (streak (period V) fs) - slack V)) as [Hlt|Hge]; [|done].
  by rewrite (sp_lock _ _ _ _ Hs f Hf _ Ht Hlt) in Hl.
Qed.

Lemma spaced_count k fs l t e :
  spaced k fs l t → t ≤ starts V e → count V l (starts V e) k + 1 = streak (period V) (starts V e :: fs).
Proof.
  intros Hs Ht. cbn [streak]. destruct fs as [|f fs]; [by rewrite (sp_none _ _ _ _ Hs)|].
  rewrite (sp_count _ _ _ _ Hs f eq_refl _ Ht). lia.
Qed.

Lemma spaced_failure k fs l t e :
  spaced k fs l t → proper V e → t ≤ starts V e → Z.of_nat (length fs) < max_i64 →
  (∀ f, head fs = Some f → f + lockoutFor c (streak (period V) fs) - slack V ≤ starts V e) →
  spaced k (starts V e :: fs) (@RecordFailure _ _ T e k l).2 (finishes V e).
Proof.
  intros Hs He Ht Hlen Hf. pose proof (spaced_count k fs l t e Hs Ht) as Hc.
  pose proof (streak_bounds (period V) (starts V e :: fs)) as Hb. cbn [length] in Hb.
  assert (Hc0 : 0 ≤ count V l (starts V e) k).
  { destruct fs as [|f fs]; [by rewrite (sp_none _ _ _ _ Hs)|]. rewrite (sp_count _ _ _ _ Hs f eq_refl _ Ht).
    destruct (_ <=? _); [|done]. apply streak_bounds. }
  destruct (RecordFailure e k l) as [[d j] l'] eqn:Er. pose proof (ll_order (c:=c) (T:=T) (V:=V) e He) as Hord.
  destruct (ll_record (c:=c) e k l d j l' He ltac:(lia) Er) as (Hd & Hn & Hlk & _). rewrite Hc in Hd, Hn. simpl. split.
  - done.
  - intros f [= <-] u Hu. by apply Hn.
  - intros f [= <-] u Hu Hlt. apply Hlk; [done|]. by rewrite Hd.
  - intros [|i] a b; [|apply (sp_gaps _ _ _ _ Hs i a b)]. simpl. rewrite drop_0. intros [= <-] Ha. apply Hf.
    by destruct fs.
  - intros f [= <-]. lia.
Qed.

Lemma spaced_reset k l e : proper V e → spaced k [] (@Reset _ _ T e k l) (finishes V e).
Proof. intros He. split; try done. intros _ t Ht. by apply (ll_reset (c:=c)). Qed.

(** Calls about other keys. *)
Lemma record_alike e k k' l : proper V e → k ≠ k' → alike V k (finishes V e) l (@RecordFailure _ _ T e k' l).2.
Proof. intros He Hk t Ht. by apply (ll_record_other (c:=c)). Qed.
Lemma reset_alike e k k' l : proper V e → k ≠ k' → alike V k (finishes V e) l (@Reset _ _ T e k' l).
Proof. intros He Hk t Ht. by apply (ll_reset_other (c:=c)). Qed.

(** What the answer of the handler means for the key it is about. *)
Definition answer (e : E) (key : string) (status : Z) (l : L) : L :=
  if status <? 400 then @Reset _ _ T e key l
  else if (500 <=? status) || (status =? 429) then l
  else (@RecordFailure _ _ T e key l).2.

Lemma answer_alike e k k' status l : proper V e → k ≠ k' → alike V k (finishes V e) l (answer e k' status l).
Proof.
  intros He Hk. unfold answer. destruct (status <? 400); [by apply reset_alike|]. destruct (_ || _); [done|].
  by apply record_alike.
Qed.

(** The failures of the key [k], newest first, after a reply about [key]. *)
Definition logged (key : option string) (k : string) (at_ : Time) (reply : Reply) (fs : list Time) : list Time :=
  match key, reply with
  | Some key, Served status =>
      if decide (key = k) then
        if status <? 400 then [] else if (500 <=? status) || (status =? 429) then fs else at_ :: fs
      else fs
  | _, _ => fs
  end.

Lemma spaced_answer k key fs asked e status l l' t t' :
  spaced k fs l t → spaced k fs l' t' → proper V asked → proper V e → t ≤ starts V asked ≤ starts V e → t' ≤ starts V e →
  (key = k → (@Locked _ _ T asked key l).1 = false) → Z.of_nat (length fs) < max_i64 →
  spaced k (logged (Some key) k (starts V e) (Served status) fs) (answer e key status l') (finishes V e).
Proof.
  intros Hs Hs' Ha He Ht Ht' Hun Hlen. pose proof (ll_order (c:=c) (T:=T) (V:=V) e He). cbn [logged].
  destruct (decide (key = k)) as [->|Hk].
  2:{ apply (spaced_alike k fs l' _ t'); [done|lia|]. apply answer_alike; [done|congruence]. }
  unfold answer. destruct (status <? 400); [by apply spaced_reset|].
  destruct (_ || _); [apply (spaced_later k fs l' t'); [done|lia]|].
  apply (spaced_failure k fs l' t'); [done|done|lia|done|]. intros f Hf.
  pose proof (spaced_unlocked k fs l t asked f Hs Ha ltac:(lia) (Hun eq_refl) Hf). lia.
Qed.

(** ** What an attacker can do to others *)

(** Any calls, on any keys; the log holds the failures and when they were recorded. *)
Inductive calls (l0 : L) (t0 : Time) : list (string * Time) → L → Time → Prop :=
| c_start : calls l0 t0 [] l0 t0
| c_failure log l t e k :
    calls l0 t0 log l t → proper V e → t ≤ starts V e →
    calls l0 t0 (log ++ [(k, finishes V e)]) (@RecordFailure _ _ T e k l).2 (finishes V e)
| c_reset log l t e k :
    calls l0 t0 log l t → proper V e → t ≤ starts V e → calls l0 t0 log (@Reset _ _ T e k l) (finishes V e).

Record bounded (log : list (string * Time)) (l : L) (t : Time) : Prop := {
  bd_count k t' : t ≤ t' → 0 ≤ count V l t' k ≤ Z.of_nat (length log);
  bd_lock k t' : t ≤ t' → locked V l t' k = true → ∃ f, (k, f) ∈ log ∧ t' < f + Max c + slack V;
}.

Lemma failure_bounded log l t e k :
  bounded log l t → proper V e → t ≤ starts V e → Z.of_nat (length log) < max_i64 →
  bounded (log ++ [(k, finishes V e)]) (@RecordFailure _ _ T e k l).2 (finishes V e).
Proof.
  intros [H1 H2] He Ht Hlen. pose proof (ll_order (c:=c) (T:=T) (V:=V) e He).
  destruct (RecordFailure e k l) as [[d j] l'] eqn:Er. pose proof (H1 k (starts V e) Ht) as Hcount.
  destruct (ll_record (c:=c) e k l d j l' He ltac:(lia) Er) as (Hd & Hc & _ & Hu). simpl.
  assert (Hdm : d ≤ Max c) by (rewrite Hd; apply (backoff_doubles c (count V l (starts V e) k + 1) Hsane); lia).
  split; intros k' t' Ht'.
  - rewrite length_app. simpl. destruct (decide (k' = k)) as [->|Hk].
    + rewrite Hc by done. destruct (t' <=? _); lia.
    + pose proof (ll_record_other (c:=c) e k k' l t' He Hk Ht') as [Hx _]. rewrite Er in Hx. simpl in Hx. rewrite Hx.
      specialize (H1 k' t' ltac:(lia)). lia.
  - intros Hl. destruct (decide (k' = k)) as [->|Hk].
    + destruct (Hu t' Ht' Hl) as [Hl'|[_ Hlt]].
      * destruct (H2 k t' ltac:(lia) Hl') as (f & Hin & Hf). exists f. split; [set_solver|done].
      * exists (finishes V e). split; [set_solver|lia].
    + pose proof (ll_record_other (c:=c) e k k' l t' He Hk Ht') as [_ Hx]. rewrite Er in Hx. simpl in Hx. rewrite Hx in Hl.
      destruct (H2 k' t' ltac:(lia) Hl) as (f & Hin & Hf). exists f. split; [set_solver|done].
Qed.

Lemma reset_bounded log l t e k :
  bounded log l t → proper V e → t ≤ starts V e → bounded log (@Reset _ _ T e k l) (finishes V e).
Proof.
  intros [H1 H2] He Ht. pose proof (ll_order (c:=c) (T:=T) (V:=V) e He).
  split; intros k' t' Ht'; (destruct (decide (k' = k)) as [->|Hk];
    [destruct (ll_reset (c:=c) e k l t' He Ht') as [Hc Hl]|destruct (ll_reset_other (c:=c) e k k' l t' He Hk Ht') as [Hc Hl]]);
    rewrite ?Hc, ?Hl.
  - lia.
  - apply H1. lia.
  - done.
  - apply H2. lia.
Qed.

(** Whatever failures anybody causes on whichever keys, a key is locked only for
    the capped lockout after a failure of its own: an attacker can delay the owner
    of a wallet by the cap, and a key nobody failed on is never locked. *)
Theorem lockout_is_capped l0 t0 log l t k t' :
  calls l0 t0 log l t → bounded [] l0 t0 → Z.of_nat (length log) < max_i64 →
  t ≤ t' → locked V l t' k = true → ∃ f, (k, f) ∈ log ∧ t' < f + Max c + slack V.
Proof.
  intros Hc H0 Hlen. apply bd_lock. revert Hlen.
  induction Hc as [|log l t e k' Hc IH He Ht|log l t e k' Hc IH He Ht]; intros Hlen; [done| |].
  - rewrite length_app in Hlen. simpl in Hlen. apply failure_bounded with (t := t); [apply IH|..]; lia || done.
  - by apply reset_bounded with (t := t); [apply IH|..].
Qed.
End Attack.

(** ** The handshake *)

(** A tracker that leaves another one's keys alone. *)
Class Independent {E L : Type} (T : AuthLockout E L) (V V' : View E L) : Prop := {
  in_record e k l t k' : proper V e → finishes V e ≤ t →
    locked V' (@RecordFailure _ _ T e k l).2 t k' = locked V' l t k';
  in_reset e k l t k' : proper V e → finishes V e ≤ t → locked V' (@Reset _ _ T e k l) t k' = locked V' l t k';
  in_count e k l t k' : proper V e → finishes V e ≤ t →
    count V' (@RecordFailure _ _ T e k l).2 t k' = count V' l t k'
    ∧ count V' (@Reset _ _ T e k l) t k' = count V' l t k';
}.

(** So does the limiter, which acts at [lim_at]. *)
Class LimiterApart {E EL L : Type} (g : AuthGuard E EL L) (lim_at : EL → Time) (V : View E L) : Prop :=
  limiter_alike allow e key l k : walletLimiter g = Some allow → alike V k (lim_at e) l (allow e key l).2.

Section Handshake.
Context {E EL L W : Type} (c : AuthLockoutConfig) (g : AuthGuard E EL L) (VW VI : View E L) (lim_at : EL → Time).
Context `{!LockoutLaws c (walletLockout g) VW} `{!LockoutLaws c (ipLockout g) VI}.
Context `{!Independent (walletLockout g) VW VI} `{!Independent (ipLockout g) VI VW}.
Context `{!LimiterApart g lim_at VW} `{!LimiterApart g lim_at VI}.
Context (Hsane : sane c).
Context (walletField : string → option string) (next : Request → W → Z * W).

(** The calls of a request go well, come in their order, and not before [t]. *)
Definition timely (t : Time) (e : GuardEnv E EL) : Prop :=
  proper VW (e_wallet e) ∧ proper VI (e_ip e) ∧ proper VW (e_wallet_after e) ∧ proper VI (e_ip_after e)
  ∧ t ≤ starts VW (e_wallet e) ∧ t ≤ starts VI (e_ip e) ∧ t ≤ lim_at (e_limiter e)
  ∧ starts VW (e_wallet e) ≤ starts VW (e_wallet_after e) ∧ starts VI (e_ip e) ≤ starts VI (e_ip_after e)
  ∧ lim_at (e_limiter e) ≤ starts VW (e_wallet_after e)
  ∧ finishes VW (e_wallet_after e) ≤ starts VI (e_ip_after e).

(** When the request is over. *)
Definition over (e : GuardEnv E EL) : Time := finishes VI (e_ip_after e).

Lemma timely_order t e : timely t e →
  t ≤ lim_at (e_limiter e) ≤ starts VW (e_wallet_after e)
  ∧ starts VW (e_wallet_after e) ≤ finishes VW (e_wallet_after e) ≤ starts VI (e_ip_after e)
  ∧ starts VI (e_ip_after e) ≤ over e.
Proof.
  intros (_ & _ & H1 & H2 & _ & _ & H3 & _ & _ & H4 & H5). unfold over.
  pose proof (ll_order (c:=c) (T:=walletLockout g) (V:=VW) _ H1). pose proof (ll_order (c:=c) (T:=ipLockout g) (V:=VI) _ H2). lia.
Qed.

(** *** One request *)

(** The wallet that the guard reads off a request, where it reads one. *)
Definition heard (r : Request) : option string :=
  match stageFor (stages g) r, peekWalletAddress walletField r with
  | Some _, Ok (wallet, _) => Some wallet
  | _, _ => None
  end.

Lemma peek_ip r wallet r' : peekWalletAddress walletField r = Ok (wallet, r') → IP r' = IP r.
Proof.
  unfold peekWalletAddress. destruct (Body_ r) as [|content fails]; [by intros [= _ <-]|].
  destruct (fails && _); [done|]. destruct (_ <? _); [by intros [= _ <-]|]. by destruct (walletField _); intros [= _ <-].
Qed.

Definition limit_message : string := "authentication rate limit exceeded for this wallet".

(** The store once the limiter has been asked about a wallet. *)
Definition limited_store (e : GuardEnv E EL) (wallet : string) (l : L) : L :=
  store (limitWallet g (e_limiter e) wallet (mkState l [])).2.

Lemma limitWallet_store e wallet x : store (limitWallet g (e_limiter e) wallet x).2 = limited_store e wallet (store x).
Proof.
  unfold limited_store, limitWallet. destruct (walletLimiter g) as [allow|]; [|done]. destruct (decide _); [done|].
  simpl. by destruct (allow _ _ _) as [[] ].
Qed.

Lemma limited_alike V `{!LimiterApart g lim_at V} e wallet l k : alike V k (lim_at (e_limiter e)) l (limited_store e wallet l).
Proof.
  unfold limited_store, limitWallet. destruct (walletLimiter g) as [allow|] eqn:Eg; [|done]. destruct (decide _); [done|].
  pose proof (limiter_alike (g:=g) (lim_at:=lim_at) (V:=V) allow (e_limiter e) wallet l k Eg) as H. simpl.
  by destruct (allow _ _ _) as [[] ].
Qed.

(** What the store is after an answer of the handler. *)
Definition observed (e : GuardEnv E EL) (wallet ip : string) (status : Z) (l : L) : L :=
  store (observe g e "" wallet ip status (mkState l [])).

Lemma observe_store e stage wallet ip status x : store (observe g e stage wallet ip status x) = observed e wallet ip status (store x).
Proof.
  unfold observed, observe, recordFailure. destruct (status <? 400); [by destruct (decide _)|].
  destruct (_ || _); [done|]. destruct (decide (wallet = "")); simpl.
  - by destruct (RecordFailure _ _ _) as [[] ].
  - destruct (RecordFailure (e_wallet_after e) _ _) as [[d j] l1]. simpl. by destruct (RecordFailure _ _ _) as [[] ].
Qed.

(** A request passes unheard, or is refused, or is answered by the handler once
    both keys have been found unlocked. *)
Lemma middleware_cases e r x w reply x' w' :
  Middleware walletField g next e r x w = (reply, x', w') →
  match heard r with
  | None => store x' = store x ∧ ∃ status, reply = Served status
  | Some wallet =>
      let wl := (@Locked _ _ (walletLockout g) (e_wallet e) wallet (store x)).1 in
      let il := (@Locked _ _ (ipLockout g) (e_ip e) (IP r) (store x)).1 in
      (∃ wait m, reply = Refused wait m
         ∧ (store x' = store x ∧ (wallet ≠ "" ∧ wl = true ∨ il = true)
            ∨ store x' = limited_store e wallet (store x) ∧ m = limit_message ∧ is_Some (walletLimiter g)))
      ∨ ∃ status, reply = Served status ∧ (wallet ≠ "" → wl = false) ∧ il = false
          ∧ store x' = observed e wallet (IP r) status (limited_store e wallet (store x))
          ∧ ∃ r', peekWalletAddress walletField r = Ok (wallet, r') ∧ status = (next r' w).1
  end.
Proof.
  unfold Middleware, heard. destruct (stageFor (stages g) r) as [stage|].
  2:{ destruct (next r w) as [s w1]. intros [= <- <- <-]. split; [done|by eexists]. }
  destruct (peekWalletAddress walletField r) as [[wallet r']|u] eqn:Ep.
  2:{ destruct (next (drained r) w) as [s w1]. intros [= <- <- <-]. split; [done|by eexists]. }
  pose proof (peek_ip _ _ _ Ep) as Hip. rewrite Hip. cbn zeta.
  destruct (Locked (e_ip e) (IP r) (store x)) as [il wi] eqn:Ei.
  assert (Hw : ∃ b wt, (if decide (wallet = "") then (false, 0) else @Locked _ _ (walletLockout g) (e_wallet e) wallet (store x)) = (b, wt)
    ∧ (wallet ≠ "" → (@Locked _ _ (walletLockout g) (e_wallet e) wallet (store x)).1 = b) ∧ (b = true → wallet ≠ "")).
  { destruct (decide (wallet = "")) as [Hemp|Hne]; [by exists false, 0|].
    destruct (Locked (e_wallet e) wallet (store x)) as [b wt]. by exists b, wt. }
  destruct Hw as (b & wt & -> & Hb & Hb'). destruct b.
  { intros [= <- <- <-]. left. eexists _, _. split; [done|]. left. split; [done|]. left. auto. }
  simpl fst. destruct il.
  { intros [= <- <- <-]. left. eexists _, _. split; [done|]. left. split; [done|]. by right. }
  pose proof (limitWallet_store e wallet x) as Hls. destruct (limitWallet g (e_limiter e) wallet x) as [[ok wait] x1] eqn:El.
  simpl in Hls. destruct ok; simpl.
  - destruct (next r' w) as [status w1] eqn:En. intros [= <- <- <-]. right. exists status.
    split; [done|]. split; [done|]. split; [done|]. rewrite observe_store, Hls. split; [done|].
    exists r'. by rewrite En.
  - intros [= <- <- <-]. left. eexists _, _. split; [done|]. right. split; [done|]. split; [done|].
    revert El. unfold limitWallet. destruct (walletLimiter g); [by eexists|done].
Qed.

(** What the answer does to the store. *)
Definition walletAnswer (e : GuardEnv E EL) (wallet : string) (status : Z) (l : L) : L :=
  if decide (wallet = "") then l else answer (walletLockout g) (e_wallet_after e) wallet status l.

Lemma observed_answers e wallet ip status l :
  observed e wallet ip status l = answer (ipLockout g) (e_ip_after e) ip status (walletAnswer e wallet status l).
Proof.
  unfold observed, observe, recordFailure, walletAnswer, answer. destruct (status <? 400); [done|].
  destruct (_ || _); [by destruct (decide _)|]. destruct (decide (wallet = "")); simpl.
  - by destruct (RecordFailure _ _ _) as [[] ].
  - destruct (RecordFailure (e_wallet_after e) _ _) as [[d j] l1]. simpl. by destruct (RecordFailure _ _ _) as [[] ].
Qed.

(** What each tracker does to the keys of the other. *)
Lemma walletAnswer_alike e k wallet status l :
  proper VW (e_wallet_after e) → alike VI k (finishes VW (e_wallet_after e)) l (walletAnswer e wallet status l).
Proof.
  intros He. unfold walletAnswer, answer. destruct (decide _); [done|]. destruct (status <? 400); [|destruct (_ || _); [done|]];
    intros t Ht; split; try (by apply (in_count (T:=walletLockout g) (V:=VW) (V':=VI)));
    [by apply (in_reset (T:=walletLockout g) (V:=VW) (V':=VI))|by apply (in_record (T:=walletLockout g) (V:=VW) (V':=VI))].
Qed.

Lemma ipAnswer_alike e k ip status l :
  proper VI e → alike VW k (finishes VI e) l (answer (ipLockout g) e ip status l).
Proof.
  intros He. unfold answer. destruct (status <? 400); [|destruct (_ || _); [done|]];
    intros t Ht; split; try (by apply (in_count (T:=ipLockout g) (V:=VI) (V':=VW)));
    [by apply (in_reset (T:=ipLockout g) (V:=VI) (V':=VW))|by apply (in_record (T:=ipLockout g) (V:=VI) (V':=VW))].
Qed.

(** *** Traffic *)

(** What a served request leaves in the log of a wallet and of a client. *)
Definition entry : Type := GuardEnv E EL * Request * Reply.
Definition wallet_log (k : string) (i : entry) (fs : list Time) : list Time :=
  logged (heard i.1.2) k (starts VW (e_wallet_after i.1.1)) i.2 fs.
Definition ip_log (ip : string) (i : entry) (fs : list Time) : list Time :=
  logged ((λ _, IP i.1.2) <$> heard i.1.2) ip (starts VI (e_ip_after i.1.1)) i.2 fs.

(** Requests of anybody, one after the other; the newest comes first. *)
Inductive traffic (x0 : GuardState L) (w0 : W) (t0 : Time) : list entry → GuardState L → W → Time → Prop :=
| tr_none : traffic x0 w0 t0 [] x0 w0 t0
| tr_request h x w t e r reply x' w' :
    traffic x0 w0 t0 h x w t → timely t e → Middleware walletField g next e r x w = (reply, x', w') →
    traffic x0 w0 t0 ((e, r, reply) :: h) x' w' (over e).

Lemma request_wallet k fs e r x w reply x' w' t :
  k ≠ "" → spaced c VW k fs (store x) t → timely t e → Middleware walletField g next e r x w = (reply, x', w') →
  Z.of_nat (length fs) < max_i64 → spaced c VW k (wallet_log k (e, r, reply) fs) (store x') (over e).
Proof.
  intros Hk Hs Ht Hm Hlen. pose proof (timely_order t e Ht) as Ho. pose proof (middleware_cases e r x w reply x' w' Hm) as Hc.
  destruct Ht as (H1 & _ & H2 & H3 & H4 & _ & _ & H5 & _). unfold wallet_log. cbn [fst snd]. destruct (heard r) as [wallet|]; cbn zeta in Hc.
  2:{ destruct Hc as [-> _]. apply (spaced_later c VW k fs _ t); [done|lia]. }
  assert (Hlim : spaced c VW k fs (limited_store e wallet (store x)) (lim_at (e_limiter e))).
  { apply (spaced_alike c VW k fs (store x) _ t); [done|lia|]. by apply limited_alike. }
  destruct Hc as [(wait & m & -> & [[-> _]|(-> & _)])|(status & -> & Hun & _ & -> & _)]; cbn [logged].
  - apply (spaced_later c VW k fs _ t); [done|lia].
  - apply (spaced_later c VW k fs _ (lim_at (e_limiter e))); [done|lia].
  - rewrite observed_answers.
    apply (spaced_alike c VW k _ (walletAnswer e wallet status (limited_store e wallet (store x))) _ (finishes VW (e_wallet_after e))); [|lia|].
    2:{ apply ipAnswer_alike. done. }
    unfold walletAnswer. destruct (decide (wallet = "")) as [->|Hw].
    { rewrite decide_False by done. apply (spaced_later c VW k fs _ (lim_at (e_limiter e))); [done|lia]. }
    apply (spaced_answer c (walletLockout g) VW k wallet fs (e_wallet e) (e_wallet_after e) status (store x) _ t
      (lim_at (e_limiter e))); auto; lia.
Qed.

Lemma request_ip k fs e r x w reply x' w' t :
  spaced c VI k fs (store x) t → timely t e → Middleware walletField g next e r x w = (reply, x', w') →
  Z.of_nat (length fs) < max_i64 → spaced c VI k (ip_log k (e, r, reply) fs) (store x') (over e).
Proof.
  intros Hs Ht Hm Hlen. pose proof (timely_order t e Ht) as Ho. pose proof (middleware_cases e r x w reply x' w' Hm) as Hc.
  destruct Ht as (_ & H1 & H2 & H3 & _ & H4 & _ & _ & H5 & _). unfold ip_log. cbn [fst snd]. destruct (heard r) as [wallet|]; cbn zeta in Hc.
  2:{ destruct Hc as [-> _]. apply (spaced_later c VI k fs _ t); [done|lia]. }
  assert (Hlim : spaced c VI k fs (limited_store e wallet (store x)) (lim_at (e_limiter e))).
  { apply (spaced_alike c VI k fs (store x) _ t); [done|lia|]. by apply limited_alike. }
  destruct Hc as [(wait & m & -> & [[-> _]|(-> & _)])|(status & -> & _ & Hun & -> & _)]; cbn [logged].
  - apply (spaced_later c VI k fs _ t); [done|lia].
  - apply (spaced_later c VI k fs _ (lim_at (e_limiter e))); [done|lia].
  - rewrite observed_answers. cbn [fmap option_fmap option_map].
    apply (spaced_answer c (ipLockout g) VI k (IP r) fs (e_ip e) (e_ip_after e) status (store x) _ t
      (finishes VW (e_wallet_after e))); auto; try lia.
    apply (spaced_alike c VI k fs (limited_store e wallet (store x)) _ (lim_at (e_limiter e))); [done|lia|].
    by apply walletAnswer_alike.
Qed.

Lemma logged_length key k at_ reply fs : (length (logged key k at_ reply fs) ≤ S (length fs))%nat.
Proof. unfold logged. destruct key, reply; try lia. destruct (decide _); [|lia]. destruct (_ <? _); simpl; [lia|]. destruct (_ || _); simpl; lia. Qed.

Lemma log_length (f : entry → list Time → list Time) h :
  (∀ i fs, (length (f i fs) ≤ S (length fs))%nat) → (length (foldr f [] h) ≤ length h)%nat.
Proof. intros Hf. induction h as [|i h IH]; simpl; [done|]. specialize (Hf i (foldr f [] h)). lia. Qed.

Lemma traffic_spaced k ip h x0 w0 t0 x w t :
  traffic x0 w0 t0 h x w t → k ≠ "" → (∀ t, t0 ≤ t → count VW (store x0) t k = 0 ∧ count VI (store x0) t ip = 0) →
  Z.of_nat (length h) < max_i64 →
  spaced c VW k (foldr (wallet_log k) [] h) (store x) t ∧ spaced c VI ip (foldr (ip_log ip) [] h) (store x) t.
Proof.
  intros Htr Hk H0. induction Htr as [|h x w t e r reply x' w' Htr IH Ht Hm]; intros Hlen.
  { split; (split; try done); intros _ t Ht; by apply H0. }
  cbn [length] in Hlen. destruct IH as [IHw IHi]; [lia|]. cbn [foldr].
  pose proof (log_length (wallet_log k) h (λ i fs, logged_length _ _ _ _ _)).
  pose proof (log_length (ip_log ip) h (λ i fs, logged_length _ _ _ _ _)).
  split; [apply (request_wallet k _ e r x w reply x' w' t)|apply (request_ip ip _ e r x w reply x' w' t)]; (done || lia).
Qed.

(** C26: Repeated failures are spaced by the backoff.  Let any requests, good and
    bad, for any wallets and from any clients, pass through the middleware one
    after the other, with their calls to the store answered.  Then, for every
    wallet and every client, each recorded failure came no sooner after the one
    before than the lockout that one had earned, less the store's rounding.  That
    lockout is the one of the failures that count together: a failure that comes
    later than the window after the one before counts as a first one again, and a
    served success forgets all earlier ones.  Requests in flight together are not
    covered: they are all let through before the first of them is recorded. *)
Theorem failures_are_spaced k ip h x0 w0 t0 x w t :
  traffic x0 w0 t0 h x w t → k ≠ "" → (∀ t, t0 ≤ t → count VW (store x0) t k = 0 ∧ count VI (store x0) t ip = 0) →
  Z.of_nat (length h) < max_i64 →
  backed_off c VW (foldr (wallet_log k) [] h) ∧ backed_off c VI (foldr (ip_log ip) [] h).
Proof.
  intros Htr Hk H0 Hlen. destruct (traffic_spaced k ip h x0 w0 t0 x w t Htr Hk H0 Hlen) as [Hw Hi].
  split; eapply sp_gaps; [exact Hw|exact Hi].
Qed.

(** *** Guessing *)

Context (Hthreshold : 1 ≤ Threshold c) (wallet ip : string) (Hwallet : wallet ≠ "").

(** Neither key is locked from [t] on; neither has failures. *)
Definition open_ (t : Time) (l : L) : Prop :=
  ∀ t', t ≤ t' → locked VW l t' wallet = false ∧ locked VI l t' ip = false.
Definition clean (t : Time) (l : L) : Prop :=
  ∀ t', t ≤ t' → count VW l t' wallet = 0 ∧ count VI l t' ip = 0.

Lemma open_later t t' l : open_ t l → t ≤ t' → open_ t' l.
Proof. intros Ho Ht u Hu. apply Ho. lia. Qed.

(** A request of the client for the wallet, on a guarded route, as the handler is
    given it. *)
Definition asks (r r' : Request) : Prop :=
  is_Some (stageFor (stages g) r) ∧ peekWalletAddress walletField r = Ok (wallet, r') ∧ IP r' = ip.

(** The replies of an open guard: the handler's, or the limiter's. *)
Definition let_in (reply : Reply) : Prop :=
  match reply with
  | Served _ => True
  | Refused _ m => m = limit_message ∧ is_Some (walletLimiter g)
  end.

Lemma limited_open e t l : open_ t l → t ≤ lim_at (e_limiter e) → open_ (lim_at (e_limiter e)) (limited_store e wallet l).
Proof.
  intros Ho Ht t' Ht'. rewrite (proj2 (limited_alike VW e wallet l wallet t' Ht')), (proj2 (limited_alike VI e wallet l ip t' Ht')).
  apply Ho. lia.
Qed.

Lemma limited_clean e t l : clean t l → t ≤ lim_at (e_limiter e) → clean (lim_at (e_limiter e)) (limited_store e wallet l).
Proof.
  intros Ho Ht t' Ht'. rewrite (proj1 (limited_alike VW e wallet l wallet t' Ht')), (proj1 (limited_alike VI e wallet l ip t' Ht')).
  apply Ho. lia.
Qed.

(** An open guard lets a request in, and the handler's answer tells what becomes of
    the two keys. *)
Lemma open_let_in e t r r' x w reply x' w' :
  open_ t (store x) → timely t e → asks r r' → Middleware walletField g next e r x w = (reply, x', w') →
  (∃ wait, reply = Refused wait limit_message ∧ is_Some (walletLimiter g) ∧ store x' = limited_store e wallet (store x))
  ∨ reply = Served (next r' w).1 ∧ store x' = observed e wallet ip (next r' w).1 (limited_store e wallet (store x)).
Proof.
  intros Ho (H1 & H2 & _ & _ & H3 & H4 & _) ([stage Hst] & Hp & Hip) Hm.
  pose proof (middleware_cases e r x w reply x' w' Hm) as Hc. unfold heard in Hc. rewrite Hst, Hp in Hc.
  rewrite <-(peek_ip _ _ _ Hp), Hip in Hc. cbn zeta in Hc.
  rewrite (ll_asks (c:=c) (T:=walletLockout g) (V:=VW) _ _ _ H1), (ll_asks (c:=c) (T:=ipLockout g) (V:=VI) _ _ _ H2) in Hc.
  rewrite (proj1 (Ho _ H3)), (proj2 (Ho _ H4)) in Hc.
  destruct Hc as [(wait & m & -> & [[_ Hc]|(-> & -> & Hs)])|(status & -> & _ & _ & -> & r'' & [= <-] & ->)].
  - by destruct Hc as [[_ ?]|?].
  - left. by exists wait.
  - by right.
Qed.

Lemma answered_success e t status l :
  timely t e → status < 400 → open_ (over e) (observed e wallet ip status l) ∧ clean (over e) (observed e wallet ip status l).
Proof.
  intros Ht Hs. pose proof (timely_order t e Ht) as Hord. destruct Ht as (_ & _ & H1 & H2 & _).
  pose proof (ll_order (c:=c) (T:=walletLockout g) (V:=VW) _ H1).
  rewrite observed_answers. unfold walletAnswer. rewrite decide_False by done.
  set (l1 := answer (walletLockout g) _ _ _ l).
  assert (Hw : ∀ t', over e ≤ t' → count VW l1 t' wallet = 0 ∧ locked VW l1 t' wallet = false).
  { intros t' Ht'. unfold l1, answer. rewrite (proj2 (Z.ltb_lt _ _)) by done. apply (ll_reset (c:=c)); [done|lia]. }
  assert (Hi : ∀ t', over e ≤ t' → count VI (answer (ipLockout g) (e_ip_after e) ip status l1) t' ip = 0
    ∧ locked VI (answer (ipLockout g) (e_ip_after e) ip status l1) t' ip = false).
  { intros t' Ht'. unfold answer. rewrite (proj2 (Z.ltb_lt _ _)) by done. by apply (ll_reset (c:=c)). }
  split; intros t' Ht'; destruct (ipAnswer_alike (e_ip_after e) wallet ip status l1 H2 t' Ht') as [Hx Hy];
    rewrite ?Hx, ?Hy; (split; [by apply Hw|by apply Hi]).
Qed.

(** The first failure after a success is within the threshold. *)
Lemma first_answer (T : AuthLockout E L) (V : View E L) `{!LockoutLaws c T V} e k status l t :
  proper V e → t ≤ starts V e → (∀ u, t ≤ u → count V l u k = 0 ∧ locked V l u k = false) →
  ∀ u, finishes V e ≤ u → locked V (answer T e k status l) u k = false.
Proof.
  intros He Ht Hl u Hu. pose proof (ll_order (c:=c) (T:=T) (V:=V) e He). unfold answer.
  destruct (status <? 400); [by apply (ll_reset (c:=c))|]. destruct (_ || _); [apply Hl; lia|].
  destruct (RecordFailure e k l) as [[d j] l'] eqn:Er. simpl. pose proof (proj1 (Hl (starts V e) Ht)) as Hc.
  destruct (ll_record (c:=c) e k l d j l' He ltac:(unfold max_i64; lia) Er) as (Hd & _ & _ & Hlk). rewrite Hc in Hd.
  destruct (backoff_doubles c 1 Hsane ltac:(unfold max_i64; lia)) as (H1 & _). rewrite (proj2 (Z.leb_le _ _)) in H1 by done.
  destruct (locked V l' u k) eqn:El; [|done]. destruct (Hlk u Hu El) as [Hx|[Hx _]]; [|change (0 + 1) with 1 in Hd; lia].
  rewrite (proj2 (Hl u ltac:(lia))) in Hx. done.
Qed.

Lemma answered_once e t status l :
  timely t e → open_ (lim_at (e_limiter e)) l → clean (lim_at (e_limiter e)) l →
  open_ (over e) (observed e wallet ip status l).
Proof.
  intros Ht Ho Hc. pose proof (timely_order t e Ht) as Hord. destruct Ht as (_ & _ & H1 & H2 & _).
  pose proof (ll_order (c:=c) (T:=walletLockout g) (V:=VW) _ H1). rewrite observed_answers. intros t' Ht'.
  rewrite (proj2 (ipAnswer_alike (e_ip_after e) wallet ip status _ H2 t' Ht')). split.
  - unfold walletAnswer. rewrite decide_False by done.
    apply (first_answer (walletLockout g) VW _ _ _ _ (lim_at (e_limiter e))); [done|lia| |lia].
    intros u Hu. split; [by apply Hc|by apply Ho].
  - apply (first_answer (ipLockout g) VI _ _ _ _ (finishes VW (e_wallet_after e))); [done|lia| |exact Ht'].
    intros u Hu. destruct (walletAnswer_alike e ip wallet status l H1 u Hu) as [-> ->].
    split; [apply Hc|apply Ho]; lia.
Qed.

(** A guess at a signature: a challenge is asked for and, where one was issued, the
    verification is sent. *)
Record Guess := mkGuess {
  ask_env : GuardEnv E EL; ask : Request;
  verify_env : GuardEnv E EL; verify : Request;
}.

Definition issued (reply : Reply) : bool := match reply with Served status => status <? 400 | Refused _ _ => false end.

Fixpoint play (l : list Guess) (x : GuardState L) (w : W) : list Reply * GuardState L * W :=
  match l with
  | [] => ([], x, w)
  | i :: l =>
      let '(r1, x, w) := Middleware walletField g next (ask_env i) (ask i) x w in
      if issued r1 then
        let '(r2, x, w) := Middleware walletField g next (verify_env i) (verify i) x w in
        let '(rs, x, w) := play l x w in (r1 :: r2 :: rs, x, w)
      else let '(rs, x, w) := play l x w in (r1 :: rs, x, w)
  end.

Fixpoint in_order (t : Time) (l : list Guess) : Prop :=
  match l with
  | [] => True
  | i :: l => timely t (ask_env i) ∧ timely (over (ask_env i)) (verify_env i) ∧ in_order (over (verify_env i)) l
  end.
Fixpoint ends_at (t : Time) (l : list Guess) : Time :=
  match l with [] => t | i :: l => ends_at (over (verify_env i)) l end.

(** The handler finds nothing wrong with the request for a challenge; it may fail,
    or be busy.  To the verification it may answer anything. *)
Definition challenges (i : Guess) : Prop :=
  ∃ a v, asks (ask i) a ∧ asks (verify i) v
  ∧ ∀ w, (next a w).1 < 400 ∨ 500 ≤ (next a w).1 ∨ (next a w).1 = 429.

Lemma ask_open e t r r' x w reply x' w' :
  open_ t (store x) → timely t e → asks r r' → (∀ w, (next r' w).1 < 400 ∨ 500 ≤ (next r' w).1 ∨ (next r' w).1 = 429) →
  Middleware walletField g next e r x w = (reply, x', w') →
  let_in reply ∧ open_ (over e) (store x') ∧ (issued reply = true → clean (over e) (store x')).
Proof.
  intros Ho Ht Ha Hn Hm. pose proof (timely_order t e Ht) as Hord.
  assert (Hol : open_ (over e) (limited_store e wallet (store x))).
  { apply (open_later (lim_at (e_limiter e))); [|lia]. apply (limited_open e t); [done|lia]. }
  destruct (open_let_in e t r r' x w reply x' w' Ho Ht Ha Hm) as [(wait & -> & Hs & ->)|[-> ->]]; [done|].
  specialize (Hn w). set (status := (next r' w).1) in *. destruct (Z.lt_ge_cases status 400) as [Hok|Hbad].
  - destruct (answered_success e t status (limited_store e wallet (store x)) Ht Hok) as [Hx Hy]. done.
  - split; [done|]. simpl. rewrite (proj2 (Z.ltb_ge _ _)) by done. split; [|done].
    unfold observed, observe. rewrite (proj2 (Z.ltb_ge _ _)) by done.
    destruct (Z.leb_spec 500 status); [done|]. by rewrite (proj2 (Z.eqb_eq status 429)) by lia.
Qed.

Lemma verify_open e t r r' x w reply x' w' :
  open_ t (store x) → clean t (store x) → timely t e → asks r r' → Middleware walletField g next e r x w = (reply, x', w') →
  let_in reply ∧ open_ (over e) (store x').
Proof.
  intros Ho Hc Ht Ha Hm. pose proof (timely_order t e Ht) as Hord.
  assert (Hol := limited_open e t (store x) Ho ltac:(lia)). assert (Hcl := limited_clean e t (store x) Hc ltac:(lia)).
  destruct (open_let_in e t r r' x w reply x' w' Ho Ht Ha Hm) as [(wait & -> & Hs & ->)|[-> ->]].
  - split; [done|]. apply (open_later (lim_at (e_limiter e))); [done|lia].
  - split; [done|]. by apply (answered_once e t).
Qed.

(** C25: A client that asks for a challenge before every guess is never locked out.
    Let it play any number of guesses for one wallet, one request after the other
    and undisturbed by requests of others for that wallet or from that address: it
    asks for a challenge and, where one is issued, sends a verification, which the
    handler may answer as it likes.  If neither key is locked at first, then every
    request is served or turned away by the rate limit per wallet, none by a
    lockout, and neither key is locked at the end: the answered challenge clears the
    failures of wallet and client, so the threshold is never reached. *)
Theorem guessing_is_never_locked_out l t x w rs x' w' :
  open_ t (store x) → in_order t l → Forall challenges l → play l x w = (rs, x', w') →
  Forall let_in rs ∧ open_ (ends_at t l) (store x').
Proof.
  revert t x w rs. induction l as [|i l IH]; intros t x w rs Ho Ht Hl; cbn [play ends_at]; [by intros [= <- <- <-]|].
  destruct Ht as (Ht1 & Ht2 & Ht3). apply Forall_cons in Hl as [(a & v & Ha & Hv & Hn) Hl].
  destruct (Middleware walletField g next (ask_env i) (ask i) x w) as [[r1 x1] w1] eqn:E1.
  destruct (ask_open _ t _ a x w r1 x1 w1 Ho Ht1 Ha Hn E1) as (Hr1 & Ho1 & Hc1). destruct (issued r1).
  - destruct (Middleware walletField g next (verify_env i) (verify i) x1 w1) as [[r2 x2] w2] eqn:E2.
    destruct (verify_open _ _ _ v x1 w1 r2 x2 w2 Ho1 (Hc1 eq_refl) Ht2 Hv E2) as [Hr2 Ho2].
    destruct (play l x2 w2) as [[rs' x3] w3] eqn:E3. intros [= <- <- <-].
    destruct (IH _ x2 w2 rs' Ho2 Ht3 Hl E3). split; [by repeat constructor|done].
  - pose proof (timely_order _ _ Ht2). destruct (play l x1 w1) as [[rs' x3] w3] eqn:E3. intros [= <- <- <-].
    assert (Ho2 : open_ (over (verify_env i)) (store x1)) by (apply (open_later (over (ask_env i))); [done|lia]).
    destruct (IH _ x1 w1 rs' Ho2 Ht3 Hl E3). split; [by constructor|done].
Qed.
End Handshake.
