(* ===== verification/AuthGuardScenes.v ===== *)
(** The guard of the sign-in as the server builds it, without Redis on two maps and
    with Redis on one store, and concrete attackers. *)

From S2P Require Import Prelude GoStrings RedisKeys.
From S2P Require Idempotency.
From S2P Require Import Limiter AuthGuard AuthGuardRuns.
Open Scope Z_scope.
Open Scope go_scope.

(** ** Two trackers on one store *)

Section Pair.
Context {E L1 L2 : Type}.

Definition onFirst (T : AuthLockout E L1) : AuthLockout E (L1 * L2) := {|
  Locked e k l := @Locked _ _ T e k l.1;
  RecordFailure e k l := let '(d, l1) := @RecordFailure _ _ T e k l.1 in (d, (l1, l.2));
  Reset e k l := (@Reset _ _ T e k l.1, l.2);
|}.
Definition onSecond (T : AuthLockout E L2) : AuthLockout E (L1 * L2) := {|
  Locked e k l := @Locked _ _ T e k l.2;
  RecordFailure e k l := let '(d, l2) := @RecordFailure _ _ T e k l.2 in (d, (l.1, l2));
  Reset e k l := (l.1, @Reset _ _ T e k l.2);
|}.

Definition firstView (V : View E L1) : View E (L1 * L2) :=
  mkView (starts V) (finishes V) (proper V) (λ l, count V l.1) (λ l, locked V l.1) (period V) (slack V).
Definition secondView (V : View E L2) : View E (L1 * L2) :=
  mkView (starts V) (finishes V) (proper V) (λ l, count V l.2) (λ l, locked V l.2) (period V) (slack V).

Instance first_laws c T V (HT : LockoutLaws c T V) : LockoutLaws c (onFirst T) (firstView V).
Proof.
  destruct HT as [H1 H2 H3 H4 H5 H6 H7 H8 H9 H10]. split; simpl; try (intros; by auto).
  - intros l t t' k. apply H5.
  - intros e k [l1 l2] d j l' He Hc. simpl in *. destruct (RecordFailure e k l1) as [[d' j'] l1'] eqn:Er.
    intros [= -> -> <-]. by apply (H7 e k l1 d j l1').
  - intros e k k' [l1 l2] t He Hk Ht. specialize (H9 e k k' l1 t He Hk Ht). simpl. by destruct (RecordFailure e k l1).
Qed.
Instance second_laws c T V (HT : LockoutLaws c T V) : LockoutLaws c (onSecond T) (secondView V).
Proof.
  destruct HT as [H1 H2 H3 H4 H5 H6 H7 H8 H9 H10]. split; simpl; try (intros; by auto).
  - intros l t t' k. apply H5.
  - intros e k [l1 l2] d j l' He Hc. simpl in *. destruct (RecordFailure e k l2) as [[d' j'] l2'] eqn:Er.
    intros [= -> -> <-]. by apply (H7 e k l2 d j l2').
  - intros e k k' [l1 l2] t He Hk Ht. specialize (H9 e k k' l2 t He Hk Ht). simpl. by destruct (RecordFailure e k l2).
Qed.

Instance first_independent T V V' : Independent (onFirst T) (firstView V) (secondView V').
Proof. split; intros e k [l1 l2] t k' _ _; simpl; try done; by destruct (RecordFailure e k l1). Qed.
Instance second_independent T V V' : Independent (onSecond T) (secondView V) (firstView V').
Proof. split; intros e k [l1 l2] t k' _ _; simpl; try done; by destruct (RecordFailure e k l2). Qed.

(** One of two parts of the store apart from the other. *)
Instance first_of_two T V V' (H : Independent T V V') : Independent (onFirst T) (firstView V) (firstView V').
Proof.
  destruct H as [H1 H2 H3]. split; intros e k [l1 l2] t k' He Ht; simpl in *.
  - specialize (H1 e k l1 t k' He Ht). by destruct (RecordFailure e k l1).
  - by apply H2.
  - specialize (H3 e k l1 t k' He Ht). by destruct (RecordFailure e k l1).
Qed.

Definition limitSecond {EL} (allow : Limiter EL L2) : Limiter EL (L1 * L2) :=
  λ e k l, let '(r, l2) := allow e k l.2 in (r, (l.1, l2)).
End Pair.
#[export] Existing Instances first_laws second_laws first_independent second_independent first_of_two.

Lemma second_limiter_apart {E EL L1 L2} (allow : Limiter EL L2) wallet ip stages (lim_at : EL → Time) (V : View E L1) :
  LimiterApart (mkAuthGuard (Some (limitSecond allow)) wallet ip stages) lim_at (firstView V).
Proof. intros a e key [l1 l2] k [= <-] t Ht. unfold limitSecond. simpl. by destruct (allow e key l2). Qed.

(** The trackers main.go builds on Redis keep apart by their prefixes. *)
Section RedisPair.
Context {R : Type} `{RedisKeysLaws R} (c : AuthLockoutConfig) (p q : string).
Hypothesis apart : ∀ k k', failKey p k ≠ failKey q k' ∧ lockKey p k ≠ lockKey q k'.

Lemma redis_independent : Independent (redisAuthLockout c p) (redisView c p) (redisView c q).
Proof.
  assert (Hf : ∀ k k', failKey q k' ≠ failKey p k) by (intros k k' Hx; by apply (proj1 (apart k k'))).
  assert (Hl : ∀ k k', lockKey q k' ≠ lockKey p k) by (intros k k' Hx; by apply (proj2 (apart k k'))).
  assert (Hrec : ∀ e k r t x, answered e → at_ e 2 ≤ t → x ≠ failKey p k → x ≠ lockKey p k →
    view (redisReset p e k r) t x = view r t x).
  { intros e k r t x [Ht He] Hx H1 H2. unfold redisReset. rewrite He. unfold attempt. cbn [snd].
    apply (view_keeps r _ (at_ e 0)); [lia|]. rewrite del_view, decide_False; [done|].
    by rewrite !not_elem_of_cons; split_and!; [..|apply not_elem_of_nil]. }
  split; intros e k r t k' He Ht; simpl; rewrite ?record_other, ?Hrec by done; done.
Qed.
End RedisPair.

#[export] Instance wallet_apart_ip {R} `{RedisKeysLaws R} c :
  Independent (redisAuthLockout (R:=R) c "wallet") (redisView c "wallet") (redisView c "ip").
Proof. by apply redis_independent. Qed.
#[export] Instance ip_apart_wallet {R} `{RedisKeysLaws R} c :
  Independent (redisAuthLockout (R:=R) c "ip") (redisView c "ip") (redisView c "wallet").
Proof. by apply redis_independent. Qed.

(** Its limiter keeps its counters under a prefix of its own too. *)
Lemma rate_script_view {R} `{RedisKeysLaws R} now key ms (r : R) t x :
  now ≤ t → x ≠ key → view (rateLimitScript now key ms r).2 t x = view r t x.
Proof.
  intros Ht Hx. apply (view_keeps r _ now); [done|]. unfold rateLimitScript.
  destruct (INCR now key r) as [[m|] r1] eqn:E; cbn [snd].
  - destruct (incr_some _ _ _ _ _ E) as [_ Hi]. specialize (Hi x). rewrite decide_False in Hi by done.
    destruct (m =? 1); [|done]. by rewrite pexpire_view, decide_False.
  - by apply (proj2 (incr_none _ _ _ _ E)).
Qed.

Lemma redis_limiter_apart {R} `{RedisKeysLaws R} c prefix (l : redisLimiter) (wallet ip : AuthLockout RedisCall R) stages :
  LimiterApart (mkAuthGuard (Some (redis_limiter l)) wallet ip stages) fst (redisView c prefix).
Proof.
  intros a [now o] key r k [= <-] t Ht. cbn [fst] in Ht.
  assert (Hv : ∀ x, x ≠ rateKey l key → view (redis_limiter l (now, o) key r).2 t x = view r t x).
  { intros x Hx. unfold redis_limiter, redisAllow, attempt. cbn [fst snd].
    pose proof (rate_script_view now (rateKey l key) (rl_window l `quot` Millisecond) r t x Ht Hx) as Hs.
    destruct o as [|[] ]; [|done..]. destruct (rateLimitScript _ _ _ r) as [[[cnt ttl]|] r1]; [|done]. by destruct (_ <? _). }
  simpl. by rewrite !Hv.
Qed.

(** ** The guard of main.go *)

Definition newAuthGuard {E EL L : Type} (limiter : Limiter EL L) (wallet ip : AuthLockout E L) : AuthGuard E EL L :=
  mkAuthGuard (Some limiter) wallet ip authStages.

(** With Redis, on one store; the limiter acts when its script is run. *)
Definition redisAuthGuard {R} `{RedisKeys R} (c : AuthLockoutConfig) (limit : Z) (window : Duration)
    : AuthGuard RedisCall (Time * reached) R :=
  newAuthGuard (redis_limiter (mkRedisLimiter "authwallet" limit window))
    (redisAuthLockout c "wallet") (redisAuthLockout c "ip").

(** Without, on two maps of failures and the limiter's map of buckets. *)
Abbreviation Memory := (gmap string memoryAuthEntry * gmap string memoryAuthEntry * limiter)%type (only parsing).
Definition memoryAuthGuard (c : AuthLockoutConfig) : AuthGuard Clock Time Memory :=
  newAuthGuard (limitSecond memory_limiter) (onFirst (onFirst (memoryAuthLockout c))) (onFirst (onSecond (memoryAuthLockout c))).
Definition walletView (c : AuthLockoutConfig) : View Clock Memory := firstView (firstView (memoryView c)).
Definition ipView (c : AuthLockoutConfig) : View Clock Memory := firstView (secondView (memoryView c)).

(** The defaults of the configuration (config.go). *)
Definition authLockoutDefaults : AuthLockoutConfig := mkLockout 5 (15 * Minute) (30 * Second) (15 * Minute).

(** One failure is tolerated, the second locks for a minute. *)
Definition strict : AuthLockoutConfig := mkLockout 1 Hour Minute Hour.
Lemma strict_sane : sane strict.
Proof. split; vm_compute; split || intros; done. Qed.

Lemma backoff_doubles_witness : lockoutFor strict 3 = 2 * Minute ∧ 0 ≤ lockoutFor strict 3 ≤ Max strict.
Proof.
  destruct (backoff_doubles strict 3 strict_sane) as (-> & H & _); [vm_compute; split; discriminate|].
  split; [vm_compute; reflexivity|]. destruct (backoff_doubles strict 3 strict_sane) as (_ & H' & _); [vm_compute; split; discriminate|].
  destruct (backoff_doubles strict 3 strict_sane) as (E & _); [vm_compute; split; discriminate|].
  rewrite E in H'. exact H'.
Defined.

(** ** One key under attack, in memory *)

Definition tick (s : Z) : Clock := mkClock (s * Second) (s * Second).
Definition T1 : AuthLockout Clock (gmap string memoryAuthEntry) := memoryAuthLockout strict.
#[local] Instance strict_laws : LockoutLaws strict T1 (memoryView strict).
Proof. exact (memory_laws strict strict_sane). Defined.
Definition fail (s : Z) (m : gmap string memoryAuthEntry) := (@RecordFailure _ _ T1 (tick s) "GWALLET" m).2.
Definition attacked : gmap string memoryAuthEntry := fail 63 (fail 2 (fail 1 ∅)).

Ltac clocked := vm_compute; (reflexivity || discriminate || (intros; discriminate)).

Lemma attack_calls :
  calls T1 (memoryView strict) ∅ 0 [("GWALLET", 1 * Second); ("GWALLET", 2 * Second)] (fail 2 (fail 1 ∅)) (2 * Second).
Proof.
  refine (c_failure T1 (memoryView strict) ∅ 0 [("GWALLET", 1 * Second)] (fail 1 ∅) (1 * Second) (tick 2) "GWALLET" _ _ _);
    [|clocked|clocked].
  refine (c_failure T1 (memoryView strict) ∅ 0 [] ∅ 0 (tick 1) "GWALLET" _ _ _); [constructor|clocked|clocked].
Qed.

Lemma lockout_is_capped_witness :
  locked (memoryView strict) (fail 2 (fail 1 ∅)) (61 * Second) "GWALLET" = true
  ∧ ∃ f, ("GWALLET", f) ∈ [("GWALLET", 1 * Second); ("GWALLET", 2 * Second)] ∧ 61 * Second < f + Max strict + 0.
Proof.
  assert (Hl : locked (memoryView strict) (fail 2 (fail 1 ∅)) (61 * Second) "GWALLET" = true) by (vm_compute; reflexivity).
  split; [exact Hl|].
  apply (lockout_is_capped strict T1 (memoryView strict) strict_sane ∅ 0 [("GWALLET", 1 * Second); ("GWALLET", 2 * Second)]
    (fail 2 (fail 1 ∅)) (2 * Second) "GWALLET" (61 * Second) attack_calls).
  - split; [intros k t' _; vm_compute; split; discriminate|intros k t' _ Hx; vm_compute in Hx; discriminate Hx].
  - vm_compute. reflexivity.
  - vm_compute. discriminate.
  - exact Hl.
Defined.

(** ** The handshake under attack *)

Definition minuteLimiter : limiter := newLimiter 20 Minute.
Definition idle : GuardState Memory := mkState (∅, ∅, minuteLimiter) [].
Definition scene_guard : AuthGuard Clock Time Memory := memoryAuthGuard strict.
Definition at_call (t : Time) : Time := t.

#[local] Instance scene_wallet_laws : LockoutLaws strict (walletLockout scene_guard) (walletView strict).
Proof. exact (first_laws strict _ _ (first_laws strict _ _ (memory_laws strict strict_sane))). Defined.
#[local] Instance scene_ip_laws : LockoutLaws strict (ipLockout scene_guard) (ipView strict).
Proof. exact (first_laws strict _ _ (second_laws strict _ _ (memory_laws strict strict_sane))). Defined.
#[local] Instance scene_wallet_apart : LimiterApart scene_guard at_call (walletView strict).
Proof. apply second_limiter_apart. Qed.
#[local] Instance scene_ip_apart : LimiterApart scene_guard at_call (ipView strict).
Proof. apply second_limiter_apart. Qed.
#[local] Instance scene_wallet_independent : Independent (walletLockout scene_guard) (walletView strict) (ipView strict).
Proof. exact (first_of_two _ _ _ (first_independent _ _ _)). Defined.
#[local] Instance scene_ip_independent : Independent (ipLockout scene_guard) (ipView strict) (walletView strict).
Proof. exact (first_of_two _ _ _ (second_independent _ _ _)). Defined.

(** A handler that issues challenges and refuses every signature; its world counts
    the verifications. *)
Definition scene_next (r : Request) (n : Z) : Z * Z :=
  if decide (Path r = "/api/v1/auth/challenge") then (200, n) else (401, n + 1).

Definition scene_env (s : Z) : GuardEnv Clock Time :=
  mkGuardEnv (tick s) (tick s) (s * Second) (tick (s + 1)) (tick (s + 1)).
Definition scene_request (path : string) : Request := mkRequest "POST" path "203.0.113.7" (Bytes "GWALLET" false).
Definition ask_request : Request := scene_request "/api/v1/auth/challenge".
Definition verify_request : Request := scene_request "/api/v1/auth/verify".

Abbreviation scene_timely := (timely (walletView strict) (ipView strict) at_call) (only parsing).

Lemma scene_env_timely t s : 0 ≤ t ≤ s * Second → scene_timely t (scene_env s).
Proof.
  intros Ht. unfold timely. cbn -[Z.mul Z.add]. unfold zeroTime, at_call, Second, Millisecond, Microsecond, Nanosecond in *.
  repeat split; lia.
Qed.

(** Requests at given seconds, the newest first. *)
Fixpoint visits (l : list (Z * Request)) : list entry * GuardState Memory * Z * Time :=
  match l with
  | [] => ([], idle, 0, 0)
  | (s, r) :: l =>
      let '(h, x, w, t) := visits l in
      let '(reply, x, w) := Middleware Some scene_guard scene_next (scene_env s) r x w in
      ((scene_env s, r, reply) :: h, x, w, (s + 1) * Second)
  end.

Fixpoint one_by_one (l : list (Z * Request)) : bool :=
  match l with
  | [] => true
  | (s, _) :: l' => (match l' with [] => 0 | (s', _) :: _ => s' + 1 end <=? s) && one_by_one l'
  end.

Lemma visits_traffic l :
  one_by_one l = true →
  let '(h, x, w, t) := visits l in
  traffic scene_guard (walletView strict) (ipView strict) at_call Some scene_next idle 0 0 h x w t
  ∧ t = match l with [] => 0 | (s, _) :: _ => (s + 1) * Second end ∧ 0 ≤ t.
Proof.
  induction l as [|[s r] l IH]; cbn [visits one_by_one]; [by repeat constructor|].
  intros [H1%Z.leb_le H2]%andb_true_iff. specialize (IH H2). destruct (visits l) as [[[h x] w] t]. destruct IH as (Htr & Ht & H0).
  destruct (Middleware Some scene_guard scene_next (scene_env s) r x w) as [[reply x'] w'] eqn:Em.
  assert (Hle : 0 ≤ t ≤ s * Second).
  { subst t. destruct l as [|[s' r'] l]; unfold Second, Millisecond, Microsecond, Nanosecond in *; lia. }
  split; [|split; [done|unfold Second, Millisecond, Microsecond, Nanosecond in *; lia]].
  exact (tr_request _ _ _ _ _ _ _ _ _ h x w t (scene_env s) r reply x' w' Htr (scene_env_timely t s Hle) Em).
Qed.

(** Four verifications in a row, and one after the window: the second failure locks
    wallet and client for a minute, the third request is turned away, the fourth
    has waited, and the last counts as a first failure again. *)
Definition scene_visits : list (Z * Request) :=
  [(4000, verify_request); (80, verify_request); (20, verify_request); (10, verify_request); (0, verify_request)].

Lemma failures_are_spaced_witness :
  map snd (visits scene_visits).1.1.1 =
    [Served 401; Served 401; Refused (51 * Second) "too many failed authentication attempts for this wallet"; Served 401; Served 401]
  ∧ let fs := foldr (wallet_log scene_guard (walletView strict) Some "GWALLET") [] (visits scene_visits).1.1.1 in
    fs = [4001 * Second; 81 * Second; 11 * Second; 1 * Second]
    ∧ streak (period (walletView strict)) fs = 1
    ∧ backed_off strict (walletView strict) fs ∧ 11 * Second + Minute ≤ 81 * Second.
Proof.
  split; [vm_compute; reflexivity|]. cbv zeta. split; [vm_compute; reflexivity|]. split; [vm_compute; reflexivity|].
  pose proof (visits_traffic scene_visits eq_refl) as Htr.
  destruct (visits scene_visits) as [[[h x] w] t] eqn:Ev. destruct Htr as [Htr _].
  assert (Hb : backed_off strict (walletView strict) (foldr (wallet_log scene_guard (walletView strict) Some "GWALLET") [] h)
    ∧ backed_off strict (ipView strict) (foldr (ip_log scene_guard (ipView strict) Some "203.0.113.7") [] h)).
  { apply (failures_are_spaced strict scene_guard (walletView strict) (ipView strict) at_call Some scene_next
      "GWALLET" "203.0.113.7" h idle 0 0 x w t Htr).
    - discriminate.
    - intros u _. split; vm_compute; reflexivity.
    - assert (Hh : h = (visits scene_visits).1.1.1) by (rewrite Ev; reflexivity). rewrite Hh. vm_compute. reflexivity. }
  split; [exact (proj1 Hb)|]. destruct Hb as [Hb _].
  assert (Hh : foldr (wallet_log scene_guard (walletView strict) Some "GWALLET") [] h = [4001 * Second; 81 * Second; 11 * Second; 1 * Second]).
  { assert (Hh : h = (visits scene_visits).1.1.1) by (rewrite Ev; reflexivity). rewrite Hh. vm_compute. reflexivity. }
  rewrite Hh in Hb. specialize (Hb 1%nat (11 * Second) (81 * Second) eq_refl eq_refl). vm_compute in Hb |- *. exact Hb.
Defined.

Definition scene_guess (s : Z) : Guess (E:=Clock) (EL:=Time) :=
  mkGuess (scene_env s) ask_request (scene_env (s + 2)) verify_request.
Definition scene_guesses : list (Guess (E:=Clock) (EL:=Time)) := [scene_guess 0; scene_guess 10; scene_guess 20].

Lemma guessing_is_never_locked_out_witness :
  (play scene_guard Some scene_next scene_guesses idle 0).1.1 = [Served 200; Served 401; Served 200; Served 401; Served 200; Served 401]
  ∧ Forall (let_in scene_guard) (play scene_guard Some scene_next scene_guesses idle 0).1.1
  ∧ locked (walletView strict) (store (play scene_guard Some scene_next scene_guesses idle 0).1.2) (30 * Second) "GWALLET" = false.
Proof.
  split; [vm_compute; reflexivity|].
  destruct (play scene_guard Some scene_next scene_guesses idle 0) as [[rs x'] w'] eqn:Ep. cbn [fst snd].
  assert (Hc : Forall (challenges scene_guard Some scene_next "GWALLET" "203.0.113.7") scene_guesses).
  { assert (Ha : asks scene_guard Some "GWALLET" "203.0.113.7" ask_request ask_request)
      by (split; [vm_compute; by eexists|split; vm_compute; reflexivity]).
    assert (Hv : asks scene_guard Some "GWALLET" "203.0.113.7" verify_request verify_request)
      by (split; [vm_compute; by eexists|split; vm_compute; reflexivity]).
    repeat constructor; exists ask_request, verify_request; (split; [exact Ha|split; [exact Hv|]]);
      intros w; left; vm_compute; reflexivity. }
  destruct (guessing_is_never_locked_out strict scene_guard (walletView strict) (ipView strict) at_call strict_sane Some scene_next
    ltac:(vm_compute; discriminate) "GWALLET" "203.0.113.7" ltac:(discriminate) scene_guesses 0 idle 0 rs x' w') as [Hr Ho].
  - intros t' _. split; vm_compute; reflexivity.
  - repeat split; vm_compute; discriminate.
  - exact Hc.
  - exact Ep.
  - split; [exact Hr|]. apply Ho. vm_compute. discriminate.
Defined.

(** With Redis the guard keeps the same promises, wherever the server is up. *)
Section OnRedis.
Context {R W : Type} `{RedisKeysLaws R} (c : AuthLockoutConfig) (Hsane : sane c) (limit : Z) (window : Duration).
Abbreviation redis_guard := (redisAuthGuard (R:=R) c limit window) (only parsing).

Instance redis_wallet_laws : LockoutLaws c (walletLockout redis_guard) (redisView c "wallet").
Proof. by apply redis_laws. Qed.
Instance redis_ip_laws : LockoutLaws c (ipLockout redis_guard) (redisView c "ip").
Proof. by apply redis_laws. Qed.
Instance redis_wallet_apart prefix : LimiterApart redis_guard fst (redisView c prefix).
Proof. apply redis_limiter_apart. Qed.
Instance redis_wallet_independent : Independent (walletLockout redis_guard) (redisView c "wallet") (redisView c "ip").
Proof. apply wallet_apart_ip. Qed.
Instance redis_ip_independent : Independent (ipLockout redis_guard) (redisView c "ip") (redisView c "wallet").
Proof. apply ip_apart_wallet. Qed.

Lemma redis_traffic_spaced walletField (next : Request → W → Z * W) k ip h x0 w0 t0 x w t :
  traffic redis_guard (redisView c "wallet") (redisView c "ip") fst walletField next x0 w0 t0 h x w t → k ≠ "" →
  (∀ t, t0 ≤ t → count (redisView c "wallet") (store x0) t k = 0 ∧ count (redisView c "ip") (store x0) t ip = 0) →
  Z.of_nat (length h) < max_i64 →
  spaced c (redisView c "wallet") k (foldr (wallet_log redis_guard (redisView c "wallet") walletField k) [] h) (store x) t
  ∧ spaced c (redisView c "ip") ip (foldr (ip_log redis_guard (redisView c "ip") walletField ip) [] h) (store x) t.
Proof. apply (traffic_spaced c redis_guard (redisView c "wallet") (redisView c "ip") fst). Qed.
End OnRedis.

(** Without the challenges the third verification is refused. *)
Example bare_verifications_are_locked_out :
  map snd (visits [(20, verify_request); (10, verify_request); (0, verify_request)]).1.1.1 =
    [Refused (51 * Second) "too many failed authentication attempts for this wallet"; Served 401; Served 401].
Proof. vm_compute. reflexivity. Qed.

(** By default the cap equals the window: whoever waits out a lockout of the cap has
    its failures forgotten, and starts with the free ones again. *)
Example capped_lockout_forgets :
  let failed n := mkAuthEntry n (15 * Minute) (15 * Minute) in
  lockoutFor authLockoutDefaults 11 = 15 * Minute
  ∧ (memRecordFailure authLockoutDefaults (mkClock (15 * Minute + 1) (15 * Minute + 1)) "GWALLET" {["GWALLET" := failed 11]}).1 = (0, false).
Proof. vm_compute. by split. Qed.

(** Attempts in flight together are all let through before the first is recorded. *)
Example attempts_in_flight_pass :
  let m := fail 1 ∅ in
  memLocked (tick 1) "GWALLET" m = (false, 0)
  ∧ memLocked (tick 3) "GWALLET" (fail 2 m) = (true, 59 * Second)
  ∧ failures <$> (fail 2 (fail 2 (fail 2 m)) !! "GWALLET") = Some 4.
Proof. vm_compute. by repeat split. Qed.

(** A cap beyond 146 years: the doubling overflows to a negative lockout, which is
    no lockout at all. *)
Example huge_cap_wraps : lockoutFor (mkLockout 1 Hour (2 ^ 62) max_i64) 3 = min_i64.
Proof. vm_compute. reflexivity. Qed.
