(* ===== verification/VaultStore.v ===== *)
(** The tables behind vaults (internal/repository/postgres/vault_repository.go):
    vaults, their transactions, and the ledger postings that
    the repository makes in the same database transaction with its own copy of
    the posting code.

    A method of the repository is one database transaction [Tx]: it runs on the
    tables, and they are put back when it returns an error.  The constraints of
    the migrations are the errors of the statements.  A NUMERIC(p, 8) column is
    an integer of hundred-millionths, rounded half away from zero as PostgreSQL
    does.  Columns that no statement modelled reads (names, descriptions, search
    vectors, ids of transaction rows) and the allocations are left out, and so is the error text on
    which [isLedgerTableMissing] decides: the migrated schema has the tables. *)

From S2P Require Import Prelude Sql GoStrings Decimal Vault.
From S2P Require Import Ledger.
Open Scope Z_scope.
Open Scope go_scope.

(** ** Numeric columns *)

(** A PostgreSQL error: its code and the constraint it names. *)
Record PgError := mkPg { Code : string; ConstraintName : string }.

Definition unit8 : positive := 100000000.

(** The value of a column that holds [z]. *)
Definition col (z : Z) : Q := Qmake z unit8.

(** The hundred-millionths nearest to a value. *)
Definition units (q : Q) : Z := Qround_haz (q * inject_Z (Zpos unit8))%Q.

(** Storing a value in a column of type NUMERIC([p], 8). *)
Definition numeric (p : Z) (q : Q) : result PgError Z :=
  if Z.abs (units q) <? 10 ^ p then Ok (units q) else Err (mkPg "22003" "").

(** ** Rows *)

Record VaultRow := mkVaultRow {
  v_user : UUID;
  v_contract : string;
  v_total : Z;
  v_balance : Z;
  v_currency : string;
  v_status : VaultStatus;
  v_yield : Z;
  v_fees : Z;
  v_frequency : string;
  v_harvested : option Time;
  v_deleted : option Time;
  v_created : Time;
  v_updated : Time;
}.

(** A row of vault_transactions. *)
Record TxRow := mkTxRow {
  t_vault : UUID;
  t_user : option UUID;
  t_type : string;
  t_amount : Z;
  t_hash : option string;
  t_shares : option Z;
  t_price : option Z;
  t_fee : option Z;
  t_created : Time;
}.

Record Store := mkStore {
  vaults : gmap UUID VaultRow;
  txs : list TxRow;
  ledger : Ledger.Session;
}.

Definition with_vaults (m : gmap UUID VaultRow) (s : Store) : Store := mkStore m (txs s) (ledger s).
Definition with_txs (l : list TxRow) (s : Store) : Store := mkStore (vaults s) l (ledger s).
Definition with_ledger (l : Ledger.Session) (s : Store) : Store := mkStore (vaults s) (txs s) l.

(** ** Errors (domain/vault/model.go) *)

Inductive VaultErr :=
| ErrVaultNotFound | ErrUserNotFound | ErrInvalidVault | ErrInvalidAmount | ErrInvalidAllocation
| ErrInvalidPrecision | ErrInvalidTransition | ErrVaultClosed | ErrVaultNotActive
| ErrInsufficientBalance | ErrWithdrawalExceedsPosition | ErrTxHashRequired | ErrUnverifiedChainTx
| ErrChainVerificationUnavailable | ErrChainEventCallerMismatch | ErrVaultForbidden
| ErrBelowMinDeposit | ErrInvalidHarvestFrequency | ErrDuplicateTransaction
| ErrContractAddressRegistered | ErrInvalidSharePrice
| ErrOperatorFundedDepositDisabled | ErrOperatorFundedDepositNotAllowed
| ErrOperatorFundedDepositCapExceeded
| ErrPg (e : PgError) | ErrLedger (e : LedgerError) | ErrIO | ErrOnChain | ErrPaused (reason : string)
| ErrUnknownOperation | ErrOther.

Definition mapRepositoryError (e : PgError) : VaultErr :=
  let hits code name := bool_decide (Code e = code) && Contains (ConstraintName e) name in
  if hits "23503"%string "user"%string then ErrUserNotFound
  else if hits "23503"%string "vault"%string then ErrVaultNotFound
  else if hits "23505"%string "transaction_hash"%string then ErrDuplicateTransaction
  else if hits "23505"%string "vaults_contract_address"%string then ErrContractAddressRegistered
  else ErrPg e.

(** ** Transactions *)

Definition Tx (A : Type) : Type := Store → result VaultErr A * Store.

#[export] Instance Tx_ret : MRet Tx := λ A a s, (Ok a, s).
#[export] Instance Tx_bind : MBind Tx := λ A B f m s,
  match m s with
  | (Ok a, s') => f a s'
  | (Err e, s') => (Err e, s')
  end.

Definition failTx {A} (e : VaultErr) : Tx A := λ s, (Err e, s).
Definition liftTx {A} (r : result VaultErr A) : Tx A := λ s, (r, s).
Definition readTx {A} (f : Store → result VaultErr A) : Tx A := λ s, (f s, s).

(** The error of a statement reaches the caller through mapRepositoryError. *)
Definition mapped {A} (r : result PgError A) : result VaultErr A :=
  match r with Ok a => Ok a | Err e => Err (mapRepositoryError e) end.

(** A statement of the ledger inside the transaction. *)
Definition inLedger {A} (m : Store → Ledger.M A) : Tx A := λ s,
  match m s (ledger s) with
  | (Ok a, l) => (Ok a, with_ledger l s)
  | (Err e, l) => (Err (ErrLedger e), with_ledger l s)
  end.

(** The tables as before the transaction; the ids it drew stay drawn. *)
Definition rolled_back (s s' : Store) : Store :=
  with_ledger (mkSession (db (ledger s)) (drawn (ledger s'))) s.

(** BeginTx, the body, Commit, and the deferred Rollback; a statement that
    loses its connection is a transaction that does not begin. *)
Definition inTx {A} (beginOk : bool) (d : dbres) (m : Tx A) : Tx A := λ s,
  if negb beginOk then (Err ErrIO, s)
  else
    match m s with
    | (Ok a, s') => (if failed d then Err ErrIO else Ok a, Sql.effect d (rolled_back s s') s')
    | (Err e, s') => (Err e, rolled_back s s')
    end.

(** ** Statements *)

Definition live (r : VaultRow) : bool := bool_decide (v_deleted r = None).
Definition by_id (id : UUID) (i : UUID) (r : VaultRow) : bool := bool_decide (i = id) && live r.

(** The CHECK constraints of vaults. *)
Definition check_vault (r : VaultRow) : result PgError unit :=
  let fails b name := guard_err b (mkPg "23514" name) in
  fails (v_total r <? 0) "vaults_total_deposited_check"%string;;
  fails (v_balance r <? 0) "check_current_balance"%string;;
  fails (v_yield r <? 0) "check_vaults_yield_earned_non_negative"%string;;
  fails (v_fees r <? 0) "check_vaults_fees_paid_non_negative"%string;;
  fails (bool_decide (v_contract r = "")) "vaults_contract_address_check"%string;;
  fails (bool_decide (v_currency r = "")) "vaults_currency_check"%string;;
  fails (negb (bool_decide (v_frequency r = "daily" ∨ v_frequency r = "weekly")))
    "vaults_harvest_frequency_check"%string.

(** Another live vault of the contract: uq_vaults_contract_address_live. *)
Definition contract_taken (id : UUID) (r : VaultRow) (m : gmap UUID VaultRow) : bool :=
  live r && existsb (λ p : UUID * VaultRow,
    negb (bool_decide (p.1 = id)) && live p.2 && bool_decide (v_contract p.2 = v_contract r))
    (map_to_list m).

Definition write_vault (id : UUID) (r : VaultRow) (m : gmap UUID VaultRow)
    : result PgError (gmap UUID VaultRow) :=
  check_vault r;;
  guard_err (contract_taken id r m) (mkPg "23505" "uq_vaults_contract_address_live");;
  Ok (<[id := r]> m).

Fixpoint update_all (f : VaultRow → result PgError VaultRow) (l : list (UUID * VaultRow))
    (m : gmap UUID VaultRow) : result PgError (gmap UUID VaultRow) :=
  match l with
  | [] => Ok m
  | (id, r) :: l => r' ← f r; m' ← write_vault id r' m; update_all f l m'
  end.

(** [UPDATE vaults SET f WHERE w]: how many rows it found. *)
Definition update_vaults (w : UUID → VaultRow → bool) (f : VaultRow → result PgError VaultRow)
    (s : Store) : result PgError Z * Store :=
  let l := List.filter (λ p : UUID * VaultRow, w p.1 p.2) (map_to_list (vaults s)) in
  match update_all f l (vaults s) with
  | Ok m => (Ok (Z.of_nat (length l)), with_vaults m s)
  | Err e => (Err e, s)
  end.

(** NULLIF(hash, '') *)
Definition nullif (s : string) : option string := if decide (s = "") then None else Some s.

Definition has_hash (h : string) (t : TxRow) : bool := bool_decide (t_hash t = Some h).

Definition hash_taken (o : option string) (l : list TxRow) : bool :=
  match o with Some h => existsb (has_hash h) l | None => false end.

(** [INSERT INTO vault_transactions], with or without ON CONFLICT
    (transaction_hash) DO NOTHING: how many rows it wrote. *)
Definition insert_tx (userExists : UUID → bool) (onConflict : bool) (t : TxRow) (s : Store)
    : result PgError Z * Store :=
  if t_amount t <=? 0 then (Err (mkPg "23514" "vault_transactions_amount_check"), s)
  else if bool_decide (t_type t ∉ ["deposit"; "withdrawal"; "harvest"; "rebalance"]%string)
  then (Err (mkPg "23514" "vault_transactions_type_check"), s)
  else if default 0 (t_shares t) <? 0 then (Err (mkPg "23514" "check_vault_tx_shares_non_negative"), s)
  else if default 1 (t_price t) <=? 0 then (Err (mkPg "23514" "check_vault_tx_share_price_positive"), s)
  else if hash_taken (t_hash t) (txs s)
  then (if onConflict then Ok 0
        else Err (mkPg "23505" "idx_vault_transactions_transaction_hash_unique"), s)
  else if negb (bool_decide (is_Some (vaults s !! t_vault t)))
  then (Err (mkPg "23503" "vault_transactions_vault_id_fkey"), s)
  else if negb (match t_user t with Some u => userExists u | None => true end)
  then (Err (mkPg "23503" "vault_transactions_user_id_fkey"), s)
  else (Ok 1, with_txs (txs s ++ [t]) s).

(** A statement of the repository. *)
Definition stmt {A} (m : Store → result PgError A * Store) : Tx A := λ s, (mapped (m s).1, (m s).2).

(** ** Ledger postings of the repository *)

Section Repository.
Context (uuidNew : nat → UUID) (dbnow : Time) (userExists : UUID → bool).
Context {D : Type} `{!Decimal D}.

Definition decimalToStroops (d : D) : Z := d_intpart (d_round 0 (d_mul d (d_of_Z 10000000))).

Definition default_adapter (ad : option string) : string :=
  match ad with None => "blend" | Some a => if decide (a = "") then "blend" else a end.

Section Posting.
Context (vaultExists : UUID → bool).

Definition ledgerGetOrCreateAccountTx (ty : string) (vault user : option UUID) (adapter : option string)
    (asset : string) : M UUID :=
  let asset := default_asset asset in
  let adapter := if decide (ty = AccountTypeYieldSource) then Some (default_adapter adapter) else adapter in
  lift (required_key ty vault user adapter);;
  found ← gets (λ d, Ok (select_account ty vault user adapter asset d));
  match found with
  | Some acc => mret acc.1
  | None =>
      newID ← newUUID uuidNew;
      insert_account vaultExists userExists newID
        (mkAccount ty vault user adapter asset "stroops" "" dbnow dbnow);;
      again ← gets (λ d, Ok (select_account ty vault user adapter asset d));
      mret (match again with Some acc => acc.1 | None => newID end)
  end.

(** The loop over the entries that adds them up in an int64. *)
Fixpoint entries_sum (sum : Z) (es : list (UUID * Z)) : result LedgerError Z :=
  match es with
  | [] => Ok sum
  | e :: es => if e.2 =? 0 then Err ErrZeroAmount else entries_sum (sum +w e.2) es
  end.

Fixpoint post_legs (txID : UUID) (event eventID : string) (es : list (UUID * Z)) : M unit :=
  match es with
  | [] => mret tt
  | (acc, amount) :: es =>
      entryID ← newUUID uuidNew;
      let e := mkEntry entryID txID acc amount (if amount <? 0 then "credit" else "debit") dbnow
                 event eventID "USDC" "stroops" in
      insert_entry e;; upsert_balance dbnow e;; post_legs txID event eventID es
  end.

Definition ledgerPostEntriesTx (event eventID : string) (es : list (UUID * Z)) : M unit :=
  if Z.of_nat (length es) <? 2 then fail ErrTooFewEntries
  else
    sum ← lift (entries_sum 0 es);
    if negb (sum =? 0) then fail ErrUnbalanced
    else txID ← newUUID uuidNew; post_legs txID event eventID es.

Definition postDepositLedgerTx (vault user : UUID) (amount : D) (eventID : string) : M unit :=
  let stroops := decimalToStroops amount in
  if stroops <=? 0 then mret tt
  else
    userAcc ← ledgerGetOrCreateAccountTx AccountTypeUserVaultPosition (Some vault) (Some user) None "USDC";
    vaultAcc ← ledgerGetOrCreateAccountTx AccountTypeVaultAssetPool (Some vault) None None "USDC";
    suspense ← ledgerGetOrCreateAccountTx AccountTypeSystemSuspense None None None "USDC";
    ledgerPostEntriesTx "deposit" eventID
      [(userAcc, stroops); (vaultAcc, stroops); (suspense, i64 (-2 * stroops))].

Definition postWithdrawalLedgerTx (vault user : UUID) (amount : D) (eventID : string) : M unit :=
  let stroops := decimalToStroops amount in
  if stroops <=? 0 then mret tt
  else
    userAcc ← ledgerGetOrCreateAccountTx AccountTypeUserVaultPosition (Some vault) (Some user) None "USDC";
    vaultAcc ← ledgerGetOrCreateAccountTx AccountTypeVaultAssetPool (Some vault) None None "USDC";
    suspense ← ledgerGetOrCreateAccountTx AccountTypeSystemSuspense None None None "USDC";
    ledgerPostEntriesTx "withdraw" eventID
      [(userAcc, i64 (- stroops)); (vaultAcc, i64 (- stroops)); (suspense, 2 *w stroops)].

Definition postHarvestLedgerTx (vault user : UUID) (netYield perfFee : D) (adapter eventID : string)
    : M unit :=
  let net := decimalToStroops netYield in
  let fee := decimalToStroops perfFee in
  if (net <=? 0) && (fee <=? 0) then mret tt
  else
    let gross := net +w fee in
    vaultAcc ← ledgerGetOrCreateAccountTx AccountTypeVaultAssetPool (Some vault) None None "USDC";
    userAcc ← ledgerGetOrCreateAccountTx AccountTypeUserVaultPosition (Some vault) (Some user) None "USDC";
    feeAcc ← ledgerGetOrCreateAccountTx AccountTypeFee None None None "USDC";
    yieldAcc ← ledgerGetOrCreateAccountTx AccountTypeYieldSource None None (Some adapter) "USDC";
    suspense ← ledgerGetOrCreateAccountTx AccountTypeSystemSuspense None None None "USDC";
    ledgerPostEntriesTx "harvest" eventID
      ((if net =? 0 then [] else [(vaultAcc, net); (userAcc, net); (suspense, i64 (- net))])
       ++ (if fee =? 0 then [] else [(feeAcc, fee)])
       ++ (if gross =? 0 then [] else [(yieldAcc, i64 (- gross))])).

Definition postRebalanceLedgerTx (vault : UUID) (fromProtocol toProtocol : string) (amount : D)
    (eventID : string) : M unit :=
  let stroops := decimalToStroops amount in
  if stroops <=? 0 then mret tt
  else if decide (fromProtocol = toProtocol) then mret tt
  else
    from ← ledgerGetOrCreateAccountTx AccountTypeYieldSource None None (Some fromProtocol) "USDC";
    to ← ledgerGetOrCreateAccountTx AccountTypeYieldSource None None (Some toProtocol) "USDC";
    ledgerPostEntriesTx "rebalance" eventID [(from, i64 (- stroops)); (to, stroops)].
End Posting.

(** ** The repository *)

Definition vaultExists (s : Store) (id : UUID) : bool := bool_decide (is_Some (vaults s !! id)).

(** The decimal that scanning a column of hundred-millionths gives. *)
Definition scan_col (z : Z) : D := default d_zero (d_div (d_of_Z z) (d_of_Z (Zpos unit8))).

Record TransactionRecord := mkRecord {
  rec_user : UUID;
  rec_amount : D;
  rec_hash : string;
  rec_shares : D;
  rec_price : D;
  rec_fee : D;
}.

(** The row an INSERT asks for; an absent column is NULL. *)
Definition tx_row (vault : UUID) (user : option UUID) (ty : string) (amount : D) (hash : string)
    (shares price fee : option D) : result PgError TxRow :=
  let opt p (o : option D) : result PgError (option Z) :=
    match o with None => Ok None | Some d => z ← numeric p (dval d); Ok (Some z) end in
  a ← numeric 48 (dval amount);
  sh ← opt 28 shares; pr ← opt 28 price; fe ← opt 48 fee;
  Ok (mkTxRow vault user ty a (nullif hash) sh pr fe dbnow).

Definition record_row (vault : UUID) (ty : string) (r : TransactionRecord) : result PgError TxRow :=
  tx_row vault (Some (rec_user r)) ty (rec_amount r) (rec_hash r) (Some (rec_shares r))
    (Some (rec_price r)) (Some (rec_fee r)).

Definition insert_row (onConflict : bool) (row : result PgError TxRow) : Tx Z :=
  stmt (λ s, match row with
             | Ok t => insert_tx userExists onConflict t s
             | Err e => (Err e, s)
             end).

(** SET total_deposited, current_balance, updated_at *)
Definition set_money (total balance : VaultRow → Q) (r : VaultRow) : result PgError VaultRow :=
  t ← numeric 48 (total r);
  b ← numeric 48 (balance r);
  Ok (mkVaultRow (v_user r) (v_contract r) t b (v_currency r) (v_status r) (v_yield r) (v_fees r)
        (v_frequency r) (v_harvested r) (v_deleted r) (v_created r) dbnow).

Definition credit (q : Q) : VaultRow → result PgError VaultRow :=
  set_money (λ r, (col (v_total r) + q)%Q) (λ r, (col (v_balance r) + q)%Q).
Definition debit (q : Q) : VaultRow → result PgError VaultRow :=
  set_money (λ r, col (v_total r)) (λ r, (col (v_balance r) - q)%Q).

Definition update (w : UUID → VaultRow → bool) (f : VaultRow → result PgError VaultRow) : Tx Z :=
  stmt (update_vaults w f).

(** The update of one vault, whose absence is an error. *)
Definition update_one (id : UUID) (f : VaultRow → result PgError VaultRow) : Tx unit :=
  n ← update (by_id id) f;
  if n =? 0 then failTx ErrVaultNotFound else mret tt.

Definition RecordDeposit (beginOk : bool) (d : dbres) (id : UUID) (r : TransactionRecord) : Tx unit :=
  if d_le (rec_amount r) d_zero then failTx ErrInvalidAmount
  else inTx beginOk d (
    update_one id (credit (dval (rec_amount r)));;
    inserted ← insert_row true (record_row id "deposit" r);
    if inserted =? 0 then failTx ErrDuplicateTransaction
    else inLedger (λ s, postDepositLedgerTx (vaultExists s) id (rec_user r) (rec_amount r) (rec_hash r))).

Definition RecordWithdrawal (beginOk : bool) (d : dbres) (id : UUID) (r : TransactionRecord) : Tx unit :=
  if d_le (rec_amount r) d_zero then failTx ErrInvalidAmount
  else inTx beginOk d (
    balance ← readTx (λ s, match vaults s !! id with
                           | Some v => if live v then Ok (scan_col (v_balance v)) else Err ErrVaultNotFound
                           | None => Err ErrVaultNotFound
                           end);
    if d_lt balance (rec_amount r) then failTx ErrWithdrawalExceedsPosition
    else
      update (by_id id) (debit (dval (rec_amount r)));;
      insert_row false (record_row id "withdrawal" r);;
      inLedger (λ s, postWithdrawalLedgerTx (vaultExists s) id (rec_user r) (rec_amount r) (rec_hash r))).

Record HarvestRecordInput := mkHarvest {
  hr_vault : UUID;
  hr_user : UUID;
  hr_net : D;
  hr_fee : D;
  hr_compounded : bool;
  hr_shares : option D;
  hr_hash : string;
}.

(** GREATEST(q, 0) *)
Definition greatest0 (q : Q) : Q := if Qle_bool q 0 then 0%Q else q.

(** SET the balances, yield_earned = GREATEST(yield_earned - (net + fee), 0),
    fees_paid and last_harvested_at. *)
Definition harvested (compounded : bool) (net fee : Q) (r : VaultRow) : result PgError VaultRow :=
  t ← numeric 48 (if compounded then col (v_total r) + net else col (v_total r))%Q;
  b ← numeric 48 (if compounded then col (v_balance r) + net else col (v_balance r) - net)%Q;
  y ← numeric 48 (greatest0 (col (v_yield r) - (net + fee)));
  f ← numeric 48 (col (v_fees r) + fee)%Q;
  Ok (mkVaultRow (v_user r) (v_contract r) t b (v_currency r) (v_status r) y f
        (v_frequency r) (Some dbnow) (v_deleted r) (v_created r) dbnow).

Definition RecordHarvest (beginOk : bool) (d : dbres) (i : HarvestRecordInput) : Tx unit :=
  if d_lt (hr_net i) d_zero || d_lt (hr_fee i) d_zero then failTx ErrInvalidAmount
  else inTx beginOk d (
    update_one (hr_vault i) (harvested (hr_compounded i) (dval (hr_net i)) (dval (hr_fee i)));;
    insert_row false (tx_row (hr_vault i) (Some (hr_user i)) "harvest" (hr_net i) (hr_hash i) (hr_shares i)
                    None (Some (hr_fee i)));;
    inLedger (λ s, postHarvestLedgerTx (vaultExists s) (hr_vault i) (hr_user i) (hr_net i) (hr_fee i)
                     "blend" (hr_hash i))).

(** The posting of a confirmed change when the owner is unknown: its Go errors
    are dropped, but an error of the database has ended the transaction. *)
Definition best_effort (m : Tx unit) : Tx unit := λ s,
  match m s with
  | (Err (ErrLedger (ErrConstraint | ErrOutOfRange | ErrDB)), s') => (Err ErrIO, s')
  | (Err _, s') => (Ok tt, s')
  | r => r
  end.

Definition applyConfirmedBalanceChange (isDeposit : bool) (beginOk : bool) (d : dbres) (id : UUID)
    (amount : D) (txHash : string) : Tx unit :=
  if d_le amount d_zero then failTx ErrInvalidAmount
  else if decide (TrimSpace txHash = "") then failTx ErrInvalidVault
  else inTx beginOk d (
    inserted ← insert_row true (tx_row id None (if isDeposit then "deposit" else "withdrawal") amount txHash
                              None None None);
    if inserted =? 0 then mret tt
    else
      update_one id (if isDeposit then credit (dval amount) else debit (dval amount));;
      owner ← readTx (λ s, Ok (default uuid_Nil (v_user <$> vaults s !! id)));
      let post user := inLedger (λ s,
        if isDeposit then postDepositLedgerTx (vaultExists s) id user amount txHash
        else postWithdrawalLedgerTx (vaultExists s) id user amount txHash) in
      if owner =? uuid_Nil
      then user ← inLedger (λ _, newUUID uuidNew); best_effort (post user)
      else post owner).

Definition ApplyConfirmedDeposit := applyConfirmedBalanceChange true.
Definition ApplyConfirmedWithdrawal := applyConfirmedBalanceChange false.

Record RebalanceRecordInput := mkRebalance {
  rb_vault : UUID;
  rb_user : UUID;
  rb_from : string;
  rb_to : string;
  rb_amount : D;
  rb_hash : string;
}.

Definition RecordRebalance (beginOk : bool) (d : dbres) (i : RebalanceRecordInput)
    (withdrawRecord depositRecord : TransactionRecord) : Tx unit :=
  let id := rb_vault i in
  inTx beginOk d (
    update (by_id id) (debit (dval (rec_amount withdrawRecord)));;
    insert_row false (record_row id "withdrawal" withdrawRecord);;
    update (by_id id) (credit (dval (rec_amount depositRecord)));;
    insert_row false (record_row id "deposit" depositRecord);;
    insert_row false (tx_row id (Some (rb_user i)) "rebalance" (rb_amount i) (rb_hash i) None None None);;
    inLedger (λ s, postRebalanceLedgerTx (vaultExists s) id (rb_from i) (rb_to i) (rb_amount i) (rb_hash i))).

(** What the service reads of a vault: vault.Vault. *)
Record Model := mkModel {
  m_id : UUID;
  m_user : UUID;
  m_contract : string;
  m_total : D;
  m_balance : D;
  m_currency : string;
  m_status : VaultStatus;
  m_yield : D;
  m_fees : D;
  m_frequency : string;
  m_harvested : option Time;
}.

Definition scanVault (id : UUID) (r : VaultRow) : Model :=
  mkModel id (v_user r) (v_contract r) (scan_col (v_total r)) (scan_col (v_balance r)) (v_currency r)
    (v_status r) (scan_col (v_yield r)) (scan_col (v_fees r)) (v_frequency r) (v_harvested r).

(** Reads: [queryOk] is whether the query reaches the database. *)
Definition GetVault (queryOk : bool) (id : UUID) : Tx Model :=
  readTx (λ s,
    if negb queryOk then Err ErrIO
    else match vaults s !! id with
         | Some r => if live r then Ok (scanVault id r) else Err ErrVaultNotFound
         | None => Err ErrVaultNotFound
         end).

(** [INSERT INTO vaults] *)
Definition CreateVault (beginOk : bool) (d : dbres) (id : UUID) (m : Model) : Tx Model :=
  let frequency := if decide (m_frequency m = "") then "daily"%string else m_frequency m in
  inTx beginOk d (stmt (λ s,
    let r := t ← numeric 48 (dval (m_total m)); b ← numeric 48 (dval (m_balance m));
             y ← numeric 48 (dval (m_yield m)); f ← numeric 48 (dval (m_fees m));
             Ok (mkVaultRow (m_user m) (m_contract m) t b (m_currency m) (m_status m) y f frequency
                   None None dbnow dbnow) in
    match (r' ← r;
           guard_err (bool_decide (is_Some (vaults s !! id))) (mkPg "23505" "vaults_pkey");;
           m' ← write_vault id r' (vaults s);
           guard_err (negb (userExists (v_user r'))) (mkPg "23503" "vaults_user_id_fkey");;
           Ok m') with
    | Ok m' => (Ok tt, with_vaults m' s)
    | Err e => (Err e, s)
    end));;
  mret m.

(** A single statement on one live vault. *)
Definition exec_one (beginOk : bool) (d : dbres) (id : UUID) (f : VaultRow → result PgError VaultRow)
    : Tx unit :=
  inTx beginOk d (update_one id f).

Definition UpdateVault (beginOk : bool) (d : dbres) (id : UUID) (contract : string) (status : VaultStatus)
    : Tx unit :=
  exec_one beginOk d id (λ r, Ok (mkVaultRow (v_user r) contract (v_total r) (v_balance r) (v_currency r)
    status (v_yield r) (v_fees r) (v_frequency r) (v_harvested r) (v_deleted r) (v_created r) dbnow)).

Definition UpdateHarvestFrequency (beginOk : bool) (d : dbres) (id : UUID) (frequency : string) : Tx unit :=
  exec_one beginOk d id (λ r, Ok (mkVaultRow (v_user r) (v_contract r) (v_total r) (v_balance r)
    (v_currency r) (v_status r) (v_yield r) (v_fees r) frequency (v_harvested r) (v_deleted r)
    (v_created r) dbnow)).

Definition UpdateVaultBalances (beginOk : bool) (d : dbres) (id : UUID) (total balance : D) : Tx unit :=
  exec_one beginOk d id (set_money (λ _, dval total) (λ _, dval balance)).

Definition SoftDeleteVault (beginOk : bool) (d : dbres) (id : UUID) : Tx unit :=
  exec_one beginOk d id (λ r, Ok (mkVaultRow (v_user r) (v_contract r) (v_total r) (v_balance r)
    (v_currency r) (v_status r) (v_yield r) (v_fees r) (v_frequency r) (v_harvested r) (Some dbnow)
    (v_created r) (v_updated r))).

End Repository.

(** ** Columns in exact arithmetic *)

(** An amount of at most eight decimal places. *)
Definition exact8 (q : Q) : Prop := ∃ c, (q == col c)%Q.

#[export] Instance units_Proper : Proper (Qeq ==> eq) units.
Proof. intros q q' H. unfold units. by rewrite H. Qed.

Lemma units_col z : units (col z) = z.
Proof.
  unfold units. rewrite <-(Qround_haz_int z) at 2. apply Qround_haz_proper.
  unfold col, Qeq, Qmult, inject_Z. cbn [Qnum Qden]. lia.
Qed.

Lemma col_add a b : (col a + col b == col (a + b))%Q.
Proof. unfold col, Qeq, Qplus. cbn [Qnum Qden]. lia. Qed.

Lemma col_sub a b : (col a - col b == col (a - b))%Q.
Proof. unfold col, Qeq, Qminus, Qplus, Qopp. cbn [Qnum Qden]. lia. Qed.

Lemma units_add z q : exact8 q → units (col z + q) = z + units q.
Proof. intros [c ->]. by rewrite col_add, !units_col. Qed.

Lemma units_sub z q : exact8 q → units (col z - q) = z - units q.
Proof. intros [c ->]. by rewrite col_sub, !units_col. Qed.

Lemma exact8_units q : exact8 q → (q == col (units q))%Q.
Proof. intros [c E]. rewrite E at 2. by rewrite units_col. Qed.

Lemma numeric_Ok p q z : numeric p q = Ok z → z = units q.
Proof. unfold numeric. case_match; [|done]. by intros [= <-]. Qed.

(** ** What statements do *)

Lemma filter_one {V} (f : UUID → V → bool) (m : gmap UUID V) (id : UUID) :
  (∀ i v, m !! i = Some v → f i v = true → i = id) →
  List.filter (λ p : UUID * V, f p.1 p.2) (map_to_list m)
  = match m !! id with Some v => if f id v then [(id, v)] else [] | None => [] end.
Proof.
  intros Hf. set (l := List.filter _ _).
  assert (Hin : ∀ x, x ∈ l ↔ m !! x.1 = Some x.2 ∧ f x.1 x.2 = true) by (intros x; apply (filtered_In (λ p : UUID * V, f p.1 p.2))).
  assert (Hnd : NoDup l.*1) by apply filtered_NoDup.
  assert (Hall : ∀ x, x ∈ l → x.1 = id) by (intros x [H1 H2]%Hin; exact (Hf _ _ H1 H2)).
  destruct l as [|[i v] l'] eqn:El.
  - destruct (m !! id) as [v|] eqn:Ev; [|done]. destruct (f id v) eqn:Ef; [|done].
    assert (Hx : (id, v) ∈ @nil (UUID * V)) by (by apply Hin). by apply not_elem_of_nil in Hx.
  - pose proof (Hall (i, v) ltac:(left)) as Ei. simpl in Ei. subst i.
    destruct (proj1 (Hin (id, v)) ltac:(left)) as [Hm Ht]. simpl in *. rewrite Hm, Ht.
    destruct l' as [|[j w] l']; [done|]. exfalso.
    pose proof (Hall (j, w) ltac:(right; left)) as Ej. simpl in Ej. subst j.
    apply NoDup_cons in Hnd as [Hn _]. apply Hn. simpl. left.
Qed.

(** The row [r] of [id] becomes [r'], which the constraints accept. *)
Definition rewrites (id : UUID) (r r' : VaultRow) (m : gmap UUID VaultRow) : Prop :=
  m !! id = Some r ∧ check_vault r' = Ok tt ∧ contract_taken id r' m = false.

(** An update finds at most the row [id]. *)
Lemma update_vaults_one w f id s n s' :
  (∀ i r, vaults s !! i = Some r → w i r = true → i = id) →
  update_vaults w f s = (Ok n, s') →
  n = 0 ∧ s' = s ∧ (∀ r, vaults s !! id = Some r → w id r = false)
  ∨ n = 1 ∧ ∃ r r', rewrites id r r' (vaults s) ∧ w id r = true ∧ f r = Ok r'
      ∧ s' = with_vaults (<[id := r']> (vaults s)) s.
Proof.
  intros Hw. unfold update_vaults. rewrite (filter_one w _ id Hw).
  destruct (vaults s !! id) as [r|] eqn:Er.
  - destruct (w id r) eqn:Ew; simpl.
    + destruct (f r) as [r'|] eqn:Ef; simpl; [|done]. unfold write_vault.
      destruct (check_vault r') as [[]|] eqn:Ec; [|done]. simpl.
      destruct (contract_taken id r' (vaults s)) eqn:Et; [done|]. simpl. intros [= <- <-].
      right. split; [done|]. exists r, r'. by repeat split.
    + intros [= <- <-]. left. split; [done|]. destruct s. split; [done|]. simpl in *. intros. congruence.
  - intros [= <- <-]. left. split; [done|]. destruct s. done.
Qed.

Lemma update_vaults_Err w f s e s' : update_vaults w f s = (Err e, s') → s' = s.
Proof. unfold update_vaults. destruct (update_all _ _ _); [done|]. by intros [= _ <-]. Qed.

Lemma update_spec id f s x s' :
  update (by_id id) f s = (x, s') →
  match x with
  | Err _ => s' = s
  | Ok n =>
      n = 0 ∧ s' = s ∧ (∀ r, vaults s !! id = Some r → live r = false)
      ∨ n = 1 ∧ ∃ r r', rewrites id r r' (vaults s) ∧ live r = true ∧ f r = Ok r'
          ∧ s' = with_vaults (<[id := r']> (vaults s)) s
  end.
Proof.
  unfold update, stmt. destruct (update_vaults (by_id id) f s) as [[n|e] s1] eqn:E; simpl.
  - intros [= <- <-].
    assert (Hid : ∀ (i : UUID) r, by_id id i r = true ↔ i = id ∧ live r = true).
    { intros i r. unfold by_id. rewrite andb_true_iff, bool_decide_eq_true. done. }
    destruct (update_vaults_one _ _ id _ _ _ (λ i r _ Hi, proj1 (proj1 (Hid i r) Hi)) E)
      as [(-> & -> & Hn)|(-> & r & r' & Hw & Hl & Hf & ->)].
    + left. repeat split. intros r Hr. apply Hn in Hr. apply not_true_iff_false.
      intros Hl. apply not_true_iff_false in Hr. apply Hr. by apply Hid.
    + right. split; [done|]. exists r, r'. apply Hid in Hl as [_ Hl]. done.
  - intros [= <- <-]. by eapply update_vaults_Err.
Qed.

Lemma update_one_spec id f s x s' :
  update_one id f s = (x, s') →
  match x with
  | Err _ => s' = s
  | Ok _ => ∃ r r', rewrites id r r' (vaults s) ∧ live r = true ∧ f r = Ok r'
              ∧ s' = with_vaults (<[id := r']> (vaults s)) s
  end.
Proof.
  unfold update_one, mbind, Tx_bind. destruct (update (by_id id) f s) as [y s1] eqn:E.
  apply update_spec in E. destruct y as [n|e].
  - destruct E as [(-> & -> & _)|(-> & r & r' & H)]; simpl; intros [= <- <-]; [done|eauto].
  - by intros [= <- <-].
Qed.

(** The row an insert adds. *)
Definition insertable (userExists : UUID → bool) (t : TxRow) (s : Store) : Prop :=
  0 < t_amount t ∧ hash_taken (t_hash t) (txs s) = false ∧ is_Some (vaults s !! t_vault t).

Lemma insert_row_spec {D} `{!Decimal D} userExists oc row s x s' :
  insert_row userExists oc row s = (x, s') →
  match x with
  | Err _ => s' = s
  | Ok n =>
      ∃ t, row = Ok t ∧
        (n = 0 ∧ s' = s ∧ oc = true ∧ hash_taken (t_hash t) (txs s) = true
         ∨ n = 1 ∧ insertable userExists t s ∧ s' = with_txs (txs s ++ [t]) s)
  end.
Proof.
  unfold insert_row, stmt. destruct row as [t|e]; simpl; [|by intros [= <- <-]].
  unfold insert_tx. destruct (Z.leb_spec (t_amount t) 0); [by intros [= <- <-]|].
  destruct (bool_decide _); [by intros [= <- <-]|].
  destruct (_ <? 0); [by intros [= <- <-]|].
  destruct (_ <=? 0); [by intros [= <- <-]|].
  destruct (hash_taken _ _) eqn:Eh.
  { destruct oc; intros [= <- <-]; [|done]. exists t. split; [done|]. by left. }
  destruct (bool_decide (is_Some _)) eqn:Ev; simpl; [|by intros [= <- <-]].
  destruct (negb _); [by intros [= <- <-]|]. intros [= <- <-]. exists t. split; [done|]. right.
  repeat split; try done. by apply bool_decide_eq_true in Ev.
Qed.

Lemma inLedger_spec {A} (m : Store → Ledger.M A) s x s' :
  inLedger m s = (x, s') →
  ∃ l, s' = with_ledger l s ∧
    match x with
    | Ok a => m s (ledger s) = (Ok a, l)
    | Err e => ∃ le, e = ErrLedger le ∧ m s (ledger s) = (Err le, l)
    end.
Proof.
  unfold inLedger. destruct (m s (ledger s)) as [[a|e] l]; intros [= <- <-]; exists l; [done|].
  split; [done|]. by exists e.
Qed.

(** ** Postings of the repository on the books *)

Section PostingFacts.
Context (uuidNew : nat → UUID) (dbnow : Time) (userExists : UUID → bool).

#[local] Abbreviation ready := (ready uuidNew).

(** A program of the ledger that leaves its session ready for the next one. *)
Definition keeps_ready {A} (m : Ledger.M A) : Prop :=
  ∀ s, ready s → ready (m s).2 ∧ (drawn s ≤ drawn (m s).2)%nat.

Lemma kr_bind {A B} (m : Ledger.M A) (f : A → Ledger.M B) :
  keeps_ready m → (∀ a, keeps_ready (f a)) → keeps_ready (m ≫= f).
Proof.
  intros Hm Hf s Hs. unfold mbind, Ledger.M_bind. destruct (Hm s Hs) as [Hr Hd].
  destruct (m s) as [[a|e] s1]; [|done]. simpl in *. destruct (Hf a s1 Hr). split; [done|lia].
Qed.

Lemma kr_stays {A} (m : Ledger.M A) : (∀ s, (m s).2 = s) → keeps_ready m.
Proof. intros H s Hs. by rewrite H. Qed.

Lemma kr_ret {A} (a : A) : keeps_ready (mret a).
Proof. by apply kr_stays. Qed.
Lemma kr_fail {A} e : keeps_ready (@fail A e).
Proof. by apply kr_stays. Qed.
Lemma kr_lift {A} (r : result LedgerError A) : keeps_ready (lift r).
Proof. by apply kr_stays. Qed.
Lemma kr_gets {A} (f : Ledger.DB → result LedgerError A) : keeps_ready (gets f).
Proof. by apply kr_stays. Qed.
Lemma kr_draw : keeps_ready (newUUID uuidNew).
Proof. intros s Hs. split; [by apply ready_draw|simpl; lia]. Qed.

(** Tables that differ in balances only. *)
Lemma ready_balances s d :
  ready s → accounts d = accounts (db s) → entries d = entries (db s) → ready (mkSession d (drawn s)).
Proof. intros [H1 H2 H3] Ha He. split; simpl; [|done|]; rewrite Ha; [|done]. by rewrite He. Qed.

Lemma kr_upsert e : keeps_ready (upsert_balance dbnow e).
Proof.
  intros s Hs. unfold upsert_balance. destruct (balances (db s) !! AccountID e) as [b|].
  - destruct (scan_i64 _); simpl; [|done]. split; [by apply ready_balances|lia].
  - simpl. split; [by apply ready_balances|lia].
Qed.

Lemma kr_new_account {B} vx a (f : UUID → Ledger.M B) :
  (∀ id, keeps_ready (f id)) →
  keeps_ready (id ← newUUID uuidNew; insert_account vx userExists id (a id);; f id).
Proof.
  intros Hf s Hs. unfold mbind, Ledger.M_bind, newUUID, insert_account. cbn [db drawn].
  assert (Hd : ready (mkSession (db s) (S (drawn s)))) by (by apply ready_draw).
  assert (Hgo : ∀ s1, ready s1 → (drawn s ≤ drawn s1)%nat →
    ready (f (uuidNew (drawn s)) s1).2 ∧ (drawn s ≤ drawn (f (uuidNew (drawn s)) s1).2)%nat).
  { intros s1 H1 Hle. destruct (Hf (uuidNew (drawn s)) s1 H1). split; [done|lia]. }
  destruct (_ || _); [apply Hgo; [done|simpl; lia]|].
  destruct (_ || _); [simpl; split; [done|lia]|].
  apply Hgo; [|simpl; lia]. simpl. apply (ready_insert uuidNew 0 (λ _, true) (λ _, true)); [done| |by left].
  simpl. rewrite lookup_insert_eq. simpl. done.
Qed.

Lemma kr_new_entry {B} (e : UUID → Entry) (m : UUID → Ledger.M B) :
  (∀ id, EntryID (e id) = id) → (∀ id, keeps_ready (m id)) →
  keeps_ready (id ← newUUID uuidNew; insert_entry (e id);; m id).
Proof.
  intros He Hf s Hs. unfold mbind, Ledger.M_bind, newUUID, insert_entry. cbn [db drawn].
  destruct (_ || _ || _ || _).
  { simpl. split; [by apply ready_draw|lia]. }
  match goal with |- context [m ?i ?s1] => destruct (Hf i s1) as [H1 H2] end.
  - apply (ready_insert uuidNew 0 (λ _, true) (λ _, true)); [done| |].
    + simpl. destruct (accounts (db s) !! uuidNew (drawn s)) as [a|] eqn:Ea; simpl.
      * by rewrite insert_id.
      * by apply insert_subseteq.
    + simpl. intros i. rewrite fmap_app, elem_of_app. simpl. rewrite He.
      intros [?|?%list_elem_of_singleton]; auto.
  - split; [done|]. simpl in H2. lia.
Qed.

Create HintDb ledger_ready.
#[local] Hint Resolve kr_ret kr_fail kr_lift kr_gets kr_draw kr_upsert : ledger_ready.

Ltac kr :=
  repeat first
    [ progress auto with ledger_ready
    | apply kr_new_account; intros ?
    | apply kr_new_entry; [done|]; intros ?
    | apply kr_bind; [|intros ?]
    | case_match ].

Lemma kr_account vx ty v u ad asset :
  keeps_ready (ledgerGetOrCreateAccountTx uuidNew dbnow userExists vx ty v u ad asset).
Proof. unfold ledgerGetOrCreateAccountTx. kr. Qed.

Lemma kr_post_legs txID ev eid es : keeps_ready (post_legs uuidNew dbnow txID ev eid es).
Proof. induction es as [|[acc a] es IH]; simpl; kr. Qed.

Lemma kr_post ev eid es : keeps_ready (ledgerPostEntriesTx uuidNew dbnow ev eid es).
Proof. unfold ledgerPostEntriesTx. kr. apply kr_post_legs. Qed.

#[local] Hint Resolve kr_account kr_post : ledger_ready.

(** *** Accounts *)

Definition effective (ty : string) (ad : option string) : option string :=
  if decide (ty = AccountTypeYieldSource) then Some (default_adapter ad) else ad.

(** The account returned answers the request, also when it had to be opened. *)
Lemma account_spec vx ty v u ad s id s' :
  books (db s) → ready s →
  ledgerGetOrCreateAccountTx uuidNew dbnow userExists vx ty v u ad "USDC" s = (Ok id, s') →
  books (db s') ∧ opened (db s) (db s') ∧ resolved (db s') (ty, v, u, effective ty ad) id.
Proof.
  intros Hb Hr. unfold ledgerGetOrCreateAccountTx. fold (effective ty ad).
  change (default_asset "USDC") with "USDC"%string. generalize (effective ty ad). clear ad. intros ad.
  unfold mbind, Ledger.M_bind, lift, gets.
  destruct (required_key ty v u ad) as [[]|] eqn:Hk; [|done].
  destruct (select_account ty v u ad "USDC" (db s)) as [x|] eqn:Hs.
  { intros [= <- <-]. split; [done|]. split; [done|]. apply select_account_Some in Hs as [? ?].
    exists x.2. done. }
  unfold newUUID. cbn [db drawn]. set (nid := uuidNew (drawn s)). set (a := mkAccount _ _ _ _ _ _ _ _ _).
  set (s1 := mkSession (db s) (S (drawn s))).
  pose proof (insert_account_spec vx userExists nid a s1 Hb) as [Hb2 Ho2].
  destruct (insert_account vx userExists nid a s1) as [[w|e] s2] eqn:Ei; [|done]. simpl in Hb2, Ho2.
  assert (Ha : accounts (db s2) !! nid = Some a).
  { unfold insert_account in Ei. destruct (rd_new _ _ Hr (drawn s) ltac:(lia)) as (_ & Hn & _).
    fold nid in Hn. cbn [db s1] in Ei. rewrite bool_decide_eq_false_2 in Ei by (rewrite Hn; by intros []).
    simpl orb in Ei. destruct (existsb _ _) eqn:Ex.
    - apply existsb_exists in Ex as ([i b] & Hin & Hm). exfalso.
      apply list_elem_of_In, elem_of_map_to_list in Hin. simpl in Hm.
      by rewrite (select_account_None _ _ _ _ _ _ Hs i b Hin) in Hm.
    - destruct (_ || _) in Ei; [done|]. injection Ei as <- <-. simpl. apply lookup_insert_eq. }
  assert (Hm : account_match ty v u ad "USDC" a = true) by (by apply required_self).
  rewrite (select_account_unique ty v u ad "USDC" (db s2) nid a Hb2 Ha Hm). intros [= <- <-].
  split; [done|]. split; [done|]. by exists a.
Qed.

Fixpoint accountsOf (vx : UUID → bool) (rs : list role) : Ledger.M (list UUID) :=
  match rs with
  | [] => mret []
  | (ty, v, u, ad) :: rs =>
      id ← ledgerGetOrCreateAccountTx uuidNew dbnow userExists vx ty v u ad "USDC";
      ids ← accountsOf vx rs; mret (id :: ids)
  end.

Definition fixed (r : role) : role := let '(ty, v, u, ad) := r in (ty, v, u, effective ty ad).

Lemma kr_accounts vx rs : keeps_ready (accountsOf vx rs).
Proof. induction rs as [|[[[ty v] u] ad] rs IH]; simpl; kr. Qed.

Lemma accounts_spec vx rs s ids s' :
  books (db s) → ready s → accountsOf vx rs s = (Ok ids, s') →
  books (db s') ∧ opened (db s) (db s') ∧ ready s' ∧ Forall2 (resolved (db s')) (fixed <$> rs) ids.
Proof.
  revert s ids. induction rs as [|[[[ty v] u] ad] rs IH]; intros s ids Hb Hr; simpl.
  { intros [= <- <-]. split; [done|]. split; [done|]. split; [done|]. constructor. }
  unfold mbind, Ledger.M_bind.
  pose proof (kr_account vx ty v u ad "USDC" s Hr) as [Hr1 _].
  destruct (ledgerGetOrCreateAccountTx _ _ _ _ _ _ _ _ _ s) as [[id|] s1] eqn:Ea; [|done].
  destruct (account_spec _ _ _ _ _ _ _ _ Hb Hr Ea) as (Hb1 & Ho1 & Hres).
  destruct (accountsOf vx rs s1) as [[ids'|] s2] eqn:Es; [|done]. intros [= <- <-].
  destruct (IH s1 ids' Hb1 Hr1 Es) as (Hb2 & Ho2 & Hr2 & HF). split; [done|]. split; [by etrans|].
  split; [done|]. constructor; [|done]. eapply resolved_mono; [apply Ho2|done].
Qed.

(** *** Entries *)

Lemma entries_sum_Ok sum es z :
  i64 sum = sum →
  entries_sum sum es = Ok z ↔ z = i64 (sum + foldr (λ e s, e.2 + s) 0 es) ∧ Forall (λ e, e.2 ≠ 0) es.
Proof.
  revert sum. induction es as [|[i a] es IH]; intros sum Hs; simpl.
  - rewrite Z.add_0_r, Hs. split; [by intros [= <-]|by intros [-> _]].
  - rewrite Forall_cons. simpl. destruct (Z.eqb_spec a 0); [split; [done|by intros (_ & ? & _)]|].
    rewrite IH by apply i64_id, i64_range. rewrite i64_add_l, Z.add_assoc. tauto.
Qed.

Lemma post_legs_entries txID ev eid es s :
  post_legs uuidNew dbnow txID ev eid es s
  = postEntriesTx uuidNew dbnow ((λ e, leg txID e.1 e.2 ev eid) <$> es) s.
Proof.
  revert s. induction es as [|[acc a] es IH]; intros s; [done|]. simpl.
  unfold post_entry, mbind, Ledger.M_bind, leg, newUUID. cbn [EntryID Direction]. rewrite Z.eqb_refl.
  replace (if a <? 0 then "credit"%string else "debit"%string) with (DirectionFromAmount a).
  2:{ unfold DirectionFromAmount. destruct (Z.leb_spec 0 a), (Z.ltb_spec a 0); done || lia. }
  rewrite decide_False by (unfold DirectionFromAmount; by destruct (0 <=? a)).
  change (default_asset "USDC") with "USDC"%string. change (default_unit "stroops") with "stroops"%string.
  destruct (insert_entry _ _) as [[?|?] s1]; [|done].
  destruct (upsert_balance _ _ _) as [[?|?] s2]; [|done]. apply IH.
Qed.

Lemma sum_legs txID ev eid es :
  sum_amounts ((λ e : UUID * Z, leg txID e.1 e.2 ev eid) <$> es) = foldr (λ e s, e.2 + s) 0 es.
Proof. induction es as [|e es IH]; [done|]. simpl. f_equal. exact IH. Qed.

(** The checks of the repository are those of the ledger. *)
Lemma checks_agree txID ev eid es :
  txID ≠ uuid_Nil → Forall (λ e, e.1 ≠ uuid_Nil) es →
  ValidateBalanced ((λ e : UUID * Z, leg txID e.1 e.2 ev eid) <$> es) = Ok tt
  ↔ 2 ≤ Z.of_nat (length es) ∧ entries_sum 0 es = Ok 0.
Proof.
  intros Hnil Hes. rewrite ValidateBalanced_Ok, length_fmap, sum_legs, entries_sum_Ok by done.
  rewrite Z.add_0_l, <-i64_zero.
  assert (Hall : (∃ t, t ≠ uuid_Nil ∧ Forall (λ e, TransactionID e = t ∧ Amount e ≠ 0 ∧ AccountID e ≠ uuid_Nil)
    ((λ e : UUID * Z, leg txID e.1 e.2 ev eid) <$> es)) ↔ Forall (λ e, e.2 ≠ 0) es).
  { setoid_rewrite Forall_fmap. split.
    - intros (t & _ & H). eapply Forall_impl; [exact H|]. by intros [i z] (_ & ? & _).
    - intros H. exists txID. split; [done|]. apply Forall_forall. intros [i z] Hin. simpl.
      rewrite Forall_forall in H, Hes. split; [done|]. split; [by apply (H (i, z))|by apply (Hes (i, z))]. }
  rewrite Hall. split; [intros (? & ? & ?)|intros (? & ? & ?)]; auto.
Qed.

(** The repository posts what the ledger's own code posts. *)
Lemma post_agrees ev eid es s u s' :
  ready s → Forall (λ e, e.1 ≠ uuid_Nil) es →
  ledgerPostEntriesTx uuidNew dbnow ev eid es s = (Ok u, s')
  ↔ PostEntriesTx uuidNew dbnow true ((λ e, leg (uuidNew (drawn s)) e.1 e.2 ev eid) <$> es)
      (mkSession (db s) (S (drawn s))) = (Ok u, s').
Proof.
  intros Hr Hes. destruct (rd_new _ _ Hr (drawn s) ltac:(lia)) as (Hnil & _).
  pose proof (checks_agree (uuidNew (drawn s)) ev eid es Hnil Hes) as Hc.
  unfold ledgerPostEntriesTx, PostEntriesTx, mbind, Ledger.M_bind, lift, newUUID. cbn [db drawn].
  destruct (ValidateBalanced _) as [[]|e].
  - destruct (proj1 Hc eq_refl) as [Hlen Hsum]. destruct (Z.ltb_spec (Z.of_nat (length es)) 2); [lia|].
    rewrite Hsum. simpl. by rewrite post_legs_entries.
  - split; [|done]. destruct (Z.ltb_spec (Z.of_nat (length es)) 2) as [|Hl]; [done|].
    destruct (entries_sum 0 es) as [z|] eqn:Es; [|done]. destruct (Z.eqb_spec z 0) as [->|]; [|done].
    discriminate (proj2 Hc (conj Hl eq_refl)).
Qed.

Lemma zip_legs {A B} (f : A → B → Entry) (l : list A) (k : list B) :
  (λ e, f e.1 e.2) <$> zip l k = zip_with f l k.
Proof. revert k. induction l as [|x l IH]; intros [|y k]; [done..|]. simpl. by rewrite IH. Qed.

(** Posting resolved legs moves the books by them. *)
Lemma post_moved (legs : list (role * Z)) ids ev eid d s u s' :
  ready s → books d → books (db s) → opened d (db s) →
  Forall2 (resolved (db s)) legs.*1 ids → Forall in_i64 legs.*2 →
  ledgerPostEntriesTx uuidNew dbnow ev eid (zip ids legs.*2) s = (Ok u, s') →
  moved legs d (db s').
Proof.
  intros Hr Hbd Hb Ho HF Hrange Hp. apply post_agrees in Hp; [|done|].
  2:{ apply Forall_forall. intros [i z] Hin%elem_of_zip_l. simpl. intros ->.
      apply list_elem_of_lookup in Hin as [k Hk].
      destruct (Forall2_lookup_r _ _ _ _ _ HF Hk) as (r & _ & a & Ha & _).
      by rewrite (rd_nil _ _ Hr) in Ha. }
  rewrite (zip_legs (λ id amount, leg (uuidNew (drawn s)) id amount ev eid)) in Hp.
  pose proof (port_tx_spec uuidNew 0 dbnow (λ _, true) userExists) as Hport.
  pose proof (moved_post userExists _ _ _ legs ids d (uuidNew (drawn s)) ev eid
    (mkSession (db s) (S (drawn s))) Hport Hbd Hb Ho HF Hrange) as Hm.
  cbn [post port_tx] in Hm. by rewrite Hp in Hm.
Qed.

(** *** The movements *)

Lemma kr_deposit {D} `{!Decimal D} vx v u (a : D) ev :
  keeps_ready (postDepositLedgerTx uuidNew dbnow userExists vx v u a ev).
Proof. unfold postDepositLedgerTx. kr. Qed.
Lemma kr_withdrawal {D} `{!Decimal D} vx v u (a : D) ev :
  keeps_ready (postWithdrawalLedgerTx uuidNew dbnow userExists vx v u a ev).
Proof. unfold postWithdrawalLedgerTx. kr. Qed.
Lemma kr_harvest {D} `{!Decimal D} vx v u (n f : D) ad ev :
  keeps_ready (postHarvestLedgerTx uuidNew dbnow userExists vx v u n f ad ev).
Proof. unfold postHarvestLedgerTx. kr. Qed.
Lemma kr_rebalance {D} `{!Decimal D} vx v from to (a : D) ev :
  keeps_ready (postRebalanceLedgerTx uuidNew dbnow userExists vx v from to a ev).
Proof. unfold postRebalanceLedgerTx. kr. Qed.

(** Accounts first, then the entries. *)
Definition movement (vx : UUID → bool) (ev eid : string) (legs : list (role * Z)) : Ledger.M unit :=
  ids ← accountsOf vx legs.*1; ledgerPostEntriesTx uuidNew dbnow ev eid (zip ids legs.*2).

Lemma movement_moved vx ev eid legs s u s' :
  books (db s) → ready s → fixed <$> legs.*1 = legs.*1 → Forall in_i64 legs.*2 →
  movement vx ev eid legs s = (Ok u, s') → moved legs (db s) (db s').
Proof.
  intros Hb Hr Hfix Hz. unfold movement, mbind, Ledger.M_bind.
  destruct (accountsOf vx legs.*1 s) as [[ids|] s1] eqn:Ea; [|done].
  destruct (accounts_spec _ _ _ _ _ Hb Hr Ea) as (Hb1 & Ho1 & Hr1 & HF). rewrite Hfix in HF.
  by apply post_moved.
Qed.

Ltac foralls :=
  repeat first [apply Forall_cons_2|apply Forall_nil_2|apply Forall2_cons_2|apply Forall2_nil_2].

Ltac open_movement :=
  unfold movement; simpl; unfold mbind, Ledger.M_bind;
  repeat match goal with
  | |- context [ledgerGetOrCreateAccountTx ?a ?b ?c ?d ?e ?f ?g ?h ?i ?s] =>
      destruct (ledgerGetOrCreateAccountTx a b c d e f g h i s) as [[?|?] ?]
  end; simpl; try reflexivity.

Definition deposit_legs (v u : UUID) (z : Z) : list (role * Z) :=
  [(r_user v u, z); (r_pool v, z); (r_suspense, -2 * z)].
Definition withdrawal_legs (v u : UUID) (z : Z) : list (role * Z) :=
  [(r_user v u, - z); (r_pool v, - z); (r_suspense, 2 * z)].

Context {D : Type} `{!Decimal D} `{!DecimalLaws D}.

Lemma small_wraps (a : D) :
  small a →
  i64 (-2 * stroops a) = -2 * stroops a ∧ i64 (- stroops a) = - stroops a ∧ 2 *w stroops a = 2 * stroops a.
Proof.
  unfold small. intros Ha. rewrite !i64_id; [done|..]; unfold in_i64, min_i64, max_i64; lia.
Qed.

Lemma deposit_moved vx v u (a : D) ev s x s' :
  books (db s) → ready s → small a →
  postDepositLedgerTx uuidNew dbnow userExists vx v u a ev s = (Ok x, s') →
  stroops a ≤ 0 ∧ s' = s ∨ 0 < stroops a ∧ moved (deposit_legs v u (stroops a)) (db s) (db s').
Proof.
  intros Hb Hr Hs. unfold postDepositLedgerTx. change (decimalToStroops a) with (stroops a).
  destruct (Z.leb_spec (stroops a) 0); [intros [= _ <-]; by left|]. intros Hp. right. split; [done|].
  apply (movement_moved vx "deposit" ev _ s x); [done..| |].
  - exact (legs_range 0 (λ _, true) (λ _, true) (RDeposit v u a ev) Hs).
  - rewrite <-Hp, (proj1 (small_wraps a Hs)). open_movement.
Qed.

Lemma withdrawal_moved vx v u (a : D) ev s x s' :
  books (db s) → ready s → small a →
  postWithdrawalLedgerTx uuidNew dbnow userExists vx v u a ev s = (Ok x, s') →
  stroops a ≤ 0 ∧ s' = s ∨ 0 < stroops a ∧ moved (withdrawal_legs v u (stroops a)) (db s) (db s').
Proof.
  intros Hb Hr Hs. unfold postWithdrawalLedgerTx. change (decimalToStroops a) with (stroops a).
  destruct (Z.leb_spec (stroops a) 0); [intros [= _ <-]; by left|]. intros Hp. right. split; [done|].
  apply (movement_moved vx "withdraw" ev _ s x); [done..| |].
  - exact (legs_range 0 (λ _, true) (λ _, true) (RWithdrawal v u a ev) Hs).
  - rewrite <-Hp. destruct (small_wraps a Hs) as (_ & -> & ->). open_movement.
Qed.

Definition harvest_legs (v u : UUID) (net fee : Z) (ad : string) : list (role * Z) :=
  (if net =? 0 then [] else [(r_pool v, net); (r_user v u, net); (r_suspense, - net)])
  ++ (if fee =? 0 then [] else [(r_fee, fee)])
  ++ (if net + fee =? 0 then [] else [(r_yield ad, - (net + fee))]).

Definition rebalance_legs (from to : string) (z : Z) : list (role * Z) :=
  [(r_yield from, - z); (r_yield to, z)].

Lemma fixed_yield ad : ad ≠ ""%string → fixed (r_yield ad) = r_yield ad.
Proof.
  intros H. unfold fixed, r_yield, effective. rewrite decide_True by done. unfold default_adapter.
  by rewrite decide_False.
Qed.

Lemma small_neg_i64 z : Z.abs z < 2 ^ 62 → i64 (- z) = - z ∧ in_i64 z ∧ in_i64 (- z).
Proof. intros H. rewrite i64_id; unfold in_i64, min_i64, max_i64; lia. Qed.

Lemma harvest_moved vx v u (n f : D) ad ev s x s' :
  books (db s) → ready s → ad ≠ ""%string → small n → small f →
  postHarvestLedgerTx uuidNew dbnow userExists vx v u n f ad ev s = (Ok x, s') →
  stroops n ≤ 0 ∧ stroops f ≤ 0 ∧ s' = s
  ∨ (0 < stroops n ∨ 0 < stroops f) ∧ moved (harvest_legs v u (stroops n) (stroops f) ad) (db s) (db s').
Proof.
  intros Hb Hr Had Hsn Hsf. unfold postHarvestLedgerTx, small in *.
  change (decimalToStroops n) with (stroops n). change (decimalToStroops f) with (stroops f).
  generalize dependent (stroops n). generalize dependent (stroops f). intros fee Hf net Hn.
  destruct ((net <=? 0) && (fee <=? 0)) eqn:E.
  { go_bool. intros [= _ <-]. left. done. }
  intros Hp. right. apply andb_false_iff in E. split; [destruct E; go_bool; lia|].
  rewrite (i64_id (net + fee)) in Hp by (unfold in_i64, min_i64, max_i64; lia).
  destruct (small_neg_i64 net) as (En & ? & ?); [lia|]. destruct (small_neg_i64 fee) as (_ & ? & _); [lia|].
  destruct (small_neg_i64 (net + fee)) as (Eg & _ & ?); [lia|]. rewrite En, Eg in Hp.
  set (rs := [r_pool v; r_user v u; r_fee; r_yield ad; r_suspense]).
  assert (Hacc : ∃ ids s1, accountsOf vx rs s = (Ok ids, s1) ∧
    match ids with
    | [a1; a2; a3; a4; a5] =>
        ledgerPostEntriesTx uuidNew dbnow "harvest" ev
          ((if net =? 0 then [] else [(a1, net); (a2, net); (a5, - net)])
           ++ (if fee =? 0 then [] else [(a3, fee)])
           ++ (if net + fee =? 0 then [] else [(a4, - (net + fee))])) s1 = (Ok x, s')
    | _ => False
    end).
  { revert Hp. clear. simpl. unfold mbind, Ledger.M_bind.
    repeat match goal with
    | |- context [ledgerGetOrCreateAccountTx ?a ?b ?c ?d ?e ?f ?g ?h ?i ?s] =>
        destruct (ledgerGetOrCreateAccountTx a b c d e f g h i s) as [[?|?] ?]; [|done]
    end. intros Hp. eexists _, _. split; [reflexivity|]. exact Hp. }
  destruct Hacc as (ids & s1 & Ea & Hpost).
  destruct (accounts_spec _ _ _ _ _ Hb Hr Ea) as (Hb1 & Ho1 & Hr1 & HF).
  subst rs. cbn [fmap list_fmap] in HF. rewrite fixed_yield in HF by done.
  destruct ids as [|a1 [|a2 [|a3 [|a4 [|a5 [|]]]]]]; try done.
  repeat (apply Forall2_cons in HF as [? HF]).
  apply (post_moved _ ((if net =? 0 then [] else [a1; a2; a5]) ++ (if fee =? 0 then [] else [a3])
    ++ (if net + fee =? 0 then [] else [a4])) "harvest" ev _ s1 x); [done..| | |];
    unfold harvest_legs; destruct (net =? 0), (fee =? 0), (net + fee =? 0); try exact Hpost; simpl;
    by foralls.
Qed.

Lemma rebalance_moved vx v from to (a : D) ev s x s' :
  books (db s) → ready s → from ≠ ""%string → to ≠ ""%string → small a →
  postRebalanceLedgerTx uuidNew dbnow userExists vx v from to a ev s = (Ok x, s') →
  s' = s ∨ moved (rebalance_legs from to (stroops a)) (db s) (db s').
Proof.
  intros Hb Hr Hfrom Hto Hs. unfold postRebalanceLedgerTx. change (decimalToStroops a) with (stroops a).
  destruct (Z.leb_spec (stroops a) 0); [intros [= _ <-]; by left|].
  case_decide; [intros [= _ <-]; by left|]. intros Hp. right.
  apply (movement_moved vx "rebalance" ev _ s x); [done|done| | |].
  - unfold rebalance_legs. cbn [fmap list_fmap fst]. by rewrite !fixed_yield.
  - destruct (small_neg_i64 (stroops a)) as (_ & ? & ?); [unfold small in Hs; lia|]. by foralls.
  - rewrite <-Hp. destruct (small_wraps a Hs) as (_ & -> & _). open_movement.
Qed.

(** What a movement does to the pool of a vault. *)
Lemma moved_pool legs d d' vault :
  books d → moved legs d d' →
  total (plays (r_pool vault)) d' = total (plays (r_pool vault)) d + legs_in (role_pool vault) legs.
Proof.
  intros Hb (Hb' & Hsub & _ & Hbal & _ & _ & Hres). apply total_effect; try done.
  intros r a _ Hp. symmetry. by apply plays_pool.
Qed.
End PostingFacts.
