(* ===== verification/Indexer.v ===== *)
(** The event indexer (internal/stellar: indexer.go, poller.go,
    balance_ownership.go, stroops.go): contract events of the chain move the
    balances of the tables of [VaultStore], once each, behind a cursor.

    Fetching events is an argument; so is what the statements on the tables of
    the emergency queue, the penalties and the rebalance legs answer, which
    nothing here reads.  A transaction of the indexer commits or leaves
    everything as it was.  The cursor, a number in a text column, is a number. *)

From Stdlib Require Import SpecFloat.
From stdpp Require Import sorting.
From S2P Require Import Prelude Sql GoStrings Decimal Vault.
From S2P Require Import Ledger.
From S2P Require Import VaultStore.
Open Scope Z_scope.
Open Scope go_scope.

(** ** Amounts *)

Definition StroopsPerUnit : Z := 10000000.

Section Amounts.
Context {D : Type} `{!Decimal D}.

Definition StroopsToAssetUnits (stroops : D) : D :=
  default d_zero (d_div stroops (d_of_Z StroopsPerUnit)).

Definition AssetUnitsToStroops (u : D) : D := d_round 0 (d_mul u (d_of_Z StroopsPerUnit)).
End Amounts.

(** ** Events *)

(** A value of the event's data map; [AOther] is one the type switches do not
    list. *)
Inductive any :=
| AString (s : string)
| ANumber (s : string)
| AInt (z : Z)
| AFloat (x : float64)
| AOther.

Record indexedEvent := mkEvent {
  ev_ID : string;
  ev_ContractID : string;
  ev_EventType : string;
  ev_Ledger : Z;
  ev_Data : option (list (string * any));
  ev_TxHash : string;
}.

Definition data_get (key : string) (e : indexedEvent) : option any :=
  match ev_Data e with
  | None => None
  | Some l => snd <$> List.find (λ p : string * any, bool_decide (p.1 = key)) l
  end.

(** A float that holds an integer exactly: [v == math.Trunc(v)] and
    [math.Abs(v) <= 1<<53]. *)
Definition exact_float (x : float64) : bool :=
  match x with
  | S754_nan | S754_infinity _ => false
  | _ => SFeqb x (f64_of_Z (f64_trunc x)) && (Z.abs (f64_trunc x) <=? 2 ^ 53)
  end.

Section Indexer.
Context (unicode_lower : string → string).
Context {D : Type} `{!Decimal D} (NewFromString : string → option D).

(** The type switch both extractions share; [None] is a type it does not list. *)
Definition number_of (v : any) : option (option D) :=
  match v with
  | AString s => Some (NewFromString (TrimSpace s))
  | ANumber s => Some (NewFromString s)
  | AInt z => Some (Some (d_of_Z z))
  | AFloat x => Some (if exact_float x then Some (d_of_Z (f64_to_i64 x)) else None)
  | _ => None
  end.

Definition extractEventAmountStroops (e : indexedEvent) : option D :=
  match data_get "amount" e ≫= number_of with
  | Some r => r
  | None => match data_get "value" e ≫= number_of with Some r => r | None => None end
  end.

Definition extractEventAmountUnits (e : indexedEvent) : option D :=
  StroopsToAssetUnits <$> extractEventAmountStroops e.

(** ** Mutations *)

Context (dbnow : Time).

(** A statement whose error is returned as it is. *)
Definition rawStmt {A} (m : Store → result PgError A * Store) : Tx A := λ s,
  match m s with (Ok a, s') => (Ok a, s') | (Err e, s') => (Err (ErrPg e), s') end.

Definition by_contract (c : string) (i : UUID) (r : VaultRow) : bool :=
  bool_decide (v_contract r = c) && live r.

(** The rows of [INSERT ... SELECT id, ... ON CONFLICT DO NOTHING]. *)
Fixpoint insert_rows (rows : list TxRow) (s : Store) : result PgError Z * Store :=
  match rows with
  | [] => (Ok 0, s)
  | t :: rows =>
      match insert_tx (λ _, true) true t s with
      | (Ok n, s1) =>
          match insert_rows rows s1 with
          | (Ok k, s2) => (Ok (n + k), s2)
          | (Err e, _) => (Err e, s)
          end
      | (Err e, _) => (Err e, s)
      end
  end.

Definition claim_rows (e : indexedEvent) (txType : string) (amount : D) (txHash : string) (s : Store)
    : result PgError (list TxRow) :=
  a ← numeric 48 (dval amount);
  Ok ((λ p : UUID * VaultRow, mkTxRow p.1 None txType a (Some txHash) None None None dbnow)
        <$> List.filter (λ p : UUID * VaultRow, by_contract (ev_ContractID e) p.1 p.2)
              (map_to_list (vaults s))).

Definition claimBalanceTxHash (e : indexedEvent) (txType : string) (amount : D) : Tx bool :=
  let txHash := TrimSpace (ev_TxHash e) in
  if decide (txHash = "") then mret true
  else
    inserted ← rawStmt (λ s,
      match claim_rows e txType amount txHash s with
      | Ok rows => insert_rows rows s
      | Err err => (Err err, s)
      end);
    mret (0 <? inserted).

Definition set_status (st : VaultStatus) (r : VaultRow) : result PgError VaultRow :=
  Ok (mkVaultRow (v_user r) (v_contract r) (v_total r) (v_balance r) (v_currency r) st (v_yield r)
        (v_fees r) (v_frequency r) (v_harvested r) (v_deleted r) (v_created r) dbnow).

(** SET yield_earned, current_balance, last_harvested_at *)
Definition add_yield (q : Q) (r : VaultRow) : result PgError VaultRow :=
  y ← numeric 48 (col (v_yield r) + q);
  b ← numeric 48 (col (v_balance r) + q);
  Ok (mkVaultRow (v_user r) (v_contract r) (v_total r) b (v_currency r) (v_status r) y
        (v_fees r) (v_frequency r) (Some dbnow) (v_deleted r) (v_created r) dbnow).

Definition raw_update (e : indexedEvent) (f : VaultRow → result PgError VaultRow) : Tx unit :=
  rawStmt (update_vaults (by_contract (ev_ContractID e)) f);; mret tt.

Definition eventType (e : indexedEvent) : string := ToLower unicode_lower (TrimSpace (ev_EventType e)).

(** What the branches for the other tables answer. *)
Context (otherTables : indexedEvent → result VaultErr unit).

Definition otherTypes : list string :=
  ["emrg_reqd"; "emrg_fill"; "emrg_canc"; "pnlty_chg"; "pnlty_dst"; "rebal_leg"; "rebal_cmp"]%string.

Definition move_balance (e : indexedEvent) (txType : string)
    (f : Q → VaultRow → result PgError VaultRow) : Tx unit :=
  match extractEventAmountUnits e with
  | None => failTx ErrOther
  | Some amount =>
      claimed ← claimBalanceTxHash e txType amount;
      if (claimed : bool) then raw_update e (f (dval amount)) else mret tt
  end.

Definition applyEventMutation (e : indexedEvent) : Tx unit :=
  let ty := eventType e in
  if decide (ty = "pause"%string) then raw_update e (set_status StatusPaused)
  else if decide (ty = "unpause"%string) then raw_update e (set_status StatusActive)
  else if decide (ty = "deposit"%string) then move_balance e "deposit" (credit dbnow)
  else if decide (ty ∈ ["withdraw"; "withdrawal"]%string) then move_balance e "withdrawal" (debit dbnow)
  else if decide (ty ∈ ["harvest"; "harvested"; "yield_harvest"]%string) then
    match extractEventAmountUnits e with
    | None => failTx ErrOther
    | Some amount => raw_update e (add_yield (dval amount))
    end
  else if decide (ty ∈ otherTypes) then liftTx (otherTables e)
  else mret tt.

(** ** The cursor *)

(** The tables the indexer works on: [processed] is processed_events,
    [cursor] the row event_indexer.last_ledger of system_state. *)
Record Index := mkIndex {
  store : Store;
  processed : gmap string Z;
  cursor : option Z;
}.

(** The ledger that the row names. *)
Definition cursor_at (x : Index) : Z := default 0 (cursor x).

(** [readOk] is false where the query fails, or what it finds is no number: then
    the error is passed on. *)
Definition getLastIndexedLedger (readOk : bool) (x : Index) : option Z := if readOk then Some (cursor_at x) else None.

Definition with_cursor (l : Z) (x : Index) : Index := mkIndex (store x) (processed x) (Some l).

(** The upsert, which replaces the row whatever it holds by then. *)
Definition writeCursor (d : dbres) (ledger : Z) (x : Index) : bool * Index :=
  (negb (failed d), Sql.effect d x (with_cursor ledger x)).

(** Two statements, a read and a write, here with nothing between them. *)
Definition setLastIndexedLedger (readOk : bool) (d : dbres) (ledger : Z) (x : Index) : bool * Index :=
  match getLastIndexedLedger readOk x with
  | None => (false, x)
  | Some current => if ledger <=? current then (true, x) else writeCursor d ledger x
  end.

(** INSERT INTO processed_events ON CONFLICT DO NOTHING *)
Definition markEventProcessed (e : indexedEvent) (x : Index) : bool * Index :=
  match processed x !! ev_ID e with
  | Some _ => (false, x)
  | None => (true, mkIndex (store x) (<[ev_ID e := ev_Ledger e]> (processed x)) (cursor x))
  end.

(** A ledger beyond BIGINT is an error of the statement. *)
Definition advanceCursorTx (ledger : Z) (x : Index) : option Index :=
  if max_i64 <? ledger then None
  else Some (with_cursor (match cursor x with Some c => Z.max c ledger | None => ledger end) x).

(** The transaction of one event, with or without the cursor. *)
Definition applyEvent (withCursor : bool) (beginOk : bool) (d : dbres) (e : indexedEvent) (x : Index)
    : result VaultErr bool * Index :=
  if decide (TrimSpace (ev_ID e) = "") then (Err ErrOther, x)
  else if negb beginOk || (max_i64 <? ev_Ledger e) then (Err ErrIO, x)
  else
    let '(inserted, x1) := markEventProcessed e x in
    let '(r, s') := if inserted then applyEventMutation e (store x1) else (Ok tt, store x1) in
    match r with
    | Err err => (Err err, x)
    | Ok _ =>
        let x2 := mkIndex s' (processed x1) (cursor x1) in
        match (if withCursor then advanceCursorTx (ev_Ledger e) x2 else Some x2) with
        | None => (Err ErrIO, x)
        | Some x3 => (if failed d then Err ErrIO else Ok inserted, Sql.effect d x x3)
        end
    end.

Definition applyIndexedEvent := applyEvent false.
Definition applyIndexedEventWithCursor := applyEvent true.

(** ** A pass of the poller *)

Definition DefaultColdStartOffset : Z := 12.

(** By ledger, then by event id. *)
Definition before (a b : indexedEvent) : Prop :=
  ev_Ledger a < ev_Ledger b
  ∨ ev_Ledger a = ev_Ledger b ∧ String.leb (ev_ID a) (ev_ID b) = true.
#[export] Instance before_dec : RelDecision before.
Proof. unfold before. solve_decision. Defined.

Definition sortEventsForApply (l : list indexedEvent) : list indexedEvent := merge_sort before l.

Definition loadVaultContractIDs (x : Index) : list string :=
  remove_dups ((λ p : UUID * VaultRow, v_contract p.2)
    <$> List.filter (λ p : UUID * VaultRow, live p.2 && negb (bool_decide (v_contract p.2 = "")))
          (map_to_list (vaults (store x)))).

(** [tip] is what LatestLedger answers; [readOk] and [q] are how the two reads of
    the cursor go, [d] how its write does. *)
Definition resolveStartLedger (offset : Z) (readOk : bool) (tip : option Z) (q : bool) (d : dbres) (x : Index)
    : option Z * Index :=
  match getLastIndexedLedger readOk x with
  | None => (None, x)
  | Some c =>
      if 0 <? c then (Some c, x)
      else match tip with
      | None => (None, x)
      | Some tip =>
          if tip =? 0 then (None, x)
          else
            let offset := if offset =? 0 then DefaultColdStartOffset else offset in
            let start := if offset <? tip then tip - offset else 1 in
            let '(ok, x) := setLastIndexedLedger q d start x in
            (if ok then Some start else None, x)
      end
  end.

(** How the transaction of each event goes. *)
Fixpoint apply_all (io : nat → bool * dbres) (l : list indexedEvent) (applied : Z) (x : Index)
    : result VaultErr Z * Index :=
  match l with
  | [] => (Ok applied, x)
  | e :: l =>
      match applyIndexedEventWithCursor (io 0%nat).1 (io 0%nat).2 e x with
      | (Err err, x') => (Err err, x')
      | (Ok processed, x') => apply_all (λ n, io (S n)) l (if (processed : bool) then applied + 1 else applied) x'
      end
  end.

(** The queries of a pass: the first read of the cursor, the tip, the read and the
    write of the cursor at a cold start, what the fetcher answers, the transactions
    of the events, and the read and the write of the cursor at the end. *)
Record PassEnv := mkPass {
  p_cursor : bool;
  p_tip : option Z;
  p_cold : bool * dbres;
  p_load : bool;
  p_fetch : list string → Z → option (list indexedEvent * Z);
  p_io : nat → bool * dbres;
  p_advance : bool * dbres;
}.

Definition PollEvents (offset : Z) (env : PassEnv) (x : Index) : result VaultErr Z * Index :=
  match resolveStartLedger offset (p_cursor env) (p_tip env) (p_cold env).1 (p_cold env).2 x with
  | (None, x) => (Err ErrOther, x)
  | (Some start, x) =>
      if negb (p_load env) then (Err ErrIO, x)
      else
        let contractIDs := loadVaultContractIDs x in
        if bool_decide (contractIDs = []) then (Ok 0, x)
        else match p_fetch env contractIDs start with
        | None => (Err ErrOther, x)
        | Some (events, latestLedger) =>
            match apply_all (p_io env) (sortEventsForApply events) 0 x with
            | (Err err, x') => (Err err, x')
            | (Ok applied, x') =>
                if 0 <? Z.of_nat (length events) then (Ok applied, x')
                else if 0 <? latestLedger then
                  let '(ok, x'') := setLastIndexedLedger (p_advance env).1 (p_advance env).2 latestLedger x' in
                  (if ok then Ok applied else Err ErrIO, x'')
                else (Ok applied, x')
            end
        end
  end.

(** The loop of the administrator's one-shot sync, which goes on after an error. *)
Fixpoint sync_all (io : nat → bool * dbres) (l : list indexedEvent) (n : Z) (x : Index) : Z * Index :=
  match l with
  | [] => (n, x)
  | e :: l =>
      let '(r, x') := applyIndexedEvent (io 0%nat).1 (io 0%nat).2 e x in
      sync_all (λ k, io (S k)) l (match r with Ok true => n + 1 | _ => n end) x'
  end.

Definition SyncEvents (env : PassEnv) (x : Index) : result VaultErr Z * Index :=
  match getLastIndexedLedger (p_cursor env) x with
  | None => (Err ErrIO, x)
  | Some startLedger =>
  if negb (p_load env) then (Err ErrIO, x)
  else
    let contractIDs := loadVaultContractIDs x in
    if bool_decide (contractIDs = []) then (Ok 0, x)
    else match p_fetch env contractIDs startLedger with
    | None => (Err ErrOther, x)
    | Some (events, latestLedger) =>
        let '(n, x') := sync_all (p_io env) events 0 x in
        (Ok n, (setLastIndexedLedger (p_advance env).1 (p_advance env).2 latestLedger x').2)
    end
  end.
End Indexer.
