(* ===== verification/IndexerRuns.v ===== *)
(** The event indexer over many passes: an event is applied once, and the
    cursor never passes an event that was not. *)

From stdpp Require Import sorting.
From S2P Require Import Prelude Sql GoStrings Decimal Vault.
From S2P Require Import Ledger.
From S2P Require Import VaultStore.
From S2P Require Import Indexer.
Open Scope Z_scope.
Open Scope go_scope.

(** ** The order of application *)


Lemma leb_total s t : String.leb s t = true ∨ String.leb t s = true.
Proof.
  unfold String.leb. rewrite (String.compare_antisym t s). destruct (String.compare s t); simpl; auto.
Qed.

#[export] Instance before_total : Total before.
Proof.
  intros a b. unfold before. destruct (Z.lt_trichotomy (ev_Ledger a) (ev_Ledger b)) as [?|[?|?]]; [by auto| |by auto].
  destruct (leb_total (ev_ID a) (ev_ID b)); auto.
Qed.


Lemma sorted_elem e l : e ∈ sortEventsForApply l ↔ e ∈ l.
Proof. unfold sortEventsForApply. by rewrite (merge_sort_Permutation before l). Qed.


Section Runs.
Context (unicode_lower : string → string).
Context {D : Type} `{!Decimal D} (NewFromString : string → option D).
Context (dbnow : Time) (otherTables : indexedEvent → result VaultErr unit).

#[local] Abbreviation apply := (applyEvent unicode_lower NewFromString dbnow otherTables).
#[local] Abbreviation pass := (apply_all unicode_lower NewFromString dbnow otherTables).
#[local] Abbreviation poll := (PollEvents unicode_lower NewFromString dbnow otherTables).

(** ** One event *)

Definition is_processed (e : indexedEvent) (x : Index) : Prop := is_Some (processed x !! ev_ID e).

(** What has happened when the transaction of an event is committed. *)
Record applied_event (e : indexedEvent) (x x' : Index) : Prop := {
  ap_done : is_processed e x';
  ap_keeps : processed x ⊆ processed x';
}.

Lemma apply_spec wc b d e x r x' :
  apply wc b d e x = (r, x') →
  x' = x ∧ (∃ err, r = Err err)
  ∨ applied_event e x x' ∧ (is_processed e x → store x' = store x)
    ∧ cursor x' = (if wc then Some (match cursor x with Some c => Z.max c (ev_Ledger e) | None => ev_Ledger e end)
                   else cursor x)
    ∧ (r = Ok (negb (bool_decide (is_processed e x))) ∨ r = Err ErrIO).
Proof.
  unfold applyEvent. case_decide; [intros [= <- <-]; eauto|].
  destruct (negb b || _); [intros [= <- <-]; eauto|]. unfold markEventProcessed, is_processed.
  destruct (processed x !! ev_ID e) as [z|] eqn:Ep; simpl.
  - destruct wc; [unfold advanceCursorTx; destruct (_ <? _); [intros [= <- <-]; eauto|]|];
      (destruct d as [|[]]; simpl; intros [= <- <-]; [right|right|left; by eauto]);
      (split; [split; simpl; [by eexists|done]|]; split; [done|]; split; [done|by auto]).
  - destruct (applyEventMutation _ _ _ _ _ _) as [[u|err] s1]; [|intros [= <- <-]; eauto].
    destruct wc; [unfold advanceCursorTx; destruct (_ <? _); [intros [= <- <-]; eauto|]|];
      (destruct d as [|[]]; simpl; intros [= <- <-]; [right|right|left; by eauto]);
      (split; [split; unfold is_processed; simpl;
         [by rewrite lookup_insert_eq|by apply insert_subseteq]|]; split; [by intros []|];
       split; [done|by auto]).
Qed.

(** An event is applied at most once: presenting an event whose id is
    recorded as processed, to the poller or to the administrator's sync, changes
    no table but the cursor. *)
Theorem event_applied_once wc b d e x :
  is_processed e x →
  let x' := (apply wc b d e x).2 in store x' = store x ∧ processed x' = processed x.
Proof.
  intros Hp. unfold applyEvent. case_decide; [done|]. destruct (negb b || _); [done|].
  unfold markEventProcessed. destruct Hp as [z Hz]. rewrite Hz. simpl.
  destruct wc; [unfold advanceCursorTx; destruct (_ <? _); [done|]|]; by destruct d as [|[]].
Qed.

(** ** One pass *)






(** ** Many passes *)




Lemma resolve_resumes offset readOk tip q d x c :
  cursor x = Some c → 0 < c → resolveStartLedger offset readOk tip q d x = (if readOk then Some c else None, x).
Proof.
  intros Hc Hpos. unfold resolveStartLedger, getLastIndexedLedger, cursor_at. rewrite Hc. destruct readOk; [|done]. simpl.
  by destruct (Z.ltb_spec 0 c); [|lia].
Qed.





(** ** A page of events already applied *)

(** The tables do not move while the page holds only events at or below the
    cursor that are processed. *)
Lemma processed_page_stalls offset env x c events latest :
  cursor x = Some c → 0 < c → c ≤ max_i64 →
  p_fetch env (loadVaultContractIDs x) c = Some (events, latest) → events ≠ [] →
  (∀ e, e ∈ events → is_processed e x ∧ ev_Ledger e ≤ c) → store (poll offset env x).2 = store x ∧ cursor (poll offset env x).2 = cursor x.
Proof.
  intros Hc Hpos Hmax Hf Hne Hall. unfold PollEvents. rewrite (resolve_resumes _ _ _ _ _ x c Hc Hpos).
  destruct (p_cursor env); cbv beta iota zeta; [|done].
  destruct (p_load env); simpl; [|done]. case_bool_decide; [done|]. rewrite Hf.
  assert (Hpass : ∀ l io n y r y', (∀ e, e ∈ l → is_processed e y ∧ ev_Ledger e ≤ c) → cursor y = Some c →
    pass io l n y = (r, y') → store y' = store y ∧ cursor y' = cursor y).
  { induction l as [|e l IH]; intros io n y r y' He Hy; simpl; [by intros [= _ <-]|].
    unfold applyIndexedEventWithCursor. destruct (apply true _ _ e y) as [r1 y1] eqn:E.
    destruct (He e ltac:(left)) as [Hp Hle].
    apply apply_spec in E as [(-> & err & ->)|(Hap & Hst & Hc1 & _)]; [by intros [= _ <-]|].
    rewrite Hy in Hc1. rewrite Z.max_l in Hc1 by done. destruct r1 as [p|]; [|intros [= _ <-]; by rewrite Hc1, Hst].
    intros Hr. apply IH in Hr as [Hs1 Hs2]; [by rewrite Hs1, Hs2, Hc1, Hst| |done].
    intros e' ?. destruct (He e' ltac:(by right)) as [[z Hz] ?]. split; [|done].
    exists z. eapply lookup_weaken; [exact Hz|]. by destruct Hap. }
  destruct (pass _ _ _ x) as [r x1] eqn:Ep.
  apply (Hpass _ _ _ _ _ _ (λ e He, Hall e (proj1 (sorted_elem e events) He)) Hc) in Ep.
  destruct r as [n|]; [|exact Ep]. destruct (Z.ltb_spec 0 (Z.of_nat (length events))); [exact Ep|].
  destruct events; [done|simpl in *; lia].
Qed.
End Runs.

(** ** Concrete runs *)

Definition run_row : VaultRow :=
  mkVaultRow 7 "C1" 0 0 "USDC" StatusActive 0 0 "daily" None None 1 1.
Definition run_index : Index :=
  mkIndex (mkStore {[1 := run_row]} [] (mkSession (mkDB ∅ [] ∅ []) 0)) ∅ (Some 5).

Definition run_deposit (id : string) (ledger amount : Z) (hash : string) : indexedEvent :=
  mkEvent id "C1" "deposit" ledger (Some [("amount"%string, AInt amount)]) hash.

Definition run_chain : list indexedEvent :=
  [run_deposit "8-1" 8 30000000 "h2"; run_deposit "6-1" 6 20000000 "h1"; run_deposit "9-1" 9 40000000 "h3"].

Definition run_fetch (chain : list indexedEvent) (ids : list string) (start : Z) : list indexedEvent :=
  List.filter (λ e, existsb (λ i, bool_decide (ev_ContractID e = i)) ids && (start <=? ev_Ledger e)) chain.


(** An RPC that serves the whole chain from the start ledger on, over a
    database whose third transaction [third]. *)
Definition run_env (third : bool * dbres) : PassEnv :=
  mkPass true (Some 20) (true, DBOk) true
    (λ ids start, Some (run_fetch run_chain ids start, 20))
    (λ n, match n with 2%nat => third | _ => (true, DBOk) end) (true, DBOk).


#[local] Abbreviation run_poll := (PollEvents id (λ _ : string, None : option Q) 50 (λ _, Ok tt)).
#[local] Abbreviation run_sync := (SyncEvents id (λ _ : string, None : option Q) 50 (λ _, Ok tt)).

(** A pass whose third event cannot be committed, and the pass after it. *)
Definition run_first : Index := (run_poll 0 (run_env (true, DBFail false)) run_index).2.
Definition run_second : Index := (run_poll 0 (run_env (true, DBOk)) run_first).2.

Definition balance_1 (x : Index) : option Z := v_balance <$> vaults (store x) !! 1.

Lemma run_values :
  (balance_1 run_first, cursor run_first) = (Some 500000000, Some 8)
  ∧ (balance_1 run_second, cursor run_second) = (Some 900000000, Some 9).
Proof. vm_compute. done. Qed.



Lemma event_applied_once_witness :
  is_processed (run_deposit "6-1" 6 20000000 "h1") run_second
  ∧ balance_1 (applyIndexedEvent id (λ _ : string, None : option Q) 50 (λ _, Ok tt) true DBOk
      (run_deposit "6-1" 6 20000000 "h1") run_second).2 = Some 900000000.
Proof.
  assert (Hp : is_processed (run_deposit "6-1" 6 20000000 "h1") run_second).
  { exists 6. vm_compute. reflexivity. }
  split; [exact Hp|]. unfold balance_1, applyIndexedEvent.
  rewrite (proj1 (event_applied_once id (λ _ : string, None : option Q) 50 (λ _, Ok tt) false true DBOk _ _ Hp)).
  by vm_compute.
Defined.

(** The administrator's sync goes on after an event it could not commit and
    then moves the cursor to the tip: the event is not applied, and no pass
    will ask for its ledger again. *)
Lemma sync_loses_event :
  let x := (run_sync (run_env (true, DBFail false)) run_index).2 in
  (balance_1 x, cursor x) = (Some 500000000, Some 20)
  ∧ processed x !! "9-1"%string = None ∧ (run_poll 0 (run_env (true, DBOk)) x).2 = x.
Proof. vm_compute. done. Qed.

(** Two deposits in one transaction have one hash: the second is marked as
    processed and credits nothing. *)
Lemma second_event_of_transaction_dropped :
  let apply e x := (applyIndexedEvent id (λ _ : string, None : option Q) 50 (λ _, Ok tt) true DBOk e x).2 in
  let x := apply (run_deposit "6-2" 6 30000000 "h1") (apply (run_deposit "6-1" 6 20000000 "h1") run_index) in
  balance_1 x = Some 200000000 ∧ is_Some (processed x !! "6-2"%string).
Proof. vm_compute. split; [done|by eexists]. Qed.

(** A harvest event does not claim the hash of its transaction. *)
Lemma indexed_harvest_leaves_hash :
  let e := mkEvent "6-1" "C1" "harvest" 6 (Some [("amount"%string, AInt 20000000)]) "h1" in
  let x := (applyIndexedEvent id (λ _ : string, None : option Q) 50 (λ _, Ok tt) true DBOk e run_index).2 in
  balance_1 x = Some 200000000 ∧ txs (store x) = [].
Proof. vm_compute. done. Qed.

(** Two writers whose statements interleave: one reads the cursor at five, the other
    advances it to nine with an event, and the first then writes the seven it
    compared with five, so the cursor moves back. *)
Lemma late_write_sets_cursor_back :
  getLastIndexedLedger true run_index = Some 5 ∧ 5 < 7
  ∧ ∃ x, advanceCursorTx 9 run_index = Some x ∧ cursor x = Some 9 ∧ cursor (writeCursor DBOk 7 x).2 = Some 7.
Proof. split; [done|]. split; [done|]. eexists. by vm_compute. Qed.
