(* ===== verification/VaultBooks.v ===== *)
(** The books of the vaults: what the writers of [VaultStore] and [Indexer] do
    to balances and transactions, in histories that interleave them in any
    order and fail at any point. *)

From S2P Require Import Prelude Sql GoStrings Decimal Vault.
From S2P Require Import Ledger.
From S2P Require Import VaultStore.
From S2P Require Import Indexer.
Open Scope Z_scope.
Open Scope go_scope.

(** ** Accounting *)

(** What a transaction row did to the balance of its vault, and to its total of
    deposits.  A compounded harvest is one with shares. *)
Definition delta (t : TxRow) : Z :=
  if decide (t_type t = "deposit"%string) then t_amount t
  else if decide (t_type t = "withdrawal"%string) then - t_amount t
  else if decide (t_type t = "harvest"%string)
  then match t_shares t with Some _ => t_amount t | None => - t_amount t end
  else 0.

Definition paid_in (t : TxRow) : Z :=
  if decide (t_type t = "deposit"%string) then t_amount t
  else if decide (t_type t = "harvest"%string)
  then match t_shares t with Some _ => t_amount t | None => 0 end
  else 0.

Definition sum_on (g : TxRow → Z) (id : UUID) (l : list TxRow) : Z :=
  foldr (λ t s, (if t_vault t =? id then g t else 0) + s) 0 l.

Definition hashes (l : list TxRow) : list string := omap t_hash l.

Lemma sum_on_app g id l l' : sum_on g id (l ++ l') = sum_on g id l + sum_on g id l'.
Proof. induction l as [|t l IH]; simpl; [done|]. rewrite IH. lia. Qed.

Lemma sum_on_other g id l : Forall (λ t, t_vault t ≠ id) l → sum_on g id l = 0.
Proof.
  induction 1 as [|t l Ht HF IH]; simpl; [done|]. destruct (Z.eqb_spec (t_vault t) id); [done|lia].
Qed.

Lemma hash_taken_spec o l : hash_taken o l = true ↔ ∃ h, o = Some h ∧ h ∈ hashes l.
Proof.
  destruct o as [h|]; simpl; [|split; [done|by intros (? & ? & _)]].
  rewrite existsb_exists. unfold hashes, has_hash. split.
  - intros (t & Hin & Hb%bool_decide_eq_true). exists h. split; [done|].
    apply list_elem_of_omap. exists t. split; [by apply list_elem_of_In|done].
  - intros (h' & [= <-] & (t & Hin & Ht)%list_elem_of_omap). exists t.
    split; [by apply list_elem_of_In|]. by apply bool_decide_eq_true.
Qed.

(** What every reachable store satisfies. *)
Record money_inv (s : Store) : Prop := {
  mi_hash : NoDup (hashes (txs s));
  mi_ref t : t ∈ txs s → is_Some (vaults s !! t_vault t);
  mi_money id r : vaults s !! id = Some r → live r = true →
    v_balance r = sum_on delta id (txs s) ∧ v_total r = sum_on paid_in id (txs s);
  mi_check id r : vaults s !! id = Some r → check_vault r = Ok tt;
  mi_contract i j a b : vaults s !! i = Some a → vaults s !! j = Some b →
    live a = true → live b = true → v_contract a = v_contract b → i = j;
}.

(** Nothing that counts has changed. *)
Definition same (s s' : Store) : Prop :=
  vaults s' = vaults s ∧ txs s' = txs s ∧ db (ledger s') = db (ledger s).

(** The vault [id] has gone from [r] to [r'] by the transactions [ts]. *)
Record booked (s s' : Store) (id : UUID) (r r' : VaultRow) (ts : list TxRow) : Prop := {
  bk_row : vaults s !! id = Some r;
  bk_live : live r = true;
  bk_row_check : check_vault r' = Ok tt;
  bk_free : contract_taken id r' (vaults s) = false;
  bk_vaults : vaults s' = <[id := r']> (vaults s);
  bk_txs : txs s' = txs s ++ ts;
  bk_of : Forall (λ t, t_vault t = id) ts;
  bk_new : NoDup (hashes (txs s)) → NoDup (hashes (txs s'));
  bk_balance : v_balance r' = v_balance r + foldr (λ t s, delta t + s) 0 ts;
  bk_total : v_total r' = v_total r + foldr (λ t s, paid_in t + s) 0 ts;
}.

(** The transactions [ts] were recorded for the vault [id], which was deleted
    and kept its row. *)
Record late (s s' : Store) (id : UUID) (ts : list TxRow) : Prop := {
  la_row : ∃ r, vaults s !! id = Some r ∧ live r = false;
  la_vaults : vaults s' = vaults s;
  la_txs : txs s' = txs s ++ ts;
  la_of : Forall (λ t, t_vault t = id) ts;
  la_new : NoDup (hashes (txs s)) → NoDup (hashes (txs s'));
}.

Lemma sum_on_all g id ts :
  Forall (λ t, t_vault t = id) ts → sum_on g id ts = foldr (λ t s, g t + s) 0 ts.
Proof. induction 1 as [|t ts Ht HF IH]; simpl; [done|]. by rewrite Ht, Z.eqb_refl, IH. Qed.

Lemma contract_free id r m j b :
  contract_taken id r m = false → live r = true → m !! j = Some b → live b = true →
  v_contract b = v_contract r → j = id.
Proof.
  unfold contract_taken. intros H Hl Hj Hb E. rewrite Hl in H. simpl in H.
  destruct (decide (j = id)) as [|Hne]; [done|]. exfalso. apply not_true_iff_false in H. apply H.
  apply existsb_exists. exists (j, b). split; [by apply list_elem_of_In, elem_of_map_to_list|]. simpl.
  rewrite Hb, (bool_decide_eq_false_2 _ Hne), bool_decide_eq_true_2 by done. done.
Qed.

(** Whether a contract is taken does not depend on the row itself. *)
Lemma contract_taken_spec id r m :
  contract_taken id r m = true ↔
  live r = true ∧ ∃ j b, m !! j = Some b ∧ j ≠ id ∧ live b = true ∧ v_contract b = v_contract r.
Proof.
  unfold contract_taken. rewrite andb_true_iff, existsb_exists. split.
  - intros [Hl ([j b] & Hin%list_elem_of_In%elem_of_map_to_list & Hb)]. split; [done|]. exists j, b. simpl in Hb.
    rewrite !andb_true_iff, negb_true_iff, bool_decide_eq_false, bool_decide_eq_true in Hb. tauto.
  - intros [Hl (j & b & Hj & Hne & Hb & E)]. split; [done|]. exists (j, b).
    split; [by apply list_elem_of_In, elem_of_map_to_list|]. simpl.
    by rewrite Hb, (bool_decide_eq_false_2 _ Hne), bool_decide_eq_true_2.
Qed.

Lemma contract_taken_insert id r x m : contract_taken id r (<[id := x]> m) = contract_taken id r m.
Proof.
  apply eq_true_iff_eq. rewrite !contract_taken_spec. split; intros (Hl & j & b & Hj & Hne & H);
    (split; [done|]); exists j, b; (split; [|done]).
  - by rewrite lookup_insert_ne in Hj.
  - by rewrite lookup_insert_ne.
Qed.

Lemma booked_inv s s' id r r' ts : money_inv s → booked s s' id r r' ts → money_inv s'.
Proof.
  intros [H1 H2 H3 H4 H5] [B1 BL B2 B3 B4 B5 B6 B7 B8 B9]. split.
  - by apply B7.
  - rewrite B5, B4. intros t [Hin|Hin]%elem_of_app; apply lookup_insert_is_Some'; [right; by apply H2|left].
    by rewrite Forall_forall in B6; rewrite (B6 t Hin).
  - rewrite B5, B4. intros i x [[<- <-]|[Hne Hx]]%lookup_insert_Some Hlx; rewrite !sum_on_app.
    + destruct (H3 _ _ B1 BL) as [E1 E2].
      by rewrite B8, B9, E1, E2, (sum_on_all delta id ts B6), (sum_on_all paid_in id ts B6).
    + destruct (H3 _ _ Hx Hlx) as [-> ->].
      rewrite !(sum_on_other _ i ts), !Z.add_0_r by (eapply Forall_impl; [exact B6|]; simpl; congruence). done.
  - rewrite B4. intros i x [[<- <-]|[Hne Hx]]%lookup_insert_Some; [done|by eapply H4].
  - rewrite B4. intros i j a b [[<- <-]|[Hi Ha]]%lookup_insert_Some [[<- <-]|[Hj Hb]]%lookup_insert_Some
      La Lb E; [done| | |by eapply H5].
    + symmetry. by eapply contract_free.
    + eapply contract_free; [exact B3|done..].
Qed.

Lemma late_inv s s' id ts : money_inv s → late s s' id ts → money_inv s'.
Proof.
  intros [H1 H2 H3 H4 H5] [(r & L1 & L2) L3 L4 L5 L6]. split; rewrite ?L3.
  - by apply L6.
  - rewrite L4. intros t [Hin|Hin]%elem_of_app; [by apply H2|].
    rewrite Forall_forall in L5. rewrite (L5 t Hin). by exists r.
  - rewrite L4. intros i x Hx Hlx. destruct (H3 _ _ Hx Hlx) as [-> ->]. rewrite !sum_on_app.
    rewrite !(sum_on_other _ i ts), !Z.add_0_r; [done|..];
      (eapply Forall_impl; [exact L5|]; simpl; intros t -> ->; congruence).
  - done.
  - done.
Qed.

Lemma same_inv s s' : money_inv s → same s s' → money_inv s'.
Proof. intros [H1 H2 H3 H4 H5] (Hv & Ht & _). split; rewrite ?Hv, ?Ht; done. Qed.

(** ** Running transactions *)

Lemma bind_Tx {A B} (m : Tx A) (f : A → Tx B) s x s' :
  (m ≫= f) s = (x, s') →
  (∃ e, m s = (Err e, s') ∧ x = Err e) ∨ ∃ a s1, m s = (Ok a, s1) ∧ f a s1 = (x, s').
Proof.
  unfold mbind, Tx_bind. destruct (m s) as [[a|e] s1]; [eauto|]. intros [= <- <-]. left. eauto.
Qed.

(** A bind that succeeds. *)
Lemma bind_Tx_Ok {A B} (m : Tx A) (f : A → Tx B) s b s' :
  (m ≫= f) s = (Ok b, s') → ∃ a s1, m s = (Ok a, s1) ∧ f a s1 = (Ok b, s').
Proof. intros [(e & _ & ?)|H]%bind_Tx; [done|exact H]. Qed.

(** A transaction leaves everything, or has done what its body did; an error
    does not tell which, a success does. *)
Lemma inTx_spec {A} b d (m : Tx A) s x s' :
  inTx b d m s = (x, s') →
  same s s' ∧ (∃ e, x = Err e) ∨ ∃ a, m s = (Ok a, s') ∧ (x = Ok a ∨ x = Err ErrIO).
Proof.
  unfold inTx. destruct b; simpl; [|intros [= <- <-]; left; split; [done|eauto]].
  destruct (m s) as [[a|e] s1] eqn:E; simpl.
  - destruct d as [|[]]; simpl; intros [= <- <-]; [right; eauto..|]. left. split; [done|eauto].
  - intros [= <- <-]. left. split; [done|eauto].
Qed.

(** ** Moves of money *)

Lemma rewrites_live id r r' m : rewrites id r r' m → m !! id = Some r.
Proof. by intros (? & _). Qed.

Lemma hash_new t l : hash_taken (t_hash t) l = false → NoDup (hashes l) → NoDup (hashes (l ++ [t])).
Proof.
  intros Hh Hn. unfold hashes. rewrite omap_app. simpl. destruct (t_hash t) as [h|] eqn:Et.
  - apply NoDup_app. split; [done|]. split; [|apply NoDup_singleton].
    intros h' Hin ->%list_elem_of_singleton. apply not_true_iff_false in Hh. apply Hh.
    apply hash_taken_spec. by exists h.
  - by rewrite app_nil_r.
Qed.

(** An update of the vault and the row that accounts for it. *)
Lemma book_one s s' id r r' t :
  rewrites id r r' (vaults s) → live r = true → t_vault t = id → hash_taken (t_hash t) (txs s) = false →
  v_balance r' = v_balance r + delta t → v_total r' = v_total r + paid_in t →
  vaults s' = <[id := r']> (vaults s) → txs s' = txs s ++ [t] → booked s s' id r r' [t].
Proof.
  intros (H1 & H2 & H3) Hl Ht Hh Hb Hp Hv Hx. split; try done.
  - by constructor.
  - intros Hn. rewrite Hx. by apply hash_new.
  - simpl. lia.
  - simpl. lia.
Qed.

(** An update that no row accounts for, since it moves nothing. *)
Lemma book_none s s' id r r' :
  rewrites id r r' (vaults s) → live r = true → v_balance r' = v_balance r → v_total r' = v_total r →
  vaults s' = <[id := r']> (vaults s) → txs s' = txs s → booked s s' id r r' [].
Proof.
  intros (H1 & H2 & H3) Hl Hb Hp Hv Hx. split; try done.
  - by rewrite Hx, app_nil_r.
  - by rewrite Hx.
  - simpl. lia.
  - simpl. lia.
Qed.

Section Books.
Context (uuidNew : nat → UUID) (dbnow : Time) (userExists : UUID → bool).
Context {D : Type} `{!Decimal D} `{!DecimalLaws D}.

Lemma set_money_Ok total balance r r' :
  set_money dbnow total balance r = Ok r' →
  v_total r' = units (total r) ∧ v_balance r' = units (balance r) ∧ live r' = live r
  ∧ v_contract r' = v_contract r ∧ v_user r' = v_user r ∧ v_status r' = v_status r.
Proof.
  unfold set_money. destruct (numeric 48 (total r)) as [t|] eqn:Et; simpl; [|done].
  destruct (numeric 48 (balance r)) as [b|] eqn:Eb; simpl; [|done]. intros [= <-]. simpl.
  by rewrite <-(numeric_Ok _ _ _ Et), <-(numeric_Ok _ _ _ Eb).
Qed.

Lemma credit_Ok q r r' :
  exact8 q → credit dbnow q r = Ok r' →
  v_total r' = v_total r + units q ∧ v_balance r' = v_balance r + units q
  ∧ v_user r' = v_user r ∧ v_status r' = v_status r.
Proof. intros Hq (-> & -> & _ & _ & -> & ->)%set_money_Ok. by rewrite !units_add. Qed.

Lemma debit_Ok q r r' :
  exact8 q → debit dbnow q r = Ok r' →
  v_total r' = v_total r ∧ v_balance r' = v_balance r - units q
  ∧ v_user r' = v_user r ∧ v_status r' = v_status r.
Proof. intros Hq (-> & -> & _ & _ & -> & ->)%set_money_Ok. by rewrite units_sub, units_col. Qed.

(** The columns of a row that was built. *)
Lemma tx_row_Ok id user ty (a : D) hash sh pr fe t :
  tx_row dbnow id user ty a hash sh pr fe = Ok t →
  t_vault t = id ∧ t_type t = ty ∧ t_amount t = units (dval a) ∧ t_hash t = nullif hash
  ∧ (is_Some (t_shares t) ↔ is_Some sh).
Proof.
  unfold tx_row. destruct (numeric 48 (dval a)) as [z|] eqn:Ea; simpl; [|done].
  destruct sh as [sh|]; simpl; [destruct (numeric 28 (dval sh)); simpl; [|done]|];
    (destruct pr as [pr|]; simpl; [destruct (numeric 28 (dval pr)); simpl; [|done]|]);
    (destruct fe as [fe|]; simpl; [destruct (numeric 48 (dval fe)); simpl; [|done]|]);
    intros [= <-]; simpl; rewrite (numeric_Ok _ _ _ Ea);
    (split; [done|split; [done|split; [done|split; [done|]]]]);
    by rewrite ?is_Some_alt.
Qed.

(** The posting that goes with a movement: [m] ran on the ledger of [s]. *)
Definition posted (m : (UUID → bool) → M unit) (s s' : Store) : Prop :=
  ∃ vx, m vx (ledger s) = (Ok tt, ledger s').

(** A vault moved by one transaction of type [ty]. *)
Definition moved_by (id : UUID) (ty hash : string) (z : Z) (s s' : Store) (r : VaultRow) : Prop :=
  ∃ r' t, booked s s' id r r' [t] ∧ live r = true ∧ v_user r' = v_user r
    ∧ t_type t = ty ∧ t_amount t = z ∧ t_hash t = nullif hash
    ∧ hash_taken (nullif hash) (txs s) = false ∧ 0 < z.

Lemma inLedger_Ok {A} (m : Store → M A) s a s' :
  inLedger m s = (Ok a, s') → m s (ledger s) = (Ok a, ledger s') ∧ vaults s' = vaults s ∧ txs s' = txs s.
Proof. intros (l & -> & H)%inLedger_spec. done. Qed.

Lemma update_one_Ok id f s u s' :
  update_one id f s = (Ok u, s') →
  ∃ r r', rewrites id r r' (vaults s) ∧ live r = true ∧ f r = Ok r'
    ∧ s' = with_vaults (<[id := r']> (vaults s)) s.
Proof. intros H. exact (update_one_spec _ _ _ _ _ H). Qed.

Lemma delta_deposit t : t_type t = "deposit"%string → delta t = t_amount t ∧ paid_in t = t_amount t.
Proof. intros E. unfold delta, paid_in. by rewrite !E. Qed.
Lemma delta_withdrawal t : t_type t = "withdrawal"%string → delta t = - t_amount t ∧ paid_in t = 0.
Proof. intros E. unfold delta, paid_in. by rewrite !E. Qed.

(** The two statements that move a balance, the update first. *)
Lemma update_insert (f : VaultRow → result PgError VaultRow) id ty oc row hash z s s1 n s2 :
  update_one id f s = (Ok tt, s1) → insert_row userExists oc row s1 = (Ok n, s2) → n ≠ 0 →
  (∀ t, row = Ok t → t_vault t = id ∧ t_type t = ty ∧ t_amount t = z ∧ t_hash t = nullif hash) →
  (∀ r r' t, f r = Ok r' → row = Ok t → v_balance r' = v_balance r + delta t
     ∧ v_total r' = v_total r + paid_in t ∧ v_user r' = v_user r) →
  ∃ r, ledger s2 = ledger s ∧ ∀ s', vaults s' = vaults s2 → txs s' = txs s2 → moved_by id ty hash z s s' r.
Proof.
  intros (r & r' & Hw & Hl & Hf & ->)%update_one_Ok Hi Hn Hrow Hmove.
  apply insert_row_spec in Hi as (t & -> & [(? & _)|(_ & (Hpos & Hh & _) & ->)]); [done|].
  destruct (Hrow _ eq_refl) as (H1 & H2 & H3 & H4). destruct (Hmove _ _ _ Hf eq_refl) as (Hb & Ht & Hu).
  exists r. split; [done|]. intros s' Hv Hx. exists r', t. split; [|rewrite H4 in Hh; rewrite H3 in Hpos; done].
  by apply book_one.
Qed.

Lemma RecordDeposit_spec b d id rc s x s' :
  exact8 (dval (rec_amount rc)) → RecordDeposit uuidNew dbnow userExists b d id rc s = (x, s') →
  same s s' ∧ (∃ e, x = Err e)
  ∨ ∃ r, moved_by id "deposit" (rec_hash rc) (units (dval (rec_amount rc))) s s' r
      ∧ posted (λ vx, postDepositLedgerTx uuidNew dbnow userExists vx id (rec_user rc) (rec_amount rc)
                        (rec_hash rc)) s s'
      ∧ (x = Ok tt ∨ x = Err ErrIO).
Proof.
  intros He. unfold RecordDeposit. destruct (d_le _ _); [intros [= <- <-]; left; split; [done|eauto]|].
  intros [?|([] & Hm & Hx)]%inTx_spec; [by left|]. right.
  apply bind_Tx_Ok in Hm as ([] & s1 & Hu & Hm). apply bind_Tx_Ok in Hm as (n & s2 & Hi & Hm).
  destruct (Z.eqb_spec n 0) as [|Hn]; [done|]. apply inLedger_Ok in Hm as (Hp & Hv & Ht).
  destruct (update_insert _ id "deposit" true _ (rec_hash rc) (units (dval (rec_amount rc))) _ _ _ _ Hu Hi Hn)
    as (r & El & Hmv).
  - by intros t (? & ? & ? & ? & _)%tx_row_Ok.
  - intros r r' t (E1 & E2 & E3 & _)%credit_Ok (_ & Ety & Ea & _)%tx_row_Ok; [|done].
    destruct (delta_deposit t Ety) as [-> ->]. by rewrite Ea.
  - exists r. split; [by apply Hmv|]. split; [|done]. eexists. rewrite <-El. exact Hp.
Qed.

Lemma scan_col_val z : (dval (scan_col (D:=D) z) == col z)%Q.
Proof.
  unfold scan_col. destruct (dval_div (D:=D) (d_of_Z z) (d_of_Z (Zpos unit8))) as (c & -> & Hc).
  { rewrite dval_of_Z. by intros H%inject_Z_injective. }
  simpl. rewrite Hc, !dval_of_Z, (Qround_at_exact 16 _ (z * 10 ^ 8)).
  - unfold col, unit8, Qeq, pow10. cbn [Qnum Qden]. lia.
  - unfold Qdiv, Qinv, inject_Z, unit8, pow10, Qmult, Qeq. cbn [Qnum Qden]. lia.
Qed.

(** An update that finds its vault is the update of one vault. *)
Lemma update_live id f s n s1 r :
  vaults s !! id = Some r → live r = true → update (by_id id) f s = (Ok n, s1) →
  update_one id f s = (Ok tt, s1).
Proof.
  intros Hr Hl H. unfold update_one, mbind, Tx_bind. rewrite H.
  destruct (update_spec _ _ _ _ _ H) as [(-> & -> & Hno)|(-> & _)]; [|done].
  by rewrite (Hno _ Hr) in Hl.
Qed.

Lemma RecordWithdrawal_spec b d id rc s x s' :
  exact8 (dval (rec_amount rc)) → RecordWithdrawal uuidNew dbnow userExists b d id rc s = (x, s') →
  same s s' ∧ (∃ e, x = Err e)
  ∨ ∃ r, moved_by id "withdrawal" (rec_hash rc) (units (dval (rec_amount rc))) s s' r
      ∧ units (dval (rec_amount rc)) ≤ v_balance r
      ∧ posted (λ vx, postWithdrawalLedgerTx uuidNew dbnow userExists vx id (rec_user rc) (rec_amount rc)
                        (rec_hash rc)) s s'
      ∧ (x = Ok tt ∨ x = Err ErrIO).
Proof.
  intros He. unfold RecordWithdrawal. destruct (d_le _ _); [intros [= <- <-]; left; split; [done|eauto]|].
  intros [?|([] & Hm & Hx)]%inTx_spec; [by left|]. right.
  apply bind_Tx_Ok in Hm as (bal & s0 & Hr & Hm). unfold readTx in Hr.
  destruct (vaults s !! id) as [r|] eqn:Er; [|done]. destruct (live r) eqn:El; [|done].
  injection Hr as <- <-. destruct (d_lt _ _) eqn:Elt; [done|].
  apply bind_Tx_Ok in Hm as (k & s1 & Hu%(update_live _ _ _ _ _ r Er El) & Hm).
  apply bind_Tx_Ok in Hm as (n & s2 & Hi & Hm). apply inLedger_Ok in Hm as (Hp & Hv & Ht).
  assert (Hn : n ≠ 0).
  { intros ->. by apply insert_row_spec in Hi as (t & _ & [(_ & _ & ? & _)|(? & _)]). }
  destruct (update_insert _ id "withdrawal" false _ (rec_hash rc) (units (dval (rec_amount rc))) _ _ _ _ Hu Hi Hn)
    as (r0 & El0 & Hmv).
  - by intros t (? & ? & ? & ? & _)%tx_row_Ok.
  - intros r0 r' t (E1 & E2 & E3 & _)%debit_Ok (_ & Ety & Ea & _)%tx_row_Ok; [|done].
    destruct (delta_withdrawal t Ety) as [-> ->]. rewrite Ea, E1, E2, E3. split; [lia|]. split; [lia|done].
  - exists r0. assert (r0 = r) as ->.
    { destruct (Hmv s') as (? & ? & HB & _); [done..|]. pose proof (bk_row _ _ _ _ _ _ HB). congruence. }
    split; [by apply Hmv|]. split; [|split; [|done]].
    + apply not_true_iff_false in Elt. rewrite d_lt_spec, scan_col_val in Elt. apply Qnot_lt_le in Elt.
      rewrite (exact8_units _ He) in Elt. unfold col, Qle in Elt. cbn [Qnum Qden] in Elt.
      unfold unit8 in Elt. lia.
    + eexists. rewrite <-El0. exact Hp.
Qed.

(** The two statements in the other order. *)
Lemma insert_update (f : VaultRow → result PgError VaultRow) id ty oc row hash z s s1 n s2 :
  insert_row userExists oc row s = (Ok n, s1) → n ≠ 0 → update_one id f s1 = (Ok tt, s2) →
  (∀ t, row = Ok t → t_vault t = id ∧ t_type t = ty ∧ t_amount t = z ∧ t_hash t = nullif hash) →
  (∀ r r' t, f r = Ok r' → row = Ok t → v_balance r' = v_balance r + delta t
     ∧ v_total r' = v_total r + paid_in t ∧ v_user r' = v_user r) →
  ∃ r r', vaults s2 !! id = Some r' ∧ v_user r' = v_user r ∧ ledger s2 = ledger s
    ∧ ∀ s', vaults s' = vaults s2 → txs s' = txs s2 → moved_by id ty hash z s s' r.
Proof.
  intros Hi Hn Hu Hrow Hmove.
  apply insert_row_spec in Hi as (t & -> & [(? & _)|(_ & (Hpos & Hh & _) & ->)]); [done|].
  apply update_one_Ok in Hu as (r & r' & Hw & Hl & Hf & ->).
  destruct (Hrow _ eq_refl) as (H1 & H2 & H3 & H4). destruct (Hmove _ _ _ Hf eq_refl) as (Hb & Ht & Hu).
  exists r, r'. split; [apply lookup_insert_eq|]. split; [done|]. split; [done|].
  intros s' Hv Hx. exists r', t. split; [|rewrite H4 in Hh; rewrite H3 in Hpos; done]. by apply book_one.
Qed.

(** What a confirmed change posts when the owner of the vault is known. *)
Definition confirmed_post (isDeposit : bool) (id user : UUID) (amount : D) (txHash : string)
    (vx : UUID → bool) : M unit :=
  if isDeposit then postDepositLedgerTx uuidNew dbnow userExists vx id user amount txHash
  else postWithdrawalLedgerTx uuidNew dbnow userExists vx id user amount txHash.

Definition confirmed_type (isDeposit : bool) : string := if isDeposit then "deposit" else "withdrawal".

(** A posting, dropped or not, leaves vaults and transactions. *)
Lemma best_effort_ledger (m : Store → M unit) s x s' :
  best_effort (inLedger m) s = (x, s') → vaults s' = vaults s ∧ txs s' = txs s.
Proof.
  unfold best_effort. destruct (inLedger m s) as [y s1] eqn:E.
  apply inLedger_spec in E as (l & -> & _). intros H. by repeat case_match; simplify_eq.
Qed.

Lemma applyConfirmed_spec isDeposit b d id amount hash s x s' :
  exact8 (dval amount) →
  applyConfirmedBalanceChange uuidNew dbnow userExists isDeposit b d id amount hash s = (x, s') →
  same s s' ∧ (x = Ok tt → hash_taken (nullif hash) (txs s) = true)
  ∨ ∃ r, moved_by id (confirmed_type isDeposit) hash (units (dval amount)) s s' r
      ∧ (v_user r ≠ uuid_Nil → posted (confirmed_post isDeposit id (v_user r) amount hash) s s')
      ∧ (x = Ok tt ∨ x = Err ErrIO).
Proof.
  intros He. unfold applyConfirmedBalanceChange. destruct (d_le _ _); [intros [= <- <-]; by left|].
  case_decide; [intros [= <- <-]; by left|].
  intros [(Hs & e & ->)|([] & Hm & Hx)]%inTx_spec; [by left|].
  apply bind_Tx_Ok in Hm as (n & s1 & Hi & Hm). destruct (Z.eqb_spec n 0) as [->|Hn].
  { injection Hm as <-. left.
    apply insert_row_spec in Hi as (t & Ht%tx_row_Ok & [(_ & -> & _ & Hh)|(? & _)]); [|done].
    destruct Ht as (_ & _ & _ & Eh & _). by rewrite Eh in Hh. }
  right. apply bind_Tx_Ok in Hm as ([] & s2 & Hu & Hm).
  destruct (insert_update _ id (confirmed_type isDeposit) true _ hash (units (dval amount)) _ _ _ _ Hi Hn Hu)
    as (r & r' & Hr' & Hus & El & Hmv).
  - intros t (? & Hty & ? & ? & _)%tx_row_Ok. by rewrite Hty.
  - intros r r' t Hf (_ & Ety & Ea & _)%tx_row_Ok. destruct isDeposit.
    + apply credit_Ok in Hf as (E1 & E2 & E3 & _); [|done].
      destruct (delta_deposit t Ety) as [-> ->]. by rewrite Ea.
    + apply debit_Ok in Hf as (E1 & E2 & E3 & _); [|done].
      destruct (delta_withdrawal t Ety) as [-> ->]. rewrite Ea, E1, E2, E3. split; [lia|]. split; [lia|done].
  - apply bind_Tx_Ok in Hm as (owner & s3 & Ho & Hm). unfold readTx in Ho. rewrite Hr' in Ho.
    injection Ho as <- <-. exists r. simpl in Hm. rewrite Hus in Hm.
    destruct (Z.eqb_spec (v_user r) uuid_Nil) as [Hnil|Hnil].
    + apply bind_Tx_Ok in Hm as (u & s4 & (_ & Hv4 & Ht4)%inLedger_Ok & Hm).
      split; [|done]. apply best_effort_ledger in Hm as [Hv5 Ht5]. apply Hmv; congruence.
    + apply inLedger_Ok in Hm as (Hp & Hv & Ht). split; [by apply Hmv|]. split; [|done]. intros _.
      exists (vaultExists s2). rewrite <-El. unfold confirmed_post. destruct isDeposit; exact Hp.
Qed.

Lemma harvested_Ok compounded n f r r' :
  exact8 n → harvested dbnow compounded n f r = Ok r' →
  v_total r' = v_total r + (if compounded then units n else 0)
  ∧ v_balance r' = v_balance r + (if compounded then units n else - units n)
  ∧ v_user r' = v_user r ∧ v_status r' = v_status r.
Proof.
  intros Hn. unfold harvested.
  destruct (numeric 48 (if compounded then col (v_total r) + n else _)%Q) as [t|] eqn:Et; simpl; [|done].
  destruct (numeric 48 (if compounded then col (v_balance r) + n else _)%Q) as [b|] eqn:Eb; simpl; [|done].
  destruct (numeric 48 (greatest0 _)); simpl; [|done].
  destruct (numeric 48 (col (v_fees r) + f)%Q); simpl; [|done]. intros [= <-]. simpl.
  apply numeric_Ok in Et as ->. apply numeric_Ok in Eb as ->.
  destruct compounded; rewrite ?units_add, ?units_sub, ?units_col by done; repeat split; lia.
Qed.

Lemma RecordHarvest_spec b d (i : HarvestRecordInput) s x s' :
  exact8 (dval (hr_net i)) → (is_Some (hr_shares i) ↔ hr_compounded i = true) →
  RecordHarvest uuidNew dbnow userExists b d i s = (x, s') →
  same s s' ∧ (∃ e, x = Err e)
  ∨ ∃ r, moved_by (hr_vault i) "harvest" (hr_hash i) (units (dval (hr_net i))) s s' r
      ∧ (∀ r', vaults s' !! hr_vault i = Some r' →
          v_balance r' = v_balance r + (if hr_compounded i then 1 else -1) * units (dval (hr_net i)))
      ∧ posted (λ vx, postHarvestLedgerTx uuidNew dbnow userExists vx (hr_vault i) (hr_user i) (hr_net i)
                        (hr_fee i) "blend" (hr_hash i)) s s'
      ∧ (x = Ok tt ∨ x = Err ErrIO).
Proof.
  intros He Hsh. unfold RecordHarvest. destruct (_ || _); [intros [= <- <-]; left; split; [done|eauto]|].
  intros [?|([] & Hm & Hx)]%inTx_spec; [by left|]. right.
  apply bind_Tx_Ok in Hm as ([] & s1 & Hu & Hm). apply bind_Tx_Ok in Hm as (n & s2 & Hi & Hm).
  apply inLedger_Ok in Hm as (Hp & Hv & Ht).
  assert (Hn : n ≠ 0).
  { intros ->. by apply insert_row_spec in Hi as (t & _ & [(_ & _ & ? & _)|(? & _)]). }
  assert (Hrow : ∀ t, tx_row dbnow (hr_vault i) (Some (hr_user i)) "harvest" (hr_net i) (hr_hash i)
      (hr_shares i) None (Some (hr_fee i)) = Ok t →
    t_amount t = units (dval (hr_net i))
    ∧ delta t = (if hr_compounded i then units (dval (hr_net i)) else - units (dval (hr_net i)))
    ∧ paid_in t = (if hr_compounded i then units (dval (hr_net i)) else 0)).
  { intros t (_ & Ety & Ea & _ & Hs)%tx_row_Ok. unfold delta, paid_in. rewrite !Ety. simpl. rewrite <-Ea.
    split; [done|]. destruct (t_shares t) as [z|], (hr_compounded i); simpl; try done; exfalso.
    - assert (false = true) by (apply Hsh, Hs; done). done.
    - assert (is_Some (@None Z)) as [? ?] by (apply Hs, Hsh; done). done. }
  pose proof Hi as Hrec. apply insert_row_spec in Hrec as (t & Et & [(? & _)|(_ & _ & E2)]); [done|].
  destruct (update_insert _ (hr_vault i) "harvest" false _ (hr_hash i) (units (dval (hr_net i))) _ _ _ _ Hu Hi Hn)
    as (r & El & Hmv).
  - by intros t' (? & ? & ? & ? & _)%tx_row_Ok.
  - intros r r' t' (E3 & E4 & E5 & _)%harvested_Ok (_ & -> & ->)%Hrow; done.
  - exists r. pose proof (Hmv s' Hv Ht) as Hmoved. split; [done|]. split; [|split; [|done]].
    + intros r' Hr'. destruct Hmoved as (r0 & t0 & HB & _). pose proof (bk_balance _ _ _ _ _ _ HB) as E.
      rewrite (bk_vaults _ _ _ _ _ _ HB), lookup_insert_eq in Hr'. injection Hr' as <-. simpl in E.
      assert (t0 = t) as ->.
      { pose proof (bk_txs _ _ _ _ _ _ HB) as Etx. rewrite Ht, E2 in Etx.
        apply update_one_Ok in Hu as (? & ? & _ & _ & _ & ->). simpl in Etx.
        by apply app_inv_head in Etx as [= ->]. }
      destruct (Hrow t Et) as (_ & Ed & _). rewrite E, Ed. destruct (hr_compounded i); lia.
    + eexists. rewrite <-El. exact Hp.
Qed.

(** The two legs of a rebalance carry the same hash, which is unique. *)
Lemma RecordRebalance_hash b d (i : RebalanceRecordInput) w p s x s' :
  rec_hash w = rec_hash p → rec_hash w ≠ ""%string →
  RecordRebalance uuidNew dbnow userExists b d i w p s = (x, s') → same s s' ∧ ∃ e, x = Err e.
Proof.
  intros E Hne. unfold RecordRebalance. intros [?|([] & Hm & Hx)]%inTx_spec; [done|]. exfalso.
  apply bind_Tx_Ok in Hm as (? & s1 & _ & Hm). apply bind_Tx_Ok in Hm as (n & s2 & Hi & Hm).
  apply bind_Tx_Ok in Hm as (k & s3 & Hu & Hm). apply bind_Tx_Ok in Hm as (n2 & s4 & Hi2 & _).
  assert (Hnull : nullif (rec_hash w) = Some (rec_hash w)) by (unfold nullif; by case_decide).
  apply insert_row_spec in Hi as (t & (_ & _ & _ & Eh & _)%tx_row_Ok & [(_ & _ & ? & _)|(_ & _ & ->)]); [done|].
  assert (Htx : txs s3 = txs s1 ++ [t]).
  { apply update_spec in Hu as [(_ & -> & _)|(_ & ? & ? & _ & _ & _ & ->)]; done. }
  apply insert_row_spec in Hi2 as (t2 & (_ & _ & _ & Eh2 & _)%tx_row_Ok & [(_ & _ & ? & _)|(_ & (_ & Hf & _) & _)]);
    [done|].
  apply not_true_iff_false in Hf. apply Hf. apply hash_taken_spec. rewrite Eh2, <-E, Hnull.
  exists (rec_hash w). split; [done|]. rewrite Htx. unfold hashes. rewrite omap_app, elem_of_app. right.
  simpl. rewrite Eh, Hnull. by left.
Qed.

(** An insert without ON CONFLICT has added its row. *)
Lemma insert_plain row s n s' :
  insert_row userExists false row s = (Ok n, s') →
  n ≠ 0 ∧ ∃ t, row = Ok t ∧ insertable userExists t s ∧ s' = with_txs (txs s ++ [t]) s.
Proof.
  intros (t & -> & [(_ & _ & ? & _)|(-> & Hi & ->)])%insert_row_spec; [done|]. split; [done|]. by exists t.
Qed.

(** Moves of one vault in a row. *)
Lemma booked_trans s s1 s2 id r r1 r2 ts ts' :
  booked s s1 id r r1 ts → booked s1 s2 id r1 r2 ts' → booked s s2 id r r2 (ts ++ ts').
Proof.
  intros [A1 A2 A3 A4 A5 A6 A7 A8 A9 A10] [B1 B2 B3 B4 B5 B6 B7 B8 B9 B10]. split; try done.
  - rewrite A5 in B4. by rewrite contract_taken_insert in B4.
  - by rewrite B5, A5, insert_insert_eq.
  - by rewrite B6, A6, app_assoc.
  - by apply Forall_app.
  - intros ?. by apply B8, A8.
  - rewrite B9, A9, foldr_app, <-Z.add_assoc. f_equal. clear.
    induction ts as [|t ts IH]; simpl; lia.
  - rewrite B10, A10, foldr_app, <-Z.add_assoc. f_equal. clear.
    induction ts as [|t ts IH]; simpl; lia.
Qed.

(** A row that accounts for nothing. *)
Lemma booked_row s s1 s2 id r r1 ts t :
  booked s s1 id r r1 ts → insertable userExists t s1 → t_vault t = id → t_type t = "rebalance"%string →
  vaults s2 = vaults s1 → txs s2 = txs s1 ++ [t] → booked s s2 id r r1 (ts ++ [t]).
Proof.
  intros [A1 A2 A3 A4 A5 A6 A7 A8 A9 A10] (_ & Hh & _) Ht Hty Hv Hx.
  assert (delta t = 0 ∧ paid_in t = 0) as [E1 E2] by (unfold delta, paid_in; by rewrite !Hty).
  split; try done.
  - by rewrite Hv.
  - by rewrite Hx, A6, app_assoc.
  - apply Forall_app. split; [done|by constructor].
  - intros ?. rewrite Hx. by apply hash_new, A8.
  - rewrite A9, foldr_app. simpl. rewrite E1. done.
  - rewrite A10, foldr_app. simpl. rewrite E2. done.
Qed.

Lemma late_row id row ty s s' n (Hrow : ∀ t, row = Ok t → t_vault t = id ∧ t_type t = ty) :
  insert_row userExists false row s = (Ok n, s') → (∃ r, vaults s !! id = Some r ∧ live r = false) →
  ∃ t, late s s' id [t] ∧ ledger s' = ledger s.
Proof.
  intros (_ & t & E & (_ & Hh & _) & ->)%insert_plain Hdead. exists t. split; [|done]. destruct (Hrow _ E).
  split; try done; [by constructor|]. intros ?. by apply hash_new.
Qed.

Lemma late_trans s s1 s2 id ts ts' : late s s1 id ts → late s1 s2 id ts' → late s s2 id (ts ++ ts').
Proof.
  intros [A1 A2 A3 A4 A5] [B1 B2 B3 B4 B5]. split; [done|congruence| |by apply Forall_app|by auto].
  by rewrite B3, A3, app_assoc.
Qed.

(** What a rebalance that is recorded does to its vault. *)
Definition rebalanced (id : UUID) (w p : Z) (s s' : Store) : Prop :=
  (∃ r r' ts, booked s s' id r r' ts ∧ v_user r' = v_user r ∧ v_balance r' = v_balance r - w + p
     ∧ v_total r' = v_total r + p)
  ∨ ∃ ts, late s s' id ts.

(** The body of the transaction, on a live vault: three rows, two of them moves. *)
Lemma rebalance_live (i : RebalanceRecordInput) w p s r n1 s1 n2 s2 n3 s3 n4 s4 n5 s5 :
  let id := rb_vault i in
  exact8 (dval (rec_amount w)) → exact8 (dval (rec_amount p)) →
  vaults s !! id = Some r → live r = true →
  update (by_id id) (debit dbnow (dval (rec_amount w))) s = (Ok n1, s1) →
  insert_row userExists false (record_row dbnow id "withdrawal" w) s1 = (Ok n2, s2) →
  update (by_id id) (credit dbnow (dval (rec_amount p))) s2 = (Ok n3, s3) →
  insert_row userExists false (record_row dbnow id "deposit" p) s3 = (Ok n4, s4) →
  insert_row userExists false (tx_row dbnow id (Some (rb_user i)) "rebalance" (rb_amount i) (rb_hash i)
    None None None) s4 = (Ok n5, s5) →
  ledger s5 = ledger s
  ∧ ∀ s', vaults s' = vaults s5 → txs s' = txs s5 →
    rebalanced id (units (dval (rec_amount w))) (units (dval (rec_amount p))) s s'.
Proof.
  intros id Hw Hp Hr Hl Hu1 Hi2 Hu3 Hi4 Hi5.
  apply (update_live _ _ _ _ _ _ Hr Hl) in Hu1. pose proof Hu1 as Hd.
  apply update_one_Ok in Hd as (q & r1 & Hrw & _ & Hf & Es1).
  assert (q = r) as -> by (apply rewrites_live in Hrw; congruence).
  destruct (update_insert _ id "withdrawal" false _ (rec_hash w) (units (dval (rec_amount w))) _ _ _ _ Hu1 Hi2)
    as (r0 & El1 & Hm1); [by apply insert_plain in Hi2 as [? _]| | |].
  { by intros t (? & ? & ? & ? & _)%tx_row_Ok. }
  { intros q q' t (E1 & E2 & E3 & _)%debit_Ok (_ & Ety & Ea & _)%tx_row_Ok; [|done].
    destruct (delta_withdrawal t Ety) as [-> ->]. rewrite Ea, E1, E2, E3. split; [lia|]. split; [lia|done]. }
  destruct (Hm1 s2 eq_refl eq_refl) as (r1' & t1 & HB1 & _ & Hus1 & Hty1 & Ham1 & _).
  assert (r1' = r1 ∧ r0 = r) as [-> ->].
  { pose proof (bk_vaults _ _ _ _ _ _ HB1) as Ev. pose proof (bk_row _ _ _ _ _ _ HB1).
    apply insert_plain in Hi2 as (_ & ? & _ & _ & ->). subst s1. simpl in Ev.
    apply (f_equal (lookup id)) in Ev. rewrite !lookup_insert_eq in Ev. split; congruence. }
  assert (Hr1 : vaults s2 !! id = Some r1) by (by rewrite (bk_vaults _ _ _ _ _ _ HB1), lookup_insert_eq).
  assert (Hl1 : live r1 = true) by (by apply set_money_Ok in Hf as (_ & _ & -> & _)).
  apply (update_live _ _ _ _ _ _ Hr1 Hl1) in Hu3.
  destruct (update_insert _ id "deposit" false _ (rec_hash p) (units (dval (rec_amount p))) _ _ _ _ Hu3 Hi4)
    as (r0 & El2 & Hm2); [by apply insert_plain in Hi4 as [? _]| | |].
  { by intros t (? & ? & ? & ? & _)%tx_row_Ok. }
  { intros q q' t (E1 & E2 & E3 & _)%credit_Ok (_ & Ety & Ea & _)%tx_row_Ok; [|done].
    destruct (delta_deposit t Ety) as [-> ->]. by rewrite Ea. }
  destruct (Hm2 s4 eq_refl eq_refl) as (r2 & t2 & HB2 & _ & Hus2 & Hty2 & Ham2 & _).
  assert (r0 = r1) as -> by (pose proof (bk_row _ _ _ _ _ _ HB2); congruence).
  apply insert_plain in Hi5 as (_ & t3 & (Et3 & Ety3 & _)%tx_row_Ok & Hi & ->). split; [simpl; congruence|].
  intros s' Hv Hx. left. exists r, r2, (([t1] ++ [t2]) ++ [t3]).
  pose proof (booked_trans _ _ _ _ _ _ _ _ _ HB1 HB2) as HB.
  split; [by eapply booked_row|]. split; [congruence|].
  pose proof (bk_balance _ _ _ _ _ _ HB) as Eb. pose proof (bk_total _ _ _ _ _ _ HB) as Et. simpl in Eb, Et.
  destruct (delta_withdrawal t1 Hty1) as [D1 P1], (delta_deposit t2 Hty2) as [D2 P2].
  rewrite D1, D2, Ham1, Ham2 in Eb. rewrite P1, P2, Ham2 in Et. split; lia.
Qed.

(** On a deleted vault only the rows are left. *)
Lemma rebalance_dead (i : RebalanceRecordInput) w p s r n1 s1 n2 s2 n3 s3 n4 s4 n5 s5 :
  let id := rb_vault i in
  vaults s !! id = Some r → live r = false →
  update (by_id id) (debit dbnow (dval (rec_amount w))) s = (Ok n1, s1) →
  insert_row userExists false (record_row dbnow id "withdrawal" w) s1 = (Ok n2, s2) →
  update (by_id id) (credit dbnow (dval (rec_amount p))) s2 = (Ok n3, s3) →
  insert_row userExists false (record_row dbnow id "deposit" p) s3 = (Ok n4, s4) →
  insert_row userExists false (tx_row dbnow id (Some (rb_user i)) "rebalance" (rb_amount i) (rb_hash i)
    None None None) s4 = (Ok n5, s5) →
  ledger s5 = ledger s ∧ ∃ ts, late s s5 id ts.
Proof.
  intros id Hr Hl Hu1 Hi2 Hu3 Hi4 Hi5.
  assert (Hno : ∀ f (q : Store) n q', vaults q = vaults s → update (by_id id) f q = (Ok n, q') → q' = q).
  { intros f q n q' Hq [(_ & -> & _)|(_ & r0 & r' & Hw%rewrites_live & Hl0 & _)]%update_spec; [done|].
    rewrite Hq in Hw. congruence. }
  apply Hno in Hu1 as ->; [|done].
  apply (late_row id _ "withdrawal") in Hi2 as (t1 & L1 & E1); [|by intros t (? & ? & _)%tx_row_Ok|by exists r].
  pose proof (la_vaults _ _ _ _ L1) as V1. apply Hno in Hu3 as ->; [|done].
  apply (late_row id _ "deposit") in Hi4 as (t2 & L2 & E2);
    [|by intros t (? & ? & _)%tx_row_Ok|exists r; by rewrite V1].
  pose proof (la_vaults _ _ _ _ L2) as V2.
  apply (late_row id _ "rebalance") in Hi5 as (t3 & L3 & E3);
    [|by intros t (? & ? & _)%tx_row_Ok|exists r; by rewrite V2, V1].
  split; [congruence|]. eexists. eapply late_trans; [by eapply late_trans|done].
Qed.

Lemma late_ext s s1 s' id ts : late s s1 id ts → vaults s' = vaults s1 → txs s' = txs s1 → late s s' id ts.
Proof. intros [A1 A2 A3 A4 A5] Hv Hx. split; rewrite ?Hv, ?Hx; done. Qed.

Lemma RecordRebalance_spec b d (i : RebalanceRecordInput) w p s x s' :
  exact8 (dval (rec_amount w)) → exact8 (dval (rec_amount p)) →
  RecordRebalance uuidNew dbnow userExists b d i w p s = (x, s') →
  same s s' ∧ (∃ e, x = Err e)
  ∨ rebalanced (rb_vault i) (units (dval (rec_amount w))) (units (dval (rec_amount p))) s s'
    ∧ posted (λ vx, postRebalanceLedgerTx uuidNew dbnow userExists vx (rb_vault i) (rb_from i) (rb_to i)
                      (rb_amount i) (rb_hash i)) s s'
    ∧ (x = Ok tt ∨ x = Err ErrIO).
Proof.
  intros Hw Hp. unfold RecordRebalance. intros [?|([] & Hm & Hx)]%inTx_spec; [by left|]. right.
  apply bind_Tx_Ok in Hm as (n1 & s1 & Hu1 & Hm). apply bind_Tx_Ok in Hm as (n2 & s2 & Hi2 & Hm).
  apply bind_Tx_Ok in Hm as (n3 & s3 & Hu3 & Hm). apply bind_Tx_Ok in Hm as (n4 & s4 & Hi4 & Hm).
  apply bind_Tx_Ok in Hm as (n5 & s5 & Hi5 & Hm). apply inLedger_Ok in Hm as (Hpost & Hv & Ht).
  assert (∃ r, vaults s !! rb_vault i = Some r) as [r Hr].
  { pose proof Hi2 as (_ & t & (Et & _)%tx_row_Ok & (_ & _ & [r1 Hr1]) & _)%insert_plain. rewrite Et in Hr1.
    apply update_spec in Hu1 as [(_ & -> & _)|(_ & r0 & r' & Hw0%rewrites_live & _)]; by eexists. }
  destruct (live r) eqn:Hl.
  - destruct (rebalance_live i w p _ _ _ _ _ _ _ _ _ _ _ _ Hw Hp Hr Hl Hu1 Hi2 Hu3 Hi4 Hi5) as [El Hreb].
    split; [by apply Hreb|]. split; [|done]. eexists. rewrite <-El. exact Hpost.
  - destruct (rebalance_dead i w p _ _ _ _ _ _ _ _ _ _ _ _ Hr Hl Hu1 Hi2 Hu3 Hi4 Hi5) as [El [ts HL]].
    split; [right; exists ts; by eapply late_ext|]. split; [|done]. eexists. rewrite <-El. exact Hpost.
Qed.

(** Statements that leave the money of a row alone. *)
Definition frame_only (f : VaultRow → result PgError VaultRow) : Prop :=
  ∀ r r', f r = Ok r' → v_balance r' = v_balance r ∧ v_total r' = v_total r ∧ v_user r' = v_user r.

Lemma exec_one_spec b d id f s x s' :
  frame_only f → exec_one b d id f s = (x, s') →
  (same s s' ∧ ∃ e, x = Err e) ∨ (∃ r r', booked s s' id r r' [] ∧ live r = true ∧ f r = Ok r' ∧ v_user r' = v_user r
     ∧ ledger s' = ledger s).
Proof.
  intros Hf. unfold exec_one. intros [?|([] & (r & r' & Hw & Hl & Hfr & ->)%update_one_Ok & _)]%inTx_spec;
    [by left|]. right. destruct (Hf _ _ Hfr) as (? & ? & ?). exists r, r'. split; [|done].
  by apply book_none.
Qed.

(** ** Events *)

Context (unicode_lower : string → string) (NewFromString : string → option D)
  (otherTables : indexedEvent → result VaultErr unit).

#[local] Abbreviation event_amount := (extractEventAmountUnits NewFromString).
#[local] Abbreviation kind := (eventType unicode_lower).

Definition deposit_kind (e : indexedEvent) : Prop := kind e = "deposit"%string.
Definition withdrawal_kind (e : indexedEvent) : Prop := kind e ∈ ["withdraw"; "withdrawal"]%string.
Definition harvest_kind (e : indexedEvent) : Prop :=
  kind e ∈ ["harvest"; "harvested"; "yield_harvest"]%string.

(** A contract has at most one live vault. *)
Lemma contract_rows s c :
  money_inv s →
  let l := List.filter (λ p : UUID * VaultRow, by_contract c p.1 p.2) (map_to_list (vaults s)) in
  l = [] ∨ ∃ id r, l = [(id, r)] ∧ vaults s !! id = Some r ∧ live r = true
    ∧ ∀ i r', vaults s !! i = Some r' → by_contract c i r' = true → i = id.
Proof.
  intros HI l. destruct l as [|[id r] l'] eqn:El; [by left|]. right.
  assert (Hin : ∀ p, p ∈ l ↔ vaults s !! p.1 = Some p.2 ∧ by_contract c p.1 p.2 = true)
    by (intros p; apply (filtered_In (λ p : UUID * VaultRow, by_contract c p.1 p.2))).
  assert (Hc : ∀ i r', by_contract c i r' = true ↔ v_contract r' = c ∧ live r' = true).
  { intros i r'. unfold by_contract. by rewrite andb_true_iff, bool_decide_eq_true. }
  destruct (proj1 (Hin (id, r)) ltac:(rewrite El; left)) as [Hr Hb]. cbn [fst snd] in Hr, Hb.
  assert (Hu : ∀ i r', vaults s !! i = Some r' → by_contract c i r' = true → i = id).
  { intros i r' Hi [Ec Hl]%Hc. apply Hc in Hb as [Ec' Hl'].
    apply (mi_contract _ HI i id r' r); congruence. }
  exists id, r. split; [|split; [done|split; [by apply (Hc id r)|done]]].
  rewrite <-El. subst l. rewrite (filter_one (by_contract c) _ id) by done. by rewrite Hr, Hb.
Qed.

Lemma bind_raw {A B} (m : Store → result PgError A * Store) (f : A → Tx B) s b s' :
  (rawStmt m ≫= f) s = (Ok b, s') → ∃ a s1, m s = (Ok a, s1) ∧ f a s1 = (Ok b, s').
Proof.
  intros (a & s1 & E & H)%bind_Tx_Ok. unfold rawStmt in E.
  destruct (m s) as [[a'|] s2]; [|done]. injection E as -> ->. eauto.
Qed.

Lemma raw_update_spec e f s u s' :
  money_inv s → raw_update e f s = (Ok u, s') →
  s' = s ∨ ∃ id r r', rewrites id r r' (vaults s) ∧ by_contract (ev_ContractID e) id r = true
    ∧ f r = Ok r' ∧ s' = with_vaults (<[id := r']> (vaults s)) s.
Proof.
  intros HI (n & s1 & E & H)%bind_raw. injection H as <- <-.
  destruct (contract_rows s (ev_ContractID e) HI) as [Hl|(id & r & Hl & Hr & Hlive & Hu)].
  - left. unfold update_vaults in E. rewrite Hl in E. simpl in E. injection E as <- <-. by destruct s.
  - destruct (update_vaults_one _ _ id _ _ _ Hu E) as [(_ & -> & _)|(_ & r0 & r' & ? & ? & ? & ->)]; [by left|].
    right. by exists id, r0, r'.
Qed.

(** A hash claimed for the vault of the contract, or nothing. *)
Lemma claim_spec e ty (a : D) s c s' :
  money_inv s → TrimSpace (ev_TxHash e) ≠ ""%string →
  claimBalanceTxHash dbnow e ty a s = (Ok c, s') →
  c = false ∧ s' = s
  ∨ c = true ∧ ∃ id r t, vaults s !! id = Some r ∧ by_contract (ev_ContractID e) id r = true
      ∧ (∀ i r', vaults s !! i = Some r' → by_contract (ev_ContractID e) i r' = true → i = id)
      ∧ t_vault t = id ∧ t_type t = ty ∧ t_amount t = units (dval a)
      ∧ t_hash t = Some (TrimSpace (ev_TxHash e)) ∧ hash_taken (t_hash t) (txs s) = false
      ∧ 0 < units (dval a)
      ∧ s' = with_txs (txs s ++ [t]) s.
Proof.
  intros HI Hne. unfold claimBalanceTxHash. rewrite decide_False by done.
  intros (n & s1 & E & H)%bind_raw. injection H as <- <-.
  unfold claim_rows in E. destruct (numeric 48 (dval a)) as [z|] eqn:Ez; simpl in E; [|done].
  destruct (contract_rows s (ev_ContractID e) HI) as [Hl|(id & r & Hl & Hr & Hlive & Hu)].
  - rewrite Hl in E. injection E as <- <-. by left.
  - rewrite Hl in E. simpl in E. destruct (insert_tx _ _ _ _) as [[k|] s2] eqn:Ei; [|done].
    injection E as <- <-.
    pose proof (insert_row_spec (D:=D) (λ _, true) true (Ok (mkTxRow id None ty z (Some (TrimSpace (ev_TxHash e)))
      None None None dbnow)) s (Ok k) s2) as Hs.
    unfold insert_row, stmt in Hs. rewrite Ei in Hs.
    destruct (Hs eq_refl) as (t & [= <-] & [(-> & -> & _)|(-> & (Hpos & Hh & _) & ->)]); [by left|].
    right. split; [done|]. exists id, r. eexists. split; [done|]. split; [|split; [done|]].
    + assert (Hin : (id, r) ∈ List.filter (λ p : UUID * VaultRow, by_contract (ev_ContractID e) p.1 p.2)
        (map_to_list (vaults s))) by (rewrite Hl; left).
      by apply (filtered_In (λ p : UUID * VaultRow, by_contract (ev_ContractID e) p.1 p.2)) in Hin as [_ ?].
    + simpl in *. rewrite <-(numeric_Ok _ _ _ Ez). by repeat split.
Qed.

(** What an event of the chain does to the tables of the vaults. *)
Definition event_moved (e : indexedEvent) (s s' : Store) : Prop :=
  ledger s' = ledger s
  ∧ (same s s'
     ∨ (kind e ∈ ["pause"; "unpause"]%string
        ∧ ∃ id r r', booked s s' id r r' [] ∧ v_user r' = v_user r ∧ live r = true)
     ∨ ∃ id r, by_contract (ev_ContractID e) id r = true ∧
        ((deposit_kind e ∧ ∃ a, event_amount e = Some a ∧
            moved_by id "deposit" (TrimSpace (ev_TxHash e)) (units (dval a)) s s' r)
         ∨ (withdrawal_kind e ∧ ∃ a, event_amount e = Some a ∧
            moved_by id "withdrawal" (TrimSpace (ev_TxHash e)) (units (dval a)) s s' r))).

(** An event whose move the transactions table can account for: it carries the
    hash of its transaction and an amount of at most eight places, and it is
    not a harvest. *)
Definition accounted (e : indexedEvent) : Prop :=
  ¬ harvest_kind e
  ∧ (deposit_kind e ∨ withdrawal_kind e →
     TrimSpace (ev_TxHash e) ≠ ""%string ∧ ∀ a, event_amount e = Some a → exact8 (dval a)).

Lemma move_balance_spec e ty f s u s' :
  money_inv s → TrimSpace (ev_TxHash e) ≠ ""%string →
  (∀ a r r' t, event_amount e = Some a → f (dval a) r = Ok r' → t_type t = ty →
     t_amount t = units (dval a) →
     v_balance r' = v_balance r + delta t ∧ v_total r' = v_total r + paid_in t ∧ v_user r' = v_user r) →
  move_balance NewFromString dbnow e ty f s = (Ok u, s') →
  ledger s' = ledger s ∧
  (same s s' ∨ ∃ id r a, by_contract (ev_ContractID e) id r = true ∧ event_amount e = Some a ∧
      moved_by id ty (TrimSpace (ev_TxHash e)) (units (dval a)) s s' r).
Proof.
  intros HI Hne Hf. unfold move_balance. destruct (event_amount e) as [a|] eqn:Ea; [|done].
  intros (c & s1 & Hc & Hm)%bind_Tx_Ok.
  destruct (claim_spec _ _ _ _ _ _ HI Hne Hc)
    as [(-> & ->)|(-> & id & r & t & Hr & Hb & Hu & Ht & Hty & Ham & Hh & Hfree & Hpos & ->)].
  { injection Hm as <- <-. split; [done|by left]. }
  apply bind_raw in Hm as (n & s2 & Hup & Hm). injection Hm as <- <-.
  assert (Hl : live r = true) by (unfold by_contract in Hb; by apply andb_true_iff in Hb as [_ ?]).
  destruct (update_vaults_one (by_contract (ev_ContractID e)) _ id (with_txs (txs s ++ [t]) s) _ _ Hu Hup)
    as [(_ & -> & Hno)|(_ & r0 & r' & Hw & _ & Hfr & ->)].
  { simpl in Hno. by rewrite (Hno r Hr) in Hb. }
  split; [done|]. right. simpl in Hw.
  assert (r0 = r) as -> by (apply rewrites_live in Hw; congruence).
  destruct (Hf a r r' t eq_refl Hfr Hty Ham) as (E1 & E2 & E3).
  exists id, r, a. split; [done|]. split; [done|]. exists r', t.
  assert (Hnl : nullif (TrimSpace (ev_TxHash e)) = Some (TrimSpace (ev_TxHash e))) by (unfold nullif; by case_decide).
  rewrite Hnl. split; [by apply book_one|]. by rewrite <-Hh.
Qed.

Lemma event_spec e s u s' :
  money_inv s → accounted e →
  applyEventMutation unicode_lower NewFromString dbnow otherTables e s = (Ok u, s') → event_moved e s s'.
Proof.
  intros HI [Hnh Hacc]. unfold applyEventMutation, event_moved.
  assert (Hst : ∀ st, kind e ∈ ["pause"; "unpause"]%string →
    raw_update e (set_status dbnow st) s = (Ok u, s') → event_moved e s s').
  { intros st Hk [->|(id & r & r' & Hw & Hb & [= <-] & ->)]%raw_update_spec; [..|done].
    - split; [done|]. by left.
    - split; [done|]. right. left. split; [done|]. assert (Hl : live r = true) by (unfold by_contract in Hb; by apply andb_true_iff in Hb as [_ ?]).
      exists id, r. eexists. split; [by apply book_none|]. by split. }
  case_decide as E1; [apply Hst; rewrite E1; by left|].
  case_decide as E2; [apply Hst; rewrite E2; right; by left|].
  case_decide as E3.
  { destruct (Hacc (or_introl E3)) as [Hne He]. intros H.
    apply move_balance_spec in H as [Hl [Hs|(id & r & a & Hb & Ha & Hm)]]; [by split; [|left]| |done|done|].
    - split; [done|]. right. right. exists id, r. split; [done|]. left. split; [done|]. by exists a.
    - intros a r r' t Ha (E4 & E5 & E6 & _)%credit_Ok Hty Ham; [|by apply He].
      destruct (delta_deposit t Hty) as [-> ->]. by rewrite Ham. }
  case_decide as E4.
  { destruct (Hacc (or_intror E4)) as [Hne He]. intros H.
    apply move_balance_spec in H as [Hl [Hs|(id & r & a & Hb & Ha & Hm)]]; [by split; [|left]| |done|done|].
    - split; [done|]. right. right. exists id, r. split; [done|]. right. split; [done|]. by exists a.
    - intros a r r' t Ha (E5 & E6 & E7 & _)%debit_Ok Hty Ham; [|by apply He].
      destruct (delta_withdrawal t Hty) as [-> ->]. rewrite Ham, E5, E6, E7.
      split; [lia|]. split; [lia|done]. }
  rewrite decide_False by done.
  case_decide; [unfold liftTx|]; intros [= _ <-]; (split; [done|]); by left.
Qed.

Lemma applyEvent_spec wc b d e x y x' :
  money_inv (store x) → accounted e →
  applyEvent unicode_lower NewFromString dbnow otherTables wc b d e x = (y, x') →
  store x' = store x ∨ event_moved e (store x) (store x').
Proof.
  intros HI Ha. unfold applyEvent. case_decide; [intros [= _ <-]; by left|].
  destruct (negb b || _); [intros [= _ <-]; by left|].
  unfold markEventProcessed. destruct (processed x !! ev_ID e) as [z|] eqn:Ep.
  - destruct wc; [unfold advanceCursorTx; destruct (_ <? _)|]; intros [= _ <-]; try (by left);
      destruct d as [|[]]; by left.
  - cbn [store processed cursor].
    destruct (applyEventMutation _ _ _ _ e (store x)) as [[u|err] s1] eqn:Em; [|intros [= _ <-]; by left].
    apply (event_spec e _ u) in Em; [|done..].
    destruct wc; [unfold advanceCursorTx; destruct (_ <? _)|]; intros [= _ <-]; try (by left);
      destruct d as [|[]]; simpl; by auto.
Qed.

(** ** Histories *)

(** The writers: requests of the API, the confirmation worker, and the events
    the indexer takes from the chain. *)
Inductive op :=
| ODeposit (b : bool) (d : dbres) (id : UUID) (r : TransactionRecord (D:=D))
| OWithdrawal (b : bool) (d : dbres) (id : UUID) (r : TransactionRecord (D:=D))
| OHarvest (b : bool) (d : dbres) (i : HarvestRecordInput (D:=D))
| ORebalance (b : bool) (d : dbres) (i : RebalanceRecordInput (D:=D)) (w p : TransactionRecord (D:=D))
| OConfirmed (isDeposit b : bool) (d : dbres) (id : UUID) (amount : D) (hash : string)
| OCreate (b : bool) (d : dbres) (id : UUID) (m : Model (D:=D))
| OUpdate (b : bool) (d : dbres) (id : UUID) (contract : string) (st : VaultStatus)
| OFrequency (b : bool) (d : dbres) (id : UUID) (frequency : string)
| ODelete (b : bool) (d : dbres) (id : UUID)
| OBalances (b : bool) (d : dbres) (id : UUID) (total balance : D)
| OEvent (withCursor b : bool) (d : dbres) (e : indexedEvent).

Definition on_store {A} (m : Tx A) (x : Index) : Index :=
  mkIndex (m (store x)).2 (processed x) (cursor x).

Definition exec (o : op) (x : Index) : Index :=
  match o with
  | ODeposit b d id r => on_store (RecordDeposit uuidNew dbnow userExists b d id r) x
  | OWithdrawal b d id r => on_store (RecordWithdrawal uuidNew dbnow userExists b d id r) x
  | OHarvest b d i => on_store (RecordHarvest uuidNew dbnow userExists b d i) x
  | ORebalance b d i w p => on_store (RecordRebalance uuidNew dbnow userExists b d i w p) x
  | OConfirmed isDeposit b d id amount hash =>
      on_store ((if isDeposit then ApplyConfirmedDeposit uuidNew dbnow userExists
                 else ApplyConfirmedWithdrawal uuidNew dbnow userExists) b d id amount hash) x
  | OCreate b d id m => on_store (CreateVault dbnow userExists b d id m) x
  | OUpdate b d id contract st => on_store (UpdateVault dbnow b d id contract st) x
  | OFrequency b d id f => on_store (UpdateHarvestFrequency dbnow b d id f) x
  | ODelete b d id => on_store (SoftDeleteVault dbnow b d id) x
  | OBalances b d id total balance => on_store (UpdateVaultBalances dbnow b d id total balance) x
  | OEvent wc b d e => (applyEvent unicode_lower NewFromString dbnow otherTables wc b d e x).2
  end.

Definition execs (l : list op) (x : Index) : Index := foldl (λ x o, exec o x) x l.

(** What the callers keep to: amounts of at most eight places, shares exactly
    for a compounded harvest, vaults created empty, no balance written directly
    (nothing calls [UpdateVaultBalances]), and events that the rows can account
    for.  A rebalance has any hashes, or none. *)
Definition fair (o : op) : Prop :=
  match o with
  | ODeposit _ _ _ r | OWithdrawal _ _ _ r => exact8 (dval (rec_amount r))
  | OHarvest _ _ i =>
      exact8 (dval (hr_net i)) ∧ (is_Some (hr_shares i) ↔ hr_compounded i = true)
  | ORebalance _ _ _ w p => exact8 (dval (rec_amount w)) ∧ exact8 (dval (rec_amount p))
  | OConfirmed _ _ _ _ amount _ => exact8 (dval amount)
  | OCreate _ _ _ m => m_total m = d_zero ∧ m_balance m = d_zero ∧ m_user m ≠ uuid_Nil
  | OBalances _ _ _ _ _ => False
  | OEvent _ _ _ e => accounted e
  | _ => True
  end.

(** A vault opened empty. *)
Record created (s s' : Store) (id : UUID) (r : VaultRow) : Prop := {
  cr_new : vaults s !! id = None;
  cr_vaults : vaults s' = <[id := r]> (vaults s);
  cr_txs : txs s' = txs s;
  cr_ledger : ledger s' = ledger s;
  cr_check : check_vault r = Ok tt;
  cr_free : contract_taken id r (vaults s) = false;
  cr_zero : v_balance r = 0 ∧ v_total r = 0 ∧ v_user r ≠ uuid_Nil;
}.

Lemma created_inv s s' id r : money_inv s → created s s' id r → money_inv s'.
Proof.
  intros [H1 H2 H3 H4 H5] [C1 C2 C3 C4 C5 C6 [C7 [C8 _]]]. split; rewrite ?C2, ?C3.
  - done.
  - intros t Ht. apply lookup_insert_is_Some'. right. by apply H2.
  - assert (Hno : Forall (λ t, t_vault t ≠ id) (txs s)).
    { apply Forall_forall. intros t Ht <-. destruct (H2 t Ht) as [? E]. congruence. }
    intros i x [[<- <-]|[_ Hx]]%lookup_insert_Some; [|by apply H3].
    by rewrite !(sum_on_other _ id (txs s)).
  - intros i x [[<- <-]|[_ Hx]]%lookup_insert_Some; [done|by eapply H4].
  - intros i j a b [[<- <-]|[Hi Ha]]%lookup_insert_Some [[<- <-]|[Hj Hb]]%lookup_insert_Some
      La Lb E; [done| | |by eapply H5].
    + symmetry. by eapply contract_free.
    + eapply contract_free; [exact C6|done..].
Qed.

Lemma units_zero : units (dval (d_zero (D:=D))) = 0.
Proof. unfold d_zero. rewrite dval_of_Z. exact (units_col 0). Qed.

Lemma CreateVault_spec b d id m s x s' :
  m_total m = d_zero → m_balance m = d_zero → m_user m ≠ uuid_Nil →
  CreateVault dbnow userExists b d id m s = (x, s') → same s s' ∨ ∃ r, created s s' id r.
Proof.
  intros Ht Hb Hu. unfold CreateVault. intros [(e & Hm & ->)|(u & s1 & Hm & [= <- <-])]%bind_Tx;
    apply inTx_spec in Hm as [[? _]|(u' & Hm & _)]; [by left| |by left|].
  all: right; unfold stmt in Hm; rewrite Ht, Hb in Hm.
  all: destruct (numeric 48 (dval d_zero)) as [t|] eqn:Et; simpl in Hm; [|done].
  all: destruct (numeric 48 (dval (m_yield m))) as [y|]; simpl in Hm; [|done].
  all: destruct (numeric 48 (dval (m_fees m))) as [f|]; simpl in Hm; [|done].
  all: destruct (bool_decide _) eqn:Ex; simpl in Hm; [done|].
  all: unfold write_vault in Hm; destruct (check_vault _) as [[]|] eqn:Ec in Hm; simpl in Hm; [|done].
  all: destruct (contract_taken _ _ _) eqn:Eq in Hm; simpl in Hm; [done|].
  all: destruct (userExists _) in Hm; simpl in Hm; [|done].
  all: injection Hm as <- <-.
  all: apply numeric_Ok in Et; rewrite units_zero in Et; subst t.
  all: eexists; split; try done.
  all: apply bool_decide_eq_false in Ex; by apply eq_None_not_Some.
Qed.

Lemma moved_by_booked id ty hash z s s' r :
  moved_by id ty hash z s s' r → ∃ r' t, booked s s' id r r' [t].
Proof. intros (r' & t & H & _). eauto. Qed.

Inductive outcome (s s' : Store) : Prop :=
| out_same : same s s' → outcome s s'
| out_booked id r r' ts : booked s s' id r r' ts → outcome s s'
| out_created id r : created s s' id r → outcome s s'
| out_late id ts : late s s' id ts → outcome s s'.

Lemma outcome_moved id ty hash z s s' r : moved_by id ty hash z s s' r → outcome s s'.
Proof. intros (r' & t & H)%moved_by_booked. by eapply out_booked. Qed.

Lemma exec_outcome o x : money_inv (store x) → fair o → outcome (store x) (store (exec o x)).
Proof.
  intros HI. destruct o; simpl; intros Hf;
    try match goal with |- outcome _ (?m ?s).2 => destruct (m s) as [y s'] eqn:E; simpl end.
  - apply RecordDeposit_spec in E as [[? _]|(r0 & Hm & _)]; [by apply out_same|by eapply outcome_moved|done].
  - apply RecordWithdrawal_spec in E as [[? _]|(r0 & Hm & _)]; [by apply out_same|by eapply outcome_moved|done].
  - destruct Hf as [He Hs].
    apply RecordHarvest_spec in E as [[? _]|(r0 & Hm & _)]; [by apply out_same|by eapply outcome_moved|done..].
  - destruct Hf as [Hw Hp].
    apply RecordRebalance_spec in E as [[? _]|([(? & ? & ? & ? & _)|[? ?]] & _)];
      [by apply out_same|by eapply out_booked|by eapply out_late|done..].
  - destruct isDeposit; apply applyConfirmed_spec in E as [[? _]|(r0 & Hm & _)];
      try done; first [by apply out_same|by eapply outcome_moved].
  - destruct Hf as (H1 & H2 & H3).
    apply CreateVault_spec in E as [?|[r ?]]; [by apply out_same|by eapply out_created|done..].
  - apply exec_one_spec in E as [[? _]|(r & r' & H & _)]; [by apply out_same|by eapply out_booked|].
    by intros ?? [= <-].
  - apply exec_one_spec in E as [[? _]|(r & r' & H & _)]; [by apply out_same|by eapply out_booked|].
    by intros ?? [= <-].
  - apply exec_one_spec in E as [[? _]|(r & r' & H & _)]; [by apply out_same|by eapply out_booked|].
    by intros ?? [= <-].
  - done.
  - destruct (applyEvent _ _ _ _ _ _ _ _ _) as [y x'] eqn:E. simpl.
    apply applyEvent_spec in E as [->|(_ & [?|[(_ & id & r & r' & H & _)|(id & r & _ & [(_ & a & _ & H)|(_ & a & _ & H)])]])];
      try done; first [by apply out_same|by eapply out_booked|by eapply outcome_moved].
Qed.

Lemma outcome_inv s s' : money_inv s → outcome s s' → money_inv s'.
Proof.
  intros HI [?|????|??|??]; [by eapply same_inv|by eapply booked_inv|by eapply created_inv|by eapply late_inv].
Qed.

Lemma execs_money l x : money_inv (store x) → Forall fair l → money_inv (store (execs l x)).
Proof.
  intros HI HF. revert x HI. induction HF as [|o l Ho HF IH]; intros x HI; simpl; [done|].
  apply IH. by eapply outcome_inv, exec_outcome.
Qed.

(** The tables of a new installation. *)
Definition new_index (led : Ledger.Session) : Index := mkIndex (mkStore ∅ [] led) ∅ None.

Lemma new_index_inv led : money_inv (store (new_index led)).
Proof.
  split; simpl.
  - apply NoDup_nil_2.
  - by intros t ?%not_elem_of_nil.
  - by intros id r ?.
  - by intros id r ?.
  - by intros i j a b ?.
Qed.

Lemma check_vault_Ok r : check_vault r = Ok tt → 0 ≤ v_total r ∧ 0 ≤ v_balance r.
Proof.
  unfold check_vault. destruct (Z.ltb_spec (v_total r) 0), (Z.ltb_spec (v_balance r) 0); done.
Qed.

(** C4: In every history of deposits, withdrawals, harvests, rebalances (with
    and without hashes), confirmations, administration and chain events,
    interleaved in any order and failing at any point, the balance of each live
    vault is the sum of its recorded transactions, its total of deposits the sum
    of what was paid in; of every vault neither is negative, no transaction hash
    is recorded twice, and a contract has at most one live vault.  This is for
    amounts of at most eight decimal places, harvests that carry shares exactly
    when they are compounded, vaults created empty, no direct write of a balance
    (the code has no call of it), and chain events other than harvests whose
    deposits and withdrawals carry a transaction hash: harvest events and events
    without a hash change balances and record no transaction. *)
Theorem vault_books_balance (led : Ledger.Session) (l : list op) :
  Forall fair l →
  let s := store (execs l (new_index led)) in
  NoDup (hashes (txs s))
  ∧ (∀ id r, vaults s !! id = Some r →
      (live r = true → v_balance r = sum_on delta id (txs s) ∧ v_total r = sum_on paid_in id (txs s))
      ∧ 0 ≤ v_balance r ∧ 0 ≤ v_total r)
  ∧ (∀ i j a b, vaults s !! i = Some a → vaults s !! j = Some b → live a = true → live b = true →
      v_contract a = v_contract b → i = j).
Proof.
  intros HF s. destruct (execs_money l _ (new_index_inv led) HF) as [H1 H2 H3 H4 H5].
  split; [done|]. split; [|done]. intros id r Hr. destruct (check_vault_Ok r); eauto.
Qed.

(** ** Spent hashes *)

(** The request or event presents this transaction hash. *)
Definition presents (o : op) (h : string) : Prop :=
  match o with
  | ODeposit _ _ _ r | OWithdrawal _ _ _ r => nullif (rec_hash r) = Some h
  | OHarvest _ _ i => nullif (hr_hash i) = Some h
  | OConfirmed _ _ _ _ _ hash => nullif hash = Some h
  | OEvent _ _ _ e => (deposit_kind e ∨ withdrawal_kind e) ∧ TrimSpace (ev_TxHash e) = h
  | _ => False
  end.

Lemma moved_by_fresh id ty hash z s s' r h :
  moved_by id ty hash z s s' r → nullif hash = Some h → h ∈ hashes (txs s) → False.
Proof.
  intros (r' & t & _ & _ & _ & _ & _ & _ & Hf & _) Hh Hin. apply not_true_iff_false in Hf. apply Hf.
  apply hash_taken_spec. eauto.
Qed.

(** A move that presents a spent hash moves nothing. *)
Lemma exec_spent o x h :
  money_inv (store x) → fair o → presents o h → h ∈ hashes (txs (store x)) →
  same (store x) (store (exec o x)).
Proof.
  intros HI. destruct o; simpl; intros Hf Hp Hin; try done;
    try match goal with |- same _ (?m ?s).2 => destruct (m s) as [y s'] eqn:E; simpl end.
  - apply RecordDeposit_spec in E as [[? _]|(r0 & Hm & _)]; [done|by destruct (moved_by_fresh _ _ _ _ _ _ _ _ Hm Hp)|done].
  - apply RecordWithdrawal_spec in E as [[? _]|(r0 & Hm & _)]; [done|by destruct (moved_by_fresh _ _ _ _ _ _ _ _ Hm Hp)|done].
  - destruct Hf as [He Hs].
    apply RecordHarvest_spec in E as [[? _]|(r0 & Hm & _)]; [done|by destruct (moved_by_fresh _ _ _ _ _ _ _ _ Hm Hp)|done..].
  - destruct isDeposit; (apply applyConfirmed_spec in E as [[? _]|(r0 & Hm & _)]; [done|by destruct (moved_by_fresh _ _ _ _ _ _ _ _ Hm Hp)|done]).
  - destruct (applyEvent _ _ _ _ _ _ _ _ _) as [y x'] eqn:E. simpl. destruct Hp as [Hk Hh].
    destruct (proj2 Hf Hk) as [Hne _].
    assert (Hn : nullif (TrimSpace (ev_TxHash e)) = Some h) by (unfold nullif; case_decide; congruence).
    apply applyEvent_spec in E as [->|(_ & [?|[(Hk' & _)|(id & r & _ & [(_ & a & _ & H)|(_ & a & _ & H)])]])];
      try done; try (by destruct (moved_by_fresh _ _ _ _ _ _ _ _ H Hn)).
    exfalso. clear -Hk Hk'. unfold deposit_kind, withdrawal_kind in Hk.
    rewrite !elem_of_cons, elem_of_nil in Hk, Hk'.
    destruct Hk' as [E|[E|[]]]; rewrite E in Hk; destruct Hk as [?|[?|[?|[]]]]; done.
Qed.

(** Once a transaction hash is recorded, by the API, by the confirmation
    worker or from the chain, whatever presents it again, through any of the
    three, changes no vault, records no transaction and posts nothing to the
    ledger. *)
Theorem spent_hash_moves_nothing (led : Ledger.Session) (l : list op) (o : op) (h : string) :
  Forall fair l → fair o → presents o h →
  let x := execs l (new_index led) in
  h ∈ hashes (txs (store x)) →
  vaults (store (exec o x)) = vaults (store x) ∧ txs (store (exec o x)) = txs (store x)
  ∧ db (ledger (store (exec o x))) = db (ledger (store x)).
Proof. intros HF Ho Hp x Hin. exact (exec_spent o x h (execs_money l _ (new_index_inv led) HF) Ho Hp Hin). Qed.

(** ** What the vault promises of a withdrawal *)

(** A withdrawal that is recorded was taken from a live vault that held at
    least its amount, with a transaction hash never recorded before, lowers
    the balance by exactly the amount, leaves the total of deposits, and has
    posted its double entry; one that is refused has changed nothing. *)
Theorem withdrawal_within_balance b d id (rc : TransactionRecord (D:=D)) s x s' :
  exact8 (dval (rec_amount rc)) → RecordWithdrawal uuidNew dbnow userExists b d id rc s = (x, s') →
  (same s s' ∧ ∃ e, x = Err e)
  ∨ ∃ r r', vaults s !! id = Some r ∧ live r = true ∧ (dval (rec_amount rc) <= col (v_balance r))%Q
      ∧ hash_taken (nullif (rec_hash rc)) (txs s) = false
      ∧ vaults s' = <[id := r']> (vaults s) ∧ v_balance r' = v_balance r - units (dval (rec_amount rc))
      ∧ v_total r' = v_total r ∧ 0 ≤ v_balance r'
      ∧ ∃ vx, postWithdrawalLedgerTx uuidNew dbnow userExists vx id (rec_user rc) (rec_amount rc) (rec_hash rc)
                (ledger s) = (Ok tt, ledger s').
Proof.
  intros He [?|(r & (r' & t & HB & Hl & _ & Hty & Ham & _ & Hh & _) & Hle & Hp & _)]%RecordWithdrawal_spec;
    [by left| |done]. right.
  destruct HB as [B1 _ B2 _ B4 _ _ _ B8 B9], (delta_withdrawal t Hty) as [E1 E2]. simpl in B8, B9.
  rewrite E1, Ham in B8. rewrite E2 in B9. destruct (check_vault_Ok r' B2) as [_ Hnn].
  exists r, r'. split; [done|]. split; [done|]. split; [|split_and!; try done; lia].
  rewrite (exact8_units _ He). unfold col, Qle, unit8. cbn [Qnum Qden]. lia.
Qed.
End Books.
