(* ===== verification/VaultPool.v ===== *)
(** The two records of the money of a vault: its row in the tables of
    [VaultStore], and its asset pool in the ledger, which the repository posts
    to in the same transaction. *)

From S2P Require Import Prelude Sql GoStrings Decimal Vault.
From S2P Require Import Ledger.
From S2P Require Import VaultStore.
From S2P Require Import Indexer.
From S2P Require Import VaultBooks.
Open Scope Z_scope.
Open Scope go_scope.

(** ** Sessions of the ledger that stay ready *)

Section Ready.
Context (uuidNew : nat → UUID) (dbnow : Time) (userExists : UUID → bool).
#[local] Abbreviation ready := (ready uuidNew).

Definition keeps_tx {A} (m : Tx A) : Prop :=
  ∀ s, ready (ledger s) → ready (ledger (m s).2) ∧ (drawn (ledger s) ≤ drawn (ledger (m s).2))%nat.

Lemma ready_later s n : ready s → (drawn s ≤ n)%nat → ready (mkSession (db s) n).
Proof.
  intros [H1 H2 H3] Hn. split; simpl; [|intros k j ?; apply H2; lia|done]. intros k ?. apply H1. lia.
Qed.

Lemma kt_bind {A B} (m : Tx A) (f : A → Tx B) : keeps_tx m → (∀ a, keeps_tx (f a)) → keeps_tx (m ≫= f).
Proof.
  intros Hm Hf s Hs. unfold mbind, Tx_bind. destruct (Hm s Hs) as [Hr Hd].
  destruct (m s) as [[a|e] s1]; [|done]. simpl in *. destruct (Hf a s1 Hr). split; [done|lia].
Qed.

Lemma kt_stays {A} (m : Tx A) : (∀ s, ledger (m s).2 = ledger s) → keeps_tx m.
Proof. intros H s Hs. by rewrite H. Qed.

Lemma kt_ret {A} (a : A) : keeps_tx (mret a). Proof. by apply kt_stays. Qed.
Lemma kt_fail {A} e : keeps_tx (@failTx A e). Proof. by apply kt_stays. Qed.
Lemma kt_read {A} (f : Store → result VaultErr A) : keeps_tx (readTx f). Proof. by apply kt_stays. Qed.

Lemma kt_update w f : keeps_tx (update w f).
Proof. apply kt_stays. intros s. unfold update, stmt, update_vaults. simpl. by destruct (update_all _ _ _). Qed.

Lemma kt_insert oc row : keeps_tx (insert_row userExists oc row).
Proof.
  apply kt_stays. intros s. destruct (insert_row userExists oc row s) as [x s'] eqn:E.
  apply (insert_row_spec (D:=Q)) in E. destruct x as [n|e]; [|by subst].
  by destruct E as (t & _ & [(_ & -> & _)|(_ & _ & ->)]).
Qed.

Lemma kt_inLedger {A} (m : Store → M A) : (∀ s, keeps_ready uuidNew (m s)) → keeps_tx (inLedger m).
Proof.
  intros Hm s Hs. unfold inLedger. pose proof (Hm s _ Hs) as H. by destruct (m s (ledger s)) as [[a|e] l].
Qed.

Lemma kt_best_effort (m : Tx unit) : keeps_tx m → keeps_tx (best_effort m).
Proof.
  intros Hm s Hs. unfold best_effort. specialize (Hm s Hs). destruct (m s) as [[a|e] s1]; [done|].
  by repeat case_match; simplify_eq.
Qed.

Lemma kt_inTx {A} b d (m : Tx A) : keeps_tx m → keeps_tx (inTx b d m).
Proof.
  intros Hm s Hs. unfold inTx. destruct b; simpl; [|done]. destruct (Hm s Hs) as [Hr Hd].
  destruct (m s) as [[a|e] s1]; simpl in *.
  - destruct d as [|[]]; simpl; try done. split; [by apply ready_later|done].
  - split; [by apply ready_later|done].
Qed.

Create HintDb tx_ready.
#[local] Hint Resolve kt_ret kt_fail kt_read kt_update kt_insert : tx_ready.
#[local] Hint Resolve kr_deposit kr_withdrawal kr_harvest kr_rebalance : tx_ready.

Ltac kt :=
  repeat first
    [ progress auto with tx_ready
    | apply (kr_draw uuidNew dbnow userExists)
    | apply kt_inTx
    | match goal with |- keeps_tx (best_effort _) => apply kt_best_effort end
    | apply kt_inLedger; intros ?
    | apply kt_bind; [|intros ?]
    | case_match ].

Section Methods.
Context {D : Type} `{!Decimal D}.

Lemma kt_update_one id f : keeps_tx (update_one id f).
Proof. unfold update_one. kt. Qed.
#[local] Hint Resolve kt_update_one : tx_ready.

Lemma kt_RecordDeposit b d id r : keeps_tx (RecordDeposit uuidNew dbnow userExists b d id r).
Proof. unfold RecordDeposit. kt. Qed.
Lemma kt_RecordWithdrawal b d id r : keeps_tx (RecordWithdrawal uuidNew dbnow userExists b d id r).
Proof. unfold RecordWithdrawal. kt. Qed.
Lemma kt_RecordHarvest b d i : keeps_tx (RecordHarvest uuidNew dbnow userExists b d i).
Proof. unfold RecordHarvest. kt. Qed.
Lemma kt_RecordRebalance b d i w p : keeps_tx (RecordRebalance uuidNew dbnow userExists b d i w p).
Proof. unfold RecordRebalance. kt. Qed.
Lemma kt_confirmed isDeposit b d id a h :
  keeps_tx (applyConfirmedBalanceChange uuidNew dbnow userExists isDeposit b d id a h).
Proof. unfold applyConfirmedBalanceChange. destruct isDeposit; kt. Qed.
Lemma kt_CreateVault b d id m : keeps_tx (CreateVault dbnow userExists b d id m).
Proof.
  unfold CreateVault. apply kt_bind; [|kt]. apply kt_inTx, kt_stays. intros s. unfold stmt. simpl.
  by case_match.
Qed.
Lemma kt_exec_one b d id f : keeps_tx (exec_one b d id f).
Proof. unfold exec_one. kt. Qed.
End Methods.
End Ready.

(** ** The pool of a vault *)

Section Pool.
Context (uuidNew : nat → UUID) (dbnow : Time) (userExists : UUID → bool).
Context {D : Type} `{!Decimal D} `{!DecimalLaws D}.
Context (unicode_lower : string → string) (NewFromString : string → option D)
  (otherTables : indexedEvent → result VaultErr unit).

#[local] Abbreviation op := (op (D:=D)).
#[local] Abbreviation exec := (exec uuidNew dbnow userExists unicode_lower NewFromString otherTables).
#[local] Abbreviation execs := (execs uuidNew dbnow userExists unicode_lower NewFromString otherTables).
#[local] Abbreviation fair := (fair unicode_lower NewFromString).
#[local] Abbreviation ready := (ready uuidNew).

(** A whole number of stroops, below 2^61. *)
Definition whole (a : D) : Prop :=
  ∃ n, (dval a * inject_Z 10000000 == inject_Z n)%Q ∧ Z.abs n < 2 ^ 61.

Lemma whole_spec a : whole a → exact8 (dval a) ∧ small a ∧ units (dval a) = 10 * stroops a.
Proof.
  intros (n & Hn & Hs).
  assert (E : (dval a == col (10 * n))%Q).
  { assert (Hd : (dval a == dval a * inject_Z 10000000 / inject_Z 10000000)%Q) by (field; done).
    rewrite Hd, Hn. unfold col, unit8, Qdiv, Qinv, inject_Z, Qmult, Qeq. cbn [Qnum Qden]. lia. }
  assert (Est : stroops a = n).
  { assert (Hr : (dval (d_round 0 (d_mul a (d_of_Z 10000000))) == inject_Z n)%Q).
    { rewrite dval_round, dval_mul, dval_of_Z, Hn by done.
      rewrite (Qround_at_exact 0 _ n); [reflexivity|]. change (Zpos (pow10 0)) with 1. ring. }
    unfold stroops. rewrite d_intpart_val; rewrite Hr, Qtrunc_int; [done|].
    unfold in_i64, min_i64, max_i64. lia. }
  split; [by eexists|]. unfold small. rewrite Est. split; [done|]. by rewrite E, units_col.
Qed.

(** Moves whose two records agree: whole stroops, harvests that are compounded,
    rebalances that put back what they take, between named protocols, and no
    deposit or withdrawal taken from an event of the chain, which the indexer
    does not post. *)
Definition pooled (o : op) : Prop :=
  fair o ∧
  match o with
  | ODeposit _ _ _ r | OWithdrawal _ _ _ r => whole (rec_amount r)
  | OHarvest _ _ i => hr_compounded i = true ∧ whole (hr_net i) ∧ small (hr_fee i)
  | ORebalance _ _ i w p =>
      rec_amount w = rec_amount p ∧ rb_from i ≠ ""%string ∧ rb_to i ≠ ""%string ∧ small (rb_amount i)
  | OConfirmed _ _ _ _ amount _ => whole amount
  | OEvent _ _ _ e => ¬ deposit_kind unicode_lower e ∧ ¬ withdrawal_kind unicode_lower e
  | _ => True
  end.

(** The balance of a vault in hundred-millionths is ten times its pool in
    stroops; a vault not in the tables has no pool. *)
Definition pool_agrees (s : Store) : Prop :=
  ∀ id, 10 * total (plays (r_pool id)) (db (ledger s)) = default 0 (v_balance <$> vaults s !! id).

Record pool_inv (s : Store) : Prop := {
  pi_money : money_inv s;
  pi_ready : ready (ledger s);
  pi_books : books (db (ledger s));
  pi_owner id r : vaults s !! id = Some r → v_user r ≠ uuid_Nil;
  pi_pool : pool_agrees s;
}.

Lemma pool_elsewhere id other z :
  other ≠ id → (if role_pool other (r_pool id) then z else 0) = 0.
Proof.
  intros Hne. unfold role_pool, r_pool. rewrite bool_decide_eq_true_2 by done. simpl.
  rewrite bool_decide_eq_false_2; [done|]. congruence.
Qed.

Lemma deposit_pool id u z other :
  legs_in (role_pool other) (deposit_legs id u z) = if decide (other = id) then z else 0.
Proof.
  unfold deposit_legs, legs_in. cbn [foldr fst snd]. unfold role_pool, r_user, r_suspense, r_pool. simpl.
  case_decide; case_bool_decide; simplify_eq; lia.
Qed.
Lemma withdrawal_pool id u z other :
  legs_in (role_pool other) (withdrawal_legs id u z) = if decide (other = id) then - z else 0.
Proof.
  unfold withdrawal_legs, legs_in. cbn [foldr fst snd]. unfold role_pool, r_user, r_suspense, r_pool. simpl.
  case_decide; case_bool_decide; simplify_eq; lia.
Qed.
Lemma harvest_pool id u net fee ad other :
  legs_in (role_pool other) (harvest_legs id u net fee ad) = if decide (other = id) then net else 0.
Proof.
  unfold harvest_legs. destruct (Z.eqb_spec net 0), (Z.eqb_spec fee 0), (Z.eqb_spec (net + fee) 0);
    unfold legs_in; cbn [foldr fst snd app]; unfold role_pool, r_user, r_suspense, r_pool, r_fee, r_yield; simpl;
    case_decide; try (case_bool_decide); simplify_eq; lia.
Qed.

Lemma rebalance_pool from to z other : legs_in (role_pool other) (rebalance_legs from to z) = 0.
Proof. unfold rebalance_legs, legs_in. cbn [foldr fst snd]. unfold role_pool, r_yield. simpl. lia. Qed.

Lemma pool_same s s' :
  pool_inv s → same s s' → ready (ledger s') → pool_inv s'.
Proof.
  intros [H1 H2 H3 H4 H5] Hs Hr. pose proof Hs as (Hv & Ht & Hl).
  split; [by eapply same_inv|done|by rewrite Hl|by rewrite Hv|].
  intros id. by rewrite Hl, Hv.
Qed.

(** A row whose balance stays, with the ledger untouched. *)
Lemma pool_frame s s' id r r' :
  pool_inv s → booked s s' id r r' [] → v_user r' = v_user r → ledger s' = ledger s → pool_inv s'.
Proof.
  intros [H1 H2 H3 H4 H5] HB Hu Hl. pose proof HB as [B1 _ _ _ B4 _ _ _ B8 _]. simpl in B8.
  split; [by eapply booked_inv|by rewrite Hl|by rewrite Hl| |].
  - rewrite B4. intros i x [[<- <-]|[_ Hx]]%lookup_insert_Some; [rewrite Hu|]; by eapply H4.
  - intros i. rewrite Hl, B4, (H5 i). destruct (decide (i = id)) as [->|].
    + rewrite lookup_insert_eq, B1. simpl. lia.
    + by rewrite lookup_insert_ne.
Qed.

Lemma pool_created s s' id r : pool_inv s → created s s' id r → pool_inv s'.
Proof.
  intros [H1 H2 H3 H4 H5] HC. pose proof HC as [C1 C2 _ C4 _ _ (C7 & _ & C9)].
  split; [by eapply created_inv|by rewrite C4|by rewrite C4| |].
  - rewrite C2. intros i x [[<- <-]|[_ Hx]]%lookup_insert_Some; [done|]. by eapply H4.
  - intros i. rewrite C4, C2, (H5 i). destruct (decide (i = id)) as [->|].
    + rewrite lookup_insert_eq, C1. simpl. by rewrite C7.
    + by rewrite lookup_insert_ne.
Qed.

(** A move and its posting. *)
Lemma pool_moved s s' id r r' t n legs :
  pool_inv s → booked s s' id r r' [t] → v_user r' = v_user r → delta t = 10 * n →
  moved legs (db (ledger s)) (db (ledger s')) →
  (∀ other, legs_in (role_pool other) legs = if decide (other = id) then n else 0) →
  ready (ledger s') → pool_inv s'.
Proof.
  intros [H1 H2 H3 H4 H5] HB Hu Hd Hm Hl Hr. pose proof HB as [B1 _ _ _ B4 _ _ _ B8 _]. simpl in B8.
  split; [by eapply booked_inv|done|by destruct Hm| |].
  - rewrite B4. intros i x [[<- <-]|[_ Hx]]%lookup_insert_Some; [rewrite Hu|]; by eapply H4.
  - intros i. rewrite (moved_pool legs (db (ledger s))) by done.
    rewrite Hl, B4, Z.mul_add_distr_l, (H5 i). case_decide as Hi.
    + subst i. rewrite lookup_insert_eq, B1. simpl. lia.
    + rewrite lookup_insert_ne by done. lia.
Qed.

Lemma pool_deposit s s' id user rc hash r :
  pool_inv s → whole rc → moved_by id "deposit" hash (units (dval rc)) s s' r →
  posted (λ vx, postDepositLedgerTx uuidNew dbnow userExists vx id user rc hash) s s' →
  ready (ledger s') → pool_inv s'.
Proof.
  intros HP Hw (r' & t & HB & _ & Hu & Hty & Ham & _ & _ & Hpos) (vx & Hp) Hr.
  destruct (whole_spec _ Hw) as (_ & Hs & Hunits). destruct (delta_deposit t Hty) as [Hd _].
  destruct (deposit_moved _ _ _ _ _ _ _ _ _ _ _ (pi_books _ HP) (pi_ready _ HP) Hs Hp)
    as [(Hle & _)|(_ & Hm)]; [lia|].
  eapply (pool_moved s s' id r r' t (stroops rc)); try done; [lia|]. apply deposit_pool.
Qed.

Lemma pool_withdrawal s s' id user rc hash r :
  pool_inv s → whole rc → moved_by id "withdrawal" hash (units (dval rc)) s s' r →
  posted (λ vx, postWithdrawalLedgerTx uuidNew dbnow userExists vx id user rc hash) s s' →
  ready (ledger s') → pool_inv s'.
Proof.
  intros HP Hw (r' & t & HB & _ & Hu & Hty & Ham & _ & _ & Hpos) (vx & Hp) Hr.
  destruct (whole_spec _ Hw) as (_ & Hs & Hunits). destruct (delta_withdrawal t Hty) as [Hd _].
  destruct (withdrawal_moved _ _ _ _ _ _ _ _ _ _ _ (pi_books _ HP) (pi_ready _ HP) Hs Hp)
    as [(Hle & _)|(_ & Hm)]; [lia|].
  eapply (pool_moved s s' id r r' t (- stroops rc)); try done; [lia|]. apply withdrawal_pool.
Qed.

Lemma pool_harvest s s' (i : HarvestRecordInput (D:=D)) r :
  pool_inv s → hr_compounded i = true → whole (hr_net i) → small (hr_fee i) →
  moved_by (hr_vault i) "harvest" (hr_hash i) (units (dval (hr_net i))) s s' r →
  (∀ r', vaults s' !! hr_vault i = Some r' →
     v_balance r' = v_balance r + (if hr_compounded i then 1 else -1) * units (dval (hr_net i))) →
  posted (λ vx, postHarvestLedgerTx uuidNew dbnow userExists vx (hr_vault i) (hr_user i) (hr_net i)
                  (hr_fee i) "blend" (hr_hash i)) s s' →
  ready (ledger s') → pool_inv s'.
Proof.
  intros HP Hc Hw Hf (r' & t & HB & _ & Hu & _ & _ & _ & _ & Hpos) Hbal (vx & Hp) Hr.
  destruct (whole_spec _ Hw) as (_ & Hs & Hunits).
  assert (Hne : "blend"%string ≠ ""%string) by done.
  destruct (harvest_moved _ _ _ _ _ _ _ _ _ _ _ _ _ (pi_books _ HP) (pi_ready _ HP) Hne Hs Hf Hp)
    as [(Hle & _)|(_ & Hm)]; [lia|].
  assert (Hd : delta t = 10 * stroops (hr_net i)).
  { pose proof (bk_balance _ _ _ _ _ _ HB) as E. simpl in E.
    rewrite (bk_vaults _ _ _ _ _ _ HB), Hc in Hbal. specialize (Hbal r' (lookup_insert_eq _ _ _)). lia. }
  eapply (pool_moved s s' (hr_vault i) r r' t (stroops (hr_net i))); try done. apply harvest_pool.
Qed.

Lemma pool_rebalance s s' (i : RebalanceRecordInput (D:=D)) z :
  pool_inv s → rb_from i ≠ ""%string → rb_to i ≠ ""%string → small (rb_amount i) →
  rebalanced (rb_vault i) z z s s' →
  posted (λ vx, postRebalanceLedgerTx uuidNew dbnow userExists vx (rb_vault i) (rb_from i) (rb_to i)
                  (rb_amount i) (rb_hash i)) s s' →
  ready (ledger s') → pool_inv s'.
Proof.
  intros [H1 H2 H3 H4 H5] Hf Ht Hs Hreb (vx & Hp) Hr.
  assert (books (db (ledger s')) ∧
    ∀ v, total (plays (r_pool v)) (db (ledger s')) = total (plays (r_pool v)) (db (ledger s))) as [Hb Htot].
  { destruct (rebalance_moved _ _ _ _ _ _ _ _ _ _ _ _ H3 H2 Hf Ht Hs Hp) as [->|Hm]; [done|].
    split; [by destruct Hm|]. intros v. rewrite (moved_pool _ _ _ v H3 Hm), rebalance_pool. lia. }
  destruct Hreb as [(r & r' & ts & HB & Hu & Hbal & _)|(ts & HL)].
  - split; [by eapply booked_inv|done|done| |].
    + rewrite (bk_vaults _ _ _ _ _ _ HB). intros k x [[<- <-]|[_ Hx]]%lookup_insert_Some; [rewrite Hu|]; eapply H4; [|done]. exact (bk_row _ _ _ _ _ _ HB).
    + intros k. rewrite Htot, (H5 k), (bk_vaults _ _ _ _ _ _ HB). destruct (decide (k = rb_vault i)) as [->|].
      * rewrite lookup_insert_eq, (bk_row _ _ _ _ _ _ HB). simpl. lia.
      * by rewrite lookup_insert_ne.
  - split; [by eapply late_inv|done|done| |]; [by rewrite (la_vaults _ _ _ _ HL)|].
    intros k. by rewrite Htot, (la_vaults _ _ _ _ HL).
Qed.

Lemma exec_ready o x : ready (ledger (store x)) → fair o → money_inv (store x) →
  ready (ledger (store (exec o x))).
Proof.
  intros Hr Hf HI. destruct o; simpl in *;
    try (match goal with |- _ (ledger (?m ?s).2) => enough (keeps_tx uuidNew m) as Hk by apply (Hk s Hr) end);
    try (destruct isDeposit; apply kt_confirmed).
  - apply kt_RecordDeposit.
  - apply kt_RecordWithdrawal.
  - apply kt_RecordHarvest.
  - apply kt_RecordRebalance.
  - by apply kt_CreateVault.
  - exact (kt_exec_one uuidNew dbnow userExists _ _ _ _).
  - exact (kt_exec_one uuidNew dbnow userExists _ _ _ _).
  - exact (kt_exec_one uuidNew dbnow userExists _ _ _ _).
  - done.
  - destruct (applyEvent _ _ _ _ _ _ _ _ _) as [y x'] eqn:E. simpl.
    apply applyEvent_spec in E as [->|(Hl & _)]; try done. by rewrite Hl.
Qed.

Lemma exec_pool o x : pool_inv (store x) → pooled o → pool_inv (store (exec o x)).
Proof.
  intros HP [Hf Hw]. pose proof (exec_ready o x (pi_ready _ HP) Hf (pi_money _ HP)) as Hr.
  destruct o; simpl in Hf, Hw, Hr |- *;
    try match goal with |- pool_inv (?m ?s).2 => destruct (m s) as [y s'] eqn:E; simpl in Hr |- * end.
  - apply RecordDeposit_spec in E as [[? _]|(r0 & Hm & Hp & _)];
      [by eapply pool_same|by eapply pool_deposit|done..].
  - apply RecordWithdrawal_spec in E as [[? _]|(r0 & Hm & _ & Hp & _)];
      [by eapply pool_same|by eapply pool_withdrawal|done..].
  - destruct Hf as [He Hs], Hw as (Hc & Hn & Hfee).
    apply RecordHarvest_spec in E as [[? _]|(r0 & Hm & Hb & Hp & _)];
      [by eapply pool_same|by eapply pool_harvest|done..].
  - destruct Hf as [He Hs], Hw as (Eq & Hfrom & Hto & Hsm).
    apply RecordRebalance_spec in E as [[? _]|(Hreb & Hp & _)]; [by eapply pool_same| |done..].
    rewrite Eq in Hreb. by eapply pool_rebalance.
  - destruct isDeposit;
      apply applyConfirmed_spec in E as [[? _]|(r0 & Hm & Hp & _)]; try done;
      try (by eapply pool_same); pose proof Hm as (r' & t & HB & _);
      pose proof (Hp (pi_owner _ HP _ _ (bk_row _ _ _ _ _ _ HB))) as Hpost;
      [by eapply pool_deposit|by eapply pool_withdrawal].
  - destruct Hf as (H1 & H2 & H3).
    apply CreateVault_spec in E as [?|[r ?]]; [by eapply pool_same|by eapply pool_created|done..].
  - apply exec_one_spec in E as [[? _]|(r & r' & H & _ & _ & Hu & Hl)];
      [by eapply pool_same|by eapply pool_frame|by intros ?? [= <-]].
  - apply exec_one_spec in E as [[? _]|(r & r' & H & _ & _ & Hu & Hl)];
      [by eapply pool_same|by eapply pool_frame|by intros ?? [= <-]].
  - apply exec_one_spec in E as [[? _]|(r & r' & H & _ & _ & Hu & Hl)];
      [by eapply pool_same|by eapply pool_frame|by intros ?? [= <-]].
  - done.
  - destruct (applyEvent _ _ _ _ _ _ _ _ _) as [y x'] eqn:E. simpl in Hr |- *.
    apply applyEvent_spec in E
      as [->|(Hl & [?|[(_ & id & r & r' & H & Hu & _)|(id & r & _ & [(Hk & _)|(Hk & _)])]])];
      try done; [by eapply pool_same|by eapply pool_frame|by destruct Hw|by destruct Hw|exact (pi_money _ HP)].
Qed.

Lemma execs_pool l x : pool_inv (store x) → Forall pooled l → pool_inv (store (execs l x)).
Proof.
  intros HI HF. revert x HI. induction HF as [|o l Ho HF IH]; intros x HI; simpl; [done|].
  by apply IH, exec_pool.
Qed.

(** A new installation: no accounts, no entries, and ids still to be drawn. *)
Definition empty_ledger (led : Ledger.Session) : Prop :=
  db led = mkDB ∅ [] ∅ [] ∧ ready led.

Lemma empty_books : books (mkDB ∅ [] ∅ []).
Proof.
  split; simpl.
  - apply NoDup_nil_2.
  - by intros e ?%not_elem_of_nil.
  - done.
  - done.
  - intros id [? ?]. done.
  - by intros ? ? ? ? ?.
Qed.

Lemma new_pool led : empty_ledger led → pool_inv (store (new_index led)).
Proof.
  intros [Hd Hr]. split; simpl.
  - apply new_index_inv.
  - done.
  - rewrite Hd. apply empty_books.
  - by intros id r ?.
  - intros id. simpl. rewrite Hd. done.
Qed.

(** C5: The two records of the money of a vault agree: after any history of
    deposits, withdrawals, compounded harvests, rebalances between named
    protocols, confirmations and administration, in any order and with failures
    at any point, the vault's asset pool in the double-entry ledger holds, in
    stroops, exactly the current balance of its row.  The amounts are whole
    stroops below 2^61 (of a rebalance, at most eight decimal places and both
    legs the same), vaults are created empty, the ids that are drawn are fresh,
    and the history has no harvest that is paid out and no deposit, withdrawal
    or harvest taken from an event of the chain: those part the two records. *)
Theorem pool_agrees_with_balance (led : Ledger.Session) (l : list op) :
  empty_ledger led → Forall pooled l →
  let s := store (execs l (new_index led)) in
  ∀ id r, vaults s !! id = Some r →
    (col (v_balance r) * inject_Z 10000000 == inject_Z (first_balance (plays (r_pool id)) (db (ledger s))))%Q.
Proof.
  intros He HF s id r Hr. destruct (execs_pool l _ (new_pool led He) HF) as [_ _ Hb _ Hp].
  rewrite first_balance_total by done. specialize (Hp id). fold s in Hp. rewrite Hr in Hp. simpl in Hp.
  rewrite <-Hp. unfold col, unit8, inject_Z, Qmult, Qeq. cbn [Qnum Qden]. lia.
Qed.
End Pool.

(** ** Witnesses *)

Definition demo_uuid (n : nat) : UUID := 1000 + Z.of_nat n.
Definition demo_ledger : Ledger.Session := mkSession (mkDB ∅ [] ∅ []) 0.
Definition demo_vault : Model (D:=Q) :=
  mkModel 1 7 "CVAULT" d_zero d_zero "USDC" StatusActive d_zero d_zero "" None.
Definition demo_record (a : Q) (h : string) : TransactionRecord (D:=Q) := mkRecord 7 a h 0%Q 1%Q 0%Q.
Definition demo_event (ty hash : string) : indexedEvent :=
  mkEvent ("1-" +:+ ty) "CVAULT" ty 5 (Some [("amount"%string, AInt 250000000)]) hash.

(** A deposit of 100, confirmed again by the worker, a withdrawal of 30, a
    compounded harvest of 2.5, a rebalance of 20, which carries no hash, a
    withdrawal of more than is left, a pause. *)
Definition demo_ops : list (op (D:=Q)) :=
  [ OCreate true DBOk 1 demo_vault;
    ODeposit true DBOk 1 (demo_record 100 "h1");
    OConfirmed true true DBOk 1 100%Q "h1";
    OWithdrawal true DBOk 1 (demo_record 30 "h2");
    OHarvest true DBOk (mkHarvest 1 7 (5 # 2) (1 # 4) true (Some 2%Q) "h3");
    ORebalance true DBOk (mkRebalance 1 7 "blend" "aave" 20%Q "") (demo_record 20 "") (demo_record 20 "");
    OWithdrawal true DBOk 1 (demo_record 90 "h4");
    OEvent true true DBOk (demo_event "pause" "h5") ].

#[local] Abbreviation demo_run :=
  (execs demo_uuid 9 (λ _, true) id (λ _ : string, None : option Q) (λ _, Ok tt) demo_ops (new_index demo_ledger)).

Lemma pool_demo_ready : empty_ledger demo_uuid demo_ledger.
Proof.
  split; [done|]. split; simpl; [|unfold demo_uuid; lia|done].
  intros n _. unfold demo_uuid, uuid_Nil. split; [lia|]. split; [done|]. apply not_elem_of_nil.
Qed.

Lemma exact8_of q c : (q == col c)%Q → exact8 q.
Proof. intros H. by exists c. Qed.

Lemma demo_pause :
  accounted (D:=Q) id (λ _, None) (demo_event "pause" "h5")
  ∧ ¬ deposit_kind id (demo_event "pause" "h5") ∧ ¬ withdrawal_kind id (demo_event "pause" "h5").
Proof.
  assert (Hd : ¬ deposit_kind id (demo_event "pause" "h5")) by (by vm_compute).
  assert (Hw : ¬ withdrawal_kind id (demo_event "pause" "h5")).
  { unfold withdrawal_kind. apply (bool_decide_eq_false_1 _). by vm_compute. }
  split; [|done]. split; [|by intros [?|?]].
  unfold harvest_kind. apply (bool_decide_eq_false_1 _). by vm_compute.
Qed.

Lemma demo_pooled : Forall (pooled (D:=Q) id (λ _, None)) demo_ops.
Proof.
  repeat apply Forall_cons_2; try apply Forall_nil_2; split; try done; simpl.
  - by apply (exact8_of _ 10000000000).
  - by exists 1000000000.
  - by apply (exact8_of _ 10000000000).
  - by exists 1000000000.
  - by apply (exact8_of _ 3000000000).
  - by exists 300000000.
  - split; [by apply (exact8_of _ 250000000)|]. split; [done|by eexists].
  - split; [done|]. split; [by exists 25000000|done].
  - split; by apply (exact8_of _ 2000000000).
  - by apply (exact8_of _ 9000000000).
  - by exists 900000000.
  - apply demo_pause.
  - split; apply demo_pause.
Qed.

Lemma demo_value : v_balance <$> vaults (store demo_run) !! 1 = Some 7250000000.
Proof. vm_compute. reflexivity. Qed.

Lemma demo_live : live <$> vaults (store demo_run) !! 1 = Some true.
Proof. vm_compute. reflexivity. Qed.

Lemma demo_rebalanced : t_type <$> txs (store demo_run)
  = ["deposit"; "withdrawal"; "harvest"; "withdrawal"; "deposit"; "rebalance"]%string.
Proof. vm_compute. reflexivity. Qed.

Lemma demo_fair : Forall (fair (D:=Q) id (λ _, None)) demo_ops.
Proof. eapply Forall_impl; [exact demo_pooled|]. by intros o [? _]. Qed.

Lemma pool_agrees_with_balance_witness :
  ∃ r, vaults (store demo_run) !! 1 = Some r ∧ v_balance r = 7250000000
    ∧ (col (v_balance r) * inject_Z 10000000
       == inject_Z (first_balance (plays (r_pool 1)) (db (ledger (store demo_run)))))%Q.
Proof.
  pose proof demo_value as Hv. destruct (vaults (store demo_run) !! 1) as [r|] eqn:Er; [|done].
  injection Hv as Hv. exists r. split; [done|]. split; [done|].
  exact (pool_agrees_with_balance demo_uuid 9 (λ _, true) id (λ _, None) (λ _, Ok tt)
    demo_ledger demo_ops pool_demo_ready demo_pooled 1 r Er).
Defined.

Lemma vault_books_balance_witness :
  Forall (fair (D:=Q) id (λ _, None)) demo_ops
  ∧ t_type <$> txs (store demo_run)
    = ["deposit"; "withdrawal"; "harvest"; "withdrawal"; "deposit"; "rebalance"]%string
  ∧ ∃ r, vaults (store demo_run) !! 1 = Some r ∧ v_balance r = sum_on delta 1 (txs (store demo_run))
    ∧ sum_on delta 1 (txs (store demo_run)) = 7250000000.
Proof.
  split; [exact demo_fair|]. split; [exact demo_rebalanced|]. pose proof demo_value as Hv. pose proof demo_live as Hl.
  destruct (vaults (store demo_run) !! 1) as [r|] eqn:Er; [|done]. exists r. split; [done|].
  destruct (vault_books_balance demo_uuid 9 (λ _, true) id (λ _ : string, None) (λ _, Ok tt)
    demo_ledger demo_ops demo_fair) as (_ & Hb & _).
  injection Hl as Hl.
  destruct (Hb 1 r Er) as [E _]. destruct (E Hl) as [E1 _]. split; [exact E1|]. injection Hv as Hv. congruence.
Defined.

(** The first deposit's hash, presented by an event of the chain. *)
Definition demo_replay : op (D:=Q) := OEvent true true DBOk (demo_event "deposit" " h1 ").

Lemma spent_hash_moves_nothing_witness :
  vaults (store (exec demo_uuid 9 (λ _, true) id (λ _ : string, None : option Q) (λ _, Ok tt)
                   demo_replay demo_run)) = vaults (store demo_run).
Proof.
  refine (proj1 (spent_hash_moves_nothing demo_uuid 9 (λ _, true) id (λ _ : string, None) (λ _, Ok tt)
    demo_ledger demo_ops demo_replay "h1" demo_fair _ _ _)).
  - split.
    + unfold harvest_kind. apply (bool_decide_eq_false_1 _). by vm_compute.
    + intros _. split; [by vm_compute|]. intros a Ha. vm_compute in Ha. injection Ha as <-.
      by apply (exact8_of _ 2500000000).
  - split; [left; by vm_compute|by vm_compute].
  - apply (bool_decide_eq_true_1 _). by vm_compute.
Defined.

Lemma withdrawal_within_balance_witness :
  ∃ r r', vaults (store demo_run) !! 1 = Some r ∧ v_balance r' = v_balance r - 1000000000 ∧ 0 ≤ v_balance r'.
Proof.
  set (m := RecordWithdrawal demo_uuid 9 (λ _, true) true DBOk 1 (demo_record 10 "h8")).
  destruct (withdrawal_within_balance demo_uuid 9 (λ _, true) true DBOk 1 (demo_record 10 "h8")
    (store demo_run) (m (store demo_run)).1 (m (store demo_run)).2)
    as [(_ & e & He)|(r & r' & Hr & _ & _ & _ & _ & Hb & _ & Hnn & _)].
  - by apply (exact8_of _ 1000000000).
  - by rewrite <-surjective_pairing.
  - exfalso. vm_compute in He. discriminate He.
  - exists r, r'. split; [done|]. split; [|done]. rewrite Hb. apply (f_equal (Z.sub _)). by vm_compute.
Defined.

(** ** Where the two records part *)

(** A harvest that is paid out instead of compounded. *)
Definition paid_out : op (D:=Q) :=
  OHarvest true DBOk (mkHarvest 1 7 (5 # 2) (1 # 4) false None "h6").

(** A harvest that is not compounded takes the net yield from the balance of
    the vault, and adds it to the vault's asset pool in the ledger: from a
    vault whose two records agree, they differ by twice the yield. *)
Lemma paid_out_harvest_splits_records :
  let run l := store (execs demo_uuid 9 (λ _, true) id (λ _ : string, None : option Q) (λ _, Ok tt) l
                        (new_index demo_ledger)) in
  let facts l := (v_balance <$> vaults (run l) !! 1, first_balance (plays (r_pool 1)) (db (ledger (run l)))) in
  facts demo_ops = (Some 7250000000, 725000000)
  ∧ facts (demo_ops ++ [paid_out]) = (Some 7000000000, 750000000).
Proof. vm_compute. done. Qed.

(** A deposit that the indexer credits from the chain raises the balance of
    the vault and posts nothing to the ledger. *)
Lemma indexed_deposit_skips_ledger :
  let run l := store (execs demo_uuid 9 (λ _, true) id (λ _ : string, None : option Q) (λ _, Ok tt) l
                        (new_index demo_ledger)) in
  let facts l := (v_balance <$> vaults (run l) !! 1, first_balance (plays (r_pool 1)) (db (ledger (run l)))) in
  facts (demo_ops ++ [OEvent true true DBOk (demo_event "deposit" "h7")]) = (Some 9750000000, 725000000).
Proof. vm_compute. done. Qed.
