(* ===== verification/MoneyPath.v ===== *)
(** The global pause switches of deposits and withdrawals
    (internal/domain/moneypath, internal/service/money_path_switch_service.go,
    internal/repository/postgres/money_path_switch_repository.go): rows of a
    table that every instance of the API reads through a cache of two seconds.

    The methods of the service are programs over the things they share: the
    clock, the cache behind the service's lock, and the rows.  Each access is one
    step of [prog], so that calls on any number of instances interleave between
    their accesses.  The audit entry of a change, whose loss is ignored, is left
    out. *)

From S2P Require Import Prelude Sql GoStrings.
Open Scope Z_scope.
Open Scope go_scope.

(** ** The domain *)

Definition OperationDeposit : string := "deposit".
Definition OperationWithdrawal : string := "withdrawal".
Definition Operations : list string := [OperationDeposit; OperationWithdrawal].
Definition Valid (op : string) : bool := bool_decide (op ∈ Operations).

Record Switch := mkSwitch {
  Operation : string;
  Paused : bool;
  Reason : string;
  ChangedBy : option UUID;
  UpdatedAt : Time;
}.

(** [EPaused] and [EUnreadable] are PausedError without and with a cause. *)
Inductive SwitchErr :=
| EUnknownOperation
| EPaused (op reason : string)
| EUnreadable (op : string) (cause : SwitchErr)
| EConstraint
| EDB.

(** ** The table *)

Definition Table := gmap string Switch.

Definition GetSwitch (queryOk : bool) (op : string) (t : Table) : result SwitchErr Switch :=
  if negb queryOk then Err EDB
  else match t !! op with Some s => Ok s | None => Err EUnknownOperation end.

Definition ListSwitches (queryOk : bool) (t : Table) : result SwitchErr (list Switch) :=
  if negb queryOk then Err EDB
  else Ok (omap (λ op, t !! op) [OperationDeposit; OperationWithdrawal]).

Definition SetSwitch (dbnow : Time) (userExists : UUID → bool) (d : dbres) (op : string) (paused : bool)
    (reason : string) (changedBy : option UUID) (t : Table) : result SwitchErr Switch * Table :=
  match t !! op with
  | None => ((if failed d then Err EDB else Err EUnknownOperation), t)
  | Some _ =>
      if match changedBy with Some u => negb (userExists u) | None => false end then (Err EConstraint, t)
      else
        let s := mkSwitch op paused reason changedBy dbnow in
        ((if failed d then Err EDB else Ok s), Sql.effect d t (<[op := s]> t))
  end.

(** ** Programs *)

Definition switchCacheTTL : Duration := 2 * Second.

Record cachedSwitch := mkCached { value : Switch; expiresAt : Time }.
Definition Cache := gmap string cachedSwitch.

(** A method, up to its next access: of the clock, of the cache under the lock,
    or of a row. *)
Inductive prog (A : Type) : Type :=
| Ret (a : A)
| ReadClock (k : Time → prog A)
| ReadCache (op : string) (k : option cachedSwitch → prog A)
| WriteCache (op : string) (e : cachedSwitch) (k : prog A)
| DropCache (op : string) (k : prog A)
| QuerySwitch (op : string) (k : result SwitchErr Switch → prog A)
| UpdateSwitch (op : string) (paused : bool) (reason : string) (actor : option UUID)
    (k : result SwitchErr Switch → prog A).
Arguments Ret {A}. Arguments ReadClock {A}. Arguments ReadCache {A}. Arguments WriteCache {A}.
Arguments DropCache {A}. Arguments QuerySwitch {A}. Arguments UpdateSwitch {A}.

#[export] Instance prog_ret : MRet prog := λ A, Ret.
#[export] Instance prog_bind : MBind prog := λ A B f, fix go (m : prog A) : prog B :=
  match m with
  | Ret a => f a
  | ReadClock k => ReadClock (λ t, go (k t))
  | ReadCache op k => ReadCache op (λ e, go (k e))
  | WriteCache op e k => WriteCache op e (go k)
  | DropCache op k => DropCache op (go k)
  | QuerySwitch op k => QuerySwitch op (λ r, go (k r))
  | UpdateSwitch op paused reason actor k => UpdateSwitch op paused reason actor (λ r, go (k r))
  end.

Definition nowFn : prog Time := ReadClock Ret.
Definition load (op : string) : prog (option cachedSwitch) := ReadCache op Ret.
Definition query (op : string) : prog (result SwitchErr Switch) := QuerySwitch op Ret.

(** ** The service *)

(** The entry still stands at [t]. *)
Definition cached (t : Time) (e : cachedSwitch) : option Switch :=
  if t <? expiresAt e then Some (value e) else None.

(** [s.cache[op] = ...] under the lock, the clock read first. *)
Definition remember (op : string) (state : Switch) : prog unit :=
  t ← nowFn; WriteCache op (mkCached state (timeAdd t switchCacheTTL)) (mret tt).

Definition invalidate (op : string) : prog unit := DropCache op (mret tt).

(** [get] once the cache has answered nothing, and from the answer on. *)
Definition missed (op : string) : prog (result SwitchErr Switch) :=
  r ← query op;
  match r with
  | Err e => mret (Err e)
  | Ok state => remember op state;; mret (Ok state)
  end.

Definition looked (op : string) (m : prog (option Switch)) : prog (result SwitchErr Switch) :=
  hit ← m;
  match hit with Some v => mret (Ok v) | None => missed op end.

Definition get (op : string) : prog (result SwitchErr Switch) :=
  entry ← load op;
  looked op (match entry with
             | Some e => t ← nowFn; mret (cached t e)
             | None => mret None
             end).

Definition verdict (op : string) (r : result SwitchErr Switch) : result SwitchErr unit :=
  match r with
  | Err e => Err (EUnreadable op e)
  | Ok s => if Paused s then Err (EPaused op (Reason s)) else Ok tt
  end.

(** [installed] is false of a nil service. *)
Definition EnsureAllowed (installed : bool) (op : string) : prog (result SwitchErr unit) :=
  if negb installed then mret (Ok tt)
  else if negb (Valid op) then mret (Err EUnknownOperation)
  else state ← get op; mret (verdict op state).

Definition Get (queryOk : bool) (op : string) (t : Table) : result SwitchErr Switch :=
  if negb (Valid op) then Err EUnknownOperation else GetSwitch queryOk op t.

(** [SetPaused] from its update on. *)
Definition updating (op : string) (paused : bool) (reason : string) (actor : option UUID)
    : prog (result SwitchErr Switch) :=
  updated ← UpdateSwitch op paused (TrimSpace reason) actor Ret;
  match updated with
  | Err e => mret (Err e)
  | Ok s => invalidate op;; mret (Ok s)
  end.

Definition SetPaused (op : string) (paused : bool) (reason : string) (actor : option UUID)
    : prog (result SwitchErr Switch) :=
  if negb (Valid op) then mret (Err EUnknownOperation)
  else
    previous ← query op;
    match previous with
    | Err e => mret (Err e)
    | Ok _ => updating op paused reason actor
    end.

(** ** A call on its own *)

Section Alone.
Context (clockAt : nat → Time) (queryOk : bool) (d : dbres) (userExists : UUID → bool).

(** The [n]-th reading of the clock is [clockAt n]. *)
Fixpoint alone {A} (p : prog A) (n : nat) (t : Table) (c : Cache) : A * Table * Cache :=
  match p with
  | Ret a => (a, t, c)
  | ReadClock k => alone (k (clockAt n)) (S n) t c
  | ReadCache op k => alone (k (c !! op)) n t c
  | WriteCache op e k => alone k n t (<[op := e]> c)
  | DropCache op k => alone k n t (delete op c)
  | QuerySwitch op k => alone (k (GetSwitch queryOk op t)) n t c
  | UpdateSwitch op paused reason actor k =>
      let '(r, t') := SetSwitch (clockAt n) userExists d op paused reason actor t in alone (k r) n t' c
  end.

(** A switch that is engaged, cannot be read or has no row refuses the
    operation, with the operator's reason in the first case and the cause in
    the others; an operation is let through exactly when the value the service
    goes by, cached less than two seconds ago or read now, is released. *)
Theorem ensure_allowed_spec op t c :
  let '(r, t', c') := alone (EnsureAllowed true op) 0 t c in
  let hit := c !! op ≫= cached (clockAt 0) in
  t' = t ∧
  match r with
  | Ok _ => Valid op = true
      ∧ ∃ s, Paused s = false
          ∧ (hit = Some s ∧ c' = c
             ∨ hit = None ∧ queryOk = true ∧ t !! op = Some s
               ∧ ∃ e, c' = <[op := e]> c ∧ value e = s)
  | Err EUnknownOperation => Valid op = false ∧ c' = c
  | Err (EUnreadable op' cause) => op' = op ∧ hit = None ∧ GetSwitch queryOk op t = Err cause ∧ c' = c
  | Err (EPaused op' reason) =>
      op' = op ∧ ∃ s, Paused s = true ∧ Reason s = reason ∧ (hit = Some s ∨ t !! op = Some s)
  | Err _ => False
  end.
Proof.
  unfold EnsureAllowed. destruct (Valid op) eqn:Ev; simpl; [|done]. unfold cached.
  destruct (c !! op) as [e|] eqn:Ec; simpl; [destruct (clockAt 0 <? expiresAt e); simpl|];
    [destruct (Paused (value e)) eqn:Ep; simpl; eauto 10| |];
    unfold GetSwitch; (destruct queryOk; simpl; [|done]); (destruct (t !! op) as [s|] eqn:Et; simpl; [|done]);
    destruct (Paused s) eqn:Ep; eauto 15.
Qed.

(** A change of a switch answers the row it has written, and drops the entry of
    this instance; one that fails leaves the cache. *)
Theorem set_paused_spec op paused reason actor t c :
  let '(r, t', c') := alone (SetPaused op paused reason actor) 0 t c in
  match r with
  | Ok s => Valid op = true ∧ s = mkSwitch op paused (TrimSpace reason) actor (clockAt 0)
      ∧ t' = <[op := s]> t ∧ c' = delete op c
  | Err _ => c' = c ∧ (t' = t ∨ t' = <[op := mkSwitch op paused (TrimSpace reason) actor (clockAt 0)]> t)
  end.
Proof.
  unfold SetPaused. destruct (Valid op) eqn:Ev; simpl; [|eauto]. unfold GetSwitch.
  destruct queryOk; simpl; [|eauto]. destruct (t !! op) as [s|] eqn:Et; simpl; [|eauto].
  unfold SetSwitch. rewrite Et.
  destruct (match actor with Some u => negb (userExists u) | None => false end); simpl; [eauto|].
  destruct d as [|[]]; simpl; eauto.
Qed.
End Alone.

(** ** Instances that share the table *)

(** What a call answers. *)
Inductive answer :=
| Checked (op : string) (r : result SwitchErr unit)
| Changed (op : string) (paused : bool) (r : result SwitchErr Switch).

Definition check (op : string) : prog answer := r ← EnsureAllowed true op; mret (Checked op r).
Definition change (op : string) (paused : bool) (reason : string) (actor : option UUID) : prog answer :=
  r ← SetPaused op paused reason actor; mret (Changed op paused r).

(** The calls of the API. *)
Inductive call :=
| RunEnsureAllowed (op : string)
| RunSetPaused (op : string) (paused : bool) (reason : string) (actor : option UUID).

Definition body (q : call) : prog answer :=
  match q with
  | RunEnsureAllowed op => check op
  | RunSetPaused op paused reason actor => change op paused reason actor
  end.

(** A call in flight: its instance, what is left of it, and when it last read a
    row. *)
Record Thread := mkThread { inst : nat; rest : prog answer; asked : Time }.

(** The rows, the cache of each instance, the calls in flight, and the writes
    that took effect, newest first. *)
Record Sys := mkSys {
  clock : Time;
  table : Table;
  caches : nat → Cache;
  threads : list Thread;
  writes : list (string * bool * Time);
}.

Definition set_cache (i : nat) (c : Cache) (f : nat → Cache) : nat → Cache := λ j, if (j =? i)%nat then c else f j.

(** The writes of one operation. *)
Definition writes_of (op : string) (s : Sys) : list (bool * Time) :=
  omap (λ w : string * bool * Time, if decide (w.1.1 = op) then Some (w.1.2, w.2) else None) (writes s).

Definition with_cache (i : nat) (f : Cache → Cache) (s : Sys) : Sys :=
  mkSys (clock s) (table s) (λ j, if (j =? i)%nat then f (caches s i) else caches s j) (threads s) (writes s).
Definition with_threads (l : list Thread) (s : Sys) : Sys := mkSys (clock s) (table s) (caches s) l (writes s).

Section System.
Context (latency : Duration) (userExists : UUID → bool).

(** One access of a call: from [th] to [th'], and the shared things from [s] to
    the last.  A query may fail; from the row it read to the entry it writes a
    check takes at most [latency]. *)
Inductive access (s : Sys) : Thread → Thread → Sys → Prop :=
| ac_clock i k a : access s (mkThread i (ReadClock k) a) (mkThread i (k (clock s)) a) s
| ac_load i op k a : access s (mkThread i (ReadCache op k) a) (mkThread i (k (caches s i !! op)) a) s
| ac_store i op e k a :
    clock s ≤ a + latency →
    access s (mkThread i (WriteCache op e k) a) (mkThread i k a) (with_cache i <[op := e]> s)
| ac_drop i op k a :
    access s (mkThread i (DropCache op k) a) (mkThread i k a) (with_cache i (delete op) s)
| ac_query i op k a queryOk :
    access s (mkThread i (QuerySwitch op k) a) (mkThread i (k (GetSwitch queryOk op (table s))) (clock s)) s
| ac_update i op paused reason actor k a d r sw :
    SetSwitch (clock s) userExists d op paused reason actor (table s) = (r, <[op := sw]> (table s)) →
    access s (mkThread i (UpdateSwitch op paused reason actor k) a) (mkThread i (k r) a)
      (mkSys (clock s) (<[op := sw]> (table s)) (caches s) (threads s) ((op, Paused sw, clock s) :: writes s))
| ac_unwritten i op paused reason actor k a d e :
    SetSwitch (clock s) userExists d op paused reason actor (table s) = (Err e, table s) →
    access s (mkThread i (UpdateSwitch op paused reason actor k) a) (mkThread i (k (Err e)) a) s.

(** What a step makes known: that instance [i] answered. *)
Inductive event := Silent | Answers (i : nat) (a : answer).

Definition told (th : Thread) : event := match rest th with Ret a => Answers (inst th) a | _ => Silent end.

Inductive step (s : Sys) : event → Sys → Prop :=
| step_tick now : clock s ≤ now → step s Silent (mkSys now (table s) (caches s) (threads s) (writes s))
| step_begin i q a : step s (told (mkThread i (body q) a)) (with_threads (mkThread i (body q) a :: threads s) s)
| step_access l1 l2 th th' s' :
    threads s = l1 ++ th :: l2 → access s th th' s' → step s (told th') (with_threads (l1 ++ th' :: l2) s')
| step_restart i : step s Silent (with_cache i (λ _, ∅) s).

(** A run, newest state first. *)
Inductive run : list Sys → Prop :=
| run_start now t : run [mkSys now t (λ _, ∅) [] []]
| run_step s h e s' : run (s :: h) → step s e s' → run (s' :: s :: h).

(** ** What is known of a run *)

(** The switch of [op] had the value [sw] in a state of the run at [at_]. *)
Definition held (h : list Sys) (op : string) (sw : Switch) (at_ : Time) : Prop :=
  ∃ s, s ∈ h ∧ clock s = at_ ∧ table s !! op = Some sw.

Definition entry_ok (h : list Sys) (op : string) (e : cachedSwitch) : Prop :=
  ∃ at_, held h op (value e) at_ ∧ expiresAt e ≤ at_ + latency + switchCacheTTL.

(** A check whose [get] has come to [m], and a change whose update has answered. *)
Definition checking (op : string) (m : prog (result SwitchErr Switch)) : prog answer :=
  r ← (state ← m; mret (verdict op state)); mret (Checked op r).
Definition changing (op : string) (paused : bool) (m : prog (result SwitchErr Switch)) : prog answer :=
  r ← m; mret (Changed op paused r).

Inductive stage (h : list Sys) (now : Time) (w : list (string * bool * Time)) : Thread → Prop :=
| sg_done i a at_ : stage h now w (mkThread i (Ret a) at_)
| sg_get i op at_ : Valid op = true → stage h now w (mkThread i (checking op (get op)) at_)
| sg_entry i op e at_ :
    Valid op = true → entry_ok h op e →
    stage h now w (mkThread i (checking op (looked op (t ← nowFn; mret (cached t e)))) at_)
| sg_missed i op at_ : Valid op = true → stage h now w (mkThread i (checking op (missed op)) at_)
| sg_read i op sw at_ :
    Valid op = true → held h op sw at_ →
    stage h now w (mkThread i (checking op (remember op sw;; mret (Ok sw))) at_)
| sg_fill i op sw ex at_ :
    Valid op = true → held h op sw at_ → ex ≤ now + switchCacheTTL →
    stage h now w (mkThread i (checking op (WriteCache op (mkCached sw ex) (mret tt);; mret (Ok sw))) at_)
| sg_change i op paused reason actor at_ : stage h now w (mkThread i (change op paused reason actor) at_)
| sg_updating i op paused reason actor at_ :
    stage h now w (mkThread i (changing op paused (updating op paused reason actor)) at_)
| sg_updated i op paused sw at_ :
    Paused sw = paused → (∃ T, (op, paused, T) ∈ w) →
    stage h now w (mkThread i (changing op paused (invalidate op;; mret (Ok sw))) at_).

Record fresh (h : list Sys) (s : Sys) : Prop := {
  fr_cache i op e : caches s i !! op = Some e → entry_ok h op e;
  fr_threads th : th ∈ threads s → stage h (clock s) (writes s) th;
}.

(** What an answer says of the run that it ends. *)
Definition sound (h : list Sys) (now : Time) (w : list (string * bool * Time)) (a : answer) : Prop :=
  match a with
  | Checked op (Ok _) =>
      Valid op = true ∧ ∃ at_ sw, held h op sw at_ ∧ Paused sw = false ∧ now ≤ at_ + latency + switchCacheTTL
  | Changed op paused (Ok sw) => Paused sw = paused ∧ ∃ T, (op, paused, T) ∈ w
  | _ => True
  end.

Lemma held_mono h h' op sw at_ : h ⊆ h' → held h op sw at_ → held h' op sw at_.
Proof. intros Hh (x & Hx & H). exists x. split; [by apply Hh|done]. Qed.

Lemma entry_mono h h' op e : h ⊆ h' → entry_ok h op e → entry_ok h' op e.
Proof. intros Hh (at_ & Hx & H). exists at_. split; [by eapply held_mono|done]. Qed.

Lemma stage_mono h h' now now' w w' th :
  h ⊆ h' → now ≤ now' → w ⊆ w' → stage h now w th → stage h' now' w' th.
Proof.
  intros Hh Hn Hw. destruct 1 as [| |i op e at_ Hv He| |i op sw at_ Hv Hs|i op sw ex at_ Hv Hs Hx| | |i op p sw at_ Hp (T & HT)];
    try (by constructor); [|by constructor; [|eapply held_mono]| |].
  - constructor; [done|by eapply entry_mono].
  - constructor; [done|by eapply held_mono|lia].
  - constructor; [done|]. exists T. by apply Hw.
Qed.

Lemma timeAdd_le t d : 0 ≤ d → timeAdd t d ≤ t + d.
Proof. unfold timeAdd. lia. Qed.

Lemma verdict_Ok op r u : verdict op r = Ok u → ∃ sw, r = Ok sw ∧ Paused sw = false.
Proof. destruct r as [sw|e]; simpl; [|done]. destruct (Paused sw) eqn:E; [done|]. by exists sw. Qed.

(** What a check answers from a value that the row held. *)
Lemma sound_check h now w op sw at_ :
  Valid op = true → held h op sw at_ → now ≤ at_ + latency + switchCacheTTL →
  sound h now w (Checked op (verdict op (Ok sw))).
Proof.
  intros Hv Hh Hn. simpl. destruct (Paused sw) eqn:E; [done|]. split; [done|]. by exists at_, sw.
Qed.

(** What an access leaves: the call at its next stage, a sound answer if it was
    the last, and entries that are good. *)
Definition leaves (h : list Sys) (th' : Thread) (s s' : Sys) : Prop :=
  stage h (clock s) (writes s') th'
  ∧ (∀ a, rest th' = Ret a → sound h (clock s) (writes s') a)
  ∧ (∀ i op e, caches s' i !! op = Some e → caches s i !! op = Some e ∨ entry_ok h op e)
  ∧ writes s ⊆ writes s' ∧ clock s' = clock s ∧ threads s' = threads s.

Lemma leaves_quiet h th' s :
  stage h (clock s) (writes s) th' → (∀ a, rest th' = Ret a → sound h (clock s) (writes s) a) → leaves h th' s s.
Proof. intros H1 H2. split; [done|]. split; [done|]. split; [by left|done]. Qed.

Lemma leaves_missed h i op s at_ :
  Valid op = true → leaves h (mkThread i (checking op (missed op)) at_) s s.
Proof. intros Hv. apply leaves_quiet; [by constructor|done]. Qed.

Lemma SetSwitch_Ok now d op paused reason actor t sw t' :
  SetSwitch now userExists d op paused reason actor t = (Ok sw, t') → Paused sw = paused ∧ t' = <[op := sw]> t.
Proof.
  unfold SetSwitch. destruct (t !! op); [|by destruct (failed d)].
  destruct (match actor with Some u => negb (userExists u) | None => false end); [done|].
  destruct d as [|b]; simpl; [|done]. by intros [= <- <-].
Qed.

Lemma set_switch_writes now d op paused reason actor t r sw :
  SetSwitch now userExists d op paused reason actor t = (r, <[op := sw]> t) →
  (∀ sw', r = Ok sw' → Paused sw' = paused ∧ Paused sw = paused).
Proof.
  intros H sw' ->. apply SetSwitch_Ok in H as [Hp E]. split; [done|].
  pose proof (lookup_insert_eq (t : gmap string Switch) op sw) as E1.
  pose proof (lookup_insert_eq (t : gmap string Switch) op sw') as E2.
  pose proof (eq_trans (eq_sym E1) (eq_trans (f_equal (λ m : gmap string Switch, m !! op) E) E2)) as E3.
  by injection E3 as ->.
Qed.

Ltac accessed H s := simpl in H; inversion H; subst s; subst; clear H.

Lemma access_check h s i op m at_ th' s' :
  fresh h s → s ∈ h → Valid op = true →
  m = get op ∨ (∃ e, entry_ok h op e ∧ m = looked op (t ← nowFn; mret (cached t e))) →
  access s (mkThread i (checking op m) at_) th' s' → leaves h th' s s'.
Proof.
  intros HF Hin Hv [->|(e & He & ->)] Ha; accessed Ha s'.
  - destruct (caches s i !! op) as [e|] eqn:Ee; [|by apply leaves_missed].
    apply leaves_quiet; [|done]. apply sg_entry; [done|]. by eapply fr_cache.
  - unfold cached. destruct (Z.ltb_spec (clock s) (expiresAt e)) as [Hlt|]; [|by apply leaves_missed].
    apply leaves_quiet; [constructor|]. intros a [= <-]. destruct He as (t & Hh & Hle).
    apply (sound_check _ _ _ _ _ t); [done|done|lia].
Qed.

Lemma access_miss h s i op m at_ th' s' :
  s ∈ h → Valid op = true →
  m = missed op ∨ (∃ sw, held h op sw at_ ∧
    (m = (remember op sw;; mret (Ok sw))
     ∨ ∃ ex, ex ≤ clock s + switchCacheTTL ∧ m = (WriteCache op (mkCached sw ex) (mret tt);; mret (Ok sw)))) →
  access s (mkThread i (checking op m) at_) th' s' → leaves h th' s s'.
Proof.
  intros Hin Hv [->|(sw & Hh & [->|(ex & Hx & ->)])] Ha; accessed Ha s'.
  - destruct (GetSwitch queryOk op (table s)) as [sw|e] eqn:Eg.
    + apply leaves_quiet; [|done]. apply sg_read; [done|]. exists s. split; [done|]. split; [done|].
      unfold GetSwitch in Eg. destruct queryOk; simpl in Eg; [|done].
      destruct (table s !! op); [by injection Eg as ->|done].
    + apply leaves_quiet; [constructor|]. by intros a [= <-].
  - apply leaves_quiet; [|done]. apply (sg_fill _ _ _ i op sw (timeAdd (clock s) switchCacheTTL)); [done..|].
    by apply timeAdd_le.
  - match goal with H : clock s ≤ at_ + latency |- _ => rename H into Hlat end.
    split; [constructor|]. split; [|split; [|done]].
    + intros a [= <-]. apply (sound_check _ _ _ _ _ at_); [done..|]. change switchCacheTTL with 2000000000. lia.
    + intros j op' e. simpl. destruct (Nat.eqb_spec j i) as [->|]; [|by left].
      intros [[<- <-]|[_ He]]%lookup_insert_Some; [right|by left]. exists at_. split; [done|]. simpl. lia.
Qed.

Lemma access_change h s i op paused m at_ th' s' :
  s ∈ h →
  (∃ reason actor, m = SetPaused op paused reason actor ∨ m = updating op paused reason actor)
  ∨ (∃ sw, Paused sw = paused ∧ (∃ T, (op, paused, T) ∈ writes s) ∧ m = (invalidate op;; mret (Ok sw))) →
  access s (mkThread i (changing op paused m) at_) th' s' → leaves h th' s s'.
Proof.
  intros Hin [(reason & actor & [-> | ->])|(sw & Hp & Hw & ->)] Ha.
  - unfold SetPaused in Ha. destruct (negb (Valid op)); accessed Ha s'.
    destruct (GetSwitch queryOk op (table s)) as [sw|e]; apply leaves_quiet; try done; [constructor|constructor|].
    by intros a [= <-].
  - accessed Ha s'.
    + match goal with H : SetSwitch _ _ _ _ _ _ _ _ = _ |- _ => pose proof (set_switch_writes _ _ _ _ _ _ _ _ _ H) as Hs end.
      split; [|split; [|split; [by left|split; [by right|done]]]]; destruct r as [sw'|e]; try done; [| |by intros a [= <-]].
      * destruct (Hs _ eq_refl) as [E1 E2]. apply sg_updated; [done|]. exists (clock s). rewrite E2. left.
      * constructor.
    + apply leaves_quiet; [constructor|]. by intros a [= <-].
  - accessed Ha s'. split; [constructor|]. split; [by intros a [= <-]|]. split; [|done].
    intros j op' e. simpl. destruct (Nat.eqb_spec j i) as [->|]; [|by left]. intros [_ He]%lookup_delete_Some. by left.
Qed.

Lemma access_leaves h s th th' s' :
  fresh h s → s ∈ h → stage h (clock s) (writes s) th → access s th th' s' → leaves h th' s s'.
Proof.
  intros HF Hin Hst Ha.
  destruct Hst as [i a at_|i op at_ Hv|i op e at_ Hv He|i op at_ Hv|i op sw at_ Hv Hh|i op sw ex at_ Hv Hh Hx
    |i op p reason actor at_|i op p reason actor at_|i op p sw at_ Hp Hw].
  - inversion Ha.
  - exact (access_check h s i op _ at_ th' s' HF Hin Hv (or_introl eq_refl) Ha).
  - exact (access_check h s i op _ at_ th' s' HF Hin Hv (or_intror (ex_intro _ e (conj He eq_refl))) Ha).
  - exact (access_miss h s i op _ at_ th' s' Hin Hv (or_introl eq_refl) Ha).
  - exact (access_miss h s i op _ at_ th' s' Hin Hv
      (or_intror (ex_intro _ sw (conj Hh (or_introl eq_refl)))) Ha).
  - exact (access_miss h s i op _ at_ th' s' Hin Hv
      (or_intror (ex_intro _ sw (conj Hh (or_intror (ex_intro _ ex (conj Hx eq_refl)))))) Ha).
  - exact (access_change h s i op p _ at_ th' s' Hin
      (or_introl (ex_intro _ reason (ex_intro _ actor (or_introl eq_refl)))) Ha).
  - exact (access_change h s i op p _ at_ th' s' Hin
      (or_introl (ex_intro _ reason (ex_intro _ actor (or_intror eq_refl)))) Ha).
  - exact (access_change h s i op p _ at_ th' s' Hin (or_intror (ex_intro _ sw (conj Hp (conj Hw eq_refl)))) Ha).
Qed.

Lemma fresh_mono h h' s s' :
  h ⊆ h' → clock s ≤ clock s' → writes s ⊆ writes s' → threads s' = threads s →
  (∀ i op e, caches s' i !! op = Some e → caches s i !! op = Some e) → fresh h s → fresh h' s'.
Proof.
  intros Hh Hn Hw Ht Hc [H1 H2]. split.
  - intros i op e He. eapply entry_mono; [done|by eapply H1, Hc].
  - rewrite Ht. intros th Hth. eapply stage_mono; [done..|by apply H2].
Qed.

Lemma call_stage h now w i q a : stage h now w (mkThread i (body q) a).
Proof.
  destruct q as [op|op paused reason actor]; [|constructor]. unfold body, check, EnsureAllowed.
  destruct (Valid op) eqn:Ev; [by apply sg_get|constructor].
Qed.

Lemma call_sound h now w q a : body q = Ret a → sound h now w a.
Proof.
  destruct q as [op|op paused reason actor]; [unfold body, check, EnsureAllowed|unfold body, change, SetPaused];
    (destruct (Valid op); [done|]); by intros [= <-].
Qed.

(** A step keeps what is known, and what it answers is sound. *)
Lemma step_fresh h s e s' :
  fresh h s → s ∈ h → step s e s' →
  fresh (s' :: h) s' ∧ ∀ i a, e = Answers i a → sound h (clock s) (writes s') a.
Proof.
  intros HF Hin Hst. assert (Hsub : h ⊆ s' :: h) by (intros x ?; by right).
  destruct Hst as [now Hle|i q a|l1 l2 th th' s1 Hl Ha|i].
  - split; [|done]. by eapply fresh_mono.
  - split.
    + destruct (fresh_mono _ _ s s Hsub (Z.le_refl _) (reflexivity _) eq_refl (λ _ _ _ H, H) HF) as [H1 H2].
      split; simpl; [done|]. intros th [->|Hth]%elem_of_cons; [by apply call_stage|by apply H2].
    + unfold told. simpl. intros j b E. destruct (body q) eqn:Ep; try done. injection E as <- <-. by eapply call_sound.
  - assert (Hth : th ∈ threads s) by (rewrite Hl; apply elem_of_app; right; left).
    destruct (access_leaves h s th th' s1 HF Hin (fr_threads _ _ HF th Hth) Ha) as (L1 & L2 & L3 & L4 & L5 & L6).
    split.
    + split; simpl.
      * intros i op en He. apply (entry_mono h); [done|]. destruct (L3 _ _ _ He) as [He'|?]; [|done].
        by eapply fr_cache.
      * rewrite L5. intros x Hx. assert (x = th' ∨ x ∈ threads s) as [->|Hx'].
        { rewrite Hl. rewrite elem_of_app, elem_of_cons in Hx |- *. tauto. }
        -- eapply stage_mono; [done|apply Z.le_refl|reflexivity|done].
        -- eapply stage_mono; [done|apply Z.le_refl|exact L4|]. by apply HF.
    + intros i a. unfold told. destruct (rest th') eqn:Er; try done. intros [= <- <-]. by apply L2.
  - split; [|done]. apply (fresh_mono h _ s); [done|apply Z.le_refl|reflexivity|done| |done].
    intros j op e. simpl. by destruct (Nat.eqb_spec j i).
Qed.

Lemma run_fresh s h : run (s :: h) → fresh (s :: h) s.
Proof.
  intros Hr. remember (s :: h) as l eqn:El. revert s h El.
  induction Hr as [now t|s0 h0 e s' Hr IH Hst]; intros s h [= <- <-].
  { split; simpl; [by intros i op e ?|by intros th ?%not_elem_of_nil]. }
  by eapply step_fresh; [apply (IH _ _ eq_refl)|left|].
Qed.

(** ** What the writes tell of the rows *)

(** A row that was written shows the last write. *)
Definition row_logged (s : Sys) : Prop :=
  ∀ op sw p T l, table s !! op = Some sw → writes_of op s = (p, T) :: l → Paused sw = p.

(** [s] comes after [s0]: the writes since are not older than [s0]. *)
Definition later (s0 s : Sys) : Prop :=
  clock s0 ≤ clock s ∧ ∃ new, writes s = new ++ writes s0 ∧ Forall (λ w, clock s0 ≤ w.2) new.

Lemma later_refl s : later s s.
Proof. split; [lia|]. by exists []. Qed.

Lemma step_quiet s e s' :
  step s e s' →
  clock s ≤ clock s' ∧ (table s' = table s ∧ writes s' = writes s
    ∨ ∃ op sw, table s' = <[op := sw]> (table s) ∧ writes s' = (op, Paused sw, clock s) :: writes s).
Proof.
  destruct 1 as [now Hle|i q a|l1 l2 th th' s1 Hl Ha|i]; simpl;
    [split; [done|by left]|split; [lia|by left]| |split; [lia|by left]].
  destruct Ha; simpl; (split; [lia|]); first [by left|right; by eexists _, _].
Qed.

Lemma later_step s0 s e s' : later s0 s → step s e s' → later s0 s'.
Proof.
  intros [Hc (new & Hw & HF)] [Hn H]%step_quiet. split; [lia|].
  destruct H as [[_ ->]|(op & sw & _ & ->)]; [by exists new|]. exists ((op, Paused sw, clock s) :: new).
  split; [by rewrite Hw|]. by constructor.
Qed.

Lemma row_logged_step s e s' : row_logged s → step s e s' → row_logged s'.
Proof.
  intros HR [_ H]%step_quiet. intros op sw p T l. unfold writes_of.
  destruct H as [[-> ->]|(op' & sw' & -> & ->)]; [apply HR|]. simpl.
  intros [[-> ->]|[Hne Ht]]%lookup_insert_Some.
  - rewrite decide_True by done. by intros [= <- _ _].
  - rewrite decide_False by done. by apply HR.
Qed.

Lemma run_logged s h : run (s :: h) → ∀ s0, s0 ∈ s :: h → row_logged s0 ∧ later s0 s.
Proof.
  intros Hr. remember (s :: h) as l eqn:El. revert s h El.
  induction Hr as [now t|s1 h0 e s' Hr IH Hst]; intros s h [= <- <-] s0.
  { intros ->%list_elem_of_singleton. split; [by intros op sw p T l|apply later_refl]. }
  specialize (IH _ _ eq_refl). intros [->|Hin]%elem_of_cons.
  - split; [|apply later_refl]. eapply row_logged_step; [apply (IH s1); left|done].
  - destruct (IH s0 Hin). split; [done|]. by eapply later_step.
Qed.

(** A released row was there before the last write that engaged the switch. *)
Lemma released_before s h s0 op sw T l :
  run (s :: h) → s0 ∈ s :: h → table s0 !! op = Some sw → Paused sw = false →
  writes_of op s = (true, T) :: l → clock s0 ≤ T.
Proof.
  intros Hr Hin Ht Hp Hw. destruct (run_logged s h Hr s0 Hin) as [HR [_ (new & E & HF)]].
  unfold writes_of in Hw. rewrite E, omap_app in Hw. destruct (omap _ new) as [|x l'] eqn:En.
  - simpl in Hw. pose proof (HR op sw true T l Ht Hw). congruence.
  - simpl in Hw. injection Hw as -> _.
    assert (Hx : (true, T) ∈ omap (λ w : string * bool * Time, if decide (w.1.1 = op) then Some (w.1.2, w.2) else None) new)
      by (rewrite En; left).
    apply list_elem_of_omap in Hx as ([[o p] t] & Hin' & Hif). simpl in Hif. case_decide; [|done].
    injection Hif as _ <-. rewrite Forall_forall in HF. exact (HF _ Hin').
Qed.

Lemma writes_member op p T s : (op, p, T) ∈ writes s ↔ (p, T) ∈ writes_of op s.
Proof.
  unfold writes_of. rewrite list_elem_of_omap. split.
  - intros H. exists (op, p, T). split; [done|]. simpl. by rewrite decide_True.
  - intros ([[o q] t] & H & Hif). simpl in Hif. case_decide; [|done]. by simplify_eq.
Qed.

(** C10: An engaged switch is discovered.  Calls of EnsureAllowed and SetPaused
    run on any number of instances of the service, interleaved at every access
    to the clock, to an instance's cache and to the rows; any read or update may
    fail, an update also after it took effect, and instances restart.  Whenever
    a check lets an operation through, the operation is one that has a switch,
    and its row was released at a moment no further back than the two seconds of
    the cache plus [latency], the longest that a check takes from the row it
    read to the entry it writes; so nothing is let through that long after the
    last write engaged the switch.  A change that answers success has written
    the state it was asked for. *)
Theorem switch_bounded_staleness s h i a s' :
  run (s :: h) → step s (Answers i a) s' →
  match a with
  | Checked op (Ok _) =>
      Valid op = true
      ∧ (∃ s0 sw, s0 ∈ s :: h ∧ table s0 !! op = Some sw ∧ Paused sw = false
           ∧ clock s ≤ clock s0 + latency + switchCacheTTL)
      ∧ (∀ T l, writes_of op s = (true, T) :: l → clock s ≤ T + latency + switchCacheTTL)
  | Changed op paused (Ok sw) => Paused sw = paused ∧ ∃ T, (paused, T) ∈ writes_of op s'
  | _ => True
  end.
Proof.
  intros Hr Hst. destruct (step_fresh (s :: h) s _ s' (run_fresh s h Hr) (list_elem_of_here s h) Hst) as [_ Hs].
  specialize (Hs i a eq_refl). destruct a as [op [[]|]|op paused [sw|]]; simpl in Hs; try done.
  - destruct Hs as (Hv & at_ & sw & (s0 & Hin & <- & Ht) & Hp & Hn). split; [done|].
    split; [by exists s0, sw|]. intros T l Hw. pose proof (released_before s h s0 op sw T l Hr Hin Ht Hp Hw). lia.
  - destruct Hs as (Hp & T & HT). split; [done|]. exists T. by apply writes_member.
Qed.
End System.

(** ** Runs that nothing fails *)

(** The next access of a call, when the database answers. *)
Definition advance (userExists : UUID → bool) (th : Thread) (s : Sys) : Thread * Sys :=
  let next p := mkThread (inst th) p (asked th) in
  match rest th with
  | Ret _ => (th, s)
  | ReadClock k => (next (k (clock s)), s)
  | ReadCache op k => (next (k (caches s (inst th) !! op)), s)
  | WriteCache op e k => (next k, with_cache (inst th) <[op := e]> s)
  | DropCache op k => (next k, with_cache (inst th) (delete op) s)
  | QuerySwitch op k => (mkThread (inst th) (k (GetSwitch true op (table s))) (clock s), s)
  | UpdateSwitch op paused reason actor k =>
      match (SetSwitch (clock s) userExists DBOk op paused reason actor (table s)).1 with
      | Ok sw => (next (k (Ok sw)),
                  mkSys (clock s) (<[op := sw]> (table s)) (caches s) (threads s) ((op, Paused sw, clock s) :: writes s))
      | Err e => (next (k (Err e)), s)
      end
  end.

(** The moves of a schedule: the clock, a new call, the next access of the
    [n]-th call in flight. *)
Inductive move := Tick (now : Time) | Begin (i : nat) (q : call) | Go (n : nat).

Definition act (userExists : UUID → bool) (m : move) (s : Sys) : event * Sys :=
  match m with
  | Tick now => (Silent, mkSys now (table s) (caches s) (threads s) (writes s))
  | Begin i q => (told (mkThread i (body q) 0), with_threads (mkThread i (body q) 0 :: threads s) s)
  | Go n =>
      match threads s !! n with
      | Some th => let '(th', s') := advance userExists th s in (told th', with_threads (<[n := th']> (threads s)) s')
      | None => (Silent, s)
      end
  end.

(** The clock does not run back, and an entry is written in time. *)
Definition goes (latency : Duration) (th : Thread) (s : Sys) : bool :=
  match rest th with
  | Ret _ => false
  | WriteCache _ _ _ => clock s <=? asked th + latency
  | _ => true
  end.

Definition can (latency : Duration) (m : move) (s : Sys) : bool :=
  match m with
  | Tick now => clock s <=? now
  | Begin i q => true
  | Go n => match threads s !! n with Some th => goes latency th s | None => false end
  end.

Lemma advance_access latency userExists th s :
  goes latency th s = true → access latency userExists s th (advance userExists th s).1 (advance userExists th s).2.
Proof.
  destruct th as [i p a]. unfold advance, goes. simpl. destruct p as [x|k|op k|op e k|op k|op k|op paused reason actor k];
    intros H; simpl; try done; try (by constructor); [constructor; by apply Z.leb_le|].
  destruct (SetSwitch (clock s) userExists DBOk op paused reason actor (table s)) as [r t'] eqn:E. simpl.
  destruct r as [sw|e]; simpl.
  - destruct (SetSwitch_Ok _ _ _ _ _ _ _ _ _ _ E) as [_ ->]. by eapply ac_update.
  - assert (t' = table s) as ->; [|by eapply ac_unwritten].
    revert E. unfold SetSwitch. destruct (table s !! op); [|by intros [= _ <-]].
    destruct (match actor with Some u => negb (userExists u) | None => false end); [by intros [= _ <-]|done].
Qed.

Lemma act_step latency userExists m s :
  can latency m s = true → step latency userExists s (act userExists m s).1 (act userExists m s).2.
Proof.
  destruct m as [now|i q|n]; simpl; [intros ?%Z.leb_le; by constructor|constructor|].
  destruct (threads s !! n) as [th|] eqn:E; [|done]. intros H.
  pose proof (advance_access latency userExists th s H) as Ha. destruct (advance userExists th s) as [th' s1].
  simpl. destruct (list_elem_of_split_length _ _ _ E) as (l1 & l2 & El & ->).
  rewrite El, insert_app_r_alt, Nat.sub_diag by lia. simpl. by eapply step_access.
Qed.

(** The states of a schedule, newest first. *)
Fixpoint acts (userExists : UUID → bool) (l : list move) (h : list Sys) (s : Sys) : list Sys * Sys :=
  match l with
  | [] => (h, s)
  | m :: l' => acts userExists l' (s :: h) (act userExists m s).2
  end.

Fixpoint cans (latency : Duration) (userExists : UUID → bool) (l : list move) (s : Sys) : bool :=
  match l with
  | [] => true
  | m :: l' => can latency m s && cans latency userExists l' (act userExists m s).2
  end.

Lemma acts_run latency userExists l h s :
  run latency userExists (s :: h) → cans latency userExists l s = true →
  run latency userExists ((acts userExists l h s).2 :: (acts userExists l h s).1).
Proof.
  revert h s. induction l as [|m l IH]; intros h s Hr; simpl; [done|]. intros [Hm Hl]%andb_prop.
  apply IH; [|done]. eapply run_step; [done|]. by apply act_step.
Qed.

(** ** A check in flight *)

Definition demo_row (paused : bool) : Table := {[OperationDeposit := mkSwitch OperationDeposit paused "" None 0]}.
Definition demo_start : Sys := mkSys 0 (demo_row false) (λ _, ∅) [] [].

(** A check reads the released row; the operator engages the switch on the same
    instance, which drops its entry; the check then writes what it had read; a
    second later another check begins there and finds the entry. *)
Definition demo_schedule : list move :=
  [ Begin 0 (RunEnsureAllowed OperationDeposit); Go 0; Go 0;
    Begin 0 (RunSetPaused OperationDeposit true "incident" None); Go 0; Go 0; Go 0;
    Go 1; Go 1; Tick Second; Begin 0 (RunEnsureAllowed OperationDeposit); Go 0 ].

#[local] Abbreviation demo_acts l := (acts (λ _, true) l [] demo_start).

(** The change has been answered with success, and a second later a check on
    the same instance is let through. *)
Lemma stale_fill_outlives_change :
  (act (λ _, true) (Go 0) (demo_acts (take 6 demo_schedule)).2).1
    = Answers 0 (Changed OperationDeposit true (Ok (mkSwitch OperationDeposit true "incident" None 0)))
  ∧ (act (λ _, true) (Go 0) (demo_acts demo_schedule).2).1 = Answers 0 (Checked OperationDeposit (Ok tt))
  ∧ clock (demo_acts demo_schedule).2 = Second
  ∧ writes_of OperationDeposit (demo_acts demo_schedule).2 = [(true, 0)].
Proof. vm_compute. done. Qed.

Lemma switch_bounded_staleness_witness :
  let s := (demo_acts demo_schedule).2 in
  clock s = Second ∧ writes_of OperationDeposit s = [(true, 0)]
  ∧ ∃ s0 sw, s0 ∈ s :: (demo_acts demo_schedule).1 ∧ table s0 !! OperationDeposit = Some sw ∧ Paused sw = false
      ∧ clock s ≤ clock s0 + Second + switchCacheTTL.
Proof.
  destruct stale_fill_outlives_change as (_ & He & Hc & Hw). split; [exact Hc|]. split; [exact Hw|].
  assert (Hcan : cans Second (λ _, true) demo_schedule demo_start = true) by (vm_compute; reflexivity).
  pose proof (acts_run Second (λ _, true) demo_schedule [] demo_start (run_start _ _ 0 (demo_row false)) Hcan) as Hr.
  pose proof (act_step Second (λ _, true) (Go 0) (demo_acts demo_schedule).2 ltac:(vm_compute; reflexivity)) as Hst.
  rewrite He in Hst.
  exact (proj1 (proj2 (switch_bounded_staleness Second (λ _, true) _ _ 0 _ _ Hr Hst))).
Defined.
