(* ===== verification/VaultService.v ===== *)
(** The vault service (internal/service: vault_service.go,
    operator_funded_deposits.go): the rules in front of the repository of
    [VaultStore] and the calls to the chain that go with them.

    A method is a program [Srv] over the tables, the spending of the operator's
    account and the calls sent to the chain; the runtime panic of a division by
    zero is an outcome.  What the chain, the event verifier, the pause switches
    ([MoneyPath]) and the goal router answer are arguments, and so is which
    queries reach the database.  Allocations, metrics and the read-only
    presentation of positions and projections are left out. *)

From S2P Require Import Prelude Sql GoStrings Decimal Vault.
From S2P Require Import Ledger.
From S2P Require Import VaultStore.
From S2P Require Import MoneyPath.
Open Scope Z_scope.
Open Scope go_scope.

Section Service.
Context {D : Type} `{!Decimal D}.

(** ** Programs *)

(** What the operator's key is asked to do on the chain. *)
Inductive ChainCall :=
| CallDeposit (contract : string) (stroops : Z)
| CallWithdraw (contract : string) (sharesStroops slippageBps : Z)
| CallHarvest (contract user : string) (compound : bool)
| CallEmergency (contract : string).

Record World := mkWorld {
  tables : Store;
  spent : gmap UUID D;
  calls : list ChainCall;
}.

Inductive outcome (A : Type) :=
| Done (r : result VaultErr A)
| Panics.
#[global] Arguments Done {A} r.
#[global] Arguments Panics {A}.

Definition Srv (A : Type) : Type := World → outcome A * World.

#[export] Instance Srv_ret : MRet Srv := λ A a w, (Done (Ok a), w).
#[export] Instance Srv_bind : MBind Srv := λ A B f m w,
  match m w with
  | (Done (Ok a), w') => f a w'
  | (Done (Err e), w') => (Done (Err e), w')
  | (Panics, w') => (Panics, w')
  end.

Definition failS {A} (e : VaultErr) : Srv A := λ w, (Done (Err e), w).
Definition liftS {A} (r : result VaultErr A) : Srv A := λ w, (Done r, w).
(** A division, which panics on zero. *)
Definition unwrap {A} (o : option A) : Srv A := λ w, (match o with Some a => Done (Ok a) | None => Panics end, w).
Definition send (c : ChainCall) : Srv unit := λ w, (Done (Ok tt), mkWorld (tables w) (spent w) (calls w ++ [c])).
Definition inTables {A} (m : Tx A) : Srv A := λ w,
  let '(r, s) := m (tables w) in (Done r, mkWorld s (spent w) (calls w)).
Definition ensure (b : bool) (e : VaultErr) : Srv unit := if b then mret tt else failS e.

(** ** Operator-funded deposits (operator_funded_deposits.go) *)

Record OperatorFundedDepositPolicy := mkPolicy {
  enabled : bool;
  allowedVaults : gset UUID;
  maxAmount : D;
}.

Definition NewOperatorFundedDepositPolicy (en : bool) (vaults : list UUID) (cap : D)
    : OperatorFundedDepositPolicy :=
  mkPolicy en (list_to_set (List.filter (λ id, negb (id =? uuid_Nil)) vaults)) cap.

(** strings.Split at commas. *)
Fixpoint parse_ids (parse : string → option UUID) (parts : list string) : option (list UUID) :=
  match parts with
  | [] => Some []
  | p :: parts =>
      let p := TrimSpace p in
      if decide (p = "") then parse_ids parse parts
      else id ← parse p; ids ← parse_ids parse parts; Some (id :: ids)
  end.

Definition ParseOperatorFundedVaultIDs (parse : string → option UUID) (split : string → list string)
    (raw : string) : option (list UUID) :=
  let trimmed := TrimSpace raw in
  if decide (trimmed = "") then Some [] else parse_ids parse (split trimmed).

Definition Authorize (p : option OperatorFundedDepositPolicy) (vault : UUID) (amount : D) : Srv unit :=
  match p with
  | None => failS ErrOperatorFundedDepositDisabled
  | Some p =>
      if negb (enabled p) then failS ErrOperatorFundedDepositDisabled
      else if negb (bool_decide (vault ∈ allowedVaults p)) then failS ErrOperatorFundedDepositNotAllowed
      else if d_le (maxAmount p) d_zero || d_lt (maxAmount p) amount
      then failS ErrOperatorFundedDepositCapExceeded
      else λ w, (Done (Ok tt),
             mkWorld (tables w) (<[vault := d_add (default d_zero (spent w !! vault)) amount]> (spent w)) (calls w))
  end.

(** ** The service *)

(** VaultDepositInvoker: what each call answers.  The text of an error of a
    deposit is looked at. *)
Record Invoker := mkInvoker {
  DepositToVault : string → Z → result string unit;
  WithdrawFromVault : string → Z → Z → result VaultErr string;
  PreviewDeposit : string → Z → result VaultErr Z;
  PreviewWithdraw : string → Z → result VaultErr Z;
  HarvestVault : string → string → bool → result VaultErr string;
  EmergencyWithdrawAll : string → result VaultErr unit;
}.

Record VerifiedVaultEvent := mkVerified {
  ev_amount : D;
  ev_account : string;
}.

Definition Verifier := string → string → string → result VaultErr VerifiedVaultEvent.

(** GoalYieldRouter: the goal linked to a vault and its preference, and the
    credit of its yield balance. *)
Record Router := mkRouter {
  GetAutoCompoundForVault : UUID → result VaultErr (option (UUID * bool));
  CreditGoalYieldBalance : UUID → D → result VaultErr unit;
}.

Record VaultService := mkService {
  depositInvoker : option Invoker;
  operatorFundedDeposits : option OperatorFundedDepositPolicy;
  chainVerifier : option Verifier;
  defaultHarvestCompound : bool;
  goalYieldRouter : option Router;
  moneyPathSwitches : option (string → result VaultErr unit);
}.

(** Which queries of a call reach the database, and how its transaction ends. *)
Record Env := mkEnv { e_read : bool; e_begin : bool; e_commit : dbres; e_reread : bool }.

Context (uuidNew : nat → UUID) (dbnow : Time) (userExists : UUID → bool).
Context (toLower toUpper : string → string) (unicode_fold : string → string → bool).
Context (Exponent : D → Z).
Context (sv : VaultService).

Definition ensureMoneyPathAllowed (op : string) : Srv unit :=
  match moneyPathSwitches sv with None => mret tt | Some gate => liftS (gate op) end.

Definition decimalScale (x : D) : Z := if 0 <=? Exponent x then 0 else - Exponent x.
Definition MaxAmountScale : Z := 8.

Definition read_vault (ok : bool) (id : UUID) : Srv (Model (D:=D)) := inTables (GetVault ok id).

Definition as_vault (m : Model (D:=D)) : Vault (D:=D) :=
  mkVault (m_id m) (m_total m) (m_balance m) (m_status m) None None [].
Definition sharePrice (m : Model (D:=D)) : option D := ComputeSharePrice (as_vault m).

Definition stroopsPerUnit : D := d_of_Z 10000000.

Record CreateVaultInput := mkCreate {
  ci_user : UUID; ci_contract : string; ci_currency : string; ci_status : string;
}.

Definition parsed {A} (r : result VaultError A) : result VaultErr A :=
  match r with
  | Ok a => Ok a
  | Err Vault.ErrInvalidHarvestFrequency => Err ErrInvalidHarvestFrequency
  | Err _ => Err ErrInvalidVault
  end.

Definition svcCreateVault (env : Env) (newID : UUID) (i : CreateVaultInput) : Srv (Model (D:=D)) :=
  ensure (negb (ci_user i =? uuid_Nil)) ErrInvalidVault;;
  let contract := TrimSpace (ci_contract i) in
  ensure (negb (bool_decide (contract = ""))) ErrInvalidVault;;
  let currency := toUpper (TrimSpace (ci_currency i)) in
  ensure (negb (bool_decide (currency = ""))) ErrInvalidVault;;
  status ← (if decide (TrimSpace (ci_status i) = "") then mret StatusActive
            else liftS (parsed (ParseStatus toLower (TrimSpace (ci_status i)))));
  ensure (negb (newID =? uuid_Nil)) ErrInvalidVault;;
  inTables (CreateVault dbnow userExists (e_begin env) (e_commit env) newID
    (mkModel newID (ci_user i) contract d_zero d_zero currency status d_zero d_zero "" None)).

Definition svcGetVault (env : Env) (id : UUID) : Srv (Model (D:=D)) :=
  ensure (negb (id =? uuid_Nil)) ErrInvalidVault;; read_vault (e_read env) id.

Record RecordInput := mkInput {
  ri_vault : UUID; ri_user : UUID; ri_amount : D; ri_hash : string; ri_fee : D; ri_wallet : string;
  ri_slippage : Z;
}.

(** The checks that deposits and withdrawals share. *)
Definition checked_vault (env : Env) (op : string) (i : RecordInput) : Srv (Model (D:=D)) :=
  ensureMoneyPathAllowed op;;
  ensure (negb (ri_vault i =? uuid_Nil)) ErrInvalidVault;;
  ensure (negb (d_le (ri_amount i) d_zero)) ErrInvalidAmount;;
  ensure (decimalScale (ri_amount i) <=? MaxAmountScale) ErrInvalidPrecision;;
  read_vault (e_read env) (ri_vault i).

Definition owner (i : RecordInput) (m : Model (D:=D)) : UUID :=
  if ri_user i =? uuid_Nil then m_user m else ri_user i.

(** The verified event of a hash, checked to be the caller's. *)
Definition verified (verify : Verifier) (hash contract ty wallet : string) : Srv D :=
  ensure (negb (bool_decide (hash = ""))) ErrTxHashRequired;;
  event ← liftS (verify hash contract ty);
  let caller := TrimSpace wallet in
  ensure (bool_decide (caller = "") || bool_decide (ev_account event = "")
          || EqualFold unicode_fold caller (ev_account event)) ErrChainEventCallerMismatch;;
  ensure (negb (d_le (ev_amount event) d_zero)) ErrInvalidAmount;;
  mret (ev_amount event).

(** The deposit that the operator pays for. *)
Definition submit_deposit (i : RecordInput) (m : Model (D:=D)) (inv : Invoker) : Srv unit :=
  Authorize (operatorFundedDeposits sv) (ri_vault i) (ri_amount i);;
  let stroops := decimalToStroops (ri_amount i) in
  send (CallDeposit (m_contract m) stroops);;
  match DepositToVault inv (m_contract m) stroops with
  | Ok _ => mret tt
  | Err text => failS (if Contains text "#21" then ErrBelowMinDeposit else ErrOnChain)
  end.

Definition svcRecordDeposit (env : Env) (i : RecordInput) : Srv (Model (D:=D)) :=
  existing ← checked_vault env OperationDeposit i;
  let userID := owner i existing in
  let txHash := TrimSpace (ri_hash i) in
  ensure (bool_decide (txHash = "") || bool_decide (is_Some (chainVerifier sv))) ErrChainVerificationUnavailable;;
  (match depositInvoker sv with
   | Some inv => if decide (txHash = "") then submit_deposit i existing inv else mret tt
   | None => mret tt
   end);;
  amount ← match chainVerifier sv with
           | Some verify => verified verify txHash (m_contract existing) "deposit" (ri_wallet i)
           | None => mret (ri_amount i)
           end;
  price ← unwrap (sharePrice existing);
  shares ← unwrap (d_div amount price);
  inTables (RecordDeposit uuidNew dbnow userExists (e_begin env) (e_commit env) (ri_vault i)
    (mkRecord userID amount txHash (d_round 6 shares) price (ri_fee i)));;
  read_vault (e_reread env) (ri_vault i).

Definition resolveWithdrawalShares (inv : Invoker) (m : Model (D:=D)) (assetAmount : D) : Srv Z :=
  price ← unwrap (sharePrice m);
  ensure (negb (d_le price d_zero)) ErrInvalidSharePrice;;
  shares ← unwrap (d_div assetAmount price);
  let sharesStroops := d_intpart (d_round 0 (d_mul shares stroopsPerUnit)) in
  ensure (0 <? sharesStroops) ErrInvalidAmount;;
  match PreviewWithdraw inv (m_contract m) sharesStroops with
  | Err _ => mret sharesStroops
  | Ok previewed =>
      if previewed <=? 0 then mret sharesStroops
      else
        q ← unwrap (d_div (d_mul (d_of_Z sharesStroops) (d_mul assetAmount stroopsPerUnit)) (d_of_Z previewed));
        let corrected := d_intpart (d_round 0 q) in
        mret (if corrected <=? 0 then sharesStroops else corrected)
  end.

(** The withdrawal that the operator submits: its hash and the shares burned. *)
Definition submit_withdrawal (i : RecordInput) (m : Model (D:=D)) (inv : Invoker) : Srv (string * D) :=
  sharesStroops ← resolveWithdrawalShares inv m (ri_amount i);
  send (CallWithdraw (m_contract m) sharesStroops (ri_slippage i));;
  submitted ← liftS (match WithdrawFromVault inv (m_contract m) sharesStroops (ri_slippage i) with
                     | Ok h => Ok h | Err _ => Err ErrOnChain end);
  q ← unwrap (d_div (d_of_Z sharesStroops) stroopsPerUnit);
  mret (TrimSpace submitted, q).

Definition svcRecordWithdrawal (env : Env) (i : RecordInput) : Srv (Model (D:=D)) :=
  existing ← checked_vault env OperationWithdrawal i;
  ensure (negb (bool_decide (m_status existing = StatusClosed))) ErrVaultClosed;;
  ensure (negb (d_lt (m_balance existing) (ri_amount i))) ErrWithdrawalExceedsPosition;;
  ensure (bool_decide (TrimSpace (ri_hash i) = "") || bool_decide (is_Some (chainVerifier sv)))
    ErrChainVerificationUnavailable;;
  let userID := owner i existing in
  submitted ← match depositInvoker sv with
              | Some inv =>
                  if decide (TrimSpace (ri_hash i) = "") then submit_withdrawal i existing inv
                  else mret (TrimSpace (ri_hash i), d_zero)
              | None => mret (TrimSpace (ri_hash i), d_zero)
              end;
  let txHash := submitted.1 in
  amount ← match chainVerifier sv with
           | Some verify =>
               a ← verified verify txHash (m_contract existing) "withdraw" (ri_wallet i);
               ensure (negb (d_lt (m_balance existing) a)) ErrWithdrawalExceedsPosition;;
               mret a
           | None => mret (ri_amount i)
           end;
  price ← unwrap (sharePrice existing);
  shares ← unwrap (d_div amount price);
  let shares := if d_lt d_zero submitted.2 then d_round 6 submitted.2 else d_round 6 shares in
  inTables (RecordWithdrawal uuidNew dbnow userExists (e_begin env) (e_commit env) (ri_vault i)
    (mkRecord userID amount txHash shares price (ri_fee i)));;
  read_vault (e_reread env) (ri_vault i).

(** ** Status *)

Definition set_vault (env : Env) (id : UUID) (contract : string) (st : VaultStatus) : Srv (Model (D:=D)) :=
  inTables (UpdateVault dbnow (e_begin env) (e_commit env) id contract st);;
  read_vault (e_reread env) id.

Definition svcUpdateVault (env : Env) (id : UUID) (contractAddress status : string) : Srv (Model (D:=D)) :=
  existing ← svcGetVault env id;
  let contract := if decide (TrimSpace contractAddress = "") then m_contract existing
                  else TrimSpace contractAddress in
  newStatus ←
    (if decide (TrimSpace status = "") then mret (m_status existing)
     else
       p ← liftS (parsed (ParseStatus toLower status));
       ensure (bool_decide (p = m_status existing) || CanTransitionTo (m_status existing) p) ErrInvalidTransition;;
       mret p);
  set_vault env id contract newStatus.

Definition svcUpdateHarvestFrequency (env : Env) (id user : UUID) (frequency : string) : Srv (Model (D:=D)) :=
  ensure (negb (id =? uuid_Nil)) ErrInvalidVault;;
  p ← liftS (parsed (ParseHarvestFrequency toLower frequency));
  existing ← read_vault (e_read env) id;
  ensure (m_user existing =? user) ErrVaultForbidden;;
  inTables (UpdateHarvestFrequency dbnow (e_begin env) (e_commit env) id p);;
  read_vault (e_reread env) id.

Definition svcCloseVault (env : Env) (id : UUID) (force : bool) : Srv (Model (D:=D)) :=
  existing ← svcGetVault env id;
  ensure (negb (bool_decide (m_status existing = StatusClosed))) ErrVaultClosed;;
  ensure (force || negb (d_lt d_zero (m_balance existing))) ErrInsufficientBalance;;
  set_vault env id (m_contract existing) StatusClosed.

Definition svcPauseVault (env : Env) (id : UUID) : Srv (Model (D:=D)) :=
  existing ← svcGetVault env id;
  ensure (negb (bool_decide (m_status existing = StatusClosed))) ErrVaultClosed;;
  ensure (bool_decide (m_status existing = StatusActive)) ErrVaultNotActive;;
  set_vault env id (m_contract existing) StatusPaused.

Definition svcUnpauseVault (env : Env) (id : UUID) : Srv (Model (D:=D)) :=
  existing ← svcGetVault env id;
  ensure (negb (bool_decide (m_status existing = StatusClosed))) ErrVaultClosed;;
  ensure (bool_decide (m_status existing = StatusPaused)) ErrInvalidTransition;;
  set_vault env id (m_contract existing) StatusActive.

Definition svcDeleteVault (env : Env) (id : UUID) : Srv unit :=
  svcGetVault env id;;
  inTables (SoftDeleteVault dbnow (e_begin env) (e_commit env) id).

Definition svcEmergencyWithdraw (env : Env) (id : UUID) : Srv unit :=
  existing ← svcGetVault env id;
  match depositInvoker sv with
  | None => mret tt
  | Some inv =>
      send (CallEmergency (m_contract existing));;
      liftS (match EmergencyWithdrawAll inv (m_contract existing) with Ok _ => Ok tt | Err _ => Err ErrOnChain end)
  end.

(** ** Harvest *)

Definition defaultHarvestPerformanceFeeBPS : Z := 1000.

Definition harvestableYield (m : Model (D:=D)) : D :=
  if d_lt d_zero (m_yield m) then m_yield m
  else
    let delta := d_sub (m_balance m) (m_total m) in
    if d_lt d_zero delta then delta else d_zero.

(** The fee of a gross yield and what is left of it. *)
Definition split_yield (gross : D) : option (D * D) :=
  q ← d_div (d_mul gross (d_of_Z defaultHarvestPerformanceFeeBPS)) (d_of_Z 10000);
  let performanceFee := d_round MaxAmountScale q in
  Some (performanceFee, d_sub gross performanceFee).

Definition estimateSharesMinted (m : Model (D:=D)) (netYield : D) : option D :=
  if d_le netYield d_zero then Some d_zero
  else if d_le (m_total m) d_zero then Some netYield
  else
    price ← d_div (m_balance m) (m_total m);
    if d_le price d_zero then Some netYield
    else q ← d_div netYield price; Some (d_round MaxAmountScale q).

Record HarvestInput := mkHarvestInput {
  hi_vault : UUID; hi_user : UUID; hi_wallet : string; hi_compound : option bool;
}.

Record HarvestResult := mkHarvestResult {
  GrossYield : D; PerformanceFee : D; NetYield : D; Compounded : bool; NewShares : option D; HarvestHash : string;
}.

(** The goal linked to the vault and whether the yield is compounded. *)
Definition compound_choice (i : HarvestInput) : Srv (option UUID * bool) :=
  linked ← match goalYieldRouter sv with
           | None => mret None
           | Some rt => liftS (GetAutoCompoundForVault rt (hi_vault i))
           end;
  let c := match linked with Some (_, auto) => auto | None => defaultHarvestCompound sv end in
  mret (fst <$> linked, match hi_compound i with Some c => c | None => c end).

Definition submit_harvest (i : HarvestInput) (m : Model (D:=D)) (compound : bool) : Srv string :=
  match depositInvoker sv with
  | None => mret ""%string
  | Some inv =>
      let user := TrimSpace (hi_wallet i) in
      ensure (negb (bool_decide (user = ""))) ErrOther;;
      send (CallHarvest (m_contract m) user compound);;
      liftS (match HarvestVault inv (m_contract m) user compound with Ok h => Ok h | Err _ => Err ErrOnChain end)
  end.

Definition svcHarvestVault (env : Env) (i : HarvestInput) : Srv HarvestResult :=
  ensure (negb ((hi_vault i =? uuid_Nil) || (hi_user i =? uuid_Nil))) ErrInvalidVault;;
  existing ← read_vault (e_read env) (hi_vault i);
  ensure (m_user existing =? hi_user i) ErrVaultForbidden;;
  ensure (negb (bool_decide (m_status existing = StatusClosed))) ErrVaultClosed;;
  ensure (bool_decide (m_status existing = StatusActive)) ErrVaultNotActive;;
  choice ← compound_choice i;
  let compound := choice.2 in
  let gross := harvestableYield existing in
  if d_le gross d_zero then mret (mkHarvestResult d_zero d_zero d_zero compound None "")
  else
    parts ← unwrap (split_yield gross);
    let '(performanceFee, netYield) := parts in
    txHash ← submit_harvest i existing compound;
    newShares ← (if (compound : bool) then s ← unwrap (estimateSharesMinted existing netYield); mret (Some s)
                 else mret None);
    inTables (RecordHarvest uuidNew dbnow userExists (e_begin env) (e_commit env)
      (mkHarvest (hi_vault i) (hi_user i) netYield performanceFee compound newShares txHash));;
    (match choice.1, goalYieldRouter sv with
     | Some goal, Some rt => if (compound : bool) then mret tt else liftS (CreditGoalYieldBalance rt goal netYield)
     | _, _ => mret tt
     end);;
    mret (mkHarvestResult gross performanceFee netYield compound newShares txHash).

(** ** Rebalance *)

Record RebalancePositionInput := mkRebalanceInput {
  rp_vault : UUID; rp_user : UUID; rp_from : string; rp_to : string; rp_amount : D; rp_hash : string;
}.

Definition svcRebalancePosition (env : Env) (i : RebalancePositionInput) : Srv (Model (D:=D)) :=
  ensureMoneyPathAllowed OperationWithdrawal;;
  ensure (negb ((rp_vault i =? uuid_Nil) || (rp_user i =? uuid_Nil))) ErrInvalidVault;;
  ensure (negb (d_le (rp_amount i) d_zero)) ErrInvalidAmount;;
  ensure (negb (bool_decide (rp_from i = "") || bool_decide (rp_to i = ""))) ErrInvalidVault;;
  ensure (negb (bool_decide (rp_from i = rp_to i))) ErrInvalidVault;;
  existing ← read_vault (e_read env) (rp_vault i);
  ensure (m_user existing =? rp_user i) ErrVaultForbidden;;
  ensure (bool_decide (m_status existing = StatusActive)) ErrVaultNotActive;;
  ensure (negb (d_lt (m_balance existing) (rp_amount i))) ErrInsufficientBalance;;
  price ← unwrap (sharePrice existing);
  shares ← unwrap (d_div (rp_amount i) price);
  let rc := mkRecord (rp_user i) (rp_amount i) (rp_hash i) (d_round 6 shares) price d_zero in
  inTables (RecordRebalance uuidNew dbnow userExists (e_begin env) (e_commit env)
    (mkRebalance (rp_vault i) (rp_user i) (rp_from i) (rp_to i) (rp_amount i) (rp_hash i)) rc rc);;
  read_vault (e_reread env) (rp_vault i).
End Service.
