(* ===== verification/VaultRules.v ===== *)
(** What the vault service guarantees: pauses, verified amounts, the operator's
    money, shares, statuses; and that its calls are the moves whose books
    [VaultBooks] keeps. *)

From Stdlib Require Import Qround.
From S2P Require Import Prelude Sql GoStrings Decimal Vault.
From S2P Require Import Ledger.
From S2P Require Import VaultStore.
From S2P Require Import Indexer.
From S2P Require Import VaultBooks.
From S2P Require Import MoneyPath.
From S2P Require Import VaultService.
Open Scope Z_scope.
Open Scope go_scope.

Section Rules.
Context {D : Type} `{!Decimal D} `{!DecimalLaws D}.

#[local] Abbreviation World := (World (D:=D)).
#[local] Abbreviation Srv := (Srv (D:=D)).

(** ** Running programs *)

Lemma bind_Srv {A B} (m : Srv A) (f : A → Srv B) w o w' :
  (m ≫= f) w = (o, w') →
  (∃ a w1, m w = (Done (Ok a), w1) ∧ f a w1 = (o, w'))
  ∨ ((∃ e, m w = (Done (Err e), w') ∧ o = Done (Err e)) ∨ m w = (Panics, w') ∧ o = Panics).
Proof.
  unfold mbind, Srv_bind. destruct (m w) as [[[a|e]|] w1]; [eauto| |]; intros [= <- <-]; right; eauto.
Qed.

Lemma bind_Srv_Ok {A B} (m : Srv A) (f : A → Srv B) w b w' :
  (m ≫= f) w = (Done (Ok b), w') → ∃ a w1, m w = (Done (Ok a), w1) ∧ f a w1 = (Done (Ok b), w').
Proof. intros [H|[(e & _ & ?)|(_ & ?)]]%bind_Srv; done. Qed.

Lemma ensure_Ok b e (w : World) u w' : ensure b e w = (Done (Ok u), w') → b = true ∧ w' = w.
Proof. unfold ensure. destruct b; by intros [= _ <-]. Qed.

Lemma ensure_run b e (w : World) o w' :
  ensure b e w = (o, w') → w' = w ∧ (b = true ∧ o = Done (Ok tt) ∨ b = false ∧ o = Done (Err e)).
Proof. unfold ensure. destruct b; intros [= <- <-]; auto. Qed.

Lemma inTables_run {A} (m : Tx A) (w : World) o w' :
  inTables m w = (o, w') →
  ∃ r s, m (tables w) = (r, s) ∧ o = Done r ∧ w' = mkWorld s (spent w) (calls w).
Proof. unfold inTables. destruct (m (tables w)) as [r s]. intros [= <- <-]. eauto. Qed.

Lemma read_vault_Ok ok id (w : World) m w' :
  read_vault ok id w = (Done (Ok m), w') →
  w' = w ∧ ∃ r, vaults (tables w) !! id = Some r ∧ live r = true ∧ m = scanVault id r.
Proof.
  intros (r & s & Hg & [= <-] & ->)%inTables_run. unfold GetVault, readTx in Hg. destruct ok; simpl in Hg; [|done].
  destruct (vaults (tables w) !! id) as [r|] eqn:Er; [|done]. destruct (live r) eqn:El; [|done].
  injection Hg as <- <-. split; [by destruct w|]. by exists r.
Qed.

Lemma read_vault_same ok id (w : World) : (read_vault ok id w).2 = w.
Proof. unfold read_vault, inTables, GetVault, readTx. by destruct w. Qed.

(** A program that sends nothing to the chain and spends nothing. *)
Definition quiet {A} (m : Srv A) : Prop := ∀ w, calls (m w).2 = calls w ∧ spent (m w).2 = spent w.

Lemma q_bind {A B} (m : Srv A) (f : A → Srv B) : quiet m → (∀ a, quiet (f a)) → quiet (m ≫= f).
Proof.
  intros Hm Hf w. unfold mbind, Srv_bind. destruct (Hm w) as [H1 H2].
  destruct (m w) as [[[a|e]|] w1]; simpl in *; [|done|done]. destruct (Hf a w1). split; congruence.
Qed.
Lemma q_ret {A} (a : A) : quiet (mret a). Proof. done. Qed.
Lemma q_fail {A} e : quiet (failS (A:=A) e). Proof. done. Qed.
Lemma q_lift {A} (r : result VaultErr A) : quiet (liftS r). Proof. done. Qed.
Lemma q_unwrap {A} (o : option A) : quiet (unwrap o). Proof. done. Qed.
Lemma q_ensure b e : quiet (ensure b e). Proof. by destruct b. Qed.
Lemma q_tables {A} (m : Tx A) : quiet (inTables m).
Proof. intros w. unfold inTables. by destruct (m (tables w)). Qed.
Lemma q_read ok id : quiet (read_vault ok id). Proof. apply q_tables. Qed.

(** A program that leaves the tables. *)
Definition tabled {A} (m : Srv A) : Prop := ∀ w, tables (m w).2 = tables w.

Lemma t_bind {A B} (m : Srv A) (f : A → Srv B) : tabled m → (∀ a, tabled (f a)) → tabled (m ≫= f).
Proof.
  intros Hm Hf w. unfold mbind, Srv_bind. specialize (Hm w).
  destruct (m w) as [[[a|e]|] w1]; simpl in *; [|done|done]. by rewrite Hf.
Qed.
Lemma t_ret {A} (a : A) : tabled (mret a). Proof. done. Qed.
Lemma t_fail {A} e : tabled (failS (A:=A) e). Proof. done. Qed.
Lemma t_lift {A} (r : result VaultErr A) : tabled (liftS r). Proof. done. Qed.
Lemma t_unwrap {A} (o : option A) : tabled (unwrap o). Proof. done. Qed.
Lemma t_ensure b e : tabled (ensure b e). Proof. by destruct b. Qed.
Lemma t_send c : tabled (send c). Proof. done. Qed.
Lemma t_read ok id : tabled (read_vault ok id). Proof. intros w. by rewrite read_vault_same. Qed.

(** A program that changes nothing. *)
Definition looks {A} (m : Srv A) : Prop := ∀ w, (m w).2 = w.

Lemma l_bind {A B} (m : Srv A) (f : A → Srv B) : looks m → (∀ a, looks (f a)) → looks (m ≫= f).
Proof.
  intros Hm Hf w. unfold mbind, Srv_bind. specialize (Hm w).
  destruct (m w) as [[[a|e]|] w1]; simpl in *; subst; [apply Hf|done|done].
Qed.
Lemma l_ret {A} (a : A) : looks (mret a). Proof. done. Qed.
Lemma l_fail {A} e : looks (failS (A:=A) e). Proof. done. Qed.
Lemma l_lift {A} (r : result VaultErr A) : looks (liftS r). Proof. done. Qed.
Lemma l_unwrap {A} (o : option A) : looks (unwrap o). Proof. done. Qed.
Lemma l_ensure b e : looks (ensure b e). Proof. by destruct b. Qed.
Lemma l_read ok id : looks (read_vault ok id). Proof. intros w. apply read_vault_same. Qed.
End Rules.

Create HintDb srv.
#[export] Hint Resolve l_ret l_fail l_lift l_unwrap l_ensure l_read : srv.
#[export] Hint Resolve q_ret q_fail q_lift q_unwrap q_ensure q_tables q_read : srv.
#[export] Hint Resolve t_ret t_fail t_lift t_unwrap t_ensure t_send t_read : srv.

(** Goes through a program bind by bind. *)
Ltac srv :=
  repeat first
    [ progress auto with srv
    | apply q_bind; [|intros ?]
    | apply t_bind; [|intros ?]
    | apply l_bind; [|intros ?]
    | case_match ].

Section Rules.
Context {D : Type} `{!Decimal D} `{!DecimalLaws D}.
Context (uuidNew : nat → UUID) (dbnow : Time) (userExists : UUID → bool).
Context (unicode_fold : string → string → bool).
Context (Exponent : D → Z).
Context (sv : VaultService (D:=D)).

#[local] Abbreviation World := (World (D:=D)).
#[local] Abbreviation Srv := (Srv (D:=D)).
#[local] Abbreviation deposit := (svcRecordDeposit uuidNew dbnow userExists unicode_fold Exponent sv).
#[local] Abbreviation withdraw := (svcRecordWithdrawal uuidNew dbnow userExists unicode_fold Exponent sv).
#[local] Abbreviation rebalance := (svcRebalancePosition uuidNew dbnow userExists sv).
#[local] Abbreviation harvest := (svcHarvestVault uuidNew dbnow userExists sv).
#[local] Abbreviation checked := (checked_vault Exponent sv).
#[local] Abbreviation verify_event := (verified unicode_fold).

(** ** Pauses *)

(** While the pause switch of deposits refuses, no deposit changes a table,
    spends the operator's money or reaches the chain, and the caller gets the
    switch's error, whatever else is wrong with the request; the switch of
    withdrawals does the same to withdrawals and rebalances. *)
Theorem paused_moves_nothing gate e env (i : RecordInput) (ri : RebalancePositionInput) (w : World) :
  moneyPathSwitches sv = Some gate →
  (gate OperationDeposit = Err e → deposit env i w = (Done (Err e), w))
  ∧ (gate OperationWithdrawal = Err e →
      withdraw env i w = (Done (Err e), w) ∧ rebalance env ri w = (Done (Err e), w)).
Proof.
  intros Hg. unfold svcRecordDeposit, svcRecordWithdrawal, svcRebalancePosition, checked_vault,
    ensureMoneyPathAllowed. rewrite Hg. unfold mbind, Srv_bind, liftS.
  split; [by intros ->|]. by intros ->.
Qed.

(** ** What the shared checks establish *)

Record accepted (op : string) (i : RecordInput (D:=D)) (m : Model (D:=D)) (w : World) : Prop := {
  ac_gate gate : moneyPathSwitches sv = Some gate → gate op = Ok tt;
  ac_amount : (0 < dval (ri_amount i))%Q;
  ac_scale : decimalScale Exponent (ri_amount i) ≤ MaxAmountScale;
  ac_row : ∃ r, vaults (tables w) !! ri_vault i = Some r ∧ live r = true ∧ m = scanVault (ri_vault i) r;
}.

Lemma not_le_zero (a : D) : negb (d_le a d_zero) = true → (0 < dval a)%Q.
Proof.
  intros H%negb_true_iff%not_true_iff_false. rewrite d_le_spec in H. apply Qnot_le_lt in H.
  unfold d_zero in H. by rewrite dval_of_Z in H.
Qed.

Lemma checked_looks env op i : looks (checked env op i).
Proof. unfold checked_vault, ensureMoneyPathAllowed. srv. Qed.

Lemma checked_Ok env op i w m w' :
  checked env op i w = (Done (Ok m), w') → w' = w ∧ accepted op i m w.
Proof.
  unfold checked_vault. intros H.
  apply bind_Srv_Ok in H as ([] & w1 & Hg & H).
  assert (Hgate : w1 = w ∧ ∀ gate, moneyPathSwitches sv = Some gate → gate op = Ok tt).
  { revert Hg. unfold ensureMoneyPathAllowed. destruct (moneyPathSwitches sv) as [g|].
    - unfold liftS. destruct (g op) as [[]|] eqn:E; intros [= <-]. split; [done|]. by intros ? [= <-].
    - intros [= <-]. done. }
  destruct Hgate as [-> Hgate].
  apply bind_Srv_Ok in H as ([] & w2 & (_ & ->)%ensure_Ok & H).
  apply bind_Srv_Ok in H as ([] & w3 & (Ha & ->)%ensure_Ok & H).
  apply bind_Srv_Ok in H as ([] & w4 & (Hs & ->)%ensure_Ok & H).
  apply read_vault_Ok in H as (-> & r & Hr & Hl & ->).
  split; [done|]. split; [done|by apply not_le_zero|by apply Z.leb_le|by exists r].
Qed.

(** ** Verified amounts *)

(** The event [ev] vouches for the caller's move. *)
Definition vouches (verify : Verifier) (hash contract ty wallet : string) (ev : VerifiedVaultEvent (D:=D)) : Prop :=
  hash ≠ ""%string ∧ verify hash contract ty = Ok ev ∧ (0 < dval (ev_amount ev))%Q
  ∧ (TrimSpace wallet = ""%string ∨ ev_account ev = ""%string
     ∨ EqualFold unicode_fold (TrimSpace wallet) (ev_account ev) = true).

Lemma verified_looks verify h c ty wal : looks (verify_event verify h c ty wal).
Proof. unfold verified. srv. Qed.

Lemma verified_Ok verify h c ty wal (w : World) a w' :
  verify_event verify h c ty wal w = (Done (Ok a), w') →
  w' = w ∧ ∃ ev, vouches verify h c ty wal ev ∧ a = ev_amount ev.
Proof.
  unfold verified. intros H.
  apply bind_Srv_Ok in H as ([] & w1 & (Hh & ->)%ensure_Ok & H).
  apply bind_Srv_Ok in H as (ev & w2 & Hv & H). unfold liftS in Hv. injection Hv as Hv ->.
  apply bind_Srv_Ok in H as ([] & w3 & (Hc & ->)%ensure_Ok & H).
  apply bind_Srv_Ok in H as ([] & w4 & (Ha & ->)%ensure_Ok & H). injection H as <- <-.
  split; [done|]. exists ev. split; [|done]. split; [|split; [done|split; [by apply not_le_zero|]]].
  - by apply negb_true_iff, bool_decide_eq_false in Hh.
  - rewrite !orb_true_iff, !bool_decide_eq_true in Hc. tauto.
Qed.

(** ** Deposits *)

Lemma Authorize_run pol vault (a : D) (w : World) o w' :
  Authorize pol vault a w = (o, w') →
  w' = w ∧ (∃ e, o = Done (Err e))
  ∨ o = Done (Ok tt) ∧ (∃ p, pol = Some p ∧ enabled p = true ∧ vault ∈ allowedVaults p ∧ (dval a <= dval (maxAmount p))%Q)
    ∧ w' = mkWorld (tables w) (<[vault := d_add (default d_zero (spent w !! vault)) a]> (spent w)) (calls w).
Proof.
  unfold Authorize. destruct pol as [p|]; [|intros [= <- <-]; left; split; [done|eauto]].
  destruct (enabled p) eqn:Ee; simpl; [|intros [= <- <-]; left; split; [done|eauto]].
  case_bool_decide as Hin; simpl; [|intros [= <- <-]; left; split; [done|eauto]].
  destruct (d_le (maxAmount p) d_zero || _) eqn:Ec; intros [= <- <-]; [left; split; [done|eauto]|].
  right. split; [done|]. split; [|done]. exists p. repeat split; try done.
  apply orb_false_iff in Ec as [_ Hc%not_true_iff_false]. rewrite d_lt_spec in Hc. by apply Qnot_lt_le.
Qed.

(** The operator's key pays only what the policy allows. *)
Record paid_by_operator (i : RecordInput (D:=D)) (c : ChainCall) (w w' : World) : Prop := {
  po_hash : TrimSpace (ri_hash i) = ""%string;
  po_policy : ∃ p, operatorFundedDeposits sv = Some p ∧ enabled p = true ∧ ri_vault i ∈ allowedVaults p
    ∧ (0 < dval (ri_amount i) <= dval (maxAmount p))%Q;
  po_call : ∃ r, vaults (tables w) !! ri_vault i = Some r ∧ live r = true
    ∧ c = CallDeposit (v_contract r) (decimalToStroops (ri_amount i));
  po_spent : spent w' = <[ri_vault i := d_add (default d_zero (spent w !! ri_vault i)) (ri_amount i)]> (spent w);
}.

Lemma submit_deposit_run i m inv (w : World) o w' :
  submit_deposit sv i m inv w = (o, w') →
  tables w' = tables w ∧
  (w' = w ∧ (∃ e, o = Done (Err e))
   ∨ (∃ p, operatorFundedDeposits sv = Some p ∧ enabled p = true ∧ ri_vault i ∈ allowedVaults p
        ∧ (dval (ri_amount i) <= dval (maxAmount p))%Q)
     ∧ spent w' = <[ri_vault i := d_add (default d_zero (spent w !! ri_vault i)) (ri_amount i)]> (spent w)
     ∧ calls w' = calls w ++ [CallDeposit (m_contract m) (decimalToStroops (ri_amount i))]).
Proof.
  unfold submit_deposit. intros [([] & w1 & Ha & H)|[(e & Ha & ->)|(Ha & ->)]]%bind_Srv;
    apply Authorize_run in Ha as [(-> & e' & He)|(Hok & Hp & Hw)]; try done.
  - subst w1. revert H. unfold mbind, Srv_bind, send. cbn [tables spent calls].
    destruct (DepositToVault _ _ _); intros [= <- <-]; (split; [done|right; done]).
  - split; [done|]. left. eauto.
Qed.

(** The program of a deposit after its checks. *)
Definition settle (env : Env) (i : RecordInput (D:=D)) (m : Model (D:=D)) : Srv (Model (D:=D)) :=
  amount ← match chainVerifier sv with
           | Some verify => verify_event verify (TrimSpace (ri_hash i)) (m_contract m) "deposit" (ri_wallet i)
           | None => mret (ri_amount i)
           end;
  price ← unwrap (sharePrice m);
  shares ← unwrap (d_div amount price);
  inTables (RecordDeposit uuidNew dbnow userExists (e_begin env) (e_commit env) (ri_vault i)
    (mkRecord (owner i m) amount (TrimSpace (ri_hash i)) (d_round 6 shares) price (ri_fee i)));;
  read_vault (e_reread env) (ri_vault i).

Lemma amount_looks (i : RecordInput (D:=D)) (m : Model (D:=D)) ty : looks (match chainVerifier sv with
  | Some verify => verify_event verify (TrimSpace (ri_hash i)) (m_contract m) ty (ri_wallet i)
  | None => mret (ri_amount i)
  end).
Proof. destruct (chainVerifier sv); [apply verified_looks|done]. Qed.

Lemma deposit_unfold env i :
  deposit env i = (existing ← checked env OperationDeposit i;
    ensure (bool_decide (TrimSpace (ri_hash i) = ""%string) || bool_decide (is_Some (chainVerifier sv)))
      ErrChainVerificationUnavailable;;
    (match depositInvoker sv with
     | Some inv => if decide (TrimSpace (ri_hash i) = ""%string) then submit_deposit sv i existing inv else mret tt
     | None => mret tt
     end);;
    settle env i existing).
Proof. done. Qed.

(** How both kinds of record end: the price, the shares, the repository, and
    the vault read again. *)
Lemma record_run {R} m a (rc : D → D → R) (run : R → Tx unit) ok id (w : World) o w' :
  (price ← unwrap (sharePrice m); shares ← unwrap (d_div a price);
   inTables (run (rc price shares));; read_vault ok id) w = (o, w') →
  w' = w ∧ (∀ x, o ≠ Done (Ok x))
  ∨ ∃ p q b, inTables (run (rc p q)) w = (Done b, w') ∧ (∀ x, o = Done (Ok x) → b = Ok tt).
Proof.
  unfold mbind at 1, Srv_bind at 1, unwrap at 1. destruct (sharePrice m) as [p|]; [|intros [= <- <-]; by left].
  unfold mbind at 1, Srv_bind at 1, unwrap at 1. destruct (d_div a p) as [q|]; [|intros [= <- <-]; by left].
  intros H. right. exists p, q. unfold mbind, Srv_bind in H.
  destruct (inTables (run (rc p q)) w) as [ob wb] eqn:Eb.
  pose proof Eb as (b & s & _ & -> & ->)%inTables_run. exists b.
  destruct b as [[]|e]; [|by injection H as <- <-].
  pose proof (read_vault_same ok id (mkWorld s (spent w) (calls w))) as Hs.
  destruct (read_vault _ _ _) as [o2 w2]. simpl in Hs. subst w2. by injection H as <- <-.
Qed.

(** What a deposit records, and for which amount. *)
Definition credited (i : RecordInput (D:=D)) (m : Model (D:=D)) (a : D) : Prop :=
  match chainVerifier sv with
  | Some verify => ∃ ev, vouches verify (TrimSpace (ri_hash i)) (m_contract m) "deposit" (ri_wallet i) ev
                    ∧ a = ev_amount ev
  | None => TrimSpace (ri_hash i) = ""%string ∧ a = ri_amount i
  end.

Lemma settle_run env i m (w : World) o w' :
  settle env i m w = (o, w') →
  TrimSpace (ri_hash i) = ""%string ∨ is_Some (chainVerifier sv) →
  w' = w ∧ (∀ x, o ≠ Done (Ok x))
  ∨ ∃ a rc b, credited i m a ∧ rec_amount rc = a ∧ rec_hash rc = TrimSpace (ri_hash i) ∧ rec_user rc = owner i m
      ∧ inTables (RecordDeposit uuidNew dbnow userExists (e_begin env) (e_commit env) (ri_vault i) rc) w = (Done b, w')
      ∧ (∀ x, o = Done (Ok x) → b = Ok tt).
Proof.
  intros H Hcase. unfold settle in H. apply bind_Srv in H as [(a & w1 & Ha & H)|Hs].
  2:{ left. pose proof (amount_looks i m "deposit" w) as Hm.
      destruct Hs as [(e & Ha & ->)|(Ha & ->)]; rewrite Ha in Hm; simpl in Hm; by subst. }
  assert (w1 = w ∧ credited i m a) as [-> Hc].
  { unfold credited. destruct (chainVerifier sv) as [v|].
    - apply verified_Ok in Ha as (-> & ev & Hv & ->). split; [done|]. by exists ev.
    - injection Ha as <- <-. split; [done|]. split; [|done]. destruct Hcase as [?|[? ?]]; done. }
  apply record_run in H as [?|(p & q & b & Hrun & Hb)]; [by left|]. right.
  by exists a, (mkRecord (owner i m) a (TrimSpace (ri_hash i)) (d_round 6 q) p (ri_fee i)), b.
Qed.

Lemma settle_calls env i m (w : World) o w' :
  settle env i m w = (o, w') → calls w' = calls w ∧ spent w' = spent w.
Proof.
  assert (H : quiet (settle env i m)).
  { unfold settle. apply q_bind; [|intros ?; srv]. destruct (chainVerifier sv); [|done].
    intros w0. by rewrite verified_looks. }
  intros E. specialize (H w). by rewrite E in H.
Qed.

(** The steps of a deposit. *)
Lemma deposit_run env i (w : World) o w' :
  deposit env i w = (o, w') →
  w' = w ∧ (∀ x, o ≠ Done (Ok x))
  ∨ ∃ m w1, accepted OperationDeposit i m w
      ∧ (TrimSpace (ri_hash i) = ""%string ∨ is_Some (chainVerifier sv))
      ∧ tables w1 = tables w
      ∧ (w1 = w ∨ ∃ c, calls w1 = calls w ++ [c] ∧ paid_by_operator i c w w1)
      ∧ ((w' = w1 ∧ ∀ x, o ≠ Done (Ok x)) ∨ settle env i m w1 = (o, w')).
Proof.
  rewrite deposit_unfold. intros [(m & w1 & Hc & H)|Hs]%bind_Srv.
  2:{ left. pose proof (checked_looks env OperationDeposit i w) as Hl.
      destruct Hs as [(e & E & ->)|(E & ->)]; rewrite E in Hl; by simpl in Hl; subst. }
  apply checked_Ok in Hc as [-> Hacc].
  apply bind_Srv in H as [([] & w1 & (He & ->)%ensure_Ok & H)|Hs].
  2:{ left. destruct Hs as [(e & (-> & _)%ensure_run & ->)|((-> & _)%ensure_run & ->)]; done. }
  right. exists m. rewrite orb_true_iff, !bool_decide_eq_true in He.
  destruct (depositInvoker sv) as [inv|].
  2:{ exists w. do 3 (split; [done|]). split; [by left|]. by right. }
  case_decide as Hh.
  2:{ exists w. do 3 (split; [done|]). split; [by left|]. by right. }
  assert (Hpaid : ∀ w1, (∃ p, operatorFundedDeposits sv = Some p ∧ enabled p = true ∧ ri_vault i ∈ allowedVaults p
        ∧ (dval (ri_amount i) <= dval (maxAmount p))%Q) →
      spent w1 = <[ri_vault i := d_add (default d_zero (spent w !! ri_vault i)) (ri_amount i)]> (spent w) →
      paid_by_operator i (CallDeposit (m_contract m) (decimalToStroops (ri_amount i))) w w1).
  { intros w1 (p & Hp & Hen & Hin & Hle) Hsp. split; [done| | |done].
    - exists p. repeat split; try done. by destruct Hacc.
    - destruct (ac_row _ _ _ _ Hacc) as (r & Hr & Hl & ->). by exists r. }
  apply bind_Srv in H as [([] & w1 & Hs & H)|Hs].
  - apply submit_deposit_run in Hs as (Ht & [(_ & e & ?)|(Hp & Hsp & Hcalls)]); [done|].
    exists w1. do 3 (split; [done|]). split; [|by right]. right. eexists. split; [done|by apply Hpaid].
  - assert (Hfail : ∀ x, o ≠ Done (Ok x)) by (destruct Hs as [(e & _ & ->)|(_ & ->)]; done).
    assert (Hsub : ∃ o1, submit_deposit sv i m inv w = (o1, w')) by (destruct Hs as [(e & E & _)|(E & _)]; eauto).
    destruct Hsub as [o1 (Ht & [(-> & _)|(Hp & Hsp & Hcalls)])%submit_deposit_run].
    + exists w. do 3 (split; [done|]). split; [by left|]. by left.
    + exists w'. do 3 (split; [done|]). split; [|by left]. right. eexists. split; [done|by apply Hpaid].
Qed.

(** The operator's account pays for a deposit only when the caller presents
    no hash, the policy is enabled and lists the vault, and the amount is
    positive and within the cap; then at most one transaction is sent, for
    exactly the requested amount to the contract of a live vault, and the
    amount is added to what the policy has counted for the vault.  Otherwise
    nothing is sent and nothing is counted. *)
Theorem operator_pays_only_allowed env (i : RecordInput) (w : World) o w' :
  deposit env i w = (o, w') →
  (calls w' = calls w ∧ spent w' = spent w)
  ∨ ∃ c, calls w' = calls w ++ [c] ∧ paid_by_operator i c w w'.
Proof.
  intros [(-> & _)|(m & w1 & Hacc & _ & Ht & Hw1 & Hrest)]%deposit_run; [by left|].
  assert (Hend : calls w' = calls w1 ∧ spent w' = spent w1).
  { destruct Hrest as [[-> _]|Hs]; [done|]. by eapply settle_calls. }
  destruct Hend as [-> Hsp]. destruct Hw1 as [->|(c & Hc & [H1 H2 H3 H4])]; [by left|]. right.
  exists c. split; [done|]. split; [done|done|done|]. congruence.
Qed.

(** A decimal is an integer times the power of ten of its exponent. *)
Definition scaled (x : D) : Prop :=
  ∃ z, (dval x * inject_Z (10 ^ Z.max 0 (- Exponent x)) == inject_Z z)%Q.

(** The amounts of chain events have at most eight places. *)
Definition exact_events : Prop :=
  ∀ verify h c ty ev, chainVerifier sv = Some verify → verify h c ty = Ok ev → exact8 (dval (ev_amount ev)).

Lemma scale_exact8 x : scaled x → decimalScale Exponent x ≤ MaxAmountScale → exact8 (dval x).
Proof.
  intros [z Hz] Hs. unfold decimalScale, MaxAmountScale in Hs.
  set (k := Z.max 0 (- Exponent x)) in *.
  assert (Hk : 0 ≤ k ≤ 8) by (destruct (Z.leb_spec 0 (Exponent x)); lia). clearbody k.
  exists (z * 10 ^ (8 - k)). unfold col, unit8.
  assert (Hp : 10 ^ k * 10 ^ (8 - k) = 100000000) by (rewrite <-Z.pow_add_r by lia; by replace (k + (8 - k)) with 8 by lia).
  assert (Hpos : 0 < 10 ^ k) by (apply Z.pow_pos_nonneg; lia).
  generalize dependent (10 ^ (8 - k)). generalize dependent (10 ^ k). intros a Ha Hpos b Hb.
  destruct (dval x) as [n d]. unfold Qeq, Qmult, inject_Z in *. cbn [Qnum Qden] in *.
  assert (E : n * a = z * Zpos d) by lia.
  transitivity (n * (a * b)); [by rewrite Hb|]. rewrite Z.mul_assoc, E. lia.
Qed.

Lemma credited_exact8 i m a w op :
  scaled (ri_amount i) → exact_events → accepted op i m w → credited i m a → exact8 (dval a).
Proof.
  intros Hl He Hacc. unfold credited. destruct (chainVerifier sv) as [v|] eqn:Ev.
  - intros (ev & (_ & Hv & _) & ->). by eapply He.
  - intros [_ ->]. apply scale_exact8; [done|]. by destruct Hacc.
Qed.

(** C9: A deposit credits what the chain says: with an event verifier, a recorded
    deposit carries the presented hash and exactly the amount of the verified
    event of that hash, for the contract of the vault and the caller's wallet,
    whatever amount the request names; without a verifier no hash is believed,
    and a recorded deposit is the requested amount.  A deposit that fails before
    its commit leaves the tables. *)
Theorem deposit_credits_chain_amount env (i : RecordInput) (w : World) o w' :
  scaled (ri_amount i) → exact_events →
  deposit env i w = (o, w') →
  (same (tables w) (tables w') ∧ ∀ x, o ≠ Done (Ok x))
  ∨ ∃ m a r, accepted OperationDeposit i m w ∧ credited i m a
      ∧ moved_by (ri_vault i) "deposit" (TrimSpace (ri_hash i)) (units (dval a)) (tables w) (tables w') r.
Proof.
  intros Hlaw Hev [(-> & Hno)|(m & w1 & Hacc & Hh & Ht & _ & Hrest)]%deposit_run; [by left|].
  destruct Hrest as [[-> Hno]|Hs]; [left; by rewrite Ht|].
  apply settle_run in Hs as [(-> & Hno)|(a & rc & b & Hc & Ha & Hrh & Hu & Hrun & Hb)]; [left; by rewrite Ht| |done].
  apply inTables_run in Hrun as (b' & s & Hrd & [= <-] & ->). rewrite Ht in Hrd.
  pose proof (credited_exact8 i m a w _ Hlaw Hev Hacc Hc) as He. rewrite <-Ha in He.
  apply RecordDeposit_spec in Hrd as [[Hsame (e & ->)]|(r & Hm & _)]; [| |done].
  - left. split; [done|]. intros x Hx. by specialize (Hb x Hx).
  - right. exists m, a, r. split; [done|]. split; [done|]. by rewrite Ha, Hrh in Hm.
Qed.

(** ** Withdrawals *)

Lemma resolve_looks inv m a : looks (resolveWithdrawalShares inv m a).
Proof. unfold resolveWithdrawalShares. srv. Qed.

(** Whatever the preview answers, a positive number of shares that fits the
    contract's call. *)
Lemma resolve_Ok inv m a (w : World) sh w' :
  resolveWithdrawalShares inv m a w = (Done (Ok sh), w') → w' = w ∧ 0 < sh ≤ max_i64.
Proof.
  intros H. pose proof (resolve_looks inv m a w) as Hl. rewrite H in Hl. split; [done|].
  unfold resolveWithdrawalShares in H.
  apply bind_Srv_Ok in H as (p & w1 & _ & H). apply bind_Srv_Ok in H as ([] & w2 & _ & H).
  apply bind_Srv_Ok in H as (q & w3 & _ & H).
  apply bind_Srv_Ok in H as ([] & w4 & (Hpos%Z.ltb_lt & ->)%ensure_Ok & H).
  pose proof (d_intpart_range (d_round 0 (d_mul q stroopsPerUnit))) as [_ Hmax].
  destruct (PreviewWithdraw inv _ _) as [pv|]; [|injection H as <- _; lia].
  destruct (pv <=? 0); [injection H as <- _; lia|].
  apply bind_Srv_Ok in H as (c & w5 & _ & H). injection H as <- _.
  pose proof (d_intpart_range (d_round 0 c)) as [_ Hmax2].
  destruct (Z.leb_spec (d_intpart (d_round 0 c)) 0); lia.
Qed.

(** A withdrawal may reach the chain only for what the vault holds. *)
Record chain_withdrawal (i : RecordInput (D:=D)) (c : ChainCall) (w : World) : Prop := {
  cw_hash : TrimSpace (ri_hash i) = ""%string;
  cw_accepted : ∃ m, accepted OperationWithdrawal i m w ∧ m_status m ≠ StatusClosed
    ∧ (dval (ri_amount i) <= dval (m_balance m))%Q
    ∧ ∃ sh, 0 < sh ≤ max_i64 ∧ c = CallWithdraw (m_contract m) sh (ri_slippage i);
}.

Lemma submit_withdrawal_run i m inv (w : World) o w' :
  submit_withdrawal i m inv w = (o, w') →
  tables w' = tables w ∧ spent w' = spent w
  ∧ (w' = w ∧ (∀ x, o ≠ Done (Ok x))
     ∨ ∃ sh, 0 < sh ≤ max_i64 ∧ calls w' = calls w ++ [CallWithdraw (m_contract m) sh (ri_slippage i)]).
Proof.
  unfold submit_withdrawal. intros [(sh & w1 & Hr & H)|Hs]%bind_Srv.
  - apply resolve_Ok in Hr as [-> Hsh]. revert H. unfold mbind, Srv_bind, send, liftS, unwrap. cbn [tables spent calls].
    destruct (WithdrawFromVault _ _ _ _) as [h|e]; [destruct (d_div _ _)|]; intros [= <- <-];
      (split; [done|split; [done|right; by exists sh]]).
  - pose proof (resolve_looks inv m (ri_amount i) w) as Hl.
    destruct Hs as [(e & E & ->)|(E & ->)]; rewrite E in Hl; simpl in Hl; subst w';
      (split; [done|split; [done|by left]]).
Qed.

(** The program of a withdrawal after its submission. *)
Definition settle_withdrawal (env : Env) (i : RecordInput (D:=D)) (m : Model (D:=D)) (submitted : string * D)
    : Srv (Model (D:=D)) :=
  amount ← match chainVerifier sv with
           | Some verify =>
               a ← verify_event verify submitted.1 (m_contract m) "withdraw" (ri_wallet i);
               ensure (negb (d_lt (m_balance m) a)) ErrWithdrawalExceedsPosition;;
               mret a
           | None => mret (ri_amount i)
           end;
  price ← unwrap (sharePrice m);
  shares ← unwrap (d_div amount price);
  inTables (RecordWithdrawal uuidNew dbnow userExists (e_begin env) (e_commit env) (ri_vault i)
    (mkRecord (owner i m) amount submitted.1
       (if d_lt d_zero submitted.2 then d_round 6 submitted.2 else d_round 6 shares) price (ri_fee i)));;
  read_vault (e_reread env) (ri_vault i).

Definition before_withdrawal (i : RecordInput (D:=D)) (m : Model (D:=D)) : Srv (string * D) :=
  match depositInvoker sv with
  | Some inv => if decide (TrimSpace (ri_hash i) = ""%string) then submit_withdrawal i m inv
                else mret (TrimSpace (ri_hash i), d_zero)
  | None => mret (TrimSpace (ri_hash i), d_zero)
  end.

Lemma withdraw_unfold env i :
  withdraw env i = (existing ← checked env OperationWithdrawal i;
    ensure (negb (bool_decide (m_status existing = StatusClosed))) ErrVaultClosed;;
    ensure (negb (d_lt (m_balance existing) (ri_amount i))) ErrWithdrawalExceedsPosition;;
    ensure (bool_decide (TrimSpace (ri_hash i) = ""%string) || bool_decide (is_Some (chainVerifier sv)))
      ErrChainVerificationUnavailable;;
    submitted ← before_withdrawal i existing; settle_withdrawal env i existing submitted).
Proof. done. Qed.

(** What a recorded withdrawal is for: the event's amount, or without a verifier
    the requested one. *)
Definition debited (i : RecordInput (D:=D)) (m : Model (D:=D)) (h : string) (a : D) : Prop :=
  match chainVerifier sv with
  | Some verify => (∃ ev, vouches verify h (m_contract m) "withdraw" (ri_wallet i) ev ∧ a = ev_amount ev)
                   ∧ (dval a <= dval (m_balance m))%Q
  | None => a = ri_amount i
  end.

Lemma not_lt (a b : D) : negb (d_lt a b) = true → (dval b <= dval a)%Q.
Proof. intros H%negb_true_iff%not_true_iff_false. rewrite d_lt_spec in H. by apply Qnot_lt_le. Qed.

Lemma debit_amount_looks (i : RecordInput (D:=D)) (m : Model (D:=D)) h : looks (match chainVerifier sv with
  | Some verify =>
      a ← verify_event verify h (m_contract m) "withdraw" (ri_wallet i);
      ensure (negb (d_lt (m_balance m) a)) ErrWithdrawalExceedsPosition;;
      mret a
  | None => mret (ri_amount i)
  end).
Proof. destruct (chainVerifier sv); [|done]. apply l_bind; [apply verified_looks|intros ?; srv]. Qed.

Lemma settle_withdrawal_run env i m sub (w : World) o w' :
  settle_withdrawal env i m sub w = (o, w') →
  w' = w ∧ (∀ x, o ≠ Done (Ok x))
  ∨ ∃ a rc b, debited i m sub.1 a ∧ rec_amount rc = a ∧ rec_hash rc = sub.1
      ∧ inTables (RecordWithdrawal uuidNew dbnow userExists (e_begin env) (e_commit env) (ri_vault i) rc) w = (Done b, w')
      ∧ (∀ x, o = Done (Ok x) → b = Ok tt).
Proof.
  unfold settle_withdrawal. intros [(a & w1 & Ha & H)|Hs]%bind_Srv.
  2:{ left. pose proof (debit_amount_looks i m sub.1 w) as Hm.
      destruct Hs as [(e & Ha & ->)|(Ha & ->)]; rewrite Ha in Hm; simpl in Hm; by subst. }
  assert (w1 = w ∧ debited i m sub.1 a) as [-> Hc].
  { unfold debited. destruct (chainVerifier sv) as [v|]; [|by injection Ha as <- <-].
    apply bind_Srv_Ok in Ha as (a' & w2 & (-> & ev & Hv & ->)%verified_Ok & Ha).
    apply bind_Srv_Ok in Ha as ([] & w3 & (Hle%not_lt & ->)%ensure_Ok & Ha). injection Ha as <- <-.
    split; [done|]. split; [by exists ev|done]. }
  apply record_run in H as [?|(p & q & b & Hrun & Hb)]; [by left|]. right.
  by exists a, (mkRecord (owner i m) a sub.1 (if d_lt d_zero sub.2 then d_round 6 sub.2 else d_round 6 q) p (ri_fee i)), b.
Qed.

Lemma settle_withdrawal_calls env i m sub (w : World) o w' :
  settle_withdrawal env i m sub w = (o, w') → calls w' = calls w ∧ spent w' = spent w.
Proof.
  assert (H : quiet (settle_withdrawal env i m sub)).
  { unfold settle_withdrawal. apply q_bind; [|intros ?; srv]. intros w0. by rewrite debit_amount_looks. }
  intros E. specialize (H w). by rewrite E in H.
Qed.

(** The steps of a withdrawal. *)
Lemma withdraw_run env i (w : World) o w' :
  withdraw env i w = (o, w') →
  w' = w ∧ (∀ x, o ≠ Done (Ok x))
  ∨ ∃ m w1, accepted OperationWithdrawal i m w ∧ m_status m ≠ StatusClosed
      ∧ (dval (ri_amount i) <= dval (m_balance m))%Q
      ∧ tables w1 = tables w ∧ spent w1 = spent w
      ∧ (calls w1 = calls w ∨ ∃ c, calls w1 = calls w ++ [c] ∧ chain_withdrawal i c w)
      ∧ ((w' = w1 ∧ ∀ x, o ≠ Done (Ok x))
         ∨ ∃ sub, settle_withdrawal env i m sub w1 = (o, w')
             ∧ (TrimSpace (ri_hash i) ≠ ""%string → sub.1 = TrimSpace (ri_hash i))).
Proof.
  rewrite withdraw_unfold. intros [(m & w1 & Hc & H)|Hs]%bind_Srv.
  2:{ left. pose proof (checked_looks env OperationWithdrawal i w) as Hl.
      destruct Hs as [(e & E & ->)|(E & ->)]; rewrite E in Hl; by simpl in Hl; subst. }
  apply checked_Ok in Hc as [-> Hacc].
  apply bind_Srv in H as [([] & w1 & (Hcl & ->)%ensure_Ok & H)|Hs].
  2:{ left. destruct Hs as [(e & (-> & _)%ensure_run & ->)|((-> & _)%ensure_run & ->)]; done. }
  apply bind_Srv in H as [([] & w1 & (Hle%not_lt & ->)%ensure_Ok & H)|Hs].
  2:{ left. destruct Hs as [(e & (-> & _)%ensure_run & ->)|((-> & _)%ensure_run & ->)]; done. }
  apply bind_Srv in H as [([] & w1 & (_ & ->)%ensure_Ok & H)|Hs].
  2:{ left. destruct Hs as [(e & (-> & _)%ensure_run & ->)|((-> & _)%ensure_run & ->)]; done. }
  apply negb_true_iff, bool_decide_eq_false in Hcl. right. exists m.
  assert (Hplain : ∀ o1 w1, mret (M:=Srv) (TrimSpace (ri_hash i), d_zero) w = (o1, w1) →
    o1 = Done (Ok (TrimSpace (ri_hash i), d_zero)) ∧ w1 = w) by (by intros o1 w1 [= <- <-]).
  unfold before_withdrawal in H. destruct (depositInvoker sv) as [inv|].
  2:{ exists w. do 5 (split; [done|]). split; [by left|]. right. by exists (TrimSpace (ri_hash i), d_zero). }
  case_decide as Hh.
  2:{ exists w. do 5 (split; [done|]). split; [by left|]. right. by exists (TrimSpace (ri_hash i), d_zero). }
  assert (Hcall : ∀ sh, 0 < sh ≤ max_i64 → chain_withdrawal i (CallWithdraw (m_contract m) sh (ri_slippage i)) w).
  { intros sh Hsh. split; [done|]. exists m. do 3 (split; [done|]). by exists sh. }
  apply bind_Srv in H as [(sub & w1 & Hs & H)|Hs].
  - apply submit_withdrawal_run in Hs as (Ht & Hsp & [(_ & Hno)|(sh & Hsh & Hcalls)]); [by destruct (Hno sub)|].
    exists w1. do 5 (split; [done|]). split; [right; eexists; split; [done|by apply Hcall]|].
    right. by exists sub.
  - assert (Hfail : ∀ x, o ≠ Done (Ok x)) by (destruct Hs as [(e & _ & ->)|(_ & ->)]; done).
    assert (Hsub : ∃ o1, submit_withdrawal i m inv w = (o1, w')) by (destruct Hs as [(e & E & _)|(E & _)]; eauto).
    destruct Hsub as [o1 (Ht & Hsp & [(-> & _)|(sh & Hsh & Hcalls)])%submit_withdrawal_run].
    + exists w. do 5 (split; [done|]). split; [by left|]. by left.
    + exists w'. do 5 (split; [done|]). split; [right; eexists; split; [done|by apply Hcall]|]. by left.
Qed.

(** C37: A withdrawal sends at most one transaction to the chain, and only for a
    live vault that is not closed, with withdrawals allowed, a positive amount
    of at most eight places within the balance just read, and a positive number
    of shares that fits the call; a request that presents a hash sends nothing. *)
Theorem chain_withdrawal_covered env (i : RecordInput) (w : World) o w' :
  withdraw env i w = (o, w') →
  calls w' = calls w ∨ ∃ c, calls w' = calls w ++ [c] ∧ chain_withdrawal i c w.
Proof.
  intros [(-> & _)|(m & w1 & _ & _ & _ & _ & _ & Hc & Hrest)]%withdraw_run; [by left|].
  assert (calls w' = calls w1) as ->; [|done].
  destruct Hrest as [[-> _]|(sub & Hs & _)]; [done|]. by eapply settle_withdrawal_calls.
Qed.

(** What a withdrawal does to the tables. *)
Lemma withdrawal_outcome env (i : RecordInput) (w : World) o w' :
  scaled (ri_amount i) → exact_events →
  withdraw env i w = (o, w') →
  (same (tables w) (tables w') ∧ ∀ x, o ≠ Done (Ok x))
  ∨ ∃ m a h r, accepted OperationWithdrawal i m w ∧ debited i m h a
      ∧ (TrimSpace (ri_hash i) ≠ ""%string → h = TrimSpace (ri_hash i))
      ∧ moved_by (ri_vault i) "withdrawal" h (units (dval a)) (tables w) (tables w') r.
Proof.
  intros Hlaw Hev [(-> & Hno)|(m & w1 & Hacc & _ & _ & Ht & _ & _ & Hrest)]%withdraw_run; [by left|].
  destruct Hrest as [[-> Hno]|(sub & Hs & Hsub)]; [left; by rewrite Ht|].
  apply settle_withdrawal_run in Hs as [(-> & Hno)|(a & rc & b & Hc & Ha & Hrh & Hrun & Hb)]; [left; by rewrite Ht|].
  apply inTables_run in Hrun as (b' & s & Hrd & [= <-] & ->). rewrite Ht in Hrd.
  assert (He : exact8 (dval (rec_amount rc))).
  { rewrite Ha. unfold debited in Hc. destruct (chainVerifier sv) as [v|] eqn:Ev.
    - destruct Hc as ((ev & (_ & Hv & _) & ->) & _). by eapply Hev.
    - subst a. apply scale_exact8; [done|]. by destruct Hacc. }
  apply RecordWithdrawal_spec in Hrd as [[Hsame (e & ->)]|(r & Hm & _)]; [| |done..].
  - left. split; [done|]. intros x Hx. by specialize (Hb x Hx).
  - right. exists m, a, sub.1, r. split; [done|]. split; [done|]. split; [done|]. by rewrite Ha, Hrh in Hm.
Qed.
End Rules.
