(* ===== verification/VaultCalls.v ===== *)
(** Requests to the vault service as moves of the books: each makes at most one
    transaction of the repository, and one that [VaultBooks] accounts for; what
    a harvest splits; how statuses move; and where the service parts from what
    it means to do. *)

From Stdlib Require Import Qround.
From S2P Require Import Prelude Sql GoStrings Decimal Vault.
From S2P Require Import Ledger.
From S2P Require Import VaultStore.
From S2P Require Import Indexer.
From S2P Require Import VaultBooks.
From S2P Require Import MoneyPath.
From S2P Require Import VaultService.
From S2P Require Import VaultRules.
Open Scope Z_scope.
Open Scope go_scope.

(** ** The amounts of a harvest *)

Section Amounts.
Context {D : Type} `{!Decimal D} `{!DecimalLaws D}.

(** What a vault can harvest, in hundred-millionths. *)
Definition gross_units (r : VaultRow) : Z :=
  if 0 <? v_yield r then v_yield r else Z.max 0 (v_balance r - v_total r).

(** The performance fee of [g] hundred-millionths: a tenth, half rounded up. *)
Definition fee_units (g : Z) : Z := (g + 5) / 10.

Lemma col_le0 z : (0 < col z)%Q ↔ 0 < z.
Proof. unfold col, Qlt. cbn [Qnum Qden]. lia. Qed.

Lemma positive_col (a : D) z : (dval a == col z)%Q → d_lt d_zero a = (0 <? z).
Proof.
  intros H. apply eq_true_iff_eq. rewrite d_lt_spec, Z.ltb_lt. unfold d_zero. rewrite dval_of_Z, H. apply col_le0.
Qed.

Lemma gross_col id r : (dval (harvestableYield (scanVault (D:=D) id r)) == col (gross_units r))%Q.
Proof.
  unfold harvestableYield, gross_units. simpl. rewrite (positive_col _ _ (scan_col_val (λ _, true) (v_yield r))).
  destruct (0 <? v_yield r); [apply (scan_col_val (λ _, true))|].
  assert (E : (dval (d_sub (scan_col (D:=D) (v_balance r)) (scan_col (v_total r))) == col (v_balance r - v_total r))%Q).
  { by rewrite dval_sub, !(scan_col_val (λ _, true)), col_sub. }
  rewrite (positive_col _ _ E). destruct (Z.ltb_spec 0 (v_balance r - v_total r)).
  - rewrite E. by replace (Z.max 0 _) with (v_balance r - v_total r) by lia.
  - replace (Z.max 0 _) with 0 by lia. unfold d_zero. by rewrite dval_of_Z.
Qed.

Lemma Qround_haz_tenth g : 0 < g → Qround_haz (Qmake g 10) = fee_units g.
Proof.
  intros H. unfold Qround_haz, fee_units. cbn [Qnum Qden]. rewrite Z.sgn_pos, Z.abs_eq by lia.
  replace (2 * g + 10) with (2 * (g + 5)) by lia. rewrite Z.div_mul_cancel_l by lia. lia.
Qed.

Lemma split_units (gross : D) g :
  (dval gross == col g)%Q → 0 < g →
  ∃ fee net, split_yield gross = Some (fee, net)
    ∧ (dval fee == col (fee_units g))%Q ∧ (dval net == col (g - fee_units g))%Q.
Proof.
  intros Hg Hpos. unfold split_yield.
  destruct (dval_div (d_mul gross (d_of_Z defaultHarvestPerformanceFeeBPS)) (d_of_Z 10000)) as (q & -> & Hq).
  { rewrite dval_of_Z. done. }
  simpl. eexists _, _. split; [done|].
  assert (Hfee : (dval (d_round MaxAmountScale q) == col (fee_units g))%Q).
  { rewrite dval_round, Hq by done. rewrite dval_mul, !dval_of_Z, Hg.
    rewrite (Qround_at_exact 16 _ (g * 10000000)).
    2:{ unfold col, unit8, Qeq, Qmult, Qdiv, Qinv, inject_Z, defaultHarvestPerformanceFeeBPS, pow10.
        cbn [Qnum Qden]. cbn. lia. }
    unfold Qround_at at 1, MaxAmountScale. rewrite (Qround_haz_proper _ (Qmake g 10)).
    - by rewrite Qround_haz_tenth.
    - unfold Qeq, Qmult, inject_Z, pow10. cbn. lia. }
  split; [done|]. by rewrite dval_sub, Hfee, Hg, col_sub.
Qed.

Lemma fee_rest g : 0 < g → 0 < g - fee_units g.
Proof. intros H. unfold fee_units. pose proof (Z.mul_div_le (g + 5) 10). lia. Qed.

Lemma fee_and_rest g : (col (fee_units g) + col (g - fee_units g) == col g)%Q.
Proof. rewrite col_add. by replace (fee_units g + (g - fee_units g)) with g by lia. Qed.
End Amounts.

Section Calls.
Context {D : Type} `{!Decimal D} `{!DecimalLaws D}.
Context (uuidNew : nat → UUID) (dbnow : Time) (userExists : UUID → bool).
Context (toLower toUpper : string → string) (unicode_fold : string → string → bool).
Context (Exponent : D → Z).
Context (unicode_lower : string → string) (NewFromString : string → option D)
        (otherTables : indexedEvent → result VaultErr unit).

#[local] Abbreviation World := (World (D:=D)).
#[local] Abbreviation Srv := (Srv (D:=D)).
#[local] Abbreviation exec := (exec (D:=D) uuidNew dbnow userExists unicode_lower NewFromString otherTables).
#[local] Abbreviation fair := (fair (D:=D) unicode_lower NewFromString).

(** ** At most one transaction *)

(** Of the fair transactions, those that set no status. *)
Definition plain (o : op (D:=D)) : Prop :=
  fair o ∧ match o with
           | OUpdate _ _ _ _ _ | OBalances _ _ _ _ _ | OConfirmed _ _ _ _ _ _ | OEvent _ _ _ _ => False
           | _ => True
           end.

(** The tables are as they were, or one transaction of kind [K] further. *)
Definition one_op (K : op (D:=D) → Prop) (s s' : Store) : Prop :=
  s' = s ∨ ∃ o, K o ∧ ∀ p c, exec o (mkIndex s p c) = mkIndex s' p c.

Definition one {A} (K : op (D:=D) → Prop) (m : Srv A) (w : World) : Prop :=
  one_op K (tables w) (tables (m w).2).

Lemma one_op_mono (K K' : op (D:=D) → Prop) s s' : (∀ o, K o → K' o) → one_op K s s' → one_op K' s s'.
Proof. intros HK [->|(o & Ho & E)]; [by left|]. right. exists o. split; [by apply HK|done]. Qed.

#[export] Instance one_op_refl K : Reflexive (one_op K).
Proof. intros s. by left. Qed.

(** A step in front that leaves the tables. *)
Lemma tables_bind {A B} (P : Store → Store → Prop) `{!Reflexive P} (m : Srv A) (f : A → Srv B) w :
  tabled m →
  (∀ a w1, m w = (Done (Ok a), w1) → tables w1 = tables w → P (tables w1) (tables (f a w1).2)) →
  P (tables w) (tables ((m ≫= f) w).2).
Proof.
  intros Hm Hf. unfold mbind, Srv_bind. specialize (Hm w).
  destruct (m w) as [[[a|e]|] w1] eqn:E; simpl in *; [|by rewrite Hm|by rewrite Hm].
  rewrite <-Hm. by eapply Hf.
Qed.

Section One.
Context {K : op (D:=D) → Prop}.

Lemma one_tabled {A} (m : Srv A) w : tabled m → one K m w.
Proof. intros H. left. apply H. Qed.

Lemma one_bind {A B} (m : Srv A) (f : A → Srv B) w :
  tabled m → (∀ a w1, m w = (Done (Ok a), w1) → tables w1 = tables w → one K (f a) w1) → one K (m ≫= f) w.
Proof. exact (tables_bind (one_op K) m f w). Qed.

Lemma one_then {A B} (m : Srv A) (f : A → Srv B) w : one K m w → (∀ a, tabled (f a)) → one K (m ≫= f) w.
Proof.
  intros Hm Hf. unfold one, mbind, Srv_bind in *.
  destruct (m w) as [[[a|e]|] w1]; simpl in *; [|done|done]. by rewrite Hf.
Qed.

Lemma one_tables {A} (m : Tx A) o w : K o → (∀ x, exec o x = on_store m x) → one K (inTables m) w.
Proof.
  intros Hf Ho. right. exists o. split; [done|]. intros p c. rewrite Ho. unfold on_store, inTables. simpl.
  by destruct (m (tables w)).
Qed.
End One.

Lemma looks_tabled {A} (m : Srv A) : looks m → tabled m.
Proof. intros H w. by rewrite H. Qed.

(** ** Requests *)

Inductive request :=
| RqCreate (newID : UUID) (i : CreateVaultInput)
| RqDeposit (i : RecordInput (D:=D))
| RqWithdrawal (i : RecordInput (D:=D))
| RqUpdate (id : UUID) (contract status : string)
| RqFrequency (id user : UUID) (frequency : string)
| RqClose (id : UUID) (force : bool)
| RqPause (id : UUID)
| RqUnpause (id : UUID)
| RqDelete (id : UUID)
| RqEmergency (id : UUID)
| RqHarvest (i : HarvestInput)
| RqRebalance (i : RebalancePositionInput (D:=D)).

Definition serve (sv : VaultService (D:=D)) (env : Env) (q : request) (w : World) : World :=
  match q with
  | RqCreate newID i => (svcCreateVault dbnow userExists toLower toUpper env newID i w).2
  | RqDeposit i => (svcRecordDeposit uuidNew dbnow userExists unicode_fold Exponent sv env i w).2
  | RqWithdrawal i => (svcRecordWithdrawal uuidNew dbnow userExists unicode_fold Exponent sv env i w).2
  | RqUpdate id contract status => (svcUpdateVault dbnow toLower env id contract status w).2
  | RqFrequency id user f => (svcUpdateHarvestFrequency dbnow toLower env id user f w).2
  | RqClose id force => (svcCloseVault dbnow env id force w).2
  | RqPause id => (svcPauseVault dbnow env id w).2
  | RqUnpause id => (svcUnpauseVault dbnow env id w).2
  | RqDelete id => (svcDeleteVault dbnow env id w).2
  | RqEmergency id => (svcEmergencyWithdraw sv env id w).2
  | RqHarvest i => (svcHarvestVault uuidNew dbnow userExists sv env i w).2
  | RqRebalance i => (svcRebalancePosition uuidNew dbnow userExists sv env i w).2
  end.

(** Amounts are decimals, and the amounts of chain events and of rebalances
    have at most eight places: [RebalancePosition], unlike the other requests,
    does not check it. *)
Definition honest (sv : VaultService (D:=D)) (q : request) : Prop :=
  match q with
  | RqDeposit i | RqWithdrawal i => scaled Exponent (ri_amount i) ∧ exact_events sv
  | RqRebalance i => exact8 (dval (rp_amount i))
  | _ => True
  end.

(** ** Each request *)

Lemma one_deposit sv env i w :
  scaled Exponent (ri_amount i) → exact_events sv →
  one plain (svcRecordDeposit uuidNew dbnow userExists unicode_fold Exponent sv env i) w.
Proof.
  intros Hs Hev. unfold one. destruct (svcRecordDeposit _ _ _ _ _ _ _ _ _) as [o w'] eqn:E. simpl.
  apply deposit_run in E as [(-> & _)|(m & w1 & Hacc & Hh & Ht & _ & Hrest)]; [by left|].
  destruct Hrest as [[-> _]|H]; [by left|]. rewrite <-Ht.
  apply settle_run in H as [(-> & _)|(a & rc & b & Hc & Ha & _ & _ & Hrun & _)]; [by left| |done..].
  assert (exact8 (dval a)) as He by (by eapply credited_exact8). rewrite <-Ha in He.
  pose proof (one_tables (K:=plain) _ (ODeposit (e_begin env) (e_commit env) (ri_vault i) rc) w1 (conj He I) (λ _, eq_refl)) as H1.
  unfold one in H1. by rewrite Hrun in H1.
Qed.

Lemma debited_exact8 sv i m h a w :
  scaled Exponent (ri_amount i) → exact_events sv → accepted Exponent sv OperationWithdrawal i m w →
  debited unicode_fold sv i m h a → exact8 (dval a).
Proof.
  intros Hs Hev Hacc Hc. unfold debited in Hc. destruct (chainVerifier sv) as [v|] eqn:Ev.
  - destruct Hc as ((ev & (_ & Hv & _) & ->) & _). by eapply Hev.
  - subst a. eapply scale_exact8; [done..|]. by destruct Hacc.
Qed.

Lemma one_withdrawal sv env i w :
  scaled Exponent (ri_amount i) → exact_events sv →
  one plain (svcRecordWithdrawal uuidNew dbnow userExists unicode_fold Exponent sv env i) w.
Proof.
  intros Hs Hev. unfold one. destruct (svcRecordWithdrawal _ _ _ _ _ _ _ _ _) as [o w'] eqn:E. simpl.
  apply withdraw_run in E as [(-> & _)|(m & w1 & Hacc & _ & _ & Ht & _ & _ & Hrest)]; [by left|].
  destruct Hrest as [[-> _]|(sub & H & _)]; [by left|]. rewrite <-Ht.
  apply settle_withdrawal_run in H as [(-> & _)|(a & rc & b & Hc & Ha & _ & Hrun & _)]; [by left| |done..].
  assert (exact8 (dval a)) as He by (by eapply debited_exact8). rewrite <-Ha in He.
  pose proof (one_tables (K:=plain) _ (OWithdrawal (e_begin env) (e_commit env) (ri_vault i) rc) w1 (conj He I) (λ _, eq_refl)) as H1.
  unfold one in H1. by rewrite Hrun in H1.
Qed.

Lemma t_get env id : tabled (svcGetVault (D:=D) env id).
Proof. unfold svcGetVault. srv. Qed.

Lemma one_set env id contract st w : one fair (set_vault (D:=D) dbnow env id contract st) w.
Proof.
  apply one_then; [|intros _; srv].
  by apply (one_tables _ (OUpdate (e_begin env) (e_commit env) id contract st)).
Qed.

(** A read and a check in front of a move. *)
Ltac ahead := apply one_bind; [try apply t_get; srv|intros ? ? _ _].

Lemma one_update env id contract status w : one fair (svcUpdateVault (D:=D) dbnow toLower env id contract status) w.
Proof. ahead. ahead. apply one_set. Qed.

Lemma one_frequency env id user f w : one plain (svcUpdateHarvestFrequency (D:=D) dbnow toLower env id user f) w.
Proof.
  do 4 ahead. apply one_then; [|intros _; srv].
  match goal with |- one _ (inTables (UpdateHarvestFrequency _ _ _ _ ?p)) _ =>
    by apply (one_tables _ (OFrequency (e_begin env) (e_commit env) id p)) end.
Qed.

Lemma one_status env id w :
  (∀ force, one fair (svcCloseVault (D:=D) dbnow env id force) w)
  ∧ one fair (svcPauseVault (D:=D) dbnow env id) w ∧ one fair (svcUnpauseVault (D:=D) dbnow env id) w.
Proof. split; [intros force|split]; do 3 ahead; apply one_set. Qed.

Lemma one_delete env id w : one plain (svcDeleteVault (D:=D) dbnow env id) w.
Proof. ahead. by apply (one_tables _ (ODelete (e_begin env) (e_commit env) id)). Qed.

Lemma one_create env id i w : one plain (svcCreateVault (D:=D) dbnow userExists toLower toUpper env id i) w.
Proof.
  apply one_bind; [srv|]. intros [] w1 [Hu ->]%ensure_Ok _.
  apply one_bind; [srv|]. intros [] w2 _ _. apply one_bind; [srv|]. intros [] w3 _ _.
  apply one_bind; [srv|]. intros st w4 _ _. apply one_bind; [srv|]. intros [] w5 _ _.
  match goal with |- one _ (inTables (CreateVault _ _ _ _ _ ?m)) _ =>
    apply (one_tables _ (OCreate (e_begin env) (e_commit env) id m)) end; [|done].
  split; [|done]. split; [done|]. split; [done|]. intros Hn. simpl in Hn. rewrite Hn in Hu.
  by rewrite Z.eqb_refl in Hu.
Qed.

Lemma one_emergency sv env id w : one plain (svcEmergencyWithdraw sv env id) w.
Proof. apply one_tabled. apply t_bind; [apply t_get|intros ?; srv]. Qed.

Lemma one_rebalance sv env i w :
  exact8 (dval (rp_amount i)) → one plain (svcRebalancePosition uuidNew dbnow userExists sv env i) w.
Proof.
  intros He. apply one_bind; [unfold ensureMoneyPathAllowed; srv|intros ? ? _ _]. do 10 ahead.
  apply one_then; [|intros _; srv].
  match goal with |- one _ (inTables (RecordRebalance _ _ _ _ _ ?i ?a ?b)) _ =>
    by apply (one_tables _ (ORebalance (e_begin env) (e_commit env) i a b)) end.
Qed.

(** ** Harvests *)

(** A vault that its owner may harvest. *)
Record harvestable (i : HarvestInput) (row : VaultRow) (w : World) : Prop := {
  hv_row : vaults (tables w) !! hi_vault i = Some row;
  hv_live : live row = true;
  hv_owner : v_user row = hi_user i;
  hv_active : v_status row = StatusActive;
}.

(** The record that a harvest makes of a gross yield of [g]. *)
Record harvest_record (i : HarvestInput) (g : Z) (gross : D) (x : HarvestRecordInput (D:=D)) : Prop := {
  hx_vault : hr_vault x = hi_vault i;
  hx_user : hr_user x = hi_user i;
  hx_gross : (dval gross == col g)%Q;
  hx_fee : (dval (hr_fee x) == col (fee_units g))%Q;
  hx_net : (dval (hr_net x) == col (g - fee_units g))%Q;
  hx_shares : is_Some (hr_shares x) ↔ hr_compounded x = true;
  hx_choice : ∀ c, hi_compound i = Some c → hr_compounded x = c;
}.

Definition result_of (gross : D) (x : HarvestRecordInput (D:=D)) : HarvestResult (D:=D) :=
  mkHarvestResult gross (hr_fee x) (hr_net x) (hr_compounded x) (hr_shares x) (hr_hash x).

(** The end of a harvest: the record and the credit of the goal. *)
Definition settle_harvest (sv : VaultService (D:=D)) (env : Env) (goal : option UUID) (gross : D)
    (x : HarvestRecordInput (D:=D)) : Srv (HarvestResult (D:=D)) :=
  inTables (RecordHarvest uuidNew dbnow userExists (e_begin env) (e_commit env) x);;
  (match goal, goalYieldRouter sv with
   | Some goal, Some rt => if (hr_compounded x : bool) then mret tt else liftS (CreditGoalYieldBalance rt goal (hr_net x))
   | _, _ => mret tt
   end);;
  mret (result_of gross x).

Lemma t_choice sv i : tabled (compound_choice sv i : Srv _).
Proof. unfold compound_choice. srv. Qed.

Lemma l_choice sv i : looks (compound_choice sv i : Srv _).
Proof. unfold compound_choice. srv. Qed.

(** A preference given with the request overrides the goal's and the default. *)
Lemma choice_given sv i w ch w' c :
  compound_choice (D:=D) sv i w = (Done (Ok ch), w') → hi_compound i = Some c → ch.2 = c.
Proof.
  unfold compound_choice. intros (linked & w1 & _ & [= <- _])%bind_Srv_Ok ->. by destruct linked as [[]|].
Qed.

Lemma t_submit_harvest sv i m c : tabled (submit_harvest sv i m c : Srv _).
Proof. unfold submit_harvest. srv. Qed.

Lemma stops {A B} (m : Srv A) (w w' : World) (o : outcome B) :
  tabled m → (∃ e, m w = (Done (Err e), w') ∧ o = Done (Err e)) ∨ m w = (Panics, w') ∧ o = Panics →
  tables w' = tables w ∧ ∀ r, o ≠ Done (Ok r).
Proof. intros Ht Hs. specialize (Ht w). destruct Hs as [(e & E & ->)|(E & ->)]; by rewrite E in Ht. Qed.

Lemma harvest_run sv env i w o w' :
  svcHarvestVault uuidNew dbnow userExists sv env i w = (o, w') →
  (tables w' = tables w ∧ ∀ r, o ≠ Done (Ok r))
  ∨ ∃ row, harvestable i row w ∧
      ((∃ c, gross_units row ≤ 0 ∧ w' = w ∧ o = Done (Ok (mkHarvestResult d_zero d_zero d_zero c None "")))
       ∨ ∃ goal gross x w1, 0 < gross_units row ∧ harvest_record i (gross_units row) gross x
           ∧ tables w1 = tables w ∧ settle_harvest sv env goal gross x w1 = (o, w')).
Proof.
  unfold svcHarvestVault. intros [([] & w0 & (_ & ->)%ensure_Ok & H)|Hs]%bind_Srv; [|left; by eapply stops; [|exact Hs]; srv].
  apply bind_Srv in H as [(m & w0 & (-> & row & Hr & Hl & ->)%read_vault_Ok & H)|Hs]; [|left; by eapply stops; [|exact Hs]; srv].
  apply bind_Srv in H as [([] & w0 & (Ho%Z.eqb_eq & ->)%ensure_Ok & H)|Hs]; [|left; by eapply stops; [|exact Hs]; srv].
  apply bind_Srv in H as [([] & w0 & (_ & ->)%ensure_Ok & H)|Hs]; [|left; by eapply stops; [|exact Hs]; srv].
  apply bind_Srv in H as [([] & w0 & (Ha%bool_decide_eq_true & ->)%ensure_Ok & H)|Hs]; [|left; by eapply stops; [|exact Hs]; srv].
  apply bind_Srv in H as [(ch & w0 & Hch & H)|Hs]; [|left; by eapply stops; [|exact Hs]; apply t_choice].
  pose proof (l_choice sv i w) as Hw0. rewrite Hch in Hw0. simpl in Hw0. subst w0.
  pose proof (λ c, choice_given _ _ _ _ _ c Hch) as Hgiven. clear Hch.
  cbn beta zeta in H. simpl in Ho, Ha. pose proof (gross_col (hi_vault i) row) as Hg.
  set (gross := harvestableYield _) in *. set (m := scanVault _ _) in *.
  assert (Hle : d_le gross d_zero = negb (0 <? gross_units row)).
  { rewrite <-(positive_col _ _ Hg). apply eq_true_iff_eq. rewrite negb_true_iff, <-not_true_iff_false, d_lt_spec, d_le_spec.
    split; [by intros ?%Qle_not_lt|by intros ?%Qnot_lt_le]. }
  rewrite Hle in H. destruct (Z.ltb_spec 0 (gross_units row)) as [Hpos|Hneg]; simpl in H.
  2:{ right. exists row. split; [by split|]. left. injection H as <- <-. by exists ch.2. }
  destruct (split_units gross _ Hg Hpos) as (fee & net & Hsp & Hfee & Hnet). rewrite Hsp in H.
  apply bind_Srv in H as [(p & w0 & [= <- <-] & H)|[(? & ? & _)|[? _]]]; [|done..]. cbn beta iota in H.
  apply bind_Srv in H as [(h & w1 & Hsub & H)|Hs]; [|left; by eapply stops; [|exact Hs]; apply t_submit_harvest].
  pose proof (t_submit_harvest sv i m ch.2 w) as Ht. rewrite Hsub in Ht. simpl in Ht.
  apply bind_Srv in H as [(sh & w2 & Hsh & H)|Hs].
  2:{ left. rewrite <-Ht. by eapply stops; [|exact Hs]; srv. }
  assert (w2 = w1 ∧ (is_Some sh ↔ ch.2 = true)) as [-> Hshares].
  { destruct ch.2; [|injection Hsh as <- <-; split; [done|split; [by intros [? ?]|done]]].
    apply bind_Srv_Ok in Hsh as (s & w3 & Hu & [= <- <-]). unfold unwrap in Hu. by injection Hu as _ ->. }
  right. exists row. split; [by split|]. right.
  by exists ch.1, gross, (mkHarvest (hi_vault i) (hi_user i) net fee ch.2 sh h), w1.
Qed.

Lemma harvest_plain i g gross x b d : harvest_record i g gross x → plain (OHarvest b d x).
Proof. intros [_ _ _ _ Hn Hs _]. split; [|done]. split; [by eexists|done]. Qed.

Lemma one_harvest sv env i w : one plain (svcHarvestVault uuidNew dbnow userExists sv env i) w.
Proof.
  unfold one. destruct (svcHarvestVault _ _ _ _ _ _ _) as [o w'] eqn:E. simpl.
  apply harvest_run in E as [(-> & _)|(row & _ & [(c & _ & -> & _)|(goal & gross & x & w1 & _ & Hx & Ht & H)])];
    [by left..|].
  assert (H1 : one plain (settle_harvest sv env goal gross x) w1).
  { apply one_then; [|intros []; srv].
    apply (one_tables _ (OHarvest (e_begin env) (e_commit env) x)); [by eapply harvest_plain|done]. }
  unfold one in H1. rewrite H in H1. by rewrite <-Ht.
Qed.

Lemma plain_fair o : plain o → fair o.
Proof. by intros [? _]. Qed.

(** Whatever a request does to the tables, it does in one transaction of the
    repository, which the books account for. *)
Lemma one_request sv env q w : honest sv q → one_op fair (tables w) (tables (serve sv env q w)).
Proof.
  destruct q; simpl; intros Hq;
    first [apply one_update|apply one_status|eapply one_op_mono; [exact plain_fair|]];
    first [apply one_create|apply one_deposit; by destruct Hq|apply one_withdrawal; by destruct Hq
      |apply one_frequency|apply one_delete|apply one_emergency|apply one_harvest|by apply one_rebalance].
Qed.

(** A harvest of an active vault by its owner splits the gross yield without
    losing or making any: the fee is a tenth rounded half up to eight places,
    the net is the rest and positive, both are what the repository records, and
    the balance moves by exactly the net, up when it is compounded and down when
    it is paid out.  A vault without yield is left alone. *)
Theorem harvest_splits_yield sv env (i : HarvestInput) w r w' :
  svcHarvestVault uuidNew dbnow userExists sv env i w = (Done (Ok r), w') →
  ∃ row, harvestable i row w ∧
    (gross_units row ≤ 0 ∧ w' = w ∧ (dval (GrossYield r) == 0)%Q
     ∨ 0 < gross_units row
       ∧ (dval (PerformanceFee r) + dval (NetYield r) == dval (GrossYield r))%Q
       ∧ (dval (PerformanceFee r) == col (fee_units (gross_units row)))%Q
       ∧ 0 < units (dval (NetYield r))
       ∧ ∃ row', moved_by (hi_vault i) "harvest" (HarvestHash r) (units (dval (NetYield r))) (tables w) (tables w') row
         ∧ vaults (tables w') !! hi_vault i = Some row'
         ∧ v_balance row' = v_balance row + (if Compounded r then 1 else -1) * units (dval (NetYield r))).
Proof.
  intros [(_ & Hno)|(row & Hrow & H)]%harvest_run; [by destruct (Hno r)|]. exists row. split; [done|].
  destruct H as [(c & Hg & -> & [= ->])|(goal & gross & x & w1 & Hg & Hx & Ht & H)].
  { left. split; [done|]. split; [done|]. simpl. unfold d_zero. by rewrite dval_of_Z. }
  right. apply bind_Srv_Ok in H as ([] & w2 & (b & s & Hrec & [= <-] & ->)%inTables_run & H).
  apply bind_Srv_Ok in H as ([] & w3 & Hc & [= <- <-]). rewrite Ht in Hrec.
  assert (Htab : tables w3 = s).
  { revert Hc. destruct goal, (goalYieldRouter sv); try (by intros [= <-]).
    destruct (hr_compounded x); [by intros [= <-]|]. unfold liftS. by intros [= _ <-]. }
  rewrite Htab. destruct Hx as [Hv Hu Hgr Hfee Hnet Hsh _]. simpl.
  assert (He : exact8 (dval (hr_net x))) by (by eexists).
  apply RecordHarvest_spec in Hrec as [(_ & e & ?)|(r0 & Hm & Hb & _ & _)]; [done| |done..].
  assert (Hnu : units (dval (hr_net x)) = gross_units row - fee_units (gross_units row)) by (by rewrite Hnet, units_col).
  rewrite Hv in Hm, Hb. pose proof Hm as (r' & t & HB & _).
  assert (r0 = row) as ->.
  { pose proof (bk_row _ _ _ _ _ _ HB) as E1. rewrite (hv_row _ _ _ Hrow) in E1. by injection E1 as ->. }
  split; [done|]. split; [rewrite Hfee, Hnet, Hgr; apply fee_and_rest|].
  split; [done|]. split; [rewrite Hnu; by apply fee_rest|].
  assert (E : vaults s !! hi_vault i = Some r') by (by rewrite (bk_vaults _ _ _ _ _ _ HB), lookup_insert_eq).
  exists r'. split; [done|]. split; [done|]. by apply Hb.
Qed.

(** ** Histories of requests *)

(** The tables with the indexer's records, and what was spent and sent. *)
Record System := mkSystem {
  index : Index;
  sys_spent : gmap UUID D;
  sys_calls : list ChainCall;
}.

(** A request of the API, to a service whose collaborators answer anything, or
    a step of another writer of the tables. *)
Inductive move :=
| MRequest (sv : VaultService (D:=D)) (env : Env) (q : request)
| MOther (o : op (D:=D)).

Definition play (m : move) (y : System) : System :=
  match m with
  | MRequest sv env q =>
      let w := serve sv env q (mkWorld (store (index y)) (sys_spent y) (sys_calls y)) in
      mkSystem (mkIndex (tables w) (processed (index y)) (cursor (index y))) (spent w) (calls w)
  | MOther o => mkSystem (exec o (index y)) (sys_spent y) (sys_calls y)
  end.

Definition history (l : list move) (y : System) : System := foldl (λ y m, play m y) y l.

Definition honest_move (m : move) : Prop :=
  match m with MRequest sv _ q => honest sv q | MOther o => fair o end.

Definition new_system (led : Ledger.Session) : System := mkSystem (new_index led) ∅ [].

Lemma play_refines m y : honest_move m →
  ∃ l, Forall fair l ∧ (length l ≤ 1)%nat
    ∧ index (play m y) = execs uuidNew dbnow userExists unicode_lower NewFromString otherTables l (index y).
Proof.
  destruct m as [sv env q|o]; simpl; intros H.
  - destruct (one_request sv env q (mkWorld (store (index y)) (sys_spent y) (sys_calls y)) H) as [E|(o & Ho & E)].
    + exists []. split; [by constructor|]. split; [simpl; lia|]. rewrite E. simpl. by destruct (index y).
    + exists [o]. split; [by repeat constructor|]. split; [done|]. simpl.
      rewrite <-E. simpl. by destruct (index y).
  - exists [o]. split; [by repeat constructor|]. by split.
Qed.

Lemma history_refines l y : Forall honest_move l →
  ∃ l', Forall fair l' ∧ (length l' ≤ length l)%nat
    ∧ index (history l y) = execs uuidNew dbnow userExists unicode_lower NewFromString otherTables l' (index y).
Proof.
  intros HF. revert y. induction HF as [|m l Hm HF IH]; intros y; simpl.
  - exists []. split; [by constructor|]. by split.
  - destruct (play_refines m y Hm) as (l1 & H1 & L1 & E1). destruct (IH (play m y)) as (l2 & H2 & L2 & E2).
    exists (l1 ++ l2). split; [by apply Forall_app|]. rewrite length_app. split; [lia|].
    rewrite E2, E1. unfold execs. by rewrite foldl_app.
Qed.

(** C8: A history of requests to the vault service, each with its own answers of
    the chain, the verifier, the switches and the database, mixed with the other
    writers of the tables, is a history of repository transactions that the
    books account for, at most one for each request: so from empty tables each
    balance of a live vault is the sum of the recorded transactions, each total
    the sum of what was paid in, and no transaction hash is recorded twice.  The
    amounts that clients and the verifier give are decimals with an exponent, as
    the service checks them, and those of verified events and of rebalances have
    at most eight places (which the service does not check of a rebalance); a
    rebalance has a hash or none.  The other writers keep to what the books
    account for: amounts of at most eight places, vaults created empty, no
    direct write of a balance, and chain events other than harvests, whose
    deposits and withdrawals carry a transaction hash. *)
Theorem service_refines_books (led : Ledger.Session) (l : list move) :
  Forall honest_move l →
  let s := store (index (history l (new_system led))) in
  (∃ ops, Forall fair ops ∧ (length ops ≤ length l)%nat
    ∧ index (history l (new_system led))
      = execs uuidNew dbnow userExists unicode_lower NewFromString otherTables ops (new_index led))
  ∧ NoDup (hashes (txs s))
  ∧ ∀ id r, vaults s !! id = Some r → live r = true →
      v_balance r = sum_on delta id (txs s) ∧ v_total r = sum_on paid_in id (txs s).
Proof.
  intros HF s. destruct (history_refines l (new_system led) HF) as (ops & Ho & Hn & E).
  split; [by exists ops|]. subst s. rewrite E.
  destruct (execs_money uuidNew dbnow userExists unicode_lower NewFromString otherTables ops _ (new_index_inv led) Ho)
    as [H1 _ H3 _ _]. by split.
Qed.
End Calls.
