(* ===== verification/VaultStatus.v ===== *)
(** The statuses of vaults under requests to the vault service: they move along
    [CanTransitionTo] and nowhere else, as long as nobody writes between the
    read and the write of a request. *)

From S2P Require Import Prelude Sql GoStrings Decimal Vault.
From S2P Require Import Ledger.
From S2P Require Import VaultStore.
From S2P Require Import Indexer.
From S2P Require Import VaultBooks.
From S2P Require Import MoneyPath.
From S2P Require Import VaultService.
From S2P Require Import VaultRules.
From S2P Require Import VaultCalls.
Open Scope Z_scope.
Open Scope go_scope.

(** No vault is lost, and each status goes along [R]. *)
Definition statuses (R : VaultStatus → VaultStatus → Prop) (s s' : Store) : Prop :=
  ∀ id r, vaults s !! id = Some r → ∃ r', vaults s' !! id = Some r' ∧ R (v_status r) (v_status r').

#[export] Instance statuses_refl R `{!Reflexive R} : Reflexive (statuses R).
Proof. intros s id r Hr. by exists r. Qed.
#[export] Instance statuses_trans R `{!Transitive R} : Transitive (statuses R).
Proof.
  intros s1 s2 s3 H12 H23 id r (r2 & H2 & R2)%H12. destruct (H23 _ _ H2) as (r3 & H3 & R3).
  exists r3. split; [done|]. by etrans.
Qed.

Lemma statuses_vaults R `{!Reflexive R} s s' : vaults s' = vaults s → statuses R s s'.
Proof. intros E id r Hr. exists r. by rewrite E. Qed.

Lemma statuses_mono (R R' : VaultStatus → VaultStatus → Prop) s s' :
  (∀ a b, R a b → R' a b) → statuses R s s' → statuses R' s s'.
Proof. intros HR H id r (r' & H' & HRr)%H. exists r'. split; [done|by apply HR]. Qed.

(** ** Transactions that set no status *)

Definition steady {A} (m : Tx A) : Prop := ∀ s, statuses eq s (m s).2.

Lemma st_bind {A B} (m : Tx A) (f : A → Tx B) : steady m → (∀ a, steady (f a)) → steady (m ≫= f).
Proof.
  intros Hm Hf s. unfold mbind, Tx_bind. specialize (Hm s). destruct (m s) as [[a|e] s1]; simpl in *; [|done].
  etrans; [exact Hm|apply Hf].
Qed.

Lemma st_frame {A} (m : Tx A) : (∀ s, vaults (m s).2 = vaults s) → steady m.
Proof. intros H s. by apply statuses_vaults. Qed.
Lemma st_ret {A} (a : A) : steady (mret a). Proof. by apply st_frame. Qed.
Lemma st_fail {A} e : steady (@failTx A e). Proof. by apply st_frame. Qed.
Lemma st_read {A} (f : Store → result VaultErr A) : steady (readTx f). Proof. by apply st_frame. Qed.

Lemma st_insert userExists oc row : steady (insert_row userExists oc row).
Proof.
  apply st_frame. intros s. destruct (insert_row userExists oc row s) as [x s'] eqn:E.
  apply (insert_row_spec (D:=Q)) in E. destruct x as [n|e]; [|by subst].
  by destruct E as (t & _ & [(_ & -> & _)|(_ & _ & ->)]).
Qed.

Lemma st_inLedger {A} (m : Store → M A) : steady (inLedger m).
Proof. apply st_frame. intros s. unfold inLedger. by destruct (m s (ledger s)) as [[a|e] l]. Qed.

Definition keeps_status (f : VaultRow → result PgError VaultRow) : Prop :=
  ∀ r r', f r = Ok r' → v_status r' = v_status r.

Lemma st_update id f : keeps_status f → steady (update (by_id id) f).
Proof.
  intros Hf s. destruct (update (by_id id) f s) as [x s'] eqn:E. apply update_spec in E.
  destruct x as [n|e]; [|by subst]. destruct E as [(_ & -> & _)|(_ & r & r' & Hw & _ & Hr & ->)]; [done|].
  intros i q Hq. simpl. destruct (decide (i = id)) as [->|Hne].
  - exists r'. rewrite lookup_insert_eq. split; [done|]. rewrite (Hf _ _ Hr).
    pose proof (rewrites_live _ _ _ _ Hw) as E. rewrite Hq in E. by injection E as ->.
  - exists q. by rewrite lookup_insert_ne.
Qed.

Lemma st_update_one id f : keeps_status f → steady (update_one id f).
Proof. intros Hf. apply st_bind; [by apply st_update|]. intros n. case_match; [apply st_fail|apply st_ret]. Qed.

Lemma st_inTx {A} b d (m : Tx A) : steady m → steady (inTx b d m).
Proof.
  intros Hm s. unfold inTx. destruct b; simpl; [|done]. specialize (Hm s).
  destruct (m s) as [[a|e] s1]; simpl in *; [destruct d as [|[]]; simpl|];
    first [done|by apply statuses_vaults; [intros ?|]|by apply statuses_vaults].
Qed.

Lemma set_money_status dbnow t b : keeps_status (set_money dbnow t b).
Proof.
  intros r r'. unfold set_money. destruct (numeric 48 (t r)); simpl; [|done].
  destruct (numeric 48 (b r)); simpl; [|done]. by intros [= <-].
Qed.

Create HintDb status.
#[export] Hint Resolve st_ret st_fail st_read st_insert st_inLedger : status.

Ltac status :=
  repeat first
    [ progress auto with status
    | apply st_inTx
    | apply st_update_one; try apply set_money_status
    | apply st_update; try apply set_money_status
    | apply st_bind; [|intros ?]
    | case_match ].

Section Status.
Context {D : Type} `{!Decimal D} `{!DecimalLaws D}.
Context (uuidNew : nat → UUID) (dbnow : Time) (userExists : UUID → bool).
Context (unicode_lower : string → string) (NewFromString : string → option D)
        (otherTables : indexedEvent → result VaultErr unit).
#[local] Abbreviation exec_ := (exec (D:=D) uuidNew dbnow userExists unicode_lower NewFromString otherTables).

Lemma harvested_status c n f : keeps_status (harvested dbnow c n f).
Proof.
  intros r r'. unfold harvested.
  destruct (numeric 48 (if c then col (v_total r) + n else _)%Q); simpl; [|done].
  destruct (numeric 48 (if c then col (v_balance r) + n else _)%Q); simpl; [|done].
  destruct (numeric 48 (greatest0 _)); simpl; [|done].
  destruct (numeric 48 (col (v_fees r) + f)%Q); simpl; [|done]. by intros [= <-].
Qed.

Lemma st_create b d id (m : Model (D:=D)) : steady (CreateVault dbnow userExists b d id m).
Proof.
  unfold CreateVault. apply st_bind; [|status]. apply st_inTx. intros s. unfold stmt.
  destruct (numeric 48 (dval (m_total m))) as [t|]; simpl; [|done].
  destruct (numeric 48 (dval (m_balance m))) as [bal|]; simpl; [|done].
  destruct (numeric 48 (dval (m_yield m))) as [y|]; simpl; [|done].
  destruct (numeric 48 (dval (m_fees m))) as [f|]; simpl; [|done].
  case_bool_decide as Hid; simpl; [done|]. unfold write_vault.
  destruct (check_vault _); simpl; [|done]. destruct (contract_taken _ _ _); simpl; [done|].
  destruct (userExists _); simpl; [|done]. intros i r Hr. exists r. simpl.
  rewrite lookup_insert_ne; [done|]. intros <-. by apply Hid.
Qed.

(** A plain transaction leaves the statuses. *)
Lemma plain_statuses o x : plain unicode_lower NewFromString o → statuses eq (store x) (store (exec_ o x)).
Proof.
  intros [_ Ho]. destruct o; try done; simpl.
  all: match goal with |- statuses eq _ (?m _).2 => enough (steady m) as Hs by apply Hs end.
  - unfold RecordDeposit. status.
  - unfold RecordWithdrawal. status.
  - unfold RecordHarvest. status. apply harvested_status.
  - unfold RecordRebalance. status.
  - apply st_create.
  - unfold UpdateHarvestFrequency, exec_one. status. by intros ? ? [= <-].
  - unfold SoftDeleteVault, exec_one. status. by intros ? ? [= <-].
Qed.

Lemma one_statuses s s' : one_op uuidNew dbnow userExists unicode_lower NewFromString otherTables
  (plain unicode_lower NewFromString) s s' → statuses eq s s'.
Proof.
  intros [->|(o & Ho & E)]; [done|]. pose proof (plain_statuses o (mkIndex s ∅ None) Ho) as H.
  by rewrite E in H.
Qed.

End Status.

(** ** Requests *)

Section Requests.
Context {D : Type} `{!Decimal D} `{!DecimalLaws D}.
Context (uuidNew : nat → UUID) (dbnow : Time) (userExists : UUID → bool).
Context (toLower toUpper : string → string) (unicode_fold : string → string → bool).
Context (Exponent : D → Z).
#[local] Abbreviation World := (World (D:=D)).
#[local] Abbreviation serve_ := (serve uuidNew dbnow userExists toLower toUpper unicode_fold Exponent).
(** No event is among the transactions of a request. *)
#[local] Abbreviation one_plain :=
  (one_op uuidNew dbnow userExists id (λ _, None) (λ _, Ok tt) (plain id (λ _, None))).

Definition allowed (a b : VaultStatus) : Prop := b = a ∨ CanTransitionTo a b = true.

#[local] Instance allowed_refl : Reflexive allowed.
Proof. by left. Qed.

(** Statuses go along [allowed], and that of a vault other than [id] not at all. *)
Definition along (id : UUID) (s s' : Store) : Prop :=
  ∀ i r, vaults s !! i = Some r → ∃ r', vaults s' !! i = Some r' ∧
    (v_status r' = v_status r ∨ i = id ∧ CanTransitionTo (v_status r) (v_status r') = true).

#[local] Instance along_refl id : Reflexive (along id).
Proof. intros s i r Hr. exists r. split; [done|by left]. Qed.

Lemma along_set env id contract st (w : World) r :
  vaults (tables w) !! id = Some r → allowed (v_status r) st →
  along id (tables w) (tables (set_vault dbnow env id contract st w).2).
Proof.
  intros Hr Hst. unfold set_vault, mbind, Srv_bind.
  destruct (inTables _ w) as [o w1] eqn:E. apply inTables_run in E as (x & s & Hu & -> & ->).
  assert (Hal : along id (tables w) s).
  { unfold UpdateVault in Hu. apply exec_one_spec in Hu as [[(Hv & _) _]|(r0 & r' & HB & _ & [= <-] & _)].
    - intros i q Hq. exists q. rewrite Hv. split; [done|by left].
    - pose proof (bk_row _ _ _ _ _ _ HB) as E. rewrite Hr in E. injection E as <-.
      intros i q Hq. rewrite (bk_vaults _ _ _ _ _ _ HB). destruct (decide (i = id)) as [->|Hne].
      + eexists. rewrite lookup_insert_eq. split; [done|]. rewrite Hr in Hq. injection Hq as <-. simpl.
        destruct Hst; [by left|by right].
      + exists q. rewrite lookup_insert_ne by done. split; [done|by left].
    - by intros ? ? [= <-]. }
  destruct x as [[]|e]; [|done]. by rewrite (read_vault_same (e_reread env) id (mkWorld s (spent w) (calls w))).
Qed.

Lemma get_Ok env id (w : World) m w' :
  svcGetVault env id w = (Done (Ok m), w') → w' = w ∧ ∃ r, vaults (tables w) !! id = Some r ∧ m = scanVault id r.
Proof.
  intros ([] & w1 & (_ & ->)%ensure_Ok & H)%bind_Srv_Ok.
  apply read_vault_Ok in H as (-> & r & Hr & _ & ->). eauto.
Qed.

Lemma closes st : st ≠ StatusClosed → allowed st StatusClosed.
Proof. destruct st; [by right..|done]. Qed.

Lemma along_update env id contract status (w : World) :
  along id (tables w) (tables (svcUpdateVault dbnow toLower env id contract status w).2).
Proof.
  unfold svcUpdateVault. apply (tables_bind (along id)); [apply t_get|]. intros m w1 [-> (r & Hr & ->)]%get_Ok _.
  apply (tables_bind (along id)); [srv|]. intros st w2 Hst _. revert Hst. case_decide.
  - intros [= <- <-]. eapply along_set; [done|by left].
  - intros (p & w3 & Hp & H1)%bind_Srv_Ok. injection Hp as _ ->.
    apply bind_Srv_Ok in H1 as ([] & w4 & (Hp & ->)%ensure_Ok & [= <- <-]).
    eapply along_set; [done|]. apply orb_true_iff in Hp as [->%bool_decide_eq_true|Hp]; [by left|by right].
Qed.

Lemma along_status env id (w : World) :
  (∀ force, along id (tables w) (tables (svcCloseVault dbnow env id force w).2))
  ∧ along id (tables w) (tables (svcPauseVault dbnow env id w).2)
  ∧ along id (tables w) (tables (svcUnpauseVault dbnow env id w).2).
Proof.
  unfold svcCloseVault, svcPauseVault, svcUnpauseVault.
  split; [intros force|split]; (apply (tables_bind (along id)); [apply t_get|]);
    intros m w1 [-> (r & Hr & ->)]%get_Ok _;
    (apply (tables_bind (along id)); [srv|]); intros [] w2 [Hc ->]%ensure_Ok _;
    (apply (tables_bind (along id)); [srv|]); intros [] w3 [Ha ->]%ensure_Ok _; (eapply along_set; [done|]).
  - apply closes. by apply negb_true_iff, bool_decide_eq_false in Hc.
  - apply bool_decide_eq_true in Ha. simpl in Ha. rewrite Ha. by right.
  - apply bool_decide_eq_true in Ha. simpl in Ha. rewrite Ha. by right.
Qed.

(** The request sets the status of this vault. *)
Definition sets_status (q : request (D:=D)) (id : UUID) : Prop :=
  match q with
  | RqUpdate i _ _ | RqClose i _ | RqPause i | RqUnpause i => i = id
  | _ => False
  end.

(** A request to the vault service loses no vault; only an update, a close, a
    pause or an unpause of that vault changes its status, and only along the
    transitions of [CanTransitionTo], so a closed vault stays closed whatever
    is requested. *)
Theorem service_status_transitions sv env (q : request (D:=D)) (w : World) id r :
  honest Exponent sv q → vaults (tables w) !! id = Some r →
  ∃ r', vaults (tables (serve_ sv env q w)) !! id = Some r'
    ∧ (v_status r' = v_status r
       ∨ sets_status q id ∧ CanTransitionTo (v_status r) (v_status r') = true)
    ∧ (v_status r = StatusClosed → v_status r' = StatusClosed).
Proof.
  intros Hq Hr.
  enough (∃ r', vaults (tables (serve_ sv env q w)) !! id = Some r'
    ∧ (v_status r' = v_status r ∨ sets_status q id ∧ CanTransitionTo (v_status r) (v_status r') = true))
    as (r' & Hr' & Hs).
  { exists r'. split; [done|]. split; [done|]. intros Hc. rewrite Hc in Hs. by destruct Hs as [?|[_ ?]]. }
  assert (Hplain : one_plain (tables w) (tables (serve_ sv env q w)) →
    ∃ r', vaults (tables (serve_ sv env q w)) !! id = Some r' ∧ v_status r' = v_status r).
  { intros H. destruct (one_statuses uuidNew dbnow userExists Datatypes.id (λ _, None) (λ _, Ok tt) _ _ H id r Hr) as (r' & ? & ?). by exists r'. }
  assert (Halong : ∀ i s', along i (tables w) s' → (i = id → sets_status q id) → ∃ r', vaults s' !! id = Some r'
    ∧ (v_status r' = v_status r ∨ sets_status q id ∧ CanTransitionTo (v_status r) (v_status r') = true)).
  { intros i s' Ha Hi. destruct (Ha id r Hr) as (r' & Hr' & [E|[E1 E2]]); exists r'; (split; [done|]);
      [by left|right; split; [by apply Hi|done]]. }
  destruct q; simpl in *;
    first [ eapply Halong; [by apply along_update || apply along_status|done]
          | destruct Hplain as (r' & ? & ?); [|exists r'; by auto] ].
  all: first [apply one_create|apply one_deposit; by destruct Hq|apply one_withdrawal; by destruct Hq
    |apply one_frequency|apply one_delete|apply one_emergency|apply one_harvest|by apply one_rebalance].
Qed.
End Requests.
