(* ===== verification/VaultScenes.v ===== *)
(** The vault service on concrete vaults: where the theorems of [VaultRules],
    [VaultCalls] and [VaultStatus] apply, and what the service does at the
    edges of its own arithmetic. *)

From S2P Require Import Prelude Sql GoStrings Decimal Vault.
From S2P Require Import Ledger.
From S2P Require Import VaultStore.
From S2P Require Import Indexer.
From S2P Require Import VaultBooks.
From S2P Require Import VaultPool.
From S2P Require Import MoneyPath.
From S2P Require Import VaultService.
From S2P Require Import VaultRules.
From S2P Require Import VaultCalls.
From S2P Require Import VaultStatus.
Open Scope Z_scope.
Open Scope go_scope.

(** ** A service and its world *)

(** Amounts with eight places. *)
Definition eight (q : Q) : Z := -8.

Definition scene_env : Env := mkEnv true true DBOk true.

Definition scene_row (total balance yield : Z) (st : VaultStatus) : VaultRow :=
  mkVaultRow 7 "CVAULT" total balance "USDC" st yield 0 "daily" None None 0 0.

Definition scene (r : VaultRow) : World (D:=Q) := mkWorld (mkStore {[1 := r]} [] demo_ledger) ∅ [].

(** A chain that accepts everything and previews shares as they are asked. *)
Definition kind_chain : Invoker :=
  mkInvoker (λ _ _, Ok tt) (λ _ _ _, Ok "w1"%string) (λ _ s, Ok s) (λ _ s, Ok s) (λ _ _ _, Ok "y1"%string)
    (λ _, Ok tt).

Definition scene_policy : OperatorFundedDepositPolicy (D:=Q) := NewOperatorFundedDepositPolicy true [1] 500%Q.

(** The event of the hash d1: 250, whatever contract and kind are asked for. *)
Definition scene_verify : Verifier (D:=Q) := λ h _ _,
  if decide (h = "d1"%string) then Ok (mkVerified 250%Q "GUSER") else Err ErrUnverifiedChainTx.

Definition service (inv : option Invoker) (verify : option (Verifier (D:=Q)))
    (gate : option (string → result VaultErr unit)) : VaultService (D:=Q) :=
  mkService inv (Some scene_policy) verify true None gate.

Definition request_of (amount : Q) (hash : string) : RecordInput (D:=Q) := mkInput 1 7 amount hash 0%Q "" 50.

#[local] Abbreviation deposit sv i := (svcRecordDeposit demo_uuid 9 (λ _, true) String.eqb eight sv scene_env i).
#[local] Abbreviation withdraw sv i := (svcRecordWithdrawal demo_uuid 9 (λ _, true) String.eqb eight sv scene_env i).
#[local] Abbreviation harvest sv i := (svcHarvestVault demo_uuid 9 (λ _, true) sv scene_env i).
#[local] Abbreviation request_ := (serve demo_uuid 9 (λ _, true) id id String.eqb eight).

Definition hundred : VaultRow := scene_row 10000000000 10000000000 0 StatusActive.

Lemma eight_scaled a c : (a == col c)%Q → scaled (D:=Q) eight a.
Proof.
  intros E. exists c. change (a * inject_Z 100000000 == inject_Z c)%Q. rewrite E.
  unfold col, unit8, Qeq, Qmult, inject_Z. cbn [Qnum Qden]. lia.
Qed.

Lemma scene_exact inv gate : exact_events (service inv (Some scene_verify) gate).
Proof.
  intros v h c ty ev [= <-]. unfold scene_verify. case_decide; [|done]. intros [= <-]. by exists 25000000000.
Qed.

Lemma scene_exact_none inv gate : exact_events (service inv None gate).
Proof. by intros v h c ty ev. Qed.

(** ** Where the theorems apply *)

Lemma paused_moves_nothing_witness :
  deposit (service (Some kind_chain) None (Some (λ _, Err (ErrPaused "incident")))) (request_of 100%Q "") (scene hundred)
  = (Done (Err (ErrPaused "incident")), scene hundred).
Proof.
  refine (proj1 (paused_moves_nothing demo_uuid 9 (λ _, true) String.eqb eight (service (Some kind_chain) None (Some (λ _, Err (ErrPaused "incident"))))
    (λ _, Err (ErrPaused "incident")) (ErrPaused "incident") scene_env (request_of 100%Q "") (mkRebalanceInput 1 7 "a" "b" 1%Q "h") (scene hundred)
    eq_refl) eq_refl).
Defined.

Lemma operator_pays_only_allowed_witness :
  let '(o, w') := deposit (service (Some kind_chain) None None) (request_of 100%Q "") (scene hundred) in
  calls w' = [CallDeposit "CVAULT" 1000000000]
  ∧ ∃ c, calls w' = [c] ∧ paid_by_operator (service (Some kind_chain) None None) (request_of 100%Q "") c (scene hundred) w'.
Proof.
  destruct (deposit _ _ _) as [o w'] eqn:E.
  assert (Hc : calls w' = [CallDeposit "CVAULT" 1000000000]).
  { change (calls ((o, w')).2 = [CallDeposit "CVAULT" 1000000000]). rewrite <-E. vm_compute. reflexivity. }
  split; [done|].
  destruct (operator_pays_only_allowed _ _ _ _ _ _ _ _ _ _ _ E) as [[Hno _]|(c & Hcs & Hp)].
  - exfalso. rewrite Hc in Hno. discriminate Hno.
  - exact (ex_intro _ c (conj Hcs Hp)).
Defined.

Lemma deposit_credits_chain_amount_witness :
  let sv := service (Some kind_chain) (Some scene_verify) None in
  let w' := (deposit sv (request_of 100%Q "d1") (scene hundred)).2 in
  ¬ same (tables (scene hundred)) (tables w')
  ∧ ∃ m a r, credited String.eqb sv (request_of 100%Q "d1") m a
      ∧ moved_by 1 "deposit" "d1" (units (dval a)) (tables (scene hundred)) (tables w') r.
Proof.
  intros sv w'. assert (Hn : ¬ same (tables (scene hundred)) (tables w')).
  { intros (_ & H & _). apply (f_equal length) in H. vm_compute in H. discriminate H. }
  split; [exact Hn|].
  destruct (deposit_credits_chain_amount demo_uuid 9 (λ _, true) String.eqb eight sv scene_env
    (request_of 100%Q "d1") (scene hundred) (deposit sv (request_of 100%Q "d1") (scene hundred)).1 w')
    as [[Hs _]|(m & a & r & _ & Hc & Hm)].
  - by apply (eight_scaled 100%Q 10000000000).
  - apply scene_exact.
  - exact (surjective_pairing _).
  - destruct (Hn Hs).
  - exact (ex_intro _ m (ex_intro _ a (ex_intro _ r (conj Hc Hm)))).
Defined.

Lemma chain_withdrawal_covered_witness :
  let sv := service (Some kind_chain) None None in
  let w' := (withdraw sv (request_of 30%Q "") (scene hundred)).2 in
  calls w' = [CallWithdraw "CVAULT" 300000000 50]
  ∧ ∃ c, calls w' = calls (scene hundred) ++ [c] ∧ chain_withdrawal eight sv (request_of 30%Q "") c (scene hundred).
Proof.
  intros sv w'. assert (Hc : calls w' = [CallWithdraw "CVAULT" 300000000 50]) by (vm_compute; reflexivity).
  split; [exact Hc|].
  destruct (chain_withdrawal_covered demo_uuid 9 (λ _, true) String.eqb eight sv scene_env
    (request_of 30%Q "") (scene hundred) (withdraw sv (request_of 30%Q "") (scene hundred)).1 w'
    (surjective_pairing _)) as [Hno|(c & Hcs & Hp)].
  - exfalso. rewrite Hc in Hno. discriminate Hno.
  - exact (ex_intro _ c (conj Hcs Hp)).
Defined.

(** Ten of yield on a vault of a hundred, held by the owner. *)
Definition grown : VaultRow := scene_row 10000000000 11000000000 1000000000 StatusActive.
Definition harvest_of (c : bool) : HarvestInput := mkHarvestInput 1 7 "GUSER" (Some c).

Lemma harvest_splits_yield_witness :
  let sv := service (Some kind_chain) None None in
  ∃ r w', harvest sv (harvest_of true) (scene grown) = (Done (Ok r), w')
    ∧ (dval (PerformanceFee r) + dval (NetYield r) == dval (GrossYield r))%Q.
Proof.
  intros sv. destruct (harvest sv (harvest_of true) (scene grown)) as [o w'] eqn:E.
  assert (Ho : ∃ r, o = Done (Ok r)).
  { apply (f_equal fst) in E. simpl fst in E. rewrite <-E. eexists. vm_compute. reflexivity. }
  destruct Ho as [r ->]. exists r, w'. split; [reflexivity|].
  destruct (harvest_splits_yield demo_uuid 9 (λ _, true) sv scene_env (harvest_of true) (scene grown) r w' E)
    as (row & Hrow & H).
  destruct Hrow as [Hr _ _ _]. destruct H as [(Hle & _)|(_ & H & _)]; [|exact H].
  exfalso. assert (Some row = Some grown) as [= ->] by (rewrite <-Hr; vm_compute; reflexivity).
  by apply Hle.
Defined.

Definition scene_history : list (move (D:=Q)) :=
  let sv := service (Some kind_chain) None None in
  [ MRequest sv scene_env (RqCreate 1 (mkCreate 7 "CVAULT" "USDC" ""));
    MRequest sv scene_env (RqDeposit (request_of 100%Q ""));
    MRequest sv scene_env (RqWithdrawal (request_of 30%Q ""));
    MRequest sv scene_env (RqRebalance (mkRebalanceInput 1 7 "blend" "aave" 20%Q ""));
    MRequest sv scene_env (RqPause 1);
    MOther (OEvent true true DBOk (demo_event "pause" "h5")) ].

Lemma scene_honest : Forall (honest_move eight id (λ _, None)) scene_history.
Proof.
  repeat apply Forall_cons_2; try apply Forall_nil_2; try done.
  - split; [by apply (eight_scaled 100%Q 10000000000)|apply scene_exact_none].
  - split; [by apply (eight_scaled 30%Q 3000000000)|apply scene_exact_none].
  - by apply (exact8_of _ 2000000000).
  - apply demo_pause.
Qed.

#[local] Abbreviation scene_run := (store (index (history demo_uuid 9 (λ _, true) id id String.eqb eight id
  (λ _ : string, None : option Q) (λ _, Ok tt) scene_history (new_system demo_ledger)))).

Lemma service_refines_books_witness :
  v_balance <$> vaults scene_run !! 1 = Some 7000000000
  ∧ t_type <$> txs scene_run = ["deposit"; "withdrawal"; "withdrawal"; "deposit"; "rebalance"]%string
  ∧ NoDup (hashes (txs scene_run)).
Proof.
  split; [vm_compute; reflexivity|]. split; [vm_compute; reflexivity|].
  exact (proj1 (proj2 (service_refines_books demo_uuid 9 (λ _, true) id id String.eqb eight id (λ _, None)
    (λ _, Ok tt) demo_ledger scene_history scene_honest))).
Defined.

Lemma service_status_transitions_witness :
  let w' := request_ (service None None None) scene_env (RqClose 1 true) (scene hundred) in
  v_status <$> vaults (tables w') !! 1 = Some StatusClosed
  ∧ ∃ r', vaults (tables w') !! 1 = Some r' ∧ (StatusActive = StatusClosed → v_status r' = StatusClosed).
Proof.
  split; [vm_compute; reflexivity|].
  destruct (service_status_transitions demo_uuid 9 (λ _, true) id id String.eqb eight (service None None None)
    scene_env (RqClose 1 true) (scene hundred) 1 hundred I eq_refl) as (r' & Hr & _ & Hc).
  exact (ex_intro _ r' (conj Hr Hc)).
Defined.

(** ** The edges *)

(** What a run leaves of vault 1: its total, its balance and its yield. *)
Definition money (w : World (D:=Q)) : option (Z * Z * Z) :=
  (λ r, (v_total r, v_balance r, v_yield r)) <$> vaults (tables w) !! 1.

Definition status_at (w : World (D:=Q)) : option VaultStatus := v_status <$> vaults (tables w) !! 1.

(** Withdrawals leave the total of deposits, and the share price divides by it:
    a vault emptied once has the price zero, and the next deposit panics on the
    division, after the operator's transaction has reached the chain. *)
Lemma emptied_vault_panics_on_deposit :
  let sv := service (Some kind_chain) None None in
  let w1 := (withdraw sv (request_of 100%Q "") (scene hundred)).2 in
  let '(o, w2) := deposit sv (request_of 50%Q "") w1 in
  money w1 = Some (10000000000, 0, 0)
  ∧ o = Panics ∧ money w2 = money w1
  ∧ calls w2 = calls w1 ++ [CallDeposit "CVAULT" 500000000].
Proof. vm_compute. by repeat split. Qed.

(** A chain that cannot be asked for previews. *)
Definition blind_chain : Invoker :=
  mkInvoker (λ _ _, Ok tt) (λ _ _ _, Ok "w1"%string) (λ _ _, Err ErrOnChain) (λ _ _, Err ErrOnChain)
    (λ _ _ _, Ok "y1"%string) (λ _, Ok tt).

(** After half is withdrawn each share is priced at one half, so without a
    preview to correct it a withdrawal of ten burns twenty shares on the chain. *)
Lemma half_withdrawn_doubles_shares :
  let burned inv :=
    let sv := service (Some inv) None None in
    let w1 := (withdraw sv (request_of 50%Q "") (scene hundred)).2 in
    drop 1 (calls (withdraw sv (request_of 10%Q "") w1).2) in
  burned blind_chain = [CallWithdraw "CVAULT" 200000000 50]
  ∧ burned kind_chain = [CallWithdraw "CVAULT" 100000000 50].
Proof. vm_compute. by repeat split. Qed.

(** With the event verifier configured, a deposit without a hash is paid by the
    operator on the chain and then refused for its missing hash. *)
Lemma operator_deposit_refused_after_payment :
  let sv := service (Some kind_chain) (Some scene_verify) None in
  let '(o, w') := deposit sv (request_of 100%Q "") (scene hundred) in
  o = Done (Err ErrTxHashRequired) ∧ calls w' = [CallDeposit "CVAULT" 1000000000]
  ∧ money w' = money (scene hundred).
Proof. vm_compute. by repeat split. Qed.

(** A compounded harvest adds to the balance a yield that the balance already
    holds, and leaves it as far above the total as before: the same ten of yield
    are harvested again and again. *)
Lemma compounded_yield_harvested_again :
  let sv := service None None None in
  let step w := (harvest sv (harvest_of true) w).2 in
  let w0 := scene (scene_row 10000000000 11000000000 0 StatusActive) in
  money (step w0) = Some (10900000000, 11900000000, 0)
  ∧ money (step (step w0)) = Some (11800000000, 12800000000, 0)
  ∧ money (step (step (step w0))) = Some (12700000000, 13700000000, 0).
Proof. vm_compute. by repeat split. Qed.

(** A deposit into a paused or closed vault is recorded: only the switch of
    deposits is asked. *)
Lemma closed_vault_takes_deposits :
  let closed := scene_row 10000000000 10000000000 0 StatusClosed in
  let w' := (deposit (service None None None) (request_of 100%Q "") (scene closed)).2 in
  money w' = Some (20000000000, 20000000000, 0).
Proof. vm_compute. by repeat split. Qed.

(** An unpause that has read the vault before a close writes it back to active
    after it. *)
Lemma unpause_reopens_closed_vault :
  let w0 := scene (scene_row 0 0 0 StatusPaused) in
  let '(o, _) := svcGetVault scene_env 1 w0 in
  let w1 := request_ (service None None None) scene_env (RqClose 1 false) w0 in
  let w2 := (set_vault 9 scene_env 1 "CVAULT" StatusActive w1).2 in
  match o with Done (Ok m) => m_status m = StatusPaused | _ => False end
  ∧ status_at w1 = Some StatusClosed ∧ status_at w2 = Some StatusActive.
Proof. vm_compute. by repeat split. Qed.

(** A rebalance without a hash is recorded as a withdrawal and a deposit, so the
    total of deposits grows by what was only moved. *)
Lemma rebalance_counts_as_deposit :
  let w' := request_ (service None None None) scene_env (RqRebalance (mkRebalanceInput 1 7 "a" "b" 40%Q "")) (scene hundred) in
  money w' = Some (14000000000, 10000000000, 0).
Proof. vm_compute. by repeat split. Qed.

(** A rebalance is not held to eight places, and each of its two moves rounds
    the stored balance: half of the last place, taken and put back, is rounded
    up both times, so the balance grows by the last place while the recorded
    withdrawal and deposit cancel, and the ledger sees nothing. *)
Lemma small_rebalance_mints :
  let half := RqRebalance (mkRebalanceInput 1 7 "a" "b" (5 # 1000000000)%Q "") in
  let w1 := request_ (service None None None) scene_env half (scene hundred) in
  let w2 := request_ (service None None None) scene_env half w1 in
  (λ r, v_balance r) <$> vaults (tables w2) !! 1 = Some 10000000002
  ∧ sum_on delta 1 (txs (tables w2)) = 0
  ∧ db (ledger (tables w2)) = db (ledger (tables (scene hundred))).
Proof. vm_compute. by repeat split. Qed.

(** The moves of a rebalance do not check that they found the vault: on one
    deleted since it was read they move nothing, and the withdrawal, the deposit
    and the rebalance are recorded and posted all the same. *)
Lemma rebalance_of_deleted_vault_is_recorded :
  let gone := mkVaultRow 7 "CVAULT" 10000000000 10000000000 "USDC" StatusActive 0 0 "daily" None (Some 5) 0 0 in
  let '(x, s) := RecordRebalance demo_uuid 9 (λ _, true) true DBOk (mkRebalance 1 7 "a" "b" 20%Q "")
                   (demo_record 20 "") (demo_record 30 "") (tables (scene gone)) in
  x = Ok tt ∧ vaults s !! 1 = Some gone
  ∧ t_type <$> txs s = ["withdrawal"; "deposit"; "rebalance"]%string ∧ sum_on delta 1 (txs s) = 1000000000.
Proof. vm_compute. by repeat split. Qed.
