(* ===== verification/Transactions.v ===== *)
(** Transactions that users register and the chain settles
    (internal/domain/transaction/model.go; internal/service:
    transaction_service.go, transaction_chain_claim.go, transaction_poller.go;
    internal/repository/postgres/transaction_repository.go).

    The table transactions is a map from transaction hash to row; the service
    acts on it and on the tables of [VaultStore], which its balance applier and
    its vault lookup are.  What Horizon answers, the parsing of its times and
    decimals, the clock, fresh ids and which database calls fail are arguments.
    Listings for users, notifications and metrics are left out. *)

From S2P Require Import Prelude Sql GoStrings Decimal Vault.
From S2P Require Import Ledger.
From S2P Require Import VaultStore.
Open Scope Z_scope.
Open Scope go_scope.

(** ** The model (domain/transaction/model.go) *)

Definition TypeDeposit : string := "deposit".
Definition TypeWithdrawal : string := "withdrawal".

Inductive TransactionStatus := StatusPending | StatusCompleted | StatusFailed.

#[export] Instance TransactionStatus_eq : EqDecision TransactionStatus.
Proof. solve_decision. Defined.

Inductive TxError :=
| ErrTransactionNotFound | ErrInvalidTransaction | ErrInvalidType | ErrChainClaimMismatch
| ErrTransactionPending | ErrHorizon | ErrDatabase (e : PgError) | ErrConnection
| ErrOfVault (e : VaultErr).

Definition ReasonNoMatchingOperation : string := "chain_no_matching_operation".
Definition ReasonAmountMismatch : string := "chain_amount_mismatch".
Definition ReasonAssetMismatch : string := "chain_asset_mismatch".
Definition ReasonDestinationMismatch : string := "chain_destination_mismatch".
Definition ReasonVaultUnresolvable : string := "chain_vault_unresolvable".

(** A row; its key is tx_hash. *)
Record Row := mkRow {
  x_id : UUID;
  x_vault : UUID;
  x_type : string;
  x_amount : Z;
  x_currency : string;
  x_status : TransactionStatus;
  x_reason : string;
  x_created : Time;
  x_updated : Time;
  x_confirmed : option Time;
}.

Definition Table := gmap string Row.

(** ** The repository *)

Section Transactions.
Context {D : Type} `{!Decimal D}.
Context (dbnow : Time).

Record Transaction := mkTransaction {
  ID : UUID;
  VaultID : UUID;
  Type_ : string;
  Amount : D;
  Currency : string;
  TxHash : string;
  Status : TransactionStatus;
  ErrorReason : string;
  CreatedAt : Time;
  UpdatedAt : Time;
  ConfirmedAt : option Time;
}.

Definition mapTransactionError (e : PgError) : TxError :=
  if bool_decide (Code e = "23503") && Contains (ConstraintName e) "vault" then ErrInvalidTransaction
  else if decide (Code e = "23505") then ErrInvalidTransaction
  else ErrDatabase e.

Definition nullString (value : string) : string := TrimSpace value.

Definition scanTransaction (hash : string) (r : Row) : Transaction :=
  mkTransaction (x_id r) (x_vault r) (x_type r) (scan_col (x_amount r)) (x_currency r) hash (x_status r)
    (TrimSpace (x_reason r)) (x_created r) (x_updated r) (x_confirmed r).

(** The CHECK constraints of transactions. *)
Definition check_row (r : Row) : result PgError unit :=
  guard_err (bool_decide (x_type r ∉ ["deposit"; "withdrawal"; "allocation"; "settlement"]%string))
    (mkPg "23514" "transactions_type_check");;
  guard_err (x_amount r <=? 0) (mkPg "23514" "transactions_amount_check");;
  guard_err (bool_decide (x_currency r = "")) (mkPg "23514" "transactions_currency_check").

(** [INSERT INTO transactions … ON CONFLICT (tx_hash) DO UPDATE] *)
Definition upsert_row (vaultExists : UUID → bool) (m : Transaction) (t : Table) : result PgError Row :=
  a ← numeric 48 (dval (Amount m));
  let old := t !! TxHash m in
  let r := mkRow (default (ID m) (x_id <$> old)) (VaultID m) (Type_ m) a (Currency m) (Status m)
             (nullString (ErrorReason m)) (default dbnow (x_created <$> old)) dbnow (ConfirmedAt m) in
  check_row r;;
  guard_err (match old with
             | None => existsb (λ p : string * Row, x_id p.2 =? ID m) (map_to_list t)
             | Some _ => false
             end) (mkPg "23505" "transactions_pkey");;
  guard_err (negb (vaultExists (VaultID m))) (mkPg "23503" "transactions_vault_id_fkey");;
  Ok r.

Definition Upsert (vaultExists : UUID → bool) (d : dbres) (m : Transaction) (t : Table)
    : result TxError Transaction * Table :=
  match upsert_row vaultExists m t with
  | Err e => (if failed d then Err ErrConnection else Err (mapTransactionError e), t)
  | Ok r =>
      (if failed d then Err ErrConnection
       else Ok (mkTransaction (ID m) (VaultID m) (Type_ m) (Amount m) (Currency m) (TxHash m) (Status m)
                  (ErrorReason m) (x_created r) (x_updated r) (x_confirmed r)),
       Sql.effect d t (<[TxHash m := r]> t))
  end.

Definition GetByHash (queryOk : bool) (hash : string) (t : Table) : result TxError Transaction :=
  if negb queryOk then Err ErrConnection
  else match t !! hash with Some r => Ok (scanTransaction hash r) | None => Err ErrTransactionNotFound end.

(** ORDER BY created_at ASC; rows that tie come in any order. *)
Definition older (p q : string * Row) : Prop := x_created p.2 ≤ x_created q.2.
#[export] Instance older_dec : RelDecision older := λ p q, Z.le_dec _ _.

Definition pending_before (cutoff : Time) (p : string * Row) : bool :=
  bool_decide (x_status p.2 = StatusPending) && (x_created p.2 <=? cutoff).

Definition ListPendingOlderThan (queryOk : bool) (cutoff : Time) (t : Table) : result TxError (list Transaction) :=
  if negb queryOk then Err ErrConnection
  else Ok ((λ p, scanTransaction p.1 p.2) <$> select_rows older (pending_before cutoff) (Z.of_nat (size t)) t).

(** [d] is what becomes of the UPDATE, [rereadOk] whether the row is read again. *)
Definition UpdateStatus (d : dbres) (rereadOk : bool) (hash : string) (status : TransactionStatus)
    (confirmedAt : option Time) (errorReason : string) (t : Table) : result TxError Transaction * Table :=
  let t' := match t !! hash with
            | Some r => <[hash := mkRow (x_id r) (x_vault r) (x_type r) (x_amount r) (x_currency r) status
                                  (nullString errorReason) (x_created r) dbnow confirmedAt]> t
            | None => t
            end in
  let u := Sql.effect d t t' in
  if failed d then (Err ErrConnection, u)
  else match t !! hash with
       | None => (Err ErrTransactionNotFound, u)
       | Some _ => (GetByHash rereadOk hash u, u)
       end.

(** ** The service (service/transaction_service.go) *)

Context (unicode_lower toUpper : string → string) (unicode_fold : string → string → bool).
Context (NewFromString : string → option D) (ParseRFC3339 : string → option Time).
Context (uuidNew : nat → UUID) (userExists : UUID → bool).

Record RegisterTransactionInput := mkRegister {
  rg_vault : UUID; rg_type : string; rg_amount : D; rg_currency : string; rg_hash : string;
}.

Definition isSupportedTransactionType (ty : string) : bool :=
  bool_decide (ty = TypeDeposit) || bool_decide (ty = TypeWithdrawal).

Definition RegisterTransaction (now : Time) (newID : UUID) (vaultExists : UUID → bool) (d : dbres)
    (i : RegisterTransactionInput) (t : Table) : result TxError Transaction * Table :=
  if (rg_vault i =? uuid_Nil) || d_le (rg_amount i) d_zero || bool_decide (TrimSpace (rg_currency i) = "")
     || bool_decide (TrimSpace (rg_hash i) = "")
  then (Err ErrInvalidTransaction, t)
  else
    let ty := ToLower unicode_lower (TrimSpace (rg_type i)) in
    if negb (isSupportedTransactionType ty) then (Err ErrInvalidType, t)
    else Upsert vaultExists d
           (mkTransaction newID (rg_vault i) ty (rg_amount i) (toUpper (TrimSpace (rg_currency i)))
              (TrimSpace (rg_hash i)) StatusPending "" now now None) t.

(** What an HTTP call answers: nothing, or a status and the decoded body. *)
Inductive HttpResp (A : Type) :=
| NoAnswer
| Answer (code : Z) (body : option A).
#[global] Arguments NoAnswer {A}.
#[global] Arguments Answer {A} code body.

Record horizonTransactionResponse := mkHorizonTx {
  Successful : bool; hx_created_at : string; ResultXdr : string;
}.

Record horizonOperation := mkOperation {
  op_Type : string; AssetType : string; AssetCode : string; op_Amount : string; To : string;
  Account : string; Into : string;
}.

Definition decoded {A} (r : HttpResp A) : result TxError A :=
  match r with
  | NoAnswer => Err ErrHorizon
  | Answer code body =>
      if code =? 404 then Err ErrTransactionPending
      else if negb (code =? 200) then Err ErrHorizon
      else match body with None => Err ErrHorizon | Some a => Ok a end
  end.

Definition lookupHorizonTransaction (horizonURL : string) (r : HttpResp horizonTransactionResponse)
    : result TxError (TransactionStatus * option Time * string) :=
  if decide (horizonURL = "") then Ok (StatusPending, None, ""%string)
  else
    payload ← decoded r;
    match ParseRFC3339 (hx_created_at payload) with
    | None => Err ErrHorizon
    | Some confirmedAt =>
        if Successful payload then Ok (StatusCompleted, Some confirmedAt, ""%string)
        else Ok (StatusFailed, Some confirmedAt, TrimSpace (ResultXdr payload))
    end.

(** ** Claims about the chain (service/transaction_chain_claim.go) *)

Definition first_set (l : list string) : string :=
  default ""%string (head (List.filter (λ s, negb (bool_decide (s = ""%string))) (map TrimSpace l))).

Definition destination (o : horizonOperation) : string := first_set [To o; Into o; Account o].

Definition assetCode (o : horizonOperation) : string :=
  if EqualFold unicode_fold (TrimSpace (AssetType o)) "native" then "XLM" else toUpper (TrimSpace (AssetCode o)).

Definition transferTypes : list string :=
  ["payment"; "create_account"; "account_merge"; "path_payment_strict_receive"; "path_payment_strict_send";
   "invoke_host_function"]%string.

Definition isValueTransfer (o : horizonOperation) : bool :=
  bool_decide (ToLower unicode_lower (TrimSpace (op_Type o)) ∈ transferTypes).

Record chainClaim := mkClaim { c_Destination : string; c_Asset : string; c_Amount : D }.

Definition lookupHorizonOperations (r : HttpResp (list horizonOperation)) : result TxError (list horizonOperation) :=
  decoded r.

Definition pays_destination (claim : chainClaim) (o : horizonOperation) : bool :=
  isValueTransfer o && EqualFold unicode_fold (destination o) (c_Destination claim).
Definition pays_asset (claim : chainClaim) (o : horizonOperation) : bool :=
  bool_decide (c_Asset claim = "") || EqualFold unicode_fold (assetCode o) (c_Asset claim).

(** The operations in order: the first that matches the claim, or which of its
    destination and asset some operation matched. *)
Fixpoint walk (claim : chainClaim) (destinationMatched assetMatched : bool) (ops : list horizonOperation)
    : D + bool * bool :=
  match ops with
  | [] => inr (destinationMatched, assetMatched)
  | o :: ops =>
      if negb (pays_destination claim o) then walk claim destinationMatched assetMatched ops
      else if negb (pays_asset claim o) then walk claim true assetMatched ops
      else match NewFromString (TrimSpace (op_Amount o)) with
           | None => walk claim true true ops
           | Some onChain =>
               if d_le onChain d_zero || negb (d_eq onChain (c_Amount claim)) then walk claim true true ops
               else inl onChain
           end
  end.

Definition verifyChainClaim (r : HttpResp (list horizonOperation)) (claim : chainClaim)
    : result (TxError * string) D :=
  match lookupHorizonOperations r with
  | Err e => Err (e, ""%string)
  | Ok ops =>
      match walk claim false false ops with
      | inl onChain => Ok onChain
      | inr (false, _) =>
          Err (ErrChainClaimMismatch, match ops with [] => ReasonNoMatchingOperation | _ => ReasonDestinationMismatch end)
      | inr (true, false) => Err (ErrChainClaimMismatch, ReasonAssetMismatch)
      | inr (true, true) => Err (ErrChainClaimMismatch, ReasonAmountMismatch)
      end
  end.

(** How the service was wired: Horizon's URL, the balance applier, the vaults. *)
Record TransactionService := mkTxService { horizonURL : string; balance : bool; vaultsLookup : bool }.

(** What a reconciliation meets. *)
Record ReconcileEnv := mkREnv {
  re_transaction : HttpResp horizonTransactionResponse;
  re_operations : HttpResp (list horizonOperation);
  re_vault : bool;
  re_begin : bool;
  re_commit : dbres;
  re_update : dbres;
  re_reread : bool;
}.

Context (sv : TransactionService).

Definition verifyConfirmedClaim (env : ReconcileEnv) (m : Transaction) (s : Store) : result (TxError * string) D :=
  if negb (vaultsLookup sv) || negb (balance sv) then Ok (Amount m)
  else if negb (bool_decide (Type_ m = TypeDeposit)) then Ok (Amount m)
  else
    match (GetVault (re_vault env) (VaultID m) s).1 with
    | Err e => Err (ErrOfVault e, ReasonVaultUnresolvable)
    | Ok v =>
        let destination := TrimSpace (m_contract (D:=D) v) in
        if decide (destination = "") then Err (ErrOfVault ErrUnverifiedChainTx, ReasonVaultUnresolvable)
        else verifyChainClaim (re_operations env)
               (mkClaim destination (toUpper (TrimSpace (m_currency v))) (Amount m))
    end.

Definition applyConfirmedBalance (env : ReconcileEnv) (m : Transaction) (amount : D) : Tx unit :=
  if negb (balance sv) then mret tt
  else if decide (Type_ m = TypeDeposit)
  then ApplyConfirmedDeposit uuidNew dbnow userExists (re_begin env) (re_commit env) (VaultID m) amount (TxHash m)
  else if decide (Type_ m = TypeWithdrawal)
  then ApplyConfirmedWithdrawal uuidNew dbnow userExists (re_begin env) (re_commit env) (VaultID m) amount (TxHash m)
  else mret tt.

Definition mark (env : ReconcileEnv) (m : Transaction) (st : TransactionStatus) (confirmedAt : option Time)
    (reason : string) (t : Table) : result TxError (Transaction * bool) * Table :=
  match UpdateStatus (re_update env) (re_reread env) (TxHash m) st confirmedAt reason t with
  | (Ok u, t') => (Ok (u, true), t')
  | (Err e, t') => (Err e, t')
  end.

Definition ReconcileTransaction (env : ReconcileEnv) (m : Transaction) (t : Table) (s : Store)
    : result TxError (Transaction * bool) * Table * Store :=
  match Status m with
  | StatusCompleted | StatusFailed => (Ok (m, false), t, s)
  | StatusPending =>
      match lookupHorizonTransaction (horizonURL sv) (re_transaction env) with
      | Err ErrTransactionPending => (Ok (m, false), t, s)
      | Err e => (Err e, t, s)
      | Ok (StatusPending, _, _) => (Ok (m, false), t, s)
      | Ok (StatusFailed, confirmedAt, reason) => (mark env m StatusFailed confirmedAt reason t, s)
      | Ok (StatusCompleted, confirmedAt, reason) =>
          match verifyConfirmedClaim env m s with
          | Err (ErrChainClaimMismatch, reason) => (mark env m StatusFailed confirmedAt reason t, s)
          | Err (e, _) => (Err e, t, s)
          | Ok amount =>
              match applyConfirmedBalance env m amount s with
              | (Err e, s') => (Err (ErrOfVault e), t, s')
              | (Ok _, s') => (mark env m StatusCompleted confirmedAt reason t, s')
              end
          end
      end
  end.

Definition GetTransaction (queryOk : bool) (env : ReconcileEnv) (hash : string) (t : Table) (s : Store)
    : result TxError Transaction * Table * Store :=
  if decide (TrimSpace hash = "") then (Err ErrInvalidTransaction, t, s)
  else match GetByHash queryOk hash t with
       | Err e => (Err e, t, s)
       | Ok m =>
           match ReconcileTransaction env m t s with
           | (Ok (u, _), t', s') => (Ok u, t', s')
           | (Err e, t', s') => (Err e, t', s')
           end
       end.

(** ** The poller (service/transaction_poller.go) *)

(** One pass over what was listed: the tables, and whom it notifies of what. *)
Fixpoint poll (env : Transaction → ReconcileEnv) (pending : list Transaction) (t : Table) (s : Store)
    : list Transaction * Table * Store :=
  match pending with
  | [] => ([], t, s)
  | m :: pending =>
      let '(r, t1, s1) := ReconcileTransaction (env m) m t s in
      let '(notified, t2, s2) := poll env pending t1 s1 in
      (match r with Ok (u, true) => u :: notified | _ => notified end, t2, s2)
  end.

Definition TickPoller (now : Time) (minAge : Duration) (queryOk : bool) (env : Transaction → ReconcileEnv)
    (t : Table) (s : Store) : list Transaction * Table * Store :=
  match ListPendingOlderThan queryOk (timeAdd now (- minAge)) t with
  | Err _ => ([], t, s)
  | Ok pending => poll env pending t s
  end.
End Transactions.
