(* ===== verification/TransactionRules.v ===== *)
(** What becomes of registered transactions: a deposit is credited only for a
    payment that Horizon shows, a completed transaction is one whose hash the
    books of [VaultBooks] hold, whatever interleaves. *)

From S2P Require Import Prelude Sql GoStrings Decimal Vault.
From S2P Require Import Ledger.
From S2P Require Import VaultStore.
From S2P Require Import Indexer.
From S2P Require Import VaultBooks.
From S2P Require Import Transactions.
Open Scope Z_scope.
Open Scope go_scope.

Section Rules.
Context {D : Type} `{!Decimal D} `{!DecimalLaws D}.
Context (dbnow : Time).
Context (unicode_lower toUpper : string → string) (unicode_fold : string → string → bool).
Context (NewFromString : string → option D) (ParseRFC3339 : string → option Time).
Context (uuidNew : nat → UUID) (userExists : UUID → bool).
Context (sv : TransactionService).

#[local] Abbreviation Transaction := (Transaction (D:=D)).
#[local] Abbreviation lookup_ := (lookupHorizonTransaction ParseRFC3339).
#[local] Abbreviation verify_ := (verifyConfirmedClaim unicode_lower toUpper unicode_fold NewFromString sv).
#[local] Abbreviation apply_ := (applyConfirmedBalance dbnow uuidNew userExists sv).
#[local] Abbreviation reconcile :=
  (ReconcileTransaction dbnow unicode_lower toUpper unicode_fold NewFromString ParseRFC3339 uuidNew userExists sv).

(** ** Claims *)

(** The operation pays [a] of the claim's asset to its destination. *)
Record pays (claim : chainClaim (D:=D)) (o : horizonOperation) (a : D) : Prop := {
  pay_transfer : isValueTransfer unicode_lower o = true;
  pay_destination : EqualFold unicode_fold (destination o) (c_Destination claim) = true;
  pay_asset : c_Asset claim = ""%string ∨ EqualFold unicode_fold (assetCode toUpper unicode_fold o) (c_Asset claim) = true;
  pay_amount : NewFromString (TrimSpace (op_Amount o)) = Some a;
  pay_positive : (0 < dval a)%Q;
  pay_claimed : (dval a == dval (c_Amount claim))%Q;
}.

Lemma walk_spec claim ops b1 b2 :
  match walk unicode_lower toUpper unicode_fold NewFromString claim b1 b2 ops with
  | inl a => ∃ o, o ∈ ops ∧ pays claim o a
  | inr _ => ∀ o a, o ∈ ops → ¬ pays claim o a
  end.
Proof.
  revert b1 b2. induction ops as [|o ops IH]; intros b1 b2; simpl; [by intros o a ?%not_elem_of_nil|].
  assert (Hskip : ∀ c1 c2, (∀ a, ¬ pays claim o a) →
    match walk unicode_lower toUpper unicode_fold NewFromString claim c1 c2 ops with
    | inl a => ∃ o', o' ∈ o :: ops ∧ pays claim o' a
    | inr _ => ∀ o' a, o' ∈ o :: ops → ¬ pays claim o' a
    end).
  { intros c1 c2 Hno. specialize (IH c1 c2). destruct (walk _ _ _ _ _ _ _ _) as [a|].
    - destruct IH as (o' & Hin & Hp). exists o'. split; [by right|done].
    - intros o' a [->|Hin]%elem_of_cons; [by apply Hno|by apply IH]. }
  destruct (pays_destination _ _ _ _) eqn:Ed; simpl.
  2:{ apply Hskip. intros a [H1 H2 _ _ _ _]. unfold pays_destination in Ed. by rewrite H1, H2 in Ed. }
  destruct (pays_asset _ _ _ _) eqn:Ea; simpl.
  2:{ apply Hskip. intros a [_ _ H3 _ _ _]. unfold pays_asset in Ea. apply orb_false_iff in Ea as [E1 E2].
      apply bool_decide_eq_false in E1. destruct H3 as [?|H3]; [done|]. by rewrite H3 in E2. }
  destruct (NewFromString _) as [a|] eqn:En; [|apply Hskip; intros a [_ _ _ H4 _ _]; congruence].
  destruct (d_le a d_zero) eqn:Ele; simpl.
  { apply Hskip. intros a' [_ _ _ H4 H5 _]. assert (a' = a) as -> by congruence.
    apply d_le_spec in Ele. unfold d_zero in Ele. rewrite dval_of_Z in Ele. by apply Qlt_not_le in H5. }
  destruct (d_eq a _) eqn:Eeq; simpl.
  2:{ apply Hskip. intros a' [_ _ _ H4 _ H6]. assert (a' = a) as -> by congruence.
      apply d_eq_spec in H6. congruence. }
  exists o. split; [by left|]. unfold pays_destination in Ed. apply andb_true_iff in Ed as [E1 E2].
  unfold pays_asset in Ea. rewrite orb_true_iff, bool_decide_eq_true in Ea. split; try done.
  - apply not_true_iff_false in Ele. rewrite d_le_spec in Ele. unfold d_zero in Ele. rewrite dval_of_Z in Ele.
    by apply Qnot_le_lt in Ele.
  - by apply d_eq_spec.
Qed.

(** A claim is accepted exactly when some operation pays it. *)
Lemma verifyChainClaim_Ok r claim a :
  verifyChainClaim unicode_lower toUpper unicode_fold NewFromString r claim = Ok a →
  ∃ ops o, r = Answer 200 (Some ops) ∧ o ∈ ops ∧ pays claim o a.
Proof.
  unfold verifyChainClaim, lookupHorizonOperations, decoded. destruct r as [|code body]; [done|].
  destruct (code =? 404) eqn:E1; [done|]. destruct (Z.eqb_spec code 200) as [->|]; simpl; [|done].
  destruct body as [ops|]; [|done]. pose proof (walk_spec claim ops false false) as Hw.
  destruct (walk _ _ _ _ _ _ _ _) as [a'|[[] []]]; [|done..]. intros [= ->]. destruct Hw as (o & ? & ?). by exists ops, o.
Qed.

(** ** What a reconciliation does *)

(** Horizon shows that this payment settled. *)
Record shown (env : ReconcileEnv) (claim : chainClaim (D:=D)) (a : D) : Prop := {
  sh_success : ∃ p, re_transaction env = Answer 200 (Some p) ∧ Successful p = true;
  sh_paid : ∃ ops o, re_operations env = Answer 200 (Some ops) ∧ o ∈ ops ∧ pays claim o a;
}.

Lemma lookup_completed url r c reason :
  lookup_ url r = Ok (StatusCompleted, c, reason) → ∃ p, r = Answer 200 (Some p) ∧ Successful p = true.
Proof.
  unfold lookupHorizonTransaction, decoded. case_decide; [done|]. destruct r as [|code body]; [done|].
  destruct (code =? 404); [done|]. destruct (Z.eqb_spec code 200) as [->|]; simpl; [|done].
  destruct body as [p|]; simpl; [|done]. destruct (ParseRFC3339 _); [|done].
  destruct (Successful p) eqn:E; [|done]. intros _. by exists p.
Qed.

(** How a reconciliation ends: it leaves the books, or its apply ran on them. *)
Lemma reconcile_run env (m : Transaction) t s r t' s' :
  reconcile env m t s = (r, t', s') →
  (s' = s ∧ (t' = t ∨ ∃ c reason, mark (D:=D) dbnow env m StatusFailed c reason t = (r, t')))
  ∨ ∃ c reason a b, Status m = StatusPending
      ∧ lookup_ (horizonURL sv) (re_transaction env) = Ok (StatusCompleted, c, reason)
      ∧ verify_ env m s = Ok a ∧ apply_ env m a s = (b, s')
      ∧ ((∃ e, b = Err e ∧ t' = t ∧ r = Err (ErrOfVault e))
         ∨ b = Ok tt ∧ mark (D:=D) dbnow env m StatusCompleted c reason t = (r, t')).
Proof.
  unfold ReconcileTransaction. destruct (Status m) eqn:Es; [|intros [= <- <- <-]; left; split; [done|by left]..].
  destruct (lookup_ _ _) as [[[st c] reason]|e] eqn:El.
  2:{ destruct e; intros [= <- <- <-]; left; (split; [done|by left]). }
  destruct st.
  - intros [= <- <- <-]. left. split; [done|by left].
  - destruct (verify_ env m s) as [a|[e reason']] eqn:Ev.
    + destruct (apply_ env m a s) as [[[]|e] s1] eqn:Ea.
      * destruct (mark _ _ _ _ _ _ _) as [r1 t1] eqn:Em. intros [= <- <- <-]. right.
        exists c, reason, a, (Ok tt). by eauto 10.
      * intros [= <- <- <-]. right. exists c, reason, a, (Err e). by eauto 10.
    + destruct e; try (intros [= <- <- <-]; left; (split; [done|by left])).
      destruct (mark _ _ _ _ _ _ _) as [r1 t1] eqn:Em. intros [= <- <- <-]. left. split; [done|]. right.
      by exists c, reason'.
  - destruct (mark _ _ _ _ _ _ _) as [r1 t1] eqn:Em. intros [= <- <- <-]. left. split; [done|]. right.
    by exists c, reason.
Qed.

(** What the verification of a deposit establishes when it is wired. *)
Lemma verify_deposit env (m : Transaction) s a :
  vaultsLookup sv = true → balance sv = true → Type_ m = TypeDeposit → verify_ env m s = Ok a →
  ∃ row ops o, vaults s !! VaultID m = Some row ∧ live row = true
    ∧ re_operations env = Answer 200 (Some ops) ∧ o ∈ ops
    ∧ pays (mkClaim (TrimSpace (v_contract row)) (toUpper (TrimSpace (v_currency row))) (Amount m)) o a.
Proof.
  intros Hv Hb Ht. unfold verifyConfirmedClaim. rewrite Hv, Hb, Ht. simpl. unfold GetVault, readTx. simpl.
  destruct (re_vault env); simpl; [|done]. destruct (vaults s !! VaultID m) as [row|] eqn:Er; [|done].
  destruct (live row) eqn:El; [|done]. simpl. case_decide; [done|].
  intros (ops & o & Ho & Hin & Hp)%verifyChainClaim_Ok. by exists row, ops, o.
Qed.

(** The amount of a row is in hundred-millionths. *)
Definition on_row (m : Transaction) : Prop := exact8 (dval (Amount m)).

Lemma apply_outcome env (m : Transaction) a s b s' :
  exact8 (dval a) → apply_ env m a s = (b, s') →
  same s s' ∧ (b = Ok tt → balance sv = true → Type_ m = TypeDeposit ∨ Type_ m = TypeWithdrawal →
    hash_taken (nullif (TxHash m)) (txs s) = true)
  ∨ ∃ r, moved_by (VaultID m) (Type_ m) (TxHash m) (units (dval a)) s s' r
      ∧ (Type_ m = TypeDeposit ∨ Type_ m = TypeWithdrawal).
Proof.
  intros He. unfold applyConfirmedBalance. destruct (balance sv); simpl; [|intros [= <- <-]; left; by split].
  case_decide as Hd; [|case_decide as Hw].
  - intros H%applyConfirmed_spec; [|done]. destruct H as [[? Hok]|(r & Hm & _)]; [left; by auto|right].
    exists r. rewrite Hd. by auto.
  - intros H%applyConfirmed_spec; [|done]. destruct H as [[? Hok]|(r & Hm & _)]; [left; by auto|right].
    exists r. rewrite Hw. by auto.
  - intros [= <- <-]. left. split; [done|]. by intros _ _ [?|?].
Qed.

Lemma exact8_proper q q' : (q == q')%Q → exact8 q → exact8 q'.
Proof. intros E [c H]. exists c. by rewrite <-E. Qed.

(** The amount that is applied is the one of the row. *)
Lemma verify_amount env (m : Transaction) s a :
  on_row m → verify_ env m s = Ok a → exact8 (dval a).
Proof.
  intros Hm. unfold verifyConfirmedClaim. destruct (_ || _); [by intros [= <-]|].
  destruct (negb _); [by intros [= <-]|]. destruct (GetVault _ _ _).1; [|done]. cbn zeta. case_decide; [done|].
  intros (ops & o & _ & _ & Hp)%verifyChainClaim_Ok. eapply exact8_proper; [symmetry; exact (pay_claimed _ _ _ Hp)|done].
Qed.

(** C7: With the vault lookup wired, a reconciliation of a deposit changes the
    books only when Horizon shows the transaction successful and one of its
    operations is a transfer of exactly the registered amount of the vault's
    currency to the vault's contract; then it credits the vault that amount
    once, under a hash never recorded before.  In every other case the vaults, their transactions and the
    ledger's entries are as before. *)
Theorem deposit_needs_chain_payment env (m : Transaction) t s r t' s' :
  balance sv = true → vaultsLookup sv = true → Type_ m = TypeDeposit → on_row m →
  reconcile env m t s = (r, t', s') →
  same s s'
  ∨ ∃ row a, Status m = StatusPending ∧ vaults s !! VaultID m = Some row ∧ live row = true
      ∧ shown env (mkClaim (TrimSpace (v_contract row)) (toUpper (TrimSpace (v_currency row))) (Amount m)) a
      ∧ moved_by (VaultID m) "deposit" (TxHash m) (units (dval (Amount m))) s s' row.
Proof.
  intros Hb Hl Ht Hrow [[-> _]|(c & reason & a & b & Hs & Hc & Hv & Ha & _)]%reconcile_run; [by left|].
  pose proof (verify_amount _ _ _ _ Hrow Hv) as He.
  apply apply_outcome in Ha as [[? _]|(row & Hm & _)]; [by left| |done]. right.
  destruct (verify_deposit _ _ _ _ Hl Hb Ht Hv) as (row' & ops & o & Hr & Hlive & Ho & Hin & Hp).
  assert (row' = row) as ->.
  { destruct Hm as (r' & tr & HB & _). pose proof (bk_row _ _ _ _ _ _ HB). congruence. }
  exists row, a. split; [done|]. split; [done|]. split; [done|]. split.
  - split; [by eapply lookup_completed|by exists ops, o].
  - rewrite Ht, (units_Proper _ _ (pay_claimed _ _ _ Hp)) in Hm. done.
Qed.

(** ** Histories *)

Context (otherTables : indexedEvent → result VaultErr unit).
#[local] Abbreviation exec_ := (exec (D:=D) uuidNew dbnow userExists unicode_lower NewFromString otherTables).
#[local] Abbreviation fair_ := (fair (D:=D) unicode_lower NewFromString).

(** The rows, the books, the rows that were read, and those whose apply has
    succeeded. *)
Record Sys := mkSys {
  rows : Table;
  books : Index;
  reads : list Transaction;
  applied : list Transaction;
}.

Definition with_rows (t : Table) (y : Sys) : Sys := mkSys t (books y) (reads y) (applied y).
Definition with_books (x : Index) (y : Sys) : Sys := mkSys (rows y) x (reads y) (applied y).
Definition with_store (s : Store) (y : Sys) : Sys :=
  with_books (mkIndex s (processed (books y)) (cursor (books y))) y.
Definition note_read (m : Transaction) (y : Sys) : Sys := mkSys (rows y) (books y) (m :: reads y) (applied y).
Definition note_applied (m : Transaction) (y : Sys) : Sys := mkSys (rows y) (books y) (reads y) (m :: applied y).

(** The statements of any number of requests and polls, interleaved with one
    another and with the other writers of the books. *)
Inductive step (y : Sys) : Sys → Prop :=
| st_register now id d i :
    step y (with_rows (RegisterTransaction dbnow unicode_lower toUpper now id (vaultExists (store (books y)))
                         d i (rows y)).2 y)
| st_read h r : rows y !! h = Some r → step y (note_read (scanTransaction h r) y)
| st_apply env m c reason a s' :
    m ∈ reads y → Status m = StatusPending →
    lookup_ (horizonURL sv) (re_transaction env) = Ok (StatusCompleted, c, reason) →
    verify_ env m (store (books y)) = Ok a →
    apply_ env m a (store (books y)) = (Ok tt, s') →
    step y (note_applied m (with_store s' y))
| st_apply_failed env m c reason a e s' :
    m ∈ reads y → Status m = StatusPending →
    lookup_ (horizonURL sv) (re_transaction env) = Ok (StatusCompleted, c, reason) →
    verify_ env m (store (books y)) = Ok a →
    apply_ env m a (store (books y)) = (Err e, s') → step y (with_store s' y)
| st_mark env m st c reason :
    m ∈ reads y → (st = StatusCompleted → m ∈ applied y) →
    step y (with_rows (mark dbnow env m st c reason (rows y)).2 y)
| st_other o : fair_ o → step y (with_books (exec_ o (books y)) y).

Definition new_sys (led : Ledger.Session) : Sys := mkSys ∅ (new_index led) [] [].
Definition reaches (led : Ledger.Session) (y : Sys) : Prop := rtc step (new_sys led) y.

(** A hash and a type that the applier acts on. *)
Definition proper_key (h ty : string) : Prop :=
  h ≠ ""%string ∧ (ty = TypeDeposit ∨ ty = TypeWithdrawal).

Record tx_inv (y : Sys) : Prop := {
  ti_money : money_inv (store (books y));
  ti_rows h r : rows y !! h = Some r → proper_key h (x_type r);
  ti_reads m : m ∈ reads y → proper_key (TxHash m) (Type_ m) ∧ on_row m;
  ti_applied m : balance sv = true → m ∈ applied y → TxHash m ∈ hashes (txs (store (books y)));
  ti_completed h r : balance sv = true → rows y !! h = Some r → x_status r = StatusCompleted →
    h ∈ hashes (txs (store (books y)));
}.

Lemma outcome_hashes s s' h : outcome s s' → h ∈ hashes (txs s) → h ∈ hashes (txs s').
Proof.
  intros [(_ & -> & _)|id r r' ts HB|id r HC|id ts HL] Hh; [done| | |].
  - rewrite (bk_txs _ _ _ _ _ _ HB). unfold hashes. rewrite omap_app. apply elem_of_app. by left.
  - by rewrite (cr_txs _ _ _ _ HC).
  - rewrite (la_txs _ _ _ _ HL). unfold hashes. rewrite omap_app. apply elem_of_app. by left.
Qed.

(** The books move on. *)
Lemma books_inv y x : tx_inv y → outcome (store (books y)) (store x) → tx_inv (with_books x y).
Proof.
  intros [H1 H2 H3 H4 H5] Ho. split; simpl; [by eapply outcome_inv|done|done| |].
  - intros m Hb Hm. eapply outcome_hashes; [done|by apply H4].
  - intros h r Hb Hr Hc. eapply outcome_hashes; [done|by eapply H5].
Qed.

Lemma apply_booked env (m : Transaction) a s b s' :
  exact8 (dval a) → apply_ env m a s = (b, s') → outcome s s' ∧
  (b = Ok tt → balance sv = true → proper_key (TxHash m) (Type_ m) → TxHash m ∈ hashes (txs s')).
Proof.
  intros He H. apply apply_outcome in H as [[Hs Hok]|(r & Hm & _)]; [| |done].
  - split; [by apply out_same|]. intros Hb Hbal [Hne Hty]. destruct Hs as (_ & -> & _).
    specialize (Hok Hb Hbal Hty). apply hash_taken_spec in Hok as (h & Hn & Hin).
    unfold nullif in Hn. case_decide; [done|]. by injection Hn as ->.
  - split; [by eapply outcome_moved|]. intros _ _ [Hne _].
    destruct Hm as (r' & t & HB & _ & _ & _ & _ & Hh & _). rewrite (bk_txs _ _ _ _ _ _ HB).
    unfold hashes. rewrite omap_app. apply elem_of_app. right. simpl. rewrite Hh. unfold nullif.
    case_decide; [done|]. by left.
Qed.

Lemma upsert_row_Ok vx (m : Transaction) t r :
  upsert_row dbnow vx m t = Ok r → x_type r = Type_ m ∧ x_status r = Status m.
Proof.
  unfold upsert_row. intros (a & _ & H)%bind_Ok. cbn zeta in H.
  apply bind_Ok in H as (_ & _ & H). apply bind_Ok in H as (_ & _ & H). apply bind_Ok in H as (_ & _ & H).
  by injection H as <-.
Qed.

Lemma register_rows now id vx d i t :
  let t' := (RegisterTransaction (D:=D) dbnow unicode_lower toUpper now id vx d i t).2 in
  t' = t ∨ ∃ h r, t' = <[h := r]> t ∧ proper_key h (x_type r) ∧ x_status r = StatusPending.
Proof.
  unfold RegisterTransaction. simpl. destruct (_ || bool_decide (TrimSpace (rg_hash i) = ""%string)) eqn:Eb; [by left|].
  apply orb_false_iff in Eb as [_ Eh%bool_decide_eq_false].
  destruct (isSupportedTransactionType _) eqn:Ety; simpl; [|by left]. unfold Upsert. simpl.
  destruct (upsert_row _ _ _ _) as [r|] eqn:Er; simpl; [|by left].
  apply upsert_row_Ok in Er as [E1 E2]. simpl in E1, E2.
  assert (Hk : proper_key (TrimSpace (rg_hash i)) (x_type r)).
  { split; [done|]. rewrite E1. unfold isSupportedTransactionType in Ety.
    by rewrite orb_true_iff, !bool_decide_eq_true in Ety. }
  destruct d as [|[]]; simpl; [right; by eauto|right; by eauto|by left].
Qed.

Lemma mark_rows env (m : Transaction) st c reason t :
  let t' := (mark dbnow env m st c reason t).2 in
  t' = t ∨ ∃ r r', t !! TxHash m = Some r ∧ t' = <[TxHash m := r']> t ∧ x_type r' = x_type r ∧ x_status r' = st.
Proof.
  unfold mark, UpdateStatus. simpl. destruct (t !! TxHash m) as [r|] eqn:Er.
  - destruct (re_update env) as [|[]]; simpl; [|right; by eauto 10|by left].
    destruct (GetByHash _ _ _); right; by eauto 10.
  - destruct (re_update env) as [|[]]; by left.
Qed.

Lemma on_row_scan h r : on_row (scanTransaction (D:=D) h r).
Proof. exists (x_amount r). apply (scan_col_val (λ _, true)). Qed.

Lemma tx_step_inv y y' : tx_inv y → step y y' → tx_inv y'.
Proof.
  intros HI Hs. pose proof HI as [H1 H2 H3 H4 H5].
  destruct Hs as [now id d i|h r Hr|env m c reason a s' Hm Hst Hl Hv Ha|env m c reason a e s' Hm Hst Hl Hv Ha
                 |env m st c reason Hm Hap|o Ho].
  - destruct (register_rows now id (vaultExists (store (books y))) d i (rows y)) as [E|(h & r & E & Hk & Hp)];
      unfold with_rows; rewrite E; [by destruct y|].
    split; simpl; try done; intros h' r'; [|intros Hb]; intros [[<- <-]|[_ Hr]]%lookup_insert_Some; try done.
    + by eapply H2.
    + congruence.
    + by eapply H5.
  - split; simpl; try done. intros m [->|Hm]%elem_of_cons; [|by apply H3].
    split; [|apply on_row_scan]. exact (H2 h r Hr).
  - destruct (H3 m Hm) as [Hk Hrow]. pose proof (verify_amount _ _ _ _ Hrow Hv) as He.
    apply apply_booked in Ha as [Ho Hin]; [|done].
    destruct (books_inv y (mkIndex s' (processed (books y)) (cursor (books y))) HI Ho) as [G1 G2 G3 G4 G5].
    split; try done. simpl. intros m' Hb [->|Hm']%elem_of_cons; [by apply Hin|by apply G4].
  - destruct (H3 m Hm) as [Hk Hrow]. pose proof (verify_amount _ _ _ _ Hrow Hv) as He.
    apply apply_booked in Ha as [Ho _]; [|done].
    exact (books_inv y (mkIndex s' (processed (books y)) (cursor (books y))) HI Ho).
  - destruct (mark_rows env m st c reason (rows y)) as [E|(r & r' & Hr & E & Hty & Hs)];
      unfold with_rows; rewrite E; [by destruct y|].
    split; simpl; try done; intros h q; [|intros Hb]; intros [[<- <-]|[_ Hq]]%lookup_insert_Some.
    + rewrite Hty. by apply H2.
    + by eapply H2.
    + intros Hc. apply H4; [done|]. apply Hap. congruence.
    + by eapply H5.
  - apply books_inv; [done|]. by apply exec_outcome.
Qed.

Lemma steps_inv y y' : rtc step y y' → tx_inv y → tx_inv y'.
Proof. induction 1 as [|y0 y1 y2 Hs _ IH]; [done|]. intros HI. by eapply IH, tx_step_inv. Qed.

Lemma reaches_inv led y : reaches led y → tx_inv y.
Proof.
  intros H. eapply steps_inv; [exact H|]. split; simpl; try done.
  - apply new_index_inv.
  - by intros m ?%not_elem_of_nil.
  - by intros m _ ?%not_elem_of_nil.
Qed.

(** Under every interleaving of registrations, look-ups, poller passes over
    rows read at any time before, and the other writers of the books, and
    whatever fails at whatever point, a transaction that is marked completed
    has its hash in the recorded vault transactions, where every hash occurs at
    most once: no transaction is reported as settled whose money did not move,
    and none moves money twice. *)
Theorem completed_transaction_is_booked (led : Ledger.Session) (y : Sys) h r :
  reaches led y → balance sv = true → rows y !! h = Some r → x_status r = StatusCompleted →
  h ∈ hashes (txs (store (books y))) ∧ NoDup (hashes (txs (store (books y)))).
Proof. intros [H1 _ _ _ H5]%reaches_inv Hb Hr Hc. split; [by eapply H5|by destruct H1]. Qed.

(** ** The service's calls are histories *)

#[local] Abbreviation get_ :=
  (GetTransaction dbnow unicode_lower toUpper unicode_fold NewFromString ParseRFC3339 uuidNew userExists sv).
#[local] Abbreviation poll_ :=
  (poll dbnow unicode_lower toUpper unicode_fold NewFromString ParseRFC3339 uuidNew userExists sv).
#[local] Abbreviation tick_ :=
  (TickPoller dbnow unicode_lower toUpper unicode_fold NewFromString ParseRFC3339 uuidNew userExists sv).

(** [y'] has the tables [t] and [s], and has read no less than [y]. *)
Definition leads (y : Sys) (t : Table) (s : Store) : Prop :=
  ∃ y', rtc step y y' ∧ rows y' = t ∧ store (books y') = s ∧ ∀ m, m ∈ reads y → m ∈ reads y'.

Lemma leads_refl y : leads y (rows y) (store (books y)).
Proof. by exists y. Qed.

Lemma leads_trans y t1 s1 t2 s2 (ms : list Transaction) :
  (∀ m, m ∈ ms → m ∈ reads y) → leads y t1 s1 →
  (∀ y1, rows y1 = t1 → store (books y1) = s1 → (∀ m, m ∈ ms → m ∈ reads y1) → leads y1 t2 s2) → leads y t2 s2.
Proof.
  intros Hms (y1 & H1 & Ht & Hs & Hr) H2. destruct (H2 y1 Ht Hs) as (y2 & H3 & ? & ? & ?); [by auto|].
  exists y2. split; [by etrans|]. by auto.
Qed.

Lemma reconcile_leads env m y r t' s' :
  m ∈ reads y → reconcile env m (rows y) (store (books y)) = (r, t', s') → leads y t' s'.
Proof.
  intros Hm H. assert (Hmark : ∀ y1 st c reason t1, m ∈ reads y1 → (st = StatusCompleted → m ∈ applied y1) →
    mark (D:=D) dbnow env m st c reason (rows y1) = (r, t1) → leads y1 t1 (store (books y1))).
  { intros y1 st c reason t1 Hr Ha E. eexists. split; [by apply rtc_once, (st_mark y1 env m st c reason)|].
    by rewrite E. }
  apply reconcile_run in H as [[-> [->|(c & reason & E)]]|(c & reason & a & b & Hst & Hl & Hv & Ha & Hend)].
  - apply leads_refl.
  - by eapply (Hmark y StatusFailed).
  - destruct Hend as [(e & -> & -> & ->)|[-> E]].
    + eexists. split; [by eapply rtc_once, st_apply_failed|]. done.
    + set (y1 := note_applied m (with_store s' y)).
      assert (H1 : step y y1) by (by eapply st_apply).
      destruct (Hmark y1 StatusCompleted c reason t') as (y2 & H2 & ? & ? & ?); [done|by left|done|].
      exists y2. split; [by eapply rtc_l|]. done.
Qed.

Lemma poll_leads env pending y notified t' s' :
  (∀ m, m ∈ pending → m ∈ reads y) → poll_ env pending (rows y) (store (books y)) = (notified, t', s') →
  leads y t' s'.
Proof.
  revert y notified t' s'. induction pending as [|m pending IH]; intros y notified t' s' Hr H; simpl in H.
  { injection H as <- <- <-. apply leads_refl. }
  destruct (reconcile _ _ _ _) as [[r t1] s1] eqn:E1. destruct (poll_ _ _ _ _) as [[n2 t2] s2] eqn:E2.
  injection H as <- <- <-. eapply (leads_trans y t1 s1 t2 s2 pending).
  - intros m' Hm'. apply Hr. by right.
  - eapply reconcile_leads; [apply Hr; by left|done].
  - intros y1 <- <- Hr1. by eapply IH.
Qed.

(** A system that has read these rows. *)
Lemma read_all (l : list (string * Row)) y :
  (∀ p, p ∈ l → rows y !! p.1 = Some p.2) →
  ∃ y1, rtc step y y1 ∧ rows y1 = rows y ∧ books y1 = books y ∧ (∀ m, m ∈ reads y → m ∈ reads y1)
    ∧ ∀ m, m ∈ ((λ p, scanTransaction (D:=D) p.1 p.2) <$> l) → m ∈ reads y1.
Proof.
  induction l as [|p l IH]; intros Hl.
  { exists y. do 4 (split; [done|]). by intros m ?%not_elem_of_nil. }
  destruct IH as (y1 & H1 & Ht & Hb & Hr & Hall); [intros q Hq; apply Hl; by right|].
  exists (note_read (scanTransaction p.1 p.2) y1). split.
  { eapply rtc_r; [done|]. apply st_read. rewrite Ht. apply Hl. by left. }
  do 2 (split; [done|]). split; [intros m Hm; right; by apply Hr|].
  simpl. intros m [->|Hm]%elem_of_cons; [by left|right; by apply Hall].
Qed.

(** A registration, a look-up of a transaction and a pass of the poller,
    whatever Horizon answers and whatever fails in them, are sequences of the
    statements whose interleavings the other theorems quantify over. *)
Theorem transaction_calls_are_steps (y : Sys) :
  (∀ now id d i, leads y (RegisterTransaction dbnow unicode_lower toUpper now id (vaultExists (store (books y)))
                           d i (rows y)).2 (store (books y)))
  ∧ (∀ ok env h r t' s', get_ ok env h (rows y) (store (books y)) = (r, t', s') → leads y t' s')
  ∧ (∀ now age ok env n t' s', tick_ now age ok env (rows y) (store (books y)) = (n, t', s') → leads y t' s').
Proof.
  split; [|split].
  - intros now id d i. eexists. split; [by apply rtc_once, (st_register y now id d i)|]. done.
  - intros ok env h r t' s'. unfold GetTransaction. case_decide; [intros [= <- <- <-]; apply leads_refl|].
    unfold GetByHash. destruct ok; simpl; [|intros [= <- <- <-]; apply leads_refl].
    destruct (rows y !! h) as [row|] eqn:Er; [|intros [= <- <- <-]; apply leads_refl].
    destruct (read_all [(h, row)] y) as (y1 & H1 & Ht & Hb & Hr & Hall).
    { by intros p ->%list_elem_of_singleton. }
    destruct (reconcile _ _ _ _) as [[r1 t1] s1] eqn:E. rewrite <-Ht, <-Hb in E.
    apply reconcile_leads in E as (y2 & H2 & E1 & E2 & H3); [|apply Hall; by left].
    intros Heq. assert (t' = t1 ∧ s' = s1) as [-> ->] by (destruct r1 as [[]|]; by injection Heq as _ <- <-).
    exists y2. split; [by etrans|]. by auto.
  - intros now age ok env n t' s'. unfold TickPoller, ListPendingOlderThan.
    destruct ok; simpl; [|intros [= <- <- <-]; apply leads_refl].
    destruct (read_all (select_rows older (pending_before (timeAdd now (- age))) (Z.of_nat (size (rows y))) (rows y)) y)
      as (y1 & H1 & Ht & Hb & Hr & Hall).
    { by intros p [Hp _]%select_In. }
    revert Hall. generalize (select_rows older (pending_before (timeAdd now (- age))) (Z.of_nat (size (rows y))) (rows y)).
    intros l Hall E. rewrite <-Hb, <-Ht in E.
    apply poll_leads in E as (y2 & H2 & E1 & E2 & H3); [|done].
    exists y2. split; [by etrans|]. by auto.
Qed.
End Rules.
