(* ===== verification/TransactionScenes.v ===== *)
(** Registered transactions on concrete vaults: where the theorems of
    [TransactionRules] apply, and what a registration can do to a transaction
    that is somebody else's. *)

From S2P Require Import Prelude Sql GoStrings Decimal Vault.
From S2P Require Import Ledger.
From S2P Require Import VaultStore.
From S2P Require Import Indexer.
From S2P Require Import VaultBooks.
From S2P Require Import VaultPool.
From S2P Require Import Transactions.
From S2P Require Import TransactionRules.
Open Scope Z_scope.
Open Scope go_scope.

(** Horizon's amounts, of which the scenes use two. *)
Definition parse_amount (s : string) : option Q :=
  if decide (s = "25"%string) then Some 25%Q else if decide (s = "1"%string) then Some 1%Q else None.

Definition wired : TransactionService := mkTxService "https://horizon" true true.

#[local] Abbreviation reconcile :=
  (ReconcileTransaction 9 id id String.eqb parse_amount (λ _, Some 8) demo_uuid (λ _, true) wired).
#[local] Abbreviation tick :=
  (TickPoller 9 id id String.eqb parse_amount (λ _, Some 8) demo_uuid (λ _, true) wired).
#[local] Abbreviation register := (RegisterTransaction 9 id id 5 77).
#[local] Abbreviation exec_ := (exec demo_uuid 9 (λ _, true) id parse_amount (λ _, Ok tt)).

(** Horizon shows a successful payment of [amount] USDC to [to]. *)
Definition paid (to amount : string) : ReconcileEnv :=
  mkREnv (Answer 200 (Some (mkHorizonTx true "2026-01-01T00:00:00Z" "")))
    (Answer 200 (Some [mkOperation "payment" "credit_alphanum4" "USDC" "G" "" "" ""; 
                       mkOperation "payment" "credit_alphanum4" "USDC" amount to "" ""]))
    true true DBOk DBOk true.

(** Two vaults: the second is somebody else's. *)
Definition vault_of (user : UUID) (contract : string) (balance : Z) : VaultRow :=
  mkVaultRow user contract balance balance "USDC" StatusActive 0 0 "daily" None None 0 0.
Definition two_vaults : Index :=
  mkIndex (mkStore {[1 := vault_of 7 "CVAULT" 0; 2 := vault_of 8 "COTHER" 10000000000]} [] demo_ledger) ∅ None.

Definition claim_of (vault : UUID) (ty : string) (amount : Q) (hash : string) : RegisterTransactionInput (D:=Q) :=
  mkRegister vault ty amount "usdc" hash.

Definition registered (i : RegisterTransactionInput (D:=Q)) (t : Table) : Table :=
  (register (λ _, true) DBOk i t).2.

Definition balances (s : Store) : list (option Z) := [v_balance <$> vaults s !! 1; v_balance <$> vaults s !! 2].
Definition status_of (t : Table) (h : string) : option (TransactionStatus * string) :=
  (λ r, (x_status r, x_reason r)) <$> t !! h.

(** ** The path *)

Definition deposit_row : Transaction (D:=Q) :=
  mkTransaction 77 1 "deposit" 25%Q "USDC" "d1" StatusPending "" 9 9 None.

(** A deposit of 25 is credited when Horizon shows a payment of 25 to the vault's
    contract, and marked failed when it shows another amount or destination. *)
Lemma deposit_paths :
  let t := registered (claim_of 1 "Deposit" 25%Q " d1 ") ∅ in
  let run env := let '(_, t', s') := tick 100 30 true (λ _, env) t (store two_vaults) in
                 (balances s', status_of t' "d1") in
  run (paid "CVAULT" "25") = ([Some 2500000000; Some 10000000000], Some (StatusCompleted, ""%string))
  ∧ run (paid "CVAULT" "1") = ([Some 0; Some 10000000000], Some (StatusFailed, ReasonAmountMismatch))
  ∧ run (paid "COTHER" "25") = ([Some 0; Some 10000000000], Some (StatusFailed, ReasonDestinationMismatch)).
Proof. vm_compute. by repeat split. Qed.

Lemma deposit_needs_chain_payment_witness :
  let '(r, t', s') := reconcile (paid "CVAULT" "25") deposit_row ∅ (store two_vaults) in
  ¬ same (store two_vaults) s'
  ∧ ∃ row, moved_by 1 "deposit" "d1" (units (dval (Amount deposit_row))) (store two_vaults) s' row.
Proof.
  destruct (reconcile _ _ _ _) as [[r t'] s'] eqn:E.
  assert (Hn : ¬ same (store two_vaults) s').
  { intros (_ & H & _). change s' with (r, t', s').2 in H. rewrite <-E in H.
    apply (f_equal length) in H. vm_compute in H. discriminate H. }
  split; [exact Hn|].
  assert (Hrow : on_row deposit_row) by (by exists 2500000000).
  destruct (deposit_needs_chain_payment 9 id id String.eqb parse_amount (λ _, Some 8) demo_uuid (λ _, true) wired
    (paid "CVAULT" "25") deposit_row ∅ (store two_vaults) r t' s' eq_refl eq_refl eq_refl
    Hrow E) as [Hs|(row & a & _ & _ & _ & _ & Hm)].
  - destruct (Hn Hs).
  - exact (ex_intro _ row Hm).
Defined.

(** ** A completed transaction in a history *)

#[local] Abbreviation step_ :=
  (step 9 id id String.eqb parse_amount (λ _, Some 8) demo_uuid (λ _, true) wired (λ _, Ok tt)).

Definition open_vault : op (D:=Q) := OCreate true DBOk 1 demo_vault.
Definition y1 : Sys (D:=Q) := with_books (exec_ open_vault (new_index demo_ledger)) (new_sys demo_ledger).
Definition y2 : Sys (D:=Q) := with_rows (registered (claim_of 1 "deposit" 25%Q "d1") ∅) y1.
Definition row_read : Transaction (D:=Q) :=
  mkTransaction 77 1 "deposit" (scan_col 2500000000) "usdc" "d1" StatusPending "" 9 9 None.
Definition y3 : Sys (D:=Q) := note_read row_read y2.
Definition credited_store : Store :=
  (applyConfirmedBalance 9 demo_uuid (λ _, true) wired (paid "CVAULT" "25") row_read 25%Q (store (books y3))).2.
Definition y4 : Sys (D:=Q) := note_applied row_read (with_store credited_store y3).
Definition y5 : Sys (D:=Q) := with_rows (mark 9 (paid "CVAULT" "25") row_read StatusCompleted (Some 8) "" (rows y4)).2 y4.

Lemma scene_reaches : reaches 9 id id String.eqb parse_amount (λ _, Some 8) demo_uuid (λ _, true) wired (λ _, Ok tt)
  demo_ledger y5.
Proof.
  assert (H1 : step_ (new_sys demo_ledger) y1).
  { unfold y1. apply (st_other 9 id id String.eqb parse_amount (λ _, Some 8) demo_uuid (λ _, true) wired
      (λ _, Ok tt) (new_sys demo_ledger) open_vault). by repeat split. }
  assert (H2 : step_ y1 y2).
  { exact (st_register 9 id id String.eqb parse_amount (λ _, Some 8) demo_uuid (λ _, true) wired (λ _, Ok tt) y1
      5 77 DBOk (claim_of 1 "deposit" 25%Q "d1")). }
  assert (H3 : step_ y2 y3).
  { exact (st_read 9 id id String.eqb parse_amount (λ _, Some 8) demo_uuid (λ _, true) wired (λ _, Ok tt) y2
      "d1" (mkRow 77 1 "deposit" 2500000000 "usdc" StatusPending "" 9 9 None) eq_refl). }
  assert (H4 : step_ y3 y4).
  { apply (st_apply 9 id id String.eqb parse_amount (λ _, Some 8) demo_uuid (λ _, true) wired (λ _, Ok tt) y3
      (paid "CVAULT" "25") row_read (Some 8) ""%string 25%Q credited_store); try (by vm_compute). by left. }
  assert (H5 : step_ y4 y5) by (apply st_mark; [by left|intros _; by left]).
  do 5 (eapply rtc_l; [eassumption|]). apply rtc_refl.
Qed.

Lemma completed_transaction_is_booked_witness :
  (∃ r, rows y5 !! "d1"%string = Some r ∧ x_status r = StatusCompleted)
  ∧ "d1"%string ∈ hashes (txs (store (books y5))).
Proof.
  assert (Hr : ∃ r, rows y5 !! "d1"%string = Some r ∧ x_status r = StatusCompleted).
  { eexists. split; [vm_compute; reflexivity|reflexivity]. }
  split; [exact Hr|]. destruct Hr as (r & Hr & Hc).
  exact (proj1 (completed_transaction_is_booked 9 id id String.eqb parse_amount (λ _, Some 8) demo_uuid (λ _, true)
    wired (λ _, Ok tt) demo_ledger y5 "d1" r scene_reaches eq_refl Hr Hc)).
Defined.

(** ** What a registration can do to somebody else's transaction *)

(** A withdrawal is not checked against the chain, and hashes are public: the
    owner of another vault registers the hash of a deposit as a withdrawal of
    one, which spends the hash.  The deposit is then credited neither from the
    event of the chain nor by its owner's request. *)
Lemma foreign_hash_spent_by_withdrawal :
  let t := registered (claim_of 2 "withdrawal" 1%Q "dep") ∅ in
  let '(_, t', s') := tick 100 30 true (λ _, paid "CVAULT" "25") t (store two_vaults) in
  let x := mkIndex s' ∅ None in
  let event := mkEvent "1-1" "CVAULT" "deposit" 5 (Some [("amount"%string, AInt 250000000)]) "dep" in
  let owner := RecordDeposit demo_uuid 9 (λ _, true) true DBOk 1 (demo_record 25 "dep") s' in
  status_of t' "dep" = Some (StatusCompleted, ""%string)
  ∧ balances s' = [Some 0; Some 9900000000]
  ∧ balances (store (exec_ (OEvent true true DBOk event) x)) = balances s'
  ∧ owner.1 = Err ErrDuplicateTransaction.
Proof. vm_compute. by repeat split. Qed.

(** Without that registration the same event credits the vault. *)
Lemma foreign_hash_unspent :
  let event := mkEvent "1-1" "CVAULT" "deposit" 5 (Some [("amount"%string, AInt 250000000)]) "dep" in
  balances (store (exec_ (OEvent true true DBOk event) two_vaults)) = [Some 2500000000; Some 10000000000].
Proof. vm_compute. by repeat split. Qed.

(** Registering a hash again overwrites its row, whoever registered it and
    whatever became of it: a pending deposit of one vault becomes a row of
    another, a completed one becomes pending. *)
Lemma registration_overwrites :
  let t := registered (claim_of 1 "deposit" 25%Q "d1") ∅ in
  let '(_, t', _) := tick 100 30 true (λ _, paid "CVAULT" "25") t (store two_vaults) in
  let again := registered (claim_of 2 "deposit" 1%Q "d1") in
  (x_vault <$> again t !! "d1"%string) = Some 2
  ∧ status_of t' "d1" = Some (StatusCompleted, ""%string)
  ∧ status_of (again t') "d1" = Some (StatusPending, ""%string).
Proof. vm_compute. by repeat split. Qed.

(** An operation that names no amount settles no claim, so a deposit made by
    calling the contract, of which Horizon shows neither a destination nor an
    amount, is marked failed. *)
Lemma contract_call_fails_deposit :
  let t := registered (claim_of 1 "deposit" 25%Q "d1") ∅ in
  let call := mkREnv (Answer 200 (Some (mkHorizonTx true "2026-01-01T00:00:00Z" "")))
                (Answer 200 (Some [mkOperation "invoke_host_function" "" "" "" "" "" ""])) true true DBOk DBOk true in
  let '(_, t', s') := tick 100 30 true (λ _, call) t (store two_vaults) in
  status_of t' "d1" = Some (StatusFailed, ReasonDestinationMismatch) ∧ balances s' = [Some 0; Some 10000000000].
Proof. vm_compute. by repeat split. Qed.
