(* ===== verification/LedgerPostings.v ===== *)
(** The two writers of the double-entry ledger: the vault repository carries its
    own copy of the posting code (internal/repository/postgres/vault_repository.go),
    which does what the ledger service (internal/service/ledger_service.go over
    ledger_repository.go) does for the same movement. *)

From S2P Require Import Prelude Sql Decimal.
From S2P Require Import Ledger.
From S2P Require Import VaultStore.
From S2P Require Import VaultPool.
Open Scope Z_scope.
Open Scope go_scope.

Section Postings.
Context (uuidNew : nat → UUID) (dbnow : Time) (userExists vx : UUID → bool).

#[local] Abbreviation ready := (ready uuidNew).
#[local] Abbreviation repo_account := (ledgerGetOrCreateAccountTx uuidNew dbnow userExists vx).
#[local] Abbreviation service_port := (port_tx uuidNew dbnow dbnow vx userExists).
#[local] Abbreviation repo_post := (ledgerPostEntriesTx uuidNew dbnow).

(** Programs that agree on a session. *)
Lemma bind_same {A B} (m m' : M A) (f f' : A → M B) s :
  m s = m' s → (∀ a s', m s = (Ok a, s') → f a s' = f' a s') → (m ≫= f) s = (m' ≫= f') s.
Proof.
  intros E Hf. unfold mbind, M_bind. rewrite <-E. destruct (m s) as [[a|e] s']; [by apply Hf|done].
Qed.

(** ** Accounts *)

Lemma account_same i ty v u ad s :
  ready s → repo_account ty v u ad "USDC" s = account service_port i ty v u (effective ty ad) s.
Proof.
  intros Hr. unfold ledgerGetOrCreateAccountTx. fold (effective ty ad).
  change (default_asset "USDC") with "USDC"%string. simpl account. unfold GetOrCreateAccountTx.
  change (default_asset "USDC") with "USDC"%string. unfold getOrCreateAccountTx.
  generalize (effective ty ad). clear ad. intros ad.
  unfold mbind, M_bind, lift, gets. destruct (required_key ty v u ad) as [[]|] eqn:Hk; [|done].
  destruct (select_account ty v u ad "USDC" (db s)) as [x|] eqn:Hs; [done|].
  unfold newUUID. unfold insert_account. cbn [db drawn]. set (id := uuidNew (drawn s)). set (a := mkAccount _ _ _ _ _ _ _ _ _).
  destruct (_ || existsb _ _) eqn:Hex.
  { exfalso. apply orb_true_iff in Hex as [Hex|Hex].
    - apply bool_decide_eq_true in Hex as [b Hb]. destruct (rd_new _ s Hr (drawn s)) as (_ & Hn & _); [lia|].
      fold id in Hn. congruence.
    - apply existsb_exists in Hex as ([j b] & Hin & Hm). apply list_elem_of_In, elem_of_map_to_list in Hin.
      simpl in Hm. by rewrite (select_account_None _ _ _ _ _ _ Hs j b Hin) in Hm. }
  destruct (negb _ || negb _); [done|]. cbn [db drawn].
  destruct (select_account ty v u ad "USDC" (with_accounts <[id := a]> (db s))) as [x|] eqn:Hs2; [done|]. exfalso.
  pose proof (select_account_None _ _ _ _ _ _ Hs2 id a) as Hno. unfold a in Hno.
  rewrite (required_self ty v u ad "USDC") in Hno by done. discriminate Hno. simpl. apply lookup_insert_eq.
Qed.

Lemma account_named i ty v u ad s id s' :
  ready s → account service_port i ty v u ad s = (Ok id, s') → id ≠ uuid_Nil.
Proof.
  intros Hr. simpl account. unfold GetOrCreateAccountTx, getOrCreateAccountTx.
  unfold mbind, M_bind, lift, gets. destruct (required_key ty v u ad) as [[]|]; [|done].
  assert (Hnew : uuidNew (drawn s) ≠ uuid_Nil) by (apply (rd_new _ s Hr); lia).
  destruct (select_account _ _ _ _ _ (db s)) as [x|] eqn:Hs.
  - intros [= <- <-]. apply select_account_Some in Hs as [Hx _]. intros E. rewrite E, (rd_nil _ s Hr) in Hx. done.
  - unfold newUUID, insert_account. cbn [db drawn].
    destruct (_ || existsb _ _).
    { cbn [db drawn]. rewrite Hs. done. }
    destruct (negb _ || negb _); [done|]. cbn [db drawn].
    destruct (select_account _ _ _ _ _ (with_accounts _ _)) as [x|] eqn:Hs2; [|done]. intros [= <- <-].
    apply select_account_Some in Hs2 as [Hx _]. simpl in Hx. intros E. rewrite E in Hx.
    rewrite lookup_insert_ne in Hx by done. by rewrite (rd_nil _ s Hr) in Hx.
Qed.

(** ** Entries *)

Definition legs_of (txID : UUID) (event eventID : string) (es : list (UUID * Z)) : list Entry :=
  (λ e : UUID * Z, leg txID e.1 e.2 event eventID) <$> es.

Lemma post_legs_same txID event eventID es s :
  post_legs uuidNew dbnow txID event eventID es s = postEntriesTx uuidNew dbnow (legs_of txID event eventID es) s.
Proof.
  revert s. induction es as [|[acc a] es IH]; intros s; [done|].
  simpl. unfold post_entry. simpl. unfold mbind, M_bind, newUUID.
  assert (Hd : (if a <? 0 then "credit" else "debit") = DirectionFromAmount a).
  { unfold DirectionFromAmount. destruct (Z.ltb_spec a 0), (Z.leb_spec 0 a); try done; lia. }
  rewrite Hd. rewrite decide_False by (unfold DirectionFromAmount; by destruct (0 <=? a)).
  change (default_asset "USDC") with "USDC"%string. change (default_unit "stroops") with "stroops"%string.
  destruct (insert_entry _ _) as [[[]|e] s1]; [|done].
  destruct (upsert_balance _ _ s1) as [[[]|e] s2]; [|done]. apply IH.
Qed.

Lemma balanced_same txID event eventID es sum :
  Forall (λ e : UUID * Z, e.1 ≠ uuid_Nil) es → entries_sum sum es = Ok 0 →
  balanced_loop txID sum (legs_of txID event eventID es) = Ok tt.
Proof.
  intros HF. revert sum. induction HF as [|[acc a] es Hacc HF IH]; intros sum; simpl; [by intros [= ->]|].
  rewrite Z.eqb_refl. simpl. destruct (a =? 0); [done|]. simpl in Hacc.
  rewrite (proj2 (Z.eqb_neq acc uuid_Nil)) by done. apply IH.
Qed.

Lemma post_same event eventID es s :
  ready s → Forall (λ e : UUID * Z, e.1 ≠ uuid_Nil) es → (2 ≤ length es)%nat → entries_sum 0 es = Ok 0 →
  repo_post event eventID es s
  = (txID ← newUUID uuidNew; post service_port (legs_of txID event eventID es)) s.
Proof.
  intros Hr HF Hlen Hsum. unfold ledgerPostEntriesTx. rewrite (proj2 (Z.ltb_ge _ _)) by lia.
  unfold mbind at 1, M_bind at 1, lift. rewrite Hsum. simpl negb. cbv iota.
  apply bind_same; [done|]. intros txID s' [= <- <-]. rewrite post_legs_same. simpl post.
  unfold PostEntriesTx, mbind, M_bind, lift.
  assert (Hv : ∀ t, t ≠ uuid_Nil → ValidateBalanced (legs_of t event eventID es) = Ok tt).
  { intros t Ht. destruct es as [|e1 [|e2 es]]; [simpl in Hlen; lia..|]. unfold ValidateBalanced, legs_of.
    simpl fmap. cbn [TransactionID leg]. rewrite (proj2 (Z.eqb_neq t uuid_Nil)) by done.
    exact (balanced_same t event eventID (e1 :: e2 :: es) 0 HF Hsum). }
  rewrite Hv; [done|]. apply (rd_new _ s Hr). lia.
Qed.

(** ** Movements *)

Lemma kr_repo_account ty v u ad s a s' :
  ready s → repo_account ty v u ad "USDC" s = (Ok a, s') → ready s'.
Proof. intros Hr H. pose proof (kr_account uuidNew dbnow userExists vx ty v u ad "USDC" s Hr) as [Hr' _]. by rewrite H in Hr'. Qed.

Lemma repo_account_named ty v u ad s id s' :
  ready s → repo_account ty v u ad "USDC" s = (Ok id, s') → id ≠ uuid_Nil.
Proof. intros Hr. rewrite (account_same 0) by done. by apply account_named. Qed.

(** One account more, in both. *)
Lemma with_account {B} i ty v u ad ad' (f f' : UUID → M B) s :
  effective ty ad = ad' → ready s → (∀ id s', ready s' → id ≠ uuid_Nil → f id s' = f' id s') →
  (id ← repo_account ty v u ad "USDC"; f id) s = (id ← account service_port i ty v u ad'; f' id) s.
Proof.
  intros <- Hr Hf. apply bind_same; [by apply account_same|]. intros id s' H.
  apply Hf; [by eapply kr_repo_account|by eapply repo_account_named].
Qed.

Lemma i64_sum_deposit z : (0 +w z +w z) +w i64 (-2 * z) = 0.
Proof. unfold i64. Z.div_mod_to_equations. lia. Qed.
Lemma i64_sum_withdrawal z : (0 +w i64 (- z) +w i64 (- z)) +w (2 *w z) = 0.
Proof. unfold i64. Z.div_mod_to_equations. lia. Qed.
Lemma i64_sum_rebalance z : (0 +w i64 (- z)) +w z = 0.
Proof. unfold i64. Z.div_mod_to_equations. lia. Qed.
Lemma i64_nonzero z k : 0 < z ≤ max_i64 → k = -1 ∨ k = 2 ∨ k = -2 → i64 (k * z) ≠ 0.
Proof. unfold i64, max_i64. intros Hz Hk. Z.div_mod_to_equations. lia. Qed.

Context {D : Type} `{!Decimal D} `{!DecimalLaws D}.

Lemma posting_stroops_max (a : D) : VaultStore.decimalToStroops a ≤ max_i64.
Proof. pose proof (d_intpart_range (d_round 0 (d_mul a (d_of_Z 10000000)))) as [_ ?]. done. Qed.

Lemma positive_stroops (amount : D) e (f : Z → M unit) s :
  0 < VaultStore.decimalToStroops amount →
  (stroops ← lift (Ledger.decimalToStroops amount); if stroops <=? 0 then fail e else f stroops) s
  = f (VaultStore.decimalToStroops amount) s.
Proof.
  intros H. unfold mbind, M_bind, lift. change (Ledger.decimalToStroops amount) with (Ok (E:=LedgerError) (VaultStore.decimalToStroops amount)).
  cbv iota beta. by rewrite (proj2 (Z.leb_gt _ _)) by lia.
Qed.

(** Deposits and withdrawals. *)
Lemma repo_deposit vault user (amount : D) eventID s :
  ready s → 0 < VaultStore.decimalToStroops amount →
  postDepositLedgerTx uuidNew dbnow userExists vx vault user amount eventID s
  = PostDeposit uuidNew dbnow dbnow vx userExists CallerTx vault user amount eventID s.
Proof.
  intros Hr Hpos. unfold PostDeposit. rewrite positive_stroops by done. unfold postDepositLedgerTx.
  rewrite (proj2 (Z.leb_gt _ 0)) by done. pose proof (posting_stroops_max amount) as Hmax.
  set (z := VaultStore.decimalToStroops amount) in *. clearbody z.
  do 3 (apply with_account; [done|done|]; clear s Hr; intros ? s Hr ?).
  apply post_same; [done|by repeat constructor|simpl; lia|].
  simpl. rewrite !(proj2 (Z.eqb_neq _ 0)) by (try apply i64_nonzero; lia). by rewrite i64_sum_deposit.
Qed.

Lemma repo_withdrawal vault user (amount : D) eventID s :
  ready s → 0 < VaultStore.decimalToStroops amount →
  postWithdrawalLedgerTx uuidNew dbnow userExists vx vault user amount eventID s
  = PostWithdrawal uuidNew dbnow dbnow vx userExists CallerTx vault user amount eventID s.
Proof.
  intros Hr Hpos. unfold PostWithdrawal. rewrite positive_stroops by done. unfold postWithdrawalLedgerTx.
  rewrite (proj2 (Z.leb_gt _ 0)) by done. pose proof (posting_stroops_max amount) as Hmax.
  set (z := VaultStore.decimalToStroops amount) in *. clearbody z.
  assert (Hn : i64 (- z) ≠ 0) by (replace (- z) with (-1 * z) by lia; apply i64_nonzero; lia).
  do 3 (apply with_account; [done|done|]; clear s Hr; intros ? s Hr ?).
  apply post_same; [done|by repeat constructor|simpl; lia|].
  simpl. rewrite !(proj2 (Z.eqb_neq _ 0)) by (try apply i64_nonzero; first [done|lia]). by rewrite i64_sum_withdrawal.
Qed.

(** The rebalance of the service, once its two checks have passed. *)
Lemma service_rebalance vault from to (amount : D) eventID s :
  0 < VaultStore.decimalToStroops amount → from ≠ to →
  PostRebalance uuidNew dbnow dbnow vx userExists CallerTx vault from to amount eventID s
  = postRebalance uuidNew vault from to (VaultStore.decimalToStroops amount) eventID service_port s.
Proof. intros Hpos Hne. unfold PostRebalance. rewrite positive_stroops by done. by rewrite decide_False. Qed.

Lemma repo_rebalance vault from to (amount : D) eventID s :
  ready s → 0 < VaultStore.decimalToStroops amount → from ≠ to →
  postRebalanceLedgerTx uuidNew dbnow userExists vx vault from to amount eventID s
  = postRebalance uuidNew vault (default_adapter (Some from)) (default_adapter (Some to))
      (VaultStore.decimalToStroops amount) eventID service_port s.
Proof.
  intros Hr Hpos Hne. unfold postRebalanceLedgerTx, postRebalance.
  rewrite (proj2 (Z.leb_gt _ 0)) by done. rewrite decide_False by done.
  pose proof (posting_stroops_max amount) as Hmax.
  set (z := VaultStore.decimalToStroops amount) in *. clearbody z.
  assert (Hn : i64 (- z) ≠ 0) by (replace (- z) with (-1 * z) by lia; apply i64_nonzero; lia).
  do 2 (apply with_account; [unfold effective; by rewrite decide_True|done|]; clear s Hr; intros ? s Hr ?).
  rewrite post_same; [done|done|by repeat constructor|simpl; lia|].
  simpl. rewrite !(proj2 (Z.eqb_neq _ 0)) by (first [done|lia]). by rewrite i64_sum_rebalance.
Qed.

(** The service has no account for a protocol without a name. *)
Lemma service_unnamed vault from to z eventID s :
  from = ""%string ∨ to = ""%string → ∃ e s', postRebalance uuidNew vault from to z eventID service_port s = (Err e, s').
Proof.
  intros Hemp. unfold postRebalance, mbind, M_bind.
  assert (Hno : ∀ i q, account service_port i AccountTypeYieldSource None None (Some ""%string) q = (Err ErrKeyRequired, q)).
  { done. }
  destruct Hemp as [-> | ->]; [rewrite Hno; eauto|].
  destruct (account service_port 0 _ _ _ _ s) as [[a|e] s1]; [|eauto]. rewrite Hno. eauto.
Qed.

(** C6: The posting code of the vault repository and the ledger service posting
    in the caller's transaction, from any ledger whose ids to be drawn are
    fresh and with one clock for both.  For a deposit or a withdrawal of a
    positive amount they are the same program: they answer the same, success or
    error, and leave the same accounts, entries and balances, having drawn the
    same ids.  A rebalance of a positive amount between two distinct names the
    repository posts as the service posts it with blend for an empty name, when
    that leaves two distinct names, so between two distinct protocols with names
    the two are the same program too; the service refuses an empty name.  Where nothing is to be moved they part:
    for one name twice, and for any amount that is not positive, the repository
    succeeds and the service refuses, both leaving the ledger as it was. *)
Theorem repository_posts_as_service vault user (amount : D) from to eventID s :
  ready s →
  let z := VaultStore.decimalToStroops amount in
  let repo_d := postDepositLedgerTx uuidNew dbnow userExists vx vault user amount eventID s in
  let repo_w := postWithdrawalLedgerTx uuidNew dbnow userExists vx vault user amount eventID s in
  let repo_r := postRebalanceLedgerTx uuidNew dbnow userExists vx vault from to amount eventID s in
  let svc_d := PostDeposit uuidNew dbnow dbnow vx userExists CallerTx vault user amount eventID s in
  let svc_w := PostWithdrawal uuidNew dbnow dbnow vx userExists CallerTx vault user amount eventID s in
  let svc_r a b := PostRebalance uuidNew dbnow dbnow vx userExists CallerTx vault a b amount eventID s in
  (0 < z → repo_d = svc_d ∧ repo_w = svc_w
     ∧ (from ≠ to → from ≠ ""%string → to ≠ ""%string → repo_r = svc_r from to)
     ∧ (from ≠ to → default_adapter (Some from) ≠ default_adapter (Some to) →
        repo_r = svc_r (default_adapter (Some from)) (default_adapter (Some to)))
     ∧ (from ≠ to → from = ""%string ∨ to = ""%string → ∃ e s', svc_r from to = (Err e, s'))
     ∧ (from = to → repo_r = (Ok tt, s) ∧ svc_r from to = (Err ErrSameAdapter, s)))
  ∧ (z ≤ 0 → repo_d = (Ok tt, s) ∧ repo_w = (Ok tt, s) ∧ repo_r = (Ok tt, s)
     ∧ svc_d = (Err ErrAmountNotPositive, s) ∧ svc_w = (Err ErrAmountNotPositive, s)
     ∧ svc_r from to = (Err ErrAmountNotPositive, s)).
Proof.
  intros Hr z repo_d repo_w repo_r svc_d svc_w svc_r. split.
  2:{ subst z repo_d repo_w repo_r svc_d svc_w svc_r. intros Hz%Z.leb_le.
      unfold postDepositLedgerTx, postWithdrawalLedgerTx, postRebalanceLedgerTx, PostDeposit, PostWithdrawal, PostRebalance.
      rewrite Hz. unfold mbind, M_bind, lift.
      change (Ledger.decimalToStroops amount) with (Ok (E:=LedgerError) (VaultStore.decimalToStroops amount)).
      cbv iota beta. by rewrite Hz. }
  intros Hpos. split; [by apply repo_deposit|]. split; [by apply repo_withdrawal|].
  assert (Hnamed : ∀ a, a ≠ ""%string → default_adapter (Some a) = a).
  { intros a Ha. unfold default_adapter. by rewrite decide_False. }
  split; [|split; [|split]]; subst repo_r svc_r; cbn beta.
  - intros Hne Hf Ht. rewrite service_rebalance, repo_rebalance by done. by rewrite !Hnamed.
  - intros Hne Hd. by rewrite service_rebalance, repo_rebalance.
  - intros Hne Hemp. rewrite service_rebalance by done. by apply service_unnamed.
  - intros ->. unfold postRebalanceLedgerTx, PostRebalance. rewrite positive_stroops by done.
    rewrite (proj2 (Z.leb_gt _ 0)) by done. by rewrite !decide_True.
Qed.
End Postings.

(** ** Movements of 100 *)

Lemma repository_posts_as_service_witness :
  let s := demo_ledger in
  0 < VaultStore.decimalToStroops 100%Q
  ∧ postDepositLedgerTx demo_uuid 9 (λ _, true) (λ _, true) 1 7 100%Q "h1" s
    = PostDeposit demo_uuid 9 9 (λ _, true) (λ _, true) CallerTx 1 7 100%Q "h1" s
  ∧ postWithdrawalLedgerTx demo_uuid 9 (λ _, true) (λ _, true) 1 7 100%Q "h1" s
    = PostWithdrawal demo_uuid 9 9 (λ _, true) (λ _, true) CallerTx 1 7 100%Q "h1" s
  ∧ postRebalanceLedgerTx demo_uuid 9 (λ _, true) (λ _, true) 1 "blend" "aave" 100%Q "h1" s
    = PostRebalance demo_uuid 9 9 (λ _, true) (λ _, true) CallerTx 1 "blend" "aave" 100%Q "h1" s
  ∧ (postDepositLedgerTx demo_uuid 9 (λ _, true) (λ _, true) 1 7 100%Q "h1" s).1 = Ok tt
  ∧ (postRebalanceLedgerTx demo_uuid 9 (λ _, true) (λ _, true) 1 "blend" "aave" 100%Q "h1" s).1 = Ok tt.
Proof.
  intros s. assert (Hpos : 0 < VaultStore.decimalToStroops 100%Q) by (by vm_compute). split; [exact Hpos|].
  destruct (proj1 (repository_posts_as_service demo_uuid 9 (λ _, true) (λ _, true) 1 7 100%Q "blend" "aave" "h1" s
    (proj2 pool_demo_ready)) Hpos) as (Hd & Hw & Hreb & _).
  split; [exact Hd|]. split; [exact Hw|]. split; [by apply Hreb|]. split; by vm_compute.
Defined.
