(* ===== verification/JobClients.v ===== *)
(** The job queue as its producers see it (the Enqueuer interfaces of
    internal/harvest/engine.go and internal/scheduler/recurring_deposit.go):
    the interface they enqueue through, what they may rely on, and the durable
    queue of [JobQueue] as its implementation, under sessions whose statements
    fail or are overtaken by workers. *)

From stdpp Require Import pretty.
From S2P Require Import Prelude Sql GoStrings.
From S2P Require Import JobQueue.
From S2P Require Outbox.
From Stdlib Require Import Ascii.
Open Scope Z_scope.

(** ** What producers and workers do to the table *)

(** A statement of a worker. *)
Inductive wstep : Store → Store → Prop :=
| w_dequeue st locked p dbnow : wstep st (Dequeue locked p dbnow st).2
| w_complete st id res dbnow : wstep st (Complete id res dbnow st)
| w_retry st id next msg dbnow : wstep st (Retry id next msg dbnow st)
| w_dead st id msg dbnow : wstep st (DeadLetter id msg dbnow st)
| w_heartbeat st id until dbnow : wstep st (Heartbeat id until dbnow st).2.

(** A statement of a worker, or the submission of a job that [P] allows. *)
Inductive jstep (P : EnqueueInput → Prop) (st : Store) : Store → Prop :=
| j_submit id now dbnow i :
    P i → st !! id = None → jstep P st (EnqueueInsert id now dbnow i st).2
| j_worker st' : wstep st st' → jstep P st st'.

Lemma wstep_qstep st st' : wstep st st' → qstep st st'.
Proof. destruct 1; constructor. Qed.

Lemma jstep_qstep P st st' : jstep P st st' → qstep st st'.
Proof. destruct 1; [by constructor|by apply wstep_qstep]. Qed.

Lemma jstep_mono (P P' : EnqueueInput → Prop) st st' :
  (∀ i, P i → P' i) → jstep P st st' → jstep P' st st'.
Proof. intros H. destruct 1; [apply j_submit; auto|by apply j_worker]. Qed.

Lemma jsteps_mono (P P' : EnqueueInput → Prop) st st' :
  (∀ i, P i → P' i) → rtc (jstep P) st st' → rtc (jstep P') st st'.
Proof. intros H. apply (rtc_congruence id). intros ??. by apply jstep_mono. Qed.

Lemma jsteps_inv P st st' : rtc (jstep P) st st' → rtc qstep st st'.
Proof. apply (rtc_congruence id). intros ??. apply jstep_qstep. Qed.

(** The columns no statement changes. *)
Definition order_of (r : row) : string * string * option string :=
  (r_type r, r_payload r, r_idempotency_key r).

Definition payload_of (i : EnqueueInput) : string :=
  if decide (in_Payload i = "") then "{}"%string else in_Payload i.
Definition order_in (i : EnqueueInput) : string * string * option string :=
  (in_Type i, payload_of i, nullText (in_IdempotencyKey i)).

Lemma row_next_order r r' : row_next r r' → order_of r' = order_of r.
Proof.
  unfold row_next, order_of.
  by intros [->|[[_ (?&?&->)]|[_ [(?&?&->)|[(?&?&?&->)|[(?&?&->)|(?&?&->)]]]]]].
Qed.

Lemma EnqueueInsert_rows id now dbnow i (st : Store) id' r :
  (EnqueueInsert id now dbnow i st).2 !! id' = Some r →
  st !! id' = Some r ∨ id' = id ∧ order_of r = order_in i ∧ live r = true.
Proof.
  unfold EnqueueInsert, order_in, payload_of, order_of.
  destruct (existsb _ _); simpl; [by intros ?; left|].
  simpl. rewrite lookup_insert. case_decide as Hid; [|by intros ?; left]. intros [= <-]. right. by subst.
Qed.

Lemma wstep_row st st' id r : wstep st st' → st' !! id = Some r →
  ∃ r0, st !! id = Some r0 ∧ row_next r0 r.
Proof.
  intros Hw Hr. destruct (st !! id) as [r0|] eqn:E.
  - destruct (qstep_row _ _ _ _ (wstep_qstep _ _ Hw) E) as (r' & Hr' & Hn). exists r0. naive_solver.
  - exfalso. destruct Hw as [st locked p dbnow|st i res dbnow|st i next msg dbnow|st i msg dbnow|st i until dbnow].
    + rewrite Dequeue_eq in Hr. simpl in Hr. rewrite overwrite_new in Hr; [done|apply ready_row|done].
    + unfold Complete, update_running in Hr. by rewrite update_where_new in Hr.
    + unfold Retry, update_running in Hr. by rewrite update_where_new in Hr.
    + unfold DeadLetter, update_running in Hr. by rewrite update_where_new in Hr.
    + simpl in Hr. unfold update_running in Hr. by rewrite update_where_new in Hr.
Qed.

(** What holds of the orders that [P] allows holds of every row. *)
Definition all_orders (J : string * string * option string → Prop) (st : Store) : Prop :=
  ∀ id r, st !! id = Some r → J (order_of r).

Lemma jstep_orders P (J : string * string * option string → Prop) st st' :
  (∀ i, P i → J (order_in i)) → jstep P st st' → all_orders J st → all_orders J st'.
Proof.
  intros HP Hs Hst id r Hr. destruct Hs as [id0 now dbnow i Hi Hnew|st' Hw].
  - apply EnqueueInsert_rows in Hr as [Hr|(_ & -> & _)]; [by eapply Hst|by apply HP].
  - destruct (wstep_row _ _ _ _ Hw Hr) as (r0 & Hr0 & Hn). rewrite (row_next_order _ _ Hn). by eapply Hst.
Qed.

Lemma jsteps_orders P (J : string * string * option string → Prop) st st' :
  (∀ i, P i → J (order_in i)) → rtc (jstep P) st st' → all_orders J st → all_orders J st'.
Proof.
  intros HP. induction 1 as [|st st1 st' Hs _ IH]; [done|]. intros Hst. apply IH. by eapply jstep_orders.
Qed.

Lemma qsteps_row st st' id r :
  rtc qstep st st' → st !! id = Some r → ∃ r', st' !! id = Some r' ∧ order_of r' = order_of r.
Proof.
  intros Hs. revert r. induction Hs as [st|st st1 st' Hs _ IH]; [eauto|]. intros r Hr.
  destruct (qstep_row _ _ _ _ Hs Hr) as (r1 & H1 & Hn). destruct (IH _ H1) as (r' & Hr' & E).
  exists r'. split; [done|]. by rewrite E, (row_next_order _ _ Hn).
Qed.

(** A row that appears is one of the orders that [P] allows. *)
Lemma jsteps_new P st st' id r :
  rtc (jstep P) st st' → st !! id = None → st' !! id = Some r → ∃ i, P i ∧ order_of r = order_in i.
Proof.
  intros Hs Hn Hr. induction Hs as [st|st st1 st' Hs Hss IH]; [congruence|].
  destruct (st1 !! id) as [r1|] eqn:E1; [|by apply IH].
  destruct (qsteps_row _ _ _ _ (jsteps_inv _ _ _ Hss) E1) as (r' & Hr' & E). assert (r' = r) as -> by congruence.
  rewrite E. destruct Hs as [id0 now dbnow i Hi Hnew|st1 Hw].
  - apply EnqueueInsert_rows in E1 as [?|(_ & ? & _)]; [congruence|eauto].
  - destruct (wstep_row _ _ _ _ Hw E1) as (? & ? & _). congruence.
Qed.

Lemma queue_inv P st : rtc (jstep P) ∅ st → table_inv st.
Proof.
  intros Hs%jsteps_inv. pose proof table_inv_empty as Hi.
  revert Hi. induction Hs as [|st st1 st' Hst _ IH]; [done|]. intros Hi. by eapply IH, table_inv_qstep.
Qed.

(** ** Keys by window *)

(** [t.Truncate(d)]: the multiples of [d] are counted from the zero time. *)
Definition Truncate (t : Time) (d : Duration) : Time :=
  if d <=? 0 then t else t - (t - zeroTime) `mod` d.

(** [t.Unix()] *)
Definition Unix (t : Time) : Z := t / Second.

Definition colon : ascii := ":".

Definition windowKey (name : string) (t : Time) (window : Duration) : string :=
  name +:+ String colon (itoa (Unix (Truncate t window))).

Lemma windowKey_inj n1 t1 w1 n2 t2 w2 :
  windowKey n1 t1 w1 = windowKey n2 t2 w2 →
  n1 = n2 ∧ Unix (Truncate t1 w1) = Unix (Truncate t2 w2).
Proof.
  assert (Hc : ∀ z, str_all (λ c, bool_decide (c ≠ colon)) (itoa z) = true).
  { intros z. pose proof (itoa_numeral z) as H. revert H. induction (itoa z) as [|c s IH]; simpl; [done|].
    intros [Hn Hs]%andb_true_iff. rewrite (IH Hs), andb_true_r. apply bool_decide_eq_true. by intros ->. }
  intros H. apply split_at_last in H as [-> Hz]; [|apply Hc..]. split; [done|]. by apply (inj pretty) in Hz.
Qed.

(** Readings of one window have one key. *)
Lemma Truncate_window t w : 0 < w → Truncate t w ≤ t < Truncate t w + w.
Proof. intros Hw. unfold Truncate. rewrite (proj2 (Z.leb_gt w 0)) by done. pose proof (Z.mod_pos_bound (t - zeroTime) w). lia. Qed.

(** ** The interface *)

Class JobClient (Q : Type) `{Outbox.Enqueuer Q} := {
  jobs : Q → Store;
  (** What the queue guarantees its sessions: fresh ids, and that others obey
      the statements. *)
  client_ok : Q → Prop;
  client_step i (q q' : Q) r :
    client_ok q → Outbox.enqueue i q = (r, q') →
    client_ok q' ∧ rtc (jstep (eq i)) (jobs q) (jobs q');
  client_accept i (q q' : Q) job :
    client_ok q → Outbox.enqueue i q = (Ok job, q') →
    ∃ r, jobs q' !! ID job = Some r ∧ live r = true ∧ r_type r = in_Type i
      ∧ r_idempotency_key r = nullText (in_IdempotencyKey i) ∧ Payload job = r_payload r;
}.

(** ** The durable queue *)

(** What one call of Enqueue meets: the id it draws, the clocks, whether the
    database answers, and what workers do between its two statements. *)
Record Call := mkCall {
  c_id : UUID;
  c_now : Time;
  c_dbnow : Time;
  c_up : bool;
  c_others : Store → Store;
}.

(** A table and the calls to come; after the last one the context is done. *)
Record Session := mkSession {
  coming : list Call;
  table : Store;
}.

#[export] Instance session_enqueuer : Outbox.Enqueuer Session := λ i q,
  match coming q with
  | [] => (Err ErrDB, q)
  | c :: rest =>
      if c_up c then
        let '(r, st) := ClientEnqueue (c_id c) (c_now c) (c_dbnow c) i (c_others c) (table q) in
        (fst <$> r, mkSession rest st)
      else (Err ErrDB, mkSession rest (table q))
  end.

(** Workers between the statements, and ids that are new when they are drawn. *)
Fixpoint fresh_calls (l : list Call) (used : UUID → Prop) : Prop :=
  match l with
  | [] => True
  | c :: l =>
      ¬ used (c_id c) ∧ (∀ st, rtc wstep st (c_others c st))
      ∧ fresh_calls l (λ id, used id ∨ id = c_id c)
  end.

Definition session_ok (q : Session) : Prop := fresh_calls (coming q) (λ id, is_Some (table q !! id)).

Lemma fresh_calls_mono l (u u' : UUID → Prop) :
  (∀ id, u' id → u id) → fresh_calls l u → fresh_calls l u'.
Proof.
  revert u u'. induction l as [|c l IH]; simpl; [done|]. intros u u' H (Hn & Ho & Hl).
  split; [naive_solver|]. split; [done|]. eapply IH; [|done]. naive_solver.
Qed.

Lemma wsteps_dom st st' id : rtc wstep st st' → is_Some (st' !! id) → is_Some (st !! id).
Proof.
  induction 1 as [|st st1 st' Hw _ IH]; [done|]. intros H. destruct (IH H) as [r Hr].
  destruct (wstep_row _ _ _ _ Hw Hr) as (? & ? & _). eauto.
Qed.

Lemma insert_dom id now dbnow i (st : Store) x :
  is_Some ((EnqueueInsert id now dbnow i st).2 !! x) → is_Some (st !! x) ∨ x = id.
Proof. intros [r [Hr|(? & _)]%EnqueueInsert_rows]; [left; eauto|by right]. Qed.

(** Enqueue is the submission and then, on a conflict, what workers did. *)
Lemma Enqueue_steps id now dbnow i others (st st' : Store) r :
  st !! id = None → (∀ st, rtc wstep st (others st)) →
  ClientEnqueue id now dbnow i others st = (r, st') →
  rtc (jstep (eq i)) st st' ∧ (∀ x, is_Some (st' !! x) → is_Some (st !! x) ∨ x = id).
Proof.
  intros Hn Ho. unfold ClientEnqueue. case_decide; [intros [= _ <-]; split; [done|by left]|].
  unfold Enqueue. pose proof (insert_dom id now dbnow i st) as Hd.
  pose proof (j_submit (eq i) st id now dbnow i eq_refl Hn) as Hs.
  destruct (EnqueueInsert id now dbnow i st) as [[job|] st1] eqn:E; simpl in *.
  - intros [= _ <-]. split; [by apply rtc_once|done].
  - intros Hr. assert (st' = others st1) as -> by (destruct (EnqueueSelect i (others st1)); by injection Hr as _ <-).
    split.
    + eapply rtc_l; [done|]. eapply (rtc_congruence (λ s, s)); [|apply Ho]. intros ??. apply j_worker.
    + intros x Hx. apply Hd. eapply wsteps_dom; [apply Ho|done].
Qed.

Lemma newest_hit (hits : list (UUID * row)) b p :
  fold_left newest hits b = Some p → p ∈ hits ∨ b = Some p.
Proof.
  revert b. induction hits as [|x hits IH]; simpl; intros b H; [by right|].
  apply IH in H as [H|H]; [left; by constructor|]. unfold newest in H.
  destruct b as [q|]; [destruct (_ <? _)|]; simplify_eq; (by right) || (left; by left).
Qed.

Lemma Enqueue_accepts id now dbnow i others (st st' : Store) job b :
  ClientEnqueue id now dbnow i others st = (Ok (job, b), st') →
  ∃ r, st' !! ID job = Some r ∧ live r = true ∧ r_type r = in_Type i
    ∧ r_idempotency_key r = nullText (in_IdempotencyKey i) ∧ Payload job = r_payload r.
Proof.
  unfold ClientEnqueue. case_decide; [done|]. unfold Enqueue, EnqueueInsert.
  destruct (existsb _ _) eqn:Ex.
  - unfold EnqueueSelect. set (hits := List.filter _ _).
    destruct (fold_left newest hits None) as [[id' r]|] eqn:E; [|done]. intros [= <- _ <-].
    apply newest_hit in E as [E|]; [|done]. apply filtered_In in E as [Hr Hc]. simpl in *.
    exists r. apply andb_true_iff in Hc as [[Ht%bool_decide_eq_true Hky%bool_decide_eq_true]%andb_true_iff Hl].
    split_and!; try done. rewrite Hky. unfold nullText. case_decide as Hk; [|done].
    apply existsb_exists in Ex as (x & _ & Hx). unfold conflicts, nullText in Hx. by rewrite decide_True in Hx.
  - intros [= <- _ <-]. simpl. rewrite lookup_insert_eq. by eexists.
Qed.

#[export] Instance session_client : JobClient Session.
Proof.
  refine {| jobs := table; client_ok := session_ok |}.
  - intros i [l st] q' r. unfold session_ok, Outbox.enqueue, session_enqueuer. simpl.
    destruct l as [|c l]; [by intros _ [= _ <-]|]. simpl. intros (Hn & Ho & Hl).
    destruct (c_up c).
    2:{ intros [= _ <-]. simpl. split; [|done]. eapply fresh_calls_mono; [|done]. intros id Hid. by left. }
    destruct (ClientEnqueue _ _ _ _ _ _) as [x st'] eqn:E. intros [= _ <-]. simpl.
    apply Enqueue_steps in E as [Hs Hd]; [|by apply eq_None_not_Some|done].
    split; [|done]. by eapply fresh_calls_mono; [exact Hd|].
  - intros i [l st] q' job. unfold session_ok, Outbox.enqueue, session_enqueuer. simpl.
    destruct l as [|c l]; [done|]. intros _. destruct (c_up c); [|done].
    destruct (ClientEnqueue _ _ _ _ _ _) as [[[j b]|] st'] eqn:E; [|done]. intros [= <- <-].
    by eapply Enqueue_accepts.
Defined.
