(* ===== verification/Harvest.v ===== *)
(** The yield-harvest engine (internal/harvest: decision.go, engine.go,
    status.go, handler.go, adapters.go, gas.go): the economic gate, the passes
    over the vaults that submit harvests to the job queue, and the handler that
    executes them through the vault service.

    The engine submits through the class [Enqueuer]; clocks, the gas oracle's
    answers and which queries reach the database are arguments.  The JSON of the
    payload is the class [PayloadJSON], the text of a vault's id the argument
    [uuidString]. *)

From stdpp Require Import sorting.
From S2P Require Import Prelude Sql GoStrings Decimal Vault.
From S2P Require Import Ledger.
From S2P Require Import VaultStore.
From S2P Require Import MoneyPath.
From S2P Require Import VaultService.
From S2P Require JobQueue Outbox.
From S2P Require Import JobClients.
Open Scope Z_scope.
Open Scope go_scope.

(** ** Decisions (decision.go) *)

Inductive Reason := ReasonHarvest | ReasonNoYield | ReasonBelowThreshold | ReasonNotDue.

#[export] Instance Reason_eq_dec : EqDecision Reason.
Proof. solve_decision. Defined.

Definition FrequencyDuration (frequency : string) : Duration :=
  if decide (frequency = "weekly"%string) then 7 * 24 * Hour else 24 * Hour.

Definition DueForHarvest (now : Time) (frequency : string) (lastHarvestedAt : option Time) : bool :=
  match lastHarvestedAt with
  | None => true
  | Some t => FrequencyDuration frequency <=? timeSub now t
  end.

(** The payload of a job, and encoding/json on it. *)
Record HarvestJobPayload := mkPayload {
  p_vault : UUID; p_user : UUID; p_wallet : string; p_compound : bool;
}.

Class PayloadJSON := {
  marshal : HarvestJobPayload → option string;
  unmarshal : string → option HarvestJobPayload;
}.

Class PayloadJSONLaws `{PayloadJSON} : Prop := {
  unmarshal_marshal p s : marshal p = Some s → unmarshal s = Some p;
  unmarshal_empty : unmarshal "" = None;
}.

Section Harvest.
Context {D : Type} `{!Decimal D}.

Record GatingInput := mkGating { AccruedYield : D; GasFee : D; Margin : D }.

Record GatingDecision := mkDecision {
  Harvest : bool;
  Threshold : D;
  NetGain : D;
  Why : Reason;
}.

Definition floorZero (d : D) : D := if d_lt d d_zero then d_zero else d.

Definition Evaluate (i : GatingInput) : GatingDecision :=
  let threshold := d_add (floorZero (GasFee i)) (floorZero (Margin i)) in
  let net := d_sub (AccruedYield i) threshold in
  if d_le (AccruedYield i) d_zero then mkDecision false threshold net ReasonNoYield
  else if d_lt threshold (AccruedYield i) then mkDecision true threshold net ReasonHarvest
  else mkDecision false threshold net ReasonBelowThreshold.

(** The time until the threshold is reached, where it can be told; the outer
    [None] is a division by zero. *)
Definition EstimateNextHarvest (accrued threshold ratePerHour : D) : option (option Duration) :=
  if d_le ratePerHour d_zero then Some None
  else
    let remaining := d_sub threshold accrued in
    if d_le remaining d_zero then Some (Some 0)
    else
      hours ← d_div remaining ratePerHour;
      let secs := d_mul hours (d_of_Z (Hour `quot` Second)) in
      if d_lt (d_of_Z ((365 * 24 * Hour) `quot` Second)) secs then Some None
      else Some (Some (d_intpart secs *w Second)).

(** ** Vaults to harvest (engine.go, adapters.go) *)

Record VaultYield := mkYield {
  y_vault : UUID;
  y_user : UUID;
  y_contract : string;
  y_currency : string;
  y_wallet : string;
  y_accrued : D;
  y_rate : D;
  y_frequency : string;
  y_harvested : option Time;
}.

Definition accruedYield (m : Model (D:=D)) : D :=
  if d_lt d_zero (m_yield m) then m_yield m
  else if d_lt d_zero (d_sub (m_balance m) (m_total m)) then d_sub (m_balance m) (m_total m)
  else d_zero.

Definition toVaultYield (m : Model (D:=D)) : VaultYield :=
  mkYield (m_id m) (m_user m) (m_contract m) (m_currency m) "" (accruedYield m) d_zero
    (m_frequency m) (m_harvested m).

(** [ORDER BY created_at ASC] *)
Definition created_first (p q : UUID * VaultRow) : Prop := v_created p.2 ≤ v_created q.2.
#[export] Instance created_first_dec p q : Decision (created_first p q).
Proof. unfold created_first. apply _. Defined.

Definition active (p : UUID * VaultRow) : bool :=
  VaultStore.live p.2 && bool_decide (v_status p.2 = StatusActive).

Definition ListActive (queryOk : bool) : Tx (list (Model (D:=D))) :=
  readTx (λ s,
    if negb queryOk then Err ErrIO
    else Ok ((λ p : UUID * VaultRow, scanVault p.1 p.2) <$>
               merge_sort created_first (List.filter active (map_to_list (vaults s))))).

Definition ListHarvestable (queryOk : bool) : Tx (list VaultYield) :=
  vs ← ListActive queryOk;
  mret (List.filter (λ y, d_lt d_zero (y_accrued y)) (toVaultYield <$> vs)).

Definition GetVaultYield (queryOk : bool) (id : UUID) : Tx VaultYield :=
  m ← VaultStore.GetVault queryOk id;
  mret (toVaultYield m).

(** ** The engine (engine.go) *)

Inductive HarvestErr :=
| ErrVault (e : VaultErr) | ErrGasFee | ErrCongestion | ErrMarshal | ErrQueue (e : JobQueue.JobError) | ErrForbidden.

Definition DefaultJobType : string := "harvest".

Record Config := mkConfig {
  cfg_Enabled : bool;
  cfg_Interval : Duration;
  cfg_Margin : D;
  cfg_Window : Duration;
  cfg_JobType : string;
  cfg_MaxAttempts : Z;
}.

Definition jobType (c : Config) : string := if decide (cfg_JobType c = "") then DefaultJobType else cfg_JobType c.
Definition window (c : Config) : Duration := if cfg_Window c <=? 0 then Hour else cfg_Window c.

Context (uuidString : UUID → string).

Definition idempotencyKey (c : Config) (now : Time) (vault : UUID) : string :=
  windowKey (uuidString vault) now (window c).

(** What the evaluation of a vault reads: the clock at the frequency gate and
    at the key, and the fee. *)
Record Readings := mkReadings {
  rd_due : Time;
  rd_fee : result unit D;
  rd_key : Time;
}.

Definition decide_for (c : Config) (v : VaultYield) (fee : D) : GatingDecision :=
  Evaluate (mkGating (y_accrued v) fee (cfg_Margin c)).

Section Engine.
Context `{PayloadJSON} {Q : Type} `{Outbox.Enqueuer Q}.

Definition submission (c : Config) (v : VaultYield) (payload : string) (now : Time) : JobQueue.EnqueueInput :=
  JobQueue.mkEnqueueInput (jobType c) payload 0 (cfg_MaxAttempts c) (idempotencyKey c now (y_vault v)) "" zeroTime.

Definition evaluateAndEnqueue (c : Config) (rd : Readings) (v : VaultYield) (q : Q) : result HarvestErr bool * Q :=
  if negb (DueForHarvest (rd_due rd) (y_frequency v) (y_harvested v)) then (Ok false, q)
  else
    match rd_fee rd with
    | Err _ => (Err ErrGasFee, q)
    | Ok fee =>
        if negb (Harvest (decide_for c v fee)) then (Ok false, q)
        else
          match marshal (mkPayload (y_vault v) (y_user v) (y_wallet v) false) with
          | None => (Err ErrMarshal, q)
          | Some payload =>
              match Outbox.enqueue (submission c v payload (rd_key rd)) q with
              | (Err e, q) => (Err (ErrQueue e), q)
              | (Ok _, q) => (Ok true, q)
              end
          end
    end.

(** The loop of [tick]: the submitted, the skipped, and the queue. *)
Fixpoint evaluateAll (c : Config) (rd : UUID → Readings) (vs : list VaultYield) (q : Q) : Z * Z * Q :=
  match vs with
  | [] => (0, 0, q)
  | v :: vs =>
      let '(r, q) := evaluateAndEnqueue c (rd (y_vault v)) v q in
      let '(enqueued, skipped, q) := evaluateAll c rd vs q in
      match r with
      | Err _ => (enqueued, skipped, q)
      | Ok true => (enqueued + 1, skipped, q)
      | Ok false => (enqueued, skipped + 1, q)
      end
  end.

Definition tick (c : Config) (congested : result unit bool) (listed : result VaultErr (list VaultYield))
    (rd : UUID → Readings) (q : Q) : Q :=
  match congested with
  | Err _ => q
  | Ok true => q
  | Ok false =>
      match listed with
      | Err _ => q
      | Ok vs => (evaluateAll c rd vs q).2
      end
  end.

(** What one pass meets. *)
Record Pass := mkPass {
  ps_congested : result unit bool;
  ps_listed : result VaultErr (list VaultYield);
  ps_readings : UUID → Readings;
}.

(** The passes of [Run] until its context is done. *)
Definition Run (c : Config) (passes : list Pass) (q : Q) : Q :=
  if negb (cfg_Enabled c) then q
  else foldl (λ q p, tick c (ps_congested p) (ps_listed p) (ps_readings p) q) q passes.

Definition TriggerVault (c : Config) (got : result VaultErr VaultYield) (rd : Readings) (q : Q)
    : result HarvestErr bool * Q :=
  match got with
  | Err e => (Err (ErrVault e), q)
  | Ok v => evaluateAndEnqueue c rd v q
  end.
End Engine.

Record SimulationResult := mkSimulation {
  sim_Vault : UUID;
  WouldHarvest : bool;
  sim_Accrued : D;
  EstimatedGasCost : D;
  sim_Threshold : D;
  sim_NetYield : D;
  sim_Reason : Reason;
  Congested : bool;
}.

(** A decision after the frequency gate. *)
Definition gate_due (due : bool) (d : GatingDecision) : GatingDecision :=
  if due then d else mkDecision false (Threshold d) (NetGain d) ReasonNotDue.

Definition SimulateHarvest (c : Config) (got : result VaultErr VaultYield) (rd : Readings)
    (congested : result unit bool) : result HarvestErr SimulationResult :=
  match got with
  | Err e => Err (ErrVault e)
  | Ok v =>
      match rd_fee rd with
      | Err _ => Err ErrGasFee
      | Ok fee =>
          match congested with
          | Err _ => Err ErrCongestion
          | Ok busy =>
              let d := gate_due (DueForHarvest (rd_due rd) (y_frequency v) (y_harvested v)) (decide_for c v fee) in
              Ok (mkSimulation (y_vault v) (Harvest d && negb busy) (y_accrued v) fee (Threshold d) (NetGain d)
                    (Why d) busy)
          end
      end
  end.

(** ** Status (status.go) *)

Record HarvestStatus := mkHarvestStatus {
  st_Vault : UUID;
  PendingYield : D;
  HarvestThreshold : D;
  Harvestable : bool;
  EstimatedNextHarvest : option Time;
}.

(** [rd_key] is the second reading of the clock; [None] is a division by zero. *)
Definition statusFor (c : Config) (v : VaultYield) (rd : Readings) : option (result HarvestErr HarvestStatus) :=
  match rd_fee rd with
  | Err _ => Some (Err ErrGasFee)
  | Ok fee =>
      let d := gate_due (DueForHarvest (rd_due rd) (y_frequency v) (y_harvested v)) (decide_for c v fee) in
      next ← (if Harvest d then Some None else EstimateNextHarvest (y_accrued v) (Threshold d) (y_rate v));
      Some (Ok (mkHarvestStatus (y_vault v) (y_accrued v) (Threshold d) (Harvest d)
                  (timeAdd (rd_key rd) <$> next)))
  end.

Definition VaultStatus_ (c : Config) (got : result VaultErr VaultYield) (rd : Readings)
    : option (result HarvestErr HarvestStatus) :=
  match got with Err e => Some (Err (ErrVault e)) | Ok v => statusFor c v rd end.

Definition VaultStatusForUser (c : Config) (got : result VaultErr VaultYield) (user : UUID) (rd : Readings)
    : option (result HarvestErr HarvestStatus) :=
  match got with
  | Err e => Some (Err (ErrVault e))
  | Ok v => if negb (y_user v =? user) then Some (Err ErrForbidden) else statusFor c v rd
  end.

(** ** Gas (gas.go) *)

Record StaticGasOracle := mkOracle { o_fee : D; o_congested : bool }.

Definition HarvestFee (o : StaticGasOracle) (currency : string) : result unit D := Ok (o_fee o).
Definition OracleCongested (o : StaticGasOracle) : result unit bool := Ok (o_congested o).
Definition SetCongested (v : bool) (o : StaticGasOracle) : StaticGasOracle := mkOracle (o_fee o) v.

(** ** Execution (handler.go, adapters.go) *)

Inductive ExecErr := ErrOwnerLookup | ErrNoWallet | ErrHarvest (e : VaultErr).

Record HarvestOutcome := mkOutcome { out_net : D; out_hash : string }.

Section Execution.
Context `{PayloadJSON}.
Context (uuidNew : nat → UUID) (dbnow : Time) (userExists : UUID → bool).
Context (sv : VaultService (D:=D)) (env : Env) (users : UUID → result unit (option string)).
Context (showErr : ExecErr → string) (showPanic : string).

Definition owner_wallet (p : HarvestJobPayload) : result ExecErr string :=
  if decide (p_wallet p = "") then
    match users (p_user p) with
    | Err _ => Err ErrOwnerLookup
    | Ok None => Err ErrNoWallet
    | Ok (Some w) => if decide (w = ""%string) then Err ErrNoWallet else Ok w
    end
  else Ok (p_wallet p).

(** [ServiceExecutor.Harvest]; [None] is a panic of the service. *)
Definition ExecuteHarvest (p : HarvestJobPayload) (w : World (D:=D))
    : option (result ExecErr HarvestOutcome) * World (D:=D) :=
  match owner_wallet p with
  | Err e => (Some (Err e), w)
  | Ok wallet =>
      match svcHarvestVault uuidNew dbnow userExists sv env
              (mkHarvestInput (p_vault p) (p_user p) wallet (Some (p_compound p))) w with
      | (Done (Ok r), w) => (Some (Ok (mkOutcome (NetYield r) (HarvestHash r))), w)
      | (Done (Err e), w) => (Some (Err (ErrHarvest e)), w)
      | (Panics, w) => (None, w)
      end
  end.

Definition Handle (payload : string) (w : World (D:=D)) : JobQueue.handled * World (D:=D) :=
  match unmarshal payload with
  | None => (JobQueue.Failed true "json", w)
  | Some p =>
      match ExecuteHarvest p w with
      | (None, w) => (JobQueue.Panicked showPanic, w)
      | (Some (Err e), w) => (JobQueue.Failed false (showErr e), w)
      | (Some (Ok _), w) => (JobQueue.Returned, w)
      end
  end.
End Execution.
End Harvest.
