(* ===== verification/HarvestRuns.v ===== *)
(** What the harvest engine of [Harvest] submits, over any queue of the
    interface [JobClient], and what executing a submitted job does to the vault:
    the composition of the engine, the job table and the vault service. *)

From stdpp Require Import sorting.
From Stdlib Require Import Lqa Qminmax.
From S2P Require Import Prelude Sql GoStrings Decimal Vault.
From S2P Require Import Ledger.
From S2P Require Import VaultStore.
From S2P Require Import Indexer.
From S2P Require Import VaultBooks.
From S2P Require Import MoneyPath.
From S2P Require Import VaultService.
From S2P Require Import VaultRules.
From S2P Require Import VaultCalls.
From S2P Require JobQueue Outbox.
From S2P Require Import JobClients.
From S2P Require Import Harvest.
Open Scope Z_scope.
Open Scope go_scope.

(** ** The gate *)

Section Gate.
Context {D : Type} `{!Decimal D} `{!DecimalLaws D}.

Lemma dval_zero : (dval (d_zero : D) == 0)%Q.
Proof. unfold d_zero. by rewrite dval_of_Z. Qed.

Lemma floorZero_val (d : D) : (dval (floorZero d) == Qmax (dval d) 0)%Q.
Proof.
  unfold floorZero. destruct (d_lt d d_zero) eqn:E.
  - apply d_lt_spec in E. rewrite dval_zero in E. rewrite dval_zero, Q.max_r; [done|]. by apply Qlt_le_weak.
  - apply not_true_iff_false in E. rewrite d_lt_spec, dval_zero in E. apply Qnot_lt_le in E. by rewrite Q.max_l.
Qed.

(** What a harvest must yield more than. *)
Definition hurdle (fee margin : D) : Q := (Qmax (dval fee) 0 + Qmax (dval margin) 0)%Q.

Lemma hurdle_nonneg fee margin : (0 <= hurdle fee margin)%Q.
Proof.
  unfold hurdle. pose proof (Q.le_max_r (dval fee) 0). pose proof (Q.le_max_r (dval margin) 0). lra.
Qed.

Lemma Evaluate_spec (i : GatingInput (D:=D)) :
  (Harvest (Evaluate i) = true ↔ (hurdle (GasFee i) (Margin i) < dval (AccruedYield i))%Q)
  ∧ (dval (Threshold (Evaluate i)) == hurdle (GasFee i) (Margin i))%Q
  ∧ (dval (NetGain (Evaluate i)) == dval (AccruedYield i) - hurdle (GasFee i) (Margin i))%Q
  ∧ (Harvest (Evaluate i) = true ↔ Why (Evaluate i) = ReasonHarvest)
  ∧ ((dval (AccruedYield i) <= 0)%Q ↔ Why (Evaluate i) = ReasonNoYield).
Proof.
  unfold Evaluate. set (th := d_add _ _).
  assert (Hth : (dval th == hurdle (GasFee i) (Margin i))%Q) by (unfold th; by rewrite dval_add, !floorZero_val).
  pose proof (hurdle_nonneg (GasFee i) (Margin i)) as H0.
  destruct (d_le (AccruedYield i) d_zero) eqn:E1; [|destruct (d_lt th (AccruedYield i)) eqn:E2].
  - apply d_le_spec in E1. rewrite dval_zero in E1. simpl. rewrite dval_sub, Hth. split_and!; try done.
    split; [done|]. intros. lra.
  - apply not_true_iff_false in E1. rewrite d_le_spec, dval_zero in E1. apply d_lt_spec in E2. rewrite Hth in E2.
    simpl. rewrite dval_sub, Hth. by split_and!.
  - apply not_true_iff_false in E1. rewrite d_le_spec, dval_zero in E1.
    apply not_true_iff_false in E2. rewrite d_lt_spec, Hth in E2. simpl. rewrite dval_sub, Hth. by split_and!.
Qed.

(** The economic gate opens exactly when the accrued yield exceeds the gas
    fee plus the margin, both floored at zero, so that a negative estimate never
    opens it; the threshold, the net gain and the reason it reports are those of
    the decision. *)
Theorem harvest_gate_opens_above_costs (accrued fee margin : D) :
  let d := Evaluate (mkGating accrued fee margin) in
  (Harvest d = true ↔ (Qmax (dval fee) 0 + Qmax (dval margin) 0 < dval accrued)%Q)
  ∧ (dval (Threshold d) == Qmax (dval fee) 0 + Qmax (dval margin) 0)%Q
  ∧ (dval (NetGain d) == dval accrued - dval (Threshold d))%Q
  ∧ (Why d = ReasonHarvest ↔ Harvest d = true)
  ∧ (Why d = ReasonNoYield ↔ (dval accrued <= 0)%Q).
Proof.
  intros d. destruct (Evaluate_spec (mkGating accrued fee margin)) as (H1 & H2 & H3 & H4 & H5).
  fold d in H1, H2, H3, H4, H5. simpl in *. split_and!; try done. by rewrite H2.
Qed.

(** The view of the engine and the service's own harvestable yield. *)
Lemma accrued_harvestable (m : Model (D:=D)) : accruedYield m = harvestableYield m.
Proof. done. Qed.

Lemma ListHarvestable_spec up (s : Store) vs s' :
  ListHarvestable (D:=D) up s = (Ok vs, s') →
  s' = s ∧ ∀ v, v ∈ vs → ∃ row, vaults s !! y_vault v = Some row ∧ live row = true
    ∧ v_status row = StatusActive ∧ v = toVaultYield (scanVault (y_vault v) row)
    ∧ 0 < gross_units row.
Proof.
  unfold ListHarvestable, ListActive, mbind, Tx_bind, readTx. destruct up; simpl; [|done]. intros [= <- <-].
  split; [done|]. intros v Hv. apply list_elem_of_In, filter_In in Hv as [Hv Hpos]. apply list_elem_of_In in Hv.
  apply list_elem_of_fmap in Hv as (m & -> & Hm). apply list_elem_of_fmap in Hm as ([id row] & -> & Hr).
  rewrite merge_sort_Permutation in Hr. apply filtered_In in Hr as [Hr Ha]. unfold active in Ha. go_bool. simpl in *.
  exists row. split_and!; try done.
  rewrite accrued_harvestable, (positive_col _ _ (gross_col id row)) in Hpos. by go_bool.
Qed.
End Gate.

(** ** What the engine submits *)

Section Engine.
Context {D : Type} `{!Decimal D} `{!DecimalLaws D}.
Context (uuidString : UUID → string).
Context `{PayloadJSONLaws} {Q : Type} `{JobClient Q}.
Implicit Types (c : Config (D:=D)) (v : VaultYield (D:=D)) (rd : Readings (D:=D)) (q : Q).

Definition harvest_now c rd v : bool :=
  DueForHarvest (rd_due rd) (y_frequency v) (y_harvested v) &&
  match rd_fee rd with Ok fee => Harvest (decide_for c v fee) | Err _ => false end.

(** The job of a vault that passes both gates. *)
Record harvest_order c rd v (i : JobQueue.EnqueueInput) : Prop := {
  ho_now : harvest_now c rd v = true;
  ho_payload : marshal (mkPayload (y_vault v) (y_user v) (y_wallet v) false) = Some (JobQueue.in_Payload i);
  ho_input : i = submission uuidString c v (JobQueue.in_Payload i) (rd_key rd);
}.

Lemma evaluate_steps c rd v q r q' :
  client_ok q → evaluateAndEnqueue uuidString c rd v q = (r, q') →
  client_ok q' ∧ rtc (jstep (harvest_order c rd v)) (jobs q) (jobs q')
  ∧ (r = Ok true → ∃ i job, harvest_order c rd v i ∧ Outbox.enqueue i q = (Ok job, q'))
  ∧ (r = Ok false → q' = q ∧ harvest_now c rd v = (false : bool)).
Proof.
  intros Hq. unfold evaluateAndEnqueue.
  match goal with |- _ → ?G => assert (Hno : ∀ e : HarvestErr, (Err e, q) = (r, q') → G) by (by intros ? [= <- <-]) end.
  destruct (DueForHarvest _ _ _) eqn:Ed; simpl.
  2:{ intros [= <- <-]. split_and!; try done. intros _. split; [done|]. unfold harvest_now. by rewrite Ed. }
  destruct (rd_fee rd) as [fee|] eqn:Ef; [|apply Hno].
  destruct (Harvest _) eqn:Eh; simpl.
  2:{ intros [= <- <-]. split_and!; try done. intros _. split; [done|]. unfold harvest_now. by rewrite Ed, Ef, Eh. }
  destruct (marshal _) as [payload|] eqn:Em; [|apply Hno].
  assert (Ho : harvest_order c rd v (submission uuidString c v payload (rd_key rd))).
  { split; [|done|done]. unfold harvest_now. by rewrite Ed, Ef. }
  destruct (Outbox.enqueue _ q) as [[job|e] q1] eqn:Eq; intros [= <- <-];
    pose proof Eq as Es; apply client_step in Es as [Hq' Hs]; try done; split_and!; try done.
  - eapply jsteps_mono; [|done]. by intros ? <-.
  - intros _. by eexists _, _.
  - eapply jsteps_mono; [|done]. by intros ? <-.
Qed.

(** The orders of a pass over [vs]. *)
Definition pass_order c (rds : UUID → Readings (D:=D)) (vs : list (VaultYield (D:=D))) (i : JobQueue.EnqueueInput) : Prop :=
  ∃ v, v ∈ vs ∧ harvest_order c (rds (y_vault v)) v i.

Lemma evaluateAll_steps c rds vs q :
  client_ok q →
  client_ok (evaluateAll uuidString c rds vs q).2
  ∧ rtc (jstep (pass_order c rds vs)) (jobs q) (jobs (evaluateAll uuidString c rds vs q).2).
Proof.
  revert q. induction vs as [|v vs IH]; intros q Hq; simpl; [done|].
  destruct (evaluateAndEnqueue _ _ _ _ _) as [r q1] eqn:E. apply evaluate_steps in E as (Hq1 & Hs & _); [|done].
  specialize (IH q1 Hq1). destruct (evaluateAll _ _ _ _ q1) as [[n m] q2]. simpl in IH. destruct IH as [Hq2 Hs2].
  assert (rtc (jstep (pass_order c rds (v :: vs))) (jobs q) (jobs q2)) as Hall.
  { etrans; [eapply jsteps_mono; [|exact Hs]|eapply jsteps_mono; [|exact Hs2]].
    - intros i Hi. exists v. split; [by left|done].
    - intros i (v' & Hin & Hi). exists v'. split; [by right|done]. }
  by destruct r as [[]|].
Qed.

Lemma tick_steps c congested listed rds q :
  client_ok q →
  client_ok (tick uuidString c congested listed rds q)
  ∧ rtc (jstep (λ i, congested = Ok false ∧ ∃ vs, listed = Ok vs ∧ pass_order c rds vs i))
      (jobs q) (jobs (tick uuidString c congested listed rds q)).
Proof.
  intros Hq. unfold tick. destruct congested as [[]|]; [done| |done]. destruct listed as [vs|]; [|done].
  destruct (evaluateAll_steps c rds vs q Hq) as [? Hs]. split; [done|].
  eapply jsteps_mono; [|done]. eauto.
Qed.

Lemma order_in_harvest c rd v i :
  harvest_order c rd v i →
  JobQueue.in_Type i = jobType c
  ∧ unmarshal (payload_of i) = Some (mkPayload (y_vault v) (y_user v) (y_wallet v) false)
  ∧ JobQueue.nullText (JobQueue.in_IdempotencyKey i) = Some (idempotencyKey uuidString c (rd_key rd) (y_vault v)).
Proof.
  intros [_ Hp Hi]. apply unmarshal_marshal in Hp. split; [by rewrite Hi|]. split.
  - unfold payload_of. case_decide as E; [|done]. by rewrite E, unmarshal_empty in Hp.
  - rewrite Hi. simpl. unfold JobQueue.nullText. case_decide as E; [|done]. exfalso.
    unfold idempotencyKey, windowKey in E. by destruct (uuidString (y_vault v)).
Qed.

(** A pass of the engine adds to the queue only jobs of active, live vaults
    of the table it listed, whose harvestable yield at that moment exceeded the
    fee read for them plus the margin, and whose configured interval since the
    last harvest had elapsed; a congested or failing oracle adds none.  Each job
    names its vault and owner and carries the key of its window. *)
Theorem harvest_jobs_gated c congested up (s : Store) rds q id job :
  client_ok q →
  jobs (tick uuidString c congested (ListHarvestable up s).1 rds q) !! id = Some job →
  jobs q !! id = None →
  congested = Ok false ∧ JobQueue.r_type job = jobType c
  ∧ ∃ vault row fee,
      vaults s !! vault = Some row ∧ live row = true ∧ v_status row = StatusActive
      ∧ unmarshal (JobQueue.r_payload job) = Some (mkPayload vault (v_user row) "" false)
      ∧ JobQueue.r_idempotency_key job = Some (idempotencyKey uuidString c (rd_key (rds vault)) vault)
      ∧ rd_fee (rds vault) = Ok fee
      ∧ (hurdle fee (cfg_Margin c) < col (gross_units row))%Q
      ∧ ∀ t, v_harvested row = Some t → FrequencyDuration (v_frequency row) ≤ timeSub (rd_due (rds vault)) t.
Proof.
  intros Hq Hjob Hnew. destruct (tick_steps c congested (ListHarvestable up s).1 rds q Hq) as [_ Hs].
  destruct (jsteps_new _ _ _ _ _ Hs Hnew Hjob) as (i & (-> & vs & Hl & v & Hv & Hi) & E). split; [done|].
  destruct (order_in_harvest _ _ _ _ Hi) as (Ht & Hp & Hk).
  unfold order_of, order_in in E. injection E as E1 E2 E3. split; [congruence|].
  destruct (ListHarvestable (D:=D) up s) as [r s'] eqn:El. simpl in Hl. subst r.
  apply ListHarvestable_spec in El as [_ El]. destruct (El v Hv) as (row & Hrow & Hlive & Hact & Ev & _).
  destruct Hi as [Hnow _ _]. unfold harvest_now in Hnow. apply andb_true_iff in Hnow as [Hdue Hfee].
  destruct (rd_fee (rds (y_vault v))) as [fee|] eqn:Ef; [|done].
  exists (y_vault v), row, fee. split_and!; try done; try congruence.
  - rewrite E2, Hp. by rewrite Ev at 1 2 3.
  - apply (proj1 (Evaluate_spec _)) in Hfee. simpl in Hfee. rewrite Ev in Hfee. simpl in Hfee.
    by rewrite accrued_harvestable, gross_col in Hfee.
  - intros t Hh. rewrite Ev in Hdue. simpl in Hdue. unfold DueForHarvest in Hdue. rewrite Hh in Hdue. by go_bool.
Qed.

(** *** Histories

    Engines of one configuration, other producers, and workers. *)
Definition produced c (i : JobQueue.EnqueueInput) : Prop :=
  JobQueue.in_Type i ≠ jobType c ∨ ∃ rd v, harvest_order c rd v i.

(** The order of a harvest job. *)
Definition keyed c (o : string * string * option string) : Prop :=
  o.1.1 = jobType c →
  ∃ p t, unmarshal o.1.2 = Some p ∧ p_compound p = false
    ∧ o.2 = Some (idempotencyKey uuidString c t (p_vault p)).

Lemma produced_keyed c i : produced c i → keyed c (order_in i).
Proof.
  intros [Hne|(rd & v & Hi)] Ht; [done|]. destruct (order_in_harvest _ _ _ _ Hi) as (_ & Hp & Hk).
  by eexists _, _.
Qed.

Lemma history_keyed c st : rtc (jstep (produced c)) ∅ st → all_orders (keyed c) st.
Proof. intros Hs. eapply jsteps_orders; [apply produced_keyed|done|]. by intros id r. Qed.

(** However ticks and triggers of any number of engines interleave with other
    producers and with workers, every harvest job in the table names one vault and
    the window it was submitted in, and two live harvest jobs of one vault and one
    window are the same job. *)
Theorem one_live_harvest_per_window c st id id' r r' :
  rtc (jstep (produced c)) ∅ st →
  st !! id = Some r → st !! id' = Some r' → JobQueue.live r = true → JobQueue.live r' = true →
  JobQueue.r_type r = jobType c → JobQueue.r_type r' = jobType c →
  ∃ p t p' t',
    unmarshal (JobQueue.r_payload r) = Some p ∧ unmarshal (JobQueue.r_payload r') = Some p'
    ∧ JobQueue.r_idempotency_key r = Some (idempotencyKey uuidString c t (p_vault p))
    ∧ JobQueue.r_idempotency_key r' = Some (idempotencyKey uuidString c t' (p_vault p'))
    ∧ (p_vault p = p_vault p' → Unix (Truncate t (window c)) = Unix (Truncate t' (window c)) → id = id').
Proof.
  intros Hs Hr Hr' Hl Hl' Ht Ht'.
  destruct (history_keyed _ _ Hs _ _ Hr Ht) as (p & t & Hp & _ & Hk).
  destruct (history_keyed _ _ Hs _ _ Hr' Ht') as (p' & t' & Hp' & _ & Hk').
  exists p, t, p', t'. split_and!; try done. intros Ev Et.
  eapply (JobQueue.ti_unique _ (queue_inv _ _ Hs)); [exact Hr|exact Hr'|done|done|congruence|exact Hk|].
  simpl in Hk'. rewrite Hk'. unfold idempotencyKey, windowKey. by rewrite Ev, Et.
Qed.

(** A vault for which the engine reports a submission has a live harvest job
    of its own in the table: the key of another vault never takes its place. *)
Theorem submitted_harvest_is_queued c rd v q q' :
  Inj (=) (=) uuidString → client_ok q → rtc (jstep (produced c)) ∅ (jobs q) →
  evaluateAndEnqueue uuidString c rd v q = (Ok true, q') →
  rtc (jstep (produced c)) ∅ (jobs q')
  ∧ ∃ id job p, jobs q' !! id = Some job ∧ JobQueue.live job = true ∧ JobQueue.r_type job = jobType c
      ∧ unmarshal (JobQueue.r_payload job) = Some p ∧ p_vault p = y_vault v.
Proof.
  intros Hinj Hq Hs E. apply evaluate_steps in E as (_ & Hst & Hjob & _); [|done].
  assert (Hs' : rtc (jstep (produced c)) ∅ (jobs q')).
  { etrans; [done|]. eapply jsteps_mono; [|done]. intros i Hi. right. eauto. }
  split; [done|]. destruct (Hjob eq_refl) as (i & job & Hi & Henq).
  apply client_accept in Henq as (r & Hr & Hl & Ht & Hk & _); [|done].
  destruct (order_in_harvest _ _ _ _ Hi) as (Eti & _ & Eki).
  destruct (history_keyed _ _ Hs' _ _ Hr) as (p & t & Hp & _ & Hkp); [simpl; congruence|].
  exists (JobQueue.ID job), r, p. split_and!; try done; [congruence|].
  simpl in Hkp. rewrite Hk, Eki in Hkp. injection Hkp as Hkp. apply windowKey_inj in Hkp as [E _].
  by apply (inj uuidString) in E.
Qed.

(** The previews tell what the engine does: a simulation answers "would
    harvest" exactly when a tick over the vault submits what an event-triggered
    harvest submits, and otherwise the tick leaves the queue alone; the status
    page differs only in not looking at the congestion. *)
Theorem simulation_predicts_tick c v rd busy sim q :
  SimulateHarvest c (Ok v) rd (Ok busy) = Ok sim →
  (WouldHarvest sim = true ↔ busy = false ∧ harvest_now c rd v = true)
  ∧ tick uuidString c (Ok busy) (Ok [v]) (λ _, rd) q
    = (if WouldHarvest sim then (TriggerVault uuidString c (Ok v) rd q).2 else q)
  ∧ ∀ st, statusFor c v rd = Some (Ok st) → WouldHarvest sim = Harvestable st && negb busy.
Proof.
  unfold SimulateHarvest, statusFor, TriggerVault. destruct (rd_fee rd) as [fee|] eqn:Ef; [|done]. intros [= <-]. simpl.
  set (due := DueForHarvest _ _ _). set (d := decide_for c v fee).
  assert (Hd : Harvest (gate_due due d) = harvest_now c rd v).
  { unfold harvest_now. fold due. rewrite Ef. fold d. by destruct due. }
  rewrite Hd. split_and!.
  - rewrite andb_true_iff, negb_true_iff. tauto.
  - destruct busy; rewrite ?andb_false_r; [done|]. rewrite andb_true_r. simpl.
    destruct (evaluateAndEnqueue uuidString c rd v q) as [r q'] eqn:E.
    assert (harvest_now c rd v = false → q' = q ∧ r = Ok false) as Hn.
    { unfold harvest_now, evaluateAndEnqueue in *. fold due in E |- *. rewrite Ef in E |- *. fold d in E |- *.
      destruct due; simpl in *; [|by injection E as <- <-]. intros Hh. rewrite Hh in E. by injection E as <- <-. }
    destruct (harvest_now c rd v); [by destruct r as [[]|]|]. by destruct Hn as [-> ->].
  - intros st Hst. apply bind_Some in Hst as (next & _ & Hst).
    assert (Harvestable st = harvest_now c rd v) as -> by (rewrite <-Hd; by injection Hst as <-). done.
Qed.
End Engine.

(** ** What a job does *)

Section Execution.
Context {D : Type} `{!Decimal D} `{!DecimalLaws D}.
Context (uuidNew : nat → UUID) (dbnow : Time) (userExists : UUID → bool).

(** At most one harvest is sent, with the given choice. *)
Definition sends (c : bool) {A} (m : Srv A) (w : World (D:=D)) : Prop :=
  calls (m w).2 = calls w ∨ ∃ k u, calls (m w).2 = calls w ++ [CallHarvest k u c].

Lemma sends_quiet {A} c (m : Srv A) w : quiet m → sends c m w.
Proof. intros Hm. left. apply Hm. Qed.

Lemma sends_after {A B} c (m : Srv A) (f : A → Srv B) w :
  quiet m → (∀ a w1, m w = (Done (Ok a), w1) → sends c (f a) w1) → sends c (m ≫= f) w.
Proof.
  intros Hm Hf. unfold sends, mbind, Srv_bind. destruct (Hm w) as [Hc _].
  destruct (m w) as [[[a|e]|] w1]; simpl in *; [|by left..]. rewrite <-Hc. by apply Hf.
Qed.

Lemma sends_then {A B} c (m : Srv A) (f : A → Srv B) w : sends c m w → (∀ a, quiet (f a)) → sends c (m ≫= f) w.
Proof.
  intros Hm Hf. unfold sends, mbind, Srv_bind in *.
  destruct (m w) as [[[a|e]|] w1]; simpl in *; [|done..]. destruct (Hf a w1) as [-> _]. done.
Qed.

Lemma q_choice sv i : quiet (compound_choice (D:=D) sv i).
Proof. unfold compound_choice. srv. Qed.

Lemma sends_submit sv i m c w : sends c (submit_harvest (D:=D) sv i m c) w.
Proof.
  unfold submit_harvest. destruct (depositInvoker sv) as [inv|]; [|by left].
  apply sends_after; [srv|]. intros [] w1 _. apply sends_then; [|intros; srv]. right. by eexists _, _.
Qed.

Lemma harvest_sends sv env i c w :
  hi_compound i = Some c → sends c (svcHarvestVault (D:=D) uuidNew dbnow userExists sv env i) w.
Proof.
  intros Hc. unfold svcHarvestVault. do 5 (apply sends_after; [srv|intros ? ? _]).
  apply sends_after; [apply q_choice|]. intros ch v1 Hch. rewrite (choice_given _ _ _ _ _ _ Hch Hc). clear Hch.
  case_match; [by left|]. apply sends_after; [srv|]. intros [fee net] v2 _.
  apply sends_then; [apply sends_submit|]. intros h. srv.
Qed.

(** What a harvest leaves in the tables. *)
Lemma RecordHarvest_row b d (i : HarvestRecordInput) s x s' :
  RecordHarvest (D:=D) uuidNew dbnow userExists b d i s = (x, s') →
  same s s' ∧ (∃ e, x = Err e) ∨ ∃ row row', vaults s !! hr_vault i = Some row
    ∧ vaults s' = <[hr_vault i := row']> (vaults s)
    ∧ harvested dbnow (hr_compounded i) (dval (hr_net i)) (dval (hr_fee i)) row = Ok row'.
Proof.
  unfold RecordHarvest. destruct (_ || _); [intros [= <- <-]; left; split; [done|eauto]|].
  intros [?|([] & Hm & _)]%inTx_spec; [by left|]. right.
  apply bind_Tx_Ok in Hm as ([] & s1 & (r & r' & (Hr & _) & _ & Hf & ->)%update_one_Ok & Hm).
  apply bind_Tx_Ok in Hm as (n & s2 & Hi & Hm). apply inLedger_Ok in Hm as (_ & -> & _).
  exists r, r'. split; [done|]. split; [|done].
  apply insert_row_spec in Hi as (t & _ & [(_ & -> & _)|(_ & _ & ->)]); done.
Qed.

Definition plain_effect (vault : UUID) (w w' : World (D:=D)) (row row' : VaultRow) (net : Z) : Prop :=
  vaults (tables w') = <[vault := row']> (vaults (tables w)) ∧ v_total row' = v_total row
  ∧ v_balance row' = v_balance row - net ∧ v_yield row' = 0 ∧ v_harvested row' = Some dbnow.

Lemma harvested_plain row row' g (net fee : D) :
  (dval fee == col (fee_units g))%Q → (dval net == col (g - fee_units g))%Q → 0 < g → v_yield row ≤ g →
  harvested dbnow false (dval net) (dval fee) row = Ok row' →
  v_total row' = v_total row ∧ v_balance row' = v_balance row - (g - fee_units g)
  ∧ v_yield row' = 0 ∧ v_harvested row' = Some dbnow.
Proof.
  intros Hfee Hnet Hg Hy Hh.
  assert (He : exact8 (dval net)) by (by exists (g - fee_units g)).
  destruct (harvested_Ok _ userExists _ _ _ _ _ He Hh) as (-> & -> & _). rewrite Hnet, units_col.
  split; [lia|]. split; [lia|].
  unfold harvested in Hh. apply bind_Ok in Hh as (t & _ & Hh). apply bind_Ok in Hh as (bl & _ & Hh).
  apply bind_Ok in Hh as (y & Ey & Hh). apply bind_Ok in Hh as (f & _ & [= <-]). simpl. split; [|done].
  apply numeric_Ok in Ey as ->. unfold greatest0.
  assert (E : (col (v_yield row) - (dval net + dval fee) <= 0)%Q).
  { rewrite Hnet, Hfee. unfold col, Qle, Qminus, Qplus, Qopp. cbn [Qnum Qden]. unfold unit8. lia. }
  apply Qle_bool_iff in E. rewrite E. by rewrite <-(units_col 0).
Qed.

Lemma gross_units_yield row : 0 < gross_units row → v_yield row ≤ gross_units row.
Proof. unfold gross_units. destruct (Z.ltb_spec 0 (v_yield row)); lia. Qed.

Lemma settle_harvest_run sv env goal gross x w o w' :
  settle_harvest (D:=D) uuidNew dbnow userExists sv env goal gross x w = (o, w') →
  ∃ y, RecordHarvest uuidNew dbnow userExists (e_begin env) (e_commit env) x (tables w) = (y, tables w')
    ∧ ∀ e, y = Err e → ∀ r, o ≠ Done (Ok r).
Proof.
  unfold settle_harvest.
  intros [([] & w2 & (y & s & Hr & [= <-] & ->)%inTables_run & Hk)
         |[(e & (y & s & Hr & [= <-] & ->)%inTables_run & ->)|((y & s & _ & ? & _)%inTables_run & _)]]%bind_Srv; [| |done].
  - exists (Ok tt). split; [|done]. match type of Hk with ?m ?w2 = _ => assert (Hl : (m w2).2 = w2) end.
    { match goal with |- (?m _).2 = _ => assert (Hlk : looks m) by srv end. apply Hlk. }
    rewrite Hk in Hl. simpl in Hl. by rewrite Hl.
  - by exists (Err e).
Qed.

Lemma harvest_tables sv env i w o w' :
  hi_compound i = Some false →
  svcHarvestVault (D:=D) uuidNew dbnow userExists sv env i w = (o, w') →
  same (tables w) (tables w') ∧ (∀ row r, vaults (tables w) !! hi_vault i = Some row → 0 < gross_units row → o ≠ Done (Ok r))
  ∨ ∃ row row', vaults (tables w) !! hi_vault i = Some row ∧ 0 < gross_units row
      ∧ plain_effect (hi_vault i) w w' row row' (gross_units row - fee_units (gross_units row)).
Proof.
  intros Hc. intros [(E & Hno)|(row & [Hrow _ _ _] & H)]%harvest_run.
  { left. rewrite E. split; [done|]. intros. apply Hno. }
  destruct H as [(c & Hg & -> & _)|(goal & gross & x & w1 & Hg & [Hv Hu _ Hfee Hnet _ Hch] & Ht & H)].
  { left. split; [done|]. intros row' r E. assert (row' = row) as -> by congruence. lia. }
  specialize (Hch _ Hc). apply settle_harvest_run in H as (y & Hr & Hno). rewrite Ht in Hr.
  apply RecordHarvest_row in Hr as [[Hsame [e ->]]|(row0 & row' & Hr1 & Hvs & Hh)].
  - left. split; [done|]. intros row1 r _ _. by eapply Hno.
  - right. rewrite Hv in Hr1, Hvs. assert (row0 = row) as -> by congruence. rewrite Hch in Hh.
    exists row, row'. split; [done|]. split; [done|]. split; [done|].
    by apply (harvested_plain _ _ _ _ _ Hfee Hnet Hg (gross_units_yield _ Hg)).
Qed.

Context `{PayloadJSONLaws}.
Context (sv : VaultService (D:=D)) (env : Env) (users : UUID → result unit (option string)).
Context (showErr : ExecErr → string) (showPanic : string).

#[local] Abbreviation handle := (Handle uuidNew dbnow userExists sv env users showErr showPanic).

Lemma Handle_run payload w h w' :
  handle payload w = (h, w') →
  w' = w ∧ h ≠ JobQueue.Returned
  ∨ ∃ p wallet o, unmarshal payload = Some p
      ∧ svcHarvestVault uuidNew dbnow userExists sv env
          (mkHarvestInput (p_vault p) (p_user p) wallet (Some (p_compound p))) w = (o, w')
      ∧ (h = JobQueue.Returned → ∃ r, o = Done (Ok r)).
Proof.
  unfold Handle, ExecuteHarvest. destruct (unmarshal payload) as [p|]; [|by intros [= <- <-]; left].
  destruct (owner_wallet users p) as [wallet|e]; [|by intros [= <- <-]; left].
  destruct (svcHarvestVault _ _ _ _ _ _ w) as [[[r|e]|] w1] eqn:E; intros [= <- <-]; right;
    eexists p, wallet, _; (split; [done|]); (split; [exact E|]); eauto; done.
Qed.

(** Executing a job of the engine, in whatever state the system is by then,
    asks the chain for at most one harvest and never for a compounding one, and
    pays the net yield out of the vault's balance: the owner's goal preference and
    the service's default have no say, since the engine submits every job with
    compound set to false and the service takes that as an explicit choice. *)
Theorem engine_harvests_never_compound (uuidString : UUID → string) (c : Config (D:=D)) st id job w h w' :
  rtc (jstep (produced uuidString c)) ∅ st → st !! id = Some job → JobQueue.r_type job = jobType c →
  handle (JobQueue.r_payload job) w = (h, w') →
  (calls w' = calls w ∨ ∃ k u, calls w' = calls w ++ [CallHarvest k u false])
  ∧ (same (tables w) (tables w')
     ∨ ∃ vault row row', vaults (tables w) !! vault = Some row ∧ 0 < gross_units row
         ∧ plain_effect vault w w' row row' (gross_units row - fee_units (gross_units row))).
Proof.
  intros Hs Hj Ht Hh. destruct (history_keyed _ _ _ Hs _ _ Hj Ht) as (p & t & Hp & Hc & _). simpl in Hp.
  apply Handle_run in Hh as [[-> _]|(p' & wallet & o & Hp' & E & _)]; [split; by left|].
  assert (p' = p) as -> by congruence. rewrite Hc in E. split.
  - pose proof (harvest_sends sv env (mkHarvestInput (p_vault p) (p_user p) wallet (Some false)) false w eq_refl) as Hsend.
    unfold sends in Hsend. by rewrite E in Hsend.
  - apply harvest_tables in E as [[? _]|(row & row' & Hr & Hg & He)]; [by left|right|done].
    by exists (p_vault p), row, row'.
Qed.

(** What a plain harvest leaves to harvest: the yield still held over the
    principal, which contains the fee just taken, since only the net leaves the
    balance.  So a delivered-again job does not find nothing: with no explicit
    yield on record it harvests the fee.  The engine itself would not submit one,
    because the harvest is recorded and nothing is due for a day. *)
Theorem plain_harvest_leaves_fee payload p w w' row :
  unmarshal payload = Some p → p_compound p = false → handle payload w = (JobQueue.Returned, w') →
  vaults (tables w) !! p_vault p = Some row → 0 < gross_units row →
  ∃ row', vaults (tables w') !! p_vault p = Some row'
    ∧ gross_units row' = Z.max 0 (v_balance row - v_total row - (gross_units row - fee_units (gross_units row)))
    ∧ (v_yield row ≤ 0 → gross_units row' = fee_units (gross_units row))
    ∧ ∀ now f, now - dbnow < 24 * Hour → DueForHarvest now f (v_harvested row') = false.
Proof.
  intros Hp Hc Hh Hrow Hg. apply Handle_run in Hh as [[_ ?]|(p' & wallet & o & Hp' & E & Hok)]; [done|].
  assert (p' = p) as -> by congruence. rewrite Hc in E. destruct (Hok eq_refl) as [r ->].
  apply harvest_tables in E as [[_ Hno]|(row0 & row' & Hr & _ & (Hvs & Ht & Hb & Hy & Hhv))]; [by destruct (Hno row r)| |done].
  simpl in Hr. assert (row0 = row) as -> by congruence. exists row'.
  split; [by rewrite Hvs, lookup_insert_eq|].
  assert (Hgr : gross_units row' = Z.max 0 (v_balance row - v_total row - (gross_units row - fee_units (gross_units row)))).
  { unfold gross_units at 1. rewrite Hy, Ht, Hb. simpl. lia. }
  split; [done|]. split.
  - intros Hy0. rewrite Hgr. assert (gross_units row = v_balance row - v_total row) as ->.
    { unfold gross_units in Hg |- *. destruct (Z.ltb_spec 0 (v_yield row)); lia. }
    unfold gross_units in Hg. rewrite (proj2 (Z.ltb_ge _ _) Hy0) in Hg. unfold fee_units in *. go_mod.
  - intros now f Hnow. rewrite Hhv. simpl. apply Z.leb_gt. unfold FrequencyDuration, timeSub, sat64, min_i64, max_i64.
    assert (24 * Hour < 2 ^ 63 - 1) by done.
    case_decide; unfold Hour, Minute, Second, Millisecond, Microsecond, Nanosecond in *; lia.
Qed.
End Execution.
