(* ===== verification/HarvestEstimate.v ===== *)
(** The projection of the next harvest (internal/harvest/decision.go,
    EstimateNextHarvest): its bounds, and how near it comes to the moment the
    threshold is reached. *)

From Stdlib Require Import Lqa Qminmax.
From S2P Require Import Prelude Sql GoStrings Decimal Vault.
From S2P Require Import Harvest.
From S2P Require Import HarvestRuns.
Open Scope Z_scope.
Section Estimate.
Context {D : Type} `{!Decimal D} `{!DecimalLaws D}.

(** The error of the division behind a projection, in hours. *)
Definition div_error : Q := 1 # (2 * pow10 16).

Lemma estimate_hours (rem rate : Q) :
  (0 < rem)%Q → (0 < rate)%Q →
  let h := Qround_at 16 (rem / rate) in
  (0 <= h)%Q ∧ (rate * h <= rem + rate * div_error)%Q ∧ (rem <= rate * h + rate * div_error)%Q.
Proof.
  intros Hrem Hrate h. set (x := (rem / rate)%Q) in *.
  assert (Hx : (rate * x == rem)%Q) by (unfold x; field; lra).
  assert (Hx0 : (0 <= x)%Q) by (unfold x; apply Qle_shift_div_l; [done|]; lra).
  destruct (Qround_at_error 16 x ltac:(lia) Hx0) as [H1 H2]. fold h div_error in H1, H2.
  split; [|split].
  - unfold h, Qround_at. unfold Qle. cbn [Qnum Qden]. rewrite Z.mul_0_l, Z.mul_1_r.
    assert (Hp : (0 <= x * inject_Z (Zpos (pow10 16)))%Q) by (apply Qmult_le_0_compat; [done|done]).
    destruct (Qround_haz_error _ Hp) as [_ H4]. set (z := Qround_haz _) in *. clearbody z.
    set (y := (x * _)%Q) in *. clearbody y. assert (H5 : (-1 < inject_Z z)%Q) by lra.
    unfold Qlt, inject_Z in H5. cbn [Qnum Qden] in H5. simpl in H5. lia.
  - rewrite <-Hx. rewrite <-Qmult_plus_distr_r. apply Qmult_le_l; done.
  - rewrite <-Hx, <-Qmult_plus_distr_r. apply Qmult_le_l; done.
Qed.

Lemma estimate_window (a t r h : Q) s :
  (0 < r)%Q → (r * h <= t - a + r * div_error)%Q → (t - a <= r * h + r * div_error)%Q →
  (inject_Z s <= h * 3600)%Q → (h * 3600 < inject_Z s + 1)%Q →
  (a + r * (s # 3600) <= t + r * div_error)%Q ∧ (t < a + r * (s + 1 # 3600) + r * div_error)%Q.
Proof.
  intros Hr H2 H3 H4 H5.
  assert (E1 : ((s # 3600) == inject_Z s * (1 # 3600))%Q).
  { unfold Qeq, Qmult, inject_Z. cbn [Qnum Qden]. lia. }
  assert (E2 : ((s + 1 # 3600) == (inject_Z s + 1) * (1 # 3600))%Q).
  { unfold Qeq, Qplus, Qmult, inject_Z. cbn [Qnum Qden]. lia. }
  rewrite E1, E2. set (e := div_error) in *. clearbody e. set (z := inject_Z s) in *. clearbody z.
  assert (L1 : (r * (z * (1 # 3600)) <= r * h)%Q) by (apply Qmult_le_l; [done|]; lra).
  assert (L2 : (r * h < r * ((z + 1) * (1 # 3600)))%Q) by (apply Qmult_lt_l; [done|]; lra).
  split; lra.
Qed.

(** The projection of the next harvest never panics; it says nothing when the
    yield does not grow or the threshold is more than a year away; otherwise it is
    between nothing and a year, without overflow, is zero exactly when the threshold
    is already reached, and is the whole second before the accrued yield reaches the
    threshold, up to the sixteen places of the division. *)
Theorem harvest_estimate_is_sound (accrued threshold rate : D) :
  ∃ e, EstimateNextHarvest accrued threshold rate = Some e
  ∧ ((dval rate <= 0)%Q → e = None)
  ∧ ∀ d, e = Some d →
      (0 < dval rate)%Q ∧ 0 ≤ d ≤ 365 * 24 * Hour
      ∧ ((dval threshold <= dval accrued)%Q → d = 0)
      ∧ ((dval accrued < dval threshold)%Q → ∃ s, d = s * Second
          ∧ (dval accrued + dval rate * (s # 3600) <= dval threshold + dval rate * div_error)%Q
          ∧ (dval threshold < dval accrued + dval rate * (s + 1 # 3600) + dval rate * div_error)%Q).
Proof.
  unfold EstimateNextHarvest. destruct (d_le rate d_zero) eqn:E0.
  { apply d_le_spec in E0. rewrite dval_zero in E0. by eexists. }
  apply not_true_iff_false in E0. rewrite d_le_spec, dval_zero in E0. apply Qnot_le_lt in E0.
  assert (Hno : ¬ (dval rate <= 0)%Q) by (by apply Qlt_not_le).
  destruct (d_le (d_sub threshold accrued) d_zero) eqn:E1.
  { apply d_le_spec in E1. rewrite dval_zero, dval_sub in E1. exists (Some 0). split; [done|]. split; [done|].
    intros d [= <-]. split; [done|]. split; [done|]. split; [done|]. intros Hlt. exfalso. lra. }
  apply not_true_iff_false in E1. rewrite d_le_spec, dval_zero, dval_sub in E1. apply Qnot_le_lt in E1.
  destruct (dval_div (d_sub threshold accrued) rate) as (h & Eh & Hh); [intros Hz; lra|]. rewrite Eh. simpl.
  rewrite dval_sub in Hh. destruct (estimate_hours _ _ E1 E0) as (H1 & H2 & H3). rewrite <-Hh in H1, H2, H3.
  set (secs := d_mul h _). assert (Hs : (dval secs == dval h * 3600)%Q) by (unfold secs; rewrite dval_mul, dval_of_Z; done).
  destruct (d_lt _ secs) eqn:E2; [by eexists|].
  apply not_true_iff_false in E2. rewrite d_lt_spec, dval_of_Z in E2. apply Qnot_lt_le in E2.
  change (inject_Z ((365 * 24 * Hour) `quot` Second)) with (31536000 # 1)%Q in E2.
  assert (Hs0 : (0 <= dval secs)%Q) by lra. destruct (Qtrunc_floor _ Hs0) as (F1 & F2 & F3).
  set (s := Qtrunc (dval secs)) in *.
  assert (Hmax : s ≤ 31536000).
  { assert (H5 : (inject_Z s <= 31536000 # 1)%Q) by lra. unfold Qle, inject_Z in H5. cbn [Qnum Qden] in H5. lia. }
  assert (Hi : d_intpart secs = s).
  { apply d_intpart_val. fold s. unfold in_i64, min_i64, max_i64. lia. }
  rewrite Hi, i64_id by (unfold in_i64, min_i64, max_i64, Second, Millisecond, Microsecond, Nanosecond; lia).
  eexists. split; [done|]. split; [done|]. intros d [= <-]. split; [done|].
  split; [unfold Hour, Minute, Second, Millisecond, Microsecond, Nanosecond; lia|].
  split; [intros Hle; exfalso; lra|]. intros _. exists s. split; [done|].
  apply (estimate_window (dval accrued) (dval threshold) (dval rate) (dval h) s); try done; lra.
Qed.
End Estimate.

(** Accrued 1, threshold 2, a rate of a half per hour: two hours. *)
Lemma harvest_estimate_is_sound_witness :
  EstimateNextHarvest 1%Q 2%Q (1 # 2)%Q = Some (Some (7200 * Second))
  ∧ ∃ s, 7200 * Second = s * Second ∧ (1 + (1 # 2) * (s # 3600) <= 2 + (1 # 2) * div_error)%Q.
Proof.
  assert (He : EstimateNextHarvest 1%Q 2%Q (1 # 2)%Q = Some (Some (7200 * Second))) by (vm_compute; reflexivity).
  split; [exact He|].
  destruct (harvest_estimate_is_sound 1%Q 2%Q (1 # 2)%Q) as (e & E & _ & H).
  assert (e = Some (7200 * Second)) as -> by (rewrite He in E; injection E; done).
  destruct (H _ eq_refl) as (_ & _ & _ & H2).
  destruct H2 as (s & Hs & H3 & _); [vm_compute; reflexivity|]. exists s. split; [exact Hs|exact H3].
Defined.
