(* ===== verification/HarvestScenes.v ===== *)
(** The harvest engine on concrete vaults: where the theorems of [HarvestRuns]
    apply, and two things that happen to a harvest on its way from the engine to
    the vault. *)

From S2P Require Import Prelude Sql GoStrings Decimal Vault.
From S2P Require AuditLog.
From S2P Require Import Ledger.
From S2P Require Import VaultStore.
From S2P Require Import Indexer.
From S2P Require Import VaultBooks.
From S2P Require Import VaultPool.
From S2P Require Import MoneyPath.
From S2P Require Import VaultService.
From S2P Require Import VaultRules.
From S2P Require Import VaultCalls.
From S2P Require Import VaultScenes.
From S2P Require JobQueue Outbox.
From S2P Require Import JobClients.
From S2P Require Import Harvest.
From Stdlib Require Import Ascii.
From S2P Require Import HarvestRuns.
Open Scope Z_scope.
Open Scope go_scope.

(** ** An engine and its queue *)

(** A payload in binary, in braces. *)
#[local] Instance scene_JSON : PayloadJSON := {
  marshal p := Some (String "{" (AuditLog.to_bits (encode (p_vault p, p_user p, p_wallet p, p_compound p))));
  unmarshal s :=
    match s with
    | String "{" s =>
        '(v, u, w, c) ← AuditLog.of_bits s ≫= decode (A := Z * Z * string * bool);
        Some (mkPayload v u w c)
    | _ => None
    end;
}.

#[local] Instance scene_JSONLaws : PayloadJSONLaws.
Proof.
  split; [|done]. intros [v u w c] s [= <-]. simpl. rewrite AuditLog.of_to_bits. simpl. by rewrite decode_encode.
Qed.

Definition scene_cfg : Config (D:=Q) := mkConfig true Hour (1 # 2)%Q 0 "" 3.
Definition scene_rd : Readings (D:=Q) := mkReadings (50 * Hour) (Ok (1 # 10)%Q) (50 * Hour).

(** Calls that draw the ids from 100 on. *)
Definition scene_call (id : UUID) : Call := mkCall id (50 * Hour) (50 * Hour) true (λ st, st).
Definition scene_queue : Session := mkSession [scene_call 100; scene_call 101] ∅.

Lemma scene_queue_ok : client_ok scene_queue.
Proof.
  simpl. unfold session_ok. simpl. split_and!; try done. rewrite lookup_empty. by intros [].
Qed.

(** The queue after a tick over the vault [grown]. *)
Definition scene_ticked : Session :=
  tick itoa scene_cfg (Ok false) (ListHarvestable true (tables (scene grown))).1 (λ _, scene_rd) scene_queue.

Definition scene_payload : string := match marshal (mkPayload 1 7 "" false) with Some s => s | None => "" end.

Lemma scene_job : ∃ job, jobs scene_ticked !! 100 = Some job ∧ JobQueue.r_payload job = scene_payload
  ∧ JobQueue.r_type job = jobType scene_cfg ∧ JobQueue.live job = true.
Proof.
  destruct (jobs scene_ticked !! 100) as [job|] eqn:E.
  - exists job. split; [done|]. revert E. vm_compute. by intros [= <-].
  - exfalso. vm_compute in E. discriminate E.
Qed.

Lemma scene_history : rtc (jstep (produced (D:=Q) itoa scene_cfg)) ∅ (jobs scene_ticked).
Proof.
  destruct (tick_steps itoa scene_cfg (Ok false) (ListHarvestable true (tables (scene grown))).1 (λ _, scene_rd)
    scene_queue scene_queue_ok) as [_ Hs].
  eapply jsteps_mono; [|exact Hs]. intros i (_ & vs & _ & v & _ & Hi). right. by eexists _, v.
Qed.

(** ** Where the theorems apply *)

Lemma harvest_jobs_gated_witness :
  ∃ job, jobs scene_ticked !! 100 = Some job ∧ JobQueue.r_type job = "harvest"%string
    ∧ ∃ vault row fee, vaults (tables (scene grown)) !! vault = Some row
        ∧ unmarshal (JobQueue.r_payload job) = Some (mkPayload vault (v_user row) "" false)
        ∧ (hurdle (D:=Q) fee (1 # 2)%Q < col (gross_units row))%Q.
Proof.
  destruct scene_job as (job & Hj & _). exists job. split; [exact Hj|].
  destruct (harvest_jobs_gated itoa scene_cfg (Ok false) true (tables (scene grown)) (λ _, scene_rd) scene_queue 100 job
    scene_queue_ok Hj eq_refl) as (_ & Ht & vault & row & fee & Hr & _ & _ & Hp & _ & _ & Hh & _).
  split; [exact Ht|]. exact (ex_intro _ vault (ex_intro _ row (ex_intro _ fee (conj Hr (conj Hp Hh))))).
Defined.

Lemma one_live_harvest_per_window_witness :
  ∃ job, jobs scene_ticked !! 100 = Some job
    ∧ ∃ p t, unmarshal (JobQueue.r_payload job) = Some p
        ∧ JobQueue.r_idempotency_key job = Some (idempotencyKey itoa scene_cfg t (p_vault p)).
Proof.
  destruct scene_job as (job & Hj & _ & Ht & Hl). exists job. split; [exact Hj|].
  destruct (one_live_harvest_per_window itoa scene_cfg _ 100 100 job job scene_history Hj Hj Hl Hl Ht Ht)
    as (p & t & _ & _ & Hp & _ & Hk & _).
  exact (ex_intro _ p (ex_intro _ t (conj Hp Hk))).
Defined.

Definition scene_view : VaultYield (D:=Q) := toVaultYield (scanVault 1 grown).

(** A second submission in the same window: the job is there already. *)
Lemma submitted_harvest_is_queued_witness :
  (evaluateAndEnqueue itoa scene_cfg scene_rd scene_view scene_ticked).1 = Ok true
  ∧ ∃ id job p, jobs (evaluateAndEnqueue itoa scene_cfg scene_rd scene_view scene_ticked).2 !! id = Some job
      ∧ unmarshal (JobQueue.r_payload job) = Some p ∧ p_vault p = 1.
Proof.
  destruct (evaluateAndEnqueue itoa scene_cfg scene_rd scene_view scene_ticked) as [r q'] eqn:E.
  assert (Hr : r = Ok true).
  { change ((r, q').1 = Ok true). rewrite <-E. vm_compute. reflexivity. }
  split; [exact Hr|]. subst r.
  destruct (submitted_harvest_is_queued itoa scene_cfg scene_rd scene_view scene_ticked q' pretty.pretty_Z_inj
    (proj1 (tick_steps itoa scene_cfg _ _ _ _ scene_queue_ok)) scene_history E)
    as (_ & id & job & p & Hj & _ & _ & Hp & Hv).
  exact (ex_intro _ id (ex_intro _ job (ex_intro _ p (conj Hj (conj Hp Hv))))).
Defined.

Lemma simulation_predicts_tick_witness :
  ∃ sim, SimulateHarvest scene_cfg (Ok scene_view) scene_rd (Ok true) = Ok sim ∧ WouldHarvest sim = false
    ∧ tick itoa scene_cfg (Ok true) (Ok [scene_view]) (λ _, scene_rd) scene_queue = scene_queue.
Proof.
  destruct (SimulateHarvest scene_cfg (Ok scene_view) scene_rd (Ok true)) as [sim|] eqn:E; [|discriminate E].
  exists sim. split; [reflexivity|].
  assert (Hw : WouldHarvest sim = false) by (revert E; vm_compute; intros [= <-]; reflexivity). split; [exact Hw|].
  destruct (simulation_predicts_tick itoa scene_cfg scene_view scene_rd true sim scene_queue E) as (_ & H & _).
  rewrite H, Hw. reflexivity.
Defined.

(** A service whose owner wants yield compounded: the default says so, and so does
    the preference of the goal linked to the vault. *)
Definition keen_router : Router (D:=Q) := mkRouter (λ _, Ok (Some (5, true))) (λ _ _, Ok tt).
Definition keen_service : VaultService (D:=Q) :=
  mkService (Some kind_chain) (Some scene_policy) None true (Some keen_router) None.

Definition scene_handle (r : VaultRow) : JobQueue.handled * World (D:=Q) :=
  Handle demo_uuid 9 (λ _, true) keen_service scene_env (λ _, Ok (Some "GUSER"%string)) (λ _, "error"%string) "panic"
    scene_payload (scene r).

Lemma engine_harvests_never_compound_witness :
  scene_handle grown = (JobQueue.Returned, (scene_handle grown).2)
  ∧ calls (scene_handle grown).2 = [CallHarvest "CVAULT" "GUSER" false]
  ∧ (calls (scene_handle grown).2 = calls (scene grown)
     ∨ ∃ k u, calls (scene_handle grown).2 = calls (scene grown) ++ [CallHarvest k u false]).
Proof.
  destruct scene_job as (job & Hj & Hp & Ht & _).
  split; [vm_compute; reflexivity|]. split; [vm_compute; reflexivity|].
  apply (engine_harvests_never_compound demo_uuid 9 (λ _, true) keen_service scene_env
    (λ _, Ok (Some "GUSER"%string)) (λ _, "error"%string) "panic" itoa scene_cfg _ 100 job (scene grown)
    (scene_handle grown).1 (scene_handle grown).2 scene_history Hj Ht).
  rewrite Hp. exact (surjective_pairing _).
Defined.

(** The same vault with its yield not on record: 100 paid in, 110 held. *)
Definition unrecorded : VaultRow := scene_row 10000000000 11000000000 0 StatusActive.

Lemma plain_harvest_leaves_fee_witness :
  scene_handle unrecorded = (JobQueue.Returned, (scene_handle unrecorded).2)
  ∧ ∃ row', vaults (tables (scene_handle unrecorded).2) !! 1 = Some row' ∧ gross_units row' = 100000000.
Proof.
  assert (Hret : (scene_handle unrecorded).1 = JobQueue.Returned) by (vm_compute; reflexivity).
  split; [rewrite <-Hret; exact (surjective_pairing _)|].
  destruct (plain_harvest_leaves_fee demo_uuid 9 (λ _, true) keen_service scene_env
    (λ _, Ok (Some "GUSER"%string)) (λ _, "error"%string) "panic" scene_payload (mkPayload 1 7 "" false) (scene unrecorded)
    (scene_handle unrecorded).2 unrecorded) as (row' & Hr & _ & Hfee & _).
  - vm_compute. reflexivity.
  - reflexivity.
  - rewrite <-Hret. exact (surjective_pairing _).
  - reflexivity.
  - vm_compute. reflexivity.
  - exists row'. split; [exact Hr|]. rewrite Hfee by (vm_compute; discriminate). vm_compute. reflexivity.
Defined.

(** ** Edges *)

(** The redelivered job of the vault above: a second payment of nine tenths of the
    first fee, where the adapter expects a re-run to find nothing. *)
Definition next_chain : Invoker :=
  mkInvoker (λ _ _, Ok tt) (λ _ _ _, Ok "w2"%string) (λ _ s, Ok s) (λ _ s, Ok s) (λ _ _ _, Ok "y2"%string) (λ _, Ok tt).
Definition later_service : VaultService (D:=Q) :=
  mkService (Some next_chain) (Some scene_policy) None true (Some keen_router) None.

Definition redelivered : JobQueue.handled * World (D:=Q) :=
  Handle demo_uuid 9 (λ _, true) later_service scene_env (λ _, Ok (Some "GUSER"%string)) (λ _, "error"%string) "panic"
    scene_payload (scene_handle unrecorded).2.

Example redelivered_harvest_pays_again :
  redelivered.1 = JobQueue.Returned
  ∧ (t_amount <$> txs (tables redelivered.2)) = [900000000; 90000000]
  ∧ length (calls redelivered.2) = 2%nat.
Proof. vm_compute. by repeat split. Qed.

(** A vault whose owner has no wallet on file: the error is not marked permanent,
    so the worker retries it until the attempts are spent. *)
Example no_wallet_is_retried :
  (Handle demo_uuid 9 (λ _, true) keen_service scene_env (λ _, Ok None) (λ _, "no wallet"%string) "panic"
    scene_payload (scene grown)).1 = JobQueue.Failed false "no wallet".
Proof. vm_compute. reflexivity. Qed.
