(* ===== verification/Calendar.v ===== *)
(** Civil dates in UTC: what the sources use of package time beyond instants
    ([Date], [t.Date()], [t.Clock()], [t.AddDate]), in the proleptic Gregorian
    calendar, whose cycle of 400 years has 146097 days. *)

From S2P Require Import Prelude.
Open Scope Z_scope.

(** ** Days and dates

    Years are counted from March, so that the leap day ends a year: a date is a
    year of the cycle, a month from March on and a day. *)

Definition cycle : Z := 146097.
Definition Day : Duration := 24 * Hour.

(** Days before a year of the cycle, and before a month of such a year. *)
Definition year_start (yoe : Z) : Z := 365 * yoe + yoe / 4 - yoe / 100.
Definition month_start (mp : Z) : Z := (153 * mp + 2) / 5.

(** Days from January 1, 1970 to a date. *)
Definition days_of (y m d : Z) : Z :=
  let y := if m <=? 2 then y - 1 else y in
  let mp := if m <=? 2 then m + 9 else m - 3 in
  (y / 400) * cycle + year_start (y mod 400) + month_start mp + (d - 1) - 719468.

(** The year of a day of the cycle: centuries of 36524 days, then groups of four
    years of 1461, then years of 365; the last of each may be a day longer. *)
Definition year_of (doe : Z) : Z :=
  let n100 := Z.min 3 (doe / 36524) in
  let d := doe - 36524 * n100 in
  let n4 := d / 1461 in
  let d := d - 1461 * n4 in
  100 * n100 + 4 * n4 + Z.min 3 (d / 365).

(** The year, month and day within a cycle that begins on March 1. *)
Definition date_in_cycle (doe : Z) : Z * Z * Z :=
  let yoe := year_of doe in
  let doy := doe - year_start yoe in
  let mp := (5 * doy + 2) / 153 in
  (yoe, mp, doy - month_start mp + 1).

Definition civil (days : Z) : Z * Z * Z :=
  let z := days + 719468 in
  let '(yoe, mp, d) := date_in_cycle (z mod cycle) in
  let m := if mp <? 10 then mp + 3 else mp - 9 in
  let y := yoe + 400 * (z / cycle) in
  (if m <=? 2 then y + 1 else y, m, d).

(** ** package time *)

(** [time.Date(year, month, day, hour, min, sec, nsec, time.UTC)]: months out of
    range are carried into the year, days into the months. *)
Definition Date (year month day hour min sec nsec : Z) : Time :=
  (days_of (year + (month - 1) / 12) ((month - 1) mod 12 + 1) 1 + (day - 1)) * Day
  + hour * Hour + min * Minute + sec * Second + nsec.

Definition date (t : Time) : Z * Z * Z := civil (t / Day).
Definition tod (t : Time) : Duration := t mod Day.
Definition hour_of (t : Time) : Z := tod t / Hour.
Definition minute_of (t : Time) : Z := tod t mod Hour / Minute.
Definition second_of (t : Time) : Z := tod t mod Minute / Second.
Definition nano_of (t : Time) : Z := tod t mod Second.

Definition AddDate (t : Time) (years months days : Z) : Time :=
  let '(y, m, d) := date t in
  Date (y + years) (m + months) (d + days) (hour_of t) (minute_of t) (second_of t) (nano_of t).

(** ** The calendar is consistent *)

Definition leap (y : Z) : bool := ((y mod 4 =? 0) && negb (y mod 100 =? 0)) || (y mod 400 =? 0).
Definition month_days (y m : Z) : Z :=
  if m =? 2 then (if leap y then 29 else 28)
  else if (m =? 4) || (m =? 6) || (m =? 9) || (m =? 11) then 30 else 31.

Definition valid (y m d : Z) : Prop := 1 ≤ m ≤ 12 ∧ 1 ≤ d ≤ month_days y m.

(** Whether the year that begins in March of [yoe] ends with a leap day. *)
Definition long_year (yoe : Z) : bool := (yoe mod 4 =? 3) && negb (yoe mod 100 =? 99) || (yoe =? 399).

Lemma year_of_spec doe : 0 ≤ doe < cycle →
  let y := year_of doe in
  0 ≤ y < 400 ∧ year_start y ≤ doe ∧ doe - year_start y ≤ 365
  ∧ (doe - year_start y = 365 → long_year y = true).
Proof.
  unfold cycle. intros Hd. unfold year_of.
  set (c := Z.min 3 (doe / 36524)). assert (Hc : 0 ≤ c ≤ 3 ∧ 0 ≤ doe - 36524 * c ≤ 36524 ∧ (c < 3 → doe - 36524 * c < 36524)) by (unfold c; go_mod).
  set (d := doe - 36524 * c) in *. set (q := d / 1461). assert (Hq : 0 ≤ q ≤ 24 ∧ 0 ≤ d - 1461 * q < 1461) by (unfold q; go_mod).
  assert (Hq2 : q = 24 → d - 1461 * q = 1460 → c = 3) by (intros; unfold d in *; lia).
  set (e := d - 1461 * q) in *. set (n := Z.min 3 (e / 365)).
  assert (Hn : 0 ≤ n ≤ 3 ∧ 0 ≤ e - 365 * n ≤ 365 ∧ (e - 365 * n = 365 → n = 3 ∧ e = 1460)) by (unfold n; go_mod).
  assert (Hy : year_start (100 * c + 4 * q + n) = 36524 * c + 1461 * q + 365 * n) by (unfold year_start; go_mod).
  cbv zeta. rewrite Hy. split; [lia|]. split; [lia|]. split; [lia|]. intros E.
  destruct Hn as (Hn & _ & Hl). destruct Hl as [-> He]; [lia|]. unfold long_year.
  destruct (decide (q = 24)) as [->|].
  - rewrite (Hq2 eq_refl He). done.
  - assert ((100 * c + 4 * q + 3) mod 4 = 3) as -> by go_mod.
    assert ((100 * c + 4 * q + 3) mod 100 ≠ 99) by go_mod.
    destruct (Z.eqb_spec ((100 * c + 4 * q + 3) mod 100) 99); done.
Qed.

Lemma year_of_start y doy : 0 ≤ y < 400 → 0 ≤ doy ≤ 365 → (doy = 365 → long_year y = true) →
  year_of (year_start y + doy) = y ∧ 0 ≤ year_start y + doy < cycle.
Proof.
  intros Hy Hd Hl. unfold cycle.
  assert (Hl' : doy = 365 → y mod 4 = 3 ∧ (y mod 100 = 99 → y = 399)).
  { intros E. specialize (Hl E). unfold long_year in Hl. apply orb_true_iff in Hl as [Hl|Hl]; go_bool; [lia|].
    subst y. by split. }
  set (c := y / 100) in *. assert (Hc : 0 ≤ c ≤ 3) by (unfold c; go_mod).
  set (q := (y mod 100) / 4). assert (Hq : 0 ≤ q ≤ 24) by (unfold q; go_mod).
  set (n := y mod 4). assert (Hn : 0 ≤ n ≤ 3) by (unfold n; go_mod).
  assert (Ey : y = 100 * c + 4 * q + n) by (unfold c, q, n; go_mod).
  assert (Hs : year_start y = 36524 * c + 1461 * q + 365 * n) by (unfold year_start; go_mod).
  assert (Hlast : doy = 365 → n = 3 ∧ (q = 24 → c = 3)).
  { intros E. destruct (Hl' E) as [H1 H2]. split; [done|]. intros ->. unfold n in *. go_mod. }
  rewrite Hs. split; [|lia]. unfold year_of.
  assert (E1 : Z.min 3 ((36524 * c + 1461 * q + 365 * n + doy) / 36524) = c) by go_mod. rewrite E1.
  replace (36524 * c + 1461 * q + 365 * n + doy - 36524 * c) with (1461 * q + 365 * n + doy) by lia.
  assert (E2 : (1461 * q + 365 * n + doy) / 1461 = q) by go_mod. rewrite E2.
  replace (1461 * q + 365 * n + doy - 1461 * q) with (365 * n + doy) by lia.
  assert (E3 : Z.min 3 ((365 * n + doy) / 365) = n) by go_mod. lia.
Qed.

(** The lengths of the months from March on, the last as in a long year. *)
Definition march_days (mp : Z) : Z :=
  if mp =? 11 then 29 else if (mp =? 1) || (mp =? 3) || (mp =? 6) || (mp =? 8) then 30 else 31.

Lemma march_months mp : 0 ≤ mp ≤ 11 →
  mp = 0 ∨ mp = 1 ∨ mp = 2 ∨ mp = 3 ∨ mp = 4 ∨ mp = 5 ∨ mp = 6 ∨ mp = 7 ∨ mp = 8 ∨ mp = 9 ∨ mp = 10 ∨ mp = 11.
Proof. lia. Qed.

Lemma month_start_of mp d : 0 ≤ mp ≤ 11 → 1 ≤ d ≤ march_days mp →
  (5 * (month_start mp + (d - 1)) + 2) / 153 = mp ∧ 0 ≤ month_start mp + (d - 1) ≤ 365
  ∧ (month_start mp + (d - 1) = 365 ↔ mp = 11 ∧ d = 29).
Proof.
  intros Hm Hd. destruct (march_months mp Hm) as [E|[E|[E|[E|[E|[E|[E|[E|[E|[E|[E|E]]]]]]]]]]]; subst mp;
    vm_compute march_days in Hd; vm_compute month_start; go_mod.
Qed.

Lemma month_of_day doy : 0 ≤ doy ≤ 365 →
  let mp := (5 * doy + 2) / 153 in 0 ≤ mp ≤ 11 ∧ 1 ≤ doy - month_start mp + 1 ≤ march_days mp.
Proof.
  intros Hd mp. assert (Hm : 0 ≤ mp ≤ 11) by (unfold mp; go_mod). split; [done|].
  assert (Hb : 153 * mp ≤ 5 * doy + 2 < 153 * mp + 153) by (unfold mp; go_mod). clearbody mp.
  destruct (march_months mp Hm) as [E|[E|[E|[E|[E|[E|[E|[E|[E|[E|[E|E]]]]]]]]]]]; subst mp;
    vm_compute march_days; vm_compute month_start; lia.
Qed.

Lemma leap_long y : leap (y + 1) = long_year (y mod 400).
Proof.
  unfold leap, long_year. apply eq_true_iff_eq.
  rewrite !orb_true_iff, !andb_true_iff, !negb_true_iff, !Z.eqb_eq, !Z.eqb_neq. go_mod.
Qed.

(** The year from March on in which a date lies, and its month there. *)
Definition march_year (y m : Z) : Z := if m <=? 2 then y - 1 else y.
Definition march_month (m : Z) : Z := if m <=? 2 then m + 9 else m - 3.

Lemma march_valid y m d : valid y m d →
  0 ≤ march_month m ≤ 11 ∧ 1 ≤ d ≤ march_days (march_month m)
  ∧ (march_month m = 11 → d = 29 → long_year (march_year y m mod 400) = true).
Proof.
  intros [Hm Hd]. assert (H12 : m = 1 ∨ m = 2 ∨ m = 3 ∨ m = 4 ∨ m = 5 ∨ m = 6 ∨ m = 7 ∨ m = 8 ∨ m = 9 ∨ m = 10 ∨ m = 11 ∨ m = 12) by lia.
  unfold month_days in Hd. rewrite <-(leap_long (march_year y m)).
  destruct H12 as [E|[E|[E|[E|[E|[E|[E|[E|[E|[E|[E|E]]]]]]]]]]]; subst m;
    unfold march_month, march_year, march_days; simpl in *; try (split_and!; lia).
  replace (y - 1 + 1) with y by lia. destruct (leap y); split_and!; done || lia.
Qed.

Lemma march_valid_inv y m d :
  1 ≤ m ≤ 12 → 1 ≤ d ≤ march_days (march_month m) →
  (march_month m = 11 → d = 29 → long_year (march_year y m mod 400) = true) → valid y m d.
Proof.
  intros Hm Hd Hl. split; [done|].
  assert (H12 : m = 1 ∨ m = 2 ∨ m = 3 ∨ m = 4 ∨ m = 5 ∨ m = 6 ∨ m = 7 ∨ m = 8 ∨ m = 9 ∨ m = 10 ∨ m = 11 ∨ m = 12) by lia.
  rewrite <-(leap_long (march_year y m)) in Hl. unfold march_month, march_year, march_days, month_days in *.
  destruct H12 as [E|[E|[E|[E|[E|[E|[E|[E|[E|[E|[E|E]]]]]]]]]]]; subst m; simpl in *; try lia.
  replace (y - 1 + 1) with y in Hl by lia. destruct (decide (d = 29)) as [->|]; [by rewrite Hl|].
  destruct (leap y); lia.
Qed.

Lemma days_of_march y m d :
  days_of y m d = (march_year y m / 400) * cycle + (year_start (march_year y m mod 400) + (month_start (march_month m) + (d - 1))) - 719468.
Proof. unfold days_of, march_year, march_month. lia. Qed.

Lemma cycle_split k x : 0 ≤ x < cycle → (k * cycle + x) mod cycle = x ∧ (k * cycle + x) / cycle = k.
Proof. unfold cycle. intros. go_mod. Qed.

Lemma civil_days_of y m d : valid y m d → civil (days_of y m d) = (y, m, d).
Proof.
  intros Hv. destruct (march_valid y m d Hv) as (Hm & Hd & Hlong). destruct Hv as [Hm12 _].
  destruct (month_start_of _ _ Hm Hd) as (E1 & Hdoy & E365).
  set (doy := month_start (march_month m) + (d - 1)) in *.
  destruct (year_of_start (march_year y m mod 400) doy) as [E2 Hdoe]; [apply Z.mod_pos_bound; lia|done|intros E; by apply Hlong; apply E365|].
  unfold civil. rewrite days_of_march. fold doy.
  replace (_ - 719468 + 719468) with (march_year y m / 400 * cycle + (year_start (march_year y m mod 400) + doy)) by lia.
  destruct (cycle_split (march_year y m / 400) _ Hdoe) as [-> ->]. unfold date_in_cycle. rewrite E2.
  replace (year_start (march_year y m mod 400) + doy - year_start (march_year y m mod 400)) with doy by lia. rewrite E1.
  replace (march_year y m mod 400 + 400 * (march_year y m / 400)) with (march_year y m) by go_mod.
  replace (doy - month_start (march_month m) + 1) with d by (unfold doy; lia).
  unfold march_month, march_year. destruct (Z.leb_spec m 2).
  - rewrite (proj2 (Z.ltb_ge (m + 9) 10)) by lia. replace (m + 9 - 9) with m by lia.
    rewrite (proj2 (Z.leb_le m 2)) by lia. by replace (y - 1 + 1) with y by lia.
  - rewrite (proj2 (Z.ltb_lt (m - 3) 10)) by lia. replace (m - 3 + 3) with m by lia.
    by rewrite (proj2 (Z.leb_gt m 2)) by lia.
Qed.

Lemma days_of_civil z : let '(y, m, d) := civil z in days_of y m d = z ∧ valid y m d.
Proof.
  unfold civil. set (n := z + 719468). pose proof (Z.mod_pos_bound n cycle ltac:(unfold cycle; lia)) as Hdoe.
  destruct (year_of_spec _ Hdoe) as (Hy & Hs & H365 & Hlong). set (doe := n mod cycle) in *.
  unfold date_in_cycle. set (yoe := year_of doe) in *. set (doy := doe - year_start yoe) in *.
  destruct (month_of_day doy ltac:(lia)) as [Hm Hd]. set (mp := (5 * doy + 2) / 153) in *.
  set (d := doy - month_start mp + 1) in *.
  assert (Hn : n = n / cycle * cycle + doe) by (unfold doe; pose proof (Z.div_mod n cycle ltac:(unfold cycle; lia)); lia).
  set (m := if mp <? 10 then mp + 3 else mp - 9). set (y := if m <=? 2 then _ else _).
  assert (Emm : march_month m = mp ∧ march_year y m = yoe + 400 * (n / cycle) ∧ 1 ≤ m ≤ 12).
  { unfold march_month, march_year, y, m. destruct (Z.ltb_spec mp 10).
    - rewrite (proj2 (Z.leb_gt (mp + 3) 2)) by lia. lia.
    - rewrite (proj2 (Z.leb_le (mp - 9) 2)) by lia. lia. }
  destruct Emm as (Emp & Ey & Hm12).
  assert (Eyoe : march_year y m mod 400 = yoe ∧ march_year y m / 400 = n / cycle) by (rewrite Ey; go_mod).
  destruct Eyoe as [Em4 Ed4]. split.
  - rewrite days_of_march, Emp, Em4, Ed4. unfold d, doy. lia.
  - apply march_valid_inv; [done|by rewrite Emp|]. rewrite Emp, Em4. intros E1 E2. apply Hlong.
    assert (Hdd : doy = month_start mp + (d - 1)) by (unfold d; lia). by rewrite Hdd, E1, E2.
Qed.

(** ** Instants *)

Lemma Day_pos : 0 < Day.
Proof. done. Qed.

Lemma date_of_days y m d x : valid y m d → 0 ≤ x < Day → date (days_of y m d * Day + x) = (y, m, d).
Proof.
  intros Hv Hx. unfold date.
  assert ((days_of y m d * Day + x) / Day = days_of y m d) as -> by (rewrite Z.div_add_l, (Z.div_small x) by (pose proof Day_pos; lia); lia).
  by apply civil_days_of.
Qed.

Lemma tod_of_days k x : 0 ≤ x < Day → tod (k * Day + x) = x.
Proof. intros Hx. unfold tod. rewrite Z.add_comm, Z.mod_add by (pose proof Day_pos; lia). by apply Z.mod_small. Qed.

Lemma tod_range t : 0 ≤ tod t < Day.
Proof. apply Z.mod_pos_bound. apply Day_pos. Qed.

Lemma clock_tod t : hour_of t * Hour + minute_of t * Minute + second_of t * Second + nano_of t = tod t.
Proof.
  unfold hour_of, minute_of, second_of, nano_of. set (x := tod t).
  unfold Hour, Minute, Second, Millisecond, Microsecond, Nanosecond. go_mod.
Qed.

Lemma days_of_day y m d k : days_of y m (d + k) = days_of y m d + k.
Proof. unfold days_of. lia. Qed.

Lemma date_split t : let '(y, m, d) := date t in valid y m d ∧ t = days_of y m d * Day + tod t.
Proof.
  unfold date, tod. pose proof (days_of_civil (t / Day)) as H. destruct (civil (t / Day)) as [[y m] d].
  destruct H as [-> Hv]. split; [done|]. pose proof (Z.div_mod t Day ltac:(pose proof Day_pos; lia)). lia.
Qed.

(** [Date] with the clock of [t]. *)
Lemma Date_clock t y m d : 1 ≤ m ≤ 12 →
  Date y m d (hour_of t) (minute_of t) (second_of t) (nano_of t) = days_of y m d * Day + tod t.
Proof.
  intros Hm. unfold Date. rewrite (Z.div_small (m - 1) 12), (Z.mod_small (m - 1) 12), Z.add_0_r by lia.
  replace (m - 1 + 1) with m by lia. rewrite <-clock_tod.
  assert (E : days_of y m d = days_of y m 1 + (d - 1)) by (rewrite <-days_of_day; f_equal; lia). rewrite E. lia.
Qed.

Lemma AddDate_days t n : AddDate t 0 0 n = t + n * Day.
Proof.
  unfold AddDate. pose proof (date_split t) as H. destruct (date t) as [[y m] d]. destruct H as [[Hm _] H].
  rewrite !Z.add_0_r, Date_clock by done. rewrite days_of_day. lia.
Qed.

(** The length of a month. *)
Definition next_month (y m : Z) : Z * Z := if m =? 12 then (y + 1, 1) else (y, m + 1).

Lemma year_days k : (k / 400) * cycle + year_start (k mod 400) = 365 * k + k / 4 - k / 100 + k / 400.
Proof. unfold year_start, cycle. go_mod. Qed.

Lemma div_step y k : 0 < k → y / k = (y - 1) / k + (if y mod k =? 0 then 1 else 0).
Proof.
  intros Hk. pose proof (Z.div_mod y k ltac:(lia)). pose proof (Z.mod_pos_bound y k Hk).
  destruct (Z.eqb_spec (y mod k) 0).
  - assert ((y - 1) / k = y / k - 1) as ->; [|lia]. symmetry. apply Z.div_unique with (k - 1); lia.
  - assert ((y - 1) / k = y / k) as ->; [|lia]. symmetry. apply Z.div_unique with (y mod k - 1); lia.
Qed.

Lemma year_length y : 365 * y + y / 4 - y / 100 + y / 400
  = 365 * (y - 1) + (y - 1) / 4 - (y - 1) / 100 + (y - 1) / 400 + (if leap y then 366 else 365).
Proof.
  rewrite (div_step y 4), (div_step y 100), (div_step y 400) by lia. unfold leap.
  assert (y mod 400 = 0 → y mod 100 = 0) by (intros; go_mod). assert (y mod 100 = 0 → y mod 4 = 0) by (intros; go_mod).
  destruct (Z.eqb_spec (y mod 4) 0), (Z.eqb_spec (y mod 100) 0), (Z.eqb_spec (y mod 400) 0); simpl; lia.
Qed.

(** Days before the year from March of [k], from the first cycle on. *)
Definition year_base (k : Z) : Z := 365 * k + k / 4 - k / 100 + k / 400.

Lemma days_of_base y m d : days_of y m d = year_base (march_year y m) + month_start (march_month m) + (d - 1) - 719468.
Proof. rewrite days_of_march. unfold year_base. rewrite <-year_days. lia. Qed.

Lemma month_length y m : 1 ≤ m ≤ 12 → days_of (next_month y m).1 (next_month y m).2 1 = days_of y m 1 + month_days y m.
Proof.
  intros Hm. rewrite !days_of_base.
  assert (H12 : m = 1 ∨ m = 2 ∨ m = 3 ∨ m = 4 ∨ m = 5 ∨ m = 6 ∨ m = 7 ∨ m = 8 ∨ m = 9 ∨ m = 10 ∨ m = 11 ∨ m = 12) by lia.
  pose proof (year_length y) as Hy. fold (year_base y) (year_base (y - 1)) in Hy.
  unfold next_month, march_year, march_month, month_days.
  destruct H12 as [E|[E|[E|[E|[E|[E|[E|[E|[E|[E|[E|E]]]]]]]]]]]; subst m; simpl;
    rewrite ?Z.add_simpl_r; try (unfold month_start; simpl; lia).
  rewrite Hy. unfold month_start. destruct (leap y); simpl; lia.
Qed.

Lemma month_days_range y m : 28 ≤ month_days y m ≤ 31.
Proof. unfold month_days. repeat case_match; lia. Qed.
