(* ===== verification/Leadership.v ===== *)
(** Leader election of the schedulers (internal/scheduler/leadership.go): one
    advisory lock of PostgreSQL, held by the session that an instance keeps
    pinned.

    The database is its live sessions and its advisory locks, which end with the
    session that holds them.  A call is answered, or its error reaches the
    instance after it has or has not taken effect; sql.Conn.Close gives the
    session back to the instance's pool, where it stays alive.  Instances share
    nothing else: the histories interleave their ticks and releases with sessions
    that begin and end. *)

From S2P Require Import Prelude Sql.
Open Scope Z_scope.

(** ** Advisory locks *)

(** The live sessions, and the holder of each lock with its depth. *)
Record DB := mkDB {
  sessions : gset UUID;
  locks : gmap Z (UUID * Z);
}.

(** pg_try_advisory_lock: reentrant within a session. *)
Definition TryLock (key : Z) (s : UUID) (db : DB) : bool * DB :=
  match locks db !! key with
  | None => (true, mkDB (sessions db) (<[key := (s, 1)]> (locks db)))
  | Some (h, n) =>
      if decide (h = s) then (true, mkDB (sessions db) (<[key := (s, n + 1)]> (locks db)))
      else (false, db)
  end.

(** pg_advisory_unlock_all *)
Definition UnlockAll (s : UUID) (db : DB) : DB :=
  mkDB (sessions db) (filter (λ x, x.2.1 ≠ s) (locks db)).

(** The end of a backend. *)
Definition EndSession (s : UUID) (db : DB) : DB :=
  mkDB (sessions db ∖ {[s]}) (locks (UnlockAll s db)).

(** How a call ends: answered, or with an error, before or after its effect. *)
Inductive reply := Answered | Lost (executed : bool).

Definition query {A} (r : reply) (s : UUID) (f : DB → A * DB) (db : DB) : option A * DB :=
  if decide (s ∈ sessions db) then
    match r with
    | Answered => let '(a, db) := f db in (Some a, db)
    | Lost true => (None, (f db).2)
    | Lost false => (None, db)
    end
  else (None, db).

(** ** One instance *)

Definition DefaultLeaderLockKey : Z := 846000.
Definition defaultHeartbeatInterval : Duration := 3 * Second.

Record LeadershipConfig := mkConfig {
  LockKey : Z;
  HeartbeatInterval : Duration;
  InstanceID : string;
}.

(** [generated] is the hostname with a random id. *)
Definition withDefaults (generated : string) (c : LeadershipConfig) : LeadershipConfig :=
  mkConfig (if LockKey c =? 0 then DefaultLeaderLockKey else LockKey c)
    (if HeartbeatInterval c <=? 0 then defaultHeartbeatInterval else HeartbeatInterval c)
    (if decide (InstanceID c = "") then generated else InstanceID c).

Record Leadership := mkLeadership {
  isLeader : bool;
  since : Time;
  conn : option UUID;
}.

Definition NewLeadership : Leadership := mkLeadership false zeroTime None.

Definition IsLeader (l : Leadership) : bool := isLeader l.
Definition Since (l : Leadership) : Time := if isLeader l then since l else zeroTime.

(** [got] is the session the pool hands out, [now] time.Now(). *)
Definition acquire (key : Z) (got : option UUID) (r : reply) (now : Time) (l : Leadership) (db : DB)
    : Leadership * DB :=
  match got with
  | None => (l, db)
  | Some s =>
      match query r s (TryLock key s) db with
      | (Some true, db) => (mkLeadership true now (Some s), db)
      | (_, db) => (l, db)
      end
  end.

Definition demote (l : Leadership) : Leadership := mkLeadership false (since l) None.

Definition tick (key : Z) (got : option UUID) (r : reply) (now : Time) (l : Leadership) (db : DB)
    : Leadership * DB :=
  match conn l with
  | None => acquire key got r now l db
  | Some s =>
      match query r s (TryLock key s) db with
      | (Some true, db) => (l, db)
      | (_, db) => (demote l, db)
      end
  end.

Definition release (r : reply) (l : Leadership) (db : DB) : Leadership * DB :=
  match conn l with
  | None => (demote l, db)
  | Some s =>
      if isLeader l then (demote l, (query r s (λ db, (tt, UnlockAll s db)) db).2)
      else (demote l, db)
  end.

(** What the job loops ask: without a checker an instance is always leader. *)
Definition leads (checker : option Leadership) : bool :=
  match checker with None => true | Some l => IsLeader l end.

(** ** Any number of instances *)

Record State := mkState {
  instances : gmap Z Leadership;
  db : DB;
}.

Definition pinned (s : UUID) (m : gmap Z Leadership) : Prop := ∃ i l, m !! i = Some l ∧ conn l = Some s.

(** A session is pinned by one instance at a time, and ids of sessions are new. *)
Inductive lstep (key : Z) (x : State) : State → Prop :=
| l_start i : instances x !! i = None → lstep key x (mkState (<[i := NewLeadership]> (instances x)) (db x))
| l_tick i l got r now l' db' :
    instances x !! i = Some l → (∀ s, got = Some s → conn l = None → ¬ pinned s (instances x)) →
    tick key got r now l (db x) = (l', db') →
    lstep key x (mkState (<[i := l']> (instances x)) db')
| l_release i l r l' db' :
    instances x !! i = Some l → release r l (db x) = (l', db') →
    lstep key x (mkState (<[i := l']> (instances x)) db')
| l_connect s : s ∉ sessions (db x) → ¬ pinned s (instances x) →
    lstep key x (mkState (instances x) (mkDB (sessions (db x) ∪ {[s]}) (locks (db x))))
| l_end s : lstep key x (mkState (instances x) (EndSession s (db x))).

Definition started : State := mkState ∅ (mkDB ∅ ∅).

(** ** What statements do *)

Lemma TryLock_spec key s d b d' :
  TryLock key s d = (b, d') →
  sessions d' = sessions d ∧ (∀ k, k ≠ key → locks d' !! k = locks d !! k)
  ∧ (b = true ∧ (∃ n, locks d' !! key = Some (s, n)) ∧ (locks d !! key = None ∨ ∃ n, locks d !! key = Some (s, n))
     ∨ b = false ∧ d' = d ∧ ∃ h n, locks d !! key = Some (h, n) ∧ h ≠ s).
Proof.
  unfold TryLock. destruct (locks d !! key) as [[h n]|] eqn:E; [case_decide as Hh|]; intros [= <- <-]; simpl;
    (split; [done|]); (split; [by intros k Hk; rewrite ?lookup_insert_ne by done|]).
  - subst h. left. rewrite lookup_insert_eq. split_and!; eauto.
  - right. split_and!; eauto.
  - left. rewrite lookup_insert_eq. split_and!; eauto.
Qed.

Lemma UnlockAll_lookup s d k :
  locks (UnlockAll s d) !! k = match locks d !! k with Some (h, n) => if decide (h = s) then None else Some (h, n) | None => None end.
Proof.
  unfold UnlockAll. simpl. rewrite map_lookup_filter. destruct (locks d !! k) as [[h n]|]; simpl; [|done].
  case_decide as H; [by rewrite option_guard_False by (simpl; tauto)|by rewrite option_guard_True].
Qed.

(** A try-lock moves only a lock that is free or its own. *)
Lemma query_TryLock r key s d o d' :
  query r s (TryLock key s) d = (o, d') →
  sessions d' = sessions d
  ∧ (d' = d ∨ s ∈ sessions d ∧ (∃ n, locks d' !! key = Some (s, n))
              ∧ (locks d !! key = None ∨ ∃ n, locks d !! key = Some (s, n)))
  ∧ (o = Some true → s ∈ sessions d ∧ ∃ n, locks d' !! key = Some (s, n)).
Proof.
  unfold query.
  assert (Hno : (None, d) = (o, d') → sessions d' = sessions d
    ∧ (d' = d ∨ s ∈ sessions d ∧ (∃ n, locks d' !! key = Some (s, n))
                ∧ (locks d !! key = None ∨ ∃ n, locks d !! key = Some (s, n)))
    ∧ (o = Some true → s ∈ sessions d ∧ ∃ n, locks d' !! key = Some (s, n))).
  { intros [= <- <-]. split; [done|]. split; [by left|done]. }
  case_decide as Hs; [|done].
  destruct (TryLock key s d) as [b d1] eqn:E. apply TryLock_spec in E as (Hd & _ & Hb).
  destruct r as [|[]]; simpl; [intros [= <- <-]..|done].
  - destruct Hb as [(-> & Hn & Hf)|(-> & -> & _)]; [|split; [done|]; split; [by left|done]]. split; [done|]. split; [by right|done].
  - split; [done|]. split; [|done]. destruct Hb as [(_ & Hn & Hf)|(_ & -> & _)]; [by right|by left].
Qed.

(** ** The invariant *)

Record inv (key : Z) (x : State) : Prop := {
  iv_conn i l : instances x !! i = Some l → isLeader l = true ↔ is_Some (conn l);
  iv_holds i l s : instances x !! i = Some l → conn l = Some s → s ∈ sessions (db x) →
    ∃ n, locks (db x) !! key = Some (s, n);
  iv_distinct i j l m s : instances x !! i = Some l → instances x !! j = Some m →
    conn l = Some s → conn m = Some s → i = j;
  iv_alive s n : locks (db x) !! key = Some (s, n) → s ∈ sessions (db x);
}.

(** What the step of instance [i] leaves to be shown. *)
Lemma inv_instance key x i l l' d' :
  inv key x → instances x !! i = Some l →
  (isLeader l' = true ↔ is_Some (conn l')) →
  (∀ s, conn l' = Some s → (s ∈ sessions d' → ∃ n, locks d' !! key = Some (s, n))
      ∧ (conn l = Some s ∨ ¬ pinned s (instances x))) →
  sessions d' = sessions (db x) →
  (∀ j m s n, j ≠ i → instances x !! j = Some m → conn m = Some s → locks (db x) !! key = Some (s, n) →
     ∃ n, locks d' !! key = Some (s, n)) →
  (∀ s n, locks d' !! key = Some (s, n) → s ∈ sessions d') →
  inv key (mkState (<[i := l']> (instances x)) d').
Proof.
  intros Hi Hl Hc Hnew Hses Hkeep Hal. split; simpl.
  - intros j m. rewrite lookup_insert. case_decide; [by intros [= <-]|]. apply (iv_conn _ _ Hi).
  - intros j m s. rewrite lookup_insert. case_decide as Hj; [intros [= <-] Hs; by apply Hnew|].
    intros Hm Hs Hlive. rewrite Hses in Hlive. destruct (iv_holds _ _ Hi j m s Hm Hs Hlive) as [n Hn].
    by eapply Hkeep.
  - assert (Hone : ∀ j m s, j ≠ i → instances x !! j = Some m → conn m = Some s → conn l' = Some s → False).
    { intros j m s Hj Hm Hs Hs'. destruct (Hnew s Hs') as [_ [E|Hp]].
      - by apply Hj, (iv_distinct _ _ Hi j i m l s).
      - apply Hp. by exists j, m. }
    intros j k m m' s. rewrite !lookup_insert. repeat case_decide; subst; try done.
    + intros [= <-] Hm Hs Hs'. by destruct (Hone k m' s).
    + intros Hm [= <-] Hs Hs'. by destruct (Hone j m s).
    + apply (iv_distinct _ _ Hi).
  - done.
Qed.

Lemma tick_inv key x i l got r now l' d' :
  inv key x → instances x !! i = Some l →
  (∀ s, got = Some s → conn l = None → ¬ pinned s (instances x)) →
  tick key got r now l (db x) = (l', d') →
  inv key (mkState (<[i := l']> (instances x)) d').
Proof.
  intros Hi Hl Hgot Ht.
  (* the session asked, if any *)
  assert (H : (l' = l ∧ d' = db x) ∨ ∃ s o, query r s (TryLock key s) (db x) = (o, d')
    ∧ (conn l = Some s ∨ conn l = None ∧ ¬ pinned s (instances x))
    ∧ ((o = Some true ∧ conn l' = Some s ∧ isLeader l' = true) ∨ conn l' = None ∧ isLeader l' = false)).
  { pose proof (iv_conn _ _ Hi i l Hl) as Hc. unfold tick, acquire in Ht. destruct (conn l) as [s|] eqn:Ec.
    - right. destruct (query _ _ _ _) as [o d1] eqn:E. exists s, o. rewrite E.
      destruct o as [[]|]; injection Ht as <- <-; split_and!; auto. left. rewrite Ec. split_and!; auto.
      apply Hc. by eexists.
    - destruct got as [s|]; [|injection Ht as <- <-; by left].
      right. destruct (query _ _ _ _) as [o d1] eqn:E. exists s, o. rewrite E.
      assert (isLeader l = false) as Hf by (destruct (isLeader l); [|done]; destruct Hc as [[? ?] _]; done).
      destruct o as [[]|]; injection Ht as <- <-; split_and!; auto. }
  destruct H as [[-> ->]|(s & o & Hq & Hs & Ho)].
  { destruct x as [m d]. simpl in *. by rewrite insert_id. }
  apply query_TryLock in Hq as (Hses & Hd & Htrue).
  eapply inv_instance; [done|exact Hl| | |done| |].
  - destruct Ho as [(_ & -> & ->)|[-> ->]]; [|split; [done|by intros [? ?]]]. split; [by eexists|done].
  - intros s' Hs'. destruct Ho as [(Ho & E & _)|[E _]]; [|congruence]. assert (s' = s) as -> by congruence.
    destruct (Htrue Ho) as [_ Hn]. split; [done|]. destruct Hs as [?|[_ ?]]; auto.
  - intros j m s' n Hj Hm Hs' Hn. assert (Hne : s' ≠ s).
    { intros ->. destruct Hs as [E|[_ Hp]]; [by apply Hj, (iv_distinct _ _ Hi j i m l s)|]. apply Hp. by exists j, m. }
    destruct Hd as [->|(_ & _ & [E|[n' E]])]; [eauto|congruence|congruence].
  - intros s' n Hn. rewrite Hses. destruct Hd as [->|(Hs' & [n' E] & _)]; [by eapply iv_alive|congruence].
Qed.

Lemma release_inv key x i l r l' d' :
  inv key x → instances x !! i = Some l → release r l (db x) = (l', d') →
  inv key (mkState (<[i := l']> (instances x)) d').
Proof.
  intros Hi Hl Hr.
  assert (H : l' = demote l ∧ (d' = db x ∨ ∃ s, conn l = Some s ∧ d' = UnlockAll s (db x))).
  { unfold release in Hr. destruct (conn l) as [s|] eqn:Ec; [|injection Hr as <- <-; auto].
    destruct (isLeader l); [|injection Hr as <- <-; auto].
    unfold query in Hr. case_decide; [|injection Hr as <- <-; auto].
    destruct r as [|[]]; injection Hr as <- <-; simpl; eauto. }
  destruct H as [-> Hd]. eapply inv_instance; [done|exact Hl| |done| | |].
  - split; [done|by intros [? ?]].
  - by destruct Hd as [->|(s & _ & ->)].
  - intros j m s n Hj Hm Hs Hn. destruct Hd as [->|(s' & Hs' & ->)]; [eauto|].
    rewrite UnlockAll_lookup, Hn. case_decide as E; [|eauto]. subst.
    by destruct (Hj (iv_distinct _ _ Hi j i m l s' Hm Hl Hs Hs')).
  - intros s n. destruct Hd as [->|(s' & _ & ->)]; [by apply iv_alive|].
    rewrite UnlockAll_lookup. destruct (locks (db x) !! key) as [[h k]|] eqn:E; [|done].
    case_decide; [done|]. intros [= <- _]. by eapply (iv_alive _ _ Hi).
Qed.

Lemma lstep_inv key x y : inv key x → lstep key x y → inv key y.
Proof.
  intros Hi Hs. destruct Hs as [i Hn|i l got r now l' d' Hl Hg Ht|i l r l' d' Hl Hr|s Hs Hp|s].
  - split; simpl.
    + intros j m. rewrite lookup_insert. case_decide; [intros [= <-]; split; [done|by intros [? ?]]|]. apply (iv_conn _ _ Hi).
    + intros j m s. rewrite lookup_insert. case_decide; [by intros [= <-]|]. apply (iv_holds _ _ Hi).
    + intros j k m m' s. rewrite !lookup_insert. repeat case_decide; try (by intros [= <-]); try (by intros _ [= <-]).
      apply (iv_distinct _ _ Hi).
    + apply (iv_alive _ _ Hi).
  - by eapply tick_inv.
  - by eapply release_inv.
  - destruct Hi as [H1 H2 H3 H4]. split; simpl; [done| |done|].
    + intros i l s' Hl Hc [Hin|E%elem_of_singleton]%elem_of_union; [by eapply H2|]. subst. exfalso. apply Hp. by exists i, l.
    + intros s' n Hn. apply elem_of_union_l. by eapply H4.
  - destruct Hi as [H1 H2 H3 H4]. split; simpl; [done| |done|].
    + intros i l s' Hl Hc [Hin Hne]%elem_of_difference. destruct (H2 i l s' Hl Hc Hin) as [n Hn]. exists n.
      pose proof (UnlockAll_lookup s (db x) key) as E. simpl in E. rewrite E, Hn, decide_False; [done|]. set_solver.
    + intros s' n. pose proof (UnlockAll_lookup s (db x) key) as E. simpl in E. rewrite E.
      destruct (locks (db x) !! key) as [[h k]|] eqn:Eh; [|done]. case_decide as Hh; [done|]. intros [= <- _].
      apply elem_of_difference. split; [by eapply H4|]. set_solver.
Qed.

Lemma election_inv key x : rtc (lstep key) started x → inv key x.
Proof.
  intros Hs. assert (H0 : inv key started) by (split; intros *; try rewrite lookup_empty; done).
  revert H0. induction Hs as [|x y z Hxy _ IH]; [done|]. intros Hi. by eapply IH, lstep_inv.
Qed.

(** C15: Two instances believe to lead at once only while the pinned session of one
    of them is dead, and that one is demoted by its next tick, whatever the tick
    meets: the overlap lasts at most a heartbeat.  In every interleaving of ticks,
    releases, sessions that end and new ones, whichever answers are lost. *)
Theorem split_brain_needs_dead_session key x i j l m :
  rtc (lstep key) started x → i ≠ j →
  instances x !! i = Some l → instances x !! j = Some m → IsLeader l = true → IsLeader m = true →
  ∃ n s, (n = l ∨ n = m) ∧ conn n = Some s ∧ s ∉ sessions (db x)
    ∧ ∀ got r now, IsLeader (tick key got r now n (db x)).1 = false.
Proof.
  intros Hs Hij Hl Hm Hll Hlm. pose proof (election_inv _ _ Hs) as Hi.
  assert (Hdead : ∀ n s, conn n = Some s → s ∉ sessions (db x) →
    ∀ got r now, IsLeader (tick key got r now n (db x)).1 = false).
  { intros n s Hn Hd got r now. unfold tick, query. by rewrite Hn, decide_False. }
  apply (iv_conn _ _ Hi i l Hl) in Hll as [s Hs1]. apply (iv_conn _ _ Hi j m Hm) in Hlm as [t Ht].
  destruct (decide (s ∈ sessions (db x))) as [Hins|]; [|exists l, s; split_and!; [by left|done|done|by eapply Hdead]].
  destruct (decide (t ∈ sessions (db x))) as [Hint|]; [|exists m, t; split_and!; [by right|done|done|by eapply Hdead]].
  destruct (iv_holds _ _ Hi i l s Hl Hs1 Hins) as [n1 E1]. destruct (iv_holds _ _ Hi j m t Hm Ht Hint) as [n2 E2].
  exfalso. assert (s = t) as -> by congruence. by apply Hij, (iv_distinct _ _ Hi i j l m t).
Qed.

(** A leader whose session lives and whose query is answered stays leader, and
    when the session of the leader ends, the next answered tick of any follower
    makes it the leader, while the old leader's next tick demotes it. *)
Theorem leadership_fails_over key x i j l m s t now :
  rtc (lstep key) started x →
  instances x !! i = Some l → instances x !! j = Some m → conn l = Some s → conn m = None →
  s ∈ sessions (db x) → t ∈ sessions (db x) → t ≠ s →
  (∀ got now', (tick key got Answered now' l (db x)).1 = l)
  ∧ let d := EndSession s (db x) in
    IsLeader (tick key (Some t) Answered now m d).1 = true
    ∧ ∀ got r now', IsLeader (tick key got r now' l d).1 = false.
Proof.
  intros Hs Hl Hm Hc Hn Hlive Ht Hne. pose proof (election_inv _ _ Hs) as Hi.
  destruct (iv_holds _ _ Hi i l s Hl Hc Hlive) as [n E]. split; [|split].
  - intros got now'. unfold tick, query, TryLock. by rewrite Hc, decide_True, E, decide_True by done.
  - unfold tick, acquire, query. rewrite Hn, decide_True by (simpl; set_solver).
    unfold TryLock. pose proof (UnlockAll_lookup s (db x) key) as Eu. simpl in Eu. simpl.
    by rewrite Eu, E, decide_True.
  - intros got r now'. unfold tick, query. rewrite Hc, decide_False; [done|]. simpl. set_solver.
Qed.

(** ** Concrete histories *)

Definition leader_on (s : UUID) : Leadership := mkLeadership true 5 (Some s).

(** Instance 1 leads with session 10; 20 is a session of instance 2. *)
Definition one_leads : State :=
  mkState (<[2 := NewLeadership]> (<[1 := leader_on 10]> ∅)) (mkDB {[10; 20]} {[846000 := (10, 1)]}).

Definition two_lead : State :=
  mkState (<[2 := leader_on 20]> (<[1 := leader_on 10]> ∅)) (mkDB {[20]} {[846000 := (20, 1)]}).

Lemma not_pinned s (m : gmap Z Leadership) :
  forallb (λ p : Z * Leadership, negb (bool_decide (conn p.2 = Some s))) (map_to_list m) = true → ¬ pinned s m.
Proof.
  intros H (i & l & Hl & Hc). rewrite forallb_forall in H. specialize (H (i, l)).
  rewrite <-list_elem_of_In, elem_of_map_to_list in H. specialize (H Hl). simpl in H. by rewrite bool_decide_true in H.
Qed.

Lemma one_leads_reachable : rtc (lstep 846000) started one_leads.
Proof.
  eapply rtc_l; [by apply (l_start _ _ 1)|].
  eapply rtc_l; [apply (l_connect _ _ 10); [simpl; set_solver|by apply not_pinned]|].
  eapply rtc_l; [eapply (l_tick _ _ 1 NewLeadership (Some 10) Answered 5); [done|by intros ? [= <-] _; apply not_pinned|done]|].
  eapply rtc_l; [by apply (l_start _ _ 2)|].
  eapply rtc_l; [apply (l_connect _ _ 20); [simpl; set_solver|by apply not_pinned]|].
  assert (E : one_leads = mkState (<[2 := NewLeadership]> (<[1 := leader_on 10]> (<[1 := NewLeadership]> ∅)))
    (mkDB ((∅ ∪ {[10]}) ∪ {[20]}) (<[846000 := (10, 1)]> ∅))) by (vm_compute; reflexivity).
  rewrite E. apply rtc_refl.
Qed.

Lemma two_lead_reachable : rtc (lstep 846000) started two_lead.
Proof.
  etrans; [exact one_leads_reachable|].
  eapply rtc_l; [apply (l_end _ _ 10)|].
  eapply rtc_l; [eapply (l_tick _ _ 2 NewLeadership (Some 20) Answered 5); [done|by intros ? [= <-] _; apply not_pinned|
    vm_compute; reflexivity]|].
  match goal with |- rtc _ ?a _ => assert (E : a = two_lead) by (vm_compute; reflexivity); rewrite E end. apply rtc_refl.
Qed.

Lemma split_brain_needs_dead_session_witness :
  IsLeader (leader_on 10) = true ∧ IsLeader (leader_on 20) = true
  ∧ ∃ n s, (n = leader_on 10 ∨ n = leader_on 20) ∧ conn n = Some s ∧ s ∉ sessions (db two_lead).
Proof.
  split; [reflexivity|]. split; [reflexivity|].
  destruct (split_brain_needs_dead_session 846000 two_lead 1 2 (leader_on 10) (leader_on 20) two_lead_reachable
    ltac:(discriminate) eq_refl eq_refl eq_refl eq_refl) as (n & s & H1 & H2 & H3 & _).
  exact (ex_intro _ n (ex_intro _ s (conj H1 (conj H2 H3)))).
Defined.

Lemma leadership_fails_over_witness :
  IsLeader (tick 846000 (Some 20) Answered 9 NewLeadership (EndSession 10 (db one_leads))).1 = true.
Proof.
  exact (proj1 (proj2 (leadership_fails_over 846000 one_leads 1 2 (leader_on 10) NewLeadership 10 20 9 one_leads_reachable
    eq_refl eq_refl eq_refl eq_refl ltac:(vm_compute; done) ltac:(vm_compute; done) ltac:(discriminate)))).
Defined.

(** The answer of a heartbeat is lost while its session lives: the instance is
    demoted and gives the session back to its pool, where it keeps the lock, so
    that the other instance, asking in good order, is refused. *)
Definition after_lost : Leadership * DB := tick 846000 None (Lost true) 9 (leader_on 10) (db one_leads).

Example lost_answer_leaves_no_leader :
  IsLeader after_lost.1 = false ∧ locks after_lost.2 !! 846000 = Some (10, 2)
  ∧ IsLeader (tick 846000 (Some 20) Answered 12 NewLeadership after_lost.2).1 = false.
Proof. by vm_compute. Qed.

(** The same when the unlock of a graceful release fails. *)
Example failed_release_keeps_lock :
  conn (release (Lost false) (leader_on 10) (db one_leads)).1 = None
  ∧ locks (release (Lost false) (leader_on 10) (db one_leads)).2 !! 846000 = Some (10, 1).
Proof. by vm_compute. Qed.
