(* ===== verification/Schedules.v ===== *)
(** Recurring deposits (internal/domain/savingsschedule/model.go,
    internal/repository/postgres/savings_schedule_repository.go with the schema of
    its migrations, internal/service: savings_schedule_service.go,
    scheduled_deposit_adapters.go; internal/scheduler: recurring_deposit.go,
    next_run.go): schedules in their table, the sweep that submits due occurrences
    to the job queue, and the handler that records the deposit of one.

    Goals, the users of vaults and on-chain mandates answer through arguments, and
    so do clocks and which statements reach the database.  The JSON of a payload is
    the class [DepositJSON]. *)

From stdpp Require Import sorting.
From S2P Require Import Prelude Sql GoStrings Decimal Vault.
From S2P Require Import Calendar.
From S2P Require Import Ledger.
From S2P Require Import VaultStore.
From S2P Require Import MoneyPath.
From S2P Require Import VaultService.
From S2P Require JobQueue Outbox.
From S2P Require Import JobClients.
Open Scope Z_scope.
Open Scope go_scope.

(** ** When an occurrence is due next (next_run.go) *)

Definition daysInMonth (year month : Z) : Z := let '(_, _, d) := date (Date year (month + 1) 0 0 0 0 0) in d.

Definition addOneMonth (t : Time) : Time :=
  let '(year, month, day) := date t in
  let month := month + 1 in
  let '(year, month) := if 12 <? month then (year + 1, 1) else (year, month) in
  let lastDay := daysInMonth year month in
  let day := if lastDay <? day then lastDay else day in
  Date year month day (hour_of t) (minute_of t) (second_of t) (nano_of t).

Definition NextRunAt (from : Time) (frequency : string) : Time :=
  if decide (frequency = "weekly"%string) then AddDate from 0 0 7
  else if decide (frequency = "biweekly"%string) then AddDate from 0 0 14
  else if decide (frequency = "monthly"%string) then addOneMonth from
  else from.

(** ** Schedules (model.go) *)

Inductive ScheduleErr :=
| ErrScheduleNotFound | ErrInvalidSchedule | ErrActiveScheduleExists | ErrUnauthorizedVault
| ErrGoalNotFound | ErrGoalArchived | ErrGoalPaused | ErrVaultOf (e : VaultErr) | ErrSchedulePg (e : PgError)
| ErrScheduleIO.

Definition accepted (frequency : string) : bool :=
  bool_decide (frequency = "weekly"%string) || bool_decide (frequency = "biweekly"%string)
  || bool_decide (frequency = "monthly"%string).

Definition ParseFrequency (toLower : string → string) (value : string) : result ScheduleErr string :=
  let f := toLower (TrimSpace value) in
  if accepted f then Ok f else Err ErrInvalidSchedule.

(** A row of savings_schedules, keyed by id; the amount in hundred-millionths. *)
Record ScheduleRow := mkScheduleRow {
  s_user : UUID;
  s_goal : UUID;
  s_vault : UUID;
  s_amount : Z;
  s_currency : string;
  s_frequency : string;
  s_next : Time;
  s_last : option Time;
  s_active : bool;
  s_mandate : option Z;
  s_created : Time;
  s_updated : Time;
}.

Abbreviation Schedules := (gmap UUID ScheduleRow) (only parsing).

Section Schedules.
Context {D : Type} `{!Decimal D}.

Record SavingsSchedule := mkSchedule {
  sc_id : UUID;
  sc_user : UUID;
  sc_goal : UUID;
  sc_vault : UUID;
  sc_amount : D;
  sc_currency : string;
  sc_frequency : string;
  sc_next : Time;
  sc_last : option Time;
  sc_active : bool;
  sc_mandate : option Z;
}.

Definition scanSavingsSchedule (id : UUID) (r : ScheduleRow) : SavingsSchedule :=
  mkSchedule id (s_user r) (s_goal r) (s_vault r) (scan_col (s_amount r)) (s_currency r) (s_frequency r)
    (s_next r) (s_last r) (s_active r) (s_mandate r).

(** ** Statements (savings_schedule_repository.go, migrations 039, 049, 101, 111) *)

(** The rows that foreign keys need, and the length of a text in characters. *)
Context (refs : UUID → UUID → UUID → bool) (chars : string → Z) (dbnow : Time).

Definition Stmt (A : Type) : Type := Schedules → result ScheduleErr A * Schedules.

Definition check_schedule (r : ScheduleRow) : result PgError unit :=
  guard_err (10 <? chars (s_currency r)) (mkPg "22001" "");;
  guard_err (s_amount r <=? 0) (mkPg "23514" "savings_schedules_amount_check");;
  guard_err (negb (accepted (s_frequency r))) (mkPg "23514" "savings_schedules_frequency_check").

(** The unique index over the goals of active schedules. *)
Definition goal_taken (id : UUID) (r : ScheduleRow) (t : Schedules) : bool :=
  s_active r &&
  existsb (λ p : UUID * ScheduleRow, negb (p.1 =? id) && s_active p.2 && (s_goal p.2 =? s_goal r)) (map_to_list t).

Definition insert_schedule (id : UUID) (s : SavingsSchedule) (t : Schedules) : result PgError Schedules :=
  amount ← numeric 48 (dval (sc_amount s));
  let r := mkScheduleRow (sc_user s) (sc_goal s) (sc_vault s) amount (sc_currency s) (sc_frequency s) (sc_next s)
             None (sc_active s) (sc_mandate s) dbnow dbnow in
  check_schedule r;;
  guard_err (bool_decide (is_Some (t !! id))) (mkPg "23505" "savings_schedules_pkey");;
  guard_err (goal_taken id r t) (mkPg "23505" "idx_savings_schedules_one_active_per_goal");;
  guard_err (negb (refs (s_user r) (s_goal r) (s_vault r))) (mkPg "23503" "savings_schedules_fkey");;
  Ok (<[id := r]> t).

Definition Create (up : bool) (s : SavingsSchedule) : Stmt unit := λ t,
  if negb up then (Err ErrScheduleIO, t)
  else
    match insert_schedule (sc_id s) s t with
    | Ok t' => (Ok tt, t')
    | Err e =>
        (Err (if bool_decide (Code e = "23505"%string)
                 && Contains (ConstraintName e) "idx_savings_schedules_one_active_per_goal"
              then ErrActiveScheduleExists else ErrSchedulePg e), t)
    end.

(** [UPDATE ... WHERE]: the rows written, or the constraint that refuses one. *)
Definition update_schedules (w : UUID → ScheduleRow → bool) (f : ScheduleRow → result PgError ScheduleRow)
    (t : Schedules) : result PgError (Z * Schedules) :=
  foldr (λ (p : UUID * ScheduleRow) acc,
    '(n, t) ← acc; r ← f p.2;
    check_schedule r;;
    Ok (n + 1, <[p.1 := r]> t)) (Ok (0, t)) (List.filter (λ p : UUID * ScheduleRow, w p.1 p.2) (map_to_list t)).

(** A statement that must write a row. *)
Definition exec_schedules (up : bool) (w : UUID → ScheduleRow → bool)
    (f : ScheduleRow → result PgError ScheduleRow) : Stmt unit := λ t,
  if negb up then (Err ErrScheduleIO, t)
  else
    match update_schedules w f t with
    | Err e => (Err (ErrSchedulePg e), t)
    | Ok (n, t') => if n =? 0 then (Err ErrScheduleNotFound, t') else (Ok tt, t')
    end.

Definition inactive (r : ScheduleRow) : result PgError ScheduleRow :=
  Ok (mkScheduleRow (s_user r) (s_goal r) (s_vault r) (s_amount r) (s_currency r) (s_frequency r) (s_next r)
        (s_last r) false (s_mandate r) (s_created r) dbnow).

Definition CancelActiveByGoal (up : bool) (goal user : UUID) : Stmt unit :=
  exec_schedules up (λ _ r, (s_goal r =? goal) && (s_user r =? user) && s_active r) inactive.

Definition Cancel (up : bool) (id goal user : UUID) : Stmt unit :=
  exec_schedules up (λ i r, (i =? id) && (s_goal r =? goal) && (s_user r =? user) && s_active r) inactive.

Definition Deactivate (up : bool) (id : UUID) : Stmt unit := exec_schedules up (λ i _, i =? id) inactive.

Definition Update (up : bool) (s : SavingsSchedule) : Stmt unit :=
  exec_schedules up
    (λ i r, (i =? sc_id s) && (s_user r =? sc_user s) && (s_goal r =? sc_goal s) && s_active r)
    (λ r, amount ← numeric 48 (dval (sc_amount s));
       Ok (mkScheduleRow (s_user r) (s_goal r) (sc_vault s) amount (sc_currency s) (sc_frequency s) (s_next r)
             (s_last r) (s_active r) (s_mandate r) (s_created r) dbnow)).

Definition ran (lastRunAt nextRunAt : Time) (r : ScheduleRow) : ScheduleRow :=
  mkScheduleRow (s_user r) (s_goal r) (s_vault r) (s_amount r) (s_currency r) (s_frequency r) nextRunAt
    (Some lastRunAt) (s_active r) (s_mandate r) (s_created r) dbnow.

Definition UpdateAfterRun (up : bool) (id : UUID) (lastRunAt nextRunAt : Time) : Stmt unit :=
  exec_schedules up (λ i r, (i =? id) && s_active r) (λ r, Ok (ran lastRunAt nextRunAt r)).

(** Reads. *)
Definition due_first (p q : UUID * ScheduleRow) : Prop := s_next p.2 ≤ s_next q.2.
#[export] Instance due_first_dec p q : Decision (due_first p q).
Proof. unfold due_first. apply _. Defined.

Definition newest_first (p q : UUID * ScheduleRow) : Prop := s_created q.2 ≤ s_created p.2.
#[export] Instance newest_first_dec p q : Decision (newest_first p q).
Proof. unfold newest_first. apply _. Defined.

Definition scanned (l : list (UUID * ScheduleRow)) : list SavingsSchedule :=
  (λ p : UUID * ScheduleRow, scanSavingsSchedule p.1 p.2) <$> l.

Definition ListDue (up : bool) (now : Time) (t : Schedules) : result ScheduleErr (list SavingsSchedule) :=
  if negb up then Err ErrScheduleIO
  else Ok (scanned (merge_sort due_first
              (List.filter (λ p : UUID * ScheduleRow, s_active p.2 && (s_next p.2 <=? now)) (map_to_list t)))).

Definition ListByGoal (up : bool) (goal user : UUID) (t : Schedules) : result ScheduleErr (list SavingsSchedule) :=
  if negb up then Err ErrScheduleIO
  else Ok (scanned (merge_sort newest_first
              (List.filter (λ p : UUID * ScheduleRow, (s_goal p.2 =? goal) && (s_user p.2 =? user)) (map_to_list t)))).

Definition ScheduleByID (up : bool) (id : UUID) (t : Schedules) : result ScheduleErr SavingsSchedule :=
  if negb up then Err ErrScheduleIO
  else match t !! id with Some r => Ok (scanSavingsSchedule id r) | None => Err ErrScheduleNotFound end.

Definition GetActiveByGoal (up : bool) (goal user : UUID) (t : Schedules) : result ScheduleErr (option SavingsSchedule) :=
  if negb up then Err ErrScheduleIO
  else Ok (head (scanned (merge_sort newest_first
              (List.filter (λ p : UUID * ScheduleRow, (s_goal p.2 =? goal) && (s_user p.2 =? user) && s_active p.2)
                 (map_to_list t))))).

(** ** Goals, as the callers below see them *)

Record SavingsGoal := mkGoal {
  g_user : UUID;
  g_status : string;
  g_target : D;
  g_currency : string;
  g_description : string;
}.

Definition GoalStatusPaused : string := "paused".
Definition GoalStatusCompleted : string := "completed".
Definition GoalStatusArchived : string := "archived".

Context (goals : UUID → result ScheduleErr SavingsGoal).

Definition own_goal (user goal : UUID) : result ScheduleErr SavingsGoal :=
  g ← goals goal;
  guard_err (negb (g_user g =? user)) ErrGoalNotFound;;
  Ok g.

(** ** The service (savings_schedule_service.go) *)

Context (toLower toUpper : string → string) (Exponent : D → Z).
(** The owner of a vault, and the configured minimum. *)
Context (vaultOwner : UUID → result ScheduleErr UUID) (minDeposit : D).

Definition validateScheduleAmount (amount : D) : result ScheduleErr unit :=
  guard_err (d_le amount d_zero) ErrInvalidSchedule;;
  guard_err (d_lt d_zero minDeposit && d_le amount minDeposit) ErrInvalidSchedule;;
  guard_err (MaxAmountScale <? decimalScale Exponent amount) ErrInvalidSchedule.

Definition own_vault (user vault : UUID) : result ScheduleErr unit :=
  u ← vaultOwner vault; guard_err (negb (u =? user)) ErrUnauthorizedVault.

(** Checks in front of a statement. *)
Definition checked {A B} (r : result ScheduleErr A) (k : A → Stmt B) : Stmt B := λ t,
  match r with Ok a => k a t | Err e => (Err e, t) end.

Definition svcCreateSchedule (up : bool) (newID : UUID) (now : Time) (user goal : UUID) (amount : D)
    (currency frequency : string) (vault : UUID) : Stmt SavingsSchedule :=
  checked (
    g ← own_goal user goal;
    guard_err (bool_decide (g_status g = GoalStatusArchived)) ErrGoalArchived;;
    guard_err (bool_decide (g_status g = GoalStatusPaused)) ErrGoalPaused;;
    f ← ParseFrequency toLower frequency;
    validateScheduleAmount amount;;
    own_vault user vault;;
    let cur := toUpper (TrimSpace currency) in
    Ok (mkSchedule newID user goal vault amount (if decide (cur = ""%string) then "USDC"%string else cur) f now None
          true None))
  (λ s t, match Create up s t with (Ok _, t') => (Ok s, t') | (Err e, t') => (Err e, t') end).

Definition svcCancelSchedule (up : bool) (user goal schedule : UUID) : Stmt unit :=
  checked (own_goal user goal) (λ _, Cancel up schedule goal user).

Definition svcDeleteActive (up : bool) (user goal : UUID) : Stmt unit :=
  checked (own_goal user goal) (λ _, CancelActiveByGoal up goal user).

Definition svcListSchedules (up : bool) (user goal : UUID) (t : Schedules) : result ScheduleErr (list SavingsSchedule) :=
  own_goal user goal;; ListByGoal up goal user t.

Definition svcGetActive (up : bool) (user goal : UUID) (t : Schedules) : result ScheduleErr (option SavingsSchedule) :=
  own_goal user goal;; GetActiveByGoal up goal user t.

Record UpdateScheduleInput := mkUpdate {
  up_amount : option D; up_currency : option string; up_frequency : option string; up_vault : option UUID;
}.

Definition svcUpdateSchedule (upRead up : bool) (user goal : UUID) (i : UpdateScheduleInput) : Stmt SavingsSchedule := λ t,
  checked (
    g ← own_goal user goal;
    guard_err (bool_decide (g_status g = GoalStatusPaused) || bool_decide (g_status g = GoalStatusArchived)) ErrGoalPaused;;
    o ← GetActiveByGoal upRead goal user t;
    active ← match o with None => Err ErrScheduleNotFound | Some s => Ok s end;
    amount ← match up_amount i with
             | None => Ok (sc_amount active)
             | Some a => validateScheduleAmount a;; Ok a
             end;
    let currency := match up_currency i with None => sc_currency active | Some c => toUpper (TrimSpace c) end in
    frequency ← match up_frequency i with None => Ok (sc_frequency active) | Some f => ParseFrequency toLower f end;
    vault ← match up_vault i with None => Ok (sc_vault active) | Some v => own_vault user v;; Ok v end;
    Ok (mkSchedule (sc_id active) (sc_user active) (sc_goal active) vault amount currency frequency (sc_next active)
          (sc_last active) (sc_active active) (sc_mandate active)))
  (λ s t, match Update up s t with (Ok _, t') => (Ok s, t') | (Err e, t') => (Err e, t') end) t.

(** ** Goal progress (scheduled_deposit_adapters.go) *)

Context (sumVaultBalance : UUID → string → result ScheduleErr D).

Definition IsGoalCompleted (goal user : UUID) : result ScheduleErr (bool * string) :=
  g ← own_goal user goal;
  let name := if decide (g_description g = "") then "your goal"%string else g_description g in
  if bool_decide (g_status g = GoalStatusArchived) || bool_decide (g_status g = GoalStatusCompleted)
  then Ok (true, name)
  else
    balance ← sumVaultBalance user (g_currency g);
    Ok (d_le (g_target g) balance, name).

Definition IsGoalPausedOrArchived (goal user : UUID) : result ScheduleErr bool :=
  g ← own_goal user goal;
  Ok (bool_decide (g_status g = GoalStatusPaused) || bool_decide (g_status g = GoalStatusArchived)).

(** ** The sweep (recurring_deposit.go) *)

Definition RecurringDepositJobType : string := "recurring_deposit".
Definition defaultRecurringDepositInterval : Duration := Hour.

Record RecurringDepositConfig := mkRecurring {
  rc_Enabled : bool;
  rc_Interval : Duration;
  rc_Window : Duration;
}.

Definition recurring_window (c : RecurringDepositConfig) : Duration :=
  if rc_Window c <=? 0 then defaultRecurringDepositInterval else rc_Window c.

(** What [NewRecurringDepositJob] makes of a configuration. *)
Definition NewRecurringDepositJob (c : RecurringDepositConfig) : RecurringDepositConfig :=
  mkRecurring (rc_Enabled c) (if rc_Interval c <=? 0 then defaultRecurringDepositInterval else rc_Interval c)
    (rc_Window c).

Record DepositPayload := mkDepositPayload {
  dp_schedule : UUID;
  dp_user : UUID;
  dp_vault : UUID;
  dp_goal : UUID;
  dp_amount : D;
  dp_currency : string;
  dp_frequency : string;
  dp_goal_name : string;
  dp_occurrence : Time;
  dp_mandate : option Z;
}.

(** encoding/json on the payload. *)
Class DepositJSON := {
  marshalDeposit : DepositPayload → option string;
  unmarshalDeposit : string → option DepositPayload;
}.

Class DepositJSONLaws `{DepositJSON} : Prop := {
  unmarshal_marshal_deposit p s : marshalDeposit p = Some s → unmarshalDeposit s = Some p;
  unmarshal_deposit_empty : unmarshalDeposit "" = None;
}.

Context (uuidString : UUID → string).

Definition recurringDepositIdempotencyKey (schedule : UUID) (occurrenceAt : Time) (window : Duration) : string :=
  windowKey (uuidString schedule) occurrenceAt window.

(** What a tick meets: whether the instance leads at the top and before the
    enqueue of a schedule, and which of its statements reach the database. *)
Record TickEnv := mkTickEnv {
  te_leads : bool;
  te_now : Time;
  te_list : bool;
  te_still : UUID → bool;
  te_deactivate : UUID → bool;
}.

Section Sweep.
Context `{DepositJSON} {Q : Type} `{Outbox.Enqueuer Q}.

Definition payload_for (s : SavingsSchedule) (goalName : string) : DepositPayload :=
  mkDepositPayload (sc_id s) (sc_user s) (sc_vault s) (sc_goal s) (sc_amount s) (sc_currency s) (sc_frequency s)
    goalName (sc_next s) (sc_mandate s).

Definition deposit_submission (c : RecurringDepositConfig) (s : SavingsSchedule) (payload : string)
    : JobQueue.EnqueueInput :=
  JobQueue.mkEnqueueInput RecurringDepositJobType payload 0 0
    (recurringDepositIdempotencyKey (sc_id s) (sc_next s) (recurring_window c)) (uuidString (sc_id s)) zeroTime.

Definition processSchedule (c : RecurringDepositConfig) (e : TickEnv) (s : SavingsSchedule) (t : Schedules) (q : Q)
    : Schedules * Q :=
  match IsGoalPausedOrArchived (sc_goal s) (sc_user s) with
  | Err _ => (t, q)
  | Ok true => (t, q)
  | Ok false =>
      match IsGoalCompleted (sc_goal s) (sc_user s) with
      | Err _ => (t, q)
      | Ok (true, _) => ((Deactivate (te_deactivate e (sc_id s)) (sc_id s) t).2, q)
      | Ok (false, goalName) =>
          if negb (te_still e (sc_id s)) then (t, q)
          else
            match marshalDeposit (payload_for s goalName) with
            | None => (t, q)
            | Some payload => (t, (Outbox.enqueue (deposit_submission c s payload) q).2)
            end
      end
  end.

Definition processAll (c : RecurringDepositConfig) (e : TickEnv) (due : list SavingsSchedule) (t : Schedules) (q : Q)
    : Schedules * Q :=
  foldl (λ x s, processSchedule c e s x.1 x.2) (t, q) due.

Definition DepositTick (c : RecurringDepositConfig) (e : TickEnv) (t : Schedules) (q : Q) : Schedules * Q :=
  if negb (te_leads e) then (t, q)
  else
    match ListDue (te_list e) (te_now e) t with
    | Err _ => (t, q)
    | Ok due => processAll c e due t q
    end.
End Sweep.

(** ** The handler *)

Section Handler.
Context `{DepositJSON}.
Context (uuidNew : nat → UUID) (userExists : UUID → bool) (unicode_fold : string → string → bool).
Context (sv : VaultService (D:=D)) (env : Env).
Context (showErr : VaultErr → string) (showScheduleErr : ScheduleErr → string) (showPanic : string).
(** SetMandateExecutor, and what executing a mandate answers: the error's text. *)
Context (mandates : option (UUID → Z → result string unit)).

Definition scheduledTxHash (schedule : UUID) (occurrenceAt : Time) : string :=
  "scheduled-" +:+ uuidString schedule +:+ "-" +:+ itoa (Unix occurrenceAt).

Definition RecordScheduledDeposit (user vault : UUID) (amount : D) (schedule : UUID) (occurrenceAt : Time)
    : Srv (Model (D:=D)) :=
  svcRecordDeposit uuidNew dbnow userExists unicode_fold Exponent sv env
    (mkInput vault user amount (scheduledTxHash schedule occurrenceAt) d_zero "" 0).

Definition isNonRetryableMandateError (err : string) : bool :=
  Contains err "MandateExpired" || Contains err "MandateExhausted" || Contains err "MandateNotDue"
  || Contains err "MandateInactive" || Contains err "MandatePaused".

(** The vault service that main.go gives to scheduled deposits: the repository and
    metrics only. *)
Definition ledgerVaultService : VaultService (D:=D) := mkService None None None false None None.

(** What the handler acts on: vaults, schedules, the mandates it asked to
    execute and the completion notices it sent. *)
Record HandlerState := mkHandler {
  hs_world : World (D:=D);
  hs_schedules : Schedules;
  hs_mandates : list (UUID * Z);
  hs_notices : list (UUID * D);
}.

Definition updateScheduleAfterExecution (up : bool) (p : DepositPayload) (x : HandlerState)
    : JobQueue.handled * HandlerState :=
  let nextRun := NextRunAt (dp_occurrence p) (dp_frequency p) in
  match UpdateAfterRun up (dp_schedule p) (dp_occurrence p) nextRun (hs_schedules x) with
  | (Err e, t) => (JobQueue.Failed false (showScheduleErr e), mkHandler (hs_world x) t (hs_mandates x) (hs_notices x))
  | (Ok _, t) =>
      (JobQueue.Returned,
       mkHandler (hs_world x) t (hs_mandates x) (hs_notices x ++ [(dp_user p, dp_amount p)]))
  end.

Definition DepositHandle (up : bool) (payload : string) (x : HandlerState) : JobQueue.handled * HandlerState :=
  match unmarshalDeposit payload with
  | None => (JobQueue.Failed true "json", x)
  | Some p =>
      match dp_mandate p, mandates with
      | Some id, Some execute =>
          let x := mkHandler (hs_world x) (hs_schedules x) (hs_mandates x ++ [(dp_user p, id)]) (hs_notices x) in
          match execute (dp_user p) id with
          | Err text =>
              if isNonRetryableMandateError text then updateScheduleAfterExecution up p x
              else (JobQueue.Failed false text, x)
          | Ok _ => updateScheduleAfterExecution up p x
          end
      | _, _ =>
          match RecordScheduledDeposit (dp_user p) (dp_vault p) (dp_amount p) (dp_schedule p) (dp_occurrence p)
                  (hs_world x) with
          | (o, w) =>
              let x := mkHandler w (hs_schedules x) (hs_mandates x) (hs_notices x) in
              match o with
              | Panics => (JobQueue.Panicked showPanic, x)
              | Done (Ok _) => updateScheduleAfterExecution up p x
              | Done (Err ErrDuplicateTransaction) => updateScheduleAfterExecution up p x
              | Done (Err e) => (JobQueue.Failed false (showErr e), x)
              end
          end
      end
  end.
End Handler.
End Schedules.
