(* ===== verification/ScheduleRuns.v ===== *)
(** What recurring deposits do: the dates of the occurrences, the jobs a sweep
    submits over any queue of the interface [JobClient], and the handler over the
    vault service, as it is wired and as it would be. *)

From stdpp Require Import sorting pretty.
From Stdlib Require Import Ascii.
From S2P Require Import Prelude Sql GoStrings Decimal Vault.
From S2P Require Import Calendar.
From S2P Require Import Ledger.
From S2P Require Import VaultStore.
From S2P Require Import Indexer.
From S2P Require Import VaultBooks.
From S2P Require Import MoneyPath.
From S2P Require Import VaultService.
From S2P Require Import VaultRules.
From S2P Require JobQueue Outbox.
From S2P Require Import JobClients.
From S2P Require Import Schedules.
Open Scope Z_scope.
Open Scope go_scope.

(** ** Dates *)

Section Dates.
Lemma daysInMonth_spec y m : 1 ≤ m ≤ 12 → daysInMonth y m = month_days y m.
Proof.
  intros Hm. unfold daysInMonth, Date. rewrite !Z.mul_0_l, !Z.add_0_r. replace (m + 1 - 1) with m by lia.
  assert (E : days_of (y + m / 12) (m mod 12 + 1) 1 + (0 - 1) = days_of y m (month_days y m)).
  { assert (En : (y + m / 12, m mod 12 + 1) = next_month y m).
    { unfold next_month. destruct (Z.eqb_spec m 12) as [->|]; [done|].
      rewrite Z.div_small, Z.mod_small by lia. by rewrite Z.add_0_r. }
    pose proof (month_length y m Hm) as Hl. rewrite <-En in Hl. cbn [fst snd] in Hl. rewrite Hl.
    assert (E2 : days_of y m (month_days y m) = days_of y m 1 + (month_days y m - 1)) by (rewrite <-days_of_day; f_equal; lia).
    rewrite E2. lia. }
  rewrite E. pose proof (date_of_days y m (month_days y m) 0) as Hd. rewrite Z.add_0_r in Hd.
  rewrite Hd; [done| |split; [done|apply Day_pos]]. split; [done|]. pose proof (month_days_range y m). lia.
Qed.

(** The date a month after [y], [m], [d]. *)
Definition month_later (y m d : Z) : Z * Z * Z :=
  let n := next_month y m in (n.1, n.2, Z.min d (month_days n.1 n.2)).

Lemma next_month_range y m : 1 ≤ m ≤ 12 → 1 ≤ (next_month y m).2 ≤ 12.
Proof. unfold next_month. destruct (Z.eqb_spec m 12); simpl; lia. Qed.

Lemma addOneMonth_spec t :
  let '(y, m, d) := date t in
  let '(y', m', d') := month_later y m d in
  valid y' m' d' ∧ addOneMonth t = days_of y' m' d' * Day + tod t.
Proof.
  pose proof (date_split t) as Ht. unfold addOneMonth. destruct (date t) as [[y m] d]. destruct Ht as [[Hm Hd] _].
  unfold month_later. pose proof (next_month_range y m Hm) as Hn.
  assert (En : (if 12 <? m + 1 then (y + 1, 1) else (y, m + 1)) = next_month y m).
  { unfold next_month. destruct (Z.eqb_spec m 12), (Z.ltb_spec 12 (m + 1)); done || lia. }
  rewrite En. destruct (next_month y m) as [y' m']. cbn [fst snd] in *. rewrite daysInMonth_spec by done.
  pose proof (month_days_range y' m'). split; [split; lia|].
  rewrite Date_clock by done. f_equal. f_equal. f_equal. destruct (Z.ltb_spec (month_days y' m') d); lia.
Qed.

Lemma next_run_spec t f : accepted f = true →
  t + 7 * Day ≤ NextRunAt t f ≤ t + 31 * Day ∧ tod (NextRunAt t f) = tod t
  ∧ (f = "weekly"%string → NextRunAt t f = t + 7 * Day)
  ∧ (f = "biweekly"%string → NextRunAt t f = t + 14 * Day)
  ∧ (f = "monthly"%string → let '(y, m, d) := date t in date (NextRunAt t f) = month_later y m d).
Proof.
  assert (Htod : ∀ n, tod (t + n * Day) = tod t) by (intros; unfold tod; apply Z.mod_add; pose proof Day_pos; lia).
  pose proof Day_pos as HD. unfold NextRunAt, accepted. intros Ha.
  destruct (decide (f = "weekly"%string)) as [H1|H1]; [rewrite AddDate_days, Htod; split_and!; congruence || lia|].
  destruct (decide (f = "biweekly"%string)) as [H2|H2]; [rewrite AddDate_days, Htod; split_and!; congruence || lia|].
  destruct (decide (f = "monthly"%string)) as [H3|H3]; [|by rewrite !bool_decide_false in Ha].
  pose proof (addOneMonth_spec t) as Hs. pose proof (date_split t) as Ht.
  destruct (date t) as [[y m] d]. destruct Ht as [[Hm Hd] Ht].
  destruct (month_later y m d) as [[y' m'] d'] eqn:El. destruct Hs as [Hv ->].
  pose proof (tod_range t) as Hr. rewrite tod_of_days by done.
  assert (Hb : 28 ≤ days_of y' m' d' - days_of y m d ≤ 31).
  { unfold month_later in El. injection El as <- <- <-. pose proof (month_length y m Hm) as Hl.
    pose proof (month_days_range y m). pose proof (month_days_range (next_month y m).1 (next_month y m).2).
    assert (E : ∀ a b c, days_of a b c = days_of a b 1 + (c - 1)) by (intros; rewrite <-days_of_day; f_equal; lia).
    rewrite (E y m d), (E (next_month y m).1). lia. }
  split_and!; [nia|nia|done|done|done|]. intros _. by rewrite date_of_days.
Qed.

Lemma next_run_progress t f : accepted f = true → t + 7 * Day ≤ NextRunAt t f ∧ t < NextRunAt t f.
Proof. intros H. destruct (next_run_spec t f H) as [? _]. pose proof Day_pos. lia. Qed.

(** C13: For every frequency that validation and the table's constraint accept, the
    next occurrence comes strictly later, between a week and 31 days after the last
    and at the same time of day: seven or fourteen days, or the same day of the next
    month, or that month's last day where it is shorter, across years and leap
    years.  A frequency that is none of them would not advance at all. *)
Theorem next_run_advances t f :
  (accepted f = true →
     t + 7 * Day ≤ NextRunAt t f ≤ t + 31 * Day ∧ tod (NextRunAt t f) = tod t
     ∧ (f = "weekly"%string → NextRunAt t f = t + 7 * Day)
     ∧ (f = "biweekly"%string → NextRunAt t f = t + 14 * Day)
     ∧ (f = "monthly"%string → let '(y, m, d) := date t in date (NextRunAt t f) = month_later y m d))
  ∧ (accepted f = false → NextRunAt t f = t).
Proof.
  split; [apply next_run_spec|]. unfold NextRunAt, accepted. intros Ha. go_bool. repeat case_decide; simplify_eq; done.
Qed.
End Dates.

(** ** The sweep *)

Section Sweep.
Context {D : Type} `{!Decimal D}.
Context (dbnow : Time) (chars : string → Z) (goals : UUID → result ScheduleErr (SavingsGoal (D:=D))).
Context (sumVaultBalance : UUID → string → result ScheduleErr D) (uuidString : UUID → string).
Context `{!DepositJSON (D:=D)} `{!DepositJSONLaws (D:=D)} {Q : Type} `{JobClient Q}.
Implicit Types (c : RecurringDepositConfig) (s : SavingsSchedule (D:=D)) (q : Q) (t : Schedules).

#[local] Abbreviation process := (processSchedule chars dbnow goals sumVaultBalance uuidString).
#[local] Abbreviation sweep := (DepositTick chars dbnow goals sumVaultBalance uuidString).

(** The job of an occurrence whose goal is neither paused nor reached. *)
Record deposit_order c s (i : JobQueue.EnqueueInput) : Prop := {
  do_open : IsGoalPausedOrArchived goals (sc_goal s) (sc_user s) = Ok false;
  do_payload : ∃ name, IsGoalCompleted goals sumVaultBalance (sc_goal s) (sc_user s) = Ok (false, name)
    ∧ marshalDeposit (payload_for s name) = Some (JobQueue.in_Payload i);
  do_input : i = deposit_submission uuidString c s (JobQueue.in_Payload i);
}.

Lemma process_steps c e s t q :
  client_ok q →
  client_ok (process c e s t q).2
  ∧ rtc (jstep (λ i, te_still e (sc_id s) = true ∧ deposit_order c s i)) (jobs q) (jobs (process c e s t q).2).
Proof.
  intros Hq. unfold processSchedule.
  destruct (IsGoalPausedOrArchived _ _ _) as [[]|] eqn:Ep; [done| |done].
  destruct (IsGoalCompleted _ _ _ _) as [[[] name]|] eqn:Ec; [done| |done].
  destruct (te_still e (sc_id s)) eqn:Es; [|done]. simpl.
  destruct (marshalDeposit _) as [payload|] eqn:Em; [|done]. simpl.
  destruct (Outbox.enqueue _ q) as [r q'] eqn:Eq. apply client_step in Eq as [Hq' Hs]; [|done]. simpl.
  split; [done|]. eapply jsteps_mono; [|exact Hs]. intros i <-. split; [done|].
  split; [done|by exists name|done].
Qed.

(** The orders of a tick. *)
Definition tick_order c e t i : Prop :=
  te_leads e = true ∧ ∃ due s, ListDue (D:=D) (te_list e) (te_now e) t = Ok due ∧ s ∈ due
    ∧ te_still e (sc_id s) = true ∧ deposit_order c s i.

Lemma processAll_steps c e (P : JobQueue.EnqueueInput → Prop) due t q :
  (∀ s i, s ∈ due → te_still e (sc_id s) = true → deposit_order c s i → P i) → client_ok q →
  let q' := (processAll chars dbnow goals sumVaultBalance uuidString c e due t q).2 in
  client_ok q' ∧ rtc (jstep P) (jobs q) (jobs q').
Proof.
  unfold processAll. revert t q. induction due as [|s due IH]; intros t q HP Hq; simpl; [done|].
  destruct (process_steps c e s t q Hq) as [Hq1 Hs1]. destruct (process c e s t q) as [t1 q1]. simpl in *.
  destruct (IH t1 q1) as [Hq2 Hs2]; [intros s' i Hin; apply HP; by right|done|]. split; [done|].
  etrans; [|exact Hs2]. eapply jsteps_mono; [|exact Hs1]. intros i [Hst Ho]. eapply HP; [by left|done|done].
Qed.

Lemma sweep_steps c e t q :
  client_ok q → client_ok (sweep c e t q).2 ∧ rtc (jstep (tick_order c e t)) (jobs q) (jobs (sweep c e t q).2).
Proof.
  intros Hq. unfold DepositTick. destruct (te_leads e) eqn:El; [|done]. simpl.
  destruct (ListDue _ _ _) as [due|] eqn:Ed; [|done].
  apply processAll_steps; [|done]. intros s i Hin Hst Ho. split; [done|]. by exists due, s.
Qed.

Lemma order_in_deposit c s i :
  deposit_order c s i →
  JobQueue.in_Type i = RecurringDepositJobType
  ∧ (∃ name, unmarshalDeposit (payload_of i) = Some (payload_for s name))
  ∧ JobQueue.nullText (JobQueue.in_IdempotencyKey i)
    = Some (recurringDepositIdempotencyKey uuidString (sc_id s) (sc_next s) (recurring_window c)).
Proof.
  intros [_ (name & _ & Hp) Hi]. apply unmarshal_marshal_deposit in Hp. split; [by rewrite Hi|]. split.
  - exists name. unfold payload_of. case_decide as E; [|done]. by rewrite E, unmarshal_deposit_empty in Hp.
  - rewrite Hi. simpl. unfold JobQueue.nullText. case_decide as E; [|done]. exfalso.
    unfold recurringDepositIdempotencyKey, windowKey in E. by destruct (uuidString (sc_id s)).
Qed.

Lemma ListDue_spec up now t due :
  ListDue (D:=D) up now t = Ok due →
  ∀ s, s ∈ due → ∃ row, t !! sc_id s = Some row ∧ s_active row = true ∧ s_next row ≤ now
    ∧ s = scanSavingsSchedule (sc_id s) row.
Proof.
  unfold ListDue, scanned. destruct up; [|done]. intros [= <-] s Hs.
  apply list_elem_of_fmap in Hs as ([id row] & -> & Hr). rewrite merge_sort_Permutation in Hr.
  apply filtered_In in Hr as [Hr Ha]. exists row. cbn [fst snd] in *. go_bool. done.
Qed.

(** A sweep adds to the queue only occurrences of active schedules that are due
    at its reading of the clock and whose goal is neither paused, archived nor
    reached, and only while the instance leads, at the top of the sweep and again
    right before each submission; each job carries the schedule and the due time of
    its occurrence. *)
Theorem swept_occurrences_are_due c e t q id job :
  client_ok q → jobs (sweep c e t q).2 !! id = Some job → jobs q !! id = None →
  te_leads e = true ∧ JobQueue.r_type job = RecurringDepositJobType
  ∧ ∃ schedule row name,
      t !! schedule = Some row ∧ s_active row = true ∧ s_next row ≤ te_now e
      ∧ te_still e schedule = true
      ∧ IsGoalPausedOrArchived goals (s_goal row) (s_user row) = Ok false
      ∧ IsGoalCompleted goals sumVaultBalance (s_goal row) (s_user row) = Ok (false, name)
      ∧ (∃ name', unmarshalDeposit (JobQueue.r_payload job)
           = Some (payload_for (scanSavingsSchedule schedule row) name'))
      ∧ JobQueue.r_idempotency_key job
        = Some (recurringDepositIdempotencyKey uuidString schedule (s_next row) (recurring_window c)).
Proof.
  intros Hq Hjob Hnew. destruct (sweep_steps c e t q Hq) as [_ Hs].
  destruct (jsteps_new _ _ _ _ _ Hs Hnew Hjob) as (i & (Hl & due & s & Hdue & Hin & Hst & Hi) & E).
  destruct (order_in_deposit _ _ _ Hi) as (Ht & (name' & Hp) & Hk).
  unfold order_of, order_in in E. injection E as E1 E2 E3. split; [done|]. split; [congruence|].
  destruct (ListDue_spec _ _ _ _ Hdue s Hin) as (row & Hr & Ha & Hn & Es).
  destruct Hi as [Hopen (name & Hc & _) _]. exists (sc_id s), row, name. rewrite Es in Hopen, Hc.
  split_and!; try done; [|].
  - exists name'. rewrite E2, Hp. by rewrite <-Es.
  - rewrite E3, Hk. by rewrite Es at 2.
Qed.

(** *** Histories *)

Definition submitted c (i : JobQueue.EnqueueInput) : Prop :=
  JobQueue.in_Type i ≠ RecurringDepositJobType ∨ ∃ s, deposit_order c s i.

Definition of_occurrence c (o : string * string * option string) : Prop :=
  o.1.1 = RecurringDepositJobType →
  ∃ p, unmarshalDeposit o.1.2 = Some p
    ∧ o.2 = Some (recurringDepositIdempotencyKey uuidString (dp_schedule p) (dp_occurrence p) (recurring_window c)).

Lemma submitted_occurrence c i : submitted c i → of_occurrence c (order_in i).
Proof.
  intros [Hne|(s & Hi)] Ht; [done|]. destruct (order_in_deposit _ _ _ Hi) as (_ & (name & Hp) & Hk).
  by eexists.
Qed.

(** C12: However many instances sweep, at whatever moments they lead or believe to,
    two live jobs of one schedule and one due time are the same job: a doubled
    leader cannot double an occurrence that is still queued. *)
Theorem one_live_job_per_occurrence c st id id' r r' p p' :
  rtc (jstep (submitted c)) ∅ st →
  st !! id = Some r → st !! id' = Some r' → JobQueue.live r = true → JobQueue.live r' = true →
  JobQueue.r_type r = RecurringDepositJobType → JobQueue.r_type r' = RecurringDepositJobType →
  unmarshalDeposit (JobQueue.r_payload r) = Some p → unmarshalDeposit (JobQueue.r_payload r') = Some p' →
  dp_schedule p = dp_schedule p' → dp_occurrence p = dp_occurrence p' → id = id'.
Proof.
  intros Hs Hr Hr' Hl Hl' Ht Ht' Hp Hp' Es Eo.
  pose proof (jsteps_orders _ (of_occurrence c) _ _ (submitted_occurrence c) Hs) as Ho.
  assert (Hall : all_orders (of_occurrence c) st) by (apply Ho; by intros ??).
  destruct (Hall _ _ Hr Ht) as (p1 & Hp1 & Hk). destruct (Hall _ _ Hr' Ht') as (p2 & Hp2 & Hk'). simpl in *.
  assert (p1 = p) as -> by congruence. assert (p2 = p') as -> by congruence.
  eapply (JobQueue.ti_unique _ (queue_inv _ _ Hs)); [exact Hr|exact Hr'|done|done|congruence|exact Hk|].
  by rewrite Hk', Es, Eo.
Qed.
End Sweep.

(** ** Strings *)

Section Strings.
(** A byte that is in no encoding of white space survives trimming. *)
Lemma strip_keeps back l r : strip back l = Some r → (115 ∈ l)%N → (115 ∈ r)%N.
Proof.
  unfold strip. destruct l as [|b l]; [done|]. destruct (space1 b) eqn:E1.
  { intros [= <-] [E|?]%elem_of_cons; [|done]. subst b. done. }
  destruct l as [|c l]; [done|]. destruct (if back then space2 c b else space2 b c) eqn:E2.
  { intros [= <-] [E|[E|?]%elem_of_cons]%elem_of_cons; [| |done]; subst;
      exfalso; revert E2; unfold space2; destruct back; rewrite ?andb_true_iff, ?orb_true_iff, ?N.eqb_eq; lia. }
  destruct l as [|d l]; [done|]. destruct (if back then space3 d c b else space3 b c d) eqn:E3; [|done].
  intros [= <-] [E|[E|[E|?]%elem_of_cons]%elem_of_cons]%elem_of_cons; [| | |done]; subst; exfalso;
    revert E3; unfold space3; destruct back; rewrite ?orb_true_iff, ?andb_true_iff, ?orb_true_iff, ?andb_true_iff, ?N.eqb_eq, ?N.leb_le; lia.
Qed.

Lemma strips_keep fuel back l : (115 ∈ l)%N → (115 ∈ strips fuel back l)%N.
Proof.
  revert l. induction fuel as [|fuel IH]; intros l Hl; simpl; [done|].
  destruct (strip back l) as [r|] eqn:E; [|done]. apply IH. by eapply strip_keeps.
Qed.

Lemma TrimSpace_keeps s : (115 ∈ bytes s)%N → TrimSpace s ≠ ""%string.
Proof.
  intros Hs. unfold TrimSpace. set (l := reverse _).
  assert (Hl : (115 ∈ l)%N).
  { unfold l. rewrite elem_of_reverse. apply strips_keep. rewrite elem_of_reverse. by apply strips_keep. }
  clearbody l. destruct l as [|b l]; [by apply not_elem_of_nil in Hl|]. done.
Qed.

Lemma append_inj (a b x y : string) : String.length a = String.length b → a +:+ x = b +:+ y → a = b ∧ x = y.
Proof.
  revert b. induction a as [|c a IH]; intros [|d b]; simpl; try done. intros [= Hl] [= -> H].
  by destruct (IH b Hl H) as [-> ->].
Qed.

Definition dash : ascii := "-".

Lemma pretty_N_go_dash x s :
  str_all (λ c, bool_decide (c ≠ dash)) s = true → str_all (λ c, bool_decide (c ≠ dash)) (pretty_N_go x s) = true.
Proof.
  revert s. induction (N.lt_wf_0 x) as [x _ IH]; intros s Hs. destruct (decide (0 < x)%N) as [Hx|Hx].
  - rewrite pretty_N_go_step by done. apply IH; [by apply N.div_lt|]. simpl. rewrite Hs, andb_true_r.
    unfold pretty_N_char. repeat case_match; done.
  - assert (x = 0%N) as -> by lia. by rewrite pretty_N_go_0.
Qed.

Lemma itoa_dash z : 0 ≤ z → str_all (λ c, bool_decide (c ≠ dash)) (itoa z) = true.
Proof.
  intros Hz. unfold itoa, pretty, pretty_Z. destruct z as [|p|p]; [done| |lia].
  unfold pretty, pretty_positive, pretty, pretty_N. case_decide; [done|]. by apply pretty_N_go_dash.
Qed.
End Strings.

(** ** Occurrences *)

Section Occurrences.
Context (uuidString : UUID → string).

Lemma Unix_nonneg t : 0 ≤ t → 0 ≤ Unix t.
Proof. intros Ht. unfold Unix. apply Z.div_pos; [done|]. done. Qed.

Lemma scheduled_hash_inj s1 t1 s2 t2 :
  Inj (=) (=) uuidString → 0 ≤ t1 → 0 ≤ t2 →
  scheduledTxHash uuidString s1 t1 = scheduledTxHash uuidString s2 t2 → s1 = s2 ∧ Unix t1 = Unix t2.
Proof.
  intros Hinj Ht1 Ht2. unfold scheduledTxHash. intros [_ H]%append_inj; [|done].
  change (uuidString s1 +:+ String dash (itoa (Unix t1)) = uuidString s2 +:+ String dash (itoa (Unix t2))) in H.
  apply split_at_last in H as [E H]; [|by apply itoa_dash, Unix_nonneg..].
  apply (inj uuidString) in E. split; [done|]. by apply (inj pretty) in H.
Qed.

(** Transaction hashes tell the occurrences of all schedules since 1970 apart, to the
    second, and the successive occurrences of a schedule have different hashes and,
    with a window of at most six days, different keys in the queue: no occurrence is
    taken for the one before. *)
Theorem successive_occurrences_differ c s s' t t' f :
  Inj (=) (=) uuidString → 0 ≤ t → 0 ≤ t' →
  (scheduledTxHash uuidString s t = scheduledTxHash uuidString s' t' → s = s' ∧ Unix t = Unix t')
  ∧ (accepted f = true →
       scheduledTxHash uuidString s (NextRunAt t f) ≠ scheduledTxHash uuidString s t
       ∧ (recurring_window c ≤ 6 * Day →
          recurringDepositIdempotencyKey uuidString s (NextRunAt t f) (recurring_window c)
          ≠ recurringDepositIdempotencyKey uuidString s t (recurring_window c))).
Proof.
  intros Hinj Ht Ht'. split; [by apply scheduled_hash_inj|]. intros Ha.
  destruct (next_run_progress t f Ha) as [Hge _]. set (n := NextRunAt t f) in *. clearbody n.
  assert (Hsec : ∀ a b, a + Day ≤ b → Unix b ≠ Unix a).
  { intros a b Hab. unfold Unix, Day, Hour, Minute, Second, Millisecond, Microsecond, Nanosecond in *. go_mod. }
  split.
  - intros E. apply scheduled_hash_inj in E as [_ E]; [|done|pose proof Day_pos; lia|done]. revert E. apply Hsec. pose proof Day_pos. lia.
  - intros Hw [_ E]%windowKey_inj. revert E. apply Hsec.
    assert (Hpos : 0 < recurring_window c) by (unfold recurring_window; destruct (Z.leb_spec (rc_Window c) 0); done || lia).
    pose proof (Truncate_window t _ Hpos). pose proof (Truncate_window n _ Hpos). lia.
Qed.
End Occurrences.

(** ** The handler *)

Section Handler.
Context {D : Type} `{!Decimal D} `{!DecimalLaws D}.
Context (dbnow : Time) (chars : string → Z) (Exponent : D → Z) (uuidString : UUID → string).
Context `{!DepositJSON (D:=D)} `{!DepositJSONLaws (D:=D)}.
Context (uuidNew : nat → UUID) (userExists : UUID → bool) (unicode_fold : string → string → bool).
Context (env : Env) (showErr : VaultErr → string) (showScheduleErr : ScheduleErr → string) (showPanic : string).

#[local] Abbreviation handle sv mandates := (DepositHandle chars dbnow Exponent uuidString uuidNew userExists unicode_fold
  sv env showErr showScheduleErr showPanic mandates).
#[local] Abbreviation deposit sv := (svcRecordDeposit uuidNew dbnow userExists unicode_fold Exponent sv env).

Lemma scheduled_hash_trimmed s t : TrimSpace (scheduledTxHash uuidString s t) ≠ ""%string.
Proof. apply TrimSpace_keeps. unfold scheduledTxHash, bytes. simpl. by left. Qed.

(** A program that looks, and fails with an error that is not a duplicate. *)
Definition gentle {A} (m : Srv A) : Prop := ∀ w : World (D:=D),
  (∃ a, m w = (Done (Ok a), w)) ∨ ∃ e, m w = (Done (Err e), w) ∧ e ≠ ErrDuplicateTransaction.

Lemma g_bind {A B} (m : Srv A) (f : A → Srv B) : gentle m → (∀ a, gentle (f a)) → gentle (m ≫= f).
Proof.
  intros Hm Hf w. unfold mbind, Srv_bind. destruct (Hm w) as [[a ->]|(e & -> & ?)]; [apply Hf|right; by exists e].
Qed.
Lemma g_ret {A} (a : A) : gentle (mret a). Proof. intros w. left. by exists a. Qed.
Lemma g_ensure b e : e ≠ ErrDuplicateTransaction → gentle (ensure b e).
Proof. intros He w. unfold ensure. destruct b; [left; by eexists|right; by exists e]. Qed.
Lemma g_read ok id : gentle (read_vault (D:=D) ok id).
Proof.
  intros [tb sp cs]. unfold read_vault, inTables, GetVault, readTx. simpl. destruct ok; simpl; [|right; by eexists].
  destruct (vaults tb !! id) as [r|]; [destruct (live r)|]; [left; by eexists|right; by eexists..].
Qed.

(** The service without a verifier refuses every hash, before it touches anything. *)
Lemma ledger_service_refuses (i : RecordInput (D:=D)) w :
  TrimSpace (ri_hash i) ≠ ""%string →
  ∃ e, deposit ledgerVaultService i w = (Done (Err e), w) ∧ e ≠ ErrDuplicateTransaction.
Proof.
  intros Hh. unfold svcRecordDeposit.
  assert (Hc : gentle (checked_vault Exponent (ledgerVaultService (D:=D)) env OperationDeposit i)).
  { unfold checked_vault, ensureMoneyPathAllowed. simpl moneyPathSwitches.
    repeat (apply g_bind; [first [apply g_ret|by apply g_ensure]|intros ?]). apply g_read. }
  unfold mbind at 1. unfold Srv_bind at 1. destruct (Hc w) as [[m ->]|(e & -> & ?)]; [|by exists e].
  exists ErrChainVerificationUnavailable. split; [|done]. cbv zeta. unfold mbind at 1. unfold Srv_bind at 1. unfold ensure.
  rewrite bool_decide_false by done. by rewrite bool_decide_false by (by intros [? ?]).
Qed.

Lemma ledger_handle up payload x :
  ∃ perm msg, handle ledgerVaultService None up payload x = (JobQueue.Failed perm msg, x).
Proof.
  unfold DepositHandle. destruct (unmarshalDeposit payload) as [p|]; [|by eexists _, _].
  assert (H : ∃ e, RecordScheduledDeposit dbnow Exponent uuidString uuidNew userExists unicode_fold ledgerVaultService env
    (dp_user p) (dp_vault p) (dp_amount p) (dp_schedule p) (dp_occurrence p) (hs_world x) = (Done (Err e), hs_world x)
    ∧ e ≠ ErrDuplicateTransaction) by (apply ledger_service_refuses; apply scheduled_hash_trimmed).
  destruct H as (e & -> & Hne). destruct (dp_mandate p); destruct x; simpl; destruct e; done || by eexists _, _.
Qed.

(** C14: As main.go wires it, the handler of recurring deposits succeeds for no job:
    the vault service it is given has no chain verifier and refuses every deposit
    that comes with a hash, which a scheduled one always does, and no executor of
    mandates is set.  Vaults, schedules and notices stay as they are, so the
    schedule stays due, and the worker never settles the job as succeeded: it goes
    back to the queue or is dead-lettered. *)
Theorem recurring_deposits_never_land up payload x h x' :
  handle ledgerVaultService None up payload x = (h, x') →
  x' = x ∧ h ≠ JobQueue.Returned
  ∧ ∀ c job u now dbok st r, st !! JobQueue.ID job = Some r → JobQueue.r_status r = JobQueue.StatusRunning →
      ∃ r', (JobQueue.process c job h u now dbnow dbok st).2 !! JobQueue.ID job = Some r'
        ∧ JobQueue.r_status r' ≠ JobQueue.StatusSucceeded.
Proof.
  destruct (ledger_handle up payload x) as (perm & msg & ->). intros [= <- <-]. split; [done|]. split; [done|].
  intros c job u now dbok st r Hr Hrun. unfold JobQueue.process. simpl.
  assert (Hup : ∀ f, (JobQueue.update_running f (JobQueue.ID job) st) !! JobQueue.ID job = Some (f r)).
  { intros f. unfold JobQueue.update_running, update_where. rewrite lookup_alter_eq, Hr. simpl.
    unfold JobQueue.is_status. by rewrite bool_decide_true. }
  destruct (perm || _); destruct dbok; simpl; unfold JobQueue.DeadLetter, JobQueue.Retry; rewrite ?Hup;
    eexists; (split; [done|]); simpl; try done; by rewrite Hrun.
Qed.

(** A deposit whose hash is on record changes nothing. *)
Lemma spent_deposit b d id (r : TransactionRecord (D:=D)) s x s' :
  hash_taken (nullif (rec_hash r)) (txs s) = true →
  RecordDeposit uuidNew dbnow userExists b d id r s = (x, s') → same s s'.
Proof.
  intros Hh. unfold RecordDeposit. destruct (d_le _ _); [by intros [= <- <-]|].
  intros [[? _]|([] & Hm & _)]%inTx_spec; [done|]. exfalso.
  apply bind_Tx_Ok in Hm as ([] & s1 & (r0 & r' & _ & _ & _ & ->)%update_one_Ok & Hm).
  apply bind_Tx_Ok in Hm as (n & s2 & Hi & Hm).
  apply insert_row_spec in Hi as (t & Ht & [(-> & _)|(_ & (_ & Hf & _) & _)]); [done|].
  assert (E : t_hash t = nullif (rec_hash r)) by (by apply tx_row_Ok in Ht as (_ & _ & _ & -> & _)).
  rewrite E in Hf. simpl in Hf. congruence.
Qed.

Lemma deposit_spent sv (i : RecordInput (D:=D)) w o w' :
  TrimSpace (ri_hash i) ≠ ""%string →
  hash_taken (Some (TrimSpace (ri_hash i))) (txs (tables w)) = true →
  deposit sv i w = (o, w') → same (tables w) (tables w').
Proof.
  intros Hne Hh. unfold svcRecordDeposit.
  assert (Hstop : ∀ {A B} (m : Srv A) (w1 : World (D:=D)) (o : outcome B), tabled m → tables w1 = tables w →
    (∃ e, m w1 = (Done (Err e), w') ∧ o = Done (Err e)) ∨ m w1 = (Panics, w') ∧ o = Panics → same (tables w) (tables w')).
  { intros A B m w1 o1 Ht Hw Hs. specialize (Ht w1). destruct Hs as [(e & E & _)|(E & _)]; rewrite E in Ht; simpl in Ht;
      by rewrite Ht, Hw. }
  assert (Hnext : ∀ {A} (m : Srv A) (w1 w2 : World (D:=D)) (a : A), tabled m → tables w1 = tables w →
    m w1 = (Done (Ok a), w2) → tables w2 = tables w).
  { intros A m w1 w2 a Ht Hw E. specialize (Ht w1). rewrite E in Ht. simpl in Ht. by rewrite Ht, Hw. }
  intros [(m & w1 & Hm & H)|Hs]%bind_Srv; [|eapply Hstop; [|done|exact Hs]; unfold checked_vault, ensureMoneyPathAllowed; srv].
  apply Hnext in Hm; [|unfold checked_vault, ensureMoneyPathAllowed; srv|done].
  apply bind_Srv in H as [([] & w2 & H2 & H)|Hs]; [|eapply Hstop; [|exact Hm|exact Hs]; srv].
  apply Hnext in H2; [|srv|done]. cbv zeta in H.
  match type of H with context [match depositInvoker sv with Some inv => @?f inv | None => ?z end] =>
    assert (Hinv : (match depositInvoker sv with Some inv => f inv | None => z end) = z) end.
  { destruct (depositInvoker sv); [|done]. by rewrite decide_False. }
  rewrite Hinv in H.
  apply bind_Srv in H as [([] & w3 & H3 & H)|Hs]; [|eapply Hstop; [|exact H2|exact Hs]; srv].
  apply Hnext in H3; [|srv|done].
  apply bind_Srv in H as [(a & w4 & H4 & H)|Hs]; [|eapply Hstop; [|exact H3|exact Hs]; unfold verified; srv].
  apply Hnext in H4; [|unfold verified; srv|done].
  apply bind_Srv in H as [(p & w5 & H5 & H)|Hs]; [|eapply Hstop; [|exact H4|exact Hs]; srv].
  apply Hnext in H5; [|srv|done].
  apply bind_Srv in H as [(sh & w6 & H6 & H)|Hs]; [|eapply Hstop; [|exact H5|exact Hs]; srv].
  apply Hnext in H6; [|srv|done].
  assert (Hrec : ∀ x, inTables (RecordDeposit uuidNew dbnow userExists (e_begin env) (e_commit env) (ri_vault i)
    (mkRecord (owner i m) a (TrimSpace (ri_hash i)) (d_round 6 sh) p (ri_fee i))) w6 = x → same (tables w) (tables x.2)).
  { intros [y w7] (z & s & Hr & _ & ->)%inTables_run. rewrite <-H6. eapply spent_deposit; [|exact Hr]. simpl. rewrite H6.
    unfold nullif. by rewrite decide_False. }
  apply bind_Srv in H as [([] & w7 & H7 & H)|[(e & E & _)|(E & _)]]; [|apply (Hrec _ E)..].
  apply Hrec in H7. simpl in H7. pose proof (read_vault_same (D:=D) (e_reread env) (ri_vault i) w7) as Hs.
  unfold mbind in H. rewrite H in Hs. simpl in Hs. by subst.
Qed.

(** A job of an occurrence that is delivered again after its deposit was
    recorded moves no money, under whatever service it runs; if it succeeds, the
    schedule has advanced by one occurrence, as after the first delivery. *)
Theorem redelivered_occurrence_moves_nothing sv up payload p x h x' :
  unmarshalDeposit payload = Some p →
  hash_taken (Some (TrimSpace (scheduledTxHash uuidString (dp_schedule p) (dp_occurrence p)))) (txs (tables (hs_world x))) = true →
  handle sv None up payload x = (h, x') →
  same (tables (hs_world x)) (tables (hs_world x'))
  ∧ (h = JobQueue.Returned →
     hs_schedules x' = (UpdateAfterRun chars dbnow up (dp_schedule p) (dp_occurrence p)
       (NextRunAt (dp_occurrence p) (dp_frequency p)) (hs_schedules x)).2).
Proof.
  intros Hp Hh. unfold DepositHandle. rewrite Hp.
  set (m := RecordScheduledDeposit _ _ _ _ _ _ _ _ _ _ _ _ _ (hs_world x)).
  destruct m as [o w] eqn:Em. intros H.
  assert (Hs : same (tables (hs_world x)) (tables w)).
  { eapply deposit_spent; [| |exact Em]; [apply scheduled_hash_trimmed|exact Hh]. }
  assert (H' : (match o with
    | Panics => (JobQueue.Panicked showPanic, mkHandler w (hs_schedules x) (hs_mandates x) (hs_notices x))
    | Done (Ok _) | Done (Err ErrDuplicateTransaction) =>
        updateScheduleAfterExecution chars dbnow showScheduleErr up p (mkHandler w (hs_schedules x) (hs_mandates x) (hs_notices x))
    | Done (Err e) => (JobQueue.Failed false (showErr e), mkHandler w (hs_schedules x) (hs_mandates x) (hs_notices x))
    end) = (h, x')) by (by destruct (dp_mandate p)).
  assert (Hup : updateScheduleAfterExecution chars dbnow showScheduleErr up p
      (mkHandler w (hs_schedules x) (hs_mandates x) (hs_notices x)) = (h, x') →
    same (tables (hs_world x)) (tables (hs_world x'))
    ∧ (h = JobQueue.Returned → hs_schedules x' = (UpdateAfterRun chars dbnow up (dp_schedule p) (dp_occurrence p)
         (NextRunAt (dp_occurrence p) (dp_frequency p)) (hs_schedules x)).2)).
  { unfold updateScheduleAfterExecution. simpl. destruct (UpdateAfterRun _ _ _ _ _ _ _) as [[[]|e] t]; by intros [= <- <-]. }
  destruct o as [[mo|e]|]; [by apply Hup| |by injection H' as <- <-].
  destruct e; try (by apply Hup); by injection H' as <- <-.
Qed.
End Handler.
