(* ===== verification/ScheduleTable.v ===== *)
(** The table savings_schedules under every statement of its repository and every
    call of the service: which rows it can hold, and that a goal has one active
    schedule. *)

From S2P Require Import Prelude Sql GoStrings Decimal Vault.
From S2P Require Import Calendar.
From S2P Require Import VaultStore.
From S2P Require Import Schedules.
From S2P Require Import ScheduleRuns.
Open Scope Z_scope.
Open Scope go_scope.

(** ** An update of the table *)

Section Update.
Context (chars : string → Z).
Implicit Types (t : gmap UUID ScheduleRow) (r : ScheduleRow).

(** The fold over some of the rows. *)
Definition write_rows (f : ScheduleRow → result PgError ScheduleRow) (l : list (UUID * ScheduleRow)) t
    : result PgError (Z * gmap UUID ScheduleRow) :=
  foldr (λ (p : UUID * ScheduleRow) acc, '(n, t) ← acc; r ← f p.2; check_schedule chars r;; Ok (n + 1, <[p.1 := r]> t))
    (Ok (0, t)) l.

Lemma write_rows_spec f l t n t' :
  write_rows f l t = Ok (n, t') → NoDup l.*1 →
  (∀ id, id ∉ l.*1 → t' !! id = t !! id)
  ∧ (∀ id r, (id, r) ∈ l → ∃ r', f r = Ok r' ∧ check_schedule chars r' = Ok tt ∧ t' !! id = Some r').
Proof.
  revert n t'. induction l as [|[id0 r0] l IH]; intros n t'; simpl.
  - intros [= _ <-] _. split; [done|]. by intros ?? ?%not_elem_of_nil.
  - intros H [Hnin Hnd]%NoDup_cons. apply bind_Ok in H as ([m t1] & H1 & H). apply bind_Ok in H as (r1 & Hf & H).
    apply bind_Ok in H as ([] & Hc & [= _ <-]). destruct (IH _ _ H1 Hnd) as [Hout Hin]. split.
    + intros id Hid. apply not_elem_of_cons in Hid as [Hne Hid]. rewrite lookup_insert_ne by done. by apply Hout.
    + intros id r [[= -> ->]|Hir]%elem_of_cons.
      * exists r1. split; [done|]. split; [done|]. apply lookup_insert_eq.
      * destruct (Hin id r Hir) as (r' & ? & ? & Hr'). exists r'. split; [done|]. split; [done|].
        rewrite lookup_insert_ne; [done|]. intros ->. apply Hnin. apply list_elem_of_fmap. by exists (id, r).
Qed.

Lemma update_schedules_spec w f t n t' :
  update_schedules chars w f t = Ok (n, t') →
  (∀ id, t !! id = None → t' !! id = None)
  ∧ ∀ id r, t !! id = Some r →
      (w id r = false ∧ t' !! id = Some r)
      ∨ ∃ r', w id r = true ∧ f r = Ok r' ∧ check_schedule chars r' = Ok tt ∧ t' !! id = Some r'.
Proof.
  intros H. apply write_rows_spec in H as [Hout Hin]; [|apply filtered_NoDup]. split.
  - intros id Hn. rewrite Hout; [done|]. intros ((i & r) & -> & Hr)%list_elem_of_fmap.
    apply filtered_In in Hr as [Hr _]. simpl in *. congruence.
  - intros id r Hr. destruct (w id r) eqn:Ew.
    + right. destruct (Hin id r) as (r' & ? & ? & ?); [by apply filtered_In|]. by exists r'.
    + left. split; [done|]. rewrite Hout; [done|]. intros ((i & r0) & -> & Hr0)%list_elem_of_fmap.
      apply filtered_In in Hr0 as [Hr0 Hw]. simpl in *. congruence.
Qed.
End Update.

(** ** The invariant *)

Section Table.
Context {D : Type} `{!Decimal D}.
Context (refs : UUID → UUID → UUID → bool) (chars : string → Z) (dbnow : Time).
Context (goals : UUID → result ScheduleErr (SavingsGoal (D:=D))) (toLower toUpper : string → string) (Exponent : D → Z).
Context (vaultOwner : UUID → result ScheduleErr UUID) (minDeposit : D).

Record schedules_ok (t : gmap UUID ScheduleRow) : Prop := {
  so_row id r : t !! id = Some r → check_schedule chars r = Ok tt;
  so_one id id' r r' : t !! id = Some r → t !! id' = Some r' →
    s_active r = true → s_active r' = true → s_goal r = s_goal r' → id = id';
}.

(** What an update may do to a row. *)
Definition keeps_goal (f : ScheduleRow → result PgError ScheduleRow) : Prop :=
  ∀ r r', f r = Ok r' → s_goal r' = s_goal r ∧ (s_active r' = true → s_active r = true).

Lemma exec_ok up w f t : keeps_goal f → schedules_ok t → schedules_ok (exec_schedules chars up w f t).2.
Proof.
  intros Hf [Hrow Hone]. unfold exec_schedules. destruct up; [|done]. simpl.
  destruct (update_schedules chars w f t) as [[n t']|] eqn:E; [|done].
  assert (schedules_ok t') as Hok; [|by destruct (n =? 0)].
  apply update_schedules_spec in E as [Hnone Hsome].
  assert (Hback : ∀ id r', t' !! id = Some r' → check_schedule chars r' = Ok tt
    ∧ ∃ r, t !! id = Some r ∧ s_goal r' = s_goal r ∧ (s_active r' = true → s_active r = true)).
  { intros id r' Hr'. destruct (t !! id) as [r|] eqn:Er; [|by rewrite Hnone in Hr'].
    destruct (Hsome id r Er) as [[_ E]|(r1 & _ & Hfr & Hc & E)]; rewrite E in Hr'; injection Hr' as <-.
    - split; [by eapply Hrow|]. by exists r.
    - split; [done|]. exists r. split; [done|]. by apply Hf. }
  split.
  - intros id r Hr. by destruct (Hback id r Hr).
  - intros id id' r r' Hr Hr' Ha Ha' Hg.
    destruct (Hback _ _ Hr) as (_ & q & Hq & Eg & Hqa). destruct (Hback _ _ Hr') as (_ & q' & Hq' & Eg' & Hqa').
    apply (Hone id id' q q'); auto. congruence.
Qed.

Lemma inactive_keeps : keeps_goal (inactive dbnow).
Proof. by intros r r' [= <-]. Qed.

Lemma ran_keeps l n : keeps_goal (λ r, Ok (ran dbnow l n r)).
Proof. by intros r r' [= <-]. Qed.

Lemma Create_ok up (s : SavingsSchedule (D:=D)) t : schedules_ok t → schedules_ok (Create refs chars dbnow up s t).2.
Proof.
  intros [Hrow Hone]. unfold Create. destruct up; [|done]. simpl.
  destruct (insert_schedule refs chars dbnow (sc_id s) s t) as [t'|] eqn:E; [|done]. simpl.
  unfold insert_schedule in E. apply bind_Ok in E as (a & _ & E). apply bind_Ok in E as ([] & Hc & E).
  apply bind_Ok in E as ([] & Hpk & E). apply bind_Ok in E as ([] & Hg & E). apply bind_Ok in E as ([] & _ & [= <-]).
  apply guard_err_Ok in Hg. set (r := mkScheduleRow _ _ _ _ _ _ _ _ _ _ _ _) in *.
  assert (Hfree : ∀ id' r', t !! id' = Some r' → s_active r' = true → s_active r = true → s_goal r' = s_goal r → id' = sc_id s).
  { intros id' r' Hr' Ha' Ha E. destruct (decide (id' = sc_id s)) as [|Hne]; [done|]. exfalso.
    unfold goal_taken in Hg. rewrite Ha in Hg. simpl in Hg. apply not_true_iff_false in Hg. apply Hg.
    apply existsb_exists. exists (id', r'). split; [by apply list_elem_of_In, elem_of_map_to_list|]. simpl.
    by rewrite Ha', E, Z.eqb_refl, (proj2 (Z.eqb_neq _ _) Hne). }
  split.
  - intros id r0. rewrite lookup_insert. case_decide; [by intros [= <-]|]. apply Hrow.
  - intros id id' r0 r0'. rewrite !lookup_insert. repeat case_decide; subst; try done.
    + intros [= <-] Hr' Ha Ha' Hg'. symmetry. by apply (Hfree id' r0').
    + intros Hr [= <-] Ha Ha' Hg'. by apply (Hfree id r0).
    + apply Hone.
Qed.

(** The calls that write the table. *)
Inductive sched_op :=
| SCreate (up : bool) (newID : UUID) (now : Time) (user goal : UUID) (amount : D) (currency frequency : string) (vault : UUID)
| SUpdate (upRead up : bool) (user goal : UUID) (i : UpdateScheduleInput (D:=D))
| SCancel (up : bool) (user goal schedule : UUID)
| SDelete (up : bool) (user goal : UUID)
| SDeactivate (up : bool) (id : UUID)
| SRan (up : bool) (id : UUID) (lastRunAt nextRunAt : Time).

Definition run_op (o : sched_op) (t : gmap UUID ScheduleRow) : gmap UUID ScheduleRow :=
  match o with
  | SCreate up newID now user goal amount currency frequency vault =>
      (svcCreateSchedule refs chars dbnow goals toLower toUpper Exponent vaultOwner minDeposit up newID now user goal
         amount currency frequency vault t).2
  | SUpdate upRead up user goal i =>
      (svcUpdateSchedule chars dbnow goals toLower toUpper Exponent vaultOwner minDeposit upRead up user goal i t).2
  | SCancel up user goal schedule => (svcCancelSchedule chars dbnow goals up user goal schedule t).2
  | SDelete up user goal => (svcDeleteActive chars dbnow goals up user goal t).2
  | SDeactivate up id => (Deactivate chars dbnow up id t).2
  | SRan up id l n => (UpdateAfterRun chars dbnow up id l n t).2
  end.

Lemma run_op_ok o t : schedules_ok t → schedules_ok (run_op o t).
Proof.
  assert (Hfst : ∀ {A B} (x : result ScheduleErr A * gmap UUID ScheduleRow) (b : B),
    schedules_ok x.2 →
    schedules_ok (match x with (Ok _, t') => (Ok b, t') | (Err e, t') => (Err e, t') end : result ScheduleErr B * _).2).
  { by intros A B [[a|e] t'] b. }
  intros Ht. destruct o; simpl; unfold svcCreateSchedule, svcUpdateSchedule, svcCancelSchedule, svcDeleteActive, checked;
    try (case_match; [|done]).
  - by apply Hfst, Create_ok.
  - apply Hfst. apply exec_ok; [|done]. intros r r' Hr. apply bind_Ok in Hr as (a & _ & [= <-]). done.
  - apply exec_ok; [apply inactive_keeps|done].
  - apply exec_ok; [apply inactive_keeps|done].
  - apply exec_ok; [apply inactive_keeps|done].
  - apply exec_ok; [apply ran_keeps|done].
Qed.

(** Whatever calls the API, the sweep and the handler make, in any order and
    with any statement failing, a goal has at most one active schedule, and every
    row of the table has a positive amount and one of the three frequencies, so that
    its next occurrence always lies at least a week after the current one. *)
Theorem schedules_well_formed (l : list sched_op) id r :
  let t := foldl (λ t o, run_op o t) ∅ l in
  t !! id = Some r →
  0 < s_amount r ∧ accepted (s_frequency r) = true ∧ s_next r + 7 * Day ≤ NextRunAt (s_next r) (s_frequency r)
  ∧ (s_active r = true → ∀ id' r', t !! id' = Some r' → s_active r' = true → s_goal r' = s_goal r → id' = id).
Proof.
  intros t. assert (Hok : schedules_ok t).
  { assert (∀ t0, schedules_ok t0 → schedules_ok (foldl (λ t o, run_op o t) t0 l)) as H; [|apply H; split; by intros *; rewrite lookup_empty].
    induction l as [|o l IH]; intros t0 H0; simpl; [done|]. by apply IH, run_op_ok. }
  clearbody t. intros Hr. pose proof (so_row _ Hok _ _ Hr) as Hc. unfold check_schedule in Hc.
  apply bind_Ok in Hc as ([] & _ & Hc). apply bind_Ok in Hc as ([] & Ha%guard_err_Ok & Hf%guard_err_Ok).
  go_bool. split; [done|]. split; [done|]. split; [by apply next_run_progress|].
  intros Hact id' r' Hr' Hact' Hg. by eapply (so_one _ Hok).
Qed.
End Table.
