(* ===== verification/ScheduleScenes.v ===== *)
(** Recurring deposits on concrete schedules: where the theorems of
    [ScheduleRuns] and [ScheduleTable] apply, and what happens at the edges. *)

From stdpp Require Import pretty.
From Stdlib Require Import Ascii.
From S2P Require Import Prelude Sql GoStrings Decimal Vault.
From S2P Require AuditLog.
From S2P Require Import Calendar.
From S2P Require Import Ledger.
From S2P Require Import VaultStore.
From S2P Require Import Indexer.
From S2P Require Import VaultBooks.
From S2P Require Import VaultPool.
From S2P Require Import MoneyPath.
From S2P Require Import VaultService.
From S2P Require Import VaultScenes.
From S2P Require JobQueue Outbox.
From S2P Require Import JobClients.
From S2P Require Import Schedules.
From S2P Require Import ScheduleRuns.
From S2P Require Import ScheduleTable.
Open Scope Z_scope.
Open Scope go_scope.

(** ** A schedule and its sweep *)

Abbreviation coded := (Z * Z * Z * Z * (Z * positive) * string * string * string * Z * option Z)%type.

#[local] Instance scene_deposit_JSON : DepositJSON (D:=Q) := {
  marshalDeposit p :=
    Some (String "{" (AuditLog.to_bits (encode (A := coded)
      (dp_schedule p, dp_user p, dp_vault p, dp_goal p, (Qnum (dp_amount p), Qden (dp_amount p)), dp_currency p,
       dp_frequency p, dp_goal_name p, dp_occurrence p, dp_mandate p))));
  unmarshalDeposit s :=
    match s with
    | String "{" s =>
        '(i, u, v, g, (n, d), c, f, name, t, m) ← AuditLog.of_bits s ≫= decode (A := coded);
        Some (mkDepositPayload i u v g (Qmake n d) c f name t m)
    | _ => None
    end;
}.

#[local] Instance scene_deposit_JSONLaws : DepositJSONLaws (D:=Q).
Proof.
  split; [|done]. intros [i u v g [n d] c f name t m] s [= <-]. simpl. rewrite AuditLog.of_to_bits. simpl.
  by rewrite decode_encode.
Qed.

(** January 31, 2026 at noon. *)
Definition jan31 : Time := Date 2026 1 31 12 0 0 0.

Definition scene_goal (goal : UUID) : result ScheduleErr (SavingsGoal (D:=Q)) :=
  Ok (mkGoal 7 "active" 1000%Q "USDC" "house").
Definition scene_sum (user : UUID) (currency : string) : result ScheduleErr Q := Ok 100%Q.

(** User 7 saves 25 a month towards goal 3 in vault 1. *)
Definition scene_create : sched_op (D:=Q) := SCreate true 50 jan31 7 3 25%Q "usdc" "Monthly" 1.

#[local] Abbreviation run_ops l := (foldl (λ t o, run_op (λ _ _ _, true) len 9 scene_goal (ToLower (λ s, s)) (λ _, "USDC"%string) eight
  (λ _, Ok 7) 10%Q o t) ∅ l).

Definition scene_schedules : gmap UUID ScheduleRow := run_ops [scene_create].

Definition scene_schedule : ScheduleRow :=
  mkScheduleRow 7 3 1 2500000000 "USDC" "monthly" jan31 None true None 9 9.

Lemma scene_schedules_eq : scene_schedules = {[50 := scene_schedule]}.
Proof. vm_compute. reflexivity. Qed.

Lemma schedules_well_formed_witness :
  run_ops [scene_create; SCreate true 51 jan31 7 3 30%Q "usdc" "weekly" 1] !! 50 = Some scene_schedule
  ∧ s_next scene_schedule + 7 * Day ≤ NextRunAt (s_next scene_schedule) "monthly".
Proof.
  assert (E : run_ops [scene_create; SCreate true 51 jan31 7 3 30%Q "usdc" "weekly" 1] !! 50 = Some scene_schedule)
    by (vm_compute; reflexivity).
  split; [exact E|].
  exact (proj1 (proj2 (proj2 (schedules_well_formed (λ _ _ _, true) len 9 scene_goal (ToLower (λ s, s)) (λ _, "USDC"%string) eight
    (λ _, Ok 7) 10%Q [scene_create; SCreate true 51 jan31 7 3 30%Q "usdc" "weekly" 1] 50 scene_schedule E)))).
Defined.

Definition sweep_cfg : RecurringDepositConfig := NewRecurringDepositJob (mkRecurring true 0 0).
Definition sweep_env : TickEnv := mkTickEnv true (jan31 + Hour) true (λ _, true) (λ _, true).
Definition sweep_call (id : UUID) : Call := mkCall id (jan31 + Hour) (jan31 + Hour) true (λ st, st).
Definition sweep_queue : Session := mkSession [sweep_call 200; sweep_call 201] ∅.

#[local] Abbreviation sweep e t q := (DepositTick len 9 scene_goal scene_sum itoa sweep_cfg e t q).

Definition swept : Session := (sweep sweep_env scene_schedules sweep_queue).2.

Lemma sweep_queue_ok : client_ok sweep_queue.
Proof. simpl. unfold session_ok. simpl. split_and!; try done. rewrite lookup_empty. by intros []. Qed.

Definition scene_deposit : DepositPayload (D:=Q) := payload_for (scanSavingsSchedule 50 scene_schedule) "house".
Definition scene_text : string := default "" (marshalDeposit scene_deposit).

Lemma swept_job : ∃ job, jobs swept !! 200 = Some job ∧ JobQueue.r_payload job = scene_text
  ∧ JobQueue.r_type job = RecurringDepositJobType ∧ JobQueue.live job = true.
Proof.
  destruct (jobs swept !! 200) as [job|] eqn:E.
  - exists job. split; [done|]. revert E. vm_compute. by intros [= <-].
  - exfalso. vm_compute in E. discriminate E.
Qed.


Lemma swept_history : rtc (jstep (submitted scene_goal scene_sum itoa sweep_cfg)) ∅ (jobs swept).
Proof.
  destruct (sweep_steps 9 len scene_goal scene_sum itoa sweep_cfg sweep_env scene_schedules sweep_queue sweep_queue_ok)
    as [_ Hs].
  eapply jsteps_mono; [|exact Hs]. intros i (_ & due & s & _ & _ & _ & Hi). right. by exists s.
Qed.

Lemma scene_decoded : unmarshalDeposit scene_text = Some scene_deposit.
Proof. by apply unmarshal_marshal_deposit. Qed.

Lemma swept_occurrences_are_due_witness :
  ∃ job, jobs swept !! 200 = Some job ∧ JobQueue.r_type job = "recurring_deposit"%string
    ∧ ∃ schedule row, scene_schedules !! schedule = Some row ∧ s_active row = true ∧ s_next row ≤ jan31 + Hour.
Proof.
  destruct swept_job as (job & Hj & _). exists job. split; [exact Hj|].
  destruct (swept_occurrences_are_due 9 len scene_goal scene_sum itoa sweep_cfg sweep_env scene_schedules sweep_queue 200 job
    sweep_queue_ok Hj eq_refl) as (_ & Ht & schedule & row & _ & Hr & Ha & Hn & _).
  split; [exact Ht|]. exact (ex_intro _ schedule (ex_intro _ row (conj Hr (conj Ha Hn)))).
Defined.

Lemma one_live_job_per_occurrence_witness :
  ∃ job, jobs swept !! 200 = Some job ∧ unmarshalDeposit (JobQueue.r_payload job) = Some scene_deposit ∧ 200 = 200.
Proof.
  destruct swept_job as (job & Hj & Hp & Ht & Hl). exists job. split; [exact Hj|].
  assert (Hu : unmarshalDeposit (JobQueue.r_payload job) = Some scene_deposit) by (rewrite Hp; exact scene_decoded).
  split; [exact Hu|].
  exact (one_live_job_per_occurrence scene_goal scene_sum itoa sweep_cfg (jobs swept) 200 200 job job scene_deposit scene_deposit
    swept_history Hj Hj Hl Hl Ht Ht Hu Hu eq_refl eq_refl).
Defined.

Lemma successive_occurrences_differ_witness :
  scheduledTxHash itoa 50 (NextRunAt jan31 "monthly") ≠ scheduledTxHash itoa 50 jan31
  ∧ recurringDepositIdempotencyKey itoa 50 (NextRunAt jan31 "monthly") (recurring_window sweep_cfg)
    ≠ recurringDepositIdempotencyKey itoa 50 jan31 (recurring_window sweep_cfg).
Proof.
  destruct (proj2 (successive_occurrences_differ itoa sweep_cfg 50 50 jan31 jan31 "monthly" pretty_Z_inj
    ltac:(vm_compute; done) ltac:(vm_compute; done)) eq_refl) as [H1 H2].
  split; [exact H1|]. apply H2. vm_compute. discriminate.
Defined.

(** ** The handler as it is wired *)

#[local] Abbreviation handle sv mandates := (DepositHandle len 9 eight itoa demo_uuid (λ _, true) String.eqb
  sv scene_env (λ _, "refused"%string) (λ _, "schedule"%string) "panic" mandates).

(** The owner's vault with a hundred in it, and the schedule above. *)
Definition scene_state : HandlerState (D:=Q) := mkHandler (scene hundred) scene_schedules [] [].

Lemma recurring_deposits_never_land_witness :
  handle ledgerVaultService None true scene_text scene_state = (JobQueue.Failed false "refused", scene_state)
  ∧ JobQueue.Failed false "refused" ≠ JobQueue.Returned.
Proof.
  destruct (handle ledgerVaultService None true scene_text scene_state) as [h x'] eqn:E.
  destruct (recurring_deposits_never_land 9 len eight itoa demo_uuid (λ _, true) String.eqb scene_env
    (λ _, "refused"%string) (λ _, "schedule"%string) "panic" true scene_text scene_state h x' E) as (-> & Hne & _).
  assert (Hh : h = JobQueue.Failed false "refused").
  { apply (f_equal fst) in E. cbn [fst] in E. rewrite <-E. vm_compute. reflexivity. }
  split; [by rewrite Hh|]. rewrite <-Hh. exact Hne.
Defined.

(** The full circle: the sweep submits the occurrence, a worker takes it, the
    handler refuses it until it is dead, and the next sweep submits it again, for
    the schedule is where it was. *)
Definition worker_cfg : JobQueue.Config := JobQueue.withDefaults (JobQueue.mkConfig true 0 0 0 0 0 (JobQueue.mkBackoff 0 0) 0 0).

Definition one_attempt (st : gmap UUID JobQueue.row) : gmap UUID JobQueue.row :=
  let '(jobs, st) := JobQueue.Dequeue (λ _, false)
    (JobQueue.mkDequeueParams RecurringDepositJobType 1 30 (jan31 + 100 * Hour)) (jan31 + 100 * Hour) st in
  match jobs with
  | job :: _ =>
      (JobQueue.process worker_cfg job (handle ledgerVaultService None true (JobQueue.Payload job) scene_state).1
         f64_zero (jan31 + 2 * Hour) (jan31 + 2 * Hour) true st).2
  | [] => st
  end.

Definition given_up : gmap UUID JobQueue.row := Nat.iter 5 one_attempt (jobs swept).
Definition swept_again : Session :=
  (sweep (mkTickEnv true (jan31 + 200 * Hour) true (λ _, true) (λ _, true)) scene_schedules
     (mkSession [sweep_call 201] given_up)).2.

Example refused_occurrence_comes_back :
  (JobQueue.r_status <$> given_up !! 200) = Some JobQueue.StatusDead
  ∧ (JobQueue.r_status <$> jobs swept_again !! 201) = Some JobQueue.StatusPending
  ∧ (JobQueue.r_payload <$> jobs swept_again !! 201) = (JobQueue.r_payload <$> given_up !! 200).
Proof. vm_compute. by repeat split. Qed.

(** ** The handler with a service that can verify *)

(** A verifier that finds a deposit of 25 under every hash. *)
Definition trusting : VaultService (D:=Q) :=
  mkService None None (Some (λ _ _ _, Ok (mkVerified 25%Q "GUSER"))) false None None.

Definition first_delivery : JobQueue.handled * HandlerState (D:=Q) := handle trusting None true scene_text scene_state.
Definition second_delivery : JobQueue.handled * HandlerState (D:=Q) := handle trusting None true scene_text first_delivery.2.

Lemma redelivered_occurrence_moves_nothing_witness :
  second_delivery.1 = JobQueue.Returned
  ∧ length (txs (tables (hs_world first_delivery.2))) = 1%nat
  ∧ same (tables (hs_world first_delivery.2)) (tables (hs_world second_delivery.2)).
Proof.
  split; [vm_compute; reflexivity|]. split; [vm_compute; reflexivity|].
  refine (proj1 (redelivered_occurrence_moves_nothing 9 len eight itoa demo_uuid (λ _, true) String.eqb scene_env
    (λ _, "refused"%string) (λ _, "schedule"%string) "panic" trusting true scene_text scene_deposit first_delivery.2
    second_delivery.1 second_delivery.2 scene_decoded _ (surjective_pairing _))).
  vm_compute. reflexivity.
Defined.

(** ** Edges *)

(** The day of the month is not remembered: a schedule of the 31st that passes
    through February stays on the 28th. *)
Example monthly_day_drifts :
  date (NextRunAt jan31 "monthly") = (2026, 2, 28)
  ∧ date (NextRunAt (NextRunAt jan31 "monthly") "monthly") = (2026, 3, 28).
Proof. vm_compute. by split. Qed.

(** An on-chain mandate that cannot be executed: the schedule advances, and the
    owner is told that the deposit was completed. *)
Definition mandate_text : string :=
  default "" (marshalDeposit (payload_for (scanSavingsSchedule 50
    (mkScheduleRow 7 3 1 2500000000 "USDC" "monthly" jan31 None true (Some 4) 9 9)) "house")).

Definition failed_mandate : JobQueue.handled * HandlerState (D:=Q) :=
  handle trusting (Some (λ _ _, Err "contract error: MandateExhausted"%string)) true mandate_text scene_state.

Example failed_mandate_is_announced :
  failed_mandate.1 = JobQueue.Returned ∧ (λ x, x.1) <$> hs_notices failed_mandate.2 = [7]
  ∧ txs (tables (hs_world failed_mandate.2)) = [].
Proof. vm_compute. by repeat split. Qed.

(** A mandate has no transaction hash to be recognised by: when the schedule could
    not be updated, the retried job executes it a second time. *)
Definition mandate_twice : HandlerState (D:=Q) :=
  (handle trusting (Some (λ _ _, Ok tt)) true mandate_text
     (handle trusting (Some (λ _ _, Ok tt)) false mandate_text scene_state).2).2.

Example retried_mandate_runs_twice : hs_mandates mandate_twice = [(7, 4); (7, 4)].
Proof. vm_compute. reflexivity. Qed.

(** A schedule cancelled between the deposit and its update: the deposit is on
    record, the job fails at every attempt and ends dead. *)
Definition cancelled_state : HandlerState (D:=Q) :=
  mkHandler (hs_world scene_state) (run_ops [scene_create; SCancel true 7 3 50]) [] [].

Example cancelled_after_deposit :
  (handle trusting None true scene_text cancelled_state).1 = JobQueue.Failed false "schedule"
  ∧ length (txs (tables (hs_world (handle trusting None true scene_text cancelled_state).2))) = 1%nat.
Proof. vm_compute. by split. Qed.
