(* ===== verification/Reconcile.v ===== *)
(** Reconciliation of recorded balances with the chain (internal/reconciliation:
    model.go, classifier.go, cadence.go, comparators.go, engine.go, runner.go,
    correction.go, postgres_repository.go; internal/stellar/reader.go for the unit
    of the reads; cmd/api/main.go for what is wired).

    The engine acts on any [Repository]; the three audit tables are one.  What the
    vault listing and the chain answer, ids, clocks and which database calls fail are
    arguments.  Logging is left out. *)

From S2P Require Import Prelude Sql GoStrings Decimal Vault.
From S2P Require Import Ledger.
From S2P Require Import VaultStore.
From S2P Require Transactions.
From stdpp Require Import pretty.
Open Scope Z_scope.
Open Scope go_scope.

(** ** The model (model.go) *)

Inductive Level := LevelBalance | LevelTransaction | LevelInvariant.
Inductive DiscrepancyType := TypeMissing | TypeExtra | TypeMismatch | TypeStuck.
Inductive Severity := SeverityInformational | SeverityWarning | SeverityCritical.
Inductive RunStatus := RunStatusRunning | RunStatusCompleted | RunStatusFailed.
Inductive ResolutionState := ResolutionOpen | ResolutionReviewing | ResolutionResolved.

#[export] Instance Level_eq : EqDecision Level. Proof. solve_decision. Defined.
#[export] Instance DiscrepancyType_eq : EqDecision DiscrepancyType. Proof. solve_decision. Defined.
#[export] Instance Severity_eq : EqDecision Severity. Proof. solve_decision. Defined.
#[export] Instance RunStatus_eq : EqDecision RunStatus. Proof. solve_decision. Defined.
#[export] Instance ResolutionState_eq : EqDecision ResolutionState. Proof. solve_decision. Defined.

Record Scope := mkScope { FullSweep : bool; ScopeVault : UUID; EventID : string; ScopeStarted : Time }.

Record Run := mkRun {
  run_id : UUID;
  run_level : Level;
  run_comparator : string;
  run_status : option RunStatus;
  run_scope : Scope;
  run_started : Time;
  CheckpointKey_ : string;
  CheckpointFrom : string;
  CheckpointTo : string;
}.

Record Stats := mkStats { Checked : Z; Findings : Z; Critical : Z }.

(** ** Cadences (cadence.go) *)

Record CadenceConfig := mkCadence { Balance : Duration; Transaction_ : Duration; Invariant_ : Duration }.

Definition DefaultCadenceConfig : CadenceConfig := mkCadence (5 * Minute) (2 * Minute) (15 * Minute).

Definition CadenceFor (c : CadenceConfig) (level : Level) : Duration :=
  let field := match level with LevelBalance => Balance | LevelTransaction => Transaction_ | LevelInvariant => Invariant_ end in
  if 0 <? field c then field c else field DefaultCadenceConfig.

Definition level_text (l : Level) : string :=
  match l with LevelBalance => "balance" | LevelTransaction => "transaction" | LevelInvariant => "invariant" end.

Definition CheckpointKey (level : Level) (comparator : string) : string :=
  "reconciliation:" +:+ level_text level +:+ ":" +:+ comparator.

Section Reconcile.
Context {D : Type} `{!Decimal D}.

Record Finding := mkFinding {
  f_id : UUID;
  f_run : UUID;
  f_level : Level;
  f_type : DiscrepancyType;
  f_severity : Severity;
  EntityType : string;
  EntityID : string;
  RecordedValue : option D;
  OnChainValue : option D;
  Difference : option D;
  Tolerance : D;
  ObservedAt : Time;
  Details : list (string * string);
  f_state : option ResolutionState;
}.

Record FindingInput := mkInput {
  i_level : Level;
  i_type : DiscrepancyType;
  i_entityType : string;
  i_entity : string;
  i_recorded : option D;
  i_onchain : option D;
  i_age : Duration;
  i_details : list (string * string);
}.

(** ** Severity (classifier.go) *)

Record Classifier := mkClassifier {
  DustTolerance : D;
  WarningThreshold : D;
  CriticalThreshold : D;
  StuckAfter : Duration;
}.

(** [decimal.RequireFromString] of a literal [z / 10^n]. *)
Definition literal (z n : Z) : D := default d_zero (d_div (d_of_Z z) (d_of_Z (10 ^ n))).

Definition NewClassifier (c : Classifier) : Classifier :=
  mkClassifier
    (if d_eq (DustTolerance c) d_zero then literal 1 6 else DustTolerance c)
    (if d_eq (WarningThreshold c) d_zero then literal 1 2 else WarningThreshold c)
    (if d_eq (CriticalThreshold c) d_zero then literal 1 0 else CriticalThreshold c)
    (if StuckAfter c <=? 0 then 30 * Minute else StuckAfter c).

Definition severityForDifference (c : Classifier) (diff : D) : Severity :=
  if d_le diff (DustTolerance c) then SeverityInformational
  else if d_le (CriticalThreshold c) diff then SeverityCritical
  else if d_le (WarningThreshold c) diff then SeverityWarning
  else SeverityInformational.

Definition Classify (c : Classifier) (input : FindingInput) (observedAt : Time) : Finding :=
  let c := NewClassifier c in
  let finding difference severity :=
    mkFinding uuid_Nil uuid_Nil (i_level input) (i_type input) severity (i_entityType input) (i_entity input)
      (i_recorded input) (i_onchain input) difference (DustTolerance c) observedAt (i_details input) (Some ResolutionOpen) in
  match i_recorded input, i_onchain input with
  | Some recorded, Some onchain =>
      let diff := d_abs (d_sub recorded onchain) in
      finding (Some diff) (severityForDifference c diff)
  | _, _ =>
      if bool_decide (i_type input = TypeStuck) && (StuckAfter c <=? i_age input) then finding None SeverityWarning
      else if bool_decide (i_type input = TypeMissing) || bool_decide (i_type input = TypeExtra) then finding None SeverityCritical
      else finding None SeverityInformational
  end.

(** ** Comparators (comparators.go) *)

Record ComparisonResult := mkResult { r_checked : Z; r_findings : list Finding }.

(** *** Balances *)

Definition vaultReconcilePageSize : Z := 500.

(** The variables of the sweep. *)
Record Sweep := mkSweep {
  s_findings : list Finding;
  s_checked : Z;
  readFailures : Z;
  firstReadErr : option string;
  attemptedReads : nat;
}.

Section Balance.
(** [listed page filterOffset] is what the listing of active vaults answers: a page
    and the total.  The [n]-th read of the chain answers [TotalAssets n]; [ctxErr n]
    is whether the context has ended by then. *)
Context (listed : nat → Z → result string (list (Model (D:=D)) * Z)).
Context (TotalAssets : nat → string → result string D) (ctxErr : nat → bool).
Context (uuidString : UUID → string) (classifier : Classifier) (now : Time) (scope : Scope).

Definition mismatch (v : Model (D:=D)) (onChain : D) : Finding :=
  Classify classifier
    (mkInput LevelBalance TypeMismatch "vault" (uuidString (m_id v)) (Some (m_balance v)) (Some onChain) 0
       [("contract_address", m_contract v); ("currency", m_currency v)]) now.

(** One vault; an error ends the sweep. *)
Definition check_vault (x : Sweep) (v : Model (D:=D)) : result string Sweep :=
  if negb (ScopeVault scope =? uuid_Nil) && negb (m_id v =? ScopeVault scope) then Ok x
  else if bool_decide (m_contract v = "") then
    Ok (mkSweep (s_findings x) (s_checked x + 1) (readFailures x) (firstReadErr x) (attemptedReads x))
  else
    let n := attemptedReads x in
    match TotalAssets n (m_contract v) with
    | Err e =>
        if ctxErr n then Err e
        else Ok (mkSweep (s_findings x) (s_checked x) (readFailures x + 1)
                   (match firstReadErr x with None => Some e | _ => firstReadErr x end) (S n))
    | Ok onChain =>
        Ok (mkSweep (if d_eq (m_balance v) onChain then s_findings x else s_findings x ++ [mismatch v onChain])
              (s_checked x + 1) (readFailures x) (firstReadErr x) (S n))
    end.

Fixpoint check_vaults (x : Sweep) (vs : list (Model (D:=D))) : result string Sweep :=
  match vs with
  | [] => Ok x
  | v :: vs => x ← check_vault x v; check_vaults x vs
  end.

(** The loop over pages; [None] when [fuel] pages were not enough. *)
Fixpoint sweep_pages (fuel page : nat) (offset : Z) (x : Sweep) : option (result string Sweep) :=
  match fuel with
  | O => None
  | S fuel =>
      match listed page offset with
      | Err e => Some (Err e)
      | Ok (vaults, total) =>
          match check_vaults x vaults with
          | Err e => Some (Err e)
          | Ok x =>
              let offset := offset + Z.of_nat (length vaults) in
              if (total <=? offset) || bool_decide (vaults = []) then Some (Ok x)
              else sweep_pages fuel (S page) offset x
          end
      end
  end.

Definition all_failed (n : Z) (e : option string) : string :=
  "all " +:+ pretty n +:+ " chain reads failed; first error: " +:+ default "" e.

(** What the sweep is worth once it is over. *)
Definition verdict (x : Sweep) : result string ComparisonResult :=
  if (0 <? attemptedReads x)%nat && (readFailures x =? Z.of_nat (attemptedReads x)) then
    Err (all_failed (readFailures x) (firstReadErr x))
  else Ok (mkResult (s_checked x) (s_findings x)).

Definition BalanceReconcile (fuel : nat) : option (result string ComparisonResult) :=
  (λ r, x ← r; verdict x) <$> sweep_pages fuel 0 0 (mkSweep [] 0 0 None 0).
End Balance.

(** *** Transactions and invariants *)

Section Others.
Context (classifier : Classifier) (now : Time).

Definition status_text (s : Transactions.TransactionStatus) : string :=
  match s with Transactions.StatusPending => "pending" | Transactions.StatusCompleted => "completed" | Transactions.StatusFailed => "failed" end.

(** [status] answers for a hash the status on chain, if the chain has it. *)
Fixpoint stuck (status : string → result string (option Transactions.TransactionStatus))
    (pending : list (Transactions.Transaction (D:=D))) : result string (list Finding) :=
  match pending with
  | [] => Ok []
  | tx :: pending =>
      s ← status (Transactions.TxHash tx);
      fs ← stuck status pending;
      Ok (match s with
          | Some s =>
              match s with
              | Transactions.StatusPending => fs
              | _ =>
                  Classify classifier
                    (mkInput LevelTransaction TypeStuck "transaction" (Transactions.TxHash tx) None None
                       (timeSub now (Transactions.CreatedAt tx))
                       [("recorded_status", status_text (Transactions.Status tx)); ("on_chain_status", status_text s)]) now :: fs
              end
          | None => fs
          end)
  end.

Definition pendingCutoff (pendingAfter : Duration) : Time :=
  timeAdd now (- (if pendingAfter <=? 0 then 30 * Minute else pendingAfter)).

Definition TransactionReconcile (pending : Time → result string (list (Transactions.Transaction (D:=D))))
    (status : string → result string (option Transactions.TransactionStatus)) (pendingAfter : Duration)
    : result string ComparisonResult :=
  l ← pending (pendingCutoff pendingAfter);
  fs ← stuck status l;
  Ok (mkResult (Z.of_nat (length l)) fs).

Definition InvariantReconcile (check : option (Scope → Classifier → Time → result string ComparisonResult)) (scope : Scope)
    : result string ComparisonResult :=
  match check with None => Ok (mkResult 0 []) | Some check => check scope (NewClassifier classifier) now end.
End Others.

(** ** The engine (engine.go) *)

(** [E] is what a call of the repository meets. *)
Record Repository (E R : Type) := mkRepository {
  CreateRun : E → Run → R → result string Run * R;
  AddFinding : E → Finding → R → result string Finding * R;
  CompleteRun : E → UUID → Stats → R → result string unit * R;
  FailRun : E → UUID → string → R → result string unit * R;
  GetCheckpoint : E → string → R → result string (option string);
  SetCheckpoint : E → string → string → R → result string unit * R;
  RecordCorrection : E → UUID → string → R → result string unit * R;
}.
Arguments CreateRun {E R}. Arguments AddFinding {E R}. Arguments CompleteRun {E R}. Arguments FailRun {E R}.
Arguments GetCheckpoint {E R}. Arguments SetCheckpoint {E R}. Arguments RecordCorrection {E R}. Arguments mkRepository {E R}.

Record Comparator := mkComparator { c_name : string; c_level : Level; c_reconcile : Scope → result string ComparisonResult }.

(** Of one comparator's run: the ids it draws and what its calls meet. *)
Record RunEnv (E : Type) := mkRunEnv { re_id : UUID; re_create : E; re_ids : nat → UUID; re_add : nat → E; re_end : E }.
Arguments mkRunEnv {E}. Arguments re_id {E}. Arguments re_create {E}. Arguments re_ids {E}. Arguments re_add {E}. Arguments re_end {E}.

Section Engine.
Context {E R : Type} (repo : Repository E R) (alerting : bool).

(** The alerts are the findings handed to the alerter. *)
Definition dispatchAlert (f : Finding) : list Finding :=
  if negb alerting then []
  else match f_severity f with SeverityCritical | SeverityWarning => [f] | SeverityInformational => [] end.

Definition recordFailedRun (e : E) (id : UUID) (err : string) (r : R) : R := (FailRun repo e id err r).2.

(** A finding as the engine hands it to the repository. *)
Definition of_run (run id : UUID) (level : Level) (f : Finding) : Finding :=
  mkFinding (if f_id f =? uuid_Nil then id else f_id f) run level (f_type f) (f_severity f) (EntityType f) (EntityID f)
    (RecordedValue f) (OnChainValue f) (Difference f) (Tolerance f) (ObservedAt f) (Details f)
    (match f_state f with None => Some ResolutionOpen | s => s end).

(** The loop over findings, from the [n]-th on: the critical ones counted, the
    alerts, and an error that ends it. *)
Fixpoint store_findings (env : RunEnv E) (run : UUID) (level : Level) (n : nat) (critical : Z) (fs : list Finding) (r : R)
    : Z * list Finding * option string * R :=
  match fs with
  | [] => (critical, [], None, r)
  | f :: fs =>
      match AddFinding repo (re_add env n) (of_run run (re_ids env n) level f) r with
      | (Err e, r) => (critical, [], Some e, r)
      | (Ok stored, r) =>
          let critical := if decide (f_severity stored = SeverityCritical) then critical + 1 else critical in
          let '(critical, alerts, err, r) := store_findings env run level (S n) critical fs r in
          (critical, dispatchAlert stored ++ alerts, err, r)
      end
  end.

Definition runComparator (env : RunEnv E) (c : Comparator) (scope : Scope) (r : R) : Stats * list Finding * option string * R :=
  match CreateRun repo (re_create env)
          (mkRun (re_id env) (c_level c) (c_name c) (Some RunStatusRunning) scope (ScopeStarted scope) "" "" "") r with
  | (Err e, r) => (mkStats 0 0 0, [], Some ("reconciliation: create run: " +:+ e), r)
  | (Ok run, r) =>
      match c_reconcile c scope with
      | Err e => (mkStats 0 0 0, [], Some ("reconciliation: " +:+ c_name c +:+ ": " +:+ e), recordFailedRun (re_end env) (run_id run) e r)
      | Ok result =>
          let count := Z.of_nat (length (r_findings result)) in
          let '(critical, alerts, err, r) := store_findings env (run_id run) (c_level c) 0 0 (r_findings result) r in
          let stats := mkStats (r_checked result) count critical in
          match err with
          | Some e => (stats, alerts, Some ("reconciliation: store finding: " +:+ e), recordFailedRun (re_end env) (run_id run) e r)
          | None =>
              match CompleteRun repo (re_end env) (run_id run) stats r with
              | (Err e, r) => (stats, alerts, Some ("reconciliation: complete run: " +:+ e), r)
              | (Ok _, r) => (stats, alerts, None, r)
              end
          end
      end
  end.

Definition add_stats (a b : Stats) : Stats := mkStats (Checked a + Checked b) (Findings a + Findings b) (Critical a + Critical b).

(** [Engine.Run] *)
Fixpoint run_all (scope : Scope) (total : Stats) (cs : list (RunEnv E * Comparator)) (r : R) : Stats * list Finding * option string * R :=
  match cs with
  | [] => (total, [], None, r)
  | (env, c) :: cs =>
      let '(stats, alerts, err, r) := runComparator env c scope r in
      let total := add_stats total stats in
      match err with
      | Some e => (total, alerts, Some e, r)
      | None => let '(total, alerts', err, r) := run_all scope total cs r in (total, alerts ++ alerts', err, r)
      end
  end.

Definition EngineRun (now : Time) (scope : Scope) (cs : list (RunEnv E * Comparator)) (r : R) : Stats * list Finding * option string * R :=
  let scope := if ScopeStarted scope =? zeroTime then mkScope (FullSweep scope) (ScopeVault scope) (EventID scope) now else scope in
  run_all scope (mkStats 0 0 0) cs r.
End Engine.

(** ** The audit tables (postgres_repository.go) *)

Record RunRow := mkRunRow {
  rr_level : Level;
  rr_comparator : string;
  rr_status : RunStatus;
  rr_scope : Scope;
  rr_started : Time;
  rr_completed : option Time;
  rr_stats : Stats;
  rr_error : option string;
  rr_checkpoint : option string * option string * option string;
}.

(** Amounts are in units of 10^-18. *)
Record FindingRow := mkFindingRow {
  fr_run : UUID;
  fr_level : Level;
  fr_type : DiscrepancyType;
  fr_severity : Severity;
  fr_entityType : string;
  fr_entity : string;
  fr_recorded : option Z;
  fr_onchain : option Z;
  fr_difference : option Z;
  fr_tolerance : Z;
  fr_observed : Time;
  fr_details : list (string * string);
  fr_state : ResolutionState;
  fr_note : option string;
  fr_resolved : option Time;
}.

Record Audit := mkAudit { runs : gmap UUID RunRow; found : gmap UUID FindingRow; checkpoints : gmap string string }.

(** A column of type NUMERIC(38, 18), and one of type INTEGER. *)
Definition numeric18 (x : D) : result string Z :=
  let z := Qround_haz (dval x * inject_Z (10 ^ 18))%Q in
  if Z.abs z <? 10 ^ 38 then Ok z else Err "numeric field overflow".

Definition numeric18_opt (x : option D) : result string (option Z) :=
  match x with None => Ok None | Some x => z ← numeric18 x; Ok (Some z) end.

Definition int32 (z : Z) : result string Z :=
  if (- 2 ^ 31 <=? z) && (z <? 2 ^ 31) then Ok z else Err "integer out of range".

Definition nullText (value : string) : option string := if decide (value = "") then None else Some value.

(** What one call meets: the clocks of the database and of the process, a fresh id,
    and how the statement ends. *)
Record PgEnv := mkPgEnv { pg_now : Time; pg_clock : Time; pg_fresh : UUID; pg_fate : dbres }.

(** The outcome of a statement: its own error, or that of the connection. *)
Definition stmt {A} (e : PgEnv) (answer : A) (f : Audit → result string Audit) (a : Audit) : result string A * Audit :=
  match f a with
  | Err err => (Err err, a)
  | Ok a' => (if failed (pg_fate e) then Err "connection" else Ok answer, Sql.effect (pg_fate e) a a')
  end.

Definition pgCreateRun (e : PgEnv) (run : Run) (a : Audit) : result string Run * Audit :=
  let run := mkRun (if run_id run =? uuid_Nil then pg_fresh e else run_id run) (run_level run) (run_comparator run)
               (Some (default RunStatusRunning (run_status run))) (run_scope run)
               (if run_started run =? zeroTime then pg_clock e else run_started run)
               (CheckpointKey_ run) (CheckpointFrom run) (CheckpointTo run) in
  stmt e run (λ a,
    guard_err (bool_decide (is_Some (runs a !! run_id run))) "duplicate key";;
    Ok (mkAudit (<[run_id run := mkRunRow (run_level run) (run_comparator run) (default RunStatusRunning (run_status run))
                     (run_scope run) (run_started run) None (mkStats 0 0 0) None
                     (nullText (CheckpointKey_ run), nullText (CheckpointFrom run), nullText (CheckpointTo run))]> (runs a))
          (found a) (checkpoints a))) a.

(** The row that the unique constraint of reconciliation_findings names. *)
Definition same_subject (f : Finding) (p : UUID * FindingRow) : bool :=
  (fr_run p.2 =? f_run f) && bool_decide (fr_level p.2 = f_level f) && bool_decide (fr_type p.2 = f_type f)
  && bool_decide (fr_entityType p.2 = EntityType f) && bool_decide (fr_entity p.2 = EntityID f).

Definition conflicting (f : Finding) (a : Audit) : option (UUID * FindingRow) :=
  List.find (same_subject f) (map_to_list (found a)).

Definition pgAddFinding (e : PgEnv) (f : Finding) (a : Audit) : result string Finding * Audit :=
  let f := mkFinding (if f_id f =? uuid_Nil then pg_fresh e else f_id f) (f_run f) (f_level f) (f_type f) (f_severity f)
             (EntityType f) (EntityID f) (RecordedValue f) (OnChainValue f) (Difference f) (Tolerance f)
             (if ObservedAt f =? zeroTime then pg_clock e else ObservedAt f) (Details f)
             (Some (default ResolutionOpen (f_state f))) in
  stmt e f (λ a,
    recorded ← numeric18_opt (RecordedValue f);
    onchain ← numeric18_opt (OnChainValue f);
    difference ← numeric18_opt (Difference f);
    tolerance ← numeric18 (Tolerance f);
    let row state note resolved :=
      mkFindingRow (f_run f) (f_level f) (f_type f) (f_severity f) (EntityType f) (EntityID f) recorded onchain difference
        tolerance (ObservedAt f) (Details f) state note resolved in
    match conflicting f a with
    | Some (id, old) => Ok (mkAudit (runs a) (<[id := row (fr_state old) (fr_note old) (fr_resolved old)]> (found a)) (checkpoints a))
    | None =>
        guard_err (bool_decide (is_Some (found a !! f_id f))) "duplicate key";;
        guard_err (bool_decide (runs a !! f_run f = None)) "foreign key";;
        Ok (mkAudit (runs a) (<[f_id f := row (default ResolutionOpen (f_state f)) None None]> (found a)) (checkpoints a))
    end) a.

Definition update_run (g : RunRow → RunRow) (id : UUID) (a : Audit) : Audit :=
  mkAudit (alter g id (runs a)) (found a) (checkpoints a).

Definition pgCompleteRun (e : PgEnv) (id : UUID) (s : Stats) (a : Audit) : result string unit * Audit :=
  stmt e tt (λ a,
    int32 (Checked s);; int32 (Findings s);; int32 (Critical s);;
    Ok (update_run (λ r, mkRunRow (rr_level r) (rr_comparator r) RunStatusCompleted (rr_scope r) (rr_started r)
                           (Some (pg_now e)) s (rr_error r) (rr_checkpoint r)) id a)) a.

Definition pgFailRun (e : PgEnv) (id : UUID) (errText : string) (a : Audit) : result string unit * Audit :=
  stmt e tt (λ a,
    Ok (update_run (λ r, mkRunRow (rr_level r) (rr_comparator r) RunStatusFailed (rr_scope r) (rr_started r)
                           (Some (pg_now e)) (rr_stats r) (Some errText) (rr_checkpoint r)) id a)) a.

Definition pgGetCheckpoint (e : PgEnv) (key : string) (a : Audit) : result string (option string) :=
  if failed (pg_fate e) then Err "connection" else Ok (checkpoints a !! key).

Definition pgSetCheckpoint (e : PgEnv) (key value : string) (a : Audit) : result string unit * Audit :=
  stmt e tt (λ a, Ok (mkAudit (runs a) (found a) (<[key := value]> (checkpoints a)))) a.

Definition pgRecordCorrection (e : PgEnv) (id : UUID) (reason : string) (a : Audit) : result string unit * Audit :=
  stmt e tt (λ a,
    Ok (mkAudit (runs a)
          (alter (λ r, mkFindingRow (fr_run r) (fr_level r) (fr_type r) (fr_severity r) (fr_entityType r) (fr_entity r)
                         (fr_recorded r) (fr_onchain r) (fr_difference r) (fr_tolerance r) (fr_observed r) (fr_details r)
                         ResolutionResolved (Some reason) (Some (pg_now e))) id (found a)) (checkpoints a))) a.

Definition PostgresRepository : Repository PgEnv Audit :=
  mkRepository pgCreateRun pgAddFinding pgCompleteRun pgFailRun pgGetCheckpoint pgSetCheckpoint pgRecordCorrection.

(** ** The runner (runner.go) *)

Section Decorators.
Context {E R : Type}.

(** Beside the repository, the kinds counted on the divergence metric. *)
Definition metered {A} (c : result string A * R) (m : list DiscrepancyType) : result string A * (R * list DiscrepancyType) :=
  (c.1, (c.2, m)).

Definition meteredRepository (inner : Repository E R) : Repository E (R * list DiscrepancyType) :=
  mkRepository
    (λ e run x, metered (CreateRun inner e run x.1) x.2)
    (λ e f x,
       match AddFinding inner e f x.1 with
       | (Err err, r) => (Err err, (r, x.2))
       | (Ok stored, r) => (Ok stored, (r, x.2 ++ [f_type stored]))
       end)
    (λ e id s x, metered (CompleteRun inner e id s x.1) x.2)
    (λ e id err x, metered (FailRun inner e id err x.1) x.2)
    (λ e key x, GetCheckpoint inner e key x.1)
    (λ e key v x, metered (SetCheckpoint inner e key v x.1) x.2)
    (λ e id reason x, metered (RecordCorrection inner e id reason x.1) x.2).

Definition dryRunRepository : Repository E (R * list DiscrepancyType) :=
  mkRepository (λ _ run x, (Ok run, x)) (λ _ f x, (Ok f, x)) (λ _ _ _ x, (Ok tt, x)) (λ _ _ _ x, (Ok tt, x))
    (λ _ _ _, Ok None) (λ _ _ _ x, (Ok tt, x)) (λ _ _ _ x, (Ok tt, x)).
End Decorators.

Record RunnerConfig := mkRunnerConfig { Enabled : bool; Interval : Duration; DryRun : bool }.

(** The defaults of [NewRunner]. *)
Definition runnerDefaults (c : RunnerConfig) : RunnerConfig :=
  mkRunnerConfig (Enabled c) (if Interval c <=? 0 then Balance DefaultCadenceConfig else Interval c) (DryRun c).

(** The repository that [NewRunner] gives the engine, and whether there is an
    alerter. *)
Definition engineRepo {E R} (c : RunnerConfig) (repo : Repository E R) : Repository E (R * list DiscrepancyType) :=
  if DryRun c then dryRunRepository else meteredRepository repo.

Definition engineAlerts (c : RunnerConfig) : bool := negb (DryRun c).
End Reconcile.

Arguments Finding : clear implicits. Arguments ComparisonResult : clear implicits. Arguments Classifier : clear implicits.
Arguments Repository : clear implicits. Arguments Comparator : clear implicits.
Arguments mkRunEnv {E}. Arguments re_id {E}. Arguments re_create {E}. Arguments re_ids {E}. Arguments re_add {E}. Arguments re_end {E}.
Arguments CreateRun {D E R}. Arguments AddFinding {D E R}. Arguments CompleteRun {D E R}. Arguments FailRun {D E R}.

(** Times in nanoseconds since 1970, 0 when not set. *)
Record Runner := mkRunner { startedAt : Time; lastPassEnd : Time; wasLeader : bool }.

Definition NewRunner : Runner := mkRunner 0 0 false.

(** [leader] is what the checker answers, [None] without a checker. *)
Definition observeLeadership (leader : option bool) (now : Time) (r : Runner) : bool * Runner :=
  match leader with
  | None => (true, r)
  | Some false => (false, mkRunner (startedAt r) (lastPassEnd r) false)
  | Some true =>
      if wasLeader r then (true, r)
      else (true, mkRunner (startedAt r) (if startedAt r =? 0 then lastPassEnd r else now) true)
  end.

Inductive RunOutcome := ReconcileCompleted | ReconcileFailed.

(** A pass that [pass] says how it went ([None] when the context had ended), and the
    outcome counted. *)
Definition Tick (leader : option bool) (now then_ : Time) (pass : option bool) (r : Runner) : option RunOutcome * Runner :=
  let '(leads, r) := observeLeadership leader now r in
  if negb leads then (None, r)
  else
    match pass with
    | None => (None, r)
    | Some false => (Some ReconcileFailed, r)
    | Some true => (Some ReconcileCompleted, mkRunner (startedAt r) then_ (wasLeader r))
    end.

(** The start of [Runner.Run], before its first pass. *)
Definition Start (enabled : bool) (now : Time) (r : Runner) : Runner :=
  if enabled then mkRunner now (lastPassEnd r) (wasLeader r) else r.

Definition AgeSample (leader : option bool) (now : Time) (r : Runner) : option Duration * Runner :=
  let '(leads, r) := observeLeadership leader now r in
  if negb leads then (None, r)
  else
    let anchor := if lastPassEnd r =? 0 then startedAt r else lastPassEnd r in
    if anchor =? 0 then (None, r) else (Some (timeSub now anchor), r).

Definition LastPassEnd (r : Runner) : Time := if lastPassEnd r =? 0 then zeroTime else lastPassEnd r.

(** ** What the server runs (cmd/api/main.go, stellar/reader.go) *)

Section Server.
Context {D : Type} `{!Decimal D}.

(** The read of a balance in raw stroops, and the one for display that the
    reconciler must not use. *)
Definition TotalAssetsStroops (raw : result string Z) : result string D := z ← raw; Ok (d_of_Z z).
Definition VaultBalance (raw : result string Z) : result string D := z ← raw; Ok (default d_zero (d_div (d_of_Z z) (d_of_Z 10000000))).

Definition serverClassifier : Classifier D := mkClassifier (literal 5 1) (d_of_Z 1) (d_of_Z 10000000) 0.

(** The comparator over the chain's raw total assets. *)
Definition serverReconcile (listed : nat → Z → result string (list (Model (D:=D)) * Z))
    (raw : nat → string → result string Z) (ctxErr : nat → bool) (uuidString : UUID → string) (now : Time) (fuel : nat)
    (scope : Scope) : option (result string (ComparisonResult D)) :=
  BalanceReconcile listed (λ n contract, TotalAssetsStroops (raw n contract)) ctxErr uuidString serverClassifier now scope fuel.
End Server.

(** ** Corrections (correction.go) *)

Section Correction.
Context {D : Type} `{!Decimal D}.

(** [status] is [None] for the empty one.  [update] is the repository's UpdateStatus
    of transactions and [correct] its RecordCorrection. *)
Definition ResolveStuckTransaction {T A} (now : Time)
    (update : string → Transactions.TransactionStatus → option Time → string → T → result string unit * T)
    (correct : UUID → string → A → result string unit * A)
    (finding : Finding D) (status : option Transactions.TransactionStatus) (t : T) (a : A) : result string unit * T * A :=
  if negb (bool_decide (f_type finding = TypeStuck)) || negb (bool_decide (EntityType finding = "transaction")) then
    (Err "reconciliation: finding is not a stuck transaction", t, a)
  else
    match status with
    | None | Some Transactions.StatusPending => (Err "reconciliation: unresolved on-chain status cannot be auto-corrected", t, a)
    | Some status =>
        let errorReason := match status with Transactions.StatusFailed => "resolved by reconciliation" | _ => "" end in
        match update (EntityID finding) status (Some now) errorReason t with
        | (Err e, t) => (Err e, t, a)
        | (Ok _, t) =>
            let '(r, a) := correct (f_id finding) (TrimSpace ("stuck transaction advanced to " +:+ status_text status)) a in
            (r, t, a)
        end
    end.
End Correction.
