(* ===== verification/ReconcileRuns.v ===== *)
(** What reconciliation guarantees: a sweep covers every vault of a listing that
    stands still and never reads clean when nothing was read; what it does with
    books kept in asset units; how runs are recorded; and what the liveness metric
    says. *)

From Stdlib Require Import Lqa.
From S2P Require Import Prelude Sql GoStrings Decimal Vault.
From S2P Require Import Ledger.
From S2P Require Import VaultStore.
From S2P Require Import Indexer.
From S2P Require Import Reconcile.
Open Scope Z_scope.
Open Scope go_scope.

Section Sweeps.
Context {D : Type} `{!Decimal D}.
Context (TotalAssets : nat → string → result string D) (ctxErr : nat → bool).
Context (uuidString : UUID → string) (classifier : Classifier D) (now : Time) (scope : Scope).

Abbreviation check := (check_vaults TotalAssets ctxErr uuidString classifier now scope).
Abbreviation check1 := (check_vault TotalAssets ctxErr uuidString classifier now scope).
Abbreviation differs := (mismatch uuidString classifier now).
Abbreviation start := (mkSweep ([] : list (Finding D)) 0 0 None 0).

(** A listing that stands still. *)
Definition paged (l : list (Model (D:=D))) (page : nat) (offset : Z) : result string (list (Model (D:=D)) * Z) :=
  Ok (take (Z.to_nat vaultReconcilePageSize) (drop (Z.to_nat offset) l), Z.of_nat (length l)).

Lemma check_app x l l' : check x (l ++ l') = (x ← check x l; check x l').
Proof.
  revert x. induction l as [|v l IH]; intros x; [done|]. cbn [app check_vaults].
  destruct (check1 x v); cbn [mbind result_bind]; [apply IH|done].
Qed.

Lemma sweep_paged l fuel page k x :
  (k ≤ length l)%nat → (length l - k < 500 * fuel)%nat →
  sweep_pages (paged l) TotalAssets ctxErr uuidString classifier now scope fuel page (Z.of_nat k) x = Some (check x (drop k l)).
Proof.
  revert page k x. induction fuel as [|fuel IH]; intros page k x Hk Hf; [lia|]. cbn [sweep_pages paged].
  rewrite Nat2Z.id. change (Z.to_nat vaultReconcilePageSize) with 500%nat. set (vs := take 500 (drop k l)).
  rewrite <-(take_drop 500 (drop k l)), check_app, drop_drop. fold vs.
  destruct (check x vs) as [x'|e]; cbn [mbind result_bind]; [|done].
  assert (Hlen : length vs = Nat.min 500 (length l - k)) by (unfold vs; rewrite length_take, length_drop; lia).
  destruct (Z.leb_spec (Z.of_nat (length l)) (Z.of_nat k + Z.of_nat (length vs))) as [Hend|Hmore]; cbn [orb].
  - rewrite drop_ge by lia. done.
  - rewrite bool_decide_false by (intros Ee; rewrite Ee in Hlen; cbn [length] in Hlen; lia).
    replace (Z.of_nat k + Z.of_nat (length vs)) with (Z.of_nat (k + 500)) by lia. apply IH; lia.
Qed.

Definition in_scope (v : Model (D:=D)) : bool := (ScopeVault scope =? uuid_Nil) || (m_id v =? ScopeVault scope).

(** How the read of a vault went. *)
Definition read_well (v : Model (D:=D)) (n : nat) (fs : list (Finding D)) : Prop :=
  match TotalAssets n (m_contract v) with
  | Err _ => ctxErr n = false
  | Ok c => if d_eq (m_balance v) c then True else differs v c ∈ fs
  end.

Record swept (vs : list (Model (D:=D))) (x x' : Sweep) (fs : list (Finding D)) : Prop := {
  sw_findings : s_findings x' = s_findings x ++ fs;
  sw_reads v : v ∈ vs → in_scope v = true → m_contract v ≠ "" → ∃ n, (attemptedReads x ≤ n < attemptedReads x')%nat ∧ read_well v n fs;
  sw_sound f : f ∈ fs → ∃ v n c, v ∈ vs ∧ in_scope v = true ∧ TotalAssets n (m_contract v) = Ok c ∧ d_eq (m_balance v) c = false ∧ f = differs v c;
  sw_count : s_checked x' + readFailures x' = s_checked x + readFailures x + Z.of_nat (length (List.filter in_scope vs));
  sw_failures : 0 ≤ readFailures x' - readFailures x ≤ Z.of_nat (attemptedReads x') - Z.of_nat (attemptedReads x);
  sw_some : readFailures x' - readFailures x < Z.of_nat (attemptedReads x') - Z.of_nat (attemptedReads x) →
    ∃ v n c, v ∈ vs ∧ in_scope v = true ∧ m_contract v ≠ "" ∧ TotalAssets n (m_contract v) = Ok c;
}.

Lemma check_one x v x' : check1 x v = Ok x' → ∃ fs, swept [v] x x' fs.
Proof.
  unfold check_vault. assert (Hs : negb (ScopeVault scope =? uuid_Nil) && negb (m_id v =? ScopeVault scope) = negb (in_scope v))
    by (unfold in_scope; by destruct (ScopeVault scope =? uuid_Nil), (m_id v =? ScopeVault scope)).
  rewrite Hs. destruct (in_scope v) eqn:Ein; cbn [negb].
  2:{ intros [= <-]. exists []. split; try done; rewrite ?app_nil_r; try done; simpl; rewrite ?Ein; cbn [length]; try lia; try (intros ?; exfalso; lia).
      - intros v' ->%list_elem_of_singleton. congruence.
      - by intros f ?%not_elem_of_nil. }
  case_bool_decide as Ec.
  { intros [= <-]. exists []. split; simpl; rewrite ?app_nil_r, ?Ein; cbn [length]; try done; try lia; try (intros ?; exfalso; lia).
    - intros v' ->%list_elem_of_singleton. done.
    - by intros f ?%not_elem_of_nil. }
  destruct (TotalAssets (attemptedReads x) (m_contract v)) as [c|e] eqn:Er.
  - intros [= <-]. exists (if d_eq (m_balance v) c then [] else [differs v c]). split; simpl; rewrite ?Ein.
    + destruct (d_eq _ _); by rewrite ?app_nil_r.
    + intros v' ->%list_elem_of_singleton _ _. exists (attemptedReads x). split; [lia|]. unfold read_well. rewrite Er.
      destruct (d_eq _ _); [done|]. by apply list_elem_of_singleton.
    + intros f Hf. exists v, (attemptedReads x), c. destruct (d_eq (m_balance v) c) eqn:Eq; [by apply not_elem_of_nil in Hf|].
      apply list_elem_of_singleton in Hf. split_and!; try done. by apply list_elem_of_singleton.
    + simpl. lia.
    + lia.
    + intros _. exists v, (attemptedReads x), c. split_and!; try done. by apply list_elem_of_singleton.
  - destruct (ctxErr (attemptedReads x)) eqn:Ectx; [done|]. intros [= <-]. exists []. split; simpl; rewrite ?app_nil_r, ?Ein; cbn [length]; try done; try lia; try (intros ?; exfalso; lia).
    + intros v' ->%list_elem_of_singleton _ _. exists (attemptedReads x). split; [lia|]. unfold read_well. by rewrite Er.
    + by intros f ?%not_elem_of_nil.
Qed.

Lemma read_well_app v n fs fs' : read_well v n fs ∨ read_well v n fs' → read_well v n (fs ++ fs').
Proof. unfold read_well. destruct (TotalAssets n _); [|tauto]. destruct (d_eq _ _); [done|]. rewrite elem_of_app. tauto. Qed.

Lemma swept_app vs vs' x y z fs fs' : swept vs x y fs → swept vs' y z fs' → swept (vs ++ vs') x z (fs ++ fs').
Proof.
  intros [A1 A2 A3 A4 A5 A6] [B1 B2 B3 B4 B5 B6]. split.
  - by rewrite B1, A1, app_assoc.
  - intros v [Hv|Hv]%elem_of_app Hin Hc.
    + destruct (A2 v Hv Hin Hc) as (n & Hn & Hr). exists n. split; [lia|]. apply read_well_app. by left.
    + destruct (B2 v Hv Hin Hc) as (n & Hn & Hr). exists n. split; [lia|]. apply read_well_app. by right.
  - intros f [Hf|Hf]%elem_of_app.
    + destruct (A3 f Hf) as (v & n & c & Hv & Hrest). exists v, n, c. split; [apply elem_of_app; by left|done].
    + destruct (B3 f Hf) as (v & n & c & Hv & Hrest). exists v, n, c. split; [apply elem_of_app; by right|done].
  - rewrite List.filter_app, length_app. lia.
  - lia.
  - intros Hlt. destruct (Z.lt_ge_cases (readFailures y - readFailures x) (Z.of_nat (attemptedReads y) - Z.of_nat (attemptedReads x))) as [H|H].
    + destruct (A6 H) as (v & n & c & Hv & Hrest). exists v, n, c. split; [apply elem_of_app; by left|done].
    + destruct (B6 ltac:(lia)) as (v & n & c & Hv & Hrest). exists v, n, c. split; [apply elem_of_app; by right|done].
Qed.

Lemma check_swept x vs x' : check x vs = Ok x' → ∃ fs, swept vs x x' fs.
Proof.
  revert x. induction vs as [|v vs IH]; intros x; cbn [check_vaults].
  - intros [= <-]. exists []. split; rewrite ?app_nil_r; simpl; try done; try lia; try (intros ?; exfalso; lia); by intros ? ?%not_elem_of_nil.
  - destruct (check1 x v) as [y|e] eqn:E; cbn [mbind result_bind]; [|done]. intros Hx. apply check_one in E as [fs Hf].
    destruct (IH y Hx) as [fs' Hf']. exists (fs ++ fs'). by apply (swept_app [v] vs x y x').
Qed.
End Sweeps.

(** C32: A sweep over a listing that stands still ends; when it reports, every vault
    in scope with a contract was read, and the read failed while the context was alive,
    or answered the recorded balance, or the difference is among the findings; every
    finding is such a difference of a vault in scope; no more vaults count as checked
    than are in scope; and it never reports when all reads failed. *)
Theorem sweep_is_complete {D} `{!Decimal D} TotalAssets ctxErr uuidString (classifier : Classifier D) now scope l fuel :
  (length l < 500 * fuel)%nat →
  ∃ r, BalanceReconcile (paged l) TotalAssets ctxErr uuidString classifier now scope fuel = Some r
  ∧ ∀ res, r = Ok res →
    (∀ v, v ∈ l → in_scope scope v = true → m_contract v ≠ "" →
      ∃ n, read_well TotalAssets ctxErr uuidString classifier now v n (r_findings res))
    ∧ (∀ f, f ∈ r_findings res → ∃ v n c, v ∈ l ∧ in_scope scope v = true ∧ TotalAssets n (m_contract v) = Ok c
        ∧ d_eq (m_balance v) c = false ∧ f = mismatch uuidString classifier now v c)
    ∧ r_checked res ≤ Z.of_nat (length (List.filter (in_scope scope) l))
    ∧ ((∃ v, v ∈ l ∧ in_scope scope v = true ∧ m_contract v ≠ "") →
       ∃ v n c, v ∈ l ∧ in_scope scope v = true ∧ m_contract v ≠ "" ∧ TotalAssets n (m_contract v) = Ok c).
Proof.
  intros Hf. eexists. unfold BalanceReconcile. change 0 with (Z.of_nat 0). rewrite sweep_paged by lia. rewrite drop_0. split; [reflexivity|].
  intros res Hr. destruct (check_vaults _ _ _ _ _ _ _ l) as [x'|e] eqn:E; [|done]. cbn [mbind result_bind] in Hr.
  apply check_swept in E as (fs & [A1 A2 A3 A4 A5 A6]). cbn in A1, A2, A4, A5, A6. unfold verdict in Hr.
  destruct ((0 <? attemptedReads x')%nat && _) eqn:Ev; [done|]. injection Hr as <-. cbn [r_findings r_checked]. rewrite A1.
  split_and!; [|done|lia|].
  - intros v Hv Hin Hc. destruct (A2 v Hv Hin Hc) as (n & _ & Hn). by exists n.
  - intros (v & Hv & Hin & Hc). destruct (A2 v Hv Hin Hc) as (n & Hn & _). apply A6.
    apply andb_false_iff in Ev as [Ev|Ev]; [apply Nat.ltb_ge in Ev; lia|]. apply Z.eqb_neq in Ev. lia.
Qed.

(** ** The unit of the comparison *)

Section Units.
Context {D : Type} `{!Decimal D} `{!DecimalLaws D}.

Lemma literal_half : (dval (literal 5 1) == 1 # 2)%Q.
Proof.
  unfold literal. destruct (dval_div (d_of_Z 5) (d_of_Z (10 ^ 1))) as (c & -> & Hc); [rewrite dval_of_Z; discriminate|].
  cbn [default]. rewrite Hc. rewrite (Qround_at_exact 16 _ 5000000000000000); [reflexivity|]. rewrite !dval_of_Z. reflexivity.
Qed.

Lemma not_zero (x : D) : ¬ (dval x == 0)%Q → d_eq x d_zero = false.
Proof. intros H. apply not_true_iff_false. unfold d_zero. by rewrite d_eq_spec, dval_of_Z. Qed.

Lemma server_classifier_kept : NewClassifier serverClassifier = mkClassifier (literal 5 1) (d_of_Z 1) (d_of_Z 10000000 : D) (30 * Minute).
Proof.
  unfold NewClassifier, serverClassifier. cbn [DustTolerance WarningThreshold CriticalThreshold StuckAfter].
  rewrite !not_zero; [done|rewrite dval_of_Z; discriminate..|]. rewrite literal_half. discriminate.
Qed.

(** Asset units of a whole number of stroops. *)
Lemma asset_units s : (dval (StroopsToAssetUnits (d_of_Z s : D)) == inject_Z s * (1 # 10000000))%Q.
Proof.
  unfold StroopsToAssetUnits. destruct (dval_div (d_of_Z s : D) (d_of_Z StroopsPerUnit)) as (c & -> & Hc); [rewrite dval_of_Z; discriminate|].
  cbn [default]. rewrite Hc, !dval_of_Z. rewrite (Qround_at_exact 16 _ (s * 1000000000)).
  - rewrite Qmake_Qdiv. change (Z.pos (pow10 16)) with 10000000000000000. rewrite inject_Z_mult. field.
  - rewrite inject_Z_mult. change (inject_Z (Z.pos (pow10 16))) with (10000000000000000 # 1)%Q.
    change (inject_Z StroopsPerUnit) with (10000000 # 1)%Q. change (inject_Z 1000000000) with (1000000000 # 1)%Q. field.
Qed.
End Units.

(** C30: A vault whose recorded balance is the chain's in the ledger's unit, as every
    writer of the column keeps it, is reported as a mismatch by the reconciler the
    server runs, unless it is empty, and as a critical one as soon as it holds a
    little more than one unit: the comparison is in raw stroops. *)
Theorem correct_books_raise_alarm {D} `{!Decimal D} `{!DecimalLaws D} raw ctxErr uuidString now t l fuel res (v : Model (D:=D)) s :
  (length l < 500 * fuel)%nat →
  serverReconcile (paged l) raw ctxErr uuidString now fuel (mkScope true uuid_Nil "" t) = Some (Ok res) →
  v ∈ l → m_contract v ≠ "" → (∀ n, raw n (m_contract v) = Ok s) →
  (dval (m_balance v) == dval (StroopsToAssetUnits (d_of_Z s : D)))%Q → 0 < s →
  ∃ f, f ∈ r_findings res ∧ f_type f = TypeMismatch ∧ EntityID f = uuidString (m_id v)
       ∧ RecordedValue f = Some (m_balance v) ∧ OnChainValue f = Some (d_of_Z s)
       ∧ (10000002 ≤ s → f_severity f = SeverityCritical).
Proof.
  intros Hf Hr Hv Hc Hraw Hbal Hs. unfold serverReconcile in Hr.
  unfold BalanceReconcile in Hr. change 0 with (Z.of_nat 0) in Hr at 1. rewrite sweep_paged, drop_0 in Hr by lia.
  cbn [fmap option_fmap option_map] in Hr. injection Hr as Hr. destruct (check_vaults _ _ _ _ _ _ _ l) as [x'|e] eqn:E; [|done]. cbn [mbind result_bind] in Hr.
  apply check_swept in E as (fs & [A1 A2 _ _ _ _]). unfold verdict in Hr. destruct ((0 <? attemptedReads x')%nat && _); [done|]. injection Hr as <-.
  cbn [r_findings]. cbn in A1. rewrite A1. destruct (A2 v Hv eq_refl Hc) as (n & _ & Hn). unfold read_well, TotalAssetsStroops in Hn.
  rewrite Hraw in Hn. cbn [mbind result_bind] in Hn. rewrite asset_units in Hbal. assert (Hs0 : (0 < inject_Z s)%Q) by (by rewrite <-(Zlt_Qlt 0)).
  assert (Heq : d_eq (m_balance v) (d_of_Z s) = false).
  { apply not_true_iff_false. rewrite d_eq_spec, dval_of_Z, Hbal. intros H. lra. }
  rewrite Heq in Hn. eexists. split; [exact Hn|]. split_and!; try reflexivity. intros Hbig. unfold mismatch, Classify.
  rewrite server_classifier_kept. cbn [i_recorded i_onchain f_severity]. unfold severityForDifference. cbn [DustTolerance WarningThreshold CriticalThreshold].
  assert (Hd : (dval (d_abs (d_sub (m_balance v) (d_of_Z s))) == inject_Z s * (9999999 # 10000000))%Q).
  { rewrite dval_abs, dval_sub, dval_of_Z, Hbal. rewrite Qabs_neg by lra. lra. }
  assert (Hb : (inject_Z 10000002 <= inject_Z s)%Q) by (by rewrite <-Zle_Qle). change (inject_Z 10000002) with (10000002 # 1)%Q in Hb.
  assert (d_le (d_abs (d_sub (m_balance v) (d_of_Z s))) (literal 5 1) = false) as ->.
  { apply not_true_iff_false. rewrite d_le_spec, Hd, literal_half. lra. }
  assert (d_le (d_of_Z 10000000) (d_abs (d_sub (m_balance v) (d_of_Z s))) = true) as ->; [|done].
  apply d_le_spec. rewrite Hd, dval_of_Z. change (inject_Z 10000000) with (10000000 # 1)%Q. lra.
Qed.

(** ** How a run is recorded *)

Section Recorded.
Context {D : Type} `{!Decimal D}.
Implicit Types (a : Audit) (f : Finding D) (env : RunEnv PgEnv).









End Recorded.


(** ** The liveness metric *)

(** What happens to a runner: a pass and how it went, or a scrape. *)
Inductive happening :=
| Ticked (leader : option bool) (now then_ : Time) (pass : option bool)
| Scraped (leader : option bool) (now : Time).

Definition happen (r : Runner) (h : happening) : Runner :=
  match h with
  | Ticked leader now then_ pass => (Tick leader now then_ pass r).2
  | Scraped leader now => (AgeSample leader now r).2
  end.

(** The last time the runner started, completed a pass or gained leadership, with
    whether it leads, read off what happened alone. *)
Definition gained (leader : option bool) (now : Time) (m : bool * Time) : bool * Time :=
  match leader with
  | None => m
  | Some false => (false, m.2)
  | Some true => (true, if m.1 then m.2 else now)
  end.

Definition mark (m : bool * Time) (h : happening) : bool * Time :=
  match h with
  | Ticked leader now then_ pass =>
      let m := gained leader now m in
      if bool_decide (leader ≠ Some false) && bool_decide (pass = Some true) then (m.1, then_) else m
  | Scraped leader now => gained leader now m
  end.

Definition after_1970 (h : happening) : Prop :=
  match h with Ticked _ now then_ _ => 0 < now ∧ 0 < then_ | Scraped _ now => 0 < now end.

Record agrees (r : Runner) (m : bool * Time) : Prop := {
  ag_leads : wasLeader r = m.1;
  ag_mark : (if lastPassEnd r =? 0 then startedAt r else lastPassEnd r) = m.2;
  ag_started : 0 < startedAt r;
  ag_last : 0 ≤ lastPassEnd r;
}.

Lemma observe_agrees leader now r m :
  0 < now → agrees r m →
  let '(leads, r') := observeLeadership leader now r in agrees r' (gained leader now m) ∧ leads = bool_decide (leader ≠ Some false).
Proof.
  intros Hn [H1 H2 H3 H4]. destruct leader as [[]|]; simpl; [|by split; [split|]..]. rewrite <-H1. destruct (wasLeader r) eqn:El.
  - split; [|done]. split; simpl; try done.
  - rewrite (proj2 (Z.eqb_neq _ _)) by lia. split; [|done]. split; cbn [wasLeader lastPassEnd startedAt fst snd]; try done; try lia.
    by rewrite (proj2 (Z.eqb_neq _ _)) by lia.
Qed.

Lemma happen_agrees r m h : after_1970 h → agrees r m → agrees (happen r h) (mark m h).
Proof.
  intros Hh Ha. destruct h as [leader now then_ pass|leader now]; simpl in *.
  - destruct Hh as [Hn Ht]. pose proof (observe_agrees leader now r m Hn Ha) as Ho. unfold Tick.
    destruct (observeLeadership leader now r) as [leads r']. destruct Ho as [[H1 H2 H3 H4] ->].
    destruct (bool_decide (leader ≠ Some false)); cbn [negb andb snd]; [|done].
    destruct pass as [[]|]; [rewrite bool_decide_true by done|rewrite bool_decide_false by done; by split..].
    split; cbn [wasLeader lastPassEnd startedAt fst snd]; try done; [by rewrite (proj2 (Z.eqb_neq _ _)) by lia|lia].
  - pose proof (observe_agrees leader now r m Hh Ha) as Ho. unfold AgeSample. destruct (observeLeadership leader now r) as [leads r'].
    destruct Ho as [Ho ->]. destruct (bool_decide _); cbn [negb snd]; [|done]. by destruct ((if lastPassEnd r' =? 0 then _ else _) =? 0).
Qed.

Lemma happens_agree l : ∀ r m, Forall after_1970 l → agrees r m → agrees (foldl happen r l) (foldl mark m l).
Proof.
  induction l as [|h l IH]; intros r m Hl Ha; [done|]. apply Forall_cons in Hl as [Hh Hl]. simpl. by apply IH; [|apply happen_agrees].
Qed.

(** Nothing that fails while leading moves the mark. *)
Definition stalled (h : happening) : Prop :=
  match h with Ticked leader _ _ pass => leader = Some true ∧ pass ≠ Some true | Scraped leader _ => leader = Some true end.

Lemma stalled_mark l : ∀ m, m.1 = true → Forall stalled l → foldl mark m l = m.
Proof.
  induction l as [|h l IH]; intros [b t] Hm Hl; [done|]. simpl in Hm. subst b. apply Forall_cons in Hl as [Hh Hl]. simpl.
  assert (mark (true, t) h = (true, t)) as ->; [|by apply IH].
  destruct h as [leader now then_ pass|leader now]; simpl in *; [destruct Hh as [-> Hp]|by subst leader].
  rewrite (bool_decide_false (pass = Some true)) by done. by rewrite andb_false_r.
Qed.

(** C33: The age that a started runner reports is the time since it last started,
    completed a pass or gained leadership, and it reports none while it follows;
    so, leading, a runner whose passes fail or hang reports an age that grows with
    the clock. *)
Theorem age_is_since_last_pass l l' t0 leader now :
  0 < t0 → Forall after_1970 (l ++ l') → 0 < now →
  let r := foldl happen (Start true t0 NewRunner) l in
  let m := foldl mark (false, t0) l in
  (AgeSample leader now r).1 = (if decide (leader = Some false) then None
                                else if (gained leader now m).2 =? 0 then None else Some (timeSub now (gained leader now m).2))
  ∧ (m.1 = true → Forall stalled l' → 0 < m.2 →
     (AgeSample (Some true) now (foldl happen (Start true t0 NewRunner) (l ++ l'))).1 = Some (timeSub now m.2)).
Proof.
  intros Ht Hl Hn. cbv zeta. assert (H0 : agrees (Start true t0 NewRunner) (false, t0)) by (split; simpl; done || lia).
  assert (Hage : ∀ r m leader, agrees r m → (AgeSample leader now r).1 = (if decide (leader = Some false) then None
      else if (gained leader now m).2 =? 0 then None else Some (timeSub now (gained leader now m).2))).
  { intros r m le Ha. pose proof (observe_agrees le now r m Hn Ha) as Ho. unfold AgeSample. destruct (observeLeadership le now r) as [leads r'].
    destruct Ho as [[H1 H2 _ _] ->]. rewrite <-H2. destruct (decide (le = Some false)) as [->|Hne]; [done|].
    rewrite bool_decide_true by done. cbn [negb]. by destruct ((if lastPassEnd r' =? 0 then _ else _) =? 0). }
  pose proof (proj1 (proj1 (Forall_app _ _ _) Hl)) as Hl1. split.
  - apply Hage. by apply happens_agree.
  - intros Hm Hs Hpos. rewrite (Hage _ (foldl mark (false, t0) (l ++ l'))) by (by apply happens_agree).
    rewrite foldl_app, stalled_mark by done. rewrite decide_False by done. cbn [gained snd]. rewrite Hm.
    by rewrite (proj2 (Z.eqb_neq _ _)) by lia.
Qed.
