(* ===== verification/ReconcileScenes.v ===== *)
(** Reconciliation on concrete vaults: instances of the theorems of
    [ReconcileRuns], and what listings that move, findings that repeat, leaders that
    flap and corrections do. *)

From S2P Require Import Prelude Sql GoStrings Decimal Vault.
From S2P Require Import Ledger.
From S2P Require Import VaultStore.
From S2P Require Import Indexer.
From S2P Require Import VaultPool.
From S2P Require Import Reconcile.
From S2P Require Import ReconcileRuns.
From S2P Require Transactions.
From stdpp Require Import pretty.
Open Scope Z_scope.
Open Scope go_scope.

(** A vault that holds [balance] asset units. *)
Definition holding (id : UUID) (contract : string) (balance : Q) : Model (D:=Q) :=
  mkModel id 7 contract balance balance "USDC" StatusActive 0%Q 0%Q "daily" None.

Definition idText (id : UUID) : string := pretty id.
Definition everything : Scope := mkScope true uuid_Nil "" 100.

(** Two vaults, of which the contract of the second cannot be read, and one without
    a contract. *)
Definition scene_vaults : list (Model (D:=Q)) := [holding 1 "CA" 5%Q; holding 2 "CB" 7%Q; holding 3 "" 0%Q].
Definition scene_chain (n : nat) (contract : string) : result string Q :=
  if decide (contract = "CA") then Ok 5%Q else Err "uninitialized".
Definition dust : Classifier Q := mkClassifier 0%Q 0%Q 0%Q 0.

Lemma sweep_is_complete_witness :
  ∃ r, BalanceReconcile (paged scene_vaults) scene_chain (λ _, false) idText dust 100 everything 1 = Some r
  ∧ r = Ok (mkResult 2 []).
Proof.
  destruct (sweep_is_complete scene_chain (λ _, false) idText dust 100 everything scene_vaults 1 ltac:(vm_compute; lia)) as (r & Hr & _).
  exists r. split; [exact Hr|]. vm_compute in Hr. injection Hr as <-. reflexivity.
Defined.

(** The chain holds 50000000 stroops, the books say 5 units. *)
Definition stroops_chain (n : nat) (contract : string) : result string Z := if decide (contract = "CA") then Ok 50000000 else Ok 70000000.
Definition right_books : list (Model (D:=Q)) := [holding 1 "CA" 5%Q; holding 2 "CB" 7%Q].
Definition alarm : option (result string (ComparisonResult Q)) :=
  serverReconcile (paged right_books) stroops_chain (λ _, false) idText 100 1 (mkScope true uuid_Nil "" 100).
Definition alarmed : ComparisonResult Q := match alarm with Some (Ok res) => res | _ => mkResult 0 [] end.

Lemma correct_books_raise_alarm_witness :
  ∃ f, f ∈ r_findings alarmed ∧ f_type f = TypeMismatch ∧ EntityID f = "1"
       ∧ RecordedValue f = Some 5%Q ∧ OnChainValue f = Some (d_of_Z 50000000) ∧ f_severity f = SeverityCritical.
Proof.
  destruct (correct_books_raise_alarm stroops_chain (λ _, false) idText 100 100 right_books 1 alarmed (holding 1 "CA" 5%Q) 50000000)
    as (f & H1 & H2 & H3 & H4 & H5 & H6); [vm_compute; lia|vm_compute; reflexivity|apply list_elem_of_here|done|done|vm_compute; reflexivity|lia|].
  exists f. split_and!; try done. apply H6. lia.
Defined.

(** The read for display would find the same books right. *)
Example display_units_agree :
  BalanceReconcile (paged right_books) (λ n c, VaultBalance (stroops_chain n c)) (λ _, false) idText serverClassifier 100 everything 1
  = Some (Ok (mkResult 2 [])).
Proof. vm_compute. reflexivity. Qed.

(** *** A listing that moves *)

(** Five hundred and one vaults in the order of the listing, all of them right but
    the last; the first is paused after its page was read. *)
Definition many : list (Model (D:=Q)) := (λ n : nat, holding (Z.of_nat n) "CA" (if decide (n = 501%nat) then 9%Q else 5%Q)) <$> seq 1 501.
Definition moving (page : nat) (offset : Z) : result string (list (Model (D:=Q)) * Z) :=
  paged (if decide (page = O) then many else List.tl many) page offset.

Example moving_listing_skips_a_vault :
  BalanceReconcile moving (λ _ _, Ok 5%Q) (λ _, false) idText dust 100 everything 2 = Some (Ok (mkResult 500 []))
  ∧ (λ r, match r with Ok res => length (r_findings res) | Err _ => O end)
      <$> BalanceReconcile (paged many) (λ _ _, Ok 5%Q) (λ _, false) idText dust 100 everything 2 = Some 1%nat.
Proof. split; vm_compute; reflexivity. Qed.

(** *** Runs and findings *)

Definition answered (n : nat) : PgEnv := mkPgEnv 200 200 (900 + Z.of_nat n) DBOk.
Definition scene_env : RunEnv PgEnv := mkRunEnv 11 (answered 0) (λ n, 50 + Z.of_nat n) answered (answered 9).
Definition balances_comparator : Comparator Q :=
  mkComparator "vault_balance" LevelBalance (λ scope, default (Err "fuel") (serverReconcile (paged right_books) stroops_chain (λ _, false) idText 100 1 scope)).
Definition scene_run : Stats * list (Finding Q) * option string * Audit :=
  runComparator PostgresRepository true scene_env balances_comparator everything (mkAudit ∅ ∅ ∅).


(** The same vault found twice in a run: one row, two findings counted, and the id
    that the second call answers names no row, so a correction of it is lost. *)
Example repeated_finding_dangles :
  let f := of_run 11 50 LevelBalance (mismatch idText serverClassifier 100 (holding 1 "CA" 5%Q) (d_of_Z 50000000)) in
  let g := of_run 11 51 LevelBalance (mismatch idText serverClassifier 100 (holding 1 "CA" 5%Q) (d_of_Z 50000001)) in
  let a := scene_run.2 in
  let a1 := (pgAddFinding (answered 1) f (mkAudit (runs a) ∅ ∅)).2 in
  let '(r, a2) := pgAddFinding (answered 2) g a1 in
  (f_id <$> (match r with Ok x => Some x | Err _ => None end) = Some 51)
  ∧ found a2 !! 51 = None ∧ size (found a2) = 1%nat ∧ (pgRecordCorrection (answered 3) 51 "checked" a2) = (Ok tt, a2).
Proof. vm_compute. by repeat split. Qed.

(** A balance beyond twenty digits of asset units fails the whole pass, every time:
    the column of the finding is narrower than the one of the balance. *)
Example wide_balance_fails_the_pass :
  let wide := [holding 1 "CA" (inject_Z (10 ^ 21)); holding 2 "CB" 7%Q] in
  let c := mkComparator "vault_balance" LevelBalance
             (λ scope, default (Err "fuel") (serverReconcile (paged wide) stroops_chain (λ _, false) idText 100 1 scope)) in
  let '(stats, alerts, err, a) := runComparator PostgresRepository true scene_env c everything (mkAudit ∅ ∅ ∅) in
  err = Some "reconciliation: store finding: numeric field overflow" ∧ alerts = [] ∧ found a = ∅.
Proof. vm_compute. by repeat split. Qed.

(** *** The age *)

Lemma age_is_since_last_pass_witness :
  let before := [Ticked (Some true) 10 12 (Some true)] in
  let after := [Ticked (Some true) 310 320 (Some false); Scraped (Some true) 400; Ticked (Some true) 610 620 None] in
  (AgeSample (Some true) 700 (foldl happen (Start true 5 NewRunner) (before ++ after))).1 = Some 688.
Proof.
  cbv zeta. refine (proj2 (age_is_since_last_pass [Ticked (Some true) 10 12 (Some true)]
    [Ticked (Some true) 310 320 (Some false); Scraped (Some true) 400; Ticked (Some true) 610 620 None] 5 (Some true) 700 _ _ _) _ _ _).
  - lia.
  - repeat (apply Forall_cons; split; [vm_compute; repeat split; done|]). by apply Forall_nil.
  - lia.
  - reflexivity.
  - repeat (apply Forall_cons; split; [vm_compute; repeat split; done|]). by apply Forall_nil.
  - by vm_compute.
Defined.

(** Leadership that comes and goes sets the age back although no pass ever succeeds. *)
Example flapping_leader_stays_young :
  let flap t := [Ticked (Some true) t (t + 1) (Some false); Scraped (Some false) (t + 2)] in
  (AgeSample (Some true) 1000 (foldl happen (Start true 5 NewRunner) (flap 300 ++ flap 600 ++ flap 900))).1 = Some 0.
Proof. vm_compute. reflexivity. Qed.

(** *** A correction *)

(** A deposit of 25 that is pending in the table, and on chain completed. *)
Definition stuck_row : Transactions.Row := Transactions.mkRow 77 1 "deposit" 2500000000 "USDC" Transactions.StatusPending "" 9 9 None.
Definition stuck_finding : Finding Q :=
  Classify dust (mkInput LevelTransaction TypeStuck "transaction" "d1" None None Hour []) 100.
Definition updated (hash : string) (status : Transactions.TransactionStatus) (at_ : option Time) (reason : string) (t : Transactions.Table)
    : result string unit * Transactions.Table :=
  match Transactions.UpdateStatus (D:=Q) 100 DBOk true hash status at_ reason t with
  | (Ok _, t) => (Ok tt, t)
  | (Err _, t) => (Err "update", t)
  end.

(** Horizon shows the payment of 25 that the deposit claims. *)
Definition paid_on_chain : Transactions.ReconcileEnv :=
  Transactions.mkREnv (Transactions.Answer 200 (Some (Transactions.mkHorizonTx true "2026-01-01T00:00:00Z" "")))
    (Transactions.Answer 200 (Some [Transactions.mkOperation "payment" "credit_alphanum4" "USDC" "25" "CA" "" ""]))
    true true DBOk DBOk true.
Definition one_vault : Store :=
  mkStore {[1 := mkVaultRow 7 "CA" 0 0 "USDC" StatusActive 0 0 "daily" None None 0 0]} [] demo_ledger.
Definition wired : Transactions.TransactionService := Transactions.mkTxService "https://horizon" true true.
Definition parse_25 (s : string) : option Q := if decide (s = "25") then Some 25%Q else None.
(** A tick of the poller of transactions: the balance it leaves and whom it notifies. *)
Definition poller_tick (t : Transactions.Table) : option Z * nat :=
  let '(notified, _, s) := Transactions.TickPoller 101 id id String.eqb parse_25 (λ _, Some 8) demo_uuid (λ _, true)
                             wired 200 30 true (λ _, paid_on_chain) t one_vault in
  (v_balance <$> vaults s !! 1, length notified).

(** Correcting a stuck deposit completes it in the table, where the poller does not look
    again: its 25 are never credited, which the poller alone would have done. *)
Example corrected_deposit_is_not_credited :
  let stuck := {["d1" := stuck_row]} in
  let '(r, t, _) := ResolveStuckTransaction 100 updated (pgRecordCorrection (answered 0)) stuck_finding
                      (Some Transactions.StatusCompleted) stuck (mkAudit ∅ ∅ ∅) in
  r = Ok tt ∧ Transactions.x_status <$> t !! "d1" = Some Transactions.StatusCompleted
  ∧ poller_tick stuck = (Some 2500000000, 1%nat) ∧ poller_tick t = (Some 0, 0%nat).
Proof. vm_compute. by repeat split. Qed.
