(* ===== verification/Gamification.v ===== *)
(** The daily savings streak (internal/domain/savingsstreak/gamification.go), its
    tables (internal/repository/postgres/savings_gamification_repository.go,
    migration 112) and the service that applies confirmed deposits
    (internal/service/savings_gamification_service.go).

    A user's time zone is an argument: what time.LoadLocation answers for a name,
    the offset of local time from UTC at an instant.  Notifications are the list of
    those sent. *)

From Stdlib Require Import Ascii.
From stdpp Require Import pretty sorting.
From S2P Require Import Prelude Sql GoStrings Decimal Calendar.
Open Scope Z_scope.
Open Scope go_scope.

(** ** Days as text: the layout 2006-01-02 of package time *)

Definition utod (u : Z) : ascii := ascii_of_N (Z.to_N (48 + u)).

(** [appendInt(b, x, width)] for the widths of the layout. *)
Definition appendInt2 (x : Z) : string :=
  if (0 <=? x) && (x <? 100) then String (utod (x / 10)) (String (utod (x mod 10)) "") else pretty x.
Definition appendInt4 (x : Z) : string :=
  if (0 <=? x) && (x <? 10000) then
    String (utod (x / 1000)) (String (utod (x / 100 mod 10)) (String (utod (x / 10 mod 10)) (String (utod (x mod 10)) "")))
  else
    let u := pretty (Z.abs x) in
    (if x <? 0 then "-" else "") +:+ String.concat "" (replicate (4 - String.length u) "0") +:+ u.

Definition day_text (d : Z * Z * Z) : string :=
  let '(y, m, d) := d in appendInt4 y +:+ "-" +:+ appendInt2 m +:+ "-" +:+ appendInt2 d.

(** Exactly [n] digits, and what follows them. *)
Fixpoint take_digits (n : nat) (acc : Z) (s : string) : option (Z * string) :=
  match n, s with
  | O, _ => Some (acc, s)
  | S n, String c s => d ← digit c; take_digits n (10 * acc + d) s
  | S _, EmptyString => None
  end.
Definition take_dash (s : string) : option string :=
  match s with String "-" s => Some s | _ => None end.

(** [time.Parse], in UTC; [None] is its error. *)
Definition parse_day (s : string) : option Time :=
  '(y, s) ← take_digits 4 0 s; s ← take_dash s;
  '(m, s) ← take_digits 2 0 s; s ← take_dash s;
  '(d, s) ← take_digits 2 0 s;
  if bool_decide (s = "") && (1 <=? m) && (m <=? 12) && (1 <=? d) && (d <=? month_days y m)
  then Some (Date y m d 0 0 0 0) else None.

Section Gamification.
Context {D : Type} `{!Decimal D}.

(** ** The engine *)

Record QualifyingRule := mkRule { MinNetDeposit : D; ChurnWindow : Duration; GraceDays : Z }.
Definition DefaultQualifyingRule : QualifyingRule := mkRule (d_of_Z 5) (24 * Hour) 1.

Record GamificationState := mkGState {
  gs_user : UUID;
  gs_timezone : string;
  gs_streak : Z;
  gs_longest : Z;
  gs_lastDay : string;
  gs_graceDay : string;
  gs_saved : D;
  gs_goals : Z;
  gs_level : Z;
  gs_score : D;
  gs_awarded : list string;
}.

Record SavingEvent := mkSaving {
  se_id : string;
  se_user : UUID;
  se_amount : D;
  se_net : D;
  se_type : string;
  se_at : Time;
  se_timezone : string;
  se_withdrawn : bool;
  se_goalsDelta : Z;
}.

Record Transition := mkTransition {
  tr_qualified : bool;
  tr_reason : string;
  tr_day : string;
  tr_previous : Z;
  tr_current : Z;
  tr_longest : Z;
  tr_levelBefore : Z;
  tr_levelAfter : Z;
  tr_awarded : list string;
}.

(** [rule.MinNetDeposit.IsZero()] replaces the whole rule. *)
Definition NewGamificationEngine (rule : QualifyingRule) : QualifyingRule :=
  if d_eq (MinNetDeposit rule) d_zero then DefaultQualifyingRule else rule.

Context (LoadLocation : string → option (Time → Duration)).

Definition localDay (t : Time) (timezone : string) : option string :=
  offset ← LoadLocation timezone; Some (day_text (date (t + offset t))).

Definition day_after (t : Time) : string := day_text (date (AddDate t 0 0 1)).

(** The days between two midnights: the quotient of Hours by 24. *)
Definition day_gap (last current : Time) : Z := timeSub current last / Day.

Definition nextStreakLength (s : GamificationState) (day : string) (graceDays : Z) : Z * string :=
  if decide (gs_lastDay s = "") then (1, gs_graceDay s)
  else
    match parse_day (gs_lastDay s), parse_day day with
    | Some last, Some current =>
        if current <=? last then (gs_streak s, gs_graceDay s)
        else
          let gap := day_gap last current in
          if gap =? 1 then (i64 (gs_streak s + 1), gs_graceDay s)
          else if (gap =? 2) && (0 <? graceDays) && negb (bool_decide (gs_graceDay s = day_after last)) then
            (i64 (gs_streak s + 1), day_after last)
          else (1, gs_graceDay s)
    | _, _ => (gs_streak s, gs_graceDay s)
    end.

Definition DurableScore (s : GamificationState) : D :=
  d_add (d_add (gs_saved s) (d_of_Z (i64 (gs_longest s * 10)))) (d_of_Z (i64 (gs_goals s * 100))).

Definition level_steps : list Z := [100; 500; 1500; 5000].
Definition LevelForScore (score : D) : Z :=
  foldl (λ level threshold, if d_le (d_of_Z threshold) score then level + 1 else level) 1 level_steps.

Record LevelProgress := mkLevel { lp_level : Z; lp_score : D; lp_current : D; lp_next : D; lp_pct : D }.

Definition level_thresholds : list Z := 0 :: level_steps.
Definition threshold (n : Z) : D := d_of_Z (nth (Z.to_nat n) level_thresholds 0).

Definition LevelProgressForScore (score : D) : LevelProgress :=
  let n := Z.of_nat (length level_thresholds) in
  let level := LevelForScore score in
  let current := threshold (level - 1) in
  let next := if level <? n then threshold level else threshold (n - 1) in
  let progress :=
    if d_lt current next then
      d_round 2 (d_mul (default d_zero (d_div (d_sub score current) (d_sub next current))) (d_of_Z 100))
    else d_of_Z 100 in
  mkLevel level score current next progress.

(** *** Achievements *)

Definition AchievementFirstSave := "first_save".
Definition AchievementWeekStreak := "week_streak".
Definition AchievementMonthStreak := "month_streak".
Definition AchievementHundredSaved := "hundred_saved".
Definition AchievementGoalFinisher := "goal_finisher".

(** [sort.Strings] *)
Definition string_le (s t : string) : Prop := String.leb s t = true.
#[export] Instance string_le_dec : RelDecision string_le.
Proof. intros s t. unfold string_le. apply _. Defined.
Definition sort_strings (l : list string) : list string := merge_sort string_le l.

(** The conditions in the order in which they are added. *)
Definition earned (s : GamificationState) : list (string * bool) :=
  [(AchievementFirstSave, d_lt d_zero (gs_saved s));
   (AchievementWeekStreak, 7 <=? gs_longest s);
   (AchievementMonthStreak, 30 <=? gs_longest s);
   (AchievementHundredSaved, d_le (d_of_Z 100) (gs_saved s));
   (AchievementGoalFinisher, 1 <=? gs_goals s)].

(** [out] and the codes awarded so far. *)
Definition add_achievement (acc : list string * list string) (c : string * bool) : list string * list string :=
  let '(out, awarded) := acc in
  if c.2 && negb (bool_decide (c.1 ∈ awarded)) then (out ++ [c.1], c.1 :: awarded) else (out, awarded).
Definition NewAchievements (s : GamificationState) : list string :=
  sort_strings (foldl add_achievement ([], gs_awarded s) (earned s)).1.

Definition mergeAchievements (existing add : list string) : list string :=
  sort_strings (remove_dups (existing ++ add)).

Definition AchievementDefinitions : list string :=
  [AchievementFirstSave; AchievementWeekStreak; AchievementMonthStreak; AchievementHundredSaved; AchievementGoalFinisher].

Definition NearestAchievement (s : GamificationState) : option string :=
  head (List.filter (λ c, negb (bool_decide (c ∈ gs_awarded s))) AchievementDefinitions).

(** *** Applying an event *)

(** The defaults of a state that is used for the first time. *)
Definition settled_state (s : GamificationState) (e : SavingEvent) : GamificationState :=
  let tz := if decide (gs_timezone s = "") then se_timezone e else gs_timezone s in
  mkGState (if gs_user s =? uuid_Nil then se_user e else gs_user s)
    (if decide (tz = "") then "UTC" else tz)
    (gs_streak s) (gs_longest s) (gs_lastDay s) (gs_graceDay s) (gs_saved s) (gs_goals s)
    (if gs_level s <=? 0 then 1 else gs_level s) (gs_score s) (gs_awarded s).

(** A transition that changes nothing. *)
Definition unmoved (s : GamificationState) (qualified : bool) (reason day : string) : Transition :=
  mkTransition qualified reason day (gs_streak s) (gs_streak s) (gs_longest s) (gs_level s) (gs_level s) [].

(** What a qualifying event makes of the state on a new day, but for its achievements. *)
Definition advanced (rule : QualifyingRule) (s : GamificationState) (e : SavingEvent) (day : string) : GamificationState :=
  let '(streak, grace) := nextStreakLength s day (GraceDays rule) in
  let longest := if gs_longest s <? streak then streak else gs_longest s in
  let s := mkGState (gs_user s) (gs_timezone s) streak longest day grace (d_add (gs_saved s) (se_net e))
             (i64 (gs_goals s + se_goalsDelta e)) (gs_level s) (gs_score s) (gs_awarded s) in
  let score := DurableScore s in
  mkGState (gs_user s) (gs_timezone s) (gs_streak s) (gs_longest s) (gs_lastDay s) (gs_graceDay s)
    (gs_saved s) (gs_goals s) (LevelForScore score) score (gs_awarded s).

Definition with_awarded (awarded : list string) (s : GamificationState) : GamificationState :=
  mkGState (gs_user s) (gs_timezone s) (gs_streak s) (gs_longest s) (gs_lastDay s) (gs_graceDay s)
    (gs_saved s) (gs_goals s) (gs_level s) (gs_score s) awarded.

(** [None] is ErrInvalidTimezone. *)
Definition Apply (rule : QualifyingRule) (s : GamificationState) (e : SavingEvent)
    : option (GamificationState * Transition) :=
  let s := settled_state s e in
  day ← localDay (se_at e) (gs_timezone s);
  if negb (bool_decide (se_type e = "")) && negb (bool_decide (se_type e = "deposit_confirmed")) then
    Some (s, unmoved s false "unsupported event type" day)
  else if d_lt (se_amount e) (MinNetDeposit rule) || d_lt (se_net e) (MinNetDeposit rule) then
    Some (s, unmoved s false "net deposit below minimum qualifying amount" day)
  else if se_withdrawn e then Some (s, unmoved s false "deposit withdrawn inside churn window" day)
  else if decide (gs_lastDay s = day) then Some (s, unmoved s true "already qualified for local day" day)
  else
    let s' := advanced rule s e day in
    let added := NewAchievements s' in
    Some (with_awarded (mergeAchievements (gs_awarded s') added) s',
          mkTransition true "qualified net saving" day (gs_streak s) (gs_streak s') (gs_longest s')
            (gs_level s) (gs_level s') added).

(** *** Progress *)

Definition streakStatus (s : GamificationState) (today : string) (graceDays : Z) : string * Z :=
  if bool_decide (gs_lastDay s = "") || (gs_streak s =? 0) then ("broken", graceDays)
  else
    match parse_day (gs_lastDay s), parse_day today with
    | Some last, Some current =>
        let gap := timeSub current last `quot` Day in
        if gap <=? 1 then ("safe", graceDays)
        else if (gap =? 2) && (0 <? graceDays) then ("at-risk", 1)
        else ("broken", 0)
    | _, _ => ("broken", 0)
    end.

Record Progress := mkProgress {
  pr_streak : Z;
  pr_longest : Z;
  pr_status : string;
  pr_grace : Z;
  pr_level : LevelProgress;
  pr_nearest : option string;
  pr_awarded : list string;
}.

Definition engineProgress (rule : QualifyingRule) (s : GamificationState) (now : Time) : option Progress :=
  today ← localDay now (if decide (gs_timezone s = "") then "UTC" else gs_timezone s);
  let '(status, grace) := streakStatus s today (GraceDays rule) in
  Some (mkProgress (gs_streak s) (gs_longest s) status grace (LevelProgressForScore (gs_score s))
          (NearestAchievement s) (gs_awarded s)).

(** ** The tables *)

(** Amounts in ten-millionths. *)
Record StateRow := mkStateRow {
  sr_streak : Z;
  sr_longest : Z;
  sr_lastDay : string;
  sr_graceDay : string;
  sr_saved : Z;
  sr_goals : Z;
  sr_level : Z;
  sr_score : Z;
  sr_awarded : list string;
}.

(** What a row of the events holds of an event and its transition. *)
Record EventRow := mkEventRow {
  er_user : UUID; er_type : string; er_amount : Z; er_net : Z; er_at : Time; er_transition : Transition;
}.

Record GameTables := mkGame {
  g_users : gmap UUID (option string);
  g_states : gmap UUID StateRow;
  g_events : gmap string EventRow;
  g_awards : gset (UUID * string);
}.

(** Columns of type NUMERIC(p, 7) and INTEGER; [None] is out of range. *)
Definition numeric7 (p : Z) (x : D) : option Z :=
  let z := Qround_haz (dval x * inject_Z (10 ^ 7))%Q in if Z.abs z <? 10 ^ p then Some z else None.
Definition scan7 (z : Z) : D := default d_zero (d_div (d_of_Z z) (d_of_Z (10 ^ 7))).
Definition integer (z : Z) : option Z := if (- 2 ^ 31 <=? z) && (z <? 2 ^ 31) then Some z else None.

Definition scanState (user : UUID) (tz : option string) (r : option StateRow) : GamificationState :=
  let tz := default "UTC" tz in
  match r with
  | Some r => mkGState user tz (sr_streak r) (sr_longest r) (sr_lastDay r) (sr_graceDay r) (scan7 (sr_saved r))
                (sr_goals r) (sr_level r) (scan7 (sr_score r)) (sr_awarded r)
  | None => mkGState user tz 0 0 "" "" (d_of_Z 0) 0 1 (d_of_Z 0) []
  end.

Inductive GameErr := ErrGameIO | ErrInvalidTimezone.

(** [queryOk] is whether the query reaches the database; [d] what becomes of a
    statement. *)
Definition GetState (queryOk : bool) (user : UUID) (t : GameTables) : result GameErr GamificationState :=
  if negb queryOk then Err ErrGameIO
  else match g_users t !! user with
       | Some tz => Ok (scanState user tz (g_states t !! user))
       | None => Ok (scanState user None None)
       end.

(** A statement that changes the tables to what [r] holds, if it holds anything. *)
Definition write {A} (d : dbres) (r : option (A * GameTables)) (t : GameTables) : result GameErr A * GameTables :=
  match r with
  | None => (Err ErrGameIO, t)
  | Some (a, t') => (if failed d then Err ErrGameIO else Ok a, effect d t t')
  end.

Definition RecordEvent (d : dbres) (e : SavingEvent) (tr : Transition) (t : GameTables) : result GameErr bool * GameTables :=
  write d (a ← numeric7 46 (se_amount e); n ← numeric7 46 (se_net e);
           if decide (is_Some (g_events t !! se_id e)) then Some (false, t)
           else if decide (is_Some (g_users t !! se_user e)) then
             Some (true, mkGame (g_users t) (g_states t)
                           (<[se_id e := mkEventRow (se_user e) (se_type e) a n (se_at e) tr]> (g_events t)) (g_awards t))
           else None) t.

Definition UpsertState (d : dbres) (s : GamificationState) (t : GameTables) : result GameErr unit * GameTables :=
  write d (c ← integer (gs_streak s); l ← integer (gs_longest s); v ← numeric7 46 (gs_saved s);
           g ← integer (gs_goals s); lv ← integer (gs_level s); sc ← numeric7 30 (gs_score s);
           if decide (is_Some (g_users t !! gs_user s)) then
             Some (tt, mkGame (g_users t)
                         (<[gs_user s := mkStateRow c l (gs_lastDay s) (gs_graceDay s) v g lv sc (gs_awarded s)]> (g_states t))
                         (g_events t) (g_awards t))
           else None) t.

Definition AwardAchievement (d : dbres) (user : UUID) (code : string) (t : GameTables) : result GameErr bool * GameTables :=
  write d (if decide ((user, code) ∈ g_awards t) then Some (false, t)
           else if decide (is_Some (g_users t !! user)) then
             Some (true, mkGame (g_users t) (g_states t) (g_events t) ({[(user, code)]} ∪ g_awards t))
           else None) t.

(** ** The service *)

(** What is sent: an achievement or a level. *)
Inductive Notification := Unlocked (user : UUID) (code : string) | LeveledUp (user : UUID) (level : Z).

(** What each call of a request meets. *)
Record GameEnv := mkGameEnv {
  ge_get : bool; ge_record : dbres; ge_award : string → dbres; ge_upsert : dbres; ge_reread : bool; ge_now : Time;
}.

Context (uuidString : UUID → string) (RFC3339Nano : Time → string).

Definition identified (e : SavingEvent) : SavingEvent :=
  if decide (se_id e = "") then
    mkSaving (uuidString (se_user e) +:+ ":" +:+ se_type e +:+ ":" +:+ RFC3339Nano (se_at e)) (se_user e) (se_amount e)
      (se_net e) (se_type e) (se_at e) (se_timezone e) (se_withdrawn e) (se_goalsDelta e)
  else e.

Definition progress_of (rule : QualifyingRule) (s : GamificationState) (now : Time) : result GameErr Progress :=
  match engineProgress rule s now with Some p => Ok p | None => Err ErrInvalidTimezone end.

Definition svcProgress (rule : QualifyingRule) (queryOk : bool) (now : Time) (user : UUID) (t : GameTables) : result GameErr Progress :=
  s ← GetState queryOk user t; progress_of rule s now.

(** The achievements in turn; an error ends the loop. *)
Fixpoint award_all (env : GameEnv) (user : UUID) (codes : list string) (t : GameTables)
    : result GameErr unit * list Notification * GameTables :=
  match codes with
  | [] => (Ok tt, [], t)
  | code :: codes =>
      match AwardAchievement (ge_award env code) user code t with
      | (Err e, t) => (Err e, [], t)
      | (Ok awarded, t) =>
          let '(r, sent, t) := award_all env user codes t in
          (r, (if awarded : bool then [Unlocked user code] else []) ++ sent, t)
      end
  end.

Definition ProcessConfirmedDeposit (rule : QualifyingRule) (env : GameEnv) (e : SavingEvent) (t : GameTables)
    : result GameErr Progress * list Notification * GameTables :=
  let e := identified e in
  match GetState (ge_get env) (se_user e) t with
  | Err err => (Err err, [], t)
  | Ok s =>
      match Apply rule s e with
      | None => (Err ErrInvalidTimezone, [], t)
      | Some (next, tr) =>
          match RecordEvent (ge_record env) e tr t with
          | (Err err, t) => (Err err, [], t)
          | (Ok false, t) => (svcProgress rule (ge_reread env) (ge_now env) (se_user e) t, [], t)
          | (Ok true, t) =>
              if negb (tr_qualified tr) then (progress_of rule next (ge_now env), [], t)
              else
                match award_all env (se_user e) (tr_awarded tr) t with
                | (Err err, sent, t) => (Err err, sent, t)
                | (Ok _, sent, t) =>
                    let sent := sent ++ (if tr_levelBefore tr <? tr_levelAfter tr then [LeveledUp (se_user e) (tr_levelAfter tr)] else []) in
                    match UpsertState (ge_upsert env) next t with
                    | (Err err, t) => (Err err, sent, t)
                    | (Ok _, t) => (progress_of rule next (ge_now env), sent, t)
                    end
                end
          end
      end
  end.
End Gamification.
