(* ===== verification/GamificationRuns.v ===== *)
(** The savings streak: days and their text, what a user's streak is in terms of the
    days saved on, levels, and what a history of requests may announce. *)

From Stdlib Require Import Ascii Lqa.
From stdpp Require Import pretty sorting.
From S2P Require Import Prelude Sql GoStrings Decimal Calendar.
From S2P Require Import Gamification.
Open Scope Z_scope.
Open Scope go_scope.

(** ** Days as text *)

(** The days from 0000-01-01 to 9999-12-31. *)
Definition in_layout (z : Z) : Prop := - 719528 ≤ z < 2932897.

Lemma in_layout_year z y m d : in_layout z → civil z = (y, m, d) → 0 ≤ y < 10000.
Proof.
  intros Hz E. pose proof (days_of_civil z) as H. rewrite E in H. destruct H as [Hd [Hm Hday]].
  pose proof (month_days_range y m). rewrite days_of_base in Hd. unfold in_layout in Hz.
  unfold year_base, march_year, march_month, month_start in Hd.
  destruct (Z.leb_spec m 2); split; go_mod.
Qed.

Lemma digit_utod u : 0 ≤ u ≤ 9 → digit (utod u) = Some u.
Proof.
  intros H. assert (u = 0 ∨ u = 1 ∨ u = 2 ∨ u = 3 ∨ u = 4 ∨ u = 5 ∨ u = 6 ∨ u = 7 ∨ u = 8 ∨ u = 9) as E by lia.
  by repeat destruct E as [->|E]; [..|subst u].
Qed.

Lemma string_cons c s t : String c s +:+ t = String c (s +:+ t). Proof. done. Qed.
Lemma string_nil t : "" +:+ t = t. Proof. done. Qed.
Lemma string_nil_r s : s +:+ "" = s. Proof. induction s as [|c s IH]; [done|]. by rewrite string_cons, IH. Qed.

Lemma take_two x s : 0 ≤ x < 100 → take_digits 2 0 (appendInt2 x +:+ s) = Some (x, s).
Proof.
  intros H. unfold appendInt2. rewrite (proj2 (Z.leb_le 0 x)), (proj2 (Z.ltb_lt x 100)) by lia; cbn [andb]. rewrite !string_cons, string_nil; cbn [take_digits].
  rewrite !digit_utod by go_mod. cbn [mbind option_bind]. repeat f_equal. go_mod.
Qed.

Lemma take_four x s : 0 ≤ x < 10000 → take_digits 4 0 (appendInt4 x +:+ s) = Some (x, s).
Proof.
  intros H. unfold appendInt4. rewrite (proj2 (Z.leb_le 0 x)), (proj2 (Z.ltb_lt x 10000)) by lia; cbn [andb]. rewrite !string_cons, string_nil; cbn [take_digits].
  rewrite !digit_utod by go_mod. cbn [mbind option_bind]. repeat f_equal. go_mod.
Qed.

(** A day of a four-digit year is read back from its text as its midnight. *)
Theorem day_text_parses z : in_layout z → parse_day (day_text (civil z)) = Some (z * Day).
Proof.
  intros Hz. pose proof (days_of_civil z) as H. destruct (civil z) as [[y m] d] eqn:E. destruct H as [Hd [Hm Hday]].
  pose proof (in_layout_year z y m d Hz E) as Hy. pose proof (month_days_range y m) as Hr.
  unfold parse_day, day_text. rewrite take_four by done. cbn [mbind option_bind]; rewrite string_cons, string_nil; cbn [mbind option_bind take_dash].
  rewrite take_two by lia. cbn [mbind option_bind]; rewrite string_cons, string_nil; cbn [mbind option_bind take_dash].
  pose proof (take_two d "" ltac:(lia)) as Ht. rewrite string_nil_r in Ht. rewrite Ht. cbn [mbind option_bind].
  rewrite bool_decide_true by done. rewrite (proj2 (Z.leb_le 1 m)), (proj2 (Z.leb_le m 12)), (proj2 (Z.leb_le 1 d)), (proj2 (Z.leb_le d (month_days y m))) by lia. cbn [andb]. f_equal.
  unfold Date. rewrite (Z.div_small (m - 1) 12), (Z.mod_small (m - 1) 12), (Z.add_0_r y) by lia. replace (m - 1 + 1) with m by lia.
  rewrite <-Hd. assert (E' : days_of y m d = days_of y m 1 + (d - 1)) by (rewrite <-days_of_day; f_equal; lia). rewrite E'. lia.
Qed.

Lemma day_text_inj z z' : in_layout z → in_layout z' → day_text (civil z) = day_text (civil z') → z = z'.
Proof. intros H H' E. apply day_text_parses in H, H'. rewrite E, H' in H. injection H. pose proof Day_pos. nia. Qed.

Lemma day_text_some z : in_layout z → day_text (civil z) ≠ "".
Proof. intros H%day_text_parses E. by rewrite E in H. Qed.

(** ** The streak is a count of days *)

Section Streak.
Context {D : Type} `{!Decimal D} `{!DecimalLaws D}.
Context (LoadLocation : string → option (Time → Duration)) (tz : string) (offset : Time → Duration).
Context (rule : QualifyingRule (D:=D)).
Implicit Types (s : GamificationState (D:=D)) (e : SavingEvent (D:=D)).

(** The local day of an event, counted from 1970. *)
Definition day_of e : Z := (se_at e + offset (se_at e)) / Day.

(** A confirmed saving that counts. *)
Definition qualifying e : Prop :=
  se_type e = "deposit_confirmed" ∧ se_withdrawn e = false
  ∧ (dval (MinNetDeposit rule) <= dval (se_amount e))%Q ∧ (dval (MinNetDeposit rule) <= dval (se_net e))%Q.

(** The reference: what is left of a history of days and amounts.  Only the first
    saving of a day counts, and a gap of one day never ends a streak. *)
Record tally := mkTally { t_last : option Z; t_streak : Z; t_longest : Z; t_saved : Q }.
Definition nothing : tally := mkTally None 0 0 0.
Definition count (x : tally) (e : SavingEvent (D:=D)) : tally :=
  let d := day_of e in
  let new n := mkTally (Some d) n (Z.max (t_longest x) n) (t_saved x + dval (se_net e)) in
  match t_last x with
  | None => new 1
  | Some l => if d =? l then x else if d - l <=? 2 then new (t_streak x + 1) else new 1
  end.

(** The events applied in turn. *)
Fixpoint apply_all s (es : list (SavingEvent (D:=D))) : option (GamificationState (D:=D)) :=
  match es with
  | [] => Some s
  | e :: es => match Apply LoadLocation rule s e with Some (s, _) => apply_all s es | None => None end
  end.

(** A user that has not saved yet. *)
Definition newcomer user : GamificationState := mkGState user tz 0 0 "" "" (d_of_Z 0) 0 1 (d_of_Z 0) [].

(** Days in order, each of them in the layout; [from] is the last one before. *)
Fixpoint in_order (from : Z) (es : list (SavingEvent (D:=D))) : Prop :=
  match es with [] => True | e :: es => from ≤ day_of e ∧ in_layout (day_of e) ∧ in_order (day_of e) es end.

Record agrees (n : Z) s (x : tally) : Prop := {
  ag_tz : gs_timezone s = tz;
  ag_streak : gs_streak s = t_streak x;
  ag_bound : 0 ≤ t_streak x ≤ n;
  ag_longest : gs_longest s = t_longest x;
  ag_saved : (dval (gs_saved s) == t_saved x)%Q;
  ag_last : match t_last x with
            | None => gs_lastDay s = "" ∧ gs_graceDay s = ""
            | Some l => in_layout l ∧ gs_lastDay s = day_text (civil l)
                        ∧ (gs_graceDay s = "" ∨ ∃ g, in_layout g ∧ g < l ∧ gs_graceDay s = day_text (civil g))
            end;
}.

Lemma day_after_midnight l : day_after (l * Day) = day_text (civil (l + 1)).
Proof.
  unfold day_after. rewrite AddDate_days. replace (l * Day + 1 * Day) with ((l + 1) * Day) by lia.
  unfold date. by rewrite Z.div_mul.
Qed.

Lemma day_gap_midnights l d : l ≤ d → in_layout l → in_layout d →
  let gap := day_gap (l * Day) (d * Day) in (gap = 1 ↔ d = l + 1) ∧ (gap = 2 ↔ d = l + 2).
Proof.
  intros Hld Hl Hd. cbv zeta. unfold day_gap, timeSub, sat64, max_i64, min_i64, in_layout in *.
  change Day with 86400000000000. split; go_mod.
Qed.

(** The streak that a new day gives, and what is kept of the bridged day. *)
Lemma next_streak n s x d : agrees n s x → 0 < GraceDays rule → n < 2 ^ 62 → in_layout d →
  (∀ l, t_last x = Some l → l < d) →
  let '(streak, grace) := nextStreakLength s (day_text (civil d)) (GraceDays rule) in
  streak = match t_last x with Some l => if d - l <=? 2 then t_streak x + 1 else 1 | None => 1 end
  ∧ (grace = "" ∨ ∃ g, in_layout g ∧ g < d ∧ grace = day_text (civil g)).
Proof.
  intros [Htz Hs Hb _ _ Hlast] Hg Hn Hd Hlt. unfold nextStreakLength.
  destruct (t_last x) as [l|] eqn:El; [|destruct Hlast as [-> ->]; rewrite decide_True by done; by split; [|left]].
  destruct Hlast as (Hl & Ht & Hgr). specialize (Hlt l eq_refl). rewrite decide_False by (rewrite Ht; by apply day_text_some).
  rewrite Ht, !day_text_parses by done. rewrite (proj2 (Z.leb_gt _ _)) by (pose proof Day_pos; nia).
  destruct (day_gap_midnights l d ltac:(lia) Hl Hd) as [H1 H2]. cbv zeta in H1, H2.
  assert (Hkeep : gs_graceDay s = "" ∨ ∃ g, in_layout g ∧ g < d ∧ gs_graceDay s = day_text (civil g))
    by (destruct Hgr as [->|(g & ? & ? & ->)]; [by left|right; exists g; split_and!; [done|lia|done]]).
  assert (Hi : i64 (gs_streak s + 1) = t_streak x + 1) by (rewrite Hs; apply i64_id; unfold in_i64, min_i64, max_i64; lia).
  cbv zeta. destruct (Z.eqb_spec (day_gap (l * Day) (d * Day)) 1) as [E1|E1]; [rewrite Hi; split; [|done]; apply H1 in E1; destruct (Z.leb_spec (d - l) 2); lia|].
  destruct (Z.eqb_spec (day_gap (l * Day) (d * Day)) 2) as [E2|E2]; cbn [andb].
  - apply H2 in E2. rewrite (proj2 (Z.ltb_lt _ _)) by done. cbn [andb]. rewrite bool_decide_false; cbn [negb].
    + rewrite Hi. split; [destruct (Z.leb_spec (d - l) 2); lia|]. right. exists (l + 1). unfold in_layout in *.
      split_and!; [lia|lia|lia|by rewrite day_after_midnight].
    + rewrite day_after_midnight. intros E. assert (in_layout (l + 1)) by (unfold in_layout in *; lia).
      destruct Hgr as [Hgr|(g & Hgl & Hgg & Hgr)]; rewrite Hgr in E; [by apply (day_text_some (l + 1))|].
      apply day_text_inj in E; [lia|done|done].
  - split; [|done]. assert (d ≠ l + 1) by (intros Hx%H1; congruence). assert (d ≠ l + 2) by (intros Hx%H2; congruence). destruct (Z.leb_spec (d - l) 2); lia.
Qed.

Lemma LevelForScore_range (score : D) : 1 ≤ LevelForScore score ≤ 5.
Proof. unfold LevelForScore, level_steps. cbn [foldl]. repeat case_match; lia. Qed.

Lemma d_ge_lt (a b : D) : (dval b <= dval a)%Q → d_lt a b = false.
Proof. intros H. destruct (d_lt a b) eqn:E; [|done]. apply d_lt_spec in E. by apply Qle_not_lt in H. Qed.

Context (Hzone : LoadLocation tz = Some offset) (Htz : tz ≠ "") (Hgrace : 0 < GraceDays rule).

Lemma apply_counts n s x e : agrees n s x → n < 2 ^ 62 → qualifying e → in_layout (day_of e) →
  (∀ l, t_last x = Some l → l ≤ day_of e) →
  ∃ s' tr, Apply LoadLocation rule s e = Some (s', tr) ∧ agrees (n + 1) s' (count x e).
Proof.
  intros Ha Hn (Hty & Hw & Hamt & Hnet) Hd Hle. assert (Ha' : agrees n (settled_state s e) x)
    by (destruct Ha as [A1 A2 A3 A4 A5 A6]; split; cbn; rewrite ?A1; try done; by (destruct (decide (tz = "")); [done|]; rewrite decide_False)).
  unfold Apply. revert Ha'. generalize (settled_state s e). intros s0 Ha0. pose proof Ha0 as [B1 B2 B3 B4 B5 B6].
  unfold localDay. rewrite B1, Hzone. cbn [mbind option_bind]. change (date (se_at e + offset (se_at e))) with (civil (day_of e)).
  rewrite Hty, bool_decide_false by done. rewrite (bool_decide_true (_ = _)) by done. cbn [negb andb].
  rewrite !d_ge_lt by done. cbn [orb]. rewrite Hw. unfold count.
  destruct (t_last x) as [l|] eqn:El.
  - destruct B6 as (Hl & Ht & Hgr). specialize (Hle l eq_refl). destruct (Z.eqb_spec (day_of e) l) as [E|E].
    + rewrite decide_True by (by rewrite E). exists s0. eexists. split; [done|]. split; try done; [lia|]. by rewrite El.
    + rewrite decide_False by (rewrite Ht; intros Hx%day_text_inj; congruence).
      eexists _, _. split; [reflexivity|]. pose proof (next_streak n s0 x (day_of e) Ha0 Hgrace Hn Hd) as Hns.
      rewrite El in Hns. specialize (Hns ltac:(intros ? [= <-]; lia)). unfold advanced. destruct (nextStreakLength _ _ _) as [st gr]. destruct Hns as [-> Hg'].
      assert (Hmax : ∀ k, (if gs_longest s0 <? k then k else gs_longest s0) = Z.max (t_longest x) k) by (intros k; rewrite B4; destruct (Z.ltb_spec (t_longest x) k); lia).
      destruct (Z.leb_spec (day_of e - l) 2); split; cbn; rewrite ?Hmax; try done; try lia; rewrite dval_add, B5; reflexivity.
  - destruct B6 as [Ht Hgr]. rewrite decide_False by (rewrite Ht; intros Hx; by apply (day_text_some _ Hd)).
    eexists _, _. split; [reflexivity|]. pose proof (next_streak n s0 x (day_of e) Ha0 Hgrace Hn Hd) as Hns.
    rewrite El in Hns. specialize (Hns ltac:(done)). unfold advanced. destruct (nextStreakLength _ _ _) as [st gr]. destruct Hns as [-> Hg'].
    assert (Hmax : ∀ k, (if gs_longest s0 <? k then k else gs_longest s0) = Z.max (t_longest x) k) by (intros k; rewrite B4; destruct (Z.ltb_spec (t_longest x) k); lia).
    split; cbn; rewrite ?Hmax; try done; try lia; rewrite dval_add, B5; reflexivity.
Qed.

Lemma apply_all_counts es : ∀ n s x, agrees n s x → n + Z.of_nat (length es) < 2 ^ 62 → Forall qualifying es →
  in_order (default (- 719528) (t_last x)) es →
  ∃ s', apply_all s es = Some s' ∧ agrees (n + Z.of_nat (length es)) s' (foldl count x es).
Proof.
  induction es as [|e es IH]; intros n s x Ha Hn Hq Ho.
  - exists s. split; [done|]. by rewrite Z.add_0_r.
  - apply Forall_cons in Hq as [Hq1 Hq]. destruct Ho as (Ho1 & Ho2 & Ho). cbn [length] in *.
    destruct (apply_counts n s x e Ha ltac:(lia) Hq1 Ho2) as (s' & tr & E & Ha'); [by intros l El; rewrite El in Ho1|].
    cbn [apply_all foldl]. rewrite E. destruct (IH (n + 1) s' (count x e) Ha' ltac:(lia) Hq) as (s'' & E'' & Ha'').
    + assert (default (- 719528) (t_last (count x e)) = day_of e) as ->; [|done]. unfold count.
      destruct (t_last x) as [l|] eqn:El; [|done]. destruct (Z.eqb_spec (day_of e) l) as [->|]; [by rewrite El|].
      by destruct (day_of e - l <=? 2).
    + exists s''. split; [done|]. by replace (n + Z.of_nat (S (length es))) with (n + 1 + Z.of_nat (length es)) by lia.
Qed.
End Streak.

(** The streak as the engine counts it, for a user who starts afresh and whose
    confirmed savings come in the order of their local days: the number of days saved
    on since the last gap of two days or more without a saving; with it the longest
    one, and the sum of the first saving of each day.  The README of the package
    means otherwise on two points: it has one gap covered, and the whole amount saved
    counted (see [GamificationScenes]). *)
Theorem streak_counts_days {D} `{!Decimal D} `{!DecimalLaws D} LoadLocation tz offset (rule : QualifyingRule (D:=D)) user es :
  LoadLocation tz = Some offset → tz ≠ "" → 0 < GraceDays rule →
  Forall (qualifying rule) es → in_order offset (- 719528) es → Z.of_nat (length es) < 2 ^ 62 →
  let x := foldl (count offset) nothing es in
  ∃ s, apply_all LoadLocation rule (newcomer tz user) es = Some s
  ∧ gs_streak s = t_streak x ∧ gs_longest s = t_longest x ∧ (dval (gs_saved s) == t_saved x)%Q
  ∧ gs_lastDay s = (match t_last x with Some l => day_text (civil l) | None => "" end).
Proof.
  intros Hz Htz Hg Hq Ho Hn. cbv zeta.
  destruct (apply_all_counts LoadLocation tz offset rule Hz Htz Hg es 0 (newcomer tz user) nothing) as (s & E & [A1 A2 A3 A4 A5 A6]); try done.
  { split; cbn; try done. by rewrite dval_of_Z. }
  exists s. split_and!; try done. destruct (t_last _); [by destruct A6 as (_ & ? & _)|by destruct A6].
Qed.

(** ** Levels *)

Section Levels.
Context {D : Type} `{!Decimal D} `{!DecimalLaws D}.

Lemma d_of_Z_le z (x : D) : d_le (d_of_Z z) x = true ↔ (inject_Z z <= dval x)%Q.
Proof. by rewrite d_le_spec, dval_of_Z. Qed.

Lemma level_cases (score : D) : (0 <= dval score)%Q →
  let n := LevelForScore score in
  (dval (threshold (n - 1) : D) <= dval score)%Q ∧ (n < 5 → (dval score < dval (threshold n : D))%Q) ∧ 1 ≤ n ≤ 5.
Proof.
  intros H0. unfold LevelForScore, level_steps. cbn [foldl].
  assert (Hc : ∀ z, (d_le (d_of_Z z) score = true ∧ (inject_Z z <= dval score)%Q) ∨ (d_le (d_of_Z z) score = false ∧ (dval score < inject_Z z)%Q)).
  { intros z. destruct (d_le (d_of_Z z) score) eqn:E; [left|right]; split; try done; [by apply d_of_Z_le|].
    apply Qnot_le_lt. intros H%d_of_Z_le. congruence. }
  assert (Hle : ∀ a b, a ≤ b → (inject_Z b <= dval score)%Q → (dval score < inject_Z a)%Q → False).
  { intros a b Hab Hb Ha. apply (Qlt_not_le _ _ Ha). apply (Qle_trans _ (inject_Z b)); [by rewrite <-Zle_Qle|done]. }
  destruct (Hc 100) as [[-> H1]|[-> H1]], (Hc 500) as [[-> H2]|[-> H2]], (Hc 1500) as [[-> H3]|[-> H3]], (Hc 5000) as [[-> H4]|[-> H4]];
    try (exfalso; first [by apply (Hle 100 500)|by apply (Hle 500 1500)|by apply (Hle 1500 5000)]);
    cbv zeta; (split; [|split; [intros ?|]]); try lia; unfold threshold; rewrite dval_of_Z; try done.
Qed.

Lemma level_share (score cur next : D) :
  (dval cur <= dval score)%Q → (dval cur < dval next)%Q → (dval score <= dval next)%Q →
  let c := default d_zero (d_div (d_sub score cur) (d_sub next cur)) in (0 <= dval c)%Q ∧ (dval c <= 1)%Q.
Proof.
  intros H1 H2 H3. cbv zeta. destruct (dval_div (d_sub score cur) (d_sub next cur)) as (c & -> & Hc); [rewrite dval_sub; lra|].
  cbn [default]. rewrite Hc, !dval_sub. apply (Qround_at_range 16 _ 1).
  - apply Qle_shift_div_l; lra.
  - apply Qle_shift_div_r; change (inject_Z 1) with 1%Q; lra.
Qed.
End Levels.

(** The level of a score that is not negative: the thresholds it lies between, and a
    progress to the next one from 0 to 100. *)
Theorem level_is_between_thresholds {D} `{!Decimal D} `{!DecimalLaws D} (score : D) :
  (0 <= dval score)%Q →
  let p := LevelProgressForScore score in
  1 ≤ lp_level p ≤ 5 ∧ (dval (lp_current p) <= dval score)%Q ∧ (lp_level p < 5 → (dval score < dval (lp_next p))%Q)
  ∧ (0 <= dval (lp_pct p))%Q ∧ (dval (lp_pct p) <= 100)%Q.
Proof.
  intros H0. cbv zeta. destruct (level_cases score H0) as (H1 & H2 & H3). unfold LevelProgressForScore. cbn [lp_level lp_current lp_next lp_pct].
  change (Z.of_nat (length level_thresholds)) with 5. set (n := LevelForScore score) in *. clearbody n.
  split; [done|]. split; [done|]. split; [intros H; rewrite (proj2 (Z.ltb_lt n 5)) by done; by apply H2|].
  set (next := if n <? 5 then _ else _). destruct (d_lt (threshold (n - 1)) next) eqn:El.
  2:{ rewrite dval_of_Z. by split. }
  apply d_lt_spec in El. assert (Hs : (dval score < dval next)%Q).
  { unfold next in *. destruct (Z.ltb_spec n 5) as [Hn|Hn]; [by apply H2|]. replace n with 5 in El by lia. by apply Qlt_irrefl in El. }
  rewrite dval_round by lia. apply (Qround_at_range 2 _ 100); rewrite dval_mul, dval_of_Z;
    destruct (level_share score (threshold (n - 1)) next H1 El (Qlt_le_weak _ _ Hs)) as [Hp0 Hp1]; change (inject_Z 100) with 100%Q; lra.
Qed.

(** ** What requests announce *)

Section Requests.
Context {D : Type} `{!Decimal D}.
Context (LoadLocation : string → option (Time → Duration)) (uuidString : UUID → string) (RFC3339Nano : Time → string).
Context (rule : QualifyingRule (D:=D)).
Implicit Types (t : GameTables) (e : SavingEvent (D:=D)) (env : GameEnv).

#[local] Abbreviation call := (ProcessConfirmedDeposit LoadLocation uuidString RFC3339Nano rule).
#[local] Abbreviation id_of e := (se_id (identified uuidString RFC3339Nano e)).

(** Requests one after the other: what is sent, and the tables. *)
Fixpoint requests (h : list (GameEnv * SavingEvent (D:=D))) t : list Notification * GameTables :=
  match h with
  | [] => ([], t)
  | (env, e) :: h =>
      let '(_, sent, t) := call env e t in
      let '(more, t) := requests h t in (sent ++ more, t)
  end.

Definition unlocked (sent : list Notification) : list (UUID * string) :=
  omap (λ n, match n with Unlocked u c => Some (u, c) | LeveledUp _ _ => None end) sent.

Lemma unlocked_app l l' : unlocked (l ++ l') = unlocked l ++ unlocked l'.
Proof. induction l as [|[u c|u n] l IH]; cbn; [done|by f_equal|done]. Qed.

(** The unlocks are new in the table, and there afterwards. *)
Record announces (t t' : GameTables) (sent : list Notification) : Prop := {
  an_nodup : NoDup (unlocked sent);
  an_new p : p ∈ unlocked sent → p ∉ g_awards t ∧ p ∈ g_awards t';
  an_awards : g_awards t ⊆ g_awards t';
  an_events : ∀ id, is_Some (g_events t !! id) → is_Some (g_events t' !! id);
}.

Lemma announces_nothing t t' : g_awards t' = g_awards t → (∀ id, is_Some (g_events t !! id) → is_Some (g_events t' !! id)) →
  announces t t' [].
Proof. intros E He. split; cbn; [constructor|by intros p ?%not_elem_of_nil|by rewrite E|done]. Qed.

Lemma announces_app t1 t2 t3 l l' : announces t1 t2 l → announces t2 t3 l' → announces t1 t3 (l ++ l').
Proof.
  intros [A1 A2 A3 A4] [B1 B2 B3 B4]. split; rewrite ?unlocked_app.
  - apply NoDup_app. split_and!; [done| |done]. intros p Hp Hp'. by apply B2 in Hp' as [Hn _]; apply A2 in Hp as [_ ?].
  - intros p [[? ?]%A2|[? ?]%B2]%elem_of_app; split; [done|set_solver|set_solver|done].
  - set_solver.
  - eauto.
Qed.

Lemma announces_level t u n : announces t t [LeveledUp u n].
Proof. split; cbn; [constructor|by intros p ?%not_elem_of_nil|done|done]. Qed.

Lemma write_cases {A} d (r : option (A * GameTables)) t x t' : write d r t = (x, t') →
  (t' = t ∧ is_ok x = false) ∨ ∃ a u, r = Some (a, u) ∧ (x = Ok a ∧ t' = u ∨ is_ok x = false ∧ (t' = t ∨ t' = u)).
Proof.
  unfold write. destruct r as [[a u]|]; [|intros [= <- <-]; by left]. intros [= <- <-]. right. exists a, u. split; [done|].
  destruct d as [|[]]; cbn; [by left|right..]; split; eauto.
Qed.

Lemma AwardAchievement_spec d u c t r t' : AwardAchievement d u c t = (r, t') →
  announces t t' (match r with Ok true => [Unlocked u c] | _ => [] end).
Proof.
  intros [(-> & Hr)|(a & v & E & H)]%write_cases; [destruct r; [done|]; by apply announces_nothing|].
  case_decide as Ha; [injection E as <- <-; assert (t' = t) as -> by (destruct H as [[_ ?]|[_ [?|?]]]; done); destruct H as [[-> _]|[? _]];
    [by apply announces_nothing|destruct r; [done|]; by apply announces_nothing]|].
  case_decide; [|done]. injection E as <- <-. destruct H as [[-> ->]|[Hr H]].
  - split; cbn; [apply NoDup_singleton|intros p ->%list_elem_of_singleton; set_solver|set_solver|done].
  - destruct r; [done|]. destruct H as [->| ->]; [by apply announces_nothing|]. split; cbn; [constructor|by intros p ?%not_elem_of_nil|set_solver|done].
Qed.

Lemma award_all_spec env u codes : ∀ t r sent t', award_all env u codes t = (r, sent, t') → announces t t' sent.
Proof.
  induction codes as [|c codes IH]; intros t r sent t'; cbn [award_all].
  - intros [= <- <- <-]. by apply announces_nothing.
  - destruct (AwardAchievement _ u c t) as [[b|x] t1] eqn:E; apply AwardAchievement_spec in E; [|intros [= <- <- <-]; done].
    destruct (award_all env u codes t1) as [[r2 s2] t2] eqn:E2. intros [= <- <- <-]. apply IH in E2.
    destruct b; by apply (announces_app t t1).
Qed.

Lemma RecordEvent_spec d e tr t r t' : RecordEvent d e tr t = (r, t') →
  announces t t' [] ∧ (is_Some (g_events t !! se_id e) → t' = t ∧ r ≠ Ok true)
  ∧ (t' ≠ t ∨ r = Ok true → is_Some (g_events t' !! se_id e)).
Proof.
  intros [(-> & Hr)|(a & v & E & H)]%write_cases.
  { split_and!; [by apply announces_nothing|intros _; by destruct r|intros [?| ->]; done]. }
  destruct (numeric7 46 (se_amount e)), (numeric7 46 (se_net e)); try done. cbn [mbind option_bind] in E. case_decide as Hs.
  { injection E as <- <-. assert (t' = t) as -> by (destruct H as [[_ ?]|[_ [?|?]]]; done).
    split_and!; [by apply announces_nothing|intros _; split; [done|]; by destruct H as [[-> _]|[? _]]; [|destruct r]|done]. }
  case_decide; [|done]. injection E as <- <-. split_and!; [|done|].
  - apply announces_nothing; [by destruct H as [[_ ->]|[_ [->| ->]]]|].
    intros id Hid. destruct H as [[_ ->]|[_ [->| ->]]]; cbn; try done; rewrite lookup_insert_is_Some; destruct (decide (se_id e = id)); eauto.
  - intros Hc. destruct H as [[_ ->]|[Hr [->| ->]]]; cbn; rewrite ?lookup_insert_eq; try by eexists. destruct Hc as [?| ->]; done.
Qed.

Lemma UpsertState_spec d s t r t' : UpsertState (D:=D) d s t = (r, t') → announces t t' [].
Proof.
  intros [(-> & _)|(a & v & E & H)]%write_cases; [by apply announces_nothing|].
  destruct (integer (gs_streak s)), (integer (gs_longest s)), (numeric7 46 (gs_saved s)), (integer (gs_goals s)),
    (integer (gs_level s)), (numeric7 30 (gs_score s)); try done. cbn [mbind option_bind] in E. case_decide; [|done]. injection E as <- <-.
  destruct H as [[_ ->]|[_ [->| ->]]]; by apply announces_nothing.
Qed.

(** A request announces what is new, does nothing for an event that is recorded, and
    records the event of whatever it does. *)
Lemma call_spec env e t r sent t' : call env e t = (r, sent, t') →
  announces t t' sent ∧ (is_Some (g_events t !! id_of e) → sent = [] ∧ t' = t)
  ∧ (sent ≠ [] ∨ t' ≠ t → is_Some (g_events t' !! id_of e)).
Proof.
  unfold ProcessConfirmedDeposit. set (e' := identified uuidString RFC3339Nano e).
  assert (Hnone : announces t t [] ∧ (is_Some (g_events t !! se_id e') → @nil Notification = [] ∧ t = t)
    ∧ (@nil Notification ≠ [] ∨ t ≠ t → is_Some (g_events t !! se_id e'))) by (split_and!; [by apply announces_nothing|done|intros [?|?]; done]).
  destruct (GetState _ _ t) as [s|x]; [|by intros [= <- <- <-]].
  destruct (Apply LoadLocation rule s e') as [[next tr]|]; [|by intros [= <- <- <-]].
  destruct (RecordEvent _ e' tr t) as [rr t1] eqn:E1. apply RecordEvent_spec in E1 as (A1 & A2 & A3).
  assert (Hquiet : announces t t1 [] ∧ (is_Some (g_events t !! se_id e') → @nil Notification = [] ∧ t1 = t)
    ∧ (@nil Notification ≠ [] ∨ t1 ≠ t → is_Some (g_events t1 !! se_id e')))
    by (split_and!; [done|intros Hs; by destruct (A2 Hs)|intros [?|?]; [done|by apply A3; left]]).
  destruct rr as [[]|x]; [|by intros [= <- <- <-]|by intros [= <- <- <-]].
  assert (Hrec := A3 (or_intror eq_refl)).
  assert (Hnew : ¬ is_Some (g_events t !! se_id e')) by (intros Hs; by destruct (A2 Hs)).
  assert (Hgo : ∀ t' sent, announces t1 t' sent → announces t t' sent ∧ (is_Some (g_events t !! se_id e') → sent = [] ∧ t' = t)
    ∧ (sent ≠ [] ∨ t' ≠ t → is_Some (g_events t' !! se_id e'))).
  { intros t2 s2 B. split_and!; [by apply (announces_app t t1 t2 [] s2)|done|intros _; by apply (an_events _ _ _ B)]. }
  destruct (tr_qualified tr); cbn [negb]; [|intros [= <- <- <-]; apply Hgo; by apply announces_nothing].
  destruct (award_all env (se_user e') (tr_awarded tr) t1) as [[ra sa] t2] eqn:E2. apply award_all_spec in E2.
  destruct ra as [[]|x]; [|intros [= <- <- <-]; by apply Hgo].
  set (lv := if tr_levelBefore tr <? _ then _ else _).
  assert (H2 : announces t1 t2 (sa ++ lv)).
  { apply (announces_app t1 t2 t2); [done|]. unfold lv. destruct (_ <? _); [apply announces_level|by apply announces_nothing]. }
  destruct (UpsertState _ next t2) as [ru t3] eqn:E3. apply UpsertState_spec in E3.
  assert (H3 : announces t1 t3 (sa ++ lv)) by (rewrite <-(app_nil_r (sa ++ lv)); by apply (announces_app t1 t2 t3)).
  destruct ru; intros [= <- <- <-]; by apply Hgo.
Qed.

Lemma requests_announce h : ∀ t, announces t (requests h t).2 (requests h t).1.
Proof.
  induction h as [|[env e] h IH]; intros t; cbn [requests]; [by apply announces_nothing|].
  destruct (call env e t) as [[r sent] t1] eqn:E. apply call_spec in E as (A & _). specialize (IH t1).
  destruct (requests h t1) as [more t2]. by apply (announces_app t t1 t2).
Qed.
End Requests.

(** C35: In any history of requests, whatever fails in them, an achievement is announced
    to a user at most once, and only when it was not awarded before and is after; and
    once a request has sent anything or changed a table, no later request with the same
    event does either. *)
Theorem saving_counts_once {D} `{!Decimal D} LoadLocation uuidString RFC3339Nano (rule : QualifyingRule (D:=D)) h t :
  let call := ProcessConfirmedDeposit LoadLocation uuidString RFC3339Nano rule in
  let '(sent, t') := requests LoadLocation uuidString RFC3339Nano rule h t in
  NoDup (unlocked sent) ∧ (∀ p, p ∈ unlocked sent → p ∉ g_awards t ∧ p ∈ g_awards t')
  ∧ (∀ env e env' e' r first t0, call env e t0 = (r, first, t) → first ≠ [] ∨ t ≠ t0 →
      se_id (identified uuidString RFC3339Nano e) = se_id (identified uuidString RFC3339Nano e') →
      ∃ r', call env' e' t' = (r', [], t')).
Proof.
  cbv zeta. pose proof (requests_announce LoadLocation uuidString RFC3339Nano rule h t) as [A1 A2 _ A4].
  destruct (requests _ _ _ rule h t) as [sent t']. split_and!; [done|done|]. intros env e env' e' r first t0 E Hdid Hid.
  apply call_spec in E as (_ & _ & Hrec). specialize (A4 _ (Hrec Hdid)). cbn [snd] in A4. rewrite Hid in A4.
  destruct (ProcessConfirmedDeposit _ _ _ _ env' e' t') as [[r' s'] t''] eqn:E'. exists r'.
  apply call_spec in E' as (_ & Hnone & _). by destruct (Hnone A4) as [-> ->].
Qed.
