(* ===== verification/GamificationScenes.v ===== *)
(** The savings streak on concrete users: instances of the theorems of
    [GamificationRuns], and where streaks and totals part from the rules that the
    package states. *)

From S2P Require Import Prelude Sql GoStrings Decimal Calendar.
From S2P Require Import Gamification.
From S2P Require Import GamificationRuns.
From stdpp Require Import pretty.
Open Scope Z_scope.
Open Scope go_scope.

(** All users are in UTC; days are counted from 2026-03-01. *)
Definition utc (name : string) : option (Time → Duration) := if decide (name = "UTC") then Some (λ _, 0) else None.
Definition at_day (d : Z) : Time := Date 2026 3 (1 + d) 12 0 0 0.
Definition saving (id : string) (d : Z) (amount : Q) : SavingEvent (D:=Q) :=
  mkSaving id 7 amount amount "deposit_confirmed" (at_day d) "UTC" false 0.
Definition rules : QualifyingRule (D:=Q) := NewGamificationEngine DefaultQualifyingRule.

Definition every_other_day : list (SavingEvent (D:=Q)) := (λ n : nat, saving "" (2 * Z.of_nat n) 10%Q) <$> seq 0 40.
Definition with_breaks : list (SavingEvent (D:=Q)) := [saving "" 0 10%Q; saving "" 1 20%Q; saving "" 1 50%Q; saving "" 4 5%Q; saving "" 6 5%Q].

Lemma streak_counts_days_witness :
  ∃ s, apply_all utc rules (newcomer "UTC" 7) with_breaks = Some s ∧ gs_streak s = 2 ∧ gs_longest s = 2 ∧ (dval (gs_saved s) == 40)%Q.
Proof.
  destruct (streak_counts_days utc "UTC" (λ _, 0) rules 7 with_breaks) as (s & E & H1 & H2 & H3 & _).
  - reflexivity.
  - discriminate.
  - reflexivity.
  - repeat (apply Forall_cons; split; [vm_compute; repeat split; discriminate|]). by apply Forall_nil.
  - vm_compute. repeat split; discriminate.
  - reflexivity.
  - exists s. split; [exact E|]. vm_compute in H1, H2, H3. split; [exact H1|split; [exact H2|exact H3]].
Defined.

(** A user who saves every second day has an unbroken streak of all of them: the grace
    that is said to cover one gap once covers every gap. *)
Example every_gap_is_covered :
  (λ s, (gs_streak s, gs_longest s)) <$> apply_all utc rules (newcomer "UTC" 7) every_other_day = Some (40, 40).
Proof. vm_compute. reflexivity. Qed.

(** An event that is delivered late sets the last day back: the streak of five days is
    lost with the next saving. *)
Example late_event_breaks_streak :
  let days := [saving "" 0 10%Q; saving "" 1 10%Q; saving "" 2 10%Q; saving "" 3 10%Q; saving "" 4 10%Q] in
  let streaks es := gs_streak <$> apply_all utc rules (newcomer "UTC" 7) es in
  streaks (days ++ [saving "" 5 10%Q]) = Some 6
  ∧ streaks (days ++ [saving "" 1 10%Q; saving "" 5 10%Q]) = Some 1.
Proof. vm_compute. by split. Qed.

(** A second saving on a day is not part of the total: 5 and 95 on one day are 5. *)
Example second_saving_is_not_counted :
  (λ s, (gs_saved s, gs_awarded s)) <$> apply_all utc rules (newcomer "UTC" 7) [saving "" 0 5%Q; saving "" 0 95%Q]
  = Some ((0 + 5)%Q, [AchievementFirstSave]).
Proof. vm_compute. reflexivity. Qed.

(** ** Requests *)

Definition scene_game : GameTables := mkGame {[7 := None]} ∅ ∅ ∅.
Definition rendered (t : Time) : string := pretty t.
Definition fine : GameEnv := mkGameEnv true DBOk (λ _, DBOk) DBOk true (at_day 1).
Definition saves (env : GameEnv) (id : string) (amount : Q) (t : GameTables) : result GameErr Progress * list Notification * GameTables :=
  ProcessConfirmedDeposit utc (λ u, pretty u) rendered rules env (saving id 0 amount) t.

Lemma saving_counts_once_witness :
  let t := (saves fine "d1" 150%Q scene_game).2 in
  ∃ r', saves fine "d1" 9000%Q (requests utc (λ u, pretty u) rendered rules [(fine, saving "d2" 3 10%Q); (fine, saving "d1" 0 10%Q)] t).2
        = (r', [], (requests utc (λ u, pretty u) rendered rules [(fine, saving "d2" 3 10%Q); (fine, saving "d1" 0 10%Q)] t).2).
Proof.
  cbv zeta. set (h := [(fine, saving "d2" 3 10%Q); (fine, saving "d1" 0 10%Q)]).
  pose proof (saving_counts_once utc (λ u, pretty u) rendered rules h (saves fine "d1" 150%Q scene_game).2) as H. cbv zeta in H.
  destruct (requests utc (λ u, pretty u) rendered rules h _) as [sent t']. destruct H as (_ & _ & H).
  apply (H fine (saving "d1" 0 150%Q) fine (saving "d1" 0 9000%Q) (saves fine "d1" 150%Q scene_game).1.1 (saves fine "d1" 150%Q scene_game).1.2 scene_game).
  - unfold saves. destruct (ProcessConfirmedDeposit _ _ _ _ _ _ _) as [[r s] t1]. reflexivity.
  - left. intros E. apply (f_equal length) in E. vm_compute in E. discriminate E.
  - reflexivity.
Defined.

(** The event is recorded before the state it leads to: when the last statement fails,
    the user has been told of a level and achievements that the state does not have, and
    a retry of the request leaves it so. *)
Example recorded_event_is_lost :
  let '(r, sent, t) := saves (mkGameEnv true DBOk (λ _, DBOk) (DBFail false) true (at_day 1)) "d1" 150%Q scene_game in
  let '(r', sent', t') := saves fine "d1" 150%Q t in
  r = Err ErrGameIO ∧ sent = [Unlocked 7 AchievementFirstSave; Unlocked 7 AchievementHundredSaved; LeveledUp 7 2]
  ∧ sent' = [] ∧ g_states t' = ∅ ∧ (pr_streak <$> match r' with Ok p => Some p | Err _ => None end) = Some 0.
Proof. vm_compute. by repeat split. Qed.

(** Two savings around midnight whose requests read the state before either wrote it:
    of 30 saved, 20 are left. *)
Example concurrent_saving_is_overwritten :
  let next e s := match Apply utc rules s e with Some (s, _) => s | None => s end in
  let first := saving "d1" 0 10%Q in let second := saving "d2" 1 20%Q in
  let saved s := sr_saved <$> g_states (UpsertState DBOk s scene_game).2 !! 7 in
  let read := scanState 7 None None in
  saved (next second (next first read)) = Some 300000000
  ∧ sr_saved <$> g_states (UpsertState DBOk (next second read) (UpsertState DBOk (next first read) scene_game).2).2 !! 7
    = Some 200000000.
Proof. vm_compute. by split. Qed.
